(* ===== verification/_CoqProject ===== *)
-Q . S2P
Prelude.v
Ranges.v
Netip.v
Wildcard.v
Lru.v
FakeIP.v
DomainTrie.v
Metadata.v
Hosts.v
Rules.v
RuleConfig.v
Tunnel.v
UdpNat.v
Health.v
Single.v
Groups.v
Balance.v
GroupsDag.v
DomainSet.v
Wire.v
Mrs.v
Sniffer.v
Dispatcher.v
TcpConn.v
Dns.v
DnsHandler.v
Arc.v
Tuic.v
TuicFrag.v
TuicServer.v
Dialogue.v
Socks5.v
Socks4.v
Socks.v
Trojan.v
Statistic.v
Resource.v
GroupConfig.v
Anytls.v
Skiplist.v
AnytlsPool.v
