(* ===== verification/Prelude.v ===== *)
(** * Verification of the routing core of FluxGate

    FluxGate is a VPN client whose core, under [src/core/mihomo], is the Go
    program mihomo: inbounds hand it connections, and it decides for each one
    where it goes.  This development models that decision and the data it rests
    on, and proves what makes it correct.  File names below are relative to
    [src/core/mihomo].

    ** The program and its model

    A TCP connection arrives with a [Metadata] record (Metadata.v:
    constant/metadata.go, constant/rule.go, constant/adapters.go), and
    [handleTCPConn] (TcpConn.v: tunnel/tunnel.go) takes it to the relay;
    [tunnel.fixMetadata] and [preHandleMetadata] (Tunnel.v: tunnel/tunnel.go)
    normalise its destination; an address of the fake range is mapped back to
    the host it was handed out for, by the resolver's enhancer and its pool
    (FakeIP.v: component/fakeip/pool.go and memory.go, dns/enhancer.go), whose
    store is the LRU cache (Lru.v: common/lru/lrucache.go); host names are
    looked up in the hosts table (Hosts.v: component/resolver/host.go and
    [parseHosts] of config/config.go), a domain trie (DomainTrie.v:
    component/trie/domain.go and node.go).  The sniffer may read a host in the
    first bytes of the connection (Dispatcher.v: component/sniffer/dispatcher.go;
    Sniffer.v: its TLS and HTTP sniffers).  [resolveMetadata] then builds a
    helper of three closures, which resolve the host and look up the process at
    most once, and by the mode or by [match] finds the outbound.  [match] walks
    the rules (Rules.v: rules/common, rules/logic, rules/provider); AND, OR,
    NOT, SUB-RULE and RULE-SET rules call on other rules.  Rules come from text
    (RuleConfig.v: rules/parser.go, rules/common/base.go, and the rule and
    sub-rule parsers of config/config.go); ports and the like are ranges of
    integers (Ranges.v: common/utils/range.go and ranges.go), host patterns are
    globs (Wildcard.v: component/wildcard).  The sets behind rule sets are a
    succinct trie of domains (DomainSet.v: component/trie/domain_set.go) and
    ranges of addresses, with a binary file format (Mrs.v: rules/provider,
    component/cidr; Wire.v is its reader monad).  The outbound found may
    be a group (Groups.v: adapter/outboundgroup, Balance.v: its load balancer),
    which chooses a member by what URL tests left behind (Health.v:
    adapter/adapter.go, common/queue), a URL-test group through the single
    flight of common/singledo (Single.v); groups are sorted by what they refer
    to and their dialer chains checked when the configuration is read
    (GroupsDag.v: config/utils.go), and made from their options, with the health
    checks of the providers they use (GroupConfig.v: adapter/outboundgroup/parser.go,
    adapter/provider/healthcheck.go).

    A UDP packet goes through a worker's queue and a NAT table to the session of
    its client (UdpNat.v: tunnel/connection.go, component/nat), whose goroutines
    write it to the outbound and its answers back.

    A DNS query meets a chain of handlers (DnsHandler.v: dns/middleware.go and
    dns/service.go, component/fakeip/skipper.go) that answer from the hosts
    table, from the fake pools, which skip what the fake-ip filter says, or from
    the resolver (Dns.v: dns/resolver.go, policy.go, util.go), whose cache is an
    LRU cache or an adaptive one (Arc.v: common/arc).

    Of the protocols of the outbounds and inbounds four are modelled.  TUIC, version
    5: its commands (Tuic.v: transport/tuic/v5/protocol.go), the fragmentation of
    packets (TuicFrag.v: frag.go and packet.go) and its server (TuicServer.v:
    server.go).  SOCKS, versions 4 and 5: the two ends of the handshakes are
    programs over a connection (Dialogue.v has what does not depend on the
    protocol; Socks5.v: transport/socks5, component/auth; Socks4.v:
    transport/socks4), and the listener that makes [Metadata] of what it is told
    stands beside the outbound that is its client (Socks.v: listener/socks,
    adapter/inbound, adapter/outbound/socks5.go).  Trojan: its header and packets,
    the two readers and the server (Trojan.v: transport/trojan, listener/trojan,
    listener/sing/util.go).  AnyTLS: the streams of a session, its padding and the first
    bytes of a connection (Anytls.v: transport/anytls, listener/anytls), and the client's
    pool of sessions (AnytlsPool.v: session/client.go), which keeps the idle ones in a skip
    list (Skiplist.v: transport/anytls/skiplist).  Netip.v has what the program uses of Go's package net/netip, and
    this file Go's integers and strings.

    The traffic of connections is counted by trackers and a manager (Statistic.v:
    tunnel/statistic), and what providers of proxies and rules hold is fetched
    from files and URLs (Resource.v: component/resource, component/slowdown).

    State is passed explicitly.  A record stands for a struct, with the names of
    its fields; a method that changes it returns the new one.  Where the code
    shares objects the model has a store: the entries of LRU caches live in a
    heap, because CloneTo makes two caches share them, and the members of a
    group are references whose health is looked up when it is read.  Rules run
    in a monad over the metadata and what the helper's closures capture, whose
    outcomes are a result, a Go panic and [OutOfFuel].  Concurrent parts are
    transition systems: the callers of a single flight, the streams and datagrams
    of a TUIC connection, the two ends of a SOCKS connection, the goroutines that
    count traffic, the overlapping updates of a resource, and the workers,
    channels and goroutines of the UDP sessions, whose theorems hold of every
    interleaving.

    ** What is proved

    - Tunnel: the outbound is that of the first enabled rule that matches and
      can be used, and the counters count the rules that were tried; matching
      keeps the request and makes at most one lookup of either kind; a connection to a fake address gets its host back.
    - TcpConn, Dispatcher, Sniffer: no byte of a connection is lost or doubled
      between the client and the relay; sniffing reads the server name of a
      client hello in any pieces, never reads outside the data, and rescues a
      connection to a fake address that is no longer known.
    - UdpNat: clients are kept apart, a destination keeps its address, answers
      come from where the client sent to, order is kept, every packet is released
      once unless it meets a closed session; the race that loses a packet's buffer.
    - Rules: logic rules of stateless rules are the Boolean connectives of what
      these say; a
      src rule set sees the connection with its ends exchanged and gives it back
      unchanged; IP suffixes compare the low bits.  What the code gets wrong is
      proved as well: the full-width suffix that panics, the rule set that
      contains itself and never answers, the sub-rules evaluated [2 ^ k] times,
      the process looked up at the wrong end.
    - RuleConfig: rule lines and logic payloads parse back to the parts they
      are made of; parsing ends; sub-rules the configuration accepts cannot
      loop where the rule sets are not circular, with a bound on the depth of calls.
    - FakeIP: over any run of the pool hosts and addresses are in one-to-one
      correspondence within the usable addresses of the range, and reading back an address gives the
      host.  The client's theorems are proved against the interface
      [StoreLaws], which the in-memory store discharges.
    - Lru, Arc: the linked list and map refine an ordered list of entries as the comments
      describe it, [GetWithExpire] of caches with ages apart; the
      adaptive cache is a bounded map that forgets, and resists scans.
    - DomainTrie, DomainSet, Wildcard, Ranges, Hosts: searching finds exactly
      what the inserted patterns match, in the documented priority; the succinct
      set agrees with the trie it is made from, where patterns are plain and the
      characters of a host come after [+], and where it does not; the backtracking matcher ends and
      decides the glob relation; parsing and merging of ranges; searches in an
      acyclic hosts table end with a usable answer.
    - Mrs: a rule set file that was written is read back to a set that answers
      the same; truncated files are errors.
    - Groups, Balance, Health, Single, GroupsDag: the cached member list is never
      stale and never empty; what each kind of group chooses; round robin is
      fair; jump hashing, with its floating-point arithmetic, ends in range and is
      consistent; the histories are the last ten results; no result computed
      before a reset is answered after it; the sorting of groups succeeds exactly
      without a cycle, and every group comes after what it refers to.
    - GroupConfig: exactly the valid options make a group, errors name what is
      wrong, and what a health check tests after any registrations; the proxies
      that nobody tests.
    - Dns, DnsHandler: answers the fallback filter finds poisoned are replaced,
      cached times to live are too long by a second at most, the policy of a name is the one
      documented; the fake address of a name, of either version, is handed out and read back; the
      filter is its first matching rule.
    - Tuic, TuicFrag, TuicServer: commands are read back as written; a packet cut
      into fragments is reassembled in any order of arrival; nothing is served
      before the client is authenticated, and an authenticated one is served.
    - Dialogue, Socks5, Socks4, Socks: the handshakes end as specified in every
      interleaving, and when the connection breaks an end may fail but does not
      succeed with something else; only verified users reach the tunnel; what the
      outbound sends through the inbound arrives with its destination; the long
      domain that makes the program panic.
    - Trojan: what the outbound writes arrives under the name of its user, and
      nothing arrives without a user's key; the reader of packets is a queue,
      and refuses a packet only to a buffer too short for an address.
    - Anytls, AnytlsPool, Skiplist: under any padding of 16-bit sizes the server of a session has the
      streams that the client opened with the bytes written to each; the linked levels of
      a skip list answer as a sorted list; no two streams share a session of the pool,
      which closes idle sessions only; the long write that is read as frames, the head in
      two parts that is refused, the hook that is set too late, and what finer interleavings break.
    - Statistic, Resource: no byte is counted twice or lost between trackers,
      totals and rates; a provider has the content whose hash is kept, the one its
      source has after an update unless hashes of contents it met collide, and the same after a restart; the waits between
      updates are bounded; the start that is empty for a file that cannot be
      opened, and the update that is made twice.

    ** Fuel

    Recursion the code does not bound by its data has fuel, and a theorem says
    how much is enough: [run_loop] of the wildcard matcher ends within the bound
    it is given; [ParseRule] needs two more than the length of the payload;
    [jump], the nesting of sub-rules and rule sets, needs the number of accepted
    sub-rule lists plus the depth of the rule sets; [jump_loop] of [jumpHash]
    needs one turn per bucket; [follow] of the hosts search needs the rank of
    the name in an acyclic table; the traversals of the domain set and of the
    group graph are bounded by their number of nodes, and the fill loop of a
    buffered connection by its buffer; the loops over Trojan packets need one turn
    per byte of the stream, or of the payload; [recvLoop] of AnyTLS needs a turn per frame,
    a walk in a level of a skip list one per node and one more.  The theorems about code that does not end
    say that no fuel is enough.

    ** What is not modelled

    Sockets, listeners, the wire protocols of the outbounds other than TUIC,
    SOCKS, Trojan and AnyTLS, TUN devices, the wire clients of the DNS resolver, the
    sniffing of QUIC (it decrypts packets), the HTTP controller, the HTTP client
    and the parsers behind providers, the bbolt cache file, YAML decoding, and
    the OpenHarmony bridge and application. Locks: every modelled operation
    holds its lock from beginning to end, except the single flight, which is
    modelled between its critical sections, the pool of AnyTLS sessions, whose
    steps are coarser than the locks (AnytlsPool.v), the UDP sessions, the statistics and
    the resources. Geodata and MMDB lookups, regular expressions, the process
    lookup, the message library of DNS, rank and select of the succinct set's
    library, hashes, clocks and random numbers are arguments of the definitions
    that use them. Letter case and white space cover ASCII. *)

From Stdlib Require Import ZArith Lia Ascii String.
From stdpp Require Import prelude strings gmap list fin_maps pretty.

#[global] Set Default Proof Using "Type".

(** ** Machine integers

    A Go integer type is an [IntType]; its values are kept as [Z], and an
    operation of the source that can leave the range is followed by [wrap],
    the truncation Go performs. *)

Class IntType := {
  it_width : Z;
  it_signed : bool;
  it_width_pos : (0 < it_width)%Z
}.

Definition tmin `{IntType} : Z := if it_signed then (- 2 ^ (it_width - 1))%Z else 0%Z.

Definition tmax `{IntType} : Z :=
  if it_signed then (2 ^ (it_width - 1) - 1)%Z else (2 ^ it_width - 1)%Z.

Definition wrap `{IntType} (z : Z) : Z := ((z - tmin) `mod` 2 ^ it_width + tmin)%Z.

Definition in_type `{IntType} (z : Z) : Prop := (tmin ≤ z ≤ tmax)%Z.

Definition uint8 : IntType := {| it_width := 8; it_signed := false; it_width_pos := eq_refl |}.

Definition uint16 : IntType := {| it_width := 16; it_signed := false; it_width_pos := eq_refl |}.

Definition uint32 : IntType := {| it_width := 32; it_signed := false; it_width_pos := eq_refl |}.

Definition uint64 : IntType := {| it_width := 64; it_signed := false; it_width_pos := eq_refl |}.

Definition int32 : IntType := {| it_width := 32; it_signed := true; it_width_pos := eq_refl |}.

Definition int64 : IntType := {| it_width := 64; it_signed := true; it_width_pos := eq_refl |}.

Declare Scope go_scope.

(** Conversions to the unsigned types, as [uint16(x)] in the source. *)
Notation "'to_u16' x" := (@wrap uint16 x) (at level 10, x at level 9) : go_scope.
Notation "'to_u32' x" := (@wrap uint32 x) (at level 10, x at level 9) : go_scope.
Notation "'to_i32' x" := (@wrap int32 x) (at level 10, x at level 9) : go_scope.
Notation "'to_u64' x" := (@wrap uint64 x) (at level 10, x at level 9) : go_scope.

(** ** Go strings

    A Go string is a byte string.  The functions of package [strings] the
    source uses are modelled on bytes; the letter case and white space
    functions cover the ASCII range, which is the range of host names (an
    internationalised name is in its punycode form when it reaches the
    router). *)

Abbreviation bytes := String.list_ascii_of_string.
Abbreviation of_bytes := String.string_of_list_ascii.

Definition is_upper (c : ascii) : bool :=
  let n := N_of_ascii c in (65 <=? n)%N && (n <=? 90)%N.

Definition is_lower (c : ascii) : bool :=
  let n := N_of_ascii c in (97 <=? n)%N && (n <=? 122)%N.

Definition lower_ascii (c : ascii) : ascii :=
  if is_upper c then ascii_of_N (N_of_ascii c + 32) else c.

Definition upper_ascii (c : ascii) : ascii :=
  if is_lower c then ascii_of_N (N_of_ascii c - 32) else c.

Fixpoint string_map (f : ascii → ascii) (s : string) : string :=
  match s with
  | EmptyString => EmptyString
  | String c s' => String (f c) (string_map f s')
  end.

Definition ToLower (s : string) : string := string_map lower_ascii s.

Definition ToUpper (s : string) : string := string_map upper_ascii s.

Definition EqualFold (a b : string) : bool := bool_decide (ToLower a = ToLower b).

(** [unicode.IsSpace] on the ASCII range. *)
Definition is_space (c : ascii) : bool :=
  let n := N_of_ascii c in ((9 <=? n)%N && (n <=? 13)%N) || (n =? 32)%N.

Fixpoint drop_while {A} (f : A → bool) (l : list A) : list A :=
  match l with
  | [] => []
  | x :: l' => if f x then drop_while f l' else l
  end.

Definition trim_bytes (f : ascii → bool) (l : list ascii) : list ascii :=
  reverse (drop_while f (reverse (drop_while f l))).

Definition Trim (f : ascii → bool) (s : string) : string :=
  of_bytes (trim_bytes f (bytes s)).

Definition TrimSpace (s : string) : string := Trim is_space s.

Definition HasPrefix (s p : string) : bool := bool_decide (bytes p `prefix_of` bytes s).

Definition HasSuffix (s p : string) : bool := bool_decide (bytes p `suffix_of` bytes s).

Fixpoint contains_bytes (l p : list ascii) : bool :=
  bool_decide (p `prefix_of` l) ||
  match l with
  | [] => false
  | _ :: l' => contains_bytes l' p
  end.

Definition Contains (s p : string) : bool := contains_bytes (bytes s) (bytes p).

(** Durations of package time, in nanoseconds. *)
Definition Millisecond : Z := 1000000%Z.

Definition Second : Z := (1000 * Millisecond)%Z.

(** [strings.Split] for a one-byte separator: always at least one part. *)
Fixpoint split_bytes (sep : ascii) (l : list ascii) : list (list ascii) :=
  match l with
  | [] => [[]]
  | c :: l' =>
    if decide (c = sep) then [] :: split_bytes sep l'
    else match split_bytes sep l' with
         | [] => [[c]]
         | p :: ps => (c :: p) :: ps
         end
  end.

Definition Split (s : string) (sep : ascii) : list string :=
  map of_bytes (split_bytes sep (bytes s)).

Fixpoint join_bytes (sep : list ascii) (ps : list (list ascii)) : list ascii :=
  match ps with
  | [] => []
  | [p] => p
  | p :: ps' => p ++ sep ++ join_bytes sep ps'
  end.

Definition Join (ps : list string) (sep : string) : string :=
  of_bytes (join_bytes (bytes sep) (map bytes ps)).

Definition ReplaceAll (s : string) (a b : ascii) : string :=
  string_map (λ c, if decide (c = a) then b else c) s.

(** [strings.TrimRight(s, ".")]. *)
Definition TrimRight_dots (s : string) : string :=
  of_bytes (reverse (drop_while (λ c, bool_decide (c = "."%char)) (reverse (bytes s)))).

(** [net.JoinHostPort]. *)
Definition JoinHostPort (host port : string) : string :=
  if Contains host ":" then ("[" +:+ host +:+ "]:" +:+ port)%string else (host +:+ ":" +:+ port)%string.

(** [strconv.ParseUint(s, 10, 64)]: decimal digits only, at least one, and the
    value in range; [None] is the error. *)
Definition digit_val (c : ascii) : option Z :=
  let n := N_of_ascii c in
  if (48 <=? n)%N && (n <=? 57)%N then Some (Z.of_N n - 48)%Z else None.

Fixpoint digits_val (acc : Z) (l : list ascii) : option Z :=
  match l with
  | [] => Some acc
  | c :: l' => d ← digit_val c; digits_val (10 * acc + d)%Z l'
  end.

Definition ParseUint (s : string) : option Z :=
  match bytes s with
  | [] => None
  | l => n ← digits_val 0 l; if (n <? 2 ^ 64)%Z then Some n else None
  end.

(** [strconv.ParseInt(s, 10, 64)]: an optional sign, then as [ParseUint]. *)
Definition ParseInt (s : string) : option Z :=
  match s with
  | EmptyString => None
  | String c s' =>
    let neg := bool_decide (c = "-"%char) in
    let body := if neg || bool_decide (c = "+"%char) then s' else s in
    n ← ParseUint body;
    if neg then (if (n <=? 2 ^ 63)%Z then Some (- n)%Z else None)
    else (if (n <? 2 ^ 63)%Z then Some n else None)
  end.

(** ** Tactics *)

(** Linear arithmetic over the bounds of an integer type. *)
Ltac int_lia := unfold in_type, tmin, tmax, uint8, uint16, uint32, uint64, int32, int64 in *; simpl in *; lia.

(** Destruct the scrutinee of the first [match] or [if] of the goal. *)
Ltac case_goal :=
  match goal with
  | |- context [match ?x with _ => _ end] => destruct x eqn:?
  end.

(** ** Lemmas on machine integers *)

Section IntLemmas.
Context {T : IntType}.

Lemma tmax_tmin : (tmax + 1 = tmin + 2 ^ it_width)%Z.
Proof.
  unfold tmax, tmin. pose proof it_width_pos. destruct it_signed; [|lia].
  replace (2 ^ it_width)%Z with (2 * 2 ^ (it_width - 1))%Z; [lia|].
  rewrite <- Z.pow_succ_r by lia. f_equal. lia.
Qed.

Lemma pow_width_pos : (0 < 2 ^ it_width)%Z.
Proof. pose proof it_width_pos. apply Z.pow_pos_nonneg; lia. Qed.

Lemma wrap_in_type z : in_type (wrap z).
Proof.
  unfold in_type, wrap. pose proof tmax_tmin. pose proof pow_width_pos.
  pose proof (Z.mod_pos_bound (z - tmin) (2 ^ it_width)). lia.
Qed.

Lemma wrap_id z : in_type z → wrap z = z.
Proof.
  unfold in_type, wrap. intros ?. pose proof tmax_tmin. rewrite Z.mod_small; lia.
Qed.

Lemma wrap_unsigned z : it_signed = false → (0 ≤ wrap z < 2 ^ it_width)%Z.
Proof.
  intros Hs. unfold wrap, tmin. rewrite Hs, Z.add_0_r. apply Z.mod_pos_bound, pow_width_pos.
Qed.

Lemma wrap_add_wrap a b : it_signed = false → wrap (wrap a + b) = wrap (a + b).
Proof.
  intros Hs. unfold wrap, tmin. rewrite Hs, !Z.sub_0_r, !Z.add_0_r. by rewrite Zplus_mod_idemp_l.
Qed.

Lemma wrap_succ z : in_type z → (z < tmax)%Z → wrap (z + 1) = (z + 1)%Z.
Proof. unfold in_type. intros ??. apply wrap_id. unfold in_type. lia. Qed.

Lemma wrap_succ_max : wrap (tmax + 1) = tmin.
Proof.
  unfold wrap. rewrite tmax_tmin.
  replace (tmin + 2 ^ it_width - tmin)%Z with (2 ^ it_width)%Z by lia.
  rewrite Z_mod_same_full. lia.
Qed.

Lemma wrap_succ_lt z : in_type z → (wrap (z + 1) <? z)%Z = bool_decide (z = tmax) || (tmax <? tmin)%Z.
Proof.
  intros Hz. pose proof tmax_tmin. pose proof pow_width_pos.
  replace (tmax <? tmin)%Z with false by lia.
  destruct (decide (z = tmax)) as [->|Hne].
  - rewrite wrap_succ_max, bool_decide_true by done. simpl.
    unfold in_type in Hz. unfold tmin, tmax in *.
    pose proof it_width_pos. destruct it_signed.
    + pose proof (Z.pow_pos_nonneg 2 (it_width - 1)). lia.
    + assert (2 ^ 1 ≤ 2 ^ it_width)%Z by (apply Z.pow_le_mono_r; lia). lia.
  - rewrite bool_decide_false by done. unfold in_type in Hz. rewrite wrap_succ by (unfold in_type; lia).
    simpl. lia.
Qed.

End IntLemmas.

(** ** Lemmas on strings and bytes *)

Lemma bytes_app a b : bytes (a +:+ b) = bytes a ++ bytes b.
Proof. induction a as [|c a IH]; simpl; [done|]. by rewrite IH. Qed.

Lemma bytes_of_bytes l : bytes (of_bytes l) = l.
Proof. apply String.list_ascii_of_string_of_list_ascii. Qed.

Lemma of_bytes_bytes s : of_bytes (bytes s) = s.
Proof. apply String.string_of_list_ascii_of_string. Qed.

Lemma bytes_inj a b : bytes a = bytes b → a = b.
Proof. intros H. by rewrite <- (of_bytes_bytes a), <- (of_bytes_bytes b), H. Qed.

Lemma bytes_string_map f s : bytes (string_map f s) = map f (bytes s).
Proof. induction s as [|c s IH]; simpl; [done|]. by rewrite IH. Qed.

Lemma string_map_id f s : Forall (λ c, f c = c) (bytes s) → string_map f s = s.
Proof.
  induction s as [|c s IH]; simpl; [done|]. intros [-> ?]%Forall_cons. by rewrite IH.
Qed.

Lemma bytes_length s : length (bytes s) = String.length s.
Proof. induction s as [|c s IH]; simpl; [done|]. by rewrite IH. Qed.

Lemma string_map_length f s : String.length (string_map f s) = String.length s.
Proof. induction s as [|c s IH]; simpl; [done|]. by rewrite IH. Qed.

Lemma ToLower_app a b : ToLower (a +:+ b) = ToLower a +:+ ToLower b.
Proof. induction a as [|c a IH]; [done|]. unfold ToLower in *. simpl. by rewrite IH. Qed.

Lemma lower_ascii_idemp c : lower_ascii (lower_ascii c) = lower_ascii c.
Proof. destruct c as [[] [] [] [] [] [] [] []]; reflexivity. Qed.

Lemma ToLower_idemp s : ToLower (ToLower s) = ToLower s.
Proof. unfold ToLower. induction s as [|c s IH]; simpl; [done|]. by rewrite IH, lower_ascii_idemp. Qed.

Lemma drop_while_none {A} (f : A → bool) l : Forall (λ x, f x = false) l → drop_while f l = l.
Proof. by destruct 1 as [|x l Hx]; simpl; [|rewrite Hx]. Qed.

Lemma trim_none f s : Forall (λ c, f c = false) (bytes s) → Trim f s = s.
Proof.
  intros H. unfold Trim, trim_bytes. rewrite (drop_while_none f (bytes s)) by done.
  rewrite drop_while_none by by apply Forall_reverse.
  by rewrite reverse_involutive, of_bytes_bytes.
Qed.

Lemma drop_while_idem {A} (f : A → bool) l : drop_while f (drop_while f l) = drop_while f l.
Proof. induction l as [|c l IH]; [done|]. cbn. destruct (f c) eqn:Hc; [done|]. cbn. by rewrite Hc. Qed.

Lemma drop_while_suffix {A} (f : A → bool) l : ∃ k, l = k ++ drop_while f l.
Proof. induction l as [|c l [k IH]]; [by exists []|]. cbn. destruct (f c); [exists (c :: k); cbn; by f_equal|by exists []]. Qed.

Lemma trim_bytes_idem f l : trim_bytes f (trim_bytes f l) = trim_bytes f l.
Proof.
  unfold trim_bytes. set (d := drop_while f l). destruct (drop_while_suffix f (reverse d)) as [k Hk]. set (r := drop_while f (reverse d)) in *.
  assert (drop_while f (reverse r) = reverse r) as ->; [|by rewrite reverse_involutive; unfold r; rewrite drop_while_idem].
  assert (d = reverse r ++ reverse k) as Hd by (rewrite <- reverse_app, <- Hk; by rewrite reverse_involutive).
  pose proof (drop_while_idem f l) as Hi. fold d in Hi. rewrite Hd in Hi. destruct (reverse r) as [|c r']; [done|]. cbn in Hi |- *.
  destruct (f c); [|done]. exfalso. destruct (drop_while_suffix f (r' ++ reverse k)) as [j Hj]. apply (f_equal length) in Hi, Hj.
  cbn in Hi. rewrite !length_app in *. lia.
Qed.

Lemma TrimSpace_idem s : TrimSpace (TrimSpace s) = TrimSpace s.
Proof. unfold TrimSpace, Trim. by rewrite bytes_of_bytes, trim_bytes_idem. Qed.

Lemma split_bytes_not_nil sep l : split_bytes sep l ≠ [].
Proof. destruct l; simpl; [done|]. repeat case_match; done. Qed.

Lemma split_bytes_none sep l : sep ∉ l → split_bytes sep l = [l].
Proof.
  induction l as [|c l IH]; simpl; [done|]. intros [??]%not_elem_of_cons.
  rewrite decide_False by done. by rewrite IH.
Qed.

Lemma split_bytes_app sep l l' :
  sep ∉ l → split_bytes sep (l ++ sep :: l') = l :: split_bytes sep l'.
Proof.
  induction l as [|c l IH]; simpl.
  - intros _. by rewrite decide_True.
  - intros [??]%not_elem_of_cons. rewrite decide_False by done. by rewrite IH.
Qed.

Lemma split_join_bytes sep ps :
  ps ≠ [] → Forall (λ p, sep ∉ p) ps → split_bytes sep (join_bytes [sep] ps) = ps.
Proof.
  induction ps as [|p ps IH]; [done|]. intros _ [Hp Hps]%Forall_cons.
  destruct ps as [|q ps]; simpl; [by apply split_bytes_none|].
  rewrite split_bytes_app by done. f_equal. by apply IH.
Qed.

Lemma join_split_bytes sep l : join_bytes [sep] (split_bytes sep l) = l.
Proof.
  induction l as [|c l IH]; simpl; [done|].
  pose proof (split_bytes_not_nil sep l).
  case_decide as Hc.
  - subst c. destruct (split_bytes sep l); [done|]. simpl in *. by rewrite IH.
  - destruct (split_bytes sep l) as [|p ps]; [done|]. rewrite <- IH. by destruct ps.
Qed.

Lemma split_bytes_free sep l : Forall (λ p, sep ∉ p) (split_bytes sep l).
Proof.
  induction l as [|c l IH]; simpl; [by repeat constructor; apply not_elem_of_nil|]. case_decide as Hc; [constructor; [apply not_elem_of_nil|done]|].
  destruct (split_bytes sep l) as [|p ps]; [constructor; [|done]; rewrite not_elem_of_cons; split; [congruence|apply not_elem_of_nil]|].
  inversion IH; subst. constructor; [|done]. rewrite not_elem_of_cons. split; [congruence|done].
Qed.

Lemma map_bytes_of_bytes ls : map bytes (map of_bytes ls) = ls.
Proof. induction ls as [|l ls IH]; simpl; [done|]. by rewrite bytes_of_bytes, IH. Qed.

Lemma Join_Split s sep : Join (Split s sep) (String sep "") = s.
Proof.
  unfold Join, Split. rewrite map_bytes_of_bytes. simpl.
  by rewrite join_split_bytes, of_bytes_bytes.
Qed.

Lemma Split_Join ps sep :
  ps ≠ [] → Forall (λ p, sep ∉ bytes p) ps → Split (Join ps (String sep "")) sep = ps.
Proof.
  intros Hne Hps. unfold Join, Split. rewrite bytes_of_bytes. simpl.
  rewrite split_join_bytes.
  - rewrite map_map. rewrite <- (map_id ps) at 2. apply map_ext. intros. apply of_bytes_bytes.
  - by destruct ps.
  - by apply Forall_map.
Qed.

(** ** Decimal numerals *)

Definition is_digit (c : ascii) : Prop := is_Some (digit_val c).

Lemma pretty_N_char_val x : (x < 10)%N → digit_val (pretty_N_char x) = Some (Z.of_N x).
Proof.
  intros Hx.
  assert (x = 0 ∨ x = 1 ∨ x = 2 ∨ x = 3 ∨ x = 4 ∨ x = 5 ∨ x = 6 ∨ x = 7 ∨ x = 8 ∨ x = 9)%N as H by lia.
  by destruct_or! H; subst x.
Qed.

Lemma pretty_N_go_digits x s :
  digits_val 0 (bytes (pretty_N_go x s)) = digits_val (Z.of_N x) (bytes s) ∧
  (Forall is_digit (bytes s) → Forall is_digit (bytes (pretty_N_go x s))) ∧
  ((0 < x)%N ∨ s ≠ ""%string → bytes (pretty_N_go x s) ≠ []).
Proof.
  revert s. induction (N.lt_wf_0 x) as [x _ IH]; intros s.
  destruct (decide (x = 0)%N) as [->|Hx].
  - rewrite pretty_N_go_0. split_and!; [done|done|]. intros [?|?]; [lia|]. by destruct s.
  - rewrite pretty_N_go_step by lia.
    assert (x `mod` 10 < 10)%N as Hmod by (apply N.mod_lt; done).
    destruct (IH (x `div` 10)%N ltac:(apply N.div_lt; lia)
      (String (pretty_N_char (x `mod` 10)) s)) as (Hv & Hd & Hne).
    split_and!.
    + rewrite Hv. simpl. rewrite pretty_N_char_val by done. simpl. f_equal.
      rewrite (N.Div0.div_mod x 10) at 3. lia.
    + intros Hs. apply Hd. simpl. constructor; [|done].
      unfold is_digit. rewrite pretty_N_char_val by done. by eexists.
    + intros _. apply Hne. by right.
Qed.

Lemma pretty_Z_digits n :
  (0 ≤ n)%Z →
  digits_val 0 (bytes (pretty n)) = Some n ∧
  Forall is_digit (bytes (pretty n)) ∧ bytes (pretty n) ≠ [].
Proof.
  intros Hn.
  assert (pretty n = pretty (Z.to_N n)) as -> by (by destruct n; [..|lia]).
  unfold pretty, pretty_N. case_decide as Hz.
  - assert (n = 0)%Z as -> by lia. split_and!; [done| |done].
    simpl. constructor; [by eexists|done].
  - destruct (pretty_N_go_digits (Z.to_N n) "") as (Hv & Hd & Hne).
    split_and!; [rewrite Hv; simpl; f_equal; lia|by apply Hd|]. apply Hne. left. lia.
Qed.

Lemma digits_val_nonneg acc l n : (0 ≤ acc)%Z → digits_val acc l = Some n → (0 ≤ n)%Z.
Proof.
  revert acc. induction l as [|c l IH]; simpl; intros acc Hacc Hn; [by simplify_eq|].
  destruct (digit_val c) as [d|] eqn:Hd; simpl in Hn; [|done]. apply (IH (10 * acc + d)%Z); [|done].
  unfold digit_val in Hd. destruct (48 <=? N_of_ascii c)%N eqn:H1; simpl in Hd; [|done].
  case_match; simplify_eq. apply N.leb_le in H1. lia.
Qed.

Lemma ParseUint_range s n : ParseUint s = Some n → (0 ≤ n < 2 ^ 64)%Z.
Proof.
  unfold ParseUint. destruct (bytes s) as [|c l]; [done|].
  destruct (digits_val 0 (c :: l)) as [v|] eqn:Hv; cbn [mbind option_bind]; [|done].
  case_match eqn:Hlt; intros; simplify_eq. apply Z.ltb_lt in Hlt.
  split; [|done]. by apply (digits_val_nonneg 0 (c :: l)).
Qed.

Lemma ParseUint_pretty n : (0 ≤ n < 2 ^ 64)%Z → ParseUint (pretty n) = Some n.
Proof.
  intros Hn. destruct (pretty_Z_digits n ltac:(lia)) as (Hv & _ & Hne).
  unfold ParseUint. destruct (bytes (pretty n)) eqn:Hb; [done|].
  rewrite Hv. simpl. by rewrite (proj2 (Z.ltb_lt _ _)) by lia.
Qed.

(** A decimal numeral avoids every byte that is not a digit. *)
Lemma digits_avoid c l : digit_val c = None → Forall is_digit l → c ∉ l.
Proof.
  intros Hc Hl Hin. rewrite Forall_forall in Hl. destruct (Hl _ Hin). congruence.
Qed.

Lemma digits_pred (f : ascii → bool) l :
  (∀ c, f c = true → digit_val c = None) → Forall is_digit l → Forall (λ c, f c = false) l.
Proof.
  intros Hf Hl. eapply Forall_impl; [exact Hl|]. intros c [d Hd]. destruct (f c) eqn:Hc; [|done].
  apply Hf in Hc. congruence.
Qed.

Create HintDb ints.
#[export] Hint Resolve wrap_in_type wrap_id : ints.

(** The views of a string: as bytes, joined and split. *)
Create HintDb gostr.
#[export] Hint Rewrite bytes_app bytes_of_bytes of_bytes_bytes bytes_string_map map_bytes_of_bytes Join_Split : gostr.

(** ** Lemmas on lists *)

Lemma Forall2_filter_iff {A B} (R : A → B → Prop) (P : A → Prop) (Q : B → Prop)
    `{∀ x, Decision (P x), ∀ y, Decision (Q y)} l k :
  Forall2 R l k → (∀ x y, x ∈ l → R x y → P x ↔ Q y) → Forall2 R (filter P l) (filter Q k).
Proof.
  induction 1 as [|x y l k HR HF IH]; intros HPQ; [done|].
  assert (P x ↔ Q y) by (apply HPQ; [left|done]).
  rewrite !filter_cons. repeat case_decide; try tauto.
  - constructor; [done|]. apply IH. intros. apply HPQ; [by right|done].
  - apply IH. intros. apply HPQ; [by right|done].
Qed.

Lemma Forall2_elem_l {A B} (R : A → B → Prop) l k x :
  Forall2 R l k → x ∈ l → ∃ y, y ∈ k ∧ R x y.
Proof.
  induction 1 as [|x' y l k HR HF IH]; intros Hin; [by apply not_elem_of_nil in Hin|].
  apply elem_of_cons in Hin as [->|Hin]; [exists y; by split; [left|]|].
  destruct (IH Hin) as (z & ? & ?). exists z. by split; [right|].
Qed.

Lemma Forall2_elem_r {A B} (R : A → B → Prop) l k y :
  Forall2 R l k → y ∈ k → ∃ x, x ∈ l ∧ R x y.
Proof.
  intros HF Hin. apply Forall2_flip in HF. destruct (Forall2_elem_l _ _ _ y HF Hin) as (x & ? & ?). eauto.
Qed.

Lemma filter_all {A} (P : A → Prop) `{∀ x, Decision (P x)} l : Forall P l → filter P l = l.
Proof.
  induction 1 as [|x l Hx Hl IH]; [done|]. rewrite filter_cons, decide_True by done. by rewrite IH.
Qed.

Lemma list_filter_iff_on {A} (P Q : A → Prop) `{∀ x, Decision (P x), ∀ x, Decision (Q x)} (l : list A) :
  (∀ x, x ∈ l → P x ↔ Q x) → filter P l = filter Q l.
Proof.
  induction l as [|x l IH]; intros HPQ; [done|]. rewrite !filter_cons.
  assert (P x ↔ Q x) by (apply HPQ; left). rewrite IH by (intros; apply HPQ; by right).
  repeat case_decide; tauto.
Qed.

Lemma elem_of_concat {A} (x : A) ls : x ∈ concat ls ↔ ∃ l, x ∈ l ∧ l ∈ ls.
Proof.
  rewrite list_elem_of_In, in_concat. by setoid_rewrite <- list_elem_of_In; naive_solver.
Qed.

Lemma existsb_ext_all {A} (f g : A → bool) l : (∀ x, f x = g x) → existsb f l = existsb g l.
Proof. intros H. induction l as [|x l IH]; simpl; [done|]. by rewrite H, IH. Qed.

Lemma forallb_negb_existsb {A} (f : A → bool) l : forallb f l = negb (existsb (λ x, negb (f x)) l).
Proof. induction l as [|x l IH]; simpl; [done|]. rewrite IH. by destruct (f x). Qed.

Lemma not_existsb {A} (f : A → bool) l : ¬ existsb f l ↔ ∀ a, a ∈ l → f a = false.
Proof.
  split.
  - intros Hn a Ha. destruct (f a) eqn:Hfa; [|done]. destruct Hn. apply Is_true_true, existsb_exists.
    exists a. by rewrite <- list_elem_of_In.
  - intros Hall Hx. apply Is_true_true, existsb_exists in Hx as (a & Ha & Hfa).
    rewrite Hall in Hfa; [done|]. by apply list_elem_of_In.
Qed.

Lemma elem_of_concat_map {A B} (f : A → list B) l x : x ∈ concat (map f l) ↔ ∃ a, a ∈ l ∧ x ∈ f a.
Proof.
  rewrite elem_of_concat. split.
  - intros (b & Hx & (a & -> & Ha)%list_elem_of_fmap). eauto.
  - intros (a & Ha & Hx). exists (f a). split; [done|]. by apply list_elem_of_fmap_2.
Qed.

Lemma take_at {A} (l l' r : list A) : l = l' ++ r → take (length l') l = l'.
Proof. intros ->. apply take_app_length. Qed.

(** The last [n] of a list. *)
Definition last_n {A} (n : nat) (l : list A) : list A := drop (length l - n) l.

Lemma last_n_short {A} n (l : list A) : length l ≤ n → last_n n l = l.
Proof. intros Hl. unfold last_n. by replace (length l - n) with 0 by lia. Qed.

Lemma last_n_length {A} n (l : list A) : length (last_n n l) = length l `min` n.
Proof. unfold last_n. rewrite length_drop. lia. Qed.
