(* ===== verification/Ranges.v ===== *)
(** * Integer ranges: [common/utils/range.go] and [common/utils/ranges.go]

    [Range] is a closed interval of a Go integer type, [IntRanges] a list of
    them where the empty list stands for every value.  The file models the
    parsers, the tests, the iteration and the in-place [Merge]; it proves that
    printing and parsing are inverse, that the iteration visits each value
    once and ends even at the largest value of the type, and that [Merge]
    keeps the set of values and leaves disjoint, separated ranges. *)

From Stdlib Require Import ZArith Lia Ascii String.
From stdpp Require Import prelude strings gmap list sorting pretty.
From S2P Require Import Prelude.

Section Ranges.
Context {T : IntType}.

Record Range := mkRange { start : Z; end_ : Z }.

#[global] Instance Range_eq_dec : EqDecision Range.
Proof. solve_decision. Defined.

Definition NewRange (s e : Z) : Range :=
  if (e <? s)%Z then mkRange e s else mkRange s e.

Definition RangeContains (r : Range) (t : Z) : bool := (start r <=? t)%Z && (t <=? end_ r)%Z.

Definition LeftContains (r : Range) (t : Z) : bool := (start r <=? t)%Z && (t <? end_ r)%Z.

Definition RightContains (r : Range) (t : Z) : bool := (start r <? t)%Z && (t <=? end_ r)%Z.

Definition Range_String (r : Range) : string :=
  if (start r =? end_ r)%Z then pretty (start r)
  else (pretty (start r) +:+ "-" +:+ pretty (end_ r))%string.

(** ** Parsing *)

Definition parseUnsigned (s : string) : option Z := wrap <$> ParseUint s.

Definition parseSigned (s : string) : option Z := wrap <$> ParseInt s.

(** The cut set ["[ ]"] of the [strings.Trim] around a bound. *)
Definition bound_cut (c : ascii) : bool :=
  bool_decide (c = "["%char) || bool_decide (c = " "%char) || bool_decide (c = "]"%char).

Definition newIntRange (parseFn : string → option Z) (s0 : string) : option Range :=
  let s := TrimSpace s0 in
  if bool_decide (s = "")%string then Some (NewRange 0 0)
  else match Split s "-" with
       | [] => None
       | p0 :: rest =>
         b ← parseFn (Trim bound_cut p0);
         match rest with
         | [] => Some (NewRange b b)
         | [p1] => e ← parseFn (Trim bound_cut p1); Some (NewRange b e)
         | _ => None
         end
       end.

Definition NewUnsignedRange (s : string) : option Range := newIntRange parseUnsigned s.

Definition NewSignedRange (s : string) : option Range := newIntRange parseSigned s.

Definition IntRanges := list Range.

Fixpoint newIntRangesFromList (parseFn : string → option Z) (l : list string) : option IntRanges :=
  match l with
  | [] => Some []
  | s :: l' =>
    if bool_decide (s = "")%string then newIntRangesFromList parseFn l'
    else r ← newIntRange parseFn s;
         rs ← newIntRangesFromList parseFn l';
         Some (r :: rs)
  end.

Definition newIntRanges (parseFn : string → option Z) (expected0 : string) : option IntRanges :=
  let expected := TrimSpace expected0 in
  if bool_decide (expected = "")%string || bool_decide (expected = "*")%string then Some []
  else
    let l := Split (ReplaceAll expected "," "/") "/" in
    if (28 <? length l)%nat then None else newIntRangesFromList parseFn l.

Definition NewUnsignedRanges (s : string) : option IntRanges := newIntRanges parseUnsigned s.

Definition NewSignedRanges (s : string) : option IntRanges := newIntRanges parseSigned s.

Definition IntRanges_String (rs : IntRanges) : string :=
  match rs with
  | [] => "*"
  | _ => Join (map Range_String rs) "/"
  end.

(** ** Tests and iteration *)

Definition any_contains (rs : IntRanges) (t : Z) : bool :=
  existsb (λ r, RangeContains r t) rs.

Definition Check (rs : IntRanges) (t : Z) : bool :=
  match rs with
  | [] => true
  | _ => any_contains rs t
  end.

(** [IntRanges.Range(f)]: the callback is a state transformer that says
    whether to go on.  The outer result is [None] only when the fuel of the
    inner loop runs out; the flag says whether the callback stopped it. *)
Fixpoint iter_range {A} (fuel : nat) (r : Range) (f : Z → A → A * bool) (i : Z) (a : A)
    : option (A * bool) :=
  match fuel with
  | O => None
  | S fuel' =>
    if (i <=? end_ r)%Z && (start r <=? i)%Z then
      let '(a', ok) := f i a in
      if ok then
        if (wrap (i + 1) <? i)%Z then Some (a', true)
        else iter_range fuel' r f (wrap (i + 1)) a'
      else Some (a', false)
    else Some (a, true)
  end.

Fixpoint RangeIter {A} (rs : IntRanges) (f : Z → A → A * bool) (a : A) : option A :=
  match rs with
  | [] => Some a
  | r :: rs' =>
    '(a', ok) ← iter_range (S (Z.to_nat (end_ r - start r + 1))) r f (start r) a;
    if (ok : bool) then RangeIter rs' f a' else Some a'
  end.

(** ** Merge, in place

    [mergedRanges] is a prefix of the receiver's own array, so [append]
    writes into the array that the loop is reading: the state is the array
    and [rangeIndex], and [mergedRanges] is [take (S rangeIndex) arr]. *)

Definition start_le (a b : Range) : Prop := (start a ≤ start b)%Z.

#[global] Instance start_le_dec a b : Decision (start_le a b).
Proof. unfold start_le. apply _. Defined.

Definition gap (m r : Range) : bool :=
  (end_ m <? wrap (end_ m + 1))%Z && (wrap (end_ m + 1) <? start r)%Z.

Definition merge_step (arr : list Range) (ri : nat) (i : nat) : list Range * nat :=
  match arr !! i, arr !! ri with
  | Some r, Some m =>
    if gap m r then (<[S ri := r]> arr, S ri)
    else if (end_ m <? end_ r)%Z then (<[ri := mkRange (start m) (end_ r)]> arr, ri)
    else (arr, ri)
  | _, _ => (arr, ri)
  end.

Fixpoint merge_loop (n : nat) (arr : list Range) (ri : nat) (i : nat) : list Range * nat :=
  match n with
  | O => (arr, ri)
  | S n' => let '(arr', ri') := merge_step arr ri i in merge_loop n' arr' ri' (S i)
  end.

Definition merge_sorted (arr : list Range) : list Range :=
  match arr with
  | [] => []
  | _ => let '(arr', ri) := merge_loop (length arr - 1) arr 0 1 in take (S ri) arr'
  end.

Definition Merge (rs : IntRanges) : IntRanges := merge_sorted (merge_sort start_le rs).

(** ** Specifications *)

(** Visiting a list of values until the callback says stop. *)
Fixpoint visit {A} (f : Z → A → A * bool) (l : list Z) (a : A) : A * bool :=
  match l with
  | [] => (a, true)
  | x :: l' => let '(a', ok) := f x a in if ok then visit f l' a' else (a', false)
  end.

Definition range_values (r : Range) : list Z := seqZ (start r) (end_ r - start r + 1).

(** A range of the type, as [NewRange] makes it. *)
Definition wf_range (r : Range) : Prop := in_type (start r) ∧ in_type (end_ r) ∧ (start r ≤ end_ r)%Z.

(** Bounds that [strconv.ParseUint] accepts, whatever the width of the type. *)
Definition fits_uint64 (r : Range) : Prop :=
  (0 ≤ start r < 2 ^ 64)%Z ∧ (0 ≤ end_ r < 2 ^ 64)%Z.

(** What the parser stores for the bounds of [r]. *)
Definition truncated (r : Range) : Range := NewRange (wrap (start r)) (wrap (end_ r)).

(** The contract of [sort.Slice], which is not stable. *)
Definition SortOf (rs arr : list Range) : Prop := arr ≡ₚ rs ∧ Sorted start_le arr.

(** The functional reading of the merge loop. *)
Fixpoint merge_fold (m : Range) (rest : list Range) : list Range :=
  match rest with
  | [] => [m]
  | r :: rest' =>
    if gap m r then m :: merge_fold r rest'
    else merge_fold (if (end_ m <? end_ r)%Z then mkRange (start m) (end_ r) else m) rest'
  end.

(** Sorted ranges with at least one missing value between neighbours. *)
Definition separated (a b : Range) : Prop := (end_ a + 1 < start b)%Z.

End Ranges.

(** ** Lemmas: parsing *)

Section RangeParsing.
Context {T : IntType}.

Lemma range_string_shape (r : Range) :
  (0 ≤ start r)%Z → (0 ≤ end_ r)%Z →
  Forall (λ c, is_digit c ∨ c = "-"%char) (bytes (Range_String r)) ∧
  bytes (Range_String r) ≠ [].
Proof.
  intros Hs He. unfold Range_String.
  destruct (pretty_Z_digits (start r) Hs) as (_ & Hds & Hns).
  destruct (pretty_Z_digits (end_ r) He) as (_ & Hde & _).
  assert (∀ l, Forall is_digit l → Forall (λ c, is_digit c ∨ c = "-"%char) l) as Hw
    by (intros l Hl; eapply Forall_impl; [exact Hl|tauto]).
  case_match; [by auto|]. rewrite !bytes_app. split.
  - rewrite !Forall_app. split_and!; [auto| |auto]. simpl. auto.
  - by destruct (bytes (pretty (start r))).
Qed.

Lemma range_string_avoids (r : Range) (f : ascii → bool) :
  (0 ≤ start r)%Z → (0 ≤ end_ r)%Z →
  (∀ c, f c = true → digit_val c = None ∧ c ≠ "-"%char) →
  Forall (λ c, f c = false) (bytes (Range_String r)).
Proof.
  intros Hs He Hf. destruct (range_string_shape r Hs He) as [Hsh _].
  eapply Forall_impl; [exact Hsh|]. intros c Hc. destruct (f c) eqn:Hfc; [|done].
  destruct (Hf c Hfc). destruct Hc as [[d Hd]|]; congruence.
Qed.

Lemma parseUnsigned_trim (n : Z) :
  (0 ≤ n < 2 ^ 64)%Z → parseUnsigned (Trim bound_cut (pretty n)) = Some (wrap n).
Proof.
  intros Hn. destruct (pretty_Z_digits n ltac:(lia)) as (_ & Hd & _).
  rewrite trim_none.
  - unfold parseUnsigned. by rewrite ParseUint_pretty.
  - eapply digits_pred; [|done]. intros c. unfold bound_cut.
    rewrite !orb_true_iff, !bool_decide_eq_true. intros [[->| ->]| ->]; done.
Qed.

Lemma is_space_not_digit c : is_space c = true → digit_val c = None ∧ c ≠ "-"%char.
Proof.
  unfold is_space, digit_val. intros H. split.
  - case_match eqn:Hd; [|done]. apply andb_true_iff in Hd as [?%N.leb_le ?%N.leb_le].
    apply orb_true_iff in H as [[?%N.leb_le ?%N.leb_le]%andb_true_iff|?%N.eqb_eq]; lia.
  - by intros ->.
Qed.

Lemma newUnsignedRange_print (a b : Z) :
  (0 ≤ a < 2 ^ 64)%Z → (0 ≤ b < 2 ^ 64)%Z →
  NewUnsignedRange (Range_String (mkRange a b)) = Some (NewRange (wrap a) (wrap b)).
Proof.
  intros Ha Hb. unfold NewUnsignedRange, newIntRange.
  destruct (range_string_shape (mkRange a b) ltac:(simpl; lia) ltac:(simpl; lia)) as [Hsh Hne].
  unfold TrimSpace. rewrite trim_none by (apply range_string_avoids; simpl; [lia..|apply is_space_not_digit]).
  rewrite bool_decide_false by (intros Heq; rewrite Heq in Hne; done).
  unfold Range_String; simpl.
  destruct (pretty_Z_digits a ltac:(lia)) as (_ & Hda & _).
  destruct (pretty_Z_digits b ltac:(lia)) as (_ & Hdb & _).
  destruct (Z.eqb_spec a b) as [->|_].
  - unfold Split.
    rewrite split_bytes_none by by eapply digits_avoid. simpl. rewrite of_bytes_bytes.
    by rewrite parseUnsigned_trim by lia.
  - unfold Split. rewrite !bytes_app. simpl.
    rewrite split_bytes_app, split_bytes_none by by eapply digits_avoid.
    simpl. rewrite !of_bytes_bytes, !parseUnsigned_trim by lia. done.
Qed.

Lemma newIntRangesFromList_print (rs : list Range) :
  Forall fits_uint64 rs →
  newIntRangesFromList parseUnsigned (map Range_String rs) = Some (map truncated rs).
Proof.
  induction 1 as [|[a b] rs [Ha Hb] Hrs IH]; simpl in *; [done|].
  destruct (range_string_shape (mkRange a b)) as [_ Hne]; simpl; [lia..|].
  rewrite bool_decide_false by (intros Heq; rewrite Heq in Hne; done).
  pose proof (newUnsignedRange_print a b Ha Hb) as HR. unfold NewUnsignedRange in HR.
  rewrite HR. simpl. by rewrite IH.
Qed.

Lemma truncated_wf (r : Range) : wf_range r → truncated r = r.
Proof.
  destruct r as [a b]. intros (Ha & Hb & ?). unfold truncated; simpl in *. rewrite !wrap_id by done.
  unfold NewRange. by rewrite (proj2 (Z.ltb_ge _ _)) by lia.
Qed.

Lemma ReplaceAll_none (s : string) (a b : ascii) :
  Forall (λ c, bool_decide (c = a) = false) (bytes s) → ReplaceAll s a b = s.
Proof.
  intros H. apply string_map_id. eapply Forall_impl; [exact H|].
  intros c ?%bool_decide_eq_false. simpl. by rewrite decide_False.
Qed.

Lemma join_bytes_Forall (P : ascii → Prop) sep ps :
  Forall P sep → Forall (Forall P) ps → Forall P (join_bytes sep ps).
Proof.
  intros Hsep. induction 1 as [|p ps Hp Hps IH]; simpl; [done|].
  destruct ps; [done|]. rewrite !Forall_app. done.
Qed.

Lemma newUnsignedRanges_print (rs : list Range) :
  Forall fits_uint64 rs → (length rs ≤ 28)%nat →
  NewUnsignedRanges (IntRanges_String rs) = Some (map truncated rs).
Proof.
  intros Hrs Hlen. destruct (decide (rs = [])) as [->|Hnil]; [done|].
  assert (IntRanges_String rs = Join (map Range_String rs) "/") as -> by by destruct rs.
  assert (∀ f, (∀ c, f c = true → digit_val c = None ∧ c ≠ "-"%char) → f "/"%char = false →
    Forall (λ c, f c = false) (bytes (Join (map Range_String rs) "/"))) as Havoid.
  { intros f Hf Hslash. unfold Join. autorewrite with gostr.
    apply join_bytes_Forall; [by simpl; auto|]. apply Forall_map, Forall_map.
    eapply Forall_impl; [exact Hrs|]. intros q [??]. apply range_string_avoids; [lia..|done]. }
  assert (∀ s, (∀ c, c ∈ bytes s → c = "*"%char) → Join (map Range_String rs) "/" ≠ s) as Hne.
  { intros s Hs Heq. destruct rs as [|r rs']; [done|]. destruct (Forall_inv Hrs).
    destruct (range_string_shape r) as [Hsh Hn]; [lia..|].
    rewrite <- Heq in Hs. unfold Join in Hs. rewrite bytes_of_bytes in Hs.
    destruct (bytes (Range_String r)) as [|c l] eqn:Hb; [done|].
    assert (c = "*"%char) as -> by (apply Hs; simpl; rewrite Hb; case_match; by left).
    apply Forall_cons in Hsh as [[[d Hd]|?] _]; done. }
  unfold NewUnsignedRanges, newIntRanges, TrimSpace.
  rewrite trim_none by (apply Havoid; [apply is_space_not_digit|done]).
  rewrite !bool_decide_false by (apply Hne; simpl; set_solver). simpl.
  rewrite ReplaceAll_none
    by (apply (Havoid (λ c, bool_decide (c = ","%char))); [by intros c ->%bool_decide_eq_true|done]).
  rewrite Split_Join; [|by destruct rs|].
  - rewrite length_map, (proj2 (Nat.ltb_ge _ _)) by lia. by apply newIntRangesFromList_print.
  - apply Forall_map. eapply Forall_impl; [exact Hrs|]. intros q [??] Hin.
    pose proof (range_string_avoids q (λ c, bool_decide (c = "/"%char)) ltac:(lia) ltac:(lia)) as Hav.
    eapply Forall_forall in Hin; [|apply Hav; by intros c ->%bool_decide_eq_true]. done.
Qed.

Lemma wf_fits_uint64 (r : Range) :
  it_signed = false → (it_width ≤ 64)%Z → wf_range r → fits_uint64 r.
Proof.
  unfold wf_range, fits_uint64, in_type, tmin, tmax. intros -> Hw ?.
  assert (2 ^ it_width ≤ 2 ^ 64)%Z by (apply Z.pow_le_mono_r; lia). lia.
Qed.

End RangeParsing.

(** ** Lemmas: iteration *)

Section RangeIteration.
Context {T : IntType} {A : Type} (f : Z → A → A * bool).

Lemma visit_app l l' a :
  visit f (l ++ l') a =
    (let '(a', ok) := visit f l a in if ok then visit f l' a' else (a', false)).
Proof.
  revert a. induction l as [|x l IH]; intros a; simpl; [done|].
  destruct (f x a) as [a' []]; [apply IH|done].
Qed.

Lemma iter_range_visit n r i a :
  wf_range r → (start r ≤ i)%Z → (i + Z.of_nat n = end_ r + 1)%Z → (n ≠ 0 → in_type i) →
  iter_range (S n) r f i a = Some (visit f (seqZ i (Z.of_nat n)) a).
Proof.
  intros (Hs & He & Hse). revert i a. induction n as [|n IH]; intros i a Hi Hn Hty.
  - simpl. rewrite (proj2 (Z.leb_gt _ _)) by lia. done.
  - assert (in_type i) as Hin by auto. rewrite seqZ_cons by lia.
    replace (Z.pred (Z.of_nat (S n))) with (Z.of_nat n) by lia.
    change (iter_range (S (S n)) r f i a) with
      (if (i <=? end_ r)%Z && (start r <=? i)%Z then
         let '(a', ok) := f i a in
         if ok then if (wrap (i + 1) <? i)%Z then Some (a', true)
           else iter_range (S n) r f (wrap (i + 1)) a'
         else Some (a', false)
       else Some (a, true)).
    rewrite !(proj2 (Z.leb_le _ _)) by lia. cbn [andb visit].
    destruct (f i a) as [a' []]; [|done].
    rewrite wrap_succ_lt by done. unfold in_type in *.
    pose proof (tmax_tmin (T:=T)). pose proof (pow_width_pos (T:=T)).
    replace (tmax <? tmin)%Z with false by lia. rewrite orb_false_r.
    case_bool_decide as Hmax.
    + assert (n = 0) as -> by lia. done.
    + rewrite wrap_succ by (unfold in_type; lia). rewrite IH; [|lia..|unfold in_type; lia].
      by replace (Z.succ i) with (i + 1)%Z by lia.
Qed.

Lemma iter_range_values r a :
  wf_range r →
  iter_range (S (Z.to_nat (end_ r - start r + 1))) r f (start r) a =
    Some (visit f (range_values r) a).
Proof.
  intros Hr. pose proof Hr as (Hs & He & ?). rewrite iter_range_visit; [|done|lia|lia|done].
  unfold range_values. by rewrite Z2Nat.id by lia.
Qed.

End RangeIteration.

(** ** Lemmas: merging *)

Section RangeMerge.
Context {T : IntType}.

Lemma merge_loop_fold n arr ri i pre m :
  take (S ri) arr = pre ++ [m] → length pre = ri → (ri < i)%nat → (i + n = length arr)%nat →
  (let '(arr', ri') := merge_loop n arr ri i in take (S ri') arr') =
    pre ++ merge_fold m (drop i arr).
Proof.
  revert arr ri i pre m. induction n as [|n IH]; intros arr ri i pre m Htake Hpre Hlt Hlen.
  - simpl. by rewrite Htake, drop_ge by lia.
  - assert (arr !! ri = Some m) as Hm.
    { rewrite <- (lookup_take_lt arr (S ri)) by lia. rewrite Htake.
      by rewrite lookup_app_r, Hpre, Nat.sub_diag by lia. }
    destruct (lookup_lt_is_Some_2 arr i ltac:(lia)) as [r Hr].
    assert (take ri arr = pre) as Hpre'.
    { assert (ri `min` S ri = ri) as Hmin by lia.
      rewrite <- Hmin, <- take_take, Htake. by rewrite take_app_le, take_ge by lia. }
    rewrite (drop_S arr r i) by done. simpl. unfold merge_step. rewrite Hr, Hm.
    destruct (gap m r); [|destruct (end_ m <? end_ r)%Z].
    + rewrite (IH _ (S ri) (S i) (pre ++ [m]) r).
      * by rewrite <- (assoc_L (++)), drop_insert_lt by lia.
      * rewrite (take_S_r _ _ r) by (apply list_lookup_insert_eq; lia).
        by rewrite take_insert_ge, Htake by lia.
      * rewrite length_app. simpl. lia.
      * lia.
      * rewrite length_insert. lia.
    + rewrite (IH _ ri (S i) pre (mkRange (start m) (end_ r))).
      * by rewrite drop_insert_lt by lia.
      * rewrite (take_S_r _ _ (mkRange (start m) (end_ r))) by (apply list_lookup_insert_eq; lia).
        by rewrite take_insert_ge, Hpre' by lia.
      * done.
      * lia.
      * rewrite length_insert. lia.
    + rewrite (IH _ ri (S i) pre m) by (done || lia). done.
Qed.

Lemma merge_sorted_fold m rest : merge_sorted (m :: rest) = merge_fold m rest.
Proof.
  unfold merge_sorted. cbn [length]. replace (S (length rest) - 1) with (length rest) by lia.
  apply (merge_loop_fold (length rest) (m :: rest) 0 1 [] m); simpl; auto; lia.
Qed.

Lemma gap_spec m r :
  wf_range m → gap m r = true ↔ (end_ m + 1 < start r)%Z ∧ (end_ m < tmax)%Z.
Proof.
  intros (_ & He & _). unfold gap. rewrite andb_true_iff, !Z.ltb_lt.
  pose proof (tmax_tmin (T:=T)). pose proof (pow_width_pos (T:=T)).
  destruct (decide (end_ m = tmax)) as [Heq|Hne].
  - rewrite Heq, wrap_succ_max. lia.
  - unfold in_type in He. rewrite wrap_succ by (unfold in_type; lia). lia.
Qed.

(** What one merge result promises, for a chain that starts with [m]. *)
Definition merge_spec (m : Range) (rest out : list Range) : Prop :=
  (∀ t, any_contains out t = RangeContains m t || any_contains rest t) ∧
  (∃ m' tl, out = m' :: tl ∧ start m' = start m) ∧
  Sorted separated out ∧ Forall wf_range out.

Lemma merge_fold_spec m rest :
  wf_range m → Forall wf_range rest → Sorted start_le (m :: rest) →
  merge_spec m rest (merge_fold m rest).
Proof.
  revert m. induction rest as [|r rest IH]; intros m Hm Hrest Hsort; simpl.
  { split_and!; [by intros t|by eexists _, _|by apply Sorted_cons|by apply Forall_singleton]. }
  apply Forall_cons in Hrest as [Hr Hrest].
  pose proof (Sorted_inv Hsort) as [Hsort' Hhd]. apply HdRel_inv in Hhd. unfold start_le in Hhd.
  destruct (gap m r) eqn:Hgap.
  - apply gap_spec in Hgap as [Hgap _]; [|done].
    destruct (IH r Hr Hrest Hsort') as (Hmem & (m' & tl & Hout & Hst) & Hsep & Hwf).
    split_and!; [|by eexists _, _| |by constructor].
    + intros t. simpl. by rewrite Hmem.
    + apply Sorted_cons; [done|]. rewrite Hout. apply HdRel_cons. unfold separated. lia.
  - assert (¬ ((end_ m + 1 < start r)%Z ∧ (end_ m < tmax)%Z)) as Hno.
    { rewrite <- gap_spec by done. by rewrite Hgap. }
    set (m1 := if (end_ m <? end_ r)%Z then mkRange (start m) (end_ r) else m).
    assert (start m1 = start m ∧ end_ m1 = Z.max (end_ m) (end_ r)) as [Hs1 He1].
    { unfold m1. destruct (Z.ltb_spec (end_ m) (end_ r)); simpl; lia. }
    pose proof Hm as (Hm1 & Hm2 & Hm3). pose proof Hr as (Hr1 & Hr2 & Hr3).
    unfold in_type in *.
    destruct (IH m1) as (Hmem & (m' & tl & Hout & Hst) & Hsep & Hwf).
    + unfold wf_range, in_type. lia.
    + done.
    + constructor; [by destruct (Sorted_inv Hsort')|].
      apply Sorted_inv in Hsort' as [_ Hhd']. destruct Hhd' as [|b ? Hb]; constructor.
      unfold start_le in *. lia.
    + split_and!; [|exists m', tl; split; [done|congruence]|done|done].
      intros t. rewrite Hmem. simpl. rewrite orb_assoc. f_equal.
      unfold RangeContains. rewrite Hs1, He1. lia.
Qed.

Lemma merge_sort_SortOf (rs : list Range) : SortOf rs (merge_sort start_le rs).
Proof.
  assert (Total start_le) by (intros a b; unfold start_le; lia).
  split; [apply merge_sort_Permutation|apply Sorted_merge_sort; apply _].
Qed.

Lemma any_contains_perm (a b : list Range) t : a ≡ₚ b → any_contains a t = any_contains b t.
Proof.
  induction 1 as [|x l l' _ IH|x y l|l1 l2 l3 _ IH1 _ IH2]; simpl; [done| | |congruence].
  - by rewrite IH.
  - by destruct (RangeContains x t), (RangeContains y t).
Qed.

End RangeMerge.

(** ** Properties *)

(** Printing a list of ranges of an unsigned type and parsing the text
    gives the list back, up to the limit of 28 ranges of the parser. *)
Theorem ranges_parse_print {T : IntType} (rs : list Range) :
  it_signed = false → (it_width ≤ 64)%Z → Forall wf_range rs → (length rs ≤ 28)%nat →
  NewUnsignedRanges (IntRanges_String rs) = Some rs.
Proof.
  intros Hsg Hw Hrs Hlen. rewrite newUnsignedRanges_print; [|by eauto using Forall_impl, wf_fits_uint64|done].
  f_equal. rewrite <- (map_id rs) at 2. apply map_ext_Forall.
  eapply Forall_impl; [exact Hrs|]. apply truncated_wf.
Qed.

Lemma ranges_parse_print_witness :
  NewUnsignedRanges (T:=uint16) (IntRanges_String [mkRange 53 53; mkRange 1000 65535]) =
    Some [mkRange 53 53; mkRange 1000 65535].
Proof.
  apply (ranges_parse_print (T:=uint16)); [done|vm_compute; discriminate| |simpl; lia].
  repeat constructor; vm_compute; discriminate.
Defined.

(** The parser reads every bound at 64 bits and then converts it to the
    type of the range, so a bound that does not fit is not an error: the port
    rule [65616] is the rule [80]. *)
Theorem port_range_truncates (n : Z) :
  (0 ≤ n < 2 ^ 64)%Z →
  NewUnsignedRanges (T:=uint16) (pretty n) =
    Some [mkRange (n `mod` 65536) (n `mod` 65536)].
Proof.
  intros Hn.
  assert (pretty n = IntRanges_String [mkRange n n]) as ->.
  { unfold IntRanges_String, Join, Range_String. simpl. rewrite Z.eqb_refl. by autorewrite with gostr. }
  rewrite newUnsignedRanges_print; [|by repeat constructor; simpl; lia|simpl; lia].
  unfold truncated, wrap; simpl. rewrite Z.sub_0_r, Z.add_0_r.
  unfold NewRange. by rewrite Z.ltb_irrefl.
Qed.

Lemma port_range_truncates_witness :
  NewUnsignedRanges (T:=uint16) (pretty 65616%Z) = Some [mkRange 80 80].
Proof. apply (port_range_truncates 65616). lia. Defined.

(** Iterating over ranges calls the callback once for each value, in
    order, until it says stop, and the loop ends: the fuel suffices, even for
    a range that ends at the largest value of the type. *)
Theorem ranges_iterate {T : IntType} {A} (rs : list Range) (f : Z → A → A * bool) (a : A) :
  Forall wf_range rs →
  RangeIter rs f a = Some (visit f (concat (map range_values rs)) a).1.
Proof.
  intros Hrs. revert a. induction Hrs as [|r rs Hr Hrs IH]; intros a; [done|].
  cbn [RangeIter map concat]. rewrite iter_range_values by done.
  rewrite visit_app. cbn [mbind option_bind].
  destruct (visit f (range_values r) a) as [a' []]; [apply IH|done].
Qed.

Lemma ranges_iterate_witness :
  RangeIter (T:=uint8) [mkRange 253 255; mkRange 3 4] (λ x l, (l ++ [x], true)) [] =
    Some [253; 254; 255; 3; 4]%Z.
Proof.
  rewrite (ranges_iterate (T:=uint8)); [by vm_compute|]. repeat constructor; vm_compute; discriminate.
Defined.

(** The in-place merge, whatever order the unstable sort leaves equal
    starts in, keeps exactly the values of the ranges, and its result is
    sorted with a gap of at least one value between neighbours; no bound
    overflows. *)
Theorem merge_correct {T : IntType} (rs arr : list Range) :
  Forall wf_range rs → SortOf rs arr →
  (∀ t, any_contains (merge_sorted arr) t = any_contains rs t) ∧
  Sorted separated (merge_sorted arr) ∧ Forall wf_range (merge_sorted arr).
Proof.
  intros Hrs [Hperm Hsort]. rewrite <- Hperm in Hrs.
  destruct arr as [|m rest].
  - split_and!; [|done|done]. intros t. by rewrite <- (any_contains_perm [] rs).
  - rewrite merge_sorted_fold. apply Forall_cons in Hrs as [Hm Hrest].
    destruct (merge_fold_spec m rest) as (Hmem & _ & Hsep & Hwf); try done.
    split_and!; [|done|done]. intros t. rewrite Hmem. by rewrite <- (any_contains_perm (m :: rest) rs).
Qed.

Lemma merge_correct_witness :
  Merge (T:=uint8) [mkRange 250 255; mkRange 3 9; mkRange 10 12; mkRange 251 252] =
    [mkRange 3 12; mkRange 250 255] ∧
  Sorted separated (Merge (T:=uint8) [mkRange 250 255; mkRange 3 9; mkRange 10 12; mkRange 251 252]).
Proof.
  split; [by vm_compute|]. apply (merge_correct (T:=uint8) [mkRange 250 255; mkRange 3 9; mkRange 10 12; mkRange 251 252]).
  - repeat constructor; vm_compute; discriminate.
  - apply merge_sort_SortOf.
Defined.
