(* ===== verification/Netip.v ===== *)
(** * IP addresses: what the program uses of Go's [net/netip]

    An address is a number with its family; an IPv6 address may have a zone.
    These are definitions of the standard library's documented behaviour, so
    nothing here is mapped to the repository's sources. *)

From Stdlib Require Import ZArith Lia Ascii String.
From stdpp Require Import prelude strings gmap list countable pretty.
From S2P Require Import Prelude.

Inductive Addr :=
  | NoAddr
  | Addr4 (v : Z)
  | Addr6 (v : Z) (zone : string).

#[global] Instance Addr_eq_dec : EqDecision Addr.
Proof. solve_decision. Defined.

#[global] Instance Addr_countable : Countable Addr.
Proof.
  refine (inj_countable'
    (λ a, match a with NoAddr => inl () | Addr4 v => inr (inl v) | Addr6 v z => inr (inr (v, z)) end)
    (λ s, match s with inl _ => NoAddr | inr (inl v) => Addr4 v | inr (inr (v, z)) => Addr6 v z end) _).
  by intros [].
Defined.

Definition IsValid (a : Addr) : bool := match a with NoAddr => false | _ => true end.

Definition Is4 (a : Addr) : bool := match a with Addr4 _ => true | _ => false end.

Definition BitLen (a : Addr) : Z := match a with NoAddr => 0 | Addr4 _ => 32 | Addr6 _ _ => 128 end.

(** The 4-in-6 form of an address becomes the IPv4 address. *)
Definition Unmap (a : Addr) : Addr :=
  match a with
  | Addr6 v _ => if (v / 2 ^ 32 =? 65535)%Z then Addr4 (v mod 2 ^ 32) else a
  | _ => a
  end.

Definition WithoutZone (a : Addr) : Addr := match a with Addr6 v _ => Addr6 v "" | _ => a end.

(** [Next] and [Prev] leave the range of the family at its ends. *)
Definition Next (a : Addr) : Addr :=
  match a with
  | NoAddr => NoAddr
  | Addr4 v => if (v =? 2 ^ 32 - 1)%Z then NoAddr else Addr4 (v + 1)
  | Addr6 v z => if (v =? 2 ^ 128 - 1)%Z then NoAddr else Addr6 (v + 1) z
  end.

Definition Prev (a : Addr) : Addr :=
  match a with
  | NoAddr => NoAddr
  | Addr4 v => if (v =? 0)%Z then NoAddr else Addr4 (v - 1)
  | Addr6 v z => if (v =? 0)%Z then NoAddr else Addr6 (v - 1) z
  end.

Definition addr_val (a : Addr) : Z := match a with NoAddr => 0 | Addr4 v => v | Addr6 v _ => v end.

Definition addr_zone (a : Addr) : string := match a with Addr6 _ z => z | _ => "" end.

(** [a.Less(b)]: by family, then by value, then by zone. *)
Definition Less (a b : Addr) : bool :=
  (BitLen a <? BitLen b)%Z ||
  ((BitLen a =? BitLen b)%Z &&
    ((addr_val a <? addr_val b)%Z ||
      ((addr_val a =? addr_val b)%Z && String.ltb (addr_zone a) (addr_zone b)))).

(** [AsSlice]: the bytes of the address, most significant first. *)
Fixpoint be_bytes (n : nat) (v : Z) : list Z :=
  match n with
  | O => []
  | S n' => (v / 2 ^ (8 * Z.of_nat n')) mod 256 :: be_bytes n' v
  end%Z.

Definition AsSlice (a : Addr) : list Z :=
  match a with NoAddr => [] | Addr4 v => be_bytes 4 v | Addr6 v _ => be_bytes 16 v end.

Record Prefix := mkPrefix { paddr : Addr; pbits : Z }.

Definition prefix_valid (p : Prefix) : bool :=
  IsValid (paddr p) && (0 <=? pbits p)%Z && (pbits p <=? BitLen (paddr p))%Z.

(** The zone of an address never belongs to a prefix. *)
Definition PContains (p : Prefix) (a : Addr) : bool :=
  prefix_valid p && bool_decide (addr_zone a = "")%string && IsValid a &&
  (BitLen (paddr p) =? BitLen a)%Z &&
  (Z.shiftr (Z.lxor (addr_val a) (addr_val (paddr p))) (BitLen a - pbits p) =? 0)%Z.

(** The address with the host bits cleared and no zone; [NoAddr] when invalid. *)
Definition MaskedAddr (p : Prefix) : Addr :=
  if prefix_valid p then
    let s := (BitLen (paddr p) - pbits p)%Z in
    let v := Z.shiftl (Z.shiftr (addr_val (paddr p)) s) s in
    match paddr p with
    | NoAddr => NoAddr
    | Addr4 _ => Addr4 v
    | Addr6 _ _ => Addr6 v ""
    end
  else NoAddr.

(** Addresses whose number fits their family. *)
Definition addr_wf (a : Addr) : Prop := (0 ≤ addr_val a < 2 ^ BitLen a)%Z.

(** The address of a family at a number, without zone. *)
Definition addr_at (v6 : bool) (n : Z) : Addr := if v6 then Addr6 n "" else Addr4 n.

(** [a.String()]: dotted decimal; for IPv6 groups of hexadecimal digits, the
    longest run of two or more zero groups, the first of them, written [::],
    and an IPv4 address at the end of the 4-in-6 form. *)
Definition v4_String (v : Z) : string := String.concat "." (map (λ b, pretty b) (be_bytes 4 v)).

Definition hex_digit (d : Z) : ascii :=
  ascii_of_N (Z.to_N (if (d <? 10)%Z then 48 + d else 87 + d)%Z).

(** Without leading zeros, for a group of sixteen bits. *)
Definition hex_String (v : Z) : string :=
  let ds := [v / 4096; v / 256 mod 16; v / 16 mod 16; v mod 16]%Z in
  match drop_while (λ d, (d =? 0)%Z) ds with
  | [] => "0"
  | ds' => of_bytes (map hex_digit ds')
  end.

Definition v6_parts (v : Z) : list Z := map (λ i, v / 2 ^ (16 * i) mod 65536)%Z [7; 6; 5; 4; 3; 2; 1; 0]%Z.

Fixpoint zero_run (l : list Z) : nat :=
  match l with
  | x :: l' => if (x =? 0)%Z then S (zero_run l') else 0
  | [] => 0
  end.

(** The start and length of the run to shorten. *)
Fixpoint longest_run (i : nat) (l : list Z) (best : nat * nat) : nat * nat :=
  match l with
  | [] => best
  | _ :: l' => longest_run (S i) l' (if (best.2 <? zero_run l) && (2 <=? zero_run l) then (i, zero_run l) else best)
  end.

Definition v6_String (v : Z) : string :=
  let l := v6_parts v in
  let '(i, n) := longest_run 0 l (0, 0) in
  if (n =? 0)%nat then String.concat ":" (map hex_String l)
  else String.concat ":" (map hex_String (take i l)) +:+ "::" +:+ String.concat ":" (map hex_String (drop (i + n) l)).

Definition Addr_String (a : Addr) : string :=
  match a with
  | NoAddr => "invalid IP"
  | Addr4 v => v4_String v
  | Addr6 v z =>
    (if (v / 2 ^ 32 =? 65535)%Z then "::ffff:" +:+ v4_String (v mod 2 ^ 32) else v6_String v) +:+
    (if bool_decide (z = "") then "" else "%" +:+ z)
  end.

(** ** Kinds of addresses *)

Definition of_byte (a : Addr) (n v : Z) : bool := (addr_val a / 2 ^ (BitLen a - n) =? v)%Z.

Definition IsLoopback (a : Addr) : bool :=
  match Unmap a with
  | NoAddr => false
  | Addr4 v => of_byte (Addr4 v) 8 127
  | Addr6 v _ => (v =? 1)%Z
  end.

Definition IsMulticast (a : Addr) : bool :=
  match Unmap a with
  | NoAddr => false
  | Addr4 v => of_byte (Addr4 v) 4 14
  | Addr6 v z => of_byte (Addr6 v z) 8 255
  end.

Definition IsLinkLocalUnicast (a : Addr) : bool :=
  match Unmap a with
  | NoAddr => false
  | Addr4 v => of_byte (Addr4 v) 16 43518
  | Addr6 v z => of_byte (Addr6 v z) 10 1018
  end.

Definition IsPrivate (a : Addr) : bool :=
  match Unmap a with
  | NoAddr => false
  | Addr4 v => of_byte (Addr4 v) 8 10 || of_byte (Addr4 v) 12 2753 || of_byte (Addr4 v) 16 49320
  | Addr6 v z => of_byte (Addr6 v z) 7 126
  end.

Definition IsGlobalUnicast (a : Addr) : bool :=
  IsValid a && negb (bool_decide (a = Addr4 0 ∨ a = Addr4 (2 ^ 32 - 1))) && negb (bool_decide (a = Addr6 0 "")) &&
  negb (IsLoopback a) && negb (IsMulticast a) && negb (IsLinkLocalUnicast a).

Definition IsUnspecified (a : Addr) : bool := bool_decide (a = Addr4 0 ∨ a = Addr6 0 "").

(** ** Parsing *)

Open Scope char_scope.

(** One decimal field: no leading zero, at most 255. *)
Definition v4_field (l : list ascii) : option Z :=
  match l with
  | [] => None
  | "0" :: _ :: _ => None
  | _ => match digits_val 0 l with
         | Some v => if (v <=? 255)%Z then Some v else None
         | None => None
         end
  end.

Definition parse_v4 (l : list ascii) : option Z :=
  match mapM v4_field (split_bytes "." l) with
  | Some [a; b; c; d] => Some (((a * 256 + b) * 256 + c) * 256 + d)%Z
  | _ => None
  end.

Definition hex_val (c : ascii) : option Z :=
  let n := Z.of_nat (nat_of_ascii c) in
  if (48 <=? n)%Z && (n <=? 57)%Z then Some (n - 48)%Z
  else if (97 <=? n)%Z && (n <=? 102)%Z then Some (n - 87)%Z
  else if (65 <=? n)%Z && (n <=? 70)%Z then Some (n - 55)%Z
  else None.

(** The hexadecimal digits in front, their value and their number. *)
Fixpoint hex_prefix (acc : Z) (n : nat) (l : list ascii) : Z * nat * list ascii :=
  match l with
  | c :: l' => match hex_val c with
               | Some d => hex_prefix (acc * 16 + d) (S n) l'
               | None => (acc, n, l)
               end
  | [] => (acc, n, [])
  end.

(** The groups of an IPv6 address: those read so far in reverse, the place of
    the [::] if it was seen; at most eight groups are read. *)
Fixpoint v6_groups (fuel : nat) (s : list ascii) (gs : list Z) (ell : option nat) :
    option (list Z * option nat) :=
  match fuel with
  | O => match s with [] => Some (gs, ell) | _ => None end
  | S fuel' =>
    let '(acc, off, s1) := hex_prefix 0 0 s in
    if (off =? 0)%nat || (4 <? off)%nat then None
    else match s1 with
    | "." :: _ =>
      if bool_decide (ell = None) && negb (length gs =? 6)%nat then None
      else if (6 <? length gs)%nat then None
      else v ← parse_v4 s; Some ((v mod 2 ^ 16)%Z :: (v / 2 ^ 16)%Z :: gs, ell)
    | [] => Some (acc :: gs, ell)
    | ":" :: [] => None
    | ":" :: ":" :: s2 =>
      match ell with
      | Some _ => None
      | None => match s2 with
                | [] => Some (acc :: gs, Some (S (length gs)))
                | _ => v6_groups fuel' s2 (acc :: gs) (Some (S (length gs)))
                end
      end
    | ":" :: s2 => v6_groups fuel' s2 (acc :: gs) ell
    | _ => None
    end
  end.

Definition groups_val (gs : list Z) : Z := foldl (λ a g, a * 2 ^ 16 + g)%Z 0%Z gs.

(** Fill the [::] with zero groups. *)
Definition expand_groups (gs : list Z) (ell : option nat) : option Z :=
  let n := (8 - length gs)%nat in
  match n, ell with
  | O, None => Some (groups_val gs)
  | O, Some _ | _, None => None
  | _, Some e => Some (groups_val (take e gs ++ replicate n 0%Z ++ drop e gs))
  end.

Fixpoint cut (c : ascii) (l : list ascii) : option (list ascii * list ascii) :=
  match l with
  | [] => None
  | x :: l' => if bool_decide (x = c) then Some ([], l')
               else p ← cut c l'; Some (x :: p.1, p.2)
  end.

Definition parse_v6 (l : list ascii) : option Addr :=
  let '(s, zone) := match cut "%" l with Some (s, z) => (s, Some z) | None => (l, None) end in
  if bool_decide (zone = Some []) then None
  else
    let z := of_bytes (default [] zone) in
    let dots := bool_decide (take 2 s = [":"; ":"]) in
    if bool_decide (s = [":"; ":"]) then Some (Addr6 0 z)
    else
      r ← v6_groups 8 (if dots then drop 2 s else s) [] (if dots then Some 0 else None);
      v ← expand_groups (reverse r.1) r.2;
      Some (Addr6 v z).

(** The first of [.], [:] and [%] decides the family. *)
Fixpoint parse_addr_at (rest l : list ascii) : option Addr :=
  match rest with
  | [] => None
  | c :: rest' =>
    if bool_decide (c = ".") then Addr4 <$> parse_v4 l
    else if bool_decide (c = ":") then parse_v6 l
    else if bool_decide (c = "%") then None
    else parse_addr_at rest' l
  end.

Definition ParseAddr (s : string) : option Addr := parse_addr_at (bytes s) (bytes s).

Definition parse_bits (l : list ascii) (max : Z) : option Z :=
  match l with
  | "0" :: _ :: _ => None
  | _ => v ← ParseUint (of_bytes l); if (v <=? max)%Z then Some v else None
  end.

Definition ParsePrefix (s : string) : option Prefix :=
  p ← cut "/" (reverse (bytes s));
  a ← ParseAddr (of_bytes (reverse p.2));
  if bool_decide (addr_zone a = ""%string) then
    n ← parse_bits (reverse p.1) (BitLen a); Some (mkPrefix a n)
  else None.

Close Scope char_scope.

(** ** Lemmas *)

Definition family_max (v6 : bool) : Z := if v6 then (2 ^ 128)%Z else (2 ^ 32)%Z.

Lemma Next_at v6 n : (n < family_max v6 - 1)%Z → Next (addr_at v6 n) = addr_at v6 (n + 1).
Proof. unfold family_max. destruct v6; simpl; intros ?; by rewrite (proj2 (Z.eqb_neq _ _)) by lia. Qed.

Lemma Prev_at v6 n : (0 < n)%Z → Prev (addr_at v6 n) = addr_at v6 (n - 1).
Proof. destruct v6; simpl; intros ?; by rewrite (proj2 (Z.eqb_neq _ _)) by lia. Qed.

Lemma Less_at v6 n m : Less (addr_at v6 n) (addr_at v6 m) = (n <? m)%Z.
Proof.
  unfold Less. destruct v6; simpl; rewrite andb_false_r, orb_false_r; done.
Qed.

Lemma addr_at_inj v6 n m : addr_at v6 n = addr_at v6 m → n = m.
Proof. destruct v6; simpl; congruence. Qed.

Lemma Unmap_idemp a : Unmap (Unmap a) = Unmap a.
Proof. destruct a as [|v|v z]; simpl; [done..|]. destruct (v / 2 ^ 32 =? 65535)%Z eqn:Hv; simpl; [done|]. by rewrite Hv. Qed.

Lemma Unmap_valid a : IsValid (Unmap a) = IsValid a.
Proof. destruct a as [|v|v z]; simpl; [done..|]. by destruct (v / 2 ^ 32 =? 65535)%Z. Qed.

Lemma be_bytes_length n v : length (be_bytes n v) = n.
Proof. induction n; simpl; [done|]. by f_equal. Qed.

Lemma cut_In (c : ascii) l a b : cut c l = Some (a, b) → l = a ++ c :: b.
Proof.
  revert a b. induction l as [|x l IH]; intros a b; simpl; [done|].
  case_bool_decide; [intros; by simplify_eq|].
  destruct (cut c l) as [[a' b']|]; simpl; [|done]. intros; simplify_eq. by rewrite (IH _ _ eq_refl).
Qed.

Lemma cut_app (c : ascii) a b : c ∉ a → cut c (a ++ c :: b) = Some (a, b).
Proof.
  induction a as [|x a IH]; simpl; [intros _; by rewrite bool_decide_true|].
  intros [Hx Ha]%not_elem_of_cons. rewrite bool_decide_false by done. by rewrite IH.
Qed.

Example parse_v4_example : ParseAddr "198.18.0.1" = Some (Addr4 3323068417).
Proof. vm_compute. reflexivity. Qed.

Example parse_v6_example : ParseAddr "fe80::1%eth0" = Some (Addr6 338288524927261089654018896841347694593 "eth0").
Proof. vm_compute. reflexivity. Qed.

Example parse_v6_mapped : ParseAddr "::ffff:1.2.3.4" = Some (Addr6 281470698652420 "").
Proof. vm_compute. reflexivity. Qed.

Example parse_errors :
  (ParseAddr "1.2.3", ParseAddr "01.2.3.4", ParseAddr "1::2::3", ParseAddr "1:2:3:4:5:6:7:8::", ParsePrefix "10.0.0.0/33")
  = (None, None, None, None, None).
Proof. vm_compute. reflexivity. Qed.

Example parse_prefix_example : ParsePrefix "10.0.0.0/8" = Some (mkPrefix (Addr4 167772160) 8).
Proof. vm_compute. reflexivity. Qed.
