(* ===== verification/Wildcard.v ===== *)
(** * Wildcard patterns: [component/wildcard/wildcard.go]

    The backtracking matcher is a loop of [goto]s over two indices and the
    position of the last star.  The file models it as a step function on that
    state, run with a fuel computed from the two lengths, and proves that the
    loop ends within the fuel and decides the declarative relation [glob]. *)

From Stdlib Require Import ZArith Lia Ascii String.
From stdpp Require Import prelude strings gmap list.
From S2P Require Import Prelude.

Definition star_char : ascii := "*"%char.

Definition any_char : ascii := "?"%char.

(** The locals of [matchByString]; [star = None] is the source's [-1]. *)
Record mstate := mkM { patternIndex : nat; sIndex : nat; lastStar : nat; star : option nat }.

(** Label [checkPattern]: only stars may remain. *)
Fixpoint check_pattern (rest : list ascii) : bool :=
  match rest with
  | [] => true
  | c :: rest' => if decide (c = star_char) then check_pattern rest' else false
  end.

(** The two copies of the backtracking block. *)
Definition backtrack (m : mstate) : mstate + bool :=
  match star m with
  | Some st => inl (mkM (S st) (S (lastStar m)) (S (lastStar m)) (Some st))
  | None => inr false
  end.

(** One round of label [Loop]: the next state, or the returned value. *)
Definition loop_step (pattern s : list ascii) (m : mstate) : mstate + bool :=
  match s !! sIndex m with
  | None => inr (check_pattern (drop (patternIndex m) pattern))
  | Some x =>
    match pattern !! patternIndex m with
    | None => backtrack m
    | Some c =>
      if decide (c = any_char) then
        inl (mkM (S (patternIndex m)) (S (sIndex m)) (lastStar m) (star m))
      else if decide (c = star_char) then
        inl (mkM (S (patternIndex m)) (sIndex m) (sIndex m) (Some (patternIndex m)))
      else if decide (c = x) then
        inl (mkM (S (patternIndex m)) (S (sIndex m)) (lastStar m) (star m))
      else backtrack m
    end
  end.

Fixpoint run_loop (fuel : nat) (pattern s : list ascii) (m : mstate) : option bool :=
  match fuel with
  | O => None
  | S fuel' =>
    match loop_step pattern s m with
    | inl m' => run_loop fuel' pattern s m'
    | inr b => Some b
    end
  end.

(** Enough rounds: each star position is tried at most once per offset. *)
Definition loop_fuel (pattern s : list ascii) : nat :=
  S (S (length s) * S (length pattern) + length pattern).

Definition matchByString (pattern s : list ascii) : option bool :=
  run_loop (loop_fuel pattern s) pattern s (mkM 0 0 0 None).

(** [None] would mean that the loop did not end. *)
Definition wildcard_run (pattern s : string) : option bool :=
  if bool_decide (pattern = "")%string then Some (bool_decide (s = pattern))
  else if bool_decide (pattern = "*")%string || bool_decide (s = pattern) then Some true
  else matchByString (bytes pattern) (bytes s).

(** [wildcard.Match]; [wildcard_match_glob] shows that the default is not used. *)
Definition wildcard_Match (pattern s : string) : bool := default false (wildcard_run pattern s).

(** ** Specification *)

(** One pattern byte against one byte: [?] or the same byte, never [*]. *)
Definition char_match (c x : ascii) : Prop := c ≠ star_char ∧ (c = any_char ∨ c = x).

Inductive glob : list ascii → list ascii → Prop :=
  | glob_nil : glob [] []
  | glob_char c x p s : char_match c x → glob p s → glob (c :: p) (x :: s)
  | glob_skip p s : glob p s → glob (star_char :: p) s
  | glob_take x p s : glob (star_char :: p) s → glob (star_char :: p) (x :: s).

(** What the loop knows: before the first star the remaining pattern must
    match the remaining text; after it, the text matches iff the pattern after
    the last star matches at some offset from [lastStar] on, and the part of
    it read so far matches at [lastStar]. *)
Definition loop_inv (p s : list ascii) (m : mstate) : Prop :=
  lastStar m ≤ sIndex m ≤ length s ∧ patternIndex m ≤ length p ∧
  match star m with
  | None => glob p s ↔ glob (drop (patternIndex m) p) (drop (sIndex m) s)
  | Some st =>
    st < length p ∧
    (glob p s ↔ ∃ k, lastStar m ≤ k ≤ length s ∧ glob (drop (S st) p) (drop k s)) ∧
    ∃ seg, drop (S st) p = seg ++ drop (patternIndex m) p ∧
      Forall2 char_match seg (take (sIndex m - lastStar m) (drop (lastStar m) s)) ∧
      length seg = sIndex m - lastStar m
  end.

Definition loop_measure (p s : list ascii) (m : mstate) : nat :=
  (S (length s) - lastStar m) * S (length p) + (length p - patternIndex m).

#[export] Hint Constructors glob : wildcard.

(** ** Lemmas *)

Lemma glob_drop_star k p s : glob p (drop k s) → glob (star_char :: p) s.
Proof.
  revert k. induction s as [|x s IH]; intros k Hg.
  - rewrite drop_nil in Hg. auto with wildcard.
  - destruct k as [|k]; [auto with wildcard|]. eauto with wildcard.
Qed.

Lemma glob_star p s : glob (star_char :: p) s ↔ ∃ k, k ≤ length s ∧ glob p (drop k s).
Proof.
  split; [|intros (k & _ & Hg); by eapply glob_drop_star].
  induction s as [|x s IH]; intros Hg; inversion Hg as [|? ? ? ? Hc| |? ? ? Hg']; subst.
  - by exists 0.
  - by destruct Hc.
  - exists 0. split; [lia|done].
  - destruct (IH Hg') as (k & Hk & ?). exists (S k). split; [simpl; lia|done].
Qed.

Lemma glob_cons_inv c p s :
  c ≠ star_char → glob (c :: p) s → ∃ x s', s = x :: s' ∧ char_match c x ∧ glob p s'.
Proof. intros Hc Hg. inversion Hg; subst; naive_solver. Qed.

Lemma glob_app seg q t :
  Forall (λ c, c ≠ star_char) seg →
  glob (seg ++ q) t ↔
    length seg ≤ length t ∧ Forall2 char_match seg (take (length seg) t) ∧ glob q (drop (length seg) t).
Proof.
  intros Hseg. revert t. induction Hseg as [|c seg Hc Hseg IH]; intros t; simpl.
  - split; [intros ?; split_and!; [lia|done|done]|by intros (_ & _ & ?)].
  - split.
    + intros (x & t' & -> & Hcx & Hg)%glob_cons_inv; [|done].
      apply IH in Hg as (? & ? & ?). simpl. split_and!; [lia|by constructor|done].
    + intros (Hlen & HF & Hg). destruct t as [|x t]; simpl in *; [lia|].
      inversion HF; subst. constructor; [done|]. apply IH. split_and!; [lia|done|done].
Qed.

Lemma segment_no_star seg t : Forall2 char_match seg t → Forall (λ c, c ≠ star_char) seg.
Proof. induction 1 as [|c x seg t [Hc _]]; by constructor. Qed.

Lemma check_pattern_spec rest : check_pattern rest = true ↔ glob rest [].
Proof.
  induction rest as [|c rest IH]; simpl; [by split; [constructor|]|].
  case_decide as Hc; subst.
  - rewrite IH. split; [auto with wildcard|]. intros Hg. by inversion Hg; subst.
  - split; [done|]. intros Hg. inversion Hg; subst; done.
Qed.

(** The pattern after the last star, placed at [k], when the segment already
    read is [seg]. *)
Lemma glob_placed seg q k s :
  Forall (λ c, c ≠ star_char) seg → k ≤ length s →
  glob (seg ++ q) (drop k s) ↔
    k + length seg ≤ length s ∧ Forall2 char_match seg (take (length seg) (drop k s)) ∧
    glob q (drop (k + length seg) s).
Proof.
  intros Hseg Hk. rewrite glob_app by done. rewrite length_drop, drop_drop.
  split; intros (? & ? & ?); (split_and!; [lia|done|done]).
Qed.

Section Loop.
Context (p s : list ascii).

(** A failed attempt at [lastStar]: the next offset is tried. *)
Lemma backtrack_inv m :
  loop_inv p s m → sIndex m < length s →
  (∀ t, drop (sIndex m) s = t → ¬ glob (drop (patternIndex m) p) t) →
  match backtrack m with
  | inl m' => loop_inv p s m' ∧ loop_measure p s m' < loop_measure p s m
  | inr b => b = false ∧ ¬ glob p s
  end.
Proof.
  intros (Hls & Hpi & Hst) Hlt Hfail. unfold backtrack.
  destruct (star m) as [st|].
  - destruct Hst as (Hstp & Hiff & seg & Hseg & HF & Hlen). split.
    + split_and!; simpl; [lia..|]. split_and!; [done| |].
      * rewrite Hiff. split; [|intros (k & ? & ?); exists k; split; [lia|done]].
        intros (k & Hk & Hg). destruct (decide (k = lastStar m)) as [->|]; [|exists k; split; [lia|done]].
        exfalso. rewrite Hseg in Hg. apply glob_placed in Hg as (_ & _ & Hg);
          [|by eapply segment_no_star|lia].
        replace (lastStar m + length seg) with (sIndex m) in Hg by lia. by eapply Hfail.
      * exists []. simpl. rewrite Nat.sub_diag. split_and!; [done|constructor|done].
    + unfold loop_measure; simpl. nia.
  - split; [done|]. rewrite Hst. by apply Hfail.
Qed.

(** One pattern byte consumed against one byte of the text. *)
Lemma advance_inv m c x :
  loop_inv p s m → s !! sIndex m = Some x → p !! patternIndex m = Some c → char_match c x →
  loop_inv p s (mkM (S (patternIndex m)) (S (sIndex m)) (lastStar m) (star m)).
Proof.
  intros (Hls & Hpi & Hst) Hx Hc Hcx.
  pose proof (lookup_lt_Some _ _ _ Hx). pose proof (lookup_lt_Some _ _ _ Hc).
  split_and!; simpl; [lia..|].
  destruct (star m) as [st|].
  - destruct Hst as (? & Hiff & seg & Hseg & HF & Hlen). split_and!; [done|done|].
    exists (seg ++ [c]). split_and!.
    + rewrite Hseg, (drop_S _ c) by done. by rewrite <- (assoc_L (++)).
    + replace (S (sIndex m) - lastStar m) with (S (sIndex m - lastStar m)) by lia.
      rewrite (take_S_r _ _ x).
      * apply Forall2_app; [done|]. constructor; [done|constructor].
      * rewrite lookup_drop. replace (lastStar m + (sIndex m - lastStar m)) with (sIndex m) by lia. done.
    + rewrite length_app. simpl. lia.
  - rewrite Hst, (drop_S p c) by done. rewrite (drop_S s x) by done. split.
    + intros (? & ? & [= <- <-] & _ & ?)%glob_cons_inv; [done|]. by destruct Hcx.
    + by constructor.
Qed.

(** A star is read: it becomes the position to come back to. *)
Lemma star_inv m :
  loop_inv p s m → sIndex m < length s → p !! patternIndex m = Some star_char →
  loop_inv p s (mkM (S (patternIndex m)) (sIndex m) (sIndex m) (Some (patternIndex m))).
Proof.
  intros (Hls & Hpi & Hst) Hlt Hc. pose proof (lookup_lt_Some _ _ _ Hc).
  split_and!; simpl; [lia..|]. split_and!; [done| |].
  - destruct (star m) as [st|].
    + destruct Hst as (? & Hiff & seg & Hseg & HF & Hlen). rewrite Hiff, Hseg, (drop_S _ star_char) by done.
      assert (Forall (λ c, c ≠ star_char) seg) by by eapply segment_no_star.
      split.
      * intros (k & Hk & (Hkl & _ & Hg)%glob_placed); [|done|lia].
        apply glob_star in Hg as (j & Hj & Hg). rewrite drop_drop in Hg. rewrite length_drop in Hj.
        exists (k + length seg + j). split; [lia|done].
      * intros (k & Hk & Hg). exists (lastStar m). split; [lia|].
        apply glob_placed; [done|lia|]. rewrite Hlen. split_and!; [lia|done|].
        replace (lastStar m + (sIndex m - lastStar m)) with (sIndex m) by lia.
        apply (glob_drop_star (k - sIndex m)). rewrite drop_drop.
        replace (sIndex m + (k - sIndex m)) with k by lia. done.
    + rewrite Hst, (drop_S p star_char), glob_star by done. split.
      * intros (k & Hk & Hg). rewrite drop_drop in Hg. rewrite length_drop in Hk.
        exists (sIndex m + k). split; [lia|done].
      * intros (k & Hk & Hg). exists (k - sIndex m). rewrite length_drop, drop_drop.
        split; [lia|]. replace (sIndex m + (k - sIndex m)) with k by lia. done.
  - exists []. simpl. rewrite Nat.sub_diag. split_and!; [done|constructor|done].
Qed.

Lemma loop_step_inv m :
  loop_inv p s m →
  match loop_step p s m with
  | inl m' => loop_inv p s m' ∧ loop_measure p s m' < loop_measure p s m
  | inr b => b = true ↔ glob p s
  end.
Proof.
  intros Hinv. pose proof Hinv as (Hls & Hpi & Hst). unfold loop_step.
  destruct (s !! sIndex m) as [x|] eqn:Hx.
  - pose proof (lookup_lt_Some _ _ _ Hx) as Hlt.
    assert (∀ c, c ≠ any_char → c ≠ star_char → c ≠ x → p !! patternIndex m = Some c →
      ∀ t, drop (sIndex m) s = t → ¬ glob (drop (patternIndex m) p) t) as Hmis.
    { intros c ??? Hc t <- Hg. rewrite (drop_S p c), (drop_S s x) in Hg by done.
      apply glob_cons_inv in Hg as (? & ? & [= <- <-] & [_ [?|?]] & _); done. }
    destruct (p !! patternIndex m) as [c|] eqn:Hc.
    + pose proof (lookup_lt_Some _ _ _ Hc).
      repeat case_decide; simplify_eq.
      * split; [eapply advance_inv; [done..|]; by split; [|left]|]. unfold loop_measure; simpl. nia.
      * split; [by apply star_inv|]. unfold loop_measure; simpl. nia.
      * split; [eapply advance_inv; [done..|]; by split; [|right]|]. unfold loop_measure; simpl. nia.
      * pose proof (backtrack_inv m Hinv Hlt ltac:(by eapply Hmis)).
        destruct (backtrack m); [done|]. naive_solver.
    + apply lookup_ge_None in Hc.
      assert (∀ t, drop (sIndex m) s = t → ¬ glob (drop (patternIndex m) p) t) as Hend.
      { intros t <-. rewrite (drop_ge p), (drop_S s x) by done. intros Hg. inversion Hg. }
      pose proof (backtrack_inv m Hinv Hlt Hend). destruct (backtrack m); [done|]. naive_solver.
  - apply lookup_ge_None in Hx. rewrite check_pattern_spec.
    assert (sIndex m = length s) as Hs by lia.
    destruct (star m) as [st|].
    + destruct Hst as (? & Hiff & seg & Hseg & HF & Hlen). rewrite Hiff, Hseg.
      assert (Forall (λ c, c ≠ star_char) seg) by by eapply segment_no_star.
      split.
      * intros Hg. exists (lastStar m). split; [lia|]. apply glob_placed; [done|lia|].
        rewrite Hlen. split_and!; [lia|done|]. by rewrite (drop_ge s) by lia.
      * intros (k & Hk & (? & _ & Hg)%glob_placed); [|done|lia]. by rewrite (drop_ge s) in Hg by lia.
    + by rewrite Hst, (drop_ge s) by lia.
Qed.

Lemma run_loop_spec fuel m :
  loop_inv p s m → loop_measure p s m < fuel →
  ∃ b, run_loop fuel p s m = Some b ∧ (b = true ↔ glob p s).
Proof.
  revert m. induction fuel as [|fuel IH]; intros m Hinv Hfuel; [lia|]. simpl.
  pose proof (loop_step_inv m Hinv) as Hstep. destruct (loop_step p s m) as [m'|b].
  - destruct Hstep. apply IH; [done|lia].
  - by exists b.
Qed.

End Loop.

Lemma glob_refl l : glob l l.
Proof.
  induction l as [|c l IH]; [constructor|].
  destruct (decide (c = star_char)) as [->|Hc]; [by repeat constructor|].
  constructor; [split; [done|by right]|done].
Qed.

Lemma glob_only_star l : glob [star_char] l.
Proof. induction l; auto with wildcard. Qed.

(** The matcher always returns, within a number of rounds bounded by the
    product of the two lengths, and returns [true] exactly on the texts the
    pattern describes: [?] is any one byte, a star any sequence of bytes. *)
Theorem wildcard_match_glob (pattern s : string) :
  ∃ b, wildcard_run pattern s = Some b ∧ wildcard_Match pattern s = b ∧
       (b = true ↔ glob (bytes pattern) (bytes s)).
Proof.
  cut (∃ b, wildcard_run pattern s = Some b ∧ (b = true ↔ glob (bytes pattern) (bytes s))).
  { intros (b & Hb & ?). exists b. split_and!; [done| |done]. unfold wildcard_Match. by rewrite Hb. }
  unfold wildcard_run. case_bool_decide as Hp; [|case_bool_decide as Hstar; [|case_bool_decide as Heq]]; simpl.
  - subst pattern. eexists. split; [done|]. rewrite bool_decide_eq_true. split; [intros ->; constructor|].
    intros Hg. inversion Hg as [Ha Hb| | |]. apply bytes_inj. by rewrite <- Hb.
  - subst pattern. exists true. split; [done|]. split; [intros _; apply glob_only_star|done].
  - subst s. exists true. split; [done|]. split; [intros _; apply glob_refl|done].
  - apply run_loop_spec; [|unfold loop_measure, loop_fuel; simpl; lia].
    split_and!; simpl; [lia..|]. done.
Qed.
