(* ===== verification/Lru.v ===== *)
(** * The LRU cache: [common/lru/lrucache.go]

    The cache is a doubly linked list of pointers to entries, front least
    recently used, and a map from keys to list elements.  Entries live in a
    heap, because [CloneTo] makes two caches share them.  The file models
    every operation on that representation, gives a specification on plain
    lists of entries ordered by age of use, and proves that any sequence of
    operations refines it.  The interval between two readings of the clock
    inside one operation is not modelled: an operation runs at one instant
    [now], in seconds. *)

From Stdlib Require Import ZArith Lia.
From stdpp Require Import prelude gmap list.
From S2P Require Import Prelude.

Section Lru.
Context {K : Type} `{Countable K} {V : Type}.

Record entry := mkEntry { ekey : K; evalue : V; eexpires : Z }.

(** The [*entry] heap; [next] is the first address never allocated. *)
Record heap := mkHeap { cells : gmap nat entry; next : nat }.

(** The fields set by the functional options of [New]; [hasEvict] says whether
    an eviction callback is installed. *)
Record Options := mkOptions {
  maxAge : Z;
  maxSize : Z;
  updateAgeOnGet : bool;
  staleReturn : bool;
  hasEvict : bool
}.

Record LruCache := mkLru { opts : Options; cache : gmap K nat; lru : list nat }.

(** A cache in its heap, with the calls of the eviction callback so far. *)
Record lstate := mkSt { hp : heap; lc : LruCache; evicted : list (K * V) }.

(** ** Options *)

Definition no_options : Options := mkOptions 0 0 false false false.

Definition WithEvict (o : Options) : Options :=
  mkOptions (maxAge o) (maxSize o) (updateAgeOnGet o) (staleReturn o) true.

Definition WithUpdateAgeOnGet (o : Options) : Options :=
  mkOptions (maxAge o) (maxSize o) true (staleReturn o) (hasEvict o).

Definition WithAge (a : Z) (o : Options) : Options :=
  mkOptions a (maxSize o) (updateAgeOnGet o) (staleReturn o) (hasEvict o).

Definition WithSize (n : Z) (o : Options) : Options :=
  mkOptions (maxAge o) n (updateAgeOnGet o) (staleReturn o) (hasEvict o).

Definition WithStale (b : bool) (o : Options) : Options :=
  mkOptions (maxAge o) (maxSize o) (updateAgeOnGet o) b (hasEvict o).

Definition Clear (st : lstate) : lstate :=
  mkSt (hp st) (mkLru (opts (lc st)) ∅ []) (evicted st).

(** [New]: the options are applied to an empty cache, in order. *)
Definition New (h : heap) (options : list (Options → Options)) : lstate :=
  mkSt h (mkLru (foldl (λ o f, f o) no_options options) ∅ []) [].

(** ** Internal operations *)

Definition list_del (p : nat) (l : list nat) : list nat := filter (λ q, q ≠ p) l.

(** [c.lru.MoveToBack(le)]. *)
Definition move_to_back (p : nat) (c : LruCache) : LruCache :=
  mkLru (opts c) (cache c) (list_del p (lru c) ++ [p]).

Definition deleteElement (p : nat) (st : lstate) : lstate :=
  let c := lc st in
  match cells (hp st) !! p with
  | None => st
  | Some e =>
    mkSt (hp st) (mkLru (opts c) (delete (ekey e) (cache c)) (list_del p (lru c)))
      (if hasEvict (opts c) then evicted st ++ [(ekey e, evalue e)] else evicted st)
  end.

(** Expired entries are only removed in a cache with an age and without
    [WithStale]. *)
Definition ages (o : Options) : bool := negb (staleReturn o) && (0 <? maxAge o)%Z.

Fixpoint delete_expired (fuel : nat) (now : Z) (st : lstate) : lstate :=
  match fuel with
  | O => st
  | S fuel' =>
    match lru (lc st) with
    | [] => st
    | p :: _ =>
      match cells (hp st) !! p with
      | Some e => if (eexpires e <=? now)%Z then delete_expired fuel' now (deleteElement p st) else st
      | None => st
      end
    end
  end.

Definition maybeDeleteOldest (now : Z) (st : lstate) : lstate :=
  if ages (opts (lc st)) then delete_expired (length (lru (lc st))) now st else st.

(** Assignment to a field of the entry behind a pointer. *)
Definition store_entry (p : nat) (e : entry) (h : heap) : heap := mkHeap (<[p := e]> (cells h)) (next h).

(** [c.get]: the entry pointer, or [None] for [nil]. *)
Definition get (key : K) (now : Z) (st : lstate) : option nat * lstate :=
  let c := lc st in
  match cache c !! key with
  | None => (None, st)
  | Some p =>
    match cells (hp st) !! p with
    | None => (None, st)
    | Some e =>
      if ages (opts c) && (eexpires e <=? now)%Z then
        (None, maybeDeleteOldest now (deleteElement p st))
      else
        let c' := move_to_back p c in
        let h' := if (0 <? maxAge (opts c))%Z && updateAgeOnGet (opts c)
                  then store_entry p (mkEntry (ekey e) (evalue e) (now + maxAge (opts c))) (hp st)
                  else hp st in
        (Some p, mkSt h' c' (evicted st))
    end
  end.

Definition setWithExpire (key : K) (value : V) (expires : Z) (now : Z) (st : lstate) : lstate :=
  let c := lc st in
  let st' :=
    match cache c !! key with
    | Some p =>
      match cells (hp st) !! p with
      | Some e => mkSt (store_entry p (mkEntry (ekey e) value expires) (hp st)) (move_to_back p c) (evicted st)
      | None => st
      end
    | None =>
      let p := next (hp st) in
      let h' := mkHeap (<[p := mkEntry key value expires]> (cells (hp st))) (S p) in
      let c' := mkLru (opts c) (<[key := p]> (cache c)) (lru c ++ [p]) in
      let st1 := mkSt h' c' (evicted st) in
      if (0 <? maxSize (opts c))%Z && (maxSize (opts c) <? Z.of_nat (length (lru c')))%Z then
        match lru c' with
        | front :: _ => deleteElement front st1
        | [] => st1
        end
      else st1
    end in
  maybeDeleteOldest now st'.

Definition set (key : K) (value : V) (now : Z) (st : lstate) : lstate :=
  let age := maxAge (opts (lc st)) in
  setWithExpire key value (if (0 <? age)%Z then now + age else 0)%Z now st.

Definition lru_delete (key : K) (st : lstate) : lstate :=
  match cache (lc st) !! key with
  | Some p => deleteElement p st
  | None => st
  end.

(** ** Exported operations *)

Definition deref (st : lstate) (p : nat) : option V := evalue <$> cells (hp st) !! p.

Definition Get (key : K) (now : Z) (st : lstate) : option V * lstate :=
  let '(el, st') := get key now st in (el ≫= deref st', st').

Definition GetOrStore (key : K) (constructor : V) (now : Z) (st : lstate) : option V * bool * lstate :=
  let '(el, st') := get key now st in
  match el with
  | None => (Some constructor, false, set key constructor now st')
  | Some p => (deref st' p, true, st')
  end.

Definition GetWithExpire (key : K) (now : Z) (st : lstate) : option (V * Z) * lstate :=
  let '(el, st') := get key now st in
  (p ← el; e ← cells (hp st') !! p; Some (evalue e, eexpires e), st').

Definition Exist (key : K) (st : lstate) : bool := bool_decide (is_Some (cache (lc st) !! key)).

Definition Set_ (key : K) (value : V) (now : Z) (st : lstate) : lstate := set key value now st.

Definition SetWithExpire (key : K) (value : V) (expires now : Z) (st : lstate) : lstate :=
  setWithExpire key value expires now st.

Definition Delete (key : K) (st : lstate) : lstate := lru_delete key st.

(** [Compute]: [valueFn] sees the old value, if any, and answers a new value
    or [None] for "delete". *)
Definition Compute (key : K) (valueFn : option V → option V) (now : Z) (st : lstate)
    : option V * lstate :=
  let '(el, st') := get key now st in
  let old : option V := el ≫= deref st' in
  match valueFn old with
  | None => (None, if el then lru_delete key st' else st')
  | Some v => (Some v, set key v now st')
  end.

(** [c.CloneTo(n)]: the new list holds the same entry pointers, so it lives in
    the same heap. *)
Definition CloneTo (h : heap) (c n : LruCache) : LruCache :=
  mkLru (opts n)
    (foldl (λ m p, match cells h !! p with Some e => <[ekey e := p]> m | None => m end) ∅ (lru c))
    (lru c).

(** ** Specification: a list of entries, least recently used first *)

Record astate := mkA { items : list entry; aevicted : list (K * V) }.

Fixpoint afind (k : K) (l : list entry) : option entry :=
  match l with
  | [] => None
  | e :: l' => if decide (ekey e = k) then Some e else afind k l'
  end.

Definition adel (k : K) (l : list entry) : list entry := filter (λ e, ekey e ≠ k) l.

Definition alog (o : Options) (es : list entry) : list (K * V) :=
  if hasEvict o then map (λ e, (ekey e, evalue e)) es else [].

(** Removing the entry of a key, seen by the callback. *)
Definition aremove (o : Options) (k : K) (a : astate) : astate :=
  match afind k (items a) with
  | Some e => mkA (adel k (items a)) (aevicted a ++ alog o [e])
  | None => a
  end.

(** The expired entries at the front go, the first fresh one stops the scan. *)
Fixpoint aexpire_list (now : Z) (l : list entry) : list entry * list entry :=
  match l with
  | [] => ([], [])
  | e :: l' =>
    if (eexpires e <=? now)%Z then let '(gone, kept) := aexpire_list now l' in (e :: gone, kept)
    else ([], l)
  end.

Definition aexpire (o : Options) (now : Z) (a : astate) : astate :=
  if ages o then
    let '(gone, kept) := aexpire_list now (items a) in mkA kept (aevicted a ++ alog o gone)
  else a.

Definition arefresh (o : Options) (now : Z) (e : entry) : entry :=
  if (0 <? maxAge o)%Z && updateAgeOnGet o then mkEntry (ekey e) (evalue e) (now + maxAge o) else e.

Definition aget (o : Options) (key : K) (now : Z) (a : astate) : option entry * astate :=
  match afind key (items a) with
  | None => (None, a)
  | Some e =>
    if ages o && (eexpires e <=? now)%Z then (None, aexpire o now (aremove o key a))
    else (Some (arefresh o now e), mkA (adel key (items a) ++ [arefresh o now e]) (aevicted a))
  end.

Definition aset (o : Options) (key : K) (value : V) (expires now : Z) (a : astate) : astate :=
  let e := mkEntry key value expires in
  aexpire o now
    match afind key (items a) with
    | Some _ => mkA (adel key (items a) ++ [e]) (aevicted a)
    | None =>
      if (0 <? maxSize o)%Z && (maxSize o <? Z.of_nat (S (length (items a))))%Z then
        match items a ++ [e] with
        | old :: rest => mkA rest (aevicted a ++ alog o [old])
        | [] => a
        end
      else mkA (items a ++ [e]) (aevicted a)
    end.

Definition aset_now (o : Options) (key : K) (value : V) (now : Z) (a : astate) : astate :=
  aset o key value (if (0 <? maxAge o)%Z then now + maxAge o else 0)%Z now a.

(** ** The interface of the cache as a sequence of calls *)

Inductive lru_op :=
  | OGet (key : K)
  | OGetOrStore (key : K) (v : V)
  | OGetWithExpire (key : K)
  | OExist (key : K)
  | OSet (key : K) (v : V)
  | OSetWithExpire (key : K) (v : V) (expires : Z)
  | ODelete (key : K)
  | OCompute (key : K) (valueFn : option V → option V)
  | OClear.

(** What a call answers: a value, an expiry and a flag, where it has them. *)
Record answer := mkAnswer { aval : option V; aexp : option Z; aflag : bool }.

Definition lru_step (op : lru_op) (now : Z) (st : lstate) : answer * lstate :=
  match op with
  | OGet k => let '(v, st') := Get k now st in (mkAnswer v None (bool_decide (is_Some v)), st')
  | OGetOrStore k v => let '(r, b, st') := GetOrStore k v now st in (mkAnswer r None b, st')
  | OGetWithExpire k =>
    let '(r, st') := GetWithExpire k now st in
    (mkAnswer (fst <$> r) (snd <$> r) (bool_decide (is_Some r)), st')
  | OExist k => (mkAnswer None None (Exist k st), st)
  | OSet k v => (mkAnswer None None true, Set_ k v now st)
  | OSetWithExpire k v ex => (mkAnswer None None true, SetWithExpire k v ex now st)
  | ODelete k => (mkAnswer None None true, Delete k st)
  | OCompute k f => let '(r, st') := Compute k f now st in (mkAnswer r None (bool_decide (is_Some r)), st')
  | OClear => (mkAnswer None None true, Clear st)
  end.

Definition aspec (o : Options) (op : lru_op) (now : Z) (a : astate) : answer * astate :=
  match op with
  | OGet k =>
    let '(r, a') := aget o k now a in (mkAnswer (evalue <$> r) None (bool_decide (is_Some r)), a')
  | OGetOrStore k v =>
    match aget o k now a with
    | (Some e, a') => (mkAnswer (Some (evalue e)) None true, a')
    | (None, a') => (mkAnswer (Some v) None false, aset_now o k v now a')
    end
  | OGetWithExpire k =>
    let '(r, a') := aget o k now a in
    (mkAnswer (evalue <$> r) (eexpires <$> r) (bool_decide (is_Some r)), a')
  | OExist k => (mkAnswer None None (bool_decide (is_Some (afind k (items a)))), a)
  | OSet k v => (mkAnswer None None true, aset_now o k v now a)
  | OSetWithExpire k v ex => (mkAnswer None None true, aset o k v ex now a)
  | ODelete k => (mkAnswer None None true, aremove o k a)
  | OCompute k f =>
    let '(r, a') := aget o k now a in
    match f (evalue <$> r) with
    | None => (mkAnswer None None false, if r then aremove o k a' else a')
    | Some v => (mkAnswer (Some v) None true, aset_now o k v now a')
    end
  | OClear => (mkAnswer None None true, mkA [] (aevicted a))
  end.

(** What the comments of the code promise of a call: the same, but that
    [GetWithExpire] neither looks at the age of the entry nor changes its
    expiry. *)
Definition documented (o : Options) (op : lru_op) (now : Z) (a : astate) : answer * astate :=
  match op with
  | OGetWithExpire k =>
    match afind k (items a) with
    | Some e => (mkAnswer (Some (evalue e)) (Some (eexpires e)) true, mkA (adel k (items a) ++ [e]) (aevicted a))
    | None => (mkAnswer None None false, a)
    end
  | _ => aspec o op now a
  end.

(** Runs of timed calls. *)
Fixpoint lru_run (ops : list (lru_op * Z)) (st : lstate) : list answer * lstate :=
  match ops with
  | [] => ([], st)
  | (op, now) :: ops' =>
    let '(r, st') := lru_step op now st in
    let '(rs, st'') := lru_run ops' st' in (r :: rs, st'')
  end.

Fixpoint aspec_run (o : Options) (ops : list (lru_op * Z)) (a : astate) : list answer * astate :=
  match ops with
  | [] => ([], a)
  | (op, now) :: ops' =>
    let '(r, a') := aspec o op now a in
    let '(rs, a'') := aspec_run o ops' a' in (r :: rs, a'')
  end.

Fixpoint documented_run (o : Options) (ops : list (lru_op * Z)) (a : astate) : list answer * astate :=
  match ops with
  | [] => ([], a)
  | (op, now) :: ops' =>
    let '(r, a') := documented o op now a in
    let '(rs, a'') := documented_run o ops' a' in (r :: rs, a'')
  end.

(** The options under which a lookup neither drops nor renews an entry. *)
Definition ageless (o : Options) : Prop := ages o = false ∧ (0 <? maxAge o)%Z && updateAgeOnGet o = false.

Lemma documented_aspec o op now a : (∀ k, op = OGetWithExpire k → ageless o) → documented o op now a = aspec o op now a.
Proof.
  intros Ho. destruct op; try done. destruct (Ho _ eq_refl) as [H1 H2]. simpl. unfold aget, arefresh.
  rewrite H1, H2. by destruct (afind _ _).
Qed.

Lemma documented_run_aspec o ops a :
  (∀ k now, (OGetWithExpire k, now) ∈ ops → ageless o) → documented_run o ops a = aspec_run o ops a.
Proof.
  revert a. induction ops as [|[op now] ops IH]; intros a Ho; [done|]. simpl.
  rewrite documented_aspec; [|intros k ->; eapply Ho; by left].
  destruct (aspec o op now a) as [r a']. rewrite IH; [done|]. intros k t Hin. eapply Ho. by right.
Qed.

(** The representation relation: the list of pointers stands for the list of
    entries, the map holds exactly the listed pointers, under their keys. *)
Record refines (st : lstate) (a : astate) : Prop := {
  ref_nodup : NoDup (lru (lc st));
  ref_items : Forall2 (λ p e, cells (hp st) !! p = Some e) (lru (lc st)) (items a);
  ref_cache : ∀ k p, cache (lc st) !! k = Some p ↔
    p ∈ lru (lc st) ∧ ∃ e, cells (hp st) !! p = Some e ∧ ekey e = k;
  ref_fresh : ∀ p, is_Some (cells (hp st) !! p) → p < next (hp st);
  ref_evicted : evicted st = aevicted a
}.

End Lru.

Arguments entry : clear implicits.
Arguments heap : clear implicits.
Arguments LruCache K {_ _}.
Arguments lstate K {_ _} V.
Arguments astate : clear implicits.
Arguments answer : clear implicits.
Arguments lru_op : clear implicits.

(** ** Lemmas *)

Section LruProofs.
Context {K : Type} `{Countable K} {V : Type}.
Implicit Types (st : lstate K V) (a : astate K V) (l : list (entry K V)) (e : entry K V).

Lemma afind_Some (k : K) l e : afind k l = Some e → e ∈ l ∧ ekey e = k.
Proof.
  induction l as [|e' l IH]; simpl; [done|]. case_decide.
  - intros [= ->]. by split; [left|].
  - intros [? ?]%IH. by split; [right|].
Qed.

Lemma afind_None (k : K) l : afind k l = None ↔ ∀ e, e ∈ l → ekey e ≠ k.
Proof.
  induction l as [|e' l IH]; simpl; [set_solver|]. case_decide as Hk.
  - split; [done|]. intros Hl. exfalso. by apply (Hl e'); [left|].
  - rewrite IH. split; [|set_solver]. intros Hl e [->|?]%elem_of_cons; eauto.
Qed.

Lemma elem_of_list_del p q (l : list nat) : q ∈ list_del p l ↔ q ≠ p ∧ q ∈ l.
Proof. unfold list_del. by rewrite list_elem_of_filter. Qed.

Lemma list_del_head p (l : list nat) : NoDup (p :: l) → list_del p (p :: l) = l.
Proof.
  intros [Hp _]%NoDup_cons. unfold list_del. rewrite filter_cons, decide_False by auto.
  apply filter_all, Forall_forall. intros q Hq ->. done.
Qed.

Lemma refines_new (h : heap K V) options :
  (∀ p, is_Some (cells h !! p) → p < next h) →
  refines (New h options) (mkA [] []).
Proof.
  intros Hf. split; simpl; [constructor|constructor| |done|done].
  intros k p. rewrite lookup_empty. split; [done|]. by intros [?%not_elem_of_nil _].
Qed.

Lemma empty_heap_fresh p : is_Some (cells (mkHeap (K:=K) (V:=V) ∅ 0) !! p) → p < 0.
Proof. simpl. rewrite lookup_empty. by intros [? ?]. Qed.

Lemma refines_clear st a : refines st a → refines (Clear st) (mkA [] (aevicted a)).
Proof.
  intros [_ _ _ Hf He]. split; simpl; [constructor|constructor| |done|done].
  intros k p. rewrite lookup_empty. split; [done|]. by intros [?%not_elem_of_nil _].
Qed.

(** A key is in the map iff its entry is in the list, behind the pointer. *)
Lemma refines_lookup st a k :
  refines st a →
  match cache (lc st) !! k with
  | Some p => p ∈ lru (lc st) ∧ ∃ e, cells (hp st) !! p = Some e ∧ ekey e = k ∧ afind k (items a) = Some e
  | None => afind k (items a) = None
  end.
Proof.
  intros [Hnd Hit Hca _ _].
  assert (∀ e, e ∈ items a → ekey e = k → ∃ p, cache (lc st) !! k = Some p ∧ cells (hp st) !! p = Some e) as Hin.
  { intros e He Hk. destruct (Forall2_elem_r _ _ _ _ Hit He) as (p & Hp & Hc).
    exists p. split; [|done]. apply Hca. eauto. }
  destruct (cache (lc st) !! k) as [p|] eqn:Hk.
  - apply Hca in Hk as Hp. destruct Hp as (Hp & e & He & Hek). split; [done|]. exists e. split_and!; [done..|].
    destruct (afind k (items a)) as [e'|] eqn:Hf.
    + apply afind_Some in Hf as [He' Hk']. destruct (Hin _ He' Hk') as (p' & [= <-] & Hc). congruence.
    + destruct (Forall2_elem_l _ _ _ _ Hit Hp) as (e' & He' & Hc). assert (e' = e) as -> by congruence.
      by destruct (proj1 (afind_None _ _) Hf e He').
  - apply afind_None. intros e He Hek. destruct (Hin _ He Hek) as (p & ? & _). done.
Qed.

(** Two listed pointers are equal iff the keys behind them are. *)
Lemma refines_key_inj st a p q e e' :
  refines st a → p ∈ lru (lc st) → q ∈ lru (lc st) →
  cells (hp st) !! p = Some e → cells (hp st) !! q = Some e' → q ≠ p ↔ ekey e' ≠ ekey e.
Proof.
  intros [_ _ Hca _ _] Hp Hq He He'. split; [|congruence]. intros Hne Heq.
  assert (cache (lc st) !! ekey e = Some p) by (apply Hca; eauto).
  assert (cache (lc st) !! ekey e = Some q) by (apply Hca; eauto). congruence.
Qed.

Lemma refines_del_items st a p e :
  refines st a → p ∈ lru (lc st) → cells (hp st) !! p = Some e →
  Forall2 (λ p e, cells (hp st) !! p = Some e) (list_del p (lru (lc st))) (adel (ekey e) (items a)).
Proof.
  intros Href Hp He. apply Forall2_filter_iff; [apply Href|].
  intros q e' Hq He'. by apply (refines_key_inj st a).
Qed.

Lemma refines_deleteElement st a p e :
  refines st a → p ∈ lru (lc st) → cells (hp st) !! p = Some e →
  refines (deleteElement p st)
    (mkA (adel (ekey e) (items a)) (aevicted a ++ alog (opts (lc st)) [e])).
Proof.
  intros Href Hp He. pose proof (refines_del_items _ _ _ _ Href Hp He) as HF.
  pose proof Href as [Hnd Hit Hca Hfr Hev]. unfold deleteElement. rewrite He.
  split; simpl; [by apply NoDup_filter|done| |done|].
  - intros k q. rewrite lookup_delete_Some, Hca, elem_of_list_del. split.
    + intros (Hk & Hq & e' & He' & <-). split_and!; [|done|by eauto].
      intros ->. congruence.
    + intros ([Hne Hq] & e' & He' & <-). split_and!; [|done|by eauto].
      apply not_eq_sym. by apply (refines_key_inj st a p q).
  - unfold alog. destruct (hasEvict _); simpl; [by rewrite Hev|by rewrite app_nil_r].
Qed.

Lemma deleteElement_opts st p : opts (lc (deleteElement p st)) = opts (lc st).
Proof. unfold deleteElement. by case_match. Qed.

Lemma refines_delete st a k :
  refines st a → refines (lru_delete k st) (aremove (opts (lc st)) k a).
Proof.
  intros Href. unfold lru_delete, aremove. pose proof (refines_lookup _ _ k Href) as Hk.
  destruct (cache (lc st) !! k) as [p|].
  - destruct Hk as (Hp & e & He & <- & ->). by apply refines_deleteElement.
  - by rewrite Hk.
Qed.

Lemma adel_head e l : NoDup (map ekey (e :: l)) → adel (ekey e) (e :: l) = l.
Proof.
  simpl. intros [Hn _]%NoDup_cons. unfold adel. rewrite filter_cons, decide_False by auto.
  apply filter_all, Forall_forall. intros e' He' Heq. apply Hn. rewrite <- Heq.
  by apply list_elem_of_fmap_2.
Qed.

Lemma refines_keys_nodup st a : refines st a → NoDup (map ekey (items a)).
Proof.
  intros Href. pose proof Href as [Hnd Hit Hca _ _].
  apply NoDup_alt. intros i j k Hi Hj.
  apply list_lookup_fmap_Some in Hi as (e & -> & Hi). apply list_lookup_fmap_Some in Hj as (e' & Hk & Hj).
  destruct (Forall2_lookup_r _ _ _ _ _ Hit Hi) as (p & Hpi & Hp).
  destruct (Forall2_lookup_r _ _ _ _ _ Hit Hj) as (q & Hqj & Hq).
  destruct (decide (q = p)) as [->|Hne]; [by eapply NoDup_lookup|].
  pose proof (list_elem_of_lookup_2 _ _ _ Hpi). pose proof (list_elem_of_lookup_2 _ _ _ Hqj).
  eapply refines_key_inj in Hne; [|done..]. congruence.
Qed.

Lemma alog_cons o e l : alog o (e :: l) = alog o [e] ++ alog o l.
Proof. unfold alog. by destruct (hasEvict o). Qed.

Lemma alog_nil o : alog (K:=K) (V:=V) o [] = [].
Proof. unfold alog. by destruct (hasEvict o). Qed.

(** The front of the list, on both sides. *)
Lemma refines_front st a :
  refines st a →
  match lru (lc st) with
  | [] => items a = []
  | p :: _ => p ∈ lru (lc st) ∧ ∃ e l, items a = e :: l ∧ cells (hp st) !! p = Some e ∧ adel (ekey e) (items a) = l
  end.
Proof.
  intros Href. pose proof (refines_keys_nodup _ _ Href) as Hnd. pose proof (ref_items _ _ Href) as Hit.
  destruct a as [its ev]; simpl in *. clear Href.
  destruct (lru (lc st)) as [|p ps]; inversion Hit as [|? e ? l He]; subst; [done|].
  split; [left|]. exists e, l. split_and!; [done|done|]. by apply adel_head.
Qed.

Lemma list_del_length p (l : list nat) : p ∈ l → length (list_del p l) < length l.
Proof.
  unfold list_del. induction l as [|q l IH]; [by intros ?%not_elem_of_nil|].
  intros Hin. rewrite filter_cons. pose proof (length_filter (λ q, q ≠ p) l).
  case_decide; simpl; [|lia]. apply elem_of_cons in Hin as [->|Hin]; [done|]. apply IH in Hin. lia.
Qed.

Lemma refines_log_nil st a o : refines st a → refines st (mkA (items a) (aevicted a ++ alog o [])).
Proof. intros []. rewrite alog_nil, app_nil_r. by split. Qed.

Lemma refines_log_empty st a o :
  refines st a → items a = [] → refines st (mkA [] (aevicted a ++ alog o [])).
Proof. intros Href Hi. rewrite alog_nil, app_nil_r. destruct a. simpl in *. by subst. Qed.

Lemma refines_delete_expired now fuel st a :
  refines st a → length (lru (lc st)) ≤ fuel →
  refines (delete_expired fuel now st)
    (let '(gone, kept) := aexpire_list now (items a) in
     mkA kept (aevicted a ++ alog (opts (lc st)) gone)).
Proof.
  revert st a. induction fuel as [|fuel IH]; intros st a Href Hlen; simpl;
    pose proof (refines_front _ _ Href) as Hfr.
  - destruct (lru (lc st)); simpl in *; [|lia]. rewrite Hfr. simpl.
    by apply refines_log_empty.
  - destruct (lru (lc st)) as [|p ps] eqn:Hlru.
    { rewrite Hfr. simpl. by apply refines_log_empty. }
    destruct Hfr as (Hp & e & l & Hits & He & Hdel). rewrite He, Hits. simpl.
    case_match; [|rewrite <- Hits; by apply refines_log_nil].
    rewrite <- Hlru in Hp. pose proof (refines_deleteElement _ _ _ _ Href Hp He) as Href'.
    rewrite Hdel in Href'. apply IH in Href'.
    + simpl in Href'. rewrite deleteElement_opts in Href'.
      destruct (aexpire_list now l) as [gone kept]. by rewrite alog_cons, (assoc_L (++)).
    + unfold deleteElement. rewrite He. simpl. pose proof (list_del_length _ _ Hp).
      rewrite Hlru in *. simpl in *. lia.
Qed.

Lemma refines_maybeDeleteOldest now st a o :
  opts (lc st) = o → refines st a → refines (maybeDeleteOldest now st) (aexpire o now a).
Proof.
  intros <- Href. unfold maybeDeleteOldest, aexpire. destruct (ages _); [|done].
  by apply refines_delete_expired.
Qed.

(** Storing through a pointer that is not listed changes no listed entry. *)
Lemma Forall2_cells_insert (m : gmap nat (entry K V)) (ps : list nat) l p e :
  Forall2 (λ p e, m !! p = Some e) ps l → p ∉ ps →
  Forall2 (λ q e', <[p := e]> m !! q = Some e') ps l.
Proof.
  induction 1 as [|q e' ps l Hq HF IH]; intros Hp; [constructor|].
  apply not_elem_of_cons in Hp as [Hpq Hp]. constructor; [by rewrite lookup_insert_ne|by apply IH].
Qed.

(** Moving a pointer to the back and storing through it. *)
Lemma refines_touch st a p e e' :
  refines st a → p ∈ lru (lc st) → cells (hp st) !! p = Some e → ekey e' = ekey e →
  refines (mkSt (store_entry p e' (hp st)) (move_to_back p (lc st)) (evicted st))
    (mkA (adel (ekey e) (items a) ++ [e']) (aevicted a)).
Proof.
  intros Href Hp He Hk. pose proof (refines_del_items _ _ _ _ Href Hp He) as HF.
  pose proof Href as [Hnd Hit Hca Hfr Hev]. split; simpl.
  - apply NoDup_app. split_and!; [by apply NoDup_filter| |apply NoDup_singleton].
    intros q Hq Hqp%list_elem_of_singleton. apply elem_of_list_del in Hq as [? _]. done.
  - apply Forall2_app; [|constructor; [by rewrite lookup_insert_eq|constructor]].
    apply (Forall2_cells_insert _ _ _ _ _ HF). rewrite elem_of_list_del. tauto.
  - intros k q. rewrite Hca, elem_of_app, list_elem_of_singleton, elem_of_list_del.
    destruct (decide (q = p)) as [->|Hne].
    + rewrite lookup_insert_eq. split; intros (_ & e1 & ? & <-); (split; [auto|]); naive_solver.
    + rewrite lookup_insert_ne by done. naive_solver.
  - intros q. rewrite lookup_insert_is_Some. intros [->|[_ ?]]; apply Hfr; eauto.
  - done.
Qed.

Lemma delete_expired_opts fuel now st : opts (lc (delete_expired fuel now st)) = opts (lc st).
Proof.
  revert st. induction fuel as [|fuel IH]; intros st; simpl; [done|].
  repeat case_match; try done. rewrite IH. apply deleteElement_opts.
Qed.

Lemma maybeDeleteOldest_opts now st : opts (lc (maybeDeleteOldest now st)) = opts (lc st).
Proof. unfold maybeDeleteOldest. case_match; [apply delete_expired_opts|done]. Qed.

Lemma get_opts k now st : opts (lc (get k now st).2) = opts (lc st).
Proof.
  unfold get. repeat case_match; simpl; try done.
  by rewrite maybeDeleteOldest_opts, deleteElement_opts.
Qed.

Lemma setWithExpire_opts k v ex now st : opts (lc (setWithExpire k v ex now st)) = opts (lc st).
Proof.
  unfold setWithExpire. rewrite maybeDeleteOldest_opts.
  repeat case_match; simpl; try done. by rewrite deleteElement_opts.
Qed.

Lemma lru_delete_opts k st : opts (lc (lru_delete k st)) = opts (lc st).
Proof. unfold lru_delete. case_match; [apply deleteElement_opts|done]. Qed.

(** The pointer [get] returns is the entry the specification returns. *)
Definition get_agrees (st : lstate K V) (el : option nat) (r : option (entry K V)) : Prop :=
  match el, r with
  | Some p, Some e => cells (hp st) !! p = Some e
  | None, None => True
  | _, _ => False
  end.

Lemma store_same p e (h : heap K V) : cells h !! p = Some e → store_entry p e h = h.
Proof. intros He. unfold store_entry. rewrite insert_id by done. by destruct h. Qed.

Lemma refines_get st a k now :
  refines st a →
  refines (get k now st).2 (aget (opts (lc st)) k now a).2 ∧
  get_agrees (get k now st).2 (get k now st).1 (aget (opts (lc st)) k now a).1.
Proof.
  intros Href. pose proof (refines_lookup _ _ k Href) as Hk. unfold get, aget.
  destruct (cache (lc st) !! k) as [p|]; [|by rewrite Hk].
  destruct Hk as (Hp & e & He & Hek & Hf). rewrite He, Hf.
  destruct (ages (opts (lc st)) && (eexpires e <=? now)%Z).
  - split; [|done]. simpl. apply refines_maybeDeleteOldest; [apply deleteElement_opts|]. unfold aremove. rewrite Hf. subst k.
    by apply refines_deleteElement.
  - unfold arefresh. subst k.
    destruct ((0 <? maxAge (opts (lc st)))%Z && updateAgeOnGet (opts (lc st))); simpl.
    + split; [by apply refines_touch|]. by rewrite lookup_insert_eq.
    + split; [|done]. rewrite <- (store_same _ _ _ He) at 1. by apply refines_touch.
Qed.

(** [PushBack] of a new entry. *)
Lemma refines_push st a k v ex :
  refines st a → cache (lc st) !! k = None →
  let p := next (hp st) in
  let e := mkEntry k v ex in
  refines (mkSt (mkHeap (<[p := e]> (cells (hp st))) (S p))
             (mkLru (opts (lc st)) (<[k := p]> (cache (lc st))) (lru (lc st) ++ [p])) (evicted st))
    (mkA (items a ++ [e]) (aevicted a)).
Proof.
  intros Href Hnone p e. pose proof Href as [Hnd Hit Hca Hfr Hev].
  assert (p ∉ lru (lc st)) as Hp.
  { intros Hp. destruct (Forall2_elem_l _ _ _ _ Hit Hp) as (e' & _ & He').
    assert (p < next (hp st)) by eauto. lia. }
  split; simpl.
  - apply NoDup_app. split_and!; [done| |apply NoDup_singleton].
    intros q Hq ->%list_elem_of_singleton. done.
  - apply Forall2_app; [by apply Forall2_cells_insert|]. constructor; [by rewrite lookup_insert_eq|constructor].
  - intros k' q. rewrite elem_of_app, list_elem_of_singleton, lookup_insert_Some. split.
    + intros [[<- <-]|[Hne Hq]].
      * split; [by right|]. exists e. by rewrite lookup_insert_eq.
      * apply Hca in Hq as (Hq & e' & He' & <-). split; [by left|]. exists e'. split; [|done].
        rewrite lookup_insert_ne; [done|]. intros <-. done.
    + intros ([Hq| ->] & e' & He' & <-).
      * rewrite lookup_insert_ne in He' by (intros <-; done). right. split; [|apply Hca; eauto].
        intros ->. assert (cache (lc st) !! ekey e' = Some q) by (apply Hca; eauto). congruence.
      * rewrite lookup_insert_eq in He'. injection He' as <-. by left.
  - intros q. rewrite lookup_insert_is_Some. intros [->|[_ ?%Hfr]]; lia.
  - done.
Qed.

Lemma refines_length st a : refines st a → length (lru (lc st)) = length (items a).
Proof. intros Href. eapply Forall2_length, Href. Qed.

Lemma refines_setWithExpire st a k v ex now :
  refines st a → refines (setWithExpire k v ex now st) (aset (opts (lc st)) k v ex now a).
Proof.
  intros Href. unfold setWithExpire, aset. set (o := opts (lc st)).
  pose proof (refines_lookup _ _ k Href) as Hk.
  destruct (cache (lc st) !! k) as [p|] eqn:Hc.
  - destruct Hk as (Hp & e & He & Hek & ->). rewrite He.
    apply refines_maybeDeleteOldest; [done|]. subst k. by apply refines_touch.
  - rewrite Hk. pose proof (refines_push _ _ k v ex Href Hc) as Hpush. simpl in Hpush.
    simpl. rewrite length_app, (refines_length _ _ Href), Nat.add_comm. simpl.
    destruct ((0 <? maxSize o)%Z && (maxSize o <? Z.of_nat (S (length (items a))))%Z).
    + pose proof (refines_front _ _ Hpush) as Hfront. simpl in Hfront.
      destruct (lru (lc st) ++ [next (hp st)]) as [|front ps] eqn:Hlru; [by destruct (lru (lc st))|].
      destruct Hfront as (Hf & e & l & Hits & He & Hdel). rewrite Hits in *.
      pose proof (refines_deleteElement _ _ front e Hpush) as Hdele. simpl in Hdele. simpl.
      apply refines_maybeDeleteOldest; [by rewrite deleteElement_opts|].
      rewrite Hdel in Hdele. by apply Hdele.
    + by apply refines_maybeDeleteOldest.
Qed.

Lemma refines_set st a k v now :
  refines st a → refines (set k v now st) (aset_now (opts (lc st)) k v now a).
Proof. apply refines_setWithExpire. Qed.

Lemma get_deref st el r :
  get_agrees st el r → el ≫= deref st = evalue <$> r.
Proof. destruct el as [p|], r as [e|]; simpl; try done. unfold deref. by intros ->. Qed.

Lemma lru_step_opts op now st : opts (lc (lru_step op now st).2) = opts (lc st).
Proof.
  destruct op; simpl; unfold Get, GetOrStore, GetWithExpire, Compute, Set_, set, SetWithExpire, Delete;
    rewrite ?setWithExpire_opts, ?lru_delete_opts; try done;
    match goal with |- context [get ?k ?t ?s] =>
      pose proof (get_opts k t s); destruct (get k t s) as [[p|] st'] end; simpl in *;
    repeat case_match; simpl; simplify_eq; rewrite ?setWithExpire_opts, ?lru_delete_opts; done.
Qed.

Lemma lru_step_refines op now st a :
  refines st a →
  (lru_step op now st).1 = (aspec (opts (lc st)) op now a).1 ∧
  refines (lru_step op now st).2 (aspec (opts (lc st)) op now a).2.
Proof.
  intros Href. destruct op as [k|k v|k|k|k v|k v ex|k|k f|]; simpl.
  - unfold Get. destruct (refines_get _ _ k now Href) as [Hr Hg]. pose proof (get_deref _ _ _ Hg) as Hd.
    destruct (get k now st) as [el st'], (aget _ k now a) as [r a']; simpl in *. rewrite Hd.
    split; [|done]. f_equal. destruct r; done.
  - unfold GetOrStore. destruct (refines_get _ _ k now Href) as [Hr Hg].
    pose proof (get_deref _ _ _ Hg) as Hd. pose proof (get_opts k now st) as Ho.
    destruct (get k now st) as [[p|] st'], (aget _ k now a) as [[e|] a']; simpl in *; try done.
    + by rewrite Hd.
    + split; [done|]. rewrite <- Ho. by apply refines_set.
  - unfold GetWithExpire. destruct (refines_get _ _ k now Href) as [Hr Hg].
    destruct (get k now st) as [[p|] st'], (aget _ k now a) as [[e|] a']; simpl in *; try done.
    by rewrite Hg.
  - split; [|done]. unfold Exist. pose proof (refines_lookup _ _ k Href) as Hk. f_equal.
    destruct (cache (lc st) !! k) as [p|]; [destruct Hk as (_ & e & _ & _ & ->)|rewrite Hk]; done.
  - split; [done|by apply refines_set].
  - split; [done|by apply refines_setWithExpire].
  - split; [done|by apply refines_delete].
  - unfold Compute. destruct (refines_get _ _ k now Href) as [Hr Hg].
    pose proof (get_deref _ _ _ Hg) as Hd. pose proof (get_opts k now st) as Ho.
    destruct (get k now st) as [el st'], (aget _ k now a) as [r a']; simpl in *. rewrite Hd, <- Ho.
    destruct (f (evalue <$> r)); simpl; [split; [done|by apply refines_set]|].
    split; [done|]. destruct el, r; simpl in *; try done. by apply refines_delete.
  - split; [done|by apply refines_clear].
Qed.

Lemma lru_run_refines ops st a :
  refines st a →
  (lru_run ops st).1 = (aspec_run (opts (lc st)) ops a).1 ∧
  refines (lru_run ops st).2 (aspec_run (opts (lc st)) ops a).2.
Proof.
  revert st a. induction ops as [|[op now] ops IH]; intros st a Href; simpl; [done|].
  destruct (lru_step_refines op now st a Href) as [Ha Hr]. pose proof (lru_step_opts op now st) as Ho.
  destruct (lru_step op now st) as [r st'], (aspec _ op now a) as [r' a']; simpl in *.
  destruct (IH st' a' Hr) as [Has Hrs]. rewrite Ho in *.
  destruct (lru_run ops st') as [rs st''], (aspec_run _ ops a') as [rs' a'']; simpl in *.
  split; [congruence|done].
Qed.

(** *** The specification keeps the size limit *)

Definition within (o : Options) (a : astate K V) : Prop :=
  (0 < maxSize o)%Z → (Z.of_nat (length (items a)) ≤ maxSize o)%Z.

Lemma aexpire_list_app now l : (aexpire_list now l).1 ++ (aexpire_list now l).2 = l.
Proof.
  induction l as [|e l IH]; simpl; [done|]. case_match; [|done].
  destruct (aexpire_list now l); simpl in *. by rewrite IH.
Qed.

Lemma aexpire_length o now a : length (items (aexpire o now a)) ≤ length (items a).
Proof.
  unfold aexpire. case_match; [|done]. pose proof (aexpire_list_app now (items a)) as Happ.
  destruct (aexpire_list now (items a)); simpl in *. rewrite <- Happ, length_app. lia.
Qed.

Lemma aremove_length o k a : length (items (aremove o k a)) ≤ length (items a).
Proof. unfold aremove. case_match; [apply length_filter|done]. Qed.

Lemma adel_length k l e : afind k l = Some e → length (adel k l) < length l.
Proof.
  unfold adel. induction l as [|e' l IH]; simpl; [done|]. rewrite filter_cons.
  pose proof (length_filter (λ e, ekey e ≠ k) l). repeat case_decide; simpl; try tauto; try lia.
  intros ?%IH. lia.
Qed.

Lemma within_le o a a' : within o a → length (items a') ≤ length (items a) → within o a'.
Proof. unfold within. lia. Qed.

Lemma aget_within o k now a : within o a → within o (aget o k now a).2.
Proof.
  intros Hw. unfold aget. destruct (afind k (items a)) as [e|] eqn:Hf; [|done].
  case_match; (eapply within_le; [exact Hw|]); simpl.
  - etrans; [apply aexpire_length|apply aremove_length].
  - rewrite length_app. apply adel_length in Hf. simpl. lia.
Qed.

Lemma aset_within o k v ex now a : within o a → within o (aset o k v ex now a).
Proof.
  intros Hw. unfold aset. eapply within_le; [|apply aexpire_length].
  destruct (afind k (items a)) as [e|] eqn:Hf; simpl.
  - eapply within_le; [exact Hw|]. simpl. rewrite length_app. apply adel_length in Hf. simpl. lia.
  - case_match eqn:Hb.
    + destruct (items a ++ [mkEntry k v ex]) as [|old rest] eqn:Hl; [done|].
      eapply within_le; [exact Hw|]. apply (f_equal length) in Hl. rewrite length_app in Hl. simpl in *. lia.
    + unfold within. cbn [items]. rewrite length_app. cbn [length]. intros Hpos.
      apply andb_false_iff in Hb as [?%Z.ltb_ge|?%Z.ltb_ge]; lia.
Qed.

Lemma aremove_within o k a : within o a → within o (aremove o k a).
Proof. intros Hw. eapply within_le; [exact Hw|apply aremove_length]. Qed.

Lemma aspec_within o op now a : within o a → within o (aspec o op now a).2.
Proof.
  intros Hw. destruct op as [k|k v|k|k|k v|k v ex|k|k f|]; simpl; unfold aset_now;
    try (pose proof (aget_within o k now a Hw); destruct (aget o k now a) as [[e|] a']; simpl in * );
    repeat case_match; simpl; auto using aset_within, aremove_within.
  unfold within. simpl. lia.
Qed.

Lemma aspec_run_within o ops a : within o a → within o (aspec_run o ops a).2.
Proof.
  revert a. induction ops as [|[op now] ops IH]; intros a Hw; simpl; [done|].
  pose proof (aspec_within o op now a Hw). destruct (aspec o op now a) as [r a']; simpl in *.
  specialize (IH a' ltac:(done)). by destruct (aspec_run o ops a').
Qed.

(** *** A value just set is there *)

Lemma afind_app k l l' : afind k (l ++ l') = match afind k l with Some e => Some e | None => afind k l' end.
Proof. induction l as [|e l IH]; simpl; [done|]. by case_decide. Qed.

Lemma afind_adel k l : afind k (adel k l) = None.
Proof. apply afind_None. intros e [? _]%list_elem_of_filter. done. Qed.

Lemma aexpire_find o now a k l e :
  items a = l ++ [e] → afind k l = None → ekey e = k → (ages o = true → now < eexpires e)%Z →
  afind k (items (aexpire o now a)) = Some e.
Proof.
  intros Hi Hn Hk Hex. unfold aexpire. destruct (ages o).
  - rewrite Hi. assert (afind k (aexpire_list now (l ++ [e])).2 = Some e) as Hf.
    { clear Hi. induction l as [|e' l IH]; simpl in *.
      - destruct (Z.leb_spec (eexpires e) now); [specialize (Hex eq_refl); lia|]. simpl. by rewrite decide_True.
      - case_decide; [done|]. case_match.
        + specialize (IH Hn). by destruct (aexpire_list now (l ++ [e])).
        + simpl. rewrite decide_False by done. rewrite afind_app, Hn. simpl. by rewrite decide_True. }
    by destruct (aexpire_list now (l ++ [e])).
  - rewrite Hi, afind_app, Hn. simpl. by rewrite decide_True.
Qed.

Lemma aset_find o k v ex now a :
  (ages o = true → now < ex)%Z → afind k (items (aset o k v ex now a)) = Some (mkEntry k v ex).
Proof.
  intros Hex. unfold aset. destruct (afind k (items a)) as [e|] eqn:Hf.
  - eapply aexpire_find; [done|apply afind_adel|done|done].
  - case_match eqn:Hb; [|by eapply aexpire_find].
    apply andb_true_iff in Hb as [Hb1%Z.ltb_lt Hb2%Z.ltb_lt].
    destruct (items a) as [|old l] eqn:Hi; simpl in *; [lia|].
    eapply aexpire_find; [done| |done|done]. by case_decide.
Qed.

(** *** Clones *)

Lemma clone_cache (h : heap K V) ps l (m : gmap K nat) k p :
  Forall2 (λ p e, cells h !! p = Some e) ps l → NoDup (map ekey l) →
  foldl (λ m p, match cells h !! p with Some e => <[ekey e := p]> m | None => m end) m ps !! k = Some p ↔
  (p ∈ ps ∧ ∃ e, cells h !! p = Some e ∧ ekey e = k) ∨ (k ∉ map ekey l ∧ m !! k = Some p).
Proof.
  intros HF. revert m. induction HF as [|q e ps l He HF IH]; intros m Hnd.
  - simpl. split; [intros ?; right; split; [apply not_elem_of_nil|done]|].
    by intros [[?%not_elem_of_nil _]|[_ ?]].
  - simpl in Hnd |- *. apply NoDup_cons in Hnd as [Hn Hnd]. rewrite He, IH by done.
    rewrite not_elem_of_cons, elem_of_cons, lookup_insert_Some. split.
    + intros [[Hp Hex]|[Hk [[<- <-]|[Hne Hm]]]]; [by left; split; [right|]| |].
      * left. split; [by left|]. eauto.
      * right. by split_and!; [apply not_eq_sym| |].
    + intros [[[->|Hp] (e' & He' & Hk)]|[[Hne Hk] Hm]].
      * right. assert (e' = e) as -> by congruence. subst k. split; [done|]. by left.
      * left. eauto.
      * right. split; [done|]. right. by split; [apply not_eq_sym|].
Qed.

Lemma refines_clone st a (n : LruCache K) ev :
  refines st a → refines (mkSt (hp st) (CloneTo (hp st) (lc st) n) ev) (mkA (items a) ev).
Proof.
  intros Href. pose proof (refines_keys_nodup _ _ Href) as Hkeys. destruct Href as [Hnd Hit Hca Hfr Hev].
  split; simpl; [done|done| |done|done].
  intros k p. rewrite (clone_cache _ _ _ ∅ k p Hit Hkeys), lookup_empty. naive_solver.
Qed.

End LruProofs.

(** ** Properties *)

(** C6: any sequence of timed calls on a new cache gives the answers, the
    content in order of use, and the eviction callbacks of the documented list
    specification; in particular the key map and the linked list never
    disagree.  [GetWithExpire], which the comment says leaves ages alone, may be
    among the calls when the options make no lookup check or renew an age, as
    those of the DNS cache do. *)
Theorem lru_refines_spec {K} `{Countable K} {V} (h : heap K V) (options : list (Options → Options))
    (ops : list (lru_op K V * Z)) :
  (∀ p, is_Some (cells h !! p) → p < next h) →
  let o := foldl (λ o f, f o) no_options options in
  (∀ k now, (OGetWithExpire k, now) ∈ ops → ageless o) →
  (lru_run ops (New h options)).1 = (documented_run o ops (mkA [] [])).1 ∧
  refines (lru_run ops (New h options)).2 (documented_run o ops (mkA [] [])).2.
Proof.
  intros Hh o Ho. rewrite documented_run_aspec by done. apply (lru_run_refines ops (New h options)), refines_new, Hh.
Qed.

Definition aged_ops : list (lru_op Z Z * Z) :=
  [(OSet 1 10, 0); (OSet 2 20, 1); (OGet 1, 2); (OSet 3 30, 3); (OGet 2, 4); (OGet 1, 104)]%Z.

Lemma lru_refines_spec_witness :
  (lru_run aged_ops (New (mkHeap ∅ 0%nat) [WithSize 2; WithAge 100]%Z)).1 =
  [mkAnswer None None true; mkAnswer None None true; mkAnswer (Some 10%Z) None true;
   mkAnswer None None true; mkAnswer None None false; mkAnswer None None false] ∧
  (lru_run [(OSetWithExpire 1 10 5, 0); (OGetWithExpire 1, 9)]%Z
     (New (K:=Z) (V:=Z) (mkHeap ∅ 0%nat) [WithSize 2; WithStale true]%Z)).1 =
  [mkAnswer None None true; mkAnswer (Some 10%Z) (Some 5%Z) true].
Proof.
  split.
  - rewrite (proj1 (lru_refines_spec (mkHeap ∅ 0%nat) [WithSize 2; WithAge 100]%Z aged_ops empty_heap_fresh
      ltac:(intros k t Hin; unfold aged_ops in Hin;
        repeat (apply elem_of_cons in Hin as [?|Hin]; [discriminate|]); by apply elem_of_nil in Hin))).
    vm_compute. reflexivity.
  - rewrite (proj1 (lru_refines_spec (mkHeap ∅ 0%nat) [WithSize 2; WithStale true]%Z
      [(OSetWithExpire 1 10 5, 0); (OGetWithExpire 1, 9)]%Z empty_heap_fresh ltac:(intros k t _; by split))).
    vm_compute. reflexivity.
Defined.

(** Where entries age, [GetWithExpire] does what its comment denies: it does
    not find an entry that is past its age, and it renews the expiry of one it
    finds when that option is set. *)
Theorem get_with_expire_ages :
  (lru_run [(OSet 1 10, 0); (OGetWithExpire 1, 9)]%Z (New (K:=Z) (V:=Z) (mkHeap ∅ 0%nat) [WithAge 5]%Z)).1 =
    [mkAnswer None None true; mkAnswer None None false] ∧
  (documented_run (mkOptions 5 0 false false false) [(OSet 1 10, 0); (OGetWithExpire 1, 9)]%Z (mkA [] [])).1 =
    [mkAnswer None None true; mkAnswer (Some 10%Z) (Some 5%Z) true] ∧
  (lru_run [(OSet 1 10, 0); (OGetWithExpire 1, 3)]%Z
     (New (K:=Z) (V:=Z) (mkHeap ∅ 0%nat) [WithAge 5; WithUpdateAgeOnGet]%Z)).1 =
    [mkAnswer None None true; mkAnswer (Some 10%Z) (Some 8%Z) true].
Proof. by vm_compute. Qed.

(** A cache with a positive size limit never holds more entries than the
    limit, whatever is called on it. *)
Theorem lru_capacity {K} `{Countable K} {V} (h : heap K V) (options : list (Options → Options))
    (ops : list (lru_op K V * Z)) :
  (∀ p, is_Some (cells h !! p) → p < next h) →
  let o := foldl (λ o f, f o) no_options options in
  (0 < maxSize o)%Z →
  (Z.of_nat (length (lru (lc (lru_run ops (New h options)).2))) ≤ maxSize o)%Z.
Proof.
  intros Hh o Hpos.
  destruct (lru_run_refines ops (New h options) _ (refines_new h options Hh)) as [_ Href].
  rewrite (refines_length _ _ Href). apply aspec_run_within; [|done]. unfold within. simpl. lia.
Qed.

Lemma lru_capacity_witness :
  (Z.of_nat (length (lru (lc (lru_run [(OSet 1 10, 0); (OSet 2 20, 1); (OSet 3 30, 3)]%Z
     (New (K:=Z) (V:=Z) (mkHeap ∅ 0%nat) [WithSize 2]%Z)).2))) ≤ 2)%Z.
Proof.
  apply (lru_capacity (mkHeap ∅ 0%nat) [WithSize 2]%Z); [|done].
  apply empty_heap_fresh.
Defined.

(** A value that was just set is found until it expires, also when the set
    evicted an entry to keep the size limit. *)
Theorem lru_set_get {K} `{Countable K} {V} (st : lstate K V) (a : astate K V) (k : K) (v : V) (now now' : Z) :
  refines st a →
  (0 < maxAge (opts (lc st)) → now ≤ now' < now + maxAge (opts (lc st)))%Z →
  (Get k now' (Set_ k v now st)).1 = Some v.
Proof.
  intros Href Hage. set (o := opts (lc st)) in *. unfold Set_, set. fold o.
  set (ex := if (0 <? maxAge o)%Z then (now + maxAge o)%Z else 0%Z).
  pose proof (refines_setWithExpire st a k v ex now Href) as Hset. fold o in Hset.
  pose proof (setWithExpire_opts k v ex now st) as Ho. fold o in Ho.
  assert (∀ t, (now ≤ t)%Z → (0 < maxAge o → t < now + maxAge o)%Z → ages o = true → (t < ex)%Z) as Hex.
  { unfold ages, ex. intros t _ Ht [_ Hpos]%andb_true_iff. rewrite Hpos. apply Z.ltb_lt in Hpos. lia. }
  assert (afind k (items (aset o k v ex now a)) = Some (mkEntry k v ex)) as Hf
    by (apply aset_find, Hex; lia).
  destruct (refines_get _ _ k now' Hset) as [_ Hg]. apply get_deref in Hg.
  unfold Get. rewrite Ho in Hg. unfold aget in Hg. rewrite Hf in Hg.
  destruct (ages o) eqn:Hag; simpl in Hg.
  - assert (0 < maxAge o)%Z by (unfold ages in Hag; lia).
    rewrite (proj2 (Z.leb_gt _ _)) in Hg by (apply Hex; [lia..|done]). simpl in Hg.
    destruct (get k now' _); simpl in *. rewrite Hg. unfold arefresh. by case_match.
  - destruct (get k now' _); simpl in *. rewrite Hg. unfold arefresh. by case_match.
Qed.

Lemma lru_set_get_witness :
  (Get 3 9 (Set_ 3 30 2 (lru_run [(OSet 1 10, 0); (OSet 2 20, 1)]%Z
     (New (K:=Z) (V:=Z) (mkHeap ∅ 0%nat) [WithSize 2; WithAge 8]%Z)).2))%Z.1 = Some 30%Z.
Proof.
  eapply lru_set_get; [|vm_compute; intuition discriminate].
  exact (proj2 (lru_run_refines _ _ (mkA [] []) (refines_new _ _ empty_heap_fresh))).
Defined.

(** A clone has the entries of the original in the same order, but shares
    them: setting a present key through the clone changes what the original
    answers. *)
Theorem clone_shares_entries {K} `{Countable K} {V} (st : lstate K V) (a : astate K V)
    (n : LruCache K) (k : K) (v : V) (now : Z) :
  refines st a → is_Some (afind k (items a)) →
  maxAge (opts (lc st)) = 0%Z → maxAge (opts n) = 0%Z →
  let cl := mkSt (hp st) (CloneTo (hp st) (lc st) n) [] in
  refines cl (mkA (items a) []) ∧
  (Get k now (mkSt (hp (Set_ k v now cl)) (lc st) (evicted st))).1 = Some v.
Proof.
  intros Href [e Hf] Hage Hagen cl. pose proof (refines_clone _ _ n [] Href) as Hcl.
  split; [exact Hcl|]. pose proof (refines_lookup _ _ k Href) as Hk.
  pose proof (refines_lookup _ _ k Hcl) as Hkn. simpl in Hkn. fold cl in Hkn.
  destruct (cache (lc st) !! k) as [p|] eqn:Hc; [|congruence].
  destruct Hk as (Hp & e' & He' & Hek & Hf').
  assert (cache (CloneTo (hp st) (lc st) n) !! k = Some p) as Hcn.
  { apply (ref_cache _ _ Hcl). simpl. eauto. }
  assert (opts (CloneTo (hp st) (lc st) n) = opts n) as Hon by done.
  clear Hcl Hkn. subst cl. destruct (CloneTo (hp st) (lc st) n) as [on cn ln]. simpl in Hcn, Hon. subst on.
  unfold Set_, set, setWithExpire, maybeDeleteOldest, ages. simpl.
  rewrite Hagen, Hcn, He'. simpl. rewrite Hagen, andb_false_r. simpl.
  unfold Get, get. simpl. rewrite Hc, lookup_insert_eq. unfold ages. rewrite Hage, andb_false_r. simpl.
  unfold deref. simpl. by rewrite lookup_insert_eq.
Qed.

Lemma clone_shares_entries_witness :
  let st := Set_ 7%Z 70%Z 0 (New (K:=Z) (V:=Z) (mkHeap ∅ 0%nat) [WithSize 4]%Z) in
  let cl := mkSt (hp st) (CloneTo (hp st) (lc st) (lc (New (K:=Z) (V:=Z) (mkHeap ∅ 0%nat) []))) [] in
  (Get 7%Z 1 (mkSt (hp (Set_ 7%Z 71%Z 1 cl)) (lc st) (evicted st))).1 = Some 71%Z.
Proof.
  eapply clone_shares_entries;
    [exact (refines_set _ (mkA [] []) 7%Z 70%Z 0%Z (refines_new _ _ empty_heap_fresh))
    |vm_compute; by eexists|done|done].
Defined.
