(* ===== verification/FakeIP.v ===== *)
(** * The fake-IP pool: [component/fakeip] and the address queries of
    [dns/enhancer.go]

    The pool hands out addresses of a private range to host names, through a
    [store].  The store is an interface, the class [Store], whose promises are
    the class [StoreLaws]; the pool is proved against the interface, and the
    in-memory store, a pair of LRU caches, is proved to keep the promises. *)

From Stdlib Require Import ZArith Lia.
From stdpp Require Import prelude strings gmap list.
From S2P Require Import Prelude Netip Lru.

(** ** The store interface *)

Class Store (S : Type) := {
  GetByHost : string → S → option Addr * S;
  PutByHost : string → Addr → S → S;
  GetByIP : Addr → S → option string * S;
  PutByIP : Addr → string → S → S;
  DelByIP : Addr → S → S;
  StExist : Addr → S → bool;
  StFlush : S → bool * S
}.

(** What a store promises: it holds a bijection between hosts and addresses,
    which a lookup does not change; a new pair put in both directions is held,
    and can at most make the store drop other pairs. *)
Class StoreLaws (S : Type) `{Store S} := {
  st_inv : S → Prop;
  hostOf : S → Addr → option string;
  ipOf : S → string → option Addr;
  law_bij s h ip : st_inv s → ipOf s h = Some ip ↔ hostOf s ip = Some h;
  law_getByHost s h : st_inv s →
    (GetByHost h s).1 = ipOf s h ∧ st_inv (GetByHost h s).2 ∧
    ∀ ip, hostOf (GetByHost h s).2 ip = hostOf s ip;
  law_getByIP s ip : st_inv s →
    (GetByIP ip s).1 = hostOf s ip ∧ st_inv (GetByIP ip s).2 ∧
    ∀ ip', hostOf (GetByIP ip s).2 ip' = hostOf s ip';
  law_exist s ip : st_inv s → StExist ip s = bool_decide (is_Some (hostOf s ip));
  law_del s ip : st_inv s →
    st_inv (DelByIP ip s) ∧
    ∀ ip', hostOf (DelByIP ip s) ip' = if decide (ip' = ip) then None else hostOf s ip';
  law_put s ip h : st_inv s → hostOf s ip = None → ipOf s h = None →
    let s' := PutByHost h ip (PutByIP ip h s) in
    st_inv s' ∧ hostOf s' ip = Some h ∧
    ∀ ip' h', ip' ≠ ip → hostOf s' ip' = Some h' → hostOf s ip' = Some h';
  law_flush s : st_inv s →
    if (StFlush s).1 then st_inv (StFlush s).2 ∧ ∀ ip, hostOf (StFlush s).2 ip = None
    else (StFlush s).2 = s
}.

(** ** The pool *)

Section Pool.
Context {S : Type} `{Store S}.

Record Pool := mkPool {
  gateway : Addr;
  first : Addr;
  last : Addr;
  offset : Addr;
  cycle : bool;
  ipnet : Prefix;
  store : S
}.

Definition with_store (p : Pool) (s : S) : Pool :=
  mkPool (gateway p) (first p) (last p) (offset p) (cycle p) (ipnet p) s.

(** [p.get]: the next address of the cycle; what it was used for is dropped. *)
Definition pool_get (host : string) (p : Pool) : Addr * Pool :=
  let off := Next (offset p) in
  let '(off, cyc) := if Less off (last p) then (off, cycle p) else (first p, true) in
  let s := if cyc || StExist off (store p) then DelByIP off (store p) else store p in
  (off, mkPool (gateway p) (first p) (last p) off cyc (ipnet p) (PutByIP off host s)).

Definition Lookup (host0 : string) (p : Pool) : Addr * Pool :=
  let host := ToLower host0 in
  match GetByHost host (store p) with
  | (Some ip, s) => (ip, with_store p s)
  | (None, s) =>
    let '(ip, p') := pool_get host (with_store p s) in
    (ip, with_store p' (PutByHost host ip (store p')))
  end.

Definition LookBack (ip : Addr) (p : Pool) : option string * Pool :=
  let '(r, s) := GetByIP ip (store p) in (r, with_store p s).

Definition PoolExist (ip : Addr) (p : Pool) : bool := StExist ip (store p).

Definition Gateway (p : Pool) : Addr := gateway p.

Definition Broadcast (p : Pool) : Addr := last p.

Definition IPNet (p : Pool) : Prefix := ipnet p.

(** [FlushFakeIP]: [true] is the nil error. *)
Definition FlushFakeIP (p : Pool) : bool * Pool :=
  let '(ok, s) := StFlush (store p) in
  if ok then (true, mkPool (gateway p) (first p) (last p) (Prev (first p)) false (ipnet p) s)
  else (false, with_store p s).

(** [New] up to the choice of the store.  [PrefixLastIP] is the function of
    package netipx; [None] is the error. *)
Definition NewPool (PrefixLastIP : Prefix → Addr) (net : Prefix) (s : S) : option Pool :=
  let hostAddr := MaskedAddr net in
  let gw := Next hostAddr in
  let fst := Next (Next (Next gw)) in
  let lst := PrefixLastIP net in
  if negb (prefix_valid net) || negb (IsValid fst) || negb (Less fst lst) then None
  else Some (mkPool gw fst lst (Prev fst) false net s).

Inductive pool_op :=
  | PLookup (host : string)
  | PLookBack (ip : Addr)
  | PExist (ip : Addr)
  | PFlush.

Definition pool_step (op : pool_op) (p : Pool) : Pool :=
  match op with
  | PLookup host => (Lookup host p).2
  | PLookBack ip => (LookBack ip p).2
  | PExist _ => p
  | PFlush => (FlushFakeIP p).2
  end.

Definition pool_run (ops : list pool_op) (p : Pool) : Pool := foldl (λ p op, pool_step op p) p ops.

(** The usable addresses: from [first] on, below the broadcast address. *)
Definition in_pool (p : Pool) (ip : Addr) : Prop :=
  ∃ v6 f l n, first p = addr_at v6 f ∧ last p = addr_at v6 l ∧ ip = addr_at v6 n ∧ (f ≤ n < l)%Z.

(** The shape [New] gives a pool and every operation keeps. *)
Definition pool_shape (p : Pool) : Prop :=
  ∃ v6 f l o, first p = addr_at v6 f ∧ last p = addr_at v6 l ∧ offset p = addr_at v6 o ∧
    gateway p = addr_at v6 (f - 3) ∧ (3 ≤ f)%Z ∧ (f - 1 ≤ o < l)%Z ∧ (f < l)%Z ∧ (l < family_max v6)%Z ∧
    ∀ n, (f ≤ n ≤ l)%Z → PContains (ipnet p) (addr_at v6 n) = true.

End Pool.

Arguments Pool : clear implicits.

(** ** The in-memory store: [component/fakeip/memory.go]

    Neither cache has an age, so their operations never read the clock; the
    instant passed to them is 0. *)

Record memoryStore := mkMem { cacheIP : lstate string Addr; cacheHost : lstate Addr string }.

Definition mem_GetByHost (host : string) (m : memoryStore) : option Addr * memoryStore :=
  let '(r, cip) := Get host 0 (cacheIP m) in
  match r with
  | Some ip => (Some ip, mkMem cip (Get ip 0 (cacheHost m)).2)
  | None => (None, mkMem cip (cacheHost m))
  end.

Definition mem_PutByHost (host : string) (ip : Addr) (m : memoryStore) : memoryStore :=
  mkMem (Set_ host ip 0 (cacheIP m)) (cacheHost m).

Definition mem_GetByIP (ip : Addr) (m : memoryStore) : option string * memoryStore :=
  let '(r, ch) := Get ip 0 (cacheHost m) in
  match r with
  | Some host => (Some host, mkMem (Get host 0 (cacheIP m)).2 ch)
  | None => (None, mkMem (cacheIP m) ch)
  end.

Definition mem_PutByIP (ip : Addr) (host : string) (m : memoryStore) : memoryStore :=
  mkMem (cacheIP m) (Set_ ip host 0 (cacheHost m)).

Definition mem_DelByIP (ip : Addr) (m : memoryStore) : memoryStore :=
  let '(r, ch) := Get ip 0 (cacheHost m) in
  let cip := match r with Some host => Delete host (cacheIP m) | None => cacheIP m end in
  mkMem cip (Delete ip ch).

Definition mem_Exist (ip : Addr) (m : memoryStore) : bool := Exist ip (cacheHost m).

(** [CloneTo] between two memory stores; the clone shares the entries, hence
    the heaps, of the original. *)
Definition mem_CloneTo (m ms : memoryStore) : memoryStore :=
  mkMem (mkSt (hp (cacheIP m)) (CloneTo (hp (cacheIP m)) (lc (cacheIP m)) (lc (cacheIP ms))) (evicted (cacheIP ms)))
    (mkSt (hp (cacheHost m)) (CloneTo (hp (cacheHost m)) (lc (cacheHost m)) (lc (cacheHost ms)))
       (evicted (cacheHost ms))).

Definition mem_FlushFakeIP (m : memoryStore) : bool * memoryStore :=
  (true, mkMem (Clear (cacheIP m)) (Clear (cacheHost m))).

Definition newMemoryStore (size : Z) : memoryStore :=
  mkMem (New (mkHeap ∅ 0) [WithSize size]) (New (mkHeap ∅ 0) [WithSize size]).

#[global] Instance memory_store : Store memoryStore := {|
  GetByHost := mem_GetByHost;
  PutByHost := mem_PutByHost;
  GetByIP := mem_GetByIP;
  PutByIP := mem_PutByIP;
  DelByIP := mem_DelByIP;
  StExist := mem_Exist;
  StFlush := mem_FlushFakeIP
|}.

(** [p.CloneFrom(o)] for two pools with memory stores. *)
Definition CloneFrom (p o : Pool memoryStore) : Pool memoryStore :=
  with_store p (mem_CloneTo (store o) (store p)).

(** ** Address queries of the enhancer: [dns/enhancer.go] *)

Section Enhancer.
Context {S : Type} `{Store S}.

Inductive DNSMode := DNSNormal | DNSFakeIP | DNSMapping | DNSHosts.

#[global] Instance DNSMode_eq_dec : EqDecision DNSMode.
Proof. solve_decision. Defined.

(** A nil pool or mapping is [None]. *)
Record Enhancer := mkEnhancer {
  e_mode : DNSMode;
  fakeIPPool : option (Pool S);
  fakeIPPool6 : option (Pool S);
  e_mapping : option (lstate Addr string)
}.

Definition FakeIPEnabled (h : Enhancer) : bool := bool_decide (e_mode h = DNSFakeIP).

Definition MappingEnabled (h : Enhancer) : bool :=
  bool_decide (e_mode h = DNSFakeIP) || bool_decide (e_mode h = DNSMapping).

Definition IsExistFakeIP (ip : Addr) (h : Enhancer) : bool :=
  if negb (FakeIPEnabled h) then false
  else
    if default false (PoolExist ip <$> fakeIPPool h) then true
    else default false (PoolExist ip <$> fakeIPPool6 h).

Definition pool_fake (ip : Addr) (p : Pool S) : bool :=
  PContains (IPNet p) ip && bool_decide (ip ≠ Gateway p) && bool_decide (ip ≠ Broadcast p).

Definition IsFakeIP (ip : Addr) (h : Enhancer) : bool :=
  if negb (FakeIPEnabled h) then false
  else
    if default false (pool_fake ip <$> fakeIPPool h) then true
    else default false (pool_fake ip <$> fakeIPPool6 h).

Definition IsFakeBroadcastIP (ip : Addr) (h : Enhancer) : bool :=
  if negb (FakeIPEnabled h) then false
  else
    let b (p : Pool S) := bool_decide (Broadcast p = ip) in
    if default false (b <$> fakeIPPool h) then true else default false (b <$> fakeIPPool6 h).

(** Looking up a pool moves entries of its store, so the pool comes back. *)
Definition look_pool (ip : Addr) (p : option (Pool S)) : option string * option (Pool S) :=
  match p with
  | None => (None, None)
  | Some p => let '(r, p') := LookBack ip p in (r, Some p')
  end.

Definition FindHostByIP (ip : Addr) (h : Enhancer) : option string * Enhancer :=
  let '(r, p4) := look_pool ip (fakeIPPool h) in
  match r with
  | Some host => (Some host, mkEnhancer (e_mode h) p4 (fakeIPPool6 h) (e_mapping h))
  | None =>
    let '(r, p6) := look_pool ip (fakeIPPool6 h) in
    match r with
    | Some host => (Some host, mkEnhancer (e_mode h) p4 p6 (e_mapping h))
    | None =>
      match e_mapping h with
      | None => (None, mkEnhancer (e_mode h) p4 p6 None)
      | Some m => let '(r, m') := Get ip 0 m in (r, mkEnhancer (e_mode h) p4 p6 (Some m'))
      end
    end
  end.

Definition InsertHostByIP (ip : Addr) (host : string) (h : Enhancer) : Enhancer :=
  mkEnhancer (e_mode h) (fakeIPPool h) (fakeIPPool6 h) (Set_ ip host 0 <$> e_mapping h).

End Enhancer.

Arguments Enhancer : clear implicits.

(** ** The pool against the interface *)

(** Documented behaviour of netipx.PrefixLastIP on a valid prefix: the host
    bits of the result are ones, and it has no zone. *)
Definition LastIP_spec (PrefixLastIP : Prefix → Addr) : Prop :=
  ∀ p, prefix_valid p = true →
    PrefixLastIP p =
      addr_at (negb (Is4 (paddr p))) (addr_val (MaskedAddr p) + 2 ^ (BitLen (paddr p) - pbits p) - 1).

Section PoolProofs.
Context {S : Type} `{StoreLaws S}.
Implicit Types (p : Pool S) (s : S).

Definition pool_inv p : Prop :=
  pool_shape p ∧ st_inv (store p) ∧ ∀ ip h, hostOf (store p) ip = Some h → in_pool p ip.

(** Two pools over the same range. *)
Definition same_range (p q : Pool S) : Prop :=
  first q = first p ∧ last q = last p ∧ gateway q = gateway p ∧ ipnet q = ipnet p.

Lemma ipOf_ext s s' h :
  st_inv s → st_inv s' → (∀ ip, hostOf s' ip = hostOf s ip) → ipOf s' h = ipOf s h.
Proof.
  intros Hs Hs' Heq. apply option_eq. intros ip. by rewrite !law_bij, Heq.
Qed.

Lemma in_pool_range p q ip : same_range p q → in_pool p ip → in_pool q ip.
Proof.
  intros (Hf & Hl & _ & _) (v6 & f & l & n & ? & ? & ? & ?). exists v6, f, l, n.
  rewrite Hf, Hl. done.
Qed.

Lemma same_range_refl p : same_range p p.
Proof. done. Qed.

Lemma same_range_trans p q r : same_range p q → same_range q r → same_range p r.
Proof. unfold same_range. intuition congruence. Qed.

(** A store change that only loses pairs keeps the invariant. *)
Lemma pool_inv_with_store p s :
  pool_inv p → st_inv s → (∀ ip h, hostOf s ip = Some h → hostOf (store p) ip = Some h) →
  pool_inv (with_store p s).
Proof.
  intros (Hsh & Hst & Hin) Hs Hsub. split_and!; [done|done|].
  intros ip h Hh. apply (in_pool_range p); [done|]. simpl in Hh. eauto.
Qed.

(** The address [get] picks. *)
Definition pool_pick p : Addr * bool :=
  let off := Next (offset p) in if Less off (last p) then (off, cycle p) else (first p, true).

Lemma pool_pick_in p : pool_shape p → in_pool p (pool_pick p).1.
Proof.
  intros (v6 & f & l & o & Hf & Hl & Ho & _ & ? & ? & ? & ? & _). unfold pool_pick.
  rewrite Ho, Next_at, Hl, Less_at by lia. destruct (Z.ltb_spec (o + 1) l); simpl.
  - exists v6, f, l, (o + 1)%Z. split_and!; [done|done|done|lia|lia].
  - exists v6, f, l, f. split_and!; [done|done|done|lia|lia].
Qed.

Lemma pool_pick_shape p s c :
  pool_shape p →
  pool_shape (mkPool (gateway p) (first p) (last p) (pool_pick p).1 c (ipnet p) s).
Proof.
  intros Hsh. pose proof (pool_pick_in p Hsh) as (v6' & f' & l' & n & Hf' & Hl' & Hn & Hb).
  destruct Hsh as (v6 & f & l & o & Hf & Hl & Ho & Hg & ? & ? & ? & ? & Hct).
  rewrite Hf in Hf'. rewrite Hl in Hl'.
  assert (v6' = v6) as -> by (by destruct v6, v6').
  apply addr_at_inj in Hf' as <-. apply addr_at_inj in Hl' as <-.
  exists v6, f, l, n. simpl. split_and!; auto; lia.
Qed.

Lemma Lookup_spec p host :
  pool_inv p →
  let '(ip, p') := Lookup host p in
  pool_inv p' ∧ same_range p p' ∧ in_pool p ip ∧ hostOf (store p') ip = Some (ToLower host) ∧
  ∀ ip' h, ip' ≠ ip → hostOf (store p') ip' = Some h → hostOf (store p) ip' = Some h.
Proof.
  intros Hinv. pose proof Hinv as (Hsh & Hst & Hin). unfold Lookup. set (h := ToLower host).
  destruct (law_getByHost (store p) h Hst) as (Hr & Hs1 & Heq).
  destruct (GetByHost h (store p)) as [r s1]; simpl in *. subst r.
  destruct (ipOf (store p) h) as [ip|] eqn:Hip.
  - apply law_bij in Hip; [|done]. split_and!; try done.
    + apply pool_inv_with_store; [done..|]. intros ip' h'. by rewrite Heq.
    + eauto.
    + simpl. by rewrite Heq.
    + simpl. intros ip' h' _. by rewrite Heq.
  - unfold pool_get. fold (pool_pick (with_store p s1)).
    assert (Hsh1 : pool_shape (with_store p s1)) by done.
    pose proof (pool_pick_in _ Hsh1) as Hpin. pose proof (λ s c, pool_pick_shape _ s c Hsh1) as Hpsh.
    change (pool_pick (with_store p s1)) with (pool_pick p) in *.
    destruct (pool_pick p) as [off cyc]; simpl in *.
    set (s2 := if cyc || StExist off s1 then DelByIP off s1 else s1).
    assert (st_inv s2 ∧ hostOf s2 off = None ∧
            ∀ ip', ip' ≠ off → hostOf s2 ip' = hostOf (store p) ip') as (Hs2 & Hn2 & Heq2).
    { destruct (law_del s1 off Hs1) as [Hd Hdeq]. unfold s2. rewrite law_exist by done.
      destruct (cyc || bool_decide (is_Some (hostOf s1 off))) eqn:Hb.
      - split_and!; [done|rewrite Hdeq; by rewrite decide_True|].
        intros ip' Hne. by rewrite Hdeq, decide_False, Heq by done.
      - apply orb_false_iff in Hb as [_ Hb%bool_decide_eq_false]. split_and!; [done| |by auto].
        by apply eq_None_not_Some. }
    assert (ipOf s2 h = None) as Hh2.
    { destruct (ipOf s2 h) as [ip'|] eqn:Hf; [|done]. apply law_bij in Hf; [|done].
      destruct (decide (ip' = off)) as [->|]; [congruence|].
      rewrite Heq2 in Hf by done. apply law_bij in Hf; [congruence|done]. }
    destruct (law_put s2 off h Hs2 Hn2 Hh2) as (Hs3 & Hoff & Hsub).
    split_and!; [|done|done|done|].
    + split_and!; [apply Hpsh|done|]. simpl. intros ip' h' Hf.
      destruct (decide (ip' = off)) as [->|Hne]; [done|].
      apply Hsub in Hf; [|done]. rewrite Heq2 in Hf by done. apply (in_pool_range p); [done|]. eauto.
    + simpl. intros ip' h' Hne Hf. apply Hsub in Hf; [|done]. by rewrite Heq2 in Hf.
Qed.

Lemma LookBack_spec p ip :
  pool_inv p →
  (LookBack ip p).1 = hostOf (store p) ip ∧ pool_inv (LookBack ip p).2 ∧
  same_range p (LookBack ip p).2 ∧ ∀ ip', hostOf (store (LookBack ip p).2) ip' = hostOf (store p) ip'.
Proof.
  intros Hinv. unfold LookBack. destruct (law_getByIP (store p) ip) as (Hr & Hs & Heq); [apply Hinv|].
  destruct (GetByIP ip (store p)) as [r s]; simpl in *. split_and!; try done.
  apply pool_inv_with_store; [done..|]. intros ip' h. by rewrite Heq.
Qed.

Lemma Flush_spec p : pool_inv p → pool_inv (FlushFakeIP p).2 ∧ same_range p (FlushFakeIP p).2.
Proof.
  intros Hinv. unfold FlushFakeIP. pose proof Hinv as (Hsh & Hst & _).
  pose proof (law_flush (store p) Hst) as Hfl. destruct (StFlush (store p)) as [[] s]; simpl in *.
  - destruct Hfl as [Hs Hnone]. split; [|done]. split_and!; [|done|].
    + destruct Hsh as (v6 & f & l & o & Hf & Hl & Ho & Hg & ? & ? & ? & ? & Hct).
      exists v6, f, l, (f - 1)%Z. simpl. rewrite Hf, Prev_at by lia. split_and!; auto; lia.
    + simpl. intros ip h. rewrite Hnone. done.
  - subst s. split; [|done]. apply pool_inv_with_store; auto.
Qed.

Lemma pool_step_inv op p : pool_inv p → pool_inv (pool_step op p) ∧ same_range p (pool_step op p).
Proof.
  intros Hinv. destruct op as [host|ip|ip|]; simpl.
  - pose proof (Lookup_spec p host Hinv) as Hl. destruct (Lookup host p); simpl. tauto.
  - destruct (LookBack_spec p ip Hinv) as (_ & ? & ? & _). done.
  - done.
  - by apply Flush_spec.
Qed.

Lemma pool_run_inv ops p : pool_inv p → pool_inv (pool_run ops p) ∧ same_range p (pool_run ops p).
Proof.
  revert p. induction ops as [|op ops IH]; intros p Hinv; [done|]. simpl.
  destruct (pool_step_inv op p Hinv) as [Hi Hr]. destruct (IH _ Hi) as [Hi' Hr'].
  split; [done|]. by eapply same_range_trans.
Qed.

Lemma masked_shape net :
  prefix_valid net = true →
  ∃ n, MaskedAddr net = addr_at (negb (Is4 (paddr net))) n ∧ n = addr_val (MaskedAddr net).
Proof.
  unfold MaskedAddr. intros Hv. rewrite Hv. unfold prefix_valid in Hv.
  destruct (paddr net); simpl in *; [done|by eexists..].
Qed.

Lemma masked_bounds net :
  prefix_valid net = true → addr_wf (paddr net) →
  (0 ≤ addr_val (MaskedAddr net))%Z ∧
  (addr_val (MaskedAddr net) + 2 ^ (BitLen (paddr net) - pbits net) ≤ family_max (negb (Is4 (paddr net))))%Z.
Proof.
  intros Hv Hwf. unfold MaskedAddr. rewrite Hv.
  unfold prefix_valid in Hv. apply andb_true_iff in Hv as [[Hval ?%Z.leb_le]%andb_true_iff ?%Z.leb_le].
  unfold addr_wf in Hwf. set (a := addr_val (paddr net)) in *. set (w := BitLen (paddr net)) in *.
  assert (family_max (negb (Is4 (paddr net))) = 2 ^ w)%Z as -> by (unfold w; by destruct (paddr net)).
  assert (addr_val (match paddr net with NoAddr => NoAddr
    | Addr4 _ => Addr4 (Z.shiftl (Z.shiftr a (w - pbits net)) (w - pbits net))
    | Addr6 _ _ => Addr6 (Z.shiftl (Z.shiftr a (w - pbits net)) (w - pbits net)) "" end) =
    Z.shiftl (Z.shiftr a (w - pbits net)) (w - pbits net)) as -> by (by destruct (paddr net)).
  rewrite Z.shiftl_mul_pow2, Z.shiftr_div_pow2 by lia.
  set (k := (2 ^ (w - pbits net))%Z) in *.
  assert (0 < k)%Z by (unfold k; apply Z.pow_pos_nonneg; lia).
  assert (2 ^ w = 2 ^ pbits net * k)%Z as Hw
    by (unfold k; rewrite <- Z.pow_add_r by lia; f_equal; lia).
  assert (0 ≤ a / k)%Z by (apply Z.div_pos; lia).
  assert (a / k < 2 ^ pbits net)%Z by (apply Z.div_lt_upper_bound; lia).
  split; [lia|]. rewrite Hw. nia.
Qed.

(** Every address from the network address to the last one is contained. *)
Lemma PContains_between net n :
  prefix_valid net = true →
  (addr_val (MaskedAddr net) ≤ n < addr_val (MaskedAddr net) + 2 ^ (BitLen (paddr net) - pbits net))%Z →
  PContains net (addr_at (negb (Is4 (paddr net))) n) = true.
Proof.
  intros Hv. unfold MaskedAddr, PContains. rewrite Hv.
  unfold prefix_valid in Hv. apply andb_true_iff in Hv as [[Hval ?%Z.leb_le]%andb_true_iff ?%Z.leb_le].
  set (a := addr_val (paddr net)). set (sh := (BitLen (paddr net) - pbits net)%Z).
  assert (0 < 2 ^ sh)%Z by (apply Z.pow_pos_nonneg; unfold sh; lia).
  assert (0 ≤ sh)%Z by (unfold sh; lia).
  assert (∀ m, (Z.shiftl (Z.shiftr a sh) sh ≤ m < Z.shiftl (Z.shiftr a sh) sh + 2 ^ sh)%Z →
    Z.shiftr (Z.lxor m a) sh = 0%Z) as Hz.
  { intros m. rewrite Z.shiftl_mul_pow2, Z.shiftr_div_pow2 by lia. intros Hm.
    rewrite Z.shiftr_lxor, !Z.shiftr_div_pow2 by lia.
    assert (m `div` 2 ^ sh = a `div` 2 ^ sh)%Z as ->; [|apply Z.lxor_nilpotent].
    symmetry. apply (Z.div_unique _ _ _ (m - a `div` 2 ^ sh * 2 ^ sh)); lia. }
  unfold a, sh in *. destruct (paddr net) as [|b|b z]; simpl in *; [done|..];
    intros Hn; rewrite Hz by done; done.
Qed.

Lemma Next_valid a : IsValid (Next a) = true → IsValid a = true.
Proof. by destruct a. Qed.

Lemma Next_at_valid v6 n : IsValid (Next (addr_at v6 n)) = true → Next (addr_at v6 n) = addr_at v6 (n + 1).
Proof. destruct v6; simpl; by case_match. Qed.

(** The pool [New] makes: its ends, from the network alone. *)
Lemma NewPool_ends PrefixLastIP net s p :
  LastIP_spec PrefixLastIP → addr_wf (paddr net) → NewPool PrefixLastIP net s = Some p →
  let v6 := negb (Is4 (paddr net)) in
  let n := addr_val (MaskedAddr net) in
  let l := (n + 2 ^ (BitLen (paddr net) - pbits net) - 1)%Z in
  prefix_valid net = true ∧ (0 ≤ n)%Z ∧ (n + 4 < l)%Z ∧ (l < family_max v6)%Z ∧
  p = mkPool (addr_at v6 (n + 1)) (addr_at v6 (n + 4)) (addr_at v6 l) (addr_at v6 (n + 3)) false net s.
Proof.
  intros Hlast Hwf. unfold NewPool. destruct (prefix_valid net) eqn:Hv; simpl; [|done].
  destruct (masked_shape net Hv) as (n & Hm & Hn). destruct (masked_bounds net Hv Hwf) as [Hn0 Hmax].
  rewrite (Hlast net Hv). rewrite <- Hn in *. rewrite Hm.
  set (v6 := negb (Is4 (paddr net))) in *. set (k := (2 ^ (BitLen (paddr net) - pbits net))%Z) in *.
  destruct (IsValid (Next (Next (Next (Next (addr_at v6 n)))))) eqn:Hval; simpl; [|done].
  pose proof (Next_valid _ Hval) as Hval3. pose proof (Next_valid _ Hval3) as Hval2.
  pose proof (Next_valid _ Hval2) as Hval1.
  rewrite (Next_at_valid v6 n) in Hval, Hval3, Hval2 |- * by done.
  rewrite (Next_at_valid v6 (n + 1)) in Hval, Hval3 |- * by done.
  rewrite (Next_at_valid v6 (n + 1 + 1)) in Hval |- * by done.
  rewrite (Next_at_valid v6 (n + 1 + 1 + 1)) by done.
  rewrite Less_at. destruct (Z.ltb_spec (n + 1 + 1 + 1 + 1) (n + k - 1)); simpl; [|done].
  intros [= <-]. rewrite Prev_at by lia. split_and!; [done|lia..|]. repeat (f_equal; try lia).
Qed.

Lemma NewPool_inv PrefixLastIP net s p :
  LastIP_spec PrefixLastIP → addr_wf (paddr net) →
  st_inv s → (∀ ip, hostOf s ip = None) →
  NewPool PrefixLastIP net s = Some p → pool_inv p.
Proof.
  intros Hlast Hwf Hs Hempty Hp. destruct (NewPool_ends _ _ _ _ Hlast Hwf Hp) as (Hv & ? & ? & ? & ->).
  split_and!; simpl; [|done|intros ip h; by rewrite Hempty].
  exists (negb (Is4 (paddr net))), (addr_val (MaskedAddr net) + 4)%Z,
    (addr_val (MaskedAddr net) + 2 ^ (BitLen (paddr net) - pbits net) - 1)%Z, (addr_val (MaskedAddr net) + 3)%Z.
  simpl. split_and!; try done; try lia; [f_equal; lia|].
  intros m Hmn. apply PContains_between; [done|]. lia.
Qed.

(** What one lookup in a pool gives, in terms of its operations. *)
Lemma Lookup_again p host host' :
  pool_inv p → ToLower host' = ToLower host →
  let '(ip, p') := Lookup host p in (Lookup host' p').1 = ip.
Proof.
  intros Hinv Hlow. pose proof (Lookup_spec p host Hinv) as Hs.
  destruct (Lookup host p) as [ip p']. destruct Hs as ((_ & Hst & _) & _ & _ & Hh & _).
  unfold Lookup. rewrite Hlow. destruct (law_getByHost (store p') (ToLower host) Hst) as (Hr & _).
  apply law_bij in Hh; [|done]. destruct (GetByHost (ToLower host) (store p')) as [r s]; simpl in *.
  by rewrite Hr, Hh.
Qed.

(** A usable address is contained in the network and is neither the gateway
    nor the broadcast address. *)
Lemma in_pool_fake p ip : pool_shape p → in_pool p ip → pool_fake ip p = true.
Proof.
  intros (v6 & f & l & o & Hf & Hl & Ho & Hg & ? & ? & ? & ? & Hct) (v6' & f' & l' & n & Hf' & Hl' & -> & Hn).
  rewrite Hf in Hf'. rewrite Hl in Hl'. assert (v6' = v6) as -> by (by destruct v6, v6').
  apply addr_at_inj in Hf' as <-. apply addr_at_inj in Hl' as <-.
  unfold pool_fake, IPNet, Gateway, Broadcast. rewrite Hct, Hg, Hl by lia. simpl.
  rewrite !bool_decide_true; [done|..]; intros Heq%addr_at_inj; lia.
Qed.

End PoolProofs.

(** ** The memory store keeps the promises *)

Definition mem_opts (n : Z) : Options := WithSize n no_options.

(** Moving a pair to the back, and appending one under the size limit: what
    the two caches do to their common list of pairs. *)
Definition mv {P} `{EqDecision P} (p : P) (l : list P) : list P := filter (λ q, q ≠ p) l ++ [p].

Definition push {P} (n : Z) (p : P) (l : list P) : list P :=
  if (0 <? n)%Z && (n <? Z.of_nat (S (length l)))%Z then tail (l ++ [p]) else l ++ [p].

(** One of the two caches: the entries of a list of pairs [p], with key [k p]
    and value [v p]. *)
Section Mirror.
Context {P K V : Type} `{EqDecision P} `{Countable K} (k : P → K) (v : P → V).
Implicit Types (l : list P) (p q : P).

Definition ent (p : P) : entry K V := mkEntry (k p) (v p) 0.

Lemma key_inj l p q : NoDup (map k l) → p ∈ l → q ∈ l → k p = k q → p = q.
Proof.
  intros Hnd [i Hi]%list_elem_of_lookup [j Hj]%list_elem_of_lookup Heq.
  assert (i = j) as <-; [|congruence].
  eapply (NoDup_lookup (map k l)); [done|by rewrite list_lookup_fmap, Hi|].
  rewrite list_lookup_fmap, Hj. simpl. congruence.
Qed.

Lemma afind_ent_None l x : (∀ p, p ∈ l → k p ≠ x) → afind x (map ent l) = None.
Proof.
  intros Hl. apply afind_None. intros e (p & -> & Hp)%list_elem_of_fmap. by apply Hl.
Qed.

Lemma afind_ent l p : NoDup (map k l) → p ∈ l → afind (k p) (map ent l) = Some (ent p).
Proof.
  intros Hnd Hp. destruct (afind (k p) (map ent l)) as [e|] eqn:Hf.
  - apply afind_Some in Hf as [(q & -> & Hq)%list_elem_of_fmap Hk]. simpl in Hk.
    by rewrite (key_inj l q p).
  - apply afind_None with (e := ent p) in Hf; [done|]. by apply list_elem_of_fmap_2.
Qed.

Lemma afind_ent_Some l x e : afind x (map ent l) = Some e → ∃ p, p ∈ l ∧ e = ent p ∧ k p = x.
Proof. intros [(p & -> & Hp)%list_elem_of_fmap Hk]%afind_Some. by exists p. Qed.

Lemma adel_map x l : adel x (map ent l) = map ent (filter (λ q, k q ≠ x) l).
Proof.
  unfold adel. induction l as [|p l IH]; [done|]. simpl. rewrite !filter_cons.
  simpl. case_decide; simpl; by rewrite IH.
Qed.

Lemma adel_ent l p :
  NoDup (map k l) → p ∈ l → adel (k p) (map ent l) = map ent (filter (λ q, q ≠ p) l).
Proof.
  intros Hnd Hp. rewrite adel_map. f_equal. apply list_filter_iff_on. intros q Hq.
  split; [intros ? ->; done|]. intros Hne Heq. by apply Hne, (key_inj l).
Qed.

Lemma aget_ent n l p :
  NoDup (map k l) → p ∈ l →
  aget (mem_opts n) (k p) 0 (mkA (map ent l) []) = (Some (ent p), mkA (map ent (mv p l)) []).
Proof.
  intros Hnd Hp. unfold aget. simpl. rewrite afind_ent by done. simpl.
  rewrite adel_ent by done. unfold arefresh, mv. simpl. by rewrite map_app.
Qed.

Lemma aget_ent_None n l x :
  (∀ p, p ∈ l → k p ≠ x) →
  aget (mem_opts n) x 0 (mkA (map ent l) []) = (None, mkA (map ent l) []).
Proof. intros Hl. unfold aget. simpl. by rewrite afind_ent_None. Qed.

Lemma aset_ent n l p :
  (∀ q, q ∈ l → k q ≠ k p) →
  aset_now (mem_opts n) (k p) (v p) 0 (mkA (map ent l) []) = mkA (map ent (push n p l)) [].
Proof.
  intros Hl. unfold aset_now, aset, push. simpl. rewrite afind_ent_None by done.
  unfold aexpire, ages. simpl. rewrite length_map.
  case_match; [|by rewrite map_app]. destruct l; simpl; [done|]. by rewrite map_app.
Qed.

Lemma aremove_ent n l p :
  NoDup (map k l) → p ∈ l →
  aremove (mem_opts n) (k p) (mkA (map ent l) []) = mkA (map ent (filter (λ q, q ≠ p) l)) [].
Proof.
  intros Hnd Hp. unfold aremove. simpl. rewrite afind_ent by done. by rewrite adel_ent.
Qed.

Lemma aremove_ent_None n l x :
  (∀ p, p ∈ l → k p ≠ x) → aremove (mem_opts n) x (mkA (map ent l) []) = mkA (map ent l) [].
Proof. intros Hl. unfold aremove. simpl. by rewrite afind_ent_None. Qed.

End Mirror.

Lemma elem_of_mv {P} `{EqDecision P} (p q : P) l : p ∈ l → q ∈ mv p l ↔ q ∈ l.
Proof.
  intros Hp. unfold mv. rewrite elem_of_app, list_elem_of_filter, list_elem_of_singleton.
  destruct (decide (q = p)) as [->|]; tauto.
Qed.

Lemma elem_of_push {P} n (p q : P) l : q ∈ push n p l → q = p ∨ q ∈ l.
Proof.
  unfold push. case_match; [destruct l; simpl; [by intros ?%not_elem_of_nil|]|];
    rewrite elem_of_app, list_elem_of_singleton, ?elem_of_cons; tauto.
Qed.

Lemma push_elem {P} n (p : P) l : p ∈ push n p l.
Proof.
  unfold push. case_match eqn:Hb; [|rewrite elem_of_app, list_elem_of_singleton; auto].
  apply andb_true_iff in Hb as [?%Z.ltb_lt ?%Z.ltb_lt].
  destruct l; simpl in *; [lia|]. rewrite elem_of_app, list_elem_of_singleton. auto.
Qed.

(** A cache of the store, without running an operation. *)
Definition peek {K V} `{Countable K} (k : K) (st : lstate K V) : option V :=
  cache (lc st) !! k ≫= deref st.

Lemma peek_find {K V} `{Countable K} (k : K) (st : lstate K V) a :
  refines st a → peek k st = evalue <$> afind k (items a).
Proof.
  intros Href. pose proof (refines_lookup _ _ k Href) as Hk. unfold peek, deref.
  destruct (cache (lc st) !! k) as [p|]; simpl; [|by rewrite Hk].
  destruct Hk as (_ & e & He & _ & ->). by rewrite He.
Qed.

(** The two caches hold the same pairs in the same order of use. *)
Record mem_rep (n : Z) (m : memoryStore) (l : list (string * Addr)) : Prop := {
  rep_ip : refines (cacheIP m) (mkA (map (ent fst snd) l) []);
  rep_host : refines (cacheHost m) (mkA (map (ent snd fst) l) []);
  rep_ip_opts : opts (lc (cacheIP m)) = mem_opts n;
  rep_host_opts : opts (lc (cacheHost m)) = mem_opts n
}.

Definition mem_inv (m : memoryStore) : Prop := ∃ n l, mem_rep n m l.

Definition mem_hostOf (m : memoryStore) (ip : Addr) : option string := peek ip (cacheHost m).

Definition mem_ipOf (m : memoryStore) (host : string) : option Addr := peek host (cacheIP m).

Section MemoryProofs.
Implicit Types (m : memoryStore) (l : list (string * Addr)).

Lemma rep_nodup_host n m l : mem_rep n m l → NoDup (map fst l).
Proof.
  intros Hr. pose proof (refines_keys_nodup _ _ (rep_ip _ _ _ Hr)) as Hnd. simpl in Hnd.
  by rewrite map_map in Hnd.
Qed.

Lemma rep_nodup_ip n m l : mem_rep n m l → NoDup (map snd l).
Proof.
  intros Hr. pose proof (refines_keys_nodup _ _ (rep_host _ _ _ Hr)) as Hnd. simpl in Hnd.
  by rewrite map_map in Hnd.
Qed.

Lemma mem_hostOf_spec n m l ip h : mem_rep n m l → mem_hostOf m ip = Some h ↔ (h, ip) ∈ l.
Proof.
  intros Hr. unfold mem_hostOf. rewrite (peek_find _ _ _ (rep_host _ _ _ Hr)). simpl. split.
  - intros (e & (q & Hq & -> & <-)%afind_ent_Some & ->)%fmap_Some. by destruct q.
  - intros Hin. pose proof (afind_ent snd fst l (h, ip) (rep_nodup_ip _ _ _ Hr) Hin) as Hf.
    simpl in Hf. by rewrite Hf.
Qed.

Lemma mem_ipOf_spec n m l ip h : mem_rep n m l → mem_ipOf m h = Some ip ↔ (h, ip) ∈ l.
Proof.
  intros Hr. unfold mem_ipOf. rewrite (peek_find _ _ _ (rep_ip _ _ _ Hr)). simpl. split.
  - intros (e & (q & Hq & -> & <-)%afind_ent_Some & ->)%fmap_Some. by destruct q.
  - intros Hin. pose proof (afind_ent fst snd l (h, ip) (rep_nodup_host _ _ _ Hr) Hin) as Hf.
    simpl in Hf. by rewrite Hf.
Qed.

Lemma mem_hostOf_None n m l ip : mem_rep n m l → mem_hostOf m ip = None ↔ ∀ p, p ∈ l → p.2 ≠ ip.
Proof.
  intros Hr. rewrite eq_None_not_Some. split.
  - intros Hn [h ip'] Hin <-. apply Hn. exists h. by apply (mem_hostOf_spec n m l).
  - intros Hn [h Hh]. apply (mem_hostOf_spec n m l) in Hh; [|done]. by apply (Hn _ Hh).
Qed.

Lemma mem_ipOf_None n m l h : mem_rep n m l → mem_ipOf m h = None ↔ ∀ p, p ∈ l → p.1 ≠ h.
Proof.
  intros Hr. rewrite eq_None_not_Some. split.
  - intros Hn [h' ip] Hin <-. apply Hn. exists ip. by apply (mem_ipOf_spec n m l).
  - intros Hn [ip Hh]. apply (mem_ipOf_spec n m l) in Hh; [|done]. by apply (Hn _ Hh).
Qed.

Lemma mem_hostOf_same n m m' l l' :
  mem_rep n m l → mem_rep n m' l' → (∀ p, p ∈ l' ↔ p ∈ l) → ∀ ip, mem_hostOf m' ip = mem_hostOf m ip.
Proof.
  intros Hr Hr' Hl ip. apply option_eq. intros h.
  by rewrite (mem_hostOf_spec n m' l'), (mem_hostOf_spec n m l), Hl.
Qed.

(** One [Get] of a present pair on each cache keeps them in step. *)
Lemma rep_touch n m l p :
  mem_rep n m l → p ∈ l →
  (Get p.1 0 (cacheIP m)).1 = Some p.2 ∧ (Get p.2 0 (cacheHost m)).1 = Some p.1 ∧
  mem_rep n (mkMem (Get p.1 0 (cacheIP m)).2 (Get p.2 0 (cacheHost m)).2) (mv p l).
Proof.
  intros Hr Hp. pose proof (rep_nodup_host _ _ _ Hr). pose proof (rep_nodup_ip _ _ _ Hr).
  destruct (lru_step_refines (OGet p.1) 0 _ _ (rep_ip _ _ _ Hr)) as [Hv1 Hs1].
  destruct (lru_step_refines (OGet p.2) 0 _ _ (rep_host _ _ _ Hr)) as [Hv2 Hs2].
  pose proof (lru_step_opts (OGet p.1) 0 (cacheIP m)) as Ho1.
  pose proof (lru_step_opts (OGet p.2) 0 (cacheHost m)) as Ho2.
  rewrite (rep_ip_opts _ _ _ Hr) in *. rewrite (rep_host_opts _ _ _ Hr) in *. simpl in *.
  rewrite (aget_ent fst snd) in Hv1, Hs1 by done. rewrite (aget_ent snd fst) in Hv2, Hs2 by done.
  destruct (Get p.1 0 (cacheIP m)) as [r1 s1], (Get p.2 0 (cacheHost m)) as [r2 s2]. simpl in *.
  split_and!; [congruence|congruence|]. by split.
Qed.

Lemma rep_get_host_None n m l h :
  mem_rep n m l → (∀ p, p ∈ l → p.1 ≠ h) →
  (Get h 0 (cacheIP m)).1 = None ∧ mem_rep n (mkMem (Get h 0 (cacheIP m)).2 (cacheHost m)) l.
Proof.
  intros Hr Hn. destruct (lru_step_refines (OGet h) 0 _ _ (rep_ip _ _ _ Hr)) as [Hv Hs].
  pose proof (lru_step_opts (OGet h) 0 (cacheIP m)) as Ho. rewrite (rep_ip_opts _ _ _ Hr) in *. simpl in *.
  rewrite (aget_ent_None fst snd) in Hv, Hs by done.
  destruct (Get h 0 (cacheIP m)) as [r s]. simpl in *. split; [congruence|]. split; simpl; try done; apply Hr.
Qed.

Lemma rep_get_ip_None n m l ip :
  mem_rep n m l → (∀ p, p ∈ l → p.2 ≠ ip) →
  (Get ip 0 (cacheHost m)).1 = None ∧ mem_rep n (mkMem (cacheIP m) (Get ip 0 (cacheHost m)).2) l.
Proof.
  intros Hr Hn. destruct (lru_step_refines (OGet ip) 0 _ _ (rep_host _ _ _ Hr)) as [Hv Hs].
  pose proof (lru_step_opts (OGet ip) 0 (cacheHost m)) as Ho. rewrite (rep_host_opts _ _ _ Hr) in *. simpl in *.
  rewrite (aget_ent_None snd fst) in Hv, Hs by done.
  destruct (Get ip 0 (cacheHost m)) as [r s]. simpl in *. split; [congruence|]. split; simpl; try done; apply Hr.
Qed.

Lemma mem_getByHost_spec n m l h :
  mem_rep n m l →
  (mem_GetByHost h m).1 = mem_ipOf m h ∧
  ∃ l', mem_rep n (mem_GetByHost h m).2 l' ∧ ∀ p, p ∈ l' ↔ p ∈ l.
Proof.
  intros Hr. unfold mem_GetByHost. destruct (mem_ipOf m h) as [ip|] eqn:Hip.
  - apply (mem_ipOf_spec n m l) in Hip; [|done]. destruct (rep_touch n m l (h, ip) Hr Hip) as (H1 & _ & H3).
    simpl in *. destruct (Get h 0 (cacheIP m)) as [r s]. simpl in *. subst r. split; [done|].
    exists (mv (h, ip) l). split; [done|]. intros p. by apply elem_of_mv.
  - rewrite (mem_ipOf_None n m l) in Hip by done. destruct (rep_get_host_None n m l h Hr Hip) as [H1 H2].
    destruct (Get h 0 (cacheIP m)) as [r s]. simpl in *. subst r. split; [done|]. by exists l.
Qed.

Lemma mem_getByIP_spec n m l ip :
  mem_rep n m l →
  (mem_GetByIP ip m).1 = mem_hostOf m ip ∧
  ∃ l', mem_rep n (mem_GetByIP ip m).2 l' ∧ ∀ p, p ∈ l' ↔ p ∈ l.
Proof.
  intros Hr. unfold mem_GetByIP. destruct (mem_hostOf m ip) as [h|] eqn:Hh.
  - apply (mem_hostOf_spec n m l) in Hh; [|done]. destruct (rep_touch n m l (h, ip) Hr Hh) as (_ & H2 & H3).
    simpl in *. destruct (Get ip 0 (cacheHost m)) as [r s]. simpl in *. subst r. split; [done|].
    exists (mv (h, ip) l). split; [done|]. intros p. by apply elem_of_mv.
  - rewrite (mem_hostOf_None n m l) in Hh by done. destruct (rep_get_ip_None n m l ip Hr Hh) as [H1 H2].
    destruct (Get ip 0 (cacheHost m)) as [r s]. simpl in *. subst r. split; [done|]. by exists l.
Qed.

End MemoryProofs.

Section MemoryLaws.
Implicit Types (m : memoryStore) (l : list (string * Addr)).

Lemma filter_mv {P} `{EqDecision P} (p : P) (l : list P) : filter (λ q, q ≠ p) (mv p l) = filter (λ q, q ≠ p) l.
Proof.
  unfold mv. rewrite filter_app, (filter_all _ (filter _ l)).
  - rewrite filter_cons, decide_False by tauto. by rewrite app_nil_r.
  - apply Forall_forall. by intros q [? _]%list_elem_of_filter.
Qed.

Lemma rep_delete_both n m l p s1 s2 l1 l2 :
  refines s1 (mkA (map (ent fst snd) l1) []) → refines s2 (mkA (map (ent snd fst) l2) []) →
  opts (lc s1) = mem_opts n → opts (lc s2) = mem_opts n →
  NoDup (map fst l1) → NoDup (map snd l2) → p ∈ l1 → p ∈ l2 →
  filter (λ q, q ≠ p) l1 = l → filter (λ q, q ≠ p) l2 = l →
  mem_rep n (mkMem (Delete p.1 s1) (Delete p.2 s2)) l.
Proof.
  intros H1 H2 Ho1 Ho2 Hn1 Hn2 Hp1 Hp2 Hl1 Hl2.
  pose proof (refines_delete _ _ p.1 H1) as Hd1. pose proof (refines_delete _ _ p.2 H2) as Hd2.
  rewrite Ho1, (aremove_ent fst snd), Hl1 in Hd1 by done.
  rewrite Ho2, (aremove_ent snd fst), Hl2 in Hd2 by done.
  split; simpl; unfold Delete; rewrite ?lru_delete_opts; done.
Qed.

Lemma mem_del_spec n m l ip :
  mem_rep n m l →
  ∃ l', mem_rep n (mem_DelByIP ip m) l' ∧ ∀ p, p ∈ l' ↔ p.2 ≠ ip ∧ p ∈ l.
Proof.
  intros Hr. unfold mem_DelByIP. destruct (mem_hostOf m ip) as [h|] eqn:Hh.
  - apply (mem_hostOf_spec n m l) in Hh; [|done]. destruct (rep_touch n m l (h, ip) Hr Hh) as (_ & H2 & H3).
    simpl in *. pose proof (rep_host _ _ _ H3) as Hrh. pose proof (rep_host_opts _ _ _ H3) as Hoh.
    pose proof (rep_nodup_ip _ _ _ H3) as Hnd'. pose proof (rep_nodup_ip _ _ _ Hr) as Hnd.
    destruct (Get ip 0 (cacheHost m)) as [r s]. simpl in *. subst r.
    exists (filter (λ q, q ≠ (h, ip)) l). split.
    + eapply (rep_delete_both n m _ (h, ip) _ _ l (mv (h, ip) l)); try done; try apply Hr.
      * by apply (rep_nodup_host n m).
      * by apply elem_of_mv.
      * apply filter_mv.
    + intros p. rewrite list_elem_of_filter. split; intros [Hne Hp]; (split; [|done]).
      * intros <-. apply Hne. apply (key_inj snd l); done.
      * by intros ->.
  - rewrite (mem_hostOf_None n m l) in Hh by done.
    destruct (rep_get_ip_None n m l ip Hr Hh) as [H1 H2].
    destruct (Get ip 0 (cacheHost m)) as [r s]. simpl in *. subst r. exists l. split.
    + pose proof (refines_delete _ _ ip (rep_host _ _ _ H2)) as Hd.
      rewrite (rep_host_opts _ _ _ H2), (aremove_ent_None snd fst) in Hd by done.
      split; simpl; unfold Delete; rewrite ?lru_delete_opts; try done; try apply Hr; apply (rep_host_opts _ _ _ H2).
    + intros p. split; [|tauto]. intros Hp. split; [by apply Hh|done].
Qed.

Lemma mem_put_spec n m l h ip :
  mem_rep n m l → (∀ p, p ∈ l → p.1 ≠ h) → (∀ p, p ∈ l → p.2 ≠ ip) →
  mem_rep n (mem_PutByHost h ip (mem_PutByIP ip h m)) (push n (h, ip) l).
Proof.
  intros Hr Hh Hip. pose proof (refines_set _ _ h ip 0 (rep_ip _ _ _ Hr)) as H1.
  pose proof (refines_set _ _ ip h 0 (rep_host _ _ _ Hr)) as H2.
  rewrite (rep_ip_opts _ _ _ Hr) in H1. rewrite (rep_host_opts _ _ _ Hr) in H2.
  rewrite (aset_ent fst snd n l (h, ip)) in H1 by done.
  rewrite (aset_ent snd fst n l (h, ip)) in H2 by done.
  split; simpl; unfold Set_, set; rewrite ?setWithExpire_opts; try done; apply Hr.
Qed.

Lemma mem_clone_spec n n' m ms l l' :
  mem_rep n m l → mem_rep n' ms l' → mem_rep n' (mem_CloneTo m ms) l.
Proof.
  intros Hr Hr'. split; simpl.
  - rewrite (ref_evicted _ _ (rep_ip _ _ _ Hr')). simpl. apply (refines_clone _ _ _ _ (rep_ip _ _ _ Hr)).
  - rewrite (ref_evicted _ _ (rep_host _ _ _ Hr')). simpl. apply (refines_clone _ _ _ _ (rep_host _ _ _ Hr)).
  - apply Hr'.
  - apply Hr'.
Qed.

Lemma newMemoryStore_rep n : mem_rep n (newMemoryStore n) [].
Proof.
  split; simpl; [apply refines_new, empty_heap_fresh|apply refines_new, empty_heap_fresh|done|done].
Qed.

Lemma mem_flush_rep n m l : mem_rep n m l → mem_rep n (mem_FlushFakeIP m).2 [].
Proof.
  intros Hr. split; simpl; try apply Hr.
  - exact (refines_clear _ _ (rep_ip _ _ _ Hr)).
  - exact (refines_clear _ _ (rep_host _ _ _ Hr)).
Qed.

End MemoryLaws.

#[global] Program Instance memory_laws : StoreLaws memoryStore := {|
  st_inv := mem_inv;
  hostOf := mem_hostOf;
  ipOf := mem_ipOf
|}.
Next Obligation.
  intros s h ip (n & l & Hr). by rewrite (mem_ipOf_spec n s l), (mem_hostOf_spec n s l).
Qed.
Next Obligation.
  intros s h (n & l & Hr). destruct (mem_getByHost_spec n s l h Hr) as (Hv & l' & Hr' & Hl).
  split_and!; [done|by exists n, l'|]. by eapply mem_hostOf_same.
Qed.
Next Obligation.
  intros s ip (n & l & Hr). destruct (mem_getByIP_spec n s l ip Hr) as (Hv & l' & Hr' & Hl).
  split_and!; [done|by exists n, l'|]. by eapply mem_hostOf_same.
Qed.
Next Obligation.
  intros s ip (n & l & Hr). simpl. unfold mem_Exist, Exist, mem_hostOf.
  apply bool_decide_ext. rewrite (peek_find _ _ _ (rep_host _ _ _ Hr)).
  pose proof (refines_lookup _ _ ip (rep_host _ _ _ Hr)) as Hk.
  destruct (cache (lc (cacheHost s)) !! ip) as [p|].
  - destruct Hk as (_ & e & _ & _ & ->). split; by eexists.
  - rewrite Hk. simpl. by rewrite !is_Some_alt.
Qed.
Next Obligation.
  intros s ip (n & l & Hr). destruct (mem_del_spec n s l ip Hr) as (l' & Hr' & Hl).
  split; [by exists n, l'|]. intros ip'. simpl. apply option_eq. intros h.
  rewrite (mem_hostOf_spec n _ l'), Hl by done. simpl. case_decide as Heq.
  - split; [intros [? _]; done|done].
  - rewrite (mem_hostOf_spec n s l) by done. tauto.
Qed.
Next Obligation.
  intros s ip h (n & l & Hr) Hip Hh. rewrite (mem_hostOf_None n s l) in Hip by done.
  rewrite (mem_ipOf_None n s l) in Hh by done. pose proof (mem_put_spec n s l h ip Hr Hh Hip) as Hp.
  split_and!; [by exists n, (push n (h, ip) l)| |].
  - apply (mem_hostOf_spec n _ _ _ _ Hp), push_elem.
  - intros ip' h' Hne Hh'. apply (mem_hostOf_spec n _ _ _ _ Hp) in Hh'.
    apply (mem_hostOf_spec n s l); [done|]. apply elem_of_push in Hh' as [[= -> ->]|]; done.
Qed.
Next Obligation.
  intros s (n & l & Hr). simpl. pose proof (mem_flush_rep n s l Hr) as Hf.
  split; [by exists n, []|]. intros ip. apply (mem_hostOf_None n _ [] ip); [done|].
  by intros p ?%not_elem_of_nil.
Qed.

(** ** Properties *)

Section PoolProperties.
Context {S : Type} `{StoreLaws S}.

(** A pool reachable from [New] over an empty store. *)
Definition reachable (PrefixLastIP : Prefix → Addr) (net : Prefix) (p : Pool S) : Prop :=
  ∃ s p0 ops, st_inv s ∧ (∀ ip, hostOf s ip = None) ∧ LastIP_spec PrefixLastIP ∧
    addr_wf (paddr net) ∧ NewPool PrefixLastIP net s = Some p0 ∧ p = pool_run ops p0.

(** The addresses of a network that may be handed out: not the network
    address, the gateway after it and two more, and not the broadcast address
    at the end. *)
Definition usable (net : Prefix) (ip : Addr) : Prop :=
  ∃ n, ip = addr_at (negb (Is4 (paddr net))) n ∧
    (addr_val (MaskedAddr net) + 4 ≤ n < addr_val (MaskedAddr net) + 2 ^ (BitLen (paddr net) - pbits net) - 1)%Z.

Lemma reachable_usable PrefixLastIP net p ip : reachable PrefixLastIP net p → in_pool p ip → usable net ip.
Proof.
  intros (s & p0 & ops & Hs & He & Hl & Hwf & Hp0 & ->) Hin.
  pose proof (NewPool_inv _ _ _ _ Hl Hwf Hs He Hp0) as Hinv.
  destruct (pool_run_inv ops p0 Hinv) as [_ (Hf & Hla & _)].
  destruct (NewPool_ends _ _ _ _ Hl Hwf Hp0) as (_ & _ & _ & _ & ->).
  destruct Hin as (v6 & f & l & n & Hf' & Hl' & -> & Hn). rewrite Hf in Hf'. rewrite Hla in Hl'. simpl in Hf', Hl'.
  assert (negb (Is4 (paddr net)) = v6) as <- by (by destruct (negb _), v6).
  apply addr_at_inj in Hf' as <-. apply addr_at_inj in Hl' as <-. by exists n.
Qed.

Lemma reachable_inv PrefixLastIP net p : reachable PrefixLastIP net p → pool_inv p.
Proof.
  intros (s & p0 & ops & Hs & He & Hl & Hwf & Hp0 & ->).
  pose proof (NewPool_inv _ _ _ _ Hl Hwf Hs He Hp0) as Hinv. by apply (pool_run_inv ops).
Qed.

End PoolProperties.

(** Over any store that keeps its promises, and after any calls, [Lookup]
    returns an address of the pool's network other than the gateway and the
    broadcast address, so that the enhancer recognises it; [LookBack] of it is
    the host in lower case; and looking the host up again, in any case, gives
    the same address. *)
Theorem pool_lookup_lookback {S} `{StoreLaws S} PrefixLastIP (net : Prefix) (p : Pool S) (host : string) :
  reachable PrefixLastIP net p →
  let '(ip, p') := Lookup host p in
  pool_fake ip p' = true ∧
  (LookBack ip p').1 = Some (ToLower host) ∧
  PoolExist ip p' = true ∧
  ∀ host', ToLower host' = ToLower host → (Lookup host' p').1 = ip.
Proof.
  intros Hre. apply reachable_inv in Hre as Hinv.
  pose proof (Lookup_spec p host Hinv) as Hs. pose proof (λ host', Lookup_again p host host' Hinv) as Hag.
  destruct (Lookup host p) as [ip p']. destruct Hs as (Hinv' & Hrg & Hin & Hh & _).
  destruct (LookBack_spec p' ip Hinv') as (Hb & _). split_and!.
  - apply in_pool_fake; [apply Hinv'|by apply (in_pool_range p)].
  - by rewrite Hb.
  - unfold PoolExist. rewrite law_exist by apply Hinv'. rewrite Hh. by apply bool_decide_eq_true.
  - exact Hag.
Qed.

Definition demo_last (p : Prefix) : Addr :=
  addr_at (negb (Is4 (paddr p))) (addr_val (MaskedAddr p) + 2 ^ (BitLen (paddr p) - pbits p) - 1).

Definition demo_net : Prefix := mkPrefix (Addr4 3323068417) 29.

Lemma demo_reachable ops p0 :
  NewPool demo_last demo_net (newMemoryStore 100) = Some p0 →
  reachable demo_last demo_net (pool_run ops p0).
Proof.
  intros Hp. exists (newMemoryStore 100), p0, ops. split_and!; [|done|done|done|done|done].
  exists 100%Z, []. apply newMemoryStore_rep.
Qed.

Lemma pool_lookup_lookback_witness :
  ∃ p0, NewPool demo_last demo_net (newMemoryStore 100) = Some p0 ∧
  let p := pool_run [PLookup "a.com"; PLookup "b.com"; PLookup "c.com"; PLookup "d.com"] p0 in
  let '(ip, p') := Lookup "A.com" p in
  ip = Addr4 3323068421 ∧ (LookBack ip p').1 = Some "a.com"%string ∧ (Lookup "A.COM" p').1 = ip.
Proof.
  eexists. split; [vm_compute; reflexivity|].
  match goal with |- let p := pool_run ?ops ?p0 in _ =>
    pose proof (pool_lookup_lookback demo_last demo_net (pool_run ops p0) "A.com"
      (demo_reachable ops p0 ltac:(vm_compute; reflexivity))) as Hp end.
  cbv zeta. destruct (Lookup "A.com" _) as [ip p'] eqn:Hl.
  destruct Hp as (_ & Hb & _ & Hag). split_and!; [|exact Hb|by apply Hag].
  apply (f_equal fst) in Hl. cbn [fst] in Hl. rewrite <- Hl. vm_compute. reflexivity.
Defined.



(** On a reload the new pool takes over the entries of the old one without
    looking at the ranges: over the same range the invariant is kept, but a
    host that has an address of the old range keeps it, and the enhancer does
    not take the answer of its own pool for a fake address. *)
Theorem clone_from_keeps_stale (p o : Pool memoryStore) (host : string) (ip : Addr) :
  pool_inv o → pool_inv p →
  (same_range o p → pool_inv (CloneFrom p o)) ∧
  ((LookBack ip o).1 = Some (ToLower host) → PContains (IPNet p) ip = false →
   (Lookup host (CloneFrom p o)).1 = ip ∧
   IsFakeIP ip (mkEnhancer DNSFakeIP (Some (CloneFrom p o)) None None) = false).
Proof.
  intros Ho Hp. pose proof Ho as (_ & (n & l & Hro) & Hino). pose proof Hp as (Hshp & (n' & l' & Hrp) & _).
  pose proof (mem_clone_spec _ _ _ _ _ _ Hro Hrp) as Hrc. split.
  - intros Hsame. split_and!; [done|by exists n', l|]. intros ip' h Hh. simpl in Hh.
    apply (in_pool_range o); [done|]. apply (Hino ip' h).
    apply (mem_hostOf_spec n _ l); [done|]. by apply (mem_hostOf_spec n' _ l) in Hh.
  - intros Hb Hct. destruct (LookBack_spec o ip Ho) as (Hlb & _). rewrite Hlb in Hb.
    apply (mem_hostOf_spec n _ l) in Hb; [|done]. split.
    + unfold Lookup, CloneFrom. simpl.
      destruct (mem_getByHost_spec _ _ _ (ToLower host) Hrc) as (Hr & _).
      apply (mem_ipOf_spec _ _ _ _ _ Hrc) in Hb.
      destruct (mem_GetByHost (ToLower host) _) as [r s]. simpl in *. by rewrite Hr, Hb.
    + unfold IsFakeIP, pool_fake, IPNet in *. simpl in *. by rewrite Hct.
Qed.

Lemma clone_from_keeps_stale_witness :
  ∃ o0 p0, NewPool demo_last demo_net (newMemoryStore 100) = Some o0 ∧
    NewPool demo_last (mkPrefix (Addr4 167772160) 8) (newMemoryStore 100) = Some p0 ∧
    (Lookup "a.com" (CloneFrom p0 (pool_run [PLookup "a.com"] o0))).1 = Addr4 3323068420.
Proof.
  eexists _, _. split; [vm_compute; reflexivity|]. split; [vm_compute; reflexivity|].
  match goal with |- (Lookup _ (CloneFrom ?p0 (pool_run ?ops ?o0))).1 = _ =>
    pose proof (clone_from_keeps_stale p0 (pool_run ops o0) "a.com" (Addr4 3323068420)
      (reachable_inv _ _ _ (demo_reachable ops o0 ltac:(vm_compute; reflexivity)))) as Hp;
    apply Hp; [|vm_compute; reflexivity|vm_compute; reflexivity];
    apply (NewPool_inv demo_last (mkPrefix (Addr4 167772160) 8) (newMemoryStore 100) p0)
  end; [done|vm_compute; intuition discriminate| |done|vm_compute; reflexivity].
  exists 100%Z, []. apply newMemoryStore_rep.
Defined.
