(* ===== verification/DomainTrie.v ===== *)
(** * The domain trie: [component/trie/domain.go] and [component/trie/node.go]

    Domains are stored label by label from the top-level one; the labels [*]
    and the empty label are wildcards.  A node keeps one child inline and
    switches to a map for the second.  The file models that representation,
    insertion, the backtracking search, [Optimize] and [Foreach]; the trie is
    proved to behave as a finite map from label paths, the search to return the
    first path, in the documented priority, that describes the domain. *)

From Stdlib Require Import ZArith Lia Ascii String.
From stdpp Require Import prelude strings gmap list.
From S2P Require Import Prelude.

Definition wildcard : string := "*".

Definition dotWildcard : string := "".

Definition complexWildcard : string := "+".

Definition domainStep : ascii := "."%char.

(** A nil [childMap] or [childNode] is [None]; [inited] and [data] are one
    field, [Some d] for an initialised node. *)
Inductive Node (T : Type) :=
  mkNode (childMap : option (gmap string (Node T))) (childNode : option (Node T))
    (childStr : string) (payload : option T).

Arguments mkNode {T}.

Section Node.
Context {T : Type}.
Implicit Types (n c : Node T) (s : string).

Definition childMap n := match n with mkNode cm _ _ _ => cm end.

Definition childNode n := match n with mkNode _ cn _ _ => cn end.

Definition childStr n := match n with mkNode _ _ cs _ => cs end.

Definition payload n := match n with mkNode _ _ _ d => d end.

Definition newNode : Node T := mkNode None None "" None.

Definition getChild s n : option (Node T) :=
  match childMap n with
  | None =>
    match childNode n with
    | Some c => if bool_decide (childStr n = s) then Some c else None
    | None => None
    end
  | Some m => m !! s
  end.

Definition hasChild s n : bool := bool_decide (is_Some (getChild s n)).

Definition addChild s c n : Node T :=
  match childMap n with
  | None =>
    match childNode n with
    | None => mkNode None (Some c) s (payload n)
    | Some c0 => mkNode (Some (<[s := c]> {[childStr n := c0]})) None "" (payload n)
    end
  | Some m => mkNode (Some (<[s := c]> m)) (childNode n) (childStr n) (payload n)
  end.

(** [getOrNewChild] returns a pointer into the tree, through which the caller
    goes on writing: the child as it is now, and how the node looks once the
    caller has left [c] behind that pointer. *)
Definition getOrNewChild s n : Node T := default newNode (getChild s n).

Definition putChild s c n : Node T :=
  match getChild s n with
  | None => addChild s c n
  | Some _ =>
    match childMap n with
    | None => mkNode None (Some c) (childStr n) (payload n)
    | Some m => mkNode (Some (<[s := c]> m)) (childNode n) (childStr n) (payload n)
    end
  end.

(** [isEmpty] of a pointer, nil included. *)
Definition isEmpty (o : option (Node T)) : bool :=
  match o with
  | None => true
  | Some n => match payload n with None => true | Some _ => false end
  end.

Definition setData (d : T) n : Node T := mkNode (childMap n) (childNode n) (childStr n) (Some d).

Definition getChildren n : gmap string (Node T) :=
  match childMap n with
  | None => match childNode n with Some c => {[childStr n := c]} | None => ∅ end
  | Some m => m
  end.

(** [strClone] is the identity on values.  A map with one element becomes the
    inline child, and the recursive call of the source on the same node then
    optimises that child. *)
Fixpoint optimize n : Node T :=
  match n with
  | mkNode cm cn cs d =>
    let cn' := match cn with Some c => Some (optimize c) | None => None end in
    match cm with
    | None => mkNode None cn' cs d
    | Some m =>
      let m' := optimize <$> m in
      match map_to_list m' with
      | [] => mkNode None cn' cs d
      | [(key, c)] => mkNode None (Some c) key d
      | _ => mkNode (Some m') cn' cs d
      end
    end
  end.

End Node.

(** ** The trie *)

Section Trie.
Context {T : Type}.
Implicit Types (n c : Node T).

(** The whitespace test reads the first and the last rune; ASCII only here. *)
Definition edge_space (s : list ascii) : bool :=
  match s with
  | [] => false
  | c :: _ => is_space c || match List.last s c with c' => is_space c' end
  end.

Definition ValidAndSplitDomain (domain : string) : option (list string) :=
  if HasSuffix domain "." then None
  else if edge_space (bytes domain) then None
  else
    let parts := Split (ToLower domain) domainStep in
    match parts with
    | [] => None
    | [p] => if bool_decide (p = "")%string then None else Some parts
    | _ :: rest => if existsb (λ p, bool_decide (p = "")%string) rest then None else Some parts
    end.

(** [t.insert]: the parts are given from the last one, the order of the loop. *)
Fixpoint insert_path (path : list string) (data : T) n : Node T :=
  match path with
  | [] => setData data n
  | part :: path' => putChild part (insert_path path' data (getOrNewChild part n)) n
  end.

(** [Insert] on the root; [None] is [ErrInvalidDomain]. *)
Definition Insert (domain : string) (data : T) (root : Node T) : option (Node T) :=
  match ValidAndSplitDomain domain with
  | None | Some [] => None
  | Some (p0 :: rest) =>
    if bool_decide (p0 = complexWildcard) then
      Some (insert_path (reverse (dotWildcard :: rest)) data (insert_path (reverse rest) data root))
    else Some (insert_path (reverse (p0 :: rest)) data root)
  end.

(** [t.search], on the parts from the last one. *)
Fixpoint search (parts : list string) n : option (Node T) :=
  match parts with
  | [] => Some n
  | part :: parts' =>
    let r1 := getChild part n ≫= search parts' in
    if negb (isEmpty r1) then r1
    else
      let r2 := getChild wildcard n ≫= search parts' in
      if negb (isEmpty r2) then r2
      else getChild dotWildcard n
  end.

Definition Search (domain : string) (root : Node T) : option (Node T) :=
  match ValidAndSplitDomain domain with
  | None | Some [] => None
  | Some (p0 :: rest) =>
    if bool_decide (p0 = "")%string then None
    else
      let r := search (reverse (p0 :: rest)) root in
      if isEmpty r then None else r
  end.

Definition Optimize (root : Node T) : Node T := optimize root.

Definition IsEmpty (root : Node T) : bool := bool_decide (getChildren root = ∅).

Definition joinDomain (items : list string) : string := Join items (String domainStep "").

(** The name [recursion] reports for a path of labels. *)
Definition shown_domain (items : list string) : string :=
  let domain := joinDomain items in
  if HasPrefix domain (String domainStep "") then (complexWildcard +:+ domain)%string else domain.

(** [recursion]: the order of the children is the map's, which Go leaves open;
    the flag is the returned boolean. *)
Fixpoint recursion {A} (fn : string → T → A → A * bool) (items : list string) n (a : A) : A * bool :=
  let child key c (acc : A * bool) (rec : A → A * bool) :=
    if acc.2 then
      match payload c with
      | Some d => let '(a', ok) := fn (shown_domain (key :: items)) d acc.1 in
                  if (ok : bool) then rec a' else (a', false)
      | None => rec acc.1
      end
    else acc in
  match n with
  | mkNode cm cn cs _ =>
    match cm with
    | None =>
      match cn with
      | Some c => child cs c (a, true) (recursion fn (cs :: items) c)
      | None => (a, true)
      end
    | Some m => map_fold (λ key c acc, child key c acc (recursion fn (key :: items) c)) (a, true) m
    end
  end.

(** [Foreach]: the answer of [recursion] is dropped, as in the source. *)
Definition Foreach {A} (fn : string → T → A → A * bool) (root : Node T) (a : A) : A :=
  (map_fold (λ key c (acc : A * bool),
     if acc.2 then
       let '(a', _) := recursion fn [key] c acc.1 in
       match payload c with
       | Some d => fn (joinDomain [key]) d a'
       | None => (a', true)
       end
     else acc) (a, true) (getChildren root)).1.

(** ** Specification *)

(** The data a path of labels leads to. *)
Fixpoint lookup_path (path : list string) n : option T :=
  match path with
  | [] => payload n
  | s :: path' => getChild s n ≫= lookup_path path'
  end.

(** The paths that describe a domain, best first: at each label the label
    itself, then [*], then the dot wildcard for all that is left. *)
Fixpoint candidates (parts : list string) : list (list string) :=
  match parts with
  | [] => [[]]
  | part :: parts' =>
    map (cons part) (candidates parts') ++ map (cons wildcard) (candidates parts') ++ [[dotWildcard]]
  end.

(** The same, declaratively. *)
Inductive describes : list string → list string → Prop :=
  | desc_nil : describes [] []
  | desc_label s p d : describes p d → describes (s :: p) (s :: d)
  | desc_star s p d : describes p d → describes (wildcard :: p) (s :: d)
  | desc_dot s d : describes [dotWildcard] (s :: d).

(** The paths under which a pattern is stored. *)
Definition pattern_paths (parts : list string) : list (list string) :=
  match parts with
  | p0 :: rest =>
    if bool_decide (p0 = complexWildcard) then [reverse (dotWildcard :: rest); reverse rest]
    else [reverse parts]
  | [] => []
  end.

(** A pattern matches a domain, both as written in the configuration. *)
Definition pattern_matches (pattern domain : string) : Prop :=
  ∃ pp dp path, ValidAndSplitDomain pattern = Some pp ∧ ValidAndSplitDomain domain = Some dp ∧
    path ∈ pattern_paths pp ∧ describes path (reverse dp).

(** A trie filled by [Insert]; patterns that are refused are skipped. *)
Definition build (ps : list (string * T)) : Node T :=
  foldl (λ t p, default t (Insert p.1 p.2 t)) newNode ps.

(** The representation invariant: a node with a map has no inline child. *)
Inductive wf_node : Node T → Prop :=
  wf_node_intro n :
    (is_Some (childMap n) → childNode n = None) →
    (∀ s c, getChild s n = Some c → wf_node c) →
    wf_node n.

End Trie.

(** ** Lemmas *)

Section TrieProofs.
Context {T : Type}.
Implicit Types (n c t : Node T) (s : string) (path parts : list string) (ps : list (string * T)).

Lemma getChild_putChild s s' c n :
  getChild s' (putChild s c n) = if decide (s' = s) then Some c else getChild s' n.
Proof.
  destruct n as [[m|] cn cs d]; unfold putChild, getChild; simpl.
  - destruct (m !! s) eqn:Hm; simpl; rewrite lookup_insert; repeat case_decide; subst; done.
  - destruct cn as [c0|]; simpl.
    + case_bool_decide as H1; simpl.
      * subst. repeat case_bool_decide; repeat case_decide; subst; done.
      * rewrite lookup_insert. destruct (decide (s = s')) as [->|Hs].
        -- by rewrite decide_True.
        -- rewrite decide_False by done. case_bool_decide; subst;
             [by rewrite lookup_singleton_eq|by rewrite lookup_singleton_ne].
    + repeat case_bool_decide; repeat case_decide; subst; done.
Qed.

Lemma payload_putChild s c n : payload (putChild s c n) = payload n.
Proof.
  destruct n as [[m|] [c0|] cs d]; unfold putChild, addChild, getChild; simpl; by repeat case_match.
Qed.

Lemma getChild_setData s d n : getChild s (setData d n) = getChild s n.
Proof. by destruct n. Qed.

Lemma lookup_path_newNode path : lookup_path path (newNode (T:=T)) = None.
Proof. by destruct path. Qed.

Lemma lookup_insert_path path q (d : T) n :
  lookup_path q (insert_path path d n) = if decide (q = path) then Some d else lookup_path q n.
Proof.
  revert q n. induction path as [|s path IH]; intros q n; simpl.
  - destruct q as [|s q]; simpl; [by destruct n|]. by rewrite getChild_setData.
  - destruct q as [|s' q]; simpl; [by rewrite payload_putChild|].
    rewrite getChild_putChild. destruct (decide (s' = s)) as [->|Hne].
    + simpl. rewrite IH. destruct (decide (q = path)) as [->|Hq].
      * by rewrite decide_True.
      * rewrite decide_False by congruence. unfold getOrNewChild.
        destruct (getChild s n); simpl; [done|apply lookup_path_newNode].
    + by rewrite decide_False by congruence.
Qed.

Lemma isEmpty_payload (o : option (Node T)) : isEmpty o = bool_decide (o ≫= payload = None).
Proof. destruct o as [n|]; simpl; [by destruct (payload n)|done]. Qed.

Lemma head_omap_cons s (ps : list (list string)) n :
  head (omap (λ path, lookup_path path n) (map (cons s) ps)) =
  getChild s n ≫= λ c, head (omap (λ path, lookup_path path c) ps).
Proof.
  induction ps as [|p ps IH]; simpl; [by destruct (getChild s n)|].
  destruct (getChild s n) as [c|]; simpl in *; [|done].
  by destruct (lookup_path p c).
Qed.

Lemma head_omap_app {A B} (f : A → option B) l k :
  head (omap f (l ++ k)) = match head (omap f l) with Some b => Some b | None => head (omap f k) end.
Proof. rewrite omap_app. by destruct (omap f l). Qed.

Lemma search_candidates parts n :
  search parts n ≫= payload = head (omap (λ path, lookup_path path n) (candidates parts)).
Proof.
  revert n. induction parts as [|part parts IH]; intros n; simpl; [by destruct (payload n)|].
  assert (∀ s, (getChild s n ≫= search parts) ≫= payload =
    head (omap (λ path, lookup_path path n) (map (cons s) (candidates parts)))) as Hs.
  { intros s. rewrite head_omap_cons. destruct (getChild s n); simpl; [apply IH|done]. }
  rewrite !head_omap_app, <- !Hs, !isEmpty_payload.
  destruct (getChild part n ≫= search parts) as [c|]; simpl.
  - destruct (payload c) eqn:Hc; simpl; [done|].
    destruct (getChild wildcard n ≫= search parts) as [c'|]; simpl.
    + destruct (payload c') eqn:Hc'; simpl; [done|]. by destruct (getChild _ n ≫= _).
    + by destruct (getChild _ n ≫= _).
  - destruct (getChild wildcard n ≫= search parts) as [c'|]; simpl.
    + destruct (payload c') eqn:Hc'; simpl; [done|]. by destruct (getChild _ n ≫= _).
    + by destruct (getChild _ n ≫= _).
Qed.

Lemma candidates_describes parts path : path ∈ candidates parts ↔ describes path parts.
Proof.
  revert path. induction parts as [|part parts IH]; intros path; simpl.
  - rewrite list_elem_of_singleton. split; [intros ->; constructor|by inversion 1].
  - rewrite !elem_of_app, list_elem_of_singleton. split.
    + intros [(p & -> & Hp)%list_elem_of_fmap|[(p & -> & Hp)%list_elem_of_fmap| ->]];
        constructor; by apply IH.
    + inversion 1; subst; [left|right; left|by right; right]; by apply list_elem_of_fmap_2, IH.
Qed.

(** *** A trie filled by insertions *)

(** The paths a pattern adds; a refused pattern adds none. *)
Definition paths_of (pattern : string) : list (list string) :=
  from_option pattern_paths [] (ValidAndSplitDomain pattern).

(** The value a path holds after the insertions [ps]: the last one given. *)
Definition stored (ps : list (string * T)) path : option T :=
  last (omap (λ p, if decide (path ∈ paths_of p.1) then Some p.2 else None) ps).

Lemma ValidAndSplitDomain_cons domain parts :
  ValidAndSplitDomain domain = Some parts → parts ≠ [].
Proof.
  unfold ValidAndSplitDomain. intros H ->. repeat case_match; simplify_eq.
Qed.

Lemma lookup_path_Insert path p n :
  lookup_path path (default n (Insert p.1 p.2 n)) =
  if decide (path ∈ paths_of p.1) then Some p.2 else lookup_path path n.
Proof.
  unfold Insert, paths_of. destruct (ValidAndSplitDomain p.1) as [[|p0 rest]|]; simpl; [done| |done].
  case_bool_decide; simpl; rewrite !lookup_insert_path.
  - destruct (decide (path = reverse (dotWildcard :: rest))) as [->|Hne].
    + rewrite decide_True; [done|]. by apply list_elem_of_here.
    + destruct (decide (path = reverse rest)) as [->|Hne'].
      * rewrite decide_True; [done|]. by apply list_elem_of_further, list_elem_of_here.
      * rewrite decide_False; [done|]. rewrite !elem_of_cons, elem_of_nil. naive_solver.
  - destruct (decide (path = reverse (p0 :: rest))) as [->|Hne].
    + rewrite decide_True; [done|]. by apply list_elem_of_here.
    + rewrite decide_False; [done|]. by rewrite list_elem_of_singleton.
Qed.

Lemma lookup_path_build path ps : lookup_path path (build ps) = stored ps path.
Proof.
  induction ps as [|p ps IH] using rev_ind; [apply lookup_path_newNode|].
  unfold build, stored in *. rewrite foldl_app, omap_app. simpl. rewrite lookup_path_Insert, IH.
  case_decide; [by rewrite last_snoc|by rewrite app_nil_r].
Qed.

Lemma stored_Some ps path x :
  stored ps path = Some x → ∃ p, (p, x) ∈ ps ∧ path ∈ paths_of p.
Proof.
  intros H%last_Some_elem_of. apply list_elem_of_omap in H as ([p y] & Hin & Heq).
  simpl in Heq. case_decide; simplify_eq. eauto.
Qed.

Lemma stored_is_Some ps path p x :
  (p, x) ∈ ps → path ∈ paths_of p → is_Some (stored ps path).
Proof.
  intros Hin Hp. apply last_is_Some.
  assert (x ∈ omap (λ q, if decide (path ∈ paths_of q.1) then Some q.2 else None) ps) as Hx.
  { apply list_elem_of_omap. exists (p, x). simpl. by rewrite decide_True. }
  intros Hnil. rewrite Hnil in Hx. by apply not_elem_of_nil in Hx.
Qed.

Lemma Search_payload domain p0 rest n :
  ValidAndSplitDomain domain = Some (p0 :: rest) → p0 ≠ ""%string →
  Search domain n ≫= payload = search (reverse (p0 :: rest)) n ≫= payload ∧
  (Search domain n = None ↔ search (reverse (p0 :: rest)) n ≫= payload = None).
Proof.
  intros Hv Hp. unfold Search. rewrite Hv, bool_decide_eq_false_2, isEmpty_payload by done.
  case_bool_decide as He.
  - by rewrite He.
  - split; [done|]. split; [by intros ->|done].
Qed.

(** What the search finds is stored under a path that describes the domain. *)
Lemma Search_describes ps domain p0 rest x :
  ValidAndSplitDomain domain = Some (p0 :: rest) → p0 ≠ ""%string →
  Search domain (build ps) ≫= payload = Some x →
  ∃ path, stored ps path = Some x ∧ describes path (reverse (p0 :: rest)).
Proof.
  intros Hv Hp Hx. destruct (Search_payload domain p0 rest (build ps) Hv Hp) as [He _].
  rewrite Hx in He. rewrite search_candidates in He. symmetry in He.
  apply head_Some_elem_of, list_elem_of_omap in He as (path & Hc & Hl).
  exists path. rewrite lookup_path_build in Hl. split; [done|]. by apply candidates_describes.
Qed.

Lemma Search_stored ps domain p0 rest :
  ValidAndSplitDomain domain = Some (p0 :: rest) → p0 ≠ ""%string →
  is_Some (Search domain (build ps)) ↔ ∃ path, is_Some (stored ps path) ∧ describes path (reverse (p0 :: rest)).
Proof.
  intros Hv Hp. destruct (Search_payload domain p0 rest (build ps) Hv Hp) as [He Hnone]. split.
  - intros [n Hn]. destruct (Search domain (build ps) ≫= payload) as [x|] eqn:Hx.
    + destruct (Search_describes ps domain p0 rest x Hv Hp Hx) as (path & Hs & Hd). exists path. by rewrite Hs.
    + symmetry in He. apply Hnone in He. congruence.
  - intros (path & [y Hy] & Hdesc). apply not_eq_None_Some. rewrite Hnone, search_candidates.
    intros Hh%head_None. apply candidates_describes in Hdesc. rewrite <- lookup_path_build in Hy.
    assert (y ∈ omap (λ q, lookup_path q (build ps)) (candidates (reverse (p0 :: rest)))) as Hy'.
    { apply list_elem_of_omap. eauto. }
    rewrite Hh in Hy'. by apply not_elem_of_nil in Hy'.
Qed.

Lemma stored_matches ps domain p0 rest path x :
  ValidAndSplitDomain domain = Some (p0 :: rest) →
  stored ps path = Some x → describes path (reverse (p0 :: rest)) → ∃ p, (p, x) ∈ ps ∧ pattern_matches p domain.
Proof.
  intros Hv (p & Hin & Hpath)%stored_Some Hd. exists p. split; [done|]. unfold paths_of in Hpath.
  destruct (ValidAndSplitDomain p) as [pp|] eqn:Hpp; [|by apply not_elem_of_nil in Hpath].
  by exists pp, (p0 :: rest), path.
Qed.

Lemma Search_matches ps domain p0 rest :
  ValidAndSplitDomain domain = Some (p0 :: rest) → p0 ≠ ""%string →
  is_Some (Search domain (build ps)) ↔ ∃ p x, (p, x) ∈ ps ∧ pattern_matches p domain.
Proof.
  intros Hv Hp. rewrite (Search_stored ps domain p0 rest Hv Hp). split.
  - intros (path & [x Hx] & Hd). destruct (stored_matches ps domain p0 rest path x Hv Hx Hd) as (p & Hin & Hm). eauto.
  - intros (p & x & Hin & pp & dp & path & Hpp & Hdp & Hpath & Hdesc). rewrite Hv in Hdp. simplify_eq.
    exists path. split; [|done]. apply (stored_is_Some ps path p x Hin). unfold paths_of. by rewrite Hpp.
Qed.

(** The search of a trie filled by [Insert] returns what the paths of the
    inserted patterns prescribe: the candidates for the domain are tried in
    the documented order (label, then [*], then the dot wildcard, label by
    label from the right, with backtracking), and the first one stored gives
    its data, that of the last insertion under the path. *)
Theorem trie_search_priority ps domain p0 rest :
  ValidAndSplitDomain domain = Some (p0 :: rest) → p0 ≠ ""%string →
  Search domain (build ps) ≫= payload = head (omap (stored ps) (candidates (reverse (p0 :: rest)))).
Proof.
  intros Hv Hp. destruct (Search_payload domain p0 rest (build ps) Hv Hp) as [-> _].
  rewrite search_candidates. f_equal. apply list_omap_ext, Forall2_same_length_lookup.
  split; [done|]. intros i x y Hx Hy. simplify_eq. apply lookup_path_build.
Qed.

(** C5: a domain is found exactly when one of the inserted patterns matches it
    ([+.d] matches [d] and everything below, [.d] everything below, [*] one
    label), and the node found carries the data of a matching pattern. *)
Theorem trie_search_matches ps domain p0 rest :
  ValidAndSplitDomain domain = Some (p0 :: rest) → p0 ≠ ""%string →
  (is_Some (Search domain (build ps)) ↔ ∃ p x, (p, x) ∈ ps ∧ pattern_matches p domain) ∧
  (∀ n, Search domain (build ps) = Some n →
    ∃ p x, (p, x) ∈ ps ∧ pattern_matches p domain ∧ payload n = Some x).
Proof.
  intros Hv Hp. split; [by apply (Search_matches ps domain p0 rest)|].
  intros n Hn. destruct (Search_payload domain p0 rest (build ps) Hv Hp) as [He Hnone].
  rewrite Hn in He, Hnone. simpl in He. destruct (payload n) as [x|] eqn:Hx.
  - destruct (Search_describes ps domain p0 rest x Hv Hp) as (path & Hs & Hd); [by rewrite Hn|].
    destruct (stored_matches ps domain p0 rest path x Hv Hs Hd) as (p & Hin & Hm). eauto.
  - symmetry in He. by apply Hnone in He.
Qed.

(** *** [Optimize] *)

Lemma wf_newNode : wf_node (T:=T) newNode.
Proof. constructor; [by intros [? ?]|done]. Qed.

Lemma wf_getChild s c n : wf_node n → getChild s n = Some c → wf_node c.
Proof. inversion 1; eauto. Qed.

Lemma wf_setData d n : wf_node n → wf_node (setData d n).
Proof. inversion 1. constructor; [by destruct n|]. intros s c. rewrite getChild_setData. eauto. Qed.

Lemma wf_putChild s c n : wf_node n → wf_node c → wf_node (putChild s c n).
Proof.
  intros Hn Hc. constructor.
  - inversion Hn as [n' Hmap _]; subst. destruct n as [[m|] [c0|] cs d]; simpl in *.
    all: try (specialize (Hmap (mk_is_Some _ _ eq_refl)); simplify_eq).
    all: unfold putChild, addChild, getChild; simpl; repeat case_match; simpl; try done.
    all: by intros [? ?].
  - intros s' c'. rewrite getChild_putChild. case_decide; intros; simplify_eq; eauto using wf_getChild.
Qed.

Lemma wf_insert_path path d n : wf_node n → wf_node (insert_path path d n).
Proof.
  revert n. induction path as [|s path IH]; intros n Hn; simpl; [by apply wf_setData|].
  apply wf_putChild; [done|]. apply IH. unfold getOrNewChild.
  destruct (getChild s n) eqn:Hs; simpl; eauto using wf_getChild, wf_newNode.
Qed.

Lemma wf_Insert (p : string * T) n : wf_node n → wf_node (default n (Insert p.1 p.2 n)).
Proof. intros Hn. unfold Insert. repeat case_match; simpl; auto using wf_insert_path. Qed.

Lemma wf_build ps : wf_node (build ps).
Proof.
  induction ps as [|p ps IH] using rev_ind; [apply wf_newNode|].
  unfold build in *. rewrite foldl_app. simpl. by apply wf_Insert.
Qed.

Lemma map_to_list_single {A} (m : gmap string A) (k : string) (c : A) : map_to_list m = [(k, c)] → m = {[k := c]}.
Proof. intros H. rewrite <- (list_to_map_to_list m), H. apply insert_empty. Qed.

Lemma getChild_optimize s n : wf_node n → getChild s (optimize n) = optimize <$> getChild s n.
Proof.
  intros [n' Hmap _]. destruct n' as [[m|] cn cs d]; simpl in *.
  - specialize (Hmap (mk_is_Some _ _ eq_refl)). subst cn. unfold getChild; simpl.
    rewrite <- lookup_fmap.
    destruct (map_to_list (optimize <$> m)) as [|[k c] [|? ?]] eqn:Hl; simpl.
    + apply map_to_list_empty_iff in Hl. by rewrite Hl, lookup_empty.
    + apply map_to_list_single in Hl. rewrite Hl. case_bool_decide; subst;
        [by rewrite lookup_singleton_eq|by rewrite lookup_singleton_ne].
    + done.
  - unfold getChild; simpl. destruct cn; simpl; [|done]. by case_bool_decide.
Qed.

Lemma payload_optimize n : payload (optimize n) = payload n.
Proof. destruct n as [[m|] cn cs d]; simpl; [|done]. by repeat case_match. Qed.

Lemma lookup_path_optimize path n : wf_node n → lookup_path path (optimize n) = lookup_path path n.
Proof.
  revert n. induction path as [|s path IH]; intros n Hn; simpl; [apply payload_optimize|].
  rewrite getChild_optimize by done. destruct (getChild s n) eqn:Hs; simpl; eauto using wf_getChild.
Qed.

Lemma wf_optimize n : wf_node n → wf_node (optimize n).
Proof.
  induction 1 as [n Hmap Hch IH]. constructor.
  - destruct n as [[m|] cn cs d]; simpl in *; [|by intros [? ?]].
    rewrite (Hmap (mk_is_Some _ _ eq_refl)). repeat case_match; simpl; try done; by intros [? ?].
  - intros s c. rewrite getChild_optimize by by constructor.
    intros (c0 & Hc0 & ->)%fmap_Some. by eapply IH.
Qed.

(** What a search returns is stored under some path. *)
Lemma Search_lookup_path domain n x :
  Search domain n ≫= payload = Some x → ∃ path, lookup_path path n = Some x.
Proof.
  unfold Search. destruct (ValidAndSplitDomain domain) as [[|p0 rest]|]; try done.
  case_bool_decide; [done|]. case_match; [done|]. rewrite search_candidates.
  intros (path & _ & Hl)%head_Some_elem_of%list_elem_of_omap. eauto.
Qed.

Lemma search_optimize parts n :
  wf_node n → search parts (optimize n) ≫= payload = search parts n ≫= payload.
Proof.
  intros Hn. rewrite !search_candidates. f_equal. apply list_omap_ext, Forall2_same_length_lookup.
  split; [done|]. intros i x y Hx Hy. simplify_eq. by apply lookup_path_optimize.
Qed.

(** [Optimize] moves single children inline and rebuilds the maps without
    changing any answer: every search of the optimised trie returns the data
    it returned before. *)
Theorem trie_optimize_search ps domain :
  Search domain (Optimize (build ps)) ≫= payload = Search domain (build ps) ≫= payload.
Proof.
  unfold Optimize, Search. destruct (ValidAndSplitDomain domain) as [[|p0 rest]|]; try done.
  case_bool_decide; [done|]. rewrite !isEmpty_payload, search_optimize by apply wf_build.
  case_bool_decide; [done|]. apply search_optimize, wf_build.
Qed.

(** *** [Foreach] *)

Lemma recursion_children {A} (fn : string → T → A → A * bool) items n a :
  recursion fn items n a =
  map_fold (λ key c acc,
    if (acc.2 : bool) then
      match payload c with
      | Some d => let '(a', ok) := fn (shown_domain (key :: items)) d acc.1 in
                  if (ok : bool) then recursion fn (key :: items) c a' else (a', false)
      | None => recursion fn (key :: items) c acc.1
      end
    else acc) (a, true) (getChildren n).
Proof.
  destruct n as [[m|] [c|] cs d]; simpl; try done; unfold getChildren; simpl.
  by rewrite map_fold_singleton.
Qed.

Lemma getChildren_lookup s n : getChildren n !! s = getChild s n.
Proof.
  destruct n as [[m|] [c|] cs d]; unfold getChildren, getChild; simpl; try done.
  case_bool_decide; subst; [by rewrite lookup_singleton_eq|by rewrite lookup_singleton_ne].
Qed.

(** The callback that records its arguments and goes on. *)
Definition collect (d : string) (x : T) (acc : list (string * T)) : list (string * T) * bool :=
  (acc ++ [(d, x)], true).

(** [r] adds to [a] the entries [P], named by their paths, each path once. *)
Definition collects (name : list string → string) (r : list (string * T) * bool) (a : list (string * T))
    (P : list string → T → Prop) : Prop :=
  r.2 = true ∧ ∃ lp : list (list string * T),
    r.1 = a ++ ((λ e, (name e.1, e.2)) <$> lp) ∧ NoDup lp.*1 ∧ ∀ p d, (p, d) ∈ lp ↔ P p d.

(** The entries of the subtree [c] under the label [key]. *)
Definition under key c (p : list string) (d : T) : Prop := ∃ q, p = key :: q ∧ lookup_path q c = Some d.

(** The entries of a subtree, one label further up. *)
Definition deepen key (lp : list (list string * T)) : list (list string * T) := (λ e, (key :: e.1, e.2)) <$> lp.

Lemma deepen_NoDup key lp : NoDup lp.*1 → NoDup (deepen key lp).*1.
Proof.
  intros Hnd. unfold deepen. rewrite <- list_fmap_compose. apply (NoDup_fmap_2 (cons key)) in Hnd. by rewrite <- list_fmap_compose in Hnd.
Qed.

Lemma deepen_in key c lp :
  (∀ p d, (p, d) ∈ lp ↔ p ≠ [] ∧ lookup_path p c = Some d) →
  ∀ p d, (p, d) ∈ deepen key lp ↔ ∃ q, p = key :: q ∧ q ≠ [] ∧ lookup_path q c = Some d.
Proof.
  intros Hin p d. unfold deepen. rewrite list_elem_of_fmap. split.
  - intros ([q d'] & [= -> ->] & Hq%Hin). by exists q.
  - intros (q & -> & Hq%Hin). by exists (q, d).
Qed.

Lemma under_payload key c (lp : list (list string * T)) p d :
  (∀ p d, (p, d) ∈ lp ↔ ∃ q, p = key :: q ∧ q ≠ [] ∧ lookup_path q c = Some d) →
  under key c p d ↔ (p, d) ∈ lp ∨ p = [key] ∧ payload c = Some d.
Proof.
  intros Hin. rewrite Hin. unfold under. split.
  - intros ([|s q] & -> & Hq); [by right|left; by exists (s :: q)].
  - intros [(q & -> & _ & Hq)|[-> Hq]]; [by exists q|by exists []].
Qed.

Lemma collects_under name key c r (a : list (string * T)) :
  collects (λ q, name (key :: q)) r (a ++ match payload c with Some d => [(name [key], d)] | None => [] end)
    (λ q d, q ≠ [] ∧ lookup_path q c = Some d) →
  collects name r a (under key c).
Proof.
  intros [Hr (lp & H1 & Hnd%(deepen_NoDup key) & Hin)]. split; [done|]. pose proof (deepen_in key c lp Hin) as Hd.
  assert ((λ e, (name (key :: e.1), e.2)) <$> lp = (λ e, (name e.1, e.2)) <$> deepen key lp) as Hname.
  { unfold deepen. by rewrite <- list_fmap_compose. }
  rewrite Hname in H1. destruct (payload c) as [d0|] eqn:Hp.
  - exists (([key], d0) :: deepen key lp). split_and!.
    + by rewrite H1, <- (assoc_L (++)).
    + simpl. apply NoDup_cons. split; [|done]. intros ([p d] & Hpe & Hpd)%list_elem_of_fmap. simpl in Hpe. subst p.
      apply Hd in Hpd as (q & [= <-] & Hq & _). done.
    + intros p d. rewrite elem_of_cons, (under_payload key c _ p d Hd), Hp. naive_solver.
  - exists (deepen key lp). split_and!; [by rewrite H1, app_nil_r|done|].
    intros p d. rewrite (under_payload key c _ p d Hd), Hp. naive_solver.
Qed.

(** Folding over the children of a node, each adding its own entries. *)
Lemma fold_children name n (step : string → Node T → list (string * T) * bool → list (string * T) * bool) a :
  (∀ key c r, getChild key n = Some c → r.2 = true → collects name (step key c r) r.1 (under key c)) →
  collects name (map_fold step (a, true) (getChildren n)) a (λ p d, p ≠ [] ∧ lookup_path p n = Some d).
Proof.
  intros Hstep.
  enough (collects name (map_fold step (a, true) (getChildren n)) a
    (λ p d, ∃ key c, getChildren n !! key = Some c ∧ under key c p d)) as [Hr (lp & H1 & H2 & H3)].
  { split; [done|]. exists lp. split_and!; [done..|]. intros p d. rewrite H3. setoid_rewrite getChildren_lookup. split.
    - intros (key & c & Hc & q & -> & Hq). split; [done|]. simpl. by rewrite Hc.
    - intros [Hne Hl]. destruct p as [|key q]; [done|]. simpl in Hl.
      destruct (getChild key n) as [c|] eqn:Hc; [|done]. exists key, c. split; [done|]. by exists q. }
  assert (∀ key c, getChildren n !! key = Some c → getChild key n = Some c) as Hsub
    by (intros ??; by rewrite getChildren_lookup).
  revert Hsub. generalize (getChildren n).
  apply (map_fold_weak_ind (λ r m, (∀ key c, m !! key = Some c → getChild key n = Some c) →
    collects name r a (λ p d, ∃ key c, m !! key = Some c ∧ under key c p d))).
  - intros _. split; [done|]. exists []. split_and!; [by rewrite app_nil_r|constructor|].
    intros p d. rewrite elem_of_nil. split; [done|]. intros (key & c & Hc & _). by rewrite lookup_empty in Hc.
  - intros key c m r Hnone IHm Hsub.
    assert (∀ k c', m !! k = Some c' → k ≠ key) as Hne by (intros k c' Hk ->; by rewrite Hnone in Hk).
    destruct IHm as [Hr1 (lp & Hlp & Hnd & Hin)].
    { intros k c' Hk. apply Hsub. rewrite lookup_insert_ne; [done|]. intros ->. by apply (Hne _ _ Hk). }
    destruct (Hstep key c r) as [Hs1 (lq & Hlq & Hndq & Hinq)]; [apply Hsub, lookup_insert_eq|done|].
    split; [done|]. exists (lp ++ lq). split_and!.
    + by rewrite Hlq, Hlp, fmap_app, <- (assoc_L (++)).
    + rewrite fmap_app. apply NoDup_app. split_and!; [done| |done].
      intros p ([p1 d1] & -> & (k & c' & Hk & q & -> & _)%Hin)%list_elem_of_fmap.
      intros ([p2 d2] & Heq & (q2 & -> & _)%Hinq)%list_elem_of_fmap. simpl in Heq. injection Heq as Heq _. by apply (Hne _ _ Hk).
    + intros p d. rewrite elem_of_app, Hin, Hinq. split.
      * intros [(k & c' & Hk & Hu)|Hu]; [exists k, c'|exists key, c]; (split; [|done]); [|by rewrite lookup_insert_eq].
        rewrite lookup_insert_ne; [done|]. intros ->. by apply (Hne _ _ Hk).
      * intros (k & c' & [[<- <-]|[? Hk]]%lookup_insert_Some & Hu); [by right|left; eauto].
Qed.

Lemma recursion_collect n : wf_node n → ∀ items a,
  collects (λ p, shown_domain (reverse p ++ items)) (recursion collect items n a) a (λ p d, p ≠ [] ∧ lookup_path p n = Some d).
Proof.
  induction 1 as [n _ _ IH]. intros items a. rewrite recursion_children.
  apply fold_children. intros key c r Hkc Hr. rewrite Hr.
  assert (collects (λ q, shown_domain (reverse (key :: q) ++ items))
    (recursion collect (key :: items) c (r.1 ++ match payload c with Some d => [(shown_domain (key :: items), d)] | None => [] end))
    (r.1 ++ match payload c with Some d => [(shown_domain (key :: items), d)] | None => [] end)
    (λ q d, q ≠ [] ∧ lookup_path q c = Some d)) as H.
  { destruct (IH _ _ Hkc (key :: items) (r.1 ++ match payload c with Some d => [(shown_domain (key :: items), d)] | None => [] end))
      as [H1 (lp & H2 & H3 & H4)].
    split; [done|]. exists lp. split_and!; [|done|done]. rewrite H2. f_equal. apply list_fmap_ext. intros i [p d] _. simpl.
    by rewrite reverse_cons, <- (assoc_L (++)). }
  destruct (payload c) as [d|] eqn:Hp; [|rewrite app_nil_r in H]; apply collects_under; rewrite Hp; [|rewrite app_nil_r]; exact H.
Qed.

(** The name under which [Foreach] reports a path. *)
Definition foreach_name path : string :=
  match path with
  | [key] => joinDomain [key]
  | _ => shown_domain (reverse path)
  end.

(** [Foreach] reports the stored paths, each once. *)
Lemma Foreach_paths n : wf_node n → ∃ lp : list (list string * T),
  Foreach collect n [] = ((λ e, (foreach_name e.1, e.2)) <$> lp) ∧ NoDup lp.*1 ∧
  ∀ p d, (p, d) ∈ lp ↔ p ≠ [] ∧ lookup_path p n = Some d.
Proof.
  intros Hwf. unfold Foreach. edestruct (fold_children foreach_name n) as [_ (lp & Hlp & H)]; [|exists lp; split; [exact Hlp|exact H]].
  intros key c r Hkc Hr. cbv beta. rewrite Hr.
  destruct (recursion_collect c (wf_getChild _ _ _ Hwf Hkc) [key] r.1) as [Hc1 (lp & H1 & H2 & H3)].
  destruct (recursion collect [key] c r.1) as [a' ok]. simpl in H1.
  assert (∀ q, q ≠ [] → foreach_name (key :: q) = shown_domain (reverse q ++ [key])) as Hname.
  { intros [|k q] Hq; [done|]. cbn [foreach_name]. by rewrite (reverse_cons (k :: q) key). }
  assert (a' = r.1 ++ ((λ e, (foreach_name e.1, e.2)) <$> deepen key lp)) as ->.
  { rewrite H1. f_equal. unfold deepen. rewrite <- list_fmap_compose. apply list_fmap_ext. intros i [p d] Hi.
    unfold compose. cbn [fst snd]. rewrite Hname; [done|]. apply list_elem_of_lookup_2, H3 in Hi. by destruct Hi. }
  apply (deepen_NoDup key) in H2. pose proof (deepen_in key c lp H3) as Hin.
  destruct (payload c) as [d0|] eqn:Hp; (split; [done|]); simpl.
  - exists (deepen key lp ++ [([key], d0)]). split_and!.
    + by rewrite fmap_app, (assoc_L (++)).
    + rewrite fmap_app. apply NoDup_app. split_and!; [done| |apply NoDup_singleton].
      intros p ([p1 d1] & -> & (q & -> & Hq & _)%Hin)%list_elem_of_fmap. simpl. rewrite list_elem_of_singleton. by intros [= ->].
    + intros p d. rewrite elem_of_app, list_elem_of_singleton, (under_payload key c _ p d Hin), Hp. naive_solver.
  - exists (deepen key lp). split_and!; [done|done|]. intros p d. rewrite (under_payload key c _ p d Hin), Hp. naive_solver.
Qed.

Lemma Foreach_collect n : wf_node n → ∀ e,
  e ∈ Foreach collect n [] ↔ ∃ path, path ≠ [] ∧ lookup_path path n = Some e.2 ∧ e.1 = foreach_name path.
Proof.
  intros Hwf [name d]. destruct (Foreach_paths n Hwf) as (lp & -> & _ & Hin). rewrite list_elem_of_fmap. simpl. split.
  - intros ([p d'] & [= -> ->] & [Hne Hl]%Hin). by exists p.
  - intros (p & Hne & Hl & ->). exists (p, d). split; [done|]. by apply Hin.
Qed.

(** With a callback that never stops, [Foreach] reports exactly the stored
    paths with their data, each under its joined name: the labels below a dot
    wildcard come back with the leading [+]. *)
Theorem trie_foreach ps d x :
  (d, x) ∈ Foreach collect (build ps) [] ↔
  ∃ path, path ≠ [] ∧ stored ps path = Some x ∧ d = foreach_name path.
Proof.
  setoid_rewrite <- lookup_path_build. apply Foreach_collect, wf_build.
Qed.

End TrieProofs.

(** ** Concrete runs *)

Definition sample_trie : list (string * nat) :=
  [("+.example.com"%string, 1); ("*.test.org"%string, 2); ("www.test.org"%string, 3); ("a.b"%string, 4)].

Lemma trie_search_priority_witness :
  Search "WWW.test.org" (build sample_trie) ≫= payload = Some 3 ∧
  Search "WWW.test.org" (build sample_trie) ≫= payload =
    head (omap (stored sample_trie) (candidates (reverse ["www"; "test"; "org"]%string))).
Proof.
  split; [vm_compute; reflexivity|].
  apply (trie_search_priority sample_trie); [vm_compute; reflexivity|discriminate].
Defined.

Lemma trie_search_matches_witness :
  is_Some (Search "x.y.example.com" (build sample_trie)) ∧
  ∃ p x, (p, x) ∈ sample_trie ∧ pattern_matches p "x.y.example.com".
Proof.
  assert (is_Some (Search "x.y.example.com" (build sample_trie))) as H by (vm_compute; eauto).
  split; [exact H|].
  refine (proj1 (proj1 (trie_search_matches sample_trie "x.y.example.com" "x"%string
    ["y"; "example"; "com"]%string _ _)) H); [vm_compute; reflexivity|discriminate].
Defined.

(** [Foreach] drops the answer of [recursion]: a callback that asks to stop
    inside one top-level label is called again under the next one. *)
Lemma foreach_called_after_stop :
  Foreach (λ _ (_ : nat) k, (S k, false)) (build [("a.b"%string, 1); ("c.d"%string, 2)]) 0 = 2.
Proof. vm_compute. reflexivity. Qed.
