(* ===== verification/Metadata.v ===== *)
(** * Connection metadata: [constant/metadata.go] and [constant/rule.go]

    The record every rule reads and the closures of the matcher write.  The
    raw socket addresses ([RawSrcAddr], [RawDstAddr]) are opaque handles that
    no modelled code reads and are left out. *)

From Stdlib Require Import ZArith Lia Ascii String.
From stdpp Require Import prelude strings gmap list pretty.
From S2P Require Import Prelude Netip FakeIP.

Inductive RuleType :=
  | TDomain | TDomainSuffix | TDomainKeyword | TDomainRegex | TDomainWildcard
  | TGEOSITE | TGEOIP | TSrcGEOIP | TIPASN | TSrcIPASN | TIPCIDR | TSrcIPCIDR
  | TIPSuffix | TSrcIPSuffix | TSrcPort | TDstPort | TInPort | TDSCP
  | TInUser | TInName | TInType
  | TProcessName | TProcessPath | TProcessNameRegex | TProcessPathRegex
  | TProcessNameWildcard | TProcessPathWildcard
  | TRuleSet | TNetwork | TUid | TSubRules | TMATCH | TAND | TOR | TNOT.

#[global] Instance RuleType_eq_dec : EqDecision RuleType.
Proof. solve_decision. Defined.

Definition RuleType_String (rt : RuleType) : string :=
  match rt with
  | TDomain => "Domain"
  | TDomainSuffix => "DomainSuffix"
  | TDomainKeyword => "DomainKeyword"
  | TDomainRegex => "DomainRegex"
  | TDomainWildcard => "DomainWildcard"
  | TGEOSITE => "GeoSite"
  | TGEOIP => "GeoIP"
  | TSrcGEOIP => "SrcGeoIP"
  | TIPASN => "IPASN"
  | TSrcIPASN => "SrcIPASN"
  | TIPCIDR => "IPCIDR"
  | TSrcIPCIDR => "SrcIPCIDR"
  | TIPSuffix => "IPSuffix"
  | TSrcIPSuffix => "SrcIPSuffix"
  | TSrcPort => "SrcPort"
  | TDstPort => "DstPort"
  | TInPort => "InPort"
  | TInUser => "InUser"
  | TInName => "InName"
  | TInType => "InType"
  | TProcessName => "ProcessName"
  | TProcessPath => "ProcessPath"
  | TProcessNameRegex => "ProcessNameRegex"
  | TProcessPathRegex => "ProcessPathRegex"
  | TProcessNameWildcard => "ProcessNameWildcard"
  | TProcessPathWildcard => "ProcessPathWildcard"
  | TMATCH => "Match"
  | TRuleSet => "RuleSet"
  | TNetwork => "Network"
  | TDSCP => "DSCP"
  | TUid => "Uid"
  | TSubRules => "SubRules"
  | TAND => "AND"
  | TOR => "OR"
  | TNOT => "NOT"
  end.

Inductive NetWork := TCP | UDP | ALLNet | InvalidNet.

#[global] Instance NetWork_eq_dec : EqDecision NetWork.
Proof. solve_decision. Defined.

Definition NetWork_String (n : NetWork) : string :=
  match n with
  | TCP => "tcp"
  | UDP => "udp"
  | ALLNet => "all"
  | InvalidNet => "invalid"
  end.

(** The inbound kind, [C.Type]. *)
Inductive InboundType :=
  | HTTP | HTTPS | SOCKS4 | SOCKS5 | SHADOWSOCKS | SNELL | VMESS | VLESS | REDIR | TPROXY
  | TROJAN | TUNNEL | TUN | TUIC | HYSTERIA2 | ANYTLS | MIERU | SUDOKU | TRUSTTUNNEL | INNER.

#[global] Instance InboundType_eq_dec : EqDecision InboundType.
Proof. solve_decision. Defined.

Definition Type_String (t : InboundType) : string :=
  match t with
  | HTTP => "HTTP"
  | HTTPS => "HTTPS"
  | SOCKS4 => "Socks4"
  | SOCKS5 => "Socks5"
  | SHADOWSOCKS => "ShadowSocks"
  | SNELL => "Snell"
  | VMESS => "Vmess"
  | VLESS => "Vless"
  | REDIR => "Redir"
  | TPROXY => "TProxy"
  | TROJAN => "Trojan"
  | TUNNEL => "Tunnel"
  | TUN => "Tun"
  | TUIC => "Tuic"
  | HYSTERIA2 => "Hysteria2"
  | ANYTLS => "AnyTLS"
  | MIERU => "Mieru"
  | SUDOKU => "Sudoku"
  | TRUSTTUNNEL => "TrustTunnel"
  | INNER => "Inner"
  end.

(** The switch of [ParseType], a table of its cases. *)
Definition type_names : list (string * InboundType) :=
  [("HTTP", HTTP); ("HTTPS", HTTPS); ("SOCKS4", SOCKS4); ("SOCKS5", SOCKS5);
   ("SHADOWSOCKS", SHADOWSOCKS); ("SNELL", SNELL); ("VMESS", VMESS); ("VLESS", VLESS);
   ("REDIR", REDIR); ("TPROXY", TPROXY); ("TROJAN", TROJAN); ("TUNNEL", TUNNEL); ("TUN", TUN);
   ("TUIC", TUIC); ("HYSTERIA2", HYSTERIA2); ("ANYTLS", ANYTLS); ("MIERU", MIERU);
   ("SUDOKU", SUDOKU); ("TRUSTTUNNEL", TRUSTTUNNEL); ("INNER", INNER)]%string.

Definition ParseType (t : string) : option InboundType :=
  snd <$> List.find (λ p, bool_decide (p.1 = t)) type_names.

Inductive AddrTypeT := AtypIPv4 | AtypDomainName | AtypIPv6.

Record Metadata := mkMetadata {
  m_NetWork : NetWork;
  m_Type : InboundType;
  SrcIP : Addr;
  DstIP : Addr;
  (** [None] is the nil slice: never queried *)
  SrcGeoIP : option (list string);
  DstGeoIP : option (list string);
  SrcIPASN : string;
  DstIPASN : string;
  m_SrcPort : Z;
  m_DstPort : Z;
  m_InIP : Addr;
  m_InPort : Z;
  m_InName : string;
  m_InUser : string;
  Host : string;
  m_DNSMode : DNSMode;
  m_Uid : Z;
  m_Process : string;
  m_ProcessPath : string;
  SpecialProxy : string;
  SpecialRules : string;
  RemoteDst : string;
  m_DSCP : Z;
  SniffHost : string
}.

Definition zero_metadata : Metadata :=
  mkMetadata TCP HTTP NoAddr NoAddr None None "" "" 0 0 NoAddr 0 "" "" "" DNSNormal 0 "" "" "" "" "" 0 "".

(** Field updates. *)
Definition set_DstIP (ip : Addr) (m : Metadata) : Metadata :=
  mkMetadata (m_NetWork m) (m_Type m) (SrcIP m) ip (SrcGeoIP m) (DstGeoIP m) (SrcIPASN m) (DstIPASN m)
    (m_SrcPort m) (m_DstPort m) (m_InIP m) (m_InPort m) (m_InName m) (m_InUser m) (Host m) (m_DNSMode m)
    (m_Uid m) (m_Process m) (m_ProcessPath m) (SpecialProxy m) (SpecialRules m) (RemoteDst m) (m_DSCP m) (SniffHost m).

Definition set_Host (h : string) (m : Metadata) : Metadata :=
  mkMetadata (m_NetWork m) (m_Type m) (SrcIP m) (DstIP m) (SrcGeoIP m) (DstGeoIP m) (SrcIPASN m) (DstIPASN m)
    (m_SrcPort m) (m_DstPort m) (m_InIP m) (m_InPort m) (m_InName m) (m_InUser m) h (m_DNSMode m)
    (m_Uid m) (m_Process m) (m_ProcessPath m) (SpecialProxy m) (SpecialRules m) (RemoteDst m) (m_DSCP m) (SniffHost m).

Definition set_DstPort (p : Z) (m : Metadata) : Metadata :=
  mkMetadata (m_NetWork m) (m_Type m) (SrcIP m) (DstIP m) (SrcGeoIP m) (DstGeoIP m) (SrcIPASN m) (DstIPASN m)
    (m_SrcPort m) p (m_InIP m) (m_InPort m) (m_InName m) (m_InUser m) (Host m) (m_DNSMode m)
    (m_Uid m) (m_Process m) (m_ProcessPath m) (SpecialProxy m) (SpecialRules m) (RemoteDst m) (m_DSCP m) (SniffHost m).

Definition set_DNSMode (d : DNSMode) (m : Metadata) : Metadata :=
  mkMetadata (m_NetWork m) (m_Type m) (SrcIP m) (DstIP m) (SrcGeoIP m) (DstGeoIP m) (SrcIPASN m) (DstIPASN m)
    (m_SrcPort m) (m_DstPort m) (m_InIP m) (m_InPort m) (m_InName m) (m_InUser m) (Host m) d
    (m_Uid m) (m_Process m) (m_ProcessPath m) (SpecialProxy m) (SpecialRules m) (RemoteDst m) (m_DSCP m) (SniffHost m).

Definition set_process (uid : Z) (name path : string) (m : Metadata) : Metadata :=
  mkMetadata (m_NetWork m) (m_Type m) (SrcIP m) (DstIP m) (SrcGeoIP m) (DstGeoIP m) (SrcIPASN m) (DstIPASN m)
    (m_SrcPort m) (m_DstPort m) (m_InIP m) (m_InPort m) (m_InName m) (m_InUser m) (Host m) (m_DNSMode m)
    uid name path (SpecialProxy m) (SpecialRules m) (RemoteDst m) (m_DSCP m) (SniffHost m).

Definition set_geo (sg dg : option (list string)) (sa da : string) (m : Metadata) : Metadata :=
  mkMetadata (m_NetWork m) (m_Type m) (SrcIP m) (DstIP m) sg dg sa da
    (m_SrcPort m) (m_DstPort m) (m_InIP m) (m_InPort m) (m_InName m) (m_InUser m) (Host m) (m_DNSMode m)
    (m_Uid m) (m_Process m) (m_ProcessPath m) (SpecialProxy m) (SpecialRules m) (RemoteDst m) (m_DSCP m) (SniffHost m).

Definition SourceValid (m : Metadata) : bool := negb (m_SrcPort m =? 0)%Z && IsValid (SrcIP m).

Definition AddrType (m : Metadata) : AddrTypeT :=
  if negb (bool_decide (Host m = "")) || negb (IsValid (DstIP m)) then AtypDomainName
  else if Is4 (DstIP m) then AtypIPv4
  else AtypIPv6.

Definition Resolved (m : Metadata) : bool := IsValid (DstIP m).

Definition RuleHost (m : Metadata) : string := if bool_decide (SniffHost m = "") then Host m else SniffHost m.

(** [Pure] returns the receiver or a changed copy. *)
Definition Pure (m : Metadata) : Metadata :=
  if (bool_decide (m_DNSMode m = DNSMapping) || bool_decide (m_DNSMode m = DNSHosts)) && IsValid (DstIP m)
  then set_Host "" m
  else m.

(** An [AddrPort]; the pair for [UDPAddr], nil being [None]. *)
Definition AddrPort (m : Metadata) : Addr * Z := (Unmap (DstIP m), m_DstPort m).

Definition SourceAddrPort (m : Metadata) : Addr * Z := (Unmap (SrcIP m), m_SrcPort m).

Definition UDPAddr (m : Metadata) : option (Addr * Z) :=
  if negb (bool_decide (m_NetWork m = UDP)) || negb (IsValid (DstIP m)) then None else Some (AddrPort m).

Definition Valid (m : Metadata) : bool := negb (bool_decide (Host m = "")) || IsValid (DstIP m).

Definition SwapSrcDst (m : Metadata) : Metadata :=
  mkMetadata (m_NetWork m) (m_Type m) (DstIP m) (SrcIP m) (DstGeoIP m) (SrcGeoIP m) (DstIPASN m) (SrcIPASN m)
    (m_DstPort m) (m_SrcPort m) (m_InIP m) (m_InPort m) (m_InName m) (m_InUser m) (Host m) (m_DNSMode m)
    (m_Uid m) (m_Process m) (m_ProcessPath m) (SpecialProxy m) (SpecialRules m) (RemoteDst m) (m_DSCP m) (SniffHost m).

(** [net.SplitHostPort]: the last colon separates; a host in brackets may hold
    colons, one without may not. *)
Definition SplitHostPort (hostport : string) : option (string * string) :=
  p ← cut ":"%char (reverse (bytes hostport));
  let port := reverse p.1 in
  let host := reverse p.2 in
  if existsb (λ c, bool_decide (c = "["%char ∨ c = "]"%char)) port then None
  else
    match host with
    | "["%char :: rest =>
      match reverse rest with
      | "]"%char :: inner =>
        if existsb (λ c, bool_decide (c = "["%char ∨ c = "]"%char)) inner then None
        else Some (of_bytes (reverse inner), of_bytes port)
      | _ => None
      end
    | _ =>
      if existsb (λ c, bool_decide (c = ":"%char ∨ c = "["%char ∨ c = "]"%char)) host then None
      else Some (of_bytes host, of_bytes port)
    end.

(** [SetRemoteAddress]; a port that does not parse as 16 bits becomes 0. *)
Definition SetRemoteAddress (rawAddress : string) (m : Metadata) : option Metadata :=
  '(host, port) ← SplitHostPort rawAddress;
  let uint16Port := match ParseUint port with
                    | Some p => if (p <? 2 ^ 16)%Z then p else 0%Z
                    | None => 0%Z
                    end in
  Some match ParseAddr host with
       | None => set_DstPort uint16Port (set_DstIP NoAddr (set_Host host m))
       | Some ip => set_DstPort uint16Port (set_DstIP (Unmap ip) (set_Host "" m))
       end.

(** The kinds of outbounds, [constant/adapters.go]; the constructors carry an
    [A], as some of their names are used for other things. *)
Inductive AdapterType :=
  ADirect | AReject | ARejectDrop | ACompatible | APass | APassRule | ADns
| ARelay | ASelector | AFallback | AURLTest | ALoadBalance
| AShadowsocks | AShadowsocksR | ASnell | ASocks5 | AHttp | AVmess | AVless | ATrojan | AHysteria | AHysteria2
| AWireGuard | ATuic | ASsh | AMieru | AAnyTLS | ASudoku | AMasque | ATrustTunnel | AOpenVPN | ATailscale | AGostRelay.

#[global] Instance AdapterType_eq_dec : EqDecision AdapterType.
Proof. solve_decision. Defined.

Definition AdapterType_String (at_ : AdapterType) : string :=
  match at_ with
  | ADirect => "Direct"
  | AReject => "Reject"
  | ARejectDrop => "RejectDrop"
  | ACompatible => "Compatible"
  | APass => "Pass"
  | APassRule => "PassRule"
  | ADns => "Dns"
  | ARelay => "Relay"
  | ASelector => "Selector"
  | AFallback => "Fallback"
  | AURLTest => "URLTest"
  | ALoadBalance => "LoadBalance"
  | AShadowsocks => "Shadowsocks"
  | AShadowsocksR => "ShadowsocksR"
  | ASnell => "Snell"
  | ASocks5 => "Socks5"
  | AHttp => "Http"
  | AVmess => "Vmess"
  | AVless => "Vless"
  | ATrojan => "Trojan"
  | AHysteria => "Hysteria"
  | AHysteria2 => "Hysteria2"
  | AWireGuard => "WireGuard"
  | ATuic => "Tuic"
  | ASsh => "Ssh"
  | AMieru => "Mieru"
  | AAnyTLS => "AnyTLS"
  | ASudoku => "Sudoku"
  | AMasque => "Masque"
  | ATrustTunnel => "TrustTunnel"
  | AOpenVPN => "OpenVPN"
  | ATailscale => "Tailscale"
  | AGostRelay => "GostRelay"
  end.

(** ** Lemmas *)

Lemma SwapSrcDst_involutive m : SwapSrcDst (SwapSrcDst m) = m.
Proof. by destruct m. Qed.

Lemma ParseType_names t : ParseType (ToUpper (Type_String t)) = Some t.
Proof. by destruct t. Qed.

Lemma parse_v6_valid l a : parse_v6 l = Some a → IsValid a = true.
Proof.
  unfold parse_v6. destruct (match cut _ _ with Some _ => _ | None => _ end) as [s zone].
  case_bool_decide; [done|]. case_bool_decide; [by intros [= <-]|].
  destruct (v6_groups _ _ _ _) as [r|]; simpl; [|done].
  destruct (expand_groups _ _); simpl; [|done]. by intros [= <-].
Qed.

Lemma ParseAddr_valid s a : ParseAddr s = Some a → IsValid a = true.
Proof.
  unfold ParseAddr. generalize (bytes s) at 2. generalize (bytes s). intros rest l.
  induction rest as [|c rest IH]; simpl; [done|].
  case_bool_decide; [destruct (parse_v4 l); simpl; [by intros [= <-]|done]|].
  case_bool_decide; [apply parse_v6_valid|]. by case_bool_decide.
Qed.

Lemma ParseAddr_empty : ParseAddr "" = None.
Proof. reflexivity. Qed.

(** After a remote address text is accepted the metadata holds either a
    host name or a valid, unmapped address, never both, the latter exactly when
    the host part reads as an address; the port always fits 16 bits; and the
    result is valid unless the host part is empty. *)
Theorem set_remote_address_shape m m' raw :
  SetRemoteAddress raw m = Some m' →
  ∃ host port, SplitHostPort raw = Some (host, port) ∧
    (Host m' = host ∧ DstIP m' = NoAddr ∧ ParseAddr host = None ∨
     Host m' = "" ∧ ∃ ip, ParseAddr host = Some ip ∧ DstIP m' = Unmap ip ∧ IsValid (DstIP m') = true) ∧
    @in_type uint16 (m_DstPort m') ∧
    Valid m' = negb (bool_decide (host = "")).
Proof.
  unfold SetRemoteAddress. destruct (SplitHostPort raw) as [[host port]|] eqn:Hs; simpl; [|done].
  intros [= <-]. exists host, port. split; [done|].
  assert (@in_type uint16 (match ParseUint port with
    Some p => if (p <? 2 ^ 16)%Z then p else 0%Z | None => 0%Z end)) as Hport.
  { destruct (ParseUint port) as [p|] eqn:Hp; [|int_lia].
    apply ParseUint_range in Hp. destruct (Z.ltb_spec p (2 ^ 16)); int_lia. }
  destruct (ParseAddr host) as [ip|] eqn:Hip; simpl.
  - assert (IsValid (Unmap ip) = true) as Hv.
    { apply ParseAddr_valid in Hip. destruct ip; simpl; by repeat case_match. }
    split; [right; eauto|split; [exact Hport|]]. unfold Valid; simpl. rewrite Hv.
    rewrite bool_decide_eq_false_2; [done|]. intros ->. by rewrite ParseAddr_empty in Hip.
  - split; [left; eauto|split; [exact Hport|]]. unfold Valid; simpl. apply orb_false_r.
Qed.

Lemma set_remote_address_shape_witness :
  ∃ host port, SplitHostPort "[::1]:443" = Some (host, port).
Proof.
  set (m := mkMetadata TCP HTTP NoAddr NoAddr None None "" "" 0 0 NoAddr 0 "" "" "" DNSNormal 0 "" "" "" "" "" 0 "").
  destruct (SetRemoteAddress "[::1]:443" m) as [m'|] eqn:He; [|vm_compute in He; discriminate].
  destruct (set_remote_address_shape m m' "[::1]:443" He) as (h & p & Hs & _). eauto.
Defined.

(** ** Hosts with ports *)

Lemma contains_char (c : ascii) l : contains_bytes l [c] = bool_decide (c ∈ l).
Proof.
  induction l as [|x l IH]; [done|]. cbn [contains_bytes]. rewrite IH, <- bool_decide_or. apply bool_decide_ext.
  rewrite elem_of_cons. split; intros [Hp|?]; [left|by right|left|by right].
  - destruct Hp as [k [= -> _]]. done.
  - subst. by eexists.
Qed.

Definition bracket (c : ascii) : Prop := c = "["%char ∨ c = "]"%char.

Lemma existsb_none (P : ascii → Prop) `{∀ c, Decision (P c)} l : Forall (λ c, ¬ P c) l → existsb (λ c, bool_decide (P c)) l = false.
Proof. induction 1; simpl; [done|]. by rewrite bool_decide_false. Qed.

Lemma cut_last (l p : list ascii) : ":"%char ∉ p → cut ":"%char (reverse (l ++ ":"%char :: p)) = Some (reverse p, reverse l).
Proof.
  intros Hp. rewrite reverse_app, reverse_cons, <- app_assoc. cbn [app]. apply cut_app. by rewrite elem_of_reverse.
Qed.

(** What joins splits again; brackets would be taken for those of the join. *)
Lemma SplitHostPort_join host port :
  Forall (λ c, ¬ bracket c) (bytes host) → Forall (λ c, ¬ bracket c ∧ c ≠ ":"%char) (bytes port) →
  SplitHostPort (JoinHostPort host port) = Some (host, port).
Proof.
  intros Hh Hp. unfold SplitHostPort, JoinHostPort, Contains. change (bytes ":") with [":"%char]. rewrite contains_char.
  assert (":"%char ∉ bytes port) as Hpc.
  { intros Hin. rewrite Forall_forall in Hp. by destruct (Hp _ Hin). }
  assert (existsb (λ c, bool_decide (c = "["%char ∨ c = "]"%char)) (bytes port) = false) as Hpb.
  { apply (existsb_none bracket). eapply Forall_impl; [exact Hp|]. by intros c [? _]. }
  destruct (decide (":"%char ∈ bytes host)) as [Hin|Hin]; [rewrite bool_decide_true by done|rewrite bool_decide_false by done].
  - replace (bytes ("[" +:+ host +:+ "]:" +:+ port)) with (("["%char :: bytes host ++ ["]"%char]) ++ ":"%char :: bytes port)
      by (rewrite !bytes_app; simpl; by rewrite <- app_assoc).
    rewrite cut_last by done. cbn [mbind option_bind fst snd]. rewrite !reverse_involutive, Hpb.
    rewrite reverse_app. change (reverse ["]"%char]) with ["]"%char]. cbn [app].
    replace (existsb _ (reverse (bytes host))) with false.
    + by rewrite reverse_involutive, !of_bytes_bytes.
    + symmetry. apply (existsb_none bracket). by apply Forall_reverse.
  - replace (bytes (host +:+ ":" +:+ port)) with (bytes host ++ ":"%char :: bytes port) by by rewrite !bytes_app.
    rewrite cut_last by done. cbn [mbind option_bind fst snd]. rewrite !reverse_involutive, Hpb.
    assert (existsb (λ c, bool_decide (c = ":"%char ∨ c = "["%char ∨ c = "]"%char)) (bytes host) = false) as Hhc.
    { apply (existsb_none (λ c, c = ":"%char ∨ bracket c)). rewrite Forall_forall in Hh |- *. intros c Hc [->|Hb]; [done|by apply (Hh c)]. }
    rewrite Hhc, !of_bytes_bytes. destruct (bytes host) as [|c h] eqn:Hbh; [done|].
    apply Forall_cons in Hh as [Hc _]. assert (c ≠ "["%char) as Hne by (intros ->; by apply Hc; left).
    clear -Hne. by destruct c as [[] [] [] [] [] [] [] []].
Qed.

Lemma digits_no_bracket n : (0 ≤ n)%Z → Forall (λ c, ¬ bracket c ∧ c ≠ ":"%char) (bytes (pretty n)).
Proof.
  intros Hn. destruct (pretty_Z_digits n Hn) as (_ & Hd & _). eapply Forall_impl; [exact Hd|].
  intros c [d Hc]. split; [intros [-> | ->]|intros ->]; vm_compute in Hc; discriminate.
Qed.

Lemma v4_no_bracket v : Forall (λ c, ¬ bracket c) (bytes (v4_String v)).
Proof.
  assert (∀ b, Forall (λ c, ¬ bracket c) (bytes (pretty (b mod 256)%Z))) as Hb.
  { intros b. eapply Forall_impl; [apply digits_no_bracket, Z.mod_pos_bound; lia|]. by intros c [? _]. }
  unfold v4_String. cbn [be_bytes map String.concat]. rewrite !bytes_app, !Forall_app.
  repeat split; first [apply Hb|by repeat constructor; intros [|]].
Qed.
