(* ===== verification/Hosts.v ===== *)
(** * The hosts table: [component/resolver/host.go] and [parseHosts] of
    [config/config.go]

    A table from domains to addresses or to other domains, kept in a domain
    trie.  [Search] follows a domain to the name it stands for until it meets
    an address; its loop is run with fuel, [None] being a loop that did not
    end within it. *)

From Stdlib Require Import ZArith Lia Ascii String.
From stdpp Require Import prelude strings gmap list.
From S2P Require Import Prelude Netip DomainTrie.

Record HostValue := mkHostValue { IsDomain : bool; IPs : list Addr; hv_Domain : string }.

Definition NewHostValueByIPs (ips : list Addr) : option HostValue :=
  match ips with
  | [] => None
  | _ => Some (mkHostValue false ips "")
  end.

Definition NewHostValueByDomain (domain : string) : option HostValue :=
  let domain := Trim (λ c, bool_decide (c = "."%char)) domain in
  if (length (Split domain "."%char) <? 2)%nat then None else Some (mkHostValue true [] domain).

Definition NewHostValue (value : list string) : option HostValue :=
  match value with
  | [] => None
  | [host] =>
    match ParseAddr host with
    | Some ip => NewHostValueByIPs [Unmap ip]
    | None => NewHostValueByDomain host
    end
  | _ => ips ← mapM (λ str, Unmap <$> ParseAddr str) value; NewHostValueByIPs ips
  end.

(** [RandIP], given the random index; the second error is the panic of
    [IntN(0)] or of the index. *)
Definition RandIP (rnd : nat → nat) (hv : HostValue) : option Addr :=
  if IsDomain hv then Some NoAddr else IPs hv !! rnd (length (IPs hv)).

Definition host_data (o : option (Node HostValue)) : option HostValue := o ≫= payload.

(** The loop of [Search]. *)
Fixpoint follow (fuel : nat) (tree : Node HostValue) (isDomain : bool) (hv : HostValue) : option HostValue :=
  match fuel with
  | O => None
  | S fuel' =>
    if isDomain && IsDomain hv then Some hv
    else match host_data (Search (hv_Domain hv) tree) with
         | Some hv' => follow fuel' tree isDomain hv'
         | None => Some hv
         end
  end.

(** The value found, if any, and whether it is of the kind asked for.  The
    system's hosts file is [None] when it is not used. *)
Definition Hosts_Search (system_hosts : option (string → list string)) (fuel : nat) (tree : Node HostValue)
    (domain : string) (isDomain : bool) : option (option HostValue * bool) :=
  match host_data (Search domain tree) with
  | Some hv =>
    r ← follow fuel tree isDomain hv;
    Some (Some r, eqb isDomain (IsDomain r))
  | None =>
    match system_hosts with
    | Some LookupStaticHost =>
      if isDomain then Some (None, false)
      else match NewHostValue (LookupStaticHost domain) with
           | Some hv => Some (Some hv, true)
           | None => Some (None, false)
           end
    | None => Some (None, false)
    end
  end.

(** The search for a cycle through the name [domain]: [Some true] if found. *)
Fixpoint find_cycle (fuel : nat) (tree : Node HostValue) (domain : string) (o : option HostValue) : option bool :=
  match fuel with
  | O => None
  | S fuel' =>
    match o with
    | Some hv =>
      if IsDomain hv then
        if bool_decide (hv_Domain hv = domain) then Some true
        else find_cycle fuel' tree domain (host_data (Search (hv_Domain hv) tree))
      else Some false
    | None => Some false
    end
  end.

(** One entry of the configuration, in the order the map is walked; [Some None]
    is the error.  [lan] is what the interfaces give for the value [lan],
    [None] when they cannot be read. *)
Definition add_host (lan : option (list string)) (fuel : nat) (tree : Node HostValue) (entry : string * list string)
    : option (option (Node HostValue)) :=
  let hosts := if bool_decide (entry.2 = ["lan"%string]) then default entry.2 lan else entry.2 in
  match NewHostValue hosts with
  | None => Some None
  | Some value =>
    cyc ← (if IsDomain value then find_cycle fuel tree entry.1 (host_data (Search (hv_Domain value) tree)) else Some false);
    Some (if (cyc : bool) then None else Some (default tree (Insert entry.1 value tree)))
  end.

Fixpoint add_hosts (lan : option (list string)) (fuel : nat) (tree : Node HostValue) (entries : list (string * list string))
    : option (option (Node HostValue)) :=
  match entries with
  | [] => Some (Some tree)
  | e :: es =>
    match add_host lan fuel tree e with
    | Some (Some tree') => add_hosts lan fuel tree' es
    | o => o
    end
  end.

Definition localhost_value : HostValue := mkHostValue false [Addr4 2130706433] "".

(** The table before the configuration's entries. *)
Definition default_hosts : Node HostValue := default newNode (Insert "localhost" localhost_value newNode).

Definition parseHosts (lan : option (list string)) (fuel : nat) (entries : list (string * list string))
    : option (option (Node HostValue)) :=
  match add_hosts lan fuel default_hosts entries with
  | Some (Some tree) => Some (Some (Optimize tree))
  | o => o
  end.

(** ** Lemmas *)

(** What [NewHostValue] promises of a value. *)
Definition host_ok (hv : HostValue) : Prop :=
  if IsDomain hv then IPs hv = [] else IPs hv ≠ [] ∧ hv_Domain hv = ""%string.

Lemma NewHostValue_ok value hv : NewHostValue value = Some hv → host_ok hv.
Proof.
  assert (∀ ips, NewHostValueByIPs ips = Some hv → host_ok hv) as Hips.
  { intros [|ip ips] H; simplify_eq/=. done. }
  destruct value as [|host [|h2 value]]; [done| |].
  - unfold NewHostValue. destruct (ParseAddr host); [apply Hips|].
    unfold NewHostValueByDomain. case_match; [done|]. by intros [= <-].
  - intros (ips & _ & H)%bind_Some. by eapply Hips.
Qed.

(** Every value of the table is a good one. *)
Definition table_ok (tree : Node HostValue) : Prop :=
  wf_node tree ∧ ∀ path hv, lookup_path path tree = Some hv → host_ok hv.

Lemma table_ok_Insert d hv tree : table_ok tree → host_ok hv → table_ok (default tree (Insert d hv tree)).
Proof.
  intros [Hwf Hok] Hhv. split.
  - by apply (wf_Insert (d, hv)).
  - intros path hv'. rewrite (lookup_path_Insert path (d, hv)). case_decide; [by intros [= <-]|apply Hok].
Qed.

Lemma table_ok_add_hosts lan fuel tree es tree' :
  table_ok tree → add_hosts lan fuel tree es = Some (Some tree') → table_ok tree'.
Proof.
  revert tree. induction es as [|e es IH]; intros tree Hok; simpl; [by intros [= <-]|].
  unfold add_host. destruct (NewHostValue _) as [hv|] eqn:Hv; [|done].
  destruct (if IsDomain hv then _ else _) as [cyc|]; simpl; [|done]. destruct cyc; [done|].
  apply IH. apply table_ok_Insert; [done|]. by eapply NewHostValue_ok.
Qed.

Lemma table_ok_newNode : table_ok newNode.
Proof. split; [apply wf_newNode|]. intros path hv Hl. rewrite lookup_path_newNode in Hl. discriminate. Qed.

Lemma table_ok_default : table_ok default_hosts.
Proof.
  assert (host_ok localhost_value) as Hok by (split; discriminate || reflexivity).
  exact (table_ok_Insert "localhost" localhost_value newNode table_ok_newNode Hok).
Qed.

Lemma table_ok_parse lan fuel es tree : parseHosts lan fuel es = Some (Some tree) → table_ok tree.
Proof.
  unfold parseHosts. destruct (add_hosts _ _ _ _) as [[t|]|] eqn:Ha; [|discriminate..]. intros [= <-].
  apply table_ok_add_hosts in Ha as [Hwf Hok]; [|exact table_ok_default].
  split; [by apply wf_optimize|]. intros path hv. unfold Optimize. rewrite lookup_path_optimize by done. apply Hok.
Qed.

Lemma host_data_ok tree d hv : table_ok tree → host_data (Search d tree) = Some hv → host_ok hv.
Proof.
  intros [_ Hok] H. apply Search_lookup_path in H as (path & H). by eapply Hok.
Qed.

Lemma follow_ok fuel tree b hv hv' : table_ok tree → host_ok hv → follow fuel tree b hv = Some hv' → host_ok hv'.
Proof.
  intros Ht. revert hv. induction fuel as [|fuel IH]; intros hv Hhv; simpl; [done|].
  case_match; [by intros [= <-]|]. destruct (host_data _) as [hv2|] eqn:Hs; [|by intros [= <-]].
  apply IH. by eapply host_data_ok.
Qed.

(** An answer of the hosts table is of the kind that was asked for, and an
    address answer always has an address to pick: taking one at random never
    indexes an empty list, for any table the configuration parser builds. *)
Theorem hosts_answer_usable sys lan fuel fuel' es tree domain isDomain hv rnd :
  parseHosts lan fuel es = Some (Some tree) →
  Hosts_Search sys fuel' tree domain isDomain = Some (Some hv, true) →
  (∀ d l v, sys = Some l → NewHostValue (l d) = Some v → IsDomain v = false) →
  (∀ n, (0 < n)%nat → (rnd n < n)%nat) →
  IsDomain hv = isDomain ∧ is_Some (RandIP rnd hv) ∧
  (isDomain = false → ∃ ip, RandIP rnd hv = Some ip ∧ ip ∈ IPs hv).
Proof.
  intros Hp Hs Hsys Hrnd. apply table_ok_parse in Hp.
  assert (IsDomain hv = isDomain ∧ host_ok hv) as [Hd Hok].
  { unfold Hosts_Search in Hs. destruct (host_data (Search domain tree)) as [hv0|] eqn:H0.
    - apply bind_Some in Hs as (r & Hr & [= -> Hb]). split; [by apply eqb_prop in Hb|].
      eapply follow_ok; [done| |exact Hr]. by eapply host_data_ok.
    - destruct sys as [l|]; [|done]. destruct isDomain; [done|].
      destruct (NewHostValue (l domain)) as [v|] eqn:Hv; [|done]. simplify_eq.
      split; [by eapply Hsys|by eapply NewHostValue_ok]. }
  unfold host_ok in Hok. unfold RandIP. split; [exact Hd|]. rewrite Hd in Hok |- *. destruct isDomain; [by eauto|].
  destruct Hok as [Hne _].
  destruct (lookup_lt_is_Some_2 (IPs hv) (rnd (length (IPs hv)))) as [ip Hip].
  { apply Hrnd. destruct (IPs hv); simpl; [done|lia]. }
  split; [eauto|]. intros _. exists ip. split; [done|]. by eapply list_elem_of_lookup_2.
Qed.

Lemma hosts_answer_usable_witness :
  ∃ tree, parseHosts None 5 [("a.test", ["1.2.3.4"; "1.2.3.5"]); ("b.test", ["a.test"])]%string = Some (Some tree) ∧
    ∀ hv, Hosts_Search None 5 tree "b.test" false = Some (Some hv, true) → is_Some (RandIP (λ n, (n - 1)%nat) hv).
Proof.
  destruct (parseHosts None 5 [("a.test", ["1.2.3.4"; "1.2.3.5"]); ("b.test", ["a.test"])]%string)
    as [[tree|]|] eqn:Hp; [|vm_compute in Hp; discriminate..].
  exists tree. split; [reflexivity|]. intros hv Hs.
  refine (proj1 (proj2 (hosts_answer_usable None None 5 5 _ tree "b.test" false hv (λ n, (n - 1)%nat) Hp Hs _ _))).
  - intros d l v H. discriminate H.
  - intros n Hn. lia.
Defined.

Lemma follow_total (tree : Node HostValue) (rank : string → nat) isDomain :
  (∀ d hv, host_data (Search d tree) = Some hv → host_data (Search (hv_Domain hv) tree) ≠ None →
    rank (hv_Domain hv) < rank d) →
  ∀ fuel d hv, host_data (Search d tree) = Some hv → rank d < fuel → is_Some (follow fuel tree isDomain hv).
Proof.
  intros Hrank fuel. induction fuel as [|fuel IH]; intros d hv Hd Hf; [lia|]. simpl.
  case_match; [eauto|]. destruct (host_data (Search (hv_Domain hv) tree)) as [hv2|] eqn:H2; [|eauto].
  apply (IH (hv_Domain hv)); [done|]. assert (rank (hv_Domain hv) < rank d); [|lia].
  apply Hrank; [done|]. by rewrite H2.
Qed.

(** The loop of [Search] ends on every table whose aliases lead down: if
    each stored name is ranked above the name it stands for, as many turns as
    the rank of the domain are enough. *)
Theorem hosts_search_terminates sys (tree : Node HostValue) (rank : string → nat) domain isDomain :
  (∀ d hv, host_data (Search d tree) = Some hv → host_data (Search (hv_Domain hv) tree) ≠ None →
    rank (hv_Domain hv) < rank d) →
  is_Some (Hosts_Search sys (S (rank domain)) tree domain isDomain).
Proof.
  intros Hrank. unfold Hosts_Search. destruct (host_data (Search domain tree)) as [hv|] eqn:Hd.
  - destruct (follow_total tree rank isDomain Hrank (S (rank domain)) domain hv Hd) as [r ->]; [lia|]. eauto.
  - repeat case_match; eauto.
Qed.

Lemma hosts_search_terminates_witness :
  is_Some (Hosts_Search None 2 default_hosts "localhost" false).
Proof.
  refine (hosts_search_terminates None default_hosts (λ d, if bool_decide (d = "") then 0 else 1)%nat "localhost" false _).
  intros d hv Hd. apply (host_data_ok _ _ _ table_ok_default) in Hd as Hok.
  assert (hv = localhost_value) as ->.
  { apply Search_lookup_path in Hd as (path & Hl). unfold default_hosts in Hl.
    pose proof (lookup_path_Insert path ("localhost"%string, localhost_value) newNode) as HI. simpl fst in HI. simpl snd in HI.
    rewrite HI in Hl. case_decide; [congruence|]. rewrite lookup_path_newNode in Hl. discriminate. }
  intros H. exfalso. apply H. vm_compute. reflexivity.
Defined.

(** A name that stands for itself makes the search for its address run
    forever, and the configuration parser accepts such an entry: its check for
    cycles looks at the table before the entry is inserted. *)
Theorem hosts_self_mapping_loops sys fuel (tree : Node HostValue) d hv :
  host_data (Search d tree) = Some hv → hv_Domain hv = d →
  Hosts_Search sys fuel tree d false = None.
Proof.
  intros Hd Hself. unfold Hosts_Search. rewrite Hd.
  assert (follow fuel tree false hv = None) as ->; [|done].
  induction fuel as [|fuel IH]; [done|]. simpl. by rewrite Hself, Hd.
Qed.

Lemma hosts_self_mapping_loops_witness :
  ∃ tree, parseHosts None 5 [("a.test", ["a.test"])]%string = Some (Some tree) ∧
    ∀ fuel, Hosts_Search None fuel tree "a.test" false = None.
Proof.
  destruct (parseHosts None 5 [("a.test", ["a.test"])]%string) as [[tree|]|] eqn:Hp; [|vm_compute in Hp; discriminate..].
  exists tree. split; [reflexivity|]. intros fuel.
  assert (host_data (Search "a.test" tree) = Some (mkHostValue true [] "a.test")) as Hs.
  { assert (host_data (match parseHosts None 5 [("a.test", ["a.test"])]%string with
      | Some (Some t) => Search "a.test" t | _ => None end) = Some (mkHostValue true [] "a.test")) as H
      by (vm_compute; reflexivity).
    rewrite Hp in H. exact H. }
  exact (hosts_self_mapping_loops None fuel tree "a.test" _ Hs eq_refl).
Defined.
