(* ===== verification/Rules.v ===== *)
(** * Routing rules: [rules/common], [rules/logic] and [rules/provider/rule_set.go]

    A rule is matched against the metadata of a connection, which it shares
    with the closures of the matching helper: matching may resolve the host,
    look up the process and fill the caches of geographic codes.  A rule set
    and a sub-rule list are reached through maps shared by all rules; [jump]
    is such a call, run with fuel because a configuration can make them
    circular.  Matching is a state-passing computation that can also panic. *)

From Stdlib Require Import ZArith Lia Ascii String.
From stdpp Require Import prelude strings gmap list.
From S2P Require Import Prelude Ranges Netip Wildcard FakeIP Metadata.

(** ** Rules *)

Inductive Rule :=
  | Domain (domain adapter : string)
  | DomainSuffix (suffix adapter : string)
  | DomainKeyword (keyword adapter : string)
  | DomainRegex (regex adapter : string)
  | DomainWildcard (pattern adapter : string)
  | GEOSITE (country adapter : string)
  | GEOIP (country adapter : string) (noResolveIP isSourceIP : bool)
  | ASN (asn adapter : string) (noResolveIP isSourceIP : bool)
  | IPCIDR (ipnet : Prefix) (adapter : string) (isSourceIP noResolveIP : bool)
  | IPSuffix (ipBytes : list Z) (bits : Z) (payload adapter : string) (isSourceIP noResolveIP : bool)
  | Port (adapter port : string) (ruleType : RuleType) (portRanges : IntRanges)
  | DSCP (ranges : IntRanges) (payload adapter : string)
  | InUser (users : list string) (adapter payload : string)
  | InName (names : list string) (adapter payload : string)
  | InType (types : list InboundType) (adapter payload : string)
  | Process (pattern adapter : string) (ruleType : RuleType)
  | RuleSet (ruleProviderName adapter : string) (isSrc noResolveIP : bool)
  | NetworkType (network : NetWork) (adapter : string)
  | Uid (uids : IntRanges) (oUid adapter : string)
  | Logic (payload adapter : string) (ruleType : RuleType) (rules : list Rule)
  | Match (adapter : string).

Definition Adapter (r : Rule) : string :=
  match r with
  | Domain _ a | DomainSuffix _ a | DomainKeyword _ a | DomainRegex _ a | DomainWildcard _ a
  | GEOSITE _ a | GEOIP _ a _ _ | ASN _ a _ _ | IPCIDR _ a _ _ | IPSuffix _ _ _ a _ _
  | Port a _ _ _ | DSCP _ _ a | InUser _ a _ | InName _ a _ | InType _ a _ | Process _ a _
  | RuleSet _ a _ _ | NetworkType _ a | Uid _ _ a | Logic _ a _ _ | Match a => a
  end.

Definition rule_type (r : Rule) : RuleType :=
  match r with
  | Domain _ _ => TDomain
  | DomainSuffix _ _ => TDomainSuffix
  | DomainKeyword _ _ => TDomainKeyword
  | DomainRegex _ _ => TDomainRegex
  | DomainWildcard _ _ => TDomainWildcard
  | GEOSITE _ _ => TGEOSITE
  | GEOIP _ _ _ src => if src then TSrcGEOIP else TGEOIP
  | ASN _ _ _ src => if src then TSrcIPASN else TIPASN
  | IPCIDR _ _ src _ => if src then TSrcIPCIDR else TIPCIDR
  | IPSuffix _ _ _ _ src _ => if src then TSrcIPSuffix else TIPSuffix
  | Port _ _ t _ => t
  | DSCP _ _ _ => TDSCP
  | InUser _ _ _ => TInUser
  | InName _ _ _ => TInName
  | InType _ _ _ => TInType
  | Process _ _ t => t
  | RuleSet _ _ _ _ => TRuleSet
  | NetworkType _ _ => TNetwork
  | Uid _ _ _ => TUid
  | Logic _ _ t _ => t
  | Match _ => TMATCH
  end.

Fixpoint ProviderNames (r : Rule) : list string :=
  match r with
  | RuleSet n _ _ _ => [n]
  | Logic _ _ _ rs => concat (map ProviderNames rs)
  | _ => []
  end.

(** ** Matching *)

(** What a run gives: a value, a Go panic, or no answer within the fuel. *)
Inductive outcome (A : Type) := Done (a : A) | Panic | OutOfFuel.
Arguments Done {A}. Arguments Panic {A}. Arguments OutOfFuel {A}.

(** The metadata behind the shared pointer, and what the helper's closures
    capture. *)
Record mst (X : Type) := mkSt { md : Metadata; cap : X }.
Arguments mkSt {X}. Arguments md {X}. Arguments cap {X}.

(** [RuleMatchHelper]; a nil function is [None]. *)
Record Helper (X : Type) := mkHelper {
  ResolveIP : option (mst X → mst X);
  FindProcess : option (mst X → mst X);
  CheckPassRule : option (string → Metadata → bool)
}.
Arguments mkHelper {X}. Arguments ResolveIP {X}. Arguments FindProcess {X}. Arguments CheckPassRule {X}.

(** The strategies of a rule provider; the domain and address sets answer
    through their [Has] and [IsContain], [None] for a nil set. *)
Inductive ruleStrategy :=
  | classicalStrategy (rules : list Rule)
  | domainStrategy (domainSet : option (string → bool))
  | ipcidrStrategy (cidrSet : option (Addr → bool)).

(** The databases and libraries behind the rules, and the shared maps. *)
Record Env := mkEnv {
  regexp_match : string → string → bool;
  GeodataMode : bool;
  geoip_matcher : string → option (Addr → bool);
  geosite_matcher : string → option (string → bool);
  LookupCode : list Z → list string;
  LookupASN : list Z → string * string;
  IsFakeBroadcast : Addr → bool;
  subRules : gmap string (list Rule);
  ruleProviders : gmap string (option ruleStrategy)
}.

Section Matching.
Context {X : Type}.
Implicit Types (h : Helper X) (s : mst X).

Definition M (A : Type) := mst X → outcome (A * mst X).

#[global] Instance M_ret : MRet M := λ A a s, Done (a, s).

#[global] Instance M_bind : MBind M := λ A B k m s,
  match m s with
  | Done (a, s') => k a s'
  | Panic => Panic
  | OutOfFuel => OutOfFuel
  end.

Definition panic {A} : M A := λ _, Panic.

Definition get_md : M Metadata := λ s, Done (md s, s).

Definition put_md (m : Metadata) : M unit := λ s, Done (tt, mkSt m (cap s)).

(** [if helper.f != nil { helper.f() }] *)
Definition call (f : option (mst X → mst X)) : M unit :=
  λ s, Done (tt, match f with Some f => f s | None => s end).

(** A loop that ends at the first rule with an answer. *)
Fixpoint first_match {B} (f : Rule → M (option B)) (rules : list Rule) : M (option B) :=
  match rules with
  | [] => mret None
  | r :: rules' =>
    o ← f r;
    match o with
    | Some b => mret (Some b)
    | None => first_match f rules'
    end
  end.

(** [ip := metadata.DstIP; if isSourceIP { ip = metadata.SrcIP }] *)
Definition target_ip (isSourceIP : bool) (m : Metadata) : Addr := if isSourceIP then SrcIP m else DstIP m.

Definition resolve_first (noResolveIP isSourceIP : bool) h : M unit :=
  if negb noResolveIP && negb isSourceIP then call (ResolveIP h) else mret tt.

(** *** Leaf rules *)

Definition ipcidr_match (ipnet : Prefix) (isSourceIP : bool) (m : Metadata) : bool :=
  let ip := target_ip isSourceIP m in IsValid ip && PContains ipnet (WithoutZone ip).

(** The byte loop of [IPSuffix.Match], from [i] down to 1. *)
Fixpoint suffix_bytes (i : nat) (a b : list Z) : bool :=
  match i with
  | O => true
  | S i' => bool_decide (a !! (length b - i)%nat = b !! (length b - i)%nat) && suffix_bytes i' a b
  end.

(** [None] is an index out of range. *)
Definition ipsuffix_match (ipBytes : list Z) (bits : Z) (mIPBytes : list Z) : option bool :=
  if negb (length ipBytes =? length mIPBytes)%nat then Some false
  else
    let n := Z.to_nat (bits / 8) in
    if negb (suffix_bytes n ipBytes mIPBytes) then Some false
    else
      let size := Z.of_nat (length mIPBytes) in
      if (size - bits / 8 - 1 <? 0)%Z then None
      else
        let i := Z.to_nat (size - bits / 8 - 1) in
        let sh b := @wrap uint8 (Z.shiftl b (8 - bits mod 8)) in
        match ipBytes !! i, mIPBytes !! i with
        | Some a, Some b => Some (sh a =? sh b)%Z
        | _, _ => None
        end.

Definition port_match (ruleType : RuleType) (portRanges : IntRanges) (m : Metadata) : bool :=
  let targetPort :=
    match ruleType with
    | TInPort => m_InPort m
    | TSrcPort => m_SrcPort m
    | _ => m_DstPort m
    end in
  Check portRanges targetPort.

Definition process_match (E : Env) (pattern : string) (ruleType : RuleType) (m : Metadata) : bool :=
  let target :=
    match ruleType with
    | TProcessName | TProcessNameRegex | TProcessNameWildcard => m_Process m
    | _ => m_ProcessPath m
    end in
  match ruleType with
  | TProcessNameRegex | TProcessPathRegex => regexp_match E pattern target
  | TProcessNameWildcard | TProcessPathWildcard => wildcard_Match (ToLower pattern) (ToLower target)
  | _ => EqualFold target pattern
  end.

Definition geosite_MatchDomain (E : Env) (country domain : string) : bool :=
  if bool_decide (domain = "") then false
  else match geosite_matcher E country with
       | None => false
       | Some f => f domain
       end.

Definition isLan (E : Env) (ip : Addr) : bool :=
  IsPrivate ip || IsUnspecified ip || IsLoopback ip || IsMulticast ip || IsLinkLocalUnicast ip ||
  IsFakeBroadcast E ip.

Definition geo_of (isSourceIP : bool) (m : Metadata) : option (list string) :=
  if isSourceIP then SrcGeoIP m else DstGeoIP m.

Definition put_geo (isSourceIP : bool) (g : option (list string)) (m : Metadata) : Metadata :=
  if isSourceIP then set_geo g (DstGeoIP m) (SrcIPASN m) (DstIPASN m) m
  else set_geo (SrcGeoIP m) g (SrcIPASN m) (DstIPASN m) m.

Definition in_codes (country : string) (g : option (list string)) : bool :=
  bool_decide (country ∈ default [] g).

Definition geoip_Match (E : Env) (country adapter : string) (noResolveIP isSourceIP : bool) h : M (bool * string) :=
  resolve_first noResolveIP isSourceIP h;;
  m ← get_md;
  let ip := target_ip isSourceIP m in
  let g := geo_of isSourceIP m in
  if negb (IsValid ip) then mret (false, "")
  else if bool_decide (country = "lan") then mret (isLan E ip, adapter)
  else if GeodataMode E then
    if in_codes country g then mret (true, adapter)
    else match geoip_matcher E country with
         | None => mret (false, "")
         | Some f =>
           (if f ip then put_md (put_geo isSourceIP (Some (default [] g ++ [country])) m) else mret tt);;
           mret (f ip, adapter)
         end
  else match g with
       | Some _ => mret (in_codes country g, adapter)
       | None =>
         let codes := LookupCode E (AsSlice ip) in
         put_md (put_geo isSourceIP (Some codes) m);;
         mret (if bool_decide (country ∈ codes) then (true, adapter) else (false, ""))
       end.

Definition asn_Match (E : Env) (asn adapter : string) (noResolveIP isSourceIP : bool) h : M (bool * string) :=
  resolve_first noResolveIP isSourceIP h;;
  m ← get_md;
  let ip := target_ip isSourceIP m in
  if negb (IsValid ip) then mret (false, "")
  else
    let '(n, aso) := LookupASN E (AsSlice ip) in
    let v := (n +:+ " " +:+ aso)%string in
    put_md (if isSourceIP then set_geo (SrcGeoIP m) (DstGeoIP m) v (DstIPASN m) m
            else set_geo (SrcGeoIP m) (DstGeoIP m) (SrcIPASN m) v m);;
    mret (bool_decide (asn = n), adapter).

Definition Domain_matches (domain : string) (m : Metadata) : bool := bool_decide (RuleHost m = domain).

Definition DomainSuffix_matches (suffix : string) (m : Metadata) : bool :=
  let domain := RuleHost m in HasSuffix domain ("." +:+ suffix)%string || bool_decide (domain = suffix).

Definition DomainKeyword_matches (keyword : string) (m : Metadata) : bool := Contains (RuleHost m) keyword.

Definition DomainRegex_matches (E : Env) (regex : string) (m : Metadata) : bool := regexp_match E regex (RuleHost m).

(** This one reads the host, not the sniffed one. *)
Definition DomainWildcard_matches (pattern : string) (m : Metadata) : bool := wildcard_Match pattern (Host m).

Definition GEOSITE_matches (E : Env) (country : string) (m : Metadata) : bool :=
  geosite_MatchDomain E country (RuleHost m).

Definition DSCP_matches (ranges : IntRanges) (m : Metadata) : bool := Check ranges (m_DSCP m).

Definition NetworkType_matches (network : NetWork) (m : Metadata) : bool := bool_decide (network = m_NetWork m).

(** The rules that only look at the metadata; their [Match] answers the
    adapter whether or not they match. *)
Definition pure_match (E : Env) (r : Rule) (m : Metadata) : bool :=
  match r with
  | Domain d _ => Domain_matches d m
  | DomainSuffix sf _ => DomainSuffix_matches sf m
  | DomainKeyword k _ => DomainKeyword_matches k m
  | DomainRegex re _ => DomainRegex_matches E re m
  | DomainWildcard p _ => DomainWildcard_matches p m
  | GEOSITE c _ => GEOSITE_matches E c m
  | Port _ _ t rs => port_match t rs m
  | DSCP rs _ _ => DSCP_matches rs m
  | NetworkType n _ => NetworkType_matches n m
  | Match _ => true
  | _ => false
  end.

(** The rules that answer no adapter unless they match. *)
Definition hit (b : bool) (adapter : string) : bool * string := if b then (true, adapter) else (false, "").

Definition IPCIDR_Match (ipnet : Prefix) (adapter : string) (isSourceIP noResolveIP : bool) h : M (bool * string) :=
  resolve_first noResolveIP isSourceIP h;; m ← get_md; mret (ipcidr_match ipnet isSourceIP m, adapter).

Definition IPSuffix_Match (ipBytes : list Z) (bits : Z) (adapter : string) (isSourceIP noResolveIP : bool) h
    : M (bool * string) :=
  resolve_first noResolveIP isSourceIP h;;
  m ← get_md;
  match ipsuffix_match ipBytes bits (AsSlice (target_ip isSourceIP m)) with
  | Some r => mret (hit r adapter)
  | None => panic
  end.

Definition InUser_Match (users : list string) (adapter : string) : M (bool * string) :=
  m ← get_md; mret (hit (bool_decide (m_InUser m ∈ users)) adapter).

Definition InName_Match (names : list string) (adapter : string) : M (bool * string) :=
  m ← get_md; mret (hit (bool_decide (m_InName m ∈ names)) adapter).

Definition InType_Match (types : list InboundType) (adapter : string) : M (bool * string) :=
  m ← get_md; mret (hit (bool_decide (m_Type m ∈ types)) adapter).

Definition Process_Match (E : Env) (pattern adapter : string) (ruleType : RuleType) h : M (bool * string) :=
  call (FindProcess h);; m ← get_md; mret (process_match E pattern ruleType m, adapter).

Definition Uid_Match (uids : IntRanges) (adapter : string) h : M (bool * string) :=
  call (FindProcess h);;
  m ← get_md;
  mret (hit (negb (m_Uid m =? 0)%Z && Check uids (m_Uid m)) adapter).

(** *** Rules that call on other rules *)

Inductive target := ToSubRules (name : string) | ToProvider (name : string).

Section Jump.
Variable E : Env.
Variable jump : target → Helper X → M (bool * string).

(** [getProvider] is the lookup in the tunnel's map. *)
Definition RuleSet_Match (ruleProviderName adapter : string) (isSrc noResolveIP : bool) h : M (bool * string) :=
  match ruleProviders E !! ruleProviderName with
  | None => mret (false, "")
  | Some _ =>
    let h' := if isSrc || noResolveIP then mkHelper None (FindProcess h) (CheckPassRule h) else h in
    if isSrc then
      m ← get_md; put_md (SwapSrcDst m);;
      b ← jump (ToProvider ruleProviderName) h';
      m' ← get_md; put_md (SwapSrcDst m');;
      mret (b.1, adapter)
    else b ← jump (ToProvider ruleProviderName) h'; mret (b.1, adapter)
  end.

(** [Match] of the logic rules; every other rule has its own. *)
Fixpoint rule_Match (r : Rule) h : M (bool * string) :=
  match r with
  | GEOIP c a nr src => geoip_Match E c a nr src h
  | ASN n a nr src => asn_Match E n a nr src h
  | IPCIDR net a src nr => IPCIDR_Match net a src nr h
  | IPSuffix b n _ a src nr => IPSuffix_Match b n a src nr h
  | InUser us a _ => InUser_Match us a
  | InName ns a _ => InName_Match ns a
  | InType ts a _ => InType_Match ts a
  | Process p a t => Process_Match E p a t h
  | Uid us _ a => Uid_Match us a h
  | RuleSet n a src nr => RuleSet_Match n a src nr h
  | Logic _ a TSubRules (c :: _) =>
    p ← rule_Match c h;
    if (p.1 : bool) then jump (ToSubRules a) h else mret (false, "")
  | Logic _ a TNOT (c :: _) =>
    p ← rule_Match c h;
    mret (if (p.1 : bool) then (false, "") else (true, a))
  | Logic _ _ TSubRules [] | Logic _ _ TNOT [] => panic
  | Logic _ a TOR rs =>
    o ← first_match (λ c, p ← rule_Match c h; mret (if (p.1 : bool) then Some tt else None)) rs;
    mret (match o with Some _ => (true, a) | None => (false, "") end)
  | Logic _ a TAND rs =>
    o ← first_match (λ c, p ← rule_Match c h; mret (if (p.1 : bool) then None else Some tt)) rs;
    mret (match o with Some _ => (false, a) | None => (true, a) end)
  | Logic _ _ _ _ => mret (false, "")
  | _ => m ← get_md; mret (pure_match E r m, Adapter r)
  end.

(** One turn of the loop of [matchSubRules]; a rule of type SUB-RULE that
    matched is evaluated a second time. *)
Definition sub_rule_turn h (r : Rule) : M (option (bool * string)) :=
  p ← rule_Match r h;
  if (p.1 : bool) then
    q ← (if bool_decide (rule_type r = TSubRules) then jump (ToSubRules (Adapter r)) h else mret p);
    m ← get_md;
    let passed := bool_decide (q.2 = "PASS-RULE")%string ||
                  match CheckPassRule h with Some f => f q.2 m | None => false end in
    mret (if (q.1 : bool) && passed then None else Some q)
  else mret None.

Definition sub_rules_of (name : string) : list Rule := default [] (subRules E !! name).

Definition classical_Match (rules : list Rule) h : M bool :=
  o ← first_match (λ c, p ← rule_Match c h; mret (if (p.1 : bool) then Some tt else None)) rules;
  mret (bool_decide (is_Some o)).

Definition domain_strategy_Match (domainSet : option (string → bool)) : M bool :=
  match domainSet with
  | None => mret false
  | Some has => m ← get_md; mret (has (RuleHost m))
  end.

Definition ipcidr_strategy_Match (cidrSet : option (Addr → bool)) h : M bool :=
  call (ResolveIP h);;
  m ← get_md;
  mret (match cidrSet with Some has => has (WithoutZone (DstIP m)) | None => false end).

(** [baseProvider.Match]; a nil strategy is [None]. *)
Definition provider_match (st : option ruleStrategy) h : M bool :=
  match st with
  | None => mret false
  | Some (classicalStrategy rs) => classical_Match rs h
  | Some (domainStrategy set) => domain_strategy_Match set
  | Some (ipcidrStrategy set) => ipcidr_strategy_Match set h
  end.

Definition jump_body (t : target) h : M (bool * string) :=
  match t with
  | ToSubRules name =>
    o ← first_match (sub_rule_turn h) (sub_rules_of name);
    mret (default (false, "") o)
  | ToProvider name =>
    match ruleProviders E !! name with
    | None => mret (false, "")
    | Some st => b ← provider_match st h; mret (b, "")
    end
  end.

End Jump.

(** Calls nested at most [fuel] deep. *)
Fixpoint jump (E : Env) (fuel : nat) (t : target) h : M (bool * string) :=
  match fuel with
  | O => λ _, OutOfFuel
  | S fuel' => jump_body E (jump E fuel') t h
  end.

Definition matchSubRules (E : Env) (fuel : nat) (name : string) h : M (bool * string) :=
  jump E fuel (ToSubRules name) h.

(** [Match] of a rule, calls nested at most [fuel] deep. *)
Definition run_rule (E : Env) (fuel : nat) (r : Rule) h : M (bool * string) := rule_Match E (jump E fuel) r h.

End Matching.

(** ** Lemmas *)

(** Show the steps of the rules that have a [Match] of their own. *)
Ltac unfold_rules :=
  unfold IPCIDR_Match, IPSuffix_Match, InUser_Match, InName_Match, InType_Match, Process_Match, Uid_Match,
    classical_Match, domain_strategy_Match, ipcidr_strategy_Match, RuleSet_Match.

(** Induction on rules, through the lists of logic rules. *)
Lemma Rule_rect_list (P : Rule → Prop) :
  (∀ p a t rs, Forall P rs → P (Logic p a t rs)) →
  (∀ r, (∀ p a t rs, r ≠ Logic p a t rs) → P r) →
  ∀ r, P r.
Proof.
  intros HL HO. fix IH 1. intros r. destruct r; try (apply HO; congruence).
  apply HL. induction rules as [|c rules IHr]; constructor; [apply IH|exact IHr].
Qed.

Set Default Proof Using "Type*".

Section Computations.
Context {X : Type}.
Implicit Types (s : mst X).

(** The state only moves along [R]. *)
Definition preserves {A} (R : mst X → mst X → Prop) (m : M A) : Prop :=
  ∀ s a s', m s = Done (a, s') → R s s'.

(** The fuel is enough. *)
Definition answers {A} (m : M (X:=X) A) : Prop := ∀ s, m s ≠ OutOfFuel.

Lemma bind_Done {A B} (m : M A) (k : A → M B) s b s' :
  (m ≫= k) s = Done (b, s') ↔ ∃ a s1, m s = Done (a, s1) ∧ k a s1 = Done (b, s').
Proof.
  unfold mbind, M_bind. destruct (m s) as [[a s1]| |]; split; try done; naive_solver.
Qed.

Section Preserves.
Context (R : mst X → mst X → Prop) `{!PreOrder R}.

Lemma preserves_ret {A} (a : A) : preserves R (mret a).
Proof. intros s a' s' H. injection H as <- <-. reflexivity. Qed.

Lemma preserves_panic {A} : preserves R (panic (A:=A)).
Proof. by intros s a s' H. Qed.

Lemma preserves_get : preserves R get_md.
Proof. intros s a s' H. injection H as <- <-. reflexivity. Qed.

Lemma preserves_bind {A B} (m : M A) (k : A → M B) :
  preserves R m → (∀ a, preserves R (k a)) → preserves R (m ≫= k).
Proof. intros Hm Hk s b s' (a & s1 & H1 & H2)%bind_Done. transitivity s1; [by eapply Hm|by eapply Hk]. Qed.

Lemma preserves_call f : (∀ g, f = Some g → ∀ s, R s (g s)) → preserves R (call f).
Proof.
  intros Hf s a s' H. injection H as <- <-. destruct f as [g|]; [by apply Hf|reflexivity].
Qed.

Lemma preserves_first_match {B} (f : Rule → M (option B)) rs :
  Forall (λ r, preserves R (f r)) rs → preserves R (first_match f rs).
Proof.
  induction 1 as [|r rs Hr _ IH]; simpl; [apply preserves_ret|].
  apply preserves_bind; [done|]. intros [b|]; [apply preserves_ret|done].
Qed.

End Preserves.

Lemma preserves_weaken (R R' : mst X → mst X → Prop) {A} (m : M A) :
  (∀ s s', R s s' → R' s s') → preserves R m → preserves R' m.
Proof. intros HR Hm s a s' H. by apply HR, (Hm s a). Qed.

Lemma answers_bind {A B} (m : M (X:=X) A) (k : A → M B) :
  answers m → (∀ a, answers (k a)) → answers (m ≫= k).
Proof.
  intros Hm Hk s. unfold mbind, M_bind. specialize (Hm s).
  destruct (m s) as [[a s1]| |]; [apply Hk|done|done].
Qed.

Lemma answers_ret {A} (a : A) : answers (mret a).
Proof. by intros s. Qed.

Lemma answers_panic {A} : answers (panic (A:=A)).
Proof. by intros s. Qed.

Lemma answers_get : answers get_md.
Proof. by intros s. Qed.

Lemma answers_put m : answers (put_md m).
Proof. by intros s. Qed.

Lemma answers_call f : answers (call f).
Proof. by intros s. Qed.

Lemma answers_resolve nr src h : answers (resolve_first nr src h).
Proof. unfold resolve_first. case_match; [apply answers_call|apply answers_ret]. Qed.

Lemma answers_first_match {B} (f : Rule → M (option B)) rs :
  Forall (λ r, answers (f r)) rs → answers (first_match f rs).
Proof.
  induction 1 as [|r rs Hr _ IH]; simpl; [apply answers_ret|].
  apply answers_bind; [done|]. intros [b|]; [apply answers_ret|done].
Qed.

End Computations.

(** Walk through the steps of a computation. *)
Ltac preserve := repeat first
  [ assumption
  | apply preserves_bind; [apply _| |intros ?]
  | apply preserves_ret; apply _ | apply preserves_get; apply _ | apply preserves_panic; apply _ ].

Create HintDb matching.
#[export] Hint Resolve preserves_ret preserves_panic preserves_get preserves_bind preserves_call : matching.
#[export] Hint Resolve answers_bind answers_ret answers_panic answers_get answers_put answers_call
  answers_resolve answers_first_match : matching.

(** *** What matching may change *)

Section Frame.
Context {X : Type} (E : Env).
Context (R0 R1 : mst X → mst X → Prop) `{!PreOrder R0, !PreOrder R1}.

Definition upd (f : Metadata → Metadata) (s : mst X) : mst X := mkSt (f (md s)) (cap s).

Context (Hsub : ∀ s s', R0 s s' → R1 s s').
Context (Hgeo : ∀ s sg dg sa da, R0 s (upd (set_geo sg dg sa da) s)).
Context (Hswap : ∀ s s', R0 (upd SwapSrcDst s) s' → R0 s (upd SwapSrcDst s')).

(** What the closures of the helper promise. *)
Definition good_helper (h : Helper X) : Prop :=
  (∀ f, FindProcess h = Some f → ∀ s, R0 s (f s)) ∧ (∀ f, ResolveIP h = Some f → ∀ s, R1 s (f s)).

(** The relation a match stays in: the weaker one only if it can resolve. *)
Definition frame (h : Helper X) : mst X → mst X → Prop :=
  match ResolveIP h with Some _ => R1 | None => R0 end.

#[local] Instance frame_preorder h : PreOrder (frame h).
Proof. unfold frame. by destruct (ResolveIP h). Qed.

Lemma frame_R0 h s s' : R0 s s' → frame h s s'.
Proof. unfold frame. destruct (ResolveIP h); auto. Qed.

Lemma frame_call_find h : good_helper h → preserves (frame h) (call (FindProcess h)).
Proof. intros [Hf _]. apply preserves_call; [apply _|]. intros g Hg s. by apply frame_R0, (Hf g). Qed.

Lemma frame_call_resolve h : good_helper h → preserves (frame h) (call (ResolveIP h)).
Proof.
  intros [_ Hr]. apply preserves_call; [apply _|]. intros g Hg s. unfold frame. rewrite Hg. by apply (Hr g).
Qed.

Lemma frame_resolve_first nr src h : good_helper h → preserves (frame h) (resolve_first nr src h).
Proof.
  intros Hh. unfold resolve_first. case_match; [by apply frame_call_resolve|apply preserves_ret; apply _].
Qed.

(** Reading the metadata and writing geographic results back. *)
Lemma frame_geo {A} h (f : Metadata → M A) :
  (∀ s a s', f (md s) s = Done (a, s') → ∃ sg dg sa da, s' = upd (set_geo sg dg sa da) s) →
  preserves (frame h) (m ← get_md; f m).
Proof.
  intros Hf s a s' (m & s1 & H1 & H2)%bind_Done. injection H1 as <- <-.
  destruct (Hf _ _ _ H2) as (sg & dg & sa & da & ->). apply frame_R0, Hgeo.
Qed.

Lemma set_geo_same s : s = upd (set_geo (SrcGeoIP (md s)) (DstGeoIP (md s)) (SrcIPASN (md s)) (DstIPASN (md s))) s.
Proof. by destruct s as [[] ?]. Qed.

Lemma put_geo_set src g m : put_geo src g m = set_geo (if src then g else SrcGeoIP m) (if src then DstGeoIP m else g)
  (SrcIPASN m) (DstIPASN m) m.
Proof. by destruct src. Qed.

Lemma geoip_frame c a nr src h : good_helper h → preserves (frame h) (geoip_Match E c a nr src h).
Proof.
  intros Hh. unfold geoip_Match. apply preserves_bind; [apply _|by apply frame_resolve_first|intros _].
  apply frame_geo. intros s b s'.
  repeat (case_match; try (intros H'; injection H' as <- <-; eauto using set_geo_same; fail)).
  all: intros H'; apply bind_Done in H' as ([] & s1 & Hm1 & Hm2); injection Hm2 as <- <-.
  all: injection Hm1 as <-; eauto using set_geo_same; rewrite put_geo_set; by repeat eexists.
Qed.

Lemma asn_frame n a nr src h : good_helper h → preserves (frame h) (asn_Match E n a nr src h).
Proof.
  intros Hh. unfold asn_Match. apply preserves_bind; [apply _|by apply frame_resolve_first|intros _].
  apply frame_geo. intros s b s'. case_match; [intros H'; injection H' as <- <-; eauto using set_geo_same|].
  destruct (LookupASN E _) as [n' aso]. intros H'; apply bind_Done in H' as ([] & s1 & H1 & H2).
  injection H2 as <- <-. injection H1 as <-. destruct src; by repeat eexists.
Qed.

Section JumpFrame.
Context (jmp : target → Helper X → M (X:=X) (bool * string)).
Context (Hjmp : ∀ t h, good_helper h → preserves (frame h) (jmp t h)).

Lemma rule_set_frame n a src nr h :
  good_helper h → preserves (frame h) (rule_Match E jmp (RuleSet n a src nr) h).
Proof.
  intros Hh. simpl. unfold_rules. destruct (ruleProviders E !! n); [|apply preserves_ret; apply _].
  set (h' := if src || nr then _ else h).
  assert (good_helper h') as Hh' by (unfold h'; case_match; [split; [apply Hh|done]|done]).
  destruct src; simpl in *.
  - intros s b s' H. apply bind_Done in H as (m & s1 & H1 & H). injection H1 as <- <-.
    apply bind_Done in H as ([] & s2 & H2 & H). injection H2 as <-.
    apply bind_Done in H as (v & s3 & H3 & H). apply bind_Done in H as (m' & s4 & H4 & H).
    injection H4 as <- <-. apply bind_Done in H as ([] & s5 & H5 & H). injection H5 as <-.
    injection H as <- <-. apply (Hjmp _ _ Hh') in H3. apply frame_R0. by apply (Hswap s s3) in H3.
  - apply preserves_bind; [apply _| |intros; apply preserves_ret; apply _].
    destruct nr; simpl in *; [|by apply Hjmp].
    eapply preserves_weaken; [|by apply (Hjmp (ToProvider n) h')]. intros s s'. apply frame_R0.
Qed.

Lemma rule_frame r h : good_helper h → preserves (frame h) (rule_Match E jmp r h).
Proof.
  intros Hh. induction r as [p a t rs IH|r Hr] using Rule_rect_list.
  - destruct t; simpl; try (preserve; fail).
    + destruct rs as [|c rs]; preserve; inversion_clear IH; preserve. case_match; preserve. by apply Hjmp.
    + preserve. apply preserves_first_match; [apply _|]. eapply Forall_impl; [exact IH|]. intros; preserve.
    + preserve. apply preserves_first_match; [apply _|]. eapply Forall_impl; [exact IH|]. intros; preserve.
    + destruct rs as [|c rs]; preserve; inversion_clear IH; preserve.
  - destruct r; try (by destruct (Hr payload adapter ruleType rules)); try (simpl; unfold_rules; preserve; fail).
    + by apply geoip_frame.
    + by apply asn_frame.
    + simpl. unfold_rules. preserve. by apply frame_resolve_first.
    + simpl. unfold_rules. preserve; [by apply frame_resolve_first|]. case_match; preserve.
    + simpl. unfold_rules. preserve. by apply frame_call_find.
    + by apply rule_set_frame.
    + simpl. unfold_rules. preserve. by apply frame_call_find.
Qed.

Lemma jump_body_frame t h : good_helper h → preserves (frame h) (jump_body E jmp t h).
Proof.
  intros Hh. destruct t as [name|name]; simpl.
  - preserve. apply preserves_first_match; [apply _|]. apply Forall_true. intros r. unfold sub_rule_turn.
    preserve; [by apply rule_frame|]. case_match; preserve. case_bool_decide; preserve. by apply Hjmp.
  - destruct (ruleProviders E !! name) as [[[rs|[f|]|set]|]|]; preserve; simpl; unfold_rules; preserve.
    + apply preserves_first_match; [apply _|]. apply Forall_true. intros r. preserve. by apply rule_frame.
    + by apply frame_call_resolve.
Qed.

End JumpFrame.

Lemma jump_frame fuel t h : good_helper h → preserves (frame h) (jump E fuel t h).
Proof.
  revert t h. induction fuel as [|fuel IH]; intros t h Hh; simpl; [by intros ???|].
  by apply jump_body_frame.
Qed.

Lemma run_rule_frame fuel r h : good_helper h → preserves (frame h) (run_rule E fuel r h).
Proof. intros Hh. apply rule_frame; [|done]. intros t h'. apply jump_frame. Qed.

End Frame.

(** *** Which calls a rule makes *)

Fixpoint targets (r : Rule) : list target :=
  match r with
  | RuleSet n _ _ _ => [ToProvider n]
  | Logic _ a TSubRules (c :: _) => ToSubRules a :: targets c
  | Logic _ _ TNOT (c :: _) => targets c
  | Logic _ _ _ rs => concat (map targets rs)
  | _ => []
  end.

(** The calls of one turn of [matchSubRules]. *)
Definition turn_targets (r : Rule) : list target :=
  (if bool_decide (rule_type r = TSubRules) then [ToSubRules (Adapter r)] else []) ++ targets r.

(** The calls a list or a provider makes. *)
Definition calls_of (E : Env) (t : target) : list target :=
  match t with
  | ToSubRules name => concat (map turn_targets (sub_rules_of E name))
  | ToProvider name =>
    match ruleProviders E !! name with
    | Some (Some (classicalStrategy rs)) => concat (map targets rs)
    | _ => []
    end
  end.

Section Answers.
Context {X : Type} (E : Env) (jmp : target → Helper X → M (X:=X) (bool * string)).
Implicit Types (h : Helper X).

Definition jump_answers (ts : list target) : Prop := ∀ t, t ∈ ts → ∀ h, answers (jmp t h).

Lemma geoip_answers c a nr src h : answers (geoip_Match E c a nr src h).
Proof.
  unfold geoip_Match. apply answers_bind; [apply answers_resolve|intros _].
  apply answers_bind; [apply answers_get|intros m]. repeat case_match; auto with matching.
Qed.

Lemma asn_answers n a nr src h : answers (asn_Match E n a nr src h).
Proof.
  unfold asn_Match. apply answers_bind; [apply answers_resolve|intros _].
  apply answers_bind; [apply answers_get|intros m]. repeat case_match; auto with matching.
Qed.

Lemma jump_answers_concat {A} (f : A → list target) l x :
  jump_answers (concat (map f l)) → x ∈ l → jump_answers (f x).
Proof. intros H Hx t Ht. apply H, elem_of_concat. exists (f x). split; [done|]. by apply list_elem_of_fmap_2. Qed.

Lemma first_rules_answers {B} (f : Rule → M (X:=X) (option B)) rs :
  (∀ c, c ∈ rs → answers (f c)) → answers (first_match f rs).
Proof. intros H. by apply answers_first_match, Forall_forall. Qed.

Lemma rule_answers r : jump_answers (targets r) → ∀ h, answers (rule_Match E jmp r h).
Proof.
  induction r as [p a t rs IH|r Hr] using Rule_rect_list; intros Ht h.
  - assert (∀ c, jump_answers (concat (map targets rs)) → c ∈ rs → answers (rule_Match E jmp c h)) as Hc.
    { intros c Hall Hc. rewrite Forall_forall in IH. apply IH; [done|]. by eapply jump_answers_concat. }
    destruct t; simpl; try apply answers_ret.
    + destruct rs as [|c rs]; [apply answers_panic|]. inversion_clear IH as [|?? Hhd Htl].
      apply answers_bind; [apply Hhd|].
      * intros t Hin. apply Ht. by apply list_elem_of_further.
      * intros q. case_match; [|apply answers_ret]. apply Ht. by apply list_elem_of_here.
    + apply answers_bind; [|intros; apply answers_ret]. apply first_rules_answers. intros c Hin.
      apply answers_bind; [by apply Hc|intros; apply answers_ret].
    + apply answers_bind; [|intros; apply answers_ret]. apply first_rules_answers. intros c Hin.
      apply answers_bind; [by apply Hc|intros; apply answers_ret].
    + destruct rs as [|c rs]; [apply answers_panic|]. inversion_clear IH as [|?? Hhd Htl].
      apply answers_bind; [by apply Hhd|intros; apply answers_ret].
  - destruct r; try (by destruct (Hr payload adapter ruleType rules)); simpl; unfold_rules; try (auto 10 with matching; fail).
    + apply geoip_answers.
    + apply asn_answers.
    + apply answers_bind; [apply answers_resolve|intros _]. apply answers_bind; [apply answers_get|intros m].
      case_match; auto with matching.
    + destruct (ruleProviders E !! ruleProviderName); [|apply answers_ret].
      assert (∀ h', answers (jmp (ToProvider ruleProviderName) h')) as Hj by (intros; apply Ht, list_elem_of_here).
      destruct isSrc; auto 10 with matching.
Qed.

Lemma jump_body_answers t : jump_answers (calls_of E t) → ∀ h, answers (jump_body E jmp t h).
Proof.
  intros Ht h. destruct t as [name|name]; simpl in *.
  - apply answers_bind; [|intros; apply answers_ret]. apply first_rules_answers. intros c Hc.
    assert (jump_answers (turn_targets c)) as Hturn by (by eapply jump_answers_concat).
    unfold sub_rule_turn. apply answers_bind.
    + apply rule_answers. intros t Hin. apply Hturn. unfold turn_targets. set_solver.
    + intros q. case_match; [|apply answers_ret]. apply answers_bind; [|auto with matching].
      case_bool_decide as Hsub; [|apply answers_ret]. apply Hturn. unfold turn_targets.
      rewrite bool_decide_eq_true_2 by done. apply list_elem_of_here.
  - destruct (ruleProviders E !! name) as [[[rs|[f|]|set]|]|]; simpl; unfold_rules; auto 10 with matching.
    apply answers_bind; [|intros; apply answers_ret].
    apply answers_bind; [|intros; apply answers_ret]. apply first_rules_answers. intros c Hc.
    apply answers_bind; [|intros; apply answers_ret]. apply rule_answers. by eapply jump_answers_concat.
Qed.

End Answers.

(** Calls of a known depth end with that much fuel. *)
Inductive call_depth (E : Env) : nat → target → Prop :=
  call_depth_intro n t : (∀ t', t' ∈ calls_of E t → call_depth E n t') → call_depth E (S n) t.

Lemma jump_answers_depth {X} (E : Env) n t (h : Helper X) : call_depth E n t → answers (jump E n t h).
Proof.
  intros Hd. revert h. induction Hd as [n t _ IH]. intros h. simpl.
  apply jump_body_answers. intros t' Ht' h'. by apply IH.
Qed.

Lemma call_depth_mono E n m t : call_depth E n t → n ≤ m → call_depth E m t.
Proof.
  intros Hd. revert m. induction Hd as [n t _ IH]. intros [|m] Hm; [lia|].
  constructor. intros t' Ht'. apply IH; [done|lia].
Qed.

(** *** Rules without effects *)

(** Neither closures nor caches nor other rule lists are involved. *)
Fixpoint stateless (r : Rule) : bool :=
  match r with
  | GEOIP _ _ _ _ | ASN _ _ _ _ | RuleSet _ _ _ _ => false
  | IPSuffix b n _ _ _ _ => (0 <=? n)%Z && (n <? 8 * Z.of_nat (length b))%Z
  | Logic _ _ t rs =>
    match t, rs with
    | TOR, _ | TAND, _ => forallb stateless rs
    | TNOT, [c] => stateless c
    | _, _ => false
    end
  | _ => true
  end.

(** Matching the rule may resolve the host. *)
Fixpoint asks_ip (r : Rule) : bool :=
  match r with
  | IPCIDR _ _ src nr | IPSuffix _ _ _ _ src nr => negb nr && negb src
  | Logic _ _ _ rs => existsb asks_ip rs
  | _ => false
  end.

(** Matching the rule may look up the process. *)
Fixpoint asks_process (r : Rule) : bool :=
  match r with
  | Process _ _ _ | Uid _ _ _ => true
  | Logic _ _ _ rs => existsb asks_process rs
  | _ => false
  end.

(** What a rule says of a connection. *)
Fixpoint holds (E : Env) (m : Metadata) (r : Rule) : bool :=
  match r with
  | IPCIDR net _ src _ => ipcidr_match net src m
  | IPSuffix b n _ _ src _ => bool_decide (ipsuffix_match b n (AsSlice (target_ip src m)) = Some true)
  | InUser us _ _ => bool_decide (m_InUser m ∈ us)
  | InName ns _ _ => bool_decide (m_InName m ∈ ns)
  | InType ts _ _ => bool_decide (m_Type m ∈ ts)
  | Process p _ t => process_match E p t m
  | Uid us _ _ => negb (m_Uid m =? 0)%Z && Check us (m_Uid m)
  | Logic _ _ TNOT (c :: _) => negb (holds E m c)
  | Logic _ _ TOR rs => existsb (holds E m) rs
  | Logic _ _ TAND rs => forallb (holds E m) rs
  | _ => pure_match E r m
  end.

Lemma ipsuffix_total b n ip : (0 ≤ n < 8 * Z.of_nat (length b))%Z → is_Some (ipsuffix_match b n ip).
Proof.
  intros Hn. unfold ipsuffix_match. destruct (Nat.eqb_spec (length b) (length ip)) as [Hl|]; simpl; [|eauto].
  destruct (suffix_bytes _ _ _); simpl; [|eauto].
  assert (0 ≤ n / 8 < Z.of_nat (length ip))%Z.
  { rewrite <- Hl. split; [apply Z.div_pos; lia|apply Z.div_lt_upper_bound; lia]. }
  destruct (Z.ltb_spec (Z.of_nat (length ip) - n / 8 - 1) 0); [lia|].
  destruct (lookup_lt_is_Some_2 b (Z.to_nat (Z.of_nat (length ip) - n / 8 - 1))) as [x ->]; [lia|].
  destruct (lookup_lt_is_Some_2 ip (Z.to_nat (Z.of_nat (length ip) - n / 8 - 1))) as [y ->]; [lia|]. eauto.
Qed.

Lemma eqb_false_negb b : Bool.eqb b false = negb b.
Proof. by destruct b. Qed.

Lemma eqb_true_id b : Bool.eqb b true = b.
Proof. by destruct b. Qed.

Lemma first_match_ext {X B} (f g : Rule → M (X:=X) (option B)) rs (s : mst X) :
  (∀ r s, f r s = g r s) → first_match f rs s = first_match g rs s.
Proof.
  intros H. revert s. induction rs as [|r rs IH]; intros s; simpl; [done|].
  unfold mbind, M_bind. rewrite H. destruct (g r s) as [[[b|] s']| |]; simpl; auto.
Qed.

Section Stateless.
Context {X : Type} (E : Env) (jmp : target → Helper X → M (X:=X) (bool * string)).
Context (h : Helper X).

(** The closures of the helper that the rule calls, if there are any, leave
    the state as it is. *)
Definition quiet (r : Rule) (s : mst X) : Prop :=
  (asks_ip r = true → ∀ f, ResolveIP h = Some f → f s = s) ∧
  (asks_process r = true → ∀ f, FindProcess h = Some f → f s = s).

Lemma quiet_nested p a t rs s : quiet (Logic p a t rs) s → Forall (λ r, quiet r s) rs.
Proof.
  intros [H1 H2]. apply Forall_forall. intros r Hr%list_elem_of_In.
  split; intros Ha; [apply H1|apply H2]; simpl; apply existsb_exists; eauto.
Qed.

(** [r] answers [b], its own adapter if it matches, and leaves the state. *)
Definition answer_is (r : Rule) (s : mst X) (b : bool) : Prop :=
  ∃ a, rule_Match E jmp r h s = Done ((b, a), s) ∧ (b = true → a = Adapter r).

Lemma call_quiet f (s : mst X) : (∀ g, f = Some g → g s = s) → call f s = Done (tt, s).
Proof. intros Hf. unfold call. destruct f as [g|]; [by rewrite (Hf g)|done]. Qed.

Lemma resolve_first_quiet nr src s :
  (negb nr && negb src = true → ∀ f, ResolveIP h = Some f → f s = s) → resolve_first nr src h s = Done (tt, s).
Proof. intros HR. unfold resolve_first. case_match; [by apply call_quiet, HR|done]. Qed.

Lemma first_match_answers rs s (want : bool) :
  Forall (λ r, answer_is r s (holds E (md s) r)) rs →
  first_match (λ c, p ← rule_Match E jmp c h; mret (if Bool.eqb p.1 want then Some tt else None)) rs s =
  Done (if existsb (λ r, Bool.eqb (holds E (md s) r) want) rs then Some tt else None, s).
Proof.
  induction 1 as [|r rs (a & Hr & _) _ IH]; simpl; [done|].
  unfold mbind, M_bind. unfold mbind, M_bind in Hr. rewrite Hr. simpl.
  destruct (Bool.eqb (holds E (md s) r) want); simpl; [done|]. exact IH.
Qed.

Lemma stateless_answers r s : quiet r s → stateless r = true → answer_is r s (holds E (md s) r).
Proof.
  induction r as [p a t rs IH|r Hr] using Rule_rect_list; intros Hq Hst.
  - apply quiet_nested in Hq.
    assert (forallb stateless rs = true → Forall (λ r, answer_is r s (holds E (md s) r)) rs) as Hall.
    { intros Hf. rewrite forallb_forall in Hf. rewrite Forall_forall in IH. rewrite Forall_forall in Hq.
      apply Forall_forall. intros c Hc. apply IH; [done|by apply Hq|]. apply Hf. by apply list_elem_of_In. }
    destruct t; try done; unfold answer_is; simpl in *.
    + exists a. unfold mbind at 1, M_bind at 1.
      erewrite (first_match_ext _ (λ c, p ← rule_Match E jmp c h; mret (if Bool.eqb p.1 false then Some tt else None))).
      2:{ intros c s'. unfold mbind, M_bind. by destruct (rule_Match E jmp c h s') as [[[[] ?] ?]| |]. }
      rewrite (first_match_answers rs s false (Hall Hst)). split.
      * unfold mret, M_ret. do 2 f_equal.
        rewrite forallb_negb_existsb.
        erewrite (existsb_ext_all (λ r, Bool.eqb (holds E (md s) r) false)); [|intros c; apply eqb_false_negb].
        by destruct (existsb _ rs).
      * done.
    + eexists (if existsb (holds E (md s)) rs then a else ""). unfold mbind at 1, M_bind at 1.
      erewrite (first_match_ext _ (λ c, p ← rule_Match E jmp c h; mret (if Bool.eqb p.1 true then Some tt else None))).
      2:{ intros c s'. unfold mbind, M_bind. by destruct (rule_Match E jmp c h s') as [[[[] ?] ?]| |]. }
      rewrite (first_match_answers rs s true (Hall Hst)). 
      erewrite (existsb_ext_all (λ r, Bool.eqb (holds E (md s) r) true)); [|intros c; apply eqb_true_id].
      split; [by destruct (existsb _ rs)|by intros ->].
    + destruct rs as [|c [|]]; try done. inversion_clear IH as [|?? Hc _]. inversion_clear Hq as [|?? Hqc _].
      destruct (Hc Hqc Hst) as (a' & Hm & _). exists (if holds E (md s) c then "" else a).
      unfold mbind, M_bind. rewrite Hm. simpl. destruct (holds E (md s) c); by split.
  - destruct r; try (by destruct (Hr payload adapter ruleType rules)); try done; unfold answer_is.
    all: try (eexists; split; [reflexivity|done]).
    + eexists. simpl. unfold_rules. unfold mbind, M_bind. rewrite resolve_first_quiet by apply Hq. by split.
    + simpl in Hst. apply andb_true_iff in Hst as [H1%Z.leb_le H2%Z.ltb_lt].
      destruct (ipsuffix_total ipBytes bits (AsSlice (target_ip isSourceIP (md s)))) as [b Hb]; [lia|].
      exists (if b then adapter else ""). simpl. unfold_rules. unfold mbind, M_bind. rewrite resolve_first_quiet by apply Hq. simpl.
      rewrite Hb. by destruct b.
    + exists (if bool_decide (m_InUser (md s) ∈ users) then adapter else "").
      simpl. unfold_rules. unfold mbind, M_bind, hit. simpl. case_bool_decide; by split.
    + exists (if bool_decide (m_InName (md s) ∈ names) then adapter else "").
      simpl. unfold_rules. unfold mbind, M_bind, hit. simpl. case_bool_decide; by split.
    + exists (if bool_decide (m_Type (md s) ∈ types) then adapter else "").
      simpl. unfold_rules. unfold mbind, M_bind, hit. simpl. case_bool_decide; by split.
    + eexists. simpl. unfold_rules. unfold mbind, M_bind. rewrite call_quiet by by apply Hq. by split.
    + exists (if negb (m_Uid (md s) =? 0)%Z && Check uids (m_Uid (md s)) then adapter else "").
      simpl. unfold_rules. unfold mbind, M_bind, hit. rewrite call_quiet by by apply Hq. simpl. by destruct (negb _ && _).
Qed.

End Stateless.

(** *** Suffixes of addresses *)

Lemma be_bytes_lookup n v k :
  (k < n)%nat → be_bytes n v !! (n - k - 1)%nat = Some ((v / 2 ^ (8 * Z.of_nat k)) mod 256)%Z.
Proof.
  revert k. induction n as [|n IH]; intros k Hk; [lia|]. simpl be_bytes.
  destruct (decide (k = n)) as [->|Hne].
  - replace (S n - n - 1)%nat with 0%nat by lia. done.
  - replace (S n - k - 1)%nat with (S (n - k - 1))%nat by lia. simpl. apply IH. lia.
Qed.

Lemma mod_pow_split v k r : (0 ≤ k)%Z → (0 ≤ r)%Z →
  (v mod 2 ^ (k + r) = v mod 2 ^ k + 2 ^ k * ((v / 2 ^ k) mod 2 ^ r))%Z.
Proof.
  intros Hk Hr. rewrite Z.pow_add_r by done.
  apply Z.rem_mul_r; [apply Z.pow_nonzero; lia|apply Z.pow_pos_nonneg; lia].
Qed.

(** Equality of the low [k + r] bits, in two parts. *)
Lemma mod_pow_eq_split v w k r : (0 ≤ k)%Z → (0 ≤ r)%Z →
  (v mod 2 ^ (k + r) = w mod 2 ^ (k + r) ↔
   v mod 2 ^ k = w mod 2 ^ k ∧ (v / 2 ^ k) mod 2 ^ r = (w / 2 ^ k) mod 2 ^ r)%Z.
Proof.
  intros Hk Hr. rewrite !(mod_pow_split _ k r) by done.
  pose proof (Z.pow_pos_nonneg 2 k ltac:(lia) Hk).
  pose proof (Z.mod_pos_bound v (2 ^ k) ltac:(lia)). pose proof (Z.mod_pos_bound w (2 ^ k) ltac:(lia)).
  split; [|by intros [-> ->]]. intros Heq.
  set (a := (v mod 2 ^ k)%Z) in *. set (b := (w mod 2 ^ k)%Z) in *.
  set (x := ((v / 2 ^ k) mod 2 ^ r)%Z) in *. set (y := ((w / 2 ^ k) mod 2 ^ r)%Z) in *.
  destruct (Z.lt_trichotomy x y) as [Hxy|[Hxy|Hxy]]; [|split; [lia|done]|]; exfalso.
  - assert (2 ^ k * (y - x) >= 2 ^ k * 1)%Z by (apply Z.le_ge, Z.mul_le_mono_nonneg_l; lia). lia.
  - assert (2 ^ k * (x - y) >= 2 ^ k * 1)%Z by (apply Z.le_ge, Z.mul_le_mono_nonneg_l; lia). lia.
Qed.

Lemma suffix_bytes_spec n k v w :
  (k ≤ n)%nat →
  suffix_bytes k (be_bytes n v) (be_bytes n w) = true ↔
  (v mod 2 ^ (8 * Z.of_nat k) = w mod 2 ^ (8 * Z.of_nat k))%Z.
Proof.
  induction k as [|k IH]; intros Hk.
  - simpl. by rewrite !Z.mod_1_r.
  - cbn [suffix_bytes]. rewrite andb_true_iff, bool_decide_eq_true, IH by lia.
    rewrite be_bytes_length. replace (n - S k)%nat with (n - k - 1)%nat by lia.
    rewrite !be_bytes_lookup by lia.
    replace (8 * Z.of_nat (S k))%Z with (8 * Z.of_nat k + 8)%Z by lia.
    rewrite mod_pow_eq_split by lia. split.
    + intros [H1 H2]. injection H1 as H1. by split.
    + intros [H1 H2]. split; [by f_equal|done].
Qed.

(** Shifting a byte left by [8 - r] keeps its low [r] bits. *)
Lemma shift_byte_eq a b r : (0 ≤ r < 8)%Z →
  (@wrap uint8 (Z.shiftl a (8 - r)) =? @wrap uint8 (Z.shiftl b (8 - r)))%Z = bool_decide (a mod 2 ^ r = b mod 2 ^ r)%Z.
Proof.
  intros Hr. unfold wrap, tmin. cbn [it_width it_signed uint8]. rewrite !Z.shiftl_mul_pow2, !Z.sub_0_r, !Z.add_0_r by lia.
  assert (2 ^ 8 = 2 ^ r * 2 ^ (8 - r))%Z as -> by (rewrite <- Z.pow_add_r by lia; by replace (r + (8 - r))%Z with 8%Z by lia).
  pose proof (Z.pow_pos_nonneg 2 (8 - r) ltac:(lia) ltac:(lia)).
  pose proof (Z.pow_pos_nonneg 2 r ltac:(lia) ltac:(lia)).
  rewrite !Z.mul_mod_distr_r by lia.
  case_bool_decide as Heq; [rewrite Heq; apply Z.eqb_refl|].
  apply Z.eqb_neq. intros Hm. apply Heq. by apply Z.mul_cancel_r in Hm; [|lia].
Qed.

Lemma ipsuffix_bytes n bits v w :
  (0 ≤ bits < 8 * Z.of_nat n)%Z →
  ipsuffix_match (be_bytes n v) bits (be_bytes n w) = Some (bool_decide (v mod 2 ^ bits = w mod 2 ^ bits)%Z).
Proof.
  intros Hb. unfold ipsuffix_match. rewrite !be_bytes_length, Nat.eqb_refl. simpl.
  set (k := Z.to_nat (bits / 8)). set (r := (bits mod 8)%Z).
  assert (0 ≤ bits / 8 < Z.of_nat n)%Z as Hk.
  { split; [apply Z.div_pos; lia|apply Z.div_lt_upper_bound; lia]. }
  assert (bits = 8 * Z.of_nat k + r)%Z as Hsplit.
  { unfold k, r. rewrite Z2Nat.id by lia. apply Z.div_mod. lia. }
  assert (0 ≤ r < 8)%Z as Hr by (apply Z.mod_pos_bound; lia).
  assert (bits / 8 = Z.of_nat k)%Z as Hdiv by (unfold k; lia). rewrite Hdiv in Hk |- *.
  destruct (Z.ltb_spec (Z.of_nat n - Z.of_nat k - 1) 0); [lia|].
  replace (Z.to_nat (Z.of_nat n - Z.of_nat k - 1)) with (n - k - 1)%nat by lia.
  rewrite !be_bytes_lookup, shift_byte_eq by lia.
  assert (∀ x, (x mod 256) mod 2 ^ r = x mod 2 ^ r)%Z as Hmm.
  { intros x. symmetry. apply Znumtheory.Zmod_div_mod; [apply Z.pow_pos_nonneg; lia|lia|].
    exists (2 ^ (8 - r))%Z. rewrite <- Z.pow_add_r by lia. by replace (8 - r + r)%Z with 8%Z by lia. }
  rewrite !Hmm.
  pose proof (suffix_bytes_spec n k v w ltac:(lia)) as Hs.
  pose proof (mod_pow_eq_split v w (8 * Z.of_nat k) r ltac:(lia) ltac:(lia)) as Hm. rewrite <- Hsplit in Hm.
  destruct (suffix_bytes k (be_bytes n v) (be_bytes n w)); simpl; f_equal.
  - apply bool_decide_ext. rewrite Hm. naive_solver.
  - case_bool_decide as Heq; [|done]. exfalso. apply Hm in Heq as [Heq _]. by apply Hs in Heq.
Qed.

(** The family of an address as a number of bytes. *)
Definition addr_size (a : Addr) : nat := match a with NoAddr => 0 | Addr4 _ => 4 | Addr6 _ _ => 16 end.

Lemma AsSlice_be a : AsSlice a = be_bytes (addr_size a) (addr_val a).
Proof. by destruct a. Qed.

(** An IP-SUFFIX rule of [bits] bits matches an address exactly when both
    are of one family and agree on the low [bits] bits; but with the full width
    ([/32], [/128]) the comparison of the remaining bits indexes one byte before
    the address, so a connection to that very address panics. *)
Theorem ipsuffix_low_bits a ip bits :
  addr_wf a → addr_wf ip → (0 ≤ bits ≤ BitLen a)%Z → IsValid a = true →
  ipsuffix_match (AsSlice a) bits (AsSlice ip) =
  if bool_decide (BitLen a = BitLen ip) then
    if bool_decide (bits = BitLen a) then
      if bool_decide (addr_val a = addr_val ip) then None else Some false
    else Some (bool_decide (addr_val a mod 2 ^ bits = addr_val ip mod 2 ^ bits)%Z)
  else Some false.
Proof.
  intros Ha Hip Hb Hv. rewrite !AsSlice_be.
  assert (∀ x, BitLen x = 8 * Z.of_nat (addr_size x))%Z as Hbl by (by intros []).
  case_bool_decide as Hfam.
  - rewrite !Hbl in Hfam. replace (addr_size ip) with (addr_size a) by lia. rewrite Hbl in Hb.
    case_bool_decide as Hfull.
    + subst bits. unfold ipsuffix_match. rewrite !be_bytes_length, Nat.eqb_refl, Hbl. simpl.
      rewrite (Z.mul_comm 8), Z.div_mul, Nat2Z.id by lia.
      pose proof (suffix_bytes_spec (addr_size a) (addr_size a) (addr_val a) (addr_val ip) ltac:(lia)) as Hs.
      unfold addr_wf in *. rewrite Hbl in Ha. rewrite Hbl in Hip.
      replace (Z.of_nat (addr_size ip)) with (Z.of_nat (addr_size a)) in Hip by lia.
      rewrite !Z.mod_small in Hs by done.
      destruct (suffix_bytes _ _ _); simpl.
      * destruct (Z.ltb_spec (Z.of_nat (addr_size a) - Z.of_nat (addr_size a) - 1) 0); [|lia].
        rewrite bool_decide_eq_true_2; [done|]. by apply Hs.
      * rewrite bool_decide_eq_false_2; [done|]. intros Heq. by apply Hs in Heq.
    + rewrite Hbl in Hfull. apply ipsuffix_bytes. lia.
  - unfold ipsuffix_match. rewrite !be_bytes_length.
    destruct (Nat.eqb_spec (addr_size a) (addr_size ip)) as [Heq|]; [|done].
    destruct Hfam. by rewrite !Hbl, Heq.
Qed.

Lemma ipsuffix_low_bits_witness :
  ipsuffix_match (AsSlice (Addr4 134744072)) 32 (AsSlice (Addr4 134744072)) = None.
Proof.
  rewrite (ipsuffix_low_bits (Addr4 134744072) (Addr4 134744072) 32);
    [reflexivity|unfold addr_wf; simpl; lia..|reflexivity].
Defined.

(** ** Properties of matching *)

Lemma bind_fuel {X A B} (m : M (X:=X) A) (k : A → M B) s : m s = OutOfFuel → (m ≫= k) s = OutOfFuel.
Proof. intros H. unfold mbind, M_bind. by rewrite H. Qed.

Lemma bind_step {X A B} (m : M (X:=X) A) (k : A → M B) s a s1 : m s = Done (a, s1) → (m ≫= k) s = k a s1.
Proof. intros H. unfold mbind, M_bind. by rewrite H. Qed.

(** A list of one rule that matches and is not passed over. *)
Lemma jump_single {X} (E : Env) fuel name r (h : Helper X) s p s1 q s2 :
  subRules E !! name = Some [r] → CheckPassRule h = None →
  rule_Match E (jump E fuel) r h s = Done (p, s1) → p.1 = true →
  (if bool_decide (rule_type r = TSubRules) then jump E fuel (ToSubRules (Adapter r)) h else mret p) s1 = Done (q, s2) →
  q.2 ≠ "PASS-RULE"%string →
  jump E (S fuel) (ToSubRules name) h s = Done (q, s2).
Proof.
  intros Hn Hc Hr Hp Hq Hpass. cbn [jump jump_body]. unfold sub_rules_of. rewrite Hn. cbn [default from_option id].
  assert (sub_rule_turn E (jump E fuel) h r s = Done (Some q, s2)) as Ht.
  { unfold sub_rule_turn. rewrite (bind_step _ _ _ _ _ Hr), Hp, (bind_step _ _ _ _ _ Hq).
    rewrite (bind_step get_md _ s2 (md s2) s2 eq_refl), Hc, bool_decide_eq_false_2 by done.
    simpl. by rewrite andb_false_r. }
  cbn [first_match]. unfold mbind, M_bind. by rewrite Ht.
Qed.


Definition demo_env (sr : gmap string (list Rule)) (rp : gmap string (option ruleStrategy)) : Env :=
  mkEnv (λ _ _, false) false (λ _, None) (λ _, None) (λ _, []) (λ _, ("", "")) (λ _, false) sr rp.

Definition demo_md : Metadata :=
  mkMetadata TCP HTTP (Addr4 1) (Addr4 2) None None "" "" 1000 443 NoAddr 7890 "" "" "www.example.com"
    DNSNormal 0 "curl" "/bin/curl" "" "" "" 0 "".

Definition demo_rule : Rule :=
  Logic "" "PROXY" TAND
    [DomainSuffix "example.com" ""; Logic "" "" TNOT [NetworkType UDP ""]].

(** A helper whose closures do change the metadata. *)
Definition demo_helper : Helper unit :=
  mkHelper (Some (λ s, mkSt (set_DstIP (Addr4 9) (md s)) (cap s))) (Some (λ s, mkSt (set_DstIP NoAddr (md s)) (cap s))) None.


(** A rule set used with [src] is matched against the connection with
    source and destination exchanged, never resolves, whatever helper it is
    given, and gives the metadata back as it was. *)
Theorem ruleset_src_swapped {X} (E : Env) (fuel : nat) (n a : string) (nr : bool) (rs : list Rule)
    (h : Helper X) (s : mst X) :
  ruleProviders E !! n = Some (Some (classicalStrategy rs)) →
  forallb stateless rs = true → FindProcess h = None →
  run_rule E (S fuel) (RuleSet n a true nr) h s =
    Done ((existsb (holds E (SwapSrcDst (md s))) rs, a), s).
Proof.
  intros Hn Hst HF. unfold run_rule. simpl. unfold_rules. rewrite Hn. simpl. unfold_rules.
  unfold mbind, M_bind. simpl.
  set (h' := mkHelper None (FindProcess h) (CheckPassRule h)). rewrite Hn. cbn [provider_match].
  unfold_rules. unfold mbind, M_bind.
  rewrite (first_match_ext _ (λ c, p ← rule_Match E (jump E fuel) c h'; mret (if Bool.eqb p.1 true then Some tt else None))).
  2:{ intros c s'. unfold mbind, M_bind. by destruct (rule_Match E (jump E fuel) c h' s') as [[[[] ?] ?]| |]. }
  rewrite (first_match_answers E (jump E fuel) h' rs (mkSt (SwapSrcDst (md s)) (cap s)) true).
  - simpl. rewrite (existsb_ext_all _ (holds E (SwapSrcDst (md s)))) by (intros; apply eqb_true_id).
    destruct s as [m c]; simpl. rewrite SwapSrcDst_involutive. by destruct (existsb _ rs).
  - rewrite forallb_forall in Hst. apply Forall_forall. intros c Hc. apply stateless_answers;
      [split; [done|intros _ f Hf; cbn [FindProcess h'] in Hf; by rewrite HF in Hf]|].
    apply Hst. by apply list_elem_of_In.
Qed.

Lemma ruleset_src_swapped_witness :
  run_rule (demo_env ∅ {["s" := Some (classicalStrategy [Port "" "1000" TDstPort [mkRange 1000 1000]])]}) 1
    (RuleSet "s" "PROXY" true false) (mkHelper None None None) (mkSt demo_md tt) = Done ((true, "PROXY"%string), mkSt demo_md tt).
Proof.
  refine (ruleset_src_swapped (demo_env ∅ {["s" := Some (classicalStrategy [Port "" "1000" TDstPort [mkRange 1000 1000]])]})
    0 "s" "PROXY" false [Port "" "1000" TDstPort [mkRange 1000 1000]] (mkHelper None None None) (mkSt demo_md tt) _ _ _);
    vm_compute; reflexivity.
Defined.

(** A rule set whose first rule is an AND that starts with the rule set
    itself never answers, whatever the connection and however deep the calls
    may nest: the strategy refuses a RULE-SET rule but not one inside AND. *)
Theorem circular_ruleset_never_answers {X} (E : Env) (n a p a' b : string) (src nr src' nr' : bool)
    (cs rest : list Rule) (fuel : nat) (h : Helper X) (s : mst X) :
  ruleProviders E !! n = Some (Some (classicalStrategy (Logic p a' TAND (RuleSet n b src' nr' :: cs) :: rest))) →
  run_rule E fuel (RuleSet n a src nr) h s = OutOfFuel.
Proof.
  intros Hn. unfold run_rule.
  assert (∀ (jmp : target → Helper X → M (X:=X) (bool * string)) a src nr h s,
    (∀ h s, jmp (ToProvider n) h s = OutOfFuel) → rule_Match E jmp (RuleSet n a src nr) h s = OutOfFuel) as Hstep.
  { intros jmp a0 src0 nr0 h0 s0 Hj. simpl. unfold_rules. rewrite Hn. unfold mbind, M_bind. destruct src0; simpl; by rewrite Hj. }
  apply Hstep. induction fuel as [|fuel IH]; intros h0 s0; [done|].
  cbn [jump jump_body]. rewrite Hn. apply bind_fuel. cbn [provider_match]. unfold_rules. apply bind_fuel.
  cbn [first_match]. apply bind_fuel, bind_fuel. cbn [rule_Match]. apply bind_fuel.
  cbn [first_match]. apply bind_fuel, bind_fuel. by apply Hstep.
Qed.

Lemma circular_ruleset_never_answers_witness :
  run_rule (demo_env ∅ {["s" := Some (classicalStrategy [Logic "" "" TAND [RuleSet "s" "" false false]])]}) 100
    (RuleSet "s" "PROXY" false false) (mkHelper None None None) (mkSt demo_md tt) = OutOfFuel.
Proof.
  refine (circular_ruleset_never_answers _ "s" "PROXY" "" "" "" false false false false [] [] 100 _ _ _).
  vm_compute. reflexivity.
Defined.

(** The helper whose process lookup counts how often it is asked. *)
Definition counting_helper : Helper nat := mkHelper None (Some (λ s, mkSt (md s) (S (cap s)))) None.

(** Sub-rules that lead from one list to the next are evaluated twice at
    every level, once by the match of the SUB-RULE rule and once more by the
    loop that found it matching: a chain of [k] levels evaluates the rule at
    its end [2 ^ k] times. *)
Theorem sub_rules_doubling (E : Env) (nm : nat → string) (k : nat) (p x pat a : string) (m : Metadata) (c : nat) :
  subRules E !! nm 0 = Some [Process pat a TProcessName] →
  (∀ i, (i < k)%nat → subRules E !! nm (S i) = Some [Logic p (nm i) TSubRules [Match x]]) →
  process_match E pat TProcessName m = true → a ≠ "PASS-RULE"%string →
  matchSubRules E (S k) (nm k) counting_helper (mkSt m c) = Done ((true, a), mkSt m (c + 2 ^ k)).
Proof.
  intros H0 HS Hp Ha. unfold matchSubRules. revert c. induction k as [|k IH]; intros c.
  - eapply (jump_single E _ _ _ _ _ (true, a)); [exact H0|done| |reflexivity| |exact Ha].
    + cbn [rule_Match]. unfold_rules. rewrite (bind_step (call (FindProcess counting_helper)) _ (mkSt m c) tt (mkSt m (S c)) eq_refl).
      rewrite (bind_step get_md _ (mkSt m (S c)) m (mkSt m (S c)) eq_refl), Hp. reflexivity.
    + cbn [rule_type]. rewrite bool_decide_eq_false_2 by done. unfold mret, M_ret. simpl. do 3 f_equal. lia.
  - assert (∀ c, jump E (S k) (ToSubRules (nm k)) counting_helper (mkSt m c) = Done ((true, a), mkSt m (c + 2 ^ k))) as IH'.
    { apply IH. intros i Hi. apply HS. lia. }
    eapply (jump_single E _ _ _ _ _ (true, a)); [apply HS; lia|done| |reflexivity| |exact Ha].
    + cbn [rule_Match pure_match Adapter]. erewrite bind_step; [|reflexivity]. cbn [fst]. apply IH'.
    + cbn [rule_type Adapter]. rewrite bool_decide_eq_true_2 by done. rewrite IH'.
      do 3 f_equal. simpl. lia.
Qed.

Lemma sub_rules_doubling_witness :
  matchSubRules (demo_env {["0" := [Process "curl" "PROXY" TProcessName];
      "1" := [Logic "" "0" TSubRules [Match ""]]; "2" := [Logic "" "1" TSubRules [Match ""]]]} ∅)
    3 "2" counting_helper (mkSt demo_md 0) = Done ((true, "PROXY"%string), mkSt demo_md 4).
Proof.
  refine (sub_rules_doubling _ (λ i, nth i ["0"; "1"; "2"]%string "") 2 "" "" "curl" "PROXY" demo_md 0 _ _ _ _).
  - vm_compute. reflexivity.
  - intros [|[|i]] Hi; [vm_compute; reflexivity..|exfalso; lia].
  - vm_compute. reflexivity.
  - discriminate.
Defined.
