(* ===== verification/RuleConfig.v ===== *)
(** * From text to rules: [rules/parser.go], the constructors of [rules/common]
    and [rules/logic], and the rule part of [config/config.go]

    A rule line is split at its commas; the payload of a logic rule holds
    further rules in brackets, found by a bracket stack and a scan for the
    outermost groups.  The file models the parsers, the check that sub-rules
    do not call each other in circles, and shows that what is accepted can be
    matched without running forever.  Error texts are not modelled: a refused
    input is [None]. *)

From Stdlib Require Import ZArith Lia Ascii String.
From stdpp Require Import prelude strings gmap list sorting.
From S2P Require Import Prelude Ranges Netip Wildcard FakeIP Metadata Rules.

(** ** Splitting a line *)

Definition NoResolve : string := "no-resolve".

Definition Src : string := "src".

(** The answer is [(isSrc, noResolve)]. *)
Definition ParseParams (params : list string) : bool * bool :=
  let isSrc := bool_decide (Src ∈ params) in
  (isSrc, if isSrc then true else bool_decide (NoResolve ∈ params)).

Definition trimArr (arr : list string) : list string :=
  map (Trim (λ c, bool_decide (c = " "%char))) arr.

(** The types whose payload may hold commas. *)
Definition comma_types : list string :=
  ["NOT"; "OR"; "AND"; "SUB-RULE"; "DOMAIN-REGEX"; "PROCESS-NAME-REGEX"; "PROCESS-PATH-REGEX"]%string.

(** [(tp, payload, target, params)] *)
Definition ParseRulePayload (ruleRaw : string) (needTarget : bool) : string * string * string * list string :=
  match trimArr (Split ruleRaw ","%char) with
  | [] => ("", "", "", [])
  | i0 :: item =>
    let tp := ToUpper i0 in
    match item with
    | [] => (tp, "", "", [])
    | i1 :: item2 =>
      if bool_decide (tp = "MATCH"%string) then (tp, "", i1, [])
      else if bool_decide (tp ∈ comma_types) then
        if needTarget then (tp, Join (removelast item) ",", List.last item "", [])
        else (tp, Join item ",", "", [])
      else
        match item2 with
        | [] => (tp, i1, "", [])
        | i2 :: item3 => if needTarget then (tp, i1, i2, item3) else (tp, i1, "", item2)
        end
    end
  end.

(** ** The brackets of a logic payload *)

(** A group of brackets: where it opens and where it closes. *)
Definition group := (nat * nat)%type.

Definition containRange (r : group) (preStart preEnd : nat) : bool :=
  (preStart <? r.1)%nat && (r.2 <? preEnd)%nat.

(** The loop of [format]: the stack of open brackets and the closed groups. *)
Fixpoint format_go (i : nat) (payload : list ascii) (stack : list nat) (subRanges : list group)
    : option (list group) :=
  match payload with
  | [] => match stack with [] => Some subRanges | _ => None end
  | c :: rest =>
    if bool_decide (c = "("%char) then format_go (S i) rest (i :: stack) subRanges
    else if bool_decide (c = ")"%char) then
      match stack with
      | [] => None
      | start :: stack' => format_go (S i) rest stack' (subRanges ++ [(start, i)])
      end
    else format_go (S i) rest stack subRanges
  end.

Definition starts_before (a b : group) : Prop := a.1 ≤ b.1.

#[global] Instance starts_before_dec a b : Decision (starts_before a b).
Proof. unfold starts_before. apply _. Defined.

(** The groups have different starts, so sorting them leaves no choice. *)
Definition format (payload : list ascii) : option (list group) :=
  merge_sort starts_before <$> format_go 0 payload [] [].

(** One turn of the loop of [findSubRuleRange]. *)
Definition find_step (payloadLen : nat) (subRuleRange : list group) (rr : group) : list group :=
  if (rr.1 =? 0)%nat && (rr.2 =? payloadLen - 1)%nat then subRuleRange
  else if existsb (λ r, containRange rr r.1 r.2) subRuleRange then subRuleRange
  else subRuleRange ++ [rr].

Definition findSubRuleRange (payloadLen : nat) (ruleRanges : list group) : list group :=
  foldl (find_step payloadLen) [] ruleRanges.

(** [payload[start+1 : end]] *)
Definition sub_payload (payload : list ascii) (r : group) : string :=
  of_bytes (take (r.2 - r.1 - 1) (drop (S r.1) payload)).

(** The payloads of the rules inside a logic payload. *)
Definition sub_payloads (payload : string) : option (list string) :=
  if negb (HasPrefix payload "(") || negb (HasSuffix payload ")") then None
  else
    let l := bytes payload in
    subAllRanges ← format l;
    Some (map (sub_payload l) (findSubRuleRange (length l) subAllRanges)).

(** ** Constructors *)

(** The platform and the databases a constructor asks. *)
Record ParseEnv := mkParseEnv {
  regexp_compiles : string → bool;
  goos_has_uid : bool;
  init_geosite : bool;
  init_geoip : bool;
  init_asn : bool;
  geodata_mode : bool;
  has_geosite : string → bool;
  has_geoip : string → bool
}.

Definition NewDomain (domain adapter : string) : Rule := Domain (ToLower domain) adapter.

Definition NewDomainSuffix (suffix adapter : string) : Rule := DomainSuffix (ToLower suffix) adapter.

Definition NewDomainKeyword (keyword adapter : string) : Rule := DomainKeyword (ToLower keyword) adapter.

Definition NewDomainRegex (P : ParseEnv) (regex adapter : string) : option Rule :=
  if regexp_compiles P regex then Some (DomainRegex regex adapter) else None.

Definition NewDomainWildcard (pattern adapter : string) : option Rule :=
  Some (DomainWildcard (ToLower pattern) adapter).

Definition NewGEOSITE (P : ParseEnv) (country adapter : string) : option Rule :=
  if negb (init_geosite P) then None
  else if has_geosite P country then Some (GEOSITE country adapter) else None.

Definition NewGEOIP (P : ParseEnv) (country adapter : string) (isSrc noResolveIP : bool) : option Rule :=
  let country := ToLower country in
  let geoip := GEOIP country adapter noResolveIP isSrc in
  if bool_decide (country = "lan"%string) then Some geoip
  else if negb (init_geoip P) then None
  else if geodata_mode P && negb (has_geoip P country) then None
  else Some geoip.

Definition NewIPASN (P : ParseEnv) (asn adapter : string) (isSrc noResolveIP : bool) : option Rule :=
  if init_asn P then Some (ASN asn adapter noResolveIP isSrc) else None.

Definition NewIPCIDR (s adapter : string) (isSrc noResolveIP : bool) : option Rule :=
  ipnet ← ParsePrefix s; Some (IPCIDR ipnet adapter isSrc noResolveIP).

Definition NewIPSuffix (payload adapter : string) (isSrc noResolveIP : bool) : option Rule :=
  ipnet ← ParsePrefix payload;
  Some (IPSuffix (AsSlice (paddr ipnet)) (pbits ipnet) payload adapter isSrc noResolveIP).

Definition NewPort (port adapter : string) (ruleType : RuleType) : option Rule :=
  portRanges ← @NewUnsignedRanges uint16 port;
  match portRanges with
  | [] => None
  | _ => Some (Port adapter port ruleType portRanges)
  end.

Definition NewDSCP (dscp adapter : string) : option Rule :=
  ranges ← @NewUnsignedRanges uint8 dscp;
  if existsb (λ r, (63 <? end_ r)%Z) ranges then None else Some (DSCP ranges dscp adapter).

Definition NewUid (P : ParseEnv) (oUid adapter : string) : option Rule :=
  if negb (goos_has_uid P) then None
  else
    uidRange ← @NewUnsignedRanges uint32 oUid;
    match uidRange with
    | [] => None
    | _ => Some (Uid uidRange oUid adapter)
    end.

(** The loop of [NewInName], [NewInUser] and [NewInType]. *)
Definition slash_names (s : string) : option (list string) :=
  let names := map TrimSpace (Split s "/"%char) in
  if existsb (λ n, bool_decide (n = ""%string)) names then None else Some names.

Definition NewInName (iNames adapter : string) : option Rule :=
  names ← slash_names iNames; Some (InName names adapter iNames).

Definition NewInUser (iUsers adapter : string) : option Rule :=
  users ← slash_names iUsers; Some (InUser users adapter iUsers).

Fixpoint parseInTypes (tps : list string) : option (list InboundType) :=
  match tps with
  | [] => Some []
  | tp :: tps' =>
    let utp := ToUpper tp in
    if bool_decide (utp = "SOCKS"%string) then
      res ← parseInTypes tps'; Some (SOCKS4 :: SOCKS5 :: res)
    else r ← ParseType utp; res ← parseInTypes tps'; Some (r :: res)
  end.

Definition NewInType (iTypes adapter : string) : option Rule :=
  types ← slash_names iTypes;
  tps ← parseInTypes types;
  Some (InType tps adapter (ToUpper iTypes)).

Definition NewNetworkType (network adapter : string) : option Rule :=
  if bool_decide (ToUpper network = "TCP"%string) then Some (NetworkType TCP adapter)
  else if bool_decide (ToUpper network = "UDP"%string) then Some (NetworkType UDP adapter)
  else None.

Definition NewProcess (P : ParseEnv) (pattern adapter : string) (ruleType : RuleType) : option Rule :=
  match ruleType with
  | TProcessNameRegex | TProcessPathRegex =>
    if regexp_compiles P pattern then Some (Process pattern adapter ruleType) else None
  | _ => Some (Process pattern adapter ruleType)
  end.

Definition NewRuleSet (ruleProviderName adapter : string) (isSrc noResolveIP : bool) : option Rule :=
  Some (RuleSet ruleProviderName adapter isSrc noResolveIP).

Definition NewMatch (adapter : string) : Rule := Match adapter.

(** ** The parser

    A result is [None] when the fuel runs out and [Some None] for an error. *)
Definition parsed (A : Type) := option (option A).

(** Parse in order, stop at the first error. *)
Fixpoint parse_all {A} (f : string → parsed A) (l : list string) : parsed (list A) :=
  match l with
  | [] => Some (Some [])
  | s :: l' =>
    match f s with
    | Some (Some r) =>
      match parse_all f l' with
      | Some (Some rs) => Some (Some (r :: rs))
      | e => e
      end
    | Some None => Some None
    | None => None
    end
  end.

(** [parsePayload], then the test on the number of rules. *)
Definition new_logic (f : string → parsed Rule) (payload : string) (count_ok : nat → bool)
    (mk : list Rule → Rule) : parsed Rule :=
  match sub_payloads payload with
  | None => Some None
  | Some ps =>
    match parse_all f ps with
    | Some (Some rs) => Some (if count_ok (length rs) then Some (mk rs) else None)
    | Some None => Some None
    | None => None
    end
  end.

(** [payloadToRule], given the parser. *)
Definition payloadToRule (parseRule : string → string → string → list string → parsed Rule)
    (subPayload : string) : parsed Rule :=
  let '(tp, payload, target, param) := ParseRulePayload subPayload false in
  if bool_decide (tp = "MATCH"%string) || bool_decide (tp = "SUB-RULE"%string) then Some None
  else if bool_decide (tp = ""%string) then Some None
  else parseRule tp payload target param.

Definition NewSubRule (f : string → parsed Rule) (payload adapter : string) : parsed Rule :=
  new_logic f ("(" +:+ payload +:+ ")")%string (λ n, n =? 1)%nat (Logic payload adapter TSubRules).

Definition NewNOT (f : string → parsed Rule) (payload adapter : string) : parsed Rule :=
  new_logic f payload (λ n, n =? 1)%nat (Logic payload adapter TNOT).

Definition NewOR (f : string → parsed Rule) (payload adapter : string) : parsed Rule :=
  new_logic f payload (λ _, true) (Logic payload adapter TOR).

Definition NewAND (f : string → parsed Rule) (payload adapter : string) : parsed Rule :=
  new_logic f payload (λ _, true) (Logic payload adapter TAND).

(** The types that parse no further rules, as a table of the switch. *)
Definition leaf_table (P : ParseEnv) (payload target : string) (params : list string)
    : list (string * (unit → option Rule)) :=
  let '(isSrc, noResolve) := ParseParams params in
  [("DOMAIN", λ _, Some (NewDomain payload target));
   ("DOMAIN-SUFFIX", λ _, Some (NewDomainSuffix payload target));
   ("DOMAIN-KEYWORD", λ _, Some (NewDomainKeyword payload target));
   ("DOMAIN-REGEX", λ _, NewDomainRegex P payload target);
   ("DOMAIN-WILDCARD", λ _, NewDomainWildcard payload target);
   ("GEOSITE", λ _, NewGEOSITE P payload target);
   ("GEOIP", λ _, NewGEOIP P payload target isSrc noResolve);
   ("SRC-GEOIP", λ _, NewGEOIP P payload target true true);
   ("IP-ASN", λ _, NewIPASN P payload target isSrc noResolve);
   ("SRC-IP-ASN", λ _, NewIPASN P payload target true true);
   ("IP-CIDR", λ _, NewIPCIDR payload target isSrc noResolve);
   ("IP-CIDR6", λ _, NewIPCIDR payload target isSrc noResolve);
   ("SRC-IP-CIDR", λ _, NewIPCIDR payload target true true);
   ("IP-SUFFIX", λ _, NewIPSuffix payload target isSrc noResolve);
   ("SRC-IP-SUFFIX", λ _, NewIPSuffix payload target true true);
   ("SRC-PORT", λ _, NewPort payload target TSrcPort);
   ("DST-PORT", λ _, NewPort payload target TDstPort);
   ("IN-PORT", λ _, NewPort payload target TInPort);
   ("DSCP", λ _, NewDSCP payload target);
   ("PROCESS-NAME", λ _, NewProcess P payload target TProcessName);
   ("PROCESS-PATH", λ _, NewProcess P payload target TProcessPath);
   ("PROCESS-NAME-REGEX", λ _, NewProcess P payload target TProcessNameRegex);
   ("PROCESS-PATH-REGEX", λ _, NewProcess P payload target TProcessPathRegex);
   ("PROCESS-NAME-WILDCARD", λ _, NewProcess P payload target TProcessNameWildcard);
   ("PROCESS-PATH-WILDCARD", λ _, NewProcess P payload target TProcessPathWildcard);
   ("NETWORK", λ _, NewNetworkType payload target);
   ("UID", λ _, NewUid P payload target);
   ("IN-TYPE", λ _, NewInType payload target);
   ("IN-USER", λ _, NewInUser payload target);
   ("IN-NAME", λ _, NewInName payload target);
   ("RULE-SET", λ _, NewRuleSet payload target isSrc noResolve);
   ("MATCH", λ _, Some (NewMatch target))]%string.

Fixpoint switch {A} (tp : string) (table : list (string * (unit → option A))) : option A :=
  match table with
  | [] => None
  | (k, f) :: table' => if bool_decide (tp = k) then f tt else switch tp table'
  end.

(** The body of [ParseRule]; [sub] parses the rules inside a logic payload. *)
Definition parse_switch (P : ParseEnv) (sub : string → parsed Rule) (tp payload target : string)
    (params : list string) : parsed Rule :=
  if negb (bool_decide (tp = "MATCH"%string)) && bool_decide (payload = ""%string) then Some None
  else if bool_decide (tp = "SUB-RULE"%string) then NewSubRule sub payload target
  else if bool_decide (tp = "AND"%string) then NewAND sub payload target
  else if bool_decide (tp = "OR"%string) then NewOR sub payload target
  else if bool_decide (tp = "NOT"%string) then NewNOT sub payload target
  else Some (switch tp (leaf_table P payload target params)).

Fixpoint ParseRule (P : ParseEnv) (fuel : nat) (tp payload target : string) (params : list string) : parsed Rule :=
  match fuel with
  | O => None
  | S fuel' => parse_switch P (payloadToRule (ParseRule P fuel')) tp payload target params
  end.

(** The fuel that is enough for a payload. *)
Definition parse_fuel (payload : string) : nat := S (S (length (bytes payload))).

(** ** The configuration *)

(** One line of [parseRules]. *)
Definition parse_line (P : ParseEnv) (proxies ruleProviders subNames : gset string) (line : string) : option Rule :=
  let '(tp, payload, target, params) := ParseRulePayload line true in
  if bool_decide (target = ""%string) then None
  else if negb (bool_decide (target ∈ proxies)) &&
          (negb (bool_decide (tp = "SUB-RULE"%string)) || negb (bool_decide (target ∈ subNames))) then None
  else
    match ParseRule P (parse_fuel payload) tp payload target params with
    | Some (Some r) =>
      if forallb (λ n, bool_decide (n ∈ ruleProviders)) (ProviderNames r) then Some r else None
    | _ => None
    end.

Definition parseRules (P : ParseEnv) (proxies ruleProviders subNames : gset string) (rulesConfig : list string)
    : option (list Rule) :=
  mapM (parse_line P proxies ruleProviders subNames) rulesConfig.

(** The loop of [verifySubRuleCircularReferences]; [rec] is the recursive call,
    [Some true] the nil error. *)
Fixpoint verify_rules (rec : string → option bool) (subRules : gmap string (list Rule)) (arr : list string)
    (rules : list Rule) : option bool :=
  match rules with
  | [] => Some true
  | rule :: rules' =>
    if bool_decide (rule_type rule = TSubRules) then
      if negb (bool_decide (is_Some (subRules !! Adapter rule))) then Some false
      else if bool_decide (Adapter rule ∈ arr) then Some false
      else match rec (Adapter rule) with
           | Some true => verify_rules rec subRules arr rules'
           | o => o
           end
    else verify_rules rec subRules arr rules'
  end.

Fixpoint verifySubRuleCircularReferences (fuel : nat) (n : string) (subRules : gmap string (list Rule))
    (arr : list string) : option bool :=
  match fuel with
  | O => None
  | S fuel' =>
    let arr := arr ++ [n] in
    verify_rules (λ m, verifySubRuleCircularReferences fuel' m subRules arr) subRules arr
      (default [] (subRules !! n))
  end.

Fixpoint all_verified (f : string → option bool) (names : list string) : option bool :=
  match names with
  | [] => Some true
  | n :: names' => match f n with Some true => all_verified f names' | o => o end
  end.

Definition verifySubRule (subRules : gmap string (list Rule)) : option bool :=
  all_verified (λ n, verifySubRuleCircularReferences (S (size subRules)) n subRules []) (map fst (map_to_list subRules)).

(** [parseSubRules]: the names are known before the rules are read. *)
Definition parseSubRules (P : ParseEnv) (proxies ruleProviders : gset string) (cfg : gmap string (list string))
    : option (gmap string (list Rule)) :=
  let names := dom cfg in
  if bool_decide (""%string ∈ names) then None
  else
    rs ← mapM (λ kv, l ← parseRules P proxies ruleProviders names kv.2; Some (kv.1, l)) (map_to_list cfg);
    let subRules : gmap string (list Rule) := list_to_map rs in
    match verifySubRule subRules with
    | Some true => Some subRules
    | _ => None
    end.

(** ** Classical rule sets *)

Definition classical_payloadToRule (P : ParseEnv) (rule : string) : parsed Rule :=
  let '(tp, payload, target, params) := ParseRulePayload rule false in
  if bool_decide (tp ∈ ["MATCH"; "RULE-SET"; "SUB-RULE"]%string) then Some None
  else ParseRule P (parse_fuel payload) tp payload target params.

(** [Insert] drops a rule that does not parse; [count] is the length. *)
Definition classical_Insert (P : ParseEnv) (rule : string) (rules : list Rule) : list Rule :=
  match classical_payloadToRule P rule with
  | Some (Some r) => rules ++ [r]
  | _ => rules
  end.

(** ** Lemmas *)

Set Default Proof Using "Type*".

(** *** The check for circular sub-rules *)

Lemma verify_rules_total rec m arr rules :
  (∀ a, is_Some (m !! a) → a ∉ arr → rec a ≠ None) → verify_rules rec m arr rules ≠ None.
Proof.
  intros Hrec. induction rules as [|r rules IH]; simpl; [done|].
  case_bool_decide; [|done]. case_bool_decide as Hm; simpl; [|done].
  case_bool_decide as Ha; [done|]. specialize (Hrec _ Hm Ha).
  by destruct (rec (Adapter r)) as [[]|].
Qed.

Lemma verify_total fuel n (m : gmap string (list Rule)) arr :
  NoDup arr → (∀ a, a ∈ arr → is_Some (m !! a)) → is_Some (m !! n) → n ∉ arr →
  size m < length arr + fuel → verifySubRuleCircularReferences fuel n m arr ≠ None.
Proof.
  revert n arr. induction fuel as [|fuel IH]; intros n arr Hnd Hdom Hn Hnin Hsz.
  - exfalso. assert (length arr ≤ size m); [|lia].
    rewrite <- size_dom. rewrite <- (size_list_to_set (C:=gset string)) by done.
    apply subseteq_size. intros a Ha%elem_of_list_to_set. by apply elem_of_dom, Hdom.
  - simpl. apply verify_rules_total. intros a Ha Hnotin. apply IH; try done.
    + apply NoDup_app. split; [done|]. split; [|apply NoDup_singleton].
      intros b Hb ->%list_elem_of_singleton. done.
    + intros b [Hb| ->%list_elem_of_singleton]%elem_of_app; auto.
    + rewrite length_app. simpl. lia.
Qed.

Lemma all_verified_total f names : (∀ n, n ∈ names → f n ≠ None) → all_verified f names ≠ None.
Proof.
  induction names as [|n names IH]; simpl; intros Hf; [done|].
  specialize (Hf n (list_elem_of_here _ _)) as Hn. destruct (f n) as [[]|]; try done.
  apply IH. intros k Hk. by apply Hf, list_elem_of_further.
Qed.

Lemma all_verified_true f names : all_verified f names = Some true → ∀ n, n ∈ names → f n = Some true.
Proof.
  induction names as [|n names IH]; simpl; intros Hf k Hk; [by apply elem_of_nil in Hk|].
  destruct (f n) as [[]|] eqn:Hn; try done. apply elem_of_cons in Hk as [->|Hk]; auto.
Qed.

Lemma in_names (m : gmap string (list Rule)) n : n ∈ map fst (map_to_list m) ↔ is_Some (m !! n).
Proof.
  rewrite list_elem_of_fmap. split.
  - intros ([k v] & -> & Hk%elem_of_map_to_list). by exists v.
  - intros [v Hv]. exists (n, v). split; [done|]. by apply elem_of_map_to_list.
Qed.

(** The check for circular sub-rules always comes to an answer: with the
    path it keeps, it cannot go deeper than there are lists. *)
Theorem verify_sub_rule_terminates (m : gmap string (list Rule)) : is_Some (verifySubRule m).
Proof.
  apply not_eq_None_Some. unfold verifySubRule. apply all_verified_total. intros n Hn%in_names.
  apply verify_total; [constructor|..]; try done; [by intros a ?%elem_of_nil|by intros ?%elem_of_nil|simpl; lia].
Qed.

(** No sub-rule list is called from inside the rule. *)
Definition no_sub (r : Rule) : Prop := ∀ name, ToSubRules name ∉ targets r.

(** The shape the parser gives: only the rule itself may be a SUB-RULE. *)
Definition sub_shape (r : Rule) : Prop :=
  ∀ name, ToSubRules name ∈ targets r → rule_type r = TSubRules ∧ name = Adapter r.

Lemma verify_rules_true rec m arr rules r :
  verify_rules rec m arr rules = Some true → r ∈ rules → rule_type r = TSubRules → rec (Adapter r) = Some true.
Proof.
  induction rules as [|r' rules IH]; simpl; intros Hv Hr Ht; [by apply elem_of_nil in Hr|].
  apply elem_of_cons in Hr as [<-|Hr].
  - rewrite bool_decide_eq_true_2 in Hv by done. repeat case_bool_decide; simpl in Hv; try done.
    by destruct (rec (Adapter r)) as [[]|].
  - apply IH; [|done..]. case_bool_decide; [|done]. repeat case_bool_decide; simpl in Hv; try done.
    by destruct (rec (Adapter r')) as [[]|].
Qed.

Lemma verified_call_depth E fuel n arr d :
  (∀ k r, r ∈ sub_rules_of E k → sub_shape r) →
  (∀ p, call_depth E d (ToProvider p)) →
  verifySubRuleCircularReferences fuel n (subRules E) arr = Some true →
  call_depth E (fuel + d) (ToSubRules n).
Proof.
  intros Hshape Hprov. revert n arr. induction fuel as [|fuel IH]; intros n arr Hv; [done|].
  simpl in *. constructor. intros t Ht. apply elem_of_concat in Ht as (ts & Ht & Hts).
  apply list_elem_of_fmap in Hts as (r & -> & Hr).
  assert (rule_type r = TSubRules → call_depth E (fuel + d) (ToSubRules (Adapter r))) as Hsub.
  { intros Hrt. eapply IH. exact (verify_rules_true _ _ _ _ _ Hv Hr Hrt). }
  unfold turn_targets in Ht. apply elem_of_app in Ht as [Ht|Ht].
  - case_bool_decide; [|by apply elem_of_nil in Ht]. apply list_elem_of_singleton in Ht as ->. auto.
  - destruct t as [name|p].
    + destruct (Hshape _ _ Hr name Ht) as [Hrt ->]. auto.
    + eapply call_depth_mono; [apply Hprov|lia].
Qed.

(** *** What the parser builds *)

Lemma parse_all_Forall {A} (f : string → parsed A) (P : A → Prop) l rs :
  (∀ s r, f s = Some (Some r) → P r) → parse_all f l = Some (Some rs) → Forall P rs.
Proof.
  intros Hf. revert rs. induction l as [|s l IH]; simpl; intros rs Hp; [by simplify_eq|].
  destruct (f s) as [[r|]|] eqn:Hs; try done. destruct (parse_all f l) as [[rs'|]|]; try done.
  simplify_eq. constructor; eauto.
Qed.

Lemma no_sub_children p a t rs : t ≠ TSubRules → Forall no_sub rs → no_sub (Logic p a t rs).
Proof.
  intros Ht Hrs name Hin. assert (ToSubRules name ∈ concat (map targets rs)) as Hc.
  { destruct t; simpl in Hin; try done; destruct rs as [|c rs]; try done. simpl. apply elem_of_app. by left. }
  apply elem_of_concat in Hc as (ts & Hts & (r & -> & Hr)%list_elem_of_fmap).
  rewrite Forall_forall in Hrs. by apply (Hrs r Hr name).
Qed.

Lemma new_logic_inv f payload ok mk r :
  new_logic f payload ok mk = Some (Some r) →
  ∃ ps rs, parse_all f ps = Some (Some rs) ∧ ok (length rs) = true ∧ r = mk rs.
Proof.
  unfold new_logic. destruct (sub_payloads payload) as [ps|]; [|done].
  destruct (parse_all f ps) as [[rs|]|] eqn:Hp; try done. case_match; [|done]. intros [= <-]. eauto 10.
Qed.

(** A rule that neither holds nor calls other rules. *)
Definition leaf (r : Rule) : Prop := ∀ name, ToSubRules name ∉ targets r ∧ rule_type r ≠ TSubRules.

Lemma switch_Forall {A} (P : A → Prop) tp (table : list (string * (unit → option A))) r :
  Forall (λ e, ∀ x, e.2 tt = Some x → P x) table → switch tp table = Some r → P r.
Proof.
  induction 1 as [|[k f] table Hf _ IH]; simpl; [done|]. case_bool_decide; [apply Hf|exact IH].
Qed.

Lemma leaf_no_sub P tp payload target params r :
  switch tp (leaf_table P payload target params) = Some r → no_sub r ∧ rule_type r ≠ TSubRules.
Proof.
  unfold leaf_table. destruct (ParseParams params) as [src nr].
  apply (switch_Forall (λ r, no_sub r ∧ rule_type r ≠ TSubRules)).
  repeat (constructor; [cbn [snd]; intros x Hx|]); [..|constructor].
  all: unfold NewGEOSITE, NewGEOIP, NewIPASN, NewIPCIDR, NewIPSuffix, NewPort, NewDSCP, NewUid, NewInType, NewInUser,
    NewInName, NewNetworkType, NewProcess, NewRuleSet, NewDomainRegex, NewDomainWildcard in Hx.
  all: repeat (case_match || (apply bind_Some in Hx as (? & ? & Hx))); simplify_eq.
  all: by split; [intros name Hin; simpl in Hin; repeat (apply elem_of_cons in Hin as [?|Hin]; [done|]);
    by apply elem_of_nil in Hin|simpl; repeat case_match].
Qed.

Lemma payloadToRule_inv pr s r :
  payloadToRule pr s = Some (Some r) →
  ∃ tp payload target params, tp ≠ "SUB-RULE"%string ∧ pr tp payload target params = Some (Some r).
Proof.
  unfold payloadToRule. destruct (ParseRulePayload s false) as [[[tp payload] target] params].
  repeat case_bool_decide; simpl; try done. eauto 10.
Qed.

(** The four cases of [ParseRule]. *)
Lemma parse_switch_inv P sub tp payload target params r :
  parse_switch P sub tp payload target params = Some (Some r) →
  (∃ ps rs t, parse_all sub ps = Some (Some rs) ∧ t ≠ TSubRules ∧ r = Logic payload target t rs) ∨
  (∃ ps c, parse_all sub ps = Some (Some [c]) ∧ tp = "SUB-RULE"%string ∧ r = Logic payload target TSubRules [c]) ∨
  switch tp (leaf_table P payload target params) = Some r.
Proof.
  unfold parse_switch. destruct (negb _ && _); [done|].
  destruct (bool_decide (tp = "SUB-RULE"%string)) eqn:Hsr.
  { apply bool_decide_eq_true in Hsr. intros (ps & rs & Hall & Hok & ->)%new_logic_inv. right. left.
    apply Nat.eqb_eq in Hok. destruct rs as [|c [|]]; try done. by exists ps, c. }
  destruct (bool_decide (tp = "AND"%string)).
  { intros (ps & rs & Hall & _ & ->)%new_logic_inv. left. by exists ps, rs, TAND. }
  destruct (bool_decide (tp = "OR"%string)).
  { intros (ps & rs & Hall & _ & ->)%new_logic_inv. left. by exists ps, rs, TOR. }
  destruct (bool_decide (tp = "NOT"%string)).
  { intros (ps & rs & Hall & _ & ->)%new_logic_inv. left. by exists ps, rs, TNOT. }
  intros [= Hs]. by do 2 right.
Qed.

Lemma ParseRule_shape P fuel tp payload target params r :
  ParseRule P fuel tp payload target params = Some (Some r) →
  (tp ≠ "SUB-RULE"%string → no_sub r) ∧ sub_shape r.
Proof.
  revert tp payload target params r.
  induction fuel as [|fuel IH]; intros tp payload target params r; cbn [ParseRule]; [done|].
  assert (∀ s c, payloadToRule (ParseRule P fuel) s = Some (Some c) → no_sub c) as Hsub.
  { intros s c (tp' & pl & tg & ps & Hne & Hp)%payloadToRule_inv. by apply (IH _ _ _ _ _ Hp). }
  assert (∀ r, no_sub r → sub_shape r) as Hshape by (intros x Hx name Hin; by destruct (Hx name)).
  intros [(ps & rs & t & Hall & Ht & ->)|[(ps & c & Hall & -> & ->)|Hs]]%parse_switch_inv.
  - pose proof (parse_all_Forall _ _ _ _ Hsub Hall) as Hrs.
    pose proof (no_sub_children payload target t rs Ht Hrs). auto.
  - pose proof (parse_all_Forall _ _ _ _ Hsub Hall) as Hrs. split; [done|].
    intros name Hin. simpl in *. apply elem_of_cons in Hin as [[= ->]|Hin]; [done|].
    rewrite Forall_singleton in Hrs. by destruct (Hrs name).
  - apply leaf_no_sub in Hs as [Hns _]. auto.
Qed.

(** *** The fuel of the parser *)

Lemma drop_while_length {A} (f : A → bool) l : length (drop_while f l) ≤ length l.
Proof. induction l as [|x l IH]; simpl; [done|]. case_match; simpl; lia. Qed.

Lemma trim_bytes_length f l : length (trim_bytes f l) ≤ length l.
Proof.
  unfold trim_bytes. rewrite length_reverse. etransitivity; [apply drop_while_length|].
  rewrite length_reverse. apply drop_while_length.
Qed.

Lemma join_bytes_length sep (ps qs : list (list ascii)) :
  Forall2 (λ p q, length p ≤ length q) ps qs → length (join_bytes sep ps) ≤ length (join_bytes sep qs).
Proof.
  induction 1 as [|p q ps qs Hpq Hps IH]; [done|].
  destruct Hps as [|p' q' ps qs]; cbn [join_bytes]; [done|].
  cbn [join_bytes] in IH. rewrite !length_app. lia.
Qed.

Lemma join_bytes_cons sep p ps : ps ≠ [] → join_bytes sep (p :: ps) = p ++ sep ++ join_bytes sep ps.
Proof. by destruct ps. Qed.

Lemma ParseRulePayload_shorter s tp payload target params :
  ParseRulePayload s false = (tp, payload, target, params) →
  payload = ""%string ∨ length (bytes payload) < length (bytes s).
Proof.
  unfold ParseRulePayload, trimArr, Split. rewrite map_map.
  pose proof (join_split_bytes ","%char (bytes s)) as Hjoin.
  destruct (split_bytes ","%char (bytes s)) as [|p0 [|p1 rest]]; simpl; [by intros; simplify_eq; left..|].
  rewrite join_bytes_cons in Hjoin by done. rewrite <- Hjoin, !length_app. cbn [length].
  assert (∀ p, length (bytes (Trim (λ c, bool_decide (c = " "%char)) (of_bytes p))) ≤ length p) as Htrim.
  { intros p. unfold Trim. autorewrite with gostr. etransitivity; [apply trim_bytes_length|]. by autorewrite with gostr. }
  case_bool_decide; [by intros; simplify_eq; left|]. case_bool_decide.
  - intros [= _ <- _ _]. right. unfold Join. autorewrite with gostr.
    assert (length (join_bytes (bytes ",") (map bytes (Trim (λ c, bool_decide (c = " "%char)) (of_bytes p1) ::
      map (λ x, Trim (λ c, bool_decide (c = " "%char)) (of_bytes x)) rest))) ≤ length (join_bytes [","%char] (p1 :: rest)));
      [|lia].
    apply join_bytes_length. cbn [map]. constructor; [apply Htrim|]. rewrite map_map.
    apply Forall2_fmap_l, Forall_Forall2_diag, Forall_true. intros p. apply Htrim.
  - assert (length p1 ≤ length (join_bytes [","%char] (p1 :: rest))).
    { destruct rest; cbn [join_bytes]; [done|]. rewrite length_app. lia. }
    specialize (Htrim p1). destruct rest; intros [= _ <- _ _]; right; lia.
Qed.

Lemma sub_payloads_shorter payload ps s :
  sub_payloads payload = Some ps → s ∈ ps → length (bytes s) < length (bytes payload).
Proof.
  unfold sub_payloads. destruct (HasPrefix payload "(") eqn:Hp; [|done]. destruct (HasSuffix payload ")"); [|done].
  simpl. destruct (format (bytes payload)) as [rs|]; [|done]. simpl. intros [= <-].
  intros (r & -> & _)%list_elem_of_fmap. unfold sub_payload. rewrite bytes_of_bytes, length_take, length_drop.
  apply bool_decide_eq_true in Hp as [k Hk]. rewrite Hk. simpl. lia.
Qed.

Lemma parse_all_total {A} (f : string → parsed A) l : (∀ s, s ∈ l → f s ≠ None) → parse_all f l ≠ None.
Proof.
  induction l as [|s l IH]; simpl; intros Hf; [done|].
  specialize (Hf s (list_elem_of_here _ _)) as Hs. destruct (f s) as [[r|]|]; try done.
  assert (parse_all f l ≠ None) by (apply IH; intros; apply Hf; by apply list_elem_of_further).
  by destruct (parse_all f l) as [[]|].
Qed.

Lemma new_logic_total f payload ok mk :
  (∀ s, length (bytes s) < length (bytes payload) → f s ≠ None) → new_logic f payload ok mk ≠ None.
Proof.
  intros Hf. unfold new_logic. destruct (sub_payloads payload) as [ps|] eqn:Hps; [|done].
  assert (parse_all f ps ≠ None).
  { apply parse_all_total. intros s Hs. apply Hf. by eapply sub_payloads_shorter. }
  by destruct (parse_all f ps) as [[]|].
Qed.

Lemma payloadToRule_total pr s :
  (∀ tp payload target params, tp ≠ "SUB-RULE"%string → payload = ""%string ∨ length (bytes payload) < length (bytes s) →
    pr tp payload target params ≠ None) →
  payloadToRule pr s ≠ None.
Proof.
  intros Hpr. unfold payloadToRule.
  destruct (ParseRulePayload s false) as [[[tp payload] target] params] eqn:Hp.
  apply ParseRulePayload_shorter in Hp. repeat case_bool_decide; simpl; try done. by apply Hpr.
Qed.

Lemma parse_switch_total P sub tp payload target params n :
  (∀ s, length (bytes s) < n → sub s ≠ None) →
  (tp = "SUB-RULE"%string → length (bytes payload) + 2 ≤ n) → length (bytes payload) ≤ n →
  parse_switch P sub tp payload target params ≠ None.
Proof.
  intros Hsub Hsr Hlen. unfold parse_switch. destruct (negb _ && _); [done|].
  assert (∀ ok mk, new_logic sub payload ok mk ≠ None) as Hnl.
  { intros ok mk. apply new_logic_total. intros s Hs. apply Hsub. lia. }
  case_bool_decide as H1.
  { apply new_logic_total. intros s. rewrite !bytes_app, !length_app. simpl. intros Hs. apply Hsub.
    specialize (Hsr H1). lia. }
  repeat (case_bool_decide; [apply Hnl|]). done.
Qed.

Lemma ParseRule_total P fuel tp payload target params :
  length (bytes payload) < fuel → (tp = "SUB-RULE"%string → length (bytes payload) + 1 < fuel) →
  ParseRule P fuel tp payload target params ≠ None.
Proof.
  revert tp payload target params. induction fuel as [|fuel IH]; intros tp payload target params Hf Hsr; [lia|].
  cbn [ParseRule]. destruct (decide (fuel = 0)) as [->|Hz].
  { assert (payload = ""%string) as -> by (destruct payload; simpl in Hf; [done|lia]).
    unfold parse_switch. case_bool_decide as Hm; [|done]. subst tp. done. }
  apply (parse_switch_total _ _ _ _ _ _ (S fuel)); [|intros H; specialize (Hsr H); lia|lia].
  intros s Hs. apply payloadToRule_total. intros tp' pl tg ps Hne [->|Hlt]; apply IH; simpl; try done; lia.
Qed.

(** The rule parser always answers: with fuel for the length of the
    payload, every rule text is either parsed or refused, however the logic
    rules nest. *)
Theorem parse_rule_terminates P tp payload target params :
  is_Some (ParseRule P (parse_fuel payload) tp payload target params).
Proof. apply not_eq_None_Some, ParseRule_total; unfold parse_fuel; [lia|intros _; lia]. Qed.

(** *** The configuration *)

Lemma parse_line_shape P px rp names line r : parse_line P px rp names line = Some r → sub_shape r.
Proof.
  unfold parse_line. destruct (ParseRulePayload line true) as [[[tp payload] target] params].
  case_bool_decide; [done|]. case_match; [done|].
  destruct (ParseRule _ _ _ _ _ _) as [[r'|]|] eqn:Hp; try done. case_match; [|done].
  intros [= <-]. by apply ParseRule_shape in Hp as [_ ?].
Qed.

Lemma parseRules_shape P px rp names lines rs : parseRules P px rp names lines = Some rs → Forall sub_shape rs.
Proof.
  unfold parseRules. intros H%mapM_Some. apply Forall_forall. intros r Hr.
  destruct (Forall2_elem_r _ _ _ r H Hr) as (line & _ & Hl). by eapply parse_line_shape.
Qed.

Lemma parseSubRules_inv P px rp cfg m :
  parseSubRules P px rp cfg = Some m →
  verifySubRule m = Some true ∧ ∀ name rs, m !! name = Some rs → Forall sub_shape rs.
Proof.
  unfold parseSubRules. case_bool_decide; [done|]. intros (rs & Hrs & Hm)%bind_Some.
  destruct (verifySubRule (list_to_map rs)) as [[]|] eqn:Hv; try done. simplify_eq. split; [done|].
  intros name l Hl%elem_of_list_to_map_2. apply mapM_Some in Hrs.
  destruct (Forall2_elem_r _ _ _ _ Hrs Hl) as ([k v] & _ & Hkv). simpl in Hkv.
  apply bind_Some in Hkv as (l' & Hl' & [= -> ->]). by eapply parseRules_shape.
Qed.

(** The providers' own calls are [d] deep at most; 1 for rule sets that use no
    rule sets. *)
Definition provider_depth (E : Env) (d : nat) : Prop := ∀ p, call_depth E d (ToProvider p).

(** C3: once a configuration's sub-rules are accepted, and its rule sets do not
    refer to each other in a circle but are nested [d] deep at most
    ([provider_depth]; [circular_ruleset_never_answers] has the other case),
    matching the sub-rules always ends: for any connection and helper, a walk
    through any list comes to an answer (or a panic) with calls nested no deeper
    than the number of lists, one, and [d]. *)
Theorem accepted_sub_rules_terminate {X} P px rp cfg (E : Env) (d : nat) (name : string) (h : Helper X) :
  parseSubRules P px rp cfg = Some (subRules E) → provider_depth E d →
  ∀ s, matchSubRules E (S (size (subRules E)) + d) name h s ≠ OutOfFuel.
Proof.
  intros Hp Hd. apply parseSubRules_inv in Hp as [Hv Hshape].
  assert (∀ k r, r ∈ sub_rules_of E k → sub_shape r) as Hsh.
  { intros k r. unfold sub_rules_of. destruct (subRules E !! k) as [rs|] eqn:Hk; simpl; [|by intros ?%elem_of_nil].
    intros Hr. specialize (Hshape _ _ Hk). rewrite Forall_forall in Hshape. auto. }
  apply jump_answers_depth. destruct (subRules E !! name) as [rs|] eqn:Hn.
  - apply (verified_call_depth E _ name []); [done..|].
    unfold verifySubRule in Hv. apply (all_verified_true _ _ Hv). apply in_names. eauto.
  - constructor. intros t Ht. exfalso. simpl in Ht. unfold sub_rules_of in Ht. rewrite Hn in Ht.
    by apply elem_of_nil in Ht.
Qed.

Definition demo_penv : ParseEnv := mkParseEnv (λ _, true) true true true true false (λ _, true) (λ _, true).

Definition demo_cfg : gmap string (list string) :=
  {["a" := ["SUB-RULE,(NETWORK,tcp),b"; "MATCH,DIRECT"]; "b" := ["DST-PORT,443,PROXY"]]}%string.

Definition demo_subrules : gmap string (list Rule) :=
  default ∅ (parseSubRules demo_penv {["DIRECT"%string; "PROXY"%string]} ∅ demo_cfg).

Lemma accepted_sub_rules_terminate_witness :
  matchSubRules (demo_env demo_subrules ∅) 4 "a" counting_helper (mkSt demo_md 0) ≠ OutOfFuel.
Proof.
  refine (accepted_sub_rules_terminate demo_penv {["DIRECT"%string; "PROXY"%string]} ∅ demo_cfg
    (demo_env demo_subrules ∅) 1 "a" counting_helper _ _ (mkSt demo_md 0)).
  - vm_compute. reflexivity.
  - intros p. constructor. intros t Ht. simpl in Ht. by apply elem_of_nil in Ht.
Defined.

(** The result of that walk. *)
Example demo_walk :
  matchSubRules (demo_env demo_subrules ∅) 4 "a" counting_helper (mkSt demo_md 0) = Done ((true, "PROXY"%string), mkSt demo_md 0).
Proof. vm_compute. reflexivity. Qed.

(** *** The rules inside a logic payload *)

(** Text whose brackets match. *)
Inductive balanced : list ascii → Prop :=
  | bal_nil : balanced []
  | bal_char c l : c ≠ "("%char → c ≠ ")"%char → balanced l → balanced (c :: l)
  | bal_group l k : balanced l → balanced k → balanced ("("%char :: l ++ ")"%char :: k).

(** The groups lie inside the text from [i] to [j]. *)
Definition groups_in (i j : nat) (rs : list group) : Prop := Forall (λ r, i ≤ r.1 ∧ r.1 < r.2 ∧ r.2 < j) rs.

Lemma format_balanced l :
  balanced l → ∀ i rest stack subs,
  ∃ rs, format_go i (l ++ rest) stack subs = format_go (i + length l) rest stack (subs ++ rs) ∧
    groups_in i (i + length l) rs ∧ NoDup rs.*1.
Proof.
  induction 1 as [|c l H1 H2 _ IH|l k _ IHl _ IHk]; intros i rest stack subs.
  - exists []. simpl. rewrite Nat.add_0_r, app_nil_r. repeat constructor.
  - simpl. rewrite !bool_decide_eq_false_2 by done. destruct (IH (S i) rest stack subs) as (rs & -> & Hin & Hnd).
    exists rs. split; [f_equal; lia|]. split; [|done]. eapply Forall_impl; [exact Hin|]. simpl. lia.
  - simpl. rewrite <- (assoc_L (++)). simpl.
    destruct (IHl (S i) (")"%char :: k ++ rest) (i :: stack) subs) as (rs1 & -> & Hin1 & Hnd1).
    cbn [format_go]. rewrite bool_decide_eq_false_2, bool_decide_eq_true_2 by done.
    destruct (IHk (S (S i + length l)) rest stack ((subs ++ rs1) ++ [(i, S i + length l)])) as (rs2 & -> & Hin2 & Hnd2).
    exists (rs1 ++ [(i, S i + length l)] ++ rs2). split; [|split].
    + rewrite <- !(assoc_L (++)). f_equal. rewrite length_app. simpl. lia.
    + unfold groups_in in *. rewrite !Forall_app, Forall_singleton, !length_app. simpl. repeat split; try lia.
      * eapply Forall_impl; [exact Hin1|]. simpl. lia.
      * eapply Forall_impl; [exact Hin2|]. simpl. lia.
    + rewrite !fmap_app. apply NoDup_app. split; [done|]. simpl. unfold groups_in in *. rewrite Forall_forall in Hin1, Hin2.
      split.
      * intros a (r & -> & Hr)%list_elem_of_fmap [Ha|(r2 & Heq & Hr2)%list_elem_of_fmap]%elem_of_cons.
        -- apply Hin1 in Hr. lia.
        -- apply Hin1 in Hr. apply Hin2 in Hr2. lia.
      * constructor; [|done]. intros (r & Heq & Hr)%list_elem_of_fmap. apply Hin2 in Hr. lia.
Qed.

(** A payload as it is written: separators and bracketed rules. *)
Definition no_brackets (l : list ascii) : Prop := "("%char ∉ l ∧ ")"%char ∉ l.

Definition show_groups (gs : list (list ascii * list ascii)) : list ascii :=
  concat (map (λ g, g.1 ++ "("%char :: g.2 ++ [")"%char]) gs).

Definition show_payload (gs : list (list ascii * list ascii)) (last : list ascii) : list ascii :=
  "("%char :: show_groups gs ++ last ++ [")"%char].

(** Where the rules stand, from position [i]. *)
Fixpoint group_places (i : nat) (gs : list (list ascii * list ascii)) : list group :=
  match gs with
  | [] => []
  | g :: gs' =>
    let a := i + length g.1 in
    let b := a + S (length g.2) in
    (a, b) :: group_places (S b) gs'
  end.

Lemma format_plain l i rest stack subs :
  no_brackets l → format_go i (l ++ rest) stack subs = format_go (i + length l) rest stack subs.
Proof.
  intros [H1 H2]. revert i. induction l as [|c l IH]; intros i; simpl; [by rewrite Nat.add_0_r|].
  rewrite !bool_decide_eq_false_2 by set_solver. rewrite IH by set_solver. f_equal. lia.
Qed.

Lemma balanced_plain l : no_brackets l → balanced l.
Proof.
  intros [H1 H2]. induction l as [|c l IH]; constructor; [set_solver..|]. apply IH; set_solver.
Qed.

Lemma length_show_cons g gs : length (show_groups (g :: gs)) = length g.1 + S (S (length g.2)) + length (show_groups gs).
Proof. unfold show_groups. cbn [map concat]. rewrite !length_app. simpl. rewrite length_app. simpl. lia. Qed.

(** What the bracket stack finds: the rules and groups strictly inside them. *)
Lemma format_groups gs i rest stack subs :
  Forall (λ g, no_brackets g.1 ∧ balanced g.2) gs →
  ∃ rs, format_go i (show_groups gs ++ rest) stack subs = format_go (i + length (show_groups gs)) rest stack (subs ++ rs) ∧
    groups_in i (i + length (show_groups gs)) rs ∧ NoDup rs.*1 ∧
    ∃ inner, rs ≡ₚ group_places i gs ++ inner ∧
      Forall (λ r, ∃ t, t ∈ group_places i gs ∧ t.1 < r.1 ∧ r.2 < t.2) inner.
Proof.
  intros Hgs. revert i subs. induction Hgs as [|[sep s] gs [Hsep Hs] _ IH]; intros i subs.
  - exists []. simpl. rewrite Nat.add_0_r, app_nil_r. repeat split; try constructor. by exists [].
  - rewrite length_show_cons. unfold show_groups. cbn [map concat fst snd]. fold (show_groups gs).
    simpl in Hsep, Hs.
    rewrite <- !(assoc_L (++)). cbn [app]. rewrite <- !(assoc_L (++)). cbn [app].
    rewrite format_plain by done. cbn [format_go]. rewrite bool_decide_eq_true_2 by done.
    set (a := i + length sep).
    destruct (format_balanced s Hs (S a) (")"%char :: show_groups gs ++ rest) (a :: stack) subs) as (rs1 & -> & Hin1 & Hnd1).
    cbn [format_go]. rewrite bool_decide_eq_false_2, bool_decide_eq_true_2 by done.
    set (b := S a + length s).
    destruct (IH (S b) ((subs ++ rs1) ++ [(a, b)])) as (rs2 & Heq & Hin2 & Hnd2 & inner & Hperm & Hinner).
    exists (rs1 ++ [(a, b)] ++ rs2). split; [|split; [|split]].
    + replace (i + (length sep + S (S (length s)) + length (show_groups gs)))
        with (S b + length (show_groups gs)) by (unfold a, b; lia).
      rewrite Heq. by rewrite <- !(assoc_L (++)).
    + unfold groups_in in *. rewrite !Forall_app, Forall_singleton. simpl. repeat split; try (unfold a, b in *; lia).
      * eapply Forall_impl; [exact Hin1|]. simpl. unfold a. lia.
      * eapply Forall_impl; [exact Hin2|]. simpl. unfold a, b. lia.
    + rewrite !fmap_app. apply NoDup_app. split; [done|]. simpl. unfold groups_in in *. rewrite Forall_forall in Hin1, Hin2.
      split.
      * intros x (r & -> & Hr)%list_elem_of_fmap [Ha|(r2 & Hx & Hr2)%list_elem_of_fmap]%elem_of_cons.
        -- apply Hin1 in Hr. lia.
        -- apply Hin1 in Hr. apply Hin2 in Hr2. unfold b in *. lia.
      * constructor; [|done]. intros (r & Hx & Hr)%list_elem_of_fmap. apply Hin2 in Hr. unfold b in *. lia.
    + exists (rs1 ++ inner). cbn [group_places fst snd].
      replace (i + length sep + S (length s)) with b by (unfold a, b; lia). fold a. split.
      * rewrite Hperm. cbn [app]. solve_Permutation.
      * apply Forall_app. split.
        -- eapply Forall_impl; [exact Hin1|]. intros r Hr. exists (a, b). split; [apply list_elem_of_here|].
           simpl in *. unfold b. lia.
        -- eapply Forall_impl; [exact Hinner|]. intros r (t & Ht & Hr). exists t.
           split; [by apply list_elem_of_further|done].
Qed.

(** *** The outermost groups *)

Definition starts_less (a b : group) : Prop := a.1 < b.1.

(** Sorting groups with different starts orders the starts strictly. *)
Lemma merge_sort_strict (rs : list group) : NoDup rs.*1 → StronglySorted starts_less (merge_sort starts_before rs).
Proof.
  intros Hnd.
  assert (StronglySorted starts_before (merge_sort starts_before rs)) as Hs.
  { apply StronglySorted_merge_sort.
    - intros a b c H1 H2. unfold starts_before in *. lia.
    - intros a b. unfold starts_before. lia. }
  rewrite <- (merge_sort_Permutation starts_before rs) in Hnd.
  induction Hs as [|a l Hl IH Ha]; constructor.
  - apply IH. by apply NoDup_cons in Hnd as [_ ?].
  - apply NoDup_cons in Hnd as [Hnin _]. rewrite Forall_forall in *. intros b Hb. specialize (Ha b Hb).
    unfold starts_before, starts_less in *. assert (a.1 ≠ b.1); [|lia].
    intros Heq. apply Hnin. rewrite Heq. by apply list_elem_of_fmap_2.
Qed.

(** [findSubRuleRange] on sorted groups: the wanted ones are kept, the whole
    payload is skipped, and what lies inside a wanted one is dropped. *)
Lemma find_outermost (len : nat) (T L : list group) :
  (∀ r, r ∈ L → r ≠ (0, len - 1) → r ∈ T ∨ ∃ t, t ∈ T ∧ t.1 < r.1 ∧ r.2 < t.2) →
  (∀ t, t ∈ T → t ∈ L) →
  (∀ t t', t ∈ T → t' ∈ T → ¬ (t'.1 < t.1 ∧ t.2 < t'.2)) →
  (0, len - 1) ∉ T → StronglySorted starts_less L →
  findSubRuleRange len L = filter (λ r, r ∈ T) L.
Proof.
  intros Hin Hsub Hflat Hout Hsort. unfold findSubRuleRange.
  assert (∀ P Q, L = P ++ Q → foldl (find_step len) [] P = filter (λ r, r ∈ T) P) as Hinv;
    [|by apply (Hinv L []); rewrite app_nil_r].
  intros P. induction P as [|rr P IH] using rev_ind; intros Q HL; [done|].
  rewrite foldl_app, filter_app, (IH (rr :: Q)) by (by rewrite HL, <- (assoc_L (++))).
  cbn [foldl]. unfold find_step.
  assert (rr ∈ L) as HrrL by (rewrite HL; set_solver).
  destruct ((rr.1 =? 0)%nat && (rr.2 =? len - 1)%nat) eqn:Hw.
  { apply andb_true_iff in Hw as [H1%Nat.eqb_eq H2%Nat.eqb_eq].
    rewrite filter_cons_False, filter_nil, app_nil_r; [done|]. intros HT. apply Hout. destruct rr; simpl in *; by subst. }
  assert (rr ≠ (0, len - 1)) as Hne by (intros ->; simpl in Hw; by rewrite Nat.eqb_refl in Hw).
  destruct (decide (rr ∈ T)) as [HT|HT].
  - rewrite filter_cons_True by done. rewrite filter_nil.
    destruct (existsb _ _) eqn:Hex; [|done]. exfalso.
    apply existsb_exists in Hex as (r & Hr%list_elem_of_In & Hc). apply list_elem_of_filter in Hr as [HrT _].
    unfold containRange in Hc. apply andb_true_iff in Hc as [H1%Nat.ltb_lt H2%Nat.ltb_lt]. by apply (Hflat rr r).
  - rewrite filter_cons_False, filter_nil, app_nil_r by done.
    destruct (Hin rr HrrL Hne) as [?|(t & Ht & H1 & H2)]; [done|].
    assert (t ∈ P) as HtP.
    { specialize (Hsub t Ht). rewrite HL, elem_of_app, elem_of_app, list_elem_of_singleton in Hsub.
      destruct Hsub as [[?| ->]|HtQ]; [done|lia|].
      rewrite HL in Hsort. assert (starts_less rr t); [|unfold starts_less in *; lia].
      eapply (StronglySorted_app_1_elem_of starts_less (P ++ [rr]) Q); [exact Hsort|set_solver|done]. }
    destruct (existsb _ _) eqn:Hex; [done|]. exfalso.
    assert (existsb (λ r, containRange rr r.1 r.2) (filter (λ r, r ∈ T) P) = true); [|congruence].
    apply existsb_exists. exists t. split; [by apply list_elem_of_In, list_elem_of_filter|].
    unfold containRange. apply andb_true_iff. split; by apply Nat.ltb_lt.
Qed.

Lemma group_places_in i gs t :
  t ∈ group_places i gs → i ≤ t.1 ∧ t.1 < t.2 ∧ t.2 < i + length (show_groups gs).
Proof.
  revert i. induction gs as [|g gs IH]; intros i; cbn [group_places]; [by intros ?%elem_of_nil|].
  rewrite length_show_cons. intros [->|Ht]%elem_of_cons; simpl; [lia|]. apply IH in Ht. lia.
Qed.

Lemma group_places_apart i gs : StronglySorted (λ a b : group, a.2 < b.1) (group_places i gs).
Proof.
  revert i. induction gs as [|g gs IH]; intros i; cbn [group_places]; constructor; [apply IH|].
  apply Forall_forall. intros t Ht. apply group_places_in in Ht. simpl in *. lia.
Qed.

Lemma group_places_starts i gs : StronglySorted starts_less (group_places i gs).
Proof.
  revert i. induction gs as [|g gs IH]; intros i; cbn [group_places]; constructor; [apply IH|].
  apply Forall_forall. intros t Ht. apply group_places_in in Ht. unfold starts_less. simpl in *. lia.
Qed.

Lemma StronglySorted_NoDup (l : list group) : StronglySorted starts_less l → NoDup l.
Proof.
  induction 1 as [|a l _ IH Ha]; constructor; [|done]. rewrite Forall_forall in Ha.
  intros Hin. specialize (Ha a Hin). unfold starts_less in Ha. lia.
Qed.

Lemma StronglySorted_filter' {A} (R : A → A → Prop) (Q : A → Prop) `{∀ x, Decision (Q x)} l :
  StronglySorted R l → StronglySorted R (filter Q l).
Proof.
  induction 1 as [|a l _ IH Ha]; [constructor|]. rewrite filter_cons. case_decide; [|done].
  constructor; [done|]. rewrite Forall_forall in *. intros b [_ Hb]%list_elem_of_filter. auto.
Qed.

Lemma StronglySorted_pair {A} (R : A → A → Prop) l x y :
  StronglySorted R l → x ∈ l → y ∈ l → x = y ∨ R x y ∨ R y x.
Proof.
  induction 1 as [|a l _ IH Ha]; [by intros ?%elem_of_nil|]. rewrite Forall_forall in Ha.
  intros [->|Hx]%elem_of_cons [->|Hy]%elem_of_cons; auto.
Qed.

Lemma sub_payload_places pre gs post :
  map (sub_payload (pre ++ show_groups gs ++ post)) (group_places (length pre) gs) = map (λ g, of_bytes g.2) gs.
Proof.
  revert pre. induction gs as [|g gs IH]; intros pre; cbn [group_places map]; [done|]. f_equal.
  - unfold sub_payload, show_groups. cbn [map concat fst snd]. f_equal.
    replace (length pre + length g.1 + S (length g.2) - (length pre + length g.1) - 1) with (length g.2) by lia.
    rewrite <- !(assoc_L (++)). cbn [app].
    rewrite drop_app_ge by lia. rewrite drop_app_ge by lia.
    replace (S (length pre + length g.1) - length pre - length g.1) with 1 by lia. cbn [drop].
    rewrite drop_0, <- !(assoc_L (++)). by rewrite take_app_length.
  - specialize (IH (pre ++ g.1 ++ "("%char :: g.2 ++ [")"%char])).
    rewrite !length_app in IH. cbn [length] in IH. rewrite length_app in IH. cbn [length] in IH.
    replace (S (length pre + length g.1 + S (length g.2)))
      with (length pre + (length g.1 + S (length g.2 + 1))) by lia.
    rewrite <- IH. f_equal. f_equal. unfold show_groups. cbn [map concat]. by rewrite <- !(assoc_L (++)).
Qed.

Lemma payload_bracketed gs last :
  HasPrefix (of_bytes (show_payload gs last)) "(" = true ∧ HasSuffix (of_bytes (show_payload gs last)) ")" = true.
Proof.
  split; apply bool_decide_eq_true; autorewrite with gostr; [eexists; reflexivity|].
  exists ("("%char :: show_groups gs ++ last). unfold show_payload. simpl. by rewrite <- (assoc_L (++)).
Qed.

(** The ranges [format] finds: the groups that were written, groups within
    them, and the whole payload; in the order they start. *)
Lemma format_payload gs last :
  Forall (λ g, no_brackets g.1 ∧ balanced g.2) gs → no_brackets last →
  let len := length (show_payload gs last) in
  let T := group_places 1 gs in
  ∃ inner L, format (show_payload gs last) = Some L ∧ StronglySorted starts_less L ∧
    (∀ r, r ∈ L ↔ r ∈ T ∨ r ∈ inner ∨ r = (0, len - 1)) ∧
    Forall (λ r, ∃ t, t ∈ T ∧ t.1 < r.1 ∧ r.2 < t.2) inner.
Proof.
  intros Hgs Hlast len T. set (n := length (show_groups gs)).
  assert (len = n + length last + 2) as Hlen.
  { unfold len, show_payload. simpl. rewrite !length_app. simpl. lia. }
  destruct (format_groups gs 1 (last ++ [")"%char]) [0] [] Hgs) as (rs & Hfmt & Hin & Hnd & inner & Hperm & Hinner).
  fold n in Hfmt, Hin.
  assert (format_go 0 (show_payload gs last) [] [] = Some (rs ++ [(0, len - 1)])) as Hgo.
  { unfold show_payload. cbn [format_go]. rewrite bool_decide_eq_true_2 by done. rewrite Hfmt.
    rewrite format_plain by done. cbn [format_go]. rewrite bool_decide_eq_false_2, bool_decide_eq_true_2 by done.
    cbn [app]. do 4 f_equal. lia. }
  set (L := merge_sort starts_before (rs ++ [(0, len - 1)])).
  assert (∀ r, r ∈ L ↔ r ∈ T ∨ r ∈ inner ∨ r = (0, len - 1)) as HL.
  { intros r. unfold L. rewrite merge_sort_Permutation, Hperm, !elem_of_app, list_elem_of_singleton. tauto. }
  assert (StronglySorted starts_less L) as Hsort.
  { apply merge_sort_strict. rewrite fmap_app. apply NoDup_app. split; [done|]. split; [|apply NoDup_singleton].
    intros a (r & -> & Hr)%list_elem_of_fmap Ha%list_elem_of_singleton. simpl in Ha.
    unfold groups_in in Hin. rewrite Forall_forall in Hin. apply Hin in Hr. lia. }
  exists inner, L. split_and!; [|done..]. unfold format. by rewrite Hgo.
Qed.

(** Reading a logic payload back gives the rules that were written in it:
    for any texts with matching brackets, put in brackets of their own, with
    any separators free of brackets between them, the outermost groups that
    [findSubRuleRange] keeps are those texts, in order, whatever groups they
    contain. *)
Theorem logic_payload_roundtrip (gs : list (list ascii * list ascii)) (last : list ascii) :
  Forall (λ g, no_brackets g.1 ∧ balanced g.2) gs → no_brackets last →
  sub_payloads (of_bytes (show_payload gs last)) = Some (map (λ g, of_bytes g.2) gs).
Proof.
  intros Hgs Hlast. unfold sub_payloads. autorewrite with gostr.
  destruct (payload_bracketed gs last) as [-> ->]. cbn [negb orb].
  destruct (format_payload gs last Hgs Hlast) as (inner & L & -> & Hsort & HL & Hinner).
  cbn [fmap option_fmap option_map mbind option_bind]. f_equal.
  set (len := length (show_payload gs last)) in *. set (T := group_places 1 gs) in *.
  assert (∀ t, t ∈ T → 1 ≤ t.1) as HT1 by (intros t Ht; apply group_places_in in Ht; lia).
  rewrite (find_outermost len T L).
  - transitivity (map (sub_payload (show_payload gs last)) T).
    + f_equal. apply (StronglySorted_unique_strong starts_less).
      * unfold starts_less. lia.
      * eapply StronglySorted_filter'; exact Hsort.
      * apply group_places_starts.
      * apply NoDup_Permutation.
        -- apply NoDup_filter. by apply StronglySorted_NoDup.
        -- apply StronglySorted_NoDup, group_places_starts.
        -- intros r. rewrite list_elem_of_filter, HL. tauto.
    + exact (sub_payload_places ["("%char] gs (last ++ [")"%char])).
  - intros r Hr Hne. apply HL in Hr as [Hr|[Hr|Hr]]; [by left| |done]. right.
    rewrite Forall_forall in Hinner. destruct (Hinner r Hr) as (t & Ht & H12). by exists t.
  - intros t Ht. apply HL. by left.
  - intros t t' Ht Ht' [H1 H2].
    destruct (StronglySorted_pair _ _ _ _ (group_places_apart 1 gs) Ht Ht') as [->|[H|H]]; [lia|..];
      apply group_places_in in Ht, Ht'; lia.
  - intros Ht. specialize (HT1 _ Ht). simpl in HT1. lia.
  - done.
Qed.

Lemma logic_payload_roundtrip_witness :
  sub_payloads "((DOMAIN,a.com),(NOT,((NETWORK,UDP))))" = Some ["DOMAIN,a.com"; "NOT,((NETWORK,UDP))"]%string.
Proof.
  refine (logic_payload_roundtrip [([], bytes "DOMAIN,a.com"); (bytes ",", bytes "NOT,((NETWORK,UDP))")] [] _ _).
  - assert (∀ l, existsb (λ c, bool_decide (c = "("%char ∨ c = ")"%char)) l = false → no_brackets l) as Hplain.
    { intros l Hl. split; intros Hin%list_elem_of_In; apply not_true_iff_false in Hl; apply Hl;
        apply existsb_exists; (eexists; split; [exact Hin|by apply bool_decide_eq_true; auto]). }
    constructor; [|constructor; [|constructor]]; cbn [fst snd].
    + split; [by apply Hplain|]. by apply balanced_plain, Hplain.
    + split; [by apply Hplain|]. do 4 (apply bal_char; [discriminate..|]).
      apply (bal_group (bytes "(NETWORK,UDP)") []); [|constructor].
      apply (bal_group (bytes "NETWORK,UDP") []); [|constructor]. by apply balanced_plain, Hplain.
  - split; by intros ?%elem_of_nil.
Defined.

(** *** The fields of a rule line *)

(** A field that survives the splitting and the trimming. *)
Definition clean (s : string) : Prop :=
  ","%char ∉ bytes s ∧ Trim (λ c, bool_decide (c = " "%char)) s = s.

Lemma trimArr_Split_Join items :
  items ≠ [] → Forall clean items → trimArr (Split (Join items ",") ","%char) = items.
Proof.
  intros Hne Hc. rewrite Split_Join; [|done|].
  - unfold trimArr. induction Hc as [|s items [_ Hs] _ IH]; [done|]. cbn [map]. rewrite Hs.
    destruct items as [|s' items]; [done|]. f_equal. by apply IH.
  - eapply Forall_impl; [exact Hc|]. by intros s [? _].
Qed.

(** A rule line made of clean fields is read back field by field: type,
    payload, target and parameters, and for the types whose payload may hold
    commas everything between the type and the target is the payload. *)
Theorem rule_line_roundtrip (tp payload target : string) (params ps : list string) :
  Forall clean (tp :: payload :: target :: params) → Forall clean (tp :: ps ++ [target]) →
  (ToUpper tp ≠ "MATCH"%string → ToUpper tp ∉ comma_types →
    ParseRulePayload (Join (tp :: payload :: target :: params) ",") true = (ToUpper tp, payload, target, params)) ∧
  (ToUpper tp ∈ comma_types →
    ParseRulePayload (Join (tp :: ps ++ [target]) ",") true = (ToUpper tp, Join ps ",", target, [])).
Proof.
  intros H1 H2. split.
  - intros Hm Hct. unfold ParseRulePayload. rewrite trimArr_Split_Join by done.
    by rewrite bool_decide_eq_false_2, bool_decide_eq_false_2 by done.
  - intros Hct. unfold ParseRulePayload. rewrite trimArr_Split_Join by done.
    assert (ToUpper tp ≠ "MATCH"%string) as Hm by (intros Hm; rewrite Hm in Hct; by vm_compute in Hct; set_solver).
    destruct (ps ++ [target]) as [|i1 item2] eqn:Hps; [by destruct ps|].
    rewrite bool_decide_eq_false_2, bool_decide_eq_true_2 by done. rewrite <- Hps.
    rewrite removelast_last. f_equal. f_equal. by rewrite List.last_last.
Qed.

Lemma rule_line_roundtrip_witness :
  ParseRulePayload "ip-cidr,10.0.0.0/8,PROXY,no-resolve" true = ("IP-CIDR", "10.0.0.0/8", "PROXY", ["no-resolve"])%string.
Proof.
  assert (∀ s, existsb (λ c, bool_decide (c = ","%char)) (bytes s) = false →
    Trim (λ c, bool_decide (c = " "%char)) s = s → clean s) as Hclean.
  { intros s Hs Ht. split; [|done]. intros Hin%list_elem_of_In. apply not_true_iff_false in Hs. apply Hs.
    apply existsb_exists. eexists. split; [exact Hin|]. by apply bool_decide_eq_true. }
  refine (proj1 (rule_line_roundtrip "ip-cidr" "10.0.0.0/8" "PROXY" ["no-resolve"]%string [] _ _) _ _).
  - repeat (constructor; [by apply Hclean|]). constructor.
  - repeat (constructor; [by apply Hclean|]). constructor.
  - discriminate.
  - intros Hin. repeat (apply elem_of_cons in Hin as [Hin|Hin]; [discriminate|]). by apply elem_of_nil in Hin.
Defined.

(** A classical rule set takes a RULE-SET rule hidden in AND, though it refuses
    it by itself: the circular rule set of [circular_ruleset_never_answers]. *)
Example classical_accepts_hidden_ruleset :
  classical_Insert demo_penv "AND,((RULE-SET,s))" [] = [Logic "((RULE-SET,s))" "" TAND [RuleSet "s" "" false false]] ∧
  classical_Insert demo_penv "RULE-SET,s" [] = [].
Proof. vm_compute. by split. Qed.
