(* ===== verification/Tunnel.v ===== *)
(** * The tunnel: how a connection finds its outbound ([tunnel/tunnel.go])

    Metadata is fixed, mapped back from fake addresses, and resolved to an
    outbound by the mode or by the first rule that matches and can be used;
    the helper's closures resolve the host and look up the process at most
    once.  Sockets, sniffing, the UDP NAT table and the goroutines around them
    are not modelled.  The resolver, the process lookup and the adapters are
    parameters: an adapter group is asked what it currently unwraps to. *)

From Stdlib Require Import ZArith Lia Ascii String.
From stdpp Require Import prelude strings gmap list.
From S2P Require Import Prelude Ranges Netip DomainTrie FakeIP Metadata Hosts Rules RuleConfig.
Local Open Scope go_scope.

(** ** State of the tunnel *)

Inductive TunnelStatus := Suspend | Inner | Running.

#[global] Instance TunnelStatus_eq_dec : EqDecision TunnelStatus.
Proof. solve_decision. Defined.

Inductive TunnelMode := Global | RuleMode | Direct.

Inductive FindProcessMode := FindProcessStrict | FindProcessAlways | FindProcessOff.

(** An outbound: [Unwrap(metadata, false)] gives the member a group has
    chosen, nil for a plain outbound. *)
Inductive Proxy :=
  mkProxy (name : string) (type : AdapterType) (supportUDP : bool) (unwrap : Metadata → option Proxy).

Definition proxy_name (p : Proxy) : string := match p with mkProxy n _ _ _ => n end.

Definition SupportUDP (p : Proxy) : bool := match p with mkProxy _ _ u _ => u end.

(** [for a := adapter; a != nil; a = a.Unwrap(metadata, false)]: is one of the
    adapters on the way of kind [t]? *)
Fixpoint chain_has (t : AdapterType) (m : Metadata) (p : Proxy) : bool :=
  match p with
  | mkProxy _ tp _ unwrap =>
    bool_decide (tp = t) || match unwrap m with Some q => chain_has t m q | None => false end
  end.

(** A top-level rule with its statistics, [wrapper.RuleWrapper]; times in
    nanoseconds. *)
Record RuleWrapper := mkWrapper {
  w_rule : Rule; disabled : bool; hitCount : Z; hitAt : Z; missCount : Z; missAt : Z
}.

Definition NewRuleWrapper (r : Rule) : RuleWrapper := mkWrapper r false 0 0 0 0.

Definition SetDisabled (v : bool) (w : RuleWrapper) : RuleWrapper :=
  mkWrapper (w_rule w) v (hitCount w) (hitAt w) (missCount w) (missAt w).

Definition Hit (now : Z) (w : RuleWrapper) : RuleWrapper :=
  mkWrapper (w_rule w) (disabled w) (to_u64 (hitCount w + 1)) now (missCount w) (missAt w).

Definition Miss (now : Z) (w : RuleWrapper) : RuleWrapper :=
  mkWrapper (w_rule w) (disabled w) (hitCount w) (hitAt w) (to_u64 (missCount w + 1)) now.

(** What the resolver promises the tunnel: [resolver.Enhancer]. *)
Class HostMapper (H : Type) := {
  hm_MappingEnabled : H → bool;
  hm_IsFakeIP : Addr → H → bool;
  hm_FindHostByIP : Addr → H → option string * H
}.

#[global] Instance enhancer_mapper {S} `{Store S} : HostMapper (Enhancer S) := {|
  hm_MappingEnabled := MappingEnabled;
  hm_IsFakeIP := IsFakeIP;
  hm_FindHostByIP := FindHostByIP
|}.

(** The configuration and the outside world. *)
Record Tunnel := mkTunnel {
  t_status : TunnelStatus;
  t_mode : TunnelMode;
  findProcessMode : FindProcessMode;
  proxies : gmap string Proxy;
  t_env : Env;
  DefaultHosts : Node HostValue;
  system_hosts : option (string → list string);
  CMFA : bool;
  resolver_ResolveIP : string → option Addr;
  FindProcessName : string → Addr → Z → option (Z * string);
  FindPackageName : Metadata → option string;
  randIntN : nat → nat
}.

Definition isHandle (T : Tunnel) (t : InboundType) : bool :=
  bool_decide (t_status T = Running) || (bool_decide (t_status T = Inner) && bool_decide (t = INNER)).

(** ** Before the rules *)

Definition fixMetadata (m : Metadata) : Metadata :=
  let m := set_DstIP (Unmap (DstIP m)) m in
  match ParseAddr (Host m) with
  | Some ip => set_Host "" (set_DstIP (Unmap ip) m)
  | None => m
  end.

Section Mapper.
Context {H : Type} `{HostMapper H}.

(** The package functions of [component/resolver]; a nil mapper is [None]. *)
Definition resolver_MappingEnabled (o : option H) : bool := default false (hm_MappingEnabled <$> o).

Definition resolver_IsFakeIP (ip : Addr) (o : option H) : bool := default false (hm_IsFakeIP ip <$> o).

Definition resolver_FindHostByIP (ip : Addr) (o : option H) : option string * option H :=
  match o with
  | Some h => let '(r, h') := hm_FindHostByIP ip h in (r, Some h')
  | None => (None, None)
  end.

Definition needLookupIP (m : Metadata) (o : option H) : bool :=
  resolver_MappingEnabled o && bool_decide (Host m = "") && IsValid (DstIP m).

Definition hosts_search (T : Tunnel) (fuel : nat) (domain : string) (isDomain : bool) : outcome (option HostValue * bool) :=
  match Hosts_Search (system_hosts T) fuel (DefaultHosts T) domain isDomain with
  | Some r => Done r
  | None => OutOfFuel
  end.

(** The address taken from a hosts answer; an index out of range panics. *)
Definition rand_ip (T : Tunnel) (hv : HostValue) : outcome Addr :=
  match RandIP (randIntN T) hv with
  | Some ip => Done ip
  | None => Panic
  end.

(** The result: whether it failed, the metadata and the mapper afterwards. *)
Definition preHandleMetadata (T : Tunnel) (fuel : nat) (m : Metadata) (o : option H)
    : outcome (bool * Metadata * option H) :=
  if needLookupIP m o then
    let '(found, o') := resolver_FindHostByIP (DstIP m) o in
    match found with
    | Some host =>
      let m1 := set_DNSMode DNSMapping (set_Host host m) in
      if resolver_IsFakeIP (DstIP m) o' then Done (false, set_DNSMode DNSFakeIP (set_DstIP NoAddr m1), o')
      else
        match hosts_search T fuel host false with
        | Done (Some node, true) =>
          match rand_ip T node with
          | Done ip => Done (false, set_DstIP ip m1, o')
          | Panic => Panic
          | OutOfFuel => OutOfFuel
          end
        | Done (None, true) => Panic
        | Done (Some node, false) => Done (false, if IsDomain node then set_Host (hv_Domain node) m1 else m1, o')
        | Done (None, false) => Done (false, m1, o')
        | Panic => Panic
        | OutOfFuel => OutOfFuel
        end
    | None => Done (resolver_IsFakeIP (DstIP m) o', m, o')
    end
  else
    match hosts_search T fuel (Host m) true with
    | Done (Some node, true) => Done (false, set_Host (hv_Domain node) m, o)
    | Done (None, true) => Panic
    | Done (_, false) => Done (false, m, o)
    | Panic => Panic
    | OutOfFuel => OutOfFuel
    end.

End Mapper.

(** ** The helper's closures *)

(** The calls that leave the program, in order. *)
Inductive event := EvResolve (host : string) | EvProcess (ip : Addr) (port : Z).

(** What the closures of [resolveMetadata] capture. *)
Record capture := mkCapture { resolved : bool; attemptProcessLookup : bool; calls : list event }.

Definition resolve_closure (T : Tunnel) (s : mst capture) : mst capture :=
  let m := md s in
  let c := cap s in
  if negb (resolved c) && negb (bool_decide (Host m = "")) && negb (Resolved m) then
    mkSt (match resolver_ResolveIP T (Host m) with Some ip => set_DstIP ip m | None => m end)
      (mkCapture true (attemptProcessLookup c) (calls c ++ [EvResolve (Host m)]))
  else s.

(** [filepath.Base] for slash-separated paths. *)
Definition Base (path : string) : string :=
  if bool_decide (path = "") then "."
  else
    let l := drop_while (λ c, bool_decide (c = "/"%char)) (reverse (bytes path)) in
    match l with
    | [] => "/"
    | _ => of_bytes (List.last (split_bytes "/"%char (reverse l)) [])
    end.

Definition find_process_closure (T : Tunnel) (s : mst capture) : mst capture :=
  let m := md s in
  let c := cap s in
  if attemptProcessLookup c then
    let c' := mkCapture (resolved c) false (calls c ++ [EvProcess (SrcIP m) (m_SrcPort m)]) in
    let m' :=
      if negb (CMFA T) then
        match FindProcessName T (NetWork_String (m_NetWork m)) (SrcIP m) (m_SrcPort m) with
        | None => m
        | Some (uid, path) =>
          let m1 := set_process uid (Base path) path m in
          match FindPackageName T m1 with
          | Some pkg => set_process uid pkg path m1
          | None => m1
          end
        end
      else
        match FindPackageName T m with
        | Some pkg => set_process (m_Uid m) pkg (m_ProcessPath m) m
        | None => m
        end in
    mkSt m' c'
  else s.

Definition check_pass_rule (T : Tunnel) (adapterName : string) (m : Metadata) : bool :=
  match proxies T !! adapterName with
  | None => false
  | Some p => chain_has APassRule m p
  end.

Definition new_helper (T : Tunnel) : Helper capture :=
  mkHelper (Some (resolve_closure T)) (Some (find_process_closure T)) (Some (check_pass_rule T)).

(** ** Matching the rules *)

(** The default rules are wrapped, the sub-rule lists are not. *)
Inductive AnyRule := Wrapped (w : RuleWrapper) | Bare (r : Rule).

Definition rule_of (a : AnyRule) : Rule := match a with Wrapped w => w_rule w | Bare r => r end.

Definition enabled (a : AnyRule) : bool := match a with Wrapped w => negb (disabled w) | Bare _ => true end.

Definition counted (now : Z) (hit : bool) (a : AnyRule) : AnyRule :=
  match a with
  | Wrapped w => Wrapped (if disabled w then w else if hit then Hit now w else Miss now w)
  | Bare r => Bare r
  end.

Section Match.
Context (T : Tunnel) (fuel : nat) (now : Z).

(** [rule.Match], for a wrapper or a rule. *)
Definition any_Match {X} (a : AnyRule) (h : Helper X) : M (X:=X) (bool * string) :=
  if enabled a then run_rule (t_env T) fuel (rule_of a) h else mret (false, "").

(** The outbound a matching rule names, if it can be used for the connection:
    it exists, does not unwrap to a Pass outbound, and carries UDP if needed. *)
Definition usable_adapter (m : Metadata) (ada : string) : option Proxy :=
  match proxies T !! ada with
  | None => None
  | Some adapter =>
    if chain_has APass m adapter then None
    else if bool_decide (m_NetWork m = UDP) && negb (SupportUDP adapter) then None
    else Some adapter
  end.

(** The loop of [match], with the rules as their counters leave them. *)
Fixpoint match_loop {X} (rs : list AnyRule) (h : Helper X) : M (X:=X) (option (Proxy * Rule) * list AnyRule) :=
  match rs with
  | [] => mret (None, [])
  | r :: rs' =>
    p ← any_Match r h;
    let r' := counted now p.1 r in
    m ← get_md;
    match (if (p.1 : bool) then usable_adapter m p.2 else None) with
    | Some adapter => mret (Some (adapter, rule_of r), r' :: rs')
    | None => q ← match_loop rs' h; mret (q.1, r' :: q.2)
    end
  end.

(** The list [getRules] picks, and whether it is the default one. *)
Definition getRules (rules : list AnyRule) (m : Metadata) : list AnyRule :=
  match subRules (t_env T) !! SpecialRules m with
  | Some sr => map Bare sr
  | None => rules
  end.

(** [match]: the proxy (nil if there is no DIRECT), the rule, and the default
    rules afterwards. *)
Definition tunnel_match (rules : list AnyRule) (h : Helper capture)
    : M (X:=capture) (option Proxy * option Rule * list AnyRule) :=
  m ← get_md;
  q ← match_loop (getRules rules m) h;
  let rules' := match subRules (t_env T) !! SpecialRules m with Some _ => rules | None => q.2 end in
  mret (match q.1 with
        | Some (adapter, rule) => (Some adapter, Some rule, rules')
        | None => (proxies T !! "DIRECT"%string, None, rules')
        end).

(** [resolveMetadata]; the first component is the error flag. *)
Definition resolveMetadata (rules : list AnyRule) (m : Metadata)
    : outcome (bool * option Proxy * option Rule * list AnyRule * mst capture) :=
  if negb (bool_decide (SpecialProxy m = "")) then
    let proxy := proxies T !! SpecialProxy m in
    Done (bool_decide (proxy = None), proxy, None, rules, mkSt m (mkCapture false false []))
  else
    let attempt := negb (bool_decide (m_Type m = INNER)) in
    match hosts_search T fuel (Host m) false with
    | Panic => Panic
    | OutOfFuel => OutOfFuel
    | Done (node, ok) =>
      match (if (ok : bool) then match node with Some hv => rand_ip T hv | None => Panic end else Done (DstIP m)) with
      | Panic => Panic
      | OutOfFuel => OutOfFuel
      | Done ip =>
        let s0 := mkSt (if ok then set_DstIP ip m else m) (mkCapture ok attempt []) in
        let h := new_helper T in
        let '(h, s1) :=
          match findProcessMode T with
          | FindProcessAlways => (mkHelper (ResolveIP h) None (CheckPassRule h), find_process_closure T s0)
          | FindProcessOff => (mkHelper (ResolveIP h) None (CheckPassRule h), s0)
          | FindProcessStrict => (h, s0)
          end in
        match t_mode T with
        | Direct => Done (false, proxies T !! "DIRECT"%string, None, rules, s1)
        | Global => Done (false, proxies T !! "GLOBAL"%string, None, rules, s1)
        | RuleMode =>
          match tunnel_match rules h s1 with
          | Done (proxy, rule, rules', s2) => Done (false, proxy, rule, rules', s2)
          | Panic => Panic
          | OutOfFuel => OutOfFuel
          end
        end
      end
    end.

End Match.

(** ** Retrying a dial *)

Inductive dial_error := ErrIPNotFound | ErrIPVersion | ErrIPv6Disabled | ErrReject | ErrOther.

Definition shouldStopRetry (e : dial_error) : bool :=
  match e with
  | ErrIPNotFound | ErrIPVersion | ErrIPv6Disabled | ErrReject => true
  | ErrOther => false
  end.

(** The loop of [retry] over the outcomes of the attempts: [ft i] is what the
    [i]th attempt gives and [wait i] whether waiting after it succeeded.  The
    result is the last outcome and the number of attempts made. *)
Fixpoint retry_loop {A} (n : nat) (i : nat) (ft : nat → A + dial_error) (wait : nat → bool)
    (last : option (A + dial_error)) : option (A + dial_error) * nat :=
  match n with
  | O => (last, i)
  | S n' =>
    match ft i with
    | inl t => (Some (inl t), S i)
    | inr e =>
      if shouldStopRetry e then (Some (inr e), S i)
      else if wait i then retry_loop n' (S i) ft wait (Some (inr e))
      else (Some (inr e), S i)
    end
  end.

Definition retry {A} (ft : nat → A + dial_error) (wait : nat → bool) : option (A + dial_error) * nat :=
  retry_loop 10 0 ft wait None.

(** ** Lemmas *)

Set Default Proof Using "Type*".

(** *** What resolving the metadata may change *)

Definition is_resolve (e : event) : bool := match e with EvResolve _ => true | _ => false end.

Definition count_calls (f : event → bool) (c : capture) : nat := length (List.filter f (calls c)).

(** The calls made and the one that may still be made. *)
Definition resolve_budget (c : capture) : nat := count_calls is_resolve c + (if resolved c then 0 else 1).

Definition process_budget (c : capture) : nat :=
  count_calls (λ e, negb (is_resolve e)) c + (if attemptProcessLookup c then 1 else 0).

(** The budgets are never exceeded. *)
Definition thrifty (c c' : capture) : Prop :=
  resolve_budget c' ≤ resolve_budget c ∧ process_budget c' ≤ process_budget c.

(** The same request: every field but the addresses and ports of the two ends,
    the geographic caches and the process. *)
Definition same_request (m m' : Metadata) : Prop :=
  m_NetWork m' = m_NetWork m ∧ m_Type m' = m_Type m ∧ m_InIP m' = m_InIP m ∧ m_InPort m' = m_InPort m ∧
  m_InName m' = m_InName m ∧ m_InUser m' = m_InUser m ∧ Host m' = Host m ∧ m_DNSMode m' = m_DNSMode m ∧
  SpecialProxy m' = SpecialProxy m ∧ SpecialRules m' = SpecialRules m ∧ RemoteDst m' = RemoteDst m ∧
  m_DSCP m' = m_DSCP m ∧ SniffHost m' = SniffHost m.

Definition same_ports (m m' : Metadata) : Prop := m_SrcPort m' = m_SrcPort m ∧ m_DstPort m' = m_DstPort m.

(** A step that does not resolve. *)
Definition step0 (s s' : mst capture) : Prop :=
  same_request (md s) (md s') ∧ same_ports (md s) (md s') ∧
  SrcIP (md s') = SrcIP (md s) ∧ DstIP (md s') = DstIP (md s) ∧ thrifty (cap s) (cap s').

(** The destination as it was, or what the resolver gives for the host when
    there was none. *)
Definition dst_resolved (T : Tunnel) (m m' : Metadata) : Prop :=
  DstIP m' = DstIP m ∨
  (DstIP m = NoAddr ∧ Host m ≠ ""%string ∧ resolver_ResolveIP T (Host m) = Some (DstIP m')).

Definition step1 (T : Tunnel) (s s' : mst capture) : Prop :=
  same_request (md s) (md s') ∧ same_ports (md s) (md s') ∧
  SrcIP (md s') = SrcIP (md s) ∧ dst_resolved T (md s) (md s') ∧ thrifty (cap s) (cap s').

Lemma same_request_refl m : same_request m m.
Proof. unfold same_request. tauto. Qed.

Lemma same_request_trans m1 m2 m3 : same_request m1 m2 → same_request m2 m3 → same_request m1 m3.
Proof. unfold same_request. intuition congruence. Qed.

#[global] Instance step0_preorder : PreOrder step0.
Proof.
  split.
  - intros s. unfold step0, same_ports, thrifty. split_and!; auto using same_request_refl.
  - intros s1 s2 s3 (H1 & P1 & S1 & D1 & T1) (H2 & P2 & S2 & D2 & T2). unfold step0, same_ports, thrifty in *.
    split; [by eapply same_request_trans|]. intuition (congruence || lia).
Qed.

#[global] Instance step1_preorder T : PreOrder (step1 T).
Proof.
  split.
  - intros s. unfold step1, same_ports, dst_resolved, thrifty. split_and!; auto using same_request_refl.
  - intros s1 s2 s3 (H1 & P1 & S1 & D1 & T1) (H2 & P2 & S2 & D2 & T2). unfold step1, same_ports, thrifty in *.
    assert (Host (md s2) = Host (md s1)) as Hh by apply H1.
    split; [by eapply same_request_trans|]. split; [intuition congruence|]. split; [congruence|].
    split; [|lia]. unfold dst_resolved in *. rewrite Hh in D2.
    destruct D1 as [D1|(E1 & N1 & R1)], D2 as [D2|(E2 & N2 & R2)]; try rewrite D1 in *; auto.
    right. rewrite D2. auto.
Qed.

Lemma step0_step1 T s s' : step0 s s' → step1 T s s'.
Proof. intros (H1 & H2 & H3 & H4 & H5). unfold step1, dst_resolved. split_and!; auto; by destruct H5. Qed.

Lemma step0_geo (s : mst capture) sg dg sa da : step0 s (upd (set_geo sg dg sa da) s).
Proof. unfold step0, same_request, same_ports, thrifty. simpl. intuition. Qed.

Lemma step0_swap s s' : step0 (upd SwapSrcDst s) s' → step0 s (upd SwapSrcDst s').
Proof. unfold step0, same_request, same_ports. simpl. intuition. Qed.

Lemma count_calls_snoc f r a l e :
  count_calls f (mkCapture r a (l ++ [e])) = count_calls f (mkCapture r a l) + (if f e then 1 else 0).
Proof. unfold count_calls. simpl. rewrite List.filter_app, length_app. simpl. by destruct (f e). Qed.

Lemma step0_set_process uid n p s c :
  thrifty (cap s) c → step0 s (mkSt (set_process uid n p (md s)) c).
Proof. intros Ht. unfold step0, same_request, same_ports. simpl. intuition. Qed.

Lemma step0_find_process T s : step0 s (find_process_closure T s).
Proof.
  unfold find_process_closure. destruct (attemptProcessLookup (cap s)) eqn:Ha; [|reflexivity].
  set (c' := mkCapture _ _ _).
  assert (thrifty (cap s) c') as Ht.
  { unfold thrifty, resolve_budget, process_budget, c'. rewrite !count_calls_snoc, Ha. simpl.
    destruct (cap s) as [r a l]; simpl. unfold count_calls; simpl. lia. }
  assert (step0 s (mkSt (md s) c')) as Hsame by (unfold step0, same_ports; auto using same_request_refl).
  repeat case_match; try done; by apply step0_set_process.
Qed.

Lemma step1_resolve T s : step1 T s (resolve_closure T s).
Proof.
  unfold resolve_closure. destruct (resolved (cap s)) eqn:Hr; [reflexivity|].
  case_bool_decide as Hh; [reflexivity|]. unfold Resolved. destruct (DstIP (md s)) eqn:Hd; simpl; [|reflexivity..].
  set (c' := mkCapture _ _ _).
  assert (thrifty (cap s) c') as Ht.
  { unfold thrifty, resolve_budget, process_budget, c'. rewrite !count_calls_snoc, Hr. simpl.
    destruct (cap s) as [r a l]; simpl. unfold count_calls; simpl. destruct a; lia. }
  destruct (resolver_ResolveIP T (Host (md s))) as [ip|] eqn:Hip.
  - unfold step1, same_request, same_ports, dst_resolved. simpl. intuition.
  - unfold step1, same_ports, dst_resolved. simpl. split_and!; auto using same_request_refl.
Qed.

Lemma good_new_helper T h :
  (FindProcess h = FindProcess (new_helper T) ∨ FindProcess h = None) → ResolveIP h = ResolveIP (new_helper T) →
  good_helper step0 (step1 T) h.
Proof.
  intros Hf Hr. split.
  - intros f Hff s. rewrite Hff in Hf. destruct Hf as [[= ->]|?]; [apply step0_find_process|done].
  - intros f Hrf s. rewrite Hrf in Hr. injection Hr as ->. apply step1_resolve.
Qed.

#[local] Instance tunnel_frame_preorder T h : PreOrder (frame step0 (step1 T) h).
Proof. unfold frame. destruct (ResolveIP h); apply _. Qed.

Lemma any_Match_frame T fuel a h : good_helper step0 (step1 T) h → preserves (frame step0 (step1 T) h) (any_Match T fuel a h).
Proof.
  intros Hh. unfold any_Match. case_match; preserve.
  apply run_rule_frame; auto using step0_geo, step0_swap, step0_step1; apply _.
Qed.

Lemma match_loop_frame T fuel now rs h :
  good_helper step0 (step1 T) h → preserves (frame step0 (step1 T) h) (match_loop T fuel now rs h).
Proof.
  intros Hh.
  induction rs as [|r rs IH]; simpl; preserve; [by apply any_Match_frame|].
  case_match; preserve.
Qed.

Lemma tunnel_match_step1 T fuel now rules h s r s' :
  good_helper step0 (step1 T) h → tunnel_match T fuel now rules h s = Done (r, s') → step1 T s s'.
Proof.
  intros Hh Hm. unfold tunnel_match in Hm. apply bind_Done in Hm as (m & s1 & H1 & Hm). injection H1 as <- <-.
  apply bind_Done in Hm as (q & s2 & H2 & Hm). injection Hm as <- <-.
  apply (match_loop_frame _ _ _ _ _ Hh) in H2. unfold frame in H2.
  destruct (ResolveIP h); [done|by apply step0_step1].
Qed.

(** What [resolveMetadata] does with the metadata: nothing, for a special proxy;
    else a lookup in the hosts table, then closures and rules. *)
Lemma resolve_metadata_steps (T : Tunnel) fuel now rules (m : Metadata) err proxy rule rules' s :
  resolveMetadata T fuel now rules m = Done (err, proxy, rule, rules', s) →
  s = mkSt m (mkCapture false false []) ∨
  ∃ node (ok : bool) ip,
    hosts_search T fuel (Host m) false = Done (node, ok) ∧
    (if ok then ∃ hv, node = Some hv ∧ rand_ip T hv = Done ip else ip = DstIP m) ∧
    step1 T (mkSt (if ok then set_DstIP ip m else m) (mkCapture ok (negb (bool_decide (m_Type m = INNER))) [])) s.
Proof.
  unfold resolveMetadata. case_bool_decide; simpl; [|intros [= _ _ _ _ <-]; by left].
  destruct (hosts_search T fuel (Host m) false) as [[node ok]| |] eqn:Hs; [|done..].
  destruct (if ok then _ else _) as [ip| |] eqn:Hip; [|done..].
  set (s0 := mkSt (if ok then set_DstIP ip m else m) _).
  set (hs := match findProcessMode T with FindProcessStrict => _ | _ => _ end).
  assert (good_helper step0 (step1 T) hs.1 ∧ step1 T s0 hs.2) as [Hgood Hstep].
  { unfold hs. destruct (findProcessMode T); simpl; (split; [apply good_new_helper; auto|]); try reflexivity.
    apply step0_step1, step0_find_process. }
  destruct hs as [h s1]. simpl in Hgood, Hstep. intros Hrun. right. exists node, ok, ip. split; [done|]. split.
  { destruct ok; [|by injection Hip as <-]. destruct node as [hv|]; [|done]. eauto. }
  destruct (t_mode T); [by simplify_eq| |by simplify_eq].
  destruct (tunnel_match _ _ _ _ _ _) as [[[[p r] rl] s2]| |] eqn:Hm; [|done..].
  simplify_eq. transitivity s1; [done|]. by eapply tunnel_match_step1.
Qed.

(** The request and its ports are kept. *)
Lemma resolve_metadata_request (T : Tunnel) fuel now rules (m : Metadata) err proxy rule rules' s :
  resolveMetadata T fuel now rules m = Done (err, proxy, rule, rules', s) →
  same_request m (md s) ∧ same_ports m (md s) ∧ SrcIP (md s) = SrcIP m.
Proof.
  intros [->|(node & ok & ip & _ & _ & Hreq & Hports & Hsrc & _)]%resolve_metadata_steps.
  - unfold same_ports. simpl. auto using same_request_refl.
  - simpl in *. destruct ok; simpl in *; [|done]. split; [|done].
    eapply same_request_trans; [|exact Hreq]. unfold same_request. simpl. intuition.
Qed.

(** Choosing the outbound of a connection calls the resolver and the
    process lookup at most once each, the latter never for the program's own
    connections, whatever rules, rule sets and sub-rules are configured; and
    it changes nothing of the request: the host, the ports, the source and the
    inbound stay, and the destination address changes only where the hosts
    table has one, or where there was none and the resolver gave one. *)
Theorem resolve_metadata_frame (T : Tunnel) fuel now rules (m : Metadata) err proxy rule rules' s :
  resolveMetadata T fuel now rules m = Done (err, proxy, rule, rules', s) →
  same_request m (md s) ∧ same_ports m (md s) ∧ SrcIP (md s) = SrcIP m ∧
  count_calls is_resolve (cap s) ≤ 1 ∧ count_calls (λ e, negb (is_resolve e)) (cap s) ≤ 1 ∧
  (m_Type m = INNER → count_calls (λ e, negb (is_resolve e)) (cap s) = 0) ∧
  (dst_resolved T m (md s) ∨
   ∃ hv ip, Hosts_Search (system_hosts T) fuel (DefaultHosts T) (Host m) false = Some (Some hv, true) ∧
     RandIP (randIntN T) hv = Some ip ∧ count_calls is_resolve (cap s) = 0 ∧
     dst_resolved T (set_DstIP ip m) (md s)).
Proof.
  intros Hr. destruct (resolve_metadata_request _ _ _ _ _ _ _ _ _ _ Hr) as (? & ? & ?).
  apply resolve_metadata_steps in Hr as [->|(node & ok & ip & Hs & Hip & _ & _ & _ & Hdst & Ht1 & Ht2)].
  { unfold dst_resolved, count_calls. simpl. split_and!; auto. }
  unfold resolve_budget, process_budget, count_calls in *. simpl in *.
  split; [done|]. split; [done|]. split; [done|]. split; [destruct ok; lia|].
  split; [repeat case_match; lia|]. split; [intros Hin; rewrite bool_decide_eq_true_2 in Ht2 by done; simpl in Ht2; lia|].
  destruct ok; [right|by left]. destruct Hip as (hv & -> & Hip). exists hv, ip. unfold hosts_search in Hs.
  unfold rand_ip in Hip. destruct (RandIP (randIntN T) hv); simplify_eq. destruct (Hosts_Search _ _ _ _ _); simplify_eq.
  repeat split; try done. lia.
Qed.

Definition demo_proxies : gmap string Proxy :=
  {["DIRECT" := mkProxy "DIRECT" ADirect true (λ _, None);
    "PROXY" := mkProxy "PROXY" AVmess false (λ _, None);
    "PASS" := mkProxy "PASS" APass true (λ _, None)]}%string.

Definition demo_tunnel : Tunnel :=
  mkTunnel Running RuleMode FindProcessStrict demo_proxies (demo_env ∅ ∅) default_hosts None false
    (λ h, if bool_decide (h = "www.example.com"%string) then Some (Addr4 167772161) else None)
    (λ _ _ _, Some (1000%Z, "/usr/bin/curl"%string)) (λ _, None) (λ n, n - 1).

Definition demo_rules : list AnyRule := map (λ r, Wrapped (NewRuleWrapper r))
  [Process "curl" "PASS" TProcessName; Process "wget" "PROXY" TProcessName;
   IPCIDR (mkPrefix (Addr4 167772160) 8) "PROXY" false false; Match "DIRECT"].

Definition demo_conn (n : NetWork) : Metadata :=
  mkMetadata n HTTP (Addr4 1) NoAddr None None "" "" 1000 443 NoAddr 7890 "" "" "www.example.com"
    DNSNormal 0 "" "" "" "" "" 0 "".

Lemma resolve_metadata_frame_witness :
  ∃ proxy rule rules' s,
    resolveMetadata demo_tunnel 5 0 demo_rules (demo_conn TCP) = Done (false, Some proxy, rule, rules', s) ∧
    proxy_name proxy = "PROXY"%string ∧
    count_calls is_resolve (cap s) ≤ 1 ∧ count_calls (λ e, negb (is_resolve e)) (cap s) ≤ 1.
Proof.
  destruct (resolveMetadata demo_tunnel 5 0 demo_rules (demo_conn TCP)) as [[[[[e p] r] rl] s]| |] eqn:Hr;
    [|vm_compute in Hr; discriminate..].
  assert ((match resolveMetadata demo_tunnel 5 0 demo_rules (demo_conn TCP) with
    | Done (e, Some p, _, _, _) => (e, proxy_name p) | _ => (true, ""%string) end) = (false, "PROXY"%string)) as Hc
    by (vm_compute; reflexivity).
  rewrite Hr in Hc. destruct p as [p|]; [|discriminate]. injection Hc as -> Hn.
  destruct (resolve_metadata_frame _ _ _ _ _ _ _ _ _ _ Hr) as (_ & _ & _ & H1 & H2 & _).
  exists p, r, rl, s. auto.
Defined.

(** *** The rule that is chosen *)

(** The choice a rule makes for a connection, if it matches and is usable. *)
Definition choice (T : Tunnel) (m : Metadata) (a : AnyRule) : option (Proxy * Rule) :=
  if enabled a && holds (t_env T) m (rule_of a) then
    (λ p, (p, rule_of a)) <$> usable_adapter T m (Adapter (rule_of a))
  else None.

Lemma any_Match_stateless {X} (T : Tunnel) fuel a (h : Helper X) s :
  quiet h (rule_of a) s → stateless (rule_of a) = true →
  ∃ x, any_Match T fuel a h s = Done ((enabled a && holds (t_env T) (md s) (rule_of a), x), s) ∧
    (enabled a && holds (t_env T) (md s) (rule_of a) = true → x = Adapter (rule_of a)).
Proof.
  intros Hq Hst. unfold any_Match. destruct (enabled a); simpl; [|by exists ""%string].
  apply (stateless_answers (t_env T) (jump (t_env T) fuel) h (rule_of a) s Hq Hst).
Qed.

(** The rules that are tried: the decisive one and those before it; all of
    them if none decides. *)
Fixpoint tried (T : Tunnel) (m : Metadata) (rs : list AnyRule) : nat :=
  match rs with
  | [] => 0
  | a :: rs' => S (if choice T m a then 0 else tried T m rs')
  end.

(** What the statistics of a rule that was tried become: one more hit or one
    more miss, with the time, modulo 2^64; a disabled rule and one without
    statistics stay as they are. *)
Definition scored (E : Env) (now : Z) (m : Metadata) (a : AnyRule) : AnyRule :=
  match a with
  | Bare r => Bare r
  | Wrapped (mkWrapper r true hc ht mc mt) => Wrapped (mkWrapper r true hc ht mc mt)
  | Wrapped (mkWrapper r false hc ht mc mt) =>
    Wrapped (if holds E m r then mkWrapper r false (to_u64 (hc + 1)) now mc mt
             else mkWrapper r false hc ht (to_u64 (mc + 1)) now)
  end.

Lemma counted_scored (T : Tunnel) now m a :
  counted now (enabled a && holds (t_env T) m (rule_of a)) a = scored (t_env T) now m a.
Proof. destruct a as [[r [] hc ht mc mt]|r]; [done| |done]. cbn. by destruct (holds _ m r). Qed.

Lemma match_loop_stateless {X} (T : Tunnel) fuel now rs (h : Helper X) s :
  Forall (λ a, quiet h (rule_of a) s ∧ stateless (rule_of a) = true) rs →
  let n := tried T (md s) rs in
  match_loop T fuel now rs h s =
    Done ((head (omap (choice T (md s)) rs), map (scored (t_env T) now (md s)) (take n rs) ++ drop n rs), s).
Proof.
  induction 1 as [|a rs [Hq Ha] _ IH]; [done|]. cbn [match_loop].
  destruct (any_Match_stateless T fuel a h s Hq Ha) as (x & Hm & Hx).
  rewrite (bind_step _ _ _ _ _ Hm). rewrite (bind_step get_md _ s (md s) s eq_refl). cbn [fst snd].
  rewrite counted_scored.
  assert (choice T (md s) a = (if enabled a && holds (t_env T) (md s) (rule_of a) then
    (λ p, (p, rule_of a)) <$> usable_adapter T (md s) x else None)) as Hch.
  { unfold choice. destruct (enabled a && _) eqn:Hb; [|done]. by rewrite (Hx eq_refl). }
  cbn [tried omap list_omap]. rewrite Hch. clear Hch.
  destruct (enabled a && _); [destruct (usable_adapter T (md s) x) as [p|]|]; [done| |];
    by rewrite (bind_step _ _ _ _ _ IH).
Qed.

(** Once the host is resolved, or there is none or an address already, and the
    process was looked up, the tunnel's own closures have nothing left to do. *)
Lemma new_helper_quiet (T : Tunnel) r s :
  resolved (cap s) = true ∨ DstIP (md s) ≠ NoAddr ∨ Host (md s) = ""%string → attemptProcessLookup (cap s) = false →
  quiet (new_helper T) r s.
Proof.
  intros Hres Hp. split; intros _ f [= <-].
  - unfold resolve_closure. destruct Hres as [->|[Hd|Hh]]; [done| |].
    + unfold Resolved. destruct (resolved _); [done|]. case_bool_decide; [done|]. by destruct (DstIP (md s)).
    + rewrite Hh. by destruct (resolved _).
  - unfold find_process_closure. by rewrite Hp.
Qed.

(** C1: the rules are tried in order and the first that is enabled, holds, and
    names an outbound that exists, does not unwrap to Pass and can carry the
    connection decides; a rule whose outbound cannot be used is passed over;
    without such a rule the connection goes to DIRECT.  Of the default rules
    exactly those that were tried count, a hit where the rule holds and a miss
    where it does not; nothing else changes.  This is for rules that keep no
    state, where the closures of the helper that they call have nothing left
    to do. *)
Theorem match_first_usable_rule (T : Tunnel) fuel now (rules : list AnyRule) (h : Helper capture) (s : mst capture) :
  let used := getRules T rules (md s) in
  let n := tried T (md s) used in
  Forall (λ a, quiet h (rule_of a) s ∧ stateless (rule_of a) = true) used →
  let rules' := match subRules (t_env T) !! SpecialRules (md s) with
                | Some _ => rules
                | None => map (scored (t_env T) now (md s)) (take n rules) ++ drop n rules
                end in
  tunnel_match T fuel now rules h s = Done
    (match head (omap (choice T (md s)) used) with
     | Some (p, r) => (Some p, Some r, rules')
     | None => (proxies T !! "DIRECT"%string, None, rules')
     end, s).
Proof.
  intros used n Hst rules'. unfold tunnel_match. rewrite (bind_step get_md _ s (md s) s eq_refl).
  rewrite (bind_step _ _ _ _ _ (match_loop_stateless T fuel now _ h s Hst)). cbn [fst snd].
  unfold rules', n, used, getRules. destruct (subRules _ !! _); unfold mret, M_ret; by repeat case_match.
Qed.

Definition udp_rules : list AnyRule := map (λ r, Wrapped (NewRuleWrapper r))
  [DomainSuffix "example.com" "PASS"; DomainKeyword "example" "PROXY"; Domain "www.example.org" "DIRECT";
   Process "curl" "DIRECT" TProcessName; Match "DIRECT"; Match "PROXY"].

Definition curl_conn : Metadata := set_process 1000 "curl" "/usr/bin/curl" (set_DstIP (Addr4 2) (demo_conn UDP)).

Lemma match_first_usable_rule_witness :
  tunnel_match demo_tunnel 1 7 udp_rules (new_helper demo_tunnel) (mkSt curl_conn (mkCapture true false [])) =
    Done ((demo_proxies !! "DIRECT"%string, Some (Process "curl" "DIRECT" TProcessName),
      map Wrapped [mkWrapper (DomainSuffix "example.com" "PASS") false 1 7 0 0;
        mkWrapper (DomainKeyword "example" "PROXY") false 1 7 0 0;
        mkWrapper (Domain "www.example.org" "DIRECT") false 0 0 1 7;
        mkWrapper (Process "curl" "DIRECT" TProcessName) false 1 7 0 0;
        NewRuleWrapper (Match "DIRECT"); NewRuleWrapper (Match "PROXY")]),
      mkSt curl_conn (mkCapture true false [])).
Proof.
  exact (match_first_usable_rule demo_tunnel 1 7 udp_rules (new_helper demo_tunnel) (mkSt curl_conn (mkCapture true false []))
    ltac:(repeat (constructor; [split; [by apply new_helper_quiet; [left|]|done]|]); constructor)).
Defined.

(** *** The process lookup of a source rule set *)

(** A process rule inside a rule set used with [src] asks for the process
    behind the destination instead of the source: the closure reads the
    metadata while its ends are exchanged, and the lookup is spent. *)
Theorem src_ruleset_process_lookup (T : Tunnel) fuel (n a pat b : string) (nr : bool) (s : mst capture) :
  ruleProviders (t_env T) !! n = Some (Some (classicalStrategy [Process pat b TProcessName])) →
  attemptProcessLookup (cap s) = true →
  ∃ ok s', run_rule (t_env T) (S fuel) (RuleSet n a true nr) (new_helper T) s = Done ((ok, a), s') ∧
    calls (cap s') = calls (cap s) ++ [EvProcess (DstIP (md s)) (m_DstPort (md s))] ∧
    attemptProcessLookup (cap s') = false.
Proof.
  intros Hn Ha. unfold run_rule. cbn [rule_Match]. unfold_rules. rewrite Hn. cbn [orb].
  rewrite (bind_step get_md _ s (md s) s eq_refl).
  set (s1 := mkSt (SwapSrcDst (md s)) (cap s)).
  rewrite (bind_step (put_md _) _ s tt s1 eq_refl). cbn [jump jump_body]. rewrite Hn. cbn [provider_match first_match].
  set (h' := mkHelper None _ _).
  assert (rule_Match (t_env T) (jump (t_env T) fuel) (Process pat b TProcessName) h' s1 =
    Done ((process_match (t_env T) pat TProcessName (md (find_process_closure T s1)), b), find_process_closure T s1)) as Hp
    by reflexivity.
  assert (calls (cap (find_process_closure T s1)) = calls (cap s) ++ [EvProcess (DstIP (md s)) (m_DstPort (md s))] ∧
    attemptProcessLookup (cap (find_process_closure T s1)) = false) as Hcap.
  { unfold find_process_closure. simpl. rewrite Ha. simpl. done. }
  set (ok := process_match _ _ _ _) in Hp.
  exists ok, (upd SwapSrcDst (find_process_closure T s1)). split; [|exact Hcap].
  unfold_rules. cbn [first_match]. unfold mbind, M_bind. rewrite Hp. by destruct ok.
Qed.

Lemma src_ruleset_process_lookup_witness :
  ∃ ok s', run_rule (demo_env ∅ {["s" := Some (classicalStrategy [Process "curl" "" TProcessName])]}) 1
      (RuleSet "s" "PROXY" true false)
      (new_helper (mkTunnel Running RuleMode FindProcessStrict demo_proxies
        (demo_env ∅ {["s" := Some (classicalStrategy [Process "curl" "" TProcessName])]}) default_hosts None false
        (λ _, None) (λ _ _ _, None) (λ _, None) (λ n, n - 1)))
      (mkSt demo_md (mkCapture false true [])) = Done ((ok, "PROXY"%string), s') ∧
    calls (cap s') = [EvProcess (Addr4 2) 443].
Proof.
  destruct (src_ruleset_process_lookup (mkTunnel Running RuleMode FindProcessStrict demo_proxies
        (demo_env ∅ {["s" := Some (classicalStrategy [Process "curl" "" TProcessName])]}) default_hosts None false
        (λ _, None) (λ _ _ _, None) (λ _, None) (λ n, n - 1)) 0 "s" "PROXY" "curl" "" false
        (mkSt demo_md (mkCapture false true []))) as (ok & s' & Hr & Hc & _); [vm_compute; reflexivity|reflexivity|].
  exists ok, s'. split; [exact Hr|exact Hc].
Defined.

(** *** The port and the network are kept *)

Lemma preHandle_ports {H} `{HostMapper H} (T : Tunnel) fuel m (o : option H) e m' o' :
  preHandleMetadata T fuel m o = Done (e, m', o') → m_DstPort m' = m_DstPort m ∧ m_NetWork m' = m_NetWork m.
Proof.
  unfold preHandleMetadata. destruct (needLookupIP m o).
  - destruct (resolver_FindHostByIP _ _) as [[host|] o1]; [|by intros [= _ <- _]].
    destruct (resolver_IsFakeIP _ _); [by intros [= _ <- _]|].
    destruct (hosts_search _ _ _ _) as [[[hv|] []]| |]; try done; [|by intros [= _ <- _]; case_match|by intros [= _ <- _]].
    destruct (rand_ip T hv); [by intros [= _ <- _]|done..].
  - destruct (hosts_search _ _ _ _) as [[[hv|] []]| |]; try done; by intros [= _ <- _].
Qed.

Lemma Pure_ports m : m_DstPort (Pure m) = m_DstPort m ∧ m_NetWork (Pure m) = m_NetWork m.
Proof. unfold Pure. by case_match. Qed.

(** *** Fake addresses *)



(** *** Retrying *)

Lemma retry_loop_spec {A} n i (ft : nat → A + dial_error) wait last r k :
  retry_loop n i ft wait last = (r, k) →
  (k ≤ i + n) ∧
  (k = i ∧ n = 0 ∧ r = last ∨
   i < k ∧ r = Some (ft (k - 1)) ∧
   (∀ j, i ≤ j < k - 1 → ∃ e, ft j = inr e ∧ shouldStopRetry e = false ∧ wait j = true) ∧
   ((∃ t, ft (k - 1) = inl t) ∨ (∃ e, ft (k - 1) = inr e ∧ (shouldStopRetry e = true ∨ wait (k - 1) = false)) ∨ k = i + n)).
Proof.
  revert i last. induction n as [|n IH]; intros i last; simpl.
  { intros [= <- <-]. split; [lia|]. by left. }
  destruct (ft i) as [t|e] eqn:Hf.
  { intros [= <- <-]. split; [lia|right]. replace (S i - 1) with i by lia. rewrite Hf.
    split; [lia|]. split; [done|]. split; [intros; lia|]. left. eauto. }
  destruct (shouldStopRetry e) eqn:Hs.
  { intros [= <- <-]. split; [lia|right]. replace (S i - 1) with i by lia. rewrite Hf.
    split; [lia|]. split; [done|]. split; [intros; lia|]. right. left. eauto. }
  destruct (wait i) eqn:Hw.
  2:{ intros [= <- <-]. split; [lia|right]. replace (S i - 1) with i by lia. rewrite Hf.
      split; [lia|]. split; [done|]. split; [intros; lia|]. right. left. eauto. }
  intros Hr. apply IH in Hr as [Hk Hr]. split; [lia|]. right.
  destruct Hr as [(-> & -> & ->)|(Hik & -> & Hj & Hend)].
  - replace (S i - 1) with i by lia. rewrite Hf. split; [lia|]. split; [done|]. split; [intros; lia|].
    do 2 right. lia.
  - split; [lia|]. split; [done|]. split.
    + intros j Hij. destruct (decide (j = i)) as [->|]; [eauto|]. apply Hj. lia.
    + destruct Hend as [?|[?|?]]; [by left|by right; left|do 2 right; lia].
Qed.

(** A dial is attempted at most ten times: the loop ends at the first
    success, at the first error that retrying cannot mend, or when waiting is
    cut short, and gives what the last attempt gave; every attempt before it
    failed with an error worth retrying. *)
Theorem retry_at_most_ten {A} (ft : nat → A + dial_error) (wait : nat → bool) :
  ∃ k, retry ft wait = (Some (ft (k - 1)), k) ∧ 1 ≤ k ≤ 10 ∧
    (∀ j, j < k - 1 → ∃ e, ft j = inr e ∧ shouldStopRetry e = false ∧ wait j = true) ∧
    ((∃ t, ft (k - 1) = inl t) ∨ (∃ e, ft (k - 1) = inr e ∧ (shouldStopRetry e = true ∨ wait (k - 1) = false)) ∨ k = 10).
Proof.
  unfold retry. destruct (retry_loop 10 0 ft wait None) as [r k] eqn:Hr.
  apply retry_loop_spec in Hr as [Hk [(_ & ? & _)|(Hik & -> & Hj & Hend)]]; [done|].
  exists k. split; [done|]. split; [lia|]. split; [|done]. intros j Hlt. apply Hj. lia.
Qed.

(** *** Fixing the metadata *)

Lemma fixMetadata_eq m :
  fixMetadata m = match ParseAddr (Host m) with
                  | Some ip => set_Host "" (set_DstIP (Unmap ip) m)
                  | None => set_DstIP (Unmap (DstIP m)) m
                  end.
Proof. reflexivity. Qed.

(** After the metadata was fixed its host is never an address written as
    text, its address is in the form the rules expect, and fixing it again
    changes nothing. *)
Theorem fix_metadata_normal (m : Metadata) :
  ParseAddr (Host (fixMetadata m)) = None ∧ Unmap (DstIP (fixMetadata m)) = DstIP (fixMetadata m) ∧
  fixMetadata (fixMetadata m) = fixMetadata m ∧ (Valid m = true → Valid (fixMetadata m) = true).
Proof.
  rewrite (fixMetadata_eq (fixMetadata m)). rewrite !fixMetadata_eq.
  destruct (ParseAddr (Host m)) as [ip|] eqn:Hp.
  - change (Host (set_Host "" (set_DstIP (Unmap ip) m))) with ""%string.
    change (DstIP (set_Host "" (set_DstIP (Unmap ip) m))) with (Unmap ip).
    rewrite ParseAddr_empty, !Unmap_idemp. split_and!; try done.
    intros _. unfold Valid. simpl. rewrite Unmap_valid. by eapply ParseAddr_valid.
  - change (Host (set_DstIP (Unmap (DstIP m)) m)) with (Host m).
    change (DstIP (set_DstIP (Unmap (DstIP m)) m)) with (Unmap (DstIP m)).
    rewrite Hp, !Unmap_idemp. split_and!; try done. unfold Valid. simpl. by rewrite Unmap_valid.
Qed.
