(* ===== verification/UdpNat.v ===== *)
(** * UDP sessions: [tunnel/connection.go], [component/nat/table.go]

    A UDP packet that enters the tunnel goes to the queue of one of a few
    workers, chosen by its client.  The worker finds or makes the session of
    the client in the NAT table and puts the packet in the channel of the
    session's [packetSender].  A goroutine of the session dials the outbound,
    then takes packets from the channel and writes them to it; another one
    reads the answers and writes them back to the client.  The sender keeps two
    maps, so that a destination always gets the same address, and an answer
    carries the address the client had sent to.

    Goroutines and channels are a transition function [step] on a [world] whose
    labels say who moves and what the outside world answers; a [select] with
    several ready cases takes the one the label says.  Critical sections are
    single steps.  The packet connection of the outbound, the resolvers and the
    clients are in the labels.  The sniffing of QUIC packets by a wrapper of the
    sender appears by its result only ([sniff] of a dial), and the local
    connections of TProxy are not modelled. *)

From Stdlib Require Import ZArith Lia Ascii String.
From stdpp Require Import prelude strings gmap list.
From S2P Require Import Prelude Netip FakeIP Metadata Hosts Rules Tunnel.

(** ** Packets and their sender *)

(** [C.PacketAdapter]: the object, the SNAT key, which is the text of the
    client's address, the payload and the metadata behind the pointer. *)
Record packet := mkPacket { pk_id : nat; Key : string; Data : list Z; pk_meta : Metadata }.

Definition set_meta (m : Metadata) (p : packet) : packet := mkPacket (pk_id p) (Key p) (Data p) m.

(** [ch] holds the packets of the channel, the oldest first; [cancelled] is
    the state of the context. *)
Record packetSender := mkSender {
  cancelled : bool;
  ch : list packet;
  originToTarget : gmap string Addr;
  targetToOrigin : gmap Addr Addr
}.

Definition queueCapacity : nat := 64.

Definition senderCapacity : nat := 128.

Definition newPacketSender : packetSender := mkSender false [] ∅ ∅.

Definition Metadata_String (m : Metadata) : string :=
  if negb (bool_decide (Host m = "")) then Host m
  else if IsValid (DstIP m) then Addr_String (DstIP m)
  else "<nil>".

(** The value of a map of addresses; the zero value is the invalid address. *)
Definition get_addr `{Countable K} (k : K) (m : gmap K Addr) : Addr := default NoAddr (m !! k).

(** An entry is written over only while it is not a valid address. *)
Definition put_addr `{Countable K} (k : K) (a : Addr) (m : gmap K Addr) : gmap K Addr :=
  if IsValid (get_addr k m) then m else <[k := a]> m.

Definition AddMapping (originMetadata metadata : Metadata) (s : packetSender) : packetSender :=
  mkSender (cancelled s) (ch s)
    (put_addr (Metadata_String originMetadata) (DstIP metadata) (originToTarget s))
    (put_addr (DstIP metadata) (DstIP originMetadata) (targetToOrigin s)).

Definition RestoreReadFrom (addr : Addr) (s : packetSender) : Addr :=
  let originAddr := get_addr addr (targetToOrigin s) in
  if IsValid originAddr then originAddr else addr.

Definition set_ch (l : list packet) (s : packetSender) : packetSender :=
  mkSender (cancelled s) l (originToTarget s) (targetToOrigin s).

Definition cancel (s : packetSender) : packetSender := mkSender true (ch s) (originToTarget s) (targetToOrigin s).

(** How an outbound resolves the host of a UDP destination: [Base], [Direct]
    (which asks again when its resolver is another one; [WireGuard], [Masque]
    and [Tailscale] do the same), [Reject] and [Dns]. *)
Inductive UDPResolver :=
  | BaseResolver (resolve : string → option Addr)
  | DirectResolver (other : bool) (resolve : string → option Addr)
  | FixedResolver (ip : Addr).

Definition ResolveUDP (r : UDPResolver) (m : Metadata) : option Metadata :=
  match r with
  | BaseResolver resolve =>
    if Resolved m then Some m else ip ← resolve (Host m); Some (set_DstIP ip m)
  | DirectResolver other resolve =>
    if (negb (Resolved m) || other) && negb (bool_decide (Host m = ""))
    then ip ← resolve (Host m); Some (set_DstIP ip m)
    else Some m
  | FixedResolver ip => if Resolved m then Some m else Some (set_DstIP ip m)
  end.

Section Nat.
Context {H : Type} `{HostMapper H}.
Context (T : Tunnel) (fuel : nat).

(** [processPacket] up to its write: the address to write to, if there is one,
    and the sender and the mapper afterwards. *)
Definition processPacket (r : UDPResolver) (p : packet) (s : packetSender) (o : option H)
    : outcome (option (Addr * Z) * packetSender * option H) :=
  let originMetadata := pk_meta p in
  let targetAddr := get_addr (Metadata_String originMetadata) (originToTarget s) in
  if IsValid targetAddr then Done (Some (targetAddr, m_DstPort originMetadata), s, o)
  else
    match preHandleMetadata T fuel originMetadata o with
    | Panic => Panic
    | OutOfFuel => OutOfFuel
    | Done (_, metadata, o) =>
      let metadata := Pure metadata in
      match (if negb (bool_decide (Host metadata = "")) then ResolveUDP r metadata else Some metadata) with
      | None => Done (None, s, o)
      | Some metadata =>
        if IsValid (DstIP metadata) then Done (UDPAddr metadata, AddMapping originMetadata metadata s, o)
        else Done (None, s, o)
      end
    end.

(** The answer of a read in [handleUDPToLocal]: the address an answer is given,
    from the one it came from; [None] is a source that is not a UDP address. *)
Definition reply_addr (oAddrPort : Addr * Z) (from : option (Addr * Z)) (s : packetSender) : Addr * Z :=
  let fromUDPAddr := default oAddrPort from in
  let fromAddr := Unmap fromUDPAddr.1 in
  (Unmap (RestoreReadFrom fromAddr s), fromUDPAddr.2).

(** ** Sessions *)

(** The goroutine that dials and then runs [Process]. *)
Inductive main_state := Dialing (first : packet) | Processing | Returned.

(** What is left to do of closing the session, by whichever goroutine does it. *)
Inductive closer := Open | Draining | Deleting | Closed.

(** [s_reading] is [oAddrPort] while the loop of [handleUDPToLocal] runs, and
    [s_writeBack] the packet the [WriteBackProxy] holds. *)
Record session := mkSession {
  s_key : string;
  sender : packetSender;
  s_main : main_state;
  s_reading : option (Addr * Z);
  s_writeBack : option packet;
  s_closer : closer
}.

Definition set_sender (f : packetSender → packetSender) (s : session) : session :=
  mkSession (s_key s) (f (sender s)) (s_main s) (s_reading s) (s_writeBack s) (s_closer s).

Definition set_main (x : main_state) (s : session) : session :=
  mkSession (s_key s) (sender s) x (s_reading s) (s_writeBack s) (s_closer s).

Definition set_reading (x : option (Addr * Z)) (s : session) : session :=
  mkSession (s_key s) (sender s) (s_main s) x (s_writeBack s) (s_closer s).

Definition set_writeBack (p : packet) (s : session) : session :=
  mkSession (s_key s) (sender s) (s_main s) (s_reading s) (Some p) (s_closer s).

Definition set_closer (x : closer) (s : session) : session :=
  mkSession (s_key s) (sender s) (s_main s) (s_reading s) (s_writeBack s) x.

(** A session as [handleUDPConn] makes it. *)
Definition new_session (p : packet) : session := mkSession (Key p) newPacketSender (Dialing p) None None Open.

(** A worker: waiting for its queue, about to call [Send], or between the two
    selects of [Send]. *)
Inductive worker := Waiting | Sending (sid : nat) (p : packet) | Putting (sid : nat) (p : packet).

(** What happens, for the record; [late] says that the session was closed when
    the packet was put in its channel. *)
Inductive obs :=
  | Arrived (p : packet)
  | Dropped (p : packet)
  | Opened (sid : nat) (key : string)
  | Put (sid : nat) (p : packet) (late : bool)
  | Took (sid : nat) (p : packet)
  | Mapped (sid : nat) (p : packet) (target : Addr)
  | Wrote (sid : nat) (p : packet) (addr : Addr * Z)
  | Replied (sid : nat) (via : packet) (from answer : Addr * Z).

(** [sessions] are named by their number of creation; [natTable] maps the keys to
    them. *)
Record world := mkWorld {
  natTable : gmap string nat;
  sessions : list session;
  udpQueues : list (list packet);
  workers : list worker;
  mapper : option H;
  rules : list AnyRule;
  history : list obs
}.

Definition happened (os : list obs) (w : world) : world :=
  mkWorld (natTable w) (sessions w) (udpQueues w) (workers w) (mapper w) (rules w) (history w ++ os).

Definition set_natTable (t : gmap string nat) (w : world) : world :=
  mkWorld t (sessions w) (udpQueues w) (workers w) (mapper w) (rules w) (history w).

Definition set_session (sid : nat) (s : session) (w : world) : world :=
  mkWorld (natTable w) (<[sid := s]> (sessions w)) (udpQueues w) (workers w) (mapper w) (rules w) (history w).

Definition add_session (s : session) (w : world) : world :=
  mkWorld (natTable w) (sessions w ++ [s]) (udpQueues w) (workers w) (mapper w) (rules w) (history w).

Definition set_queue (i : nat) (q : list packet) (w : world) : world :=
  mkWorld (natTable w) (sessions w) (<[i := q]> (udpQueues w)) (workers w) (mapper w) (rules w) (history w).

Definition set_worker (i : nat) (x : worker) (w : world) : world :=
  mkWorld (natTable w) (sessions w) (udpQueues w) (<[i := x]> (workers w)) (mapper w) (rules w) (history w).

Definition set_mapper (o : option H) (w : world) : world :=
  mkWorld (natTable w) (sessions w) (udpQueues w) (workers w) o (rules w) (history w).

Definition set_rules (rs : list AnyRule) (w : world) : world :=
  mkWorld (natTable w) (sessions w) (udpQueues w) (workers w) (mapper w) rs (history w).

(** [initUDP]: [procs] is [GOMAXPROCS(0)]. *)
Definition numUDPWorkers (procs : nat) : nat := Nat.max 4 procs.

Definition initUDP (procs : nat) (o : option H) (rs : list AnyRule) : world :=
  mkWorld ∅ [] (replicate (numUDPWorkers procs) []) (replicate (numUDPWorkers procs) Waiting) o rs [].

(** ** From the inbound to the channel *)

(** [utils.MapHash], a hash seeded when the program starts. *)
Context (MapHash : string → nat).

Definition queueNo (key : string) (w : world) : nat := MapHash key mod length (udpQueues w).

Definition HandleUDPPacket (p : packet) (w : world) : world :=
  let w := happened [Arrived p] w in
  let i := queueNo (Key p) w in
  let q := default [] (udpQueues w !! i) in
  if length q <? queueCapacity then set_queue i (q ++ [p]) w else happened [Dropped p] w.

(** [natTable.GetOrCreate], whose maker is [newPacketSender]. *)
Definition GetOrCreate (p : packet) (w : world) : nat * world :=
  match natTable w !! Key p with
  | Some sid => (sid, w)
  | None =>
    let sid := length (sessions w) in
    (sid, happened [Opened sid (Key p)] (set_natTable (<[Key p := sid]> (natTable w)) (add_session (new_session p) w)))
  end.

(** [handleUDPConn] up to its call of [Send]: the session to send to, or [None]
    when the packet is dropped. *)
Definition handleUDPConn (p : packet) (w : world) : outcome (option (nat * packet) * world) :=
  if negb (isHandle T (m_Type (pk_meta p))) then Done (None, happened [Dropped p] w)
  else if negb (Valid (pk_meta p)) then Done (None, happened [Dropped p] w)
  else
    let p := set_meta (fixMetadata (pk_meta p)) p in
    match preHandleMetadata T fuel (pk_meta p) (mapper w) with
    | Panic => Panic
    | OutOfFuel => OutOfFuel
    | Done (failed, _, o) =>
      let w := set_mapper o w in
      if failed then Done (None, happened [Dropped p] w)
      else let '(sid, w) := GetOrCreate p w in Done (Some (sid, p), w)
    end.

(** The next step of worker [i]; [put] is the choice of the second select of
    [Send] when the channel has room and the session is closed. *)
Definition worker_step (i : nat) (put : bool) (w : world) : option world :=
  match workers w !! i with
  | None => None
  | Some Waiting =>
    match udpQueues w !! i with
    | Some (p :: q) =>
      match handleUDPConn p (set_queue i q w) with
      | Done (Some (sid, p), w) => Some (set_worker i (Sending sid p) w)
      | Done (None, w) => Some w
      | _ => None
      end
    | _ => None
    end
  | Some (Sending sid p) =>
    s ← sessions w !! sid;
    Some (if cancelled (sender s) then happened [Dropped p] (set_worker i Waiting w)
          else set_worker i (Putting sid p) w)
  | Some (Putting sid p) =>
    s ← sessions w !! sid;
    let w := set_worker i Waiting w in
    Some (if (length (ch (sender s)) <? senderCapacity) && (negb (cancelled (sender s)) || put)
          then happened [Put sid p (cancelled (sender s))] (set_session sid (set_sender (set_ch (ch (sender s) ++ [p])) s) w)
          else happened [Dropped p] w)
  end.

(** ** The goroutines of a session *)

(** What a dial is given: the time, what the sniffer makes of the metadata, the
    outcomes of [ListenPacketContext], attempt by attempt, and of the waits
    between them. *)
Record dial_env := mkDial {
  d_now : Z;
  sniff : Metadata → Metadata;
  ListenPacketContext : Proxy → Metadata → nat → unit + dial_error;
  d_wait : nat → bool
}.

(** [dial]: the metadata it dialled with, [None] when it failed. *)
Definition dial (d : dial_env) (p : packet) (rs : list AnyRule) (o : option H)
    : outcome (option Metadata * list AnyRule * option H) :=
  match preHandleMetadata T fuel (sniff d (pk_meta p)) o with
  | Panic => Panic
  | OutOfFuel => OutOfFuel
  | Done (_, metadata, o) =>
    match resolveMetadata T fuel (d_now d) rs metadata with
    | Panic => Panic
    | OutOfFuel => OutOfFuel
    | Done (true, _, _, rs, _) => Done (None, rs, o)
    | Done (false, None, _, _, _) => Panic
    | Done (false, Some proxy, _, rs, st) =>
      let dialMetadata := Pure (md st) in
      match (retry (ListenPacketContext d proxy dialMetadata) (d_wait d)).1 with
      | Some (inl _) => Done (Some dialMetadata, rs, o)
      | _ => Done (None, rs, o)
      end
    end
  end.

Definition start_closing (s : session) : session := set_closer Draining (set_sender cancel s).

(** The dial of session [sid] returns; when it fails the goroutine closes the
    session. *)
Definition dial_step (sid : nat) (d : dial_env) (w : world) : option world :=
  s ← sessions w !! sid;
  match s_main s with
  | Dialing p =>
    match dial d p (rules w) (mapper w) with
    | Done (Some dialMetadata, rs, o) =>
      let s := set_sender (AddMapping (pk_meta p) dialMetadata) s in
      let s := set_main Processing (set_writeBack p (set_reading (Some (AddrPort dialMetadata)) s)) in
      Some (happened [Mapped sid p (DstIP dialMetadata)] (set_rules rs (set_mapper o (set_session sid s w))))
    | Done (None, rs, o) =>
      Some (set_rules rs (set_mapper o (set_session sid (set_main Returned (start_closing s)) w)))
    | _ => None
    end
  | _ => None
  end.

(** The record of [processPacket]: a mapping, when it made one, and the write. *)
Definition processed (sid : nat) (p : packet) (s s' : packetSender) (addr : option (Addr * Z)) (target : Addr) : list obs :=
  (if IsValid (get_addr (Metadata_String (pk_meta p)) (originToTarget s)) then []
   else if IsValid (get_addr (Metadata_String (pk_meta p)) (originToTarget s')) then
     [Mapped sid p target]
   else []) ++
  match addr with Some a => [Wrote sid p a] | None => [] end ++ [Dropped p].

(** One turn of [Process]; [leave] is the choice of its select when the session
    is closed. *)
Definition process_step (sid : nat) (leave : bool) (r : UDPResolver) (w : world) : option world :=
  s ← sessions w !! sid;
  match s_main s with
  | Processing =>
    if cancelled (sender s) && leave then Some (set_session sid (set_main Returned s) w)
    else
      match ch (sender s) with
      | [] => None
      | p :: l =>
        let s := set_writeBack p (set_sender (set_ch l) s) in
        match processPacket r p (sender s) (mapper w) with
        | Done (addr, snd, o) =>
          let target := get_addr (Metadata_String (pk_meta p)) (originToTarget snd) in
          Some (happened (Took sid p :: processed sid p (sender s) snd addr target)
            (set_mapper o (set_session sid (set_sender (λ _, snd) s) w)))
        | _ => None
        end
      end
  | _ => None
  end.

(** One turn of the loop of [handleUDPToLocal]: the source of an answer, and
    whether it was written back, which ends the loop when it was not; [None] is
    an error of the read, the timeout among them. *)
Definition reply_step (sid : nat) (answer : option (option (Addr * Z) * bool)) (w : world) : option world :=
  s ← sessions w !! sid;
  match s_reading s, s_writeBack s with
  | Some oAddrPort, Some via =>
    let closing := set_session sid (set_reading None (start_closing s)) w in
    match answer with
    | None => Some closing
    | Some (from, ok) =>
      let o := Replied sid via (default oAddrPort from) (reply_addr oAddrPort from (sender s)) in
      Some (happened [o] (if (ok : bool) then w else closing))
    end
  | _, _ => None
  end.

(** The next step of closing a session: [dropAll], then [natTable.Delete]. *)
Definition close_step (sid : nat) (w : world) : option world :=
  s ← sessions w !! sid;
  match s_closer s with
  | Draining =>
    match ch (sender s) with
    | p :: l => Some (happened [Dropped p] (set_session sid (set_sender (set_ch l) s) w))
    | [] => Some (set_session sid (set_closer Deleting s) w)
    end
  | Deleting => Some (set_natTable (delete (s_key s) (natTable w)) (set_session sid (set_closer Closed s) w))
  | _ => None
  end.

(** ** The whole *)

Inductive label :=
  | LReceive (p : packet)
  | LWorker (i : nat) (put : bool)
  | LDial (sid : nat) (d : dial_env)
  | LProcess (sid : nat) (leave : bool) (r : UDPResolver)
  | LReply (sid : nat) (answer : option (option (Addr * Z) * bool))
  | LClose (sid : nat).

(** [None]: the label's goroutine cannot move, or the program has crashed. *)
Definition step (l : label) (w : world) : option world :=
  match l with
  | LReceive p => Some (HandleUDPPacket p w)
  | LWorker i put => worker_step i put w
  | LDial sid d => dial_step sid d w
  | LProcess sid leave r => process_step sid leave r w
  | LReply sid answer => reply_step sid answer w
  | LClose sid => close_step sid w
  end.

Fixpoint run (ls : list label) (w : world) : option world :=
  match ls with
  | [] => Some w
  | l :: ls => w ← step l w; run ls w
  end.

Set Default Proof Using "Type*".

(** ** The moves of a world

    [step] as a relation, one rule for every way a goroutine can go. *)

Inductive move (w : world) : world → Prop :=
| m_arrive p :
    let i := queueNo (Key p) w in
    move w (set_queue i (default [] (udpQueues w !! i) ++ [p]) (happened [Arrived p] w))
| m_arrive_full p :
    move w (happened [Arrived p; Dropped p] w)
| m_refuse i p q o p' :
    workers w !! i = Some Waiting → udpQueues w !! i = Some (p :: q) → pk_id p' = pk_id p →
    move w (happened [Dropped p'] (set_mapper o (set_queue i q w)))
| m_find i p q o sid p' :
    workers w !! i = Some Waiting → udpQueues w !! i = Some (p :: q) → pk_id p' = pk_id p → Key p' = Key p →
    natTable w !! Key p' = Some sid →
    move w (set_worker i (Sending sid p') (set_mapper o (set_queue i q w)))
| m_make i p q o p' :
    let sid := length (sessions w) in
    workers w !! i = Some Waiting → udpQueues w !! i = Some (p :: q) → pk_id p' = pk_id p → Key p' = Key p →
    natTable w !! Key p' = None →
    move w (set_worker i (Sending sid p') (happened [Opened sid (Key p')] (set_natTable (<[Key p' := sid]> (natTable w))
      (add_session (new_session p') (set_mapper o (set_queue i q w))))))
| m_send i sid p s :
    workers w !! i = Some (Sending sid p) → sessions w !! sid = Some s →
    move w (set_worker i (Putting sid p) w)
| m_send_drop i sid p s x :
    workers w !! i = Some x → x = Sending sid p ∨ x = Putting sid p → sessions w !! sid = Some s →
    move w (happened [Dropped p] (set_worker i Waiting w))
| m_put i sid p s :
    workers w !! i = Some (Putting sid p) → sessions w !! sid = Some s → length (ch (sender s)) < senderCapacity →
    move w (happened [Put sid p (cancelled (sender s))] (set_session sid (set_sender (set_ch (ch (sender s) ++ [p])) s) (set_worker i Waiting w)))
| m_dial sid s p dm rs o :
    sessions w !! sid = Some s → s_main s = Dialing p →
    move w (happened [Mapped sid p (DstIP dm)] (set_rules rs (set_mapper o (set_session sid
      (set_main Processing (set_writeBack p (set_reading (Some (AddrPort dm)) (set_sender (AddMapping (pk_meta p) dm) s)))) w))))
| m_dial_fail sid s p rs o :
    sessions w !! sid = Some s → s_main s = Dialing p →
    move w (set_rules rs (set_mapper o (set_session sid (set_main Returned (start_closing s)) w)))
| m_leave sid s :
    sessions w !! sid = Some s → s_main s = Processing → cancelled (sender s) = true →
    move w (set_session sid (set_main Returned s) w)
| m_process sid s p l r addr snd o :
    sessions w !! sid = Some s → s_main s = Processing → ch (sender s) = p :: l →
    processPacket r p (set_ch l (sender s)) (mapper w) = Done (addr, snd, o) →
    let target := get_addr (Metadata_String (pk_meta p)) (originToTarget snd) in
    move w (happened (Took sid p :: processed sid p (sender s) snd addr target)
      (set_mapper o (set_session sid (set_sender (λ _, snd) (set_writeBack p s)) w)))
| m_reply sid s oAddrPort via from :
    sessions w !! sid = Some s → s_reading s = Some oAddrPort → s_writeBack s = Some via →
    move w (happened [Replied sid via (default oAddrPort from) (reply_addr oAddrPort from (sender s))] w)
| m_reply_fail sid s oAddrPort via from :
    sessions w !! sid = Some s → s_reading s = Some oAddrPort → s_writeBack s = Some via →
    move w (happened [Replied sid via (default oAddrPort from) (reply_addr oAddrPort from (sender s))]
      (set_session sid (set_reading None (start_closing s)) w))
| m_timeout sid s oAddrPort via :
    sessions w !! sid = Some s → s_reading s = Some oAddrPort → s_writeBack s = Some via →
    move w (set_session sid (set_reading None (start_closing s)) w)
| m_drain sid s p l :
    sessions w !! sid = Some s → s_closer s = Draining → ch (sender s) = p :: l →
    move w (happened [Dropped p] (set_session sid (set_sender (set_ch l) s) w))
| m_drained sid s :
    sessions w !! sid = Some s → s_closer s = Draining → ch (sender s) = [] →
    move w (set_session sid (set_closer Deleting s) w)
| m_delete sid s :
    sessions w !! sid = Some s → s_closer s = Deleting →
    move w (set_natTable (delete (s_key s) (natTable w)) (set_session sid (set_closer Closed s) w)).

Lemma happened_happened a b w : happened b (happened a w) = happened (a ++ b) w.
Proof. unfold happened. simpl. by rewrite (assoc_L (++)). Qed.

Lemma receive_move p w : move w (HandleUDPPacket p w).
Proof.
  unfold HandleUDPPacket. simpl. case_match.
  - exact (m_arrive w p).
  - rewrite happened_happened. exact (m_arrive_full w p).
Qed.

Lemma worker_move i put w w' : worker_step i put w = Some w' → move w w'.
Proof.
  unfold worker_step. destruct (workers w !! i) as [[|sid p|sid p]|] eqn:Hw; [| | |done].
  - destruct (udpQueues w !! i) as [[|p q]|] eqn:Hq; [done| |done].
    unfold handleUDPConn. set (p' := set_meta _ p).
    assert (Hdrop : ∀ p0 o, pk_id p0 = pk_id p →
      move w (happened [Dropped p0] (set_mapper o (set_queue i q w)))) by (intros; by eapply m_refuse).
    destruct (isHandle _ _); simpl; [|intros [= <-]; by apply (Hdrop p (mapper w))].
    destruct (Valid _); simpl; [|intros [= <-]; by apply (Hdrop p (mapper w))].
    destruct (preHandleMetadata _ _ _ _) as [[[[] m] o]| |]; [intros [= <-]; by apply Hdrop| |done..].
    unfold GetOrCreate. simpl. destruct (natTable w !! Key p) as [sid|] eqn:Hn; intros [= <-].
    + by apply (m_find w i p q o sid p').
    + by apply (m_make w i p q o p').
  - destruct (sessions w !! sid) as [s|] eqn:Hs; [|done]. simpl. intros [= <-]. case_match.
    + eapply m_send_drop; eauto.
    + by eapply m_send.
  - destruct (sessions w !! sid) as [s|] eqn:Hs; [|done]. simpl. intros [= <-]. case_match eqn:Hc.
    + apply andb_true_iff in Hc as [Hc _]. apply Nat.ltb_lt in Hc. by eapply m_put.
    + eapply m_send_drop; eauto.
Qed.

Lemma session_move l w w' :
  match l with LReceive _ | LWorker _ _ => False | _ => True end → step l w = Some w' → move w w'.
Proof.
  destruct l as [p|i put|sid d|sid leave r|sid answer|sid]; [done|done|intros _..]; simpl.
  - unfold dial_step. destruct (sessions w !! sid) as [s|] eqn:Hs; [|done]. simpl.
    destruct (s_main s) as [p| |] eqn:Hm; [|done..].
    destruct (dial d p _ _) as [[[[dm|] rs] o]| |]; [| |done..]; intros [= <-]; [by apply m_dial|by eapply m_dial_fail].
  - unfold process_step. destruct (sessions w !! sid) as [s|] eqn:Hs; [|done]. simpl.
    destruct (s_main s) eqn:Hm; [done| |done].
    destruct (cancelled (sender s) && leave) eqn:Hc.
    { intros [= <-]. apply andb_true_iff in Hc as [? _]. by apply m_leave. }
    destruct (ch (sender s)) as [|p l] eqn:Hl; [done|]. simpl.
    destruct (processPacket r p _ _) as [[[addr snd] o]| |] eqn:Hp; [|done..]. intros [= <-].
    by apply (m_process w sid s p l r addr snd o).
  - unfold reply_step. destruct (sessions w !! sid) as [s|] eqn:Hs; [|done]. simpl.
    destruct (s_reading s) as [o|] eqn:Hr; [|done]. destruct (s_writeBack s) as [via|] eqn:Hv; [|done].
    destruct answer as [[from []]|]; intros [= <-]; [by apply m_reply|by apply m_reply_fail|by eapply m_timeout].
  - unfold close_step. destruct (sessions w !! sid) as [s|] eqn:Hs; [|done]. simpl.
    destruct (s_closer s) eqn:Hc; [done| | |done].
    + destruct (ch (sender s)) as [|p l] eqn:Hl; intros [= <-]; [by apply m_drained|by apply m_drain].
    + intros [= <-]. by apply m_delete.
Qed.

Lemma step_move l w w' : step l w = Some w' → move w w'.
Proof.
  destruct l as [p|i put| | | |]; [intros [= <-]; apply receive_move|apply worker_move|by apply session_move..].
Qed.

(** What a move preserves holds after every run. *)
Lemma run_ind (P : world → Prop) ls w w' :
  (∀ w w', P w → move w w' → P w') → P w → run ls w = Some w' → P w'.
Proof.
  intros Hs. revert w. induction ls as [|l ls IH]; simpl; [by intros w ? [= <-]|].
  intros w Hw. destruct (step l w) as [w1|] eqn:Hl; [|done]. simpl.
  apply IH. eapply Hs; [exact Hw|]. by eapply step_move.
Qed.

(** ** Destination NAT

    What the two maps of a sender hold, said by the record: for a destination
    the first valid target it was mapped to, for a target the first valid
    address a client asked for it by. *)

Definition first_valid (l : list Addr) : Addr := default NoAddr (List.find IsValid l).

Definition targets (sid : nat) (key : string) (h : list obs) : list Addr :=
  omap (λ o, match o with
             | Mapped sid' p t => if bool_decide (sid' = sid ∧ Metadata_String (pk_meta p) = key) then Some t else None
             | _ => None
             end) h.

Definition origins (sid : nat) (target : Addr) (h : list obs) : list Addr :=
  omap (λ o, match o with
             | Mapped sid' p t => if bool_decide (sid' = sid ∧ t = target) then Some (DstIP (pk_meta p)) else None
             | _ => None
             end) h.

Definition target_of (sid : nat) (key : string) (h : list obs) : Addr := first_valid (targets sid key h).

Definition origin_of (sid : nat) (target : Addr) (h : list obs) : Addr := first_valid (origins sid target h).

(** What the record says of a write and of an answer, given what came before. *)
Definition nat_ok (h : list obs) (o : obs) : Prop :=
  match o with
  | Wrote sid p addr =>
    let t := target_of sid (Metadata_String (pk_meta p)) h in
    IsValid t = true ∧ (addr.1 = t ∨ addr.1 = Unmap t) ∧ addr.2 = m_DstPort (pk_meta p)
  | Replied sid _ from answer =>
    let a := origin_of sid (Unmap from.1) h in
    answer = (if IsValid a then Unmap a else Unmap (Unmap from.1), from.2)
  | _ => True
  end.

(** Every observation of a record satisfies [P] of what came before it. *)
Definition throughout (P : list obs → obs → Prop) (h : list obs) : Prop :=
  ∀ h1 o h2, h = h1 ++ o :: h2 → P h1 o.

Lemma throughout_nil P : throughout P [].
Proof. by intros [] ? ?. Qed.

Lemma throughout_snoc P h o : throughout P h → P h o → throughout P (h ++ [o]).
Proof.
  intros Hh Ho h1 o' h2 He. destruct h2 as [|x h2 _] using rev_ind.
  - apply app_inj_tail in He as [-> ->]. done.
  - replace (h1 ++ o' :: h2 ++ [x]) with ((h1 ++ o' :: h2) ++ [x]) in He by by rewrite <- (assoc_L (++)).
    apply app_inj_tail in He as [-> _]. by apply (Hh h1 o' h2).
Qed.

Lemma first_valid_snoc l a :
  first_valid (l ++ [a]) = if IsValid (first_valid l) then first_valid l else a.
Proof.
  unfold first_valid. induction l as [|x l IH]; simpl; [by destruct a|]. destruct (IsValid x) eqn:Hx; [|done].
  simpl. by rewrite Hx.
Qed.

Lemma get_put_addr `{Countable K} (k k' : K) a m :
  get_addr k (put_addr k' a m) =
  if decide (k = k') then (if IsValid (get_addr k m) then get_addr k m else a) else get_addr k m.
Proof.
  unfold put_addr. case_decide as Hk.
  - subst k'. destruct (IsValid (get_addr k m)) eqn:Hv; [done|]. unfold get_addr. by rewrite lookup_insert_eq.
  - destruct (IsValid (get_addr k' m)); [done|]. unfold get_addr. by rewrite lookup_insert_ne by done.
Qed.

(** The maps of the sender of session [sid] agree with the record. *)
Definition maps_agree (h : list obs) (sid : nat) (s : packetSender) : Prop :=
  (∀ k, get_addr k (originToTarget s) = target_of sid k h) ∧ (∀ t, get_addr t (targetToOrigin s) = origin_of sid t h).

(** The record of session [sid]'s mappings. *)
Definition concerns (sid : nat) (o : obs) : Prop := match o with Mapped sid' _ _ => sid' = sid | _ => False end.

Lemma target_of_other sid k h os : Forall (λ o, ¬ concerns sid o) os → target_of sid k (h ++ os) = target_of sid k h.
Proof.
  intros Hf. unfold target_of, targets. rewrite omap_app.
  replace (omap _ os) with (@nil Addr); [by rewrite app_nil_r|].
  induction Hf as [|o os Ho _ IH]; [done|]. cbn [omap list_omap].
  destruct o; try exact IH. rewrite bool_decide_false; [exact IH|]. intros [-> _]. by apply Ho.
Qed.

Lemma origin_of_other sid t h os : Forall (λ o, ¬ concerns sid o) os → origin_of sid t (h ++ os) = origin_of sid t h.
Proof.
  intros Hf. unfold origin_of, origins. rewrite omap_app.
  replace (omap _ os) with (@nil Addr); [by rewrite app_nil_r|].
  induction Hf as [|o os Ho _ IH]; [done|]. cbn [omap list_omap].
  destruct o; try exact IH. rewrite bool_decide_false; [exact IH|]. intros [-> _]. by apply Ho.
Qed.

Lemma maps_agree_other h os sid s :
  Forall (λ o, ¬ concerns sid o) os → maps_agree h sid s → maps_agree (h ++ os) sid s.
Proof.
  intros Hf [Ht Ho]. split; intros.
  - by rewrite target_of_other.
  - by rewrite origin_of_other.
Qed.

Lemma maps_agree_mapping h sid p m s :
  maps_agree h sid s → maps_agree (h ++ [Mapped sid p (DstIP m)]) sid (AddMapping (pk_meta p) m s).
Proof.
  intros [Ht Ho]. split.
  - intros k. unfold AddMapping. simpl. rewrite get_put_addr, Ht. unfold target_of, targets. rewrite omap_app. simpl.
    case_decide as Hk; [subst k; rewrite bool_decide_true by done|rewrite bool_decide_false by (intros [_ ?]; congruence)].
    + by rewrite first_valid_snoc.
    + by rewrite app_nil_r.
  - intros t. unfold AddMapping. simpl. rewrite get_put_addr, Ho. unfold origin_of, origins. rewrite omap_app. simpl.
    case_decide as Hk; [subst t; rewrite bool_decide_true by done|rewrite bool_decide_false by (intros [_ ?]; congruence)].
    + by rewrite first_valid_snoc.
    + by rewrite app_nil_r.
Qed.

(** *** What processing a packet does *)

Lemma ResolveUDP_ports r m m' : ResolveUDP r m = Some m' → m_DstPort m' = m_DstPort m ∧ m_NetWork m' = m_NetWork m.
Proof.
  unfold ResolveUDP. destruct r; simpl; repeat case_match; try done; try (by intros [= <-]);
    (destruct (resolve (Host m)); simpl; [by intros [= <-]|done]).
Qed.

(** What [processPacket] does to the maps and where it writes. *)
Lemma processPacket_cases r p s o addr s' o' :
  let k := Metadata_String (pk_meta p) in
  processPacket r p s o = Done (addr, s', o') →
  (s' = s ∧ (addr = None ∨
    (IsValid (get_addr k (originToTarget s)) = true ∧ addr = Some (get_addr k (originToTarget s), m_DstPort (pk_meta p))))) ∨
  (IsValid (get_addr k (originToTarget s)) = false ∧ ∃ m, IsValid (DstIP m) = true ∧ s' = AddMapping (pk_meta p) m s ∧
    (addr = None ∨ addr = Some (Unmap (DstIP m), m_DstPort (pk_meta p)))).
Proof.
  intros k. unfold processPacket. fold k. destruct (IsValid (get_addr k _)) eqn:Hv.
  { intros [= <- <- <-]. left. auto. }
  destruct (preHandleMetadata _ _ _ _) as [[[e m] o1]| |] eqn:Hp; [|done..].
  apply preHandle_ports in Hp as [Hp Hn]. destruct (Pure_ports m) as [Hp' Hn'].
  assert (∃ x, (if negb (bool_decide (Host (Pure m) = "")) then ResolveUDP r (Pure m) else Some (Pure m)) = x ∧
    ∀ m', x = Some m' → m_DstPort m' = m_DstPort (pk_meta p)) as (x & -> & Hx).
  { eexists; split; [done|]. intros m'. case_match; [intros [? _]%ResolveUDP_ports|intros [= <-]]; congruence. }
  destruct x as [m'|]; [|intros [= <- <- <-]; left; auto].
  specialize (Hx m' eq_refl). destruct (IsValid (DstIP m')) eqn:Hi; [|intros [= <- <- <-]; left; auto].
  intros [= <- <- <-]. right. split; [done|]. exists m'. split_and!; [done..|].
  unfold UDPAddr. case_match; [by left|right]. unfold AddrPort. by rewrite Hx.
Qed.

(** *** The invariant of the mappings *)

Record nat_inv (w : world) : Prop := {
  ni_history : throughout nat_ok (history w);
  ni_maps sid s : sessions w !! sid = Some s → maps_agree (history w) sid (sender s);
  ni_fresh sid : length (sessions w) ≤ sid → Forall (λ o, ¬ concerns sid o) (history w)
}.

Definition same_maps (s s' : packetSender) : Prop :=
  originToTarget s' = originToTarget s ∧ targetToOrigin s' = targetToOrigin s.

(** An observation [nat_ok] says nothing about. *)
Definition plain (o : obs) : Prop := match o with Mapped _ _ _ | Wrote _ _ _ | Replied _ _ _ _ => False | _ => True end.

(** Sessions of [w'] are those of [w] with the maps they had. *)
Definition same_sessions (w w' : world) : Prop :=
  length (sessions w') = length (sessions w) ∧
  ∀ sid s', sessions w' !! sid = Some s' → ∃ s, sessions w !! sid = Some s ∧ same_maps (sender s) (sender s').

Lemma same_sessions_refl w w' : sessions w' = sessions w → same_sessions w w'.
Proof. unfold same_sessions. intros ->. split; [done|]. intros sid s Hs. by exists s. Qed.

Lemma same_sessions_set w w' sid s s' :
  sessions w !! sid = Some s → sessions w' = <[sid := s']> (sessions w) → same_maps (sender s) (sender s') → same_sessions w w'.
Proof.
  unfold same_sessions. intros Hs -> Hm. split; [by rewrite length_insert|]. intros sid' s0.
  rewrite list_lookup_insert_Some. intros [(<- & <- & _)|[_ Hx]]; [eauto|]. by exists s0.
Qed.

Lemma maps_agree_same h sid s s' : same_maps s s' → maps_agree h sid s → maps_agree h sid s'.
Proof. intros [Hq1 Hq2] [Ht Ho]. split; [by rewrite Hq1|by rewrite Hq2]. Qed.

Lemma throughout_app P h os :
  throughout P h → (∀ o1 o os1, os = o1 ++ o :: os1 → P (h ++ o1) o) → throughout P (h ++ os).
Proof.
  intros Hh. induction os as [|o os IH] using rev_ind; intros Ho; [by rewrite app_nil_r|].
  rewrite (assoc_L (++)). apply throughout_snoc.
  - apply IH. intros o1 x os1 ->. apply (Ho o1 x (os1 ++ [o])). by rewrite <- (assoc_L (++)).
  - by apply (Ho os o []).
Qed.

Lemma plain_concerns sid os : Forall plain os → Forall (λ o, ¬ concerns sid o) os.
Proof. intros Hp. apply (Forall_impl _ _ _ Hp). intros [] Hx; simpl; try (by destruct Hx); by intros []. Qed.

(** Moves that make no mapping: the observations hold of the record before. *)
Lemma nat_inv_unmapped w w' os :
  nat_inv w → same_sessions w w' → history w' = history w ++ os → (∀ sid, Forall (λ o, ¬ concerns sid o) os) →
  (∀ o1 o os1, os = o1 ++ o :: os1 → nat_ok (history w ++ o1) o) → nat_inv w'.
Proof.
  intros [Hh Hm Hf] [Hl Hs] He Hc Ho. split.
  - rewrite He. by apply throughout_app.
  - intros sid s' (s & Hs1 & Hs2)%Hs. rewrite He. apply maps_agree_other; [done|]. eapply maps_agree_same; eauto.
  - intros sid Hle. rewrite He. apply Forall_app. split; [apply Hf; lia|done].
Qed.

Lemma nat_inv_plain w w' os :
  nat_inv w → same_sessions w w' → history w' = history w ++ os → Forall plain os → nat_inv w'.
Proof.
  intros Hi Hs He Hp. apply (nat_inv_unmapped w w' os); [done..|intros; by apply plain_concerns|].
  intros o1 o os1 ->. apply Forall_app in Hp as [_ [Hp _]%Forall_cons]. by destruct o.
Qed.

(** A mapping of session [sid], then observations that hold. *)
Lemma nat_inv_mapped w w' sid s s' p m pre os :
  nat_inv w → sessions w !! sid = Some s → sessions w' = <[sid := s']> (sessions w) →
  same_maps (AddMapping (pk_meta p) m (sender s)) (sender s') →
  history w' = history w ++ pre ++ Mapped sid p (DstIP m) :: os →
  Forall plain pre → Forall (λ o, ¬ concerns sid o) os → (∀ sid', sid' ≠ sid → Forall (λ o, ¬ concerns sid' o) os) →
  (∀ o1 o os1, os = o1 ++ o :: os1 → nat_ok ((history w ++ pre ++ [Mapped sid p (DstIP m)]) ++ o1) o) →
  nat_inv w'.
Proof.
  intros [Hh Hm Hf] Hs Hs' Hmaps He Hpre Hc Hc' Ho.
  replace (history w ++ pre ++ Mapped sid p (DstIP m) :: os) with ((history w ++ pre ++ [Mapped sid p (DstIP m)]) ++ os) in He
    by by rewrite <- !(assoc_L (++)).
  assert (Hoth : ∀ sid', sid' ≠ sid → Forall (λ o, ¬ concerns sid' o) (pre ++ [Mapped sid p (DstIP m)])).
  { intros sid' Hne. apply Forall_app. split; [by apply plain_concerns|]. constructor; [|done]. simpl. congruence. }
  split.
  - rewrite He. apply throughout_app; [|done]. apply throughout_app; [done|].
    intros o1 o os1 Hsp. destruct os1 as [|x os1 _] using rev_ind.
    + apply app_inj_tail in Hsp as [_ <-]. done.
    + replace (o1 ++ o :: os1 ++ [x]) with ((o1 ++ o :: os1) ++ [x]) in Hsp by by rewrite <- (assoc_L (++)).
      apply app_inj_tail in Hsp as [-> _]. apply Forall_app in Hpre as [_ [Hp _]%Forall_cons]. by destruct o.
  - intros sid' s0. rewrite Hs', list_lookup_insert_Some, He. intros [(<- & <- & _)|[Hne Hx]].
    + apply maps_agree_other; [done|]. eapply maps_agree_same; [exact Hmaps|].
      rewrite (assoc_L (++)). apply maps_agree_mapping. apply maps_agree_other; [by apply plain_concerns|by apply Hm].
    + apply maps_agree_other; [by apply Hc'|]. apply maps_agree_other; [by apply Hoth|]. by apply Hm.
  - intros sid' Hle. rewrite He. rewrite Hs', length_insert in Hle. pose proof (lookup_lt_Some _ _ _ Hs).
    assert (sid' ≠ sid) by lia. apply Forall_app. split; [|by apply Hc'].
    apply Forall_app. split; [by apply Hf|by apply Hoth].
Qed.

Lemma split_single {A} (x o : A) o1 os1 : [x] = o1 ++ o :: os1 → o1 = [] ∧ o = x.
Proof. destruct o1 as [|y o1]; [by intros [= <- _]|]. by destruct o1. Qed.

(** A write and the release of the packet, after a record [h]. *)
Lemma write_ok h sid p addr o1 o os1 :
  (∀ a, addr = Some a → nat_ok h (Wrote sid p a)) →
  match addr with Some a => [Wrote sid p a] | None => [] end ++ [Dropped p] = o1 ++ o :: os1 → nat_ok (h ++ o1) o.
Proof.
  intros Ha. destruct addr as [a|]; simpl.
  - destruct o1 as [|x o1]; simpl.
    + intros [= <- _]. rewrite app_nil_r. by apply Ha.
    + intros [= <- Hs]. by apply split_single in Hs as [-> ->].
  - intros Hs. by apply split_single in Hs as [-> ->].
Qed.

Lemma write_unmapped sid sid' p (addr : option (Addr * Z)) :
  Forall (λ o, ¬ concerns sid o) (match addr with Some a => [Wrote sid' p a] | None => [] end ++ [Dropped p]).
Proof. by destruct addr; repeat constructor; intros []. Qed.

Lemma nat_inv_process w sid s p l r addr snd o :
  nat_inv w → sessions w !! sid = Some s → ch (sender s) = p :: l →
  processPacket r p (set_ch l (sender s)) (mapper w) = Done (addr, snd, o) →
  nat_inv (happened (Took sid p :: processed sid p (sender s) snd addr (get_addr (Metadata_String (pk_meta p)) (originToTarget snd)))
    (set_mapper o (set_session sid (set_sender (λ _, snd) (set_writeBack p s)) w))).
Proof.
  intros Hi Hs Hl Hp. set (k := Metadata_String (pk_meta p)).
  destruct (ni_maps w Hi sid s Hs) as [Ht _].
  assert (Hto : ∀ h, Forall (λ o, ¬ concerns sid o) h → target_of sid k (history w ++ h) = get_addr k (originToTarget (sender s)))
    by (intros; rewrite target_of_other by done; by rewrite Ht).
  apply processPacket_cases in Hp as [[-> Ha]|(Hv & m & Hm & -> & Ha)]; fold k in Ha; simpl in Ha.
  - eapply nat_inv_unmapped; [exact Hi|by eapply same_sessions_set|reflexivity|..].
    + intros sid'. constructor; [by intros []|]. unfold processed, set_ch. fold k. cbn [originToTarget].
      destruct (IsValid _); apply write_unmapped.
    + intros o1 o' os1. unfold processed, set_ch. fold k. cbn [originToTarget].
      replace (if IsValid _ then [] else _) with (@nil obs) by (by destruct (IsValid _)).
      destruct o1 as [|x o1]; [by intros [= <- _]|]. intros [= <- Hx].
      replace (history w ++ Took sid p :: o1) with ((history w ++ [Took sid p]) ++ o1) by by rewrite <- (assoc_L (++)).
      revert Hx. apply write_ok. intros a ->. destruct Ha as [|[Hv [= ->]]]; [done|].
      unfold nat_ok. fold k. rewrite Hto by (repeat constructor; by intros []). simpl. auto.
  - fold k in Hv. cbn [set_ch originToTarget] in Hv. eapply (nat_inv_mapped w _ sid s _ p m [Took sid p]
      (match addr with Some a => [Wrote sid p a] | None => [] end ++ [Dropped p])); [exact Hi|exact Hs|reflexivity|done|..].
    + unfold processed. fold k. rewrite Hv. unfold AddMapping, set_ch. cbn [originToTarget]. fold k.
      rewrite get_put_addr, decide_True by done. rewrite Hv, Hm. reflexivity.
    + by repeat constructor.
    + apply write_unmapped.
    + intros; apply write_unmapped.
    + intros o1 o' os1. apply write_ok. intros a ->. destruct Ha as [|[= ->]]; [done|].
      unfold nat_ok. fold k.
      destruct (maps_agree_mapping (history w ++ [Took sid p]) sid p m (sender s)) as [Hk _].
      { apply maps_agree_other; [repeat constructor; by intros []|by apply Hi]. }
      rewrite (assoc_L (++)), <- Hk. unfold AddMapping. cbn [originToTarget]. fold k.
      rewrite get_put_addr, decide_True by done. rewrite Hv. simpl. auto.
Qed.

Lemma reply_ok w sid s via from oAddrPort o1 o os1 :
  nat_inv w → sessions w !! sid = Some s →
  [Replied sid via (default oAddrPort from) (reply_addr oAddrPort from (sender s))] = o1 ++ o :: os1 →
  nat_ok (history w ++ o1) o.
Proof.
  intros Hi Hs Ho. apply split_single in Ho as [-> ->]. rewrite app_nil_r. unfold nat_ok, reply_addr, RestoreReadFrom.
  destruct (ni_maps w Hi sid s Hs) as [_ ->]. by case_match.
Qed.

Lemma nat_inv_move w w' : nat_inv w → move w w' → nat_inv w'.
Proof.
  intros Hi. destruct 1 as [p i|p|i p q o p' Hw Hq|i p q o sid p' Hw Hq|i p q o p' sid Hw Hq Hid Hk Hn|i sid p s Hw Hs|i sid p s x Hw Hx Hs|
    i sid p s Hw Hs Hl|sid s p dm rs o Hs Hm|sid s p rs o Hs Hm|sid s Hs Hm Hc|sid s p l r addr snd o Hs Hm Hl Hp target|
    sid s oa via from Hs Hr Hv|sid s oa via from Hs Hr Hv|sid s oa via Hs Hr Hv|sid s p l Hs Hc Hl|sid s Hs Hc Hl|sid s Hs Hc];
    try (eapply nat_inv_plain; [exact Hi|by apply same_sessions_refl|reflexivity|by repeat constructor]);
    try (eapply nat_inv_plain; [exact Hi|by apply same_sessions_refl|symmetry; apply app_nil_r|by constructor]);
    try (eapply nat_inv_plain; [exact Hi|by eapply same_sessions_set|reflexivity|by repeat constructor]);
    try (eapply nat_inv_plain; [exact Hi|by eapply same_sessions_set|symmetry; apply app_nil_r|by constructor]).
  - destruct Hi as [Hh Hm Hf]. split.
    + by apply throughout_snoc.
    + intros sid' s'. simpl. rewrite lookup_app_Some. intros [Hs|[Hle Hs]].
      * apply maps_agree_other; [repeat constructor; by intros []|by apply Hm].
      * apply list_lookup_singleton_Some in Hs as [Hs <-]. assert (Hge : length (sessions w) ≤ sid') by lia.
        apply maps_agree_other; [repeat constructor; by intros []|]. specialize (Hf _ Hge).
        split; intros x; [pose proof (target_of_other sid' x [] _ Hf)|pose proof (origin_of_other sid' x [] _ Hf)]; by symmetry.
    + intros sid'. simpl. rewrite length_app. intros Hle. apply Forall_app. split; [apply Hf; simpl in Hle; lia|].
      repeat constructor; by intros [].
  - eapply (nat_inv_mapped w _ sid s _ p dm [] []); [exact Hi|exact Hs|reflexivity|done|reflexivity|by constructor..|].
    by intros [] ? ?.
  - by eapply nat_inv_process.
  - eapply nat_inv_unmapped; [exact Hi|by apply same_sessions_refl|reflexivity|..].
    + intros; repeat constructor; by intros [].
    + intros o1 o os1. by apply reply_ok.
  - eapply nat_inv_unmapped; [exact Hi|by eapply same_sessions_set|reflexivity|..].
    + intros; repeat constructor; by intros [].
    + intros o1 o os1. by apply reply_ok.
Qed.

Lemma nat_inv_init procs o rs : nat_inv (initUDP procs o rs).
Proof. split; simpl; [apply throughout_nil|by intros [] ?|constructor]. Qed.

(** A world the program can reach. *)
Definition from_start (w : world) : Prop := ∃ procs o rs ls, run ls (initUDP procs o rs) = Some w.

Lemma from_start_ind (P : world → Prop) w :
  (∀ procs o rs, P (initUDP procs o rs)) → (∀ w w', P w → move w w' → P w') → from_start w → P w.
Proof. intros H1 Hs (procs & o & rs & ls & Hr). by eapply run_ind. Qed.

Lemma nat_inv_start w : from_start w → nat_inv w.
Proof. apply from_start_ind; [apply nat_inv_init|apply nat_inv_move]. Qed.

Lemma first_valid_prefix l l' : IsValid (first_valid l) = true → first_valid (l ++ l') = first_valid l.
Proof.
  intros Hv. induction l' as [|x l' IH] using rev_ind; [by rewrite app_nil_r|].
  rewrite (assoc_L (++)), first_valid_snoc, IH by done. by rewrite Hv.
Qed.

Lemma target_of_prefix sid k h h' : IsValid (target_of sid k h) = true → target_of sid k (h ++ h') = target_of sid k h.
Proof. unfold target_of, targets. rewrite omap_app. apply first_valid_prefix. Qed.

Lemma first_valid_In l : first_valid l ≠ NoAddr → first_valid l ∈ l.
Proof.
  unfold first_valid. destruct (List.find _ l) as [a|] eqn:Hf; [|done]. intros _.
  apply find_some in Hf as [Hin _]. by apply list_elem_of_In.
Qed.

Lemma first_valid_only ip l : IsValid ip = true → ip ∈ l → (∀ x, x ∈ l → x = ip ∨ x = NoAddr) → first_valid l = ip.
Proof.
  intros Hv Hin Hall. induction l as [|x l IH]; [by apply not_elem_of_nil in Hin|].
  unfold first_valid. simpl. destruct (Hall x (list_elem_of_here _ _)) as [->| ->]; [by rewrite Hv|simpl].
  apply IH; [|intros; apply Hall; by apply list_elem_of_further]. apply elem_of_cons in Hin as [->|?]; done.
Qed.

Lemma first_valid_none l : (∀ x, x ∈ l → x = NoAddr) → first_valid l = NoAddr.
Proof.
  intros Hall. destruct (decide (first_valid l = NoAddr)) as [|Hne]; [done|]. by apply Hall, first_valid_In.
Qed.

Lemma elem_of_origins sid t h a :
  a ∈ origins sid t h ↔ ∃ p, Mapped sid p t ∈ h ∧ DstIP (pk_meta p) = a.
Proof.
  unfold origins. rewrite list_elem_of_omap. split.
  - intros (o & Ho & Hs). destruct o as [| | | | |sid' p t'| |]; try done. case_bool_decide as Hb; [|done].
    destruct Hb as [-> ->]. injection Hs as <-. eauto.
  - intros (p & Hm & <-). eexists. split; [exact Hm|]. simpl. by rewrite bool_decide_true.
Qed.

(** ** The table and the keys *)

Lemma queueNo_length key w w' : length (udpQueues w') = length (udpQueues w) → queueNo key w' = queueNo key w.
Proof. unfold queueNo. by intros ->. Qed.

(** Worker [i] is about to send packet [p] to session [sid]. *)
Definition sends (x : worker) (sid : nat) (p : packet) : Prop := x = Sending sid p ∨ x = Putting sid p.

(** The session an observation is about has the packet's key. *)
Definition obs_key (w : world) (o : obs) : Prop :=
  match o with
  | Put sid p _ | Took sid p | Mapped sid p _ | Wrote sid p _ | Replied sid p _ _ => s_key <$> sessions w !! sid = Some (Key p)
  | Opened sid key => s_key <$> sessions w !! sid = Some key
  | Arrived _ | Dropped _ => True
  end.

(** All that a session holds is of its key; a closed session is cancelled and has
    no reader; an open one is not cancelled. *)
Record session_ok (s : session) : Prop := {
  so_ch : Forall (λ p, Key p = s_key s) (ch (sender s));
  so_dialing p : s_main s = Dialing p → Key p = s_key s ∧ s_reading s = None ∧ s_closer s = Open;
  so_writeBack p : s_writeBack s = Some p → Key p = s_key s;
  so_open : s_closer s = Open → cancelled (sender s) = false;
  so_closing : s_closer s ≠ Open → cancelled (sender s) = true ∧ s_reading s = None;
  so_processing : s_main s = Processing → is_Some (s_writeBack s) ∧ (s_closer s = Open → is_Some (s_reading s));
  so_bound : length (ch (sender s)) ≤ senderCapacity
}.

Record keys_inv (w : world) : Prop := {
  ki_table key sid : natTable w !! key = Some sid →
    ∃ s, sessions w !! sid = Some s ∧ s_key s = key ∧ s_closer s ≠ Closed;
  ki_open sid s : sessions w !! sid = Some s → s_closer s ≠ Closed → natTable w !! s_key s = Some sid;
  ki_session sid s : sessions w !! sid = Some s → session_ok s;
  ki_worker i x sid p : workers w !! i = Some x → sends x sid p →
    s_key <$> sessions w !! sid = Some (Key p) ∧ queueNo (Key p) w = i;
  ki_queue i q : udpQueues w !! i = Some q → Forall (λ p, queueNo (Key p) w = i) q;
  ki_history : Forall (obs_key w) (history w)
}.

(** *** Sessions keep their keys *)

Definition grows (w w' : world) : Prop :=
  ∀ sid k, s_key <$> sessions w !! sid = Some k → s_key <$> sessions w' !! sid = Some k.

Lemma grows_refl w w' : sessions w' = sessions w → grows w w'.
Proof. unfold grows. by intros ->. Qed.

Lemma grows_set w w' sid s s' :
  sessions w !! sid = Some s → sessions w' = <[sid := s']> (sessions w) → s_key s' = s_key s → grows w w'.
Proof.
  unfold grows. intros Hs -> Hk sid' k. destruct (decide (sid' = sid)) as [->|].
  - rewrite Hs, list_lookup_insert_eq by by eapply lookup_lt_Some. simpl. by rewrite Hk.
  - by rewrite list_lookup_insert_ne.
Qed.

Lemma obs_key_grows w w' : grows w w' → Forall (obs_key w) (history w) → Forall (obs_key w') (history w).
Proof.
  intros Hg Hf. apply (Forall_impl _ _ _ Hf). intros [] Ho; simpl in Ho |- *; try done; by apply Hg.
Qed.

(** Moves of the workers and queues that leave the sessions alone. *)
Lemma keys_inv_front w w' os :
  keys_inv w → natTable w' = natTable w → sessions w' = sessions w → length (udpQueues w') = length (udpQueues w) →
  history w' = history w ++ os → Forall (obs_key w) os →
  (∀ i x sid p, workers w' !! i = Some x → sends x sid p → s_key <$> sessions w !! sid = Some (Key p) ∧ queueNo (Key p) w = i) →
  (∀ i q, udpQueues w' !! i = Some q → Forall (λ p, queueNo (Key p) w = i) q) →
  keys_inv w'.
Proof.
  intros Hi Hn Hs Hq Hh Ho Hw Hqs. split.
  - intros key sid. rewrite Hn, Hs. apply Hi.
  - intros sid s. rewrite Hn, Hs. apply Hi.
  - intros sid s. rewrite Hs. apply Hi.
  - intros i x sid p. rewrite Hs, (queueNo_length _ _ _ Hq). apply Hw.
  - intros i q Hi'. pose proof (Hqs i q Hi') as Hf. apply (Forall_impl _ _ _ Hf). intros p <-. by apply queueNo_length.
  - rewrite Hh. assert (Hf : Forall (obs_key w) (history w ++ os)) by (apply Forall_app; split; [apply Hi|done]).
    apply (Forall_impl _ _ _ Hf). intros []; simpl; by rewrite ?Hs.
Qed.

(** Moves of one session. *)
Lemma keys_inv_session w w' sid s s' os :
  keys_inv w → sessions w !! sid = Some s → natTable w' = natTable w → sessions w' = <[sid := s']> (sessions w) →
  udpQueues w' = udpQueues w → (∀ i x sid p, workers w' !! i = Some x → sends x sid p → workers w !! i = Some x) →
  history w' = history w ++ os → Forall (obs_key w) os →
  s_key s' = s_key s → (s_closer s' = Closed ↔ s_closer s = Closed) → session_ok s' → keys_inv w'.
Proof.
  intros Hi Hsid Hn Hs Hq Hw Hh Ho Hk Hc Hok. pose proof (grows_set w w' sid s s' Hsid Hs Hk) as Hg.
  pose proof (lookup_lt_Some _ _ _ Hsid) as Hlt. split.
  - intros key sid'. rewrite Hn. intros (s0 & Hs0 & Hk0 & Hc0)%Hi. rewrite Hs.
    destruct (decide (sid' = sid)) as [->|]; [|rewrite list_lookup_insert_ne by done; eauto].
    rewrite list_lookup_insert_eq by done. simplify_eq. exists s'. rewrite Hc. auto.
  - intros sid' s0. rewrite Hn, Hs, list_lookup_insert_Some. intros [(<- & <- & _)|[Hne Hx]].
    + rewrite Hk, Hc. by apply Hi.
    + by apply Hi.
  - intros sid' s0. rewrite Hs, list_lookup_insert_Some. intros [(<- & <- & _)|[Hne Hx]]; [done|by apply (ki_session w Hi sid')].
  - intros i x sid' p Hx Hp. unfold queueNo. rewrite Hq. destruct (ki_worker w Hi i x sid' p) as [Hx1 Hx2]; [by eapply Hw|done|].
    split; [by apply Hg|done].
  - intros i q. unfold queueNo. rewrite Hq. by apply Hi.
  - rewrite Hh. apply Forall_app. split; [apply obs_key_grows; [done|apply Hi]|].
    apply (Forall_impl _ _ _ Ho). intros []; simpl; try done; by apply Hg.
Qed.

Lemma processPacket_channel r p s o addr s' o' :
  processPacket r p s o = Done (addr, s', o') → cancelled s' = cancelled s ∧ ch s' = ch s.
Proof. by intros [[-> _]|(_ & m & _ & -> & _)]%processPacket_cases. Qed.

Lemma processed_key w sid s p snd addr t :
  s_key <$> sessions w !! sid = Some (Key p) → Forall (obs_key w) (Took sid p :: processed sid p s snd addr t).
Proof.
  intros Hk. constructor; [done|]. unfold processed.
  apply Forall_app. split; [repeat case_match; repeat constructor; done|].
  apply Forall_app. split; [case_match; repeat constructor; done|by repeat constructor].
Qed.

Lemma new_session_ok p : session_ok (new_session p).
Proof. split; simpl; try done; [by intros q [= ->]|unfold senderCapacity; lia]. Qed.

(** A session that starts to close, after a failed dial or a failed read. *)
Lemma dial_failed_ok s p : session_ok s → s_main s = Dialing p → session_ok (set_main Returned (start_closing s)).
Proof. intros Hok Hm. destruct (so_dialing s Hok p Hm) as (_ & Hr & _). split; simpl; try done; apply Hok. Qed.

Lemma read_failed_ok s o via :
  session_ok s → s_reading s = Some o → s_writeBack s = Some via → session_ok (set_reading None (start_closing s)).
Proof.
  intros Hok Hr Hv. split; simpl; try done; try apply Hok.
  intros p Hm. destruct (so_dialing s Hok p Hm) as (_ & Hn & _). congruence.
Qed.

Lemma reading_open s o : session_ok s → s_reading s = Some o → s_closer s = Open.
Proof.
  intros Hok Hr. destruct (s_closer s) eqn:Hc; [done|..];
    (destruct (so_closing s Hok) as [_ Hn]; [by rewrite Hc|congruence]).
Qed.

Lemma dialled_ok s p dm :
  session_ok s → s_main s = Dialing p →
  session_ok (set_main Processing (set_writeBack p (set_reading (Some (AddrPort dm)) (set_sender (AddMapping (pk_meta p) dm) s)))).
Proof.
  intros Hok Hm. destruct (so_dialing s Hok p Hm) as (Hk & _ & Ho). split; simpl; try done; try apply Hok.
  by intros q [= <-].
Qed.

Lemma processed_ok s p l snd :
  session_ok s → s_main s = Processing → ch (sender s) = p :: l → cancelled snd = cancelled (sender s) → ch snd = l →
  session_ok (set_sender (λ _, snd) (set_writeBack p s)).
Proof.
  intros Hok Hm Hl Hc Hch. pose proof (so_ch s Hok) as Hf. pose proof (so_bound s Hok) as Hb.
  rewrite Hl in Hf, Hb. apply Forall_cons in Hf as [Hk Hf]. simpl in Hb.
  split; simpl; rewrite ?Hc, ?Hch; try apply Hok; try done; [by intros q [= <-]| |lia].
  intros _. split; [done|]. by apply Hok.
Qed.

Lemma drained_ok s p l : session_ok s → ch (sender s) = p :: l → session_ok (set_sender (set_ch l) s).
Proof.
  intros Hok Hl. pose proof (so_ch s Hok) as Hf. pose proof (so_bound s Hok) as Hb.
  rewrite Hl in Hf, Hb. apply Forall_cons in Hf as [_ Hf]. simpl in Hb. split; simpl; try apply Hok; [done|lia].
Qed.

Lemma put_ok s p :
  session_ok s → Key p = s_key s → length (ch (sender s)) < senderCapacity →
  session_ok (set_sender (set_ch (ch (sender s) ++ [p])) s).
Proof.
  intros Hok Hk Hl. split; simpl; try apply Hok.
  - apply Forall_app. split; [by apply Hok|by repeat constructor].
  - rewrite length_app. simpl. lia.
Qed.

(** The closer goes on. *)
Lemma closer_ok s x : session_ok s → s_closer s ≠ Open → x ≠ Open → session_ok (set_closer x s).
Proof.
  intros Hok Hc Hx. split; simpl; try apply Hok; try done.
  - intros p Hm. by destruct (so_dialing s Hok p Hm) as (_ & _ & ?).
  - intros _. by apply Hok.
  - intros Hm. split; [by apply Hok|done].
Qed.

Lemma left_ok s : session_ok s → s_main s = Processing → cancelled (sender s) = true → session_ok (set_main Returned s).
Proof. intros Hok Hm Hc. split; simpl; try done; apply Hok. Qed.

(** *** The workers *)

Lemma worker_set_inv w w' i y :
  workers w' = <[i := y]> (workers w) → keys_inv w → i < length (workers w) →
  (∀ sid p, sends y sid p → s_key <$> sessions w !! sid = Some (Key p) ∧ queueNo (Key p) w = i) →
  ∀ j x sid p, workers w' !! j = Some x → sends x sid p → s_key <$> sessions w !! sid = Some (Key p) ∧ queueNo (Key p) w = j.
Proof.
  intros -> Hi Hlt Hy j x sid p. rewrite list_lookup_insert_Some. intros [(-> & -> & _)|[_ Hx]]; [apply Hy|by apply Hi].
Qed.

Lemma queue_set_inv w w' i q :
  udpQueues w' = <[i := q]> (udpQueues w) → keys_inv w → Forall (λ p, queueNo (Key p) w = i) q →
  ∀ j r, udpQueues w' !! j = Some r → Forall (λ p, queueNo (Key p) w = j) r.
Proof. intros -> Hi Hq j r. rewrite list_lookup_insert_Some. intros [(-> & -> & _)|[_ Hx]]; [done|by apply Hi]. Qed.

(** The head of a queue, once the worker has it. *)
Lemma queue_head w i p q :
  keys_inv w → udpQueues w !! i = Some (p :: q) → queueNo (Key p) w = i ∧ Forall (λ p, queueNo (Key p) w = i) q.
Proof. intros Hi Hq. by apply (ki_queue w Hi), Forall_cons in Hq. Qed.

Lemma table_key w key sid : keys_inv w → natTable w !! key = Some sid → s_key <$> sessions w !! sid = Some key.
Proof. intros Hi Hn. apply Hi in Hn as (s & -> & <- & _). done. Qed.

Lemma waiting_sends sid p : ¬ sends Waiting sid p.
Proof. by intros [?|?]. Qed.

Lemma workers_waiting w i x j sid p :
  <[i := Waiting]> (workers w) !! j = Some x → sends x sid p → workers w !! j = Some x.
Proof. rewrite list_lookup_insert_Some. intros [(_ & <- & _)|[_ ?]]; [by intros ?%waiting_sends|done]. Qed.

Lemma keys_inv_make w i p q o p' :
  let sid := length (sessions w) in
  keys_inv w → workers w !! i = Some Waiting → udpQueues w !! i = Some (p :: q) → Key p' = Key p →
  natTable w !! Key p' = None →
  keys_inv (set_worker i (Sending sid p') (happened [Opened sid (Key p')] (set_natTable (<[Key p' := sid]> (natTable w))
      (add_session (new_session p') (set_mapper o (set_queue i q w)))))).
Proof.
  intros sid Hi Hw Hq Hk Hn. destruct (queue_head w i p q Hi Hq) as [Hp Hqi].
  pose proof (lookup_lt_Some _ _ _ Hw) as Hlt.
  assert (Hqn : ∀ key w', udpQueues w' = <[i := q]> (udpQueues w) → queueNo key w' = queueNo key w)
    by (intros key w' He; apply queueNo_length; by rewrite He, length_insert).
  set (w' := set_worker _ _ _).
  assert (Hg : grows w w').
  { intros s k Hs. simpl. destruct (sessions w !! s) as [s0|] eqn:Hs0; [|done]. by erewrite lookup_app_l_Some. }
  assert (Hnew : sessions w' !! sid = Some (new_session p')).
  { simpl. unfold sid. rewrite lookup_app_r by done. by rewrite Nat.sub_diag. }
  assert (Hnk : s_key <$> sessions w' !! sid = Some (Key p')) by by rewrite Hnew.
  split.
  - intros key s. simpl. rewrite lookup_insert_Some. intros [[<- <-]|[Hne Hs]].
    + exists (new_session p'). split; [exact Hnew|done].
    + apply Hi in Hs as (s0 & Hs0 & ?). exists s0. split; [|done]. by erewrite lookup_app_l_Some.
  - intros s s0. simpl. rewrite lookup_app_Some. intros [Hs|[Hle Hs]] Hc.
    + pose proof (ki_open w Hi _ _ Hs Hc) as Ht. rewrite lookup_insert_ne; [done|]. congruence.
    + apply list_lookup_singleton_Some in Hs as [Hs <-]. simpl. rewrite lookup_insert_eq. f_equal. unfold sid. simpl in *. lia.
  - intros s s0. simpl. rewrite lookup_app_Some. intros [Hs|[_ Hs]]; [by apply (ki_session w Hi s)|].
    apply list_lookup_singleton_Some in Hs as [_ <-]. apply new_session_ok.
  - intros j x s p0. cbn [workers w' set_worker]. rewrite list_lookup_insert_Some. intros [(<- & <- & _)|[_ Hx]] Hs.
    + assert (s = sid ∧ p0 = p') as [-> ->] by (destruct Hs as [[= <- <-]|?]; done).
      split; [exact Hnk|]. rewrite (Hqn _ w' eq_refl), Hk. done.
    + destruct (ki_worker w Hi j x s p0 Hx Hs) as [H1 H2]. split; [by apply Hg|]. by rewrite (Hqn _ w' eq_refl).
  - intros j r. simpl. rewrite list_lookup_insert_Some. intros [(<- & <- & _)|[_ Hx]].
    + apply (Forall_impl _ _ _ Hqi). intros. by rewrite (Hqn _ w' eq_refl).
    + apply (ki_queue w Hi) in Hx. apply (Forall_impl _ _ _ Hx). intros. by rewrite (Hqn _ w' eq_refl).
  - simpl. apply Forall_app. split; [by apply obs_key_grows, Hi|]. repeat constructor. exact Hnk.
Qed.

Lemma keys_inv_arrive w p (i := queueNo (Key p) w) :
  keys_inv w → keys_inv (set_queue i (default [] (udpQueues w !! i) ++ [p]) (happened [Arrived p] w)).
Proof.
  intros Hi. eapply (keys_inv_front w _ [Arrived p]); [done|done|done|apply length_insert|done|by repeat constructor|apply Hi|].
  eapply queue_set_inv; [done|done|]. apply Forall_app. split; [|by repeat constructor].
  destruct (udpQueues w !! i) as [q|] eqn:Hq; [by apply Hi|constructor].
Qed.

(** A worker that takes the head of its queue. *)
Lemma keys_inv_take w w' i p q os y :
  keys_inv w → workers w !! i = Some Waiting → udpQueues w !! i = Some (p :: q) →
  natTable w' = natTable w → sessions w' = sessions w → udpQueues w' = <[i := q]> (udpQueues w) →
  history w' = history w ++ os → Forall (obs_key w) os → workers w' = <[i := y]> (workers w) →
  (∀ sid p', sends y sid p' → Key p' = Key p ∧ s_key <$> sessions w !! sid = Some (Key p')) → keys_inv w'.
Proof.
  intros Hi Hw Hq Hn Hs Hqs Hh Ho Hws Hy. destruct (queue_head w i p q Hi Hq) as [Hp Hqi].
  eapply (keys_inv_front w w' os); [done..|by rewrite Hqs, length_insert|done|done| |].
  - eapply worker_set_inv; [exact Hws|done|by eapply lookup_lt_Some|].
    intros sid p' [Hk Hsid]%Hy. split; [done|]. by rewrite Hk.
  - by eapply queue_set_inv.
Qed.

Lemma keys_inv_delete w sid s :
  keys_inv w → sessions w !! sid = Some s → s_closer s = Deleting →
  keys_inv (set_natTable (delete (s_key s) (natTable w)) (set_session sid (set_closer Closed s) w)).
Proof.
  intros Hi Hs Hc. pose proof (lookup_lt_Some _ _ _ Hs) as Hlt.
  assert (Ht : natTable w !! s_key s = Some sid) by (apply Hi; [done|by rewrite Hc]).
  assert (Hg : grows w (set_session sid (set_closer Closed s) w)) by by eapply grows_set.
  split.
  - intros key sid'. simpl. rewrite lookup_delete_Some. intros [Hne Hn].
    pose proof Hn as (s0 & Hs0 & Hk0 & Hc0)%Hi. exists s0. split; [|done].
    rewrite list_lookup_insert_ne; [done|]. intros ->. simplify_eq.
  - intros sid' s0. simpl. rewrite list_lookup_insert_Some. intros [(<- & <- & _)|[Hne Hx]]; [done|].
    intros Hc0. pose proof (ki_open w Hi _ _ Hx Hc0) as Hn. rewrite lookup_delete_ne; [done|]. intros He. congruence.
  - intros sid' s0. simpl. rewrite list_lookup_insert_Some. intros [(<- & <- & _)|[Hne Hx]]; [|by apply (ki_session w Hi sid')].
    apply closer_ok; [by apply (ki_session w Hi sid)|by rewrite Hc|done].
  - intros i x sid' p Hx Hp. destruct (ki_worker w Hi i x sid' p Hx Hp). split; [by apply Hg|done].
  - apply Hi.
  - apply (obs_key_grows w); [exact Hg|apply Hi].
Qed.

Lemma keys_inv_move w w' : keys_inv w → move w w' → keys_inv w'.
Proof.
  intros Hi. destruct 1 as [p i|p|i p q o p' Hw Hq|i p q o sid p' Hw Hq Hid Hk Hn|i p q o p' sid Hw Hq Hid Hk Hn|i sid p s Hw Hs|i sid p s x Hw Hx Hs|
    i sid p s Hw Hs Hl|sid s p dm rs o Hs Hm|sid s p rs o Hs Hm|sid s Hs Hm Hc|sid s p l r addr snd o Hs Hm Hl Hp target|
    sid s oa via from Hs Hr Hv|sid s oa via from Hs Hr Hv|sid s oa via Hs Hr Hv|sid s p l Hs Hc Hl|sid s Hs Hc Hl|sid s Hs Hc];
    try (pose proof (ki_session w Hi sid s Hs) as Hok).
  - by apply keys_inv_arrive.
  - eapply (keys_inv_front w _ [_; _]); [done..|by repeat constructor|apply Hi|apply Hi].
  - eapply (keys_inv_take w _ i p q [_] Waiting); [done..|by repeat constructor|by rewrite list_insert_id|].
    by intros ?? ?%waiting_sends.
  - eapply (keys_inv_take w _ i p q [] (Sending sid p')); [done..|by rewrite app_nil_r|by constructor|done|].
    intros sid' p0 [[= <- <-]|?]; [|done]. split; [done|by apply table_key].
  - by eapply keys_inv_make.
  - destruct (ki_worker w Hi i (Sending sid p) sid p Hw (or_introl eq_refl)) as [H1 H2].
    eapply (keys_inv_front w _ []); [done..|by rewrite app_nil_r|by constructor| |apply Hi].
    eapply worker_set_inv; [done|done|by eapply lookup_lt_Some|]. intros sid' p' [?|[= <- <-]]; done.
  - eapply (keys_inv_front w _ [_]); [done..|by repeat constructor| |apply Hi].
    intros j y sid' p'. simpl. intros Hj Hy. apply (ki_worker w Hi j y); [by eapply workers_waiting|done].
  - destruct (ki_worker w Hi i (Putting sid p) sid p Hw (or_intror eq_refl)) as [H1 H2]. rewrite Hs in H1. injection H1 as H1.
    eapply (keys_inv_session w _ sid s _ [Put sid p (cancelled (sender s))]); [done..|intros j x sid' p'; by apply workers_waiting|done| |done|done|].
    + repeat constructor. simpl. rewrite Hs. simpl. by f_equal.
    + by apply put_ok.
  - eapply (keys_inv_session w _ sid s _ [_]); [done..| |done|done|by apply dialled_ok].
    destruct (so_dialing s Hok p Hm) as (Hk & _). repeat constructor. simpl. rewrite Hs. simpl. by f_equal.
  - destruct (so_dialing s Hok p Hm) as (_ & _ & Ho).
    eapply (keys_inv_session w _ sid s _ []); [done..|by rewrite app_nil_r|by constructor|done|simpl; by rewrite Ho|by eapply dial_failed_ok].
  - eapply (keys_inv_session w _ sid s _ []); [done..|by rewrite app_nil_r|by constructor|done|done|by apply left_ok].
  - apply processPacket_channel in Hp as [Hc Hch]. pose proof (so_ch s Hok) as Hf. rewrite Hl in Hf.
    apply Forall_cons in Hf as [Hk _]. eapply (keys_inv_session w _ sid s); [done..| |done|done|by eapply processed_ok].
    apply processed_key. rewrite Hs. simpl. by f_equal.
  - eapply (keys_inv_front w _ [_]); [done..| |apply Hi|apply Hi].
    pose proof (so_writeBack s Hok via Hv). repeat constructor. simpl. rewrite Hs. simpl. by f_equal.
  - pose proof (reading_open s oa Hok Hr) as Ho.
    eapply (keys_inv_session w _ sid s _ [_]); [done..| |done|simpl; by rewrite Ho|by eapply read_failed_ok].
    pose proof (so_writeBack s Hok via Hv). repeat constructor. simpl. rewrite Hs. simpl. by f_equal.
  - pose proof (reading_open s oa Hok Hr) as Ho.
    eapply (keys_inv_session w _ sid s _ []); [done..|by rewrite app_nil_r|by constructor|done|simpl; by rewrite Ho|by eapply read_failed_ok].
  - eapply (keys_inv_session w _ sid s _ [_]); [done..|by repeat constructor|done|done|by eapply drained_ok].
  - eapply (keys_inv_session w _ sid s _ []); [done..|by rewrite app_nil_r|by constructor|done|simpl; by rewrite Hc|].
    apply closer_ok; [done|by rewrite Hc|done].
  - by apply keys_inv_delete.
Qed.

Lemma keys_inv_start w : from_start w → keys_inv w.
Proof.
  apply from_start_ind; [|apply keys_inv_move]. intros procs o rs. split; simpl.
  - by intros key sid.
  - by intros [] ?.
  - by intros [] ?.
  - intros i x sid p [-> _]%lookup_replicate_1. by intros ?%waiting_sends.
  - intros i q [-> _]%lookup_replicate_1. constructor.
  - constructor.
Qed.

(** ** The order of a client's packets *)

Definition arrivals (key : string) (h : list obs) : list nat :=
  omap (λ o, match o with Arrived p => if decide (Key p = key) then Some (pk_id p) else None | _ => None end) h.

Definition puts (sid : nat) (h : list obs) : list nat :=
  omap (λ o, match o with Put sid' p _ => if decide (sid' = sid) then Some (pk_id p) else None | _ => None end) h.

Definition takes (sid : nat) (h : list obs) : list nat :=
  omap (λ o, match o with Took sid' p => if decide (sid' = sid) then Some (pk_id p) else None | _ => None end) h.

Definition writes (sid : nat) (h : list obs) : list nat :=
  omap (λ o, match o with Wrote sid' p _ => if decide (sid' = sid) then Some (pk_id p) else None | _ => None end) h.

(** The packets of a key a worker holds, and those in its queue. *)
Definition working (key : string) (x : worker) : list nat :=
  match x with Sending _ p | Putting _ p => if decide (Key p = key) then [pk_id p] else [] | Waiting => [] end.

Definition waiting (key : string) (q : list packet) : list nat := map pk_id (filter (λ p, Key p = key) q).

Definition front (key : string) (w : world) : list nat :=
  let i := queueNo key w in
  working key (default Waiting (workers w !! i)) ++ waiting key (default [] (udpQueues w !! i)).

Lemma arrivals_app k h os : arrivals k (h ++ os) = arrivals k h ++ arrivals k os.
Proof. apply omap_app. Qed.

Lemma puts_app sid h os : puts sid (h ++ os) = puts sid h ++ puts sid os.
Proof. apply omap_app. Qed.

Lemma takes_app sid h os : takes sid (h ++ os) = takes sid h ++ takes sid os.
Proof. apply omap_app. Qed.

Lemma writes_app sid h os : writes sid (h ++ os) = writes sid h ++ writes sid os.
Proof. apply omap_app. Qed.

Lemma processed_puts sid sid' p s snd addr t : puts sid' (Took sid p :: processed sid p s snd addr t) = [].
Proof. unfold processed. repeat case_match; reflexivity. Qed.

Lemma processed_arrivals k sid p s snd addr t : arrivals k (Took sid p :: processed sid p s snd addr t) = [].
Proof. unfold processed. repeat case_match; reflexivity. Qed.

Lemma processed_takes sid sid' p s snd addr t :
  takes sid' (Took sid p :: processed sid p s snd addr t) = if decide (sid = sid') then [pk_id p] else [].
Proof. unfold processed. repeat case_match; simpl; case_decide; done. Qed.

Lemma processed_writes sid sid' p s snd addr t :
  writes sid' (Took sid p :: processed sid p s snd addr t) `sublist_of` if decide (sid = sid') then [pk_id p] else [].
Proof.
  unfold processed. repeat case_match; simpl; repeat case_decide; try done; try apply sublist_nil_l; simplify_eq.
Qed.

Lemma puts_nil sid w : keys_inv w → sessions w !! sid = None → puts sid (history w) = [].
Proof.
  intros Hi Hs. unfold puts. pose proof (ki_history w Hi) as Hf. induction Hf as [|o h Ho _ IH]; [done|].
  cbn [omap list_omap]. destruct o; try exact IH. case_decide as Hd; [|exact IH]. subst. simpl in Ho. by rewrite Hs in Ho.
Qed.

(** Session [sid] has key [k], or it does not exist yet. *)
Definition key_at (w : world) (sid : nat) (k : string) : Prop :=
  sessions w !! sid = None ∨ s_key <$> sessions w !! sid = Some k.

Definition order_front (w : world) : Prop :=
  ∀ sid k, key_at w sid k → puts sid (history w) ++ front k w `sublist_of` arrivals k (history w).

(** A move that, for every key, takes away from what is in front or appends what
    arrives. *)
Lemma order_front_step w w' os :
  order_front w → history w' = history w ++ os →
  (∀ sid k, key_at w' sid k → key_at w sid k) →
  (∀ sid k, puts sid os ++ front k w' `sublist_of` front k w ++ arrivals k os) → order_front w'.
Proof.
  intros Hw Hh Hk Hf sid k Hkey. specialize (Hw sid k (Hk _ _ Hkey)). specialize (Hf sid k).
  rewrite Hh, puts_app, arrivals_app, <- (assoc_L (++)).
  etrans; [apply sublist_app; [reflexivity|exact Hf]|]. rewrite (assoc_L (++)). by apply sublist_app.
Qed.

Lemma key_at_same w w' sid k : sessions w' = sessions w → key_at w' sid k → key_at w sid k.
Proof. unfold key_at. by intros ->. Qed.

Lemma key_at_set w w' sid s s' sid' k :
  sessions w !! sid = Some s → sessions w' = <[sid := s']> (sessions w) → s_key s' = s_key s → key_at w' sid' k → key_at w sid' k.
Proof.
  unfold key_at. intros Hs -> Hk. destruct (decide (sid' = sid)) as [->|]; [|by rewrite list_lookup_insert_ne].
  rewrite Hs, list_lookup_insert_eq by by eapply lookup_lt_Some. simpl. rewrite Hk. intros [?|?]; [done|by right].
Qed.

Lemma front_same k w w' : workers w' = workers w → udpQueues w' = udpQueues w → front k w' = front k w.
Proof. unfold front, queueNo. by intros -> ->. Qed.

(** What changes in front when worker [i] and its queue change. *)
Lemma front_set k w w' i y q :
  i < length (workers w) → i < length (udpQueues w) →
  workers w' = <[i := y]> (workers w) → udpQueues w' = <[i := q]> (udpQueues w) →
  front k w' = if decide (queueNo k w = i) then working k y ++ waiting k q else front k w.
Proof.
  intros Hw Hq Hw' Hq'. unfold front. rewrite (queueNo_length k w w') by by rewrite Hq', length_insert.
  rewrite Hw', Hq'. case_decide as Hd.
  - subst i. by rewrite !list_lookup_insert_eq.
  - by rewrite !list_lookup_insert_ne.
Qed.

Lemma working_same k p p' : pk_id p' = pk_id p → Key p' = Key p → ∀ sid sid',
  working k (Sending sid p') = working k (Putting sid' p).
Proof. simpl. by intros -> ->. Qed.

Lemma waiting_cons k p q : waiting k (p :: q) = (if decide (Key p = k) then [pk_id p] else []) ++ waiting k q.
Proof. unfold waiting. rewrite filter_cons. by case_decide. Qed.

Lemma waiting_snoc k p q : waiting k (q ++ [p]) = waiting k q ++ if decide (Key p = k) then [pk_id p] else [].
Proof. unfold waiting. rewrite filter_app, map_app, filter_cons. by case_decide. Qed.

(** Sessions and the front as they were: the moves of a session. *)
Lemma order_front_quiet w w' os :
  order_front w → history w' = history w ++ os → workers w' = workers w → udpQueues w' = udpQueues w →
  (∀ sid k, key_at w' sid k → key_at w sid k) → (∀ sid, puts sid os = []) → (∀ k, arrivals k os = []) → order_front w'.
Proof.
  intros Hw Hh Hws Hqs Hk Hp Ha. eapply order_front_step; [done..|]. intros sid k.
  by rewrite (front_same k w w'), Hp, Ha, app_nil_r by done.
Qed.

(** A worker takes the head of its queue and holds it, or drops it. *)
Lemma order_front_take w w' os i p q y :
  order_front w → history w' = history w ++ os → workers w !! i = Some Waiting → udpQueues w !! i = Some (p :: q) →
  workers w' = <[i := y]> (workers w) → udpQueues w' = <[i := q]> (udpQueues w) →
  y = Waiting ∨ (∃ sid p', y = Sending sid p' ∧ pk_id p' = pk_id p ∧ Key p' = Key p) →
  (∀ sid k, key_at w' sid k → key_at w sid k) → (∀ sid, puts sid os = []) → (∀ k, arrivals k os = []) → order_front w'.
Proof.
  intros Hw Hh Hx Hq Hws Hqs Hy Hk Hp Ha. eapply order_front_step; [done..|]. intros sid k.
  rewrite Hp, Ha, app_nil_r. simpl.
  erewrite front_set by (try done; by eapply lookup_lt_Some). case_decide as Hd; [|done]. unfold front. rewrite Hd, Hx, Hq. simpl.
  rewrite waiting_cons. destruct Hy as [->|(sid' & p' & -> & Hid & Hkey)]; simpl.
  - by apply sublist_inserts_l.
  - by rewrite Hid, Hkey.
Qed.

(** A worker lets go of its packet, which enters the channel or is dropped. *)
Lemma order_front_leave w w' os i sid p x :
  order_front w → keys_inv w → history w' = history w ++ os → workers w !! i = Some x → sends x sid p →
  workers w' = <[i := Waiting]> (workers w) → udpQueues w' = udpQueues w →
  (∀ sid k, key_at w' sid k → key_at w sid k) → (∀ k, arrivals k os = []) →
  (∀ sid', puts sid' os `sublist_of` if decide (sid = sid') then [pk_id p] else []) → 
  (∀ sid' k, key_at w' sid' k → puts sid' os ≠ [] → Key p = k) → order_front w'.
Proof.
  intros Hw Hi Hh Hx Hs Hws Hqs Hk Ha Hp Hpk sid' k Hkey. pose proof (Hw sid' k (Hk _ _ Hkey)) as Hsub.
  destruct (ki_worker w Hi i x sid p Hx Hs) as [_ Hno].
  rewrite Hh, puts_app, arrivals_app, (Ha k), app_nil_r, <- (assoc_L (++)).
  etrans; [|exact Hsub]. apply sublist_app; [reflexivity|]. unfold front. rewrite (queueNo_length k w w'), Hws, Hqs by by rewrite Hqs.
  assert (Hwk : working k x = if decide (Key p = k) then [pk_id p] else []) by (destruct Hs as [->| ->]; done).
  destruct (decide (queueNo k w = i)) as [Hd|Hd].
  - rewrite Hd, list_lookup_insert_eq by by eapply lookup_lt_Some. rewrite Hx. simpl. apply sublist_app; [|done].
    rewrite Hwk. specialize (Hp sid'). specialize (Hpk sid' k Hkey). case_decide.
    + etrans; [exact Hp|]. case_decide; [done|apply sublist_nil_l].
    + destruct (puts sid' os); [done|]. by destruct Hpk.
  - rewrite list_lookup_insert_ne by done. specialize (Hpk sid' k Hkey). destruct (puts sid' os); [done|].
    rewrite <- Hpk in Hd by done. done.
Qed.

(** A packet enters its queue. *)
Lemma order_front_arrive w p (i := queueNo (Key p) w) :
  order_front w → order_front (set_queue i (default [] (udpQueues w !! i) ++ [p]) (happened [Arrived p] w)).
Proof.
  intros Hw. eapply (order_front_step w _ [Arrived p]); [done..|]. intros sid k. simpl.
  set (w' := set_queue _ _ _). unfold front. rewrite (queueNo_length k w w') by apply length_insert.
  cbn [w' set_queue workers udpQueues happened].
  destruct (decide (queueNo k w = i)) as [Hd|Hd].
  - rewrite Hd. destruct (udpQueues w !! i) as [q|] eqn:Hq; simpl.
    + rewrite list_lookup_insert_eq by by eapply lookup_lt_Some. simpl. rewrite waiting_snoc, (assoc_L (++)). by case_decide.
    + rewrite list_insert_ge by by apply lookup_ge_None. rewrite Hq. by apply sublist_inserts_r.
  - rewrite list_lookup_insert_ne by done. by apply sublist_inserts_r.
Qed.

Lemma key_at_add w w' s sid k : keys_inv w → sessions w' = sessions w ++ [s] → key_at w' sid k → key_at w sid k.
Proof.
  unfold key_at. intros Hi ->. destruct (sessions w !! sid) as [s0|] eqn:Hs; [|by left].
  by erewrite lookup_app_l_Some.
Qed.

Lemma order_front_move w w' : keys_inv w → order_front w → move w w' → order_front w'.
Proof.
  intros Hi Hw. destruct 1 as [p i|p|i p q o p' Hx Hq|i p q o sid p' Hx Hq Hid Hk Hn|i p q o p' sid Hx Hq Hid Hk Hn|i sid p s Hx Hs|i sid p s x Hx Hxs Hs|
    i sid p s Hx Hs Hl|sid s p dm rs o Hs Hm|sid s p rs o Hs Hm|sid s Hs Hm Hc|sid s p l r addr snd o Hs Hm Hl Hp target|
    sid s oa via from Hs Hr Hv|sid s oa via from Hs Hr Hv|sid s oa via Hs Hr Hv|sid s p l Hs Hc Hl|sid s Hs Hc Hl|sid s Hs Hc];
    try (eapply order_front_quiet; [exact Hw|done..|intros sid' k'; first [by apply key_at_same|by eapply key_at_set]|done|done]);
    try (eapply (order_front_quiet w _ []); [exact Hw|by rewrite app_nil_r|done..|intros sid' k'; first [by apply key_at_same|by eapply key_at_set]|done|done]).
  - by apply order_front_arrive.
  - eapply (order_front_step w _ [_; _]); [done..|]. intros sid k. rewrite (front_same k w) by done. by apply sublist_inserts_r.
  - eapply (order_front_take w _ [_] i p q Waiting); try done; [by rewrite list_insert_id|by left].
  - eapply (order_front_take w _ [] i p q); try done; [by rewrite app_nil_r|right; eauto].
  - eapply (order_front_take w _ [_] i p q); try done; [right; eauto|intros ??; by apply (key_at_add _ _ (new_session p'))].
  - eapply (order_front_step w _ []); [done|by rewrite app_nil_r|done|]. intros sid' k. simpl. rewrite app_nil_r.
    unfold front. rewrite (queueNo_length k w) by done. simpl. destruct (decide (queueNo k w = i)) as [->|].
    + rewrite list_lookup_insert_eq by by eapply lookup_lt_Some. by rewrite Hx.
    + by rewrite list_lookup_insert_ne.
  - eapply (order_front_leave w _ [_] i sid p x); try done. intros. apply sublist_nil_l.
  - destruct (ki_worker w Hi i (Putting sid p) sid p Hx (or_intror eq_refl)) as [Hk _]. rewrite Hs in Hk. injection Hk as Hk.
    eapply (order_front_leave w _ [_] i sid p); try done; [by right|intros sid' k'; by eapply key_at_set|..].
    + intros sid'. simpl. by case_decide.
    + intros sid' k Hka. simpl. case_decide; [subst sid'|done]. intros _. destruct Hka as [Hka|Hka]; simpl in Hka;
        rewrite list_lookup_insert_eq in Hka by (by eapply lookup_lt_Some); simpl in Hka; congruence.
  - eapply order_front_quiet; try done; [intros sid' k'; by eapply key_at_set|intros; apply processed_puts|intros; apply processed_arrivals].
Qed.

(** ** In the session *)

Definition order_session (w : world) : Prop :=
  ∀ sid s, sessions w !! sid = Some s →
    takes sid (history w) ++ map pk_id (ch (sender s)) `sublist_of` puts sid (history w) ∧
    (cancelled (sender s) = false → takes sid (history w) ++ map pk_id (ch (sender s)) = puts sid (history w)) ∧
    writes sid (history w) `sublist_of` takes sid (history w).

(** The observations of a move that leaves the channels alone. *)
Definition quiet_for (sid : nat) (os : list obs) : Prop := puts sid os = [] ∧ takes sid os = [] ∧ writes sid os = [].

Lemma order_session_step w w' os :
  order_session w → history w' = history w ++ os →
  (∀ sid s', sessions w' !! sid = Some s' → ∃ s, sessions w !! sid = Some s ∧
    (cancelled (sender s') = false → cancelled (sender s) = false) ∧
    (ch (sender s') = ch (sender s) ∧ quiet_for sid os ∨
     takes sid (history w') ++ map pk_id (ch (sender s')) `sublist_of` puts sid (history w') ∧
     (cancelled (sender s') = false → takes sid (history w') ++ map pk_id (ch (sender s')) = puts sid (history w')) ∧
     writes sid (history w') `sublist_of` takes sid (history w'))) →
  order_session w'.
Proof.
  intros Hw Hh Hs sid s' Hs'. destruct (Hs _ _ Hs') as (s & H1 & Hc & [[Hch (Hq1 & Hq2 & Hq3)]|Hd]); [|exact Hd].
  rewrite Hh, puts_app, takes_app, writes_app, Hq1, Hq2, Hq3, !app_nil_r, Hch.
  destruct (Hw _ _ H1) as (Ha & Hb & Hd). split_and!; [done| |done]. intros. by apply Hb, Hc.
Qed.

Lemma fresh_quiet sid w : keys_inv w → sessions w !! sid = None → quiet_for sid (history w).
Proof.
  intros Hi Hs. pose proof (ki_history w Hi) as Hf. unfold quiet_for, puts, takes, writes.
  induction Hf as [|o h Ho _ (IH1 & IH2 & IH3)]; [done|]. cbn [omap list_omap].
  destruct o; try done; (case_decide; [|done]); subst; simpl in Ho; by rewrite Hs in Ho.
Qed.

Lemma order_session_same w w' os :
  order_session w → history w' = history w ++ os → sessions w' = sessions w → (∀ sid, quiet_for sid os) → order_session w'.
Proof.
  intros Hw Hh Hs Hq. eapply order_session_step; [done..|]. intros sid s'. rewrite Hs. intros Hs'.
  exists s'. split_and!; [done..|left; done].
Qed.

(** One session changes, by [Hd]. *)
Lemma order_session_set w w' os sid s s' :
  order_session w → history w' = history w ++ os → sessions w !! sid = Some s → sessions w' = <[sid := s']> (sessions w) →
  (∀ sid', sid' ≠ sid → quiet_for sid' os) → (cancelled (sender s') = false → cancelled (sender s) = false) →
  (ch (sender s') = ch (sender s) ∧ quiet_for sid os ∨
   let h := history w ++ os in
   takes sid h ++ map pk_id (ch (sender s')) `sublist_of` puts sid h ∧
   (cancelled (sender s') = false → takes sid h ++ map pk_id (ch (sender s')) = puts sid h) ∧
   writes sid h `sublist_of` takes sid h) → order_session w'.
Proof.
  intros Hw Hh Hs Hs' Hq Hc Hd. eapply order_session_step; [done..|]. intros sid' s0.
  rewrite Hs', list_lookup_insert_Some, Hh. intros [(<- & <- & _)|[Hne Hx]].
  - exists s. split_and!; [done..|exact Hd].
  - exists s0. split_and!; [done..|]. left. split; [done|]. by apply Hq.
Qed.

Lemma order_session_put w w' sid s p late :
  order_session w → sessions w !! sid = Some s → history w' = history w ++ [Put sid p late] →
  sessions w' = <[sid := set_sender (set_ch (ch (sender s) ++ [p])) s]> (sessions w) → order_session w'.
Proof.
  intros Hw Hs Hh Hs'. eapply order_session_set; [done..| |done|].
  { intros sid' Hne. unfold quiet_for. simpl. by rewrite decide_False. }
  right. destruct (Hw _ _ Hs) as (Ha & Hb & Hd). simpl. rewrite puts_app, takes_app, writes_app. simpl.
  rewrite decide_True, !app_nil_r, map_app, (assoc_L (++)) by done. simpl.
  split_and!; [by apply sublist_app|intros; by rewrite Hb|done].
Qed.

Lemma order_session_process w w' sid s p l snd s' addr t :
  order_session w → sessions w !! sid = Some s → ch (sender s) = p :: l →
  history w' = history w ++ Took sid p :: processed sid p s' snd addr t →
  cancelled snd = cancelled (sender s) → ch snd = l →
  sessions w' = <[sid := set_sender (λ _, snd) (set_writeBack p s)]> (sessions w) → order_session w'.
Proof.
  intros Hw Hs Hl Hh Hc Hch Hs'. eapply order_session_set; [done..| |by simpl; rewrite Hc|].
  { intros sid' Hne. unfold quiet_for. rewrite processed_puts, processed_takes. split_and!; [done|by rewrite decide_False|].
    pose proof (processed_writes sid sid' p s' snd addr t) as Hwr. rewrite decide_False in Hwr by done.
    by apply sublist_nil_r in Hwr. }
  right. destruct (Hw _ _ Hs) as (Ha & Hb & Hd). simpl in *. rewrite Hl in Ha, Hb. simpl in Ha, Hb.
  rewrite puts_app, takes_app, writes_app, processed_puts, processed_takes, decide_True, app_nil_r, <- (assoc_L (++)) by done.
  simpl. rewrite Hch, Hc. split_and!; [done..|]. apply sublist_app; [done|].
  pose proof (processed_writes sid sid p s' snd addr t) as Hwr. by rewrite decide_True in Hwr.
Qed.

Lemma order_session_drain w w' sid s p l :
  order_session w → sessions w !! sid = Some s → ch (sender s) = p :: l → cancelled (sender s) = true →
  history w' = history w ++ [Dropped p] → sessions w' = <[sid := set_sender (set_ch l) s]> (sessions w) → order_session w'.
Proof.
  intros Hw Hs Hl Hc Hh Hs'. eapply order_session_set; [done..|].
  right. destruct (Hw _ _ Hs) as (Ha & Hb & Hd). rewrite Hl in Ha. simpl in *.
  rewrite puts_app, takes_app, writes_app. simpl. rewrite !app_nil_r, Hc. split_and!; [|done..].
  etrans; [|exact Ha]. apply sublist_app; [done|]. by apply sublist_cons.
Qed.

Lemma order_session_make w w' s os :
  order_session w → keys_inv w → ch (sender s) = [] → history w' = history w ++ os → (∀ sid, quiet_for sid os) →
  sessions w' = sessions w ++ [s] → order_session w'.
Proof.
  intros Hw Hi Hc Hh Hq Hs' sid s'. rewrite Hs', lookup_app_Some, Hh, puts_app, takes_app, writes_app.
  destruct (Hq sid) as (-> & -> & ->). rewrite !app_nil_r. intros [Hs|[Hle Hs]]; [by apply Hw|].
  apply list_lookup_singleton_Some in Hs as [_ <-]. rewrite Hc, app_nil_r.
  destruct (fresh_quiet sid w Hi) as (-> & -> & ->); [by apply lookup_ge_None|done].
Qed.

Lemma order_session_move w w' : keys_inv w → order_session w → move w w' → order_session w'.
Proof.
  intros Hi Hw. destruct 1 as [p i|p|i p q o p' Hx Hq|i p q o sid p' Hx Hq Hid Hk Hn|i p q o p' sid Hx Hq Hid Hk Hn|i sid p s Hx Hs|i sid p s x Hx Hxs Hs|
    i sid p s Hx Hs Hl|sid s p dm rs o Hs Hm|sid s p rs o Hs Hm|sid s Hs Hm Hc|sid s p l r addr snd o Hs Hm Hl Hp target|
    sid s oa via from Hs Hr Hv|sid s oa via from Hs Hr Hv|sid s oa via Hs Hr Hv|sid s p l Hs Hc Hl|sid s Hs Hc Hl|sid s Hs Hc];
    try (eapply order_session_same; [exact Hw|done..]);
    try (eapply (order_session_same w _ []); [exact Hw|by rewrite app_nil_r|done..]);
    try (eapply order_session_set; [exact Hw|done..|by left]);
    try (eapply (order_session_set w _ []); [exact Hw|by rewrite app_nil_r|done..|by left]).
  - by apply (order_session_make w _ (new_session p') [Opened sid (Key p')]).
  - by eapply order_session_put.
  - apply processPacket_channel in Hp as [Hc Hch]. by eapply order_session_process.
  - eapply order_session_drain; [done..| |done|done]. apply (ki_session w Hi sid s Hs). by rewrite Hc.
Qed.

Lemma order_start w : from_start w → keys_inv w ∧ order_front w ∧ order_session w.
Proof.
  apply (from_start_ind (λ w, keys_inv w ∧ order_front w ∧ order_session w)).
  - intros. split_and!; [apply keys_inv_start; by exists procs, o, rs, []| |by intros [] ?].
    intros sid k _. simpl. unfold front. simpl.
    rewrite !lookup_replicate_2 by (unfold queueNo; simpl; rewrite length_replicate; unfold numUDPWorkers; apply Nat.mod_upper_bound; lia).
    done.
  - intros w1 w2 (Hi & Ha & Hb) Hm. split_and!; [by eapply keys_inv_move|by eapply order_front_move|by eapply order_session_move].
Qed.

(** ** Every packet is released

    Packets are objects with a buffer, which [Drop] gives back.  The [n]th one
    is counted where it came in, where it was dropped and where it is. *)

Definition one (n : nat) (p : packet) : nat := if decide (pk_id p = n) then 1 else 0.

Definition among (n : nat) (l : list packet) : nat := sum_list_with (one n) l.

Definition with_worker (n : nat) (x : worker) : nat :=
  match x with Waiting => 0 | Sending _ p | Putting _ p => one n p end.

Definition arrived (n : nat) (h : list obs) : nat :=
  sum_list_with (λ o, match o with Arrived p => one n p | _ => 0 end) h.

Definition dropped (n : nat) (h : list obs) : nat :=
  sum_list_with (λ o, match o with Dropped p => one n p | _ => 0 end) h.

Definition in_channels (n : nat) (w : world) : nat := sum_list_with (λ s, among n (ch (sender s))) (sessions w).

Definition held (n : nat) (w : world) : nat :=
  sum_list_with (among n) (udpQueues w) + sum_list_with (with_worker n) (workers w) + in_channels n w.

Definition accounted (w : world) : Prop :=
  0 < length (udpQueues w) ∧ ∀ n, arrived n (history w) = dropped n (history w) + held n w.

Lemma sum_insert {A} (f : A → nat) l i x y :
  l !! i = Some x → sum_list_with f (<[i := y]> l) + f x = sum_list_with f l + f y.
Proof.
  revert i. induction l as [|z l IH]; intros [|i]; simpl; try done.
  - intros [= ->]. lia.
  - intros Hi. specialize (IH i Hi). lia.
Qed.

Lemma arrived_app n h os : arrived n (h ++ os) = arrived n h + arrived n os.
Proof. apply sum_list_with_app. Qed.

Lemma dropped_app n h os : dropped n (h ++ os) = dropped n h + dropped n os.
Proof. apply sum_list_with_app. Qed.

Lemma among_app n l l' : among n (l ++ l') = among n l + among n l'.
Proof. apply sum_list_with_app. Qed.

Lemma among_cons n p l : among n (p :: l) = one n p + among n l.
Proof. reflexivity. Qed.

Lemma one_same n p p' : pk_id p' = pk_id p → one n p' = one n p.
Proof. unfold one. by intros ->. Qed.

Lemma processed_counts n sid p s snd addr t :
  arrived n (Took sid p :: processed sid p s snd addr t) = 0 ∧
  dropped n (Took sid p :: processed sid p s snd addr t) = one n p.
Proof.
  unfold processed, arrived, dropped. cbn [sum_list_with]. rewrite !sum_list_with_app.
  repeat case_match; simpl; lia.
Qed.

(** A move that changes nothing but one session's channel. *)
Lemma accounted_session w w' sid s s' os :
  accounted w → sessions w !! sid = Some s → sessions w' = <[sid := s']> (sessions w) → udpQueues w' = udpQueues w →
  workers w' = workers w → history w' = history w ++ os →
  (∀ n, arrived n os + among n (ch (sender s)) = dropped n os + among n (ch (sender s'))) → accounted w'.
Proof.
  intros [Hl Ha] Hs Hs' Hq Hw Hh Hc. split; [by rewrite Hq|]. intros n. specialize (Ha n). specialize (Hc n).
  unfold held, in_channels in *. rewrite Hh, Hs', Hq, Hw, arrived_app, dropped_app.
  pose proof (sum_insert (λ s, among n (ch (sender s))) _ _ _ s' Hs) as Hi. simpl in Hi. lia.
Qed.

(** A move of the front. *)
Lemma accounted_front w w' os i x y p q :
  accounted w → udpQueues w !! i = Some p → workers w !! i = Some x → udpQueues w' = <[i := q]> (udpQueues w) →
  workers w' = <[i := y]> (workers w) → history w' = history w ++ os →
  (∀ n, in_channels n w' + with_worker n y + among n q + dropped n os =
    in_channels n w + with_worker n x + among n p + arrived n os) → accounted w'.
Proof.
  intros [Hl Ha] Hq Hx Hq' Hw Hh Hc. split; [by rewrite Hq', length_insert|]. intros n. specialize (Ha n). specialize (Hc n).
  unfold held in *. rewrite Hh, Hq', Hw, arrived_app, dropped_app.
  pose proof (sum_insert (among n) _ _ _ q Hq). pose proof (sum_insert (with_worker n) _ _ _ y Hx). lia.
Qed.

Lemma accounted_worker w w' os i x y :
  accounted w → workers w !! i = Some x → udpQueues w' = udpQueues w → workers w' = <[i := y]> (workers w) →
  history w' = history w ++ os →
  (∀ n, in_channels n w' + with_worker n y + dropped n os = in_channels n w + with_worker n x + arrived n os) →
  accounted w'.
Proof.
  intros [Hl Ha] Hx Hq' Hw Hh Hc. split; [by rewrite Hq'|]. intros n. specialize (Ha n). specialize (Hc n).
  unfold held in *. rewrite Hh, Hq', Hw, arrived_app, dropped_app.
  pose proof (sum_insert (with_worker n) _ _ _ y Hx). lia.
Qed.

Lemma with_worker_sends n x sid p : sends x sid p → with_worker n x = one n p.
Proof. by intros [->| ->]. Qed.

Lemma accounted_arrive w p (i := queueNo (Key p) w) :
  accounted w → accounted (set_queue i (default [] (udpQueues w !! i) ++ [p]) (happened [Arrived p] w)).
Proof.
  intros [Hl Ha]. assert (Hi : i < length (udpQueues w)) by (apply Nat.mod_upper_bound; lia).
  apply lookup_lt_is_Some in Hi as [q Hq]. split; [simpl; by rewrite length_insert|]. intros n. specialize (Ha n).
  unfold held, in_channels in *. simpl. rewrite arrived_app, dropped_app, Hq. simpl.
  pose proof (sum_insert (among n) _ _ _ (q ++ [p]) Hq) as Hs. rewrite among_app, among_cons in Hs. simpl in Hs.
  unfold arrived, dropped in *. simpl. lia.
Qed.

Lemma accounted_move w w' : accounted w → move w w' → accounted w'.
Proof.
  intros Hw. destruct 1 as [p i|p|i p q o p' Hx Hq Hid|i p q o sid p' Hx Hq Hid Hk Hn|i p q o p' sid Hx Hq Hid Hk Hn|i sid p s Hx Hs|i sid p s x Hx Hxs Hs|
    i sid p s Hx Hs Hl|sid s p dm rs o Hs Hm|sid s p rs o Hs Hm|sid s Hs Hm Hc|sid s p l r addr snd o Hs Hm Hl Hp target|
    sid s oa via from Hs Hr Hv|sid s oa via from Hs Hr Hv|sid s oa via Hs Hr Hv|sid s p l Hs Hc Hl|sid s Hs Hc Hl|sid s Hs Hc];
    try (eapply (accounted_session w); [exact Hw|done..]);
    try (eapply (accounted_session w _ _ _ _ []); [exact Hw|done..|by rewrite app_nil_r|done]).
  - by apply accounted_arrive.
  - destruct Hw as [Hl Ha]. split; [done|]. intros n. specialize (Ha n). simpl. rewrite arrived_app, dropped_app.
    unfold arrived, dropped, held, in_channels in *. simpl. lia.
  - eapply (accounted_front w _ [_] i Waiting Waiting); [done..|by rewrite list_insert_id|done|].
    intros n. rewrite among_cons. pose proof (one_same n p p' Hid). unfold arrived, dropped, in_channels. simpl. lia.
  - eapply (accounted_front w _ [] i Waiting (Sending sid p')); [done..|by rewrite app_nil_r|].
    intros n. rewrite among_cons. pose proof (one_same n p p' Hid). unfold arrived, dropped, in_channels. simpl. lia.
  - eapply (accounted_front w _ [_] i Waiting (Sending sid p')); [done..|].
    intros n. rewrite among_cons. pose proof (one_same n p p' Hid). unfold arrived, dropped, in_channels. simpl.
    rewrite sum_list_with_app. simpl. lia.
  - eapply (accounted_worker w _ [] i); [done..|by rewrite app_nil_r|]. done.
  - eapply (accounted_worker w _ [_] i); [done..|]. intros n. rewrite (with_worker_sends n x sid p Hxs).
    unfold arrived, dropped, in_channels. simpl. lia.
  - eapply (accounted_worker w _ [_] i); [done..|]. intros n. unfold in_channels. simpl.
    pose proof (sum_insert (λ s, among n (ch (sender s))) _ _ _ (set_sender (set_ch (ch (sender s) ++ [p])) s) Hs) as Hi.
    simpl in Hi. rewrite among_app, among_cons in Hi. unfold arrived, dropped, among in *. simpl in *. lia.
  - eapply (accounted_session w); [done..|]. intros n. destruct (processed_counts n sid p (sender s) snd addr target) as [-> ->].
    apply processPacket_channel in Hp as [_ Hch]. cbn [set_sender set_writeBack sender]. rewrite Hl, Hch, among_cons.
    cbn [set_ch ch]. lia.
  - destruct Hw as [Hn Ha]. split; [done|]. intros n. specialize (Ha n). simpl. rewrite arrived_app, dropped_app.
    unfold arrived, dropped, held, in_channels in *. simpl. lia.
  - eapply (accounted_session w _ _ _ _ [_]); [done..|]. intros n. rewrite Hl, among_cons. cbn [set_sender sender set_ch ch].
    unfold arrived, dropped. simpl. lia.
Qed.

Lemma accounted_start w : from_start w → accounted w.
Proof.
  apply from_start_ind; [|apply accounted_move]. intros procs o rs. split.
  - simpl. rewrite length_replicate. unfold numUDPWorkers. lia.
  - intros n. unfold held, in_channels. simpl. generalize (numUDPWorkers procs). intros k. simpl.
    induction k as [|k IH]; simpl in *; lia.
Qed.

(** Packets that a closed session still holds were put there after it closed. *)
Definition drained (w : world) : Prop :=
  ∀ sid s, sessions w !! sid = Some s → s_closer s = Deleting ∨ s_closer s = Closed →
    ∀ p, p ∈ ch (sender s) → Put sid p true ∈ history w.

Lemma drained_set w w' sid s s' os :
  drained w → sessions w' = <[sid := s']> (sessions w) → history w' = history w ++ os → sessions w !! sid = Some s →
  (s_closer s' = Deleting ∨ s_closer s' = Closed → ∀ p, p ∈ ch (sender s') → Put sid p true ∈ history w') → drained w'.
Proof.
  intros Hd Hs' Hh Hs Hc sid' s0. rewrite Hs', list_lookup_insert_Some. intros [(<- & <- & _)|[_ Hx]]; [done|].
  intros Hcl p Hp. rewrite Hh. apply elem_of_app. left. by eapply Hd.
Qed.

Lemma drained_same w w' os : drained w → sessions w' = sessions w → history w' = history w ++ os → drained w'.
Proof.
  intros Hd Hs Hh sid s. rewrite Hs. intros Hx Hc p Hp. rewrite Hh. apply elem_of_app. left. by eapply Hd.
Qed.

Lemma drained_move w w' : keys_inv w → drained w → move w w' → drained w'.
Proof.
  intros Hi Hw. destruct 1 as [p i|p|i p q o p' Hx Hq Hid|i p q o sid p' Hx Hq Hid Hk Hn|i p q o p' sid Hx Hq Hid Hk Hn|i sid p s Hx Hs|i sid p s x Hx Hxs Hs|
    i sid p s Hx Hs Hl|sid s p dm rs o Hs Hm|sid s p rs o Hs Hm|sid s Hs Hm Hc|sid s p l r addr snd o Hs Hm Hl Hp target|
    sid s oa via from Hs Hr Hv|sid s oa via from Hs Hr Hv|sid s oa via Hs Hr Hv|sid s p l Hs Hc Hl|sid s Hs Hc Hl|sid s Hs Hc];
    try (eapply drained_same; [exact Hw|done..]);
    try (eapply (drained_same w _ []); [exact Hw|done..|by rewrite app_nil_r]);
    try (eapply drained_set; [exact Hw|done..|exact Hs|]; simpl);
    try (eapply (drained_set w _ _ _ _ []); [exact Hw|done..|by rewrite app_nil_r|exact Hs|]; simpl);
    try (intros [?|?]; congruence);
    try (intros Hcl p0 Hin; apply elem_of_app; left; by eapply (Hw _ _ Hs Hcl)).
  - intros sid' s'. simpl. rewrite lookup_app_Some. intros [Hs|[_ Hs]].
    + intros Hc p0 Hin. apply elem_of_app. left. by eapply (Hw _ _ Hs Hc).
    + apply list_lookup_singleton_Some in Hs as [_ <-]. by intros [?|?].
  - intros Hcl p0 [Hin| ->%list_elem_of_singleton]%elem_of_app; apply elem_of_app; [left; by eapply (Hw _ _ Hs Hcl)|right].
    destruct (so_closing s (ki_session w Hi _ _ Hs)) as [-> _]; [destruct Hcl as [->| ->]; done|]. by apply list_elem_of_singleton.
  - by apply (Hw _ _ Hs).
  - intros Hcl p0 Hin. apply elem_of_app. left. apply (Hw _ _ Hs Hcl). rewrite Hl. right.
    apply processPacket_channel in Hp as [_ Hch]. by rewrite Hch in Hin.
  - rewrite Hl. by intros _ p0 ?%elem_of_nil.
  - intros _. by apply (Hw _ _ Hs), or_introl.
Qed.

Lemma drained_start w : from_start w → keys_inv w ∧ drained w.
Proof.
  apply (from_start_ind (λ w, keys_inv w ∧ drained w)).
  - intros. split; [apply keys_inv_start; by exists procs, o, rs, []|by intros [] ?].
  - intros w1 w2 [Hi Hd] Hm. split; [by eapply keys_inv_move|by eapply drained_move].
Qed.

(** ** What a client can rely on *)

(** C8: clients do not get each other's traffic: the packets a session writes
    and the packets whose connections its answers go back through are of one
    client, and at no time are there two sessions of a client that are not
    closed; no channel holds more than its capacity. *)
Theorem udp_clients_isolated w :
  from_start w →
  (∀ sid p addr via from answer,
    Wrote sid p addr ∈ history w → Replied sid via from answer ∈ history w → Key via = Key p) ∧
  (∀ a b s s', sessions w !! a = Some s → sessions w !! b = Some s' → s_key s = s_key s' →
    s_closer s ≠ Closed → s_closer s' ≠ Closed → a = b) ∧
  (∀ sid s, sessions w !! sid = Some s → length (ch (sender s)) ≤ senderCapacity).
Proof.
  intros Hi%keys_inv_start. split_and!.
  - intros sid p addr via from answer Hw Hr. pose proof (ki_history w Hi) as Hf. rewrite Forall_forall in Hf.
    apply Hf in Hw, Hr. simpl in Hw, Hr. congruence.
  - intros a b s s' Ha Hb Hk Hca Hcb. apply (ki_open w Hi) in Ha, Hb; [|done..]. congruence.
  - intros sid s Hs. by apply (ki_session w Hi sid s).
Qed.

Lemma history_ok w i o : from_start w → history w !! i = Some o → nat_ok (take i (history w)) o.
Proof.
  intros Hi%nat_inv_start Ho. apply (ni_history w Hi _ _ (drop (S i) (history w))). symmetry. by apply take_drop_middle.
Qed.

Lemma target_later sid k h i j :
  i ≤ j → IsValid (target_of sid k (take i h)) = true → target_of sid k (take j h) = target_of sid k (take i h).
Proof.
  intros Hij Hv. replace (take j h) with (take i h ++ drop i (take j h)); [by apply target_of_prefix|].
  rewrite <- (take_drop i (take j h)) at 2. f_equal. rewrite take_take. f_equal. lia.
Qed.

(** C9: a destination stays where it is: the packets a client sends to one
    destination, a host or an address, all go to the same address for the time
    of the session, whatever the resolver and the rules say later, to a valid
    one, and each to its own port. *)
Theorem udp_destination_sticky w i j sid p p' addr addr' :
  from_start w →
  history w !! i = Some (Wrote sid p addr) → history w !! j = Some (Wrote sid p' addr') →
  Metadata_String (pk_meta p) = Metadata_String (pk_meta p') →
  Unmap addr.1 = Unmap addr'.1 ∧ IsValid addr.1 = true ∧ addr.2 = m_DstPort (pk_meta p).
Proof.
  intros Hst Hi Hj Hk. destruct (history_ok w i _ Hst Hi) as (Hv & Ha & Hp). destruct (history_ok w j _ Hst Hj) as (Hv' & Ha' & _).
  rewrite <- Hk in Hv', Ha'.
  assert (He : target_of sid (Metadata_String (pk_meta p)) (take i (history w)) =
    target_of sid (Metadata_String (pk_meta p)) (take j (history w))).
  { destruct (Nat.le_ge_cases i j); [symmetry|]; by apply target_later. }
  rewrite <- He in Ha'. split_and!; [|destruct Ha as [->| ->]; by rewrite ?Unmap_valid|done].
  destruct Ha as [->| ->], Ha' as [->| ->]; by rewrite ?Unmap_idemp.
Qed.

(** Answers come from where the client sent to: an answer keeps its port;
    if the packets that were sent to its source asked for it by one address
    only, or by a name and that address, it comes from that address; if they
    asked for it by names only, or nothing was sent there, it comes from its
    true source. *)
Theorem udp_reply_origin w i sid via from answer :
  from_start w → history w !! i = Some (Replied sid via from answer) →
  let t := Unmap from.1 in
  let before := take i (history w) in
  answer.2 = from.2 ∧
  (∀ p, Mapped sid p t ∈ before → IsValid (DstIP (pk_meta p)) = true →
    (∀ q, Mapped sid q t ∈ before → DstIP (pk_meta q) = DstIP (pk_meta p) ∨ DstIP (pk_meta q) = NoAddr) →
    answer.1 = Unmap (DstIP (pk_meta p))) ∧
  ((∀ q, Mapped sid q t ∈ before → DstIP (pk_meta q) = NoAddr) → answer.1 = t).
Proof.
  intros Hst Hi t before. pose proof (history_ok w i _ Hst Hi) as Hok.
  unfold nat_ok in Hok. fold t before in Hok. cbn zeta in Hok. rewrite Hok. cbn [fst snd]. split_and!; [done|..].
  - intros p Hp Hv Hq. unfold origin_of. rewrite (first_valid_only (DstIP (pk_meta p))); [by rewrite Hv|done|..].
    + apply elem_of_origins. eauto.
    + intros x (q & Hin & <-)%elem_of_origins. by apply Hq.
  - intros Hq. unfold origin_of. rewrite first_valid_none; [apply Unmap_idemp|].
    intros x (q & Hin & <-)%elem_of_origins. by apply Hq.
Qed.

(** C10: order is kept: the packets of a client that a session writes to the
    outbound are, in their order, among those the tunnel got from this client;
    while the session is open none is lost between the channel and the
    goroutine that writes. *)
Theorem udp_order_kept w sid s :
  from_start w → sessions w !! sid = Some s →
  writes sid (history w) `sublist_of` arrivals (s_key s) (history w) ∧
  (s_closer s = Open → takes sid (history w) ++ map pk_id (ch (sender s)) = puts sid (history w)).
Proof.
  intros Hst Hs. destruct (order_start w Hst) as (Hi & Hf & Hses). destruct (Hses sid s Hs) as (Ha & Hb & Hc). split.
  - etrans; [exact Hc|]. etrans; [|apply (Hf sid); right; by rewrite Hs].
    etrans; [apply sublist_inserts_r; reflexivity|]. etrans; [exact Ha|]. by apply sublist_inserts_r.
  - intros Ho. apply Hb. by apply (ki_session w Hi sid s Hs).
Qed.

(** Nothing is on its way and every session is closed. *)
Definition at_rest (w : world) : Prop :=
  Forall (λ q, q = []) (udpQueues w) ∧ Forall (λ x, x = Waiting) (workers w) ∧ Forall (λ s, s_closer s = Closed) (sessions w).

Lemma sum_zero {A} (f : A → nat) l : Forall (λ x, f x = 0) l → sum_list_with f l = 0.
Proof. by induction 1 as [|x l Hx _ IH]; simpl; [|rewrite Hx]. Qed.

Lemma among_zero n l : (∀ p, p ∈ l → pk_id p ≠ n) → among n l = 0.
Proof.
  intros Hl. apply sum_zero, Forall_forall. intros p Hp. unfold one. by rewrite decide_False by by apply Hl.
Qed.

(** C11: buffers are given back: a packet is never dropped more often than it
    came in, and once all is at rest it was dropped as often as it came in,
    unless this packet was put in the channel of a session that had been closed
    before. *)
Theorem udp_packets_released w :
  from_start w →
  (∀ n, dropped n (history w) ≤ arrived n (history w)) ∧
  (at_rest w → ∀ n, (∀ sid p, pk_id p = n → Put sid p true ∉ history w) → dropped n (history w) = arrived n (history w)).
Proof.
  intros Hst. destruct (accounted_start w Hst) as [_ Ha]. destruct (drained_start w Hst) as [_ Hd]. split.
  - intros n. rewrite Ha. lia.
  - intros (Hq & Hx & Hc) n Hlate. rewrite Ha. unfold held, in_channels. rewrite !sum_zero; [lia|..].
    + apply Forall_lookup. intros sid s Hs. apply among_zero. intros p Hp Hn. apply (Hlate sid p Hn).
      apply (Hd sid s Hs); [|done]. right. by eapply Forall_lookup_1 in Hc.
    + apply (Forall_impl _ _ _ Hx). by intros x ->.
    + apply (Forall_impl _ _ _ Hq). by intros x ->.
Qed.

End Nat.

(** ** Runs *)

Definition demo_packet (id : nat) (client host : string) (ip : Addr) (port : Z) : packet :=
  mkPacket id client [1%Z] (set_DstPort port (set_DstIP ip (set_Host host (demo_conn UDP)))).

Definition demo_dial : dial_env := mkDial 0 (λ m, m) (λ _ _ _, inl ()) (λ _, true).

Definition demo_world : world (H:=Enhancer memoryStore) := initUDP 1 None demo_rules.

Definition demo_run (ls : list label) : option (world (H:=Enhancer memoryStore)) :=
  run demo_tunnel 5 (λ s, String.length s) ls demo_world.

(** A client of key [c] sends three packets, to a host, to an address and to the
    host again; the outbound answers. *)
Definition demo_labels : list label :=
  [LReceive (demo_packet 1 "c" "www.example.com" NoAddr 443);
   LReceive (demo_packet 2 "c" "" (Addr4 9) 53);
   LReceive (demo_packet 3 "c" "www.example.com" NoAddr 444)] ++
  repeat (LWorker 1 false) 9 ++
  [LDial 0 demo_dial] ++ repeat (LProcess 0 false (FixedResolver (Addr4 7))) 3 ++
  [LReply 0 (Some (Some (Addr4 167772161, 443%Z), true)); LReply 0 (Some (Some (Addr4 9, 53%Z), false));
   LClose 0; LClose 0; LProcess 0 true (FixedResolver (Addr4 7))].

Definition demo_end : world (H:=Enhancer memoryStore) := default demo_world (demo_run demo_labels).

Lemma demo_start ls : from_start demo_tunnel 5 (λ s, String.length s) (default demo_world (demo_run ls)).
Proof.
  destruct (demo_run ls) as [w|] eqn:Hr; [by exists 1, None, demo_rules, ls|by exists 1, None, demo_rules, []].
Qed.

(** The observations of the run the examples are about. *)
Definition at_ (i : nat) : obs := default (Opened 0 "") (history demo_end !! i).

Definition obs_packet (o : obs) : packet :=
  match o with
  | Arrived p | Dropped p | Put _ p _ | Took _ p | Mapped _ p _ | Wrote _ p _ | Replied _ p _ _ => p
  | Opened _ _ => demo_packet 0 "" "" NoAddr 0
  end.

Definition p1 : packet := obs_packet (at_ 9).

Definition p2 : packet := obs_packet (at_ 13).

Definition p3 : packet := obs_packet (at_ 16).

Lemma demo_wrote1 : history demo_end !! 9 = Some (Wrote 0 p1 (Addr4 167772161, 443%Z)).
Proof. vm_compute. reflexivity. Qed.

Lemma demo_wrote3 : history demo_end !! 16 = Some (Wrote 0 p3 (Addr4 167772161, 444%Z)).
Proof. vm_compute. reflexivity. Qed.

Lemma demo_mapped2 : Mapped 0 p2 (Addr4 9) ∈ take 19 (history demo_end).
Proof. apply (list_elem_of_lookup_2 _ 12). vm_compute. reflexivity. Qed.

Lemma demo_replied2 : history demo_end !! 19 = Some (Replied 0 p3 (Addr4 9, 53%Z) (Addr4 9, 53%Z)).
Proof. vm_compute. reflexivity. Qed.

Lemma demo_session : s_key <$> sessions demo_end !! 0 = Some "c"%string.
Proof. vm_compute. reflexivity. Qed.

Lemma udp_clients_isolated_witness :
  Wrote 0 p1 (Addr4 167772161, 443%Z) ∈ history demo_end ∧ Replied 0 p3 (Addr4 9, 53%Z) (Addr4 9, 53%Z) ∈ history demo_end ∧
  Key p3 = Key p1.
Proof.
  pose proof (list_elem_of_lookup_2 _ _ _ demo_wrote1) as Hw. pose proof (list_elem_of_lookup_2 _ _ _ demo_replied2) as Hr.
  split; [exact Hw|]. split; [exact Hr|].
  exact (proj1 (udp_clients_isolated demo_tunnel 5 (λ s, String.length s) demo_end (demo_start demo_labels)) 0 _ _ _ _ _ Hw Hr).
Defined.

Lemma udp_destination_sticky_witness :
  history demo_end !! 9 = Some (Wrote 0 p1 (Addr4 167772161, 443%Z)) ∧
  history demo_end !! 16 = Some (Wrote 0 p3 (Addr4 167772161, 444%Z)) ∧
  Unmap (Addr4 167772161) = Unmap (Addr4 167772161) ∧ IsValid (Addr4 167772161) = true ∧ 443%Z = m_DstPort (pk_meta p1).
Proof.
  split; [exact demo_wrote1|]. split; [exact demo_wrote3|].
  assert (Hk : Metadata_String (pk_meta p1) = Metadata_String (pk_meta p3)) by (vm_compute; reflexivity).
  exact (udp_destination_sticky demo_tunnel 5 (λ s, String.length s) demo_end 9 16 0 p1 p3 _ _
    (demo_start demo_labels) demo_wrote1 demo_wrote3 Hk).
Defined.

(** The answer from the address of the second packet, which asked for it by
    itself. *)
Lemma udp_reply_origin_witness :
  history demo_end !! 19 = Some (Replied 0 p3 (Addr4 9, 53%Z) (Addr4 9, 53%Z)) ∧
  Mapped 0 p2 (Addr4 9) ∈ take 19 (history demo_end) ∧ Addr4 9 = Unmap (DstIP (pk_meta p2)).
Proof.
  split; [exact demo_replied2|]. split; [exact demo_mapped2|].
  destruct (udp_reply_origin demo_tunnel 5 (λ s, String.length s) demo_end 19 0 _ _ _ (demo_start demo_labels) demo_replied2)
    as (_ & Ho & _).
  assert (Hv : IsValid (DstIP (pk_meta p2)) = true) by (vm_compute; reflexivity).
  refine (Ho p2 demo_mapped2 Hv _).
  assert (Hf : Forall (λ o, match o with Mapped 0 q (Addr4 9) => DstIP (pk_meta q) = DstIP (pk_meta p2) | _ => True end)
    (take 19 (history demo_end))) by (vm_compute; repeat constructor).
  intros q Hq. left. rewrite Forall_forall in Hf. exact (Hf _ Hq).
Defined.

Lemma udp_order_kept_witness :
  ∃ s, sessions demo_end !! 0 = Some s ∧ writes 0 (history demo_end) `sublist_of` arrivals (s_key s) (history demo_end) ∧
    writes 0 (history demo_end) = [1; 2; 3].
Proof.
  destruct (sessions demo_end !! 0) as [s|] eqn:Hs; [|pose proof demo_session as Hd; rewrite Hs in Hd; discriminate].
  exists s. split; [reflexivity|]. split; [|vm_compute; reflexivity].
  exact (proj1 (udp_order_kept demo_tunnel 5 (λ s, String.length s) demo_end 0 s (demo_start demo_labels) Hs)).
Defined.

(** *** A packet that is not given back

    The worker has found the session open; the session is closed and its channel
    drained; then the worker's second select, both cases ready, puts the packet
    in the channel. *)

Definition late_labels : list label :=
  [LReceive (demo_packet 1 "c" "www.example.com" NoAddr 443); LReceive (demo_packet 2 "c" "www.example.com" NoAddr 443)] ++
  repeat (LWorker 1 false) 5 ++ [LDial 0 demo_dial; LProcess 0 false (FixedResolver NoAddr); LReply 0 None] ++
  [LProcess 0 true (FixedResolver NoAddr); LClose 0; LClose 0; LWorker 1 true].

Definition late_end : world (H:=Enhancer memoryStore) := default demo_world (demo_run late_labels).

(** The first packet of that run is given back all the same. *)
Lemma udp_packets_released_witness :
  (at_rest demo_end ∧ ∀ n, dropped n (history demo_end) = arrived n (history demo_end)) ∧
  at_rest late_end ∧ arrived 1 (history late_end) = 1 ∧ dropped 1 (history late_end) = arrived 1 (history late_end).
Proof.
  assert (Hr : at_rest demo_end) by (vm_compute; repeat constructor).
  assert (Hl : at_rest late_end) by (vm_compute; repeat constructor).
  split; [split; [exact Hr|]|split; [exact Hl|split; [vm_compute; reflexivity|]]].
  - intros n. apply (proj2 (udp_packets_released demo_tunnel 5 (λ s, String.length s) demo_end (demo_start demo_labels)) Hr).
    assert (Hf : Forall (λ o, match o with Put _ _ true => False | _ => True end) (history demo_end)) by (vm_compute; repeat constructor).
    intros sid p _ Hp. rewrite Forall_forall in Hf. exact (Hf _ Hp).
  - apply (proj2 (udp_packets_released demo_tunnel 5 (λ s, String.length s) late_end (demo_start late_labels)) Hl 1).
    assert (Hf : Forall (λ o, match o with Put _ p true => pk_id p ≠ 1 | _ => True end) (history late_end))
      by (vm_compute; repeat constructor; discriminate).
    intros sid p Hn Hp. rewrite Forall_forall in Hf. exact (Hf _ Hp Hn).
Defined.

Theorem late_packet_leaks :
  ∃ w, demo_run late_labels = Some w ∧ at_rest w ∧ arrived 2 (history w) = 1 ∧ dropped 2 (history w) = 0 ∧
    ∀ l, match l with LReceive _ | LWorker _ _ => True | _ => step demo_tunnel 5 (λ s, String.length s) l w = None end.
Proof.
  eexists. split; [vm_compute; reflexivity|]. split; [vm_compute; repeat constructor|].
  split; [vm_compute; reflexivity|]. split; [vm_compute; reflexivity|].
  intros [p|i put|[|sid] d|[|sid] leave r|[|sid] answer|[|sid]]; vm_compute; try exact I; reflexivity.
Qed.
