(* ===== verification/Health.v ===== *)
(** * What an outbound knows of its health: [adapter/adapter.go], [common/queue]

    A proxy keeps a general liveness flag and, for every test URL it was
    tested with, a flag and the last ten delays.  A URL test is modelled from
    the answers of the outside world (the URL parser, the dial, the two HTTP
    requests, the clock) to the bookkeeping its deferred function does. *)

From Stdlib Require Import ZArith Lia Ascii String.
From stdpp Require Import prelude strings gmap list.
From S2P Require Import Prelude Ranges Netip FakeIP Metadata.
Local Open Scope go_scope.

(** ** The queue *)

Definition Queue (T : Type) : Type := list T.

Definition Put {T} (items : list T) (q : Queue T) : Queue T := q ++ items.

(** The head, nothing (the zero value in the code) if the queue is empty. *)
Definition Pop {T} (q : Queue T) : option T * Queue T :=
  match q with
  | [] => (None, [])
  | head :: items => (Some head, items)
  end.

Definition Last {T} (q : Queue T) : option T := list.last q.

Definition Copy {T} (q : Queue T) : list T := q.

Definition Len {T} (q : Queue T) : Z := Z.of_nat (length q).

Definition NewQueue {T} (hint : Z) : Queue T := [].

(** ** State *)

(** Times in nanoseconds, delays in milliseconds. *)
Record DelayHistory := mkDelay { d_Time : Z; Delay : Z }.

Record internalProxyState := mkState { st_alive : bool; st_history : Queue DelayHistory }.

Record ProxyHealth := mkHealth {
  p_alive : bool;
  p_history : Queue DelayHistory;
  extra : gmap string internalProxyState
}.

Definition defaultHistoriesNum : Z := 10.

Definition NewProxy : ProxyHealth := mkHealth true (NewQueue defaultHistoriesNum) ∅.

(** ** Queries *)

Definition AliveForTestUrl (url : string) (p : ProxyHealth) : bool :=
  match extra p !! url with
  | Some state => st_alive state
  | None => p_alive p
  end.

Definition DelayHistory_ (p : ProxyHealth) : list DelayHistory := Copy (p_history p).

Definition DelayHistoryForTestUrl (url : string) (p : ProxyHealth) : list DelayHistory :=
  match extra p !! url with
  | Some state => Copy (st_history state)
  | None => []
  end.

(** The [C.ProxyState] of every test URL: the flag and the history. *)
Definition ExtraDelayHistories (p : ProxyHealth) : gmap string (bool * list DelayHistory) :=
  (λ state, (st_alive state, Copy (st_history state))) <$> extra p.

(** The zero [DelayHistory] of an empty queue has delay 0. *)
Definition last_delay (q : Queue DelayHistory) : Z := default 0%Z (Delay <$> Last q).

Definition LastDelayForTestUrl (url : string) (p : ProxyHealth) : Z :=
  let maxDelay := 65535%Z in
  let '(alive, delay) :=
    match extra p !! url with
    | Some state => (st_alive state, last_delay (st_history state))
    | None => (false, 0%Z)
    end in
  if negb alive || (delay =? 0)%Z then maxDelay else delay.

(** ** The bookkeeping of a test *)

(** [q.Put(record)] and [q.Pop()] when more than ten are kept. *)
Definition put_record (record : DelayHistory) (q : Queue DelayHistory) : Queue DelayHistory :=
  let q' := Put [record] q in
  if (defaultHistoriesNum <? Len q')%Z then (Pop q').2 else q'.

(** The deferred function: the test of [url] ended at [now] with or without an
    error, a delay [t] and a status that was satisfying or not. *)
Definition record_test (url : string) (now : Z) (err : bool) (t : Z) (satisfied : bool) (p : ProxyHealth) : ProxyHealth :=
  let alive := negb err in
  let record := mkDelay now (if alive then t else 0%Z) in
  let state := default (mkState true (NewQueue defaultHistoriesNum)) (extra p !! url) in
  let alive' := if negb satisfied then false else alive in
  let record' := if negb satisfied then mkDelay now 0 else record in
  mkHealth alive (put_record record (p_history p))
    (<[url := mkState alive' (put_record record' (st_history state))]> (extra p)).

(** ** The test *)

(** The parts [url.Parse] finds in a URL. *)
Record URL := mkURL { Scheme : string; Hostname : string; u_Port : string }.

(** [None] is an error, of the parser, of the scheme or of the address. *)
Definition urlToMetadata (u : option URL) : option Metadata :=
  u ← u;
  port ← (if bool_decide (u_Port u = "") then
            if bool_decide (Scheme u = "https"%string) then Some "443"%string
            else if bool_decide (Scheme u = "http"%string) then Some "80"%string
            else None
          else Some (u_Port u));
  SetRemoteAddress (JoinHostPort (Hostname u) port) zero_metadata.

(** What the world answers during one test: whether the dial to an address
    succeeds, the request and the TLS configuration can be made, the status of
    the first and of the second request if they succeed, and the milliseconds
    from the dial and from the first answer to the end. *)
Record Probe := mkProbe {
  dial : Metadata → bool;
  NewRequest : bool;
  GetTLSConfig : bool;
  first_status : option Z;
  second_status : option Z;
  since_start : Z;
  since_second : Z
}.

(** The body of [URLTest]: error, delay and satisfaction. *)
Definition url_test_body (UnifiedDelay : bool) (u : option URL) (expectedStatus : option IntRanges) (w : Probe)
    : bool * Z * bool :=
  match urlToMetadata u with
  | None => (true, 0%Z, false)
  | Some addr =>
    if negb (dial w addr) then (true, 0%Z, false)
    else if negb (NewRequest w) then (true, 0%Z, false)
    else if negb (GetTLSConfig w) then (true, 0%Z, false)
    else
      match first_status w with
      | None => (true, 0%Z, false)
      | Some status1 =>
        let '(status, ms) :=
          if UnifiedDelay then
            match second_status w with
            | Some status2 => (status2, since_second w)
            | None => (status1, since_start w)
            end
          else (status1, since_start w) in
        let satisfied :=
          match expectedStatus with
          | None => true
          | Some rs => Check rs (to_u16 status)
          end in
        (false, to_u16 ms, satisfied)
      end
  end.

(** [URLTest] with [parse] for [url.Parse]: the delay, the error and the proxy
    afterwards. *)
Definition URLTest (parse : string → option URL) (UnifiedDelay : bool) (now : Z) (url : string)
    (expectedStatus : option IntRanges) (w : Probe) (p : ProxyHealth) : Z * bool * ProxyHealth :=
  let '(err, t, satisfied) := url_test_body UnifiedDelay (parse url) expectedStatus w in
  (t, err, record_test url now err t satisfied p).

(** ** Lemmas *)

Lemma Pop_drop {A} (q : Queue A) : (Pop q).2 = drop 1 q.
Proof. by destruct q. Qed.

Lemma put_record_last r (l : list DelayHistory) : put_record r (last_n 10 l) = last_n 10 (l ++ [r]).
Proof.
  unfold put_record, Put, Len, defaultHistoriesNum. rewrite length_app, last_n_length. simpl.
  destruct (Z.ltb_spec 10 (Z.of_nat (length l `min` 10 + 1))) as [Hlt|Hle].
  - unfold last_n. rewrite length_app. simpl.
    rewrite <- drop_app_le by lia. rewrite Pop_drop, drop_drop. f_equal. lia.
  - rewrite !last_n_short; [done|rewrite ?length_app; simpl; lia..].
Qed.

Lemma last_put r (l : list DelayHistory) : Last (put_record r l) = Some r.
Proof.
  unfold put_record, Put, Last. case_match; [|apply last_snoc].
  destruct l as [|x l]; [done|]. simpl. by rewrite last_snoc.
Qed.

(** One test as the bookkeeping sees it. *)
Record test := mkTest { t_url : string; t_now : Z; t_err : bool; t_delay : Z; t_satisfied : bool }.

Definition run_tests (ts : list test) (p : ProxyHealth) : ProxyHealth :=
  foldl (λ p x, record_test (t_url x) (t_now x) (t_err x) (t_delay x) (t_satisfied x) p) p ts.

(** What a test adds to the history of the proxy, and to that of its URL. *)
Definition general_record (x : test) : DelayHistory := mkDelay (t_now x) (if t_err x then 0 else t_delay x).

Definition url_ok (x : test) : bool := t_satisfied x && negb (t_err x).

Definition url_record (x : test) : DelayHistory := mkDelay (t_now x) (if url_ok x then t_delay x else 0).

Definition tests_of (url : string) (ts : list test) : list test := filter (λ x, t_url x = url) ts.

Lemma run_tests_snoc ts x p :
  run_tests (ts ++ [x]) p =
  record_test (t_url x) (t_now x) (t_err x) (t_delay x) (t_satisfied x) (run_tests ts p).
Proof. unfold run_tests. by rewrite foldl_app. Qed.

Lemma record_test_eq url now err t sat p :
  record_test url now err t sat p =
  mkHealth (negb err) (put_record (general_record (mkTest url now err t sat)) (p_history p))
    (<[url := mkState (url_ok (mkTest url now err t sat))
                (put_record (url_record (mkTest url now err t sat)) (default [] (st_history <$> extra p !! url)))]> (extra p)).
Proof.
  unfold record_test, general_record, url_record, url_ok. simpl.
  destruct (extra p !! url); destruct err, sat; done.
Qed.

(** ** Properties *)

(** Over any sequence of tests of a fresh proxy, its history is the last
    ten results of all tests, and a URL has a state exactly if it was tested:
    the outcome of its last test and the last ten delays of its own tests, 0
    standing for a failed or unsatisfying one. *)
Theorem health_histories (ts : list test) (url : string) :
  let p := run_tests ts NewProxy in
  p_alive p = match list.last ts with Some x => negb (t_err x) | None => true end ∧
  p_history p = last_n 10 (map general_record ts) ∧
  extra p !! url =
    match list.last (tests_of url ts) with
    | Some x => Some (mkState (url_ok x) (last_n 10 (map url_record (tests_of url ts))))
    | None => None
    end.
Proof.
  induction ts as [|x ts IH] using rev_ind; [by split_and!|].
  destruct IH as (_ & Hh & He). cbv zeta in *. rewrite run_tests_snoc, record_test_eq. cbn [p_alive p_history extra].
  destruct x as [u now err t sat]. cbn [t_url t_now t_err t_delay t_satisfied] in *.
  rewrite last_snoc, map_app, Hh, put_record_last. split_and!; [done..|].
  unfold tests_of in *. rewrite filter_app. destruct (decide (u = url)) as [->|Hne].
  - rewrite filter_cons_True by done. rewrite filter_nil, last_snoc, lookup_insert_eq, map_app, He.
    cbn [map]. rewrite <- put_record_last. do 3 f_equal.
    destruct (list.last _) as [y|] eqn:Hl; [done|]. by apply last_None in Hl as ->.
  - rewrite lookup_insert_ne by done. rewrite filter_cons_False by done.
    rewrite filter_nil, app_nil_r. exact He.
Qed.

(** The status a test ends with: that of the second request, if one is made
    and succeeds. *)
Definition final_status (unified : bool) (w : Probe) : option Z :=
  match first_status w, second_status w with
  | Some _, Some s2 => if unified then Some s2 else first_status w
  | o, _ => o
  end.

Definition status_expected (expected : option IntRanges) (status : option Z) : bool :=
  match expected, status with
  | None, _ => true
  | Some rs, Some s => Check rs (to_u16 s)
  | Some _, None => false
  end.

(** After a test the proxy counts as alive for its URL exactly if the test
    succeeded with an expected status, and its last delay is the measured one;
    a delay of 0 ms, like no success, counts as the largest delay there is.
    Another URL keeps its answers if it was ever tested; one that never was
    follows the general flag, which ignores the status. *)
Theorem url_test_outcome (parse : string → option URL) (unified : bool) (now : Z) (url : string)
    (expected : option IntRanges) (w : Probe) (p : ProxyHealth) (t : Z) (err : bool) (p' : ProxyHealth) :
  URLTest parse unified now url expected w p = (t, err, p') →
  let satisfied := status_expected expected (final_status unified w) in
    AliveForTestUrl url p' = negb err && satisfied ∧
    LastDelayForTestUrl url p' = (if negb err && satisfied && negb (t =? 0) then t else 65535)%Z ∧
    (0 ≤ LastDelayForTestUrl url p' ≤ 65535)%Z ∧
    (err = false → p_alive p' = true) ∧
    ∀ url', url' ≠ url →
      LastDelayForTestUrl url' p' = LastDelayForTestUrl url' p ∧
      AliveForTestUrl url' p' = (if bool_decide (is_Some (extra p !! url')) then AliveForTestUrl url' p else negb err).
Proof.
  unfold URLTest. destruct (url_test_body _ _ _ _) as [[e d] sat] eqn:Hb. intros [= <- <- <-]. set (satisfied := status_expected _ _).
  assert (0 ≤ d ≤ 65535)%Z as Hd.
  { unfold url_test_body in Hb. repeat (case_match; simplify_eq/=; try lia).
    all: pose proof (@wrap_in_type uint16 (since_start w)); pose proof (@wrap_in_type uint16 (since_second w)); int_lia. }
  assert (negb e && sat = negb e && satisfied) as Hsat.
  { unfold url_test_body in Hb. unfold satisfied, status_expected, final_status.
    repeat (case_match; simplify_eq/=; try done). }
  rewrite <- !Hsat. clear satisfied Hsat. rewrite record_test_eq. unfold AliveForTestUrl, LastDelayForTestUrl, last_delay. cbn [extra p_alive].
  rewrite lookup_insert_eq. cbn [st_alive st_history]. rewrite last_put. unfold url_ok, url_record. simpl.
  split_and!.
  - by rewrite andb_comm.
  - unfold url_ok. simpl. destruct e, sat; simpl; try done. by destruct (d =? 0)%Z.
  - unfold url_ok. simpl. destruct e, sat; simpl; try lia. all: case_match; lia.
  - unfold url_ok. simpl. destruct e, sat; simpl; try lia. all: case_match; lia.
  - by intros ->.
  - intros url' Hne. rewrite lookup_insert_ne by done. split; [done|].
    destruct (extra p !! url'); [by rewrite bool_decide_eq_true_2 by eauto|].
    rewrite bool_decide_eq_false_2; [done|]. by intros [? ?].
Qed.

Definition demo_parse (url : string) : option URL := Some (mkURL "https" "www.example.com" "").

Definition demo_probe : Probe := mkProbe (λ m, bool_decide (m_DstPort m = 443%Z)) true true (Some 204%Z) None 87 0.

Lemma url_test_outcome_witness :
  LastDelayForTestUrl "u" (URLTest demo_parse false 5 "u" (Some [mkRange 204 204]) demo_probe NewProxy).2 = 87%Z ∧
  AliveForTestUrl "u" (URLTest demo_parse false 5 "u" (Some [mkRange 204 204]) demo_probe NewProxy).2
    = negb false && status_expected (Some [mkRange 204 204]) (final_status false demo_probe).
Proof.
  split; [vm_compute; reflexivity|].
  destruct (url_test_outcome demo_parse false 5 "u" (Some [mkRange 204 204]) demo_probe NewProxy 87 false
    (URLTest demo_parse false 5 "u" (Some [mkRange 204 204]) demo_probe NewProxy).2) as (H & _);
    [vm_compute; reflexivity|].
  exact H.
Defined.
