(* ===== verification/Single.v ===== *)
(** * Sharing one computation: [common/singledo/singledo.go]

    [Do] runs a function at most once at a time and keeps its result for a
    while.  Its two critical sections are separate operations here, because a
    [Reset] or another [Do] may come between them; [sstep] interleaves any
    number of callers.  Calls are named by numbers, as pointers are compared
    in the code. *)

From Stdlib Require Import ZArith Lia.
From stdpp Require Import prelude gmap list.
From S2P Require Import Prelude.

Section Single.
Context {T : Type}.

(** A result: value, error flag and the time it was stored, in nanoseconds. *)
Record Result := mkResult { r_Val : T; r_Err : bool; r_Time : Z }.

(** [s_next] is the first name never given to a call. *)
Record Single := mkSingle { s_wait : Z; s_call : option nat; s_result : option Result; s_next : nat }.

Definition NewSingle (wait : Z) : Single := mkSingle wait None None 0.

(** What the first critical section of [Do] decides: answer the kept result,
    wait for the call that is running, or run the function as a new call. *)
Inductive entry := Kept (v : T) (err : bool) | Join (c : nat) | Run (c : nat).

Definition do_enter (now : Z) (s : Single) : entry * Single :=
  match s_result s with
  | Some r =>
    if (now - r_Time r <? s_wait s)%Z then (Kept (r_Val r) (r_Err r), s)
    else
      match s_call s with
      | Some c => (Join c, mkSingle (s_wait s) (Some c) None (s_next s))
      | None => (Run (s_next s), mkSingle (s_wait s) (Some (s_next s)) None (S (s_next s)))
      end
  | None =>
    match s_call s with
    | Some c => (Join c, s)
    | None => (Run (s_next s), mkSingle (s_wait s) (Some (s_next s)) None (S (s_next s)))
    end
  end.

(** The second critical section, when the function of call [c] has returned. *)
Definition do_finish (c : nat) (v : T) (err : bool) (now : Z) (s : Single) : Single :=
  if bool_decide (s_call s = Some c) then mkSingle (s_wait s) None (Some (mkResult v err now)) (s_next s) else s.

Definition Reset (s : Single) : Single := mkSingle (s_wait s) None None (s_next s).

(** [Do] of a caller nobody disturbs; [shared] is the third result.  A caller
    that would have to wait for another one is not such a caller. *)
Definition Do {S} (fn : S → (T * bool) * S) (now : Z) (s : Single) (st : S) : option ((T * bool * bool) * Single * S) :=
  match do_enter now s with
  | (Kept v err, s') => Some ((v, err, true), s', st)
  | (Join _, _) => None
  | (Run c, s') =>
    let '((v, err), st') := fn st in
    Some ((v, err, false), do_finish c v err now s', st')
  end.

(** ** Any number of callers *)

(** The object, the calls whose function is running, each with the number of
    resets there had been when it started, the number of resets, and for the
    kept result the number its call started with. *)
Record world := mkWorld { w_single : Single; running : gmap nat nat; resets : nat; kept_at : nat }.

(** What a caller sees of a step. *)
Inductive observation := Quiet | Answered (v : T) (err : bool) (started : nat) | Joined (c : nat) | Started (c : nat).

Inductive sstep : world → observation → world → Prop :=
| step_kept w now v err s' :
    do_enter now (w_single w) = (Kept v err, s') →
    sstep w (Answered v err (kept_at w)) (mkWorld s' (running w) (resets w) (kept_at w))
| step_join w now c s' :
    do_enter now (w_single w) = (Join c, s') →
    sstep w (Joined c) (mkWorld s' (running w) (resets w) (kept_at w))
| step_run w now c s' :
    do_enter now (w_single w) = (Run c, s') →
    sstep w (Started c) (mkWorld s' (<[c := resets w]> (running w)) (resets w) (kept_at w))
| step_finish w c n v err now :
    running w !! c = Some n →
    sstep w Quiet
      (mkWorld (do_finish c v err now (w_single w)) (delete c (running w)) (resets w)
         (if bool_decide (s_call (w_single w) = Some c) then n else kept_at w))
| step_reset w :
    sstep w Quiet (mkWorld (Reset (w_single w)) (running w) (S (resets w)) (kept_at w)).

Definition new_world (wait : Z) : world := mkWorld (NewSingle wait) ∅ 0 0.

Inductive reachable (wait : Z) : world → Prop :=
| reach_new : reachable wait (new_world wait)
| reach_step w o w' : reachable wait w → sstep w o w' → reachable wait w'.

End Single.

Arguments Result : clear implicits.
Arguments Single : clear implicits.
Arguments world : clear implicits.
Arguments observation : clear implicits.

(** ** Lemmas *)

Section Laws.
Context {T : Type}.
Implicit Types (w : world T) (s : Single T).

(** The current call is the one running call that started after the last reset,
    the kept result was computed by such a call, and the names of running calls
    have been given. *)
Definition single_ok w : Prop :=
  (∀ c, s_call (w_single w) = Some c ↔ running w !! c = Some (resets w)) ∧
  (is_Some (s_result (w_single w)) → kept_at w = resets w) ∧
  (∀ c n, running w !! c = Some n → c < s_next (w_single w) ∧ n ≤ resets w) ∧
  (is_Some (s_result (w_single w)) → s_call (w_single w) = None).

Lemma do_enter_run now s c s' :
  do_enter now s = (Run c, s') → s_call s = None ∧ c = s_next s ∧ s' = mkSingle (s_wait s) (Some c) None (S c).
Proof. unfold do_enter. repeat case_match; intros; simplify_eq; done. Qed.

Lemma do_enter_join now s c s' :
  do_enter now s = (Join c, s') → s_call s = Some c ∧ s' = mkSingle (s_wait s) (Some c) None (s_next s).
Proof. unfold do_enter. destruct s as [wt cl rs nx]; simpl. repeat case_match; intros; simplify_eq/=; done. Qed.

Lemma do_enter_kept now s v err s' :
  do_enter now s = (Kept v err, s') →
  s' = s ∧ ∃ r, s_result s = Some r ∧ r_Val r = v ∧ r_Err r = err ∧ (now - r_Time r < s_wait s)%Z.
Proof.
  unfold do_enter. repeat case_match; intros; simplify_eq. split; [done|]. eexists; split_and!; eauto. by apply Z.ltb_lt.
Qed.

Lemma no_current w c n :
  single_ok w → s_call (w_single w) = None → running w !! c = Some n → n < resets w.
Proof.
  intros (Hc & _ & Hr & _) Hn H. destruct (Hr _ _ H) as [_ Hle].
  destruct (decide (n = resets w)) as [->|]; [|lia]. apply Hc in H. congruence.
Qed.

Lemma single_ok_step w o w' : single_ok w → sstep w o w' → single_ok w'.
Proof.
  intros Hok Hs. pose proof (no_current w) as Hnc. pose proof Hok as (Hc & Hk & Hr & Hx).
  destruct Hs as [w now v err s' He|w now c s' He|w now c s' He|w c n v err now Hn|w];
    unfold single_ok; cbn [w_single running resets kept_at].
  - by apply do_enter_kept in He as [-> _].
  - apply do_enter_join in He as [He ->]. simpl. rewrite <- He. split_and!; [done|by intros []|done|by intros []].
  - apply do_enter_run in He as (He & -> & ->). simpl. split_and!; [|by intros []| |by intros []].
    + intros c'. rewrite lookup_insert_Some. split; [intros [= <-]; by left|].
      intros [[<- _]|[_ H]]; [done|]. apply Hnc in H; [lia|done..].
    + intros c' n. rewrite lookup_insert_Some. intros [[<- <-]|[_ H]]; [lia|]. apply Hr in H. lia.
  - unfold do_finish. case_bool_decide as Hcur; simpl.
    + split_and!; [|intros _| |done].
      * intros c'. rewrite lookup_delete_Some, <- Hc. naive_solver.
      * apply Hc in Hcur. congruence.
      * intros c' n'. rewrite lookup_delete_Some. intros [_ H]. by apply Hr.
    + split_and!; [|done| |done].
      * intros c'. rewrite lookup_delete_Some, <- Hc. naive_solver.
      * intros c' n'. rewrite lookup_delete_Some. intros [_ H]. by apply Hr.
  - simpl. split_and!; [|by intros []| |by intros []].
    + intros c. split; [done|]. intros H. apply Hr in H. lia.
    + intros c n H. apply Hr in H. lia.
Qed.

Lemma reachable_ok wait w : reachable wait w → single_ok w.
Proof.
  induction 1 as [|w o w' _ IH Hs]; [|by eapply single_ok_step].
  split_and!; [done|by intros []|done|by intros []].
Qed.

(** ** Properties *)

(** C39: however callers and resets interleave, a kept result is only answered
    if its call started after the last reset; a caller that waits for a call of
    another waits for one that is running and started after the last reset; of
    the calls started since the last reset at most one runs at a time, and when
    the function is started again, every call still running had started before
    that reset. *)
Theorem single_no_stale_result (wait : Z) w o w' :
  reachable wait w → sstep w o w' →
  (∀ v err n, o = Answered v err n → n = resets w) ∧
  (∀ c, o = Joined c → running w !! c = Some (resets w)) ∧
  (∀ c c', running w !! c = Some (resets w) → running w !! c' = Some (resets w) → c = c') ∧
  (∀ c, o = Started c → running w !! c = None ∧ ∀ c' n, running w !! c' = Some n → n < resets w).
Proof.
  intros Hw Hs. apply reachable_ok in Hw as Hok. pose proof (no_current w) as Hnc. pose proof Hok as (Hc & Hk & Hr & Hx).
  assert (∀ c c', running w !! c = Some (resets w) → running w !! c' = Some (resets w) → c = c') as Hone.
  { intros c c' H1%Hc H2%Hc. congruence. }
  destruct Hs as [w now v err s' He|w now c s' He|w now c s' He| |]; split_and!; intros; simplify_eq; try done; auto.
  - apply do_enter_kept in He as (_ & r & Hres & _). apply Hk. by eexists.
  - apply do_enter_join in He as [He _]. by apply Hc.
  - apply do_enter_run in He as (He & -> & _). split; [|intros c' n H; by eapply Hnc].
    apply eq_None_not_Some. intros [n H]. apply Hr in H. lia.
Qed.

End Laws.

(** A caller starts, a reset comes, another caller starts before the first ends. *)
Lemma single_no_stale_result_witness :
  ∃ w w', reachable (T:=nat) 10 w ∧ sstep w (Started 1) w' ∧ running w !! 0 = Some 0 ∧
    (running w !! 1 = None ∧ ∀ c' n, running w !! c' = Some n → n < resets w).
Proof.
  set (w0 := new_world (T:=nat) 10).
  set (w1 := mkWorld (mkSingle 10 (Some 0) None 1) (<[0 := 0]> (∅ : gmap nat nat)) 0 0 : world nat).
  set (w2 := mkWorld (mkSingle 10 None None 1) (<[0 := 0]> (∅ : gmap nat nat)) 1 0 : world nat).
  set (w3 := mkWorld (mkSingle 10 (Some 1) None 2) (<[1 := 1]> (<[0 := 0]> (∅ : gmap nat nat))) 1 0 : world nat).
  assert (sstep w0 (Started 0) w1) as H1 by (apply (step_run w0 0 0); reflexivity).
  assert (sstep w1 Quiet w2) as H2 by apply (step_reset w1).
  assert (sstep w2 (Started 1) w3) as H3 by (apply (step_run w2 0 1); reflexivity).
  assert (reachable 10 w2) as Hr by (eapply reach_step; [eapply reach_step; [apply reach_new|exact H1]|exact H2]).
  exists w2, w3. split; [exact Hr|]. split; [exact H3|]. split; [reflexivity|].
  exact (proj2 (proj2 (proj2 (single_no_stale_result 10 w2 (Started 1) w3 Hr H3))) 1 eq_refl).
Defined.
