(* ===== verification/Groups.v ===== *)
(** * Proxy groups: [adapter/outboundgroup]

    How a group finds its members ([GroupBase]) and chooses one: the selector,
    the fallback, the URL test and the three load-balancing strategies, and how
    failed dials lead to a health check.  Members are references; their health
    is state of their own ([Health]) that the choice reads at the time it is
    made.  The providers are shared with other groups, so they are passed in and
    given back.  Dialing itself, JSON and construction are not modelled. *)

From Stdlib Require Import ZArith Lia Ascii String.
From stdpp Require Import prelude strings gmap list.
From S2P Require Import Prelude Ranges Netip Metadata Health Single Lru.
Local Open Scope go_scope.

(** ** Members *)

Section Groups.
Context {Px : Type} `{EqDecision Px}.
Context (Name : Px → string) (Type_ : Px → AdapterType) (UDP_ : Px → bool).

(** A proxy provider as the groups see it; [pv_Touched] is the time of the last
    touch. *)
Record Provider := mkProvider { Version : Z; Proxies : list Px; VehicleCompatible : bool; pv_Touched : Z }.

Definition pd_Touch (now : Z) (pd : Provider) : Provider :=
  mkProvider (Version pd) (Proxies pd) (VehicleCompatible pd) now.

(** Compiled regular expressions are functions. *)
Record GroupBase := mkGroup {
  filterRegs : list (string → bool);
  excludeFilterRegs : list (string → bool);
  excludeTypeArray : list string;
  failedTimes : Z;
  failedTime : Z;
  failedTesting : bool;
  testTimeout : Z;
  maxFailedTimes : Z;
  EmptyFallback : Px;
  providerVersions : list Z;
  providerProxies : list Px
}.

(** [NewGroupBase] with the options that are parsed here already compiled. *)
Definition NewGroupBase (filters excludes : list (string → bool)) (excludeTypes : list string)
    (TestTimeout MaxFailedTimes : Z) (emptyFallback : Px) : GroupBase :=
  mkGroup filters excludes excludeTypes 0 0 false
    (if (TestTimeout =? 0)%Z then 5000 else TestTimeout)
    (if (MaxFailedTimes =? 0)%Z then 5 else MaxFailedTimes) emptyFallback [] [].

Definition with_cache (versions : list Z) (proxies : list Px) (gb : GroupBase) : GroupBase :=
  mkGroup (filterRegs gb) (excludeFilterRegs gb) (excludeTypeArray gb) (failedTimes gb) (failedTime gb)
    (failedTesting gb) (testTimeout gb) (maxFailedTimes gb) (EmptyFallback gb) versions proxies.

Definition with_failures (times time : Z) (gb : GroupBase) : GroupBase :=
  mkGroup (filterRegs gb) (excludeFilterRegs gb) (excludeTypeArray gb) times time
    (failedTesting gb) (testTimeout gb) (maxFailedTimes gb) (EmptyFallback gb) (providerVersions gb) (providerProxies gb).

Definition with_testing (b : bool) (gb : GroupBase) : GroupBase :=
  mkGroup (filterRegs gb) (excludeFilterRegs gb) (excludeTypeArray gb) (failedTimes gb) (failedTime gb)
    b (testTimeout gb) (maxFailedTimes gb) (EmptyFallback gb) (providerVersions gb) (providerProxies gb).

Definition Touch (now : Z) (pds : list Provider) : list Provider := map (pd_Touch now) pds.

(** The loop over proxies with a [proxiesSet] of names already taken: those
    whose name [f] accepts are appended once per name. *)
Fixpoint pick (f : string → bool) (ps : list Px) (proxiesSet : gset string) (newProxies : list Px)
    : gset string * list Px :=
  match ps with
  | [] => (proxiesSet, newProxies)
  | p :: ps' =>
    if f (Name p) && negb (bool_decide (Name p ∈ proxiesSet))
    then pick f ps' ({[Name p]} ∪ proxiesSet) (newProxies ++ [p])
    else pick f ps' proxiesSet newProxies
  end.

Fixpoint pick_all (regs : list (string → bool)) (ps : list Px) (proxiesSet : gset string) (newProxies : list Px)
    : gset string * list Px :=
  match regs with
  | [] => (proxiesSet, newProxies)
  | f :: regs' => let '(s, l) := pick f ps proxiesSet newProxies in pick_all regs' ps s l
  end.

(** The proxies of the providers, filtered one provider at a time. *)
Definition collect (regs : list (string → bool)) (pds : list Provider) : list Px :=
  match regs with
  | [] => concat (map Proxies pds)
  | _ => concat (map (λ pd, if VehicleCompatible pd then Proxies pd else (pick_all regs (Proxies pd) ∅ []).2) pds)
  end.

(** The whole list put in the order of the filters, the rest at the end. *)
Definition reorder (regs : list (string → bool)) (ps : list Px) : list Px :=
  let '(s, l) := pick_all regs ps ∅ [] in (pick (λ _, true) ps s l).2.

Definition members (gb : GroupBase) (pds : list Provider) : list Px :=
  let ps := collect (filterRegs gb) pds in
  let ps := if (1 <? length pds) && (1 <? length (filterRegs gb)) then reorder (filterRegs gb) ps else ps in
  let ps := filter (λ p, ¬ existsb (λ r, r (Name p)) (excludeFilterRegs gb)) ps in
  filter (λ p, ¬ existsb (λ t, EqualFold (AdapterType_String (Type_ p)) t) (excludeTypeArray gb)) ps.

Definition GetProxies (touch : bool) (now : Z) (pds : list Provider) (gb : GroupBase)
    : list Px * list Provider * GroupBase :=
  let pds' := if touch then Touch now pds else pds in
  let versions := map Version pds' in
  if bool_decide (versions = providerVersions gb) then (providerProxies gb, pds', gb)
  else
    match members gb pds' with
    | [] => ([EmptyFallback gb], pds', gb)
    | proxies => (proxies, pds', with_cache versions proxies gb)
    end.

(** ** Failed dials *)

(** What a failed dial does: nothing, or the deferred part runs, which may call
    for the health check. *)
Inductive dial_failure := ErrNotSupport | ConnectionRefused | OtherFailure.

Definition ignored_type (t : AdapterType) : bool :=
  bool_decide (t = ADirect ∨ t = ACompatible ∨ t = AReject ∨ t = APass ∨ t = ARejectDrop).

(** The state afterwards and whether [fn] is called; times in nanoseconds. *)
Definition onDialFailed (t : AdapterType) (err : dial_failure) (now : Z) (gb : GroupBase) : bool * GroupBase :=
  if ignored_type t then (false, gb)
  else
    match err with
    | ErrNotSupport => (false, gb)
    | ConnectionRefused => (true, gb)
    | OtherFailure =>
      let times := (failedTimes gb + 1)%Z in
      if (times =? 1)%Z then (false, with_failures times now gb)
      else if (testTimeout gb * 1000000 <? now - failedTime gb)%Z then (false, with_failures 0 (failedTime gb) gb)
      else ((maxFailedTimes gb <=? times)%Z, with_failures times (failedTime gb) gb)
    end.

Definition onDialSuccess (gb : GroupBase) : GroupBase :=
  if negb (failedTesting gb) then with_failures 0 (failedTime gb) gb else gb.

(** [healthCheck] in two parts, as the providers are tested in between: the
    start says whether they are, the end clears the count. *)
Definition health_check_start (gb : GroupBase) : bool * GroupBase :=
  if failedTesting gb then (false, gb) else (true, with_testing true gb).

Definition health_check_end (gb : GroupBase) : GroupBase := with_failures 0 (failedTime gb) (with_testing false gb).

(** ** The selector *)

Record Selector := mkSelector { s_base : GroupBase; s_disableUDP : bool; s_selected : string; s_testUrl : string }.

Definition NewSelector (gb : GroupBase) (disableUDP : bool) (url : string) : Selector :=
  mkSelector gb disableUDP (Name (EmptyFallback gb)) url.

Definition s_with_base (gb : GroupBase) (s : Selector) : Selector :=
  mkSelector gb (s_disableUDP s) (s_selected s) (s_testUrl s).

(** The first proxy of a name. *)
Fixpoint find_name (name : string) (ps : list Px) : option Px :=
  match ps with
  | [] => None
  | p :: ps' => if bool_decide (Name p = name) then Some p else find_name name ps'
  end.

(** [None] is the panic of [proxies[0]] on an empty list. *)
Definition selectedProxy (touch : bool) (now : Z) (pds : list Provider) (s : Selector)
    : option Px * list Provider * Selector :=
  let '(ps, pds', gb) := GetProxies touch now pds (s_base s) in
  (match find_name (s_selected s) ps with Some p => Some p | None => head ps end, pds', s_with_base gb s).

(** The error flag comes first. *)
Definition Selector_Set (name : string) (now : Z) (pds : list Provider) (s : Selector) : bool * Selector :=
  let '(ps, _, gb) := GetProxies false now pds (s_base s) in
  match find_name name ps with
  | Some _ => (false, mkSelector gb (s_disableUDP s) name (s_testUrl s))
  | None => (true, s_with_base gb s)
  end.

Definition Selector_ForceSet (name : string) (s : Selector) : Selector :=
  mkSelector (s_base s) (s_disableUDP s) name (s_testUrl s).

Definition Selector_Unwrap (touch : bool) (now : Z) (pds : list Provider) (s : Selector)
    : option Px * list Provider * Selector := selectedProxy touch now pds s.

Definition Selector_Now (now : Z) (pds : list Provider) (s : Selector) : option string :=
  Name <$> (selectedProxy false now pds s).1.1.

Definition Selector_SupportUDP (now : Z) (pds : list Provider) (s : Selector) : option bool :=
  if s_disableUDP s then Some false else UDP_ <$> (selectedProxy false now pds s).1.1.

(** ** The fallback *)

Record Fallback := mkFallback {
  f_base : GroupBase; f_disableUDP : bool; f_testUrl : string; f_selected : string; f_expectedStatus : string
}.

Definition NewFallback (gb : GroupBase) (disableUDP : bool) (url expectedStatus : string) : Fallback :=
  mkFallback gb disableUDP url "" expectedStatus.

Definition f_with (gb : GroupBase) (selected : string) (f : Fallback) : Fallback :=
  mkFallback gb (f_disableUDP f) (f_testUrl f) selected (f_expectedStatus f).

(** The health of every proxy at the moment. *)
Definition Healths : Type := Px → ProxyHealth.

(** The loop of [findAliveProxy], with the selection as the loop leaves it. *)
Fixpoint find_alive (h : Healths) (url selected : string) (ps : list Px) : option Px * string :=
  match ps with
  | [] => (None, selected)
  | p :: ps' =>
    if bool_decide (selected = "") then
      if AliveForTestUrl url (h p) then (Some p, selected) else find_alive h url selected ps'
    else if bool_decide (Name p = selected) then
      if AliveForTestUrl url (h p) then (Some p, selected) else find_alive h url "" ps'
    else find_alive h url selected ps'
  end.

Definition findAliveProxy (h : Healths) (touch : bool) (now : Z) (pds : list Provider) (f : Fallback)
    : option Px * list Provider * Fallback :=
  let '(ps, pds', gb) := GetProxies touch now pds (f_base f) in
  let '(found, selected) := find_alive h (f_testUrl f) (f_selected f) ps in
  (match found with Some p => Some p | None => head ps end, pds', f_with gb selected f).

Definition Fallback_Unwrap := findAliveProxy.

(** [Set] tests the chosen proxy if it is not alive; [parse] and [w] are what
    the test needs ([Health.URLTest]).  The error flag comes first. *)
Definition Fallback_Set (parse : string → option URL) (unified : bool) (w : Probe) (name : string) (now : Z)
    (pds : list Provider) (h : Healths) (f : Fallback) : bool * Healths * Fallback :=
  let '(ps, _, gb) := GetProxies false now pds (f_base f) in
  match find_name name ps with
  | None => (true, h, f_with gb (f_selected f) f)
  | Some p =>
    let f' := f_with gb name f in
    if AliveForTestUrl (f_testUrl f) (h p) then (false, h, f')
    else
      let expected := @NewUnsignedRanges uint16 (f_expectedStatus f) in
      let tested := (URLTest parse unified now (f_testUrl f) (Some (default [] expected)) w (h p)).2 in
      (false, λ q, if bool_decide (q = p) then tested else h q, f')
  end.

Definition Fallback_ForceSet (name : string) (f : Fallback) : Fallback := f_with (f_base f) name f.

(** ** The URL test group *)

Record URLTestGroup := mkURLTest {
  u_base : GroupBase; u_selected : string; u_testUrl : string; u_expectedStatus : string; tolerance : Z;
  u_disableUDP : bool; fastNode : option Px; fastSingle : Single Px
}.

Definition u_with (gb : GroupBase) (node : option Px) (sg : Single Px) (u : URLTestGroup) : URLTestGroup :=
  mkURLTest gb (u_selected u) (u_testUrl u) (u_expectedStatus u) (tolerance u) (u_disableUDP u) node sg.

(** [NewURLTest]; a choice is kept for ten seconds. *)
Definition NewURLTest (gb : GroupBase) (url expectedStatus : string) (tol : Z) (disableUDP : bool) : URLTestGroup :=
  mkURLTest gb "" url expectedStatus (to_u16 tol) disableUDP None (NewSingle (10 * 10 ^ 9)).

(** The selected proxy, if it is alive. *)
Fixpoint find_selected (h : Healths) (url selected : string) (ps : list Px) : option Px :=
  match ps with
  | [] => None
  | p :: ps' =>
    if AliveForTestUrl url (h p) && bool_decide (Name p = selected) then Some p
    else find_selected h url selected ps'
  end.

(** The loop over [proxies[1:]]: the fastest so far, its delay, and whether the
    current node has not been seen. *)
Fixpoint fast_loop (h : Healths) (url : string) (node : option Px) (ps : list Px) (fast : Px) (minDelay : Z)
    (fastNotExist : bool) : Px * bool :=
  match ps with
  | [] => (fast, fastNotExist)
  | p :: ps' =>
    let seen := match node with Some n => bool_decide (Name p = Name n) | None => false end in
    let fastNotExist := if seen then false else fastNotExist in
    if negb (AliveForTestUrl url (h p)) then fast_loop h url node ps' fast minDelay fastNotExist
    else
      let delay := LastDelayForTestUrl url (h p) in
      if (delay <? minDelay)%Z then fast_loop h url node ps' p delay fastNotExist
      else fast_loop h url node ps' fast minDelay fastNotExist
  end.

(** The function given to [Do]: the choice, which the group remembers; [None]
    is the panic of [proxies[0]]. *)
Definition fast_choice (h : Healths) (url : string) (selected : string) (tol : Z) (node : option Px) (ps : list Px)
    : option Px :=
  match (if bool_decide (selected = "") then None else find_selected h url selected ps) with
  | Some p => Some p
  | None =>
    match ps with
    | [] => None
    | p0 :: ps' =>
      let '(fast, fastNotExist) := fast_loop h url node ps' p0 (LastDelayForTestUrl url (h p0)) true in
      match node with
      | None => Some fast
      | Some n =>
        if fastNotExist || negb (AliveForTestUrl url (h n)) ||
           (to_u16 (LastDelayForTestUrl url (h fast) + tol) <? LastDelayForTestUrl url (h n))%Z
        then Some fast else Some n
      end
    end
  end.

(** [fast] of a caller nobody disturbs, see [Single.Do]; [None] in the first
    component is the panic, and then nothing is kept. *)
Definition fast (h : Healths) (touch : bool) (now : Z) (pds : list Provider) (u : URLTestGroup)
    : option (option Px * list Provider * URLTestGroup) :=
  match do_enter now (fastSingle u) with
  | (Kept p _, sg) =>
    Some (Some p, if touch then Touch now pds else pds, u_with (u_base u) (fastNode u) sg u)
  | (Join _, _) => None
  | (Run c, sg) =>
    let '(ps, pds', gb) := GetProxies touch now pds (u_base u) in
    match fast_choice h (u_testUrl u) (u_selected u) (tolerance u) (fastNode u) ps with
    | None => Some (None, pds', u_with gb (fastNode u) sg u)
    | Some p => Some (Some p, pds', u_with gb (Some p) (do_finish c p false now sg) u)
    end
  end.

Definition URLTest_ForceSet (name : string) (u : URLTestGroup) : URLTestGroup :=
  mkURLTest (u_base u) name (u_testUrl u) (u_expectedStatus u) (tolerance u) (u_disableUDP u) (fastNode u)
    (Reset (fastSingle u)).

Definition URLTest_Set (name : string) (now : Z) (pds : list Provider) (u : URLTestGroup) : bool * URLTestGroup :=
  let '(ps, _, gb) := GetProxies false now pds (u_base u) in
  let u' := u_with gb (fastNode u) (fastSingle u) u in
  match find_name name ps with
  | Some _ => (false, URLTest_ForceSet name u')
  | None => (true, u')
  end.

(** [healthCheck] resets the kept choice before and after; the providers are
    tested in between. *)
Definition URLTest_health_start (u : URLTestGroup) : bool * URLTestGroup :=
  let '(test, gb) := health_check_start (u_base u) in
  (test, u_with gb (fastNode u) (Reset (fastSingle u)) u).

Definition URLTest_health_end (tested : bool) (u : URLTestGroup) : URLTestGroup :=
  u_with (if tested then health_check_end (u_base u) else u_base u) (fastNode u) (Reset (fastSingle u)) u.

End Groups.

(** ** Lemmas *)

Set Default Proof Using "Type*".

Section Laws.
Context {Px : Type} `{EqDecision Px}.
Context (Name : Px → string) (Type_ : Px → AdapterType).
Implicit Types (ps : list Px) (pds : list (Provider (Px:=Px))) (gb : GroupBase (Px:=Px)).

(** *** Filters *)

(** The list grows only by accepted members, and the set holds its names. *)
Lemma pick_spec f ps s l :
  (∀ n, n ∈ s ↔ ∃ q, q ∈ l ∧ Name q = n) →
  let r := pick Name f ps s l in
  (∀ n, n ∈ r.1 ↔ ∃ q, q ∈ r.2 ∧ Name q = n) ∧
  (∀ q, q ∈ r.2 → q ∈ l ∨ q ∈ ps ∧ f (Name q) = true) ∧
  (∀ q, q ∈ l → q ∈ r.2) ∧
  (∀ q, q ∈ ps → f (Name q) = true → ∃ q', q' ∈ r.2 ∧ Name q' = Name q).
Proof.
  revert s l. induction ps as [|p ps IH]; intros s l Hs; simpl.
  - split_and!; [done|by left|done|by intros q ?%elem_of_nil].
  - destruct (f (Name p)) eqn:Hf; simpl; [case_bool_decide as Hin; simpl|].
    + destruct (IH s l Hs) as (H1 & H2 & H3 & H4). split_and!; [done| |done|].
      { intros q [?|[? ?]]%H2; [by left|right; split; [by right|done]]. }
      intros q [->|Hq]%elem_of_cons Hfq; [|by apply H4].
      apply Hs in Hin as (q' & Hq' & Hn). exists q'. auto.
    + destruct (IH ({[Name p]} ∪ s) (l ++ [p])) as (H1 & H2 & H3 & H4).
      { intros n. rewrite elem_of_union, elem_of_singleton, Hs. set_solver. }
      split_and!; [done| |set_solver|].
      * intros q Hq. apply H2 in Hq as [Hq|[]]; [apply elem_of_app in Hq; set_solver|set_solver].
      * intros q [->|Hq]%elem_of_cons Hfq; [exists p; set_solver|by apply H4].
    + destruct (IH s l Hs) as (H1 & H2 & H3 & H4). split_and!; [done| |done|].
      { intros q [?|[? ?]]%H2; [by left|right; split; [by right|done]]. }
      intros q [->|Hq]%elem_of_cons Hfq; [congruence|by apply H4].
Qed.

Lemma pick_all_spec regs ps s l :
  (∀ n, n ∈ s ↔ ∃ q, q ∈ l ∧ Name q = n) →
  let r := pick_all Name regs ps s l in
  (∀ n, n ∈ r.1 ↔ ∃ q, q ∈ r.2 ∧ Name q = n) ∧
  (∀ q, q ∈ r.2 → q ∈ l ∨ q ∈ ps ∧ existsb (λ f, f (Name q)) regs = true) ∧
  (∀ q, q ∈ l → q ∈ r.2) ∧
  (∀ q, q ∈ ps → existsb (λ f, f (Name q)) regs = true → ∃ q', q' ∈ r.2 ∧ Name q' = Name q).
Proof.
  revert s l. induction regs as [|f regs IH]; intros s l Hs; simpl.
  - split_and!; [done|by left|done|done].
  - destruct (pick Name f ps s l) as [s1 l1] eqn:Hp.
    destruct (pick_spec f ps s l Hs) as (P1 & P2 & P3 & P4). rewrite Hp in P1, P2, P3, P4. simpl in *.
    destruct (IH s1 l1 P1) as (H1 & H2 & H3 & H4). split_and!; [done| |auto|].
    + intros q Hq. apply H2 in Hq as [Hq|[Hq ->]]; [|right; split; [done|apply orb_true_r]].
      apply P2 in Hq as [Hq|[Hq ->]]; auto.
    + intros q Hq [Hf|Hf]%orb_true_iff; [|by apply H4].
      destruct (P4 q Hq Hf) as (q' & Hq' & Hn). exists q'. auto.
Qed.

Lemma pick_all_start regs ps :
  let l := (pick_all Name regs ps ∅ []).2 in
  (∀ q, q ∈ l → q ∈ ps ∧ existsb (λ f, f (Name q)) regs = true) ∧
  (∀ q, q ∈ ps → existsb (λ f, f (Name q)) regs = true → ∃ q', q' ∈ l ∧ Name q' = Name q).
Proof.
  destruct (pick_all_spec regs ps ∅ []) as (_ & H2 & _ & H4); [set_solver|].
  split; [|exact H4]. intros q [Hq%elem_of_nil|Hq]%H2; done.
Qed.

Lemma reorder_spec regs ps :
  (∀ q, q ∈ reorder Name regs ps → q ∈ ps) ∧
  (∀ q, q ∈ ps → ∃ q', q' ∈ reorder Name regs ps ∧ Name q' = Name q).
Proof.
  unfold reorder. destruct (pick_all_spec regs ps ∅ []) as (H1 & H2 & _ & _); [set_solver|].
  destruct (pick_all Name regs ps ∅ []) as [s l]. simpl in *.
  destruct (pick_spec (λ _, true) ps s l H1) as (_ & P2 & _ & P4). split.
  - intros q [Hq|[Hq _]]%P2; [|done]. apply H2 in Hq as [?%elem_of_nil|[]]; done.
  - intros q Hq. by apply P4.
Qed.

(** A name means one proxy among what the providers offer. *)
Definition names_unique pds : Prop :=
  ∀ p q, p ∈ concat (map Proxies pds) → q ∈ concat (map Proxies pds) → Name p = Name q → p = q.

Definition offered (gb : GroupBase (Px:=Px)) pds (p : Px) : Prop :=
  ∃ pd, pd ∈ pds ∧ p ∈ Proxies pd ∧
    (filterRegs gb = [] ∨ VehicleCompatible pd = true ∨ existsb (λ f, f (Name p)) (filterRegs gb) = true).

Lemma collect_spec gb pds p :
  names_unique pds → (p ∈ collect Name (filterRegs gb) pds ↔ offered gb pds p).
Proof.
  intros Hu. unfold collect, offered. destruct (filterRegs gb) as [|r regs] eqn:Hr.
  - rewrite elem_of_concat_map. naive_solver.
  - rewrite elem_of_concat_map. split.
    + intros (pd & Hpd & Hp). exists pd. destruct (VehicleCompatible pd); [by auto|].
      apply pick_all_start in Hp as [Hp Hf]. auto.
    + intros (pd & Hpd & Hp & Hf). exists pd. split; [done|].
      destruct (VehicleCompatible pd) eqn:Hv; [done|]. destruct Hf as [|[|Hf]]; [done..|].
      destruct (proj2 (pick_all_start (r :: regs) (Proxies pd)) p Hp Hf) as (q & Hq & Hn).
      assert (q = p) as ->; [|done]. apply Hu; [| |done].
      * apply elem_of_concat_map. exists pd. split; [done|]. by apply pick_all_start in Hq as [].
      * apply elem_of_concat_map. by exists pd.
Qed.

Lemma collect_sub gb pds p : p ∈ collect Name (filterRegs gb) pds → p ∈ concat (map Proxies pds).
Proof.
  unfold collect. destruct (filterRegs gb); [done|]. rewrite !elem_of_concat_map.
  intros (pd & Hpd & Hp). exists pd. split; [done|]. case_match; [done|]. by apply pick_all_start in Hp as [].
Qed.

(** The members of a group are exactly the proxies its providers offer
    whose name a filter accepts (any, if there is no filter or the provider is
    an inline one) and no exclusion, by name or by type, takes out. *)
Theorem group_members (gb : GroupBase (Px:=Px)) (pds : list (Provider (Px:=Px))) (p : Px) :
  names_unique pds →
  p ∈ members Name Type_ gb pds ↔
    offered gb pds p ∧ (∀ r, r ∈ excludeFilterRegs gb → r (Name p) = false) ∧
    (∀ t, t ∈ excludeTypeArray gb → EqualFold (AdapterType_String (Type_ p)) t = false).
Proof.
  intros Hu. unfold members.
  set (ps := collect Name (filterRegs gb) pds).
  set (ps' := if _ && _ then _ else ps).
  assert (p ∈ ps' ↔ p ∈ ps) as Hps.
  { unfold ps'. case_match; [|done]. destruct (reorder_spec (filterRegs gb) ps) as [R1 R2]. split; [apply R1|].
    intros Hp. destruct (R2 p Hp) as (q & Hq & Hn). assert (q = p) as ->; [|done].
    apply Hu; [by eapply collect_sub, R1|by eapply collect_sub|done]. }
  rewrite !list_elem_of_filter, !not_existsb, Hps. unfold ps. rewrite collect_spec by done. naive_solver.
Qed.

(** *** The cache *)

(** A provider whose list was replaced: [setProxies]. *)
Definition pd_update (ps : list Px) (pd : Provider (Px:=Px)) : Provider :=
  mkProvider (to_u32 (Version pd + 1)) ps (VehicleCompatible pd) (pv_Touched pd).

(** A group at work: [n] counts the updates of its providers. *)
Inductive group_run : nat → list (Provider (Px:=Px)) → GroupBase (Px:=Px) → Prop :=
| run_new pds filters excludes types timeout times fb :
    pds ≠ [] → Forall (λ pd, @in_type uint32 (Version pd)) pds →
    group_run 0 pds (NewGroupBase filters excludes types timeout times fb)
| run_update n pds gb i ps pd :
    group_run n pds gb → pds !! i = Some pd → group_run (S n) (<[i := pd_update ps pd]> pds) gb
| run_get n pds gb touch now ps pds' gb' :
    group_run n pds gb → GetProxies Name Type_ touch now pds gb = (ps, pds', gb') → group_run n pds' gb'
| run_failed n pds gb t err now :
    group_run n pds gb → group_run n pds (onDialFailed t err now gb).2
| run_success n pds gb : group_run n pds gb → group_run n pds (onDialSuccess gb)
| run_health_start n pds gb : group_run n pds gb → group_run n pds (health_check_start gb).2
| run_health_end n pds gb : group_run n pds gb → group_run n pds (health_check_end gb).

(** [pd] is [pd0] after at most [n] updates. *)
Definition aged (n : nat) (pd0 pd : Provider (Px:=Px)) : Prop :=
  ∃ k, k ≤ n ∧ @in_type uint32 (Version pd0) ∧ Version pd = to_u32 (Version pd0 + Z.of_nat k) ∧
    VehicleCompatible pd = VehicleCompatible pd0 ∧ (k = 0 → Proxies pd = Proxies pd0).

Lemma aged_refl pd : @in_type uint32 (Version pd) → aged 0 pd pd.
Proof. intros Hv. exists 0. rewrite Z.add_0_r, wrap_id by done. by split_and!. Qed.

Lemma aged_weaken n m pd0 pd : n ≤ m → aged n pd0 pd → aged m pd0 pd.
Proof. intros Hnm (k & Hk & H). exists k. split; [lia|exact H]. Qed.

Lemma aged_update n pd0 pd ps : aged n pd0 pd → aged (S n) pd0 (pd_update ps pd).
Proof.
  intros (k & Hk & Hv & Hw & Hc & _). exists (S k). split_and!; [lia|done| |done|lia].
  simpl. rewrite Hw, wrap_add_wrap by done. f_equal. lia.
Qed.

Lemma aged_touch n pd0 pd now : aged n pd0 pd → aged n pd0 (pd_Touch now pd).
Proof. done. Qed.

(** Fewer than [2 ^ 32] updates do not bring a version back. *)
Lemma aged_same n pd0 pd :
  (Z.of_nat n < 2 ^ 32)%Z → aged n pd0 pd → Version pd = Version pd0 → Proxies pd = Proxies pd0.
Proof.
  intros Hn (k & Hk & Hv & Hw & _ & Hp) Heq. apply Hp. rewrite Heq in Hw.
  unfold wrap, in_type, tmin, tmax in *. simpl in *. rewrite Z.sub_0_r, Z.add_0_r in Hw.
  destruct (Z_lt_le_dec (Version pd0 + Z.of_nat k) (2 ^ 32)) as [Hlt|Hge].
  - rewrite Z.mod_small in Hw by lia. lia.
  - rewrite <- (Z.mod_add _ (-1)) in Hw by lia. rewrite Z.mod_small in Hw by lia. lia.
Qed.

Lemma members_ext gb pds pds' :
  Forall2 (λ pd pd', Proxies pd = Proxies pd' ∧ VehicleCompatible pd = VehicleCompatible pd') pds pds' →
  members Name Type_ gb pds = members Name Type_ gb pds'.
Proof.
  intros H. assert (collect Name (filterRegs gb) pds = collect Name (filterRegs gb) pds') as Hc.
  { unfold collect. destruct (filterRegs gb) as [|r l]; f_equal.
    - induction H as [|pd pd' ? ? [Hp Hv] _ IH]; simpl; [done|]. by rewrite Hp, IH.
    - induction H as [|pd pd' ? ? [Hp Hv] _ IH]; [done|]. cbn [map]. f_equal; [by rewrite Hp, Hv|exact IH]. }
  unfold members. by rewrite Hc, (Forall2_length _ _ _ H).
Qed.

Lemma members_config gb gb' pds :
  filterRegs gb = filterRegs gb' → excludeFilterRegs gb = excludeFilterRegs gb' →
  excludeTypeArray gb = excludeTypeArray gb' → members Name Type_ gb pds = members Name Type_ gb' pds.
Proof. unfold members. by intros -> -> ->. Qed.

(** Nothing is cached, or what some earlier state of the providers gave. *)
Definition cache_ok (n : nat) pds gb : Prop :=
  pds ≠ [] ∧ Forall (λ pd, @in_type uint32 (Version pd)) pds ∧
  (providerVersions gb = [] ∨
   ∃ pds0, Forall2 (aged n) pds0 pds ∧ providerVersions gb = map Version pds0 ∧
     providerProxies gb = members Name Type_ gb pds0 ∧ providerProxies gb ≠ []).

Lemma cache_ok_config n pds gb gb' :
  filterRegs gb = filterRegs gb' → excludeFilterRegs gb = excludeFilterRegs gb' →
  excludeTypeArray gb = excludeTypeArray gb' → providerVersions gb = providerVersions gb' →
  providerProxies gb = providerProxies gb' → cache_ok n pds gb → cache_ok n pds gb'.
Proof.
  intros H1 H2 H3 H4 H5 (Hne & Hv & Hc). split_and!; [done..|]. rewrite <- H4, <- H5.
  destruct Hc as [?|(pds0 & Ha & Hpv & Hpp & Hnn)]; [by left|right]. exists pds0. split_and!; [done..| |done].
  rewrite Hpp. by apply members_config.
Qed.

Lemma cache_ok_touch n now pds gb : cache_ok n pds gb → cache_ok n (Touch now pds) gb.
Proof.
  intros (Hne & Hv & Hc). split_and!.
  - by destruct pds.
  - unfold Touch. apply Forall_fmap. exact Hv.
  - destruct Hc as [?|(pds0 & Ha & H)]; [by left|right]. exists pds0. split; [|exact H].
    unfold Touch. apply Forall2_fmap_r. eapply Forall2_impl; [exact Ha|]. intros ??. apply aged_touch.
Qed.

Lemma get_proxies_fresh n touch now pds gb ps pds' gb' :
  cache_ok n pds gb → (Z.of_nat n < 2 ^ 32)%Z → GetProxies Name Type_ touch now pds gb = (ps, pds', gb') →
  ps = match members Name Type_ gb pds' with [] => [EmptyFallback gb] | l => l end ∧ cache_ok n pds' gb'.
Proof.
  intros Hok Hn. unfold GetProxies. set (pds1 := if touch then _ else pds).
  assert (cache_ok n pds1 gb) as Hok1 by (unfold pds1; destruct touch; [by apply cache_ok_touch|done]).
  clearbody pds1. pose proof Hok1 as (Hne & Hv & Hc). case_bool_decide as Hver.
  - intros [= <- <- <-]. split; [|done].
    destruct Hc as [He|(pds0 & Ha & Hpv & Hpp & Hnn)].
    { rewrite He in Hver. by destruct pds1. }
    assert (members Name Type_ gb pds0 = members Name Type_ gb pds1) as Hm.
    { apply members_ext. rewrite Hpv in Hver. clear -Ha Hver Hn Name Type_ EqDecision0.
      induction Ha as [|pd0 pd l0 l H _ IH]; [constructor|]. simpl in Hver. injection Hver as Hv1 Hv2.
      constructor; [|by apply IH]. split; [symmetry; by eapply aged_same|]. by destruct H as (? & ? & ? & ? & -> & ?). }
    rewrite Hm in Hpp. rewrite <- Hpp. by destruct (providerProxies gb).
  - destruct (members Name Type_ gb pds1) as [|m ms] eqn:Hm; intros [= <- <- <-]; rewrite ?Hm; (split; [done|]); [done|].
    split_and!; [done..|]. right. exists pds1. simpl. split_and!; [|done| |done].
    + clear -Hv Name Type_ EqDecision0. induction Hv as [|pd l H _ IH]; constructor; [|done].
      eapply aged_weaken; [|by apply aged_refl]. lia.
    + rewrite <- Hm. by apply members_config.
Qed.

Lemma group_run_ok n pds gb : group_run n pds gb → (Z.of_nat n < 2 ^ 32)%Z → cache_ok n pds gb.
Proof.
  induction 1 as [pds filters excludes types timeout times fb Hne Hv|n pds gb i ps pd _ IH Hi|
    n pds gb touch now ps pds' gb' _ IH Hg|n pds gb t err now _ IH|n pds gb _ IH|n pds gb _ IH|n pds gb _ IH]; intros Hn.
  - split_and!; [done..|by left].
  - destruct IH as (Hne & Hv & Hc); [lia|]. split_and!.
    + intros Hnil. apply (f_equal length) in Hnil. rewrite length_insert in Hnil. by destruct pds.
    + apply Forall_insert; [done|]. simpl; auto with ints.
    + destruct Hc as [?|(pds0 & Ha & H)]; [by left|right]. exists pds0. split; [|exact H].
      assert (Forall2 (aged (S n)) pds0 pds) as Ha'.
      { eapply Forall2_impl; [exact Ha|]. intros ??. apply aged_weaken. lia. }
      destruct (Forall2_lookup_r _ _ _ _ _ Ha Hi) as (pd0 & Hpd0 & Hage).
      rewrite <- (list_insert_id pds0 i pd0) by done. apply Forall2_insert; [done|]. by apply aged_update.
  - eapply get_proxies_fresh; [by apply IH|done|exact Hg].
  - apply IH in Hn. eapply cache_ok_config; [..|exact Hn]; unfold onDialFailed; repeat (case_match; try done).
  - apply IH in Hn. eapply cache_ok_config; [..|exact Hn]; unfold onDialSuccess; by case_match.
  - apply IH in Hn. eapply cache_ok_config; [..|exact Hn]; unfold health_check_start; by case_match.
  - apply IH in Hn. eapply cache_ok_config; [..|exact Hn]; done.
Qed.

(** Over any run of a group with fewer than [2 ^ 32] updates of its
    providers, the list it answers, cached or not, is the one the providers
    give at that moment, its fallback alone when they give none: the cache is
    never stale and the list never empty. *)
Theorem group_cache_fresh n pds gb touch now ps pds' gb' :
  group_run n pds gb → (Z.of_nat n < 2 ^ 32)%Z → GetProxies Name Type_ touch now pds gb = (ps, pds', gb') →
  ps = match members Name Type_ gb pds' with [] => [EmptyFallback gb] | l => l end ∧ ps ≠ [].
Proof.
  intros Hr Hn Hg. eapply get_proxies_fresh in Hg as [-> _]; [|by apply group_run_ok|done].
  split; [done|]. by destruct (members Name Type_ gb pds').
Qed.

(** *** Choosing *)

Implicit Types (h : Healths (Px:=Px)).

(** The first proxy alive for a URL. *)
Definition first_alive h (url : string) ps : option Px := head (filter (λ p, AliveForTestUrl url (h p) = true) ps).

Lemma first_alive_cons h url p ps :
  first_alive h url (p :: ps) = if AliveForTestUrl url (h p) then Some p else first_alive h url ps.
Proof. unfold first_alive. rewrite filter_cons. by destruct (AliveForTestUrl url (h p)). Qed.

Lemma find_alive_free h url ps : find_alive Name h url "" ps = (first_alive h url ps, "").
Proof.
  induction ps as [|p ps IH]; [done|]. rewrite first_alive_cons. simpl.
  by destruct (AliveForTestUrl url (h p)).
Qed.

Lemma find_alive_skip h url sel l ps :
  sel ≠ "" → Forall (λ q, Name q ≠ sel) l → find_alive Name h url sel (l ++ ps) = find_alive Name h url sel ps.
Proof.
  intros Hs. induction 1 as [|q l Hq _ IH]; [done|]. simpl.
  by rewrite !bool_decide_eq_false_2 by done.
Qed.

(** What a fallback group chooses from its list: with nothing pinned the
    first member alive; with a member pinned, that member if it is alive, and
    otherwise the pin is dropped and the first member alive {e after} it is
    taken; with a pin no member has the name of, health is not looked at.
    Whenever the search finds nothing the head of the list is taken, alive or
    not. *)
Theorem fallback_choice h touch now pds (f : Fallback (Px:=Px)) ps pds' gb :
  GetProxies Name Type_ touch now pds (f_base f) = (ps, pds', gb) →
  let url := f_testUrl f in
  let or_head (o : option Px) := match o with Some p => Some p | None => head ps end in
  (f_selected f = "" → findAliveProxy Name Type_ h touch now pds f = (or_head (first_alive h url ps), pds', f_with gb "" f)) ∧
  (∀ l p r, f_selected f = Name p → Name p ≠ "" → ps = l ++ p :: r → Forall (λ q, Name q ≠ Name p) l →
    findAliveProxy Name Type_ h touch now pds f =
      if AliveForTestUrl url (h p) then (Some p, pds', f_with gb (Name p) f)
      else (or_head (first_alive h url r), pds', f_with gb "" f)) ∧
  (f_selected f ≠ "" → Forall (λ q, Name q ≠ f_selected f) ps →
    findAliveProxy Name Type_ h touch now pds f = (head ps, pds', f_with gb (f_selected f) f)).
Proof.
  intros Hg url or_head. unfold findAliveProxy. rewrite Hg. split_and!.
  - intros ->. by rewrite find_alive_free.
  - intros l p r -> Hne -> Hl. rewrite find_alive_skip by done. cbn [find_alive].
    rewrite bool_decide_eq_false_2, bool_decide_eq_true_2 by done.
    unfold url. destruct (AliveForTestUrl _ _); [done|]. by rewrite find_alive_free.
  - intros Hne Hps. rewrite <- (app_nil_r ps), find_alive_skip by done. rewrite app_nil_r. done.
Qed.

(** *** Failed dials *)

(** Dials that fail one after the other, with the type of the proxy; the number
    of calls for a health check. *)
Fixpoint failures (t : AdapterType) (times : list Z) gb : list bool * GroupBase (Px:=Px) :=
  match times with
  | [] => ([], gb)
  | now :: times' =>
    let '(b, gb1) := onDialFailed t OtherFailure now gb in
    let '(bs, gb2) := failures t times' gb1 in
    (b :: bs, gb2)
  end.

Lemma failures_counting t times gb t0 :
  ignored_type t = false → (0 < failedTimes gb)%Z → failedTime gb = t0 →
  Forall (λ now, now - t0 ≤ testTimeout gb * 1000000)%Z times →
  (failures t times gb).1 = imap (λ i _, bool_decide (maxFailedTimes gb ≤ failedTimes gb + Z.of_nat i + 1)%Z) times.
Proof.
  intros Ht. revert gb. induction times as [|now times IH]; intros gb Hpos Ht0 Hall; [done|].
  apply Forall_cons in Hall as [Hnow Hall]. cbn [failures imap]. unfold onDialFailed. rewrite Ht, Ht0.
  destruct (Z.eqb_spec (failedTimes gb + 1) 1); [lia|].
  destruct (Z.ltb_spec (testTimeout gb * 1000000) (now - t0)); [lia|].
  specialize (IH (with_failures (failedTimes gb + 1) t0 gb)). cbn [failedTimes failedTime testTimeout maxFailedTimes with_failures] in IH.
  destruct (failures t times _) as [bs gb2]. simpl in *. rewrite IH by (done || lia). f_equal.
  - apply eq_bool_prop_intro. rewrite bool_decide_spec, Is_true_true, Z.leb_le. lia.
  - apply imap_ext. intros i x _. simpl. apply bool_decide_ext. lia.
Qed.

(** When dials through a group start to fail, the health check is asked for
    exactly from the failure that brings their number to [max-failed-times] on,
    as long as they stay within the test timeout of the first one; but never by
    the first failure, even with a maximum of one. *)
Theorem dial_failures_check t first times gb :
  ignored_type t = false → failedTimes gb = 0%Z →
  Forall (λ now, now - first ≤ testTimeout gb * 1000000)%Z times →
  (failures t (first :: times) gb).1 =
    false :: imap (λ i _, bool_decide (maxFailedTimes gb ≤ Z.of_nat i + 2)%Z) times.
Proof.
  intros Ht H0 Hall. cbn [failures]. unfold onDialFailed. rewrite Ht, H0. simpl.
  pose proof (failures_counting t times (with_failures 1 first gb) first Ht) as Hf.
  cbn [failedTimes failedTime testTimeout maxFailedTimes with_failures] in Hf.
  destruct (failures t times _) as [bs gb2]. simpl in *. rewrite Hf by (done || lia). f_equal.
  apply imap_ext. intros i x _. apply bool_decide_ext. lia.
Qed.

(** *** The URL test *)

Section Fast.
Context (h : Healths (Px:=Px)) (url : string).

Definition delay_of (p : Px) : Z := LastDelayForTestUrl url (h p).

(** The name of the current node is one of the list's. *)
Definition seen_in (node : option Px) ps : bool :=
  match node with Some n => bool_decide (Name n ∈ map Name ps) | None => false end.

Lemma fast_loop_spec node ps fast minDelay ne :
  minDelay = delay_of fast →
  let r := fast_loop Name h url node ps fast minDelay ne in
  (r.1 = fast ∨ r.1 ∈ ps ∧ AliveForTestUrl url (h r.1) = true) ∧
  (delay_of r.1 ≤ delay_of fast)%Z ∧
  (∀ q, q ∈ ps → AliveForTestUrl url (h q) = true → (delay_of r.1 ≤ delay_of q)%Z) ∧
  r.2 = ne && negb (seen_in node ps).
Proof.
  revert fast minDelay ne. induction ps as [|p ps IH]; intros fast minDelay ne ->; simpl.
  - split_and!; [by left|lia|by intros q ?%elem_of_nil|].
    unfold seen_in. destruct node; simpl; rewrite ?bool_decide_eq_false_2 by apply not_elem_of_nil; by rewrite andb_true_r.
  - set (ne' := if (match node with Some n => bool_decide (Name p = Name n) | None => false end) then false else ne).
    assert (ne' && negb (seen_in node ps) = ne && negb (seen_in node (p :: ps))) as Hne.
    { unfold ne', seen_in. destruct node as [n|]; [|done]. cbn [map].
      rewrite (bool_decide_ext (Name n ∈ Name p :: map Name ps) (Name n = Name p ∨ Name n ∈ map Name ps)) by apply elem_of_cons.
      rewrite bool_decide_or, (bool_decide_ext (Name n = Name p) (Name p = Name n)) by done.
      case_bool_decide; simpl; [by rewrite andb_false_r|done]. }
    destruct (AliveForTestUrl url (h p)) eqn:Ha; simpl; [fold (delay_of p); destruct (Z.ltb_spec (delay_of p) (delay_of fast))|].
    + destruct (IH p (delay_of p) ne' eq_refl) as (H1 & H2 & H3 & H4). split_and!.
      * right. destruct H1 as [->|[H1 Hal]]; [by split; [left|]|split; [by right|done]].
      * lia.
      * intros q [->|Hq]%elem_of_cons Hal; [done|by apply H3].
      * by rewrite H4.
    + destruct (IH fast (delay_of fast) ne' eq_refl) as (H1 & H2 & H3 & H4). split_and!.
      * destruct H1 as [->|[H1 Hal]]; [by left|right; split; [by right|done]].
      * done.
      * intros q [->|Hq]%elem_of_cons Hal; [lia|by apply H3].
      * by rewrite H4.
    + destruct (IH fast (delay_of fast) ne' eq_refl) as (H1 & H2 & H3 & H4). split_and!.
      * destruct H1 as [->|[H1 Hal]]; [by left|right; split; [by right|done]].
      * done.
      * intros q [->|Hq]%elem_of_cons Hal; [congruence|by apply H3].
      * by rewrite H4.
Qed.
End Fast.

(** What a URL-test group without a live selection chooses: a member (or
    the node it had) whose delay is within the tolerance of every live
    member's; the node it had stays while it is a live member after the first
    and within the tolerance of all; but the {e first} member is left, whatever
    the tolerance, as soon as another live one is faster at all, because only
    the members after the first are looked through for the current node. *)
Theorem url_test_choice h url selected tol (node : option Px) p0 ps (p : Px) :
  (selected = "" ∨ find_selected Name h url selected (p0 :: ps) = None) → (0 ≤ tol)%Z →
  (∀ q, 0 ≤ delay_of h url q)%Z →
  fast_choice Name h url selected tol node (p0 :: ps) = Some p →
  (p ∈ p0 :: ps ∨ node = Some p) ∧
  (∀ q, q ∈ p0 :: ps → AliveForTestUrl url (h q) = true → delay_of h url p ≤ delay_of h url q + tol)%Z ∧
  (∀ n, node = Some n → n ∈ ps → AliveForTestUrl url (h n) = true → (delay_of h url n + tol ≤ 65535)%Z →
     (∀ q, q ∈ p0 :: ps → delay_of h url n ≤ delay_of h url q + tol)%Z → p = n) ∧
  (node = Some p0 → Name p0 ∉ map Name ps →
     ∀ q, q ∈ ps → AliveForTestUrl url (h q) = true → (delay_of h url p ≤ delay_of h url q)%Z).
Proof.
  intros Hsel Htol Hnn. unfold fast_choice.
  replace (if bool_decide (selected = "") then None else find_selected Name h url selected (p0 :: ps)) with (@None Px)
    by (destruct Hsel as [->|Hf]; [done|rewrite Hf; by case_match]).
  fold (delay_of h url p0).
  pose proof (fast_loop_spec h url node ps p0 (delay_of h url p0) true eq_refl) as Hspec. cbv zeta in Hspec.
  destruct (fast_loop Name h url node ps p0 (delay_of h url p0) true) as [f ne]. cbn [fst snd] in Hspec.
  destruct Hspec as (Hin & Hp0 & Hmin & Hne).
  assert (f ∈ p0 :: ps) as Hf by (destruct Hin as [->|[Hin _]]; [by left|by right]).
  assert (∀ q, q ∈ p0 :: ps → AliveForTestUrl url (h q) = true → (delay_of h url f ≤ delay_of h url q)%Z) as Hbest.
  { intros q [->|Hq]%elem_of_cons Hal; [done|by apply Hmin]. }
  destruct node as [n|].
  - fold (delay_of h url f) (delay_of h url n).
    assert (to_u16 (delay_of h url f + tol) ≤ delay_of h url f + tol)%Z as Hw.
    { unfold wrap, tmin. simpl. rewrite Z.sub_0_r, Z.add_0_r. apply Z.mod_le; [specialize (Hnn f)|]; lia. }
    destruct (ne || negb (AliveForTestUrl url (h n)) || (to_u16 (delay_of h url f + tol) <? delay_of h url n)%Z) eqn:Hc;
      intros [= <-].
    + split_and!; [by left| | |].
      * intros q Hq Hal. specialize (Hbest q Hq Hal). lia.
      * intros n' [= <-] Hn Hal Hle Hall.
        rewrite Hne in Hc. unfold seen_in in Hc. rewrite Hal, bool_decide_eq_true_2 in Hc by (by apply list_elem_of_In, in_map, list_elem_of_In).
        simpl in Hc. apply Z.ltb_lt in Hc. specialize (Hbest n ltac:(by right) Hal). specialize (Hall f Hf).
        rewrite wrap_id in Hc; [lia|]. specialize (Hnn f). int_lia.
      * intros _ _ q Hq Hal. by apply Hmin.
    + apply orb_false_iff in Hc as [[Hc1 Hc2]%orb_false_iff Hc3%Z.ltb_ge].
      split_and!; [by right| | |].
      * intros q Hq Hal. specialize (Hbest q Hq Hal). lia.
      * intros n' [= <-]. done.
      * intros [= ->] Hnin q Hq Hal. rewrite Hne in Hc1. unfold seen_in in Hc1.
        by rewrite bool_decide_eq_false_2 in Hc1.
  - intros [= <-]. split_and!; [by left| |done|done].
    intros q Hq Hal. specialize (Hbest q Hq Hal). lia.
Qed.

End Laws.

(** ** Examples *)

Definition demo_px (n : string) : string := n.

Definition demo_type (_ : string) : AdapterType := AVmess.

Definition demo_filter (n : string) : bool := HasPrefix n "hk".

Definition demo_pds : list (Provider (Px:=string)) := [mkProvider 7 ["hk1"; "us1"; "hk2"] false 0].

Definition demo_gb : GroupBase := NewGroupBase [demo_filter] [λ n, HasSuffix n "2"] [] 0 0 "DIRECT"%string.

(** A member with the delay [d] for the URL [u], dead if [d] is 0. *)
Definition demo_health (d : Z) : ProxyHealth := record_test "u" 0 (d =? 0)%Z d true NewProxy.

Definition demo_healths (l : list (string * Z)) (n : string) : ProxyHealth :=
  demo_health (default 0%Z (snd <$> head (filter (λ x, x.1 = n) l))).

Lemma group_members_witness :
  names_unique demo_px demo_pds ∧
  ("hk1"%string ∈ members demo_px demo_type demo_gb demo_pds ↔
    offered demo_px demo_gb demo_pds "hk1" ∧ (∀ r, r ∈ excludeFilterRegs demo_gb → r (demo_px "hk1") = false) ∧
    (∀ t, t ∈ excludeTypeArray demo_gb → EqualFold (AdapterType_String (demo_type "hk1")) t = false)).
Proof.
  assert (names_unique demo_px demo_pds) as Hu by (intros p q _ _ H; exact H).
  split; [exact Hu|]. exact (group_members demo_px demo_type demo_gb demo_pds "hk1" Hu).
Defined.

Lemma group_cache_fresh_witness :
  ∃ ps pds' gb', GetProxies demo_px demo_type false 0 demo_pds demo_gb = (ps, pds', gb') ∧
    ps = ["hk1"%string] ∧ ps ≠ [].
Proof.
  eexists _, _, _. split; [vm_compute; reflexivity|]. split; [reflexivity|].
  refine (proj2 (group_cache_fresh demo_px demo_type 0 demo_pds demo_gb false 0 ["hk1"%string] _ _ _ _ _)).
  - apply run_new; [done|]. constructor; [vm_compute; split; discriminate|constructor].
  - vm_compute. reflexivity.
  - vm_compute. reflexivity.
Defined.

Definition demo_group : GroupBase := NewGroupBase [] [] [] 0 0 "DIRECT"%string.

Definition demo_fallback (selected : string) : Fallback := mkFallback demo_group false "u" selected "".

(** The pinned [us1] is dead: [hk2] is taken though [hk1] is alive too. *)
Lemma fallback_choice_witness :
  findAliveProxy demo_px demo_type (demo_healths [("hk1", 50%Z); ("hk2", 90%Z)]) false 0 demo_pds (demo_fallback "us1") =
    (Some "hk2"%string, demo_pds, f_with (with_cache [7%Z] ["hk1"; "us1"; "hk2"]%string demo_group) "" (demo_fallback "us1")).
Proof.
  destruct (fallback_choice demo_px demo_type (demo_healths [("hk1", 50%Z); ("hk2", 90%Z)]) false 0 demo_pds
    (demo_fallback "us1") ["hk1"; "us1"; "hk2"]%string demo_pds
    (with_cache [7%Z] ["hk1"; "us1"; "hk2"]%string demo_group) eq_refl) as (_ & H & _).
  rewrite (H ["hk1"%string] "us1"%string ["hk2"%string]); [vm_compute; reflexivity|done..|].
  repeat constructor. done.
Defined.

Lemma dial_failures_check_witness :
  (failures AVmess [100; 200; 300; 400; 500]%Z demo_group).1 = [false; false; false; false; true].
Proof.
  rewrite (dial_failures_check demo_px demo_type AVmess 100 [200; 300; 400; 500]%Z demo_group); [vm_compute; reflexivity|done|done|].
  repeat constructor; vm_compute; discriminate.
Defined.

(** A first member of 100 ms loses to 99 ms in spite of a tolerance of 50 ms. *)
Lemma url_test_choice_witness :
  fast_choice demo_px (demo_healths [("a", 100%Z); ("b", 99%Z)]) "u" "" 50 (Some "a"%string) ["a"; "b"]%string = Some "b"%string ∧
  (delay_of (demo_healths [("a", 100%Z); ("b", 99%Z)]) "u" "b" ≤ 99)%Z.
Proof.
  split; [vm_compute; reflexivity|].
  refine (proj2 (proj2 (proj2 (url_test_choice demo_px demo_type (demo_healths [("a", 100%Z); ("b", 99%Z)]) "u" "" 50
    (Some "a"%string) "a" ["b"%string] "b" (or_introl eq_refl) _ _ _))) eq_refl _ "b"%string _ _).
  - done.
  - intros q. unfold delay_of, demo_healths, demo_health.
    destruct (head (filter (λ x, x.1 = q) [("a", 100%Z); ("b", 99%Z)])) as [[? d]|] eqn:Hd; simpl; [|vm_compute; discriminate].
    apply head_Some_elem_of, list_elem_of_filter in Hd as [_ Hd].
    apply elem_of_cons in Hd as [[= -> ->]|Hd%list_elem_of_singleton]; [vm_compute; discriminate|].
    injection Hd as -> ->. vm_compute. discriminate.
  - vm_compute. reflexivity.
  - vm_compute. intros Hx. by apply list_elem_of_singleton in Hx.
  - by left.
  - vm_compute. reflexivity.
Defined.
