(* ===== verification/Balance.v ===== *)
(** * Load balancing: [adapter/outboundgroup/loadbalance.go]

    Jump consistent hashing, with the floating-point arithmetic of the code
    written out, and the three strategies.  The hash of a key and the clock are
    arguments.  [jumpHash] divides and multiplies float64 numbers between 1 and
    [2 ^ 62]: no operation there overflows or loses precision to subnormals, so
    a float is its significand and exponent, and an operation is the exact
    result rounded to 53 bits, ties to even. *)

From Stdlib Require Import ZArith Lia Ascii String.
From stdpp Require Import prelude strings gmap list.
From S2P Require Import Prelude Netip Metadata Health Lru Groups.
Local Open Scope go_scope.

(** ** Floating point *)

(** The value [fm * 2 ^ fe]. *)
Record float := mkFloat { fm : Z; fe : Z }.

(** Nearest integer to [n / d], ties to even. *)
Definition round_nearest (n d : Z) : Z :=
  let q := (n / d)%Z in
  let r := (n mod d)%Z in
  if (2 * r <? d)%Z then q
  else if (d <? 2 * r)%Z then (q + 1)%Z
  else if Z.even q then q else (q + 1)%Z.

(** [n / (d * 2 ^ e)] as a fraction. *)
Definition scale (n d e : Z) : Z * Z := ((n * 2 ^ Z.max 0 (- e))%Z, (d * 2 ^ Z.max 0 e)%Z).

(** The float nearest to [n / d], both positive. *)
Definition round53 (n d : Z) : float :=
  let e := (Z.log2 n - Z.log2 d - 52)%Z in
  let '(n1, d1) := scale n d e in
  let e := if (n1 <? 2 ^ 52 * d1)%Z then (e - 1)%Z else e in
  let '(n2, d2) := scale n d e in
  mkFloat (round_nearest n2 d2) e.

(** [a * b], the first operand an integer. *)
Definition float_mul_int (a : Z) (b : float) : float :=
  if (fe b <? 0)%Z then round53 (a * fm b) (2 ^ (- fe b)) else round53 (a * fm b * 2 ^ fe b) 1.

(** [int64(f)]. *)
Definition float_trunc (f : float) : Z := if (fe f <? 0)%Z then (fm f / 2 ^ (- fe f))%Z else (fm f * 2 ^ fe f)%Z.

(** ** Jump consistent hashing *)

(** [key * 2862933555777941757 + 1] in 64 bits. *)
Definition next_key (key : Z) : Z := to_u64 (key * 2862933555777941757 + 1).

(** [int64(float64(b+1) * (float64(int64(1)<<31) / float64((key>>33)+1)))]. *)
Definition next_jump (key b : Z) : Z :=
  float_trunc (float_mul_int (b + 1) (round53 (2 ^ 31) (Z.shiftr key 33 + 1))).

Fixpoint jump_loop (fuel : nat) (key b j buckets : Z) : option Z :=
  if (j <? buckets)%Z then
    match fuel with
    | O => None
    | S fuel' =>
      let key' := next_key key in
      jump_loop fuel' key' j (next_jump key' j) buckets
    end
  else Some b.

(** The loop ends after at most one turn per bucket. *)
Definition jumpHash (key buckets : Z) : option Z := jump_loop (Z.to_nat buckets) key 0 0 buckets.

(** ** Strategies *)

Section Balance.
Context {Px : Type}.
Context (alive : Px → bool).

(** [AliveForTestUrl(url)] is [alive].  A result of [None] is a panic, of an
    index out of range or a division by zero, on an empty list. *)

(** The loop of the round robin from turn [i] on, with [n] turns left: the
    proxy found and the turns taken. *)
Fixpoint rr_loop (idx length : nat) (proxies : list Px) (n i : nat) : option Px * nat :=
  match n with
  | O => (None, i)
  | S n' =>
    match proxies !! ((idx + i) mod length) with
    | Some proxy => if alive proxy then (Some proxy, S i) else rr_loop idx length proxies n' (S i)
    | None => (None, i)
    end
  end.

(** The proxy and the index kept for the next call. *)
Definition strategyRoundRobin (proxies : list Px) (touch : bool) (idx : nat) : option Px * nat :=
  let length := length proxies in
  let '(found, i) := rr_loop idx length proxies length 0 in
  (match found with Some p => Some p | None => head proxies end, if touch then (idx + i) mod length else idx).

Definition first_alive (proxies : list Px) : option Px := head (filter (λ p, alive p = true) proxies).

(** The proxy jump hashing gives for a key. *)
Definition pick_hash (key : Z) (proxies : list Px) : option Px :=
  idx ← jumpHash key (Z.of_nat (length proxies)); proxies !! Z.to_nat idx.

(** [n] attempts from [key] on; the outer [None] is a panic. *)
Fixpoint hash_attempts (n : nat) (key : Z) (proxies : list Px) : option (option Px) :=
  match n with
  | O => Some None
  | S n' =>
    proxy ← pick_hash key proxies;
    if alive proxy then Some (Some proxy) else hash_attempts n' (to_u64 (key + 1)) proxies
  end.

(** [key] is the hash of [getKey(metadata)]. *)
Definition strategyConsistentHashing (proxies : list Px) (key : Z) : option Px :=
  found ← hash_attempts 5 key proxies;
  match found with
  | Some p => Some p
  | None => match first_alive proxies with Some p => Some p | None => head proxies end
  end.

(** The cache of the sticky sessions: ten minutes, a thousand keys. *)
Definition sticky_cache : list (Options → Options) := [WithAge 600; WithSize 1000].

Definition new_sticky (h : heap Z Z) : lstate Z Z := Lru.New h sticky_cache.

(** The attempts at a live proxy, [n] of them; [nano] gives the clock reading
    each one hashes.  The result is the index to store, if any, and the proxy. *)
Fixpoint sticky_loop (n : nat) (key : Z) (has : bool) (idx nowIdx : Z) (nano : list Z) (proxies : list Px)
    : option (option Z * Px) :=
  match n with
  | O => p ← head proxies; Some (Some 0%Z, p)
  | S n' =>
    proxy ← proxies !! Z.to_nat nowIdx;
    if alive proxy then
      Some (if negb has || negb (nowIdx =? idx)%Z then Some nowIdx else None, proxy)
    else
      nowIdx' ← jumpHash (to_u64 (key + to_u64 (default 0%Z (head nano)))) (Z.of_nat (length proxies));
      sticky_loop n' key has idx nowIdx' (tail nano) proxies
  end.

(** [key] is the hash of source and destination, [now] the time in seconds the
    cache reads, [nano] the clock readings of this call. *)
Definition strategyStickySessions (proxies : list Px) (key now : Z) (nano : list Z) (st : lstate Z Z)
    : option (Px * lstate Z Z) :=
  let '(cached, st1) := Lru.Get key now st in
  '(has, idx, nano') ←
    match cached with
    | Some i =>
      if (i <? Z.of_nat (length proxies))%Z then Some (true, i, nano)
      else i' ← jumpHash (to_u64 (key + to_u64 (default 0%Z (head nano)))) (Z.of_nat (length proxies));
           Some (true, i', tail nano)
    | None =>
      i' ← jumpHash (to_u64 (key + to_u64 (default 0%Z (head nano)))) (Z.of_nat (length proxies));
      Some (false, i', tail nano)
    end;
  '(store, p) ← sticky_loop 4 key has idx idx nano' proxies;
  Some (p, match store with Some i => Lru.Set_ key i now st1 | None => st1 end).

End Balance.

(** ** Lemmas *)

(** *** Rounding *)

Lemma round_nearest_ge n d k : (0 < d)%Z → (k * d ≤ n)%Z → (k ≤ round_nearest n d)%Z.
Proof.
  intros Hd Hk. assert (k ≤ n / d)%Z by (apply Z.div_le_lower_bound; lia).
  unfold round_nearest. repeat case_match; lia.
Qed.

Lemma round_nearest_le n d : (0 < d)%Z → (round_nearest n d * d ≤ n + d)%Z.
Proof.
  intros Hd. pose proof (Z.mul_div_le n d Hd). unfold round_nearest. repeat case_match; nia.
Qed.

(** The exponent leaves a quotient of at least 53 bits. *)
Lemma round53_spec n d :
  (0 < n)%Z → (0 < d)%Z →
  ∃ e n2 d2, scale n d e = (n2, d2) ∧ round53 n d = mkFloat (round_nearest n2 d2) e ∧
    (2 ^ 52 * d2 ≤ n2)%Z ∧ (0 < d2)%Z ∧ (e ≤ Z.log2 n - Z.log2 d - 52)%Z.
Proof.
  intros Hn Hd. unfold round53. set (e0 := (Z.log2 n - Z.log2 d - 52)%Z).
  destruct (scale n d e0) as [n1 d1] eqn:H1.
  assert (∀ e n' d', scale n d e = (n', d') → 0 < d')%Z as Hpos.
  { intros e n' d' [= <- <-]. pose proof (Z.pow_pos_nonneg 2 (Z.max 0 e)). nia. }
  destruct (Z.ltb_spec n1 (2 ^ 52 * d1)) as [Hlt|Hge].
  - destruct (scale n d (e0 - 1)) as [n2 d2] eqn:H2. exists (e0 - 1)%Z, n2, d2.
    split_and!; [done..| |by eapply Hpos|lia].
    destruct (Z.log2_spec n Hn) as [Hln _]. destruct (Z.log2_spec d Hd) as [_ Hld].
    pose proof (Z.log2_nonneg n). pose proof (Z.log2_nonneg d).
    injection H2 as <- <-.
    assert (2 ^ 52 * (d * 2 ^ Z.max 0 (e0 - 1)) ≤ 2 ^ 52 * (2 ^ Z.succ (Z.log2 d) * 2 ^ Z.max 0 (e0 - 1)))%Z.
    { apply Z.mul_le_mono_nonneg_l; [lia|]. apply Z.mul_le_mono_nonneg_r; [|lia]. apply Z.pow_nonneg. lia. }
    assert (2 ^ 52 * (2 ^ Z.succ (Z.log2 d) * 2 ^ Z.max 0 (e0 - 1)) = 2 ^ Z.log2 n * 2 ^ Z.max 0 (- (e0 - 1)))%Z.
    { rewrite <- !Z.pow_add_r by lia. f_equal. lia. }
    assert (2 ^ Z.log2 n * 2 ^ Z.max 0 (- (e0 - 1)) ≤ n * 2 ^ Z.max 0 (- (e0 - 1)))%Z.
    { apply Z.mul_le_mono_nonneg_r; [|lia]. apply Z.pow_nonneg. lia. }
    lia.
  - rewrite H1. exists e0, n1, d1. split_and!; [done..|by eapply Hpos|lia].
Qed.

(** Rounding keeps an integer lower bound of at most 53 bits. *)
Lemma trunc_round53_ge n d k :
  (0 < n)%Z → (0 < d)%Z → (0 ≤ k ≤ 2 ^ 52)%Z → (k * d ≤ n)%Z → (k ≤ float_trunc (round53 n d))%Z.
Proof.
  intros Hn Hd Hk Hkd. destruct (round53_spec n d Hn Hd) as (e & n2 & d2 & Hs & -> & Hge & Hd2 & _).
  unfold float_trunc. cbn [fe fm]. injection Hs as <- <-. destruct (Z.ltb_spec e 0) as [He|He].
  - rewrite (Z.max_l 0 e), (Z.max_r 0 (- e)) in * by lia. rewrite Z.mul_1_r in *.
    apply Z.div_le_lower_bound; [apply Z.pow_pos_nonneg; lia|].
    rewrite Z.mul_comm. apply round_nearest_ge; [done|].
    pose proof (Z.pow_nonneg 2 (- e)). nia.
  - apply Z.le_trans with (2 ^ 52)%Z; [lia|].
    pose proof (round_nearest_ge _ _ _ Hd2 Hge). pose proof (Z.pow_pos_nonneg 2 e). nia.
Qed.

Lemma trunc_round53_le n d :
  (0 < n)%Z → (0 < d)%Z → (float_trunc (round53 n d) * d * 2 ^ 52 ≤ n * (2 ^ 52 + 1))%Z.
Proof.
  intros Hn Hd. destruct (round53_spec n d Hn Hd) as (e & n2 & d2 & Hs & -> & Hge & Hd2 & _).
  pose proof (round_nearest_le n2 d2 Hd2) as Hr. unfold float_trunc. cbn [fe fm]. injection Hs as <- <-.
  set (m := round_nearest _ _) in *. destruct (Z.ltb_spec e 0) as [He|He].
  - rewrite (Z.max_l 0 e), (Z.max_r 0 (- e)) in * by lia. rewrite Z.mul_1_r in *.
    pose proof (Z.pow_pos_nonneg 2 (- e) ltac:(lia) ltac:(lia)) as Hp.
    pose proof (Z.mul_div_le m (2 ^ (- e)) Hp). set (t := (m / 2 ^ (- e))%Z) in *. set (p := (2 ^ (- e))%Z) in *.
    assert (p * (t * d * 2 ^ 52) ≤ p * (n * (2 ^ 52 + 1)))%Z by nia. nia.
  - rewrite (Z.max_r 0 e), (Z.max_l 0 (- e)) in * by lia. rewrite Z.mul_1_r in *.
    set (p := (2 ^ e)%Z) in *. nia.
Qed.

(** The quotient [2 ^ 31 / k]: at least 1, and small enough. *)
Lemma quotient_float k :
  (1 ≤ k ≤ 2 ^ 31)%Z →
  ∃ m e, round53 (2 ^ 31) k = mkFloat m (- e) ∧ (0 < e)%Z ∧ (2 ^ e ≤ m)%Z ∧ (m * 2 ^ 52 ≤ 2 ^ e * (2 ^ 31 * (2 ^ 52 + 1)))%Z.
Proof.
  intros Hk. destruct (round53_spec (2 ^ 31) k) as (e & n2 & d2 & Hs & -> & Hge & Hd2 & He); [lia..|].
  rewrite Z.log2_pow2 in He by lia. pose proof (Z.log2_nonneg k).
  injection Hs as <- <-. rewrite (Z.max_l 0 e), (Z.max_r 0 (- e)) in * by lia. rewrite Z.mul_1_r in *.
  exists (round_nearest (2 ^ 31 * 2 ^ (- e)) k), (- e)%Z. rewrite Z.opp_involutive.
  pose proof (Z.pow_pos_nonneg 2 (- e) ltac:(lia) ltac:(lia)) as Hp. set (p := (2 ^ (- e))%Z) in *.
  split_and!; [done|lia| |].
  - apply round_nearest_ge; nia.
  - pose proof (round_nearest_le (2 ^ 31 * p) k ltac:(lia)). nia.
Qed.

Lemma shift_key key : (0 ≤ key < 2 ^ 64)%Z → (1 ≤ Z.shiftr key 33 + 1 ≤ 2 ^ 31)%Z.
Proof.
  intros Hk. rewrite Z.shiftr_div_pow2 by lia.
  assert (0 ≤ key / 2 ^ 33 < 2 ^ 31)%Z by (split; [apply Z.div_pos; lia|apply Z.div_lt_upper_bound; lia]). lia.
Qed.

(** A jump goes up, and stays far within 64 bits. *)
Lemma next_jump_bounds key b :
  (0 ≤ key < 2 ^ 64)%Z → (0 ≤ b < 2 ^ 31)%Z → (b < next_jump key b < 2 ^ 63)%Z.
Proof.
  intros Hk Hb. destruct (quotient_float _ (shift_key key Hk)) as (m & e & Hq & He & Hm & Hu).
  unfold next_jump, float_mul_int. rewrite Hq. cbn [fe fm]. rewrite Z.opp_involutive.
  destruct (Z.ltb_spec (- e) 0); [|lia].
  pose proof (Z.pow_pos_nonneg 2 e ltac:(lia) ltac:(lia)) as Hp.
  assert (0 < (b + 1) * m)%Z by nia. split.
  - apply Z.lt_le_trans with (b + 1)%Z; [lia|]. apply trunc_round53_ge; [done..|lia|]. nia.
  - pose proof (trunc_round53_le ((b + 1) * m) (2 ^ e) ltac:(done) Hp) as Ht.
    set (t := float_trunc _) in *. set (p := (2 ^ e)%Z) in *.
    assert ((b + 1) * m * 2 ^ 52 ≤ 2 ^ 31 * (p * (2 ^ 31 * (2 ^ 52 + 1))))%Z by nia.
    assert (p * (t * 2 ^ 104) ≤ p * (2 ^ 62 * (2 ^ 52 + 1) * (2 ^ 52 + 1)))%Z by nia.
    assert (t * 2 ^ 104 ≤ 2 ^ 62 * (2 ^ 52 + 1) * (2 ^ 52 + 1))%Z by nia. lia.
Qed.

Lemma next_key_range key : (0 ≤ next_key key < 2 ^ 64)%Z.
Proof. by apply (@wrap_unsigned uint64). Qed.

(** *** Jump consistent hashing *)

Lemma jump_loop_total fuel key b j n :
  (0 ≤ key < 2 ^ 64)%Z → (0 ≤ j)%Z → (n < 2 ^ 31)%Z → Z.to_nat (n - j) ≤ fuel →
  ∃ r, jump_loop fuel key b j n = Some r ∧ ((j < n)%Z → (j ≤ r < n)%Z) ∧ ((n ≤ j)%Z → r = b).
Proof.
  revert key b j. induction fuel as [|fuel IH]; intros key b j Hk Hj Hn Hf; cbn [jump_loop];
    destruct (Z.ltb_spec j n) as [Hlt|Hge]; try (exists b; split_and!; [done|lia|done]); [lia|].
  pose proof (next_jump_bounds (next_key key) j (next_key_range key) ltac:(lia)) as Hup.
  destruct (IH (next_key key) j (next_jump (next_key key) j) (next_key_range key)) as (r & Hr & H1 & H2); [lia..|].
  exists r. split_and!; [done| |lia]. intros _.
  destruct (Z_lt_le_dec (next_jump (next_key key) j) n) as [H|H]; [specialize (H1 H); lia|rewrite (H2 H); lia].
Qed.

Lemma jump_loop_grow fuel key b j n r :
  (0 ≤ key < 2 ^ 64)%Z → (0 ≤ j)%Z → (n + 1 < 2 ^ 31)%Z → Z.to_nat (n - j) ≤ fuel →
  jump_loop fuel key b j n = Some r →
  ∃ r', jump_loop (S fuel) key b j (n + 1) = Some r' ∧ (r' = r ∨ r' = n).
Proof.
  revert key b j. induction fuel as [|fuel IH]; intros key b j Hk Hj Hn Hf Hr.
  all: pose proof (next_jump_bounds (next_key key) j (next_key_range key)) as Hup.
  all: cbn [jump_loop] in Hr; destruct (Z.ltb_spec j n) as [Hlt|Hge]; try done.
  - injection Hr as <-. cbn [jump_loop]. destruct (Z.ltb_spec j (n + 1)) as [Hlt'|Hge']; [|eauto].
    specialize (Hup ltac:(lia)). destruct (Z.ltb_spec (next_jump (next_key key) j) (n + 1)); [lia|].
    exists j. split; [done|]. right. lia.
  - specialize (Hup ltac:(lia)).
    destruct (IH (next_key key) j (next_jump (next_key key) j) (next_key_range key)) as (r' & Hr' & Hor); [lia..|done|].
    exists r'. split; [|done]. cbn [jump_loop]. destruct (Z.ltb_spec j (n + 1)); [|lia]. exact Hr'.
  - injection Hr as <-. cbn [jump_loop]. destruct (Z.ltb_spec j (n + 1)) as [Hlt'|Hge']; [|eauto].
    specialize (Hup ltac:(lia)). destruct (Z.ltb_spec (next_jump (next_key key) j) (n + 1)); [lia|].
    exists j. split; [done|]. right. lia.
Qed.

(** C38: jump hashing ends, gives a bucket, and is consistent: one more bucket
    either leaves a key where it was or moves it to the new one. *)
Theorem jump_hash_consistent (key n : Z) :
  (0 ≤ key < 2 ^ 64)%Z → (1 ≤ n < 2 ^ 31 - 1)%Z →
  ∃ b b', jumpHash key n = Some b ∧ jumpHash key (n + 1) = Some b' ∧ (0 ≤ b < n)%Z ∧ (b' = b ∨ b' = n).
Proof.
  intros Hk Hn. unfold jumpHash.
  destruct (jump_loop_total (Z.to_nat n) key 0 0 n) as (b & Hb & Hr & _); [lia..|].
  destruct (jump_loop_grow (Z.to_nat n) key 0 0 n b) as (b' & Hb' & Hor); [lia..|done|].
  exists b, b'. replace (Z.to_nat (n + 1)) with (S (Z.to_nat n)) by lia. split_and!; [done..|lia|lia|done].
Qed.

(** The eleventh server takes the key over. *)
Lemma jump_hash_consistent_witness :
  ∃ b b', jumpHash 10863919174838991 10 = Some b ∧ jumpHash 10863919174838991 (10 + 1) = Some b' ∧ (0 ≤ b < 10)%Z ∧ (b' = b ∨ b' = 10%Z).
Proof. apply (jump_hash_consistent 10863919174838991 10); lia. Defined.

(** *** Round robin *)

Set Default Proof Using "Type*".

Section Strategies.
Context {Px : Type} (alive : Px → bool).
Implicit Types (proxies : list Px).

Definition live proxies : list Px := filter (λ p, alive p = true) proxies.

Lemma live_split proxies :
  live proxies ≠ [] → ∃ l1 a l2, proxies = l1 ++ a :: l2 ∧ live l1 = [] ∧ alive a = true.
Proof.
  unfold live. induction proxies as [|p l IH]; [done|]. rewrite filter_cons. case_decide as Hp; intros Hl.
  - by exists [], p, l.
  - destruct (IH Hl) as (l1 & a & l2 & -> & H1 & Ha). exists (p :: l1), a, l2. split_and!; [done| |done].
    by rewrite filter_cons_False.
Qed.

Lemma live_app l l' : live (l ++ l') = live l ++ live l'.
Proof. apply filter_app. Qed.

Lemma live_cons_alive a l : alive a = true → live (a :: l) = a :: live l.
Proof. intros. unfold live. by rewrite filter_cons_True. Qed.

Lemma live_nil_cons p l : live (p :: l) = [] → alive p = false ∧ live l = [].
Proof. unfold live. rewrite filter_cons. case_decide; [done|]. by destruct (alive p). Qed.

Lemma rr_loop_found idx proxies l1 a l2 i :
  live l1 = [] → alive a = true →
  (∀ t, t < length (l1 ++ a :: l2) → proxies !! ((idx + (i + t)) mod length proxies) = (l1 ++ a :: l2) !! t) →
  rr_loop alive idx (length proxies) proxies (length (l1 ++ a :: l2)) i = (Some a, i + S (length l1)).
Proof.
  intros Hl1 Ha. revert i. induction l1 as [|p l1 IH]; intros i Ht; simpl.
  - specialize (Ht 0). rewrite Nat.add_0_r in Ht. rewrite Ht by (simpl; lia). simpl. rewrite Ha. f_equal. lia.
  - apply live_nil_cons in Hl1 as [Hp Hl1]. specialize (Ht 0) as H0. rewrite Nat.add_0_r in H0.
    rewrite H0 by (simpl; lia). simpl. rewrite Hp, IH by
      (done || (intros t Hlt; replace (S i + t) with (i + S t) by lia; apply (Ht (S t)); simpl; lia)).
    f_equal. lia.
Qed.

(** The list as the loop sees it from an index on. *)
Lemma rotated proxies idx t :
  idx < length proxies → t < length proxies →
  proxies !! ((idx + t) mod length proxies) = (drop idx proxies ++ take idx proxies) !! t.
Proof.
  intros Hi Ht. destruct (decide (t < length proxies - idx)) as [Hlt|Hge].
  - rewrite Nat.mod_small by lia. rewrite lookup_app_l by (rewrite length_drop; lia). by rewrite lookup_drop.
  - rewrite lookup_app_r by (rewrite length_drop; lia). rewrite length_drop.
    replace (idx + t) with (t - (length proxies - idx) + 1 * length proxies) by lia.
    rewrite Nat.Div0.mod_add, Nat.mod_small by lia. rewrite lookup_take_lt; [done|lia].
Qed.

(** How many live proxies come before an index. *)
Definition before proxies (idx : nat) : nat := length (live (take idx proxies)).

(** The proxy found comes at or after the index. *)
Lemma rr_step_in proxies idx l1 a r :
  idx < length proxies → drop idx proxies = l1 ++ a :: r → live l1 = [] → alive a = true →
  live proxies !! (before proxies idx mod length (live proxies)) = Some a ∧
  before proxies ((idx + S (length l1)) mod length proxies) mod length (live proxies) =
    S (before proxies idx) mod length (live proxies).
Proof.
  intros Hi Hr Hl1 Ha. pose proof (take_drop idx proxies) as Htd. rewrite Hr in Htd.
  assert (live proxies = live (take idx proxies) ++ a :: live r) as HA.
  { rewrite <- Htd at 1. by rewrite !live_app, Hl1, live_cons_alive. }
  assert (length proxies = idx + S (length l1) + length r) as Hlen.
  { rewrite <- Htd at 1. rewrite !length_app, length_take. simpl. lia. }
  unfold before. rewrite HA, length_app. simpl. split.
  - rewrite Nat.mod_small by lia. by apply list_lookup_middle.
  - destruct (decide (length r = 0)) as [Hz|Hz].
    + apply nil_length_inv in Hz as ->. simpl in *. rewrite Nat.add_0_r in Hlen. rewrite Hlen, Nat.Div0.mod_same.
      simpl. rewrite Nat.add_1_r, Nat.Div0.mod_same. by apply Nat.Div0.mod_0_l.
    + rewrite (Nat.mod_small (idx + _)) by lia. f_equal.
      replace (idx + S (length l1)) with (length (take idx proxies ++ l1 ++ [a])).
      * rewrite (take_at proxies (take idx proxies ++ l1 ++ [a]) r).
        -- rewrite !live_app, Hl1, live_cons_alive by done. rewrite !length_app. simpl. lia.
        -- by rewrite <- Htd at 1; rewrite <- !app_assoc.
      * rewrite !length_app, length_take. simpl. lia.
Qed.

(** The search went over the end of the list. *)
Lemma rr_step_out proxies idx l1 a l2 :
  idx < length proxies → take idx proxies = l1 ++ a :: l2 → live (drop idx proxies) = [] → live l1 = [] →
  alive a = true →
  live proxies !! (before proxies idx mod length (live proxies)) = Some a ∧
  before proxies ((idx + S (length (drop idx proxies ++ l1))) mod length proxies) mod length (live proxies) =
    S (before proxies idx) mod length (live proxies).
Proof.
  intros Hi Ht Hd Hl1 Ha. pose proof (take_drop idx proxies) as Htd.
  assert (live proxies = live (take idx proxies)) as HA.
  { rewrite <- Htd at 1. by rewrite live_app, Hd, app_nil_r. }
  assert (live (take idx proxies) = a :: live l2) as HT by (by rewrite Ht, live_app, Hl1, live_cons_alive).
  assert (idx = S (length l1 + length l2)) as Hidx.
  { pose proof (length_take proxies idx) as H. rewrite Ht, length_app in H. simpl in H. lia. }
  unfold before. rewrite HA. split.
  - by rewrite Nat.Div0.mod_same, HT.
  - rewrite length_app, length_drop.
    replace (idx + S (length proxies - idx + length l1)) with (S (length l1) + 1 * length proxies) by lia.
    rewrite Nat.Div0.mod_add, (Nat.mod_small (S (length l1))) by lia.
    replace (S (length l1)) with (length (l1 ++ [a])) by (rewrite length_app; simpl; lia).
    rewrite (take_at proxies (l1 ++ [a]) (l2 ++ drop idx proxies)).
    + rewrite live_app, Hl1, live_cons_alive by done. simpl.
      replace (S (length (live (take idx proxies)))) with (1 + 1 * length (live (take idx proxies))) by lia.
      by rewrite Nat.Div0.mod_add.
    + rewrite <- Htd at 1. rewrite Ht. by rewrite <- !app_assoc.
Qed.

Lemma rr_step proxies idx :
  live proxies ≠ [] → idx < length proxies →
  ∃ a idx', strategyRoundRobin alive proxies true idx = (Some a, idx') ∧ idx' < length proxies ∧
    live proxies !! (before proxies idx mod length (live proxies)) = Some a ∧
    before proxies idx' mod length (live proxies) = S (before proxies idx) mod length (live proxies).
Proof.
  intros Hne Hi. set (L := length proxies). assert (length (live proxies) ≠ 0) as HA by (by destruct (live proxies)).
  assert (live proxies = live (take idx proxies) ++ live (drop idx proxies)) as Hsplit
    by (by rewrite <- live_app, take_drop).
  assert (live (drop idx proxies ++ take idx proxies) ≠ []) as Hrot.
  { rewrite live_app. intros [H1 H2]%app_nil. apply Hne. by rewrite Hsplit, H1, H2. }
  destruct (live_split _ Hrot) as (l1 & a & l2 & Hl & Hl1 & Ha).
  assert (length (l1 ++ a :: l2) = L) as Hlen.
  { rewrite <- Hl, length_app, length_drop, length_take. unfold L. lia. }
  assert (strategyRoundRobin alive proxies true idx = (Some a, (idx + S (length l1)) mod L)) as Hres.
  { unfold strategyRoundRobin. fold L. replace (rr_loop alive idx L proxies L 0) with (Some a, 0 + S (length l1)); [done|].
    rewrite <- Hlen at 2. symmetry. apply rr_loop_found; [done..|].
    intros t Ht. rewrite <- Hl. apply rotated; [done|]. by rewrite Hlen in Ht. }
  exists a, ((idx + S (length l1)) mod L). split; [exact Hres|]. split; [apply Nat.mod_upper_bound; unfold L; lia|].
  assert ((∃ r, drop idx proxies = l1 ++ a :: r) ∨
          (∃ l1', l1 = drop idx proxies ++ l1' ∧ take idx proxies = l1' ++ a :: l2)) as [[r Hr]|(l1' & H1 & H2)].
  { apply app_eq_inv in Hl as [([|x k] & H1 & H2)|(k & H1 & H2)].
    - right. exists []. by rewrite app_nil_r in H1 |- *.
    - left. exists k. injection H2 as -> H2. done.
    - right. by exists k. }
  - by apply (rr_step_in proxies idx l1 a r).
  - rewrite H1 in Hl1 |- *. rewrite live_app in Hl1. apply app_nil in Hl1 as [Hd Hl1'].
    by apply (rr_step_out proxies idx l1' a l2).
Qed.

(** [n] calls one after the other, each for a connection. *)
Fixpoint rr_calls (n : nat) proxies (idx : nat) : list (option Px) :=
  match n with
  | O => []
  | S n' => let '(p, idx') := strategyRoundRobin alive proxies true idx in p :: rr_calls n' proxies idx'
  end.

Lemma rr_calls_lookup proxies n idx k c :
  live proxies ≠ [] → idx < length proxies → before proxies idx mod length (live proxies) = c mod length (live proxies) →
  k < n → rr_calls n proxies idx !! k = Some (live proxies !! ((c + k) mod length (live proxies))).
Proof.
  intros Hne. revert idx k c. induction n as [|n IH]; intros idx k c Hi Hc Hk; [lia|].
  destruct (rr_step proxies idx Hne Hi) as (a & idx' & Hs & Hi' & Ha & Hb). cbn [rr_calls]. rewrite Hs.
  assert (before proxies idx' mod length (live proxies) = S c mod length (live proxies)) as Hb'.
  { rewrite Hb, <- (Nat.add_1_r (before _ _)), <- (Nat.add_1_r c), <- Nat.Div0.add_mod_idemp_l, Hc.
    by rewrite Nat.Div0.add_mod_idemp_l. }
  destruct k as [|k]; simpl.
  - by rewrite Nat.add_0_r, <- Hc, Ha.
  - rewrite (IH idx' k (S c)) by (done || lia). by replace (c + S k) with (S c + k) by lia.
Qed.

(** As long as the list and the health of its members stay, round robin
    gives the live members in turn, in the order of the list, each exactly once
    per round, whatever dead members stand between them. *)
Theorem round_robin_fair proxies n k :
  live proxies ≠ [] → k < n →
  rr_calls n proxies 0 !! k = Some (live proxies !! (k mod length (live proxies))).
Proof.
  intros Hne Hk. rewrite (rr_calls_lookup proxies n 0 k 0); [done..| | |done].
  - destruct proxies; [done|simpl; lia].
  - done.
Qed.

End Strategies.

Lemma round_robin_fair_witness :
  rr_calls (λ p, negb (bool_decide (p = "b"%string))) 5 ["a"; "b"; "c"]%string 0 !! 3 = Some (Some "c"%string).
Proof.
  rewrite (round_robin_fair (λ p, negb (bool_decide (p = "b"%string))) ["a"; "b"; "c"]%string 5 3);
    [vm_compute; reflexivity|vm_compute; discriminate|lia].
Defined.

(** *** Hashing strategies *)

Section Hashing.
Context {Px : Type} (alive : Px → bool).
Implicit Types (proxies : list Px).

(** A list the 32-bit number of buckets can count. *)
Definition countable_list proxies : Prop := proxies ≠ [] ∧ (Z.of_nat (length proxies) < 2 ^ 31 - 1)%Z.

Lemma pick_hash_total key proxies :
  (0 ≤ key < 2 ^ 64)%Z → countable_list proxies →
  ∃ b p, jumpHash key (Z.of_nat (length proxies)) = Some b ∧ proxies !! Z.to_nat b = Some p ∧
    pick_hash key proxies = Some p ∧ p ∈ proxies.
Proof.
  intros Hk [Hne Hlen]. unfold pick_hash.
  assert (length proxies ≠ 0) by (by destruct proxies).
  destruct (jump_loop_total (Z.to_nat (Z.of_nat (length proxies))) key 0 0 (Z.of_nat (length proxies)))
    as (b & Hb & Hr & _); [lia..|]. unfold jumpHash. rewrite Hb. specialize (Hr ltac:(lia)).
  destruct (lookup_lt_is_Some_2 proxies (Z.to_nat b)) as [p Hp]; [lia|].
  exists b, p. simpl. split_and!; [done..|]. by eapply list_elem_of_lookup_2.
Qed.

Lemma hash_attempts_total n key proxies :
  (0 ≤ key < 2 ^ 64)%Z → countable_list proxies →
  ∃ r, hash_attempts alive n key proxies = Some r ∧ (∀ p, r = Some p → p ∈ proxies ∧ alive p = true).
Proof.
  revert key. induction n as [|n IH]; intros key Hk Hl; simpl; [by eexists|].
  destruct (pick_hash_total key proxies Hk Hl) as (b & p & _ & _ & -> & Hp). simpl.
  destruct (alive p) eqn:Ha; [|apply IH; [by apply (@wrap_unsigned uint64)|done]].
  eexists. split; [done|]. by intros ? [= <-].
Qed.

Lemma first_alive_spec proxies :
  match first_alive alive proxies with
  | Some p => p ∈ proxies ∧ alive p = true
  | None => live alive proxies = []
  end.
Proof.
  unfold first_alive, live. destruct (filter _ proxies) as [|p l] eqn:Hf; [done|]. simpl.
  assert (p ∈ filter (λ p, alive p = true) proxies) as Hp by (rewrite Hf; apply list_elem_of_here).
  apply list_elem_of_filter in Hp as [H1 H2]. by split.
Qed.

(** Consistent hashing always gives a member, a live one if there is one,
    and the one the key hashes to if that is live; when a member is added at
    the end of the list, a connection either stays on its live proxy or, if the
    new one is live, may move to it. *)
Theorem consistent_hashing_choice proxies key q :
  (0 ≤ key < 2 ^ 64)%Z → countable_list proxies →
  ∃ p, strategyConsistentHashing alive proxies key = Some p ∧ p ∈ proxies ∧
    (live alive proxies ≠ [] → alive p = true) ∧
    (∀ p0, pick_hash key proxies = Some p0 → alive p0 = true →
       p = p0 ∧ (alive q = true →
         strategyConsistentHashing alive (proxies ++ [q]) key = Some p ∨
         strategyConsistentHashing alive (proxies ++ [q]) key = Some q)).
Proof.
  intros Hk Hl. destruct (hash_attempts_total 5 key proxies Hk Hl) as (r & Hr & Hin).
  unfold strategyConsistentHashing. rewrite Hr. cbn [mbind option_bind].
  pose proof (first_alive_spec proxies) as Hfirst.
  exists (match r with Some p => p | None => match first_alive alive proxies with Some p => p | None => default q (head proxies) end end).
  split_and!.
  - destruct r; [done|]. destruct (first_alive alive proxies); [done|]. destruct Hl as [Hne _]. by destruct proxies.
  - destruct r as [p|]; [by apply Hin|]. destruct (first_alive alive proxies); [by destruct Hfirst|].
    destruct Hl as [Hne _]. destruct proxies; [done|]. apply list_elem_of_here.
  - intros Hlive. destruct r as [p|]; [by apply Hin|]. destruct (first_alive alive proxies); [by destruct Hfirst|done].
  - intros p0 Hp0 Ha0. assert (r = Some p0) as ->.
    { cbn [hash_attempts] in Hr. rewrite Hp0 in Hr. simpl in Hr. rewrite Ha0 in Hr. by injection Hr. }
    split; [done|]. intros Haq. cbn [hash_attempts].
    destruct Hl as [Hne Hlen]. assert (length proxies ≠ 0) by (by destruct proxies).
    destruct (jump_loop_total (length proxies) key 0 0 (Z.of_nat (length proxies))) as (b & Hb & Hrange & _); [lia..|].
    destruct (jump_loop_grow (length proxies) key 0 0 (Z.of_nat (length proxies)) b) as (b' & Hb' & Hor); [lia..|done|].
    unfold pick_hash, jumpHash in *. rewrite Nat2Z.id in Hp0. rewrite Hb in Hp0. simpl in Hp0. rewrite length_app. simpl.
    replace (Z.of_nat (length proxies + 1)) with (Z.of_nat (length proxies) + 1)%Z by lia. replace (Z.to_nat (Z.of_nat (length proxies) + 1)) with (S (length proxies)) by lia.
    rewrite Hb'. simpl.
    destruct Hor as [-> | ->].
    + rewrite lookup_app_l by lia. rewrite Hp0. simpl. rewrite Ha0. by left.
    + rewrite Nat2Z.id, list_lookup_middle by done. simpl. rewrite Haq. by right.
Qed.

Lemma sticky_loop_fresh n key idx nowIdx nano proxies store p :
  sticky_loop alive n key false idx nowIdx nano proxies = Some (store, p) →
  ∃ j, store = Some j ∧ proxies !! Z.to_nat j = Some p.
Proof.
  revert nowIdx nano. induction n as [|n IH]; intros nowIdx nano; simpl.
  - destruct (head proxies) as [q|] eqn:Hh; [|done]. simpl. intros [= <- <-]. exists 0%Z. split; [done|].
    by destruct proxies.
  - destruct (proxies !! Z.to_nat nowIdx) as [q|] eqn:Hq; [|done]. simpl. destruct (alive q).
    + intros [= <- <-]. by exists nowIdx.
    + destruct (jumpHash _ _); [|done]. apply IH.
Qed.

(** A session that is new to the cache keeps the live proxy it was given
    for the ten minutes the cache remembers, whatever the clock says; but an
    index the list has become too short for is not replaced: a live proxy is
    chosen anew by the clock and nothing is stored, so every later connection
    of the session is placed anew. *)
Theorem sticky_session_kept proxies key now now' nano nano' (st : lstate Z Z) (a : astate Z Z) p st' :
  refines st a → opts (lc st) = WithSize 1000 (WithAge 600 no_options) →
  strategyStickySessions alive proxies key now nano st = Some (p, st') → alive p = true →
  ((Lru.Get key now st).1 = None → (now ≤ now' < now + 600)%Z →
     ∃ st'', strategyStickySessions alive proxies key now' nano' st' = Some (p, st'')) ∧
  (∀ i q b, (Lru.Get key now st).1 = Some i → (Z.of_nat (length proxies) ≤ i)%Z →
     jumpHash (to_u64 (key + to_u64 (default 0%Z (head nano)))) (Z.of_nat (length proxies)) = Some b →
     proxies !! Z.to_nat b = Some q → alive q = true → p = q ∧ st' = (Lru.Get key now st).2).
Proof.
  intros Href Ho Hs Ha. unfold strategyStickySessions in Hs. destruct (Lru.Get key now st) as [cached st1] eqn:Hg.
  assert (refines st1 (aget (opts (lc st)) key now a).2 ∧ opts (lc st1) = opts (lc st)) as [Href1 Ho1].
  { unfold Lru.Get in Hg. pose proof (refines_get st a key now Href) as [Hr _]. pose proof (get_opts key now st) as Hopt.
    destruct (get key now st) as [el st2]. by injection Hg as _ <-. }
  simpl. split.
  - intros -> Hnow.
    destruct (jumpHash _ _) as [b|]; [cbn [mbind option_bind] in Hs|done].
    destruct (sticky_loop alive 4 key false b b (tail nano) proxies) as [[store p']|] eqn:Hl; [|done].
    cbn [mbind option_bind] in Hs. injection Hs as -> <-.
    destruct (sticky_loop_fresh _ _ _ _ _ _ _ _ Hl) as (j & -> & Hj).
    unfold strategyStickySessions.
    pose proof (lru_set_get st1 _ key j now now' Href1) as Hget.
    destruct (Lru.Get key now' (Set_ key j now st1)) as [c st2]. simpl in Hget. rewrite Hget by (rewrite Ho1, Ho; simpl; lia).
    assert (Z.to_nat j < length proxies) by (by eapply lookup_lt_Some).
    destruct (Z.ltb_spec j (Z.of_nat (length proxies))); [|lia].
    cbn [mbind option_bind sticky_loop]. rewrite Hj. cbn [mbind option_bind]. rewrite Ha, Z.eqb_refl. simpl. by eexists.
  - intros i q b -> Hi Hb Hq Hqa. destruct (Z.ltb_spec i (Z.of_nat (length proxies))); [lia|].
    rewrite Hb in Hs. cbn [mbind option_bind sticky_loop] in Hs. rewrite Hq in Hs. cbn [mbind option_bind] in Hs.
    rewrite Hqa, Z.eqb_refl in Hs. simpl in Hs. by injection Hs as -> ->.
Qed.

End Hashing.

Definition demo_sticky : lstate Z Z := new_sticky (mkHeap ∅ 0%nat).

Lemma consistent_hashing_choice_witness :
  ∃ p, strategyConsistentHashing (λ _, true) ["a"; "b"; "c"]%string 42 = Some p ∧ p ∈ ["a"; "b"; "c"]%string.
Proof.
  destruct (consistent_hashing_choice (λ _, true) ["a"; "b"; "c"]%string 42 "d"%string) as (p & H1 & H2 & _);
    [lia|split; [done|simpl; lia]|].
  exists p. split; [exact H1|exact H2].
Defined.

Lemma sticky_session_kept_witness :
  ∃ p st', strategyStickySessions (λ _, true) ["a"; "b"; "c"]%string 42 5 [77%Z] demo_sticky = Some (p, st') ∧
    ∃ st'', strategyStickySessions (λ _, true) ["a"; "b"; "c"]%string 42 300 [1%Z] st' = Some (p, st'').
Proof.
  eexists _, _. split; [vm_compute; reflexivity|].
  refine (proj1 (sticky_session_kept (λ _, true) ["a"; "b"; "c"]%string 42 5 300 [77%Z] [1%Z] demo_sticky (mkA [] []) _ _ _ _ _ _) _ _).
  - exact (refines_new _ _ empty_heap_fresh).
  - reflexivity.
  - vm_compute. reflexivity.
  - reflexivity.
  - vm_compute. reflexivity.
  - lia.
Defined.
