(* ===== verification/GroupsDag.v ===== *)
(** * The order of proxy groups: [config/utils.go]

    [proxyGroupsDagSort] sorts the groups of a configuration so that a group
    comes after the groups it refers to, or finds that they form a loop and
    says where.  Both halves take nodes off a graph whose counter has become
    0, the first by the number of groups that refer to a node, the second by the
    number of nodes it refers to; [peel] is the loop they share.  The order in
    which Go visits a map is an argument.  Decoding the options is not modelled:
    a group is its name and the proxies it lists.

    [validateDialerProxies] looks for proxies that dial through themselves: the
    graph has at most one edge from a proxy, so the search follows a chain, with
    fuel for one step more than there are proxies. *)

From Stdlib Require Import ZArith Lia String.
From stdpp Require Import prelude strings gmap list sorting.
From S2P Require Import Prelude.

(** ** The graph *)

Record group := mkGroup { g_name : string; g_proxies : list string }.

#[global] Instance group_eq_dec : EqDecision group.
Proof. solve_decision. Defined.

(** [data] is nil for a name that is only referred to. *)
Record graphNode := mkNode { indegree : Z; data : option group; outdegree : Z; from : list string }.

Abbreviation graph := (gmap string graphNode).

Definition set_data (g : group) (n : graphNode) : graphNode := mkNode (indegree n) (Some g) (outdegree n) (from n).

Definition inc_in (n : graphNode) : graphNode := mkNode (indegree n + 1) (data n) (outdegree n) (from n).

Definition dec_in (n : graphNode) : graphNode := mkNode (indegree n - 1) (data n) (outdegree n) (from n).

Definition inc_out (n : graphNode) : graphNode := mkNode (indegree n) (data n) (outdegree n + 1) (from n).

Definition dec_out (n : graphNode) : graphNode := mkNode (indegree n) (data n) (outdegree n - 1) (from n).

Definition add_from (name : string) (n : graphNode) : graphNode :=
  mkNode (indegree n) (data n) (outdegree n) (from n ++ [name]).

(** Step 1.1: the references of one group. *)
Definition add_edge (g : graph) (proxy : string) : graph :=
  match g !! proxy with
  | Some node => <[proxy := inc_in node]> g
  | None => <[proxy := mkNode 1 None 0 []]> g
  end.

(** One group; [None] is the error of a name given twice. *)
Definition add_group (g : graph) (x : group) : option graph :=
  g1 ← match g !! g_name x with
       | Some node =>
         match data node with
         | Some _ => None
         | None => Some (<[g_name x := set_data x node]> g)
         end
       | None => Some (<[g_name x := mkNode 0 (Some x) 0 []]> g)
       end;
  Some (foldl add_edge g1 (g_proxies x)).

Fixpoint build (g : graph) (groups : list group) : option graph :=
  match groups with
  | [] => Some g
  | x :: groups' => g' ← add_group g x; build g' groups'
  end.

(** ** Taking nodes off *)

Section Peel.
Context (cnt : graphNode → Z) (dec : graphNode → graphNode) (out : graphNode → list string).

(** The counters of the nodes in [l] are decremented, and a node whose counter
    becomes 0 joins the queue; a name that is not in the graph is a nil
    dereference. *)
Fixpoint notify (l : list string) (g : graph) (queue : list string) : option (graph * list string) :=
  match l with
  | [] => Some (g, queue)
  | p :: l' =>
    child ← g !! p;
    let child' := dec child in
    notify l' (<[p := child']> g) (if (cnt child' =? 0)%Z then queue ++ [p] else queue)
  end.

(** The nodes taken off, the last one first. *)
Fixpoint peel (fuel : nat) (g : graph) (queue : list string) (popped : list (string * graphNode))
    : option (graph * list (string * graphNode)) :=
  match queue with
  | [] => Some (g, popped)
  | name :: queue' =>
    match fuel with
    | O => None
    | S fuel' =>
      node ← g !! name;
      '(g', queue'') ← notify (out node) g queue';
      peel fuel' (delete name g') queue'' ((name, node) :: popped)
    end
  end.

End Peel.

(** ** The sort *)

Definition proxies_of (n : graphNode) : list string := match data n with Some x => g_proxies x | None => [] end.

(** Step 2.1: one reference of the node [name]. *)
Definition fill_edge (name : string) (g : option graph) (proxy : string) : option graph :=
  g ← g;
  node ← g !! name;
  let g1 := <[name := inc_out node]> g in
  child ← g1 !! proxy;
  Some (<[proxy := add_from name child]> g1).

Definition fill_node (g : option graph) (name : string) : option graph :=
  g' ← g;
  node ← g' !! name;
  foldl (fill_edge name) g (proxies_of node).

Inductive dag_result := Sorted (groups : list group) | Loop (elements : list string) | DuplicateName.

(** The nodes in the queue at the start: those with a counter of 0. *)
Definition start_queue (cnt : graphNode → Z) (iter : graph → list string) (g : graph) : list string :=
  filter (λ n, (cnt <$> g !! n) = Some 0%Z) (iter g).

(** [None] is a panic (or too little fuel, which there is not). *)
Definition proxyGroupsDagSort (iter : graph → list string) (groups : list group) : option dag_result :=
  match build ∅ groups with
  | None => Some DuplicateName
  | Some g =>
    '(g1, popped) ← peel indegree dec_in proxies_of (size g) g (start_queue indegree iter g) [];
    if bool_decide (g1 = ∅) then Some (Sorted (omap (λ x, data x.2) popped))
    else
      g2 ← foldl fill_node (Some g1) (iter g1);
      '(g3, _) ← peel outdegree dec_out from (size g2) g2 (start_queue outdegree iter g2) [];
      Some (Loop (iter g3))
  end.

Example dag_demo :
  proxyGroupsDagSort (λ g, (map_to_list g).*1)
    [mkGroup "a" ["b"; "DIRECT"]; mkGroup "b" ["c"]; mkGroup "c" ["DIRECT"]]%string
  = Some (Sorted [mkGroup "c" ["DIRECT"]; mkGroup "b" ["c"]; mkGroup "a" ["b"; "DIRECT"]])%string.
Proof. vm_compute. reflexivity. Qed.

Example dag_demo_loop :
  proxyGroupsDagSort (λ g, (map_to_list g).*1)
    [mkGroup "a" ["b"; "DIRECT"]; mkGroup "b" ["c"]; mkGroup "c" ["b"; "d"]; mkGroup "d" ["DIRECT"]]%string
  = Some (Loop ["b"; "c"])%string ∨
  proxyGroupsDagSort (λ g, (map_to_list g).*1)
    [mkGroup "a" ["b"; "DIRECT"]; mkGroup "b" ["c"]; mkGroup "c" ["b"; "d"]; mkGroup "d" ["DIRECT"]]%string
  = Some (Loop ["c"; "b"])%string.
Proof. vm_compute. tauto. Qed.

(** ** Lemmas *)

Set Default Proof Using "Type*".

(** *** Counting references *)

Definition count (n : string) (l : list string) : nat := length (filter (λ x, x = n) l).

(** All references to [n] in a map of reference lists. *)
Definition total (o : gmap string (list string)) (n : string) : nat :=
  sum_list_with (λ x, count n x.2) (map_to_list o).

Lemma count_cons n x l : count n (x :: l) = (if decide (x = n) then 1 else 0) + count n l.
Proof. unfold count. rewrite filter_cons. by case_decide. Qed.

Lemma count_app n l l' : count n (l ++ l') = count n l + count n l'.
Proof. unfold count. by rewrite filter_app, length_app. Qed.

Lemma count_zero n l : count n l = 0 ↔ n ∉ l.
Proof.
  induction l as [|x l IH]; [split; [intros _; apply not_elem_of_nil|done]|].
  rewrite count_cons, not_elem_of_cons. destruct (decide (x = n)); naive_solver lia.
Qed.

Lemma sum_perm {A} (f : A → nat) l l' : l ≡ₚ l' → sum_list_with f l = sum_list_with f l'.
Proof. induction 1; simpl; lia. Qed.

Lemma total_delete o k l n : o !! k = Some l → total o n = count n l + total (delete k o) n.
Proof. intros Hk. unfold total. by rewrite <- (sum_perm _ _ _ (map_to_list_delete o k l Hk)). Qed.

Lemma total_insert o k l n : o !! k = None → total (<[k := l]> o) n = count n l + total o n.
Proof. intros Hk. unfold total. by rewrite (sum_perm _ _ _ (map_to_list_insert o k l Hk)). Qed.

Lemma total_zero o n k l : total o n = 0 → o !! k = Some l → n ∉ l.
Proof. intros Ht Hk. rewrite (total_delete o k l n Hk) in Ht. apply count_zero. lia. Qed.

Lemma total_pos o n : total o n ≠ 0 → ∃ k l, o !! k = Some l ∧ n ∈ l.
Proof.
  unfold total. intros Hs. assert (∃ x, x ∈ map_to_list o ∧ n ∈ x.2) as ([k l] & Hx & Hn).
  { induction (map_to_list o) as [|x xs IH]; [done|]. simpl in Hs.
    destruct (decide (n ∈ x.2)) as [Hin|Hin]; [exists x; split; [by left|done]|].
    apply count_zero in Hin. destruct IH as (y & Hy & Hny); [lia|]. exists y. split; [by right|done]. }
  exists k, l. by apply elem_of_map_to_list in Hx.
Qed.

(** *** Taking nodes off *)

Section PeelLaws.
Context (cnt : graphNode → Z) (dec : graphNode → graphNode) (out : graphNode → list string).
Context (cnt_dec : ∀ x, cnt (dec x) = (cnt x - 1)%Z).
Context (out_dec : ∀ x, out (dec x) = out x).
Context {T : Type} (keep : graphNode → T).
Context (keep_dec : ∀ x, keep (dec x) = keep x).

(** A counter holds the number of references from the nodes that are left. *)
Definition counted (g : graph) : Prop :=
  (∀ n x, g !! n = Some x → cnt x = Z.of_nat (total (out <$> g) n)) ∧
  (∀ m x n, g !! m = Some x → n ∈ out x → is_Some (g !! n)).

Definition queued (g : graph) (q : list string) : Prop :=
  NoDup q ∧ ∀ n, n ∈ q ↔ ∃ x, g !! n = Some x ∧ cnt x = 0%Z.

(** The same node but for its counter; [keep] is what else matters of it. *)
Definition alike (x y : graphNode) : Prop := out x = out y ∧ keep x = keep y.

Lemma cnt_iter k x : cnt (Nat.iter k dec x) = (cnt x - Z.of_nat k)%Z.
Proof. induction k as [|k IH]; simpl; [lia|]. rewrite cnt_dec, IH. lia. Qed.

Lemma alike_iter k x : alike (Nat.iter k dec x) x.
Proof. induction k as [|k [IH1 IH2]]; [done|]. split; simpl; by rewrite ?out_dec, ?keep_dec. Qed.

Lemma notify_spec l (g : graph) q :
  (∀ n, n ∈ l → ∃ x, g !! n = Some x ∧ (Z.of_nat (count n l) ≤ cnt x)%Z) → NoDup q → (∀ n, n ∈ l → n ∉ q) →
  ∃ g' q', notify cnt dec l g q = Some (g', q') ∧
    (∀ n, g' !! n = Nat.iter (count n l) dec <$> g !! n) ∧ NoDup q' ∧
    ∀ n, n ∈ q' ↔ n ∈ q ∨ n ∈ l ∧ ∃ x, g !! n = Some x ∧ cnt x = Z.of_nat (count n l).
Proof.
  revert g q. induction l as [|p l IH]; intros g q Hl Hq Hdis; simpl.
  - exists g, q. split_and!; [done| |done|].
    + intros n. by destruct (g !! n).
    + intros n. split; [by left|]. by intros [?|[?%elem_of_nil _]].
  - destruct (Hl p) as (x & Hx & Hcx); [by left|]. rewrite Hx. simpl. rewrite count_cons, decide_True in Hcx by done.
    set (q1 := if (cnt (dec x) =? 0)%Z then q ++ [p] else q).
    assert (cnt (dec x) = 0%Z → p ∉ l) as Hz by (rewrite cnt_dec; intros Hz; apply count_zero; lia).
    destruct (IH (<[p := dec x]> g) q1) as (g' & q' & Hn & Hg & Hnd & Hin).
    + intros n Hn. destruct (Hl n) as (y & Hy & Hcy); [by right|]. rewrite count_cons in Hcy.
      destruct (decide (p = n)) as [<-|Hne].
      * exists (dec x). rewrite lookup_insert_eq, cnt_dec. split; [done|lia].
      * exists y. rewrite lookup_insert_ne by done. split; [done|lia].
    + unfold q1. destruct (Z.eqb_spec (cnt (dec x)) 0); [|done]. apply NoDup_app. split; [done|].
      split; [|apply NoDup_singleton]. intros n Hn ->%list_elem_of_singleton. by apply (Hdis p); [left|].
    + intros n Hn. unfold q1. destruct (Z.eqb_spec (cnt (dec x)) 0) as [Hc|]; [|apply Hdis; by right].
      intros [H|H]%elem_of_app; [by apply (Hdis n); [right|]|]. apply list_elem_of_singleton in H as ->. by apply Hz in Hc.
    + exists g', q'. split_and!; [done| |done|].
      * intros n. rewrite Hg, count_cons. destruct (decide (p = n)) as [<-|Hne].
        -- rewrite lookup_insert_eq, Hx. simpl. f_equal. by rewrite <- Nat.iter_succ_r.
        -- by rewrite lookup_insert_ne.
      * intros n. rewrite Hin, elem_of_cons, count_cons.
        assert (n ∈ q1 ↔ n ∈ q ∨ n = p ∧ cnt x = 1%Z) as ->.
        { unfold q1. rewrite cnt_dec. destruct (Z.eqb_spec (cnt x - 1) 0).
          - rewrite elem_of_app, list_elem_of_singleton. naive_solver lia.
          - naive_solver lia. }
        destruct (decide (p = n)) as [<-|Hne].
        -- rewrite lookup_insert_eq, Hx. split.
           ++ intros [[?|[_ H1]]|[H1 (y & [= <-] & H2)]]; [by left| |].
              ** right. split; [by left|]. exists x. split; [done|].
                 rewrite (proj2 (count_zero p l)); [lia|]. apply Hz. rewrite cnt_dec. lia.
              ** right. split; [by left|]. exists x. split; [done|]. rewrite cnt_dec in H2. lia.
           ++ intros [?|[_ (y & [= <-] & H2)]]; [by left; left|].
              destruct (decide (p ∈ l)) as [Hpl|Hpl].
              ** right. split; [done|]. exists (dec x). split; [done|]. rewrite cnt_dec. lia.
              ** left. right. split; [done|]. rewrite (proj2 (count_zero p l)) in H2 by done. lia.
        -- rewrite lookup_insert_ne by done. simpl. naive_solver.
Qed.

Lemma out_alike (g g' : graph) :
  (∀ n, ∃ k, g' !! n = Nat.iter k dec <$> g !! n) → out <$> g' = out <$> g.
Proof.
  intros H. apply map_eq. intros n. rewrite !lookup_fmap. destruct (H n) as [k ->].
  destruct (g !! n) as [x|]; [|done]. simpl. f_equal. apply alike_iter.
Qed.

(** One turn of the loop. *)
Lemma peel_turn (g : graph) q k node :
  counted g → queued g (k :: q) → g !! k = Some node →
  ∃ g' q', notify cnt dec (out node) g q = Some (g', q') ∧
    (∀ n, ∃ i, delete k g' !! n = Nat.iter i dec <$> delete k g !! n) ∧
    counted (delete k g') ∧ queued (delete k g') q'.
Proof.
  intros [Hc Hr] [Hnd Hq] Hk. apply NoDup_cons in Hnd as [Hkq Hnd].
  assert (cnt node = 0%Z) as Hk0.
  { destruct (proj1 (Hq k)) as (x & Hx & H0); [by left|]. congruence. }
  assert (∀ m x, g !! m = Some x → k ∉ out x) as Hno.
  { intros m x Hm. apply (total_zero (out <$> g) k m); [|by rewrite lookup_fmap, Hm].
    specialize (Hc k node Hk). lia. }
  assert (∀ n, total (out <$> g) n = count n (out node) + total (out <$> delete k g) n) as Htot.
  { intros n. rewrite (total_delete _ k (out node) n) by (by rewrite lookup_fmap, Hk). by rewrite fmap_delete. }
  destruct (notify_spec (out node) g q) as (g' & q' & Hn & Hg & Hnd' & Hin); [|done| |].
  { intros n Hn. destruct (Hr k node n Hk Hn) as [x Hx]. exists x. split; [done|]. rewrite (Hc n x Hx), Htot. lia. }
  { intros n Hn Hnq. destruct (proj1 (Hq n)) as (x & Hx & H0); [by right|].
    rewrite (Hc n x Hx), Htot in H0. assert (count n (out node) = 0) as Hz by lia. by apply count_zero in Hz. }
  assert (∀ n, ∃ i, delete k g' !! n = Nat.iter i dec <$> delete k g !! n) as Hsim.
  { intros n. exists (count n (out node)). destruct (decide (n = k)) as [->|Hne]; [by rewrite !lookup_delete_eq|].
    by rewrite !lookup_delete_ne. }
  assert (out <$> delete k g' = out <$> delete k g) as Hout by (by apply out_alike).
  exists g', q'. split_and!; [done|done| |].
  - split.
    + intros n x Hx. rewrite Hout. destruct (decide (n = k)) as [->|Hne]; [by rewrite lookup_delete_eq in Hx|].
      rewrite lookup_delete_ne, Hg in Hx by done. destruct (g !! n) as [y|] eqn:Hy; [|done]. injection Hx as <-.
      rewrite cnt_iter, (Hc n y Hy), Htot. lia.
    + intros m x n Hm Hx. destruct (Hsim m) as [i Hi]. rewrite Hi in Hm.
      destruct (decide (m = k)) as [->|Hmk]; [by rewrite lookup_delete_eq in Hm|]. rewrite lookup_delete_ne in Hm by done.
      destruct (g !! m) as [y|] eqn:Hy; [|done]. injection Hm as <-. rewrite (proj1 (alike_iter i y)) in Hx.
      assert (n ≠ k) by (intros ->; by apply (Hno m y)). rewrite lookup_delete_ne, Hg by done.
      destruct (Hr m y n Hy Hx) as [z ->]. by eexists.
  - split; [done|]. intros n. rewrite Hin. destruct (decide (n = k)) as [->|Hne].
    + rewrite lookup_delete_eq. split; [|naive_solver]. intros [?|[H _]]; [done|]. by apply (Hno k node) in H.
    + rewrite lookup_delete_ne, Hg by done. split.
      * intros [H|[H (x & Hx & Hcx)]].
        -- destruct (proj1 (Hq n)) as (x & Hx & H0); [by right|]. rewrite Hx. eexists. split; [done|].
           rewrite cnt_iter. pose proof (Hc n x Hx) as Hcx. rewrite Htot in Hcx. lia.
        -- rewrite Hx. eexists. split; [done|]. rewrite cnt_iter. lia.
      * intros (y & Hy & H0). destruct (g !! n) as [x|] eqn:Hx; [|done]. injection Hy as <-. rewrite cnt_iter in H0.
        destruct (decide (n ∈ out node)) as [Hi|Hi]; [right; split; [done|]; exists x; split; [done|lia]|].
        left. apply count_zero in Hi. assert (n ∈ k :: q) as Hnq by (apply Hq; exists x; split; [done|lia]).
        by apply elem_of_cons in Hnq as [->|?].
Qed.

Lemma peel_done fuel (g : graph) popped :
  counted g → queued g [] →
  ∃ g' ks, peel cnt dec out fuel g [] popped = Some (g', ks ++ popped) ∧
    counted g' ∧ (∀ n x, g' !! n = Some x → cnt x ≠ 0%Z) ∧
    (∀ n x, g' !! n = Some x → ∃ y, g !! n = Some y ∧ alike x y) ∧
    (∀ n x, (n, x) ∈ ks → ∃ y, g !! n = Some y ∧ alike x y) ∧
    (∀ n, is_Some (g !! n) ↔ is_Some (g' !! n) ∨ n ∈ ks.*1) ∧ NoDup ks.*1 ∧
    StronglySorted (λ a b, b.1 ∉ out a.2) ks ∧ (∀ n x, (n, x) ∈ ks → n ∉ out x) ∧ (∀ n, n ∈ ks.*1 → g' !! n = None).
Proof.
  intros Hc [_ Hq]. exists g, []. split; [by destruct fuel|]. split; [done|]. split; [|split; [|split; [|split]]].
  - intros n x Hx H0. by apply (elem_of_nil n), Hq; eauto.
  - intros n x Hx. by exists x.
  - by intros n x ?%elem_of_nil.
  - intros n. simpl. split; [by left|]. by intros [?|?%elem_of_nil].
  - split; [constructor|]. split; [constructor|]. split; [by intros n x ?%elem_of_nil|by intros n ?%elem_of_nil].
Qed.

(** What the loop leaves and what it takes off: the nodes left still have
    references among themselves, and no node refers to one taken off before. *)
Lemma peel_spec fuel (g : graph) q popped :
  size g ≤ fuel → counted g → queued g q →
  ∃ g' ks, peel cnt dec out fuel g q popped = Some (g', ks ++ popped) ∧
    counted g' ∧ (∀ n x, g' !! n = Some x → cnt x ≠ 0%Z) ∧
    (∀ n x, g' !! n = Some x → ∃ y, g !! n = Some y ∧ alike x y) ∧
    (∀ n x, (n, x) ∈ ks → ∃ y, g !! n = Some y ∧ alike x y) ∧
    (∀ n, is_Some (g !! n) ↔ is_Some (g' !! n) ∨ n ∈ ks.*1) ∧ NoDup ks.*1 ∧
    StronglySorted (λ a b, b.1 ∉ out a.2) ks ∧ (∀ n x, (n, x) ∈ ks → n ∉ out x) ∧ (∀ n, n ∈ ks.*1 → g' !! n = None).
Proof.
  revert g q popped. induction fuel as [|fuel IH]; intros g [|k q] popped Hsz Hc Hq; [exact (peel_done _ _ _ Hc Hq)| |exact (peel_done _ _ _ Hc Hq)|].
  - assert (g = ∅) as -> by (apply map_size_empty_iff; lia).
    destruct (proj1 (proj2 Hq k)) as (x & Hx & _); [by left|]. by rewrite lookup_empty in Hx.
  - simpl.
    destruct (proj1 (proj2 Hq k)) as (node & Hk & Hk0); [by left|]. rewrite Hk. simpl.
      destruct (peel_turn g q k node Hc Hq Hk) as (g1 & q1 & -> & Hsim & Hc1 & Hq1). simpl.
      assert (∀ n x, delete k g1 !! n = Some x → n ≠ k ∧ ∃ y, g !! n = Some y ∧ alike x y) as Hback.
      { intros n x Hx. destruct (Hsim n) as [i Hi]. rewrite Hi in Hx.
        destruct (decide (n = k)) as [->|Hne]; [by rewrite lookup_delete_eq in Hx|]. rewrite lookup_delete_ne in Hx by done.
        destruct (g !! n) as [y|]; [|done]. injection Hx as <-. split; [done|]. exists y. split; [done|apply alike_iter]. }
      assert (∀ n, is_Some (g !! n) ↔ is_Some (delete k g1 !! n) ∨ n = k) as Hdom.
      { intros n. destruct (decide (n = k)) as [->|Hne]; [rewrite Hk; naive_solver|].
        destruct (Hsim n) as [i ->]. rewrite lookup_delete_ne, fmap_is_Some by done. naive_solver. }
      assert (∀ n z, g !! n = Some z → k ∉ out z) as Hno.
      { intros n z Hz. apply (total_zero (out <$> g) k n); [|by rewrite lookup_fmap, Hz].
        pose proof (proj1 Hc k node Hk). lia. }
      assert (size (delete k g1) ≤ fuel) as Hsz1.
      { assert (size (delete k g1) = size (delete k g)) as ->.
        { rewrite <- !(map_size_fmap out). f_equal. apply out_alike. exact Hsim. }
        rewrite map_size_delete, Hk. lia. }
      destruct (IH (delete k g1) q1 ((k, node) :: popped) Hsz1 Hc1 Hq1)
        as (g' & ks & -> & Hc' & Hpos & Hl & Hp & Hd & Hnd & Hs & Hself & Hdisj).
      exists g', (ks ++ [(k, node)]). rewrite <- (assoc_L (++)). split_and!; [done..| | | | | | |].
      * intros n x Hx. destruct (Hl n x Hx) as (y & Hy & Hxy). destruct (Hback n y Hy) as (_ & z & Hz & Hyz).
        exists z. split; [done|]. destruct Hxy, Hyz. split; congruence.
      * intros n x [Hx|Hx]%elem_of_app.
        -- destruct (Hp n x Hx) as (y & Hy & Hxy). destruct (Hback n y Hy) as (_ & z & Hz & Hyz).
           exists z. split; [done|]. destruct Hxy, Hyz. split; congruence.
        -- apply list_elem_of_singleton in Hx. injection Hx as -> ->. exists node. by split.
      * intros n. rewrite Hdom, Hd, fmap_app, elem_of_app. simpl. rewrite list_elem_of_singleton. tauto.
      * rewrite fmap_app. simpl. apply NoDup_app. split; [done|]. split; [|apply NoDup_singleton].
        intros n Hn ->%list_elem_of_singleton. apply list_elem_of_fmap in Hn as ([n x] & -> & Hx). simpl in *.
        destruct (Hp n x Hx) as (y & Hy & _). by apply Hback in Hy as [? _].
      * apply StronglySorted_app_2; [|done|repeat constructor].
        intros [n x] b Hx ->%list_elem_of_singleton. simpl.
        destruct (Hp n x Hx) as (y & Hy & Hxy). destruct (Hback n y Hy) as (_ & z & Hz & Hyz).
        assert (out x = out z) as -> by (destruct Hxy, Hyz; congruence).
        by apply (Hno n z).
      * intros n x [Hx|Hx]%elem_of_app; [by apply Hself|]. apply list_elem_of_singleton in Hx. injection Hx as -> ->.
        by apply (Hno k node).
      * intros n. rewrite fmap_app, elem_of_app. simpl. rewrite list_elem_of_singleton. intros [H| ->]; [by apply Hdisj|].
        apply eq_None_not_Some. intros [x Hx]. destruct (Hl k x Hx) as (y & Hy & _). by apply Hback in Hy as [? _].
Qed.

End PeelLaws.

(** *** The graph of the configuration *)

Definition refs (groups : list group) (n : string) : nat := sum_list_with (λ y, count n (g_proxies y)) groups.

(** The graph after the groups [gs]. *)
Record built (g : graph) (gs : list group) : Prop := {
  built_names : NoDup (g_name <$> gs);
  built_in n x : g !! n = Some x → indegree x = Z.of_nat (refs gs n) ∧ outdegree x = 0%Z ∧ from x = [];
  built_data n x y : g !! n = Some x → data x = Some y → y ∈ gs ∧ g_name y = n;
  built_group y : y ∈ gs → ∃ x, g !! g_name y = Some x ∧ data x = Some y;
  built_ref y p : y ∈ gs → p ∈ g_proxies y → is_Some (g !! p) }.

Lemma refs_snoc gs x n : refs (gs ++ [x]) n = refs gs n + count n (g_proxies x).
Proof. unfold refs. induction gs as [|y gs IH]; simpl in *; lia. Qed.

Lemma refs_absent g gs n : built g gs → g !! n = None → refs gs n = 0.
Proof.
  intros Hb Hn. unfold refs. assert (∀ y, y ∈ gs → n ∉ g_proxies y) as H.
  { intros y Hy Hin. destruct (built_ref _ _ Hb y n Hy Hin). congruence. }
  clear Hb. induction gs as [|y gs IH]; [done|]. simpl. rewrite IH by (intros z Hz; apply H; by right).
  rewrite (proj2 (count_zero n _)) by (apply H; by left). done.
Qed.

Definition add_in (k : nat) (x : graphNode) : graphNode :=
  mkNode (indegree x + Z.of_nat k) (data x) (outdegree x) (from x).

Lemma add_edges_lookup ps (g : graph) n :
  foldl add_edge g ps !! n =
    match g !! n with
    | Some x => Some (add_in (count n ps) x)
    | None => if decide (count n ps = 0) then None else Some (mkNode (Z.of_nat (count n ps)) None 0 [])
    end.
Proof.
  revert g. induction ps as [|p ps IH]; intros g; simpl.
  - destruct (g !! n) as [x|]; [|done]. destruct x. unfold add_in, count. simpl. do 2 f_equal. lia.
  - rewrite IH, count_cons. unfold add_edge. destruct (decide (p = n)) as [->|Hne].
    + destruct (g !! n) as [x|]; rewrite lookup_insert_eq; [|rewrite decide_False by lia];
        unfold add_in; simpl; do 2 f_equal; lia.
    + destruct (g !! p); by rewrite lookup_insert_ne.
Qed.

(** A group whose name is not taken: the node it gets, then its references. *)
Lemma add_group_built g gs x :
  built g gs → (∀ node, g !! g_name x = Some node → data node = None) →
  built (foldl add_edge (<[g_name x := set_data x (default (mkNode 0 None 0 []) (g !! g_name x))]> g) (g_proxies x)) (gs ++ [x]).
Proof.
  intros Hb Hfree. set (node := default _ _).
  assert (indegree node = Z.of_nat (refs gs (g_name x)) ∧ outdegree node = 0%Z ∧ from node = []) as Hnode.
  { unfold node. destruct (g !! g_name x) as [z|] eqn:Hz; [by apply (built_in _ _ Hb)|]. simpl. by rewrite (refs_absent g gs). }
  assert (∀ y, y ∈ gs → g_name y ≠ g_name x) as Hnew.
  { intros y Hy He. destruct (built_group _ _ Hb y Hy) as (z & Hz & Hd). rewrite He in Hz. apply Hfree in Hz. congruence. }
  split.
  - rewrite fmap_app. apply NoDup_app. split; [apply Hb|]. split; [|apply NoDup_singleton].
    intros n (y & -> & Hy)%list_elem_of_fmap Hn%list_elem_of_singleton. by apply (Hnew y).
  - intros n z. rewrite add_edges_lookup, refs_snoc. destruct (decide (g_name x = n)) as [<-|Hne].
    + rewrite lookup_insert_eq. intros [= <-]. simpl. split; [lia|apply Hnode].
    + rewrite lookup_insert_ne by done. destruct (g !! n) as [y|] eqn:Hy.
      * intros [= <-]. simpl. pose proof (built_in _ _ Hb n y Hy) as (? & ? & ?). split; [lia|done].
      * rewrite (refs_absent g gs) by done. case_decide; [done|]. by intros [= <-].
  - intros n z y. rewrite add_edges_lookup. destruct (decide (g_name x = n)) as [<-|Hne].
    + rewrite lookup_insert_eq. intros [= <-] [= <-]. split; [|done]. apply elem_of_app. right. by left.
    + rewrite lookup_insert_ne by done. destruct (g !! n) as [w|] eqn:Hw; [|by case_decide; [done|intros [= <-]]].
      intros [= <-] Hy. destruct (built_data _ _ Hb n w y Hw Hy). split; [|done]. apply elem_of_app. by left.
  - intros y [Hy|Hy]%elem_of_app; rewrite add_edges_lookup.
    + rewrite lookup_insert_ne by (by apply not_eq_sym, Hnew). destruct (built_group _ _ Hb y Hy) as (z & -> & Hd).
      eexists. split; [done|]. done.
    + apply list_elem_of_singleton in Hy as ->. rewrite lookup_insert_eq. eexists. by split.
  - intros y p Hy Hp. rewrite add_edges_lookup. destruct (decide (g_name x = p)) as [<-|Hne]; [by rewrite lookup_insert_eq|].
    rewrite lookup_insert_ne by done. destruct (g !! p) as [z|] eqn:Hz; [done|].
    apply elem_of_app in Hy as [Hy|Hy]; [destruct (built_ref _ _ Hb y p Hy Hp); congruence|].
    apply list_elem_of_singleton in Hy as ->. rewrite decide_False; [done|]. rewrite count_zero. by intros ?.
Qed.

Lemma add_group_spec g gs x :
  built g gs →
  match add_group g x with
  | Some g' => built g' (gs ++ [x])
  | None => g_name x ∈ g_name <$> gs
  end.
Proof.
  intros Hb. pose proof (add_group_built g gs x Hb) as Hadd. unfold add_group.
  destruct (g !! g_name x) as [node|] eqn:Hn; simpl in *; [|by apply Hadd].
  destruct (data node) as [y|] eqn:Hd; simpl; [|apply Hadd; naive_solver].
  destruct (built_data _ _ Hb _ _ _ Hn Hd) as [Hy <-]. by apply list_elem_of_fmap_2.
Qed.

Lemma build_spec groups g gs :
  built g gs →
  match build g groups with
  | Some g' => built g' (gs ++ groups)
  | None => ¬ NoDup (g_name <$> gs ++ groups)
  end.
Proof.
  revert g gs. induction groups as [|x groups IH]; intros g gs Hb; simpl; [by rewrite app_nil_r|].
  pose proof (add_group_spec g gs x Hb) as Hx. destruct (add_group g x) as [g'|]; simpl.
  - specialize (IH g' (gs ++ [x]) Hx). by rewrite <- (assoc_L (++)) in IH.
  - rewrite fmap_app, NoDup_app. intros (_ & Hdis & _). apply (Hdis _ Hx). simpl. by left.
Qed.

Lemma built_empty : built ∅ [].
Proof. split; [constructor|..]; intros *; rewrite ?lookup_empty; try done; by intros ?%elem_of_nil. Qed.

(** Groups are told apart by their names. *)
Lemma groups_NoDup (l : list (string * graphNode)) :
  NoDup l.*1 → (∀ n x y, (n, x) ∈ l → data x = Some y → g_name y = n) → NoDup (omap (λ x, data x.2) l).
Proof.
  intros Hnd Hl. induction l as [|[n x] l IH]; simpl in *; [constructor|].
  apply NoDup_cons in Hnd as [Hn Hnd].
  assert (NoDup (omap (λ x, data x.2) l)) as Hrest.
  { apply IH; [done|]. intros m z y Hz. apply (Hl m z y). by right. }
  destruct (data x) as [y|] eqn:Hy; [|done]. apply NoDup_cons. split; [|done].
  intros ([m z] & Hz & Hd)%list_elem_of_omap. apply Hn, list_elem_of_fmap. exists (m, z). split; [|done]. simpl in *.
  rewrite <- (Hl n x y (list_elem_of_here _ _) Hy). apply (Hl m z y); [by right|done].
Qed.

(** The groups of a list of nodes that has every node of the graph. *)
Lemma built_groups g gs (l : list (string * graphNode)) :
  built g gs → NoDup l.*1 →
  (∀ n x, (n, x) ∈ l → ∃ y, g !! n = Some y ∧ data x = data y) → (∀ n, is_Some (g !! n) → n ∈ l.*1) →
  omap (λ x, data x.2) l ≡ₚ gs.
Proof.
  intros Hb Hnd Hl Hall. apply NoDup_Permutation.
  - apply groups_NoDup; [done|]. intros n x y Hx Hd. destruct (Hl n x Hx) as (z & Hz & He).
    apply (built_data _ _ Hb n z y Hz). congruence.
  - eapply NoDup_fmap_1, Hb.
  - intros y. rewrite list_elem_of_omap. split.
    + intros ([n x] & Hx & Hd). destruct (Hl n x Hx) as (z & Hz & He). apply (built_data _ _ Hb n z y Hz). simpl in *. congruence.
    + intros Hy. destruct (built_group _ _ Hb y Hy) as (x & Hx & Hd).
      assert (g_name y ∈ l.*1) as Hn by (apply Hall; eauto). apply list_elem_of_fmap in Hn as ([n z] & Hn & Hz). simpl in Hn.
      exists (n, z). split; [done|]. destruct (Hl n z Hz) as (w & Hw & He). simpl. rewrite He. subst n. congruence.
Qed.

Lemma sum_omap {A B} (f : A → option B) (w : B → nat) l :
  sum_list_with (λ x, from_option w 0 (f x)) l = sum_list_with w (omap f l).
Proof. induction l as [|x l IH]; simpl; [done|]. rewrite IH. by destruct (f x). Qed.

Lemma sum_fmap {A B} (f : A → B) (w : B → nat) l : sum_list_with w (f <$> l) = sum_list_with (λ x, w (f x)) l.
Proof. induction l as [|x l IH]; simpl; [done|]. by rewrite <- IH. Qed.

Lemma sum_ext {A} (v w : A → nat) l : (∀ x, x ∈ l → v x = w x) → sum_list_with v l = sum_list_with w l.
Proof.
  induction l as [|x l IH]; intros H; simpl; [done|]. rewrite (H x (list_elem_of_here _ _)), IH; [done|].
  intros y Hy. apply H. by right.
Qed.

Lemma built_total g gs n : built g gs → total (proxies_of <$> g) n = refs gs n.
Proof.
  intros Hb. unfold total, refs. rewrite map_to_list_fmap, sum_fmap.
  rewrite <- (sum_perm _ (omap (λ x, data x.2) (map_to_list g)) gs).
  2:{ apply (built_groups g gs); [done|apply NoDup_fst_map_to_list|..].
      - intros m x Hx%elem_of_map_to_list. by exists x.
      - intros m [x Hx]. apply list_elem_of_fmap. exists (m, x). split; [done|]. by apply elem_of_map_to_list. }
  rewrite <- sum_omap. apply sum_ext. intros [k x] _. simpl. unfold proxies_of. by destruct (data x).
Qed.

Lemma built_counted g gs : built g gs → counted indegree proxies_of g.
Proof.
  intros Hb. split.
  - intros n x Hx. rewrite (built_total g gs) by done. by apply (built_in _ _ Hb).
  - intros m x n Hm. unfold proxies_of. destruct (data x) as [y|] eqn:Hy; [|by intros ?%elem_of_nil].
    destruct (built_data _ _ Hb m x y Hm Hy). by apply (built_ref _ _ Hb).
Qed.

(** *** Locating the loop *)

(** What the nodes [ns] with the references [P] add to the node [n]. *)
Definition filled (P : string → list string) (ns : list string) (n : string) (x : graphNode) : graphNode :=
  mkNode (indegree x) (data x) (outdegree x + Z.of_nat (sum_list_with (λ m, if decide (m = n) then length (P m) else 0) ns))
    (from x ++ concat (map (λ m, replicate (count n (P m)) m) ns)).

(** The first [j] references of a node are done: [ps]. *)
Lemma fill_edges_spec name ps (g : graph) :
  is_Some (g !! name) → (∀ p, p ∈ ps → is_Some (g !! p)) →
  ∃ g', foldl (fill_edge name) (Some g) ps = Some g' ∧ ∀ n, g' !! n = filled (λ _, ps) [name] n <$> g !! n.
Proof.
  revert g. induction ps as [|p ps IH]; intros g Hn Hp; simpl.
  - exists g. split; [done|]. intros n. destruct (g !! n) as [[i d o f]|]; [|done]. unfold filled. simpl. rewrite app_nil_r.
    case_decide; simpl; do 2 f_equal; lia.
  - destruct Hn as [node Hn]. rewrite Hn. simpl. set (g1 := <[name := inc_out node]> g).
    assert (∀ n, is_Some (g1 !! n) ↔ is_Some (g !! n)) as Hd.
    { intros n. unfold g1. destruct (decide (name = n)) as [<-|]; [rewrite lookup_insert_eq, Hn; naive_solver|by rewrite lookup_insert_ne]. }
    destruct (proj2 (Hd p)) as [child Hc]; [by apply Hp; left|]. rewrite Hc. simpl.
    destruct (IH (<[p := add_from name child]> g1)) as (g' & -> & Hg').
    + apply lookup_insert_is_Some'. right. apply Hd. by eexists.
    + intros q Hq. apply lookup_insert_is_Some'. right. apply Hd, Hp. by right.
    + exists g'. split; [done|]. intros n. rewrite Hg'. unfold filled. simpl. rewrite !app_nil_r, !Nat.add_0_r, count_cons.
      unfold g1 in *. clear IH Hg' Hp Hd g1.
      destruct (decide (p = n)) as [->|Hpn].
      * rewrite lookup_insert_eq. destruct (decide (name = n)) as [->|Hnn].
        -- rewrite lookup_insert_eq in Hc. injection Hc as <-. rewrite Hn. simpl. rewrite <- (assoc_L (++)). do 2 f_equal. lia.
        -- rewrite lookup_insert_ne in Hc by done. rewrite Hc. simpl. rewrite <- (assoc_L (++)). do 2 f_equal; lia.
      * rewrite lookup_insert_ne by done. destruct (decide (name = n)) as [->|Hnn].
        -- rewrite lookup_insert_eq, Hn. simpl. do 2 f_equal. lia.
        -- by rewrite lookup_insert_ne.
Qed.

Lemma filled_snoc P ns k n x : filled (λ _, P k) [k] n (filled P ns n x) = filled P (ns ++ [k]) n x.
Proof.
  unfold filled. simpl. rewrite map_app, concat_app. simpl. rewrite !app_nil_r, (assoc_L (++)). f_equal.
  assert (∀ w, sum_list_with w (ns ++ [k]) = sum_list_with w ns + w k) as ->; [|lia].
  intros w. clear. induction ns as [|m ns IH]; simpl in *; lia.
Qed.

Lemma filled_proxies P ns n x : proxies_of (filled P ns n x) = proxies_of x.
Proof. done. Qed.

Lemma fill_nodes_spec (g : graph) ns :
  (∀ m x n, g !! m = Some x → n ∈ proxies_of x → is_Some (g !! n)) → (∀ n, n ∈ ns → is_Some (g !! n)) →
  ∃ g', foldl fill_node (Some g) ns = Some g' ∧
    ∀ n, g' !! n = filled (λ m, from_option proxies_of [] (g !! m)) ns n <$> g !! n.
Proof.
  intros Hr. set (P m := from_option proxies_of [] (g !! m)).
  induction ns as [|k ns IH] using rev_ind; intros Hns.
  - exists g. split; [done|]. intros n. destruct (g !! n) as [[i d o f]|]; [|done]. unfold filled. simpl. rewrite app_nil_r. do 2 f_equal. lia.
  - destruct IH as (g' & Hf & Hg'); [intros n Hn; apply Hns, elem_of_app; by left|].
    rewrite foldl_app, Hf. simpl. destruct (Hns k) as [node Hk]; [apply elem_of_app; right; by left|].
    rewrite Hg', Hk. simpl. rewrite filled_proxies.
    assert (proxies_of node = P k) as HP by (unfold P; by rewrite Hk). rewrite HP.
    destruct (fill_edges_spec k (P k) g') as (g2 & -> & Hg2).
    + by rewrite Hg', fmap_is_Some, Hk.
    + intros p Hp. rewrite Hg', fmap_is_Some. apply (Hr k node p Hk). by rewrite HP.
    + exists g2. split; [done|]. intros n. rewrite Hg2, Hg'. destruct (g !! n); [|done]. simpl. by rewrite filled_snoc.
Qed.

Lemma count_replicate n j k : count n (replicate j k) = if decide (k = n) then j else 0.
Proof. induction j as [|j IH]; simpl; [by case_decide|]. rewrite count_cons, IH. by case_decide. Qed.

Lemma sum_point {A} `{EqDecision A} (w : A → nat) k l :
  NoDup l → k ∈ l → sum_list_with (λ m, if decide (m = k) then w m else 0) l = w k.
Proof.
  intros Hnd. induction Hnd as [|m l Hm Hnd IH]; [by intros ?%elem_of_nil|]. simpl. intros [->|Hk]%elem_of_cons.
  - rewrite decide_True by done. enough (sum_list_with (λ m, if decide (m = m) then w m else 0) l = sum_list_with (λ m, if decide (m = m) then w m else 0) l); [|done].
    rewrite (sum_ext _ (λ _, 0)); [|intros x Hx; by rewrite decide_False by (by intros ->)].
    assert (sum_list_with (λ _ : A, 0) l = 0) as ->; [|lia]. clear. induction l; simpl; lia.
  - rewrite decide_False, IH by (done || by intros ->). done.
Qed.

Lemma count_from (P : string → list string) ns m n :
  count m (concat (map (λ k, replicate (count n (P k)) k) ns))
  = sum_list_with (λ k, if decide (k = m) then count n (P k) else 0) ns.
Proof. induction ns as [|k ns IH]; simpl; [done|]. by rewrite count_app, count_replicate, IH. Qed.

(** Every reference is counted at one of the nodes. *)
Lemma sum_count keys l : NoDup keys → (∀ n, n ∈ l → n ∈ keys) → sum_list_with (λ n, count n l) keys = length l.
Proof.
  intros Hnd. induction l as [|x l IH]; intros Hl; simpl.
  - clear. induction keys; simpl; [done|]. unfold count at 1. done.
  - rewrite <- IH by (intros n Hn; apply Hl; by right).
    rewrite (sum_ext _ (λ n, (if decide (n = x) then 1 else 0) + count n l)).
    2:{ intros n _. rewrite count_cons. destruct (decide (x = n)), (decide (n = x)); congruence. }
    pose proof (sum_point (λ _, 1) x keys Hnd (Hl x (list_elem_of_here _ _))) as Hx.
    transitivity (sum_list_with (λ n, if decide (n = x) then 1 else 0) keys + sum_list_with (λ n, count n l) keys); [|by rewrite Hx].
    clear. induction keys as [|k keys IHk]; simpl; [done|]. rewrite IHk. lia.
Qed.

(** *** The two results *)

Lemma keys_in {A} (m : gmap string A) k : k ∈ (map_to_list m).*1 ↔ is_Some (m !! k).
Proof.
  rewrite list_elem_of_fmap. split.
  - intros ([j x] & -> & Hx%elem_of_map_to_list). by exists x.
  - intros [x Hx]. exists (k, x). split; [done|]. by apply elem_of_map_to_list.
Qed.

Section Sorting.
Context (iter : graph → list string) (iter_all : ∀ g, iter g ≡ₚ (map_to_list g).*1).

Lemma iter_in g n : n ∈ iter g ↔ is_Some (g !! n).
Proof. rewrite iter_all. apply keys_in. Qed.

Lemma iter_NoDup g : NoDup (iter g).
Proof. rewrite iter_all. apply NoDup_fst_map_to_list. Qed.

Lemma start_queued cnt g : queued cnt g (start_queue cnt iter g).
Proof.
  unfold start_queue. split; [apply NoDup_filter, iter_NoDup|]. intros n. rewrite list_elem_of_filter, iter_in.
  destruct (g !! n) as [x|]; simpl; split.
  - intros [[= Hx] _]. by exists x.
  - intros (y & [= <-] & ->). done.
  - by intros [? _].
  - by intros (y & ? & _).
Qed.

(** What is left after the first loop, with the references filled in. *)
Lemma fill_counted (g : graph) :
  counted indegree proxies_of g → (∀ n x, g !! n = Some x → outdegree x = 0%Z ∧ from x = []) →
  ∃ g', foldl fill_node (Some g) (iter g) = Some g' ∧ counted outdegree from g' ∧
    (∀ n, is_Some (g' !! n) ↔ is_Some (g !! n)) ∧
    (∀ n x k, g' !! n = Some x → k ∈ from x ↔ ∃ y, g !! k = Some y ∧ n ∈ proxies_of y).
Proof.
  intros [Hc Hr] H0. destruct (fill_nodes_spec g (iter g) Hr) as (g' & Hf & Hg'); [intros n; apply iter_in|].
  set (P m := from_option proxies_of [] (g !! m)) in *. exists g'.
  assert (∀ n, is_Some (g' !! n) ↔ is_Some (g !! n)) as Hd by (intros n; by rewrite Hg', fmap_is_Some).
  assert (∀ n x, g' !! n = Some x →
    outdegree x = Z.of_nat (length (P n)) ∧ from x = concat (map (λ k, replicate (count n (P k)) k) (iter g))) as Hx.
  { intros n x Hx. rewrite Hg' in Hx. destruct (g !! n) as [y|] eqn:Hy; [|done]. injection Hx as <-.
    destruct (H0 n y Hy) as [Ho Hfr]. unfold filled. simpl. rewrite Ho, Hfr. split; [|done].
    rewrite (sum_point (λ m, length (P m))); [lia|apply iter_NoDup|by apply iter_in; eexists]. }
  assert (∀ n x k, g' !! n = Some x → k ∈ from x ↔ ∃ y, g !! k = Some y ∧ n ∈ proxies_of y) as Hfrom.
  { intros n x k Hn. rewrite (proj2 (Hx n x Hn)), elem_of_concat_map. split.
    - intros (m & Hm & Hk). apply elem_of_replicate in Hk as [-> Hk].
      apply iter_in in Hm as [y Hy]. exists y. split; [done|]. destruct (decide (n ∈ P m)) as [Hi|Hi].
      + unfold P in Hi. by rewrite Hy in Hi.
      + by apply count_zero in Hi.
    - intros (y & Hy & Hi). exists k. split; [by apply iter_in; eexists|]. apply elem_of_replicate. split; [done|].
      intros Hz. apply count_zero in Hz. apply Hz. unfold P. by rewrite Hy. }
  split; [done|]. split; [|by split]. split.
  - intros m x Hm. rewrite (proj1 (Hx m x Hm)). f_equal. unfold total.
    rewrite map_to_list_fmap, sum_fmap. simpl.
    rewrite (sum_ext _ (λ z, count z.1 (P m))).
    2:{ intros [n z] Hz%elem_of_map_to_list. simpl. rewrite (proj2 (Hx n z Hz)), count_from. apply (sum_point (λ k, count n (P k))); [apply iter_NoDup|].
        apply iter_in, Hd. by eexists. }
    rewrite <- (sum_fmap fst (λ n, count n (P m))). symmetry. apply sum_count; [apply NoDup_fst_map_to_list|].
    intros n Hn. rewrite <- iter_all, iter_in, Hd. unfold P in Hn. destruct (g !! m) as [y|] eqn:Hy; [|by apply elem_of_nil in Hn].
    by apply (Hr m y n Hy).
  - intros m x n Hm (y & Hy & _)%(Hfrom m x n Hm). apply Hd. by eexists.
Qed.

(** A list in which a group comes after all groups it refers to. *)
Definition ordered (l : list group) : Prop :=
  StronglySorted (λ a b, g_name b ∉ g_proxies a) l ∧ ∀ a, a ∈ l → g_name a ∉ g_proxies a.

(** Names of groups that each refer to one of the names and are referred to by a
    group of the names. *)
Definition tangled (groups : list group) (es : list string) : Prop :=
  es ≠ [] ∧ ∀ n, n ∈ es →
    (∃ a p, a ∈ groups ∧ g_name a = n ∧ p ∈ es ∧ p ∈ g_proxies a) ∧
    (∃ b, b ∈ groups ∧ g_name b ∈ es ∧ n ∈ g_proxies b).

Definition good_result (groups : list group) (r : dag_result) : Prop :=
  match r with
  | DuplicateName => ¬ NoDup (g_name <$> groups)
  | Sorted l => NoDup (g_name <$> groups) ∧ l ≡ₚ groups ∧ ordered l
  | Loop es => NoDup (g_name <$> groups) ∧ tangled groups es
  end.

Lemma ordered_omap (ks : list (string * graphNode)) :
  (∀ n x y, (n, x) ∈ ks → data x = Some y → g_name y = n) →
  StronglySorted (λ a b, b.1 ∉ proxies_of a.2) ks → (∀ n x, (n, x) ∈ ks → n ∉ proxies_of x) →
  ordered (omap (λ x, data x.2) ks).
Proof.
  intros Hname Hs Hself. split.
  - clear Hself. induction Hs as [|[n x] ks Hs IH Hx]; simpl; [constructor|].
    assert (StronglySorted (λ a b, g_name b ∉ g_proxies a) (omap (λ x, data x.2) ks)) as Hrest.
    { apply IH. intros m z y Hz. apply Hname. by right. }
    destruct (data x) as [y|] eqn:Hy; [|done]. constructor; [done|]. apply Forall_forall.
    intros b ([m z] & Hz & Hd)%list_elem_of_omap. rewrite Forall_forall in Hx. specialize (Hx _ Hz). simpl in *.
    rewrite (Hname m z b) by (done || by right). unfold proxies_of in Hx. by rewrite Hy in Hx.
  - intros a ([n x] & Hx & Hd)%list_elem_of_omap. simpl in Hd. rewrite (Hname n x a Hx Hd).
    specialize (Hself n x Hx). unfold proxies_of in Hself. by rewrite Hd in Hself.
Qed.

(** The nodes the second loop leaves. *)
Lemma leftover_tangled (g g1 g2 g3 : graph) groups ks :
  built g groups →
  counted indegree proxies_of g1 → (∀ n x, g1 !! n = Some x → indegree x ≠ 0%Z) →
  (∀ n x, g1 !! n = Some x → ∃ y, g !! n = Some y ∧ data x = data y) → g1 ≠ ∅ →
  (∀ n, is_Some (g2 !! n) ↔ is_Some (g1 !! n)) →
  (∀ n x k, g2 !! n = Some x → k ∈ from x ↔ ∃ y, g1 !! k = Some y ∧ n ∈ proxies_of y) →
  counted outdegree from g3 → (∀ n x, g3 !! n = Some x → outdegree x ≠ 0%Z) →
  (∀ n x, g3 !! n = Some x → ∃ y, g2 !! n = Some y ∧ from x = from y) →
  (∀ n x, (n, x) ∈ ks → ∃ y, g2 !! n = Some y ∧ from x = from y) →
  (∀ n, is_Some (g2 !! n) ↔ is_Some (g3 !! n) ∨ n ∈ ks.*1) →
  StronglySorted (λ a b, b.1 ∉ from a.2) ks → (∀ n x, (n, x) ∈ ks → n ∉ from x) →
  tangled groups (iter g3).
Proof.
  intros Hb Hc1 Hp1 Hd1 Hne Hdom2 Hfrom Hc3 Hp3 Hd3 Hks Hdom3 Hs Hself.
  assert (∀ k n x, g1 !! k = Some x → n ∈ proxies_of x → ∃ a, a ∈ groups ∧ g_name a = k ∧ n ∈ g_proxies a) as Hgroup.
  { intros k n x Hk Hn. destruct (Hd1 k x Hk) as (y & Hy & Hxy). unfold proxies_of in Hn.
    destruct (data x) as [a|] eqn:Ha; [|by apply elem_of_nil in Hn].
    destruct (built_data _ _ Hb k y a Hy) as [? ?]; [done|]. by exists a. }
  assert (∀ n x, g2 !! n = Some x → ∃ k, k ∈ from x) as Hpred.
  { intros n x Hn. destruct (proj1 (Hdom2 n)) as [y Hy]; [by eexists|].
    pose proof (proj1 Hc1 n y Hy) as Ht. specialize (Hp1 n y Hy).
    destruct (total_pos (proxies_of <$> g1) n) as (k & l & Hk & Hl); [lia|].
    apply lookup_fmap_Some in Hk as (z & <- & Hz). exists k. apply (Hfrom n x k Hn). by exists z. }
  split.
  - intros He. assert (∀ n, g3 !! n = None) as H3.
    { intros n. apply eq_None_not_Some. rewrite <- iter_in, He. apply not_elem_of_nil. }
    destruct ks as [|[n x] ks].
    + apply Hne, map_eq. intros n. rewrite lookup_empty. apply eq_None_not_Some. rewrite <- Hdom2, Hdom3.
      intros [[? ?]|?%elem_of_nil]; [congruence|done].
    + destruct (Hks n x) as (y & Hy & Hxy); [by left|]. destruct (Hpred n y Hy) as [k Hk]. rewrite <- Hxy in Hk.
      assert (is_Some (g2 !! k)) as Hk2.
      { rewrite Hxy in Hk. apply (Hfrom n y k Hy) in Hk as (z & Hz & _). apply Hdom2. by eexists. }
      apply Hdom3 in Hk2 as [[? ?]|Hk2]; [congruence|]. simpl in Hk2. apply elem_of_cons in Hk2 as [->|Hk2].
      * by apply (Hself n x (list_elem_of_here _ _)).
      * apply list_elem_of_fmap in Hk2 as (b & -> & Hb2). apply StronglySorted_inv in Hs as [_ Hs].
        rewrite Forall_forall in Hs. by apply (Hs b Hb2).
  - intros n Hn. apply iter_in in Hn as [x Hx]. split.
    + pose proof (proj1 Hc3 n x Hx) as Ht. specialize (Hp3 n x Hx).
      destruct (total_pos (from <$> g3) n) as (p & l & Hp & Hl); [lia|].
      apply lookup_fmap_Some in Hp as (z & <- & Hz). destruct (Hd3 p z Hz) as (w & Hw & Hzw). rewrite Hzw in Hl.
      apply (Hfrom p w n Hw) in Hl as (y & Hy & Hpy). destruct (Hgroup n p y Hy Hpy) as (a & Ha & Hna & Hpa).
      exists a, p. split_and!; [done|done| |done]. apply iter_in. by eexists.
    + destruct (Hd3 n x Hx) as (y & Hy & Hxy). destruct (Hpred n y Hy) as [k Hk].
      pose proof Hk as Hk'. rewrite <- Hxy in Hk'. apply (Hfrom n y k Hy) in Hk as (z & Hz & Hnz).
      destruct (Hgroup k n z Hz Hnz) as (b & Hb' & Hbk & Hnb). exists b. split_and!; [done| |done].
      apply iter_in. rewrite Hbk. by apply (proj2 Hc3 n x k Hx).
Qed.

Lemma sort_good groups : ∃ r, proxyGroupsDagSort iter groups = Some r ∧ good_result groups r.
Proof.
  unfold proxyGroupsDagSort. pose proof (build_spec groups ∅ [] built_empty) as Hb.
  destruct (build ∅ groups) as [g|]; [|by eexists]. simpl in Hb.
  destruct (peel_spec indegree dec_in proxies_of (λ _, eq_refl) (λ _, eq_refl) (λ x, (data x, outdegree x, from x)) (λ _, eq_refl)
    (size g) g (start_queue indegree iter g) [] (le_n _) (built_counted g groups Hb) (start_queued indegree g))
    as (g1 & ks & -> & Hc1 & Hp1 & Hl1 & Hk1 & Hd1 & Hnd1 & Hs1 & Hself1 & _).
  simpl. rewrite app_nil_r. case_bool_decide as He.
  - exists (Sorted (omap (λ x, data x.2) ks)). split; [done|]. split; [apply Hb|]. split.
    + apply (built_groups g groups ks Hb Hnd1).
      * intros n x Hx. destruct (Hk1 n x Hx) as (y & Hy & _ & [= Hxy _ _]). by exists y.
      * intros n Hn. apply Hd1 in Hn as [[x Hx]|?]; [|done]. by rewrite He, lookup_empty in Hx.
    + apply ordered_omap; [|done|done]. intros n x y Hx Hy. destruct (Hk1 n x Hx) as (z & Hz & _ & [= Hxz _ _]).
      apply (built_data _ _ Hb n z y Hz). congruence.
  - destruct (fill_counted g1 Hc1) as (g2 & -> & Hc2 & Hdom2 & Hfrom).
    { intros n x Hx. destruct (Hl1 n x Hx) as (y & Hy & _ & [= _ -> ->]). by apply (built_in _ _ Hb n). }
    simpl.
    destruct (peel_spec outdegree dec_out from (λ _, eq_refl) (λ _, eq_refl) (λ x, data x) (λ _, eq_refl)
      (size g2) g2 (start_queue outdegree iter g2) [] (le_n _) Hc2 (start_queued outdegree g2))
      as (g3 & ks2 & -> & Hc3 & Hp3 & Hl3 & Hk3 & Hd3 & _ & Hs3 & Hself3 & _).
    simpl. eexists. split; [done|]. split; [apply Hb|].
    apply (leftover_tangled g g1 g2 g3 groups ks2); try done.
    + intros n x Hx. destruct (Hl1 n x Hx) as (y & Hy & _ & [= ? _ _]). by exists y.
    + intros n x Hx. destruct (Hl3 n x Hx) as (y & Hy & ? & _). by exists y.
    + intros n x Hx. destruct (Hk3 n x Hx) as (y & Hy & ? & _). by exists y.
Qed.

Lemma NoDup_fmap_inj {A B} (f : A → B) l x y : NoDup (f <$> l) → x ∈ l → y ∈ l → f x = f y → x = y.
Proof.
  induction l as [|z l IH]; [by intros _ ?%elem_of_nil|]. simpl. intros [Hz Hnd]%NoDup_cons.
  intros [->|Hx]%elem_of_cons [->|Hy]%elem_of_cons He; [done| | |by apply IH].
  - destruct Hz. rewrite He. by apply list_elem_of_fmap_2.
  - destruct Hz. rewrite <- He. by apply list_elem_of_fmap_2.
Qed.

(** Groups that can be put in order are not tangled. *)
Lemma ordered_not_tangled l groups es :
  NoDup (g_name <$> groups) → l ≡ₚ groups → ordered l → ¬ tangled groups es.
Proof.
  intros Hnd Hp [Hs Hself] [Hne Ht].
  assert (∀ a, a ∈ l → g_name a ∉ es) as Hnone.
  { clear Hne. assert (∀ n, n ∈ es → ∃ a p, a ∈ l ∧ g_name a = n ∧ p ∈ es ∧ p ∈ g_proxies a ∧ ∃ c, c ∈ l ∧ g_name c = p) as H.
    { intros n Hn. destruct (Ht n Hn) as ((a & p & Ha & Hna & Hp' & Hpa) & _).
      destruct (Ht p Hp') as ((c & q & Hc & Hnc & _) & _). exists a, p. rewrite Hp. split_and!; try done.
      exists c. by rewrite Hp. }
    assert (NoDup (g_name <$> l)) as Hnd' by (by rewrite Hp). clear Hp Hnd Ht groups.
    (* by the position in [l]: a tangled group refers to an earlier one *)
    enough (∀ l1 l2, l = l1 ++ l2 → ∀ a, a ∈ l1 → g_name a ∉ es) as Hgo by (intros a Ha; by apply (Hgo l []); [rewrite app_nil_r|]).
    intros l1. induction l1 as [|x l1 IH] using rev_ind; intros l2 Hl a Ha He; [by apply elem_of_nil in Ha|].
    rewrite <- (assoc_L (++)) in Hl. simpl in Hl. specialize (IH (x :: l2) Hl).
    apply elem_of_app in Ha as [Ha|Ha%list_elem_of_singleton]; [by apply (IH a Ha)|]. subst a.
    destruct (H _ He) as (y & p & Hy & Hyx & Hpe & Hpy & c & Hc & Hcp).
    assert (y = x) as ->.
    { apply (NoDup_fmap_inj g_name l); try done. rewrite Hl. apply elem_of_app. right. by left. }
    rewrite Hl in Hc. apply elem_of_app in Hc as [Hc|Hc].
    - apply (IH c Hc). by rewrite Hcp.
    - apply elem_of_cons in Hc as [->|Hc]; [apply (Hself x Hy); by rewrite Hcp|].
      rewrite Hl in Hs. apply StronglySorted_app_1_r in Hs. apply StronglySorted_inv in Hs as [_ Hs].
      rewrite Forall_forall in Hs. apply (Hs c Hc). by rewrite Hcp. }
  destruct es as [|n es]; [done|]. destruct (Ht n) as ((a & p & Ha & <- & _) & _); [by left|].
  apply (Hnone a); [by rewrite Hp|by left].
Qed.

End Sorting.

(** C31: [proxyGroupsDagSort] always returns: two groups of one name are an error;
    else it has either put all groups, each once, in an order in which a group
    comes after the groups it refers to, or it reports groups that each refer to
    one of the reported groups and are referred to by one.  This is so in
    whatever order the maps are visited. *)
Theorem dag_sort_correct (iter : graph → list string) (iter_all : ∀ g, iter g ≡ₚ (map_to_list g).*1) groups :
  ∃ r, proxyGroupsDagSort iter groups = Some r ∧
    match r with
    | DuplicateName => ¬ NoDup (g_name <$> groups)
    | Sorted l => NoDup (g_name <$> groups) ∧ l ≡ₚ groups ∧ ordered l
    | Loop es => NoDup (g_name <$> groups) ∧ tangled groups es
    end.
Proof. exact (sort_good iter iter_all groups). Qed.

Lemma dag_sort_correct_witness :
  ∃ r, proxyGroupsDagSort (λ g, (map_to_list g).*1) [mkGroup "a" ["b"; "DIRECT"]; mkGroup "b" ["c"]; mkGroup "c" ["DIRECT"]]%string = Some r ∧
    match r with
    | DuplicateName => ¬ NoDup (g_name <$> [mkGroup "a" ["b"; "DIRECT"]; mkGroup "b" ["c"]; mkGroup "c" ["DIRECT"]]%string)
    | Sorted l => NoDup (g_name <$> [mkGroup "a" ["b"; "DIRECT"]; mkGroup "b" ["c"]; mkGroup "c" ["DIRECT"]]%string) ∧
        l ≡ₚ [mkGroup "a" ["b"; "DIRECT"]; mkGroup "b" ["c"]; mkGroup "c" ["DIRECT"]]%string ∧ ordered l
    | Loop es => NoDup (g_name <$> [mkGroup "a" ["b"; "DIRECT"]; mkGroup "b" ["c"]; mkGroup "c" ["DIRECT"]]%string) ∧
        tangled [mkGroup "a" ["b"; "DIRECT"]; mkGroup "b" ["c"]; mkGroup "c" ["DIRECT"]]%string es
    end.
Proof. apply (dag_sort_correct (λ g, (map_to_list g).*1)). intros g. done. Defined.

(** Groups with different names that can be put in order are put in order:
    no loop is reported for them. *)
Theorem dag_sort_complete (iter : graph → list string) (iter_all : ∀ g, iter g ≡ₚ (map_to_list g).*1) groups l :
  NoDup (g_name <$> groups) → l ≡ₚ groups → ordered l →
  ∃ l', proxyGroupsDagSort iter groups = Some (Sorted l').
Proof.
  intros Hnd Hp Ho. destruct (sort_good iter iter_all groups) as (r & -> & Hr). destruct r as [l'|es|]; [by eexists| |].
  - destruct Hr as [_ Hr]. by destruct (ordered_not_tangled l groups es Hnd Hp Ho).
  - by destruct Hr.
Qed.

Lemma dag_sort_complete_witness :
  ∃ l', proxyGroupsDagSort (λ g, (map_to_list g).*1) [mkGroup "a" ["b"]; mkGroup "b" ["DIRECT"]]%string = Some (Sorted l').
Proof.
  apply (dag_sort_complete (λ g, (map_to_list g).*1) (λ g, Permutation_refl _) _ [mkGroup "b" ["DIRECT"]; mkGroup "a" ["b"]]%string).
  - by apply (bool_decide_unpack _).
  - apply Permutation_swap.
  - split; [repeat constructor; simpl; by apply (bool_decide_unpack _)|].
    apply Forall_forall. repeat constructor; simpl; by apply (bool_decide_unpack _).
Defined.

(** ** The dialer of a proxy may be another proxy *)

Inductive dialer_result :=
  | DialerOk
  | DialerNotFound (name dialerProxy : string)
  | DialerLoop (name : string).

(** The first half: [proxies] holds the [DialerProxy] field of each proxy. *)
Fixpoint dialer_graph (proxies : gmap string string) (names : list string) (graph : gmap string string)
    : dialer_result + gmap string string :=
  match names with
  | [] => inr graph
  | name :: names' =>
    let dialerProxy := default EmptyString (proxies !! name) in
    if bool_decide (dialerProxy = EmptyString) then dialer_graph proxies names' graph
    else
      match proxies !! dialerProxy with
      | None => inl (DialerNotFound name dialerProxy)
      | Some _ => dialer_graph proxies names' (<[name := dialerProxy]> graph)
      end
  end.

(** [None] is too little fuel, which there is not. *)
Fixpoint validateDialerProxiesHasCycle (fuel : nat) (current : string) (graph : gmap string string)
    (visited : gset string) (path : list string) : option bool :=
  match fuel with
  | O => None
  | S fuel' =>
    if bool_decide (current ∈ path) then Some true
    else if bool_decide (current ∈ visited) then Some false
    else
      match graph !! current with
      | Some dialerProxy => validateDialerProxiesHasCycle fuel' dialerProxy graph ({[current]} ∪ visited) (path ++ [current])
      | None => Some false
      end
  end.

Fixpoint dialer_check (graph : gmap string string) (names : list string) : option dialer_result :=
  match names with
  | [] => Some DialerOk
  | name :: names' =>
    cycle ← validateDialerProxiesHasCycle (S (size graph)) name graph ∅ [];
    if (cycle : bool) then Some (DialerLoop name) else dialer_check graph names'
  end.

Definition validateDialerProxies (iter : gmap string string → list string) (proxies : gmap string string) : option dialer_result :=
  match dialer_graph proxies (iter proxies) ∅ with
  | inl e => Some e
  | inr graph => dialer_check graph (iter graph)
  end.

Example dialer_demo :
  validateDialerProxies (λ g, (map_to_list g).*1) (<["a" := "b"]> (<["b" := ""]> ∅))%string = Some DialerOk ∧
  validateDialerProxies (λ g, (map_to_list g).*1) (<["a" := "b"]> (<["b" := "b"]> ∅))%string ≠ Some DialerOk ∧
  validateDialerProxies (λ g, (map_to_list g).*1) (<["a" := "c"]> ∅)%string = Some (DialerNotFound "a" "c")%string.
Proof. vm_compute. by split_and!. Qed.

(** [n] after [k] dialers. *)
Definition follow (g : gmap string string) (k : nat) (n : string) : option string := Nat.iter k (λ o, o ≫= λ m, g !! m) (Some n).

Lemma follow_None (g : gmap string string) k : Nat.iter k (λ o, o ≫= λ m, g !! m) None = None.
Proof. induction k as [|k IH]; simpl; [done|]. by rewrite IH. Qed.

Lemma follow_S g k n : follow g (S k) n = g !! n ≫= follow g k.
Proof.
  unfold follow. rewrite Nat.iter_succ_r. simpl. destruct (g !! n) as [m|]; simpl; [done|apply follow_None].
Qed.

Lemma follow_add g j k n : follow g (j + k) n = follow g j n ≫= follow g k.
Proof.
  revert n. induction j as [|j IH]; intros n; [done|]. change (S j + k) with (S (j + k)). rewrite !follow_S.
  destruct (g !! n) as [m|]; [apply IH|done].
Qed.

(** The chain of dialers from [n] comes back to a proxy on it. *)
Definition loops (g : gmap string string) (n : string) : Prop := ∃ j k m, follow g j n = Some m ∧ follow g (S k) m = Some m.

Lemma loops_next g n m : g !! n = Some m → loops g n ↔ loops g m.
Proof.
  intros Hn. split; intros (j & k & x & Hj & Hk).
  - destruct j as [|j]; [|exists j, k, x; by rewrite follow_S, Hn in Hj]. injection Hj as <-.
    exists k, k, n. pose proof Hk as Hk'. rewrite follow_S, Hn in Hk'. by split.
  - exists (S j), k, x. by rewrite follow_S, Hn.
Qed.

Lemma loops_end g n : g !! n = None → ¬ loops g n.
Proof.
  intros Hn (j & k & x & Hj & Hk). destruct j as [|j]; [injection Hj as <-; by rewrite follow_S, Hn in Hk|by rewrite follow_S, Hn in Hj].
Qed.

(** The path is a chain of dialers that ends in [current]. *)
Definition chain_path (g : gmap string string) (path : list string) (current : string) : Prop :=
  NoDup path ∧ ∀ p, p ∈ path → is_Some (g !! p) ∧ ∃ k, follow g (S k) p = Some current.

Lemma chain_path_next g path n m : chain_path g path n → n ∉ path → g !! n = Some m → chain_path g (path ++ [n]) m.
Proof.
  intros [Hnd Hp] Hn Hm. split; [apply NoDup_app; split_and!; [done| |apply NoDup_singleton]|].
  - by intros x Hx ->%list_elem_of_singleton.
  - intros p [H|H]%elem_of_app.
    + destruct (Hp p H) as (? & k & Hk). split; [done|]. exists (k + 1). change (S (k + 1)) with (S k + 1).
      rewrite follow_add, Hk. exact Hm.
    + apply list_elem_of_singleton in H as ->. split; [by eexists|]. exists 0. by rewrite follow_S, Hm.
Qed.

Lemma has_cycle_spec fuel g n visited path :
  chain_path g path n → (∀ x, x ∈ visited → x ∈ path) → size g < fuel + length path →
  ∃ b, validateDialerProxiesHasCycle fuel n g visited path = Some b ∧ (b = true ↔ loops g n).
Proof.
  revert n visited path. induction fuel as [|fuel IH]; intros n visited path Hp Hv Hf; simpl.
  - destruct Hp as [Hnd Hp]. exfalso. enough (length path ≤ size g) by lia.
    rewrite <- (size_list_to_set (C := gset string) path), <- size_dom by done. apply subseteq_size.
    intros x Hx%elem_of_list_to_set. apply elem_of_dom. by apply Hp.
  - case_bool_decide as Hin.
    { exists true. split; [done|]. split; [|done]. intros _. destruct Hp as [_ Hp]. destruct (Hp n Hin) as (_ & k & Hk).
      by exists 0, k, n. }
    case_bool_decide as Hvis; [by apply Hv in Hvis|]. destruct (g !! n) as [m|] eqn:Hm.
    + destruct (IH m ({[n]} ∪ visited) (path ++ [n])) as (b & -> & Hb); [by apply chain_path_next| |rewrite length_app; simpl; lia|].
      2:{ exists b. split; [done|]. by rewrite Hb, (loops_next g n m Hm). }
      intros x. rewrite elem_of_union, elem_of_singleton, elem_of_app, list_elem_of_singleton. naive_solver.
    + exists false. split; [done|]. split; [done|]. by intros ?%loops_end.
Qed.

Lemma dialer_check_spec g names :
  (∃ n, n ∈ names ∧ loops g n ∧ dialer_check g names = Some (DialerLoop n)) ∨
  (∀ n, n ∈ names → ¬ loops g n) ∧ dialer_check g names = Some DialerOk.
Proof.
  induction names as [|n names IH]; cbn [dialer_check]; [right; split; [by intros ? ?%elem_of_nil|done]|].
  destruct (has_cycle_spec (S (size g)) g n ∅ []) as (b & -> & Hb); [|by intros x ?%elem_of_empty|simpl; lia|].
  { split; [constructor|]. by intros p ?%elem_of_nil. }
  cbn [mbind option_bind]. destruct b; [left; exists n; split; [by left|]; split; [by apply Hb|done]|].
  destruct IH as [(m & Hm & Hl & ->)|[Hn ->]]; [left; exists m; split; [by right|done]|].
  right. split; [|done]. intros m [->|Hm]%elem_of_cons; [|by apply Hn]. by intros ?%Hb.
Qed.

(** What a proxy dials through. *)
Definition dialer_of (proxies : gmap string string) (n : string) : option string :=
  d ← proxies !! n; if decide (d = EmptyString) then None else Some d.

Lemma dialer_graph_spec proxies names graph :
  NoDup names → (∀ n, n ∈ names → is_Some (proxies !! n) ∧ graph !! n = None) →
  match dialer_graph proxies names graph with
  | inl e => ∃ n d, e = DialerNotFound n d ∧ dialer_of proxies n = Some d ∧ proxies !! d = None
  | inr g => ∀ n, (n ∉ names → g !! n = graph !! n) ∧
      (n ∈ names → g !! n = dialer_of proxies n ∧ ∀ d, g !! n = Some d → is_Some (proxies !! d))
  end.
Proof.
  intros Hnd. revert graph. induction Hnd as [|n names Hn Hnd IH]; intros graph Hg; simpl.
  { intros n. split; [done|]. by intros ?%elem_of_nil. }
  destruct (Hg n) as [[d Hd] Hgn]; [by left|]. rewrite Hd. simpl. case_bool_decide as He.
  - specialize (IH graph). destruct (dialer_graph proxies names graph) as [e|g]; [apply IH; intros m Hm; apply Hg; by right|].
    intros m. destruct (IH (λ m Hm, Hg m (list_elem_of_further _ _ _ Hm)) m) as [H1 H2]. rewrite not_elem_of_cons, elem_of_cons. split; [naive_solver|].
    intros [->|Hm]; [|by apply H2]. rewrite H1, Hgn by done. unfold dialer_of. rewrite Hd. simpl. by rewrite decide_True.
  - destruct (proxies !! d) as [d'|] eqn:Hdd.
    + specialize (IH (<[n := d]> graph)).
      assert (∀ m, m ∈ names → is_Some (proxies !! m) ∧ <[n := d]> graph !! m = None) as Hm'.
      { intros m Hm. rewrite lookup_insert_ne by (by intros ->). apply Hg. by right. }
      specialize (IH Hm'). destruct (dialer_graph proxies names (<[n := d]> graph)) as [e|g]; [done|].
      intros m. destruct (IH m) as [H1 H2]. rewrite not_elem_of_cons, elem_of_cons. split.
      * intros [Hmn Hm]. rewrite H1 by done. by rewrite lookup_insert_ne.
      * intros [->|Hm]; [|by apply H2]. rewrite H1, lookup_insert_eq by done. unfold dialer_of. rewrite Hd. simpl.
        rewrite decide_False by done. split; [done|]. intros d0 Hd0. injection Hd0 as <-. rewrite Hdd. by eexists.
    + exists n, d. split_and!; [done| |done]. unfold dialer_of. rewrite Hd. simpl. by rewrite decide_False.
Qed.

Lemma follow_iter g (f : string → option string) k n :
  (∀ x, g !! x = f x) → follow g k n = Nat.iter k (λ o, o ≫= f) (Some n).
Proof. intros H. induction k as [|k IH]; [done|]. unfold follow in *. simpl. rewrite IH.
  destruct (Nat.iter k (λ o, o ≫= f) (Some n)) as [x|]; simpl; [apply H|done].
Qed.

Lemma loops_follow g n k : loops g n → is_Some (follow g k n).
Proof.
  revert n. induction k as [|k IH]; intros n Hn; [by eexists|]. rewrite follow_S.
  destruct (g !! n) as [m|] eqn:Hm; [|by apply loops_end in Hn]. by apply IH, (loops_next g n m Hm).
Qed.

(** [validateDialerProxies] accepts the proxies when every proxy that is named
    as a dialer exists and no proxy dials, in one step or more, through itself;
    else the error names a proxy whose dialer does not exist, or one whose chain
    of dialers never ends. *)
Theorem validate_dialers_correct (iter : gmap string string → list string)
    (iter_all : ∀ g, iter g ≡ₚ (map_to_list g).*1) proxies :
  ∃ r, validateDialerProxies iter proxies = Some r ∧
    match r with
    | DialerOk => ∀ n d, dialer_of proxies n = Some d → is_Some (proxies !! d) ∧
        ∀ k, Nat.iter k (λ o, o ≫= dialer_of proxies) (Some d) ≠ Some n
    | DialerNotFound n d => dialer_of proxies n = Some d ∧ proxies !! d = None
    | DialerLoop n => ∀ k, is_Some (Nat.iter k (λ o, o ≫= dialer_of proxies) (Some n))
    end.
Proof.
  unfold validateDialerProxies.
  assert (∀ n, n ∈ iter proxies ↔ is_Some (proxies !! n)) as Hin.
  { intros n. rewrite iter_all. apply keys_in. }
  pose proof (dialer_graph_spec proxies (iter proxies) ∅) as H.
  destruct (dialer_graph proxies (iter proxies) ∅) as [e|g].
  - destruct H as (n & d & -> & Hd & Hn).
    + rewrite iter_all. apply NoDup_fst_map_to_list.
    + intros n Hn. by apply Hin in Hn.
    + by eexists.
  - assert (∀ n, g !! n = dialer_of proxies n ∧ ∀ d, g !! n = Some d → is_Some (proxies !! d)) as Hg.
    { intros n. destruct H with (n := n) as [H1 H2]; [rewrite iter_all; apply NoDup_fst_map_to_list|by intros m ?%Hin|].
      destruct (decide (n ∈ iter proxies)) as [Hn|Hn]; [by apply H2|]. rewrite H1 by done. split; [|done].
      rewrite Hin in Hn. apply eq_None_not_Some in Hn. unfold dialer_of. by rewrite Hn. }
    assert (∀ k n, follow g k n = Nat.iter k (λ o, o ≫= dialer_of proxies) (Some n)) as Hf.
    { intros k n. apply follow_iter. intros x. apply Hg. }
    destruct (dialer_check_spec g (iter g)) as [(n & Hn & Hl & ->)|[Hno ->]]; eexists; (split; [done|]); simpl.
    + intros k. rewrite <- Hf. by apply loops_follow.
    + intros n d Hd. rewrite <- (proj1 (Hg n)) in Hd. split; [by apply (Hg n)|]. intros k Hk. rewrite <- Hf in Hk.
      apply (Hno n); [rewrite iter_all; apply keys_in; by eexists|]. exists 0, k, n. by rewrite follow_S, Hd.
Qed.

Lemma validate_dialers_correct_witness :
  ∃ r, validateDialerProxies (λ g, (map_to_list g).*1) (<["a" := "b"]> (<["b" := ""]> ∅))%string = Some r ∧
    match r with
    | DialerOk => ∀ n d, dialer_of (<["a" := "b"]> (<["b" := ""]> ∅))%string n = Some d →
        is_Some ((<["a" := "b"]> (<["b" := ""]> (∅ : gmap string string)))%string !! d) ∧
        ∀ k, Nat.iter k (λ o, o ≫= dialer_of (<["a" := "b"]> (<["b" := ""]> ∅))%string) (Some d) ≠ Some n
    | DialerNotFound n d => dialer_of (<["a" := "b"]> (<["b" := ""]> ∅))%string n = Some d ∧
        (<["a" := "b"]> (<["b" := ""]> (∅ : gmap string string)))%string !! d = None
    | DialerLoop n => ∀ k, is_Some (Nat.iter k (λ o, o ≫= dialer_of (<["a" := "b"]> (<["b" := ""]> ∅))%string) (Some n))
    end.
Proof. apply (validate_dialers_correct (λ g, (map_to_list g).*1)). intros g. done. Defined.
