(* ===== verification/DomainSet.v ===== *)
(** * The succinct domain set: [component/trie/domain_set.go] and [domain_set_bin.go]

    [NewDomainSet] lays the names of a trie, reversed and sorted, out as a
    byte trie in breadth-first order: [labels] holds the bytes on the edges,
    [labelBitmap] a 0 for each edge and a 1 at the end of each node, [leaves] a
    1 for each node that ends a name.  [Has] walks it with rank and select, and
    goes back to a [*] it passed when it is stuck.  A nil index out of range is
    [None].  Rank and select are a third-party library: the class [Bitmap], with
    what its documentation says in [BitmapLaws]. *)

From Stdlib Require Import ZArith Lia Ascii String.
From stdpp Require Import prelude strings list sorting.
From S2P Require Import Prelude DomainTrie.

Local Open Scope go_scope.

(** ** The bitmap library *)

Class Bitmap := {
  IndexSelect32R64 : list Z → list Z * list Z;
  Rank64 : list Z → list Z → Z → Z * Z;
  Select32R64 : list Z → list Z → list Z → Z → Z * Z }.

(** Bit [i] of a bitmap of 64-bit words. *)
Definition bit (bm : list Z) (i : nat) : bool :=
  match bm !! (i / 64) with Some w => Z.testbit w (Z.of_nat (i mod 64)) | None => false end.

(** The number of 1 bits before [i]. *)
Fixpoint ones (bm : list Z) (i : nat) : nat :=
  match i with O => 0 | S i' => ones bm i' + (if bit bm i' then 1 else 0) end.

Class BitmapLaws `{Bitmap} : Prop := {
  rank_law bm (i : nat) :
    i < 64 * length bm → (Z.of_nat i < 2 ^ 31)%Z →
    (Rank64 bm (IndexSelect32R64 bm).2 (Z.of_nat i)).1 = Z.of_nat (ones bm i);
  select_law bm (p : nat) :
    bit bm p = true → (Z.of_nat p < 2 ^ 31)%Z →
    (Select32R64 bm (IndexSelect32R64 bm).1 (IndexSelect32R64 bm).2 (Z.of_nat (ones bm p))).1 = Z.of_nat p }.

(** A Go slice indexed with an int. *)
Definition at_index {A} (l : list A) (i : Z) : option A := if (i <? 0)%Z then None else l !! Z.to_nat i.

Definition setBit (bm : list Z) (i : nat) (v : Z) : list Z :=
  let bm := bm ++ replicate (S (i / 64) - length bm) 0%Z in
  alter (λ w, Z.lor w (Z.shiftl v (Z.of_nat (i mod 64)))) (i / 64) bm.

Definition getBit (bm : list Z) (i : Z) : option Z :=
  w ← at_index bm (Z.shiftr i 6); Some (Z.land w (Z.shiftl 1 (Z.land i 63))).

Section DomainSet.
Context `{Bitmap}.

Definition countZeros (bm ranks : list Z) (i : Z) : Z := (i - (Rank64 bm ranks (to_i32 i)).1)%Z.

Definition selectIthOne (bm ranks selects : list Z) (i : Z) : Z := (Select32R64 bm selects ranks (to_i32 i)).1.

Record DomainSet := mkSet {
  leaves : list Z; labelBitmap : list Z; labels : list ascii; ranks : list Z; selects : list Z }.

(** ** Construction *)

Record qElt := mkElt { q_s : nat; q_e : nat; q_col : nat }.

(** Lexicographic order of bytes, as [sort.Strings] has it. *)
Fixpoint key_le (a b : list ascii) : bool :=
  match a, b with
  | [], _ => true
  | _ :: _, [] => false
  | x :: a', y :: b' =>
    (N_of_ascii x <? N_of_ascii y)%N || ((N_of_ascii x =? N_of_ascii y)%N && key_le a' b')
  end.

Definition sort_keys (keys : list (list ascii)) : list (list ascii) := merge_sort (λ a b, key_le a b) keys.

(** [utils.Reverse] on ASCII. *)
Definition Reverse (s : string) : list ascii := reverse (bytes s).

(** What the loop has built; [q_queue] is the whole queue, read parts included. *)
Record building := mkBuilding {
  b_leaves : list Z; b_bitmap : list Z; b_labels : list ascii; b_queue : list qElt; b_lIdx : nat }.

(** The inner loop over [j]: the end of the run of keys that have [c] at [col]. *)
Fixpoint group_end (keys : list (list ascii)) (col : nat) (c : ascii) (fuel j e : nat) : option nat :=
  match fuel with
  | O => Some j
  | S fuel' =>
    if j <? e then
      k ← keys !! j;
      x ← k !! col;
      if bool_decide (x = c) then group_end keys col c fuel' (S j) e else Some j
    else Some j
  end.

(** The edges of one node. *)
Fixpoint visit_children (keys : list (list ascii)) (col : nat) (fuel j e : nat) (b : building) : option building :=
  if j <? e then
    match fuel with
    | O => None
    | S fuel' =>
      k ← keys !! j;
      c ← k !! col;
      j' ← group_end keys col c (e - j) j e;
      visit_children keys col fuel' j' e
        (mkBuilding (b_leaves b) (setBit (b_bitmap b) (b_lIdx b) 0) (b_labels b ++ [c])
          (b_queue b ++ [mkElt j j' (S col)]) (S (b_lIdx b)))
    end
  else Some b.

(** Turn [i] of the loop over the queue. *)
Definition visit (keys : list (list ascii)) (i : nat) (elt : qElt) (b : building) : option building :=
  k ← keys !! q_s elt;
  let leaf := bool_decide (q_col elt = length k) in
  let s := if leaf then S (q_s elt) else q_s elt in
  let b := if leaf then mkBuilding (setBit (b_leaves b) i 1) (b_bitmap b) (b_labels b) (b_queue b) (b_lIdx b) else b in
  b ← visit_children keys (q_col elt) (q_e elt - s) s (q_e elt) b;
  Some (mkBuilding (b_leaves b) (setBit (b_bitmap b) (b_lIdx b) 1) (b_labels b) (b_queue b) (S (b_lIdx b))).

Fixpoint visit_all (keys : list (list ascii)) (fuel i : nat) (b : building) : option building :=
  match b_queue b !! i with
  | None => Some b
  | Some elt =>
    match fuel with
    | O => None
    | S fuel' => b' ← visit keys i elt b; visit_all keys fuel' (S i) b'
    end
  end.

Definition total_length (keys : list (list ascii)) : nat := sum_list_with length keys.

Definition init (b : building) : DomainSet :=
  let '(sel, rnk) := IndexSelect32R64 (b_bitmap b) in mkSet (b_leaves b) (b_bitmap b) (b_labels b) rnk sel.

(** From the sorted reversed names; the inner option is the nil result. *)
Definition set_of_keys (keys : list (list ascii)) : option (option DomainSet) :=
  if bool_decide (keys = []) then Some None
  else
    b ← visit_all keys (S (total_length keys)) 0 (mkBuilding [] [] [] [mkElt 0 (length keys) 0] 0);
    Some (Some (init b)).

Definition NewDomainSet {T} (t : Node T) : option (option DomainSet) :=
  set_of_keys (sort_keys (map (λ x, Reverse x.1) (Foreach collect t []))).

(** ** Queries *)

Inductive step_result :=
  | Next (nodeId bmIdx : Z) (stack : list (Z * nat)) (i : nat)
  | Answer (found : bool).

(** The loop that looks for the dot from [nextBmIdx] on; [Some None] when there
    is none. *)
Fixpoint scan_dot (ss : DomainSet) (fuel : nat) (nextBmIdx nextNodeId : Z) : option (option Z) :=
  if (nextBmIdx - nextNodeId <? Z.of_nat (length (labels ss)))%Z then
    match fuel with
    | O => None
    | S fuel' =>
      l ← at_index (labels ss) (nextBmIdx - nextNodeId);
      if bool_decide (l = domainStep) then Some (Some nextBmIdx) else scan_dot ss fuel' (nextBmIdx + 1) nextNodeId
    end
  else Some None.

(** The index of the next dot of the key from [j] on, or its length. *)
Definition next_dot (key : list ascii) (j : nat) : nat :=
  j + length (drop j key) - length (drop_while (λ c, negb (bool_decide (c = domainStep))) (drop j key)).

(** At the end of a node: back to the last [*], over the rest of its label. *)
Definition backtrack (ss : DomainSet) (key : list ascii) (nodeId bmIdx : Z) (stack : list (Z * nat)) (i : nat)
    : option step_result :=
  match stack with
  | [] => Some (Answer false)
  | (c_bmIdx, c_index) :: stack' =>
    let nextNodeId := countZeros (labelBitmap ss) (ranks ss) (c_bmIdx + 1) in
    let nextBmIdx := (selectIthOne (labelBitmap ss) (ranks ss) (selects ss) (nextNodeId - 1) + 1)%Z in
    let j := next_dot key c_index in
    if bool_decide (j = length key) then
      l ← getBit (leaves ss) nextNodeId;
      if (l =? 0)%Z then Some (Next nodeId bmIdx stack' i) else Some (Answer true)
    else
      d ← scan_dot ss (S (length (labels ss))) nextBmIdx nextNodeId;
      Some (match d with Some nextBmIdx' => Next nextNodeId nextBmIdx' stack' j | None => Answer false end)
  end.

(** One edge of the inner loop, or the step to the next byte of the key. *)
Definition has_step (ss : DomainSet) (key : list ascii) (nodeId bmIdx : Z) (stack : list (Z * nat)) (i : nat)
    : option step_result :=
  c ← key !! i;
  b ← getBit (labelBitmap ss) bmIdx;
  if negb (b =? 0)%Z then backtrack ss key nodeId bmIdx stack i
  else
    l ← at_index (labels ss) (bmIdx - nodeId);
    if bool_decide (l = "+"%char) then Some (Answer true)
    else if bool_decide (l = "*"%char) then Some (Next nodeId (bmIdx + 1) ((bmIdx, i) :: stack) i)
    else if bool_decide (l = c) then
      let nodeId' := countZeros (labelBitmap ss) (ranks ss) (bmIdx + 1) in
      let bmIdx' := (selectIthOne (labelBitmap ss) (ranks ss) (selects ss) (nodeId' - 1) + 1)%Z in
      if S i <? length key then Some (Next nodeId' bmIdx' stack (S i))
      else l ← getBit (leaves ss) nodeId'; Some (Answer (negb (l =? 0)%Z))
    else Some (Next nodeId (bmIdx + 1) stack i).

Inductive has_result := Found (b : bool) | IndexPanic | NoFuel.

Fixpoint has_loop (ss : DomainSet) (key : list ascii) (fuel : nat) (nodeId bmIdx : Z) (stack : list (Z * nat)) (i : nat)
    : has_result :=
  match fuel with
  | O => NoFuel
  | S fuel' =>
    match has_step ss key nodeId bmIdx stack i with
    | None => IndexPanic
    | Some (Answer b) => Found b
    | Some (Next nodeId bmIdx stack i) => has_loop ss key fuel' nodeId bmIdx stack i
    end
  end.

(** [Has], nil included. *)
Definition Has (fuel : nat) (o : option DomainSet) (domain : string) : has_result :=
  match o with
  | None => Found false
  | Some ss =>
    let key := map lower_ascii (Reverse domain) in
    if bool_decide (key = []) then
      match getBit (leaves ss) 0 with Some l => Found (negb (l =? 0)%Z) | None => IndexPanic end
    else has_loop ss key fuel 0 0 [] 0
  end.

(** [keys]: the callback is called with each key; [None] is too little fuel or a
    panic. *)
Fixpoint traverse {A} (ss : DomainSet) (f : list ascii → A → A * bool) (fuel : nat)
    (currentKey : list ascii) (nodeId bmIdx : Z) (first : bool) (a : A) : option (A * bool) :=
  match fuel with
  | O => None
  | S fuel' =>
    '(a, go) ← (if first then
                  l ← getBit (leaves ss) nodeId;
                  Some (if (l =? 0)%Z then (a, true) else f currentKey a)
                else Some (a, true));
    if negb go then Some (a, false)
    else
      b ← getBit (labelBitmap ss) bmIdx;
      if negb (b =? 0)%Z then Some (a, true)
      else
        nextLabel ← at_index (labels ss) (bmIdx - nodeId);
        let nextNodeId := countZeros (labelBitmap ss) (ranks ss) (bmIdx + 1) in
        let nextBmIdx := (selectIthOne (labelBitmap ss) (ranks ss) (selects ss) (nextNodeId - 1) + 1)%Z in
        '(a, go) ← traverse ss f fuel' (currentKey ++ [nextLabel]) nextNodeId nextBmIdx true a;
        if (go : bool) then traverse ss f fuel' currentKey nodeId (bmIdx + 1) false a else Some (a, false)
  end.

Definition set_Foreach {A} (fuel : nat) (ss : DomainSet) (f : string → A → A * bool) (a : A) : option A :=
  fst <$> traverse ss (λ key, f (of_bytes (reverse key))) fuel [] 0 0 true a.

End DomainSet.

(** ** A library that counts, to run the definitions *)

Fixpoint nth_one (bm : list Z) (fuel p n : nat) : nat :=
  match fuel with
  | O => p
  | S fuel' => if bit bm p then match n with O => p | S n' => nth_one bm fuel' (S p) n' end else nth_one bm fuel' (S p) n
  end.

Definition counting_bitmap : Bitmap := {|
  IndexSelect32R64 _ := ([], []);
  Rank64 bm _ i := (Z.of_nat (ones bm (Z.to_nat i)), 0%Z);
  Select32R64 bm _ _ i := (Z.of_nat (nth_one bm (64 * length bm) 0 (Z.to_nat i)), 0%Z) |}.

Definition has_demo (ps : list string) (domain : string) : option has_result :=
  o ← @NewDomainSet counting_bitmap _ (build ((λ p, (p, ())) <$> ps)); Some (@Has counting_bitmap 1000 o domain).

Example has_demo_plus :
  map (has_demo ["baidu.com"; "+.google.com"; ".qq.com"]%string)
    ["baidu.com"; "www.baidu.com"; "x.Google.com"; "google.com"; "qq.com"; "a.b.qq.com"; "com"; ""]%string
  = [Some (Found true); Some (Found false); Some (Found true); Some (Found true); Some (Found false);
     Some (Found true); Some (Found false); Some (Found false)].
Proof. vm_compute. reflexivity. Qed.

Example has_demo_star :
  has_demo ["*.a.c"; "*.c"]%string "a.c" = Some (Found false) ∧
  has_demo ["ab.bb"; "*.a"; "*.a.bb"]%string "a.ba.a" = Some (Found true).
Proof. vm_compute. split; reflexivity. Qed.

(** ** Lemmas *)

Set Default Proof Using "Type*".

Local Arguments Nat.modulo : simpl never.

Local Arguments Nat.div : simpl never.

(** *** Bits in words *)

Lemma testbit_01 (v n : Z) : v = 0%Z ∨ v = 1%Z → Z.testbit v n = (n =? 0)%Z && (v =? 1)%Z.
Proof.
  intros [->| ->]; [by rewrite Z.bits_0, andb_false_r|]. rewrite andb_true_r.
  destruct (Z.eqb_spec n 0) as [->|Hn]; [done|]. destruct (Z.lt_ge_cases n 0); [by apply Z.testbit_neg_r|].
  rewrite Z.testbit_eqb by done. apply Z.eqb_neq. rewrite Z.div_small; [done|]. split; [lia|].
  apply Z.pow_gt_1; lia.
Qed.

Lemma bit_setBit bm i v p : v = 0%Z ∨ v = 1%Z → bit (setBit bm i v) p = bit bm p || (bool_decide (p = i) && (v =? 1)%Z).
Proof.
  intros Hv. unfold bit, setBit. set (bm' := bm ++ replicate (S (i / 64) - length bm) 0%Z).
  assert (∀ k, (match bm' !! k with Some w => w | None => 0%Z end) = match bm !! k with Some w => w | None => 0%Z end) as Hbm.
  { intros k. unfold bm'. destruct (decide (k < length bm)) as [Hk|Hk]; [by rewrite lookup_app_l|].
    rewrite lookup_app_r, (lookup_ge_None_2 bm k) by lia. by destruct (replicate _ _ !! _) eqn:Hr; [apply lookup_replicate in Hr as [-> _]|]. }
  assert (∀ (l : list Z) (k : nat), match l !! k with Some w => Z.testbit w (Z.of_nat (p mod 64)) | None => false end
    = Z.testbit (match l !! k with Some w => w | None => 0%Z end) (Z.of_nat (p mod 64))) as Hd.
  { intros l k. destruct (l !! k); [done|]. by rewrite Z.bits_0. }
  rewrite !Hd, <- (Hbm (p / 64)).
  destruct (decide (p / 64 = i / 64)) as [He|He].
  - rewrite He, list_lookup_alter_eq. destruct (bm' !! (i / 64)) as [w|] eqn:Hw; simpl.
    + rewrite Z.lor_spec, Z.shiftl_spec, (testbit_01 v) by (done || lia). f_equal. f_equal.
      pose proof (Nat.div_mod_eq p 64). pose proof (Nat.div_mod_eq i 64).
      destruct (Z.eqb_spec (Z.of_nat (p mod 64) - Z.of_nat (i mod 64)) 0); case_bool_decide; try done; exfalso; lia.
    + exfalso. apply lookup_ge_None in Hw. unfold bm' in Hw. rewrite length_app, length_replicate in Hw. lia.
  - rewrite list_lookup_alter_ne by done. rewrite bool_decide_false by (by intros ->). by rewrite orb_false_r.
Qed.

Lemma length_setBit bm i v : length (setBit bm i v) = length bm `max` S (i / 64).
Proof. unfold setBit. rewrite length_alter, length_app, length_replicate. lia. Qed.

(** The words of a bitmap fit 64 bits. *)
Definition word (w : Z) : Prop := (0 ≤ w < 2 ^ 64)%Z.

Lemma word_lor a b : word a → word b → word (Z.lor a b).
Proof.
  unfold word. intros [Ha Ha'] [Hb Hb']. split; [by apply Z.lor_nonneg|].
  destruct (decide (Z.lor a b = 0%Z)) as [->|Hne]; [done|]. apply Z.log2_lt_pow2.
  - assert (0 ≤ Z.lor a b)%Z by (by apply Z.lor_nonneg). lia.
  - rewrite Z.log2_lor by done. apply Z.max_lub_lt.
    + destruct (decide (a = 0%Z)) as [->|]; [done|apply Z.log2_lt_pow2; lia].
    + destruct (decide (b = 0%Z)) as [->|]; [done|apply Z.log2_lt_pow2; lia].
Qed.

Lemma setBit_words bm i v : v = 0%Z ∨ v = 1%Z → Forall word bm → Forall word (setBit bm i v).
Proof.
  intros Hv Hbm. unfold setBit. apply Forall_alter.
  - apply Forall_app. split; [done|]. apply Forall_replicate. done.
  - intros w _ Hw. apply word_lor; [done|]. rewrite Z.shiftl_mul_pow2 by lia. pose proof (Nat.mod_upper_bound i 64 ltac:(lia)).
    assert (2 ^ Z.of_nat (i mod 64) ≤ 2 ^ 63)%Z by (apply Z.pow_le_mono_r; lia). unfold word. destruct Hv as [->| ->]; lia.
Qed.

Lemma getBit_bit bm p : p < 64 * length bm → ∃ x, getBit bm (Z.of_nat p) = Some x ∧ (x =? 0)%Z = negb (bit bm p).
Proof.
  intros Hp. unfold getBit, at_index, bit.
  assert (Z.shiftr (Z.of_nat p) 6 = Z.of_nat (p / 64)) as -> by (rewrite Z.shiftr_div_pow2, Nat2Z.inj_div by lia; done).
  assert (Z.land (Z.of_nat p) 63 = Z.of_nat (p mod 64)) as ->.
  { change 63%Z with (Z.ones 6). rewrite Z.land_ones, Nat2Z.inj_mod by lia. done. }
  rewrite (proj2 (Z.ltb_ge _ _)), Nat2Z.id by lia.
  destruct (lookup_lt_is_Some_2 bm (p / 64)) as [w ->]; [apply Nat.Div0.div_lt_upper_bound; lia|]. simpl.
  eexists. split; [done|]. set (n := Z.of_nat (p mod 64)). destruct (Z.testbit w n) eqn:Hb; simpl.
  - apply Z.eqb_neq. intros H0. assert (Z.testbit (Z.land w (Z.shiftl 1 n)) n = false) as Hf by (by rewrite H0, Z.bits_0).
    rewrite Z.land_spec, Hb, Z.shiftl_spec in Hf by lia. by rewrite Z.sub_diag in Hf.
  - apply Z.eqb_eq, Z.bits_inj. intros k. rewrite Z.bits_0, Z.land_spec.
    destruct (Z.lt_ge_cases k 0); [by rewrite (Z.testbit_neg_r w k)|]. rewrite Z.shiftl_spec, (testbit_01 1) by (done || by right).
    destruct (Z.eqb_spec (k - n) 0); [|by rewrite andb_false_r]. replace k with n by lia. by rewrite Hb.
Qed.

(** *** The layout *)

(** The bits for nodes with the edges [L]. *)
Definition shape (L : list (list ascii)) : list bool := concat (map (λ l, replicate (length l) false ++ [true]) L).

(** Where the bits of node [n] start, and its labels. *)
Definition start (L : list (list ascii)) (n : nat) : nat := length (shape (take n L)).

Definition offset (L : list (list ascii)) (n : nat) : nat := length (concat (take n L)).

Record laid (bm : list Z) (L : list (list ascii)) : Prop := {
  laid_bit p : bit bm p = default false (shape L !! p);
  laid_length : length (shape L) ≤ 64 * length bm }.

Lemma shape_app L L' : shape (L ++ L') = shape L ++ shape L'.
Proof. unfold shape. by rewrite map_app, concat_app. Qed.

Lemma length_shape L : length (shape L) = length (concat L) + length L.
Proof.
  induction L as [|l L IH]; [done|]. change (l :: L) with ([l] ++ L). rewrite shape_app, concat_app, !length_app, IH.
  unfold shape. simpl. rewrite app_nil_r, length_app, length_replicate. simpl. rewrite app_nil_r. lia.
Qed.

Lemma start_offset L n : n ≤ length L → start L n = offset L n + n.
Proof. intros Hn. unfold start, offset. rewrite length_shape, length_take. lia. Qed.

Lemma take_S_snoc L n (l : list ascii) : L !! n = Some l → take (S n) L = take n L ++ [l].
Proof. apply take_S_r. Qed.

Lemma start_S L n l : L !! n = Some l → start L (S n) = start L n + S (length l).
Proof.
  intros Hl. unfold start. rewrite (take_S_snoc L n l Hl), shape_app, length_app. unfold shape at 2. simpl.
  rewrite app_nil_r, length_app, length_replicate. simpl. lia.
Qed.

Lemma offset_S L n l : L !! n = Some l → offset L (S n) = offset L n + length l.
Proof. intros Hl. unfold offset. rewrite (take_S_snoc L n l Hl), concat_app, length_app. simpl. by rewrite app_nil_r. Qed.

Lemma shape_split L n l : L !! n = Some l → ∃ r, shape L = shape (take n L) ++ replicate (length l) false ++ true :: r.
Proof.
  intros Hl. exists (shape (drop (S n) L)). rewrite <- (take_drop_middle L n l Hl) at 1. rewrite shape_app.
  change (l :: drop (S n) L) with ([l] ++ drop (S n) L). rewrite shape_app. unfold shape at 2. simpl.
  by rewrite app_nil_r, <- (assoc_L (++)).
Qed.

Lemma shape_edge L n l j : L !! n = Some l → j < length l → shape L !! (start L n + j) = Some false.
Proof.
  intros Hl Hj. destruct (shape_split L n l Hl) as [r ->]. unfold start.
  rewrite lookup_app_r by lia. rewrite Nat.add_comm, Nat.add_sub, lookup_app_l by (by rewrite length_replicate).
  by apply lookup_replicate_2.
Qed.

Lemma shape_end L n l : L !! n = Some l → shape L !! (start L n + length l) = Some true.
Proof.
  intros Hl. destruct (shape_split L n l Hl) as [r ->]. unfold start.
  rewrite lookup_app_r by lia. rewrite Nat.add_comm, Nat.add_sub, lookup_app_r, length_replicate, Nat.sub_diag by (by rewrite length_replicate).
  done.
Qed.

Lemma concat_lookup L n l j c : L !! n = Some l → l !! j = Some c → concat L !! (offset L n + j) = Some c.
Proof.
  intros Hl Hj. unfold offset.
  assert (concat L = concat (take n L) ++ l ++ concat (drop (S n) L)) as ->.
  { rewrite <- (take_drop_middle L n l Hl) at 1. by rewrite concat_app. }
  rewrite lookup_app_r by lia. rewrite Nat.add_comm, Nat.add_sub, lookup_app_l; [done|]. by apply lookup_lt_Some in Hj.
Qed.

Lemma ones_add bm p k : (∀ q, q < k → bit bm (p + q) = false) → ones bm (p + k) = ones bm p.
Proof.
  induction k as [|k IH]; intros Hq; [by rewrite Nat.add_0_r|]. rewrite Nat.add_succ_r. simpl.
  rewrite Hq, IH by (lia || (intros q ?; apply Hq; lia)). lia.
Qed.

Section Laid.
Context (bm : list Z) (L : list (list ascii)) (Hlaid : laid bm L).

Lemma ones_edges n l j : L !! n = Some l → j ≤ length l → ones bm (start L n + j) = ones bm (start L n).
Proof.
  intros Hl Hj. apply ones_add. intros q Hq. rewrite (laid_bit _ _ Hlaid), (shape_edge L n l) by (done || lia). done.
Qed.

Lemma ones_start n : n ≤ length L → ones bm (start L n) = n.
Proof.
  induction n as [|n IH]; intros Hn; [done|]. destruct (lookup_lt_is_Some_2 L n Hn) as [l Hl].
  rewrite (start_S L n l Hl), Nat.add_succ_r. simpl.
  rewrite (laid_bit _ _ Hlaid), (shape_end L n l Hl), (ones_edges n l _ Hl) by lia. simpl. rewrite IH by lia. lia.
Qed.

Lemma start_in n l j : L !! n = Some l → j ≤ length l → start L n + j < length (shape L).
Proof.
  intros Hl Hj. pose proof (lookup_lt_Some _ _ _ (shape_end L n l Hl)). lia.
Qed.

Context `{BitmapLaws} (Hsmall : (Z.of_nat (length (shape L)) < 2 ^ 31)%Z).

Lemma to_i32_small (i : nat) : i < length (shape L) → to_i32 (Z.of_nat i) = Z.of_nat i.
Proof. clear -Hsmall. intros Hi. apply wrap_id. int_lia. Qed.

(** The node an edge leads to, and where its bits start. *)
Lemma countZeros_edge n l j :
  L !! n = Some l → j < length l →
  countZeros bm (IndexSelect32R64 bm).2 (Z.of_nat (start L n + j) + 1) = Z.of_nat (offset L n + j + 1).
Proof.
  intros Hl Hj. assert (n < length L) as Hn by (by apply lookup_lt_Some in Hl).
  assert (Hin := start_in n l (S j) Hl ltac:(lia)). unfold countZeros.
  replace (Z.of_nat (start L n + j) + 1)%Z with (Z.of_nat (start L n + S j)) by lia.
  rewrite to_i32_small, rank_law; [| |lia|done].
  - rewrite (ones_edges n l), ones_start, start_offset by (done || lia). lia.
  - pose proof (laid_length _ _ Hlaid). lia.
Qed.

Lemma select_start n :
  n < length L → (selectIthOne bm (IndexSelect32R64 bm).2 (IndexSelect32R64 bm).1 (Z.of_nat (S n) - 1) + 1)%Z = Z.of_nat (start L (S n)).
Proof.
  intros Hn. destruct (lookup_lt_is_Some_2 L n Hn) as [l Hl]. unfold selectIthOne.
  assert (ones bm (start L n + length l) = n) as Ho by (rewrite (ones_edges n l), ones_start by (done || lia); done).
  assert (Hin := start_in n l (length l) Hl ltac:(lia)).
  replace (Z.of_nat (S n) - 1)%Z with (Z.of_nat n) by lia.
  rewrite to_i32_small; [|pose proof (start_offset L n); lia]. rewrite <- Ho at 1. rewrite select_law; [|by rewrite (laid_bit _ _ Hlaid), (shape_end L n l Hl)|lia].
  rewrite (start_S L n l Hl). lia.
Qed.

End Laid.

(** *** The order of the keys *)

Definition clt (a b : ascii) : Prop := (N_of_ascii a < N_of_ascii b)%N.

Lemma N_of_ascii_inj a b : N_of_ascii a = N_of_ascii b → a = b.
Proof. intros He. by rewrite <- (ascii_N_embedding a), He, ascii_N_embedding. Qed.

Lemma key_le_app w a b : key_le (w ++ a) (w ++ b) = key_le a b.
Proof. induction w as [|x w IH]; [done|]. simpl. by rewrite IH, N.ltb_irrefl, N.eqb_refl. Qed.

Lemma key_le_cons x a y b : key_le (x :: a) (y :: b) ↔ clt x y ∨ x = y ∧ key_le a b.
Proof.
  simpl. unfold clt. rewrite orb_True, andb_True, !Is_true_true, N.ltb_lt, N.eqb_eq. split.
  - intros [?|[?%N_of_ascii_inj ?]]; auto.
  - intros [?|[-> ?]]; auto.
Qed.

Lemma key_le_trans a b c : key_le a b → key_le b c → key_le a c.
Proof.
  revert b c. induction a as [|x a IH]; [done|]. intros [|y b] [|z c]; [done..|]. rewrite !key_le_cons. unfold clt.
  intros [Hxy|[-> Hab]] [Hyz|[-> Hbc]]; [left; lia|by left|by left|right; split; [done|by eapply IH]].
Qed.

Lemma key_le_total a b : key_le a b ∨ key_le b a.
Proof.
  revert b. induction a as [|x a IH]; [by left|]. intros [|y b]; [by right|]. rewrite !key_le_cons. unfold clt.
  destruct (N.lt_total (N_of_ascii x) (N_of_ascii y)) as [|[He%N_of_ascii_inj|]]; [auto| |auto]. destruct (IH b); auto.
Qed.

Lemma key_le_antisym a b : key_le a b → key_le b a → a = b.
Proof.
  revert b. induction a as [|x a IH]; intros [|y b]; [done..|]. rewrite !key_le_cons. unfold clt.
  intros [Hxy|[-> Hab]] [Hyz|[? Hbc]]; subst; [lia..|]. f_equal. by apply IH.
Qed.

(** *** Slices *)

Definition slice {A} (l : list A) (i j : nat) : list A := take (j - i) (drop i l).

Lemma slice_cons {A} (l : list A) i j x : l !! i = Some x → i < j → slice l i j = x :: slice l (S i) j.
Proof.
  intros Hx Hij. unfold slice. rewrite (drop_S l x i Hx). replace (j - i) with (S (j - S i)) by lia. done.
Qed.

Lemma slice_split {A} (l : list A) i m j : i ≤ m ≤ j → slice l i j = slice l i m ++ slice l m j.
Proof.
  intros Hm. unfold slice. replace (j - i) with ((m - i) + (j - m)) by lia. rewrite <- take_take_drop, drop_drop.
  replace (i + (m - i)) with m by lia. done.
Qed.

Lemma slice_nil {A} (l : list A) i : slice l i i = [].
Proof. unfold slice. by rewrite Nat.sub_diag. Qed.

Lemma Forall2_impl_r {A B} (P Q : A → B → Prop) l k :
  Forall2 P l k → (∀ x y, y ∈ k → P x y → Q x y) → Forall2 Q l k.
Proof.
  induction 1 as [|x y l k Hxy _ IH]; intros HPQ; constructor; [apply HPQ; [by left|done]|].
  apply IH. intros a b Hb. apply HPQ. by right.
Qed.

(** *** The edges of a node *)

Section Build.
Context (keys : list (list ascii)).

(** The keys at [j..e) extend [w] by at least a byte. *)
Definition extends (w : list ascii) (j e : nat) : Prop :=
  ∀ k, k ∈ slice keys j e → ∃ c r, k = w ++ c :: r.

Lemma extends_lookup w j e : extends w j e → j < e → e ≤ length keys →
  ∃ c r, keys !! j = Some (w ++ c :: r) ∧ (w ++ c :: r) !! length w = Some c ∧ slice keys j e = (w ++ c :: r) :: slice keys (S j) e.
Proof.
  intros Hx Hj He. destruct (lookup_lt_is_Some_2 keys j) as [k Hk]; [lia|].
  pose proof (slice_cons keys j e k Hk Hj) as Hs. destruct (Hx k) as (c & r & ->); [rewrite Hs; by left|].
  exists c, r. split_and!; [done| |done]. by rewrite list_lookup_middle.
Qed.

Lemma extends_sub w j e j' e' : extends w j e → j ≤ j' → j' ≤ e' → e' ≤ e → extends w j' e'.
Proof.
  intros Hx H1 H2 H3 k Hk. apply Hx. rewrite (slice_split keys j j' e), (slice_split keys j' e' e) by lia.
  rewrite !elem_of_app. auto.
Qed.

Lemma group_end_spec w c fuel j e :
  extends w j e → j ≤ e → e ≤ length keys → e - j ≤ fuel →
  ∃ m, group_end keys (length w) c fuel j e = Some m ∧ j ≤ m ≤ e ∧
    (∀ k, k ∈ slice keys j m → w ++ [c] `prefix_of` k) ∧
    (m < e → ∃ x r, keys !! m = Some (w ++ x :: r) ∧ x ≠ c) ∧
    (j < e → (∃ r, keys !! j = Some (w ++ c :: r)) → j < m).
Proof.
  revert j. induction fuel as [|fuel IH]; intros j Hx Hj He Hf; simpl.
  - exists j. rewrite slice_nil. split_and!; [done|lia|lia|by intros k ?%elem_of_nil|lia|lia].
  - destruct (Nat.ltb_spec j e) as [Hlt|Hge].
    2:{ exists j. rewrite slice_nil. split_and!; [done|lia|lia|by intros k ?%elem_of_nil|lia|lia]. }
    destruct (extends_lookup w j e Hx Hlt He) as (x & r & Hk & Hc & Hs). rewrite Hk. simpl. rewrite Hc. simpl.
    case_bool_decide as Heq.
    + subst x. destruct (IH (S j)) as (m & -> & Hm & Hp & Hn & _); [by apply (extends_sub w j e); auto; lia|lia|lia|lia|].
      exists m. split_and!; [done|lia|lia| |done|lia]. intros k. rewrite (slice_cons keys j m _ Hk) by lia.
      intros [->|Hin]%elem_of_cons; [|by apply Hp]. exists r. by rewrite <- (assoc_L (++)).
    + exists j. rewrite slice_nil. split_and!; [done|lia|lia|by intros k ?%elem_of_nil|by exists x, r|].
      intros _ [r' Hr']. injection Hr' as Hr'. by apply app_inv_head in Hr' as [= -> ->].
Qed.

Context (Hsorted : StronglySorted (λ a b, key_le a b) keys).

Lemma slice_sorted i j : StronglySorted (λ a b, key_le a b) (slice keys i j).
Proof. unfold slice. assert (StronglySorted (λ a b, key_le a b) (drop i keys)) as Hd.
  { rewrite <- (take_drop i keys) in Hsorted. by apply StronglySorted_app_1_r in Hsorted. }
  rewrite <- (take_drop (j - i) (drop i keys)) in Hd. by apply StronglySorted_app_1_l in Hd. Qed.

Definition weight (elt : qElt) : nat := sum_list_with (λ k, length k - q_col elt) (slice keys (q_s elt) (q_e elt)).

(** What the inner loop adds for the keys [j..e). *)
Definition edges_of (w : list ascii) (j e : nat) (l : list ascii) (elts : list qElt) : Prop :=
  Forall2 (λ elt c, q_col elt = S (length w) ∧ q_s elt < q_e elt ≤ e ∧
    slice keys (q_s elt) (q_e elt) = filter (λ k, w ++ [c] `prefix_of` k) (slice keys j e)) elts l ∧
  (∀ c, c ∈ l ↔ ∃ k, k ∈ slice keys j e ∧ w ++ [c] `prefix_of` k) ∧
  StronglySorted clt l ∧
  sum_list_with (λ elt, S (weight elt)) elts ≤ sum_list_with (λ k, length k - length w) (slice keys j e).

(** A run of keys with the byte [c] before keys with a greater one. *)
Lemma run_after w j m e c k0 :
  extends w j e → j < m → m ≤ e → e ≤ length keys → keys !! j = Some k0 → w ++ [c] `prefix_of` k0 →
  (m < e → ∃ x r, keys !! m = Some (w ++ x :: r) ∧ x ≠ c) →
  ∀ k d, k ∈ slice keys m e → w ++ [d] `prefix_of` k → clt c d.
Proof.
  intros Hx Hj Hm He Hk0 Hc Hnext k d Hk Hd. destruct (decide (m = e)) as [->|Hme]; [rewrite slice_nil in Hk; by apply elem_of_nil in Hk|].
  destruct Hnext as (x & r & Hxk & Hxc); [lia|]. destruct Hc as [r0 ->]. destruct Hd as [rd ->]. rewrite <- !(assoc_L (++)) in *. simpl in *.
  pose proof (slice_sorted j e) as Hs. rewrite (slice_cons keys j e _ Hk0), (slice_split keys (S j) m e) in Hs by lia.
  apply StronglySorted_inv in Hs as [Hs H0]. rewrite Forall_forall in H0.
  rewrite (slice_cons keys m e _ Hxk) in Hs, H0, Hk by lia.
  assert (clt c x) as Hcx.
  { assert (key_le (w ++ c :: r0) (w ++ x :: r)) as H1 by (apply H0, elem_of_app; right; by left).
    rewrite key_le_app, key_le_cons in H1. destruct H1 as [?|[-> _]]; done. }
  apply elem_of_cons in Hk as [Hk|Hk]; [apply app_inv_head in Hk as [= -> _]; done|].
  apply StronglySorted_app_1_r in Hs. apply StronglySorted_inv in Hs as [_ Hs]. rewrite Forall_forall in Hs.
  specialize (Hs _ Hk). rewrite key_le_app, key_le_cons in Hs. unfold clt in *. destruct Hs as [?|[-> _]]; lia.
Qed.

Lemma prefix_snoc_inj (w : list ascii) c d k : w ++ [c] `prefix_of` k → w ++ [d] `prefix_of` k → c = d.
Proof. intros [r ->] [r' Hr]. rewrite <- !(assoc_L (++)) in Hr. by apply app_inv_head in Hr as [= -> _]. Qed.

Lemma filter_none {A} (P : A → Prop) `{∀ x, Decision (P x)} l : (∀ x, x ∈ l → ¬ P x) → filter P l = [].
Proof.
  induction l as [|x l IH]; intros Hl; [done|]. rewrite filter_cons_False by (apply Hl; by left). apply IH. intros y Hy. apply Hl. by right.
Qed.

Lemma edges_of_run w j m e c l elts :
  (∀ k, k ∈ slice keys j m → w ++ [c] `prefix_of` k) → j < m → m ≤ e → e ≤ length keys →
  (∀ k d, k ∈ slice keys m e → w ++ [d] `prefix_of` k → clt c d) →
  edges_of w m e l elts → edges_of w j e (c :: l) (mkElt j m (S (length w)) :: elts).
Proof.
  intros Hrun Hj Hm He Hafter (Hf & Hl & Hs & Hw).
  assert (∃ k, k ∈ slice keys j m) as [k0 Hk0].
  { destruct (lookup_lt_is_Some_2 keys j) as [k Hk]; [lia|]. exists k. rewrite (slice_cons _ _ _ _ Hk) by lia. by left. }
  rewrite <- Forall_forall in Hrun.
  split_and!.
  - constructor.
    + simpl. split_and!; [done|lia|lia|]. rewrite (slice_split keys j m e), filter_app by lia.
      rewrite filter_all by done. rewrite filter_none, app_nil_r; [done|].
      intros k Hk Hp. specialize (Hafter k c Hk Hp). unfold clt in Hafter. lia.
    + assert (∀ d, d ∈ l → clt c d) as Hcl.
      { intros d (k & Hk & Hp)%Hl. by apply (Hafter k). }
      apply (Forall2_impl_r _ _ _ _ Hf). intros elt d Hd (H1 & H2 & H3). split_and!; [done|lia|lia|].
      rewrite H3, (slice_split keys j m e), filter_app by lia. rewrite (filter_none _ (slice keys j m)); [done|].
      rewrite Forall_forall in Hrun. intros k Hk Hp. specialize (Hcl d Hd). rewrite (prefix_snoc_inj w c d k) in Hcl by auto. unfold clt in Hcl. lia.
  - intros d. rewrite elem_of_cons, Hl. rewrite Forall_forall in Hrun. setoid_rewrite (slice_split keys j m e); [|lia]. setoid_rewrite elem_of_app. split.
    + intros [->|(k & Hk & Hp)]; [exists k0; auto|exists k; auto].
    + intros (k & [Hk|Hk] & Hp); [left; apply (prefix_snoc_inj w d c k); auto|right; exists k; auto].
  - constructor; [done|]. apply Forall_forall. intros d (k & Hk & Hp)%Hl. by apply (Hafter k).
  - rewrite (slice_split keys j m e) by lia. simpl. rewrite sum_list_with_app.
    enough (S (weight (mkElt j m (S (length w)))) ≤ sum_list_with (λ k, length k - length w) (slice keys j m)) by lia.
    unfold weight. simpl.
    destruct (lookup_lt_is_Some_2 keys j) as [k Hk]; [lia|]. rewrite (slice_cons _ _ _ _ Hk) in Hrun |- * by lia. simpl.
    apply Forall_cons in Hrun as [[r ->] Hrun]. rewrite !length_app. simpl.
    enough (sum_list_with (λ k, length k - S (length w)) (slice keys (S j) m) ≤ sum_list_with (λ k, length k - length w) (slice keys (S j) m)) by lia.
    clear. induction (slice keys (S j) m); simpl; lia.
Qed.

Lemma div64_le i : i / 64 ≤ i.
Proof using Type. apply Nat.Div0.div_le_upper_bound. lia. Qed.

Lemma visit_children_spec w fuel j e b :
  extends w j e → j ≤ e → e ≤ length keys → e - j ≤ fuel →
  ∃ l elts bm, visit_children keys (length w) fuel j e b =
      Some (mkBuilding (b_leaves b) bm (b_labels b ++ l) (b_queue b ++ elts) (b_lIdx b + length l)) ∧
    (∀ p, bit bm p = bit (b_bitmap b) p) ∧ length (b_bitmap b) ≤ length bm ∧
    (Forall word (b_bitmap b) ∧ length (b_bitmap b) ≤ b_lIdx b → Forall word bm ∧ length bm ≤ b_lIdx b + length l) ∧
    edges_of w j e l elts.
Proof.
  revert j b. induction fuel as [|fuel IH]; intros j b Hx Hj He Hf; simpl.
  all: destruct (Nat.ltb_spec j e) as [Hlt|Hge]; [|exists [], [], (b_bitmap b); rewrite !app_nil_r, Nat.add_0_r;
    split_and!; [by destruct b|done|done|done|]; replace e with j in * by lia; unfold edges_of; rewrite slice_nil; split_and!;
    [constructor|intros c; rewrite elem_of_nil; split; [done|by intros (? & ?%elem_of_nil & _)]|constructor|simpl; lia]].
  - lia.
  - destruct (extends_lookup w j e Hx Hlt He) as (c & r & Hk & Hc & Hs). rewrite Hk. simpl. rewrite Hc. simpl.
    destruct (group_end_spec w c (e - j) j e Hx Hj He) as (m & -> & Hm & Hrun & Hnext & Hprog); [lia|]. simpl.
    assert (j < m) as Hjm by (apply Hprog; eauto).
    destruct (IH m (mkBuilding (b_leaves b) (setBit (b_bitmap b) (b_lIdx b) 0) (b_labels b ++ [c])
      (b_queue b ++ [mkElt j m (S (length w))]) (S (b_lIdx b)))) as (l & elts & bm & -> & Hbm & Hlen & Hwords & Hedges).
    { apply (extends_sub w j e); auto; lia. }
    { lia. } { lia. } { lia. }
    exists (c :: l), (mkElt j m (S (length w)) :: elts), bm. split_and!.
    + simpl. rewrite <- !(assoc_L (++)). do 2 f_equal. lia.
    + intros p. rewrite Hbm. simpl. rewrite bit_setBit by auto. by rewrite andb_false_r, orb_false_r.
    + simpl in Hlen. rewrite length_setBit in Hlen. lia.
    + simpl in *. intros [Hb1 Hb2]. rewrite length_setBit in Hwords. pose proof (div64_le (b_lIdx b)).
      destruct Hwords as [? ?]; [split; [apply setBit_words; auto|lia]|]. split; [done|lia].
    + apply edges_of_run; [done|done|lia|done| |done].
      apply (run_after w j m e c (w ++ c :: r)); auto; [lia|]. exists r. by rewrite <- (assoc_L (++)).
Qed.


(** *** One turn of the loop *)

Context (Hnodup : NoDup keys).

(** A queue element holds the keys with the prefix [w]. *)
Definition good (elt : qElt) (w : list ascii) : Prop :=
  q_col elt = length w ∧ q_s elt < q_e elt ≤ length keys ∧
  slice keys (q_s elt) (q_e elt) = filter (λ k, w `prefix_of` k) keys.

(** The bytes with which [w] goes on. *)
Definition node_edges (w : list ascii) (l : list ascii) : Prop :=
  StronglySorted clt l ∧ ∀ c, c ∈ l ↔ ∃ k, k ∈ keys ∧ w ++ [c] `prefix_of` k.

Lemma good_first elt w : good elt w →
  ∃ x, keys !! q_s elt = Some (w ++ x) ∧ slice keys (q_s elt) (q_e elt) = (w ++ x) :: slice keys (S (q_s elt)) (q_e elt) ∧
    (w ∈ keys ↔ x = []) ∧ (∀ k, k ∈ slice keys (q_s elt) (q_e elt) ↔ k ∈ keys ∧ w `prefix_of` k).
Proof.
  intros (Hcol & Hse & Hslice). destruct (lookup_lt_is_Some_2 keys (q_s elt)) as [k0 Hk0]; [lia|].
  pose proof (slice_cons keys _ (q_e elt) _ Hk0 ltac:(lia)) as Hcons.
  assert (∀ k, k ∈ slice keys (q_s elt) (q_e elt) ↔ k ∈ keys ∧ w `prefix_of` k) as Hin.
  { intros k. rewrite Hslice, list_elem_of_filter. tauto. }
  destruct (proj1 (Hin k0)) as [Hk0' [x ->]]; [rewrite Hcons; by left|]. exists x. split_and!; [done|done| |done]. split.
  - intros Hw. pose proof (slice_sorted (q_s elt) (q_e elt)) as Hs.
    assert (w ∈ slice keys (q_s elt) (q_e elt)) as Hws by (by apply Hin). rewrite Hcons in Hs, Hws.
    apply elem_of_cons in Hws as [Hws|Hws].
    + rewrite <- (app_nil_r w) in Hws at 1. by apply app_inv_head in Hws.
    + apply StronglySorted_inv in Hs as [_ Hs]. rewrite Forall_forall in Hs. specialize (Hs w Hws).
      rewrite <- (app_nil_r w) in Hs at 2. rewrite key_le_app in Hs. by destruct x.
  - intros ->. rewrite app_nil_r in Hk0'. done.
Qed.

Lemma slice_NoDup i j : NoDup (slice keys i j).
Proof.
  unfold slice. eapply sublist_NoDup; [exact Hnodup|]. etrans; [apply sublist_take|apply sublist_drop].
Qed.

(** The keys the inner loop starts with: those that go on after [w]. *)
Lemma good_rest elt w k0 : good elt w → keys !! q_s elt = Some k0 →
  let s := if bool_decide (q_col elt = length k0) then S (q_s elt) else q_s elt in
  extends w s (q_e elt) ∧ q_s elt ≤ s ≤ q_e elt ∧ (q_col elt = length k0 ↔ w ∈ keys) ∧
  (∀ c k, k ∈ slice keys s (q_e elt) ∧ w ++ [c] `prefix_of` k ↔ k ∈ keys ∧ w ++ [c] `prefix_of` k) ∧
  (∀ c, filter (λ k, w ++ [c] `prefix_of` k) (slice keys s (q_e elt)) = filter (λ k, w ++ [c] `prefix_of` k) keys) ∧
  sum_list_with (λ k, length k - length w) (slice keys s (q_e elt)) ≤ weight elt.
Proof.
  intros Hg Hk0. destruct (good_first elt w Hg) as (x & Hk & Hcons & Hw & Hin). rewrite Hk0 in Hk. injection Hk as ->.
  destruct Hg as (Hcol & Hse & Hslice). pose proof (slice_NoDup (q_s elt) (q_e elt)) as Hnd.
  assert (∀ k c, w ++ [c] `prefix_of` k → w `prefix_of` k) as Hpre.
  { intros k c [r ->]. exists ([c] ++ r). by rewrite (assoc_L (++)). }
  assert (∀ c, filter (λ k, w ++ [c] `prefix_of` k) (slice keys (q_s elt) (q_e elt)) = filter (λ k, w ++ [c] `prefix_of` k) keys) as Hfil.
  { intros c. rewrite Hslice, list_filter_filter. apply list_filter_iff. intros k. split; [tauto|]. intros Hp. split; [done|]. by apply (Hpre k c). }
  assert (∀ c, ¬ w ++ [c] `prefix_of` w) as Hself.
  { intros c Hp%prefix_length. rewrite length_app in Hp. simpl in Hp. lia. }
  assert ((q_col elt = length (w ++ x)) ↔ x = []) as Hxl.
  { rewrite Hcol, length_app. destruct x; simpl; split; intros; try done; lia. }
  case_bool_decide as Hleaf; simpl.
  - apply Hxl in Hleaf as ->. rewrite app_nil_r in *. rewrite Hcons in Hnd. apply NoDup_cons in Hnd as [Hnw Hnd].
    split_and!; [|lia|lia|tauto| | |].
    + intros k Hk. assert (k ∈ slice keys (q_s elt) (q_e elt)) as [Hk1 [[|c r] ->]]%Hin by (rewrite Hcons; by right); [|eauto].
      rewrite app_nil_r in Hk. done.
    + intros c k. split; intros [Hk Hp]; (split; [|done]).
      * apply Hin. rewrite Hcons. by right.
      * assert (k ∈ slice keys (q_s elt) (q_e elt)) as Hk' by (apply Hin; split; [done|by apply (Hpre k c)]).
        rewrite Hcons in Hk'. apply elem_of_cons in Hk' as [->|?]; [by destruct (Hself c)|done].
    + intros c. rewrite <- Hfil, Hcons. by rewrite filter_cons_False.
    + unfold weight. rewrite Hcons, Hcol. simpl. lia.
  - split_and!; [|lia|lia|tauto| |done|].
    + intros k Hk. apply Hin in Hk as [Hk [[|c r] ->]]; [|eauto]. rewrite app_nil_r in Hk. apply Hw in Hk. tauto.
    + intros c k. rewrite Hin. split; [tauto|]. intros [Hk Hp]. split; [|done]. split; [done|]. by apply (Hpre k c).
    + unfold weight. by rewrite Hcol.
Qed.

Lemma shape_snoc L l : shape (L ++ [l]) = shape L ++ replicate (length l) false ++ [true].
Proof. rewrite shape_app. unfold shape at 2. simpl. by rewrite app_nil_r. Qed.

Lemma laid_snoc bm bm' L (l : list ascii) :
  laid bm L → (∀ p, bit bm' p = bit bm p) → length bm ≤ length bm' →
  laid (setBit bm' (length (shape L) + length l) 1) (L ++ [l]).
Proof.
  intros [Hb Hl] Hb' Hlen. split.
  - intros p. rewrite bit_setBit, Hb', Hb, shape_snoc by auto. rewrite andb_true_r.
    destruct (decide (p < length (shape L))) as [H1|H1].
    + rewrite lookup_app_l by done. rewrite bool_decide_false by lia. by rewrite orb_false_r.
    + rewrite (lookup_ge_None_2 (shape L)) by lia. rewrite lookup_app_r by lia. simpl.
      destruct (decide (p < length (shape L) + length l)) as [H2|H2].
      * rewrite lookup_app_l by (rewrite length_replicate; lia). rewrite lookup_replicate_2 by lia. by rewrite bool_decide_false by lia.
      * rewrite lookup_app_r by (rewrite length_replicate; lia). rewrite length_replicate. case_bool_decide as H3.
        -- replace (p - length (shape L) - length l) with 0 by lia. done.
        -- by rewrite lookup_ge_None_2 by (simpl; lia).
  - rewrite length_setBit, shape_snoc, !length_app, length_replicate. simpl.
    pose proof (Nat.div_mod_eq (length (shape L) + length l) 64). pose proof (Nat.mod_upper_bound (length (shape L) + length l) 64). lia.
Qed.

(** The words after [i] nodes. *)
Definition sized (i : nat) (b : building) : Prop :=
  Forall word (b_leaves b) ∧ length (b_leaves b) ≤ i ∧ Forall word (b_bitmap b) ∧ length (b_bitmap b) ≤ b_lIdx b.

Lemma visit_spec i elt w b L :
  good elt w → laid (b_bitmap b) L → b_lIdx b = length (shape L) →
  ∃ l elts b', visit keys i elt b = Some b' ∧
    b_labels b' = b_labels b ++ l ∧ b_queue b' = b_queue b ++ elts ∧ laid (b_bitmap b') (L ++ [l]) ∧
    b_lIdx b' = length (shape (L ++ [l])) ∧ Forall2 good elts ((λ c, w ++ [c]) <$> l) ∧ node_edges w l ∧
    (∀ p, bit (b_leaves b') p = bit (b_leaves b) p || bool_decide (p = i) && bool_decide (w ∈ keys)) ∧
    length (b_leaves b) ≤ length (b_leaves b') ∧ (w ∈ keys → i < 64 * length (b_leaves b')) ∧
    (sized i b → sized (S i) b') ∧
    sum_list_with (λ elt, S (weight elt)) elts ≤ weight elt.
Proof.
  intros Hg Hlaid Hidx. destruct (good_first elt w Hg) as (x & Hk & _ & _ & _).
  destruct (good_rest elt w _ Hg Hk) as (Hext & Hs & Hleaf & Hkeys & Hfil & Hweight). unfold visit. rewrite Hk. simpl.
  set (s := if bool_decide (q_col elt = length (w ++ x)) then S (q_s elt) else q_s elt) in *.
  set (b1 := if bool_decide (q_col elt = length (w ++ x)) then _ else b).
  destruct Hg as (Hcol & Hse & Hslice).
  destruct (visit_children_spec w (q_e elt - s) s (q_e elt) b1 Hext) as (l & elts & bm & Hv & Hbm & Hlen & Hwords & Hf & Hl & Hsort & Hsum); [lia..|].
  rewrite Hcol, Hv. simpl.
  assert (b_bitmap b1 = b_bitmap b ∧ b_labels b1 = b_labels b ∧ b_queue b1 = b_queue b ∧ b_lIdx b1 = b_lIdx b) as (E1 & E2 & E3 & E4)
    by (unfold b1; by case_bool_decide).
  eexists l, elts, _. split; [done|]. simpl. rewrite E1, E2, E3, E4 in *. split_and!; [done|done| | | | | | | | |lia].
  - rewrite Hidx. by apply (laid_snoc (b_bitmap b)).
  - rewrite shape_snoc, Hidx, !length_app, length_replicate. simpl. lia.
  - apply Forall2_fmap_r, (Forall2_impl _ _ _ _ Hf). intros elt' c (H1 & H2 & H3). unfold good, compose. rewrite length_app. simpl.
    split_and!; [lia|lia|lia|]. by rewrite H3, Hfil.
  - split; [done|]. intros c. rewrite Hl. by setoid_rewrite (Hkeys c).
  - intros p. unfold b1. case_bool_decide as Hc; simpl.
    + rewrite bit_setBit by auto. by rewrite (bool_decide_true (w ∈ keys)) by tauto.
    + rewrite (bool_decide_false (w ∈ keys)) by tauto. by rewrite andb_false_r, orb_false_r.
  - unfold b1. case_bool_decide; simpl; [rewrite length_setBit|]; lia.
  - intros Hw. unfold b1. rewrite bool_decide_true by tauto. simpl. rewrite length_setBit.
    pose proof (Nat.div_mod_eq i 64). pose proof (Nat.mod_upper_bound i 64). lia.
  - intros (S1 & S2 & S3 & S4). destruct (Hwords (conj S3 S4)) as [W1 W2]. unfold sized. simpl.
    pose proof (div64_le (b_lIdx b + length l)). pose proof (div64_le i).
    split_and!; [| |by apply setBit_words; auto|rewrite length_setBit; lia];
      unfold b1; case_bool_decide; simpl; [by apply setBit_words; auto|done|rewrite length_setBit; lia|lia].
Qed.


(** *** The whole loop *)

Definition kids (w l : list ascii) : list (list ascii) := (λ c, w ++ [c]) <$> l.

(** The loop has visited the nodes [W] up to the length of [L], their edges. *)
Record built (b : building) (W L : list (list ascii)) : Prop := {
  bt_length : length L ≤ length W;
  bt_queue : Forall2 good (b_queue b) W;
  bt_nodes : W = [] :: concat (zip_with kids W L);
  bt_labels : b_labels b = concat L;
  bt_idx : b_lIdx b = length (shape L);
  bt_laid : laid (b_bitmap b) L;
  bt_edges n w l : W !! n = Some w → L !! n = Some l → node_edges w l;
  bt_leaf n : bit (b_leaves b) n = from_option (λ w, bool_decide (w ∈ keys)) false (take (length L) W !! n);
  bt_leaf_length n w : n < length L → W !! n = Some w → w ∈ keys → n < 64 * length (b_leaves b);
  bt_order n : n < length L → n ≤ offset L n;
  bt_sized : sized (length L) b }.

Lemma zip_with_snoc {A B C} (f : A → B → C) W K L w l :
  W !! length L = Some w → zip_with f (W ++ K) (L ++ [l]) = zip_with f W L ++ [f w l].
Proof.
  revert W. induction L as [|x L IH]; intros [|y W] Hw; simpl in *; try done.
  - injection Hw as ->. f_equal. by destruct (W ++ K).
  - by rewrite IH.
Qed.

Lemma concat_kids_length W L : length L ≤ length W → length (concat (zip_with kids W L)) = length (concat L).
Proof using Type.
  revert W. induction L as [|l L IH]; intros [|w W] Hlen; simpl in *; try done; [lia|].
  rewrite !length_app, IH by lia. unfold kids. by rewrite length_fmap.
Qed.

Lemma visit_built i elt b W L :
  built b W L → i = length L → b_queue b !! i = Some elt →
  ∃ b' W' L' elts, visit keys i elt b = Some b' ∧ built b' W' L' ∧ length L' = S i ∧ b_queue b' = b_queue b ++ elts ∧
    sum_list_with (λ elt, S (weight elt)) elts ≤ weight elt.
Proof.
  intros Hb -> Hq. destruct (Forall2_lookup_l _ _ _ _ _ (bt_queue _ _ _ Hb) Hq) as (w & Hw & Hg).
  assert (length L < length W) as Hlt by (by apply lookup_lt_Some in Hw).
  destruct (visit_spec (length L) elt w b L Hg (bt_laid _ _ _ Hb) (bt_idx _ _ _ Hb))
    as (l & elts & b' & Hv & Hlab & Hqueue & Hlaid & Hidx & Helts & Hedges & Hleaf & Hlen & Hrange & Hsized & Hsum).
  exists b', (W ++ kids w l), (L ++ [l]), elts. split; [done|]. split; [|by rewrite length_app, Nat.add_comm].
  assert (∀ n v, (W ++ kids w l) !! n = Some v → n < length (L ++ [l]) → W !! n = Some v) as Hold.
  { intros n v Hn Hnl. rewrite length_app in Hnl. simpl in Hnl. by rewrite lookup_app_l in Hn by lia. }
  split.
  - rewrite !length_app. simpl. lia.
  - rewrite Hqueue. by apply Forall2_app; [apply Hb|].
  - rewrite (zip_with_snoc kids W _ L w l Hw), concat_app. simpl. rewrite app_nil_r, app_comm_cons. by rewrite <- (bt_nodes _ _ _ Hb).
  - rewrite Hlab, (bt_labels _ _ _ Hb), concat_app. simpl. by rewrite app_nil_r.
  - done.
  - done.
  - intros n v x Hn Hx. pose proof (lookup_lt_Some _ _ _ Hx) as Hnl. specialize (Hold n v Hn Hnl).
    rewrite length_app in Hnl. simpl in Hnl. destruct (decide (n = length L)) as [->|Hne].
    + rewrite lookup_app_r, Nat.sub_diag in Hx by lia. simpl in Hx. simplify_eq. done.
    + rewrite lookup_app_l in Hx by lia. by apply (bt_edges _ _ _ Hb n).
  - intros n. rewrite Hleaf, (bt_leaf _ _ _ Hb), length_app. simpl. rewrite Nat.add_1_r.
    rewrite (take_S_r (W ++ _) (length L) w) by (by rewrite lookup_app_l). rewrite take_app_le by lia.
    destruct (Nat.lt_trichotomy n (length L)) as [Hn|[->|Hn]].
    + rewrite (lookup_app_l (take _ W)) by (rewrite length_take; lia). rewrite (bool_decide_false (n = _)) by lia. by rewrite orb_false_r.
    + rewrite lookup_app_r, length_take, Nat.min_l, Nat.sub_diag by (rewrite ?length_take; lia). simpl.
      rewrite (lookup_ge_None_2 (take _ W)) by (rewrite length_take; lia). by rewrite bool_decide_true.
    + rewrite !lookup_ge_None_2 by (rewrite ?length_app, !length_take; simpl; lia). rewrite (bool_decide_false (n = _)) by lia. done.
  - intros n v Hnl Hn Hv'. specialize (Hold n v Hn Hnl). rewrite length_app in Hnl. simpl in Hnl.
    destruct (decide (n = length L)) as [->|Hne]; [simplify_eq; by apply Hrange|].
    assert (n < 64 * length (b_leaves b)); [|lia]. apply (bt_leaf_length _ _ _ Hb n v); [lia|done|done].
  - intros n Hn. rewrite length_app in Hn. simpl in Hn. destruct (decide (n = length L)) as [->|Hne].
    + unfold offset. rewrite take_app_length. pose proof (f_equal length (bt_nodes _ _ _ Hb)) as HW. simpl in HW.
      rewrite concat_kids_length in HW by lia. lia.
    + unfold offset. rewrite take_app_le by lia. apply (bt_order _ _ _ Hb). lia.
  - rewrite length_app, Nat.add_comm. by apply Hsized, Hb.
Qed.

Lemma visit_all_built fuel i b W L :
  built b W L → i = length L → sum_list_with (λ elt, S (weight elt)) (drop i (b_queue b)) ≤ fuel →
  ∃ b' W' L', visit_all keys fuel i b = Some b' ∧ built b' W' L' ∧ length L' = length W' ∧ length L' ≤ i + fuel.
Proof.
  revert i b W L. induction fuel as [|fuel IH]; intros i b W L Hb Hi Hf; simpl; destruct (b_queue b !! i) as [elt|] eqn:Hq.
  - rewrite (drop_S _ _ _ Hq) in Hf. simpl in Hf. lia.
  - exists b, W, L. apply lookup_ge_None in Hq. rewrite (Forall2_length _ _ _ (bt_queue _ _ _ Hb)) in Hq.
    pose proof (bt_length _ _ _ Hb). split_and!; [done|done|lia|lia].
  - destruct (visit_built i elt b W L Hb Hi Hq) as (b1 & W1 & L1 & elts & -> & Hb1 & HL1 & Hq1 & Hsum). simpl.
    destruct (IH (S i) b1 W1 L1 Hb1) as (b' & W' & L' & -> & Hb' & Hlen & Hle); [done| |exists b', W', L'; split_and!; [done..|lia]].
    rewrite Hq1, drop_app_le, sum_list_with_app by (apply lookup_lt_Some in Hq; lia).
    rewrite (drop_S _ _ _ Hq) in Hf. simpl in Hf. lia.
  - exists b, W, L. apply lookup_ge_None in Hq. rewrite (Forall2_length _ _ _ (bt_queue _ _ _ Hb)) in Hq.
    pose proof (bt_length _ _ _ Hb). split_and!; [done|done|lia|lia].
Qed.

Lemma built_start : keys ≠ [] → built (mkBuilding [] [] [] [mkElt 0 (length keys) 0] 0) [[]] [].
Proof.
  intros Hne. split; simpl; try done; try lia.
  constructor; [|constructor]. split; [done|]. simpl. split; [destruct keys; simpl; done || lia|].
  unfold slice. rewrite Nat.sub_0_r. simpl. rewrite firstn_all, filter_all; [done|]. apply Forall_forall. intros k _. apply prefix_nil.
Qed.

(** *** The finished set *)

(** [W] are the prefixes at the nodes, [L] the bytes on their edges. *)
Record louds `{Bitmap} (ss : DomainSet) (W L : list (list ascii)) : Prop := {
  ld_nodes : W = [] :: concat (zip_with kids W L);
  ld_length : length L = length W;
  ld_labels : labels ss = concat L;
  ld_laid : laid (labelBitmap ss) L;
  ld_edges n w l : W !! n = Some w → L !! n = Some l → node_edges w l;
  ld_leaf n w : W !! n = Some w → n < 64 * length (leaves ss) ∧ bit (leaves ss) n = bool_decide (w ∈ keys);
  ld_order n : n < length L → n ≤ offset L n;
  ld_selects : selects ss = (IndexSelect32R64 (labelBitmap ss)).1;
  ld_ranks : ranks ss = (IndexSelect32R64 (labelBitmap ss)).2;
  ld_small : length (shape L) ≤ 2 * S (total_length keys);
  ld_words : Forall word (leaves ss) ∧ Forall word (labelBitmap ss) ∧
    length (leaves ss) ≤ length (shape L) ∧ length (labelBitmap ss) ≤ length (shape L) }.

(** The last node is a leaf, so the bitmap of the leaves has a bit for all. *)
Lemma built_leaves b W L n w : built b W L → length L = length W → W !! n = Some w → n < 64 * length (b_leaves b).
Proof.
  intros Hb HLW Hn. assert (0 < length W) as H0 by (apply lookup_lt_Some in Hn; lia).
  destruct (lookup_lt_is_Some_2 W (length W - 1)) as [v Hv]; [lia|].
  destruct (lookup_lt_is_Some_2 L (length W - 1)) as [l Hl]; [lia|].
  assert (l = []) as ->.
  { pose proof (f_equal length (bt_nodes _ _ _ Hb)) as HW. simpl in HW. rewrite concat_kids_length in HW by lia.
    pose proof (bt_order _ _ _ Hb (length W - 1)). pose proof (offset_S L _ l Hl) as Ho.
    unfold offset at 1 in Ho. rewrite take_ge in Ho by lia. destruct l; [done|]. simpl in Ho. lia. }
  destruct (bt_edges _ _ _ Hb _ _ _ Hv Hl) as [_ Hnone].
  destruct (Forall2_lookup_r _ _ _ _ _ (bt_queue _ _ _ Hb) Hv) as (elt & _ & Hg).
  destruct (good_first elt v Hg) as (x & Hk & _ & Hx & _).
  assert (x = []) as ->.
  { destruct x as [|c r]; [done|]. exfalso. apply (not_elem_of_nil c), Hnone. exists (v ++ c :: r).
    split; [by apply list_elem_of_lookup_2 in Hk|]. exists r. by rewrite <- (assoc_L (++)). }
  assert (length W - 1 < 64 * length (b_leaves b)); [|apply lookup_lt_Some in Hn; lia].
  apply (bt_leaf_length _ _ _ Hb _ v); [lia|done|tauto].
Qed.

Lemma weight_root : weight (mkElt 0 (length keys) 0) = total_length keys.
Proof.
  unfold weight, slice, total_length. cbn [q_s q_e q_col]. rewrite Nat.sub_0_r. change (drop 0 keys) with keys. rewrite firstn_all.
  generalize keys. clear. intros l. induction l as [|k l IH]; [done|]. cbn [sum_list_with]. rewrite IH. lia.
Qed.

Lemma set_of_keys_louds `{Bitmap} : keys ≠ [] → ∃ ss W L, set_of_keys keys = Some (Some ss) ∧ louds ss W L.
Proof.
  intros Hne. unfold set_of_keys. rewrite bool_decide_false by done.
  destruct (visit_all_built (S (total_length keys)) 0 _ _ _ (built_start Hne) eq_refl) as (b & W & L & -> & Hb & HLW & Hle).
  { cbn [b_queue drop sum_list_with]. rewrite weight_root. lia. }
  simpl. exists (init b), W, L. split; [done|]. unfold init. destruct (IndexSelect32R64 (b_bitmap b)) as [sel rnk] eqn:Hidx.
  split; simpl; try apply Hb; try done; try by rewrite Hidx.
  - intros n w Hn. split; [by apply (built_leaves b W L n w)|].
    rewrite (bt_leaf _ _ _ Hb), take_ge by lia. by rewrite Hn.
  - rewrite length_shape. pose proof (f_equal length (bt_nodes _ _ _ Hb)) as HW. simpl in HW.
    rewrite concat_kids_length in HW by lia. lia.
  - destruct (bt_sized _ _ _ Hb) as (S1 & S2 & S3 & S4). rewrite (bt_idx _ _ _ Hb) in S4. rewrite length_shape in *. split_and!; [done|done|lia|lia].
Qed.

(** An edge leads to the node of the longer prefix. *)
Lemma louds_child `{Bitmap} ss W L n w l j c :
  louds ss W L → W !! n = Some w → L !! n = Some l → l !! j = Some c → W !! (offset L n + j + 1) = Some (w ++ [c]).
Proof using Type.
  intros Hs Hw Hl Hj. rewrite (ld_nodes _ _ _ Hs), Nat.add_1_r. simpl.
  assert (zip_with kids W L !! n = Some (kids w l)) as Hk by (rewrite lookup_zip_with, Hw, Hl; done).
  assert (offset L n = length (concat (take n (zip_with kids W L)))) as ->.
  { unfold offset. rewrite zip_with_take, concat_kids_length; [done|]. pose proof (ld_length _ _ _ Hs). rewrite !length_take. lia. }
  rewrite <- (take_drop_middle _ _ _ Hk) at 2. rewrite concat_app. simpl.
  rewrite lookup_app_r by lia. rewrite Nat.add_comm, Nat.add_sub, lookup_app_l by (unfold kids; rewrite length_fmap; by apply lookup_lt_Some in Hj).
  unfold kids. by rewrite list_lookup_fmap, Hj.
Qed.

End Build.

(** *** The walk *)

Lemma start_mono L n m : n ≤ m → start L n ≤ start L m.
Proof.
  intros Hnm. unfold start. replace m with (n + (m - n)) by lia. rewrite <- take_take_drop, shape_app, length_app. lia.
Qed.

Lemma offset_Z L n j : n ≤ length L → (Z.of_nat (start L n + j) - Z.of_nat n)%Z = Z.of_nat (offset L n + j).
Proof. intros Hn. rewrite start_offset by done. lia. Qed.

Lemma at_index_nat {A} (l : list A) (i : nat) : at_index l (Z.of_nat i) = l !! i.
Proof. unfold at_index. by rewrite (proj2 (Z.ltb_ge _ _)), Nat2Z.id by lia. Qed.

(** A key is covered by the sorted names: it is one of them, or one of them
    goes on with a plus where the key goes on with anything. *)
Definition covered (keys : list (list ascii)) (i : nat) (d : list ascii) : Prop :=
  d ∈ keys ∨ ∃ m k, i ≤ m < length d ∧ k ∈ keys ∧ take m d ++ ["+"%char] `prefix_of` k.

Lemma covered_next keys i d :
  ¬ (∃ k, k ∈ keys ∧ take i d ++ ["+"%char] `prefix_of` k) → covered keys i d ↔ covered keys (S i) d.
Proof.
  intros Hno. unfold covered. split; (intros [?|(m & k & Hm & Hk & Hp)]; [by left|right; exists m, k]); [|split_and!; [lia..|done|done]].
  split_and!; [|lia|done|done]. destruct (decide (m = i)) as [->|]; [destruct Hno; eauto|lia].
Qed.

Lemma covered_edge keys i d c :
  covered keys (S i) d → d !! i = Some c → ∃ k, k ∈ keys ∧ take i d ++ [c] `prefix_of` k.
Proof.
  intros Hc Hi. assert (take i d ++ [c] = take (S i) d) as -> by (by rewrite (take_S_r d i c)).
  destruct Hc as [Hd|(m & k & Hm & Hk & Hp)].
  - exists d. split; [done|]. apply prefix_take.
  - exists k. split; [done|]. etrans; [|exact Hp]. replace m with (S i + (m - S i)) by lia. rewrite <- take_take_drop, <- (assoc_L (++)).
    by apply prefix_app_r.
Qed.

Lemma sorted_before (l : list ascii) j q x y : StronglySorted clt l → l !! j = Some x → l !! q = Some y → j < q → clt x y.
Proof.
  intros Hs Hj Hq Hjq. rewrite <- (take_drop_middle l j x Hj) in Hs, Hq.
  apply StronglySorted_app_1_r in Hs. apply StronglySorted_inv in Hs as [_ Hs]. rewrite Forall_forall in Hs. apply Hs.
  assert (length (take j l) = j) as Hlen by (rewrite length_take; apply lookup_lt_Some in Hj; lia).
  rewrite lookup_app_r in Hq by lia. rewrite Hlen in Hq. replace (q - j) with (S (q - S j)) in Hq by lia.
  simpl in Hq. by apply list_elem_of_lookup_2 in Hq.
Qed.

Section Walk.
Context `{BitmapLaws} (keys : list (list ascii)).
Context (ss : DomainSet) (W L : list (list ascii)) (Hss : louds keys ss W L).
Context (Hsmall : (Z.of_nat (length (shape L)) < 2 ^ 31)%Z).

Lemma walk_end n l : L !! n = Some l → ∃ x, getBit (labelBitmap ss) (Z.of_nat (start L n + length l)) = Some x ∧ (x =? 0)%Z = false.
Proof.
  intros Hl. destruct (getBit_bit (labelBitmap ss) (start L n + length l)) as (x & Hx & Hb).
  { pose proof (laid_length _ _ (ld_laid _ _ _ _ Hss)). pose proof (start_in _ _ (ld_laid _ _ _ _ Hss) n l (length l) Hl). lia. }
  exists x. split; [done|]. rewrite Hb, (laid_bit _ _ (ld_laid _ _ _ _ Hss)). by rewrite (shape_end L n l).
Qed.

Lemma walk_edge n l j x : L !! n = Some l → l !! j = Some x →
  (∃ y, getBit (labelBitmap ss) (Z.of_nat (start L n + j)) = Some y ∧ (y =? 0)%Z = true) ∧
  at_index (labels ss) (Z.of_nat (start L n + j) - Z.of_nat n) = Some x.
Proof.
  intros Hl Hj. assert (j < length l) as Hjl by (by apply lookup_lt_Some in Hj). split.
  - destruct (getBit_bit (labelBitmap ss) (start L n + j)) as (y & Hy & Hb).
    { pose proof (laid_length _ _ (ld_laid _ _ _ _ Hss)). pose proof (start_in _ _ (ld_laid _ _ _ _ Hss) n l j Hl). lia. }
    exists y. split; [done|]. rewrite Hb, (laid_bit _ _ (ld_laid _ _ _ _ Hss)). by rewrite (shape_edge L n l).
  - rewrite offset_Z, at_index_nat, (ld_labels _ _ _ _ Hss) by (apply lookup_lt_Some in Hl; lia). by apply (concat_lookup L n l).
Qed.

(** The node an edge leads to. *)
Lemma walk_child n w l j x : W !! n = Some w → L !! n = Some l → l !! j = Some x →
  ∃ n' l', W !! n' = Some (w ++ [x]) ∧ L !! n' = Some l' ∧ start L n + j < start L n' ∧
    countZeros (labelBitmap ss) (ranks ss) (Z.of_nat (start L n + j) + 1) = Z.of_nat n' ∧
    (selectIthOne (labelBitmap ss) (ranks ss) (selects ss) (Z.of_nat n' - 1) + 1)%Z = Z.of_nat (start L n').
Proof.
  intros Hw Hl Hj. pose proof (louds_child keys ss W L n w l j x Hss Hw Hl Hj) as Hchild.
  set (n' := offset L n + j + 1) in *. assert (n' < length L) as Hn'.
  { rewrite (ld_length _ _ _ _ Hss). by apply lookup_lt_Some in Hchild. }
  destruct (lookup_lt_is_Some_2 L n' Hn') as [l' Hl']. exists n', l'.
  assert (j < length l) as Hjl by (by apply lookup_lt_Some in Hj).
  assert (S n ≤ n') as Hlater.
  { pose proof (ld_order _ _ _ _ Hss n). apply lookup_lt_Some in Hl. lia. }
  split_and!; [done|done| | |].
  - pose proof (start_mono L (S n) n' Hlater). rewrite (start_S L n l Hl) in *. lia.
  - rewrite (ld_ranks _ _ _ _ Hss). apply (countZeros_edge _ _ (ld_laid _ _ _ _ Hss) Hsmall n l j Hl Hjl).
  - rewrite (ld_ranks _ _ _ _ Hss), (ld_selects _ _ _ _ Hss). destruct n' as [|m]; [lia|].
    apply (select_start _ _ (ld_laid _ _ _ _ Hss) Hsmall). lia.
Qed.

Context (Hstar : ∀ k, k ∈ keys → "*"%char ∉ k).

Lemma edge_not_star n w l : W !! n = Some w → L !! n = Some l → "*"%char ∉ l.
Proof.
  intros Hw Hl Hin. destruct (ld_edges _ _ _ _ Hss n w l Hw Hl) as [_ He]. apply He in Hin as (k & Hk & [r ->]).
  apply (Hstar _ Hk). rewrite !elem_of_app. left. right. by left.
Qed.

Lemma has_walk d fuel n i j l :
  Forall (clt "+"%char) d → i < length d → W !! n = Some (take i d) → L !! n = Some l → j ≤ length l →
  (∀ q x, q < j → l !! q = Some x → x ≠ "+"%char ∧ d !! i ≠ Some x) →
  length (shape L) < fuel + (start L n + j) →
  ∃ b, has_loop ss d fuel (Z.of_nat n) (Z.of_nat (start L n + j)) [] i = Found b ∧ (b = true ↔ covered keys i d).
Proof.
  intros Hd. revert n i j l. induction fuel as [|fuel IH]; intros n i j l Hi Hw Hl Hj Hbefore Hf.
  { pose proof (start_in _ _ (ld_laid _ _ _ _ Hss) n l j Hl Hj). lia. }
  destruct (lookup_lt_is_Some_2 d i Hi) as [c Hc].
  assert (clt "+"%char c) as Hplus by (rewrite Forall_forall in Hd; apply Hd, (list_elem_of_lookup_2 _ _ _ Hc)).
  destruct (ld_edges _ _ _ _ Hss n _ l Hw Hl) as [Hsort Hedges].
  assert (∀ x, x ∈ l → (∃ q, q < j ∧ l !! q = Some x) ∨ ∃ q, j ≤ q ∧ l !! q = Some x) as Hpos.
  { intros x [q Hq]%list_elem_of_lookup. destruct (decide (q < j)); [left|right]; exists q; (split; [lia|done]). }
  simpl. unfold has_step. rewrite Hc. simpl. destruct (decide (j = length l)) as [->|Hne].
  - destruct (walk_end n l Hl) as (x & -> & Hx). simpl. rewrite Hx. simpl. exists false. split; [done|]. split; [done|].
    intros Hcov. exfalso. assert (∀ x, x ∈ l → x ≠ "+"%char ∧ d !! i ≠ Some x) as Hall.
    { intros y Hy. destruct (Hpos y Hy) as [(q & Hq & Hlq)|(q & Hq & Hlq)]; [by apply (Hbefore q)|apply lookup_lt_Some in Hlq; lia]. }
    rewrite covered_next in Hcov by (intros Hp%Hedges; by apply Hall in Hp as [? _]).
    apply (covered_edge _ _ _ c) in Hcov; [|done]. apply Hedges in Hcov. by apply Hall in Hcov as [_ ?].
  - destruct (lookup_lt_is_Some_2 l j) as [x Hx]; [lia|]. destruct (walk_edge n l j x Hl Hx) as [(y & -> & Hy) Hlab].
    simpl. rewrite Hy. simpl. rewrite Hlab. simpl. case_bool_decide as Hxp.
    { subst x. exists true. split; [done|]. split; [intros _|done]. right.
      assert ("+"%char ∈ l) as (k & Hk & Hp)%Hedges by (exact (list_elem_of_lookup_2 _ _ _ Hx)). exists i, k. split_and!; [lia|lia|done|done]. }
    rewrite bool_decide_false by (intros ->; apply (edge_not_star n _ l Hw Hl); exact (list_elem_of_lookup_2 _ _ _ Hx)).
    case_bool_decide as Hxc.
    + subst x. assert ("+"%char ∉ l) as Hnop.
      { intros Hin. destruct (Hpos _ Hin) as [(q & Hq & Hlq)|(q & Hq & Hlq)]; [by apply (Hbefore q _ Hq) in Hlq as [? _]|].
        destruct (decide (q = j)) as [->|]; [congruence|]. pose proof (sorted_before l j q _ _ Hsort Hx Hlq ltac:(lia)).
        unfold clt in *. lia. }
      destruct (walk_child n _ l j c Hw Hl Hx) as (n' & l' & Hw' & Hl' & Hlater & -> & ->).
      assert (take i d ++ [c] = take (S i) d) as Htake by (by rewrite (take_S_r d i c)). rewrite Htake in Hw'.
      assert (covered keys i d ↔ covered keys (S i) d) as Hcov by (apply covered_next; by intros Hp%Hedges).
      destruct (Nat.ltb_spec (S i) (length d)) as [Hlt|Hge].
      * destruct (IH n' (S i) 0 l') as (b & Hb & Hcb); [done|done|done|lia|lia|lia|].
        rewrite Nat.add_0_r in Hb. exists b. split; [done|]. by rewrite Hcb, Hcov.
      * destruct (ld_leaf _ _ _ _ Hss n' _ Hw') as [Hr Hbit]. destruct (getBit_bit (leaves ss) n' Hr) as (z & -> & Hz). simpl.
        rewrite Hz, Hbit, negb_involutive. rewrite (take_ge d) by lia. eexists. split; [done|].
        rewrite bool_decide_eq_true, Hcov. unfold covered. split; [by left|]. intros [?|(m & k & Hm & _)]; [done|lia].
    + replace (Z.of_nat (start L n + j) + 1)%Z with (Z.of_nat (start L n + S j)) by lia. apply (IH n i (S j) l); [done..|lia| |lia].
      intros q z Hq Hy'. destruct (decide (q = j)) as [->|]; [|apply (Hbefore q); [lia|done]]. rewrite Hx in Hy'. injection Hy' as <-.
      split; [done|]. congruence.
Qed.

End Walk.

(** What [Has] answers for the set of some names without stars. *)
Lemma Has_covered `{BitmapLaws} keys fuel domain :
  StronglySorted (λ a b, key_le a b) keys → NoDup keys → keys ≠ [] →
  (∀ k, k ∈ keys → "*"%char ∉ k) → Forall (clt "+"%char) (map lower_ascii (Reverse domain)) →
  (Z.of_nat (2 * S (total_length keys)) < 2 ^ 31)%Z → 2 * S (total_length keys) < fuel →
  ∃ ss b, set_of_keys keys = Some (Some ss) ∧ Has fuel (Some ss) domain = Found b ∧
    (b = true ↔ covered keys 0 (map lower_ascii (Reverse domain))).
Proof.
  intros Hsort Hnd Hne Hstar Hd Hsmall Hfuel. destruct (set_of_keys_louds keys Hsort Hnd Hne) as (ss & W & L & Hset & Hss).
  exists ss. set (d := map lower_ascii (Reverse domain)) in *. unfold Has. fold d.
  assert (W !! 0 = Some []) as Hw0 by (by rewrite (ld_nodes _ _ _ _ Hss)).
  pose proof (ld_small _ _ _ _ Hss) as Hlen. case_bool_decide as Hempty.
  - destruct (ld_leaf _ _ _ _ Hss 0 _ Hw0) as [Hr Hbit]. destruct (getBit_bit (leaves ss) 0 Hr) as (z & Hz & Hzb).
    change (Z.of_nat 0) with 0%Z in Hz. rewrite Hz, Hzb, Hbit, negb_involutive. eexists. split_and!; [done|done|].
    rewrite bool_decide_eq_true, Hempty. unfold covered. simpl. split; [by left|]. intros [?|(m & k & Hm & _)]; [done|lia].
  - destruct (lookup_lt_is_Some_2 L 0) as [l Hl]; [rewrite (ld_length _ _ _ _ Hss); by apply lookup_lt_Some in Hw0|].
    destruct (has_walk keys ss W L Hss ltac:(lia) Hstar d fuel 0 0 0 l Hd) as (b & Hb & Hcov); [|done|done|lia|lia|lia|].
    { destruct d; [done|]. simpl. lia. }
    exists b. split_and!; [done| |done]. exact Hb.
Qed.

(** *** Names of paths *)

Definition ended (ps : list (list ascii)) : list ascii := concat (map (λ x, x ++ [domainStep]) ps).

Abbreviation joined ps := (join_bytes [domainStep] ps).

(** The labels of a path, reversed. *)
Definition rev_labels (path : list string) : list (list ascii) := map (λ s, reverse (bytes s)) path.

Lemma joined_snoc ps x : joined (ps ++ [x]) = ended ps ++ x.
Proof.
  induction ps as [|p ps IH]; [done|]. unfold ended in *. simpl in *. destruct ps as [|q ps]; simpl in *; [by rewrite app_nil_r, <- (assoc_L (++))|].
  by rewrite IH, <- !(assoc_L (++)).
Qed.

Lemma reverse_joined ps : reverse (joined ps) = joined (reverse (map reverse ps)).
Proof.
  induction ps as [|p ps IH]; [done|]. simpl map. rewrite reverse_cons. destruct ps as [|q ps]; [done|].
  change (joined (p :: q :: ps)) with (p ++ [domainStep] ++ joined (q :: ps)). rewrite !reverse_app, IH, joined_snoc.
  f_equal. clear. simpl map. rewrite reverse_cons. unfold ended. rewrite joined_snoc, map_app, concat_app. simpl. unfold ended.
  by rewrite app_nil_r, <- (assoc_L (++)).
Qed.

Lemma Reverse_Join parts : Reverse (joinDomain parts) = joined (rev_labels (reverse parts)).
Proof.
  unfold Reverse, joinDomain, Join. rewrite bytes_of_bytes. change (bytes (String domainStep "")) with [domainStep].
  rewrite reverse_joined, map_map. f_equal. unfold rev_labels. change (map (λ x, reverse (bytes x)) parts) with ((λ x, reverse (bytes x)) <$> parts).
  by rewrite <- fmap_reverse.
Qed.

Definition dotless (l : list ascii) : Prop := domainStep ∉ l.

Lemma split_ended ps r : Forall dotless ps → split_bytes domainStep (ended ps ++ r) = ps ++ split_bytes domainStep r.
Proof.
  induction 1 as [|p ps Hp _ IH]; [done|]. unfold ended in *. simpl. rewrite <- !(assoc_L (++)). simpl.
  by rewrite split_bytes_app, IH.
Qed.

Lemma joined_inj ps qs : ps ≠ [] → qs ≠ [] → Forall dotless ps → Forall dotless qs → joined ps = joined qs → ps = qs.
Proof.
  intros H1 H2 H3 H4 He. rewrite <- (split_join_bytes domainStep ps), He by done. by apply split_join_bytes.
Qed.

Lemma ended_prefix ps qs : qs ≠ [] → Forall dotless ps → Forall dotless qs →
  ended ps `prefix_of` joined qs ↔ ∃ b rest, qs = ps ++ b :: rest.
Proof.
  intros Hne Hps Hqs. split.
  - intros [r Hr]. rewrite <- (split_join_bytes domainStep qs), Hr, split_ended by done.
    pose proof (split_bytes_not_nil domainStep r). destruct (split_bytes domainStep r) as [|b rest]; [done|]. by exists b, rest.
  - intros (b & rest & ->). clear. induction ps as [|p ps [r IH]]; [apply prefix_nil|]. exists r. unfold ended in *. simpl.
    destruct (ps ++ b :: rest) as [|x xs] eqn:Hx; [by destruct ps|]. by rewrite IH, <- !(assoc_L (++)).
Qed.

(** *** Patterns without stars *)

Definition no_sign (s : string) : bool := bool_decide ("*"%char ∉ bytes s) && bool_decide ("+"%char ∉ bytes s).

(** The only sign of the pattern is a [+] for its first label. *)
Definition plain_pattern (p : string) : bool :=
  match ValidAndSplitDomain p with
  | Some (p0 :: rest) =>
    (if bool_decide (p0 = complexWildcard) then negb (bool_decide (rest = [])) else no_sign p0) && forallb no_sign rest
  | _ => true
  end.

Definition plain_label (s : string) : Prop := dotless (bytes s) ∧ no_sign s = true.

(** A stored path: plain labels, none empty but a dot wildcard at the end. *)
Inductive plain_path : list string → Prop :=
  | plain_labels path : path ≠ [] → Forall plain_label path → Forall (.≠ ""%string) path → plain_path path
  | plain_dot path : path ≠ [] → Forall plain_label path → Forall (.≠ ""%string) path → plain_path (path ++ [dotWildcard]).

Lemma Valid_parts domain p0 rest : ValidAndSplitDomain domain = Some (p0 :: rest) →
  p0 :: rest = Split (ToLower domain) domainStep ∧ Forall (.≠ ""%string) rest ∧ (rest = [] → p0 ≠ ""%string) ∧
  Forall (λ s, dotless (bytes s)) (p0 :: rest).
Proof.
  intros Hv. assert (p0 :: rest = Split (ToLower domain) domainStep ∧ Forall (.≠ ""%string) rest ∧ (rest = [] → p0 ≠ ""%string)) as (H1 & H2 & H3).
  { unfold ValidAndSplitDomain in Hv. destruct (HasSuffix domain "."); [done|]. destruct (edge_space (bytes domain)); [done|].
    destruct (Split (ToLower domain) domainStep) as [|q [|q1 qs]]; [done| |].
    - case_bool_decide; [done|]. injection Hv as -> <-. split_and!; [done|constructor|done].
    - destruct (existsb _ _) eqn:He; [done|]. injection Hv as -> <-. split_and!; [done| |done].
      apply Forall_forall. intros s Hs ->. assert (is_true (existsb (λ p, bool_decide (p = ""%string)) (q1 :: qs))); [|by rewrite He in *].
      apply existsb_exists. exists ""%string. split; [by apply list_elem_of_In|done]. }
  split_and!; [done..|]. rewrite H1. unfold Split. apply Forall_forall. intros s (l & -> & Hl)%list_elem_of_fmap.
  rewrite bytes_of_bytes. pose proof (split_bytes_free domainStep (bytes (ToLower domain))) as Hd. rewrite Forall_forall in Hd. by apply Hd.
Qed.

Lemma reverse_nil_iff {A} (l : list A) : reverse l = [] ↔ l = [].
Proof. rewrite <- !length_zero_iff_nil. by rewrite length_reverse. Qed.

Lemma no_sign_spec s : no_sign s = true ↔ "*"%char ∉ bytes s ∧ "+"%char ∉ bytes s.
Proof. unfold no_sign. by rewrite andb_true_iff, !bool_decide_eq_true. Qed.

Lemma plain_paths_of p path : plain_pattern p = true → path ∈ paths_of p → plain_path path.
Proof.
  unfold plain_pattern, paths_of. destruct (ValidAndSplitDomain p) as [[|p0 rest]|] eqn:Hv; simpl; [by intros _ ?%elem_of_nil| |by intros _ ?%elem_of_nil].
  destruct (Valid_parts p p0 rest Hv) as (_ & Hrest & Hp0 & Hdot). apply Forall_cons in Hdot as [Hdot0 Hdot].
  intros [H0 Hsign]%andb_true_iff. rewrite forallb_forall in Hsign.
  assert (Forall plain_label (reverse rest)) as Hlabels.
  { apply Forall_reverse. rewrite Forall_forall in Hdot |- *. intros s Hs. split; [by apply Hdot|by apply Hsign, list_elem_of_In]. }
  assert (Forall (.≠ ""%string) (reverse rest)) as Hne by (by apply Forall_reverse).
  case_bool_decide as Hplus.
  - apply negb_true_iff, bool_decide_eq_false in H0. assert (reverse rest ≠ []) as Hrev by (by rewrite reverse_nil_iff).
    intros [->|[->|?%elem_of_nil]%elem_of_cons]%elem_of_cons; [|by apply plain_labels|done].
    rewrite reverse_cons. by apply plain_dot.
  - intros ->%list_elem_of_singleton. rewrite reverse_cons. destruct (decide (p0 = ""%string)) as [->|Hp].
    + apply plain_dot; [|done..]. rewrite reverse_nil_iff. intros ->. by apply Hp0.
    + apply plain_labels; [by destruct (reverse rest)|..]; apply Forall_app; (split; [done|]); by repeat constructor.
Qed.

(** The sorted name of a path. *)
Definition key_of (path : list string) : list ascii := Reverse (foreach_name path).

Lemma foreach_name_joined path : path ≠ [] → Forall (λ s, dotless (bytes s)) path → Forall (.≠ ""%string) path →
  foreach_name path = joinDomain (reverse path).
Proof.
  intros Hne Hdot Hnil. unfold foreach_name. destruct path as [|k [|k2 path]]; [done|done|].
  unfold shown_domain. assert (HasPrefix (joinDomain (reverse (k :: k2 :: path))) (String domainStep "") = false) as ->; [|done].
  apply bool_decide_eq_false. intros [r Hr]. simpl in Hr.
  assert (Forall (λ s, dotless (bytes s)) (reverse (k :: k2 :: path))) as Hd by (by apply Forall_reverse).
  assert (Forall (.≠ ""%string) (reverse (k :: k2 :: path))) as Hn by (by apply Forall_reverse).
  unfold joinDomain, Join in Hr. rewrite bytes_of_bytes in Hr.
  destruct (reverse (k :: k2 :: path)) as [|s ss]; [done|]. apply Forall_cons in Hd as [Hd _]. apply Forall_cons in Hn as [Hn _].
  destruct s as [|c s]; [done|]. simpl in Hr. destruct (map bytes ss); simpl in Hr; injection Hr as -> _; apply Hd; simpl; left.
Qed.

Lemma key_of_labels path : path ≠ [] → Forall (λ s, dotless (bytes s)) path → Forall (.≠ ""%string) path →
  key_of path = joined (rev_labels path).
Proof.
  intros Hne Hdot Hnil. unfold key_of. by rewrite foreach_name_joined, Reverse_Join, reverse_involutive.
Qed.

Lemma key_of_dot path : path ≠ [] → key_of (path ++ [dotWildcard]) = ended (rev_labels path) ++ ["+"%char].
Proof.
  intros Hne. unfold key_of. assert (foreach_name (path ++ [dotWildcard]) = shown_domain (reverse (path ++ [dotWildcard]))) as ->.
  { destruct path as [|k [|k2 path]]; done. }
  unfold shown_domain. assert (∃ l, bytes (joinDomain (reverse (path ++ [dotWildcard]))) = domainStep :: l) as [l Hl].
  { rewrite reverse_app. unfold joinDomain, Join. rewrite bytes_of_bytes. simpl.
    assert (reverse path ≠ []) as Hr by (by rewrite reverse_nil_iff). destruct (reverse path) as [|s ss]; [done|]. simpl. by eexists. }
  assert (HasPrefix (joinDomain (reverse (path ++ [dotWildcard]))) (String domainStep "") = true) as ->.
  { apply bool_decide_eq_true. rewrite Hl. by exists l. }
  unfold Reverse. rewrite bytes_app, reverse_app. fold (Reverse (joinDomain (reverse (path ++ [dotWildcard])))).
  rewrite Reverse_Join, reverse_involutive. unfold rev_labels. rewrite map_app. simpl. rewrite joined_snoc. by rewrite app_nil_r.
Qed.

Lemma rev_labels_dotless path : Forall (λ s, dotless (bytes s)) path → Forall dotless (rev_labels path).
Proof.
  intros Hd. unfold rev_labels. apply Forall_map, (Forall_impl _ _ _ Hd). intros s Hs. unfold dotless, compose in *. by rewrite elem_of_reverse.
Qed.

Lemma rev_labels_inj p q : rev_labels p = rev_labels q → p = q.
Proof.
  unfold rev_labels. revert q. induction p as [|s p IH]; intros [|t q]; simpl; try done. intros [= H1 H2].
  f_equal; [|by apply IH]. apply bytes_inj. by apply (inj reverse).
Qed.

Lemma rev_labels_nil p : rev_labels p = [] ↔ p = [].
Proof. by destruct p. Qed.

(** A sign is not in the names of labels. *)
Lemma sign_joined c path : c ≠ domainStep → Forall (λ s, c ∉ bytes s) path → c ∉ joined (rev_labels path) ∧ c ∉ ended (rev_labels path).
Proof.
  intros Hc Hl. assert (c ∉ ended (rev_labels path)) as He.
  { unfold ended, rev_labels. rewrite map_map. intros (s & Hs & Hin)%elem_of_concat_map. rewrite Forall_forall in Hl.
    apply elem_of_app in Hin as [Hin|Hin%list_elem_of_singleton]; [|done]. rewrite elem_of_reverse in Hin. exact (Hl s Hs Hin). }
  split; [|done]. destruct path as [|s path _] using rev_ind; [apply not_elem_of_nil|]. unfold rev_labels in *. rewrite map_app in *. simpl in *.
  rewrite joined_snoc. unfold ended in *. rewrite map_app, concat_app in He. rewrite elem_of_app in He |- *. simpl in He.
  rewrite elem_of_app in He. rewrite elem_of_app in He. tauto.
Qed.

Lemma plain_dotless path : Forall plain_label path → Forall (λ s, dotless (bytes s)) path.
Proof. intros H. apply (Forall_impl _ _ _ H). by intros s [? _]. Qed.

Lemma plain_no_sign path : Forall plain_label path → Forall (λ s, "*"%char ∉ bytes s) path ∧ Forall (λ s, "+"%char ∉ bytes s) path.
Proof. intros H. split; apply (Forall_impl _ _ _ H); intros s [_ [? ?]%no_sign_spec]; done. Qed.

Lemma key_of_no_star path : plain_path path → "*"%char ∉ key_of path.
Proof.
  destruct 1 as [path Hne Hl Hn|path Hne Hl Hn]; pose proof (proj1 (plain_no_sign _ Hl)) as Hs.
  - rewrite key_of_labels by (done || by apply plain_dotless). by apply sign_joined.
  - rewrite key_of_dot, elem_of_app, list_elem_of_singleton by done. intros [H|H]; [|done]. by apply sign_joined in H.
Qed.

Lemma key_of_inj p q : plain_path p → plain_path q → key_of p = key_of q → p = q.
Proof.
  destruct 1 as [p Hp Hlp Hnp|p Hp Hlp Hnp]; destruct 1 as [q Hq Hlq Hnq|q Hq Hlq Hnq].
  - rewrite !key_of_labels by (done || by apply plain_dotless). intros He. apply rev_labels_inj.
    apply joined_inj; rewrite ?rev_labels_nil; try done; by apply rev_labels_dotless, plain_dotless.
  - rewrite (key_of_labels p), key_of_dot by (done || by apply plain_dotless). intros He.
    destruct (sign_joined "+" p) as [H _]; [done|by apply plain_no_sign|]. destruct H. rewrite He. apply elem_of_app. right. by left.
  - rewrite (key_of_labels q), key_of_dot by (done || by apply plain_dotless). intros He.
    destruct (sign_joined "+" q) as [H _]; [done|by apply plain_no_sign|]. destruct H. rewrite <- He. apply elem_of_app. right. by left.
  - rewrite !key_of_dot by done. intros He%app_inj_2; [|done]. destruct He as [He _]. f_equal. apply rev_labels_inj.
    apply (f_equal (split_bytes domainStep)) in He. pose proof (split_ended (rev_labels p) []) as H1. pose proof (split_ended (rev_labels q) []) as H2.
    rewrite app_nil_r in H1, H2. rewrite H1, H2 in He by (by apply rev_labels_dotless, plain_dotless). by apply app_inj_2 in He as [He _].
Qed.

(** What a plain path describes. *)
Lemma describes_labels path parts : Forall plain_label path → Forall (.≠ ""%string) path → describes path parts ↔ path = parts.
Proof.
  intros Hl Hn. split.
  - induction 1 as [|s p d _ IH|s p d _ _|s d].
    + done.
    + apply Forall_cons in Hl as [_ Hl]. apply Forall_cons in Hn as [_ Hn]. f_equal. by apply IH.
    + apply Forall_cons in Hl as [[_ [Hs _]%no_sign_spec] _]. destruct Hs. simpl. left.
    + by apply Forall_cons in Hn as [? _].
  - intros <-. clear. induction path; by constructor.
Qed.

Lemma describes_dot path parts : Forall plain_label path → Forall (.≠ ""%string) path → Forall (.≠ ""%string) parts →
  describes (path ++ [dotWildcard]) parts ↔ ∃ b rest, parts = path ++ b :: rest.
Proof.
  intros Hl Hn Hparts. split.
  - revert parts Hparts. induction path as [|s path IH]; intros parts Hparts H.
    + simpl in H. inversion H; subst; try done.
      * apply Forall_cons in Hparts as [? _]. done.
      * by eexists _, _.
    + apply Forall_cons in Hl as [[_ [Hs _]%no_sign_spec] Hl]. apply Forall_cons in Hn as [Hs0 Hn]. inversion H; subst.
      * apply Forall_cons in Hparts as [_ Hparts]. destruct (IH Hl Hn d Hparts) as (b & rest & ->); [done|]. by exists b, rest.
      * destruct Hs. simpl. left.
      * done.
  - intros (b & rest & ->). clear. induction path; by constructor.
Qed.

Lemma elem_of_join_bytes sep x l ps : x ∈ l → l ∈ ps → x ∈ join_bytes sep ps.
Proof.
  intros Hx. induction ps as [|p [|q ps] IH]; [by intros ?%elem_of_nil|by intros ->%list_elem_of_singleton|].
  change (join_bytes sep (p :: q :: ps)) with (p ++ sep ++ join_bytes sep (q :: ps)).
  intros [->|Hl]%elem_of_cons; rewrite !elem_of_app; [by left|right; right; by apply IH].
Qed.

Lemma joined_app ps b rest : joined (ps ++ b :: rest) = ended ps ++ joined (b :: rest).
Proof.
  induction ps as [|p ps IH]; [done|]. unfold ended in *. simpl.
  destruct (ps ++ b :: rest) as [|x xs] eqn:Hx; [by destruct ps|]. by rewrite IH, <- !(assoc_L (++)).
Qed.

Lemma snoc_prefix {A} (c : A) a b : c ∉ b → a ++ [c] `prefix_of` b ++ [c] → a = b.
Proof.
  intros Hb. revert b Hb. induction a as [|x a IH]; intros [|y b] Hb [r Hr]; simpl in Hr; [done| | |].
  - injection Hr as <- _. destruct Hb. left.
  - injection Hr as _ Hr. by destruct a.
  - injection Hr as -> Hr. f_equal. apply IH; [|by exists r]. intros H. apply Hb. by right.
Qed.

Lemma covered_path path parts :
  plain_path path → parts ≠ [] → Forall (λ s, dotless (bytes s)) parts → Forall (.≠ ""%string) parts →
  Forall (λ s, "+"%char ∉ bytes s) parts →
  (joined (rev_labels parts) = key_of path ∨
    ∃ m, m < length (joined (rev_labels parts)) ∧ take m (joined (rev_labels parts)) ++ ["+"%char] `prefix_of` key_of path) ↔
  describes path parts.
Proof.
  intros Hpath Hne Hdot Hnil Hplus. set (d := joined (rev_labels parts)).
  destruct Hpath as [path Hp Hl Hn|path Hp Hl Hn].
  - rewrite describes_labels, key_of_labels by (done || by apply plain_dotless). split.
    + intros [He|(m & _ & [r Hr])].
      * symmetry. apply rev_labels_inj, joined_inj; rewrite ?rev_labels_nil; try done; apply rev_labels_dotless; [done|by apply plain_dotless].
      * destruct (sign_joined "+" path) as [H _]; [done|by apply plain_no_sign|]. destruct H. rewrite Hr, <- (assoc_L (++)).
        apply elem_of_app. right. left.
    + intros <-. by left.
  - rewrite describes_dot, key_of_dot by done. split.
    + intros [He|(m & Hm & Hpre)].
      * destruct (sign_joined "+" parts) as [H _]; [done|done|]. destruct H. fold d. rewrite He. apply elem_of_app. right. left.
      * apply snoc_prefix in Hpre; [|apply sign_joined; [done|by apply plain_no_sign]].
        assert (ended (rev_labels path) `prefix_of` d) as He by (rewrite <- Hpre; apply prefix_take).
        apply ended_prefix in He as (b & rest & Heq);
          [|by rewrite rev_labels_nil|apply rev_labels_dotless; by apply plain_dotless|by apply rev_labels_dotless].
        assert (take (length path) parts = path ∧ length path < length parts) as [Ht Hlt].
        { split.
          - apply rev_labels_inj. unfold rev_labels in *. rewrite <- firstn_map, Heq, take_app_le, take_ge; rewrite ?length_map; done || lia.
          - apply (f_equal length) in Heq. unfold rev_labels in Heq. rewrite length_app, !length_map in Heq. simpl in Heq. lia. }
        destruct (lookup_lt_is_Some_2 parts (length path) Hlt) as [s Hs]. exists s, (drop (S (length path)) parts).
        rewrite <- Ht at 1. symmetry. rewrite Ht at 1. rewrite <- Ht at 1. by apply take_drop_middle.
    + intros (b & rest & ->). right. unfold d, rev_labels. rewrite map_app. simpl map. rewrite joined_app.
      exists (length (ended (map (λ s, reverse (bytes s)) path))). rewrite take_app_length. split; [|done].
      rewrite length_app. enough (0 < length (joined (reverse (bytes b) :: map (λ s, reverse (bytes s)) rest))) by lia.
      apply Forall_app in Hnil as [_ Hnil]. apply Forall_cons in Hnil as [Hb _].
      assert (0 < length (reverse (bytes b))); [rewrite length_reverse; destruct b; simpl; [done|lia]|].
      simpl. destruct (map _ rest); rewrite ?length_app; lia.
Qed.

Lemma key_le_order : Transitive (λ a b, key_le a b) ∧ Total (λ a b, key_le a b).
Proof. split; [intros a b c; apply key_le_trans|intros a b; apply key_le_total]. Qed.

Lemma total_length_perm k k' : k ≡ₚ k' → total_length k = total_length k'.
Proof. unfold total_length. induction 1; simpl; lia. Qed.

(** The bytes of all names in a trie. *)
Definition names_size {T} (t : Node T) : nat := total_length (map (λ x, Reverse x.1) (Foreach collect t [])).

(** The names of a trie filled with plain patterns: sorted, each once. *)
Lemma trie_keys {T} (ps : list (string * T)) :
  (∀ p x, (p, x) ∈ ps → plain_pattern p = true) →
  let keys := sort_keys (map (λ x, Reverse x.1) (Foreach collect (build ps) [])) in
  StronglySorted (λ a b, key_le a b) keys ∧ NoDup keys ∧ total_length keys = names_size (build ps) ∧
  (∀ path, is_Some (stored ps path) → plain_path path) ∧
  (∀ k, k ∈ keys ↔ ∃ path, is_Some (stored ps path) ∧ k = key_of path).
Proof.
  intros Hplain keys. destruct key_le_order as [Htr Htot].
  assert (keys ≡ₚ map (λ x, Reverse x.1) (Foreach collect (build ps) [])) as Hperm by apply merge_sort_Permutation.
  assert (∀ path, is_Some (stored ps path) → plain_path path) as Hstored.
  { intros path [x Hx]. apply stored_Some in Hx as (p & Hin & Hp). apply (plain_paths_of p); [by apply (Hplain p x)|done]. }
  destruct (Foreach_paths (build ps) (wf_build ps)) as (lp & Hlp & Hnd & Hin).
  assert (map (λ x, Reverse x.1) (Foreach collect (build ps) []) = key_of <$> lp.*1) as Hkeys.
  { rewrite Hlp. change (map ?f ?l) with (f <$> l). by rewrite <- !list_fmap_compose. }
  assert (∀ path, path ∈ lp.*1 ↔ is_Some (stored ps path)) as Hpaths.
  { intros path. rewrite list_elem_of_fmap. split.
    - intros ([p d] & -> & [_ Hl]%Hin). rewrite lookup_path_build in Hl. simpl. by rewrite Hl.
    - intros [d Hd]. exists (path, d). split; [done|]. apply Hin. rewrite lookup_path_build. split; [|done].
      intros ->. assert (plain_path []) as H by (apply Hstored; by eexists). inversion H as [? ?|? ? ? ? Hnil]; [done|]. by destruct path. }
  split_and!.
  - by apply StronglySorted_merge_sort.
  - rewrite Hperm, Hkeys. apply NoDup_fmap_2_strong; [|done]. intros p q Hp%Hpaths Hq%Hpaths. by apply key_of_inj; apply Hstored.
  - by apply total_length_perm.
  - done.
  - intros k. rewrite Hperm, Hkeys, list_elem_of_fmap. setoid_rewrite Hpaths. naive_solver.
Qed.

Lemma domain_set_agrees `{BitmapLaws} {T} (ps : list (string * T)) domain p0 rest fuel :
  (∀ p x, (p, x) ∈ ps → plain_pattern p = true) →
  ValidAndSplitDomain domain = Some (p0 :: rest) → p0 ≠ ""%string →
  Forall (clt "+"%char) (bytes (ToLower domain)) →
  (Z.of_nat (2 * S (names_size (build ps))) < 2 ^ 31)%Z → 2 * S (names_size (build ps)) < fuel →
  ∃ o b, NewDomainSet (build ps) = Some o ∧ Has fuel o domain = Found b ∧
    (b = true ↔ is_Some (Search domain (build ps))).
Proof.
  intros Hplain Hv Hp0 Hchars Hsmall Hfuel. destruct (trie_keys ps Hplain) as (Hsort & Hnd & Hsize & Hpath & Hkeys).
  unfold NewDomainSet. set (keys := sort_keys _) in *. setoid_rewrite (Search_stored ps domain p0 rest Hv Hp0).
  destruct (Valid_parts domain p0 rest Hv) as (Hsplit & Hrest & _ & Hdot).
  set (parts := reverse (p0 :: rest)).
  assert (map lower_ascii (Reverse domain) = joined (rev_labels parts)) as Hd.
  { unfold parts. rewrite <- Reverse_Join, Hsplit. unfold joinDomain. rewrite Join_Split. unfold Reverse, ToLower. rewrite bytes_string_map.
    change (map ?f ?l) with (f <$> l). by rewrite fmap_reverse. }
  assert (Forall (clt "+"%char) (joined (rev_labels parts))) as Hchars'.
  { rewrite <- Hd. unfold Reverse, ToLower in *. rewrite bytes_string_map in Hchars. change (map ?f ?l) with (f <$> l) in *.
    rewrite fmap_reverse. by apply Forall_reverse. }
  assert (Forall (λ s, "+"%char ∉ bytes s) parts) as Hplus.
  { apply Forall_reverse. rewrite Hsplit. unfold Split. apply Forall_forall. intros s (l & -> & Hl)%list_elem_of_fmap Hin.
    rewrite bytes_of_bytes in Hin. rewrite Forall_forall in Hchars.
    assert (clt "+"%char "+"%char) as Hlt; [|unfold clt in Hlt; lia]. apply Hchars.
    rewrite <- (join_split_bytes domainStep (bytes (ToLower domain))). by apply (elem_of_join_bytes _ _ l). }
  assert (parts ≠ [] ∧ Forall (λ s, dotless (bytes s)) parts ∧ Forall (.≠ ""%string) parts) as (Hne & Hdot' & Hnil).
  { unfold parts. rewrite reverse_nil_iff. split_and!; [done|by apply Forall_reverse|apply Forall_reverse; by constructor]. }
  destruct (decide (keys = [])) as [Hempty|Hnonempty].
  - exists None, false. split_and!; [unfold set_of_keys; by rewrite bool_decide_true|done|]. split; [done|].
    intros (path & Hs & _). assert (key_of path ∈ keys) as Hk by (apply Hkeys; eauto). rewrite Hempty in Hk. by apply elem_of_nil in Hk.
  - destruct (Has_covered keys fuel domain Hsort Hnd Hnonempty) as (ss & b & -> & Hhas & Hb).
    { intros k (path & Hs & ->)%Hkeys. by apply key_of_no_star, Hpath. }
    { by rewrite Hd. } { by rewrite Hsize. } { by rewrite Hsize. }
    exists (Some ss), b. split_and!; [done|done|]. rewrite Hb, Hd. split.
    + intros [Hin|(m & k & Hm & Hk & Hpre)].
      * apply Hkeys in Hin as (path & Hs & Hk). exists path. split; [done|]. apply covered_path; auto.
      * apply Hkeys in Hk as (path & Hs & ->). exists path. split; [done|]. apply covered_path; auto. right. exists m. split; [lia|done].
    + intros (path & Hs & Hdesc). apply (covered_path path parts) in Hdesc; auto. destruct Hdesc as [He|(m & Hm & Hpre)].
      * left. apply Hkeys. eauto.
      * right. exists m, (key_of path). split_and!; [lia|done|apply Hkeys; eauto|done].
Qed.

(** C29: for patterns whose only sign is a [+] for a first label that others
    follow, and a domain all of whose characters come after [+] in ASCII, as those
    of host names do, the succinct set answers exactly as the trie it was made
    of finds the domain; neither building the set nor the query runs out of
    range.  The names have fewer than 2^30 bytes in all, so that the 32-bit
    indexes suffice. *)
Theorem domain_set_search `{BitmapLaws} {T} (ps : list (string * T)) domain p0 rest fuel :
  (∀ p x, (p, x) ∈ ps → plain_pattern p = true) →
  ValidAndSplitDomain domain = Some (p0 :: rest) → p0 ≠ ""%string →
  Forall (clt "+"%char) (bytes (ToLower domain)) →
  (Z.of_nat (2 * S (names_size (build ps))) < 2 ^ 31)%Z → 2 * S (names_size (build ps)) < fuel →
  ∃ o b, NewDomainSet (build ps) = Some o ∧ Has fuel o domain = Found b ∧
    (b = true ↔ is_Some (Search domain (build ps))).
Proof. apply domain_set_agrees. Qed.

(** A set that a file can hold. *)
Record savable `{Bitmap} (ss : DomainSet) : Prop := {
  sv_leaves : Forall word (leaves ss) ∧ 0 < length (leaves ss) ∧ (Z.of_nat (length (leaves ss)) < 2 ^ 63)%Z;
  sv_bitmap : Forall word (labelBitmap ss) ∧ 0 < length (labelBitmap ss) ∧ (Z.of_nat (length (labelBitmap ss)) < 2 ^ 63)%Z;
  sv_labels : 0 < length (labels ss) ∧ (Z.of_nat (length (labels ss)) < 2 ^ 63)%Z;
  sv_index : IndexSelect32R64 (labelBitmap ss) = (selects ss, ranks ss) }.

Lemma louds_savable `{Bitmap} keys ss W L k :
  louds keys ss W L → k ∈ keys → k ≠ [] → (Z.of_nat (2 * S (total_length keys)) < 2 ^ 31)%Z → savable ss.
Proof.
  intros Hss Hk Hne Hsmall. destruct (ld_words _ _ _ _ Hss) as (W1 & W2 & W3 & W4). pose proof (ld_small _ _ _ _ Hss) as Hlen.
  assert (W !! 0 = Some []) as Hw0 by (by rewrite (ld_nodes _ _ _ _ Hss)).
  destruct (lookup_lt_is_Some_2 L 0) as [l Hl]; [rewrite (ld_length _ _ _ _ Hss); by apply lookup_lt_Some in Hw0|].
  destruct (ld_leaf _ _ _ _ Hss 0 _ Hw0) as [Hleaf _]. destruct (ld_edges _ _ _ _ Hss 0 _ l Hw0 Hl) as [_ Hedges].
  destruct k as [|c r]; [done|]. assert (c ∈ l) as Hc by (apply Hedges; exists (c :: r); split; [done|by exists r]).
  pose proof (laid_length _ _ (ld_laid _ _ _ _ Hss)) as Hlaid. pose proof (length_shape L) as HsL.
  assert (0 < length (concat L)) as Hpos.
  { destruct L as [|l0 L']; [done|]. injection Hl as ->. simpl. rewrite length_app. destruct l; [by apply elem_of_nil in Hc|]. simpl. lia. }
  split; [split_and!; [done|lia|lia]|split_and!; [done|lia|lia]| |].
  - rewrite (ld_labels _ _ _ _ Hss). split; lia.
  - rewrite (ld_ranks _ _ _ _ Hss), (ld_selects _ _ _ _ Hss). by destruct (IndexSelect32R64 (labelBitmap ss)).
Qed.

Lemma key_of_nonempty path : plain_path path → key_of path ≠ [].
Proof.
  destruct 1 as [path Hne Hl Hn|path Hne Hl Hn].
  - rewrite key_of_labels by (done || by apply plain_dotless). destruct path as [|s path]; [done|].
    apply Forall_cons in Hn as [Hs _]. intros He. assert (reverse (bytes s) = []) as Hr.
    { simpl in He. destruct (rev_labels path); [done|]. apply app_nil in He. tauto. }
    rewrite reverse_nil_iff in Hr. by destruct s.
  - rewrite key_of_dot by done. by intros [_ Hp]%app_nil.
Qed.

(** A trie with a plain pattern gives a set that can be saved. *)
Lemma new_domain_set_savable `{Bitmap} {T} (ps : list (string * T)) path :
  (∀ p x, (p, x) ∈ ps → plain_pattern p = true) → is_Some (stored ps path) →
  (Z.of_nat (2 * S (names_size (build ps))) < 2 ^ 31)%Z →
  ∃ ss, NewDomainSet (build ps) = Some (Some ss) ∧ savable ss.
Proof.
  intros Hplain Hs Hsmall. destruct (trie_keys ps Hplain) as (Hsort & Hnd & Hsize & Hpath & Hkeys).
  unfold NewDomainSet. set (keys := sort_keys _) in *.
  assert (key_of path ∈ keys) as Hk by (apply Hkeys; eauto).
  destruct (set_of_keys_louds keys Hsort Hnd) as (ss & W & L & Hset & Hss); [intros He; rewrite He in Hk; by apply elem_of_nil in Hk|].
  exists ss. split; [done|]. apply (louds_savable keys ss W L (key_of path)); [done|done| |by rewrite Hsize].
  by apply key_of_nonempty, Hpath.
Qed.

(** *** The dump *)

Lemma StronglySorted_filter {A} (R : A → A → Prop) (P : A → Prop) `{∀ x, Decision (P x)} l :
  StronglySorted R l → StronglySorted R (filter P l).
Proof.
  induction 1 as [|x l _ IH Hx]; [constructor|]. destruct (decide (P x)).
  - rewrite filter_cons_True by done. constructor; [done|]. rewrite Forall_forall in Hx |- *.
    intros y [_ Hy]%list_elem_of_filter. by apply Hx.
  - by rewrite filter_cons_False.
Qed.

(** The keys below a node: its own, then those of its edges in order. *)
Definition below_edge (keys : list (list ascii)) (w : list ascii) (c : ascii) : list (list ascii) :=
  filter (λ k, w ++ [c] `prefix_of` k) keys.

Lemma keys_below keys w l :
  StronglySorted (λ a b, key_le a b) keys → NoDup keys → node_edges keys w l →
  filter (λ k, w `prefix_of` k) keys =
    (if bool_decide (w ∈ keys) then [w] else []) ++ concat (map (below_edge keys w) l).
Proof.
  intros Hs Hnd [Hl Hin]. unfold below_edge.
  assert (∀ k c, w ++ [c] `prefix_of` k → w `prefix_of` k) as Hpre.
  { intros k c [r ->]. exists ([c] ++ r). by rewrite (assoc_L (++)). }
  apply (StronglySorted_unique_strong (λ a b, key_le a b)).
  - intros a b _ _. apply key_le_antisym.
  - by apply StronglySorted_filter.
  - apply StronglySorted_app_2.
    + intros a b Ha (c & Hc & [[r ->] Hb]%list_elem_of_filter)%elem_of_concat_map. case_bool_decide; [|by apply elem_of_nil in Ha].
      apply list_elem_of_singleton in Ha as ->. rewrite <- (app_nil_r w) at 1. by rewrite <- (assoc_L (++)), key_le_app.
    + case_bool_decide; repeat constructor.
    + clear Hin. induction Hl as [|c l Hl IH Hc]; simpl; [constructor|]. apply StronglySorted_app_2; [|by apply StronglySorted_filter|done].
      intros a b [[r ->] _]%list_elem_of_filter (d & Hd & [[r' ->] _]%list_elem_of_filter)%elem_of_concat_map.
      rewrite <- !(assoc_L (++)), key_le_app. apply key_le_cons. left. rewrite Forall_forall in Hc. by apply Hc.
  - apply NoDup_Permutation.
    + by apply NoDup_filter.
    + apply NoDup_app. split_and!.
      * case_bool_decide; [apply NoDup_singleton|constructor].
      * intros k Hk (c & _ & [Hp _]%list_elem_of_filter)%elem_of_concat_map. case_bool_decide; [|by apply elem_of_nil in Hk].
        apply list_elem_of_singleton in Hk as ->. apply prefix_length in Hp. rewrite length_app in Hp. simpl in Hp. lia.
      * clear Hin. induction Hl as [|c l Hl IH Hc]; simpl; [constructor|]. apply NoDup_app. split_and!; [by apply NoDup_filter| |done].
        intros k [H1 _]%list_elem_of_filter (d & Hd & [H2 _]%list_elem_of_filter)%elem_of_concat_map.
        rewrite Forall_forall in Hc. specialize (Hc d Hd). rewrite (prefix_snoc_inj w c d k) in Hc by done. unfold clt in Hc. lia.
    + intros k. rewrite list_elem_of_filter, elem_of_app, elem_of_concat_map. setoid_rewrite list_elem_of_filter. split.
      * intros [[[|c r] ->] Hk]; [left; rewrite app_nil_r in *; rewrite bool_decide_true by done; by left|right].
        assert (w ++ [c] `prefix_of` w ++ c :: r) as Hp by (exists r; by rewrite <- (assoc_L (++))).
        exists c. split; [apply Hin; eauto|done].
      * intros [Hk|(c & _ & Hp & Hk)]; [|split; [by apply (Hpre k c)|done]]. case_bool_decide; [|by apply elem_of_nil in Hk].
        apply list_elem_of_singleton in Hk as ->. done.
Qed.

Section Dump.
Context `{BitmapLaws} (keys : list (list ascii)).
Context (Hsort : StronglySorted (λ a b, key_le a b) keys) (Hnd : NoDup keys).
Context (ss : DomainSet) (W L : list (list ascii)) (Hss : louds keys ss W L).
Context (Hsmall : (Z.of_nat (length (shape L)) < 2 ^ 31)%Z).

Context {B : Type} (g : list ascii → B).

(** The callback that records the keys and goes on. *)
Definition record_key (k : list ascii) (acc : list B) : list B * bool := (acc ++ [g k], true).

Lemma traverse_keys fuel n w l j (first : bool) acc :
  W !! n = Some w → L !! n = Some l → j ≤ length l → length (shape L) < fuel + (start L n + j) →
  traverse ss record_key fuel w (Z.of_nat n) (Z.of_nat (start L n + j)) first acc =
  Some (acc ++ map g ((if first && bool_decide (w ∈ keys) then [w] else []) ++ concat (map (below_edge keys w) (drop j l))), true).
Proof.
  revert n w l j first acc. induction fuel as [|fuel IH]; intros n w l j first acc Hw Hl Hj Hf.
  { pose proof (start_in _ _ (ld_laid _ _ _ _ Hss) n l j Hl Hj). lia. }
  simpl. set (acc' := acc ++ map g (if first && bool_decide (w ∈ keys) then [w] else [])).
  assert ((if first then l0 ← getBit (leaves ss) (Z.of_nat n);
      Some (if (l0 =? 0)%Z then (acc, true) else record_key w acc) else Some (acc, true)) = Some (acc', true)) as ->.
  { unfold acc'. destruct first; [|simpl; by rewrite app_nil_r].
    destruct (ld_leaf _ _ _ _ Hss n w Hw) as [Hr Hbit]. destruct (getBit_bit (leaves ss) n Hr) as (z & -> & Hz). simpl.
    rewrite Hz, Hbit. case_bool_decide; simpl; [done|by rewrite app_nil_r]. }
  simpl. rewrite map_app, (assoc_L (++)). fold acc'. destruct (decide (j = length l)) as [->|Hne].
  - destruct (walk_end keys ss W L Hss Hsmall n l Hl) as (x & -> & Hx). simpl. rewrite Hx. simpl. by rewrite drop_all, app_nil_r.
  - destruct (lookup_lt_is_Some_2 l j) as [x Hx]; [lia|].
    destruct (walk_edge keys ss W L Hss Hsmall n l j x Hl Hx) as [(y & -> & Hy) Hlab]. simpl. rewrite Hy. simpl. rewrite Hlab. simpl.
    destruct (walk_child keys ss W L Hss Hsmall n w l j x Hw Hl Hx) as (n' & l' & Hw' & Hl' & Hlater & -> & ->).
    pose proof (IH n' (w ++ [x]) l' 0 true acc' Hw' Hl') as IH1. rewrite Nat.add_0_r in IH1. change (drop 0 l') with l' in IH1. rewrite IH1 by lia. simpl.
    replace (Z.of_nat (start L n + j) + 1)%Z with (Z.of_nat (start L n + S j)) by lia.
    rewrite (IH n w l (S j) false) by (done || lia). simpl. rewrite (drop_S l x j Hx). simpl.
    rewrite <- (keys_below keys (w ++ [x]) l' Hsort Hnd) by (by apply (ld_edges _ _ _ _ Hss n')). by rewrite map_app, <- !(assoc_L (++)).
Qed.

End Dump.

(** [Foreach] of the set built from sorted names calls back with exactly
    these names, in order: nothing is lost in the bitmaps, whatever the names
    (stars and plus signs included). *)
Theorem domain_set_dump `{BitmapLaws} keys fuel :
  StronglySorted (λ a b, key_le a b) keys → NoDup keys → keys ≠ [] →
  (Z.of_nat (2 * S (total_length keys)) < 2 ^ 31)%Z → 2 * S (total_length keys) < fuel →
  ∃ ss, set_of_keys keys = Some (Some ss) ∧
    set_Foreach fuel ss (λ k acc, (acc ++ [k], true)) [] = Some (map (λ k, of_bytes (reverse k)) keys).
Proof.
  intros Hs Hnd Hne Hsmall Hfuel. destruct (set_of_keys_louds keys Hs Hnd Hne) as (ss & W & L & Hset & Hss). exists ss. split; [done|].
  assert (W !! 0 = Some []) as Hw0 by (by rewrite (ld_nodes _ _ _ _ Hss)).
  destruct (lookup_lt_is_Some_2 L 0) as [l Hl]; [rewrite (ld_length _ _ _ _ Hss); by apply lookup_lt_Some in Hw0|].
  pose proof (ld_small _ _ _ _ Hss) as Hlen. unfold set_Foreach.
  pose proof (traverse_keys keys Hs Hnd ss W L Hss ltac:(lia) (λ k, of_bytes (reverse k)) fuel 0 [] l 0 true [] Hw0 Hl ltac:(lia) ltac:(lia)) as Ht.
  unfold record_key in Ht. rewrite Nat.add_0_r in Ht. change (Z.of_nat (start L 0)) with 0%Z in Ht. change (Z.of_nat 0) with 0%Z in Ht.
  change (drop 0 l) with l in Ht. rewrite Ht. cbn [andb app]. rewrite <- (keys_below keys [] l Hs Hnd) by (by apply (ld_edges _ _ _ _ Hss 0)).
  cbn. do 2 f_equal. apply filter_all, Forall_forall. intros k _. apply prefix_nil.
Qed.

(** ** Concrete runs *)

Lemma ones_mono bm i j : i ≤ j → ones bm i ≤ ones bm j.
Proof. induction 1 as [|j _ IH]; [done|]. simpl. lia. Qed.

Lemma nth_one_spec bm fuel s n p :
  bit bm p = true → s ≤ p → p < s + fuel → ones bm p = ones bm s + n → nth_one bm fuel s n = p.
Proof.
  intros Hp. revert s n. induction fuel as [|fuel IH]; intros s n Hs Hf Ho; [lia|]. simpl.
  destruct (decide (s = p)) as [->|Hne].
  - rewrite Hp. destruct n; [done|lia].
  - pose proof (ones_mono bm (S s) p ltac:(lia)) as Hm. simpl in Hm.
    assert (ones bm (S s) = ones bm s + (if bit bm s then 1 else 0)) as HS by done.
    destruct (bit bm s) eqn:Hb; [destruct n; [lia|]|]; apply IH; simpl; rewrite ?Hb; lia.
Qed.

#[local] Instance counting_laws : @BitmapLaws counting_bitmap.
Proof.
  split.
  - intros bm i _ _. simpl. by rewrite Nat2Z.id.
  - intros bm p Hp _. simpl. rewrite Nat2Z.id. f_equal. apply nth_one_spec; [done|lia| |done].
    unfold bit in Hp. destruct (bm !! (p / 64)) as [w|] eqn:Hw; [|done]. apply lookup_lt_Some in Hw.
    pose proof (Nat.div_mod_eq p 64). pose proof (Nat.mod_upper_bound p 64). lia.
Qed.

Definition sample_set : list (string * ()) := (λ p, (p, ())) <$> ["baidu.com"; "+.google.com"; ".qq.com"]%string.

Lemma domain_set_search_witness :
  Search "x.Google.com" (build sample_set) ≠ None ∧
  ∃ o b, @NewDomainSet counting_bitmap _ (build sample_set) = Some o ∧ @Has counting_bitmap 200 o "x.Google.com" = Found b ∧
    (b = true ↔ is_Some (Search "x.Google.com" (build sample_set))).
Proof.
  split; [vm_compute; discriminate|].
  apply (@domain_set_search counting_bitmap counting_laws () sample_set "x.Google.com"%string "x"%string ["google"; "com"]%string 200).
  - assert (Forall (λ e, plain_pattern e.1 = true) sample_set) as H by (repeat (constructor; [vm_compute; reflexivity|]); constructor).
    rewrite Forall_forall in H. intros p x Hin. exact (H (p, x) Hin).
  - vm_compute. reflexivity.
  - discriminate.
  - vm_compute. repeat constructor.
  - vm_compute. reflexivity.
  - vm_compute. lia.
Defined.

(** With a [*] the set and its trie disagree both ways.  For [*.a.c] and
    [*.c] the walk for [a.c] ends below the first pattern and does not go back
    to the second.  For [ab.bb], [*.a] and [*.a.bb] the search for the dot after
    the [*] of [*.a] runs on over the labels of later nodes, and [a.ba.a] is
    accepted. *)
Theorem domain_set_star_disagrees :
  (has_demo ["*.a.c"; "*.c"]%string "a.c" = Some (Found false) ∧
   is_Some (Search "a.c" (build [("*.a.c"%string, 0); ("*.c"%string, 1)]))) ∧
  (has_demo ["ab.bb"; "*.a"; "*.a.bb"]%string "a.ba.a" = Some (Found true) ∧
   Search "a.ba.a" (build [("ab.bb"%string, 0); ("*.a"%string, 1); ("*.a.bb"%string, 2)]) = None).
Proof. split; (split; [vm_compute; reflexivity|]); [|vm_compute; reflexivity]. vm_compute. by eexists. Qed.

(** A character before [+] in a label: of [+.c] and [a!.c] the walk for [y!.c] takes
    the edge of the second pattern and does not come back for the first.  And
    the pattern [+] alone is an empty name in the set. *)
Theorem domain_set_plus_disagrees :
  (has_demo ["+.c"; "a!.c"]%string "y!.c" = Some (Found false) ∧
   is_Some (Search "y!.c" (build [("+.c"%string, 0); ("a!.c"%string, 1)]))) ∧
  (has_demo ["+"]%string "y.c" = Some (Found false) ∧ is_Some (Search "y.c" (build [("+"%string, 0)]))).
Proof. split; (split; [vm_compute; reflexivity|vm_compute; by eexists]). Qed.

Lemma domain_set_dump_witness :
  ∃ ss, @set_of_keys counting_bitmap [bytes "a"; bytes "ab.+"; bytes "b"] = Some (Some ss) ∧
    @set_Foreach counting_bitmap _ 50 ss (λ k acc, (acc ++ [k], true)) [] =
      Some (map (λ k, of_bytes (reverse k)) [bytes "a"; bytes "ab.+"; bytes "b"]).
Proof.
  apply (@domain_set_dump counting_bitmap counting_laws); [| |discriminate|vm_compute; reflexivity|vm_compute; lia].
  - repeat constructor.
  - apply (bool_decide_unpack _). vm_compute. exact I.
Defined.
