(* ===== verification/Wire.v ===== *)
(** * Bytes on the wire

    What the binary formats share: bytes as numbers from 0 to 255, big-endian
    integers ([encoding/binary]), and readers.  A reader takes the bytes that
    are left and gives a value with the rest, or an error; the laws that the
    formats are proved from say that reading what was written gives it back
    ([Codec]) and that a reader that succeeds would not have looked at more
    bytes ([steady]), so a file cut short is always an error. *)

From Stdlib Require Import ZArith Lia Ascii String.
From stdpp Require Import prelude list strings pretty.
From S2P Require Import Prelude Netip.

(** ** Big-endian integers *)

Definition from_be (l : list Z) : Z := foldl (λ a b, a * 256 + b)%Z 0%Z l.

(** [netip.AddrFromSlice], the zero address when the length is wrong. *)
Definition AddrFromSlice (l : list Z) : Addr :=
  if (length l =? 4)%nat then Addr4 (from_be l) else if (length l =? 16)%nat then Addr6 (from_be l) "" else NoAddr.

Definition is_byte (b : Z) : Prop := (0 ≤ b < 256)%Z.

Definition byte_of (c : ascii) : Z := Z.of_N (N_of_ascii c).

Definition char_of (b : Z) : ascii := ascii_of_N (Z.to_N b).

Lemma char_of_byte_of c : char_of (byte_of c) = c.
Proof. unfold char_of, byte_of. rewrite N2Z.id. apply ascii_N_embedding. Qed.

Lemma byte_of_range c : is_byte (byte_of c).
Proof. unfold is_byte, byte_of. pose proof (N_ascii_bounded c). lia. Qed.

Lemma map_char_of l : map char_of (map byte_of l) = l.
Proof. rewrite map_map. rewrite <- (map_id l) at 2. apply map_ext. apply char_of_byte_of. Qed.

Lemma from_be_app a b : from_be (a ++ b) = (from_be a * 256 ^ Z.of_nat (length b) + from_be b)%Z.
Proof.
  unfold from_be. rewrite foldl_app. generalize (foldl (λ x y, x * 256 + y)%Z 0%Z a). clear.
  induction b as [|x b IH] using rev_ind; intros z; simpl; [lia|].
  rewrite !foldl_app, length_app. simpl. rewrite IH.
  replace (Z.of_nat (length b + 1)) with (Z.of_nat (length b) + 1)%Z by lia. rewrite Z.pow_add_r by lia. lia.
Qed.

Lemma be_bytes_app n v : be_bytes (S n) v = be_bytes 1 (v / 2 ^ (8 * Z.of_nat n)) ++ be_bytes n v.
Proof. simpl. by rewrite Z.div_1_r. Qed.

Lemma from_be_bytes n v : (0 ≤ v)%Z → from_be (be_bytes n v) = (v `mod` 256 ^ Z.of_nat n)%Z.
Proof.
  intros Hv. induction n as [|n IH]; [simpl; by rewrite Z.mod_1_r|].
  rewrite be_bytes_app, from_be_app, IH, be_bytes_length. simpl. unfold from_be. simpl. rewrite Z.div_1_r.
  replace (2 ^ (8 * Z.of_nat n))%Z with (256 ^ Z.of_nat n)%Z by (rewrite Z.pow_mul_r by lia; done).
  replace (Z.of_nat (S n)) with (Z.of_nat n + 1)%Z by lia. rewrite Z.pow_add_r by lia.
  change (256 ^ 1)%Z with 256%Z. rewrite Z.rem_mul_r; [lia| |lia]. apply Z.pow_nonzero; lia.
Qed.

Lemma from_be_id n v : (0 ≤ v < 256 ^ Z.of_nat n)%Z → from_be (be_bytes n v) = v.
Proof. intros Hv. rewrite from_be_bytes by lia. by apply Z.mod_small. Qed.

Lemma be_bytes_from n l v : l = be_bytes n v → (0 ≤ v < 256 ^ Z.of_nat n)%Z → length l = n ∧ from_be l = v.
Proof. intros -> Hv. split; [apply be_bytes_length|by apply from_be_id]. Qed.

(** The bytes of an address say everything but its zone. *)
Lemma AddrFromSlice_WithoutZone a : addr_wf a → AddrFromSlice (AsSlice a) = WithoutZone a.
Proof.
  unfold addr_wf, AddrFromSlice. destruct a as [|v|v z]; cbn [AsSlice addr_val BitLen]; intros Hv; [done| |].
  - destruct (be_bytes_from 4 _ v eq_refl) as [-> ->]; [exact Hv|done].
  - destruct (be_bytes_from 16 _ v eq_refl) as [-> ->]; [exact Hv|done].
Qed.

Lemma AddrFromSlice_AsSlice a : addr_wf a → addr_zone a = ""%string → AddrFromSlice (AsSlice a) = a.
Proof. intros Hw Hz. rewrite AddrFromSlice_WithoutZone by done. destruct a; simpl in *; congruence. Qed.

Lemma be_bytes_range n v : Forall is_byte (be_bytes n v).
Proof. induction n as [|n IH]; simpl; constructor; [|done]. apply Z.mod_pos_bound. lia. Qed.

Lemma from_be_range l : Forall is_byte l → (0 ≤ from_be l < 256 ^ Z.of_nat (length l))%Z.
Proof.
  induction l as [|b l IH] using rev_ind; [done|]. intros [Hl Hb]%Forall_app. apply Forall_cons in Hb as [Hb _].
  rewrite from_be_app, length_app. simpl. specialize (IH Hl). change (from_be [b]) with b. simpl. unfold is_byte in Hb.
  replace (Z.of_nat (length l + 1)) with (Z.of_nat (length l) + 1)%Z by lia. rewrite Z.pow_add_r by lia. lia.
Qed.

(** ** IPv4 addresses as text

    What [v4_String] prints is read back; the text has no colon or percent sign in front of its first dot. *)

Definition octet_ok (b : Z) : bool :=
  bool_decide (v4_field (bytes (pretty b)) = Some b) && forallb (λ c, negb (bool_decide (c = "."%char ∨ c = ":"%char ∨ c = "%"%char))) (bytes (pretty b)).

Lemma octets_ok : forallb octet_ok (map Z.of_nat (seq 0 256)) = true.
Proof. vm_compute. reflexivity. Qed.

Lemma octet_text b : (0 ≤ b < 256)%Z → v4_field (bytes (pretty b)) = Some b ∧ Forall (λ c, c ≠ "."%char ∧ c ≠ ":"%char ∧ c ≠ "%"%char) (bytes (pretty b)).
Proof.
  intros Hb. pose proof octets_ok as Ho. rewrite forallb_forall in Ho. specialize (Ho b).
  destruct (andb_prop _ _ (Ho ltac:(rewrite <- (Z2Nat.id b) by lia; apply in_map, in_seq; lia))) as [Hf Hc].
  split; [by apply bool_decide_eq_true in Hf|]. rewrite forallb_forall in Hc. apply Forall_forall. intros c Hin.
  apply list_elem_of_In in Hin. specialize (Hc c Hin). apply negb_true_iff, bool_decide_eq_false in Hc. tauto.
Qed.

Lemma v4_text v : (0 ≤ v < 2 ^ 32)%Z → parse_v4 (bytes (v4_String v)) = Some v ∧
  ∃ a b, bytes (v4_String v) = a ++ "."%char :: b ∧ Forall (λ c, c ≠ "."%char ∧ c ≠ ":"%char ∧ c ≠ "%"%char) a ∧ ":"%char ∉ b.
Proof.
  intros Hv.
  assert (bytes (v4_String v) = join_bytes ["."%char] (map (λ b : Z, bytes (pretty b)) (be_bytes 4 v))) as Hb.
  { unfold v4_String. cbn [be_bytes map String.concat join_bytes]. by rewrite !bytes_app. }
  pose proof (be_bytes_range 4 v) as Hr. pose proof (from_be_id 4 v Hv) as Hid. rewrite Hb. cbn [be_bytes map] in *.
  set (b3 := ((v / _) mod 256)%Z) in *. set (b2 := ((v / 2 ^ (8 * Z.of_nat 2)) mod 256)%Z) in *.
  set (b1 := ((v / 2 ^ (8 * Z.of_nat 1)) mod 256)%Z) in *. set (b0 := ((v / 2 ^ (8 * Z.of_nat 0)) mod 256)%Z) in *.
  rewrite !Forall_cons in Hr. destruct Hr as (H3 & H2 & H1 & H0 & _).
  destruct (octet_text _ H3) as [E3 F3], (octet_text _ H2) as [E2 F2], (octet_text _ H1) as [E1 F1], (octet_text _ H0) as [E0 F0].
  assert (∀ c l, Forall (λ c, c ≠ "."%char ∧ c ≠ ":"%char ∧ c ≠ "%"%char) l → c = "."%char ∨ c = ":"%char → c ∉ l) as Hno.
  { intros c l Hl Hc Hin. rewrite Forall_forall in Hl. destruct (Hl c Hin) as (? & ? & ?). by destruct Hc. }
  split.
  - unfold parse_v4. rewrite split_join_bytes; [|done|repeat constructor; (by apply Hno; [|left])].
    cbn [mapM]. rewrite E3, E2, E1, E0. simpl. f_equal. unfold from_be in Hid. simpl in Hid. lia.
  - exists (bytes (pretty b3)), (join_bytes ["."%char] [bytes (pretty b2); bytes (pretty b1); bytes (pretty b0)]).
    split; [done|]. split; [done|]. cbn [join_bytes app]. rewrite !elem_of_app, !elem_of_cons, !elem_of_app, !elem_of_cons.
    intros [?|[[=]|[?|[[=]|?]]]]; by eapply Hno; [| |eassumption]; [|right].
Qed.

Lemma ParseAddr_v4_String v : (0 ≤ v < 2 ^ 32)%Z → ParseAddr (v4_String v) = Some (Addr4 v).
Proof.
  intros Hv. destruct (v4_text v Hv) as [Hp (a & b & Hs & Ha & _)]. unfold ParseAddr.
  assert (∀ l, parse_addr_at (a ++ "."%char :: b) l = Addr4 <$> parse_v4 l) as Hat.
  { clear Hs. intros l. induction Ha as [|c a (Hd & Hc & Hz) _ IH]; [done|]. cbn [app parse_addr_at].
    by rewrite !bool_decide_false by done. }
  rewrite Hs at 1. by rewrite Hat, Hp.
Qed.

Lemma v4_field_range l b : v4_field l = Some b → (0 ≤ b < 256)%Z.
Proof.
  intros Hf. assert (∃ n, digits_val 0 l = Some n ∧ n = b ∧ (n ≤ 255)%Z) as (n & Hd & <- & Hn).
  { assert (match digits_val 0 l with Some v => if (v <=? 255)%Z then Some v else None | None => None end = Some b ∨ False) as [Hm|[]].
    { left. destruct l as [|c l]; [done|]. unfold v4_field in Hf. destruct (digits_val 0 (c :: l)) as [v|];
        destruct c as [[] [] [] [] [] [] [] []]; try done; by destruct l. }
    destruct (digits_val 0 l) as [v|]; [|done]. destruct (Z.leb_spec v 255); [|done]. injection Hm as <-. eauto. }
  pose proof (digits_val_nonneg 0 l n ltac:(lia) Hd). lia.
Qed.

Lemma parse_v4_range l v : parse_v4 l = Some v → (0 ≤ v < 2 ^ 32)%Z.
Proof.
  unfold parse_v4. destruct (mapM v4_field (split_bytes "." l)) as [bs|] eqn:Hm; [|done].
  apply mapM_Some, Forall2_Forall_r with (Q := λ b, (0 ≤ b < 256)%Z) in Hm.
  - destruct bs as [|a [|b [|c [|d [|]]]]]; try done. intros [= <-]. rewrite !Forall_cons in Hm.
    change (2 ^ 32)%Z with 4294967296%Z. lia.
  - apply Forall_forall. intros x _ y. apply v4_field_range.
Qed.

Lemma parse_v6_not_v4 l v : parse_v6 l ≠ Some (Addr4 v).
Proof.
  unfold parse_v6. destruct (match cut _ _ with Some _ => _ | None => _ end) as [s zone].
  case_bool_decide; [done|]. case_bool_decide; [done|].
  destruct (v6_groups _ _ _ _) as [r|]; simpl; [|done]. by destruct (expand_groups _ _).
Qed.

Lemma ParseAddr_v4_range s v : ParseAddr s = Some (Addr4 v) → (0 ≤ v < 2 ^ 32)%Z.
Proof.
  unfold ParseAddr. generalize (bytes s) at 2. generalize (bytes s). intros rest l.
  induction rest as [|c rest IH]; simpl; [done|].
  case_bool_decide; [|case_bool_decide; [by intros ?%parse_v6_not_v4|by case_bool_decide]].
  destruct (parse_v4 l) as [n|] eqn:Hp; simpl; [|done]. intros [= <-]. by eapply parse_v4_range.
Qed.

(** ** Readers *)

(** [Short]: the bytes ended; [GoPanic]: the reader panics instead of returning
    an error; the others are errors of the formats. *)
Inductive wire_error := Short | BadVersion | BadLength | BadMagic | BadBehavior | BadFormat | BadType | GoPanic.

Definition reader (A : Type) := list Z → wire_error + A * list Z.

Definition ret {A} (a : A) : reader A := λ l, inr (a, l).

Definition fail {A} (e : wire_error) : reader A := λ _, inl e.

Definition bind {A B} (r : reader A) (f : A → reader B) : reader B :=
  λ l, match r l with inl e => inl e | inr (a, l') => f a l' end.

Declare Scope wire_scope.
Delimit Scope wire_scope with wire.

Notation "x <- r ; k" := (bind r (λ x, k)) (at level 100, r at next level, right associativity) : wire_scope.

(** [io.ReadFull] of [n] bytes. *)
Definition read_full (n : nat) : reader (list Z) :=
  λ l, if length l <? n then inl Short else inr (take n l, drop n l).

(** [n] bytes as a big-endian number, by [ReadByte] or [binary.Read]. *)
Definition read_be (n : nat) : reader Z := bind (read_full n) (λ b, ret (from_be b)).

Definition read_u64 : reader Z := bind (read_full 8) (λ b, ret (from_be b)).

Definition read_i64 : reader Z := bind (read_full 8) (λ b, ret (@wrap int64 (from_be b))).

(** [n] items; [fuel] is the bytes that are left, and every item takes one. *)
Fixpoint read_many {A} (r : reader A) (fuel : nat) (n : Z) : reader (list A) :=
  λ l,
    if (n <=? 0)%Z then inr ([], l)
    else
      match fuel with
      | O => inl Short
      | S fuel' => bind r (λ a, bind (read_many r fuel' (n - 1)) (λ rest, ret (a :: rest))) l
      end.

Definition read_list {A} (r : reader A) (n : Z) : reader (list A) := λ l, read_many r (S (length l)) n l.

Definition write_i64 (n : Z) : list Z := be_bytes 8 (@wrap uint64 n).

Definition write_u64 (n : Z) : list Z := be_bytes 8 n.

#[global] Arguments write_i64 : simpl never.

#[global] Arguments write_u64 : simpl never.

#[global] Arguments read_full : simpl never.

(** ** Laws *)

(** More bytes behind do not change what a reader that succeeds has read. *)
Definition steady {A} (r : reader A) : Prop := ∀ l a l' q, r l = inr (a, l') → r (l ++ q) = inr (a, l' ++ q).

(** Reading what [w] writes for a good value gives it back. *)
Definition codec {A} (good : A → Prop) (w : A → list Z) (r : reader A) : Prop :=
  ∀ a q, good a → r (w a ++ q) = inr (a, q).

Lemma steady_ret {A} (a : A) : steady (ret a).
Proof. by intros l b l' q [= -> ->]. Qed.

Lemma steady_fail {A} e : steady (@fail A e).
Proof. done. Qed.

Lemma steady_bind {A B} (r : reader A) (f : A → reader B) : steady r → (∀ a, steady (f a)) → steady (bind r f).
Proof.
  intros Hr Hf l b l' q. unfold bind. destruct (r l) as [e|[a l1]] eqn:H1; [done|]. rewrite (Hr _ _ _ q H1). apply Hf.
Qed.

Lemma steady_read_full n : steady (read_full n).
Proof.
  intros l a l' q. unfold read_full. destruct (Nat.ltb_spec (length l) n); [done|]. intros [= <- <-].
  rewrite (proj2 (Nat.ltb_ge _ _)) by (rewrite length_app; lia). by rewrite take_app_le, drop_app_le.
Qed.

Lemma steady_u64 : steady read_u64.
Proof. apply steady_bind; [apply steady_read_full|intros; apply steady_ret]. Qed.

Lemma steady_i64 : steady read_i64.
Proof. apply steady_bind; [apply steady_read_full|intros; apply steady_ret]. Qed.

Lemma read_many_more {A} (r : reader A) fuel fuel' n l a l' q :
  steady r → fuel ≤ fuel' → read_many r fuel n l = inr (a, l') → read_many r fuel' n (l ++ q) = inr (a, l' ++ q).
Proof.
  intros Hr. revert fuel' n l a l'. induction fuel as [|fuel IH]; intros fuel' n l a l' Hf.
  - destruct fuel'; simpl; destruct (n <=? 0)%Z; try done; by intros [= <- <-].
  - destruct fuel' as [|fuel']; [lia|]. simpl. destruct (n <=? 0)%Z; [by intros [= <- <-]|].
    unfold bind. destruct (r l) as [e|[x l1]] eqn:H1; [done|]. rewrite (Hr _ _ _ q H1).
    destruct (read_many r fuel (n - 1) l1) as [e|[xs l2]] eqn:H2; [done|]. rewrite (IH fuel' _ _ _ _ ltac:(lia) H2).
    unfold ret. by intros [= <- <-].
Qed.

Lemma steady_read_list {A} (r : reader A) n : steady r → steady (read_list r n).
Proof.
  intros Hr l a l' q Hl. unfold read_list in *. apply (read_many_more r (S (length l))); [done|rewrite length_app; lia|done].
Qed.

Lemma steady_be n : steady (read_be n).
Proof. apply steady_bind; [apply steady_read_full|intros; apply steady_ret]. Qed.

Create HintDb steady.
#[export] Hint Resolve steady_ret steady_fail steady_bind steady_read_full steady_be steady_u64 steady_i64 steady_read_list : steady.

(** A written value that is cut short is an error. *)
Lemma steady_truncated {A} (good : A → Prop) w (r : reader A) a p q :
  steady r → codec good w r → good a → p ++ q = w a → q ≠ [] → ∃ e, r p = inl e.
Proof.
  intros Hr Hc Ha Hpq Hq. destruct (r p) as [e|[b l]] eqn:H; [by exists e|]. exfalso.
  apply (Hr _ _ _ q) in H. rewrite Hpq in H. specialize (Hc a [] Ha). rewrite app_nil_r, H in Hc.
  injection Hc as -> Hc. by destruct q, l.
Qed.

Lemma bind_codec {A B} good w (r : reader A) (f : A → reader B) a l :
  codec good w r → good a → bind r f (w a ++ l) = f a l.
Proof. intros Hc Ha. unfold bind. by rewrite Hc. Qed.

Lemma read_full_app n a l : length a = n → read_full n (a ++ l) = inr (a, l).
Proof.
  intros <-. unfold read_full. rewrite (proj2 (Nat.ltb_ge _ _)) by (rewrite length_app; lia).
  by rewrite take_app_length, drop_app_length.
Qed.

Lemma read_be_app n v q : (0 ≤ v < 256 ^ Z.of_nat n)%Z → read_be n (be_bytes n v ++ q) = inr (v, q).
Proof. intros Hv. unfold read_be, bind. rewrite read_full_app by apply be_bytes_length. by rewrite from_be_id. Qed.

Lemma u64_codec : codec (λ n, 0 ≤ n < 2 ^ 64)%Z write_u64 read_u64.
Proof.
  intros n q Hn. unfold read_u64, bind, write_u64. rewrite read_full_app by apply be_bytes_length.
  rewrite from_be_id by (simpl; lia). done.
Qed.

Lemma i64_codec : codec (λ n, 0 ≤ n < 2 ^ 63)%Z write_i64 read_i64.
Proof.
  intros n q Hn. unfold read_i64, bind, write_i64. rewrite read_full_app by apply be_bytes_length.
  rewrite (@wrap_id uint64) by (int_lia). rewrite from_be_id by (simpl; lia). rewrite (@wrap_id int64) by (int_lia). done.
Qed.

Lemma list_codec {A} (good : A → Prop) (w : A → list Z) (r : reader A) l q :
  codec good w r → (∀ a, good a → w a ≠ []) → Forall good l →
  read_list r (Z.of_nat (length l)) (concat (map w l) ++ q) = inr (l, q).
Proof.
  intros Hc Hne Hl. unfold read_list.
  assert (length l ≤ S (length (concat (map w l) ++ q))) as Hf.
  { assert (length l ≤ length (concat (map w l))); [|rewrite length_app; lia].
    induction Hl as [|a l Ha _ IH]; simpl; [lia|]. rewrite length_app. specialize (Hne a Ha). destruct (w a); [done|simpl; lia]. }
  revert Hf. generalize (S (length (concat (map w l) ++ q))). induction Hl as [|a l Ha _ IH]; intros fuel Hf; simpl in *.
  - by destruct fuel.
  - destruct fuel as [|fuel]; [lia|]. simpl. rewrite <- (assoc_L (++)). unfold bind. rewrite Hc by done.
    replace (Z.of_nat (S (length l)) - 1)%Z with (Z.of_nat (length l)) by lia.
    destruct (Z.leb_spec (Z.of_nat (S (length l))) 0); [lia|]. rewrite IH by lia. done.
Qed.
