(* ===== verification/Mrs.v ===== *)
(** * Rule sets of domains and addresses, and their files: [rules/provider]

    The strategies behind a rule set of domains or of address ranges, the text
    format they are filled from, and the MRS file: the bytes of the sets
    ([domain_set_bin.go], [ipcidr_set_bin.go]), the header and the conversion
    ([mrs_converter.go], [mrs_reader.go]).  Compression (zstd) and the set of
    addresses (netipx) are third-party code, the classes [Zstd] and [IPSetLib].
    A writer's own failures are not modelled; reading is from a buffer.  A nil
    dereference is [None]. *)

From Stdlib Require Import ZArith Lia Ascii String.
From stdpp Require Import prelude list strings sorting.
From S2P Require Import Prelude Netip Wildcard DomainTrie DomainSet Wire.

Local Open Scope go_scope.

Class Zstd := { compress : list Z → list Z; decompress : list Z → option (list Z) }.

Class ZstdLaws `{Zstd} : Prop := { decompress_compress l : decompress (compress l) = Some l }.

Class IPSetLib := {
  RangeOfPrefix : Prefix → Addr * Addr;
  range_valid : Addr * Addr → bool;
  MergeRanges : list (Addr * Addr) → option (list (Addr * Addr));
  ContainsAddr : list (Addr * Addr) → Addr → bool;
  RangePrefixes : Addr * Addr → list string }.

Section Mrs.
Context `{Bitmap, IPSetLib, Zstd}.

(** ** The bytes of a domain set *)

Definition write_bytes (l : list ascii) : list Z := map byte_of l.

Definition WriteBin (ss : DomainSet) : list Z :=
  [1%Z] ++
  write_i64 (Z.of_nat (length (leaves ss))) ++ concat (map write_u64 (leaves ss)) ++
  write_i64 (Z.of_nat (length (labelBitmap ss))) ++ concat (map write_u64 (labelBitmap ss)) ++
  write_i64 (Z.of_nat (length (labels ss))) ++ write_bytes (labels ss).

Definition read_version : reader () :=
  bind (read_full 1) (λ v, if bool_decide (v = [1%Z]) then ret () else fail BadVersion).

(** A length, which has to be positive. *)
Definition read_length : reader Z := bind read_i64 (λ n, if (n <? 1)%Z then fail BadLength else ret n).

Definition ReadDomainSetBin : reader DomainSet :=
  (_ <- read_version;
   n <- read_length; ls <- read_list read_u64 n;
   m <- read_length; bm <- read_list read_u64 m;
   k <- read_length; lb <- read_list (bind (read_full 1) (λ b, ret (char_of (from_be b)))) k;
   let '(sel, rnk) := IndexSelect32R64 bm in ret (mkSet ls bm lb rnk sel))%wire.

(** ** The bytes of an address set *)

Definition As16 (a : Addr) : list Z :=
  be_bytes 16 (match a with NoAddr => 0 | Addr4 v => 65535 * 2 ^ 32 + v | Addr6 v _ => v end)%Z.

Definition AddrFrom16 (b : list Z) : Addr := Addr6 (from_be b) "".

Definition write_range (r : Addr * Addr) : list Z := As16 r.1 ++ As16 r.2.

Definition cidr_WriteBin (rr : list (Addr * Addr)) : list Z :=
  [1%Z] ++ write_i64 (Z.of_nat (length rr)) ++ concat (map write_range rr).

Definition read_range : reader (Addr * Addr) :=
  (a <- read_full 16; b <- read_full 16; ret (Unmap (AddrFrom16 a), Unmap (AddrFrom16 b)))%wire.

Definition ReadIpCidrSet : reader (list (Addr * Addr)) :=
  (_ <- read_version; n <- read_length; read_list read_range n)%wire.

(** ** The strategies *)

Inductive RuleBehavior := BDomain | BIPCIDR | BClassical.

Definition behavior_Byte (b : RuleBehavior) : Z := match b with BDomain => 0 | BIPCIDR => 1 | BClassical => 2 end.

Record domainStrategy := mkDomain { d_count : Z; d_trie : option (Node ()); d_set : option DomainSet }.

Definition d_Reset (d : domainStrategy) : domainStrategy := mkDomain 0 (Some newNode) None.

Definition d_Insert (d : domainStrategy) (rule : string) : option domainStrategy :=
  if Contains rule "/" then Some d
  else
    t ← d_trie d;
    Some (match Insert rule () t with
          | None => d
          | Some t' => mkDomain (d_count d + 1) (Some t') (d_set d)
          end).

Definition d_FinishInsert (d : domainStrategy) : option domainStrategy :=
  t ← d_trie d; set ← NewDomainSet t; Some (mkDomain (d_count d) None set).

(** [fuel] is for the walk of [Has]. *)
Definition d_Match (fuel : nat) (d : domainStrategy) (host : string) : has_result :=
  match d_set d with None => Found false | Some ss => Has fuel (Some ss) host end.

Definition d_FromMrs (count : Z) : reader domainStrategy :=
  (set <- ReadDomainSetBin; ret (mkDomain count None (Some set)))%wire.

(** The inner option is the error of a nil set. *)
Definition d_WriteMrs (d : domainStrategy) : option (list Z) := WriteBin <$> d_set d.

(** The keys handed to the callback, in order: not those that [Insert] added for
    a [+] pattern. *)
Definition d_DumpMrs (fuel : nat) (d : domainStrategy) : option (list string) :=
  match d_set d with
  | None => Some []
  | Some ss =>
    keys ← set_Foreach fuel ss (λ k acc, (acc ++ [k], true)) [];
    let keys := map of_bytes (sort_keys (map bytes keys)) in
    Some (filter (λ k, ("+." +:+ k)%string ∉ keys) keys)
  end.

Record ipcidrStrategy := mkIPCidr { i_count : Z; i_set : option (list (Addr * Addr)) }.

Definition i_Reset (i : ipcidrStrategy) : ipcidrStrategy := mkIPCidr 0 (Some []).

(** [AddIpCidrForString] and the count. *)
Definition i_Insert (i : ipcidrStrategy) (rule : string) : option ipcidrStrategy :=
  match ParsePrefix rule with
  | None => Some i
  | Some p =>
    let r := RangeOfPrefix p in
    if range_valid r then rr ← i_set i; Some (mkIPCidr (i_count i + 1) (Some (rr ++ [r]))) else Some i
  end.

(** [Merge]; its error is dropped, and the ranges stay as they were. *)
Definition i_FinishInsert (i : ipcidrStrategy) : option ipcidrStrategy :=
  rr ← i_set i; Some (mkIPCidr (i_count i) (Some (default rr (MergeRanges rr)))).

Definition i_Match (i : ipcidrStrategy) (ip : Addr) : bool :=
  match i_set i with None => false | Some rr => ContainsAddr rr (WithoutZone ip) end.

Definition i_FromMrs (count : Z) : reader ipcidrStrategy :=
  (rr <- ReadIpCidrSet; ret (mkIPCidr count (Some rr)))%wire.

Definition i_WriteMrs (i : ipcidrStrategy) : option (list Z) := cidr_WriteBin <$> i_set i.

Definition i_DumpMrs (i : ipcidrStrategy) : list string :=
  match i_set i with None => [] | Some rr => concat (map RangePrefixes rr) end.

(** The two strategies that have an MRS form. *)
Inductive strategy := SDomain (d : domainStrategy) | SIPCidr (i : ipcidrStrategy).

Definition s_Behavior (s : strategy) : RuleBehavior := match s with SDomain _ => BDomain | SIPCidr _ => BIPCIDR end.

Definition s_Count (s : strategy) : Z := match s with SDomain d => d_count d | SIPCidr i => i_count i end.

Definition s_Reset (s : strategy) : strategy :=
  match s with SDomain d => SDomain (d_Reset d) | SIPCidr i => SIPCidr (i_Reset i) end.

Definition s_Insert (s : strategy) (rule : string) : option strategy :=
  match s with SDomain d => SDomain <$> d_Insert d rule | SIPCidr i => SIPCidr <$> i_Insert i rule end.

Definition s_FinishInsert (s : strategy) : option strategy :=
  match s with SDomain d => SDomain <$> d_FinishInsert d | SIPCidr i => SIPCidr <$> i_FinishInsert i end.

Definition s_FromMrs (s : strategy) (count : Z) : reader strategy :=
  match s with
  | SDomain _ => bind (d_FromMrs count) (λ d, ret (SDomain d))
  | SIPCidr _ => bind (i_FromMrs count) (λ i, ret (SIPCidr i))
  end.

Definition s_WriteMrs (s : strategy) : option (list Z) :=
  match s with SDomain d => d_WriteMrs d | SIPCidr i => i_WriteMrs i end.

(** ** Filling a strategy *)

Definition insert_all (s : strategy) (rules : list string) : option strategy :=
  foldl (λ o r, s ← o; s_Insert s r) (Some s) rules.

(** [rulesParseInline] *)
Definition rulesParseInline (rs : list string) (s : strategy) : option strategy :=
  s' ← insert_all (s_Reset s) (filter (λ r, r ≠ ""%string) rs); s_FinishInsert s'.

(** The rule on a line of a text file, if it has one. *)
Definition text_rule (line : string) : option string :=
  let str := TrimSpace line in
  if bool_decide (str = ""%string) then None
  else if HasPrefix str "#" then None
  else if HasPrefix str "//" then None
  else Some str.

(** [rulesParse] of a text file: the lines end at the newlines. *)
Definition rulesParse_text (buf : string) (s : strategy) : option strategy :=
  s' ← insert_all (s_Reset s) (omap text_rule (Split buf "010"%char)); s_FinishInsert s'.

(** ** The file *)

(** [M], [R], [S], 1. *)
Definition MrsMagicBytes : list Z := [77; 82; 83; 1]%Z.

Definition read_header (s : strategy) : reader strategy :=
  (header <- read_full 4;
   if bool_decide (header = MrsMagicBytes) then
     behavior <- read_full 1;
     if bool_decide (behavior = [behavior_Byte (s_Behavior s)]) then
       count <- read_i64;
       len <- read_i64;
       if (len <? 0)%Z then fail BadLength
       else _ <- read_full (Z.to_nat len); s_FromMrs s count
     else fail BadBehavior
   else fail BadMagic)%wire.

Definition rulesMrsParse (buf : list Z) (s : strategy) : wire_error + strategy :=
  match decompress buf with
  | None => inl BadFormat
  | Some l => match read_header s l with inl e => inl e | inr (s', _) => inr s' end
  end.

Definition newStrategy (b : RuleBehavior) : option strategy :=
  match b with
  | BDomain => Some (SDomain (mkDomain 0 None None))
  | BIPCIDR => Some (SIPCidr (mkIPCidr 0 None))
  | BClassical => None
  end.

(** What [ConvertToMrs] writes for a strategy that is filled. *)
Definition mrs_file (s : strategy) : option (list Z) :=
  body ← s_WriteMrs s;
  Some (compress (MrsMagicBytes ++ [behavior_Byte (s_Behavior s)] ++ write_i64 (s_Count s) ++ write_i64 0 ++ [] ++ body)).

(** [ConvertToMrs] of a text file; [Some (inl _)] is the error of no rules. *)
Definition ConvertToMrs (buf : string) (s : strategy) : option (wire_error + list Z) :=
  s' ← rulesParse_text buf s;
  if (s_Count s' =? 0)%Z then Some (inl BadFormat)
  else out ← mrs_file s'; Some (inr out).

End Mrs.

#[global] Arguments WriteBin : simpl never.

#[global] Arguments cidr_WriteBin : simpl never.

#[global] Arguments As16 : simpl never.

#[global] Arguments mrs_file : simpl never.

(** ** Lemmas *)

Set Default Proof Using "Type*".

(** *** Reading back *)

Lemma byte_codec : codec (λ _ : ascii, True) (λ c, [byte_of c]) (bind (read_full 1) (λ b, ret (char_of (from_be b)))).
Proof.
  intros c q _. unfold bind. rewrite read_full_app by done. unfold ret. change (from_be [byte_of c]) with (byte_of c). by rewrite char_of_byte_of.
Qed.

Lemma write_bytes_concat l : write_bytes l = concat (map (λ c, [byte_of c]) l).
Proof. induction l as [|c l IH]; simpl; [done|]. by rewrite <- IH. Qed.

Lemma length_codec : codec (λ n, 1 ≤ n < 2 ^ 63)%Z write_i64 read_length.
Proof.
  intros n q Hn. unfold read_length, bind. rewrite i64_codec by lia. by rewrite (proj2 (Z.ltb_ge _ _)) by lia.
Qed.

Lemma version_codec q : read_version ([1%Z] ++ q) = inr ((), q).
Proof. unfold read_version, bind. by rewrite read_full_app. Qed.

Lemma steady_read_version : steady read_version.
Proof. apply steady_bind; [auto with steady|]. intros v. case_bool_decide; auto with steady. Qed.

Lemma steady_read_length : steady read_length.
Proof. apply steady_bind; [auto with steady|]. intros n. destruct (n <? 1)%Z; auto with steady. Qed.

#[local] Hint Resolve steady_read_version steady_read_length : steady.

Section Codecs.
Context `{Bitmap}.

Lemma steady_ReadDomainSetBin : steady ReadDomainSetBin.
Proof.
  unfold ReadDomainSetBin. repeat (apply steady_bind; [auto 10 with steady|intros]).
  destruct (IndexSelect32R64 _); auto with steady.
Qed.

Lemma words_codec l q : Forall word l → read_list read_u64 (Z.of_nat (length l)) (concat (map write_u64 l) ++ q) = inr (l, q).
Proof. apply (list_codec word); [exact u64_codec|]. by intros w _. Qed.

Lemma domain_set_codec : codec savable WriteBin ReadDomainSetBin.
Proof.
  intros ss q Hs. destruct (sv_leaves _ Hs) as (L1 & L2 & L3). destruct (sv_bitmap _ Hs) as (B1 & B2 & B3). destruct (sv_labels _ Hs) as (C1 & C2).
  unfold ReadDomainSetBin, WriteBin. rewrite <- !(assoc_L (++)).
  unfold bind at 1. rewrite version_codec. rewrite (bind_codec _ _ _ _ _ _ length_codec) by lia.
  unfold bind at 1. rewrite words_codec by done. rewrite (bind_codec _ _ _ _ _ _ length_codec) by lia.
  unfold bind at 1. rewrite words_codec by done. rewrite (bind_codec _ _ _ _ _ _ length_codec) by lia.
  unfold bind at 1. rewrite write_bytes_concat, (list_codec (λ _, True) _ _ _ _ byte_codec); [|done|by apply Forall_true].
  rewrite (sv_index _ Hs). by destruct ss.
Qed.

(** An address that reads back as itself: 4-in-6 addresses come back as IPv4. *)
Definition plain_addr (a : Addr) : Prop :=
  match a with
  | NoAddr => False
  | Addr4 v => (0 ≤ v < 2 ^ 32)%Z
  | Addr6 v z => (0 ≤ v < 2 ^ 128)%Z ∧ z = ""%string ∧ (v / 2 ^ 32)%Z ≠ 65535%Z
  end.

Lemma addr_codec a : plain_addr a → length (As16 a) = 16 ∧ Unmap (AddrFrom16 (As16 a)) = a.
Proof.
  intros Ha. split; [apply be_bytes_length|]. unfold As16, AddrFrom16. destruct a as [|v|v z]; [done| |].
  - simpl in Ha. rewrite from_be_id by (simpl; lia). unfold Unmap. rewrite Z.div_add_l, Z.div_small by lia.
    rewrite Z.add_0_r, Z.eqb_refl. f_equal. rewrite Z.add_comm, Z.mod_add by lia. by apply Z.mod_small.
  - destruct Ha as (Hv & -> & Hm). rewrite from_be_id by (simpl; lia). unfold Unmap. by rewrite (proj2 (Z.eqb_neq _ _)).
Qed.

Lemma range_codec : codec (λ r, plain_addr r.1 ∧ plain_addr r.2) write_range read_range.
Proof.
  intros [a b] q [Ha Hb]. cbn [fst snd] in *. destruct (addr_codec a Ha) as [La Ra]. destruct (addr_codec b Hb) as [Lb Rb].
  unfold read_range, write_range, bind. cbn [fst snd]. rewrite <- (assoc_L (++)), (read_full_app 16 (As16 a)), (read_full_app 16 (As16 b)) by assumption. unfold ret. by rewrite Ra, Rb.
Qed.

Lemma steady_ReadIpCidrSet : steady ReadIpCidrSet.
Proof.
  unfold ReadIpCidrSet. repeat (apply steady_bind; [auto 10 with steady|intros]). apply steady_read_list. unfold read_range. auto 10 with steady.
Qed.

Definition savable_ranges (rr : list (Addr * Addr)) : Prop :=
  Forall (λ r, plain_addr r.1 ∧ plain_addr r.2) rr ∧ 0 < length rr ∧ (Z.of_nat (length rr) < 2 ^ 63)%Z.

Lemma cidr_set_codec : codec savable_ranges cidr_WriteBin ReadIpCidrSet.
Proof.
  intros rr q (Hrr & Hl & Hs). unfold ReadIpCidrSet, cidr_WriteBin. rewrite <- !(assoc_L (++)).
  unfold bind at 1. rewrite version_codec. rewrite (bind_codec _ _ _ _ _ _ length_codec) by lia.
  apply (list_codec _ _ _ _ _ range_codec); [|done]. intros [a b] _ H0. apply (f_equal length) in H0. unfold write_range, As16 in H0. rewrite length_app, be_bytes_length in H0. discriminate.
Qed.

End Codecs.

(** *** Strategies and files *)

Section Files.
Context `{Bitmap, IPSetLib, ZstdLaws}.

Lemma header_codec s count body s' q :
  (0 ≤ count < 2 ^ 63)%Z → s_FromMrs s count (body ++ q) = inr (s', q) →
  read_header s ((MrsMagicBytes ++ [behavior_Byte (s_Behavior s)] ++ write_i64 count ++ write_i64 0 ++ [] ++ body) ++ q) = inr (s', q).
Proof.
  intros Hc Hb. unfold read_header. rewrite <- !(assoc_L (++)). unfold bind at 1. rewrite read_full_app by done.
  rewrite bool_decide_true by done. unfold bind at 1. rewrite read_full_app by done. rewrite bool_decide_true by done.
  rewrite (bind_codec _ _ _ _ _ _ i64_codec) by lia. rewrite (bind_codec _ _ _ _ _ _ i64_codec) by lia. simpl. exact Hb.
Qed.

(** The rules of a text file a domain strategy tries to insert. *)
Definition text_rules (buf : string) : list string :=
  filter (λ r, Contains r "/" = false) (omap text_rule (Split buf "010"%char)).

Definition accepted (r : string) : Prop := ∃ p0 rest, ValidAndSplitDomain r = Some (p0 :: rest).

Lemma Insert_accepted {T} r (x : T) t : is_Some (Insert r x t) ↔ accepted r.
Proof.
  unfold Insert, accepted. destruct (ValidAndSplitDomain r) as [[|p0 rest]|]; [|case_bool_decide|]; split; try done; try (by intros [? ?]);
    try (by intros (? & ? & ?)); intros _; eauto.
Qed.

Lemma insert_all_domain c t set rules :
  ∃ n, insert_all (SDomain (mkDomain c (Some t) set)) rules =
    Some (SDomain (mkDomain (c + Z.of_nat n)
      (Some (foldl (λ t p, default t (Insert p.1 p.2 t)) t ((λ r, (r, ())) <$> filter (λ r, Contains r "/" = false) rules))) set)) ∧
    n ≤ length rules ∧ ((∃ r, r ∈ filter (λ r, Contains r "/" = false) rules ∧ accepted r) → 0 < n).
Proof.
  revert c t. induction rules as [|r rules IH]; intros c t.
  - exists 0. simpl. rewrite Z.add_0_r. split_and!; [done|lia|by intros (r & ?%elem_of_nil & _)].
  - unfold insert_all in *. simpl. unfold d_Insert. destruct (Contains r "/") eqn:Hs; simpl.
    { destruct (IH c t) as (n & -> & Hn & Hpos). exists n. rewrite filter_cons_False by congruence. split_and!; [done|lia|done]. }
    rewrite filter_cons_True by done. simpl.
    assert (∀ n, (∃ r0, r0 ∈ r :: filter (λ r, Contains r "/" = false) rules ∧ accepted r0) →
      (accepted r → 0 < n) → ((∃ r0, r0 ∈ filter (λ r, Contains r "/" = false) rules ∧ accepted r0) → 0 < n) → 0 < n) as Hpos'.
    { intros n (r0 & [->|Hr0]%elem_of_cons & Ha) H1' H2'; [by apply H1'|apply H2'; eauto]. }
    pose proof (Insert_accepted r () t) as Hacc. destruct (Insert r () t) as [t'|]; simpl.
    + destruct (IH (c + 1)%Z t') as (n & -> & Hn & Hpos). exists (S n). split_and!; [do 3 f_equal; lia|lia|lia].
    + destruct (IH c t) as (n & -> & Hn & Hpos). exists n. split_and!; [done|lia|]. intros Hex. apply (Hpos' n Hex); [|done].
      intros Ha. apply Hacc in Ha as [? ?]. done.
Qed.

Lemma accepted_stored r rules : r ∈ rules → accepted r → ∃ path, is_Some (stored ((λ r, (r, ())) <$> rules) path).
Proof.
  intros Hr (p0 & rest & Hv). set (path := reverse (if bool_decide (p0 = complexWildcard) then dotWildcard :: rest else p0 :: rest)).
  exists path. apply (stored_is_Some _ path r ()).
  - apply list_elem_of_fmap. by exists r.
  - unfold paths_of, path. rewrite Hv. simpl. case_bool_decide; left.
Qed.

(** The trie of the rules of a file. *)
Definition rules_trie (rules : list string) : Node () := build ((λ r, (r, ())) <$> rules).

Lemma mrs_file_domain count t ss d1 :
  (0 ≤ count < 2 ^ 63)%Z → savable ss →
  ∃ out, mrs_file (SDomain (mkDomain count t (Some ss))) = Some out ∧
    rulesMrsParse out (SDomain d1) = inr (SDomain (mkDomain count None (Some ss))).
Proof.
  intros Hc Hs. eexists. split; [done|]. unfold rulesMrsParse. rewrite decompress_compress.
  assert (read_header (SDomain d1) ((MrsMagicBytes ++ [behavior_Byte BDomain] ++ write_i64 count ++ write_i64 0 ++ [] ++ WriteBin ss) ++ [])
    = inr (SDomain (mkDomain count None (Some ss)), [])) as Hh; [|rewrite app_nil_r in Hh; cbn [s_Behavior s_Count d_count]; by rewrite Hh].
  apply (header_codec (SDomain d1)); [done|].
  cbn [s_FromMrs]. unfold bind at 1, d_FromMrs. unfold bind at 1. by rewrite domain_set_codec.
Qed.

Ltac steps := cbn [mbind option_bind fmap option_fmap option_map s_FinishInsert s_Count d_count d_trie d_set].

(** What a text file of domains gives, and what its MRS form gives back. *)
Lemma convert_domain `{!@BitmapLaws H} buf d0 d1 :
  (∀ r, r ∈ text_rules buf → plain_pattern r = true) → (∃ r, r ∈ text_rules buf ∧ accepted r) →
  (Z.of_nat (2 * S (names_size (rules_trie (text_rules buf)))) < 2 ^ 31)%Z →
  (Z.of_nat (length (omap text_rule (Split buf "010"%char))) < 2 ^ 63)%Z →
  ∃ out n ss, ConvertToMrs buf (SDomain d0) = Some (inr out) ∧
    rulesMrsParse out (SDomain d1) = inr (SDomain (mkDomain (Z.of_nat n) None (Some ss))) ∧
    NewDomainSet (rules_trie (text_rules buf)) = Some (Some ss).
Proof.
  intros Hplain (r & Hr & Ha) Hsmall Hlines. destruct (accepted_stored r _ Hr Ha) as [path Hpath].
  destruct (new_domain_set_savable ((λ r, (r, ())) <$> text_rules buf) path) as (ss & Hset & Hsav); [|done|done|].
  { intros p x (r' & [= -> _] & Hin)%list_elem_of_fmap. by apply Hplain. }
  destruct (insert_all_domain 0 newNode None (omap text_rule (Split buf "010"%char))) as (n & Hins & Hn & Hpos).
  assert (0 < n) as Hn0 by (apply Hpos; by exists r).
  unfold ConvertToMrs, rulesParse_text. cbn [s_Reset]. unfold d_Reset. rewrite Hins. steps. unfold d_FinishInsert. steps.
  change (foldl _ _ _) with (rules_trie (text_rules buf)). unfold rules_trie. rewrite Hset. steps. rewrite Z.add_0_l.
  rewrite (proj2 (Z.eqb_neq _ _)) by lia.
  destruct (mrs_file_domain (Z.of_nat n) None ss d1) as (out & Hout & Hparse); [lia|done|].
  exists out, n, ss. split_and!; [|done|done]. by rewrite Hout.
Qed.

End Files.

(** ** Main results *)

(** A domain set and an address set read back from the bytes they are written
    to, whatever follows, and a file that is cut short anywhere is an error, never
    a smaller set. *)
Theorem set_files_codec `{Bitmap} ss rr q :
  savable ss → savable_ranges rr →
  (ReadDomainSetBin (WriteBin ss ++ q) = inr (ss, q) ∧
   ∀ p t, p ++ t = WriteBin ss → t ≠ [] → ∃ e, ReadDomainSetBin p = inl e) ∧
  (ReadIpCidrSet (cidr_WriteBin rr ++ q) = inr (rr, q) ∧
   ∀ p t, p ++ t = cidr_WriteBin rr → t ≠ [] → ∃ e, ReadIpCidrSet p = inl e).
Proof.
  intros Hs Hr. split; split.
  - by apply domain_set_codec.
  - intros p t. apply (steady_truncated savable WriteBin); [apply steady_ReadDomainSetBin|apply domain_set_codec|done].
  - by apply cidr_set_codec.
  - intros p t. apply (steady_truncated savable_ranges cidr_WriteBin); [apply steady_ReadIpCidrSet|apply cidr_set_codec|done].
Qed.

(** C30: a text file of domain patterns whose only sign is a [+] for a first label
    that others follow, with at least one that is accepted, converted to an MRS
    file and loaded again, is a rule set that matches a host, all of whose
    characters come after [+] in ASCII, exactly when one of the patterns in the
    file does.  The names have fewer than 2^30 bytes in all. *)
Theorem mrs_domain_roundtrip `{BitmapLaws, IPSetLib, ZstdLaws} buf d0 d1 :
  (∀ r, r ∈ text_rules buf → plain_pattern r = true) → (∃ r, r ∈ text_rules buf ∧ accepted r) →
  (Z.of_nat (2 * S (names_size (rules_trie (text_rules buf)))) < 2 ^ 31)%Z →
  (Z.of_nat (length (omap text_rule (Split buf "010"%char))) < 2 ^ 63)%Z →
  ∃ out d, ConvertToMrs buf (SDomain d0) = Some (inr out) ∧ rulesMrsParse out (SDomain d1) = inr (SDomain d) ∧
    ∀ host p0 rest fuel, ValidAndSplitDomain host = Some (p0 :: rest) → p0 ≠ ""%string →
      Forall (clt "+"%char) (bytes (ToLower host)) → 2 * S (names_size (rules_trie (text_rules buf))) < fuel →
      ∃ b, d_Match fuel d host = Found b ∧ (b = true ↔ ∃ r, r ∈ text_rules buf ∧ pattern_matches r host).
Proof.
  intros Hplain Hacc Hsmall Hlines. destruct (convert_domain buf d0 d1 Hplain Hacc Hsmall Hlines) as (out & n & ss & Hout & Hparse & Hset).
  exists out, (mkDomain (Z.of_nat n) None (Some ss)). split_and!; [done|done|].
  intros host p0 rest fuel Hv Hp0 Hchars Hfuel.
  destruct (domain_set_agrees ((λ r, (r, ())) <$> text_rules buf) host p0 rest fuel) as (o & b & Ho & Hb & Hiff); try done.
  { intros p x (r & [= -> _] & Hr)%list_elem_of_fmap. by apply Hplain. }
  unfold rules_trie in Hset. rewrite Hset in Ho. injection Ho as <-. exists b. split; [done|].
  rewrite Hiff, (Search_matches _ host p0 rest Hv Hp0). split.
  - intros (p & x & (r & [= -> _] & Hr)%list_elem_of_fmap & Hm). by exists r.
  - intros (r & Hr & Hm). exists r, (). split; [|done]. apply list_elem_of_fmap. by exists r.
Qed.

(** ** Concrete runs *)

#[local] Instance plain_zstd : Zstd := {| compress l := l; decompress := Some |}.

#[local] Instance plain_zstd_laws : ZstdLaws.
Proof. by split. Qed.

(** Address ranges of prefixes, unmerged. *)
#[local] Instance range_list : IPSetLib := {|
  RangeOfPrefix p := let a := MaskedAddr p in
    (a, match a with NoAddr => NoAddr | Addr4 v => Addr4 (v + 2 ^ (32 - pbits p) - 1) | Addr6 v z => Addr6 (v + 2 ^ (128 - pbits p) - 1) z end%Z);
  range_valid r := IsValid r.1;
  MergeRanges := Some;
  ContainsAddr rr a := existsb (λ r, negb (Less a r.1) && negb (Less r.2 a)) rr;
  RangePrefixes _ := [] |}.

Definition sample_file : string :=
  of_bytes (bytes "google.com" ++ ["010"%char] ++ bytes "  # ads" ++ ["010"%char] ++ bytes " +.qq.com" ++ ["010"%char] ++ bytes "http://x").

Example sample_rules : text_rules sample_file = ["google.com"; "+.qq.com"]%string.
Proof. vm_compute. reflexivity. Qed.

Lemma mrs_domain_roundtrip_witness :
  ∃ out d, @ConvertToMrs counting_bitmap _ _ sample_file (SDomain (mkDomain 0 None None)) = Some (inr out) ∧
    @rulesMrsParse counting_bitmap _ out (SDomain (mkDomain 0 None None)) = inr (SDomain d) ∧
    ∀ host p0 rest fuel, ValidAndSplitDomain host = Some (p0 :: rest) → p0 ≠ ""%string →
      Forall (clt "+"%char) (bytes (ToLower host)) → 2 * S (names_size (rules_trie (text_rules sample_file))) < fuel →
      ∃ b, @d_Match counting_bitmap fuel d host = Found b ∧ (b = true ↔ ∃ r, r ∈ text_rules sample_file ∧ pattern_matches r host).
Proof.
  apply (@mrs_domain_roundtrip counting_bitmap counting_laws range_list plain_zstd plain_zstd_laws).
  - rewrite sample_rules. intros r [->|[->|?%elem_of_nil]%elem_of_cons]%elem_of_cons; [vm_compute; reflexivity..|done].
  - exists "google.com"%string. rewrite sample_rules. split; [left|]. eexists _, _. vm_compute. reflexivity.
  - vm_compute. reflexivity.
  - vm_compute. reflexivity.
Defined.

Definition sample_saved : DomainSet := mkSet [8]%Z [106]%Z (bytes "moc") [] [].

Example sample_saved_built : @set_of_keys counting_bitmap [bytes "moc"] = Some (Some sample_saved).
Proof. vm_compute. reflexivity. Qed.

Lemma set_files_codec_witness :
  (@ReadDomainSetBin counting_bitmap (WriteBin sample_saved ++ [7]%Z) = inr (sample_saved, [7]%Z) ∧
   ∀ p t, p ++ t = WriteBin sample_saved → t ≠ [] → ∃ e, @ReadDomainSetBin counting_bitmap p = inl e) ∧
  (ReadIpCidrSet (cidr_WriteBin [(Addr4 1, Addr6 2 "")] ++ [7]%Z) = inr ([(Addr4 1, Addr6 2 "")], [7]%Z) ∧
   ∀ p t, p ++ t = cidr_WriteBin [(Addr4 1, Addr6 2 "")] → t ≠ [] → ∃ e, ReadIpCidrSet p = inl e).
Proof.
  apply (@set_files_codec counting_bitmap).
  - assert (∀ w, word w → Forall word [w]) as Hw by (intros w Hw; by constructor).
    split; simpl; [|  |split; lia|reflexivity]; (split; [apply Hw; split; lia|split; lia]).
  - split; [|simpl; split; lia]. apply Forall_cons. split; [|by apply Forall_nil].
    simpl. split; [lia|]. split; [lia|]. split; [reflexivity|]. intros H. vm_compute in H. discriminate.
Defined.

(** An address range of 4-in-6 addresses is a range of IPv4 addresses when it
    comes back. *)
Example mapped_range_changes :
  ReadIpCidrSet (cidr_WriteBin [(Addr6 (65535 * 2 ^ 32 + 16909056) "", Addr6 (65535 * 2 ^ 32 + 16909311) "")]%Z)
  = inr ([(Addr4 16909056, Addr4 16909311)]%Z, []).
Proof. vm_compute. reflexivity. Qed.

(** The pattern [+] alone gives a set without labels, which cannot be read back. *)
Example plus_alone_unreadable :
  match @NewDomainSet counting_bitmap _ (rules_trie ["+"%string]) with
  | Some (Some ss) => Some (@ReadDomainSetBin counting_bitmap (WriteBin ss))
  | _ => None
  end = Some (inl BadLength).
Proof. vm_compute. reflexivity. Qed.
