(* ===== verification/Sniffer.v ===== *)
(** * Sniffing the host of a connection: [component/sniffer]

    [SniffTLS] reads the server name from the first record of a TLS
    connection, [SniffHTTP] the Host header of a request.  Both index into bytes
    that come from the network, so an index or slice out of range is a panic of
    its own here and not an error.  Loops take fuel; the theorems show that no
    input panics or runs out. *)

From Stdlib Require Import ZArith Lia Ascii String.
From stdpp Require Import prelude list strings.
From S2P Require Import Prelude Netip Wire.

(** ** Results *)

Inductive sniff_error :=
  | ErrNoClue | errNotTLS | errNotClientHello
  | errNeedAtLeastData (length : Z)
  | errNotHTTPMethod | errHostIsIP | errBadHost.

Inductive res (A : Type) :=
  | Ok (a : A)
  | Err (e : sniff_error)
  | IndexOut
  | NoFuel.

Arguments Ok {A}.

Arguments Err {A}.

Arguments IndexOut {A}.

Arguments NoFuel {A}.

#[global] Instance res_ret : MRet res := @Ok.

#[global] Instance res_bind : MBind res := λ A B f r,
  match r with Ok a => f a | Err e => Err e | IndexOut => IndexOut | NoFuel => NoFuel end.

(** ** Slices of bytes *)

Definition len (l : list Z) : Z := Z.of_nat (length l).

(** [l[i]] *)
Definition byte_at (l : list Z) (i : Z) : res Z :=
  if (0 <=? i)%Z then match l !! Z.to_nat i with Some b => Ok b | None => IndexOut end else IndexOut.

(** [l[i:]] *)
Definition from_index (l : list Z) (i : Z) : res (list Z) :=
  if (0 <=? i)%Z && (i <=? len l)%Z then Ok (drop (Z.to_nat i) l) else IndexOut.

(** [l[:i]] *)
Definition up_to (l : list Z) (i : Z) : res (list Z) :=
  if (0 <=? i)%Z && (i <=? len l)%Z then Ok (take (Z.to_nat i) l) else IndexOut.

(** [int(l[i])<<8 | int(l[i+1])] *)
Definition uint16_at (l : list Z) (i : Z) : res Z :=
  a ← byte_at l i; b ← byte_at l (i + 1); Ok (Z.lor (Z.shiftl a 8) b).

Definition assert (b : bool) (e : sniff_error) : res () := if b then Ok () else Err e.

(** ** TLS *)

Definition IsValidTLSVersion (major minor : Z) : bool := (major =? 3)%Z.

(** The names in the server name extension; [None] when none is a host name. *)
Fixpoint server_names (fuel : nat) (d : list Z) : res (option string) :=
  match fuel with
  | O => NoFuel
  | S fuel' =>
    if (len d =? 0)%Z then Ok None
    else
      _ ← assert (negb (len d <? 3)%Z) errNotClientHello;
      nameType ← byte_at d 0;
      nameLen ← uint16_at d 1;
      d ← from_index d 3;
      _ ← assert (negb (len d <? nameLen)%Z) errNotClientHello;
      if (nameType =? 0)%Z then
        name ← up_to d nameLen;
        let serverName := of_bytes (map char_of name) in
        if HasSuffix serverName "." then Err errNotClientHello else Ok (Some serverName)
      else d ← from_index d nameLen; server_names fuel' d
  end.

(** The server name extension. *)
Definition server_name_ext (d : list Z) : res (option string) :=
  _ ← assert (negb (len d <? 2)%Z) errNotClientHello;
  namesLen ← uint16_at d 0;
  d ← from_index d 2;
  _ ← assert (len d =? namesLen)%Z errNotClientHello;
  server_names (S (length d)) d.

Fixpoint extensions (fuel : nat) (data : list Z) : res string :=
  match fuel with
  | O => NoFuel
  | S fuel' =>
    if (len data =? 0)%Z then Err errNotTLS
    else
      _ ← assert (negb (len data <? 4)%Z) errNotClientHello;
      extension ← uint16_at data 0;
      length ← uint16_at data 2;
      data ← from_index data 4;
      _ ← assert (negb (len data <? length)%Z) errNotClientHello;
      found ← (if (extension =? 0)%Z then d ← up_to data length; server_name_ext d else Ok None);
      match found with
      | Some serverName => Ok serverName
      | None => data ← from_index data length; extensions fuel' data
      end
  end.

Definition ReadClientHello (data : list Z) : res string :=
  _ ← assert (negb (len data <? 42)%Z) ErrNoClue;
  sessionIDLen ← byte_at data 38;
  _ ← assert (negb ((32 <? sessionIDLen)%Z || (len data <? 39 + sessionIDLen)%Z)) ErrNoClue;
  data ← from_index data (39 + sessionIDLen);
  _ ← assert (negb (len data <? 2)%Z) ErrNoClue;
  cipherSuiteLen ← uint16_at data 0;
  _ ← assert (negb ((Z.rem cipherSuiteLen 2 =? 1)%Z || (len data <? 2 + cipherSuiteLen)%Z)) errNotClientHello;
  data ← from_index data (2 + cipherSuiteLen);
  _ ← assert (negb (len data <? 1)%Z) ErrNoClue;
  compressionMethodsLen ← byte_at data 0;
  _ ← assert (negb (len data <? 1 + compressionMethodsLen)%Z) ErrNoClue;
  data ← from_index data (1 + compressionMethodsLen);
  _ ← assert (negb (len data =? 0)%Z) errNotClientHello;
  _ ← assert (negb (len data <? 2)%Z) errNotClientHello;
  extensionsLength ← uint16_at data 0;
  data ← from_index data 2;
  _ ← assert (extensionsLength =? len data)%Z errNotClientHello;
  extensions (S (length data)) data.

Definition SniffTLS (b : list Z) : res string :=
  _ ← assert (negb (len b <? 5)%Z) ErrNoClue;
  b0 ← byte_at b 0;
  _ ← assert (b0 =? 22)%Z errNotTLS;
  b1 ← byte_at b 1;
  b2 ← byte_at b 2;
  _ ← assert (IsValidTLSVersion b1 b2) errNotTLS;
  headerLen ← (h ← up_to b 5; h ← from_index h 3; Ok (from_be h));
  if (len b <? 5 + headerLen)%Z then Err (errNeedAtLeastData (5 + headerLen))
  else d ← up_to b (5 + headerLen); d ← from_index d 5; ReadClientHello d.

(** ** HTTP *)

Definition methods : list string := ["get"; "post"; "head"; "put"; "delete"; "options"; "connect"; "patch"; "trace"]%string.

Fixpoint begin_with (ms : list string) (b : list ascii) : option sniff_error :=
  match ms with
  | [] => Some errNotHTTPMethod
  | m :: ms' =>
    if (String.length m <=? length b) && EqualFold (of_bytes (take (String.length m) b)) m then None
    else if length b <? String.length m then Some ErrNoClue
    else begin_with ms' b
  end.

(** The error, or nil. *)
Definition beginWithHTTPMethod (b : list ascii) : option sniff_error := begin_with methods b.

(** [bytes.SplitN(header, ":", 2)] when it has two parts. *)
Fixpoint cut_at (sep : ascii) (l : list ascii) : option (list ascii * list ascii) :=
  match l with
  | [] => None
  | c :: l' =>
    if decide (c = sep) then Some ([], l') else p ← cut_at sep l'; Some (c :: p.1, p.2)
  end.

(** [net.ParseIP]: no zones. *)
Definition ParseIP (s : string) : bool :=
  match ParseAddr s with Some a => bool_decide (addr_zone a = ""%string) | None => false end.

(** [net.SplitHostPort] of the standard library: the host, or whether the error
    is a missing port. *)
Definition SplitHostPort (s : string) : bool + string :=
  let l := bytes s in
  match cut_at ":" (reverse l) with
  | None => inl true
  | Some (port, rest) =>
    let i := length rest in
    match l with
    | "["%char :: _ =>
      match cut_at "]" l with
      | None => inl false
      | Some (before, after) =>
        let e := length before in
        match after with
        | [] => inl true
        | c :: _ =>
          if decide (S e = i) then
            let host := drop 1 before in
            if bool_decide ("["%char ∈ host) || bool_decide ("["%char ∈ after) || bool_decide ("]"%char ∈ after) then inl false
            else inr (of_bytes host)
          else inl (negb (bool_decide (c = ":"%char)))
        end
      end
    | _ =>
      let host := take i l in
      if bool_decide (":"%char ∈ host) then inl false
      else if bool_decide ("["%char ∈ l) || bool_decide ("]"%char ∈ l) then inl false
      else inr (of_bytes host)
    end
  end.

Definition parseHost (host : string) : res string :=
  if HasPrefix host "[" && HasSuffix host "]" && ParseIP (of_bytes (drop 1 (take (String.length host - 1) (bytes host)))) then Err errHostIsIP
  else if ParseIP host then Err errHostIsIP
  else Ok host.

(** The host of a Host header's value. *)
Definition header_host (value : list ascii) : res string :=
  let rawHost := ToLower (TrimSpace (of_bytes value)) in
  match SplitHostPort rawHost with
  | inl true => parseHost rawHost
  | inl false => Err errBadHost
  | inr host => if ParseIP host then Err errHostIsIP else Ok host
  end.

Fixpoint http_headers (headers : list (list ascii)) : res string :=
  match headers with
  | [] => Err ErrNoClue
  | [] :: _ => Err ErrNoClue
  | header :: headers' =>
    match cut_at ":" header with
    | None => http_headers headers'
    | Some (key, value) =>
      if bool_decide (ToLower (of_bytes key) = "host"%string) then header_host value else http_headers headers'
    end
  end.

Definition SniffHTTP (b : list ascii) : res string :=
  match beginWithHTTPMethod b with
  | Some e => Err e
  | None => http_headers (tail (split_bytes "010" b))
  end.

(** ** Examples *)

Definition http_text (s : list string) : list ascii := concat (map (λ l, bytes l ++ ["013"; "010"]%char) s).

Example http_demo :
  SniffHTTP (http_text ["GET /a HTTP/1.1"; "Accept: x"; "Host: Example.com:8080"; ""]%string) = Ok "example.com"%string ∧
  SniffHTTP (http_text ["GET /a HTTP/1.1"; "Host: 1.2.3.4"; ""]%string) = Err errHostIsIP ∧
  SniffHTTP (http_text ["GET /a HTTP/1.1"; "host: [::1]:80"; ""]%string) = Err errHostIsIP ∧
  SniffHTTP (bytes "GE") = Err ErrNoClue ∧ SniffHTTP (bytes "SSH-2.0") = Err errNotHTTPMethod.
Proof. vm_compute. by split_and!. Qed.

(** The end of the headers is an empty line, and with CRLF the line is not empty:
    a Host line in the body counts. *)
Example http_body_host : SniffHTTP (http_text ["POST / HTTP/1.0"; ""; "Host: in.body"]%string) = Ok "in.body"%string.
Proof. vm_compute. reflexivity. Qed.

(** ** No input panics *)

(** Neither a panic nor a loop that ran out of fuel. *)
Definition safe {A} (r : res A) : Prop := match r with Ok _ | Err _ => True | IndexOut | NoFuel => False end.

Lemma safe_bind {A B} (r : res A) (f : A → res B) : safe r → (∀ a, r = Ok a → safe (f a)) → safe (r ≫= f).
Proof. destruct r; simpl; auto. Qed.

(** A guard in front of what needs it. *)
Lemma safe_assert {B} b e (f : () → res B) : (b = true → safe (f ())) → safe (assert b e ≫= f).
Proof. destruct b; simpl; auto. Qed.

Lemma byte_at_ok l i : Forall is_byte l → (0 ≤ i < len l)%Z → ∃ b, byte_at l i = Ok b ∧ is_byte b.
Proof.
  intros Hl Hi. unfold byte_at, len in *. rewrite (proj2 (Z.leb_le _ _)) by lia.
  destruct (lookup_lt_is_Some_2 l (Z.to_nat i) ltac:(lia)) as [b Hb]. rewrite Hb. exists b. split; [done|].
  by apply (Forall_lookup_1 _ _ _ _ Hl Hb).
Qed.

Lemma uint16_at_ok l i : Forall is_byte l → (0 ≤ i)%Z → (i + 1 < len l)%Z → ∃ n, uint16_at l i = Ok n ∧ (0 ≤ n)%Z.
Proof.
  intros Hl Hi Hn. unfold uint16_at. destruct (byte_at_ok l i Hl ltac:(lia)) as (a & -> & Ha).
  destruct (byte_at_ok l (i + 1) Hl ltac:(lia)) as (b & -> & Hb). eexists. split; [done|]. unfold is_byte in *.
  apply Z.lor_nonneg. split; [|lia]. apply Z.shiftl_nonneg. lia.
Qed.

Lemma from_index_ok l i :
  Forall is_byte l → (0 ≤ i ≤ len l)%Z →
  ∃ l', from_index l i = Ok l' ∧ Forall is_byte l' ∧ length l' = length l - Z.to_nat i.
Proof.
  intros Hl Hi. unfold from_index. rewrite !(proj2 (Z.leb_le _ _)) by lia. simpl. eexists. split_and!; [done| |].
  - by apply Forall_drop.
  - apply length_drop.
Qed.

Lemma up_to_ok l i :
  Forall is_byte l → (0 ≤ i ≤ len l)%Z →
  ∃ l', up_to l i = Ok l' ∧ Forall is_byte l' ∧ length l' = Z.to_nat i.
Proof.
  intros Hl Hi. unfold up_to. rewrite !(proj2 (Z.leb_le _ _)) by lia. simpl. eexists. split_and!; [done| |].
  - by apply Forall_take.
  - rewrite length_take. unfold len in Hi. lia.
Qed.

(** One step of a parser: a guard, an access that is in range, or the end. *)
Ltac guards := rewrite ?negb_true_iff, ?orb_false_iff, ?Z.ltb_ge, ?Z.eqb_eq, ?Z.eqb_neq in *; unfold len, is_byte in *.

Ltac access :=
  match goal with
  | |- safe (assert _ _ ≫= _) => apply safe_assert; intros ?
  | H : Forall is_byte ?l |- context [byte_at ?l ?i] =>
    let b := fresh "b" in
    destruct (byte_at_ok l i H) as (b & -> & ?); [guards; lia|]; cbn [mbind res_bind]
  | H : Forall is_byte ?l |- context [uint16_at ?l ?i] =>
    let n := fresh "n" in
    destruct (uint16_at_ok l i H) as (n & -> & ?); [guards; lia..|]; cbn [mbind res_bind]
  | H : Forall is_byte ?l |- context [from_index ?l ?i] =>
    let l' := fresh "d" in let H' := fresh "Hd" in
    destruct (from_index_ok l i H) as (l' & -> & H' & ?); [guards; lia|]; cbn [mbind res_bind]
  | H : Forall is_byte ?l |- context [up_to ?l ?i] =>
    let l' := fresh "d" in let H' := fresh "Hd" in
    destruct (up_to_ok l i H) as (l' & -> & H' & ?); [guards; lia|]; cbn [mbind res_bind]
  end.

Lemma server_names_safe fuel d : Forall is_byte d → length d < fuel → safe (server_names fuel d).
Proof.
  revert d. induction fuel as [|fuel IH]; intros d Hd Hf; [lia|]. cbn [server_names].
  destruct (Z.eqb_spec (len d) 0) as [|Hne]; [done|]. repeat access.
  destruct (Z.eqb_spec b 0).
  - repeat access. by destruct (HasSuffix _ _).
  - repeat access. apply IH; [done|]. guards. lia.
Qed.

Lemma server_name_ext_safe d : Forall is_byte d → safe (server_name_ext d).
Proof. intros Hd. unfold server_name_ext. repeat access. apply server_names_safe; [done|lia]. Qed.

Lemma extensions_safe fuel d : Forall is_byte d → length d < fuel → safe (extensions fuel d).
Proof.
  revert d. induction fuel as [|fuel IH]; intros d Hd Hf; [lia|]. cbn [extensions].
  destruct (Z.eqb_spec (len d) 0) as [|Hne]; [done|]. repeat access.
  apply safe_bind.
  - case_match; [by apply server_name_ext_safe|done].
  - intros [s|] _; [done|]. apply IH; [done|]. guards. lia.
Qed.

Lemma ReadClientHello_safe d : Forall is_byte d → safe (ReadClientHello d).
Proof.
  intros Hd. unfold ReadClientHello. repeat access. apply extensions_safe; [done|lia].
Qed.

(** C40: The TLS sniffer gives an answer for every sequence of bytes from the
    network: none of its indices and slices is out of range, whatever the length
    fields claim, and its loops over the extensions and the names end. *)
Theorem sniff_tls_safe (b : list Z) (Hb : Forall is_byte b) :
  (∃ host, SniffTLS b = Ok host) ∨ (∃ e, SniffTLS b = Err e).
Proof.
  enough (safe (SniffTLS b)) as Hs by (destruct (SniffTLS b); [left|right| |]; by eauto).
  unfold SniffTLS. repeat access.
  match goal with |- context [from_be ?l] => pose proof (from_be_range l ltac:(done)); set (h := from_be l) in * end.
  destruct (Z.ltb_spec (len b) (5 + h)); [done|]. repeat access. by apply ReadClientHello_safe.
Qed.

Lemma sniff_tls_safe_witness :
  (∃ host, SniffTLS [22; 3; 1; 255; 255]%Z = Ok host) ∨ (∃ e, SniffTLS [22; 3; 1; 255; 255]%Z = Err e).
Proof. apply sniff_tls_safe. repeat constructor; by compute. Defined.

(** ** Well-formed client hellos *)

(** A vector: [n] bytes of length in front. *)
Definition vec (n : nat) (l : list Z) : list Z := be_bytes n (len l) ++ l.

Inductive extension := ServerName (names : list (Z * string)) | OtherExt (type : Z) (body : list Z).

Record client_hello := mkHello {
  ch_version : Z;                (* the minor version of the record *)
  ch_head : list Z;              (* message type and length, version, random *)
  ch_session : list Z;
  ch_ciphers : list Z;
  ch_compression : list Z;
  ch_extensions : list extension
}.

Definition name_bytes (n : Z * string) : list Z := n.1 :: vec 2 (map byte_of (bytes n.2)).

Definition ext_body (e : extension) : list Z :=
  match e with ServerName names => vec 2 (concat (map name_bytes names)) | OtherExt _ body => body end.

Definition ext_type (e : extension) : Z := match e with ServerName _ => 0 | OtherExt t _ => t end.

Definition ext_bytes (e : extension) : list Z := be_bytes 2 (ext_type e) ++ vec 2 (ext_body e).

Definition hello_bytes (h : client_hello) : list Z :=
  ch_head h ++ vec 1 (ch_session h) ++ vec 2 (ch_ciphers h) ++ vec 1 (ch_compression h)
  ++ vec 2 (concat (map ext_bytes (ch_extensions h))).

Definition record_bytes (h : client_hello) : list Z := [22; 3; ch_version h]%Z ++ vec 2 (hello_bytes h).

Definition fits (n : nat) (l : list Z) : Prop := (len l < 256 ^ Z.of_nat n)%Z.

Definition good_name (n : Z * string) : Prop := fits 2 (map byte_of (bytes n.2)).

Definition good_ext (e : extension) : Prop :=
  fits 2 (ext_body e) ∧
  match e with ServerName names => Forall good_name names | OtherExt t _ => (0 < t < 65536)%Z end.

Definition good_hello (h : client_hello) : Prop :=
  length (ch_head h) = 38 ∧ length (ch_session h) ≤ 32 ∧
  fits 2 (ch_ciphers h) ∧ Z.Even (len (ch_ciphers h)) ∧ fits 1 (ch_compression h) ∧
  Forall good_ext (ch_extensions h) ∧ fits 2 (hello_bytes h).

(** The server name that the client asks for: the first host name in the first
    server name extension that has one. *)
Fixpoint host_name (names : list (Z * string)) : option string :=
  match names with [] => None | (t, n) :: names' => if decide (t = 0%Z) then Some n else host_name names' end.

Fixpoint asked (exts : list extension) : option string :=
  match exts with
  | [] => None
  | ServerName names :: exts' => match host_name names with Some n => Some n | None => asked exts' end
  | OtherExt _ _ :: exts' => asked exts'
  end.


(** ** Reading what is written *)

Lemma len_app a b : len (a ++ b) = (len a + len b)%Z.
Proof. unfold len. rewrite length_app. lia. Qed.

Lemma len_cons x l : len (x :: l) = (1 + len l)%Z.
Proof. unfold len. simpl. lia. Qed.

Lemma len_nonneg l : (0 ≤ len l)%Z.
Proof. unfold len. lia. Qed.

Lemma len_be n v : len (be_bytes n v) = Z.of_nat n.
Proof. unfold len. by rewrite be_bytes_length. Qed.

Lemma len_vec n l : len (vec n l) = (Z.of_nat n + len l)%Z.
Proof. unfold vec. by rewrite len_app, len_be. Qed.

Lemma assert_true {B} b e (f : () → res B) : b = true → assert b e ≫= f = f ().
Proof. by intros ->. Qed.

Lemma from_index_app p q i : i = len p → from_index (p ++ q) i = Ok q.
Proof.
  intros ->. unfold from_index. rewrite len_app. pose proof (len_nonneg p). pose proof (len_nonneg q).
  rewrite !(proj2 (Z.leb_le _ _)) by lia. simpl. unfold len. by rewrite Nat2Z.id, drop_app_length.
Qed.

Lemma up_to_app p q i : i = len p → up_to (p ++ q) i = Ok p.
Proof.
  intros ->. unfold up_to. rewrite len_app. pose proof (len_nonneg p). pose proof (len_nonneg q).
  rewrite !(proj2 (Z.leb_le _ _)) by lia. simpl. unfold len. by rewrite Nat2Z.id, take_app_length.
Qed.

Lemma byte_at_app p b q i : i = len p → byte_at (p ++ b :: q) i = Ok b.
Proof.
  intros ->. unfold byte_at. rewrite (proj2 (Z.leb_le _ _)) by apply len_nonneg.
  unfold len. by rewrite Nat2Z.id, list_lookup_middle.
Qed.

Lemma lor_shift a b : (0 ≤ b < 256)%Z → Z.lor (Z.shiftl a 8) b = (a * 256 + b)%Z.
Proof.
  intros Hb. rewrite <- Z.lxor_lor, <- Z.add_nocarry_lxor; [by rewrite Z.shiftl_mul_pow2| |]; [|].
  all: rewrite <- (Z.mod_small b (2 ^ 8)) by (simpl; lia); rewrite <- Z.land_ones by lia;
    rewrite (Z.land_comm b), Z.land_assoc, Z.land_ones, Z.shiftl_mul_pow2, Z.mod_mul by lia; apply Z.land_0_l.
Qed.

Lemma uint16_at_app p v q i : i = len p → (0 ≤ v < 65536)%Z → uint16_at (p ++ be_bytes 2 v ++ q) i = Ok v.
Proof.
  intros -> Hv. rewrite be_bytes_app. unfold uint16_at. simpl.
  simpl. rewrite (byte_at_app p _ _ (len p)) by done. simpl. rewrite cons_middle, (assoc_L (++)).
  rewrite byte_at_app by (rewrite len_app, len_cons; done). simpl. f_equal.
  rewrite lor_shift by (apply Z.mod_pos_bound; lia). rewrite !Z.div_1_r. simpl.
  pose proof (Z.div_lt_upper_bound v 256 256). pose proof (Z.div_pos v 256).
  rewrite (Z.mod_small (v / 256)) by lia. pose proof (Z.div_mod v 256). lia.
Qed.

Lemma uint16_at_front v q : (0 ≤ v < 65536)%Z → uint16_at (be_bytes 2 v ++ q) 0 = Ok v.
Proof. by apply (uint16_at_app []). Qed.

(** The same, on a vector at the front. *)
Lemma vec_length_at l q : fits 2 l → uint16_at (vec 2 l ++ q) 0 = Ok (len l).
Proof.
  intros Hl. unfold vec. rewrite <- (assoc_L (++)). apply uint16_at_front. pose proof (len_nonneg l).
  unfold fits in Hl. simpl in Hl. lia.
Qed.

Lemma vec_after l q n i : i = Z.of_nat n → from_index (vec n l ++ q) i = Ok (l ++ q).
Proof. intros ->. unfold vec. rewrite <- (assoc_L (++)). apply from_index_app. by rewrite len_be. Qed.

Lemma vec_skip l q n i : i = (Z.of_nat n + len l)%Z → from_index (vec n l ++ q) i = Ok q.
Proof. intros ->. apply from_index_app. by rewrite len_vec. Qed.

Lemma vec_byte l q : fits 1 l → byte_at (vec 1 l ++ q) 0 = Ok (len l).
Proof.
  intros Hl. unfold vec. simpl. rewrite Z.div_1_r. unfold fits in Hl. simpl in Hl.
  rewrite Z.mod_small by (pose proof (len_nonneg l); lia). done.
Qed.

Definition name_result (o : option string) : res (option string) :=
  match o with
  | Some n => if HasSuffix n "." then Err errNotClientHello else Ok (Some n)
  | None => Ok None
  end.

#[local] Arguments vec : simpl never.

#[local] Arguments be_bytes : simpl never.

(** Discharges a guard on lengths. *)
Ltac passes :=
  rewrite assert_true by
    (rewrite ?negb_true_iff, ?orb_false_iff, ?Z.ltb_ge, ?Z.eqb_eq, ?Z.eqb_neq; repeat rewrite ?len_app, ?len_cons, ?len_vec, ?len_be;
     repeat match goal with |- context [len ?l] => pose proof (len_nonneg l); generalize dependent (len l); intros end; lia).

Lemma concat_step {A} (w : A → list Z) a l : concat (map w (a :: l)) = w a ++ concat (map w l).
Proof. done. Qed.

Lemma len_zero_app a b : (0 < len a)%Z → (len (a ++ b) =? 0)%Z = false.
Proof. intros Ha. apply Z.eqb_neq. rewrite len_app. pose proof (len_nonneg b). lia. Qed.

Lemma name_text n : of_bytes (map char_of (map byte_of (bytes n))) = n.
Proof. by rewrite map_char_of, of_bytes_bytes. Qed.

Lemma server_names_encoded fuel names :
  Forall good_name names → length (concat (map name_bytes names)) < fuel →
  server_names fuel (concat (map name_bytes names)) = name_result (host_name names).
Proof.
  intros Hg. revert fuel. induction Hg as [|[t n] names Hn _ IH]; intros fuel Hf; (destruct fuel as [|fuel]; [lia|]); [done|].
  rewrite concat_step in Hf |- *. cbn [server_names host_name]. unfold good_name in Hn. simpl in Hn.
  change (name_bytes (t, n)) with (t :: vec 2 (map byte_of (bytes n))) in *. set (nb := map byte_of (bytes n)) in *.
  rewrite len_zero_app by (rewrite len_cons; pose proof (len_nonneg (vec 2 nb)); lia). cbn [app].
  passes. set (d := vec 2 nb ++ _).
  change (byte_at (t :: d) 0) with (Ok t). cbn [mbind res_bind].
  assert (uint16_at (t :: d) 1 = Ok (len nb)) as ->.
  { subst d. unfold vec. rewrite <- (assoc_L (++)). apply (uint16_at_app [t]); [done|]. pose proof (len_nonneg nb).
    unfold fits in Hn. simpl in Hn. lia. }
  cbn [mbind res_bind]. subst d.
  replace (from_index (t :: vec 2 nb ++ concat (map name_bytes names)) 3) with (Ok (nb ++ concat (map name_bytes names))).
  2:{ unfold vec. rewrite <- (assoc_L (++)). symmetry. apply (from_index_app (t :: be_bytes 2 (len nb))). by rewrite len_cons, len_be. }
  cbn [mbind res_bind]. passes. case_decide as Ht.
  - subst t. simpl. rewrite up_to_app by done. simpl. subst nb. by rewrite name_text.
  - rewrite (proj2 (Z.eqb_neq _ _)) by done. rewrite from_index_app by done. cbn [mbind res_bind]. apply IH.
    rewrite length_app in Hf. simpl in Hf. lia.
Qed.

Lemma server_name_ext_encoded names :
  Forall good_name names → fits 2 (ext_body (ServerName names)) →
  server_name_ext (ext_body (ServerName names)) = name_result (host_name names).
Proof.
  intros Hg Hf. unfold server_name_ext. cbn [ext_body] in *. set (l := concat (map name_bytes names)) in *.
  assert (fits 2 l) as Hl by (unfold fits in *; rewrite len_vec in Hf; simpl in *; lia).
  rewrite <- (app_nil_r (vec 2 l)). passes. rewrite (vec_length_at _ _ Hl), (vec_after _ _ 2) by done. cbn [mbind res_bind].
  rewrite app_nil_r. rewrite assert_true by (by apply Z.eqb_eq). apply server_names_encoded; [done|unfold l; lia].
Qed.

Definition sni_result (o : option string) : res string :=
  match o with Some n => if HasSuffix n "." then Err errNotClientHello else Ok n | None => Err errNotTLS end.

Lemma extensions_encoded fuel exts :
  Forall good_ext exts → length (concat (map ext_bytes exts)) < fuel →
  extensions fuel (concat (map ext_bytes exts)) = sni_result (asked exts).
Proof.
  intros Hg. revert fuel. induction Hg as [|e exts [Hb Hk] _ IH]; intros fuel Hf; (destruct fuel as [|fuel]; [lia|]); [done|].
  rewrite concat_step in Hf |- *. unfold ext_bytes at 1. unfold ext_bytes at 1 in Hf. rewrite <- (assoc_L (++)) in Hf |- *.
  cbn [extensions]. set (rest := concat (map ext_bytes exts)) in *.
  rewrite len_zero_app by (by rewrite len_be). passes.
  rewrite uint16_at_front by (destruct e; simpl in *; lia). cbn [mbind res_bind].
  assert (uint16_at (be_bytes 2 (ext_type e) ++ vec 2 (ext_body e) ++ rest) 2 = Ok (len (ext_body e))) as ->.
  { unfold vec. rewrite <- (assoc_L (++)). apply uint16_at_app; [by rewrite len_be|]. pose proof (len_nonneg (ext_body e)).
    unfold fits in Hb. simpl in Hb. lia. }
  cbn [mbind res_bind].
  replace (from_index (be_bytes 2 (ext_type e) ++ vec 2 (ext_body e) ++ rest) 4) with (Ok (ext_body e ++ rest)).
  2:{ unfold vec. rewrite <- (assoc_L (++)), (assoc_L (++) (be_bytes 2 _)). symmetry. apply from_index_app. by rewrite len_app, !len_be. }
  cbn [mbind res_bind]. passes.
  assert (length rest < fuel) as Hr by (rewrite !length_app, be_bytes_length in Hf; lia).
  destruct e as [names|t body]; cbn [ext_type asked] in *.
  - rewrite Z.eqb_refl, up_to_app by done. cbn [mbind res_bind]. rewrite server_name_ext_encoded by done.
    destruct (host_name names) as [n|]; cbn [name_result mbind res_bind]; [simpl; by destruct (HasSuffix n ".")|].
    rewrite from_index_app by done. by apply IH.
  - rewrite (proj2 (Z.eqb_neq t 0)) by lia. cbn [mbind res_bind]. rewrite from_index_app by done. by apply IH.
Qed.

Lemma byte_at_from p q i j b : byte_at q j = Ok b → (0 ≤ j)%Z → i = (len p + j)%Z → byte_at (p ++ q) i = Ok b.
Proof.
  intros Hb Hj ->. unfold byte_at in *. pose proof (len_nonneg p). rewrite (proj2 (Z.leb_le 0 j)) in Hb by lia.
  rewrite (proj2 (Z.leb_le _ _)) by lia.
  rewrite lookup_app_r by (unfold len in *; lia).
  by replace (Z.to_nat (len p + j) - length p) with (Z.to_nat j) by (unfold len in *; lia).
Qed.

Lemma vec_fits n m l : fits n (vec m l) → fits n l.
Proof. unfold fits. rewrite len_vec. lia. Qed.

Lemma fits_app n a b : fits n (a ++ b) → fits n a ∧ fits n b.
Proof. unfold fits. rewrite len_app. pose proof (len_nonneg a). pose proof (len_nonneg b). lia. Qed.

Lemma even_rem n : Z.Even n → (Z.rem n 2 =? 1)%Z = false.
Proof. intros [k ->]. apply Z.eqb_neq. rewrite Z.mul_comm, Z.rem_mul by lia. done. Qed.

Lemma ReadClientHello_encoded h : good_hello h → ReadClientHello (hello_bytes h) = sni_result (asked (ch_extensions h)).
Proof.
  destruct h as [v head session ciphers compression exts]. intros (Hhead & Hs & Hc & He & Hm & Hexts & Hf).
  unfold hello_bytes in *. cbn [ch_head ch_session ch_ciphers ch_compression ch_extensions] in *.
  set (eb := concat (map ext_bytes exts)) in *.
  assert (fits 2 eb) as Heb by (do 4 apply fits_app in Hf as [_ Hf]; by apply vec_fits in Hf).
  assert (len head = 38)%Z as Hl by (unfold len; lia).
  assert (len session ≤ 32)%Z as Hsl by (unfold len; lia).
  unfold ReadClientHello. passes.
  rewrite (byte_at_from _ _ _ 0 (len session)) by first [lia | apply vec_byte; unfold fits; simpl; lia].
  cbn [mbind res_bind]. passes.
  rewrite (assoc_L (++) head), from_index_app by (rewrite len_app, len_vec; lia). cbn [mbind res_bind]. passes.
  rewrite vec_length_at by done. cbn [mbind res_bind]. rewrite even_rem by done. passes.
  rewrite vec_skip by done. cbn [mbind res_bind]. passes.
  rewrite vec_byte by done. cbn [mbind res_bind]. passes.
  rewrite vec_skip by done. cbn [mbind res_bind]. rewrite <- (app_nil_r (vec 2 eb)). do 2 passes.
  rewrite vec_length_at, (vec_after _ _ 2) by done. cbn [mbind res_bind]. rewrite app_nil_r.
  rewrite assert_true by apply Z.eqb_refl. apply extensions_encoded; [done|unfold eb; lia].
Qed.

Lemma SniffTLS_hello (h : client_hello) (rest : list Z) (Hh : good_hello h) :
  SniffTLS (record_bytes h ++ rest) = sni_result (asked (ch_extensions h)).
Proof.
  rewrite <- ReadClientHello_encoded by done. destruct Hh as (_ & _ & _ & _ & _ & _ & Hf).
  unfold record_bytes. set (v := ch_version h). set (body := hello_bytes h) in *. rewrite <- (assoc_L (++)).
  assert (Hl : (0 ≤ len body < 65536)%Z) by (pose proof (len_nonneg body); unfold fits in Hf; simpl in Hf; lia).
  unfold SniffTLS. passes. change (byte_at ([22; 3; v]%Z ++ vec 2 body ++ rest) 0) with (Ok 22%Z).
  change (byte_at ([22; 3; v]%Z ++ vec 2 body ++ rest) 1) with (Ok 3%Z).
  change (byte_at ([22; 3; v]%Z ++ vec 2 body ++ rest) 2) with (Ok v).
  cbn [mbind res_bind]. rewrite !assert_true by done.
  assert ((h ← up_to ([22; 3; v]%Z ++ vec 2 body ++ rest) 5; h ← from_index h 3; Ok (from_be h)) = Ok (len body)) as ->.
  { unfold vec. rewrite <- (assoc_L (++)), (assoc_L (++) [22; 3; v]%Z). rewrite up_to_app by (by rewrite len_app, len_be).
    cbn [mbind res_bind]. rewrite from_index_app by done. cbn [mbind res_bind]. by rewrite from_be_id by done. }
  cbn [mbind res_bind]. rewrite (proj2 (Z.ltb_ge _ _))
    by (rewrite !len_app, len_vec, !len_cons; pose proof (len_nonneg rest); pose proof (len_nonneg []); lia).
  unfold vec at 1. rewrite <- (assoc_L (++)), 2!(assoc_L (++)). rewrite up_to_app
    by (rewrite !len_app, len_be, !len_cons; unfold len; simpl; lia).
  cbn [mbind res_bind]. rewrite <- (assoc_L (++)), (assoc_L (++)). rewrite from_index_app by (by rewrite len_app, len_be).
  done.
Qed.

(** The TLS sniffer reads the server name of a client hello: for a record
    with any session id, cipher suites, compression methods and extensions it
    gives the first host name of the first server name extension that has one
    (an error if it ends in a dot, and errNotTLS when no host is named), and
    bytes after the record make no difference. *)
Theorem sniff_tls_hello (h : client_hello) (rest : list Z) (Hh : good_hello h) :
  SniffTLS (record_bytes h ++ rest) = sni_result (asked (ch_extensions h)).
Proof. by apply SniffTLS_hello. Qed.

Definition demo_hello : client_hello :=
  mkHello 1 (replicate 38 7%Z) [1; 2; 3]%Z [19; 1; 19; 2]%Z [0]%Z
    [OtherExt 10 [0; 2; 0; 29]%Z; ServerName [(1%Z, "x."%string)]; ServerName [(0%Z, "example.com"%string)]; OtherExt 16 []].

Lemma demo_hello_good : good_hello demo_hello.
Proof.
  repeat split; try (vm_compute; reflexivity); try (vm_compute; lia).
  - by exists 2%Z.
  - repeat constructor; vm_compute; done.
Qed.

Lemma sniff_tls_hello_witness : SniffTLS (record_bytes demo_hello ++ [9]%Z) = Ok "example.com"%string.
Proof. exact (sniff_tls_hello demo_hello [9]%Z demo_hello_good). Defined.

Lemma SniffTLS_truncated (h : client_hello) (p q : list Z) (Hh : good_hello h) (Hpq : p ++ q = record_bytes h)
    (Hq : q ≠ []) :
  SniffTLS p = Err (if length p <? 5 then ErrNoClue else errNeedAtLeastData (len (record_bytes h))).
Proof.
  destruct Hh as (_ & _ & _ & _ & _ & _ & Hf). unfold SniffTLS. destruct (Nat.ltb_spec (length p) 5) as [Hp|Hp].
  - rewrite (proj2 (Z.ltb_lt (len p) 5)) by (unfold len; lia). done.
  - unfold record_bytes in *. set (v := ch_version h) in *. set (body := hello_bytes h) in *.
    assert (Hl : (0 ≤ len body < 65536)%Z) by (pose proof (len_nonneg body); unfold fits in Hf; simpl in Hf; lia).
    assert (∃ t, p = ([22; 3; v]%Z ++ be_bytes 2 (len body)) ++ t ∧ t ++ q = body) as (t & -> & Hb).
    { unfold vec in Hpq. rewrite (assoc_L (++)) in Hpq. apply app_eq_inv in Hpq as [(t & Hp1 & Hb)|(t & Hp1 & Hb)].
      - exists t. done.
      - destruct t as [|x t]; [exists []; split; [by rewrite app_nil_r in Hp1|done]|].
        apply (f_equal length) in Hp1. rewrite !length_app, be_bytes_length in Hp1. simpl in Hp1. lia. }
    passes. rewrite <- !(assoc_L (++)). set (p := be_bytes 2 (len body) ++ t).
    change (byte_at ([22; 3; v]%Z ++ p) 0) with (Ok 22%Z). change (byte_at ([22; 3; v]%Z ++ p) 1) with (Ok 3%Z).
    change (byte_at ([22; 3; v]%Z ++ p) 2) with (Ok v). cbn [mbind res_bind]. rewrite !assert_true by done. subst p.
    rewrite !(assoc_L (++)), up_to_app by (by rewrite len_app, len_be). cbn [mbind res_bind].
    rewrite from_index_app by done. cbn [mbind res_bind]. rewrite from_be_id by done.
    rewrite (proj2 (Z.ltb_lt _ _)).
    + unfold vec. rewrite !len_app, len_be. do 2 f_equal. rewrite !len_cons. unfold len. simpl. lia.
    + assert (0 < len q)%Z by (destruct q; [done|unfold len; simpl; lia]). apply (f_equal len) in Hb. rewrite len_app in Hb.
      rewrite !len_app, len_be, !len_cons. unfold len in *. simpl. lia.
Qed.

(** A client hello that has not arrived in full makes the TLS sniffer ask for
    what is missing: with fewer than five bytes it has no clue yet, and from five
    bytes on it asks for exactly the length of the record. *)
Theorem sniff_tls_truncated (h : client_hello) (p q : list Z) (Hh : good_hello h) (Hpq : p ++ q = record_bytes h)
    (Hq : q ≠ []) :
  SniffTLS p = Err (if length p <? 5 then ErrNoClue else errNeedAtLeastData (len (record_bytes h))).
Proof. by eapply SniffTLS_truncated. Qed.

Lemma sniff_tls_truncated_witness :
  SniffTLS (take 20 (record_bytes demo_hello)) = Err (errNeedAtLeastData 100).
Proof.
  apply (sniff_tls_truncated demo_hello (take 20 (record_bytes demo_hello)) (drop 20 (record_bytes demo_hello)) demo_hello_good).
  - apply take_drop.
  - vm_compute. done.
Defined.

(** ** Requests *)

Lemma begin_with_match ms b :
  Forall (λ m, String.length m ≤ length b) ms →
  Exists (λ m, EqualFold (of_bytes (take (String.length m) b)) m = true) ms → begin_with ms b = None.
Proof.
  intros Hl. induction Hl as [|m ms Hm _ IH]; [by intros ?%Exists_nil|]. intros H. simpl.
  rewrite (proj2 (Nat.leb_le _ _)) by done. simpl. destruct (EqualFold _ m) eqn:Hf; [done|].
  rewrite (proj2 (Nat.ltb_ge _ _)) by done. apply IH. apply Exists_cons in H as [?|?]; [congruence|done].
Qed.

Lemma cut_at_app sep l l' : sep ∉ l → cut_at sep (l ++ sep :: l') = Some (l, l').
Proof.
  induction l as [|c l IH]; simpl; [by rewrite decide_True|]. intros [? ?]%not_elem_of_cons.
  rewrite decide_False by done. by rewrite IH.
Qed.

Lemma cut_at_none sep l : sep ∉ l → cut_at sep l = None.
Proof.
  induction l as [|c l IH]; simpl; [done|]. intros [? ?]%not_elem_of_cons. rewrite decide_False by done. by rewrite IH.
Qed.

(** A header line that is not the Host header. *)
Definition other_header (l : list ascii) : bool :=
  match cut_at ":" l with Some (key, _) => negb (bool_decide (ToLower (of_bytes key) = "host"%string)) | None => true end.

Lemma http_headers_skip h hs : h ≠ [] → other_header h = true → http_headers (h :: hs) = http_headers hs.
Proof.
  intros Hne Ho. destruct h as [|c h]; [done|]. unfold other_header in Ho. cbn [http_headers].
  destruct (cut_at ":" (c :: h)) as [[k v]|]; [|done]. apply negb_true_iff in Ho. by rewrite Ho.
Qed.

Lemma trim_between f a l b :
  Forall (λ c, f c = true) a → Forall (λ c, f c = true) b → Forall (λ c, f c = false) l → l ≠ [] →
  trim_bytes f (a ++ l ++ b) = l.
Proof.
  intros Ha Hb Hl Hne.
  assert (∀ x r, Forall (λ c, f c = true) x → drop_while f (x ++ r) = drop_while f r) as Hd.
  { intros x r. induction 1 as [|c x Hc _ IH]; simpl; [done|]. by rewrite Hc. }
  assert (∀ x r, x ≠ [] → Forall (λ c, f c = false) x → drop_while f (x ++ r) = x ++ r) as Hk.
  { intros x r Hx. destruct 1 as [|c x Hc]; simpl; [done|]. by rewrite Hc. }
  unfold trim_bytes. rewrite Hd, Hk by done. rewrite reverse_app, Hd by by apply Forall_reverse.
  rewrite <- (app_nil_r (reverse l)), Hk; [by rewrite app_nil_r, reverse_involutive| |by apply Forall_reverse].
  intros H. apply Hne. by rewrite <- (reverse_involutive l), H.
Qed.

(** A byte of a host name or a port. *)
Definition plain_char (c : ascii) : bool := negb (is_space c) && negb (bool_decide (c ∈ [":"; "["; "]"]%char)).

Definition plain (s : string) : Prop := Forall (λ c, plain_char c = true) (bytes s).

Lemma plain_not s c : plain s → plain_char c = false → c ∉ bytes s.
Proof. intros Hs Hc Hin. unfold plain in Hs. rewrite Forall_forall in Hs. specialize (Hs _ Hin). congruence. Qed.

Lemma plain_no_space s : plain s → Forall (λ c, is_space c = false) (bytes s).
Proof. intros Hs. eapply Forall_impl; [exact Hs|]. intros c Hc. apply andb_true_iff in Hc as [Hc _]. by apply negb_true_iff. Qed.

Lemma plain_char_lower c : plain_char (lower_ascii c) = plain_char c.
Proof. destruct c as [[] [] [] [] [] [] [] []]; reflexivity. Qed.

Lemma plain_lower s : plain s → plain (ToLower s).
Proof.
  unfold plain, ToLower. rewrite bytes_string_map. intros Hs. apply Forall_fmap. eapply Forall_impl; [exact Hs|].
  intros c Hc. simpl. by rewrite plain_char_lower.
Qed.

(** A host and an optional port. *)
Definition authority (host : string) (port : option string) : string :=
  match port with Some p => host +:+ ":" +:+ p | None => host end.

Lemma ToLower_authority host port : ToLower (authority host port) = authority (ToLower host) (ToLower <$> port).
Proof. destruct port as [p|]; simpl; [|done]. by rewrite ToLower_app. Qed.

Lemma split_authority host p : plain host → plain p → SplitHostPort (authority host (Some p)) = inr host.
Proof.
  intros Hh Hp. unfold SplitHostPort. simpl. rewrite !bytes_app. simpl.
  assert (":"%char ∉ bytes p ∧ ":"%char ∉ bytes host) as [Hcp Hch] by (split; by eapply plain_not).
  assert (∀ c, c ∈ ["["; "]"]%char → bool_decide (c ∈ bytes host ++ ":"%char :: bytes p) = false) as Hb.
  { intros c Hc. apply bool_decide_eq_false. rewrite elem_of_app, elem_of_cons.
    assert (plain_char c = false ∧ c ≠ ":"%char) as [Hn ?] by (repeat (apply elem_of_cons in Hc as [->|Hc]; [done|]); by apply elem_of_nil in Hc).
    pose proof (plain_not _ _ Hh Hn). pose proof (plain_not _ _ Hp Hn). naive_solver. }
  rewrite reverse_app, reverse_cons, <- (assoc_L (++)). simpl. rewrite cut_at_app by by rewrite elem_of_reverse.
  rewrite length_reverse, take_app_length, of_bytes_bytes.
  rewrite (bool_decide_eq_false_2 (":"%char ∈ bytes host)) by done.
  rewrite !Hb by set_solver. simpl. destruct (bytes host ++ ":"%char :: bytes p) as [|c l] eqn:He; [done|].
  destruct (decide (c = "["%char)) as [->|Hc].
  - exfalso. pose proof (plain_not _ "["%char Hh eq_refl) as Hn. destruct (bytes host); simpl in He; set_solver.
  - destruct c as [[] [] [] [] [] [] [] []]; done.
Qed.

Lemma split_no_port host : plain host → SplitHostPort host = inl true.
Proof.
  intros Hh. unfold SplitHostPort. rewrite cut_at_none; [done|]. rewrite elem_of_reverse. by eapply plain_not.
Qed.

Lemma parseHost_plain host : plain host → ParseIP host = false → parseHost host = Ok host.
Proof.
  intros Hh Hi. unfold parseHost. rewrite Hi. assert (HasPrefix host "[" = false) as ->; [|done].
  unfold HasPrefix. apply bool_decide_eq_false. intros [k Hk]. apply (plain_not _ "["%char Hh); [done|]. rewrite Hk. set_solver.
Qed.

Lemma header_host_plain a b host port :
  Forall (λ c, is_space c = true) a → Forall (λ c, is_space c = true) b →
  plain host → host ≠ ""%string → from_option plain True port → ParseIP (ToLower host) = false →
  header_host (a ++ bytes (authority host port) ++ b) = Ok (ToLower host).
Proof.
  intros Ha Hb Hh Hne Hp Hi. unfold header_host, TrimSpace, Trim. rewrite bytes_of_bytes, trim_between, of_bytes_bytes; try done.
  - rewrite ToLower_authority. apply plain_lower in Hh. destruct port as [p|]; cbn [from_option fmap option_fmap option_map] in *.
    + apply plain_lower in Hp. rewrite (split_authority _ _ Hh Hp). by rewrite Hi.
    + cbn [authority]. rewrite split_no_port by done. by apply parseHost_plain.
  - apply plain_no_space in Hh. destruct port as [p|]; simpl in *; [|done]. apply plain_no_space in Hp.
    rewrite !bytes_app. apply Forall_app. split; [done|]. simpl. by constructor.
  - destruct port; simpl; destruct host; done.
Qed.

Lemma methods_length : Forall (λ m, 3 ≤ String.length m ≤ 7) methods.
Proof. repeat constructor. Qed.

Lemma begin_with_request m l : ToLower m ∈ methods → 4 ≤ length l → beginWithHTTPMethod (bytes m ++ l) = None.
Proof.
  intros Hm Hl. pose proof (proj1 (Forall_forall _ _) methods_length _ Hm) as Hlen. unfold ToLower in Hlen.
  rewrite string_map_length, <- bytes_length in Hlen. apply begin_with_match.
  - eapply Forall_impl; [exact methods_length|]. intros x Hx. simpl in Hx. rewrite length_app. lia.
  - apply Exists_exists. exists (ToLower m). split; [done|]. unfold ToLower at 1. rewrite string_map_length, <- bytes_length.
    rewrite take_app_length, of_bytes_bytes. unfold EqualFold. apply bool_decide_eq_true. by rewrite ToLower_idemp.
Qed.

Lemma http_headers_lines headers l :
  Forall (λ h, "010"%char ∉ h ∧ other_header (h ++ ["013"%char]) = true) headers →
  http_headers (split_bytes "010" (concat (map (λ h, h ++ ["013"; "010"]%char) headers) ++ l)) = http_headers (split_bytes "010" l).
Proof.
  induction 1 as [|h headers [Hh Ho] _ IH]; [done|]. simpl. rewrite <- !(assoc_L (++)). simpl.
  rewrite cons_middle, (assoc_L (++)), split_bytes_app by set_solver. rewrite http_headers_skip; [done| |done].
  by destruct h.
Qed.

(** The HTTP sniffer takes the host of the first Host header: for a request
    whose first line begins with a method in any case, with any other headers
    before it, a Host line with a host name and an optional port gives the host
    in lower case, and whatever follows the line makes no difference. *)
Theorem sniff_http_host (m host : string) (port : option string) (line rest : list ascii) (headers : list (list ascii))
    (Hm : ToLower m ∈ methods) (Hline : "010"%char ∉ line)
    (Hheaders : Forall (λ h, "010"%char ∉ h ∧ other_header (h ++ ["013"%char]) = true) headers)
    (Hhost : plain host) (Hne : host ≠ ""%string) (Hport : from_option plain True port)
    (Hip : ParseIP (ToLower host) = false) :
  let crlf := ["013"; "010"]%char in
  SniffHTTP (bytes m ++ line ++ crlf ++ concat (map (λ h, h ++ crlf) headers)
             ++ bytes "Host: " ++ bytes (authority host port) ++ crlf ++ rest) = Ok (ToLower host).
Proof.
  intros crlf. unfold SniffHTTP. rewrite begin_with_request; [|done|].
  2:{ rewrite !length_app. simpl. lia. }
  assert ("010"%char ∉ bytes m) as Hml.
  { intros Hin. assert ("010"%char ∈ bytes (ToLower m)) as Hin'.
    { unfold ToLower. rewrite bytes_string_map. apply (list_elem_of_fmap_2 lower_ascii _ _ Hin). }
    revert Hin'. pose proof (proj1 (Forall_forall (λ m, "010"%char ∉ bytes m) methods)) as Hms. apply Hms; [|done].
    by apply (bool_decide_unpack _). }
  unfold crlf at 1. simpl app at 3. rewrite (cons_middle "013"%char), (assoc_L (++) line), (assoc_L (++) (bytes m)).
  rewrite split_bytes_app by set_solver. cbn [tail]. rewrite http_headers_lines by done.
  assert ("010"%char ∉ bytes (authority host port)) as Ha.
  { pose proof (plain_not host "010" Hhost eq_refl). destruct port as [p|]; simpl; [|done].
    pose proof (plain_not p "010" Hport eq_refl). rewrite !bytes_app. set_solver. }
  revert Ha. set (a := bytes (authority host port)). intros Ha. unfold crlf. cbn [app].
  rewrite (cons_middle "013"%char), (assoc_L (++) a). set (value := [" "%char] ++ a ++ ["013"%char]).
  transitivity (http_headers (split_bytes "010" ((bytes "Host:" ++ value) ++ "010"%char :: rest))); [done|].
  rewrite split_bytes_app by (simpl; set_solver).
  apply header_host_plain; try done; by repeat constructor.
Qed.

Lemma sniff_http_host_witness :
  SniffHTTP (http_text ["Get / HTTP/1.1"; "Accept: a:b"; "Host: Www.Example.com:8080"; "Host: other"]%string)
  = Ok "www.example.com"%string.
Proof.
  apply (sniff_http_host "Get" "Www.Example.com" (Some "8080"%string) (bytes " / HTTP/1.1") (http_text ["Host: other"%string])
           [bytes "Accept: a:b"]); try (vm_compute; by repeat constructor).
  all: try (repeat constructor; by apply (bool_decide_unpack _)). all: by apply (bool_decide_unpack _).
Defined.
