(* ===== verification/Dispatcher.v ===== *)
(** * The sniffing dispatcher: [component/sniffer/dispatcher.go]

    [TCPSniff] looks into the first bytes of a connection, without taking them
    out, and gives the metadata the host it finds.  The connection is a
    [BufferedConn]: a [bufio.Reader] of 4096 bytes over a socket, and the socket
    is the sequence of what its reads will return.  Destinations that could not
    be sniffed are counted in an LRU cache; the clock is an argument.  The map of
    sniffers is a list: Go's order is random and differs between two loops, so
    each loop has an order of its own. *)

From Stdlib Require Import ZArith Lia Ascii String.
From stdpp Require Import prelude list gmap strings.
From S2P Require Import Prelude Ranges Netip Lru FakeIP Metadata Wire Sniffer.

(** ** Buffered connections *)

(** What one read of the socket returns: at least one byte, or an error; [OpError]
    is the kind [net.OpError] of timeouts and resets. *)
Inductive read_event := Data (b : Z) (bs : list Z) | ReadErr (OpError : bool).

Inductive peek_error := ErrRead (OpError : bool) | ErrBufferFull.

(** [sticky] is the reader's stored error. *)
Record BufferedConn := mkConn { buffer : list Z; sticky : option bool; socket : list read_event; closed : bool }.

Definition buf_size : nat := Z.to_nat 4096.

(** One [fill]; a socket that has nothing more to say is at its end. *)
Definition fill (c : BufferedConn) : BufferedConn :=
  match socket c with
  | [] => mkConn (buffer c) (Some false) [] (closed c)
  | ReadErr op :: s => mkConn (buffer c) (Some op) s (closed c)
  | Data b bs :: s =>
    let room := buf_size - length (buffer c) in
    let rest := match drop room (b :: bs) with [] => s | b' :: bs' => Data b' bs' :: s end in
    mkConn (buffer c ++ take room (b :: bs)) None rest (closed c)
  end.

Fixpoint fill_until (fuel n : nat) (c : BufferedConn) : BufferedConn :=
  match fuel with
  | O => c
  | S fuel' =>
    if bool_decide (length (buffer c) < n) && bool_decide (length (buffer c) < buf_size) && bool_decide (sticky c = None)
    then fill_until fuel' n (fill c) else c
  end.

(** [Peek(n)], [n] not negative. *)
Definition Peek (n : Z) (c : BufferedConn) : (peek_error + list Z) * BufferedConn :=
  let n' := Z.to_nat (n `min` (Z.of_nat (S buf_size))) in
  let c := fill_until buf_size n' c in
  if buf_size <? n' then (inl ErrBufferFull, c)
  else if length (buffer c) <? n' then
    match sticky c with
    | Some op => (inl (ErrRead op), mkConn (buffer c) None (socket c) (closed c))
    | None => (inl ErrBufferFull, c)
    end
  else (inr (take n' (buffer c)), c).

Definition Buffered (c : BufferedConn) : Z := Z.of_nat (length (buffer c)).

Definition Close (c : BufferedConn) : BufferedConn := mkConn (buffer c) (sticky c) (socket c) true.

(** ** Sniffers *)

Record SnifferConfig := mkSnifferConfig { OverrideDest : bool; Ports : IntRanges }.

Record Sniffer := mkSniffer { ports : IntRanges; supportNetworkType : NetWork; SniffData : list Z → res string }.

Definition SupportPort (s : Sniffer) (port : Z) : bool := Check (ports s) port.

Definition or_default (ports default : IntRanges) : IntRanges := match ports with [] => default | _ => ports end.

Definition NewTLSSniffer (config : SnifferConfig) : Sniffer :=
  mkSniffer (or_default (Ports config) [mkRange 443 443]) TCP SniffTLS.

Definition NewHTTPSniffer (config : SnifferConfig) : Sniffer :=
  mkSniffer (or_default (Ports config) [mkRange 80 80]) TCP (λ b, SniffHTTP (map char_of b)).

(** The data sniffer of QUIC is not supported: it works on the packets of a UDP
    session, through a wrapped sender. *)
Definition NewQuicSniffer (config : SnifferConfig) : Sniffer :=
  mkSniffer (or_default (Ports config) [mkRange 443 443]) UDP (λ _, Err ErrNoClue).

Inductive sniffer_type := TypeTLS | TypeHTTP | TypeQUIC.

Definition NewSniffer (name : sniffer_type) (config : SnifferConfig) : Sniffer :=
  match name with
  | TypeTLS => NewTLSSniffer config
  | TypeHTTP => NewHTTPSniffer config
  | TypeQUIC => NewQuicSniffer config
  end.

(** ** The dispatcher *)

Abbreviation skip_list := (lstate (Addr * Z) Z).

Record Dispatcher := mkDispatcher {
  enable : bool;
  forceDomain : list (string → bool);
  skipSrcAddress : list (Addr → bool);
  skipDstAddress : list (Addr → bool);
  skipDomain : list (string → bool);
  forceDnsMapping : bool;
  parsePureIp : bool
}.

Definition any {A} (matchers : list (A → bool)) (a : A) : bool := existsb (λ f, f a) matchers.

Definition forceSniff (sd : Dispatcher) (m : Metadata) : bool := any (forceDomain sd) (Host m).

Definition shouldOverride (sd : Dispatcher) (m : Metadata) : bool :=
  if any (skipDstAddress sd) (DstIP m) then false
  else if any (skipSrcAddress sd) (SrcIP m) then false
  else if bool_decide (Host m = ""%string) && parsePureIp sd then true
  else if bool_decide (m_DNSMode m = DNSMapping) && forceDnsMapping sd then true
  else forceSniff sd m.

Definition set_SniffHost (h : string) (m : Metadata) : Metadata :=
  mkMetadata (m_NetWork m) (m_Type m) (SrcIP m) (DstIP m) (SrcGeoIP m) (DstGeoIP m) (SrcIPASN m) (DstIPASN m)
    (m_SrcPort m) (m_DstPort m) (m_InIP m) (m_InPort m) (m_InName m) (m_InUser m) (Host m) (m_DNSMode m)
    (m_Uid m) (m_Process m) (m_ProcessPath m) (SpecialProxy m) (SpecialRules m) (RemoteDst m) (m_DSCP m) h.

Definition replaceDomain (m : Metadata) (host : string) (overrideDest : bool) : Metadata :=
  let m := set_SniffHost host m in
  let m := if overrideDest then set_DstIP NoAddr (set_Host host m) else m in
  set_DNSMode DNSNormal m.

(** [cacheSniffFailed]; a count that is not there is zero. *)
Definition bump (old : option Z) : option Z :=
  let oldValue := default 0%Z old in Some (if (oldValue <=? 5)%Z then @wrap uint8 (oldValue + 1) else oldValue).

Definition cacheSniffFailed (m : Metadata) (now : Z) (l : skip_list) : skip_list :=
  (Compute (AddrPort m) bump now l).2.

Definition new_skip_list : skip_list := New (mkHeap ∅ 0) [WithSize 128%Z; WithAge 600%Z].

(** Why a connection has no host. *)
Inductive dispatch_error := ErrorSniffFailed | ErrPeek (e : peek_error).

Record world := mkWorld { conn : BufferedConn; skips : skip_list }.

Section WithDomains.
(** [metadata.IsDomainName] of the sing library. *)
Context (IsDomainName : string → bool).

Definition domainCanReplace (sd : Dispatcher) (host : string) : bool :=
  negb (bool_decide (host = "."%string)) && IsDomainName host && negb (any (skipDomain sd) host).

(** The last checks on what a sniffer says; [None]: the loop goes on.  Index panics
    and lack of fuel are among the cases, but [sniff_tls_safe] excludes them. *)
Definition host_of (r : res string) : option string :=
  match r with
  | Ok host => match ParseAddr host with Some _ => None | None => Some host end
  | _ => None
  end.

(** One sniffer on the buffered bytes, with a second look when it asks for more. *)
Definition sniff_one (s : Sniffer) (bytes : list Z) (c : BufferedConn) : option string * BufferedConn :=
  match SniffData s bytes with
  | Err (errNeedAtLeastData length) =>
    match Peek length c with
    | (inr bytes, c) => (host_of (SniffData s bytes), c)
    | (inl _, c) => (None, c)
    end
  | r => (host_of r, c)
  end.

Fixpoint sniffDomain (order : list (Sniffer * SnifferConfig)) (m : Metadata) (now : Z) (w : world)
    : (dispatch_error + string) * world :=
  match order with
  | [] => (inl ErrorSniffFailed, w)
  | (s, _) :: order' =>
    if bool_decide (supportNetworkType s = TCP) && SupportPort s (m_DstPort m) then
      match Peek 1 (conn w) with
      | (inl e, c) =>
        match e with
        | ErrRead true => (inl (ErrPeek e), mkWorld (Close c) (cacheSniffFailed m now (skips w)))
        | _ => (inl (ErrPeek e), mkWorld c (skips w))
        end
      | (inr _, c) =>
        match Peek (Buffered c) c with
        | (inl _, c) => sniffDomain order' m now (mkWorld c (skips w))
        | (inr bytes, c) =>
          match sniff_one s bytes c with
          | (Some host, c) => (inr host, mkWorld c (skips w))
          | (None, c) => sniffDomain order' m now (mkWorld c (skips w))
          end
        end
      end
    else sniffDomain order' m now w
  end.

(** The first loop of [TCPSniff]: whether some sniffer takes the port, and its
    configuration's flag. *)
Fixpoint in_whitelist (order : list (Sniffer * SnifferConfig)) (port : Z) : option bool :=
  match order with
  | [] => None
  | (s, config) :: order' =>
    if (bool_decide (supportNetworkType s = TCP) || bool_decide (supportNetworkType s = ALLNet)) && SupportPort s port
    then Some (OverrideDest config) else in_whitelist order' port
  end.

(** [order1] and [order2] are the orders of the two loops over the map; sniffing
    takes time, from [now] to [later]. *)
Definition TCPSniff (sd : Dispatcher) (order1 order2 : list (Sniffer * SnifferConfig)) (now later : Z) (m : Metadata) (w : world)
    : bool * Metadata * world :=
  if shouldOverride sd m then
    match in_whitelist order1 (m_DstPort m) with
    | None => (false, m, w)
    | Some overrideDest =>
      let forceSniffer := forceSniff sd m in
      let dst := AddrPort m in
      let '(count, l) := if forceSniffer then (None, skips w) else Get dst now (skips w) in
      let w := mkWorld (conn w) l in
      if negb forceSniffer && (5 <? default 0 count)%Z then (false, m, w)
      else
        match sniffDomain order2 m later w with
        | (inl _, w) =>
          (false, m, if forceSniffer then w else mkWorld (conn w) (cacheSniffFailed m later (skips w)))
        | (inr host, w) =>
          if domainCanReplace sd host then
            (true, replaceDomain m host overrideDest, mkWorld (conn w) (Delete dst (skips w)))
          else (false, m, w)
        end
    end
  else (false, m, w).

End WithDomains.

(** ** Nothing is taken out of the connection *)

Lemma buf_size_big : 5 ≤ buf_size.
Proof. unfold buf_size. lia. Qed.

#[local] Opaque buf_size.

Definition event_bytes (e : read_event) : list Z := match e with Data b bs => b :: bs | ReadErr _ => [] end.

(** All the bytes that are still to be read. *)
Definition pending (c : BufferedConn) : list Z := buffer c ++ concat (map event_bytes (socket c)).

Lemma fill_pending c : pending (fill c) = pending c.
Proof.
  destruct c as [buf st [|[b bs|op] s] cl]; try done. unfold pending, fill. cbn zeta. cbn [socket buffer map concat event_bytes].
  set (room := buf_size - length buf). pose proof (take_drop room (b :: bs)) as Ht. set (t := take room (b :: bs)) in *.
  destruct (drop room (b :: bs)); rewrite <- Ht; cbn [map concat event_bytes]; by rewrite ?app_nil_r, ?app_assoc.
Qed.

Lemma fill_until_pending fuel n c : pending (fill_until fuel n c) = pending c.
Proof.
  revert c. induction fuel as [|fuel IH]; intros c; [done|]. cbn [fill_until]. case_match; [|done]. by rewrite IH, fill_pending.
Qed.

Lemma Peek_pending n c : pending (Peek n c).2 = pending c.
Proof.
  unfold Peek. set (n' := Z.to_nat _). rewrite <- (fill_until_pending buf_size n' c).
  generalize (fill_until buf_size n' c). intros c'. by repeat case_match.
Qed.

Lemma sniff_one_pending s bytes c : pending (sniff_one s bytes c).2 = pending c.
Proof.
  unfold sniff_one. destruct (SniffData s bytes) as [|[]| |]; try done.
  pose proof (Peek_pending length c). by destruct (Peek length c) as [[] ?].
Qed.

Lemma sniffDomain_pending order m now w : pending (conn (sniffDomain order m now w).2) = pending (conn w).
Proof.
  revert w. induction order as [|[s cfg] order IH]; intros w; [done|]. cbn [sniffDomain]. case_match; [|apply IH].
  pose proof (Peek_pending 1 (conn w)) as H1. destruct (Peek 1 (conn w)) as [[[[]|]|] c]; try done. simpl in H1.
  pose proof (Peek_pending (Buffered c) c) as H2. destruct (Peek (Buffered c) c) as [[|bytes] c']; simpl in H2.
  - rewrite IH. simpl. congruence.
  - pose proof (sniff_one_pending s bytes c') as H3. destruct (sniff_one s bytes c') as [[|] c'']; simpl in *; [congruence|].
    rewrite IH. simpl. congruence.
Qed.

(** What a successful search says: a TCP sniffer of the port read the host in the
    bytes that the connection holds, and the host is not an address. *)
Lemma Peek_prefix n c bytes c' : Peek n c = (inr bytes, c') → bytes `prefix_of` pending c.
Proof.
  unfold Peek. set (n' := Z.to_nat _). intros H. repeat case_match; simplify_eq.
  rewrite <- (fill_until_pending buf_size n' c). exists (drop n' (buffer (fill_until buf_size n' c)) ++ concat (map event_bytes (socket (fill_until buf_size n' c)))).
  unfold pending. by rewrite (assoc_L (++)), take_drop.
Qed.

Lemma host_of_Some r host : host_of r = Some host → r = Ok host ∧ ParseAddr host = None.
Proof. unfold host_of. repeat case_match; naive_solver. Qed.

Lemma sniff_one_found s bytes c host c' :
  sniff_one s bytes c = (Some host, c') →
  ParseAddr host = None ∧ (SniffData s bytes = Ok host ∨ ∃ more, more `prefix_of` pending c ∧ SniffData s more = Ok host).
Proof.
  unfold sniff_one. destruct (SniffData s bytes) as [h|e| |] eqn:He; try (by intros [= ? _]).
  - intros [= Hh _]. apply (host_of_Some (Ok h)) in Hh as [? ?]. auto.
  - destruct e; try done. destruct (Peek length c) as [[|more] c''] eqn:Hp; [done|]. intros [= Hh _].
    apply host_of_Some in Hh as [? ?]. split; [done|]. right. exists more. split; [by eapply Peek_prefix|done].
Qed.

Lemma sniffDomain_found order m now w host w' :
  sniffDomain order m now w = (inr host, w') →
  ParseAddr host = None ∧
  ∃ s config bytes, (s, config) ∈ order ∧ supportNetworkType s = TCP ∧ SupportPort s (m_DstPort m) = true ∧
    bytes `prefix_of` pending (conn w) ∧ SniffData s bytes = Ok host.
Proof.
  revert w. induction order as [|[s cfg] order IH]; intros w; [done|]. cbn [sniffDomain].
  assert (∀ w1, pending (conn w1) = pending (conn w) → sniffDomain order m now w1 = (inr host, w') →
    ParseAddr host = None ∧ ∃ s' config bytes, (s', config) ∈ (s, cfg) :: order ∧ supportNetworkType s' = TCP ∧
      SupportPort s' (m_DstPort m) = true ∧ bytes `prefix_of` pending (conn w) ∧ SniffData s' bytes = Ok host) as Hrest.
  { intros w1 Hp H1. apply IH in H1 as (Ha & s' & c' & b' & Hin & ?). rewrite Hp in *. split; [done|].
    exists s', c', b'. split; [by apply list_elem_of_further|done]. }
  destruct (bool_decide (supportNetworkType s = TCP) && SupportPort s (m_DstPort m)) eqn:Hs; [|by apply Hrest].
  apply andb_true_iff in Hs as [Ht%bool_decide_eq_true Hport].
  pose proof (Peek_pending 1 (conn w)) as H1. destruct (Peek 1 (conn w)) as [[[[]|]|] c]; try done. simpl in H1.
  pose proof (Peek_pending (Buffered c) c) as H2. destruct (Peek (Buffered c) c) as [[|bytes] c'] eqn:Hp; simpl in H2.
  - apply Hrest. simpl. congruence.
  - pose proof (sniff_one_pending s bytes c') as H3. destruct (sniff_one s bytes c') as [[h|] c''] eqn:Ho; simpl in *.
    + intros [= -> <-]. apply sniff_one_found in Ho as (Ha & Hd). split; [done|].
      apply Peek_prefix in Hp. rewrite H1 in Hp. rewrite H2, H1 in Hd.
      destruct Hd as [Hd|(more & Hm & Hd)]; [exists s, cfg, bytes|exists s, cfg, more]; by (split; [apply list_elem_of_here|]).
    + apply Hrest. simpl. congruence.
Qed.

Lemma in_whitelist_Some order port flag :
  in_whitelist order port = Some flag →
  ∃ s config, (s, config) ∈ order ∧ SupportPort s port = true ∧ flag = OverrideDest config.
Proof.
  induction order as [|[s cfg] order IH]; [done|]. simpl. case_match eqn:Hs.
  - intros [= <-]. apply andb_true_iff in Hs as [_ Hs]. exists s, cfg. by split; [apply list_elem_of_here|].
  - intros (s' & c' & Hin & ?)%IH. exists s', c'. by split; [apply list_elem_of_further|].
Qed.

(** C37: Sniffing is sound: whatever it answers, it takes no byte out of the
    connection, and unless it succeeds the metadata are as before.  When it
    succeeds, a TCP sniffer that takes the port read the new host in the first
    bytes of the connection, the host is a domain name, not an address and not on
    the list of domains to skip; it becomes the sniffed host, and the destination
    is replaced only if a sniffer of the port says so. *)
Theorem tcp_sniff_sound (IsDomainName : string → bool) (sd : Dispatcher) (order1 order2 : list (Sniffer * SnifferConfig))
    (now later : Z) (m : Metadata) (w : world) :
  match TCPSniff IsDomainName sd order1 order2 now later m w with
  | (sniffed, m', w') =>
    pending (conn w') = pending (conn w) ∧
    if sniffed then
      ∃ host s config bytes flag config',
        m' = replaceDomain m host flag ∧ SniffHost m' = host ∧
        (s, config) ∈ order2 ∧ supportNetworkType s = TCP ∧ SupportPort s (m_DstPort m) = true ∧
        bytes `prefix_of` pending (conn w) ∧ SniffData s bytes = Ok host ∧
        ParseAddr host = None ∧ IsDomainName host = true ∧ (∀ f, f ∈ skipDomain sd → f host = false) ∧
        (∃ s', (s', config') ∈ order1 ∧ SupportPort s' (m_DstPort m) = true) ∧ flag = OverrideDest config'
    else m' = m
  end.
Proof.
  unfold TCPSniff. destruct (shouldOverride sd m); [|done].
  destruct (in_whitelist order1 (m_DstPort m)) as [flag|] eqn:Hw; [|done].
  destruct (if forceSniff sd m then _ else _) as [count l]. destruct (negb _ && _); [done|].
  pose proof (sniffDomain_pending order2 m later (mkWorld (conn w) l)) as Hp.
  destruct (sniffDomain order2 m later _) as [[e|host] w1] eqn:Hs; simpl in Hp.
  - by destruct (forceSniff sd m).
  - destruct (domainCanReplace IsDomainName sd host) eqn:Hd; [|done]. split; [done|].
    apply sniffDomain_found in Hs as (Ha & s & config & bytes & Hin & Ht & Hport & Hb & Hh).
    apply in_whitelist_Some in Hw as (s' & config' & Hin' & Hport' & Hf).
    unfold domainCanReplace in Hd. apply andb_true_iff in Hd as [[_ Hd]%andb_true_iff Hk%negb_true_iff].
    exists host, s, config, bytes, flag, config'. split_and!; try done.
    + by destruct flag.
    + intros f Hf'. destruct (f host) eqn:Hfh; [|done]. unfold any in Hk. rewrite <- Hk. symmetry.
      apply existsb_exists. exists f. split; [by apply list_elem_of_In|done].
    + by exists s'.
Qed.

(** ** What a peek waits for *)

(** The bytes before the next error. *)
Fixpoint until_error (s : list read_event) : list Z :=
  match s with Data b bs :: s' => b :: bs ++ until_error s' | _ => [] end.

Definition ready (c : BufferedConn) : list Z := buffer c ++ until_error (socket c).

(** [c'] has read on from [c], and at least [n] bytes. *)
Record read_on (n : nat) (c c' : BufferedConn) : Prop := {
  ro_sticky : sticky c' = None;
  ro_ready : ready c' = ready c;
  ro_enough : n ≤ length (buffer c');
  ro_room : length (buffer c') ≤ buf_size
}.

Lemma fill_ready c :
  length (buffer c) < length (ready c) → length (buffer c) < buf_size →
  sticky (fill c) = None ∧ ready (fill c) = ready c ∧ length (buffer c) < length (buffer (fill c)) ≤ buf_size.
Proof.
  destruct c as [buf st s cl]. unfold ready. cbn [buffer socket]. intros Hr Hb.
  destruct s as [|[b bs|op] s]; try (simpl in Hr; rewrite app_nil_r in Hr; lia).
  unfold fill. cbn zeta. cbn [socket buffer sticky until_error].
  set (room := buf_size - length buf). assert (0 < room) by (subst room; lia).
  pose proof (take_drop room (b :: bs)) as Ht. split_and!; [done| |..].
  - set (t := take room (b :: bs)) in *. rewrite app_comm_cons.
    destruct (drop room (b :: bs)); rewrite <- Ht; cbn [until_error]; rewrite ?app_nil_r, ?app_comm_cons; by rewrite <- ?app_assoc.
  - rewrite length_app, length_take. simpl. lia.
  - rewrite length_app, length_take. subst room. lia.
Qed.

Lemma fill_until_ready fuel n c :
  sticky c = None → length (buffer c) ≤ buf_size → n ≤ length (ready c) → n ≤ buf_size → n - length (buffer c) ≤ fuel →
  read_on n c (fill_until fuel n c).
Proof.
  revert c. induction fuel as [|fuel IH]; intros c Hs Hb Hr Hn Hf; [constructor; cbn [fill_until]; [done|done|lia|done]|].
  cbn [fill_until]. rewrite (bool_decide_eq_true_2 (sticky c = None)) by done. rewrite andb_true_r.
  destruct (decide (length (buffer c) < n)) as [Hlt|Hge].
  - rewrite !bool_decide_eq_true_2 by lia. destruct (fill_ready c) as (H1 & H2 & H3); [lia..|].
    cbn [andb]. destruct (IH (fill c)) as [? Hr' ? ?]; [done|lia|by rewrite H2|done|lia|]. constructor; try done. congruence.
  - rewrite (bool_decide_eq_false_2 (length (buffer c) < n)) by lia. cbn [andb]. constructor; [done|done|lia|done].
Qed.

Lemma Peek_ready n c :
  sticky c = None → length (buffer c) ≤ buf_size → (0 ≤ n ≤ len (ready c))%Z → (n ≤ Z.of_nat buf_size)%Z →
  ∃ c', Peek n c = (inr (take (Z.to_nat n) (ready c)), c') ∧ read_on (Z.to_nat n) c c'.
Proof.
  intros Hs Hb Hr Hn. unfold len in Hr. unfold Peek. rewrite Z.min_l by lia.
  destruct (fill_until_ready buf_size (Z.to_nat n) c) as [H1 H2 H3 H4]; [done|done|lia..|].
  set (c' := fill_until _ _ c) in *. rewrite (proj2 (Nat.ltb_ge _ _)) by lia. rewrite (proj2 (Nat.ltb_ge _ _)) by lia.
  exists c'. split; [|done]. rewrite <- H2. unfold ready. by rewrite take_app_le by lia.
Qed.

Lemma fill_until_grows fuel n c : length (buffer c) ≤ length (buffer (fill_until fuel n c)).
Proof.
  revert c. induction fuel as [|fuel IH]; intros c; [done|]. cbn [fill_until]. case_match; [|done].
  etrans; [|apply IH]. destruct c as [buf st [|[b bs|op] s] cl]; try done. cbn. rewrite length_app. lia.
Qed.

Lemma fill_until_S fuel n c :
  length (buffer c) < n → length (buffer c) < buf_size → sticky c = None → fill_until (S fuel) n c = fill_until fuel n (fill c).
Proof. intros. cbn [fill_until]. by rewrite !bool_decide_eq_true_2. Qed.

(** The first look: what one read brings is buffered. *)
Lemma Peek_first b bs s :
  let c := mkConn [] None (Data b bs :: s) false in
  ∃ c', Peek 1 c = (inr [b], c') ∧ read_on 1 c c' ∧ (length (b :: bs) `min` buf_size ≤ length (buffer c')).
Proof.
  intros c. destruct (Peek_ready 1 c) as (c' & Hp & Hro); [done|cbn [c buffer length]; lia| |pose proof buf_size_big; lia|].
  { unfold ready, len. cbn. lia. }
  exists c'. split_and!; [done|done|]. unfold Peek in Hp.
  replace (Z.to_nat (1 `min` Z.of_nat (S buf_size))) with 1 in Hp by (pose proof buf_size_big; lia).
  assert (c' = fill_until buf_size 1 c) as ->.
  { pose proof (fill_until_ready buf_size 1 c) as [? ? He ?]; [done|cbn [c buffer length]; lia| |pose proof buf_size_big; lia..|].
    - unfold ready. cbn. lia.
    - rewrite (proj2 (Nat.ltb_ge buf_size 1)) in Hp by (pose proof buf_size_big; lia). rewrite (proj2 (Nat.ltb_ge _ _)) in Hp by done. congruence. }
  destruct buf_size as [|fuel] eqn:Hb; [pose proof buf_size_big; lia|]. rewrite fill_until_S by (cbn [c buffer length]; pose proof buf_size_big; done || lia).
  etrans; [|apply fill_until_grows]. unfold c, fill. cbn zeta. cbn [buffer socket app length].
  rewrite Nat.sub_0_r. cbn [take length]. rewrite length_take, Hb. cbn [length]. lia.
Qed.

Lemma host_of_ok host : ParseAddr host = None → host_of (Ok host) = Some host.
Proof. unfold host_of. by intros ->. Qed.

(** The TLS sniffer on a client hello in any pieces. *)
Lemma sniffDomain_tls config order m now l h host rest b bs s :
  good_hello h → (len (record_bytes h) ≤ Z.of_nat buf_size)%Z → asked (ch_extensions h) = Some host →
  HasSuffix host "." = false → ParseAddr host = None → SupportPort (NewTLSSniffer config) (m_DstPort m) = true →
  b :: bs ++ until_error s = record_bytes h ++ rest → 5 ≤ length (b :: bs) →
  ∃ c', sniffDomain ((NewTLSSniffer config, config) :: order) m now (mkWorld (mkConn [] None (Data b bs :: s) false) l)
        = (inr host, mkWorld c' l).
Proof.
  intros Hh Hlen Hask Hdot Ha Hport Hin Hfive. cbn [sniffDomain conn skips].
  rewrite (bool_decide_eq_true_2 (supportNetworkType _ = TCP)) by done. rewrite Hport. cbn [andb].
  destruct (Peek_first b bs s) as (c1 & -> & [Hs1 Hr1 _ Hb1] & Hg). set (c0 := mkConn _ _ _ _) in *.
  assert (ready c0 = record_bytes h ++ rest) as Hr0 by (unfold c0, ready; cbn; done).
  assert (ready c1 = buffer c1 ++ until_error (socket c1)) as Hbuf by done.
  destruct (Peek_ready (Buffered c1) c1) as (c2 & -> & [Hs2 Hr2 _ Hb2]).
  { done. } { done. } { unfold Buffered, len. rewrite Hbuf, length_app. lia. } { unfold Buffered. lia. }
  unfold Buffered. rewrite Nat2Z.id. set (k := length (buffer c1)) in *.
  assert (5 ≤ k) by (pose proof buf_size_big; lia).
  assert (take k (ready c1) = take k (record_bytes h ++ rest)) as -> by (by rewrite Hr1, Hr0).
  assert (∀ q, host_of (SniffTLS (record_bytes h ++ q)) = Some host) as Hfound.
  { intros q. rewrite SniffTLS_hello, Hask by done. cbn [sni_result]. rewrite Hdot. by apply host_of_ok. }
  unfold sniff_one. change (SniffData (NewTLSSniffer config)) with SniffTLS.
  destruct (le_lt_dec (length (record_bytes h)) k) as [Hk|Hk].
  - rewrite take_app_ge by done. specialize (Hfound (take (k - length (record_bytes h)) rest)).
    destruct (SniffTLS _) as [|[]| |]; try done. rewrite Hfound. eauto.
  - rewrite take_app_le by lia. rewrite (SniffTLS_truncated h _ (drop k (record_bytes h))); [|done|apply take_drop|].
    2:{ intros Hd. apply (f_equal length) in Hd. rewrite length_drop in Hd. cbn [length] in Hd. lia. }
    rewrite (proj2 (Nat.ltb_ge _ _)) by (rewrite length_take; lia).
    destruct (Peek_ready (len (record_bytes h)) c2) as (c3 & -> & _); [done|done| |done|].
    { rewrite Hr2, Hr1, Hr0. unfold len. rewrite length_app. lia. }
    rewrite Hr2, Hr1, Hr0. unfold len. rewrite Nat2Z.id, take_app_length. rewrite <- (app_nil_r (record_bytes h)), Hfound. eauto.
Qed.

(** A TLS connection to a port that the TLS sniffer takes gets its server
    name, however the client hello is split over the reads of the socket, as long
    as the first read brings its first five bytes and the record fits in the
    buffer: the metadata get the host that the hello asks for. *)
Theorem tcp_sniff_tls (IsDomainName : string → bool) (sd : Dispatcher) (config : SnifferConfig) (now later : Z)
    (m : Metadata) (l : skip_list) (h : client_hello) (host : string) (rest : list Z) (b : Z) (bs : list Z) (s : list read_event)
    (Hh : good_hello h) (Hlen : (len (record_bytes h) ≤ Z.of_nat buf_size)%Z) (Hask : asked (ch_extensions h) = Some host)
    (Hdot : HasSuffix host "." = false) (Ha : ParseAddr host = None) (Hd : domainCanReplace IsDomainName sd host = true)
    (Hport : SupportPort (NewTLSSniffer config) (m_DstPort m) = true) (Hover : shouldOverride sd m = true)
    (Hskip : (default 0 (Get (AddrPort m) now l).1 ≤ 5)%Z)
    (Hin : b :: bs ++ until_error s = record_bytes h ++ rest) (Hfive : 5 ≤ length (b :: bs)) :
  let order := [(NewTLSSniffer config, config)] in
  ∃ w, TCPSniff IsDomainName sd order order now later m (mkWorld (mkConn [] None (Data b bs :: s) false) l)
       = (true, replaceDomain m host (OverrideDest config), w).
Proof.
  intros order. unfold TCPSniff. rewrite Hover. unfold order at 1. cbn [in_whitelist].
  rewrite (bool_decide_eq_true_2 (supportNetworkType _ = TCP)) by done. rewrite Hport. cbn [orb andb].
  destruct (Get (AddrPort m) now l) as [count l'] eqn:Hg. cbn [fst] in Hskip.
  assert (∃ n l1, (if forceSniff sd m then (None, l) else (count, l')) = (n, l1) ∧
    negb (forceSniff sd m) && (5 <? default 0 n)%Z = false) as (n & l1 & Hn & Hlow).
  { destruct (forceSniff sd m); [by exists None, l|]. exists count, l'. split; [done|]. cbn [negb andb]. apply Z.ltb_ge. lia. }
  cbn [skips conn]. rewrite Hg, Hn, Hlow.
  destruct (sniffDomain_tls config [] m later l1 h host rest b bs s) as (c' & Hs); try done.
  unfold order. rewrite Hs, Hd. eauto.
Qed.

(** ** Failures are counted *)

Definition failures (m : Metadata) (times : list Z) (l : skip_list) : skip_list :=
  foldl (λ l t, cacheSniffFailed m t l) l times.

(** Failures in a row: each within the ten minutes that a count is kept. *)
Fixpoint in_a_row (t : Z) (times : list Z) : Prop :=
  match times with [] => True | t' :: times' => (t ≤ t' < t + 600)%Z ∧ in_a_row t' times' end.

Definition skip_options : Options := opts (lc new_skip_list).

Definition counts (m : Metadata) (n : Z) (t : Z) (l : skip_list) : Prop :=
  ∃ a, refines l a ∧ opts (lc l) = skip_options ∧ afind (AddrPort m) (items a) = Some (mkEntry (AddrPort m) n (t + 600)).

Lemma bump_min n : (0 ≤ n ≤ 6)%Z → bump (Some n) = Some ((n + 1) `min` 6)%Z.
Proof.
  intros Hn. unfold bump. simpl. destruct (Z.leb_spec n 5) as [?|?]; f_equal; [|lia].
  rewrite (@wrap_id uint8) by (int_lia). lia.
Qed.

Lemma failed_counts m now l a old :
  refines l a → opts (lc l) = skip_options → evalue <$> (aget skip_options (AddrPort m) now a).1 = old →
  counts m (default 0%Z (bump old)) now (cacheSniffFailed m now l).
Proof.
  intros Hr Ho Hold. pose proof (lru_step_refines (OCompute (AddrPort m) bump) now l a Hr) as [_ Hc].
  pose proof (lru_step_opts (OCompute (AddrPort m) bump) now l) as Hco. rewrite Ho in *.
  unfold cacheSniffFailed. cbn [lru_step aspec] in Hc, Hco. destruct (Compute (AddrPort m) bump now l) as [r l'] eqn:He.
  cbn [snd] in *. destruct (aget skip_options (AddrPort m) now a) as [e a'] eqn:Hg. cbn [fst] in Hold. rewrite Hold in Hc.
  destruct (bump old) as [v|] eqn:Hb; [|by unfold bump in Hb]. cbn [snd default] in *. eexists. split; [exact Hc|].
  split; [done|]. apply aset_find. intros _. simpl. lia.
Qed.

Lemma counts_again m n t now l :
  (0 ≤ n ≤ 6)%Z → (t ≤ now < t + 600)%Z → counts m n t l → counts m ((n + 1) `min` 6) now (cacheSniffFailed m now l).
Proof.
  intros Hn Ht (a & Hr & Ho & Hf).
  pose proof (failed_counts m now l a (Some n) Hr Ho) as Hc. rewrite bump_min in Hc by done. apply Hc.
  unfold aget. rewrite Hf. cbn [eexpires]. rewrite (proj2 (Z.leb_gt _ _)) by lia. rewrite andb_false_r. done.
Qed.

Lemma counts_get m n t now l : (t ≤ now < t + 600)%Z → counts m n t l → (Get (AddrPort m) now l).1 = Some n.
Proof.
  intros Ht (a & Hr & Ho & Hf). destruct (lru_step_refines (OGet (AddrPort m)) now l a Hr) as [Hg _].
  cbn [lru_step aspec] in Hg. rewrite Ho in Hg. destruct (Get (AddrPort m) now l) as [v l'].
  unfold aget in Hg. rewrite Hf in Hg. cbn [eexpires] in Hg. rewrite (proj2 (Z.leb_gt _ _)) in Hg by lia.
  rewrite andb_false_r in Hg. simpl in *. by injection Hg.
Qed.

Lemma failures_count m times t n l :
  counts m n t l → (0 ≤ n ≤ 6)%Z → in_a_row t times →
  counts m ((n + Z.of_nat (length times)) `min` 6) (default t (list.last times)) (failures m times l).
Proof.
  revert t n l. induction times as [|t' times IH]; intros t n l Hc Hn Hrow.
  - cbn [length list.last default]. replace ((n + Z.of_nat 0) `min` 6)%Z with n by lia. exact Hc.
  - destruct Hrow as [Ht Hrow]. apply counts_again with (now := t') in Hc; [|done..].
    apply (IH t') in Hc; [|lia|done]. cbn [failures foldl length].
    replace ((n + Z.of_nat (S (length times))) `min` 6)%Z with (((n + 1) `min` 6 + Z.of_nat (length times)) `min` 6)%Z by lia.
    rewrite last_cons. destruct (list.last times); done.
Qed.

(** A destination that could not be sniffed is left alone after six failures in
    a row: the count of a destination that the cache does not hold is the number of
    its failures, it stops at six (so the byte never wraps around), and while it
    is six the next connection, unless the domain is forced, is not read at all
    and keeps its metadata. *)
Theorem skip_after_failures (IsDomainName : string → bool) (sd : Dispatcher) (order1 order2 : list (Sniffer * SnifferConfig))
    (m : Metadata) (first now later : Z) (times : list Z) (c : BufferedConn) (l : skip_list) (a : astate (Addr * Z) Z)
    (Hr : refines l a) (Ho : opts (lc l) = skip_options) (Hnew : afind (AddrPort m) (items a) = None)
    (Hrow : in_a_row first times) (Hnow : (default first (list.last times) ≤ now < default first (list.last times) + 600)%Z) :
  let l' := failures m (first :: times) l in
  let n := S (length times) in
  (Get (AddrPort m) now l').1 = Some (Z.of_nat (n `min` 6)) ∧
  (6 ≤ n → forceSniff sd m = false →
   ∃ l'', TCPSniff IsDomainName sd order1 order2 now later m (mkWorld c l') = (false, m, mkWorld c l'')).
Proof.
  intros l' n.
  assert (counts m 1 first (cacheSniffFailed m first l)) as H1.
  { apply (failed_counts m first l a None Hr Ho). unfold aget. by rewrite Hnew. }
  assert ((Get (AddrPort m) now l').1 = Some (Z.of_nat (n `min` 6))) as Hg.
  { pose proof (failures_count m times first 1 _ H1 ltac:(lia) Hrow) as Hc. apply (counts_get _ _ _ now) in Hc; [|done].
    change l' with (failures m times (cacheSniffFailed m first l)). rewrite Hc. f_equal. lia. }
  split; [done|]. intros Hn Hforce. unfold TCPSniff. destruct (shouldOverride sd m); [|by exists l'].
  destruct (in_whitelist order1 (m_DstPort m)) as [flag|]; [|by exists l'].
  rewrite Hforce. cbn [skips conn negb andb]. destruct (Get (AddrPort m) now l') as [count l'']. cbn [fst] in Hg. rewrite Hg.
  cbn [default]. rewrite (proj2 (Z.ltb_lt _ _)) by (simpl; lia). by exists l''.
Qed.

(** ** At work *)

Definition demo_sd : Dispatcher := mkDispatcher true [] [] [] [] false true.

Definition demo_conn_of (port : Z) : Metadata :=
  mkMetadata TCP SOCKS5 (Addr4 1) (Addr4 2) None None "" "" 1000 port NoAddr 7890 "" "" "" DNSNormal 0 "" "" "" "" "" 0 "".

Definition demo_tls : SnifferConfig := mkSnifferConfig true [].

Definition demo_hello_bytes : list Z := record_bytes demo_hello.

Lemma tcp_sniff_tls_witness :
  let order := [(NewTLSSniffer demo_tls, demo_tls)] in
  ∃ w, TCPSniff (λ _, true) demo_sd order order 0 0 (demo_conn_of 443)
         (mkWorld (mkConn [] None [Data 22 [3; 1; 0; 95; 7]%Z; Data 7 (drop 7 demo_hello_bytes)] false) new_skip_list)
       = (true, replaceDomain (demo_conn_of 443) "example.com" true, w).
Proof.
  eapply (tcp_sniff_tls (λ _, true) demo_sd demo_tls 0 0 (demo_conn_of 443) new_skip_list demo_hello "example.com" [] 22
    [3; 1; 0; 95; 7]%Z [Data 7 (drop 7 demo_hello_bytes)]).
  all: try (vm_compute; congruence).
  - exact demo_hello_good.
  - cbn. lia.
Defined.

Lemma skip_after_failures_witness :
  let l := failures (demo_conn_of 443) [1; 2; 3; 4; 5; 6; 7]%Z new_skip_list in
  (Get (AddrPort (demo_conn_of 443)) 8 l).1 = Some 6%Z ∧
  ∃ l', TCPSniff (λ _, true) demo_sd [] [] 8 9 (demo_conn_of 443) (mkWorld (mkConn [] None [] false) l)
        = (false, demo_conn_of 443, mkWorld (mkConn [] None [] false) l').
Proof.
  destruct (skip_after_failures (λ _, true) demo_sd [] [] (demo_conn_of 443) 1 8 9 [2; 3; 4; 5; 6; 7]%Z (mkConn [] None [] false)
    new_skip_list (mkA [] [])) as [H1 H2]; [|done|done|simpl; lia|simpl; lia|].
  - apply refines_new. apply empty_heap_fresh.
  - split; [exact H1|]. apply H2; [simpl; lia|done].
Defined.

(** A client hello of which the first read brings less than five bytes is not
    sniffed: only the error that says how much is missing has a second look. *)
Example short_first_read :
  let order := [(NewTLSSniffer demo_tls, demo_tls)] in
  (TCPSniff (λ _, true) demo_sd order order 0 0 (demo_conn_of 443)
     (mkWorld (mkConn [] None [Data 22 [3; 1]%Z; Data 0 (drop 4 demo_hello_bytes)] false) new_skip_list)).1.1 = false.
Proof. vm_compute. reflexivity. Qed.

(** The destination is replaced or not after the sniffer that comes first, not
    after the one that finds the host: two orders of one map, two results. *)
Example override_by_order :
  let tls := mkSnifferConfig true [mkRange 80 443] in
  let http := mkSnifferConfig false [] in
  let order1 := [(NewTLSSniffer tls, tls); (NewHTTPSniffer http, http)] in
  let order2 := [(NewHTTPSniffer http, http); (NewTLSSniffer tls, tls)] in
  let request := map byte_of (http_text ["GET / HTTP/1.1"; "Host: example.com"]%string) in
  let w := mkWorld (mkConn [] None [Data 71 (drop 1 request)] false) new_skip_list in
  (TCPSniff (λ _, true) demo_sd order1 order1 0 0 (demo_conn_of 80) w).1 = (true, replaceDomain (demo_conn_of 80) "example.com" true) ∧
  (TCPSniff (λ _, true) demo_sd order2 order2 0 0 (demo_conn_of 80) w).1 = (true, replaceDomain (demo_conn_of 80) "example.com" false).
Proof. vm_compute. done. Qed.
