(* ===== verification/TcpConn.v ===== *)
(** * TCP connections: [handleTCPConn] of [tunnel/tunnel.go]

    The handler of a TCP connection from the inbound to the relay: the checks
    and the preparation of the metadata (Tunnel.v), sniffing (Dispatcher.v), the
    rules, the hosts table once more, the dial with its retries, and the bytes
    that are given to an outbound together with its handshake.  The outside world
    is a record of answers, one per attempt where the code tries again; the
    client's connection is the buffered connection of the dispatcher. *)

From Stdlib Require Import ZArith Lia Ascii String.
From stdpp Require Import prelude strings gmap list.
From S2P Require Import Prelude Ranges Netip Lru FakeIP DomainTrie Metadata Hosts Rules Tunnel Wire Sniffer Dispatcher.

(** The answers: the times of the sniffer's two looks at the clock and the orders
    of its loops; the random index of the second draw from the hosts table; for
    each attempt whether the dial succeeds, to a connection that still needs its
    handshake or not, whether writing the peeked bytes fails, whether the
    connection is one of the REJECT outbound, and whether waiting goes well. *)
Record tcp_env := mkTcp {
  e_now : Z;
  e_later : Z;
  e_order1 : list (Sniffer * SnifferConfig);
  e_order2 : list (Sniffer * SnifferConfig);
  e_rand : nat → nat;
  DialContext : Proxy → Metadata → nat → bool + dial_error;
  e_write : nat → option dial_error;
  e_reject : nat → bool;
  e_wait : nat → bool
}.

(** How it ends.  [Relayed]: what was dialled, the bytes written with the
    handshake, whether the remote connection was already closed, and the client's
    connection as the relay gets it. *)
Inductive tcp_end :=
  | Refused | Invalid | GaveUp | NoProxy | NotDialled
  | Relayed (proxy : Proxy) (dialMetadata : Metadata) (peekBytes : list Z) (dead : bool) (c : BufferedConn).

(** [Discard(n)] of bytes that are buffered. *)
Definition Discard (n : nat) (c : BufferedConn) : BufferedConn :=
  mkConn (drop n (buffer c)) (sticky c) (socket c) (closed c).

(** Whether [TCPSniff] looks into the connection: what [Peeked] says after it. *)
Definition sniff_peeks (sd : Dispatcher) (e : tcp_env) (m : Metadata) (l : skip_list) : bool :=
  shouldOverride sd m && bool_decide (in_whitelist (e_order1 e) (m_DstPort m) ≠ None) &&
  (forceSniff sd m || (default 0 (Get (AddrPort m) (e_now e) l).1 <=? 5)%Z) &&
  existsb (λ sc, bool_decide (supportNetworkType sc.1 = TCP) && SupportPort sc.1 (m_DstPort m)) (e_order2 e).

Definition with_rand (f : nat → nat) (T : Tunnel) : Tunnel :=
  mkTunnel (t_status T) (t_mode T) (findProcessMode T) (proxies T) (t_env T) (DefaultHosts T) (system_hosts T) (CMFA T)
    (resolver_ResolveIP T) (FindProcessName T) (FindPackageName T) f.

Section Tcp.
Context {H : Type} `{HostMapper H}.
Context (T : Tunnel) (fuel : nat) (IsDomainName : string → bool).

(** The sniffing, when it is on: whether a domain was found, the metadata, and
    whether the connection was peeked at. *)
Definition sniff_conn (sd : option Dispatcher) (e : tcp_env) (m : Metadata) (w : world) : bool * Metadata * world * bool :=
  match sd with
  | Some sd =>
    if enable sd then
      (TCPSniff IsDomainName sd (e_order1 e) (e_order2 e) (e_now e) (e_later e) m w, sniff_peeks sd e m (skips w))
    else (false, m, w, false)
  | None => (false, m, w, false)
  end.

(** The metadata to dial with: an address of the hosts table, if the host has
    one, is drawn again. *)
Definition dial_metadata (e : tcp_env) (m : Metadata) (o : option H) : outcome Metadata :=
  if bool_decide (Host m = "") then Done m
  else
    match hosts_search T fuel (Host m) false with
    | Panic => Panic
    | OutOfFuel => OutOfFuel
    | Done (_, false) => Done m
    | Done (None, true) => Panic
    | Done (Some node, true) =>
      match rand_ip (with_rand (e_rand e) T) node with
      | Done dstIp =>
        if resolver_IsFakeIP dstIp o then Done m
        else Done (Pure (set_DNSMode DNSHosts (set_DstIP dstIp m)))
      | _ => Panic
      end
    end.

(** One attempt of the dial: the bytes that went out with the handshake. *)
Definition attempt (e : tcp_env) (proxy : Proxy) (dialMetadata : Metadata) (c : BufferedConn) (i : nat)
    : (list Z * bool) + dial_error :=
  match DialContext e proxy dialMetadata i with
  | inr err => inr err
  | inl false => inl ([], false)
  | inl true =>
    let peekBytes := match (Peek (Buffered c) c).1 with inr bytes => bytes | inl _ => [] end in
    match e_write e i with
    | Some err => if e_reject e i then inl ([], true) else inr err
    | None => inl (peekBytes, false)
    end
  end.

(** [handleTCPConn]; [sd] is the dispatcher when sniffing is enabled.  The
    connection is closed at the end in every case. *)
Definition handleTCPConn (sd : option Dispatcher) (e : tcp_env) (now : Z) (rules : list AnyRule)
    (m : Metadata) (w : world) (o : option H) : outcome (tcp_end * list AnyRule * skip_list * option H) :=
  if negb (isHandle T (m_Type m)) then Done (Refused, rules, skips w, o)
  else if negb (Valid m) then Done (Invalid, rules, skips w, o)
  else
    match preHandleMetadata T fuel (fixMetadata m) o with
    | Panic => Panic
    | OutOfFuel => OutOfFuel
    | Done (preHandleFailed, m, o) =>
      let '(sniffed, m, w, peeked) := sniff_conn sd e m w in
      if preHandleFailed && negb sniffed then Done (GaveUp, rules, skips w, o)
      else
        let c := if peeked then conn w else (Peek 1 (conn w)).2 in
        match resolveMetadata T fuel now rules m with
        | Panic => Panic
        | OutOfFuel => OutOfFuel
        | Done (true, _, _, rules, _) => Done (NoProxy, rules, skips w, o)
        | Done (false, None, _, _, _) => Panic
        | Done (false, Some proxy, _, rules, st) =>
          match dial_metadata e (md st) o with
          | Panic => Panic
          | OutOfFuel => OutOfFuel
          | Done dialMetadata =>
            match (retry (attempt e proxy dialMetadata c) (e_wait e)).1 with
            | Some (inl (peekBytes, dead)) =>
              Done (Relayed proxy dialMetadata peekBytes dead (Discard (length peekBytes) c), rules, skips w, o)
            | _ => Done (NotDialled, rules, skips w, o)
            end
          end
        end
    end.

(** ** Lemmas *)

Set Default Proof Using "Type*".

#[local] Opaque buf_size.

Lemma Peek_buffered c : length (buffer c) ≤ buf_size → Peek (Buffered c) c = (inr (buffer c), c).
Proof.
  intros Hb. unfold Peek, Buffered. rewrite Z.min_l by lia. rewrite Nat2Z.id.
  assert (fill_until buf_size (length (buffer c)) c = c) as ->.
  { destruct buf_size; [done|]. cbn [fill_until]. by rewrite (bool_decide_eq_false_2 (length (buffer c) < length (buffer c))) by lia. }
  rewrite (proj2 (Nat.ltb_ge _ _)) by done. rewrite (proj2 (Nat.ltb_ge _ _)) by lia. by rewrite take_ge.
Qed.

Lemma fill_bound c : length (buffer c) ≤ buf_size → length (buffer (fill c)) ≤ buf_size.
Proof.
  destruct c as [buf st [|[b bs|op] s] cl]; try done. intros Hb. cbn [buffer] in Hb. unfold fill. cbn zeta. cbn [socket buffer].
  rewrite length_app, length_take. lia.
Qed.

Lemma fill_until_bound n k c : length (buffer c) ≤ buf_size → length (buffer (fill_until n k c)) ≤ buf_size.
Proof.
  revert c. induction n as [|n IH]; intros c Hb; [done|]. cbn [fill_until]. case_match; [|done]. by apply IH, fill_bound.
Qed.

Lemma Peek_bound n c : length (buffer c) ≤ buf_size → length (buffer (Peek n c).2) ≤ buf_size.
Proof.
  intros Hb. unfold Peek. pose proof (fill_until_bound buf_size (Z.to_nat (n `min` Z.of_nat (S buf_size))) c Hb) as Hf.
  revert Hf. generalize (fill_until buf_size (Z.to_nat (n `min` Z.of_nat (S buf_size))) c). intros c' Hf.
  destruct (buf_size <? _)%nat; [done|]. destruct (length (buffer c') <? _)%nat; [|done]. by destruct (sticky c').
Qed.

Lemma sniff_one_bound s bytes c : length (buffer c) ≤ buf_size → length (buffer (sniff_one s bytes c).2) ≤ buf_size.
Proof.
  intros Hb. unfold sniff_one. destruct (SniffData s bytes) as [|[]| |]; try done.
  pose proof (Peek_bound length c Hb). by destruct (Peek length c) as [[] ?].
Qed.

Lemma sniffDomain_bound order m now w :
  length (buffer (conn w)) ≤ buf_size → length (buffer (conn (sniffDomain order m now w).2)) ≤ buf_size.
Proof.
  revert w. induction order as [|[s cfg] order IH]; intros w Hb; [done|]. cbn [sniffDomain]. case_match; [|by apply IH].
  pose proof (Peek_bound 1 (conn w) Hb) as Hp1. destruct (Peek 1 (conn w)) as [[[[]|]|] c]; try done. simpl in Hp1.
  pose proof (Peek_bound (Buffered c) c Hp1) as Hp2. destruct (Peek (Buffered c) c) as [[|bytes] c']; simpl in Hp2; [by apply IH|].
  pose proof (sniff_one_bound s bytes c' Hp2) as Hp3. destruct (sniff_one s bytes c') as [[|] c'']; simpl in *; [done|by apply IH].
Qed.

(** Sniffing takes nothing out of the connection and keeps its buffer in bounds. *)
Lemma TCPSniff_conn sd order1 order2 now later m w :
  length (buffer (conn w)) ≤ buf_size →
  let w' := (TCPSniff IsDomainName sd order1 order2 now later m w).2 in
  pending (conn w') = pending (conn w) ∧ length (buffer (conn w')) ≤ buf_size.
Proof.
  intros Hb w'. subst w'. unfold TCPSniff. destruct (shouldOverride sd m); [|done].
  destruct (in_whitelist order1 _); [|done]. destruct (if forceSniff sd m then _ else _) as [count l].
  destruct (negb _ && _); [done|]. pose proof (sniffDomain_pending order2 m later (mkWorld (conn w) l)) as Hp.
  pose proof (sniffDomain_bound order2 m later (mkWorld (conn w) l) Hb) as Hl.
  destruct (sniffDomain order2 m later _) as [[e|host] w1]; simpl in *; case_match; done.
Qed.

Lemma sniff_conn_conn sd e m w b m' w' peeked :
  length (buffer (conn w)) ≤ buf_size → sniff_conn sd e m w = (b, m', w', peeked) →
  pending (conn w') = pending (conn w) ∧ length (buffer (conn w')) ≤ buf_size.
Proof.
  intros Hb. unfold sniff_conn. destruct sd as [sd|]; [|by intros [= <- <- <- <-]].
  destruct (enable sd); [|by intros [= <- <- <- <-]].
  pose proof (TCPSniff_conn sd (e_order1 e) (e_order2 e) (e_now e) (e_later e) m w Hb) as Hc. cbn zeta in Hc.
  destruct (TCPSniff _ _ _ _ _ _ _ _) as [[b1 m1] w1]. by intros [= <- <- <- <-].
Qed.

Lemma retry_last {A} (ft : nat → A + dial_error) wait a :
  (retry ft wait).1 = Some (inl a) → ∃ k, k < 10 ∧ ft k = inl a.
Proof.
  unfold retry. destruct (retry_loop 10 0 ft wait None) as [r k] eqn:Hr. simpl. intros ->.
  apply retry_loop_spec in Hr as [Hk [(_ & Hn & _)|(Hi & [= Hf] & _)]]; [done|]. exists (k - 1). split; [lia|done].
Qed.

Lemma attempt_bytes e proxy dm c i bytes dead :
  length (buffer c) ≤ buf_size → attempt e proxy dm c i = inl (bytes, dead) →
  bytes ++ pending (Discard (length bytes) c) = pending c ∧
  ((DialContext e proxy dm i = inl false ∧ bytes = [] ∧ dead = false) ∨
   (DialContext e proxy dm i = inl true ∧ e_write e i = None ∧ bytes = buffer c ∧ dead = false) ∨
   (DialContext e proxy dm i = inl true ∧ e_write e i ≠ None ∧ e_reject e i = true ∧ bytes = [] ∧ dead = true)).
Proof.
  intros Hb. unfold attempt. destruct (DialContext e proxy dm i) as [[]|err]; [| |done].
  - rewrite Peek_buffered by done. cbn [fst]. destruct (e_write e i) as [err|].
    + destruct (e_reject e i); [|done]. intros [= <- <-]. split; [by destruct c|]. right; right. done.
    + intros [= <- <-]. split; [|by right; left]. unfold pending, Discard. cbn [buffer socket]. by rewrite drop_all.
  - intros [= <- <-]. split; [by destruct c|by left].
Qed.

Lemma sniff_conn_ports sd e m w b m' w' peeked :
  sniff_conn sd e m w = (b, m', w', peeked) → m_DstPort m' = m_DstPort m ∧ m_NetWork m' = m_NetWork m.
Proof.
  unfold sniff_conn. destruct sd as [sd|]; [|by intros [= <- <- <- <-]]. destruct (enable sd); [|by intros [= <- <- <- <-]].
  unfold TCPSniff. destruct (shouldOverride sd m); [|by intros [= <- <- <- <-]].
  destruct (in_whitelist (e_order1 e) _) as [flag|]; [|by intros [= <- <- <- <-]].
  destruct (if forceSniff sd m then _ else _) as [count l]. destruct (negb _ && _); [by intros [= <- <- <- <-]|].
  destruct (sniffDomain _ _ _ _) as [[err|host] w1]; [by intros [= <- <- <- <-]|].
  destruct (domainCanReplace _ _ _); intros [= <- <- <- <-]; [|done]. by destruct flag.
Qed.

Lemma fixMetadata_ports m : m_DstPort (fixMetadata m) = m_DstPort m ∧ m_NetWork (fixMetadata m) = m_NetWork m.
Proof. unfold fixMetadata. by case_match. Qed.

Lemma dial_metadata_ports e m o m' : dial_metadata e m o = Done m' → m_DstPort m' = m_DstPort m ∧ m_NetWork m' = m_NetWork m.
Proof.
  unfold dial_metadata. case_bool_decide; [by intros [= <-]|].
  destruct (hosts_search T fuel (Host m) false) as [[[node|] []]| |]; try done; try by intros [= <-].
  destruct (rand_ip _ node) as [ip| |]; [|done..]. destruct (resolver_IsFakeIP ip o); intros [= <-]; [done|].
  destruct (Pure_ports (set_DNSMode DNSHosts (set_DstIP ip m))) as [-> ->]. done.
Qed.

(** C12: a connection that is relayed is relayed whole and once: the bytes that
    were written with the outbound's handshake and the bytes the relay still
    reads are, in this order, the bytes the client sent, whatever was peeked at
    and however many dials failed; the tunnel was taking such connections, one of
    at most ten dials went to the outbound that the rules chose for the prepared
    and sniffed metadata, for the port and network asked for; a connection whose
    preparation failed was sniffed; and only a connection of REJECT is handed over dead. *)
Theorem tcp_relayed_whole sd e now rules m w (o : option H) proxy dm bytes dead rest rules' l' o' :
  length (buffer (conn w)) ≤ buf_size →
  handleTCPConn sd e now rules m w o = Done (Relayed proxy dm bytes dead rest, rules', l', o') →
  bytes ++ pending rest = pending (conn w) ∧
  isHandle T (m_Type m) = true ∧ Valid m = true ∧
  (∃ i, i < 10 ∧ ∃ early, DialContext e proxy dm i = inl early ∧
    (dead = true → early = true ∧ e_write e i ≠ None ∧ e_reject e i = true)) ∧
  (∃ failed m0 sniffed m1 w1 peeked rule st,
    preHandleMetadata T fuel (fixMetadata m) o = Done (failed, m0, o') ∧
    sniff_conn sd e m0 w = (sniffed, m1, w1, peeked) ∧ (failed = true → sniffed = true) ∧
    resolveMetadata T fuel now rules m1 = Done (false, Some proxy, rule, rules', st) ∧
    dial_metadata e (md st) o' = Done dm) ∧
  m_DstPort dm = m_DstPort m ∧ m_NetWork dm = m_NetWork m.
Proof.
  intros Hb. unfold handleTCPConn. destruct (isHandle T _); [simpl|done]. destruct (Valid m); [simpl|done].
  destruct (preHandleMetadata T fuel (fixMetadata m) o) as [[[failed m1] o1]| |] eqn:Hpre; [|done..].
  destruct (sniff_conn sd e m1 w) as [[[sniffed m2] w2] peeked] eqn:Hsn. destruct (failed && negb sniffed) eqn:Hfs; [done|].
  destruct (resolveMetadata T fuel now rules m2) as [[[[[[] [p|]] rule] rl] st]| |] eqn:Hres; try done.
  destruct (dial_metadata e (md st) o1) as [dm1| |] eqn:Hdm; [|done..].
  set (c := if peeked then conn w2 else _).
  destruct (retry (attempt e p dm1 c) (e_wait e)).1 as [[[bs dd]|]|] eqn:Hret; [|done..].
  intros [= -> -> -> -> <- -> <- ->]. destruct (sniff_conn_conn _ _ _ _ _ _ _ _ Hb Hsn) as [Hp Hb2].
  assert (pending c = pending (conn w) ∧ length (buffer c) ≤ buf_size) as [Hpc Hbc].
  { subst c. destruct peeked; [done|]. rewrite Peek_pending. split; [done|]. by apply Peek_bound. }
  apply retry_last in Hret as (i & Hi & Hat). apply attempt_bytes in Hat as [Hbytes Hcases]; [|done].
  split; [congruence|]. split; [done|]. split; [done|]. split.
  { exists i. split; [done|]. destruct Hcases as [(H1 & _ & ->)|[(H1 & _ & _ & ->)|(H1 & Hw & Hr & _ & ->)]]; eexists; (split; [exact H1|]); done. }
  split.
  { exists failed, m1, sniffed, m2, w2, peeked, rule, st. split_and!; try done. intros ->. by destruct sniffed. }
  apply dial_metadata_ports in Hdm as [-> ->]. apply resolve_metadata_request in Hres as ((-> & _) & (_ & ->) & _).
  apply sniff_conn_ports in Hsn as [-> ->]. apply preHandle_ports in Hpre as [-> ->]. apply fixMetadata_ports.
Qed.

(** C13: a TLS connection to a fake address whose record is lost is not given
    up, when the sniffer may help: sniffing is on and overrides the destination,
    the TLS sniffer is the only one and takes the port, the destination is one
    to sniff and was not given up on more than five times, the client hello
    fits the buffer and names a host that may replace the destination, and the
    first read brings at least five bytes of it.  Then it is routed by that
    name, in whatever pieces the rest arrives, with no destination address
    left. *)
Theorem stale_fake_ip_sniffed (sd : Dispatcher) (config : SnifferConfig) (e : tcp_env) (now : Z) (rules : list AnyRule)
    (m : Metadata) (l : skip_list) (o : option H) (h : client_hello) (host : string) (rest : list Z) (b : Z) (bs : list Z)
    (s : list read_event) (m1 : Metadata) (o1 : option H)
    (Hhello : good_hello h) (Hlen : (len (record_bytes h) ≤ Z.of_nat buf_size)%Z) (Hask : asked (ch_extensions h) = Some host)
    (Hdot : HasSuffix host "." = false) (Haddr : ParseAddr host = None) (Hcan : domainCanReplace IsDomainName sd host = true)
    (Hport : SupportPort (NewTLSSniffer config) (m_DstPort m) = true) (Hover : shouldOverride sd m1 = true)
    (Hskip : (default 0 (Get (AddrPort m1) (e_now e) l).1 ≤ 5)%Z)
    (Hin : b :: bs ++ until_error s = record_bytes h ++ rest) (Hfive : 5 ≤ length (b :: bs))
    (Horder : e_order1 e = [(NewTLSSniffer config, config)] ∧ e_order2 e = [(NewTLSSniffer config, config)])
    (Hon : enable sd = true) (Hrep : OverrideDest config = true)
    (Hhandle : isHandle T (m_Type m) = true) (Hvalid : Valid m = true)
    (Hlost : preHandleMetadata T fuel (fixMetadata m) o = Done (true, m1, o1)) :
  let m2 := replaceDomain m1 host true in
  ∃ c l', handleTCPConn (Some sd) e now rules m (mkWorld (mkConn [] None (Data b bs :: s) false) l) o =
    match resolveMetadata T fuel now rules m2 with
    | Panic => Panic
    | OutOfFuel => OutOfFuel
    | Done (true, _, _, rules, _) => Done (NoProxy, rules, l', o1)
    | Done (false, None, _, _, _) => Panic
    | Done (false, Some proxy, _, rules, st) =>
      match dial_metadata e (md st) o1 with
      | Panic => Panic
      | OutOfFuel => OutOfFuel
      | Done dm =>
        match (retry (attempt e proxy dm c) (e_wait e)).1 with
        | Some (inl (bytes, dead)) => Done (Relayed proxy dm bytes dead (Discard (length bytes) c), rules, l', o1)
        | _ => Done (NotDialled, rules, l', o1)
        end
      end
    end ∧ Host m2 = host ∧ SniffHost m2 = host ∧ DstIP m2 = NoAddr.
Proof.
  intros m2. destruct Horder as [Ho1 Ho2].
  assert (Hport1 : SupportPort (NewTLSSniffer config) (m_DstPort m1) = true).
  { apply preHandle_ports in Hlost as [-> _]. destruct (fixMetadata_ports m) as [-> _]. done. }
  unfold handleTCPConn. rewrite Hhandle, Hvalid, Hlost. cbn [negb]. unfold sniff_conn. rewrite Hon.
  unfold TCPSniff. rewrite Hover, Ho1, Ho2. cbn [in_whitelist].
  rewrite (bool_decide_eq_true_2 (supportNetworkType _ = TCP)) by done. rewrite Hport1. cbn [orb andb].
  destruct (Get (AddrPort m1) (e_now e) l) as [count l0] eqn:Hg. cbn [fst] in Hskip.
  assert (∃ n l1, (if forceSniff sd m1 then (None, l) else (count, l0)) = (n, l1) ∧
    negb (forceSniff sd m1) && (5 <? default 0 n)%Z = false) as (n & l1 & Hn & Hlow).
  { destruct (forceSniff sd m1); [by exists None, l|]. exists count, l0. split; [done|]. cbn [negb andb]. apply Z.ltb_ge. lia. }
  cbn [skips conn]. rewrite Hg, Hn, Hlow.
  destruct (sniffDomain_tls config [] m1 (e_later e) l1 h host rest b bs s) as (c & Hs); try done.
  rewrite Hs, Hcan, Hrep. cbn [negb andb].
  assert (Hpk : sniff_peeks sd e m1 l = true).
  { unfold sniff_peeks. rewrite Hover, Ho1, Ho2. cbn [in_whitelist existsb fst].
    rewrite (bool_decide_eq_true_2 (supportNetworkType _ = TCP)) by done. rewrite Hport1. cbn [orb andb].
    rewrite bool_decide_eq_true_2 by done. rewrite Hg. cbn [fst]. rewrite (proj2 (Z.leb_le _ _)) by done. by rewrite orb_true_r. }
  rewrite Hpk. cbn [conn skips]. exists c, (Delete (AddrPort m1) l1). split; [reflexivity|]. done.
Qed.

End Tcp.

(** ** At work *)

(** The first dial fails, the second gives a connection that wants its handshake
    together with the first bytes. *)
Definition demo_tcp (order : list (Sniffer * SnifferConfig)) (rand : nat → nat) : tcp_env :=
  mkTcp 0 0 order order rand (λ _ _ i, if (i =? 0)%nat then inr ErrOther else inl true) (λ _, None) (λ _, false) (λ _, true).

Definition no_mapper : option (Enhancer memoryStore) := None.

Definition demo_client : world := mkWorld (mkConn [] None [Data 1 [2; 3]%Z; Data 4 []] false) new_skip_list.

(** What a relayed connection went to, and the bytes of its handshake. *)
Definition relayed_parts {X Y W} (r : outcome (tcp_end * X * Y * W)) : option (string * Addr * list Z) :=
  match r with
  | Done (Relayed proxy dm bytes _ _, _, _, _) => Some (proxy_name proxy, DstIP dm, bytes)
  | _ => None
  end.

Definition demo_result := handleTCPConn demo_tunnel 5 (λ _, true) None (demo_tcp [] id) 0 demo_rules (demo_conn TCP) demo_client no_mapper.

Lemma demo_relayed : relayed_parts demo_result = Some ("PROXY"%string, Addr4 167772161, [1; 2; 3]%Z).
Proof. vm_compute. reflexivity. Qed.

Lemma tcp_relayed_whole_witness :
  ∃ proxy dm bytes dead rest rules' l' o',
    demo_result = Done (Relayed proxy dm bytes dead rest, rules', l', o') ∧
    bytes ++ pending rest = pending (conn demo_client) ∧ bytes = [1; 2; 3]%Z ∧ proxy_name proxy = "PROXY"%string.
Proof.
  pose proof demo_relayed as Hc.
  destruct demo_result as [[[[[| | | | |proxy dm bytes dead rest] rl] l'] o']| |] eqn:Hr; try discriminate Hc.
  injection Hc as Hn _ Hb. exists proxy, dm, bytes, dead, rest, rl, l', o'.
  split; [reflexivity|]. split; [|split; [exact Hb|exact Hn]].
  refine (proj1 (tcp_relayed_whole demo_tunnel 5 (λ _, true) None (demo_tcp [] id) 0 demo_rules (demo_conn TCP) demo_client no_mapper
    _ _ _ _ _ _ _ _ _ Hr)). apply Nat.le_0_l.
Defined.

(** A pool in fake-ip mode that has handed out nothing. *)
Definition lost_pool : option (Enhancer memoryStore) :=
  (λ p, mkEnhancer DNSFakeIP (Some p) None None) <$> NewPool demo_last demo_net (newMemoryStore 100).

Definition stale_conn : Metadata := set_DstIP (Addr4 3323068420) (demo_conn_of 443).

Definition hello_client : world :=
  mkWorld (mkConn [] None [Data 22 [3; 1; 0; 95; 7]%Z; Data 7 (drop 7 demo_hello_bytes)] false) new_skip_list.

Definition demo_order (config : SnifferConfig) : list (Sniffer * SnifferConfig) := [(NewTLSSniffer config, config)].

Lemma stale_fake_ip_sniffed_witness :
  ∃ o1, preHandleMetadata demo_tunnel 5 (fixMetadata stale_conn) lost_pool = Done (true, stale_conn, o1) ∧
  Host (replaceDomain stale_conn "example.com" true) = "example.com"%string ∧
  ∃ c l', handleTCPConn demo_tunnel 5 (λ _, true) (Some demo_sd) (demo_tcp (demo_order demo_tls) id) 0 demo_rules stale_conn
      hello_client lost_pool =
    match resolveMetadata demo_tunnel 5 0 demo_rules (replaceDomain stale_conn "example.com" true) with
    | Done (false, Some proxy, _, rules, st) =>
      match dial_metadata demo_tunnel 5 (demo_tcp (demo_order demo_tls) id) (md st) o1 with
      | Done dm =>
        match (retry (attempt (demo_tcp (demo_order demo_tls) id) proxy dm c) (λ _, true)).1 with
        | Some (inl (bytes, dead)) => Done (Relayed proxy dm bytes dead (Discard (length bytes) c), rules, l', o1)
        | _ => Done (NotDialled, rules, l', o1)
        end
      | Panic => Panic
      | OutOfFuel => OutOfFuel
      end
    | Done (true, _, _, rules, _) => Done (NoProxy, rules, l', o1)
    | Done (false, None, _, _, _) => Panic
    | Panic => Panic
    | OutOfFuel => OutOfFuel
    end.
Proof.
  destruct (preHandleMetadata demo_tunnel 5 (fixMetadata stale_conn) lost_pool) as [[[f m1] o1]| |] eqn:Hp;
    [|vm_compute in Hp; discriminate..].
  assert (match preHandleMetadata demo_tunnel 5 (fixMetadata stale_conn) lost_pool with
    | Done (f, m, _) => (f, m) | _ => (false, stale_conn) end = (true, stale_conn)) as Hc by (vm_compute; reflexivity).
  rewrite Hp in Hc. injection Hc as -> ->. exists o1. split; [reflexivity|]. split; [reflexivity|].
  destruct (stale_fake_ip_sniffed demo_tunnel 5 (λ _, true) demo_sd demo_tls (demo_tcp (demo_order demo_tls) id) 0 demo_rules
    stale_conn new_skip_list lost_pool demo_hello "example.com" [] 22 [3; 1; 0; 95; 7]%Z [Data 7 (drop 7 demo_hello_bytes)] stale_conn o1)
    as (c & l' & He & _); [exact demo_hello_good|try (vm_compute; congruence)..|exact Hp|].
  - cbn. lia.
  - split; reflexivity.
  - exists c, l'. exact He.
Defined.

(** With sniffing that does not replace the destination such a connection is not
    given up either, but it has no name and goes to the fake address itself. *)
Example stale_fake_ip_dialled :
  let config := mkSnifferConfig false [] in
  match handleTCPConn demo_tunnel 5 (λ _, true) (Some demo_sd) (demo_tcp (demo_order config) id) 0 demo_rules stale_conn
      hello_client lost_pool with
  | Done (Relayed proxy dm _ _ _, _, _, o') =>
    proxy_name proxy = "DIRECT"%string ∧ Host dm = ""%string ∧ DstIP dm = DstIP stale_conn ∧
    resolver_IsFakeIP (DstIP dm) o' = true
  | _ => False
  end.
Proof. vm_compute. auto. Qed.

(** A host with two addresses in the hosts table is drawn for the rules and drawn
    again for the dial: the rule for the one address sends it to PROXY, which
    dials the other, that the rules would have sent to DIRECT. *)
Example hosts_drawn_twice :
  let table := default newNode (Insert "two.example" (mkHostValue false [Addr4 167772161; Addr4 151587081] "") newNode) in
  let T := mkTunnel Running RuleMode FindProcessOff demo_proxies (demo_env ∅ ∅) table None false (λ _, None)
    (λ _ _ _, None) (λ _, None) (λ _, 0) in
  let outcome_of first second :=
    fst <$> relayed_parts (handleTCPConn (with_rand (λ _, first) T) 5 (λ _, true) None (demo_tcp [] (λ _, second)) 0 demo_rules
        (set_Host "two.example" (demo_conn TCP)) demo_client no_mapper) in
  outcome_of 0 0 = Some ("PROXY"%string, Addr4 167772161) ∧ outcome_of 1 1 = Some ("DIRECT"%string, Addr4 151587081) ∧
  outcome_of 0 1 = Some ("PROXY"%string, Addr4 151587081).
Proof. vm_compute. auto. Qed.
