(* ===== verification/Dns.v ===== *)
(** * Resolving names: [dns/resolver.go], [dns/policy.go] and [dns/util.go]

    A resolver answers a query from its cache or asks name servers: those of the
    first policy that takes the domain, else the main servers, with the answers
    of the main servers thrown away for those of the fallback servers when they
    hold an address of a filter.  Queries go to all servers of a group at once
    and the first good answer wins: the order of the answers is an argument.
    The message type is the data of the library miekg/dns; what its functions
    and those of samber/lo promise is the class [Library].  Messages are values:
    the code copies them whenever they enter or leave the cache. *)

From Stdlib Require Import ZArith Lia Ascii String.
From stdpp Require Import prelude list gmap strings.
From S2P Require Import Prelude Netip Lru Wire DomainTrie.

(** ** Messages *)

Inductive Rdata := RA (ip : list Z) | RAAAA (ip : list Z) | RCNAME (target : string) | ROther.

Record RR := mkRR { rr_Name : string; Rrtype : Z; rr_Class : Z; Ttl : Z; rdata : Rdata }.

Record Question := mkQuestion { q_Name : string; Qtype : Z; Qclass : Z }.

Record Msg := mkMsg {
  Id : Z;
  Response : bool;
  Authoritative : bool;
  RecursionAvailable : bool;
  Rcode : Z;
  Questions : list Question;
  Answer : list RR;
  Ns : list RR;
  Extra : list RR
}.

(** Numbers of the protocol. *)
Definition TypeA : Z := 1.

Definition TypeCNAME : Z := 5.

Definition TypeTXT : Z := 16.

Definition TypeAAAA : Z := 28.

Definition TypeOPT : Z := 41.

Definition TypeSVCB : Z := 64.

Definition TypeHTTPS : Z := 65.

Definition ClassINET : Z := 1.

Definition RcodeSuccess : Z := 0.

Definition RcodeServerFailure : Z := 2.

Definition RcodeRefused : Z := 5.

(** Field updates. *)
Definition with_sections (answer ns extra : list RR) (m : Msg) : Msg :=
  mkMsg (Id m) (Response m) (Authoritative m) (RecursionAvailable m) (Rcode m) (Questions m) answer ns extra.

Definition with_flags (aa ra : bool) (m : Msg) : Msg :=
  mkMsg (Id m) (Response m) aa ra (Rcode m) (Questions m) (Answer m) (Ns m) (Extra m).

Definition with_rcode (response : bool) (rcode : Z) (m : Msg) : Msg :=
  mkMsg (Id m) response (Authoritative m) (RecursionAvailable m) rcode (Questions m) (Answer m) (Ns m) (Extra m).

Definition with_header (id : Z) (qs : list Question) (m : Msg) : Msg :=
  mkMsg id (Response m) (Authoritative m) (RecursionAvailable m) (Rcode m) qs (Answer m) (Ns m) (Extra m).

Definition with_ttl (ttl : Z) (r : RR) : RR := mkRR (rr_Name r) (Rrtype r) (rr_Class r) ttl (rdata r).

Definition empty_msg : Msg := mkMsg 0 false false false 0 [] [] [] [].

(** What the two libraries promise, as far as it is used: the text of a question
    tells questions apart; [SetRcode] makes a reply of the message, with its
    sections; [MinBy] is the first record with the least TTL; [Clamp] keeps a
    number within bounds. *)
Class Library := {
  QString : Question → string;
  Fqdn : string → string;
  SetQuestion : string → Z → Msg;
  SetRcode : Msg → Msg → Z → Msg;
  MinBy : list RR → option RR;
  Clamp : Z → Z → Z → Z;
  QString_inj q q' : QString q = QString q' → q = q';
  SetQuestion_spec n t :
    Questions (SetQuestion n t) = [mkQuestion n t ClassINET] ∧ Answer (SetQuestion n t) = [];
  SetRcode_spec m r code :
    let m' := SetRcode m r code in
    Rcode m' = code ∧ Id m' = Id r ∧ Questions m' = take 1 (Questions r) ∧ Response m' = true ∧
    Answer m' = Answer m ∧ Ns m' = Ns m ∧ Extra m' = Extra m;
  MinBy_spec l :
    match MinBy l with Some r => r ∈ l ∧ Forall (λ r', Ttl r ≤ Ttl r')%Z l | None => l = [] end;
  Clamp_spec v lo hi : (lo ≤ hi)%Z → Clamp v lo hi = Z.max lo (Z.min v hi)
}.

Section Messages.
Context `{Library}.

Definition isIPRequest (q : Question) : bool :=
  (Qclass q =? ClassINET)%Z && ((Qtype q =? TypeA)%Z || (Qtype q =? TypeAAAA)%Z || (Qtype q =? TypeCNAME)%Z).

Definition msgToDomain (m : Msg) : string :=
  match Questions m with q :: _ => TrimRight_dots (q_Name q) | [] => "" end.

(** The address of a record, before the test that it is valid. *)
Definition record_ip (r : RR) : option Addr :=
  match rdata r with
  | RA ip | RAAAA ip => let a := AddrFromSlice ip in if IsValid a then Some a else None
  | _ => None
  end.

Definition msgToIP (m : Msg) : list Addr := omap (λ r, Unmap <$> record_ip r) (Answer m).

Definition handleMsgWithEmptyAnswer (r : Msg) : Msg := with_flags true true (SetRcode empty_msg r RcodeSuccess).

(** ** Times to live, in uint32 *)

Definition minimalTTL (records : list RR) : Z := match MinBy records with Some r => Ttl r | None => 0 end.

Definition updateTTL (records : list RR) (ttl : Z) : list RR :=
  match records with
  | [] => []
  | _ =>
    let delta := @wrap uint32 (minimalTTL records - ttl) in
    map (λ r, with_ttl (Clamp (@wrap uint32 (Ttl r - delta)) 1 (Ttl r)) r) records
  end.

Definition setMsgTTL (ttl : Z) (m : Msg) : Msg :=
  with_sections (map (with_ttl ttl) (Answer m)) (map (with_ttl ttl) (Ns m))
    (map (λ r, if (Rrtype r =? TypeOPT)%Z then r else with_ttl ttl r) (Extra m)) m.

Definition updateMsgTTL (ttl : Z) (m : Msg) : Msg :=
  with_sections (updateTTL (Answer m) ttl) (updateTTL (Ns m) ttl) (updateTTL (Extra m) ttl) m.

End Messages.

(** ** The cache *)

(** A cache of the resolver.  Expiry times are in seconds. *)
Class DnsCache (C : Type) := {
  cache_GetWithExpire : string → C → option (Msg * Z) * C;
  cache_SetWithExpire : string → Msg → Z → C → C;
  cache_Clear : C → C
}.

(** The promise: a message that is found is the last one set for the key. *)
Class DnsCacheLaws (C : Type) `{DnsCache C} := {
  cache_inv : C → Prop;
  cached : C → string → option (Msg * Z);
  law_get c k : cache_inv c →
    (cache_GetWithExpire k c).1 = cached c k ∧ cache_inv (cache_GetWithExpire k c).2 ∧
    ∀ k' x, cached (cache_GetWithExpire k c).2 k' = Some x → cached c k' = Some x;
  law_set c k m e : cache_inv c →
    cache_inv (cache_SetWithExpire k m e c) ∧ cached (cache_SetWithExpire k m e c) k = Some (m, e) ∧
    ∀ k' x, k' ≠ k → cached (cache_SetWithExpire k m e c) k' = Some x → cached c k' = Some x;
  law_clear c : cache_inv c → cache_inv (cache_Clear c) ∧ ∀ k, cached (cache_Clear c) k = None
}.

Definition serverFailureCacheTTL : Z := 5.

Definition giga : Z := 1000000000.

Section Cache.
Context `{Library} {C : Type} `{DnsCache C}.

Definition getMsgFromCache (q : Question) (c : C) : option (Msg * Z) * C := cache_GetWithExpire (QString q) c.

(** What is stored of a message: everything but the OPT records. *)
Definition cacheable (m : Msg) : Msg :=
  with_sections (Answer m) (Ns m) (filter (λ r, Rrtype r ≠ TypeOPT) (Extra m)) m.

Definition cache_ttl (m : Msg) : Z :=
  if (Rcode m =? RcodeServerFailure)%Z then serverFailureCacheTTL
  else minimalTTL (Answer m ++ Ns m ++ Extra m).

(** [now] is in nanoseconds, the cache keeps the second. *)
Definition putMsgToCache (now : Z) (q : Question) (msg : Msg) (c : C) : C :=
  if (Qtype q =? TypeTXT)%Z && HasPrefix (q_Name q) "_acme-challenge." then c
  else
    let msg := cacheable msg in
    let ttl := cache_ttl msg in
    if (ttl =? 0)%Z then c
    else cache_SetWithExpire (QString q) msg ((now + ttl * giga) / giga) c.

End Cache.

(** ** Name servers *)

(** An rcode server answers by itself, any other one from the network. *)
Record dnsClient := mkClient { c_rcode : option Z; c_answer : Msg → option Msg }.

Record Resolver := mkResolver {
  main : list dnsClient;
  fallback : list dnsClient;
  fallbackDomainFilters : list (string → bool);
  fallbackIPFilters : list (Addr → bool);
  policies : list (Node (list dnsClient) + (string → bool) * list dnsClient)
}.

(** ** Policies *)

(** [dnsPolicy.Match]; an empty list is no match. *)
Definition policy_Match (p : Node (list dnsClient) + (string → bool) * list dnsClient) (domain : string) : list dnsClient :=
  match p with
  | inl t => default [] (Search domain t ≫= payload)
  | inr (matcher, dnsClients) => if matcher domain then dnsClients else []
  end.

(** A policy of the configuration, its servers made into clients. *)
Record Policy := mkPolicy { p_Domain : string; Matcher : option (string → bool); NameServers : list dnsClient }.

(** The closure [insertPolicy], on the trie being filled and the policies made. *)
Definition close_trie (triePolicy : option (Node (list dnsClient)))
    (done : list (Node (list dnsClient) + (string → bool) * list dnsClient))
    : list (Node (list dnsClient) + (string → bool) * list dnsClient) :=
  match triePolicy with Some t => done ++ [inl (Optimize t)] | None => done end.

Fixpoint make_policies (ps : list Policy) (triePolicy : option (Node (list dnsClient)))
    (done : list (Node (list dnsClient) + (string → bool) * list dnsClient))
    : list (Node (list dnsClient) + (string → bool) * list dnsClient) :=
  match ps with
  | [] => close_trie triePolicy done
  | p :: ps' =>
    match Matcher p with
    | Some f => make_policies ps' None (close_trie triePolicy done ++ [inr (f, NameServers p)])
    | None =>
      let t := default newNode triePolicy in
      make_policies ps' (Some (default t (Insert (p_Domain p) (NameServers p) t))) done
    end
  end.

Definition makePolicy (ps : list Policy) : list (Node (list dnsClient) + (string → bool) * list dnsClient) :=
  make_policies ps None [].

(** ** Exchanges *)

Section Exchange.
Context `{Library}.
(** The order in which the servers of a group answer. *)
Context (race : list dnsClient → list dnsClient).

(** A server's answer that counts. *)
Definition good_answer (m : Msg) (c : dnsClient) : option Msg :=
  r ← c_answer c m;
  if (Rcode r =? RcodeServerFailure)%Z || (Rcode r =? RcodeRefused)%Z then None else Some r.

(** The first rcode server of the list, whatever comes before it. *)
Definition first_rcode (clients : list dnsClient) : option Z := head (omap c_rcode clients).

(** The answer, and whether it may be cached. *)
Definition batchExchange (clients : list dnsClient) (m : Msg) : option Msg * bool :=
  match first_rcode clients with
  | Some rcode => (Some (with_rcode true rcode m), false)
  | None => (head (omap (good_answer m) (race clients)), true)
  end.

Definition matchPolicy (r : Resolver) (m : Msg) : list dnsClient :=
  let domain := msgToDomain m in
  if bool_decide (domain = ""%string) then []
  else default [] (List.find (λ cs, negb (bool_decide (length cs = 0))) (map (λ p, policy_Match p domain) (policies r))).

Definition shouldOnlyQueryFallback (r : Resolver) (m : Msg) : bool :=
  match fallback r, fallbackDomainFilters r with
  | [], _ | _, [] => false
  | _, filters =>
    let domain := msgToDomain m in
    if bool_decide (domain = ""%string) then false else existsb (λ f, f domain) filters
  end.

Definition shouldIPFallback (r : Resolver) (ip : Addr) : bool := existsb (λ f, f ip) (fallbackIPFilters r).

Definition ipExchange (r : Resolver) (m : Msg) : option Msg :=
  match matchPolicy r m with
  | (_ :: _) as matched => (batchExchange matched m).1
  | [] =>
    if shouldOnlyQueryFallback r m then (batchExchange (fallback r) m).1
    else
      let res := (batchExchange (main r) m).1 in
      match fallback r with
      | [] => res
      | _ =>
        match res with
        | Some a =>
          match msgToIP a with
          | [] => (batchExchange (fallback r) m).1
          | ips =>
            if forallb (λ ip, negb (shouldIPFallback r ip)) ips then Some a
            else (batchExchange (fallback r) m).1
          end
        | None => (batchExchange (fallback r) m).1
        end
      end
  end.

(** One run of [fn] in [exchangeWithoutCache]: the answer, and whether it is
    cached. *)
Definition exchange_once (r : Resolver) (m : Msg) (q : Question) : option Msg * bool :=
  if isIPRequest q then (ipExchange r m, true)
  else match matchPolicy r m with
       | (_ :: _) as matched => batchExchange matched m
       | [] => batchExchange (main r) m
       end.

Context {C : Type} `{DnsCache C}.

(** [exchangeWithoutCache] of a caller that does not give up; callers that share
    a flight are the single-flight model. *)
Definition exchangeWithoutCache (r : Resolver) (now : Z) (m : Msg) (q : Question) (c : C) : option Msg * C :=
  let '(res, cache) := exchange_once r m q in
  match res with
  | Some msg => (Some msg, if cache then putMsgToCache now q msg c else c)
  | None => (None, c)
  end.

(** The answer, and whether the code goes on fetching in the background.  [None]
    is an error. *)
Definition ExchangeContext (r : Resolver) (now : Z) (m : Msg) (c : C) : option Msg * bool * C :=
  match Questions m with
  | [] => (None, false, c)
  | q :: _ =>
    match getMsgFromCache q c with
    | (Some (msg, expireTime), c) =>
      if (expireTime * giga <? now)%Z then (Some (setMsgTTL 1 msg), true, c)
      else (Some (updateMsgTTL ((expireTime * giga - now) / giga) msg), false, c)
    | (None, c) => let '(res, c) := exchangeWithoutCache r now m q c in (res, false, c)
    end
  end.

(** The background fetch. *)
Definition background (r : Resolver) (now : Z) (m : Msg) (c : C) : C :=
  match Questions m with [] => c | q :: _ => (exchangeWithoutCache r now m q c).2 end.

Inductive lookup_error := ErrIPVersion | ErrIPNotFound | ErrExchange.

Definition lookupIP (r : Resolver) (now : Z) (host : string) (dnsType : Z) (c : C)
    : (lookup_error + list Addr) * bool * C :=
  match ParseAddr host with
  | Some ip =>
    let ip := Unmap ip in
    if (dnsType =? TypeAAAA)%Z && negb (Is4 ip) then (inr [ip], false, c)
    else if (dnsType =? TypeA)%Z && Is4 ip then (inr [ip], false, c)
    else (inl ErrIPVersion, false, c)
  | None =>
    let '(res, more, c) := ExchangeContext r now (SetQuestion (Fqdn host) dnsType) c in
    match res with
    | None => (inl ErrExchange, more, c)
    | Some msg => (match msgToIP msg with [] => inl ErrIPNotFound | ips => inr ips end, more, c)
    end
  end.

Definition LookupIPv4 (r : Resolver) (now : Z) (host : string) (c : C) := lookupIP r now host TypeA c.

Definition LookupIPv6 (r : Resolver) (now : Z) (host : string) (c : C) := lookupIP r now host TypeAAAA c.

End Exchange.

(** ** Lemmas *)

Set Default Proof Using "Type*".

(** *** The LRU cache as the cache of the resolver *)

(** [newCache] with the default algorithm; stale entries are returned, so the
    cache never reads the clock. *)
Definition newCache (size : Z) : lstate string Msg :=
  New (mkHeap ∅ 0) [WithSize (if (size =? 0)%Z then 4096%Z else size); WithStale true].

Section LruCache.
Implicit Types st : lstate string Msg.

#[global] Instance lru_dns_cache : DnsCache (lstate string Msg) := {|
  cache_GetWithExpire k st := GetWithExpire k 0 st;
  cache_SetWithExpire k m e st := SetWithExpire k m e 0 st;
  cache_Clear st := Clear st
|}.

Definition stale_options (o : Options) : Prop := staleReturn o = true ∧ maxAge o = 0%Z.

Definition lru_inv st : Prop := (∃ a, refines st a) ∧ stale_options (opts (lc st)).

Definition lru_cached st k : option (Msg * Z) :=
  p ← cache (lc st) !! k; (λ e, (evalue e, eexpires e)) <$> cells (hp st) !! p.

Lemma lru_cached_afind st a k : refines st a → lru_cached st k = (λ e, (evalue e, eexpires e)) <$> afind k (items a).
Proof.
  intros Hr. pose proof (refines_lookup st a k Hr) as Hk. unfold lru_cached.
  destruct (cache (lc st) !! k) as [p|]; simpl; [|by rewrite Hk]. destruct Hk as (_ & e & He & _ & Hf). by rewrite He, Hf.
Qed.

Lemma stale_ages o : stale_options o → ages o = false.
Proof. unfold ages. by intros [-> _]. Qed.

Lemma stale_refresh o now (e : entry string Msg) : stale_options o → arefresh o now e = e.
Proof. unfold arefresh. by intros [_ ->]. Qed.

Lemma afind_adel_ne (k k' : string) (l : list (entry string Msg)) : k' ≠ k → afind k' (adel k l) = afind k' l.
Proof.
  intros Hk. induction l as [|e l IH]; [done|]. unfold adel in *. rewrite filter_cons. case_decide as He; simpl; [by rewrite IH|].
  by rewrite decide_False by congruence.
Qed.

Lemma afind_back (k k' : string) (e : entry string Msg) l :
  ekey e = k → afind k l = Some e → afind k' (adel k l ++ [e]) = afind k' l.
Proof.
  intros He Hf. rewrite afind_app. destruct (decide (k' = k)) as [->|Hk].
  - rewrite afind_adel. simpl. by rewrite decide_True.
  - rewrite afind_adel_ne by done. destruct (afind k' l); [done|]. simpl. by rewrite decide_False by congruence.
Qed.

#[global] Instance lru_dns_cache_laws : DnsCacheLaws (lstate string Msg).
Proof.
  refine {| cache_inv := lru_inv; cached := lru_cached |}.
  - intros st k [[a Hr] Ho]. pose proof (stale_ages _ Ho) as Ha.
    destruct (lru_step_refines (OGetWithExpire k) 0 st a Hr) as [H1 H2].
    pose proof (lru_step_opts (OGetWithExpire k) 0 st) as H3. cbn [lru_step aspec cache_GetWithExpire lru_dns_cache] in *.
    destruct (GetWithExpire k 0 st) as [v st']. cbn [fst snd] in *.
    pose proof (lru_cached_afind st a k Hr) as Hk.
    assert ((aget (opts (lc st)) k 0 a).1 = afind k (items a) ∧
      ∀ k', afind k' (items (aget (opts (lc st)) k 0 a).2) = afind k' (items a)) as [Hg Hi].
    { unfold aget. destruct (afind k (items a)) as [e|] eqn:Hf; [|done]. rewrite Ha, stale_refresh by done. cbn [andb fst snd items].
      split; [done|]. intros k'. apply afind_back; [by apply afind_Some in Hf as [_ ?]|done]. }
    destruct (aget (opts (lc st)) k 0 a) as [e a']. cbn [fst snd] in *. subst e.
    split_and!; [|split; [by exists a'|by rewrite H3]|].
    + rewrite Hk. injection H1 as Hv He. destruct v as [[m x]|], (afind k (items a)); simpl in *; by simplify_eq.
    + intros k' x. rewrite (lru_cached_afind st' a') by done. by rewrite Hi, <- (lru_cached_afind st a).
  - intros st k m x [[a Hr] Ho]. pose proof (stale_ages _ Ho) as Ha.
    destruct (lru_step_refines (OSetWithExpire k m x) 0 st a Hr) as [_ H2].
    pose proof (lru_step_opts (OSetWithExpire k m x) 0 st) as H3. cbn [lru_step aspec cache_SetWithExpire lru_dns_cache snd] in *.
    split_and!; [split; [eauto|by rewrite H3]|..].
    + rewrite (lru_cached_afind _ _ k H2), aset_find; [done|]. by rewrite Ha.
    + intros k' y Hk. rewrite (lru_cached_afind _ _ k' H2), (lru_cached_afind st a) by done. unfold aset, aexpire. rewrite Ha.
      destruct (afind k (items a)) eqn:Hf; cbn [items].
      * rewrite afind_app, afind_adel_ne by done. destruct (afind k' (items a)); [done|]. simpl. by rewrite decide_False by congruence.
      * assert (afind k' (items a ++ [mkEntry k m x]) = afind k' (items a)) as Happ.
        { rewrite afind_app. destruct (afind k' (items a)); [done|]. simpl. by rewrite decide_False by congruence. }
        case_match; cbn [items]; [|by rewrite Happ]. rewrite <- Happ.
        pose proof (refines_keys_nodup _ _ Hr) as Hnd.
        destruct (items a ++ [mkEntry k m x]) as [|e0 l] eqn:Hl; [by destruct (items a)|]. cbn [items]. simpl.
        case_decide as He; [|done]. intros Hin. exfalso.
        assert (NoDup (map ekey (e0 :: l))) as Hnd'.
        { rewrite <- Hl, map_app. apply NoDup_app. split_and!; [done| |apply NoDup_singleton].
          intros k0 Hk0 ->%list_elem_of_singleton. apply list_elem_of_fmap in Hk0 as (e1 & Hk1 & He1).
          apply (proj1 (afind_None k (items a)) Hf e1 He1). done. }
        apply fmap_Some in Hin as (e1 & [He1 Hk1]%afind_Some & _). inversion Hnd' as [|? ? Hni _]. apply Hni.
        rewrite He, <- Hk1. by apply list_elem_of_fmap_2.
  - intros st [[a Hr] Ho]. split; [split; [eexists; exact (refines_clear st a Hr)|done]|]. intros k. unfold lru_cached. simpl. by rewrite lookup_empty.
Defined.

End LruCache.

(** *** Times to live *)

Section Ttl.
Context `{Library}.

Definition u32 (n : Z) : Prop := (0 ≤ n < 2 ^ 32)%Z.

(** [l'] is [l] with TTLs that [P] relates to the old ones. *)
Definition ttls (P : Z → Z → Prop) (l l' : list RR) : Prop :=
  Forall2 (λ r r', r' = with_ttl (Ttl r') r ∧ P (Ttl r) (Ttl r')) l l'.

Lemma ttls_map P f l : Forall (λ r, P (Ttl r) (f r)) l → ttls P l (map (λ r, with_ttl (f r) r) l).
Proof. induction 1; simpl; constructor; done. Qed.

Lemma minimalTTL_le l r : r ∈ l → (minimalTTL l ≤ Ttl r)%Z.
Proof.
  intros Hr. unfold minimalTTL. pose proof (MinBy_spec l) as Hm. destruct (MinBy l) as [r0|].
  - destruct Hm as [_ Hm]. rewrite Forall_forall in Hm. by apply Hm.
  - subst l. by apply not_elem_of_nil in Hr.
Qed.

Lemma minimalTTL_in l : l ≠ [] → ∃ r, r ∈ l ∧ minimalTTL l = Ttl r.
Proof.
  intros Hl. unfold minimalTTL. pose proof (MinBy_spec l) as Hm. destruct (MinBy l) as [r0|]; [|done].
  exists r0. by destruct Hm.
Qed.

(** What is left of the records of a section after the time that is over. *)
Lemma updateTTL_spec l rem :
  Forall (λ r, u32 (Ttl r)) l → (∀ r, r ∈ l → 1 ≤ Ttl r)%Z → (∀ r, r ∈ l → rem ≤ Ttl r)%Z → (0 ≤ rem)%Z →
  ttls (λ t t', t' = Z.max 1 (t - (minimalTTL l - rem)))%Z l (updateTTL l rem).
Proof.
  intros Hu H1 Hr H0. destruct (decide (l = [])) as [->|Hne]; [constructor|].
  assert (updateTTL l rem =
    map (λ r, with_ttl (Clamp (@wrap uint32 (Ttl r - @wrap uint32 (minimalTTL l - rem))) 1 (Ttl r)) r) l) as -> by (by destruct l).
  apply ttls_map. rewrite Forall_forall in Hu |- *. intros r Hin.
  destruct (minimalTTL_in l) as (r1 & Hr1 & Hm); [done|]. pose proof (minimalTTL_le l r Hin).
  pose proof (Hu r Hin). pose proof (Hu r1 Hr1). pose proof (Hr r1 Hr1). specialize (H1 r Hin). unfold u32 in *.
  rewrite (@wrap_id uint32 (minimalTTL l - rem)) by (int_lia). rewrite wrap_id by (int_lia).
  rewrite Clamp_spec by lia. lia.
Qed.

End Ttl.

(** *** Messages in the cache *)

Section Cached.
Context `{Library} {C : Type} `{DnsCacheLaws C}.
Context (race : list dnsClient → list dnsClient).

Lemma cached_hit r now m q qs (c : C) msg e :
  cache_inv c → Questions m = q :: qs → cached c (QString q) = Some (msg, e) →
  ∃ c', ExchangeContext race r now m c =
    (Some (if (e * giga <? now)%Z then setMsgTTL 1 msg else updateMsgTTL ((e * giga - now) / giga) msg),
     (e * giga <? now)%Z, c').
Proof.
  intros Hc Hq Hhit. unfold ExchangeContext, getMsgFromCache. rewrite Hq. destruct (law_get c (QString q) Hc) as (Hg & _).
  destruct (cache_GetWithExpire (QString q) c) as [o c']. simpl in Hg. rewrite Hg, Hhit. exists c'. by destruct (e * giga <? now)%Z.
Qed.

Lemma put_cached now q msg (c : C) :
  cache_inv c → ¬ (Qtype q = TypeTXT) → cache_ttl (cacheable msg) ≠ 0%Z →
  cache_inv (putMsgToCache now q msg c) ∧
  cached (putMsgToCache now q msg c) (QString q) = Some (cacheable msg, ((now + cache_ttl (cacheable msg) * giga) / giga)%Z).
Proof.
  intros Hc Hq Ht. unfold putMsgToCache. rewrite (proj2 (Z.eqb_neq _ _) Hq). cbn [andb].
  rewrite (proj2 (Z.eqb_neq _ _) Ht). by destruct (law_set c (QString q) (cacheable msg) ((now + cache_ttl (cacheable msg) * giga) / giga) Hc) as (? & ? & _).
Qed.

(** All the records of a message. *)
Definition sections (m : Msg) : list (list RR) := [Answer m; Ns m; Extra m].

End Cached.

(** What a message from the cache may still promise: at least a second, never
    more than the record had, and beyond that second never past its end. *)
Definition honest (elapsed t t' : Z) : Prop :=
  (1 ≤ t' ≤ t)%Z ∧ (t' = 1 ∨ elapsed + t' * giga ≤ t * giga)%Z.

Section CachedTtl.
Context `{Library}.

Lemma cacheable_no_opt m r : r ∈ Extra (cacheable m) → Rrtype r ≠ TypeOPT.
Proof. simpl. by intros [? _]%list_elem_of_filter. Qed.

(** The records that the cache keeps of a message. *)
Definition kept (m : Msg) : list RR := Answer m ++ Ns m ++ Extra (cacheable m).

Definition section_of (m : Msg) (i : nat) : list RR := match i with 0 => Answer m | 1 => Ns m | _ => Extra m end.

Lemma section_kept m i r : r ∈ section_of (cacheable m) i → r ∈ kept m.
Proof. unfold kept. rewrite !elem_of_app. destruct i as [|[|i]]; simpl; auto. Qed.

Lemma ttls_weaken (P Q : Z → Z → Prop) l l' :
  (∀ r t, r ∈ l → P (Ttl r) t → Q (Ttl r) t) → ttls P l l' → ttls Q l l'.
Proof.
  intros Himp Hl. unfold ttls in *. induction Hl as [|r r' l l' [Hr HP] Hl IH]; constructor.
  - split; [done|]. apply Himp; [apply list_elem_of_here|done].
  - apply IH. intros x t Hx. apply Himp. by apply list_elem_of_further.
Qed.

Lemma set_ttl_section m i : section_of (setMsgTTL 1 (cacheable m)) i = map (with_ttl 1) (section_of (cacheable m) i).
Proof.
  destruct i as [|[|i]]; try done. cbn [section_of setMsgTTL Extra with_sections]. apply map_ext_in. intros r Hr.
  apply list_elem_of_In, cacheable_no_opt in Hr. by rewrite (proj2 (Z.eqb_neq _ _) Hr).
Qed.

Lemma update_ttl_section ttl m i : section_of (updateMsgTTL ttl m) i = updateTTL (section_of m i) ttl.
Proof. by destruct i as [|[|i]]. Qed.

Lemma expire_bound now0 t : (giga * ((now0 + t * giga) / giga) ≤ now0 + t * giga)%Z.
Proof. apply Z.mul_div_le. done. Qed.

Lemma honest_sections now0 now msg i :
  Rcode msg ≠ RcodeServerFailure → Forall (λ r, u32 (Ttl r)) (kept msg) → cache_ttl (cacheable msg) ≠ 0%Z → (now0 ≤ now)%Z →
  let e := ((now0 + cache_ttl (cacheable msg) * giga) / giga)%Z in
  ttls (honest (now - now0)) (section_of (cacheable msg) i)
    (section_of (if (e * giga <? now)%Z then setMsgTTL 1 (cacheable msg) else updateMsgTTL ((e * giga - now) / giga) (cacheable msg)) i).
Proof.
  intros Hrc Hu Ht Hnow. assert (cache_ttl (cacheable msg) = minimalTTL (kept msg)) as Hct.
  { unfold cache_ttl. simpl Rcode. by rewrite (proj2 (Z.eqb_neq _ _) Hrc). }
  rewrite Hct in *. set (t := minimalTTL (kept msg)) in *. intros e.
  assert (∀ r, r ∈ section_of (cacheable msg) i → u32 (Ttl r) ∧ 1 ≤ t ≤ Ttl r)%Z as Hs.
  { intros r Hr. apply section_kept in Hr. rewrite Forall_forall in Hu. pose proof (minimalTTL_le (kept msg) r Hr) as Hle.
    destruct (minimalTTL_in (kept msg)) as (r0 & Hr0 & Hm); [intros He; rewrite He in Hr; by apply not_elem_of_nil in Hr|].
    pose proof (Hu r Hr). pose proof (Hu r0 Hr0). unfold u32 in *. fold t in Hm, Hle. lia. }
  pose proof (expire_bound now0 t) as Hex. fold e in Hex. unfold giga in *.
  destruct (Z.ltb_spec (e * 1000000000) now) as [Hlt|Hge].
  - rewrite set_ttl_section. apply ttls_map. apply Forall_forall. intros r Hr. destruct (Hs r Hr). unfold honest, u32, giga in *. lia.
  - rewrite update_ttl_section. set (rem := ((e * 1000000000 - now) / 1000000000)%Z).
    assert (rem * 1000000000 ≤ e * 1000000000 - now)%Z as Hrem by (rewrite Z.mul_comm; by apply Z.mul_div_le).
    assert (0 ≤ rem)%Z as H0 by (apply Z.div_pos; lia).
    eapply ttls_weaken; [|apply updateTTL_spec].
    + intros r t' Hr ->. destruct (Hs r Hr) as [? ?]. pose proof (minimalTTL_le _ r Hr).
      destruct (minimalTTL_in (section_of (cacheable msg) i)) as (r0 & Hr0 & Hm); [intros He; rewrite He in Hr; by apply not_elem_of_nil in Hr|].
      destruct (Hs r0 Hr0). unfold honest, u32, giga in *. clearbody rem t e. lia.
    + apply Forall_forall. intros r Hr. by apply Hs.
    + intros r Hr. destruct (Hs r Hr). lia.
    + intros r Hr. destruct (Hs r Hr). lia.
    + done.
Qed.

End CachedTtl.

(** C36: A message from the cache promises at most a second more than it should:
    when an answer that was stored, with TTLs above zero and neither a TXT answer
    nor a server failure, is asked for again, every record of every section comes
    back with its data and a TTL of at least one second, not above the original;
    a TTL of more than one second does not reach past the moment the original
    ends; and once the message is over, it is still answered, all its TTLs are
    one, and it is fetched again. *)
Theorem cached_ttl_honest `{Library} {C : Type} `{DnsCacheLaws C} (race : list dnsClient → list dnsClient) (r : Resolver)
    (now0 now : Z) (m msg : Msg) (q : Question) (qs : list Question) (c : C) :
  cache_inv c → Questions m = q :: qs → Qtype q ≠ TypeTXT → Rcode msg ≠ RcodeServerFailure →
  Forall (λ r, u32 (Ttl r)) (kept msg) → cache_ttl (cacheable msg) ≠ 0%Z → (now0 ≤ now)%Z →
  let e := ((now0 + cache_ttl (cacheable msg) * giga) / giga)%Z in
  ∃ msg' c', ExchangeContext race r now m (putMsgToCache now0 q msg c) = (Some msg', bool_decide (e * giga < now)%Z, c') ∧
    (∀ i, ttls (honest (now - now0)) (section_of (cacheable msg) i) (section_of msg' i)) ∧
    (e * giga < now → ∀ i, section_of msg' i = map (with_ttl 1) (section_of (cacheable msg) i))%Z.
Proof.
  intros Hc Hq Htxt Hrc Hu Ht Hnow e. destruct (put_cached now0 q msg c Hc Htxt Ht) as [Hc1 Hk].
  destruct (cached_hit race r now m q qs _ _ _ Hc1 Hq Hk) as (c' & He). fold e in He. eexists _, c'. split; [|split].
  - replace (bool_decide (e * giga < now)%Z) with (e * giga <? now)%Z; [exact He|].
    clear. generalize (e * giga)%Z. intros z. destruct (Z.ltb_spec z now); case_bool_decide; (done || lia).
  - intros i. by apply honest_sections.
  - intros Hlt i. fold e. rewrite (proj2 (Z.ltb_lt _ _)) by done. apply set_ttl_section.
Qed.

(** *** Policies *)

(** A policy of the configuration takes the domain. *)
Definition accepts (domain : string) (p : Policy) : Prop :=
  match Matcher p with Some f => f domain = true | None => pattern_matches (p_Domain p) domain end.

Definition pairs (run : list Policy) : list (string * list dnsClient) := map (λ p, (p_Domain p, NameServers p)) run.

(** What one policy of the resolver is made of: a matcher, or a run of domains
    that follow each other. *)
Inductive made_of : Node (list dnsClient) + (string → bool) * list dnsClient → list Policy → Prop :=
  | made_of_run run : Forall (λ p, Matcher p = None) run → made_of (inl (Optimize (build (pairs run)))) run
  | made_of_matcher p f : Matcher p = Some f → made_of (inr (f, NameServers p)) [p].

Definition trie_of (run : list Policy) : option (Node (list dnsClient)) :=
  match run with [] => None | _ => Some (build (pairs run)) end.

Lemma trie_of_snoc run p :
  Some (default (default newNode (trie_of run)) (Insert (p_Domain p) (NameServers p) (default newNode (trie_of run)))) = trie_of (run ++ [p]).
Proof.
  assert (default newNode (trie_of run) = build (pairs run)) as -> by (by destruct run).
  assert (trie_of (run ++ [p]) = Some (build (pairs (run ++ [p])))) as -> by (by destruct run).
  unfold pairs. rewrite map_app. unfold build. by rewrite foldl_app.
Qed.

Lemma close_trie_made run done :
  Forall (λ p, Matcher p = None) run →
  ∃ tail groups, close_trie (trie_of run) done = done ++ tail ∧ Forall2 made_of tail groups ∧ concat groups = run.
Proof.
  intros Hr. destruct run as [|p run'].
  - exists [], []. by rewrite app_nil_r.
  - exists [inl (Optimize (build (pairs (p :: run'))))], [p :: run']. split_and!; [done| |apply (app_nil_r (p :: run'))].
    constructor; [by constructor|constructor].
Qed.

Lemma make_policies_made ps run done :
  Forall (λ p, Matcher p = None) run →
  ∃ tail groups, make_policies ps (trie_of run) done = done ++ tail ∧ Forall2 made_of tail groups ∧ concat groups = run ++ ps.
Proof.
  revert run done. induction ps as [|p ps IH]; intros run done Hr; cbn [make_policies].
  - rewrite app_nil_r. by apply close_trie_made.
  - destruct (Matcher p) as [f|] eqn:Hm.
    + destruct (close_trie_made run done Hr) as (t1 & g1 & -> & Ht1 & Hg1).
      destruct (IH [] ((done ++ t1) ++ [inr (f, NameServers p)])) as (t2 & g2 & Hmk & Ht2 & Hg2); [done|].
      cbn [trie_of] in Hmk. rewrite Hmk. exists (t1 ++ inr (f, NameServers p) :: t2), (g1 ++ [p] :: g2). split_and!.
      * by rewrite <- !(assoc_L (++)).
      * apply Forall2_app; [done|]. constructor; [by constructor|done].
      * rewrite concat_app. simpl. by rewrite Hg1, Hg2.
    + rewrite trie_of_snoc. destruct (IH (run ++ [p]) done) as (tail & groups & -> & Ht & Hg).
      { apply Forall_app. by repeat constructor. }
      exists tail, groups. split_and!; [done|done|]. by rewrite Hg, <- (assoc_L (++)).
Qed.

(** A policy of the resolver answers for the policies it is made of. *)
Lemma made_of_Match pol group domain p0 rest :
  ValidAndSplitDomain domain = Some (p0 :: rest) → p0 ≠ ""%string → Forall (λ p, NameServers p ≠ []) group → made_of pol group →
  (policy_Match pol domain = [] → ∀ p, p ∈ group → ¬ accepts domain p) ∧
  (policy_Match pol domain ≠ [] → ∃ p, p ∈ group ∧ accepts domain p ∧ policy_Match pol domain = NameServers p).
Proof.
  intros Hv Hp0 Hne Hm. destruct Hm as [run Hrun|p f Hf]; cbn [policy_Match].
  - rewrite trie_optimize_search. rewrite Forall_forall in Hrun, Hne.
    destruct (Search domain (build (pairs run)) ≫= payload) as [cs|] eqn:Hs; cbn [default].
    + destruct (Search_describes _ _ _ _ _ Hv Hp0 Hs) as (path & Hst & Hd).
      destruct (stored_matches _ _ _ _ _ _ Hv Hst Hd) as (pat & Hin & Hpm).
      apply list_elem_of_fmap in Hin as (p & [= -> ->] & Hp). split.
      * intros Hcs. by destruct (Hne p Hp).
      * intros _. exists p. split_and!; [done| |done]. unfold accepts. by rewrite (Hrun p Hp).
    + split; [|done]. intros _ p Hp Hacc. unfold accepts in Hacc. rewrite (Hrun p Hp) in Hacc.
      assert (is_Some (Search domain (build (pairs run)))) as [n Hn].
      { apply (Search_matches _ _ _ _ Hv Hp0). exists (p_Domain p), (NameServers p). split; [|done].
        by apply (list_elem_of_fmap_2 (λ p, (p_Domain p, NameServers p))). }
      destruct (Search_payload domain p0 rest (build (pairs run)) Hv Hp0) as [He Hnone]. rewrite Hs in He. symmetry in He.
      apply Hnone in He. congruence.
  - destruct (f domain) eqn:Hd; split; try done.
    + intros Hcs. apply Forall_cons in Hne as [Hne _]. done.
    + intros _. exists p. split_and!; [apply list_elem_of_here| |done]. unfold accepts. by rewrite Hf.
    + intros _ p' ->%list_elem_of_singleton. unfold accepts. rewrite Hf, Hd. done.
Qed.

Lemma find_made pols groups domain p0 rest :
  ValidAndSplitDomain domain = Some (p0 :: rest) → p0 ≠ ""%string →
  Forall2 made_of pols groups → Forall (λ p, NameServers p ≠ []) (concat groups) →
  match List.find (λ cs, negb (bool_decide (length cs = 0))) (map (λ p, policy_Match p domain) pols) with
  | None => ∀ p, p ∈ concat groups → ¬ accepts domain p
  | Some cs => cs ≠ [] ∧ ∃ g1 pol group g2 p, groups = g1 ++ group :: g2 ∧ made_of pol group ∧
      (∀ p', p' ∈ concat g1 → ¬ accepts domain p') ∧ p ∈ group ∧ accepts domain p ∧ cs = NameServers p
  end.
Proof.
  intros Hv Hp0 Hm. induction Hm as [|pol group pols groups Hmade _ IH]; intros Hne; simpl in *; [by intros p ?%not_elem_of_nil|].
  apply Forall_app in Hne as [Hne1 Hne2]. specialize (IH Hne2). destruct (made_of_Match pol group domain p0 rest Hv Hp0 Hne1 Hmade) as [Hno Hyes].
  destruct (bool_decide (length (policy_Match pol domain) = 0)) eqn:Hl; simpl.
  - apply bool_decide_eq_true, nil_length_inv in Hl. specialize (Hno Hl). destruct (List.find _ _) as [cs|].
    + destruct IH as (Hcs & g1 & pol' & group' & g2 & p & -> & Hmade' & Hg1 & Hp & Hacc & Heq). split; [done|].
      exists (group :: g1), pol', group', g2, p. split_and!; [done|done| |done..]. intros p' [Hp'|Hp']%elem_of_app; auto.
    + intros p [Hp|Hp]%elem_of_app; auto.
  - apply bool_decide_eq_false in Hl. destruct Hyes as (p & Hp & Ha & Heq); [by intros Hn; rewrite Hn in Hl|].
    split; [by intros Hn; rewrite Hn in Hl|]. exists [], pol, group, groups, p. split_and!; [done|done| |done..].
    by intros p' ?%not_elem_of_nil.
Qed.

(** The servers that a policy gives a domain are those of the first entry of
    the configuration that takes it, where entries that are plain domains count
    together as long as no matcher stands between them (inside such a run the
    trie decides); no policy applies exactly when no entry takes the domain. *)
Theorem policy_choice `{Library} (ps : list Policy) (r : Resolver) (m : Msg) (p0 : string) (rest : list string) :
  policies r = makePolicy ps → Forall (λ p, NameServers p ≠ []) ps →
  ValidAndSplitDomain (msgToDomain m) = Some (p0 :: rest) → p0 ≠ ""%string →
  match matchPolicy r m with
  | [] => ∀ p, p ∈ ps → ¬ accepts (msgToDomain m) p
  | cs => ∃ before group after p, ps = before ++ group ++ after ∧ (∀ p', p' ∈ before → ¬ accepts (msgToDomain m) p') ∧
      p ∈ group ∧ accepts (msgToDomain m) p ∧ cs = NameServers p ∧ (group = [p] ∨ Forall (λ p, Matcher p = None) group)
  end.
Proof.
  intros Hr Hne Hv Hp0. destruct (make_policies_made ps [] [] (Forall_nil_2 _)) as (pols & groups & Hmk & Hmade & Hg).
  unfold matchPolicy. rewrite bool_decide_eq_false_2 by (intros He; rewrite He in Hv; vm_compute in Hv; congruence).
  change (policies r = [] ++ pols) in Hr || (unfold makePolicy in Hr; cbn [trie_of] in Hmk; rewrite Hmk in Hr).
  cbn [app] in *. rewrite Hr. subst ps. pose proof (find_made pols groups (msgToDomain m) p0 rest Hv Hp0 Hmade Hne) as Hf.
  destruct (List.find _ _) as [cs|]; cbn [default]; [|done]. destruct Hf as (Hcs & g1 & pol & group & g2 & p & -> & Hmo & Hb & Hp & Ha & ->).
  destruct (NameServers p) as [|c cs'] eqn:Hns; [done|]. exists (concat g1), group, (concat g2), p. split_and!; try done.
  - by rewrite concat_app.
  - destruct Hmo as [run Hrun|p' f Hf]; [by right|]. apply list_elem_of_singleton in Hp as ->. by left.
Qed.

(** *** Which servers are believed *)

(** [a] is an answer of the group [cs] to [m]. *)
Definition answered_by (cs : list dnsClient) (m a : Msg) : Prop :=
  match first_rcode cs with
  | Some rcode => a = with_rcode true rcode m
  | None => ∃ c, c ∈ cs ∧ good_answer m c = Some a
  end.

Section Race.
Context (race : list dnsClient → list dnsClient) (Hrace : ∀ cs, race cs ≡ₚ cs).

Lemma batchExchange_answer cs m a : (batchExchange race cs m).1 = Some a → answered_by cs m a.
Proof.
  unfold batchExchange, answered_by. destruct (first_rcode cs) as [rcode|]; cbn [fst]; [by intros [= <-]|].
  intros (c & Hc & Ha)%head_Some_elem_of%list_elem_of_omap. exists c. by rewrite <- Hrace.
Qed.

Lemma batchExchange_some cs m a : answered_by cs m a → is_Some (batchExchange race cs m).1.
Proof.
  unfold batchExchange, answered_by. destruct (first_rcode cs) as [rcode|]; cbn [fst]; [eauto|].
  intros (c & Hc & Ha). rewrite <- (Hrace cs) in Hc. destruct (omap (good_answer m) (race cs)) as [|x l] eqn:Ho; [|by eexists].
  assert (a ∈ omap (good_answer m) (race cs)) as Hin by (apply list_elem_of_omap; eauto). rewrite Ho in Hin.
  by apply not_elem_of_nil in Hin.
Qed.

End Race.

(** C35: Whose answer to an address query is believed: that of the policy's servers
    when a policy takes the domain; else, once fallback servers are configured,
    an answer that has no address, or one that a filter names, is never one of
    the main servers, and neither is any answer to a domain of the fallback
    filters.  When the group that has the last word has an answer, there is one. *)
Theorem poisoned_answers_dropped `{Library} (race : list dnsClient → list dnsClient) (r : Resolver) (m : Msg)
    (Hrace : ∀ cs, race cs ≡ₚ cs) :
  (∀ a, ipExchange race r m = Some a →
    match matchPolicy r m with
    | [] =>
      answered_by (fallback r) m a ∨
      answered_by (main r) m a ∧ shouldOnlyQueryFallback r m = false ∧
        (fallback r = [] ∨ msgToIP a ≠ [] ∧ ∀ ip, ip ∈ msgToIP a → shouldIPFallback r ip = false)
    | matched => answered_by matched m a
    end) ∧
  (∀ a, answered_by (match matchPolicy r m with
                     | [] => match fallback r with [] => main r | fb => fb end
                     | matched => matched end) m a →
    is_Some (ipExchange race r m)).
Proof.
  unfold ipExchange. destruct (matchPolicy r m) as [|c cs].
  2:{ split; intros a Ha; [by apply (batchExchange_answer race Hrace)|by apply (batchExchange_some race Hrace) with a]. }
  split.
  - intros a Ha. destruct (shouldOnlyQueryFallback r m) eqn:Ho; [left; by apply (batchExchange_answer race Hrace)|].
    destruct (fallback r) as [|f fb] eqn:Hfb.
    + right. split_and!; [by apply (batchExchange_answer race Hrace)|done|by left].
    + destruct (batchExchange race (main r) m).1 as [b|] eqn:Hm; [|left; by apply (batchExchange_answer race Hrace)].
      destruct (msgToIP b) as [|ip ips] eqn:Hip; [left; by apply (batchExchange_answer race Hrace)|].
      destruct (forallb (λ ip, negb (shouldIPFallback r ip)) (ip :: ips)) eqn:Hall; [|left; by apply (batchExchange_answer race Hrace)].
      injection Ha as <-. right. split_and!; [by apply (batchExchange_answer race Hrace)|done|]. right. rewrite Hip. split; [done|].
      intros ip' Hin. rewrite forallb_forall in Hall. apply negb_true_iff, Hall. by apply list_elem_of_In.
  - intros a Ha. destruct (fallback r) as [|f fb] eqn:Hfb.
    + assert (shouldOnlyQueryFallback r m = false) as Hof by (unfold shouldOnlyQueryFallback; by rewrite Hfb).
      rewrite Hof. apply (batchExchange_some race Hrace _ _ a); exact Ha.
    + assert (is_Some (batchExchange race (f :: fb) m).1) as Hs by (apply (batchExchange_some race Hrace _ _ a); exact Ha).
      repeat case_match; eauto.
Qed.

(** ** At work *)

(** A library that keeps the promises. *)
Fixpoint unary (n : nat) (l : list ascii) : list ascii :=
  match n with O => "b"%char :: l | S n' => "a"%char :: unary n' l end.

Lemma unary_inj n n' l l' : unary n l = unary n' l' → n = n' ∧ l = l'.
Proof.
  revert n'. induction n as [|n IH]; intros [|n'] H; simpl in H; try done.
  - by injection H as ->.
  - injection H as H. by destruct (IH n' H) as [-> ->].
Qed.

Definition question_text (q : Question) : string :=
  of_bytes (unary (Pos.to_nat (encode (Qtype q))) (unary (Pos.to_nat (encode (Qclass q))) (bytes (q_Name q)))).

Fixpoint min_by (l : list RR) : option RR :=
  match l with
  | [] => None
  | r :: l' => match min_by l' with Some r' => if (Ttl r' <? Ttl r)%Z then Some r' else Some r | None => Some r end
  end.

#[local] Instance demo_library : Library.
Proof.
  refine {|
    QString := question_text;
    Fqdn s := (s +:+ ".")%string;
    SetQuestion n t := with_header 0 [mkQuestion n t ClassINET] empty_msg;
    SetRcode m r code := with_rcode true code (with_header (Id r) (take 1 (Questions r)) m);
    MinBy := min_by;
    Clamp v lo hi := Z.max lo (Z.min v hi)
  |}.
  - intros [n t c] [n' t' c'] Hq. unfold question_text in Hq. simpl in Hq. apply (f_equal bytes) in Hq.
    rewrite !bytes_of_bytes in Hq. apply unary_inj in Hq as [Ht Hq]. apply unary_inj in Hq as [Hc Hn].
    apply Pos2Nat.inj, (inj encode) in Ht, Hc. apply bytes_inj in Hn. by subst.
  - done.
  - done.
  - intros l. induction l as [|r l IH]; simpl; [done|]. destruct (min_by l) as [r'|].
    + destruct IH as [Hin Hmin]. destruct (Z.ltb_spec (Ttl r') (Ttl r)).
      * split; [by apply list_elem_of_further|]. constructor; [lia|done].
      * split; [apply list_elem_of_here|]. constructor; [lia|]. eapply Forall_impl; [exact Hmin|]. simpl. lia.
    + subst l. split; [apply list_elem_of_here|]. by repeat constructor.
  - done.
Defined.

Definition demo_q : Question := mkQuestion "a.example." TypeA ClassINET.

Definition demo_msg (id : Z) (q : Question) (answer : list RR) : Msg :=
  mkMsg id false false false 0 [q] answer [mkRR "example." 2 1 3600 ROther] [mkRR "." TypeOPT 0 0 ROther].

Definition demo_query : Msg := mkMsg 7 false false false 0 [demo_q] [] [] [].

Definition demo_a (ip : list Z) (ttl : Z) : RR := mkRR "a.example." TypeA ClassINET ttl (RA ip).

Definition demo_answer : Msg := demo_msg 7 demo_q [demo_a [1; 2; 3; 4]%Z 60; demo_a [1; 2; 3; 5]%Z 300].

Definition demo_client (m : Msg) : dnsClient := mkClient None (λ _, Some m).

Definition demo_poison : Msg := demo_msg 7 demo_q [demo_a [127; 0; 0; 1]%Z 60].

Definition demo_resolver : Resolver :=
  mkResolver [demo_client demo_poison] [demo_client demo_answer] [] [IsLoopback]
    (makePolicy [mkPolicy "+.corp" None [demo_client demo_poison]; mkPolicy "" (Some (λ d, bool_decide (d = "x.y"%string))) [demo_client demo_answer]]).

Lemma newCache_inv size : cache_inv (newCache size).
Proof. split; [|done]. eexists. apply refines_new. apply empty_heap_fresh. Qed.

(** After 20.5 seconds the records of a minute and of five minutes have 39 and
    279 seconds left, and the record of an hour in the other section 39 too. *)
Lemma cached_ttl_honest_witness :
  ∃ msg' c', ExchangeContext (λ l, l) demo_resolver (100 * giga + 20500000000) demo_query
      (putMsgToCache (100 * giga) demo_q demo_answer (newCache 0)) = (Some msg', false, c') ∧
    (∀ i, ttls (honest 20500000000) (section_of (cacheable demo_answer) i) (section_of msg' i)) ∧
    map Ttl (Answer msg') = [39; 279]%Z ∧ map Ttl (Ns msg') = [39]%Z.
Proof.
  destruct (cached_ttl_honest (λ l, l) demo_resolver (100 * giga) (100 * giga + 20500000000) demo_query demo_answer demo_q []
    (newCache 0)) as (msg' & c' & He & Hh & _); [apply newCache_inv|done|done|done| |done|unfold giga; lia|].
  { repeat constructor; done. }
  exists msg', c'. split; [exact He|]. split; [exact Hh|]. apply (f_equal (λ x, (λ m, (map Ttl (Answer m), map Ttl (Ns m))) <$> x.1.1)) in He.
  assert (Some (map Ttl (Answer msg'), map Ttl (Ns msg')) = Some ([39; 279]%Z, [39]%Z)) as Heq.
  { etransitivity; [symmetry; exact He|]. vm_compute. reflexivity. }
  by injection Heq as -> ->.
Defined.

Lemma policy_choice_witness :
  ∃ before group after p, [mkPolicy "+.corp" None [demo_client demo_poison]; mkPolicy "" (Some (λ d, bool_decide (d = "x.y"%string))) [demo_client demo_answer]]
      = before ++ group ++ after ∧ p ∈ group ∧ accepts "www.corp" p ∧
    matchPolicy demo_resolver (with_header 1 [mkQuestion "www.corp." TypeA ClassINET] empty_msg) = NameServers p.
Proof.
  pose proof (policy_choice [mkPolicy "+.corp" None [demo_client demo_poison]; mkPolicy "" (Some (λ d, bool_decide (d = "x.y"%string))) [demo_client demo_answer]]
    demo_resolver (with_header 1 [mkQuestion "www.corp." TypeA ClassINET] empty_msg) "www" ["corp"%string] eq_refl) as H.
  specialize (H ltac:(by repeat constructor) eq_refl ltac:(done)).
  change (matchPolicy demo_resolver (with_header 1 [mkQuestion "www.corp." TypeA ClassINET] empty_msg)) with [demo_client demo_poison] in *.
  destruct H as (before & group & after & p & Hps & _ & Hp & Ha & Hns & _). by exists before, group, after, p.
Defined.

Lemma poisoned_answers_dropped_witness :
  ipExchange (λ l, l) demo_resolver demo_query = Some demo_answer ∧ answered_by (fallback demo_resolver) demo_query demo_answer.
Proof.
  assert (ipExchange (λ l, l) demo_resolver demo_query = Some demo_answer) as He by (vm_compute; reflexivity).
  split; [exact He|]. pose proof (proj1 (poisoned_answers_dropped (λ l, l) demo_resolver demo_query ltac:(done)) _ He) as H.
  destruct H as [H|(H & _)]; [exact H|]. exfalso. unfold answered_by in H. simpl in H. destruct H as (c & ->%list_elem_of_singleton & Hg).
  discriminate Hg.
Defined.
