(* ===== verification/DnsHandler.v ===== *)
(** * Answering DNS queries: [dns/middleware.go], [dns/service.go],
    [component/fakeip/skipper.go] and the fake-IP filter of [config/config.go]

    A query goes through a chain of handlers: the hosts table, the fake-IP pool
    unless the filter skips the name, the mapping from addresses to names, and
    the resolver.  A handler is a function of the next one; the state it changes
    is the pools, the mapping, the cache and the type of the answer.  An index
    out of range is a panic; the hosts table and the rule sets of the filter are
    searched with fuel. *)

From Stdlib Require Import ZArith Lia Ascii String.
From stdpp Require Import prelude list gmap strings.
From S2P Require Import Prelude Netip Lru FakeIP DomainTrie Metadata Hosts Rules RuleConfig Wire Dns.

(** ** The filter *)

Inductive FilterMode := FilterBlackList | FilterWhiteList | FilterRule.

Definition UseFakeIP : string := "fake-ip".

Definition UseRealIP : string := "real-ip".

Record Skipper := mkSkipper { sk_Rules : list Rule; sk_Host : list (string → bool); sk_Mode : FilterMode }.

Definition shouldSkipped (p : Skipper) (domain : string) : bool := existsb (λ f, f domain) (sk_Host p).

(** [&C.Metadata{Host: domain}] *)
Definition host_metadata (domain : string) : Metadata :=
  mkMetadata TCP HTTP NoAddr NoAddr None None "" "" 0 0 NoAddr 0 "" "" domain DNSNormal 0 "" "" "" "" "" 0 "".

(** [C.RuleMatchHelper{}] *)
Definition no_helper : Helper () := mkHelper None None None.

Fixpoint match_action (E : Env) (fuel : nat) (rules : list Rule) (s : mst ()) : outcome bool :=
  match rules with
  | [] => Done false
  | rule :: rules' =>
    match run_rule E fuel rule no_helper s with
    | Done ((matched, action), s) =>
      if (matched : bool) then Done (bool_decide (action = UseRealIP)) else match_action E fuel rules' s
    | Panic => Panic
    | OutOfFuel => OutOfFuel
    end
  end.

Definition ShouldSkipped (E : Env) (fuel : nat) (p : Skipper) (domain : string) : outcome bool :=
  match sk_Rules p with
  | _ :: _ => match_action E fuel (sk_Rules p) (Rules.mkSt (host_metadata domain) ())
  | [] =>
    let should := shouldSkipped p domain in
    Done (match sk_Mode p with FilterWhiteList => negb should | _ => should end)
  end.

(** ** Parsing the filter's rules *)

Definition isDomainRule (rt : RuleType) : bool :=
  bool_decide (rt ∈ [TDomain; TDomainSuffix; TDomainKeyword; TDomainRegex; TDomainWildcard; TGEOSITE; TRuleSet]).

(** One line; [behaviors] says of every rule provider whether it is an address
    set.  [None] is an error. *)
Definition parse_fakeip_line (P : ParseEnv) (is_ipcidr : gmap string bool) (line : string) : option Rule :=
  let '(tp, payload, action, params) := ParseRulePayload line true in
  let action := ToLower action in
  if negb (bool_decide (action = UseFakeIP)) && negb (bool_decide (action = UseRealIP)) then None
  else if bool_decide (tp = "RULE-SET"%string) && default true (is_ipcidr !! payload) then None
  else
    match ParseRule P (parse_fuel payload) tp payload action params with
    | Some (Some parsed) =>
      if isDomainRule (rule_type parsed) || bool_decide (rule_type parsed = TMATCH) then Some parsed else None
    | _ => None
    end.

Definition parseFakeIPRules (P : ParseEnv) (is_ipcidr : gmap string bool) (rawRules : list string) : option (list Rule) :=
  mapM (parse_fakeip_line P is_ipcidr) rawRules.

(** ** Handlers *)

Inductive dns_type := DNSTypeNone | DNSTypeHost | DNSTypeFakeIP | DNSTypeRaw.

Section Handlers.
Context `{Library} {S : Type} `{Store S} {C : Type} `{DnsCache C}.
(** The environment of the rules, the order in which servers answer, and how far
    the hosts table and the rules are followed. *)
Context (E : Env) (race : list dnsClient → list dnsClient) (system_hosts : option (string → list string)) (fuel : nat).

Record dns_state := mkDns {
  pool4 : option (Pool S);
  pool6 : option (Pool S);
  mapping : option (lstate Addr string);
  dns_cache : C;
  tp : dns_type
}.

Definition set_type (t : dns_type) (st : dns_state) : dns_state :=
  mkDns (pool4 st) (pool6 st) (mapping st) (dns_cache st) t.

(** [mapping.SetWithExpire], nothing when there is none.  [now] is in
    nanoseconds. *)
Definition map_host (now : Z) (ip : Addr) (host : string) (ttl : Z) (st : dns_state) : dns_state :=
  mkDns (pool4 st) (pool6 st) (SetWithExpire ip host ((now + ttl * giga) / giga) (now / giga) <$> mapping st) (dns_cache st) (tp st).

(** The answer, [None] for an error. *)
Definition handler := Z → Msg → dns_state → outcome (option Msg * dns_state).

Definition cname_record (q : Question) (domain : string) : RR :=
  mkRR (q_Name q) TypeCNAME ClassINET 10 (RCNAME (domain +:+ ".")).

Definition handleCName (q : Question) (domain : string) (resp : Msg) : Msg :=
  with_sections (cname_record q domain :: Answer resp) (Ns resp) (Extra resp) resp.

(** One address of the record, for a query of its family. *)
Definition host_record (q : Question) (ip : Addr) : option RR :=
  if Is4 ip && (Qtype q =? TypeA)%Z then Some (mkRR (q_Name q) TypeA ClassINET 10 (RA (AsSlice ip)))
  else if (match ip with Addr6 _ _ => true | _ => false end) && (Qtype q =? TypeAAAA)%Z then
    Some (mkRR (q_Name q) TypeAAAA ClassINET 10 (RAAAA (AsSlice ip)))
  else None.

Fixpoint handleIPs (now : Z) (q : Question) (host : string) (ips : list Addr) (msg : Msg) (st : dns_state) : Msg * dns_state :=
  match ips with
  | [] => (msg, st)
  | ip :: ips' =>
    match host_record q ip with
    | Some rr =>
      handleIPs now q host ips' (with_sections (Answer msg ++ [rr]) (Ns msg) (Extra msg) msg) (map_host now ip host 10 st)
    | None => handleIPs now q host ips' msg st
    end
  end.

Definition rename_question (domain : string) (r : Msg) : Msg :=
  with_header (Id r)
    (match Questions r with q :: qs => mkQuestion (domain +:+ ".") (Qtype q) (Qclass q) :: qs | [] => [] end) r.

Definition authoritative_reply (msg r : Msg) : Msg := with_flags true true (SetRcode msg r RcodeSuccess).

(** A record that does not answer the query: an alias replaces the name. *)
Definition follow_alias (next : handler) (q : Question) (record : option HostValue) (now : Z) (r : Msg) (st : dns_state)
    : outcome (option Msg * dns_state) :=
  match record with
  | Some hv =>
    if IsDomain hv then
      match next now (rename_question (hv_Domain hv) r) st with
      | Done (Some resp, st) => Done (Some (handleCName q (hv_Domain hv) (with_header (Id r) (Questions r) resp)), st)
      | o => o
      end
    else next now r st
  | None => next now r st
  end.

Definition withHosts (tree : Node HostValue) (next : handler) : handler := λ now r st,
  match Questions r with
  | [] => Panic
  | q :: _ =>
    if negb (isIPRequest q) then next now r st
    else
      let host := TrimRight_dots (q_Name q) in
      match Hosts_Search system_hosts fuel tree host (negb (Qtype q =? TypeA)%Z && negb (Qtype q =? TypeAAAA)%Z) with
      | None => OutOfFuel
      | Some (record, false) => follow_alias next q record now r st
      | Some (None, true) => Panic
      | Some (Some record, true) =>
        let reply (msg : Msg) (r : Msg) (st : dns_state) := Done (Some (authoritative_reply msg r), set_type DNSTypeHost st) in
        if (Qtype q =? TypeA)%Z || (Qtype q =? TypeAAAA)%Z then
          let '(msg, st) := handleIPs now q host (IPs record) r st in reply msg r st
        else if (Qtype q =? TypeCNAME)%Z then
          (* the record is added to the request, after the reply was copied from it *)
          reply r (handleCName q (hv_Domain record) r) st
        else next now r st
      end
  end.

(** The addresses of an answer go into the mapping. *)
Fixpoint map_answers (now : Z) (host : string) (answer : list RR) (st : dns_state) : dns_state :=
  match answer with
  | [] => st
  | ans :: answer' =>
    let st :=
      match record_ip ans with
      | Some ip =>
        if IsGlobalUnicast ip then map_host now (Unmap ip) host (if (Ttl ans <? 1)%Z then 1 else Ttl ans) st else st
      | None => st
      end in
    map_answers now host answer' st
  end.

Definition withMapping (next : handler) : handler := λ now r st,
  match Questions r with
  | [] => Panic
  | q :: _ =>
    if negb (isIPRequest q) then next now r st
    else
      match next now r st with
      | Done (Some msg, st) => Done (Some msg, map_answers now (TrimRight_dots (q_Name q)) (Answer msg) st)
      | o => o
      end
  end.

Definition fake_record (q : Question) (ip : Addr) : RR :=
  mkRR (q_Name q) (Qtype q) ClassINET 600 (if (Qtype q =? TypeA)%Z then RA (AsSlice ip) else RAAAA (AsSlice ip)).

Definition fake_reply (fakeIPTTL : Z) (r : Msg) (rr : RR) : Msg :=
  let msg := with_sections [rr] (Ns r) (Extra r) r in
  authoritative_reply (setMsgTTL (@wrap uint32 fakeIPTTL) msg) r.

Definition withFakeIP (skipper : Skipper) (fakeIPTTL : Z) (next : handler) : handler := λ now r st,
  match Questions r with
  | [] => Panic
  | q :: _ =>
    let host := TrimRight_dots (q_Name q) in
    match ShouldSkipped E fuel skipper host with
    | Panic => Panic
    | OutOfFuel => OutOfFuel
    | Done true => next now r st
    | Done false =>
      if (Qtype q =? TypeA)%Z then
        match pool4 st with
        | None => Done (Some (handleMsgWithEmptyAnswer r), st)
        | Some p =>
          let '(ip, p) := Lookup host p in
          Done (Some (fake_reply fakeIPTTL r (fake_record q ip)),
                mkDns (Some p) (pool6 st) (mapping st) (dns_cache st) DNSTypeFakeIP)
        end
      else if (Qtype q =? TypeAAAA)%Z then
        match pool6 st with
        | None => Done (Some (handleMsgWithEmptyAnswer r), st)
        | Some p =>
          let '(ip, p) := Lookup host p in
          Done (Some (fake_reply fakeIPTTL r (fake_record q ip)),
                mkDns (pool4 st) (Some p) (mapping st) (dns_cache st) DNSTypeFakeIP)
        end
      else if (Qtype q =? TypeSVCB)%Z || (Qtype q =? TypeHTTPS)%Z then Done (Some (handleMsgWithEmptyAnswer r), st)
      else next now r st
    end
  end.

Definition withResolver (resolver : Resolver) (ipv6 : bool) : handler := λ now r st,
  let st := set_type DNSTypeRaw st in
  match Questions r with
  | [] => Panic
  | q :: _ =>
    if negb ipv6 && (Qtype q =? TypeAAAA)%Z then Done (Some (handleMsgWithEmptyAnswer r), st)
    else
      let '(res, _, c) := ExchangeContext race resolver now r (dns_cache st) in
      let st := mkDns (pool4 st) (pool6 st) (mapping st) c (tp st) in
      match res with
      | Some msg =>
        let msg := SetRcode msg r (Rcode msg) in
        Done (Some (with_flags true (RecursionAvailable msg) msg), st)
      | None => Done (None, st)
      end
  end.

Definition compose (middlewares : list (handler → handler)) (endpoint : handler) : handler :=
  foldr (λ middleware h, middleware h) endpoint middlewares.

(** The enhancer's settings that the chain is made from. *)
Record mapper := mkMapper {
  ipv6 : bool;
  mode : DNSMode;
  useHosts : bool;
  hosts : Node HostValue;
  fakeIPSkipper : Skipper;
  fakeIPTTL : Z
}.

Definition newHandler (resolver : Resolver) (m : mapper) : handler :=
  compose
    ((if useHosts m then [withHosts (hosts m)] else []) ++
     (if bool_decide (mode m = DNSFakeIP) then [withFakeIP (fakeIPSkipper m) (fakeIPTTL m)] else []) ++
     (if bool_decide (mode m ≠ DNSNormal) then [withMapping] else []))
    (withResolver resolver (ipv6 m)).

(** [ServeMsg]: a message without a question is refused. *)
Definition ServeMsg (resolver : Resolver) (m : mapper) : handler := λ now msg st,
  match Questions msg with
  | [] => Done (None, st)
  | _ => newHandler resolver m now msg (set_type DNSTypeNone st)
  end.

End Handlers.

(** ** Lemmas *)

Set Default Proof Using "Type*".

(** *** The filter's rules *)

(** The kinds of rules the filter accepts. *)
Definition filter_rule (r : Rule) : bool :=
  match r with
  | Domain _ _ | DomainSuffix _ _ | DomainKeyword _ _ | DomainRegex _ _ | DomainWildcard _ _ | GEOSITE _ _ | Match _ | RuleSet _ _ _ _ => true
  | _ => false
  end.

Definition filter_type (rt : RuleType) : bool := isDomainRule rt || bool_decide (rt = TMATCH).

(** A rule of an accepted type is of an accepted kind: what the parser makes
    always has the type of its kind. *)
Definition typed (r : Rule) : Prop := filter_type (rule_type r) = true → filter_rule r = true.

Lemma switch_all {A} (P : A → Prop) tp table r :
  Forall (λ kf : string * (unit → option A), ∀ r, kf.2 tt = Some r → P r) table → switch tp table = Some r → P r.
Proof.
  induction 1 as [|[k f] table Hf _ IH]; simpl; [done|]. case_bool_decide; [apply Hf|apply IH].
Qed.

Lemma bind_some_inv {A B} (o : option A) (f : A → option B) y : o ≫= f = Some y → ∃ x, o = Some x ∧ f x = Some y.
Proof. apply bind_Some. Qed.

Lemma leaf_typed P payload target params :
  Forall (λ kf : string * (unit → option Rule), ∀ r, kf.2 tt = Some r → typed r) (leaf_table P payload target params).
Proof.
  unfold leaf_table. destruct (ParseParams params) as [src nr].
  repeat apply Forall_cons_2; try apply Forall_nil_2; cbn [fst snd]; intros r Hr;
    unfold NewDomainRegex, NewDomainWildcard, NewGEOSITE, NewGEOIP, NewIPASN, NewIPCIDR, NewIPSuffix, NewPort, NewDSCP, NewUid,
      NewInName, NewInUser, NewInType, NewNetworkType, NewProcess, NewRuleSet in Hr;
    repeat match goal with
    | H : _ ≫= _ = Some _ |- _ => apply bind_some_inv in H as (? & _ & H)
    | H : (if ?b then _ else _) = Some _ |- _ => destruct b; try discriminate H
    | H : (match ?x with [] => _ | _ :: _ => _ end) = Some _ |- _ => destruct x; try discriminate H
    end; try discriminate Hr; injection Hr as <-; done || (by destruct src) || (intros; done).
Qed.

Lemma new_logic_typed f payload ok mk r :
  (∀ rs, typed (mk rs)) → new_logic f payload ok mk = Some (Some r) → typed r.
Proof.
  intros Hmk. unfold new_logic. destruct (sub_payloads payload) as [ps|]; [|done].
  destruct (parse_all f ps) as [[rs|]|]; try done. destruct (ok (length rs)); [|done]. by intros [= <-].
Qed.

Lemma ParseRule_typed P fuel tp payload target params r :
  ParseRule P fuel tp payload target params = Some (Some r) → typed r.
Proof.
  destruct fuel as [|fuel]; [done|]. cbn [ParseRule]. unfold parse_switch, NewSubRule, NewAND, NewOR, NewNOT.
  intros Hr. repeat match type of Hr with (if ?b then _ else _) = _ => destruct b; try discriminate Hr end.
  1-4: eapply new_logic_typed; [|exact Hr]; done.
  injection Hr as Hr. eapply switch_all; [apply leaf_typed|exact Hr].
Qed.

(** What is known of a line that is accepted. *)
Lemma parse_fakeip_line_ok P b line r :
  parse_fakeip_line P b line = Some r → filter_rule r = true.
Proof.
  unfold parse_fakeip_line. destruct (ParseRulePayload line true) as [[[tp payload] action] params].
  destruct (negb _ && negb _); [done|]. destruct (_ && _); [done|].
  destruct (ParseRule _ _ _ _ _ _) as [[parsed|]|] eqn:Hp; try done. apply ParseRule_typed in Hp.
  destruct (isDomainRule (rule_type parsed) || bool_decide (rule_type parsed = TMATCH)) eqn:Ht; [|done].
  intros [= <-]. by apply Hp.
Qed.

Lemma parseFakeIPRules_ok P b lines rules :
  parseFakeIPRules P b lines = Some rules → Forall (λ r, filter_rule r = true) rules.
Proof.
  unfold parseFakeIPRules. intros Hm. apply mapM_Some in Hm. induction Hm as [|line r lines rules Hl _ IH]; constructor; [|done].
  by eapply parse_fakeip_line_ok.
Qed.

(** What a rule of the filter says of a name; a rule set is a set of domains. *)
Definition names (E : Env) (domain : string) (r : Rule) : bool :=
  match r with
  | RuleSet n _ _ _ =>
    match ruleProviders E !! n with
    | Some (Some (domainStrategy (Some has))) => has domain
    | _ => false
    end
  | _ => pure_match E r (host_metadata domain)
  end.

(** The rule sets that the rules name are sets of domains. *)
Definition domain_sets (E : Env) (rules : list Rule) : Prop :=
  ∀ n a src nr, RuleSet n a src nr ∈ rules →
    match ruleProviders E !! n with Some (Some (domainStrategy _)) | Some None | None => True | _ => False end.

Lemma run_filter_rule E fuel domain r :
  filter_rule r = true → domain_sets E [r] →
  run_rule E (Datatypes.S fuel) r no_helper (Rules.mkSt (host_metadata domain) ()) =
  Done ((names E domain r, match r with RuleSet n _ _ _ => if ruleProviders E !! n then Adapter r else "" | _ => Adapter r end),
    Rules.mkSt (host_metadata domain) ()).
Proof.
  intros Hr Hs. destruct r; try discriminate Hr; try reflexivity.
  specialize (Hs ruleProviderName adapter isSrc noResolveIP (list_elem_of_here _ _)).
  unfold run_rule. cbn [rule_Match names]. unfold RuleSet_Match.
  destruct (ruleProviders E !! ruleProviderName) as [st|] eqn:Hp; [|reflexivity].
  destruct isSrc; cbn; unfold mbind, M_bind; cbn; rewrite Hp; destruct st as [[| [has|] |]|]; try done.
Qed.

Lemma match_action_first E fuel domain rules :
  Forall (λ r, filter_rule r = true) rules → domain_sets E rules →
  match_action E (Datatypes.S fuel) rules (Rules.mkSt (host_metadata domain) ()) =
  Done (match List.find (names E domain) rules with Some r => bool_decide (Adapter r = UseRealIP) | None => false end).
Proof.
  induction 1 as [|r rules Hr _ IH]; intros Hs; [done|]. cbn [match_action List.find].
  rewrite run_filter_rule; [|done|].
  2:{ intros n a src nr Hin%list_elem_of_singleton. apply (Hs n a src nr). rewrite Hin. apply list_elem_of_here. }
  destruct (names E domain r) eqn:Hn.
  - f_equal. destruct r; try done. unfold names in Hn. by destruct (ruleProviders E !! ruleProviderName).
  - apply IH. intros n a src nr Hin. apply (Hs n a src nr). by apply list_elem_of_further.
Qed.

(** The fake-IP filter in rule mode answers every name, never panics, and
    follows the first of its rules that takes the name: the name is skipped
    exactly when that rule says real-ip; a name that no rule takes gets a fake
    address.  Rule sets are sets of domains. *)
Theorem filter_first_rule (E : Env) (P : ParseEnv) (is_ipcidr : gmap string bool) (lines : list string) (rules : list Rule)
    (hosts : list (string → bool)) (mode : FilterMode) (fuel : nat) (domain : string) :
  parseFakeIPRules P is_ipcidr lines = Some rules → rules ≠ [] → domain_sets E rules →
  ShouldSkipped E (Datatypes.S fuel) (mkSkipper rules hosts mode) domain =
  Done (match List.find (names E domain) rules with Some r => bool_decide (Adapter r = UseRealIP) | None => false end).
Proof.
  intros Hp Hne Hs. apply parseFakeIPRules_ok in Hp. unfold ShouldSkipped. cbn [sk_Rules].
  rewrite <- (match_action_first E fuel) by done. by destruct rules.
Qed.

(** *** Addresses in records *)

Lemma in_pool_wf {S} `{Store S} (p : Pool S) ip : pool_shape p → in_pool p ip → addr_wf ip ∧ addr_zone ip = ""%string ∧ IsValid ip = true.
Proof.
  intros (v6 & f & l & o & Hf & Hl & _ & _ & ? & ? & ? & Hmax & _) (v6' & f' & l' & n & Hf' & Hl' & -> & Hn).
  rewrite Hf in Hf'. rewrite Hl in Hl'. assert (v6' = v6) as -> by (by destruct v6, v6').
  apply addr_at_inj in Hf' as <-. apply addr_at_inj in Hl' as <-.
  unfold addr_wf, family_max in *. destruct v6; simpl in *; split_and!; (done || lia).
Qed.

(** *** The chain *)

Section Chain.
Context `{Library} {S : Type} `{StoreLaws S} {C : Type} `{DnsCache C}.
Context (E : Env) (race : list dnsClient → list dnsClient) (system_hosts : option (string → list string)) (fuel : nat).

Abbreviation state := (@dns_state S C).

Abbreviation answers := (ServeMsg E race system_hosts fuel (S := S) (C := C)).

(** The enhancer sees the pools and the mapping of the state. *)
Definition enhancer_of (m : mapper) (st : state) : Enhancer S := mkEnhancer (mode m) (pool4 st) (pool6 st) (mapping st).

(** The hosts table has nothing to say about the name. *)
Definition no_host (m : mapper) (q : Question) : Prop :=
  useHosts m = true →
  Hosts_Search system_hosts fuel (hosts m) (TrimRight_dots (q_Name q)) (negb (Qtype q =? TypeA)%Z && negb (Qtype q =? TypeAAAA)%Z) = Some (None, false).

Lemma withHosts_none tree next now r q qs st :
  Questions r = q :: qs →
  Hosts_Search system_hosts fuel tree (TrimRight_dots (q_Name q)) (negb (Qtype q =? TypeA)%Z && negb (Qtype q =? TypeAAAA)%Z) = Some (None, false) →
  withHosts (S := S) (C := C) system_hosts fuel tree next now r st = next now r st.
Proof. intros Hq Hh. unfold withHosts. rewrite Hq, Hh. by destruct (isIPRequest q). Qed.

(** The chain in fake-IP mode, past the hosts table. *)
Lemma fake_ip_chain resolver m now r q qs (st : state) :
  mode m = DNSFakeIP → Questions r = q :: qs → no_host m q →
  ∃ next, answers resolver m now r st =
    withFakeIP E fuel (fakeIPSkipper m) (fakeIPTTL m) next now r (set_type DNSTypeNone st).
Proof.
  intros Hm Hq Hh. exists (withMapping (withResolver race resolver (ipv6 m))).
  unfold ServeMsg, newHandler. rewrite Hq, Hm, !bool_decide_eq_true_2 by done.
  destruct (useHosts m) eqn:Hu; [|done]. simpl. rewrite (withHosts_none _ _ _ _ _ _ _ Hq); [done|by apply Hh].
Qed.

End Chain.

(** The pool that answers a question, and the state with another in its place. *)
Definition pool_for {S C} (q : Question) (st : dns_state (S := S) (C := C)) : option (Pool S) :=
  if (Qtype q =? TypeA)%Z then pool4 st else pool6 st.

Definition with_pool {S C} (q : Question) (p : Pool S) (st : dns_state (S := S) (C := C)) : dns_state (S := S) (C := C) :=
  if (Qtype q =? TypeA)%Z then mkDns (Some p) (pool6 st) (mapping st) (dns_cache st) DNSTypeFakeIP
  else mkDns (pool4 st) (Some p) (mapping st) (dns_cache st) DNSTypeFakeIP.

(** The pools are sound, each over addresses of its family. *)
Definition pools_inv {S C} `{StoreLaws S} (st : dns_state (S := S) (C := C)) : Prop :=
  (∀ p, pool4 st = Some p → pool_inv p ∧ Is4 (first p) = true) ∧ (∀ p, pool6 st = Some p → pool_inv p ∧ Is4 (first p) = false).

Lemma in_pool_family {S} `{Store S} (p : Pool S) ip : in_pool p ip → Is4 ip = Is4 (first p).
Proof. intros (v6 & f & l & n & -> & _ & -> & _). by destruct v6. Qed.

(** An address of one family is not found in a pool of the other. *)
Lemma LookBack_family {S} `{StoreLaws S} (p : Pool S) ip : pool_inv p → Is4 ip ≠ Is4 (first p) → (LookBack ip p).1 = None.
Proof.
  intros Hinv Hne. destruct (LookBack_spec p ip Hinv) as (-> & _). apply eq_None_not_Some. intros [h Hh].
  apply Hne, in_pool_family. by eapply Hinv.
Qed.

Lemma fake_host {S C} `{StoreLaws S} (m : mapper) (q : Question) (st : dns_state (S := S) (C := C)) (p p' : Pool S) ip host :
  pools_inv st → pool_for q st = Some p → same_range p p' → pool_inv p' → in_pool p ip → hostOf (store p') ip = Some host →
  mode m = DNSFakeIP →
  IsFakeIP ip (enhancer_of m (with_pool q p' st)) = true ∧ (FindHostByIP ip (enhancer_of m (with_pool q p' st))).1 = Some host.
Proof.
  intros [H4 H6] Hp Hrg Hinv' Hin Hho Hm. assert (pool_fake ip p' = true) as Hfake.
  { apply in_pool_fake; [apply Hinv'|by apply (in_pool_range p)]. }
  destruct (LookBack_spec p' ip Hinv') as (Hb & _). rewrite Hho in Hb.
  unfold IsFakeIP, FakeIPEnabled, FindHostByIP, enhancer_of, look_pool, with_pool, pool_for in *.
  destruct (Qtype q =? TypeA)%Z; cbn [e_mode fakeIPPool fakeIPPool6 pool4 pool6]; rewrite Hm; cbn [negb bool_decide].
  - split; [simpl; by rewrite Hfake|]. destruct (LookBack ip p') as [r p'']. cbn [fst] in Hb. by subst r.
  - split; [simpl; rewrite Hfake; by destruct (default false _)|].
    destruct (LookBack ip p') as [r p''] eqn:Hlb. cbn [fst] in Hb. subst r. destruct (pool4 st) as [p4|]; [|done].
    destruct (H4 p4 eq_refl) as [Hi4 Hf4]. destruct (H6 p Hp) as [_ Hf6]. apply in_pool_family in Hin.
    pose proof (LookBack_family p4 ip Hi4 ltac:(congruence)) as Hn. destruct (LookBack ip p4) as [r q4]. cbn [fst] in Hn. by subst r.
Qed.

(** C23: The answer to a query for an address, of either version, in fake-IP mode
    leads back to the name: unless the hosts table or the filter takes it, the
    reply holds one record of the type that was asked for, with the time to live
    of the configuration and an address of that version which the enhancer knows
    as a fake one; the enhancer finds the name for it (in lower case), the next
    query for the name in any case gets the same address, and the other pool,
    the mapping and the cache are left alone. *)
Theorem fake_ip_answer `{Library} {S : Type} `{StoreLaws S} {C : Type} `{DnsCache C} (E : Env)
    (race : list dnsClient → list dnsClient) (system_hosts : option (string → list string)) (fuel : nat)
    (resolver : Resolver) (m : mapper) (now : Z) (r : Msg) (q : Question) (qs : list Question)
    (p : Pool S) (st : dns_state (S := S) (C := C)) :
  mode m = DNSFakeIP → (1 ≤ fakeIPTTL m < 2 ^ 32)%Z → Questions r = q :: qs → Qtype q = TypeA ∨ Qtype q = TypeAAAA →
  no_host system_hosts fuel m q →
  ShouldSkipped E fuel (fakeIPSkipper m) (TrimRight_dots (q_Name q)) = Done false →
  pools_inv st → pool_for q st = Some p →
  ∃ msg rr ip p', let st' := with_pool q p' st in
    ServeMsg E race system_hosts fuel resolver m now r st = Done (Some msg, st') ∧
    Answer msg = [rr] ∧ record_ip rr = Some ip ∧ Is4 ip = (Qtype q =? TypeA)%Z ∧
    rdata rr = (if (Qtype q =? TypeA)%Z then RA (AsSlice ip) else RAAAA (AsSlice ip)) ∧
    Rrtype rr = Qtype q ∧ Ttl rr = fakeIPTTL m ∧ rr_Name rr = q_Name q ∧
    Rcode msg = RcodeSuccess ∧ Id msg = Id r ∧
    IsFakeIP ip (enhancer_of m st') = true ∧
    (FindHostByIP ip (enhancer_of m st')).1 = Some (ToLower (TrimRight_dots (q_Name q))) ∧
    ∀ host', ToLower host' = ToLower (TrimRight_dots (q_Name q)) → (Lookup host' p').1 = ip.
Proof.
  intros Hm Httl Hq Hqt Hh Hskip Hpools Hp.
  assert (pool_inv p ∧ Is4 (first p) = (Qtype q =? TypeA)%Z) as [Hinv Hfam].
  { destruct Hpools as [H4 H6]. unfold pool_for in Hp. destruct (Qtype q =? TypeA)%Z; auto. }
  destruct (fake_ip_chain E race system_hosts fuel resolver m now r q qs st Hm Hq Hh) as [next ->].
  pose proof (Lookup_spec p (TrimRight_dots (q_Name q)) Hinv) as Hs.
  pose proof (λ host', Lookup_again p (TrimRight_dots (q_Name q)) host' Hinv) as Hag.
  assert (withFakeIP E fuel (fakeIPSkipper m) (fakeIPTTL m) next now r (set_type DNSTypeNone st) =
    let '(ip, p') := Lookup (TrimRight_dots (q_Name q)) p in
    Done (Some (fake_reply (fakeIPTTL m) r (fake_record q ip)), with_pool q p' st)) as ->.
  { unfold withFakeIP, with_pool, pool_for in *. rewrite Hq, Hskip. cbn [pool4 pool6 set_type].
    destruct Hqt as [Hqt|Hqt]; rewrite Hqt in Hp |- *; cbn [Z.eqb TypeA TypeAAAA Pos.eqb] in Hp |- *; rewrite Hp; by destruct (Lookup _ p). }
  destruct (Lookup (TrimRight_dots (q_Name q)) p) as [ip p']. destruct Hs as (Hinv' & Hrg & Hin & Hho & _).
  destruct (in_pool_wf p ip (proj1 Hinv) Hin) as (Hwf & Hz & Hval).
  exists (fake_reply (fakeIPTTL m) r (fake_record q ip)), (with_ttl (fakeIPTTL m) (fake_record q ip)), ip, p'. cbv zeta.
  pose proof (SetRcode_spec (setMsgTTL (@wrap uint32 (fakeIPTTL m)) (with_sections [fake_record q ip] (Ns r) (Extra r) r)) r RcodeSuccess) as Hset.
  cbv zeta in Hset. destruct Hset as (Hrc & Hid & _ & _ & Ha & _).
  destruct (fake_host m q st p p' ip _ Hpools Hp Hrg Hinv' Hin Hho Hm) as [Hfk Hfind]. split_and!; try done.
  - unfold fake_reply, authoritative_reply. cbn [Answer with_flags]. rewrite Ha. cbn. by rewrite (@wrap_id uint32) by (int_lia).
  - unfold record_ip, fake_record. cbn [rdata with_ttl]. destruct (Qtype q =? TypeA)%Z; by rewrite AddrFromSlice_AsSlice, Hval.
  - by rewrite (in_pool_family p ip Hin).
Qed.

(** *** The mapping *)

(** The entry the mapping would answer with. *)
Definition mapped (l : lstate Addr string) (ip : Addr) (host : string) : Prop := ∀ now, (Get ip now l).1 = Some host.

(** A mapping without ages that has room for [n] more addresses. *)
Definition roomy (n : nat) (l : lstate Addr string) : Prop :=
  ∃ a, refines l a ∧ ages (opts (lc l)) = false ∧
    ((maxSize (opts (lc l)) ≤ 0) ∨ Z.of_nat (length (items a) + n) ≤ maxSize (opts (lc l)))%Z.

Lemma mapped_afind l a ip host :
  refines l a → ages (opts (lc l)) = false → evalue <$> afind ip (items a) = Some host → mapped l ip host.
Proof.
  intros Hr Ha Hf now. destruct (lru_step_refines (OGet ip) now l a Hr) as [Hg _]. cbn [lru_step aspec] in Hg.
  destruct (Get ip now l) as [v l']. unfold aget in Hg. destruct (afind ip (items a)) as [e|]; [|done].
  rewrite Ha in Hg. cbn [andb] in Hg. simpl in Hg, Hf. injection Hg as Hv _. rewrite Hv. unfold arefresh.
  destruct (_ && _); done.
Qed.

Lemma mapped_inv l a ip host : refines l a → ages (opts (lc l)) = false → mapped l ip host → evalue <$> afind ip (items a) = Some host.
Proof.
  intros Hr Ha Hm. specialize (Hm 0%Z). destruct (lru_step_refines (OGet ip) 0 l a Hr) as [Hg _]. cbn [lru_step aspec] in Hg.
  destruct (Get ip 0 l) as [v l']. unfold aget in Hg. destruct (afind ip (items a)) as [e|]; simpl in *; [|congruence].
  rewrite Ha in Hg. cbn [andb] in Hg. simpl in Hg. injection Hg as Hv _. rewrite Hm in Hv. rewrite Hv. unfold arefresh.
  destruct (_ && _); done.
Qed.

Lemma adel_le (ip : Addr) (l : list (entry Addr string)) : length (adel ip l) ≤ length l.
Proof. unfold adel. apply length_filter. Qed.

(** Setting an address in a mapping with room. *)
Lemma set_mapped n l ip host e now :
  roomy (S n) l →
  let l' := SetWithExpire ip host e now l in
  roomy n l' ∧ mapped l' ip host ∧ ∀ ip' host', ip' ≠ ip → mapped l ip' host' → mapped l' ip' host'.
Proof.
  intros (a & Hr & Ha & Hroom) l'.
  destruct (lru_step_refines (OSetWithExpire ip host e) now l a Hr) as [_ Hr'].
  pose proof (lru_step_opts (OSetWithExpire ip host e) now l) as Ho. cbn [lru_step aspec snd] in Hr', Ho. fold l' in Hr', Ho.
  set (a' := aset (opts (lc l)) ip host e now a) in *. assert (ages (opts (lc l')) = false) as Ha' by (by rewrite Ho).
  assert (length (items a') ≤ S (length (items a)) ∧
    ∀ ip', ip' ≠ ip → evalue <$> afind ip' (items a') = evalue <$> afind ip' (items a)) as [Hlen Hother].
  { unfold a', aset, aexpire. rewrite Ha. destruct (afind ip (items a)) as [x|] eqn:Hf; cbn [items].
    - split; [rewrite length_app; simpl; pose proof (adel_le ip (items a)); lia|]. intros ip' Hne.
      rewrite afind_app. assert (afind ip' (adel ip (items a)) = afind ip' (items a)) as ->.
      { clear -Hne. induction (items a) as [|y l IH]; [done|]. unfold adel in *. rewrite filter_cons. simpl.
        case_decide; simpl; [by rewrite IH|]. rewrite decide_False by congruence. exact IH. }
      destruct (afind ip' (items a)); [done|]. simpl. by rewrite decide_False by congruence.
    - assert ((0 <? maxSize (opts (lc l)))%Z && (maxSize (opts (lc l)) <? Z.of_nat (S (length (items a))))%Z = false) as ->.
      { apply andb_false_iff. rewrite !Z.ltb_ge. lia. }
      cbn [items]. split; [rewrite length_app; simpl; lia|]. intros ip' Hne. rewrite afind_app.
      destruct (afind ip' (items a)); [done|]. simpl. by rewrite decide_False by congruence. }
  split_and!.
  - exists a'. split_and!; [done|done|]. rewrite Ho. lia.
  - apply (mapped_afind l' a'); [done|done|]. unfold a'. rewrite aset_find; [done|]. by rewrite Ha.
  - intros ip' host' Hne Hm. apply (mapped_afind l' a'); [done|done|]. rewrite Hother by done. by apply (mapped_inv l a).
Qed.

(** The addresses of an answer that the mapping takes. *)
Definition mapped_ips (answer : list RR) : list Addr :=
  omap (λ r, ip ← record_ip r; if IsGlobalUnicast ip then Some (Unmap ip) else None) answer.

Lemma map_answers_mapped {S} `{Store S} {C} now host answer (st : dns_state (S := S) (C := C)) l :
  mapping st = Some l → roomy (length answer) l →
  ∃ l', mapping (map_answers now host answer st) = Some l' ∧
    (∀ ip, ip ∈ mapped_ips answer → mapped l' ip host) ∧ (∀ ip, mapped l ip host → mapped l' ip host) ∧
    pool4 (map_answers now host answer st) = pool4 st ∧ pool6 (map_answers now host answer st) = pool6 st ∧
    dns_cache (map_answers now host answer st) = dns_cache st.
Proof.
  revert st l. induction answer as [|ans answer IH]; intros st l Hl Hroom.
  - exists l. split_and!; try done. by intros ip ?%not_elem_of_nil.
  - cbn [map_answers]. unfold mapped_ips. cbn [omap list_omap]. fold (mapped_ips answer).
    assert (roomy (length answer) l) as Hroom'.
    { destruct Hroom as (a & ? & ? & Hr). exists a. split_and!; [done|done|]. simpl in Hr. lia. }
    destruct (record_ip ans) as [ip|] eqn:Hip; simpl; [|by apply IH].
    destruct (IsGlobalUnicast ip) eqn:Hg; [|by apply IH].
    set (ttl := if (Ttl ans <? 1)%Z then 1%Z else Ttl ans).
    destruct (set_mapped _ l (Unmap ip) host ((now + ttl * giga) / giga) (now / giga) Hroom) as (Hr1 & Hm1 & Hk1).
    destruct (IH (map_host now (Unmap ip) host ttl st) _ ltac:(cbn [map_host mapping]; by rewrite Hl) Hr1)
      as (l' & Hl' & Hin & Hkeep & H4 & H6 & Hc).
    exists l'. split_and!; [done| | |done..].
    + intros ip' [->|Hi]%elem_of_cons; [by apply Hkeep|by apply Hin].
    + intros ip' Hm. apply Hkeep. destruct (decide (ip' = Unmap ip)) as [->|Hne]; [done|by apply Hk1].
Qed.

(** In mapping mode every public address of an answer leads back to the name
    that was asked for, as long as the mapping has room for the answer; and it
    does so at any later time, since the mapping has no ages: the times to live
    that the code gives it have no effect. *)
Theorem mapping_remembers `{Library} {S : Type} `{StoreLaws S} {C : Type} `{DnsCache C} (E : Env)
    (race : list dnsClient → list dnsClient) (system_hosts : option (string → list string)) (fuel : nat)
    (resolver : Resolver) (m : mapper) (now : Z) (r : Msg) (q : Question) (qs : list Question)
    (st st' : dns_state (S := S) (C := C)) (l : lstate Addr string) (msg : Msg) :
  mode m = DNSMapping → Questions r = q :: qs → isIPRequest q = true → no_host system_hosts fuel m q →
  mapping st = Some l → roomy (length (Answer msg)) l →
  ServeMsg E race system_hosts fuel resolver m now r st = Done (Some msg, st') →
  pool4 st' = pool4 st ∧ pool6 st' = pool6 st ∧
  ∃ l', mapping st' = Some l' ∧
    ∀ ip, ip ∈ mapped_ips (Answer msg) → ∀ later, (Get ip later l').1 = Some (TrimRight_dots (q_Name q)).
Proof.
  intros Hm Hq Hi Hh Hl Hroom. unfold ServeMsg, newHandler. rewrite Hq, Hm.
  rewrite (bool_decide_eq_false_2 (DNSMapping = DNSFakeIP)), (bool_decide_eq_true_2 (DNSMapping ≠ DNSNormal)) by done.
  assert (compose ((if useHosts m then [withHosts system_hosts fuel (hosts m)] else []) ++ [] ++ [withMapping])
    (withResolver race resolver (ipv6 m)) now r (set_type DNSTypeNone st) =
    withMapping (withResolver race resolver (ipv6 m)) now r (set_type DNSTypeNone st)) as ->.
  { destruct (useHosts m) eqn:Hu; [|done]. simpl. rewrite (withHosts_none _ _ _ _ _ _ _ _ _ Hq); [done|by apply Hh]. }
  unfold withMapping. rewrite Hq, Hi. cbn [negb].
  destruct (withResolver race resolver (ipv6 m) now r (set_type DNSTypeNone st)) as [[[a|] st1]| |] eqn:Hres; try done.
  assert (mapping st1 = Some l ∧ pool4 st1 = pool4 st ∧ pool6 st1 = pool6 st) as (Hl1 & H41 & H61).
  { unfold withResolver in Hres. rewrite Hq in Hres. destruct (_ && _); [injection Hres as _ <-; done|].
    destruct (ExchangeContext _ _ _ _ _) as [[[x|] more] c]; injection Hres as _ <-; done. }
  intros [= <- <-]. destruct (map_answers_mapped now (TrimRight_dots (q_Name q)) (Answer a) st1 l Hl1 Hroom)
    as (l' & Hl' & Hin & _ & H4 & H6 & _).
  rewrite H4, H6. split_and!; [done|done|]. exists l'. split; [done|]. intros ip Hi' later. by apply Hin.
Qed.

(** *** The hosts table *)

Lemma handleIPs_spec {S} `{Store S} {C} now q host ips msg (st : dns_state (S := S) (C := C)) :
  let '(msg', st') := handleIPs now q host ips msg st in
  Answer msg' = Answer msg ++ omap (host_record q) ips ∧ Ns msg' = Ns msg ∧ Extra msg' = Extra msg ∧
  pool4 st' = pool4 st ∧ pool6 st' = pool6 st ∧ dns_cache st' = dns_cache st.
Proof.
  revert msg st. induction ips as [|ip ips IH]; intros msg st; simpl; [by rewrite app_nil_r|].
  destruct (host_record q ip) as [rr|]; [|apply IH].
  specialize (IH (with_sections (Answer msg ++ [rr]) (Ns msg) (Extra msg) msg) (map_host now ip host 10 st)).
  destruct (handleIPs _ _ _ _ _ _) as [msg' st']. simpl in IH. by rewrite <- (assoc_L (++)) in IH.
Qed.

(** An address of the family that the query asks for. *)
Definition of_family (qtype : Z) (ip : Addr) : bool :=
  if (qtype =? TypeA)%Z then Is4 ip else match ip with Addr6 _ _ => true | _ => false end.

Lemma host_record_ip q ip :
  (Qtype q = TypeA ∨ Qtype q = TypeAAAA) → addr_wf ip → addr_zone ip = ""%string →
  (host_record q ip ≫= record_ip) = if of_family (Qtype q) ip then Some ip else None.
Proof.
  intros Hq Hwf Hz. unfold host_record, of_family. destruct Hq as [Hq|Hq]; rewrite Hq; change (TypeA =? TypeA)%Z with true;
    change (TypeAAAA =? TypeA)%Z with false; change (TypeA =? TypeAAAA)%Z with false; change (TypeAAAA =? TypeAAAA)%Z with true;
    rewrite ?andb_true_r, ?andb_false_r; destruct ip as [|v|v z]; cbn [Is4]; try done;
    cbn [mbind option_bind]; unfold record_ip; cbn [rdata]; rewrite AddrFromSlice_AsSlice by done; done.
Qed.

Lemma host_record_none q ip : host_record q ip = None → ∀ a, (host_record q ip ≫= record_ip) ≠ Some a.
Proof. by intros ->. Qed.

Lemma msgToIP_hosts q ips :
  (Qtype q = TypeA ∨ Qtype q = TypeAAAA) → Forall (λ ip, addr_wf ip ∧ addr_zone ip = ""%string) ips →
  omap (λ r, Unmap <$> record_ip r) (omap (host_record q) ips) = map Unmap (List.filter (of_family (Qtype q)) ips).
Proof.
  intros Hq. induction 1 as [|ip ips [Hwf Hz] _ IH]; [done|]. cbn [omap list_omap List.filter].
  pose proof (host_record_ip q ip Hq Hwf Hz) as Hr. destruct (host_record q ip) as [rr|] eqn:Hrr; simpl in Hr.
  - cbn [omap list_omap]. rewrite Hr. destruct (of_family (Qtype q) ip) eqn:Hf; simpl; [by rewrite IH|].
    exfalso. unfold host_record, of_family in *. destruct Hq as [Hq|Hq]; rewrite Hq in *; destruct ip; simpl in *; done.
  - destruct (of_family (Qtype q) ip); [done|exact IH].
Qed.

(** A name of the hosts table is answered from it: a query for an address gets
    exactly the addresses of the table of its family, in their order; nobody else
    is asked, no fake address is given out and the cache stays as it is. *)
Theorem hosts_reply `{Library} {S : Type} `{StoreLaws S} {C : Type} `{DnsCache C} (E : Env)
    (race : list dnsClient → list dnsClient) (system_hosts : option (string → list string)) (fuel : nat)
    (resolver : Resolver) (m : mapper) (now : Z) (r : Msg) (q : Question) (qs : list Question)
    (st : dns_state (S := S) (C := C)) (hv : HostValue) :
  useHosts m = true → Questions r = q :: qs → Qclass q = ClassINET → Qtype q = TypeA ∨ Qtype q = TypeAAAA → Answer r = [] →
  Hosts_Search system_hosts fuel (hosts m) (TrimRight_dots (q_Name q)) false = Some (Some hv, true) →
  Forall (λ ip, addr_wf ip ∧ addr_zone ip = ""%string) (IPs hv) →
  ∃ msg st', ServeMsg E race system_hosts fuel resolver m now r st = Done (Some msg, st') ∧
    msgToIP msg = map Unmap (List.filter (of_family (Qtype q)) (IPs hv)) ∧ Rcode msg = RcodeSuccess ∧ Id msg = Id r ∧
    pool4 st' = pool4 st ∧ pool6 st' = pool6 st ∧ dns_cache st' = dns_cache st ∧ tp st' = DNSTypeHost.
Proof.
  intros Hu Hq Hcl Hqt Hans Hs Hips. unfold ServeMsg, newHandler. rewrite Hq, Hu. cbn [app compose foldr].
  unfold withHosts. rewrite Hq.
  assert (isIPRequest q = true) as ->.
  { unfold isIPRequest. rewrite Hcl. by destruct Hqt as [-> | ->]. }
  assert (negb (Qtype q =? TypeA)%Z && negb (Qtype q =? TypeAAAA)%Z = false ∧ ((Qtype q =? TypeA)%Z || (Qtype q =? TypeAAAA)%Z) = true)
    as [Hkind Hkind'] by (by destruct Hqt as [-> | ->]).
  rewrite Hkind, Hs, Hkind'. cbn [negb].
  pose proof (handleIPs_spec now q (TrimRight_dots (q_Name q)) (IPs hv) r (set_type DNSTypeNone st)) as Hip.
  destruct (handleIPs _ _ _ _ _ _) as [msg st']. destruct Hip as (Ha & _ & _ & H4 & H6 & Hc).
  eexists _, _. split; [reflexivity|].
  pose proof (SetRcode_spec msg r RcodeSuccess) as Hset. cbv zeta in Hset. destruct Hset as (Hrc & Hid & _ & _ & Ham & _).
  split_and!; try done. unfold msgToIP, authoritative_reply. cbn [Answer with_flags]. rewrite Ham, Ha, Hans. cbn [app].
  by apply msgToIP_hosts.
Qed.

(** An alias of the hosts table has no answer for a query of type CNAME: the
    record is added to the request, when the reply has been copied from it. *)
Lemma hosts_cname_unanswered `{Library} {S : Type} `{Store S} {C : Type} `{DnsCache C} (E : Env)
    (race : list dnsClient → list dnsClient) (system_hosts : option (string → list string)) (fuel : nat)
    (resolver : Resolver) (m : mapper) (now : Z) (r : Msg) (q : Question) (qs : list Question)
    (st : dns_state (S := S) (C := C)) (hv : HostValue) :
  useHosts m = true → Questions r = q :: qs → Qclass q = ClassINET → Qtype q = TypeCNAME → Answer r = [] →
  Hosts_Search system_hosts fuel (hosts m) (TrimRight_dots (q_Name q)) true = Some (Some hv, true) →
  ∃ msg st', ServeMsg E race system_hosts fuel resolver m now r st = Done (Some msg, st') ∧ Answer msg = [] ∧ Rcode msg = RcodeSuccess.
Proof.
  intros Hu Hq Hcl Hqt Hans Hs. unfold ServeMsg, newHandler. rewrite Hq, Hu. cbn [app compose foldr].
  unfold withHosts. rewrite Hq.
  assert (isIPRequest q = true) as -> by (unfold isIPRequest; by rewrite Hcl, Hqt).
  rewrite Hqt. change (negb (TypeCNAME =? TypeA)%Z && negb (TypeCNAME =? TypeAAAA)%Z) with true. rewrite Hs. cbn [negb].
  change ((TypeCNAME =? TypeA)%Z || (TypeCNAME =? TypeAAAA)%Z) with false. change (TypeCNAME =? TypeCNAME)%Z with true. cbv iota.
  eexists _, _. split; [reflexivity|]. pose proof (SetRcode_spec r (handleCName q (hv_Domain hv) r) RcodeSuccess) as Hset. cbv zeta in Hset.
  destruct Hset as (Hrc & _ & _ & _ & Ham & _). unfold authoritative_reply. cbn [Answer Rcode with_flags]. by rewrite Ham.
Qed.

(** *** What a query may change *)

Section Frame.
Context `{Library} {S : Type} `{Store S} {C : Type} `{DnsCache C}.
Context (E : Env) (race : list dnsClient → list dnsClient) (system_hosts : option (string → list string)) (fuel : nat).
Context (skipper : Skipper).

Abbreviation state := (@dns_state S C).

(** One pool may have looked up a name that the filter does not skip, and then
    no server was asked. *)
Definition frame (st st' : state) : Prop :=
  (pool4 st' = pool4 st ∧ pool6 st' = pool6 st) ∨
  (dns_cache st' = dns_cache st ∧ ∃ name p, ShouldSkipped E fuel skipper name = Done false ∧
    ((pool4 st = Some p ∧ pool4 st' = Some (Lookup name p).2 ∧ pool6 st' = pool6 st) ∨
     (pool6 st = Some p ∧ pool6 st' = Some (Lookup name p).2 ∧ pool4 st' = pool4 st))).

Definition quiet (st st' : state) : Prop := pool4 st' = pool4 st ∧ pool6 st' = pool6 st ∧ dns_cache st' = dns_cache st.

Definition framed (h : handler (S := S) (C := C)) : Prop := ∀ now r st res st', h now r st = Done (res, st') → frame st st'.

Lemma frame_quiet st st' : quiet st st' → frame st st'.
Proof. intros (? & ? & _). by left. Qed.

Lemma quiet_frame_quiet st st1 st2 st' : quiet st st1 → frame st1 st2 → quiet st2 st' → frame st st'.
Proof.
  intros (H4 & H6 & Hc) Hf (H4' & H6' & Hc'). destruct Hf as [[? ?]|(? & name & p & ? & Hp)]; [left; split; congruence|].
  right. split; [congruence|]. exists name, p. split; [done|]. destruct Hp as [(? & ? & ?)|(? & ? & ?)]; [left|right]; split_and!; congruence.
Qed.

Lemma map_answers_quiet now host answer st : quiet st (map_answers now host answer st).
Proof.
  revert st. induction answer as [|ans answer IH]; intros st; [done|]. cbn [map_answers].
  destruct (record_ip ans) as [ip|]; [|apply IH]. destruct (IsGlobalUnicast ip); [|apply IH].
  destruct (IH (map_host now (Unmap ip) host (if (Ttl ans <? 1)%Z then 1%Z else Ttl ans) st)) as (? & ? & ?). done.
Qed.

Lemma withHosts_framed tree next : framed next → framed (withHosts system_hosts fuel tree next).
Proof.
  intros Hn now r st res st'. unfold withHosts. destruct (Questions r) as [|q qs]; [done|].
  destruct (negb (isIPRequest q)); [apply Hn|]. destruct (Hosts_Search _ _ _ _ _) as [[[hv|] []]|]; try done.
  - destruct (_ || _).
    + pose proof (handleIPs_spec now q (TrimRight_dots (q_Name q)) (IPs hv) r st) as Hip.
      destruct (handleIPs _ _ _ _ _ _) as [msg st1]. destruct Hip as (_ & _ & _ & ? & ? & ?). intros [= _ <-]. by apply frame_quiet.
    + destruct (_ =? TypeCNAME)%Z; [|apply Hn]. intros [= _ <-]. by apply frame_quiet.
  - unfold follow_alias. destruct (IsDomain hv); [|apply Hn].
    destruct (next now (rename_question (hv_Domain hv) r) st) as [[[resp|] st1]| |] eqn:Hnx; try done; intros [= _ <-]; by eapply Hn.
  - apply Hn.
Qed.

Lemma withMapping_framed next : framed next → framed (withMapping next).
Proof.
  intros Hn now r st res st'. unfold withMapping. destruct (Questions r) as [|q qs]; [done|].
  destruct (negb (isIPRequest q)); [apply Hn|]. destruct (next now r st) as [[[msg|] st1]| |] eqn:Hnx; try done.
  - intros [= _ <-]. eapply quiet_frame_quiet; [|by eapply Hn|apply map_answers_quiet]. done.
  - intros [= _ <-]. by eapply Hn.
Qed.

Lemma withFakeIP_framed ttl next : framed next → framed (withFakeIP E fuel skipper ttl next).
Proof.
  intros Hn now r st res st'. unfold withFakeIP. destruct (Questions r) as [|q qs]; [done|].
  destruct (ShouldSkipped E fuel skipper (TrimRight_dots (q_Name q))) as [[]| |] eqn:Hs; try done; [apply Hn|].
  destruct (Qtype q =? TypeA)%Z; [|destruct (Qtype q =? TypeAAAA)%Z].
  - destruct (pool4 st) as [p|] eqn:Hp; [|by intros [= _ <-]; apply frame_quiet].
    destruct (Lookup (TrimRight_dots (q_Name q)) p) as [ip p'] eqn:Hl. intros [= _ <-]. right. split; [done|].
    exists (TrimRight_dots (q_Name q)), p. split; [done|]. left. by rewrite Hl.
  - destruct (pool6 st) as [p|] eqn:Hp; [|by intros [= _ <-]; apply frame_quiet].
    destruct (Lookup (TrimRight_dots (q_Name q)) p) as [ip p'] eqn:Hl. intros [= _ <-]. right. split; [done|].
    exists (TrimRight_dots (q_Name q)), p. split; [done|]. right. by rewrite Hl.
  - destruct (_ || _); [by intros [= _ <-]; apply frame_quiet|apply Hn].
Qed.

Lemma withResolver_framed resolver v6 : framed (withResolver race resolver v6).
Proof.
  intros now r st res st'. unfold withResolver. destruct (Questions r) as [|q qs]; [done|].
  destruct (_ && _); [by intros [= _ <-]; left|]. destruct (ExchangeContext _ _ _ _ _) as [[[x|] more] c]; intros [= _ <-]; by left.
Qed.

End Frame.

(** The fake-IP pools change only by handing out an address for a name that the
    filter does not skip, in fake-IP mode, one pool at a time; and the query that
    gets a fake address asks no server, so the cache is as it was. *)
Theorem pools_only_for_unskipped `{Library} {S : Type} `{StoreLaws S} {C : Type} `{DnsCache C} (E : Env)
    (race : list dnsClient → list dnsClient) (system_hosts : option (string → list string)) (fuel : nat)
    (resolver : Resolver) (m : mapper) (now : Z) (r : Msg) (st st' : dns_state (S := S) (C := C)) (res : option Msg) :
  ServeMsg E race system_hosts fuel resolver m now r st = Done (res, st') →
  frame E fuel (fakeIPSkipper m) st st' ∧ (mode m ≠ DNSFakeIP → pool4 st' = pool4 st ∧ pool6 st' = pool6 st).
Proof.
  intros Hs. unfold ServeMsg in Hs. destruct (Questions r) as [|q qs]; [injection Hs as _ <-; split; [by left|done]|].
  unfold newHandler in Hs. split.
  - destruct (useHosts m), (bool_decide (mode m = DNSFakeIP)), (bool_decide (mode m ≠ DNSNormal)); cbn [app compose foldr] in Hs;
      match type of Hs with ?h now r ?s = _ =>
        assert (framed E fuel (fakeIPSkipper m) h) as Hf
          by (repeat first [apply withHosts_framed|apply withFakeIP_framed|apply withMapping_framed|apply withResolver_framed]);
        apply Hf in Hs; eapply quiet_frame_quiet; [|exact Hs|]; done end.
  - intros Hm. rewrite (bool_decide_eq_false_2 (mode m = DNSFakeIP)) in Hs by done.
    assert (∀ h, framed E fuel (mkSkipper [] [] FilterWhiteList) h → h now r (set_type DNSTypeNone st) = Done (res, st') →
      pool4 st' = pool4 st ∧ pool6 st' = pool6 st) as Hall.
    { intros h Hf Hh. apply Hf in Hh as [?|(_ & name & p & Hsk & _)]; [done|]. discriminate Hsk. }
    destruct (useHosts m), (bool_decide (mode m ≠ DNSNormal)); cbn [app compose foldr] in Hs; (eapply Hall; [|exact Hs]);
      repeat first [apply withHosts_framed|apply withMapping_framed|apply withResolver_framed].
Qed.

(** ** At work *)

#[local] Existing Instance demo_library.

Definition demo_denv : Env := demo_env ∅ {["ads" := Some (domainStrategy (Some (λ d, bool_decide (d = "ad.example"%string))))]}.

Definition demo_filter : list Rule := [RuleSet "ads" "real-ip" false false; DomainSuffix "lan" "real-ip"; Match "fake-ip"].

Definition demo_skipper : Skipper := mkSkipper demo_filter [] FilterRule.

Definition demo_parse_env : ParseEnv := mkParseEnv (λ _, true) true true true true true (λ _, true) (λ _, true).

Lemma filter_first_rule_witness :
  ShouldSkipped demo_denv 1 demo_skipper "ad.example" = Done true ∧ ShouldSkipped demo_denv 1 demo_skipper "a.example" = Done false.
Proof.
  assert (parseFakeIPRules demo_parse_env {["ads" := false]}
    ["RULE-SET,ads,REAL-IP"; "domain-suffix,lan,real-ip"; "MATCH,Fake-IP"]%string = Some demo_filter) as Hp by (vm_compute; reflexivity).
  assert (domain_sets demo_denv demo_filter) as Hs.
  { intros n a src nr Hin. unfold demo_filter in Hin. apply elem_of_cons in Hin as [[= -> -> -> ->]|Hin]; [done|].
    repeat (apply elem_of_cons in Hin as [Hin|Hin]; [discriminate Hin|]). by apply not_elem_of_nil in Hin. }
  split.
  - exact (filter_first_rule demo_denv demo_parse_env {["ads" := false]} _ demo_filter [] FilterRule 0 "ad.example" Hp ltac:(done) Hs).
  - exact (filter_first_rule demo_denv demo_parse_env {["ads" := false]} _ demo_filter [] FilterRule 0 "a.example" Hp ltac:(done) Hs).
Defined.

Definition demo_hosts : Node HostValue :=
  default newNode (Insert "h.example" (mkHostValue false [Addr4 167772161; Addr6 1 ""; Addr4 167772162] "") newNode).

Definition demo_mapper (d : DNSMode) : mapper := mkMapper true d true demo_hosts demo_skipper 1.

Definition demo_state (p4 : option (Pool memoryStore)) : dns_state (S := memoryStore) (C := lstate string Msg) :=
  mkDns p4 None (Some (New (mkHeap ∅ 0) [WithSize 4096%Z])) (newCache 0) DNSTypeNone.

Definition demo_question (name : string) (t : Z) : Msg := with_header 9 [mkQuestion name t ClassINET] empty_msg.

Definition demo_net6 : Prefix := mkPrefix (Addr6 (2 ^ 120) "") 64.

Definition demo_state6 (p4 p6 : Pool memoryStore) : dns_state (S := memoryStore) (C := lstate string Msg) :=
  mkDns (Some p4) (Some p6) (Some (New (mkHeap ∅ 0) [WithSize 4096%Z])) (newCache 0) DNSTypeNone.

(** Both pools have handed out an address; the query is for an IPv6 address. *)
Lemma fake_ip_answer_witness :
  ∃ p4 p6, NewPool demo_last demo_net (newMemoryStore 100) = Some p4 ∧ NewPool demo_last demo_net6 (newMemoryStore 100) = Some p6 ∧
  let st := demo_state6 (pool_run [PLookup "b.example"] p4) (pool_run [PLookup "b.example"] p6) in
  let q := mkQuestion "A.Example." TypeAAAA ClassINET in
  ∃ msg rr ip p', ServeMsg demo_denv (λ l, l) None 3 demo_resolver (demo_mapper DNSFakeIP) 0%Z (demo_question "A.Example." TypeAAAA) st =
      Done (Some msg, with_pool q p' st) ∧
    Answer msg = [rr] ∧ record_ip rr = Some ip ∧ Is4 ip = false ∧ (Lookup "a.example" p').1 = ip.
Proof.
  eexists _, _. split; [vm_compute; reflexivity|]. split; [vm_compute; reflexivity|].
  match goal with |- context [demo_state6 (pool_run ?o4 ?p4) (pool_run ?o6 ?p6)] =>
    pose proof (reachable_inv _ _ _ (demo_reachable o4 p4 ltac:(vm_compute; reflexivity))) as H4;
    assert (reachable demo_last demo_net6 (pool_run o6 p6)) as H6
  end.
  { eexists (newMemoryStore 100), _, _. split_and!; [exists 100%Z, []; apply newMemoryStore_rep|done|done|by vm_compute|vm_compute; reflexivity|done]. }
  apply reachable_inv in H6.
  intros st q. destruct (fake_ip_answer demo_denv (λ l, l) None 3 demo_resolver (demo_mapper DNSFakeIP) 0%Z (demo_question "A.Example." TypeAAAA)
    q [] _ st eq_refl ltac:(done) eq_refl (or_intror eq_refl)
    ltac:(intros _; vm_compute; reflexivity) ltac:(vm_compute; reflexivity)
    ltac:(split; intros p [= <-]; (split; [assumption|vm_compute; reflexivity])) eq_refl)
    as (msg & rr & ip & p' & Hs & Ha & Hr & Hf & _ & _ & _ & _ & _ & _ & _ & _ & Hag).
  exists msg, rr, ip, p'. split_and!; [exact Hs|exact Ha|exact Hr|exact Hf|]. by apply Hag.
Defined.

Lemma mapping_remembers_witness :
  ∃ msg st' l', ServeMsg demo_denv (λ l, l) None 3 demo_resolver (demo_mapper DNSMapping) 0%Z demo_query (demo_state None) = Done (Some msg, st') ∧
    mapping st' = Some l' ∧ (Get (Addr4 16909060) (10 ^ 9)%Z l').1 = Some "a.example"%string.
Proof.
  assert (match ServeMsg demo_denv (λ l, l) None 3 demo_resolver (demo_mapper DNSMapping) 0%Z demo_query (demo_state None) with
          | Done (Some msg, _) => length (Answer msg) = 2 ∧ mapped_ips (Answer msg) = [Addr4 16909060; Addr4 16909061]
          | _ => False
          end) as Hout by (vm_compute; done).
  destruct (ServeMsg demo_denv (λ l, l) None 3 demo_resolver (demo_mapper DNSMapping) 0%Z demo_query (demo_state None))
    as [[[msg|] st']| |] eqn:Hs; try done. destruct Hout as [Hlen Hips].
  destruct (mapping_remembers demo_denv (λ l, l) None 3 demo_resolver (demo_mapper DNSMapping) 0%Z demo_query demo_q [] (demo_state None) st'
    _ msg eq_refl eq_refl eq_refl ltac:(intros _; vm_compute; reflexivity) eq_refl) with (2 := Hs) as (_ & _ & l' & Hl & Hm).
  { rewrite Hlen. exists (mkA [] []). split_and!; [apply refines_new, empty_heap_fresh|done|]. right. done. }
  exists msg, st', l'. split_and!; [done|done|]. apply Hm. rewrite Hips. apply list_elem_of_here.
Defined.

Lemma hosts_reply_witness :
  ∃ msg st', ServeMsg demo_denv (λ l, l) None 3 demo_resolver (demo_mapper DNSFakeIP) 0%Z (demo_question "h.example." TypeA) (demo_state None) = Done (Some msg, st') ∧
    msgToIP msg = [Addr4 167772161; Addr4 167772162].
Proof.
  destruct (hosts_reply demo_denv (λ l, l) None 3 demo_resolver (demo_mapper DNSFakeIP) 0%Z (demo_question "h.example." TypeA)
    (mkQuestion "h.example." TypeA ClassINET) [] (demo_state None) (mkHostValue false [Addr4 167772161; Addr6 1 ""; Addr4 167772162] ""))
    as (msg & st' & Hs & Hip & _); try done; [by left|by repeat constructor|].
  exists msg, st'. split; [exact Hs|exact Hip].
Defined.

Lemma pools_only_for_unskipped_witness :
  pool4 (demo_state None) = None ∧
  frame demo_denv 3 demo_skipper (demo_state None) (set_type DNSTypeNone (demo_state None)).
Proof.
  split; [done|].
  apply (pools_only_for_unskipped demo_denv (λ l, l) None 3 demo_resolver (demo_mapper DNSFakeIP) 0%Z (demo_question "b.example." TypeA)
    (demo_state None) _ (Some (handleMsgWithEmptyAnswer (demo_question "b.example." TypeA)))).
  vm_compute. reflexivity.
Defined.
