(* ===== verification/Arc.v ===== *)
(** * The adaptive replacement cache

    [common/arc]: four lists of entries, most recently used first.  [t1] and
    [t2] hold what was used once and what was used again, [b1] and [b2] the
    ghosts of what was dropped from them: entries that keep their key but not
    their value.  [c] is the size and [p] the target length of [t1].

    The code links every entry into a list and from the map of the cache by
    pointers; here an entry is known by its key, since it enters the lists and
    the map in one operation and leaves both in one ([delLRU]).  [None] is a
    panic: the last element of an empty list is a nil pointer, and a list that
    is empty has no length to divide by.

    The theorems: no operation panics, the cache holds no more than its size
    and what it returns is what was last stored ([arc_refines_map]), and a scan
    of new keys does not push out what is in use ([arc_scan_resistant]); the
    count of entries is not kept right ([arc_len_drifts]).  The cache is one
    that the resolver of [Dns] can use ([arc_dns_cache_laws]). *)

From Stdlib Require Import ZArith Lia String.
From stdpp Require Import prelude gmap list strings sorting.
From S2P Require Import Prelude Dns.

#[local] Set Default Proof Using "Type*".

(** ** Data *)

Inductive list_id := T1 | B1 | T2 | B2.

#[global] Instance list_id_eq_dec : EqDecision list_id.
Proof. solve_decision. Defined.

Section Arc.
Context {K V : Type} `{Countable K} (zero : V).

Record arc_entry := mkArcEntry { avalue : V; ghost : bool; aexpires : Z; ll : option list_id }.

Record ARC := mkArc {
  arc_p : Z;
  arc_c : Z;
  t1 : list K;
  b1 : list K;
  t2 : list K;
  b2 : list K;
  arc_len : Z;
  arc_cache : gmap K arc_entry
}.

Definition lst (i : list_id) (a : ARC) : list K :=
  match i with T1 => t1 a | B1 => b1 a | T2 => t2 a | B2 => b2 a end.

Definition set_lst (i : list_id) (l : list K) (a : ARC) : ARC :=
  mkArc (arc_p a) (arc_c a) (if decide (i = T1) then l else t1 a) (if decide (i = B1) then l else b1 a)
    (if decide (i = T2) then l else t2 a) (if decide (i = B2) then l else b2 a) (arc_len a) (arc_cache a).

Definition set_p (p : Z) (a : ARC) : ARC := mkArc p (arc_c a) (t1 a) (b1 a) (t2 a) (b2 a) (arc_len a) (arc_cache a).

Definition set_len (n : Z) (a : ARC) : ARC := mkArc (arc_p a) (arc_c a) (t1 a) (b1 a) (t2 a) (b2 a) n (arc_cache a).

Definition set_cache (m : gmap K arc_entry) (a : ARC) : ARC :=
  mkArc (arc_p a) (arc_c a) (t1 a) (b1 a) (t2 a) (b2 a) (arc_len a) m.

Definition with_ll (i : list_id) (e : arc_entry) : arc_entry := mkArcEntry (avalue e) (ghost e) (aexpires e) (Some i).

(** The length of a list, as Go's [int]. *)
Definition Len_ (i : list_id) (a : ARC) : Z := Z.of_nat (length (lst i a)).

(** ** Operations *)

Definition Arc_Clear (a : ARC) : ARC := mkArc 0 (arc_c a) [] [] [] [] 0 ∅.

Definition Arc_New (size : Z) : ARC := mkArc 0 size [] [] [] [] 0 ∅.

(** [detach] and [setMRU] of an entry with key [key] that is in list [from]. *)
Definition detach (key : K) (from : option list_id) (a : ARC) : ARC :=
  match from with Some i => set_lst i (filter (λ k, k ≠ key) (lst i a)) a | None => a end.

Definition setMRU (key : K) (from : option list_id) (to : list_id) (a : ARC) : ARC :=
  let a := detach key from a in set_lst to (key :: lst to a) a.

Definition delLRU (i : list_id) (a : ARC) : option ARC :=
  key ← list.last (lst i a);
  let a := set_lst i (filter (λ k, k ≠ key) (lst i a)) a in
  Some (set_cache (delete key (arc_cache a)) (set_len (arc_len a - 1) a)).

(** The last entry of [from] becomes a ghost in [to]. *)
Definition demote (from to : list_id) (a : ARC) : option ARC :=
  key ← list.last (lst from a);
  let a := set_len (arc_len a - 1) a in
  let a := setMRU key (Some from) to a in
  Some (set_cache (alter (λ e, mkArcEntry zero true (aexpires e) (Some to)) key (arc_cache a)) a).

Definition replace_ (from : option list_id) (a : ARC) : option ARC :=
  if bool_decide (0 < Len_ T1 a ∧ (arc_p a < Len_ T1 a ∨ (from = Some B2 ∧ Len_ T1 a = arc_p a)))%Z
  then demote T1 B1 a
  else demote T2 B2 a.

(** How far the target moves on a hit of a ghost in [mine]. *)
Definition adaptation (mine other : list_id) (a : ARC) : option Z :=
  if (Len_ other a <=? Len_ mine a)%Z then Some 1%Z
  else if (Len_ mine a =? 0)%Z then None
  else Some (Len_ other a ÷ Len_ mine a)%Z.

(** [req] of an entry that is in list [from], [None] for a new one.  It says
    also which list the entry is put in, which the caller notes in the entry. *)
Definition req (key : K) (from : option list_id) (a : ARC) : option (list_id * ARC) :=
  match from with
  | Some T1 | Some T2 => Some (T2, setMRU key from T2 a)
  | Some B1 =>
    d ← adaptation B1 B2 a;
    a ← replace_ from (set_p (Z.min (arc_p a + d) (arc_c a)) a);
    Some (T2, setMRU key from T2 a)
  | Some B2 =>
    d ← adaptation B2 B1 a;
    a ← replace_ from (set_p (Z.max (arc_p a - d) 0) a);
    Some (T2, setMRU key from T2 a)
  | None =>
    if (Len_ T1 a + Len_ B1 a =? arc_c a)%Z then
      a ← (if (Len_ T1 a <? arc_c a)%Z then delLRU B1 a ≫= replace_ from else delLRU T1 a);
      Some (T1, setMRU key from T1 a)
    else if (Len_ T1 a + Len_ B1 a <? arc_c a)%Z then
      let total := (Len_ T1 a + Len_ T2 a + Len_ B1 a + Len_ B2 a)%Z in
      a ← (if (arc_c a <=? total)%Z then
             (if (total =? 2 * arc_c a)%Z then delLRU B2 a else Some a) ≫= replace_ from
           else Some a);
      Some (T1, setMRU key from T1 a)
    else Some (T1, setMRU key from T1 a)
  end.

Definition arc_setWithExpire (key : K) (value : V) (expires : Z) (a : ARC) : option ARC :=
  match arc_cache a !! key with
  | None =>
    '(to, a) ← req key None (set_len (arc_len a + 1) a);
    Some (set_cache (<[key := mkArcEntry value false expires (Some to)]> (arc_cache a)) a)
  | Some e =>
    let a := if ghost e then set_len (arc_len a + 1) a else a in
    let a := set_cache (<[key := mkArcEntry value false expires (ll e)]> (arc_cache a)) a in
    '(to, a) ← req key (ll e) a;
    Some (set_cache (alter (with_ll to) key (arc_cache a)) a)
  end.

(** [get]: the entry, unless it is a ghost. *)
Definition arc_get (key : K) (a : ARC) : option (option arc_entry * ARC) :=
  match arc_cache a !! key with
  | None => Some (None, a)
  | Some e =>
    '(to, a) ← req key (ll e) a;
    Some ((if ghost e then None else Some e), set_cache (alter (with_ll to) key (arc_cache a)) a)
  end.

Definition Arc_Get (key : K) (a : ARC) : option (option V * ARC) :=
  match arc_get key a with Some (e, a) => Some (avalue <$> e, a) | None => None end.

Definition Arc_GetWithExpire (key : K) (a : ARC) : option (option (V * Z) * ARC) :=
  match arc_get key a with Some (e, a) => Some ((λ e, (avalue e, aexpires e)) <$> e, a) | None => None end.

Definition Arc_Set (key : K) (value : V) (a : ARC) : option ARC := arc_setWithExpire key value 0 a.

Definition Arc_Len (a : ARC) : Z := arc_len a.

(** What the cache holds for a key. *)
Definition live (a : ARC) (key : K) : option (V * Z) :=
  e ← arc_cache a !! key; if ghost e then None else Some (avalue e, aexpires e).

(** ** Lists of the cache *)

(** Every key is in the list that [f] says, once. *)
Definition placed (f : K → option list_id) (a : ARC) : Prop :=
  ∀ i, NoDup (lst i a) ∧ ∀ k, k ∈ lst i a ↔ f k = Some i.

(** Where the entries are, with [key], whose entry may be new, in [from]. *)
Definition place (key : K) (from : option list_id) (a : ARC) (k : K) : option list_id :=
  if decide (k = key) then from else arc_cache a !! k ≫= ll.

Definition one (b : bool) : Z := if b then 1 else 0.

Lemma lst_set i j l a : lst i (set_lst j l a) = if decide (i = j) then l else lst i a.
Proof. destruct i, j; reflexivity. Qed.

Lemma placed_ext f g a : (∀ k, f k = g k) → placed f a → placed g a.
Proof. intros Hfg Hp i. destruct (Hp i) as [? Hi]. split; [done|]. intros k. by rewrite <- Hfg. Qed.

Lemma placed_same f a a' : (∀ i, lst i a' = lst i a) → placed f a → placed f a'.
Proof. intros Hl Hp i. rewrite Hl. apply Hp. Qed.

Lemma filter_ne_id (k : K) (l : list K) : k ∉ l → filter (λ x, x ≠ k) l = l.
Proof.
  induction l as [|x l IH]; [done|]. intros [Hx Hl]%not_elem_of_cons. rewrite filter_cons_True by done. by rewrite IH.
Qed.

Lemma drop_length (k : K) (l : list K) : NoDup l → k ∈ l → length l = S (length (filter (λ x, x ≠ k) l)).
Proof.
  induction 1 as [|x l Hx _ IH]; [by intros ?%not_elem_of_nil|]. intros [->|Hk]%elem_of_cons.
  - rewrite filter_cons_False by auto. by rewrite filter_ne_id.
  - rewrite filter_cons_True by (intros ->; done). simpl. by rewrite IH.
Qed.

Lemma placed_detach f k from a :
  placed f a → f k = from → placed (λ x, if decide (x = k) then None else f x) (detach k from a).
Proof.
  intros Hp Hk i. destruct (Hp i) as [Hn Hi]. destruct from as [j|]; simpl.
  - rewrite lst_set. case_decide as Hij; [subst j; split; [by apply NoDup_filter|]|split; [done|]]; intros x.
    + rewrite list_elem_of_filter, Hi. case_decide; [subst; naive_solver|naive_solver].
    + rewrite Hi. case_decide; [subst; split; congruence|done].
  - split; [done|]. intros x. rewrite Hi. case_decide; [subst; split; congruence|done].
Qed.

Lemma Len_detach f k from a i :
  placed f a → f k = from → Len_ i (detach k from a) = (Len_ i a - one (bool_decide (from = Some i)))%Z.
Proof.
  intros Hp Hk. unfold Len_. destruct from as [j|]; simpl; [|unfold one; lia].
  rewrite lst_set. unfold one. case_decide as Hij; subst.
  - rewrite bool_decide_true by done. destruct (Hp j) as [Hn Hj]. rewrite (drop_length k (lst j a)) by (done || by apply Hj). lia.
  - rewrite bool_decide_false by congruence. lia.
Qed.

Lemma placed_setMRU f k from to a :
  placed f a → f k = from → placed (λ x, if decide (x = k) then Some to else f x) (setMRU k from to a).
Proof.
  intros Hp Hk i. unfold setMRU. pose proof (placed_detach f k from a Hp Hk) as Hd. rewrite lst_set.
  destruct (Hd i) as [Hn Hi]. destruct (Hd to) as [Hn' Hi']. case_decide as Hto; [subst i; split|split; [done|]].
  - apply NoDup_cons. split; [|done]. rewrite Hi'. by rewrite decide_True.
  - intros x. rewrite elem_of_cons, Hi'. case_decide; naive_solver.
  - intros x. rewrite Hi. case_decide; [|done]. split; congruence.
Qed.

Lemma Len_setMRU f k from to a i :
  placed f a → f k = from →
  Len_ i (setMRU k from to a) = (Len_ i a - one (bool_decide (from = Some i)) + one (bool_decide (i = to)))%Z.
Proof.
  intros Hp Hk. unfold setMRU. rewrite <- (Len_detach f k from a i) by done. unfold Len_ at 1. rewrite lst_set.
  unfold one. case_decide; subst; [rewrite bool_decide_true by done|rewrite bool_decide_false by done]; unfold Len_; simpl; lia.
Qed.

(** What an operation on [key] may do to the entry of another key: nothing,
    forget it, or make it a ghost. *)
Definition fades (x y : option arc_entry) : Prop :=
  y = x ∨ y = None ∨ ∃ e i, x = Some e ∧ y = Some (mkArcEntry zero true (aexpires e) (Some i)).

Definition fading (key : K) (a a' : ARC) : Prop :=
  arc_cache a' !! key = arc_cache a !! key ∧ ∀ k, k ≠ key → fades (arc_cache a !! k) (arc_cache a' !! k).

Lemma fades_trans x y z : fades x y → fades y z → fades x z.
Proof. intros [->|[->|(e & i & -> & ->)]] [->|[->|(e' & i' & He & ->)]]; unfold fades; naive_solver. Qed.

Lemma fading_trans key a1 a2 a3 : fading key a1 a2 → fading key a2 a3 → fading key a1 a3.
Proof. intros [H1 H2] [H3 H4]. split; [congruence|]. intros k Hk. eapply fades_trans; [by apply H2|by apply H4]. Qed.

Lemma fading_same key a a' : arc_cache a' = arc_cache a → fading key a a'.
Proof. unfold fading. intros ->. split; [done|]. intros k _. by left. Qed.

(** Only the lengths of [t1], [t2], [b1] and [b2] and the target decide what an
    operation does. *)
Definition sizes (a : ARC) (n1 n2 m1 m2 : Z) : Prop := Len_ T1 a = n1 ∧ Len_ T2 a = n2 ∧ Len_ B1 a = m1 ∧ Len_ B2 a = m2.

Definition is_ghost_list (i : list_id) : bool := match i with B1 | B2 => true | _ => false end.

Lemma last_in (l : list K) : l ≠ [] → ∃ x, list.last l = Some x ∧ x ∈ l.
Proof. intros Hl. destruct (exists_last Hl) as (l' & x & ->). exists x. rewrite last_snoc. set_solver. Qed.

Lemma Len_nonempty i a : (0 < Len_ i a)%Z → lst i a ≠ [].
Proof. unfold Len_. intros Hl He. rewrite He in Hl. simpl in Hl. lia. Qed.

Lemma placed_last key from a i :
  placed (place key from a) a → from ≠ Some i → (0 < Len_ i a)%Z →
  ∃ x e, list.last (lst i a) = Some x ∧ x ≠ key ∧ arc_cache a !! x = Some e ∧ ll e = Some i.
Proof.
  intros Hp Hf Hl. destruct (last_in (lst i a)) as (x & Hx & Hin); [by apply Len_nonempty|].
  destruct (Hp i) as [_ Hi]. apply Hi in Hin. unfold place in Hin. case_decide as Hk; [congruence|].
  apply bind_Some in Hin as (e & He & Hll). eauto 10.
Qed.

Lemma delLRU_spec key from a i :
  placed (place key from a) a → from ≠ Some i → (0 < Len_ i a)%Z →
  ∃ a', delLRU i a = Some a' ∧ placed (place key from a') a' ∧ fading key a a' ∧ arc_p a' = arc_p a ∧ arc_c a' = arc_c a ∧
    ∀ j, Len_ j a' = (Len_ j a - one (bool_decide (j = i)))%Z.
Proof.
  intros Hp Hf Hl. destruct (placed_last key from a i Hp Hf Hl) as (x & e & Hx & Hxk & He & Hll).
  unfold delLRU. rewrite Hx. simpl. eexists. split; [done|].
  assert (place key from a x = Some i) as Hxi by (unfold place; rewrite decide_False by done; by rewrite He).
  split_and!; try done.
  - apply (placed_same _ (detach x (Some i) a)); [by intros []|].
    eapply placed_ext; [|by apply (placed_detach _ x (Some i) a Hp)]. intros k. unfold place. simpl.
    case_decide as Hk; [subst k; case_decide; [congruence|by rewrite lookup_delete_eq]|].
    case_decide; [done|]. by rewrite lookup_delete_ne.
  - split; simpl; [by rewrite lookup_delete_ne|]. intros k Hk. destruct (decide (k = x)) as [->|]; [rewrite lookup_delete_eq; by right; left|].
    rewrite lookup_delete_ne by done. by left.
  - intros j. change (Len_ j _) with (Len_ j (detach x (Some i) a)) at 1. rewrite (Len_detach (place key from a)) by done.
    f_equal. f_equal. apply bool_decide_ext. split; congruence.
Qed.

Lemma demote_spec key from a i j :
  placed (place key from a) a → from ≠ Some i → (0 < Len_ i a)%Z →
  ∃ a', demote i j a = Some a' ∧ placed (place key from a') a' ∧ fading key a a' ∧ arc_p a' = arc_p a ∧ arc_c a' = arc_c a ∧
    ∀ l, Len_ l a' = (Len_ l a - one (bool_decide (l = i)) + one (bool_decide (l = j)))%Z.
Proof.
  intros Hp Hf Hl. destruct (placed_last key from a i Hp Hf Hl) as (x & e & Hx & Hxk & He & Hll).
  unfold demote. rewrite Hx. simpl. eexists. split; [done|].
  assert (place key from a x = Some i) as Hxi by (unfold place; rewrite decide_False by done; by rewrite He).
  split_and!; try done.
  - apply (placed_same _ (setMRU x (Some i) j a)); [by intros []|].
    eapply placed_ext; [|by apply (placed_setMRU _ x (Some i) j a Hp)]. intros k. unfold place. simpl.
    case_decide as Hk; [subst k; case_decide; [congruence|by rewrite lookup_alter_eq, He]|].
    case_decide; [done|]. by rewrite lookup_alter_ne.
  - split; simpl; [by rewrite lookup_alter_ne|]. intros k Hk.
    destruct (decide (k = x)) as [->|]; [rewrite lookup_alter_eq, He; right; right; eauto|]. rewrite lookup_alter_ne by done. by left.
  - intros l. change (Len_ l _) with (Len_ l (setMRU x (Some i) j a)) at 1. rewrite (Len_setMRU (place key from a)) by done.
    f_equal. f_equal. f_equal. apply bool_decide_ext. split; congruence.
Qed.

(** What [req] needs, besides the places, to keep the sizes right. *)
Definition sized (a : ARC) : Prop :=
  (1 ≤ arc_c a ∧ 0 ≤ arc_p a ≤ arc_c a ∧ Len_ T1 a + Len_ B1 a ≤ arc_c a ∧ Len_ T1 a + Len_ T2 a ≤ arc_c a ∧
  Len_ T1 a + Len_ T2 a + Len_ B1 a + Len_ B2 a ≤ 2 * arc_c a ∧
  (Len_ B1 a + Len_ B2 a = 0 ∨ Len_ T1 a + Len_ T2 a = arc_c a))%Z.

Lemma Len_nonneg i a : (0 ≤ Len_ i a)%Z.
Proof. unfold Len_. lia. Qed.

(** The lists change by one demotion from the top to its ghosts. *)
Definition replaced (a a' : ARC) : Prop :=
  ((Len_ T1 a' = Len_ T1 a - 1 ∧ Len_ B1 a' = Len_ B1 a + 1 ∧ Len_ T2 a' = Len_ T2 a ∧ Len_ B2 a' = Len_ B2 a) ∨
   (Len_ T1 a' = Len_ T1 a ∧ Len_ B1 a' = Len_ B1 a ∧ Len_ T2 a' = Len_ T2 a - 1 ∧ Len_ B2 a' = Len_ B2 a + 1))%Z.

Lemma replace_spec key from a :
  placed (place key from a) a → from ≠ Some T1 → from ≠ Some T2 →
  (0 < Len_ T2 a ∨ (0 < Len_ T1 a ∧ (arc_p a < Len_ T1 a ∨ (from = Some B2 ∧ Len_ T1 a = arc_p a))))%Z →
  ∃ a', replace_ from a = Some a' ∧ placed (place key from a') a' ∧ fading key a a' ∧ arc_p a' = arc_p a ∧ arc_c a' = arc_c a ∧
    replaced a a'.
Proof.
  intros Hp H1 H2 Hl. unfold replace_, replaced. case_bool_decide as Hc.
  - destruct (demote_spec key from a T1 B1) as (a' & ? & ? & ? & ? & ? & Hlen); [done..|lia|]. exists a'. split_and!; try done.
    left. rewrite !Hlen. unfold one. simpl. lia.
  - destruct (demote_spec key from a T2 B2) as (a' & ? & ? & ? & ? & ? & Hlen); [done..|by destruct Hl|]. exists a'. split_and!; try done.
    right. rewrite !Hlen. unfold one. simpl. lia.
Qed.

(** The entry of the operation goes to the front of [to]. *)
Lemma finish key from to a :
  placed (place key from a) a →
  let a' := setMRU key from to a in
  placed (place key (Some to) a') a' ∧ fading key a a' ∧ arc_p a' = arc_p a ∧ arc_c a' = arc_c a ∧
  ∀ l, Len_ l a' = (Len_ l a - one (bool_decide (from = Some l)) + one (bool_decide (l = to)))%Z.
Proof.
  intros Hp a'. assert (arc_cache a' = arc_cache a) as Hca by (unfold a', setMRU, detach; by destruct from).
  assert (place key from a key = from) as Hk by (unfold place; by rewrite decide_True).
  split_and!; [|by apply fading_same|unfold a', setMRU, detach; by destruct from..|].
  - eapply placed_ext; [|by apply (placed_setMRU _ key from to a Hp)]. intros k. unfold place. rewrite Hca. by case_decide.
  - intros l. by apply (Len_setMRU (place key from a)).
Qed.

Lemma adaptation_spec mine other a :
  (0 < Len_ mine a)%Z → ∃ d, adaptation mine other a = Some d ∧ (1 ≤ d)%Z.
Proof.
  intros Hm. unfold adaptation. destruct (Z.leb_spec (Len_ other a) (Len_ mine a)); [by exists 1%Z|].
  destruct (Z.eqb_spec (Len_ mine a) 0); [lia|]. eexists. split; [done|]. pose proof (Z.quot_le_lower_bound (Len_ other a) (Len_ mine a) 1). lia.
Qed.

Lemma placed_nonempty key i a : placed (place key (Some i) a) a → (0 < Len_ i a)%Z.
Proof.
  intros Hp. destruct (Hp i) as [_ Hi]. assert (key ∈ lst i a) as Hin by (apply Hi; unfold place; by rewrite decide_True).
  unfold Len_. destruct (lst i a); [by apply not_elem_of_nil in Hin|simpl; lia].
Qed.

Lemma placed_set_p key from a p : placed (place key from a) a → placed (place key from (set_p p a)) (set_p p a).
Proof. intros Hp. by apply (placed_same _ a); [intros []|]. Qed.

(** What [req] comes to: the entry at the front of a list of the cache. *)
Definition settled (key : K) (a : ARC) (r : option (list_id * ARC)) : Prop :=
  ∃ to a', r = Some (to, a') ∧ is_ghost_list to = false ∧ placed (place key (Some to) a') a' ∧ fading key a a' ∧ sized a' ∧
    arc_c a' = arc_c a.

Lemma settle key from to a0 a :
  placed (place key from a) a → fading key a0 a → is_ghost_list to = false → arc_c a = arc_c a0 →
  sized (setMRU key from to a) →
  settled key a0 (Some (to, setMRU key from to a)).
Proof.
  intros Hp Hf Hg Hc Hs. destruct (finish key from to a Hp) as (H1 & H2 & _ & H3 & _).
  eexists _, _. split_and!; try done; [by eapply fading_trans|congruence].
Qed.

(** The sizes are right after the entry is put in front of [to]. *)
Lemma sized_setMRU key from to a :
  placed (place key from a) a →
  let n l := (Len_ l a - one (bool_decide (from = Some l)) + one (bool_decide (l = to)))%Z in
  (1 ≤ arc_c a ∧ 0 ≤ arc_p a ≤ arc_c a ∧ n T1 + n B1 ≤ arc_c a ∧ n T1 + n T2 ≤ arc_c a ∧
  n T1 + n T2 + n B1 + n B2 ≤ 2 * arc_c a ∧ (n B1 + n B2 = 0 ∨ n T1 + n T2 = arc_c a))%Z →
  sized (setMRU key from to a).
Proof.
  intros Hp n Hn. destruct (finish key from to a Hp) as (_ & _ & Hp' & Hc' & Hl). unfold sized. by rewrite Hp', Hc', !Hl.
Qed.

Lemma req_hit key i a :
  placed (place key (Some i) a) a → sized a → is_ghost_list i = false → settled key a (req key (Some i) a).
Proof.
  intros Hp Hs Hg. pose proof (placed_nonempty _ _ _ Hp). assert (req key (Some i) a = Some (T2, setMRU key (Some i) T2 a)) as -> by (by destruct i).
  apply settle; [done|by apply fading_same|done..|]. apply sized_setMRU; [done|]. unfold sized, one in *.
  destruct i; try done; simpl; lia.
Qed.

Lemma req_ghost key i a :
  placed (place key (Some i) a) a → sized a → is_ghost_list i = true → settled key a (req key (Some i) a).
Proof.
  intros Hp Hs Hg. pose proof (placed_nonempty _ _ _ Hp) as Hne. pose proof (Len_nonneg T1 a). pose proof (Len_nonneg T2 a).
  pose proof (Len_nonneg B1 a). pose proof (Len_nonneg B2 a). unfold sized in Hs.
  assert (∀ p, (0 ≤ p ≤ arc_c a)%Z → (i = B2 → p < arc_c a)%Z →
    ∃ a', replace_ (Some i) (set_p p a) = Some a' ∧ settled key a (Some (T2, setMRU key (Some i) T2 a'))) as Hgo.
  { intros p Hpr Hb2. destruct (replace_spec key (Some i) (set_p p a)) as (a' & Ha' & Hp' & Hf & Hap & Hac & Hr).
    - by apply placed_set_p.
    - by destruct i.
    - by destruct i.
    - change (Len_ T2 (set_p p a)) with (Len_ T2 a). change (Len_ T1 (set_p p a)) with (Len_ T1 a). simpl. destruct i; try done; [lia|].
      specialize (Hb2 eq_refl). lia.
    - exists a'. split; [done|]. apply settle; [done|by eapply fading_trans; [by apply fading_same|]|done|done|].
      apply sized_setMRU; [done|]. rewrite Hap, Hac. simpl. unfold replaced in Hr.
      change (Len_ T1 (set_p p a)) with (Len_ T1 a) in Hr. change (Len_ T2 (set_p p a)) with (Len_ T2 a) in Hr.
      change (Len_ B1 (set_p p a)) with (Len_ B1 a) in Hr. change (Len_ B2 (set_p p a)) with (Len_ B2 a) in Hr.
      unfold one. destruct i; try done; simpl; lia. }
  destruct i; try done; simpl.
  - destruct (adaptation_spec B1 B2 a Hne) as (d & -> & Hd). simpl.
    destruct (Hgo (Z.min (arc_p a + d) (arc_c a))) as (a' & -> & Hset); [lia|done|]. exact Hset.
  - destruct (adaptation_spec B2 B1 a Hne) as (d & -> & Hd). simpl.
    destruct (Hgo (Z.max (arc_p a - d) 0)) as (a' & -> & Hset); [lia|lia|]. exact Hset.
Qed.

(** A new entry: room is made in its half of the directory, then in the cache. *)
Lemma replace_new key a0 a :
  placed (place key None a) a → fading key a0 a → arc_c a = arc_c a0 →
  (0 < Len_ T2 a ∨ arc_p a < Len_ T1 a)%Z → (0 ≤ arc_p a)%Z →
  (∀ a', replaced a a' → arc_p a' = arc_p a → arc_c a' = arc_c a → placed (place key None a') a' → sized (setMRU key None T1 a')) →
  settled key a0 (a ← replace_ None a; Some (T1, setMRU key None T1 a)).
Proof.
  intros Hp Hf Hc Hl H0 Hs. destruct (replace_spec key None a) as (a' & -> & Hp' & Hf' & Hap & Hac & Hr); [done..|lia|]. simpl.
  apply settle; [done|by eapply fading_trans|done|congruence|by apply Hs].
Qed.

Lemma req_new key a : placed (place key None a) a → sized a → settled key a (req key None a).
Proof.
  intros Hp Hs. pose proof (Len_nonneg T1 a). pose proof (Len_nonneg T2 a). pose proof (Len_nonneg B1 a). pose proof (Len_nonneg B2 a).
  pose proof Hs as Hs'. unfold sized in Hs'. simpl.
  destruct (Z.eqb_spec (Len_ T1 a + Len_ B1 a) (arc_c a)) as [Heq|Hneq].
  - destruct (Z.ltb_spec (Len_ T1 a) (arc_c a)).
    + destruct (delLRU_spec key None a B1) as (a1 & -> & Hp1 & Hf1 & Hap & Hac & Hl1); [done..|lia|]. simpl.
      apply replace_new; [done|done|done|rewrite !Hl1; unfold one; simpl; lia|lia|].
      intros a' Hr Hap' Hac' Hp'. apply sized_setMRU; [done|]. unfold replaced in Hr. rewrite !Hl1 in Hr. rewrite Hap', Hac', Hap, Hac.
      unfold one in *. simpl in *. lia.
    + destruct (delLRU_spec key None a T1) as (a1 & -> & Hp1 & Hf1 & Hap & Hac & Hl1); [done..|lia|]. simpl.
      apply settle; [done|done|done|done|]. apply sized_setMRU; [done|]. rewrite !Hl1, Hap, Hac. unfold one. simpl. lia.
  - rewrite (proj2 (Z.ltb_lt _ _)) by lia. destruct (Z.leb_spec (arc_c a) (Len_ T1 a + Len_ T2 a + Len_ B1 a + Len_ B2 a)).
    + destruct (Z.eqb_spec (Len_ T1 a + Len_ T2 a + Len_ B1 a + Len_ B2 a) (2 * arc_c a)).
      * destruct (delLRU_spec key None a B2) as (a1 & -> & Hp1 & Hf1 & Hap & Hac & Hl1); [done..|lia|]. simpl.
        apply replace_new; [done|done|done|rewrite !Hl1; unfold one; simpl; lia|lia|].
        intros a' Hr Hap' Hac' Hp'. apply sized_setMRU; [done|]. unfold replaced in Hr. rewrite !Hl1 in Hr. rewrite Hap', Hac', Hap, Hac.
        unfold one in *. simpl in *. lia.
      * simpl. apply replace_new; [done|by apply fading_same|done|lia|lia|].
        intros a' Hr Hap' Hac' Hp'. apply sized_setMRU; [done|]. unfold replaced in Hr. rewrite Hap', Hac'. unfold one. simpl. lia.
    + simpl. apply settle; [done|by apply fading_same|done|done|]. apply sized_setMRU; [done|]. unfold one. simpl. lia.
Qed.

Lemma req_spec key from a : placed (place key from a) a → sized a → settled key a (req key from a).
Proof.
  intros Hp Hs. destruct from as [i|]; [|by apply req_new]. destruct (is_ghost_list i) eqn:Hg; [by apply req_ghost|by apply req_hit].
Qed.

(** ** The invariant *)

Definition arc_inv (a : ARC) : Prop :=
  placed (λ k, arc_cache a !! k ≫= ll) a ∧ sized a ∧
  ∀ k e, arc_cache a !! k = Some e → ∃ i, ll e = Some i ∧ (is_ghost_list i = true → ghost e = true).

Lemma inv_place key a : arc_inv a → placed (place key (arc_cache a !! key ≫= ll) a) a.
Proof. intros (Hp & _). eapply placed_ext; [|exact Hp]. intros k. unfold place. case_decide; by subst. Qed.

Lemma fades_entry x y e :
  fades x y → y = Some e → (∀ e0, x = Some e0 → ∃ i, ll e0 = Some i ∧ (is_ghost_list i = true → ghost e0 = true)) →
  ∃ i, ll e = Some i ∧ (is_ghost_list i = true → ghost e = true).
Proof. intros [->|[->|(e0 & i & -> & ->)]] He Hx; [by apply Hx|done|]. simplify_eq. simpl. by exists i. Qed.

(** After [req], the caller notes the place of the entry. *)
Lemma inv_noted key to a0 a e (m : gmap K arc_entry) :
  arc_inv a0 → (∀ k, k ≠ key → fades (arc_cache a0 !! k) (arc_cache a !! k)) →
  placed (place key (Some to) a) a → sized a → is_ghost_list to = false →
  m !! key = Some e → ll e = Some to → (∀ k, k ≠ key → m !! k = arc_cache a !! k) → arc_inv (set_cache m a).
Proof.
  intros (_ & _ & He0) Hf Hp Hs Hto Hme Hll Hmk. split; [|split].
  - apply (placed_same _ a); [by intros []|]. eapply placed_ext; [|exact Hp]. intros k. unfold place. simpl.
    case_decide as Hk; [subst; by rewrite Hme|by rewrite Hmk].
  - exact Hs.
  - simpl. intros k e' Hke. destruct (decide (k = key)) as [->|Hk].
    + simplify_eq. exists to. by rewrite Hto.
    + rewrite Hmk in Hke by done. eapply fades_entry; [by apply Hf|done|]. intros e0. apply He0.
Qed.

Lemma fades_live a a' k : fades (arc_cache a !! k) (arc_cache a' !! k) → ∀ x, live a' k = Some x → live a k = Some x.
Proof.
  unfold live. intros [->|[->|(e & i & -> & ->)]] x; simpl; done.
Qed.

(** The store of the values before the entry is placed. *)
Lemma set_known key value expires a e i :
  arc_inv a → arc_cache a !! key = Some e → ll e = Some i →
  let a1 := set_cache (<[key := mkArcEntry value false expires (Some i)]> (arc_cache a)) (if ghost e then set_len (arc_len a + 1) a else a) in
  placed (place key (Some i) a1) a1 ∧ sized a1 ∧ arc_c a1 = arc_c a.
Proof.
  intros Hinv Hk Hi a1. assert (∀ j, lst j a1 = lst j a) as Hl by (intros j; unfold a1; by destruct (ghost e), j).
  split_and!; [|destruct Hinv as (_ & Hs & _); unfold sized, Len_; rewrite !Hl; unfold a1; by destruct (ghost e)|unfold a1; by destruct (ghost e)].
  apply (placed_same _ a); [done|]. eapply placed_ext; [|exact (inv_place key a Hinv)]. intros k. unfold place. rewrite Hk. simpl.
  case_decide; [done|]. unfold a1. by rewrite lookup_insert_ne.
Qed.

Lemma set_spec key value expires a :
  arc_inv a →
  ∃ a', arc_setWithExpire key value expires a = Some a' ∧ arc_inv a' ∧ arc_c a' = arc_c a ∧
    live a' key = Some (value, expires) ∧ ∀ k x, k ≠ key → live a' k = Some x → live a k = Some x.
Proof.
  intros Hinv. pose proof Hinv as (Hp & Hs & He). unfold arc_setWithExpire. destruct (arc_cache a !! key) as [e|] eqn:Hk.
  - destruct (He key e Hk) as (i & Hi & _). rewrite Hi. destruct (set_known key value expires a e i Hinv Hk Hi) as (Hp1 & Hs1 & Hc1).
    replace (arc_cache (if ghost e then set_len (arc_len a + 1) a else a)) with (arc_cache a) by (by destruct (ghost e)).
    set (e1 := mkArcEntry value false expires (Some i)) in *. set (a1 := set_cache _ _) in *.
    destruct (req_spec key (Some i) a1 Hp1 Hs1) as (to & a' & -> & Hto & Hp' & [Hkey Hf] & Hs' & Hc). simpl. eexists. split; [done|].
    assert (arc_cache a' !! key = Some e1) as Hkey' by (rewrite Hkey; unfold a1; simpl; by rewrite lookup_insert_eq).
    assert (∀ k, k ≠ key → fades (arc_cache a !! k) (arc_cache a' !! k)) as Hfa.
    { intros k Hne. specialize (Hf k Hne). unfold a1 in Hf. simpl in Hf. by rewrite lookup_insert_ne in Hf. }
    split_and!.
    + eapply (inv_noted key to a a'); try done; [by rewrite lookup_alter_eq, Hkey'|done|]. intros k Hne. by rewrite lookup_alter_ne.
    + simpl. congruence.
    + unfold live. simpl. by rewrite lookup_alter_eq, Hkey'.
    + intros k x Hne. unfold live at 1. simpl. rewrite lookup_alter_ne by done. apply fades_live. by apply Hfa.
  - assert (placed (place key None (set_len (arc_len a + 1) a)) (set_len (arc_len a + 1) a)) as Hp1.
    { apply (placed_same _ a); [by intros []|]. eapply placed_ext; [|exact (inv_place key a Hinv)]. intros k. unfold place. rewrite Hk. done. }
    destruct (req_spec key None (set_len (arc_len a + 1) a) Hp1 Hs) as (to & a' & -> & Hto & Hp' & [_ Hf] & Hs' & Hc). simpl. eexists. split; [done|].
    split_and!.
    + eapply (inv_noted key to a a'); try done; [by rewrite lookup_insert_eq|done|]. intros k Hne. by rewrite lookup_insert_ne.
    + exact Hc.
    + unfold live. simpl. by rewrite lookup_insert_eq.
    + intros k x Hne. unfold live at 1. simpl. rewrite lookup_insert_ne by done. apply fades_live. by apply Hf.
Qed.

Lemma get_spec key a :
  arc_inv a →
  ∃ e a', arc_get key a = Some (e, a') ∧ arc_inv a' ∧ arc_c a' = arc_c a ∧
    (λ e, (avalue e, aexpires e)) <$> e = live a key ∧ live a' key = live a key ∧ ∀ k x, live a' k = Some x → live a k = Some x.
Proof.
  intros Hinv. pose proof Hinv as (Hp & Hs & He). unfold arc_get, live at 1. destruct (arc_cache a !! key) as [e|] eqn:Hk.
  - destruct (He key e Hk) as (i & Hi & _). pose proof (inv_place key a Hinv) as Hpl. rewrite Hk in Hpl. simpl in Hpl.
    destruct (req_spec key (ll e) a Hpl Hs) as (to & a' & -> & Hto & Hp' & [Hkey Hf] & Hs' & Hc). simpl. eexists _, _. split; [done|].
    rewrite Hk in Hkey.
    assert (live (set_cache (alter (with_ll to) key (arc_cache a')) a') key = live a key) as Hlk.
    { unfold live. simpl. by rewrite lookup_alter_eq, Hkey, Hk. }
    split_and!; [|done| |done|].
    + eapply (inv_noted key to a a'); try done; [by rewrite lookup_alter_eq, Hkey|done|]. intros k Hne. by rewrite lookup_alter_ne.
    + by destruct (ghost e).
    + intros k x. destruct (decide (k = key)) as [->|Hne]; [by rewrite Hlk|]. unfold live at 1. simpl. rewrite lookup_alter_ne by done.
      apply fades_live. by apply Hf.
  - exists None, a. unfold live. by rewrite Hk.
Qed.

Lemma arc_inv_empty c : (1 ≤ c)%Z → arc_inv (mkArc 0 c [] [] [] [] 0 ∅).
Proof.
  intros Hc. split_and!.
  - intros i. split; [destruct i; constructor|]. intros k. simpl. rewrite lookup_empty. simpl. split; [|done].
    destruct i; intros Hk; by apply not_elem_of_nil in Hk.
  - unfold sized, Len_. simpl. lia.
  - intros k e. simpl. by rewrite lookup_empty.
Qed.

(** *** The size *)

Lemma held_in_lists a k e : arc_inv a → arc_cache a !! k = Some e → ∃ i, k ∈ lst i a ∧ (is_ghost_list i = true → ghost e = true).
Proof.
  intros (Hp & _ & He) Hk. destruct (He k e Hk) as (i & Hi & Hg). exists i. split; [|done].
  apply Hp. by rewrite Hk.
Qed.

Lemma live_bound a ks : arc_inv a → NoDup ks → Forall (λ k, is_Some (live a k)) ks → (Z.of_nat (length ks) ≤ arc_c a)%Z.
Proof.
  intros Hinv Hnd Hl. assert (ks ⊆ t1 a ++ t2 a) as Hin.
  { intros k Hk. rewrite Forall_forall in Hl. destruct (Hl k Hk) as [x Hx]. unfold live in Hx.
    apply bind_Some in Hx as (e & He & Hx). destruct (held_in_lists a k e Hinv He) as (i & Hi & Hg).
    apply elem_of_app. destruct (ghost e); [done|]. destruct i; simpl in *; [by left|by specialize (Hg eq_refl)|by right|by specialize (Hg eq_refl)]. }
  apply NoDup_submseteq in Hin; [|done]. apply submseteq_length in Hin. rewrite length_app in Hin.
  destruct Hinv as (_ & Hs & _). unfold sized, Len_ in Hs. simpl in Hs. lia.
Qed.

Lemma known_bound a : arc_inv a → (Z.of_nat (size (arc_cache a)) ≤ 2 * arc_c a)%Z.
Proof.
  intros Hinv. assert (elements (dom (arc_cache a)) ⊆ t1 a ++ b1 a ++ t2 a ++ b2 a) as Hin.
  { intros k Hk. apply elem_of_elements, elem_of_dom in Hk as [e He]. destruct (held_in_lists a k e Hinv He) as ([] & Hi & _); simpl in Hi; set_solver. }
  apply NoDup_submseteq in Hin; [|apply NoDup_elements]. apply submseteq_length in Hin. rewrite !length_app in Hin.
  rewrite <- size_dom. unfold size, set_size. simpl. destruct Hinv as (_ & Hs & _). unfold sized, Len_ in Hs. simpl in Hs. lia.
Qed.

(** *** Runs of operations *)

Inductive arc_op := OpGet (k : K) | OpSet (k : K) (v : V) (expires : Z) | OpClear.

Definition arc_step (op : arc_op) (a : ARC) : option (option (V * Z) * ARC) :=
  match op with
  | OpGet k => Arc_GetWithExpire k a
  | OpSet k v e => (λ a, (None, a)) <$> arc_setWithExpire k v e a
  | OpClear => Some (None, Arc_Clear a)
  end.

Fixpoint arc_run (ops : list arc_op) (a : ARC) : option (list (option (V * Z)) * ARC) :=
  match ops with
  | [] => Some ([], a)
  | op :: ops' =>
    match arc_step op a with
    | None => None
    | Some (r, a) => match arc_run ops' a with None => None | Some (rs, a) => Some (r :: rs, a) end
    end
  end.

(** The map without a bound. *)
Definition write (m : gmap K (V * Z)) (op : arc_op) : gmap K (V * Z) :=
  match op with OpGet _ => m | OpSet k v e => <[k := (v, e)]> m | OpClear => ∅ end.

Definition written (ops : list arc_op) : gmap K (V * Z) := foldl write ∅ ops.

(** An answer is either a miss or what the map holds; what was just stored is
    not missed. *)
Definition answers_of (m : gmap K (V * Z)) (op : arc_op) (r : option (V * Z)) : Prop :=
  match op with OpGet k => ∀ x, r = Some x → m !! k = Some x | _ => r = None end.

Lemma step_sound op a m :
  arc_inv a → (∀ k x, live a k = Some x → m !! k = Some x) →
  ∃ r a', arc_step op a = Some (r, a') ∧ arc_inv a' ∧ arc_c a' = arc_c a ∧ answers_of m op r ∧
    (∀ k x, live a' k = Some x → write m op !! k = Some x).
Proof.
  intros Hinv Hm. destruct op as [k|k v e|]; simpl.
  - destruct (get_spec k a Hinv) as (r & a' & Hr & Hi & Hc & Hl & _ & Hlv). unfold Arc_GetWithExpire. rewrite Hr. eexists _, a'. split_and!; [done..| |].
    + intros x Hx. apply Hm. by rewrite <- Hl.
    + intros k' x Hx. by apply Hm, Hlv.
  - destruct (set_spec k v e a Hinv) as (a' & -> & Hi & Hc & Hk & Hlv). simpl. eexists None, a'. split_and!; [done..|].
    intros k' x. destruct (decide (k' = k)) as [->|Hne]; [by rewrite Hk, lookup_insert_eq|]. intros Hx. rewrite lookup_insert_ne by done.
    apply Hm. by apply Hlv.
  - eexists None, _. split_and!; [done| |done..]. apply arc_inv_empty. destruct Hinv as (_ & (Hs & _) & _). exact Hs.
Qed.

Lemma run_sound ops a m :
  arc_inv a → (∀ k x, live a k = Some x → m !! k = Some x) →
  ∃ rs a', arc_run ops a = Some (rs, a') ∧ arc_inv a' ∧ arc_c a' = arc_c a ∧
    (∀ i op, ops !! i = Some op → ∃ r, rs !! i = Some r ∧ answers_of (foldl write m (take i ops)) op r) ∧
    (∀ k x, live a' k = Some x → foldl write m ops !! k = Some x).
Proof.
  revert a m. induction ops as [|op ops IH]; intros a m Hinv Hm.
  - exists [], a. split_and!; try done.
  - destruct (step_sound op a m Hinv Hm) as (r & a1 & Hs & Hi1 & Hc1 & Hr & Hm1).
    destruct (IH a1 (write m op) Hi1 Hm1) as (rs & a' & Hrun & Hi & Hc & Hrs & Hl). simpl. rewrite Hs, Hrun.
    exists (r :: rs), a'. split_and!; [done..|congruence| |done]. intros [|i] op' Hop; simpl in *; [simplify_eq; by exists r|by apply Hrs].
Qed.

(** *** Scans *)

(** Nothing that was used twice has moved. *)
Definition spares (a a' : ARC) : Prop :=
  arc_p a' = arc_p a ∧ t2 a' = t2 a ∧ ∀ k, k ∈ t2 a → arc_cache a' !! k = arc_cache a !! k.

Lemma spares_trans a1 a2 a3 : spares a1 a2 → spares a2 a3 → spares a1 a3.
Proof.
  intros (H1 & H2 & H3) (H4 & H5 & H6). split_and!; [congruence..|]. intros k Hk. rewrite <- H3 by done. apply H6. by rewrite H2.
Qed.

Lemma spares_refl a : spares a a.
Proof. done. Qed.

Lemma placed_apart f a i k x : placed f a → i ≠ T2 → k ∈ t2 a → x ∈ lst i a → k ≠ x.
Proof. intros Hp Hi Hk%(proj2 (Hp T2)) Hx%(proj2 (Hp i)) ->. congruence. Qed.

Lemma delLRU_spares f i a a' : placed f a → i ≠ T2 → delLRU i a = Some a' → spares a a'.
Proof.
  intros Hp Hi Hd. unfold delLRU in Hd. destruct (list.last (lst i a)) as [x|] eqn:Hx; [|done]. simpl in Hd. injection Hd as <-.
  apply last_Some_elem_of in Hx. split_and!; [by destruct i..|]. intros k Hk. simpl. rewrite lookup_delete_ne; [done|].
  apply not_eq_sym. by apply (placed_apart f a i).
Qed.

Lemma demote_spares f a a' : placed f a → demote T1 B1 a = Some a' → spares a a'.
Proof.
  intros Hp Hd. unfold demote in Hd. destruct (list.last (lst T1 a)) as [x|] eqn:Hx; [|done]. simpl in Hd. injection Hd as <-.
  apply last_Some_elem_of in Hx. split_and!; [done..|]. intros k Hk. simpl. rewrite lookup_alter_ne; [done|].
  apply not_eq_sym. by apply (placed_apart f a T1).
Qed.

Lemma replace_spares f a a' :
  placed f a → arc_p a = 0%Z → t1 a ≠ [] → replace_ None a = Some a' → spares a a'.
Proof.
  intros Hp H0 H1. unfold replace_. rewrite bool_decide_true; [by apply demote_spares with f|]. unfold Len_. simpl. rewrite H0.
  destruct (t1 a); [done|simpl; lia].
Qed.

Lemma front_spares key a a' :
  spares a a' → spares a (setMRU key None T1 a') ∧ t1 (setMRU key None T1 a') ≠ [].
Proof. intros Hs. split; [exact Hs|done]. Qed.

Lemma delLRU_then f i a a1 :
  placed f a → i = B1 ∨ i = B2 → t1 a ≠ [] → delLRU i a = Some a1 → spares a a1 ∧ t1 a1 ≠ [] ∧ placed (λ k, if decide (Some k = list.last (lst i a)) then None else f k) a1.
Proof.
  intros Hp Hi H1 Hd. split; [by apply (delLRU_spares f i); [|destruct Hi as [-> | ->]|]|].
  unfold delLRU in Hd. destruct (list.last (lst i a)) as [x|] eqn:Hx; [|done]. simpl in Hd. injection Hd as <-.
  split; [by destruct Hi as [-> | ->]|]. apply last_Some_elem_of, (proj2 (Hp i)) in Hx.
  apply (placed_same _ (detach x (Some i) a)); [by intros []|]. eapply placed_ext; [|by apply (placed_detach f x (Some i) a)].
  intros k. simpl. repeat case_decide; congruence.
Qed.

Lemma req_new_spares key f a to a' :
  placed f a → arc_p a = 0%Z → t1 a ≠ [] → req key None a = Some (to, a') → spares a a' ∧ t1 a' ≠ [].
Proof.
  intros Hp H0 H1 Hr. assert (∀ i a1 a2, i = B1 ∨ i = B2 → delLRU i a = Some a1 → replace_ None a1 = Some a2 → spares a a2) as Htwo.
  { intros i a1 a2 Hi Hd Ha2. destruct (delLRU_then f i a a1 Hp Hi H1 Hd) as (Hs & Hne & Hp1).
    eapply spares_trans; [exact Hs|]. eapply replace_spares; [exact Hp1| |done|done]. destruct Hs as (-> & _). done. }
  simpl in Hr. repeat case_match; try done; simplify_option_eq.
  all: apply front_spares; try done.
  - eapply (Htwo B1); eauto.
  - by eapply (delLRU_spares _ T1).
  - eapply (Htwo B2); eauto.
  - by eapply replace_spares.
Qed.

Lemma new_key_spares key value expires a a' :
  arc_inv a → arc_p a = 0%Z → t1 a ≠ [] → arc_cache a !! key = None → arc_setWithExpire key value expires a = Some a' →
  spares a a' ∧ t1 a' ≠ [] ∧ ∀ k, k ≠ key → arc_cache a !! k = None → arc_cache a' !! k = None.
Proof.
  intros Hinv H0 H1 Hk Ha. unfold arc_setWithExpire in Ha. rewrite Hk in Ha.
  set (a0 := set_len (arc_len a + 1) a) in *. assert (placed (place key None a0) a0) as Hp0.
  { apply (placed_same _ a); [by intros []|]. eapply placed_ext; [|exact (inv_place key a Hinv)]. intros k. unfold place. by rewrite Hk. }
  destruct (req key None a0) as [[to a1]|] eqn:Hr; [|done]. simpl in Ha. injection Ha as <-.
  destruct (req_new_spares key _ a0 to a1 Hp0 H0 H1 Hr) as [(Hs1 & Hs2 & Hs3) Hne].
  destruct (req_new key a0 Hp0) as (to' & a1' & Hr' & _ & _ & [_ Hf] & _); [apply Hinv|]. rewrite Hr in Hr'. injection Hr' as <- <-.
  split; [split; [exact Hs1|split; [exact Hs2|]]|split; [exact Hne|]].
  - intros k Hin. simpl. rewrite lookup_insert_ne; [exact (Hs3 k Hin)|]. intros <-.
    destruct Hinv as (Hp & _). apply (proj2 (Hp T2)) in Hin. by rewrite Hk in Hin.
  - intros k Hne' Hkn. simpl. rewrite lookup_insert_ne by done. specialize (Hf k Hne').
    change (arc_cache a0) with (arc_cache a) in Hf. rewrite Hkn in Hf. destruct Hf as [->|[->|(e & i & He & _)]]; done.
Qed.

(** Storing new keys, one after the other. *)
Fixpoint scan (kvs : list (K * V)) (expires : Z) (a : ARC) : option ARC :=
  match kvs with [] => Some a | (k, v) :: kvs' => arc_setWithExpire k v expires a ≫= scan kvs' expires end.

Lemma scan_spares kvs expires a :
  arc_inv a → arc_p a = 0%Z → t1 a ≠ [] → NoDup kvs.*1 → Forall (λ k, arc_cache a !! k = None) kvs.*1 →
  ∃ a', scan kvs expires a = Some a' ∧ arc_inv a' ∧ spares a a'.
Proof.
  revert a. induction kvs as [|[k v] kvs IH]; intros a Hinv H0 H1 Hnd Hnew; simpl.
  - by exists a.
  - simpl in *. apply NoDup_cons in Hnd as [Hk Hnd]. apply Forall_cons in Hnew as [Hkn Hnew].
    destruct (set_spec k v expires a Hinv) as (a1 & Ha & Hi1 & _). destruct (new_key_spares k v expires a a1 Hinv H0 H1 Hkn Ha) as (Hs & Hne & Hdom).
    rewrite Ha. simpl. destruct (IH a1) as (a' & Hsc & Hi & Hs'); [done|by destruct Hs as (-> & _)|done..| |].
    + rewrite Forall_forall in Hnew |- *. intros k' Hk'. apply Hdom; [by intros ->|by apply Hnew].
    + exists a'. split_and!; [done..|by eapply spares_trans].
Qed.

Lemma arc_run_app ops ops' a :
  arc_run (ops ++ ops') a = match arc_run ops a with
    | Some (rs, a) => match arc_run ops' a with Some (rs', a) => Some (rs ++ rs', a) | None => None end
    | None => None end.
Proof.
  revert a. induction ops as [|op ops IH]; intros a; simpl; [by destruct (arc_run ops' a) as [[]|]|].
  destruct (arc_step op a) as [[r a1]|]; [|done]. rewrite IH. destruct (arc_run ops a1) as [[rs a2]|]; [|done].
  by destruct (arc_run ops' a2) as [[]|].
Qed.

Lemma just_stored ops c rs a k v e :
  (1 ≤ c)%Z → arc_run ops (Arc_New c) = Some (rs, a) → list.last ops = Some (OpSet k v e) →
  ∃ a', Arc_GetWithExpire k a = Some (Some (v, e), a').
Proof.
  intros Hc Hrun (ops' & ->)%last_Some. rewrite arc_run_app in Hrun.
  destruct (run_sound ops' (Arc_New c) ∅) as (rs1 & a1 & Hrun1 & Hinv & _); [by apply arc_inv_empty|intros ? ?; unfold live; simpl; by rewrite lookup_empty|].
  rewrite Hrun1 in Hrun. destruct (set_spec k v e a1 Hinv) as (a2 & Hs & Hi & _ & Hl & _). simpl in Hrun. rewrite Hs in Hrun. simpl in Hrun.
  injection Hrun as _ <-. destruct (get_spec k a2 Hi) as (x & a3 & Hg & _ & _ & Hx & _). exists a3. unfold Arc_GetWithExpire. by rewrite Hg, Hx, Hl.
Qed.

End Arc.

#[global] Arguments arc_entry : clear implicits.

#[global] Arguments ARC K V {_ _}.

(** ** The theorems *)

(** C34: The cache is a bounded, forgetful map: from an empty cache of size one or
    more, no sequence of operations panics, every answer of [GetWithExpire] is a
    miss or what was last stored for the key, what was just stored is found, and
    the cache never holds more values than its size, nor remembers more than
    twice as many keys. *)
Theorem arc_refines_map {K V} `{Countable K} (zero : V) (size_ : Z) (ops : list (arc_op (K := K) (V := V))) :
  (1 ≤ size_)%Z →
  ∃ answers a, arc_run zero ops (Arc_New size_) = Some (answers, a) ∧
    (∀ i op, ops !! i = Some op → ∃ r, answers !! i = Some r ∧ answers_of (written (take i ops)) op r) ∧
    (∀ k v e, list.last ops = Some (OpSet k v e) → ∃ a', Arc_GetWithExpire zero k a = Some (Some (v, e), a')) ∧
    (∀ ks, NoDup ks → Forall (λ k, is_Some (live a k)) ks → (Z.of_nat (length ks) ≤ size_)%Z) ∧
    (Z.of_nat (size (arc_cache a)) ≤ 2 * size_)%Z.
Proof.
  intros Hs. destruct (run_sound zero ops (Arc_New size_) ∅) as (rs & a & Hrun & Hinv & Hc & Hrs & Hl).
  - by apply (arc_inv_empty zero).
  - intros k x. unfold live. simpl. by rewrite lookup_empty.
  - simpl in Hc. exists rs, a. split_and!; [done|done| | |by rewrite <- Hc; apply known_bound].
    + intros k v e Hlast. by apply (just_stored zero ops size_ rs).
    + intros ks Hn Hk. rewrite <- Hc. by apply (live_bound zero).
Qed.

Lemma arc_refines_map_witness :
  (1 ≤ 2)%Z ∧
  ∃ answers a, arc_run 0%Z [OpSet "a" 1%Z 5%Z; OpGet "a"; OpSet "b" 2%Z 6%Z; OpSet "c" 3%Z 7%Z; OpGet "b"] (Arc_New 2) = Some (answers, a) ∧
    answers = [None; Some (1%Z, 5%Z); None; None; None].
Proof.
  split; [lia|]. pose proof (arc_refines_map 0%Z 2 [OpSet "a" 1%Z 5%Z; OpGet "a"; OpSet "b" 2%Z 6%Z; OpSet "c" 3%Z 7%Z; OpGet "b"]) as Hr.
  destruct Hr as (rs & a & Hrun & _); [lia|]. exists rs, a. split; [exact Hrun|].
  assert (fst <$> arc_run 0%Z [OpSet "a" 1%Z 5%Z; OpGet "a"; OpSet "b" 2%Z 6%Z; OpSet "c" 3%Z 7%Z; OpGet "b"] (Arc_New 2) =
    Some [None; Some (1%Z, 5%Z); None; None; None]) as Hv by (vm_compute; reflexivity).
  rewrite Hrun in Hv. simpl in Hv. by injection Hv.
Defined.

(** A scan does not wash out what is in use: as long as the target is at its
    start and [t1] is not empty, storing any number of new keys leaves every
    value that was used twice in the cache, where it was. *)
Theorem arc_scan_resistant {K V} `{Countable K} (zero : V) (kvs : list (K * V)) (expires : Z) (a : ARC K V) :
  arc_inv a → arc_p a = 0%Z → t1 a ≠ [] → NoDup kvs.*1 → Forall (λ k, arc_cache a !! k = None) kvs.*1 →
  ∃ a', scan zero kvs expires a = Some a' ∧ t2 a' = t2 a ∧ ∀ k, k ∈ t2 a → live a' k = live a k.
Proof.
  intros Hinv H0 H1 Hnd Hnew. destruct (scan_spares zero kvs expires a Hinv H0 H1 Hnd Hnew) as (a' & Ha & _ & _ & Ht & Hk).
  exists a'. split_and!; [done..|]. intros k Hin. unfold live. by rewrite Hk.
Qed.

Definition demo_arc : ARC string Z :=
  default (Arc_New 2) (snd <$> arc_run 0%Z [OpSet "a" 1%Z 5%Z; OpGet "a"; OpSet "b" 2%Z 6%Z] (Arc_New 2)).

Lemma demo_arc_inv : arc_inv demo_arc.
Proof.
  destruct (run_sound 0%Z [OpSet "a" 1%Z 5%Z; OpGet "a"; OpSet "b" 2%Z 6%Z] (Arc_New 2) ∅) as (rs & a & Hrun & Hinv & _).
  - by apply (arc_inv_empty 0%Z 2).
  - intros k x. unfold live. simpl. by rewrite lookup_empty.
  - unfold demo_arc. rewrite Hrun. exact Hinv.
Qed.

Lemma arc_scan_resistant_witness :
  ∃ a', scan 0%Z [("c", 3%Z); ("d", 4%Z); ("e", 5%Z)] 9%Z demo_arc = Some a' ∧ live a' "a" = Some (1%Z, 5%Z).
Proof.
  destruct (arc_scan_resistant 0%Z [("c", 3%Z); ("d", 4%Z); ("e", 5%Z)] 9%Z demo_arc demo_arc_inv) as (a' & Ha & _ & Hl).
  - vm_compute. reflexivity.
  - vm_compute. discriminate.
  - apply (bool_decide_unpack _). vm_compute. exact I.
  - repeat constructor.
  - exists a'. split; [exact Ha|]. rewrite Hl; [vm_compute; reflexivity|vm_compute; by left].
Defined.

(** The count of entries drifts: a ghost that is dropped from the directory is
    subtracted a second time, so a cache that holds a value can say that it is
    empty. *)
Example arc_len_drifts :
  (λ r, (Arc_Len r.2, live r.2 "d")) <$>
    arc_run 0%Z [OpSet "a" 1%Z 0%Z; OpSet "b" 1%Z 0%Z; OpGet "b"; OpSet "c" 1%Z 0%Z; OpGet "c"; OpSet "d" 1%Z 0%Z] (Arc_New 1)
  = Some (0%Z, Some (1%Z, 0%Z)).
Proof. vm_compute. reflexivity. Qed.

(** ** The cache of the resolver *)

(** [newCache] for the algorithm [arc]; the values are pointers, so the empty
    one is nil. *)
Definition newCache_arc (cacheMaxSize : Z) : ARC string (option Msg) :=
  Arc_New (if (cacheMaxSize =? 0)%Z then 4096%Z else cacheMaxSize).

(** By [arc_refines_map] no operation panics, so the [None] cases are not met. *)
#[global] Instance arc_dns_cache : DnsCache (ARC string (option Msg)) := {|
  cache_GetWithExpire k a :=
    match Arc_GetWithExpire None k a with
    | Some (Some (Some m, e), a') => (Some (m, e), a')
    | Some (_, a') => (None, a')
    | None => (None, a)
    end;
  cache_SetWithExpire k m e a := default a (arc_setWithExpire None k (Some m) e a);
  cache_Clear a := Arc_Clear a
|}.

Definition arc_cached (a : ARC string (option Msg)) (k : string) : option (Msg * Z) :=
  match live a k with Some (Some m, e) => Some (m, e) | _ => None end.

#[global] Instance arc_dns_cache_laws : DnsCacheLaws (ARC string (option Msg)).
Proof.
  refine {| cache_inv := arc_inv; cached := arc_cached |}.
  - intros a k Hinv. destruct (get_spec None k a Hinv) as (e & a' & He & Hi & _ & Hl & Hlk & Hlv).
    cbn [cache_GetWithExpire arc_dns_cache]. unfold Arc_GetWithExpire. rewrite He, Hl. unfold arc_cached.
    assert (∀ k' x, match live a' k' with Some (Some m, e) => Some (m, e) | _ => None end = Some x →
      match live a k' with Some (Some m, e) => Some (m, e) | _ => None end = Some x) as Hsub.
    { intros k' x. destruct (live a' k') as [y|] eqn:Hy; [|done]. by rewrite (Hlv k' y Hy). }
    destruct (live a k) as [[[m|] x]|]; cbn [fst snd]; by split_and!.
  - intros a k m e Hinv. destruct (set_spec None k (Some m) e a Hinv) as (a' & Ha & Hi & _ & Hk & Hlv).
    cbn [cache_SetWithExpire arc_dns_cache]. rewrite Ha. change (default a (Some a')) with a'. unfold arc_cached. split_and!; [done|by rewrite Hk|].
    intros k' x Hne. destruct (live a' k') as [y|] eqn:Hy; [|done]. by rewrite (Hlv k' y Hne Hy).
  - intros a Hinv. split; [apply (arc_inv_empty None); apply Hinv|]. intros k. unfold arc_cached, live. simpl. by rewrite lookup_empty.
Defined.

Lemma newCache_arc_inv size_ : (0 ≤ size_)%Z → cache_inv (newCache_arc size_).
Proof. intros Hs. apply (arc_inv_empty None). destruct (Z.eqb_spec size_ 0); lia. Qed.
