(* ===== verification/Tuic.v ===== *)
(** * The commands of TUIC

    [transport/tuic/v5/protocol.go]: the five commands of the protocol with
    their addresses, written to and read from the byte streams and datagrams
    of a QUIC connection.  A command is what follows its head on the wire; the
    [...WithHead] readers take the head that was read before.

    The theorems: what is written is read back, and what is cut short is an
    error ([tuic_commands_roundtrip]); the lengths that the code computes for
    its buffers, two of which are wrong ([tuic_lengths]); and the address that
    makes the reader panic ([address_panics]). *)

From Stdlib Require Import ZArith Lia Ascii String.
From stdpp Require Import prelude list strings.
From S2P Require Import Prelude Netip Metadata Wire.

#[local] Open Scope wire_scope.

(** ** Data *)

Definition AuthenticateType : Z := 0.

Definition ConnectType : Z := 1.

Definition PacketType : Z := 2.

Definition DissociateType : Z := 3.

Definition HeartbeatType : Z := 4.

Definition VER : Z := 5.

Record CommandHead := mkHead { h_VER : Z; h_TYPE : Z }.

Definition NewCommandHead (t : Z) : CommandHead := mkHead VER t.

(** Types of addresses; [AtypNone] stands in the fragments after the first. *)
Definition AtypDomainName : Z := 0.

Definition AtypIPv4 : Z := 1.

Definition AtypIPv6 : Z := 2.

Definition AtypNone : Z := 255.

(** The bytes of a domain begin with their number. *)
Record Address := mkAddress { a_TYPE : Z; a_ADDR : list Z; a_PORT : Z }.

Record Authenticate := mkAuthenticate { au_head : CommandHead; UUID : list Z; TOKEN : list Z }.

Record Connect := mkConnect { co_head : CommandHead; co_ADDR : Address }.

Record Packet := mkPacket {
  pk_head : CommandHead;
  ASSOC_ID : Z;
  PKT_ID : Z;
  FRAG_TOTAL : Z;
  FRAG_ID : Z;
  SIZE : Z;
  ADDR : Address;
  DATA : list Z
}.

#[global] Instance CommandHead_eq_dec : EqDecision CommandHead.
Proof. solve_decision. Defined.

#[global] Instance Address_eq_dec : EqDecision Address.
Proof. solve_decision. Defined.

#[global] Instance Packet_eq_dec : EqDecision Packet.
Proof. solve_decision. Defined.

Record Dissociate := mkDissociate { di_head : CommandHead; di_ASSOC_ID : Z }.

Record Heartbeat := mkHeartbeat { he_head : CommandHead }.

Definition NewAuthenticate (uuid token : list Z) : Authenticate := mkAuthenticate (NewCommandHead AuthenticateType) uuid token.

Definition NewConnect (addr : Address) : Connect := mkConnect (NewCommandHead ConnectType) addr.

Definition NewPacket (assoc pkt total id size : Z) (addr : Address) (data : list Z) : Packet :=
  mkPacket (NewCommandHead PacketType) assoc pkt total id size addr data.

Definition NewDissociate (assoc : Z) : Dissociate := mkDissociate (NewCommandHead DissociateType) assoc.

Definition NewHeartbeat : Heartbeat := mkHeartbeat (NewCommandHead HeartbeatType).

(** ** Addresses *)

Definition NewAddressAddrPort (addr : Addr) (port : Z) : Address :=
  let addr := Unmap addr in
  mkAddress (if Is4 addr then AtypIPv4 else AtypIPv6) (AsSlice addr) port.

(** [NewAddress] of the metadata of a connection; the length of a domain is
    kept modulo 256. *)
Definition NewAddress (m : Metadata) : Address :=
  match AddrType m with
  | Metadata.AtypIPv4 => mkAddress AtypIPv4 (AsSlice (DstIP m)) (m_DstPort m)
  | Metadata.AtypIPv6 => mkAddress AtypIPv6 (AsSlice (DstIP m)) (m_DstPort m)
  | Metadata.AtypDomainName =>
    mkAddress AtypDomainName
      (@wrap uint8 (Z.of_nat (String.length (Host m))) :: map byte_of (list_ascii_of_string (Host m))) (m_DstPort m)
  end.

Definition ReadAddress : reader Address :=
  t <- read_be 1;
  addr <- (if (t =? AtypIPv4)%Z then read_full 4
           else if (t =? AtypIPv6)%Z then read_full 16
           else if (t =? AtypDomainName)%Z then
             n <- read_be 1;
             (* make([]byte, addrLen+1) in bytes *)
             let size := @wrap uint8 (n + 1) in
             if (size =? 0)%Z then fail GoPanic
             else rest <- read_full (Z.to_nat (size - 1)); ret (n :: rest)
           else ret []);
  if (t =? AtypNone)%Z then ret (mkAddress t addr 0)
  else port <- read_be 2; ret (mkAddress t addr port).

Definition Address_WriteTo (c : Address) : list Z :=
  be_bytes 1 (a_TYPE c) ++ (if (a_TYPE c =? AtypNone)%Z then [] else a_ADDR c ++ be_bytes 2 (a_PORT c)).

Definition Address_BytesLen (c : Address) : Z := (1 + Z.of_nat (length (a_ADDR c)) + 2)%Z.

(** The same address for the SOCKS code. *)
Definition SocksAddr (c : Address) : list Z :=
  let t := if (a_TYPE c =? AtypIPv4)%Z then 1%Z else if (a_TYPE c =? AtypIPv6)%Z then 4%Z
           else if (a_TYPE c =? AtypDomainName)%Z then 3%Z else 0%Z in
  t :: a_ADDR c ++ be_bytes 2 (a_PORT c).

(** ** Commands *)

Definition ReadCommandHead : reader CommandHead := v <- read_be 1; t <- read_be 1; ret (mkHead v t).

Definition Head_WriteTo (c : CommandHead) : list Z := be_bytes 1 (h_VER c) ++ be_bytes 1 (h_TYPE c).

Definition Head_BytesLen (c : CommandHead) : Z := 2.

Definition expect {A} (t : Z) (head : CommandHead) (r : reader A) : reader A :=
  if (h_TYPE head =? t)%Z then r else fail BadType.

Definition ReadAuthenticateWithHead (head : CommandHead) : reader Authenticate :=
  expect AuthenticateType head (u <- read_full 16; t <- read_full 32; ret (mkAuthenticate head u t)).

Definition ReadAuthenticate : reader Authenticate := head <- ReadCommandHead; ReadAuthenticateWithHead head.

Definition Authenticate_WriteTo (c : Authenticate) : list Z := Head_WriteTo (au_head c) ++ UUID c ++ TOKEN c.

Definition Authenticate_BytesLen (c : Authenticate) : Z := (Head_BytesLen (au_head c) + 16 + 32)%Z.

Definition ReadConnectWithHead (head : CommandHead) : reader Connect :=
  expect ConnectType head (a <- ReadAddress; ret (mkConnect head a)).

Definition ReadConnect : reader Connect := head <- ReadCommandHead; ReadConnectWithHead head.

Definition Connect_WriteTo (c : Connect) : list Z := Head_WriteTo (co_head c) ++ Address_WriteTo (co_ADDR c).

Definition Connect_BytesLen (c : Connect) : Z := (Head_BytesLen (co_head c) + Address_BytesLen (co_ADDR c))%Z.

Definition ReadPacketWithHead (head : CommandHead) : reader Packet :=
  expect PacketType head
    (assoc <- read_be 2; pkt <- read_be 2; total <- read_be 1; id <- read_be 1; size <- read_be 2;
     addr <- ReadAddress; data <- read_full (Z.to_nat size);
     ret (mkPacket head assoc pkt total id size addr data)).

Definition ReadPacket : reader Packet := head <- ReadCommandHead; ReadPacketWithHead head.

Definition Packet_WriteTo (c : Packet) : list Z :=
  Head_WriteTo (pk_head c) ++ be_bytes 2 (ASSOC_ID c) ++ be_bytes 2 (PKT_ID c) ++ be_bytes 1 (FRAG_TOTAL c) ++
  be_bytes 1 (FRAG_ID c) ++ be_bytes 2 (SIZE c) ++ Address_WriteTo (ADDR c) ++ DATA c.

Definition Packet_BytesLen (c : Packet) : Z :=
  (Head_BytesLen (pk_head c) + 4 + 2 + Address_BytesLen (ADDR c) + Z.of_nat (length (DATA c)))%Z.

Definition PacketOverHead : Z := Packet_BytesLen (NewPacket 0 0 0 0 0 (NewAddressAddrPort (Addr6 0 "") 0) []).

Definition ReadDissociateWithHead (head : CommandHead) : reader Dissociate :=
  expect DissociateType head (assoc <- read_be 2; ret (mkDissociate head assoc)).

Definition ReadDissociate : reader Dissociate := head <- ReadCommandHead; ReadDissociateWithHead head.

Definition Dissociate_WriteTo (c : Dissociate) : list Z := Head_WriteTo (di_head c) ++ be_bytes 2 (di_ASSOC_ID c).

Definition Dissociate_BytesLen (c : Dissociate) : Z := (Head_BytesLen (di_head c) + 4)%Z.

Definition ReadHeartbeatWithHead (head : CommandHead) : reader Heartbeat :=
  expect HeartbeatType head (ret (mkHeartbeat head)).

Definition ReadHeartbeat : reader Heartbeat := head <- ReadCommandHead; ReadHeartbeatWithHead head.

Definition Heartbeat_WriteTo (c : Heartbeat) : list Z := Head_WriteTo (he_head c).

(** ** What is written is read back *)

(** The two bytes of a port. *)
Definition port_ok (p : Z) : Prop := (0 ≤ p < 256 ^ Z.of_nat 2)%Z.

Definition byte_ok (b : Z) : Prop := (0 ≤ b < 256 ^ Z.of_nat 1)%Z.

(** An address that the constructors make, with a domain of at most 254 bytes,
    or the empty one of a later fragment. *)
Inductive address_ok : Address → Prop :=
  | ok_ipv4 ip port : length ip = 4 → port_ok port → address_ok (mkAddress AtypIPv4 ip port)
  | ok_ipv6 ip port : length ip = 16 → port_ok port → address_ok (mkAddress AtypIPv6 ip port)
  | ok_domain d port : length d ≤ 254 → port_ok port → address_ok (mkAddress AtypDomainName (Z.of_nat (length d) :: d) port)
  | ok_none : address_ok (mkAddress AtypNone [] 0).

Definition packet_ok (p : Packet) : Prop :=
  pk_head p = NewCommandHead PacketType ∧ port_ok (ASSOC_ID p) ∧ port_ok (PKT_ID p) ∧ byte_ok (FRAG_TOTAL p) ∧ byte_ok (FRAG_ID p) ∧
  SIZE p = Z.of_nat (length (DATA p)) ∧ (Z.of_nat (length (DATA p)) < 65536)%Z ∧ address_ok (ADDR p).

Definition authenticate_ok (a : Authenticate) : Prop :=
  au_head a = NewCommandHead AuthenticateType ∧ length (UUID a) = 16 ∧ length (TOKEN a) = 32.

Definition connect_ok (c : Connect) : Prop := co_head c = NewCommandHead ConnectType ∧ address_ok (co_ADDR c).

Definition dissociate_ok (d : Dissociate) : Prop := di_head d = NewCommandHead DissociateType ∧ port_ok (di_ASSOC_ID d).

Lemma bind_be {A} n v (f : Z → reader A) q : (0 ≤ v < 256 ^ Z.of_nat n)%Z → bind (read_be n) f (be_bytes n v ++ q) = f v q.
Proof. intros Hv. unfold bind. by rewrite read_be_app. Qed.

Lemma bind_full {A} n a (f : list Z → reader A) q : length a = n → bind (read_full n) f (a ++ q) = f a q.
Proof. intros Ha. unfold bind. by rewrite read_full_app. Qed.

Lemma bind_ret {A B} (a : A) (f : A → reader B) l : bind (ret a) f l = f a l.
Proof. done. Qed.

Lemma bind_bind {A B C} (r : reader A) (f : A → reader B) (g : B → reader C) l :
  bind (bind r f) g l = bind r (λ a, bind (f a) g) l.
Proof. unfold bind. by destruct (r l) as [|[]]. Qed.

Ltac range := unfold port_ok, byte_ok, AtypIPv4, AtypIPv6, AtypDomainName, AtypNone in *; change (256 ^ Z.of_nat 1)%Z with 256%Z in *; change (256 ^ Z.of_nat 2)%Z with 65536%Z in *; lia.

(** One read of what was written in front. *)
Ltac read_on :=
  rewrite <- ?app_assoc;
  repeat first [rewrite bind_bind | rewrite bind_ret | rewrite bind_be by range | rewrite bind_full by (done || lia)].

Lemma be_byte n : (0 ≤ n < 256)%Z → be_bytes 1 n = [n].
Proof. intros Hn. simpl. by rewrite Z.div_1_r, Z.mod_small. Qed.

Lemma ReadAddress_codec : codec address_ok Address_WriteTo ReadAddress.
Proof.
  intros a q Ha. unfold ReadAddress, Address_WriteTo. destruct Ha as [ip port Hl Hp|ip port Hl Hp|d port Hl Hp|]; cbn [a_TYPE a_ADDR a_PORT].
  - rewrite <- app_assoc, bind_be by range. cbn [Z.eqb AtypIPv4 AtypNone Pos.eqb]. by read_on.
  - rewrite <- app_assoc, bind_be by range. cbn [Z.eqb AtypIPv4 AtypIPv6 AtypNone Pos.eqb]. by read_on.
  - rewrite <- app_assoc, bind_be by range. cbn [Z.eqb AtypIPv4 AtypIPv6 AtypDomainName AtypNone Pos.eqb].
    change (Z.of_nat (length d) :: d) with ([Z.of_nat (length d)] ++ d).
    rewrite <- be_byte by lia. read_on. rewrite (@wrap_id uint8) by int_lia. destruct (Z.eqb_spec (Z.of_nat (length d) + 1) 0); [lia|].
    read_on.
    by rewrite be_byte by lia.
  - rewrite <- app_assoc, bind_be by range. done.
Qed.

Lemma Head_codec {A} t (f : CommandHead → reader A) q :
  byte_ok t → bind ReadCommandHead f (Head_WriteTo (NewCommandHead t) ++ q) = f (NewCommandHead t) q.
Proof. intros Ht. unfold ReadCommandHead, Head_WriteTo, NewCommandHead, VER. cbn [h_VER h_TYPE]. by read_on. Qed.

Lemma expect_ok {A} t (r : reader A) : expect t (NewCommandHead t) r = r.
Proof. unfold expect. simpl. by rewrite Z.eqb_refl. Qed.

Lemma ReadAuthenticate_codec : codec authenticate_ok Authenticate_WriteTo ReadAuthenticate.
Proof.
  intros [h u t] q (Hh & Hu & Ht). cbn [au_head UUID TOKEN] in *. subst h. unfold ReadAuthenticate, Authenticate_WriteTo. cbn [au_head UUID TOKEN].
  rewrite <- app_assoc, Head_codec by done. unfold ReadAuthenticateWithHead. rewrite expect_ok. by read_on.
Qed.

Lemma ReadConnect_codec : codec connect_ok Connect_WriteTo ReadConnect.
Proof.
  intros [h a] q (Hh & Ha). cbn [co_head co_ADDR] in *. subst h. unfold ReadConnect, Connect_WriteTo. cbn [co_head co_ADDR].
  rewrite <- app_assoc, Head_codec by done. unfold ReadConnectWithHead. rewrite expect_ok.
  by rewrite (bind_codec address_ok Address_WriteTo ReadAddress) by (done || apply ReadAddress_codec).
Qed.

Lemma ReadDissociate_codec : codec dissociate_ok Dissociate_WriteTo ReadDissociate.
Proof.
  intros [h a] q (Hh & Ha). cbn [di_head di_ASSOC_ID] in *. subst h. unfold ReadDissociate, Dissociate_WriteTo. cbn [di_head di_ASSOC_ID].
  rewrite <- app_assoc, Head_codec by done. unfold ReadDissociateWithHead. rewrite expect_ok. by read_on.
Qed.

Lemma ReadHeartbeat_codec : codec (λ c, c = NewHeartbeat) Heartbeat_WriteTo ReadHeartbeat.
Proof. intros c q ->. unfold ReadHeartbeat, Heartbeat_WriteTo, NewHeartbeat. simpl he_head. by rewrite Head_codec. Qed.

Lemma ReadPacket_codec : codec packet_ok Packet_WriteTo ReadPacket.
Proof.
  intros [h assoc pkt total id sz addr data] q (Hh & Has & Hpk & Hto & Hid & Hsz & Hlen & Ha).
  cbn [pk_head ASSOC_ID PKT_ID FRAG_TOTAL FRAG_ID SIZE ADDR DATA] in *. subst h sz.
  unfold ReadPacket, Packet_WriteTo. cbn [pk_head ASSOC_ID PKT_ID FRAG_TOTAL FRAG_ID SIZE ADDR DATA].
  rewrite <- app_assoc, Head_codec by done. unfold ReadPacketWithHead. rewrite expect_ok. read_on.
  rewrite (bind_codec address_ok Address_WriteTo ReadAddress) by (done || apply ReadAddress_codec).
  rewrite bind_full by lia. done.
Qed.

(** *** Cut short *)

Lemma steady_if {A} (b : bool) (r1 r2 : reader A) : steady r1 → steady r2 → steady (if b then r1 else r2).
Proof. by destruct b. Qed.

#[local] Hint Resolve steady_if : steady.

Ltac steadily := repeat (intros; first [apply steady_bind | apply steady_if]); auto with steady.

Lemma steady_address : steady ReadAddress.
Proof. unfold ReadAddress. steadily. Qed.

Lemma steady_packet : steady ReadPacket.
Proof.
  unfold ReadPacket, ReadCommandHead, ReadPacketWithHead, expect. pose proof steady_address. steadily.
Qed.

(** *** The lengths that the code computes *)

Lemma Address_length a : a_TYPE a ≠ AtypNone → Z.of_nat (length (Address_WriteTo a)) = Address_BytesLen a.
Proof.
  intros Ha. unfold Address_WriteTo, Address_BytesLen. rewrite (proj2 (Z.eqb_neq _ _) Ha), !length_app, !be_bytes_length. lia.
Qed.

(** The buffers of the first two commands are sized exactly; a packet is two
    bytes longer than the code says, which counts only one of its two
    identifiers in full, and the dissociation two bytes shorter. *)
Theorem tuic_lengths :
  (∀ c, authenticate_ok c → Authenticate_BytesLen c = Z.of_nat (length (Authenticate_WriteTo c))) ∧
  (∀ c, a_TYPE (co_ADDR c) ≠ AtypNone → Connect_BytesLen c = Z.of_nat (length (Connect_WriteTo c))) ∧
  (∀ c, a_TYPE (ADDR c) ≠ AtypNone → Packet_BytesLen c = Z.of_nat (length (Packet_WriteTo c)) - 2)%Z ∧
  (∀ c, Dissociate_BytesLen c = Z.of_nat (length (Dissociate_WriteTo c)) + 2)%Z.
Proof.
  split_and!.
  - intros c (_ & Hu & Ht). unfold Authenticate_BytesLen, Authenticate_WriteTo, Head_BytesLen, Head_WriteTo.
    rewrite !length_app, !be_bytes_length, Hu, Ht. done.
  - intros c Ha. unfold Connect_BytesLen, Connect_WriteTo, Head_BytesLen, Head_WriteTo.
    rewrite !length_app, !be_bytes_length, <- Address_length by done. lia.
  - intros c Ha. unfold Packet_BytesLen, Packet_WriteTo, Head_BytesLen, Head_WriteTo.
    rewrite !length_app, !be_bytes_length, <- Address_length by done. lia.
  - intros c. unfold Dissociate_BytesLen, Dissociate_WriteTo, Head_BytesLen, Head_WriteTo. rewrite !length_app, !be_bytes_length. lia.
Qed.

(** ** The theorems *)

(** A packet comes back from its bytes, whatever follows them, and bytes that
    end early are an error. *)
Lemma packet_wire (p : Packet) (q : list Z) :
  packet_ok p → ReadPacket (Packet_WriteTo p ++ q) = inr (p, q) ∧
    ∀ p1 p2, p1 ++ p2 = Packet_WriteTo p → p2 ≠ [] → ∃ e, ReadPacket p1 = inl e.
Proof.
  intros Hp. split; [by apply ReadPacket_codec|]. intros p1 p2 Hsplit Hne.
  apply (steady_truncated packet_ok Packet_WriteTo ReadPacket p p1 p2); auto using steady_packet, ReadPacket_codec.
Qed.

(** Every command of TUIC is read back as it was written, whatever follows it
    on the stream; a packet that is cut short is an error. *)
Theorem tuic_commands_roundtrip :
  codec authenticate_ok Authenticate_WriteTo ReadAuthenticate ∧ codec connect_ok Connect_WriteTo ReadConnect ∧
  codec packet_ok Packet_WriteTo ReadPacket ∧ codec dissociate_ok Dissociate_WriteTo ReadDissociate ∧
  codec (λ c, c = NewHeartbeat) Heartbeat_WriteTo ReadHeartbeat ∧
  ∀ p p1 p2, packet_ok p → p1 ++ p2 = Packet_WriteTo p → p2 ≠ [] → ∃ e, ReadPacket p1 = inl e.
Proof.
  split_and!; [exact ReadAuthenticate_codec|exact ReadConnect_codec|exact ReadPacket_codec|exact ReadDissociate_codec|exact ReadHeartbeat_codec|].
  intros p p1 p2 Hp. by apply (packet_wire p []).
Qed.

(** An address whose domain is announced with 255 bytes makes the reader panic:
    the length of the slice is computed in a byte. *)
Theorem address_panics (rest : list Z) : ReadAddress (AtypDomainName :: 255%Z :: rest) = inl GoPanic.
Proof. unfold ReadAddress, bind, read_be, read_full. cbn. done. Qed.
