(* ===== verification/TuicFrag.v ===== *)
(** * Fragments of TUIC packets

    [transport/tuic/v5/frag.go] and the packet half of [packet.go]: a UDP
    payload that is larger than a datagram is sent as numbered fragments, and
    the receiver collects the fragments of each packet in a bag, found by the
    packet's number in a cache whose entries age ([Lru]).  The bags are shared
    through pointers, so they live in a store of their own and the cache holds
    their addresses.

    [None] is a panic (a slice out of range, a division by zero, a nil
    pointer) or, in the loop of the sender, the end of the fuel; the theorems
    show that neither happens.  The main one: fragments that arrive in any
    order, more than once, among other packets, give back the packet that was
    sent exactly when the last one is there ([fragments_reassemble]). *)

From Stdlib Require Import ZArith Lia String.
From stdpp Require Import prelude gmap list sorting.
From S2P Require Import Prelude Netip Wire Lru Tuic.

#[local] Set Default Proof Using "Type*".

(** ** The sender *)

Definition MaxFragSize : Z := (1200 - PacketOverHead - 3)%Z.

(** The fields of one fragment, from the packet as it stands in the loop. *)
Definition make_frag (packet : Packet) (fragID : Z) (data : list Z) : Packet :=
  mkPacket (pk_head packet) (ASSOC_ID packet) (PKT_ID packet) (FRAG_TOTAL packet) fragID
    (@wrap uint16 (Z.of_nat (length data))) (ADDR packet) data.

Definition set_addr_type (t : Z) (p : Packet) : Packet :=
  mkPacket (pk_head p) (ASSOC_ID p) (PKT_ID p) (FRAG_TOTAL p) (FRAG_ID p) (SIZE p) (mkAddress t (a_ADDR (ADDR p)) (a_PORT (ADDR p))) (DATA p).

Definition set_total (n : Z) (p : Packet) : Packet :=
  mkPacket (pk_head p) (ASSOC_ID p) (PKT_ID p) n (FRAG_ID p) (SIZE p) (ADDR p) (DATA p).

Section Send.
(** [SendDatagram]: the error of the connection, if any. *)
Context {E : Type} (send : list Z → option E).

(** The datagrams that went out, and the error that ended the loop. *)
Fixpoint frag_loop (fuel : nat) (fullPayload : list Z) (fragSize : Z) (packet : Packet) (off fragID : Z)
    : option (list (list Z) * option E) :=
  if (off <? Z.of_nat (length fullPayload))%Z then
    match fuel with
    | O => None
    | S fuel' =>
      let rest := (Z.of_nat (length fullPayload) - off)%Z in
      let payloadSize := if (fragSize <? rest)%Z then fragSize else rest in
      (* fullPayload[off : off+payloadSize] *)
      if (payloadSize <? 0)%Z then None
      else
        let frag := make_frag packet fragID (take (Z.to_nat payloadSize) (drop (Z.to_nat off) fullPayload)) in
        let data := Packet_WriteTo frag in
        match send data with
        | Some err => Some ([], Some err)
        | None =>
          match frag_loop fuel' fullPayload fragSize (set_addr_type AtypNone packet) (off + payloadSize) (@wrap uint8 (fragID + 1)) with
          | Some (sent, err) => Some (data :: sent, err)
          | None => None
          end
        end
    end
  else Some ([], None).

Definition fragWriteNative (packet : Packet) (fragSize : Z) : option (list (list Z) * option E) :=
  let fullPayload := DATA packet in
  if (fragSize =? 0)%Z then None
  else
    let fragCount := @wrap uint8 ((Z.of_nat (length fullPayload) + fragSize - 1) ÷ fragSize) in
    frag_loop (length fullPayload) fullPayload fragSize (set_total fragCount packet) 0 0.

(** [WriteTo] in native mode.  [tooLarge] is the payload that the connection
    says it takes, when that is what is wrong. *)
Definition write_native (tooLarge : E → option Z) (maxUdpRelayPacketSize : Z) (packet : Packet)
    : option (list (list Z) * option E) :=
  let first :=
    if (maxUdpRelayPacketSize <? Z.of_nat (length (DATA packet)))%Z then fragWriteNative packet maxUdpRelayPacketSize
    else
      let data := Packet_WriteTo packet in
      match send data with Some err => Some ([], Some err) | None => Some ([data], None) end in
  match first with
  | Some (sent, Some err) =>
    match tooLarge err with
    | Some maxDatagramPayloadSize =>
      match fragWriteNative packet (maxDatagramPayloadSize - PacketOverHead) with
      | Some (sent', err') => Some (sent ++ sent', err')
      | None => None
      end
    | None => first
    end
  | _ => first
  end.

End Send.

(** ** The receiver *)

Record packetBag := mkBag { frags : list (option Packet); count : Z }.

Definition newPacketBag : packetBag := mkBag [] 0.

Record deFragger := mkDefragger { d_lru : lstate Z nat; bags : gmap nat packetBag; d_next : nat }.

(** [init]; the cache is made at the first use. *)
Definition init_lru : lstate Z nat := New (mkHeap ∅ 0) [WithAge 10; WithUpdateAgeOnGet].

Definition newDeFragger : deFragger := mkDefragger init_lru ∅ 0.

(** What happens to the bag of [m], under its lock; the packet, once it is
    whole. *)
Definition feed_bag (m : Packet) (bag : packetBag) : option (option Packet * packetBag) :=
  if negb (FRAG_TOTAL m =? Z.of_nat (length (frags bag)))%Z then
    Some (None, mkBag (<[Z.to_nat (FRAG_ID m) := Some m]> (replicate (Z.to_nat (FRAG_TOTAL m)) None)) 1)
  else
    match frags bag !! Z.to_nat (FRAG_ID m) with
    | None => None
    | Some (Some _) => Some (None, bag)
    | Some None =>
      let bag := mkBag (<[Z.to_nat (FRAG_ID m) := Some m]> (frags bag)) (@wrap uint8 (count bag + 1)) in
      if negb (count bag =? Z.of_nat (length (frags bag)))%Z then Some (None, bag)
      else
        (* all fragments received, assemble *)
        fs ← mapM id (frags bag);
        p ← head fs;
        let data := concat (map DATA fs) in
        Some (Some (mkPacket (pk_head p) (ASSOC_ID p) (PKT_ID p) 1 0 (@wrap uint16 (Z.of_nat (length data))) (ADDR p) data), mkBag [] (count bag))
    end.

(** [now] in seconds. *)
Definition Feed (now : Z) (m : Packet) (d : deFragger) : option (option Packet * deFragger) :=
  if (FRAG_TOTAL m <=? 1)%Z then Some (Some m, d)
  else if (FRAG_TOTAL m <=? FRAG_ID m)%Z then Some (None, d)
  else
    let '(bag, loaded, l) := GetOrStore (PKT_ID m) (d_next d) now (d_lru d) in
    let d := if loaded then mkDefragger l (bags d) (d_next d)
             else mkDefragger l (<[d_next d := newPacketBag]> (bags d)) (S (d_next d)) in
    p ← bag;
    b ← bags d !! p;
    match feed_bag m b with
    | None => None
    | Some (r, b) =>
      let d := mkDefragger (d_lru d) (<[p := b]> (bags d)) (d_next d) in
      match r with
      | Some whole => Some (Some whole, mkDefragger (Delete (PKT_ID m) (d_lru d)) (bags d) (d_next d))
      | None => Some (None, d)
      end
    end.

(** The loop of [ReadFrom] over the datagrams of a connection, each with the
    second it comes at: the first packet that is whole, as [WaitReadFrom]
    returns it; [ReadFrom] copies the payload of the packet read last. *)
Fixpoint WaitReadFrom (arrivals : list (Z * Packet)) (d : deFragger) : option (option (Packet * Packet) * deFragger) :=
  match arrivals with
  | [] => Some (None, d)
  | (now, packet) :: rest =>
    match Feed now packet d with
    | None => None
    | Some (Some whole, d) => Some (Some (whole, packet), d)
    | Some (None, d) => WaitReadFrom rest d
    end
  end.

(** [n = copy(p, packet.DATA)] *)
Definition ReadFrom_data (r : Packet * Packet) : list Z := DATA r.2.

Definition WaitReadFrom_data (r : Packet * Packet) : list Z := DATA r.1.

(** ** Bags *)

(** A bag holds at most 255 fragments and counts them right. *)
Definition bag_ok (b : packetBag) : Prop :=
  (Z.of_nat (length (frags b)) ≤ 255)%Z ∧ (frags b ≠ [] → count b = Z.of_nat (length (omap id (frags b)))).

(** A fragment as the reader makes it, of a packet of several. *)
Definition frag_ok (m : Packet) : Prop := (0 ≤ FRAG_ID m < FRAG_TOTAL m ∧ 1 < FRAG_TOTAL m < 256)%Z.

Lemma omap_id_insert {A} (l : list (option A)) i x :
  l !! i = Some None → length (omap id (<[i := Some x]> l)) = S (length (omap id l)).
Proof.
  revert i. induction l as [|[y|] l IH]; intros [|i] Hi; try done.
  - cbn. f_equal. by apply IH.
  - cbn. by apply IH.
Qed.

Lemma omap_id_le {A} (l : list (option A)) : length (omap id l) ≤ length l.
Proof. induction l as [|[y|] l IH]; cbn; lia. Qed.

Lemma omap_id_full {A} (l : list (option A)) : length (omap id l) = length l → ∃ xs, mapM id l = Some xs ∧ l = map Some xs.
Proof.
  induction l as [|[y|] l IH]; intros Hl.
  - by exists [].
  - destruct IH as (xs & Hm & ->); [cbn in Hl; lia|]. exists (y :: xs). split; [cbn; by rewrite Hm|done].
  - pose proof (omap_id_le l). cbn in Hl. lia.
Qed.

Lemma omap_id_replicate {A} n : omap id (replicate n (@None A)) = [].
Proof. by induction n. Qed.

Lemma feed_bag_ok m b :
  frag_ok m → bag_ok b → ∃ r b', feed_bag m b = Some (r, b') ∧ bag_ok b'.
Proof.
  intros [Hid Hto] [Hlen Hc]. unfold feed_bag. destruct (Z.eqb_spec (FRAG_TOTAL m) (Z.of_nat (length (frags b)))) as [He|He]; simpl.
  - assert (frags b ≠ []) as Hne by (intros Hb; rewrite Hb in He; simpl in He; lia). specialize (Hc Hne).
    destruct (lookup_lt_is_Some_2 (frags b) (Z.to_nat (FRAG_ID m))) as [x Hx]; [lia|]. rewrite Hx. destruct x as [x|]; [by eexists _, _|].
    pose proof (omap_id_insert _ _ m Hx) as Hi. pose proof (omap_id_le (<[Z.to_nat (FRAG_ID m):=Some m]> (frags b))) as Hle.
    rewrite length_insert, Hi in Hle. rewrite length_insert. rewrite (@wrap_id uint8) by int_lia.
    destruct (Z.eqb_spec (count b + 1) (Z.of_nat (length (frags b)))) as [Hf|Hf]; simpl.
    + destruct (omap_id_full (<[Z.to_nat (FRAG_ID m):=Some m]> (frags b))) as (xs & -> & Hxs); [rewrite Hi, length_insert; lia|]. simpl.
      destruct xs as [|p xs]; [apply (f_equal length) in Hxs; rewrite length_insert in Hxs; destruct (frags b); [done|simpl in Hxs; lia]|].
      eexists _, _. split; [done|]. split; simpl; [lia|done].
    + eexists _, _. split; [done|]. split; simpl; [rewrite length_insert; lia|]. intros _. rewrite Hi. lia.
  - eexists _, _. split; [done|]. split; simpl; [rewrite length_insert, length_replicate; lia|]. intros _.
    rewrite omap_id_insert by (apply lookup_replicate; split; [done|lia]). by rewrite omap_id_replicate.
Qed.

(** ** The cache of bags *)

Definition bag_options : Options := opts (lc init_lru).

Notation acache := (astate Z nat).

Lemma aexpire_keep (now : Z) (k : Z) (l : list (entry Z nat)) e :
  afind k l = Some e → (now < eexpires e)%Z → afind k (aexpire_list now l).2 = Some e.
Proof.
  induction l as [|e' l IH]; [done|]. cbn [afind aexpire_list]. intros Hf Hnow. destruct (Z.leb_spec (eexpires e') now) as [Hle|Hgt].
  - case_decide as Hk; [simplify_eq; lia|]. specialize (IH Hf Hnow). by destruct (aexpire_list now l).
  - cbn [snd afind]. done.
Qed.

Lemma aexpire_sub (now : Z) (l : list (entry Z nat)) e : e ∈ (aexpire_list now l).2 → e ∈ l.
Proof. intros He. rewrite <- (aexpire_list_app now l). apply elem_of_app. by right. Qed.

Lemma aexpire_items o now (a : acache) e : e ∈ items (aexpire o now a) → e ∈ items a.
Proof.
  unfold aexpire. destruct (ages o); [|done]. intros He. apply aexpire_sub with now. by destruct (aexpire_list now (items a)).
Qed.

Lemma aexpire_look o now (a : acache) k e :
  afind k (items a) = Some e → (now < eexpires e)%Z → afind k (items (aexpire o now a)) = Some e.
Proof.
  intros Hf Hn. unfold aexpire. destruct (ages o); [|done]. pose proof (aexpire_keep now k _ e Hf Hn).
  by destruct (aexpire_list now (items a)).
Qed.

Lemma adel_other (k k' : Z) (l : list (entry Z nat)) : k' ≠ k → afind k' (adel k l) = afind k' l.
Proof.
  intros Hk. induction l as [|e l IH]; [done|]. unfold adel in *. rewrite filter_cons. case_decide as He; simpl; [by rewrite IH|].
  by rewrite decide_False by congruence.
Qed.

Lemma aset_spec_new (k : Z) (v : nat) (now : Z) (a : acache) :
  let a' := aset_now bag_options k v now a in
  afind k (items a') = Some (mkEntry k v (now + 10)) ∧
  (∀ e, e ∈ items a' → e ∈ items a ∨ e = mkEntry k v (now + 10)) ∧
  (∀ k' e, k' ≠ k → afind k' (items a) = Some e → (now < eexpires e)%Z → afind k' (items a') = Some e).
Proof.
  intros a'. unfold a', aset_now. cbn [maxAge bag_options init_lru New]. simpl (0 <? 10)%Z. cbn [fst snd].
  split; [apply aset_find; intros _; lia|]. unfold aset. change (0 <? maxSize bag_options)%Z with false. cbn [andb].
  set (b := match afind k (items a) with Some _ => _ | None => _ end).
  assert (∃ l, items b = l ++ [mkEntry k v (now + 10)] ∧ (∀ e, e ∈ l → e ∈ items a) ∧ ∀ k', k' ≠ k → afind k' l = afind k' (items a)) as (l & Hl & Hin & Hk).
  { unfold b. destruct (afind k (items a)) as [e0|]; eexists; (split; [done|split]); try done.
    - by intros e [_ He]%list_elem_of_filter.
    - intros k' Hne. by apply adel_other. }
  split.
  - intros e He%aexpire_items. rewrite Hl in He. apply elem_of_app in He as [He|He%list_elem_of_singleton]; [left; by apply Hin|by right].
  - intros k' e Hne Hf Hn. apply aexpire_look; [|done]. by rewrite Hl, afind_app, Hk, Hf.
Qed.

(** What [GetOrStore] does: the bag of the key is the answer, and it is young
    again; other bags that are not over stay. *)
Lemma store_spec (k : Z) (v : nat) (now : Z) (a : acache) :
  let r := aspec bag_options (OGetOrStore k v) now a in
  ∃ p loaded, r.1 = mkAnswer (Some p) None loaded ∧ afind k (items r.2) = Some (mkEntry k p (now + 10)) ∧
    (if loaded then ∃ e, afind k (items a) = Some e ∧ evalue e = p ∧ (now < eexpires e)%Z else p = v) ∧
    (loaded = false → ∀ e, afind k (items a) = Some e → (eexpires e ≤ now)%Z) ∧
    (∀ e, e ∈ items r.2 → e ∈ items a ∨ e = mkEntry k p (now + 10)) ∧
    (∀ k' e, k' ≠ k → afind k' (items a) = Some e → (now < eexpires e)%Z → afind k' (items r.2) = Some e).
Proof.
  intros r. unfold r. cbn [aspec]. unfold aget. destruct (afind k (items a)) as [e|] eqn:Hf.
  - pose proof (afind_Some _ _ _ Hf) as [Hin Hk]. change (ages bag_options) with true. cbn [andb]. destruct (Z.leb_spec (eexpires e) now) as [Hle|Hgt].
    + destruct (aset_spec_new k v now (aexpire bag_options now (aremove bag_options k a))) as (H1 & H2 & H3).
      eexists v, false. cbn [fst snd]. split_and!; [done|exact H1|done|intros _ e' [= ->]; lia| |].
      * intros e' [He'|He']%H2; [|by right]. left. apply aexpire_items in He'. unfold aremove in He'. rewrite Hf in He'. cbn [items] in He'.
        by apply list_elem_of_filter in He' as [_ He'].
      * intros k' e' Hne Hf' Hn'. apply H3; [done| |done]. apply aexpire_look; [|done]. unfold aremove. rewrite Hf. cbn [items]. by rewrite adel_other.
    + exists (evalue e), true. cbn [fst snd items]. unfold arefresh. simpl. rewrite Hk. split_and!; [done| |by exists e|done| |].
      * rewrite afind_app, afind_adel. simpl. by rewrite decide_True.
      * intros e' [He'|He'%list_elem_of_singleton]%elem_of_app; [left; by apply list_elem_of_filter in He' as [_ ?]|by right].
      * intros k' e' Hne Hf' Hn'. by rewrite afind_app, adel_other, Hf'.
  - destruct (aset_spec_new k v now a) as (H1 & H2 & H3). exists v, false. cbn [fst snd]. split_and!; [done|exact H1|done|done| |].
    + exact H2.
    + exact H3.
Qed.

Lemma delete_spec (k : Z) (a : acache) :
  let a' := aremove bag_options k a in
  afind k (items a') = None ∧ (∀ e, e ∈ items a' → e ∈ items a) ∧ (∀ k', k' ≠ k → afind k' (items a') = afind k' (items a)).
Proof.
  intros a'. unfold a', aremove. destruct (afind k (items a)) eqn:Hf; cbn [items]; [|done]. split_and!.
  - apply afind_adel.
  - intros e' [_ He']%list_elem_of_filter. done.
  - intros k' Hk. by apply adel_other.
Qed.

(** ** The bags behind the cache *)

Record dinv (d : deFragger) (a : acache) : Prop := {
  dinv_refines : refines (d_lru d) a;
  dinv_opts : opts (lc (d_lru d)) = bag_options;
  dinv_bag e : e ∈ items a → is_Some (bags d !! evalue e);
  dinv_own e e' : e ∈ items a → e' ∈ items a → evalue e = evalue e' → ekey e = ekey e';
  dinv_ok p b : bags d !! p = Some b → p < d_next d ∧ bag_ok b
}.

(** A bag of key [k] that the cache still holds at [now]. *)
Definition holds (d : deFragger) (a : acache) (k now : Z) (b : packetBag) : Prop :=
  ∃ e, afind k (items a) = Some e ∧ (now < eexpires e)%Z ∧ bags d !! evalue e = Some b.

(** *** The lookup *)

(** [GetOrStore] with the new bag of a miss put in the store. *)
Definition get_bag (k now : Z) (d : deFragger) : option nat * deFragger :=
  let '(bag, loaded, l) := GetOrStore k (d_next d) now (d_lru d) in
  (bag, if loaded then mkDefragger l (bags d) (d_next d)
        else mkDefragger l (<[d_next d := newPacketBag]> (bags d)) (S (d_next d))).

Lemma bag_ok_new : bag_ok newPacketBag.
Proof. by split. Qed.

Lemma get_bag_spec k now d a :
  dinv d a →
  ∃ p b d1 a1, get_bag k now d = (Some p, d1) ∧ dinv d1 a1 ∧ bags d1 !! p = Some b ∧
    afind k (items a1) = Some (mkEntry k p (now + 10)) ∧
    (holds d a k now b ∨ (b = newPacketBag ∧ ∀ e, afind k (items a) = Some e → (eexpires e ≤ now)%Z)) ∧
    (∀ k' t b', k' ≠ k → (now ≤ t)%Z → holds d a k' t b' → holds d1 a1 k' t b') ∧
    (∀ e, e ∈ items a1 → ekey e = k ∨ e ∈ items a).
Proof.
  intros [Hr Ho Hb Hown Hok]. pose proof (lru_step_refines (OGetOrStore k (d_next d)) now (d_lru d) a Hr) as [Hans Hr1].
  pose proof (lru_step_opts (OGetOrStore k (d_next d)) now (d_lru d)) as Ho1. rewrite Ho in *.
  destruct (store_spec k (d_next d) now a) as (p & loaded & Hp & Hf & Hl & Hm & Hin & Hoth).
  set (a1 := (aspec bag_options (OGetOrStore k (d_next d)) now a).2) in *. rewrite Hp in Hans. clearbody a1.
  cbn [lru_step] in *. unfold get_bag. destruct (GetOrStore k (d_next d) now (d_lru d)) as [[r ld] l]. cbn [fst snd] in *.
  injection Hans as -> ->. destruct loaded.
  - destruct Hl as (e & He & Hep & Hen). pose proof (afind_Some _ _ _ He) as [Hei Hek]. destruct (Hb e Hei) as [b Hbb].
    exists p, b, (mkDefragger l (bags d) (d_next d)), a1. rewrite Hep in Hbb. split_and!; try done.
    + split; cbn [d_lru bags d_next]; [done|done| | |done].
      * intros e' [He'| ->]%Hin; [by apply Hb|simpl; by rewrite Hbb].
      * intros e1 e2 [H1| ->]%Hin [H2| ->]%Hin; cbn [evalue ekey]; intros Heq; [by apply Hown| | |done].
        -- rewrite <- Hek. apply Hown; [done..|congruence].
        -- rewrite <- Hek. apply Hown; [done..|congruence].
    + left. exists e. by rewrite Hep.
    + intros k' t b' Hne Ht (e' & He' & Hn' & Hb'). exists e'. split_and!; [|done..]. apply Hoth; [done..|lia].
    + intros e' [He'| ->]%Hin; [by right|by left].
  - subst p. assert (∀ e, e ∈ items a → evalue e ≠ d_next d) as Hfresh.
    { intros e He Heq. destruct (Hb e He) as [b Hbb]. apply Hok in Hbb as [Hbb _]. lia. }
    exists (d_next d), newPacketBag, (mkDefragger l (<[d_next d := newPacketBag]> (bags d)) (S (d_next d))), a1. split_and!; try done.
    + split; cbn [d_lru bags d_next]; [done|done| | |].
      * intros e' [He'| ->]%Hin; cbn [evalue]; [|by rewrite lookup_insert_eq]. rewrite lookup_insert_ne by (apply not_eq_sym; by apply Hfresh). by apply Hb.
      * intros e1 e2 [H1| ->]%Hin [H2| ->]%Hin; cbn [evalue ekey]; intros Heq; [by apply Hown| | |done].
        -- by destruct (Hfresh e1 H1).
        -- by destruct (Hfresh e2 H2).
      * intros p b. rewrite lookup_insert. case_decide; [intros [= <-]; split; [lia|apply bag_ok_new]|]. intros Hpb. destruct (Hok p b Hpb). split; [lia|done].
    + cbn [bags]. by rewrite lookup_insert_eq.
    + right. split; [done|]. by apply Hm.
    + intros k' t b' Hne Ht (e' & He' & Hn' & Hb'). exists e'. split_and!; [apply Hoth; [done..|lia]|done|]. simpl. rewrite lookup_insert_ne; [done|].
      apply not_eq_sym, Hfresh. by apply afind_Some in He' as [? _].
    + intros e' [He'| ->]%Hin; [by right|by left].
Qed.

(** *** Feeding a fragment *)

(** Storing the bag back. *)
Lemma put_bag_inv d a p b b' :
  dinv d a → bags d !! p = Some b → bag_ok b' → dinv (mkDefragger (d_lru d) (<[p := b']> (bags d)) (d_next d)) a.
Proof.
  intros [Hr Ho Hb Hown Hok] Hp Hb'. split; cbn [d_lru bags d_next]; [done|done| |done|].
  - intros e He. rewrite lookup_insert. case_decide; [done|by apply Hb].
  - intros p' b''. rewrite lookup_insert. case_decide; [intros [= <-]; subst; split; [by eapply Hok|done]|apply Hok].
Qed.

Lemma Feed_get now m d :
  frag_ok m →
  Feed now m d =
    (let '(bag, d) := get_bag (PKT_ID m) now d in
     p ← bag; b ← bags d !! p;
     match feed_bag m b with
     | None => None
     | Some (r, b) =>
       let d := mkDefragger (d_lru d) (<[p := b]> (bags d)) (d_next d) in
       match r with
       | Some whole => Some (Some whole, mkDefragger (Delete (PKT_ID m) (d_lru d)) (bags d) (d_next d))
       | None => Some (None, d)
       end
     end).
Proof.
  intros [Hid Hto]. unfold Feed, get_bag. rewrite (proj2 (Z.leb_gt (FRAG_TOTAL m) 1)), (proj2 (Z.leb_gt (FRAG_TOTAL m) (FRAG_ID m))) by lia.
  by destruct (GetOrStore (PKT_ID m) (d_next d) now (d_lru d)) as [[bag []] l].
Qed.

Lemma delete_inv d a k :
  dinv d a → dinv (mkDefragger (Delete k (d_lru d)) (bags d) (d_next d)) (aremove bag_options k a).
Proof.
  intros [Hr Ho Hb Hown Hok]. destruct (delete_spec k a) as (_ & Hin & _).
  pose proof (lru_step_refines (ODelete k) 0 (d_lru d) a Hr) as [_ Hr1]. pose proof (lru_step_opts (ODelete k) 0 (d_lru d)) as Ho1.
  rewrite Ho in *. split; cbn [d_lru bags d_next]; [exact Hr1|exact Ho1| | |done].
  - intros e He. by apply Hb, Hin.
  - intros e e' He He'. apply Hown; by apply Hin.
Qed.

Lemma Feed_spec now m d a :
  frag_ok m → dinv d a →
  ∃ r d' a' b b', Feed now m d = Some (r, d') ∧ dinv d' a' ∧ feed_bag m b = Some (r, b') ∧
    (holds d a (PKT_ID m) now b ∨ (b = newPacketBag ∧ ∀ e, afind (PKT_ID m) (items a) = Some e → (eexpires e ≤ now)%Z)) ∧
    (r = None → ∀ t, (t < now + 10)%Z → holds d' a' (PKT_ID m) t b') ∧
    (r ≠ None → afind (PKT_ID m) (items a') = None) ∧
    (∀ k t b, k ≠ PKT_ID m → (now ≤ t)%Z → holds d a k t b → holds d' a' k t b) ∧
    (∀ k, k ≠ PKT_ID m → afind k (items a) = None → afind k (items a') = None).
Proof.
  intros Hm Hd. rewrite Feed_get by done. destruct (get_bag_spec (PKT_ID m) now d a Hd) as (p & b & d1 & a1 & -> & Hd1 & Hb & Hf & Hold & Hoth & Hin).
  cbn [mbind option_bind]. rewrite Hb. cbn [mbind option_bind]. destruct (feed_bag_ok m b Hm) as (r & b' & Hfb & Hb'); [by eapply dinv_ok|]. rewrite Hfb.
  pose proof (put_bag_inv d1 a1 p b b' Hd1 Hb Hb') as Hd2. set (d2 := mkDefragger _ _ _) in *.
  assert (∀ k t b0, k ≠ PKT_ID m → (now ≤ t)%Z → holds d a k t b0 → holds d2 a1 k t b0) as Hoth2.
  { intros k t b0 Hne Ht (e & He & Hn & Hbe)%(Hoth k t b0 Hne Ht). exists e. split_and!; [done..|]. unfold d2. cbn [bags].
    rewrite lookup_insert_ne; [done|]. intros Hp. apply Hne. pose proof (afind_Some _ _ _ He) as [Hei <-]. pose proof (afind_Some _ _ _ Hf) as [Hfi _].
    by rewrite (dinv_own d1 a1 Hd1 e _ Hei Hfi) by (by rewrite <- Hp). }
  assert (∀ k, k ≠ PKT_ID m → afind k (items a) = None → afind k (items a1) = None) as Hnone.
  { intros k Hne Hn. apply afind_None. intros e [He|He]%Hin; [congruence|]. by apply (proj1 (afind_None k (items a)) Hn). }
  destruct r as [whole|]; eexists _, _, _, b, b'.
  - split_and!; [done|apply delete_inv; exact Hd2|done|done|done| | |].
    + intros _. apply delete_spec.
    + intros k t b0 Hne Ht Hh. destruct (Hoth2 k t b0 Hne Ht Hh) as (e & He & Hn & Hbe). exists e. split_and!; [|done..].
      destruct (delete_spec (PKT_ID m) a1) as (_ & _ & Hk). by rewrite Hk.
    + intros k Hne Hn. destruct (delete_spec (PKT_ID m) a1) as (_ & _ & Hk). rewrite Hk by done. by apply Hnone.
  - split_and!; [done|exact Hd2|done|done| |done|done|done].
    intros _ t Ht. exists (mkEntry (PKT_ID m) p (now + 10)). split_and!; [done|done|]. unfold d2. cbn [bags evalue]. by rewrite lookup_insert_eq.
Qed.

(** ** Sequences of arrivals *)

(** The answers of [Feed] to packets that come one after the other. *)
Fixpoint feed_all (arrivals : list (Z * Packet)) (d : deFragger) : option (list (option Packet) * deFragger) :=
  match arrivals with
  | [] => Some ([], d)
  | (now, m) :: rest =>
    match Feed now m d with
    | None => None
    | Some (r, d) => match feed_all rest d with None => None | Some (rs, d) => Some (r :: rs, d) end
    end
  end.

(** The fields are bytes. *)
Definition from_wire (m : Packet) : Prop := (0 ≤ FRAG_ID m < 256 ∧ 0 ≤ FRAG_TOTAL m < 256)%Z.

Lemma dinv_new : dinv newDeFragger (mkA [] []).
Proof.
  split; simpl; try done.
  - exact (refines_new (mkHeap ∅ 0) _ empty_heap_fresh).
  - intros e He. by apply not_elem_of_nil in He.
  - intros e e' He. by apply not_elem_of_nil in He.
Qed.

Lemma from_wire_frag m : from_wire m → (1 < FRAG_TOTAL m)%Z → (FRAG_ID m < FRAG_TOTAL m)%Z → frag_ok m.
Proof. unfold from_wire, frag_ok. lia. Qed.

Lemma Feed_plain now m d : (FRAG_TOTAL m ≤ 1)%Z → Feed now m d = Some (Some m, d).
Proof. intros Hm. unfold Feed. by rewrite (proj2 (Z.leb_le _ _) Hm). Qed.

Lemma Feed_wild now m d : (1 < FRAG_TOTAL m ≤ FRAG_ID m)%Z → Feed now m d = Some (None, d).
Proof. intros [H1 H2]. unfold Feed. by rewrite (proj2 (Z.leb_gt _ _) H1), (proj2 (Z.leb_le _ _) H2). Qed.

(** A packet of another number leaves the bag of [k] as it is. *)
Lemma Feed_other now m d a k :
  from_wire m → dinv d a → PKT_ID m ≠ k ∨ (FRAG_TOTAL m ≤ 1)%Z →
  ∃ r d' a', Feed now m d = Some (r, d') ∧ dinv d' a' ∧
    (∀ t b, (now ≤ t)%Z → holds d a k t b → holds d' a' k t b) ∧ (afind k (items a) = None → afind k (items a') = None).
Proof.
  intros Hw Hd Hk. destruct (Z.le_gt_cases (FRAG_TOTAL m) 1) as [H1|H1].
  - rewrite Feed_plain by done. by eexists _, d, a.
  - destruct Hk as [Hk|Hk]; [|lia]. destruct (Z.le_gt_cases (FRAG_TOTAL m) (FRAG_ID m)) as [H2|H2].
    + rewrite Feed_wild by lia. by eexists _, d, a.
    + destruct (Feed_spec now m d a) as (r & d' & a' & b & b' & Hf & Hd' & _ & _ & _ & _ & Ho & Hn); [by apply from_wire_frag|done|].
      exists r, d', a'. split_and!; [done|done| |].
      * intros t b0 Ht. by apply Ho.
      * by apply Hn.
Qed.

Lemma feed_all_safe arrivals d a :
  dinv d a → Forall (λ x, from_wire x.2) arrivals → ∃ rs d' a', feed_all arrivals d = Some (rs, d') ∧ dinv d' a'.
Proof.
  revert d a. induction arrivals as [|[now m] arrivals IH]; intros d a Hd Hw; [by eexists _, _, a|].
  apply Forall_cons in Hw as [Hm Hw]. simpl in Hm. cbn [feed_all].
  assert (∃ r d' a', Feed now m d = Some (r, d') ∧ dinv d' a') as (r & d' & a' & -> & Hd').
  { destruct (Feed_other now m d a (PKT_ID m + 1) Hm Hd) as (r & d' & a' & ? & ? & _); [left; lia|eauto]. }
  destruct (IH d' a' Hd' Hw) as (rs & d'' & a'' & -> & Hd''). by eexists _, _, a''.
Qed.

(** ** The fragments of one packet *)

Section Collect.
Context (K : Z) (fs : list Packet).

(** [fs] are all the fragments of packet number [K], in order. *)
Definition fragments_of : Prop :=
  2 ≤ length fs ∧ (Z.of_nat (length fs) ≤ 255)%Z ∧
  ∀ i f, fs !! i = Some f → PKT_ID f = K ∧ FRAG_TOTAL f = Z.of_nat (length fs) ∧ FRAG_ID f = Z.of_nat i.

(** The bag when the fragments of [seen] are in it. *)
Definition bag_seen (seen : gset nat) : packetBag :=
  mkBag (imap (λ i f, if decide (i ∈ seen) then Some f else None) fs) (Z.of_nat (size seen)).

Definition within_ids (seen : gset nat) : Prop := seen ⊆ set_seq 0 (length fs).

Lemma bag_seen_length seen : length (frags (bag_seen seen)) = length fs.
Proof. simpl. by rewrite length_imap. Qed.

Lemma bag_seen_lookup seen i f :
  fs !! i = Some f → frags (bag_seen seen) !! i = Some (if decide (i ∈ seen) then Some f else None).
Proof. intros Hf. simpl. by rewrite list_lookup_imap, Hf. Qed.

Lemma bag_seen_insert seen i f :
  fs !! i = Some f → <[i := Some f]> (frags (bag_seen seen)) = frags (bag_seen ({[i]} ∪ seen)).
Proof.
  intros Hf. apply list_eq. intros j. destruct (decide (j = i)) as [->|Hj].
  - rewrite list_lookup_insert_eq by (rewrite bag_seen_length; by eapply lookup_lt_Some). rewrite (bag_seen_lookup _ _ _ Hf).
    by rewrite decide_True by set_solver.
  - rewrite list_lookup_insert_ne by done. simpl. rewrite !list_lookup_imap. destruct (fs !! j); [|done]. simpl. f_equal.
    destruct (decide (j ∈ seen)); [rewrite decide_True by set_solver; done|by rewrite decide_False by set_solver].
Qed.

Lemma bag_seen_first i f : fs !! i = Some f → <[i := Some f]> (replicate (length fs) None) = frags (bag_seen {[i]}).
Proof.
  intros Hf. assert (replicate (length fs) None = frags (bag_seen ∅)) as ->.
  { simpl. clear. generalize fs. induction fs0 as [|g l IH] using rev_ind; [done|].
    rewrite imap_app, length_app. simpl. rewrite replicate_add, IH. simpl. by rewrite decide_False by set_solver. }
  rewrite (bag_seen_insert ∅ i f Hf). f_equal. f_equal. set_solver.
Qed.

Lemma within_size seen : within_ids seen → size seen ≤ length fs.
Proof. intros Hs. rewrite <- (size_set_seq (C := gset nat) 0 (length fs)). by apply subseteq_size. Qed.

Lemma within_full seen : within_ids seen → size seen = length fs → seen = set_seq 0 (length fs).
Proof.
  intros Hs Hn. apply set_eq. intros i. split; [apply Hs|]. intros Hi.
  destruct (decide (i ∈ seen)) as [|Hni]; [done|]. exfalso.
  assert (size ({[i]} ∪ seen) ≤ length fs) as Hle by (apply within_size; unfold within_ids in *; set_solver).
  rewrite size_union, size_singleton in Hle by set_solver. lia.
Qed.

Lemma bag_seen_full : frags (bag_seen (set_seq 0 (length fs))) = map Some fs.
Proof.
  apply list_eq. intros i. simpl. rewrite list_lookup_imap, list_lookup_fmap. destruct (fs !! i) eqn:Hi; [|done]. simpl. f_equal.
  apply lookup_lt_Some in Hi. rewrite decide_True; [done|]. apply elem_of_set_seq. lia.
Qed.

Definition whole : option Packet :=
  p ← head fs;
  let data := concat (map DATA fs) in
  Some (mkPacket (pk_head p) (ASSOC_ID p) (PKT_ID p) 1 0 (@wrap uint16 (Z.of_nat (length data))) (ADDR p) data).

Lemma mapM_some {A} (l : list A) : mapM id (map Some l) = Some l.
Proof. induction l as [|x l IH]; [done|]. cbn. by rewrite IH. Qed.

Lemma feed_first i f : fragments_of → fs !! i = Some f → feed_bag f newPacketBag = Some (None, bag_seen {[i]}).
Proof.
  intros (Hn & Hn' & Hfs) Hi. destruct (Hfs i f Hi) as (_ & Ht & Hid). unfold feed_bag. cbn [frags newPacketBag length].
  destruct (Z.eqb_spec (FRAG_TOTAL f) (Z.of_nat 0)); [lia|]. cbn [negb]. rewrite Ht, Hid, !Nat2Z.id. rewrite (bag_seen_first i f Hi).
  unfold bag_seen at 2. by rewrite size_singleton.
Qed.

Lemma feed_again seen i f : fragments_of → fs !! i = Some f → i ∈ seen → feed_bag f (bag_seen seen) = Some (None, bag_seen seen).
Proof.
  intros (Hn & Hn' & Hfs) Hi Hs. destruct (Hfs i f Hi) as (_ & Ht & Hid). unfold feed_bag.
  rewrite bag_seen_length, Ht, Z.eqb_refl, Hid, Nat2Z.id, (bag_seen_lookup _ _ _ Hi). by rewrite decide_True.
Qed.

Lemma feed_next seen i f :
  fragments_of → fs !! i = Some f → i ∉ seen → within_ids seen →
  feed_bag f (bag_seen seen) =
    if decide (S (size seen) = length fs) then (λ p, (Some p, mkBag [] (Z.of_nat (length fs)))) <$> whole
    else Some (None, bag_seen ({[i]} ∪ seen)).
Proof.
  intros (Hn & Hn' & Hfs) Hi Hs Hw. destruct (Hfs i f Hi) as (_ & Ht & Hid). unfold feed_bag.
  rewrite bag_seen_length, Ht, Z.eqb_refl, Hid, Nat2Z.id, (bag_seen_lookup _ _ _ Hi). rewrite decide_False by done. cbn [negb].
  assert (size ({[i]} ∪ seen) = S (size seen)) as Hsz by (rewrite size_union, size_singleton by set_solver; lia).
  assert (within_ids ({[i]} ∪ seen)) as Hw'.
  { intros j [->%elem_of_singleton|Hj]%elem_of_union; [|by apply Hw]. apply elem_of_set_seq. apply lookup_lt_Some in Hi. lia. }
  pose proof (within_size _ Hw') as Hle. rewrite Hsz in Hle.
  rewrite (bag_seen_insert _ _ _ Hi). cbn [count frags]. change (count (bag_seen seen)) with (Z.of_nat (size seen)).
  change (imap _ fs) with (frags (bag_seen ({[i]} ∪ seen))). rewrite bag_seen_length. rewrite (@wrap_id uint8) by int_lia.
  case_decide as Hfull.
  - rewrite (proj2 (Z.eqb_eq _ _)) by lia. cbn [negb].
    rewrite (within_full _ Hw') by lia.
    rewrite bag_seen_full, mapM_some. cbn [mbind option_bind]. unfold whole. destruct (head fs); [|done]. cbn [mbind option_bind fmap option_fmap option_map].
    do 3 f_equal. lia.
  - rewrite (proj2 (Z.eqb_neq _ _)) by lia. cbn [negb]. unfold bag_seen. by rewrite Hsz, Nat2Z.inj_succ.
Qed.

(** What the cache keeps of the packet until time [T]. *)
Definition collected (T : Z) (d : deFragger) (a : acache) (seen : gset nat) : Prop :=
  (seen = ∅ ∧ afind K (items a) = None) ∨ (seen ≠ ∅ ∧ holds d a K T (bag_seen seen)).

Lemma holds_one d a now T b : holds d a K T (bag_seen b) → (now ≤ T)%Z → ∀ b', holds d a K now b' → b' = bag_seen b.
Proof. intros (e & He & _ & Hb) Ht b' (e' & He' & _ & Hb'). congruence. Qed.

Lemma collect_step T now i f d a seen :
  fragments_of → fs !! i = Some f → dinv d a → collected T d a seen → within_ids seen → (now ≤ T < now + 10)%Z →
  ∃ d' a', Feed now f d = Some (if decide (i ∉ seen ∧ S (size seen) = length fs) then whole else None, d') ∧ dinv d' a' ∧
    (¬ (i ∉ seen ∧ S (size seen) = length fs) → collected T d' a' ({[i]} ∪ seen)) ∧
    (i ∉ seen → S (size seen) = length fs → afind K (items a') = None).
Proof.
  intros Hfs Hi Hd Hc Hw Ht. pose proof Hfs as (Hn & Hn' & Hf). destruct (Hf i f Hi) as (HK & Hto & Hid). pose proof (lookup_lt_Some _ _ _ Hi) as Hlt.
  destruct (Feed_spec now f d a) as (r & d' & a' & b & b' & HF & Hd' & Hfb & Hold & Hnone & Hsome & _ & _); [unfold frag_ok; lia|done|].
  rewrite HK in *. exists d', a'. rewrite HF. destruct Hc as [[-> Hno]|[Hne Hh]].
  - destruct Hold as [(e & He & _)|[-> _]]; [congruence|]. rewrite (feed_first i f Hfs Hi) in Hfb. injection Hfb as <- <-.
    assert (S (size (∅ : gset nat)) ≠ length fs) as H1 by (rewrite size_empty; lia).
    rewrite decide_False by tauto. split_and!; [done|done| |done]. intros _. right. split; [set_solver|].
    rewrite union_empty_r_L. apply Hnone; [done|lia].
  - assert (b = bag_seen seen) as ->.
    { destruct Hold as [Hb|[_ Hexp]]; [apply (holds_one d a now T seen Hh); [lia|done]|]. destruct Hh as (e & He & Hlt' & _). specialize (Hexp e He). lia. }
    destruct (decide (i ∈ seen)) as [Hin|Hin].
    + rewrite (feed_again seen i f Hfs Hi Hin) in Hfb. injection Hfb as <- <-. rewrite decide_False by tauto. split_and!; [done|done| |done].
      intros _. right. rewrite subseteq_union_1_L by set_solver. split; [done|]. apply Hnone; [done|lia].
    + rewrite (feed_next seen i f Hfs Hi Hin Hw) in Hfb. destruct (decide (S (size seen) = length fs)) as [Hfull|Hfull].
      * rewrite decide_True by done. assert (is_Some whole) as [p Hp] by (unfold whole; destruct fs; [simpl in Hn; lia|by eexists]).
        rewrite Hp in Hfb |- *. injection Hfb as <- <-. split_and!; [done|done|tauto|]. intros _ _. by apply Hsome.
      * injection Hfb as <- <-. rewrite decide_False by tauto. split_and!; [done|done| |done]. intros _. right. split; [set_solver|]. apply Hnone; [done|lia].
Qed.

(** Arrivals between [t0] and [T]: fragments of the packet and anything else. *)
Definition arrival_ok (t0 T : Z) (x : Z * Packet) : Prop :=
  (t0 ≤ x.1 ≤ T)%Z ∧ from_wire x.2 ∧ (x.2 ∈ fs ∨ PKT_ID x.2 ≠ K ∨ (FRAG_TOTAL x.2 ≤ 1)%Z).

Lemma fragment_plain f : fragments_of → f ∈ fs → PKT_ID f = K ∧ (1 < FRAG_TOTAL f)%Z.
Proof. intros (Hn & _ & Hf) [i Hi]%list_elem_of_lookup. destruct (Hf i f Hi) as (? & ? & _). split; [done|lia]. Qed.

Lemma collect_run t0 T j arrivals d a seen :
  fragments_of → (T < t0 + 10)%Z → Forall (arrival_ok t0 T) arrivals → j < length fs →
  (∀ m, fs !! j = Some m → m ∉ arrivals.*2) →
  dinv d a → collected T d a seen → within_ids seen → j ∉ seen →
  ∃ rs d' a' seen', feed_all arrivals d = Some (rs, d') ∧ dinv d' a' ∧ collected T d' a' seen' ∧ within_ids seen' ∧ j ∉ seen' ∧
    seen ⊆ seen' ∧ (∀ i f, fs !! i = Some f → f ∈ arrivals.*2 → i ∈ seen') ∧
    (∀ n x, arrivals !! n = Some x → x.2 ∈ fs → rs !! n = Some None).
Proof.
  intros Hfs HT Harr Hj. revert d a seen. induction Harr as [|[now m] arrivals (Hnow & Hw & Hm) _ IH]; intros d a seen Hmiss Hd Hc Hin Hjs.
  { exists [], d, a, seen. split_and!; try done. intros i f _ Hf. by apply not_elem_of_nil in Hf. }
  cbn [fst snd feed_all] in *.
  assert (∃ r d' a' seen', Feed now m d = Some (r, d') ∧ dinv d' a' ∧ collected T d' a' seen' ∧ within_ids seen' ∧ j ∉ seen' ∧
    seen ⊆ seen' ∧ (∀ i, fs !! i = Some m → i ∈ seen') ∧ (m ∈ fs → r = None)) as (r & d1 & a1 & s1 & HF & Hd1 & Hc1 & Hin1 & Hj1 & Hs1 & Hm1 & Hr).
  { destruct (decide (m ∈ fs)) as [Hmf|Hmf].
    - apply list_elem_of_lookup in Hmf as [i Hi].
      destruct (collect_step T now i m d a seen Hfs Hi Hd Hc Hin) as (d' & a' & HF & Hd' & Hc' & _); [lia|].
      assert (i ≠ j) as Hij by (intros ->; destruct (Hmiss m Hi); left).
      assert (within_ids ({[i]} ∪ seen)) as Hin'.
      { intros k [->%elem_of_singleton|Hk]%elem_of_union; [|by apply Hin]. apply elem_of_set_seq. apply lookup_lt_Some in Hi. lia. }
      assert (¬ (i ∉ seen ∧ S (size seen) = length fs)) as Hnot.
      { intros [Hni Hsz]. assert ({[i]} ∪ seen = set_seq 0 (length fs)) as Heq by (apply within_full; [done|rewrite size_union, size_singleton by set_solver; lia]).
        assert (j ∈ {[i]} ∪ seen) as Hjin by (rewrite Heq; apply elem_of_set_seq; lia). set_solver. }
      rewrite decide_False in HF by done. exists None, d', a', ({[i]} ∪ seen). split_and!; try done; [by apply Hc'|set_solver|set_solver|].
      intros i' Hi'. destruct Hfs as (_ & _ & Hf). destruct (Hf i m Hi) as (_ & _ & H1), (Hf i' m Hi') as (_ & _ & H2). assert (i' = i) as -> by lia. set_solver.
    - destruct (Feed_other now m d a K Hw Hd) as (r & d' & a' & HF & Hd' & Hh & Hn); [by destruct Hm|].
      exists r, d', a', seen. split_and!; try done; [|intros i Hi; destruct Hmf; by eapply list_elem_of_lookup_2].
      destruct Hc as [[He Hno]|[Hne Hold]]; [left; split; [done|by apply Hn]|right; split; [done|by apply Hh; [lia|]]]. }
  rewrite HF. destruct (IH d1 a1 s1) as (rs & d' & a' & s' & -> & Hd' & Hc' & Hin' & Hj' & Hs' & Hi' & Hn'); [|done..|].
  { intros m' Hm' Hbad. apply (Hmiss m' Hm'). by right. }
  exists (r :: rs), d', a', s'. split_and!; try done; [by etransitivity| |].
  - intros i f Hif [->|Hf]%elem_of_cons; [apply Hs'; by apply Hm1|by eapply Hi'].
  - intros [|n] x Hx Hxf; simpl in *; [simplify_eq; by rewrite Hr|by eapply Hn'].
Qed.

(** The last missing fragment completes the packet. *)
Lemma collect_all t0 T now m arrivals d a :
  fragments_of → (T < t0 + 10)%Z → Forall (arrival_ok t0 T) arrivals → (t0 ≤ now ≤ T)%Z →
  m ∈ fs → m ∉ arrivals.*2 → (∀ f, f ∈ fs → f ≠ m → f ∈ arrivals.*2) →
  dinv d a → afind K (items a) = None →
  ∃ rs d' d'', feed_all arrivals d = Some (rs, d') ∧ (∀ n x, arrivals !! n = Some x → x.2 ∈ fs → rs !! n = Some None) ∧
    Feed now m d' = Some (whole, d'') ∧ ∃ a'', dinv d'' a'' ∧ afind K (items a'') = None.
Proof.
  intros Hfs HT Harr Hnow [j Hj]%list_elem_of_lookup Hmiss Hothers Hd Hno. pose proof (lookup_lt_Some _ _ _ Hj) as Hlt.
  destruct (collect_run t0 T j arrivals d a ∅) as (rs & d' & a' & seen & Hrun & Hd' & Hc & Hin & Hjs & _ & Hall & Hrs).
  - done.
  - done.
  - done.
  - done.
  - intros m' Hm'. by simplify_eq.
  - done.
  - by left.
  - intros i Hi. set_solver.
  - set_solver.
  - exists rs, d'. destruct (collect_step T now j m d' a' seen Hfs Hj Hd' Hc Hin) as (d'' & a'' & HF & Hd'' & _ & Hdone); [lia|].
    assert (S (size seen) = length fs) as Hsz.
    { assert (within_ids ({[j]} ∪ seen)) as Hin'.
      { intros k [->%elem_of_singleton|Hk]%elem_of_union; [apply elem_of_set_seq; lia|by apply Hin]. }
      assert (set_seq 0 (length fs) ⊆ ({[j]} ∪ seen : gset nat)) as Hsup.
      { intros k Hk. apply elem_of_set_seq in Hk. destruct (lookup_lt_is_Some_2 fs k) as [f Hf]; [lia|].
        destruct (decide (f = m)) as [->|Hne].
        - destruct Hfs as (_ & _ & Hids). destruct (Hids k m Hf) as (_ & _ & H1), (Hids j m Hj) as (_ & _ & H2). assert (k = j) as -> by lia. set_solver.
        - assert (k ∈ seen); [|set_solver]. apply (Hall k f Hf). apply Hothers; [by eapply list_elem_of_lookup_2|done]. }
      apply subseteq_size in Hsup. rewrite size_set_seq, size_union, size_singleton in Hsup by set_solver.
      pose proof (within_size _ Hin') as Hle. rewrite size_union, size_singleton in Hle by set_solver. lia. }
    exists d''. split_and!; [done|done| |].
    + rewrite HF. by rewrite decide_True by done.
    + exists a''. split; [done|]. by apply Hdone.
Qed.

End Collect.

(** ** What the sender makes *)

(** The fragments of the loop, from the packet as it stands at each turn. *)
Fixpoint frags_from (fragID : Z) (packet : Packet) (chunks : list (list Z)) : list Packet :=
  match chunks with
  | [] => []
  | c :: cs => make_frag packet fragID c :: frags_from (@wrap uint8 (fragID + 1)) (set_addr_type AtypNone packet) cs
  end.

(** The payload cut into pieces of [n] bytes. *)
Fixpoint chunks (fuel n : nat) (l : list Z) : list (list Z) :=
  match fuel, l with
  | S fuel', _ :: _ => take n l :: chunks fuel' n (drop n l)
  | _, _ => []
  end.

(** A fragment as its reader sees it: the address that was left out is empty. *)
Definition as_read (p : Packet) : Packet :=
  mkPacket (pk_head p) (ASSOC_ID p) (PKT_ID p) (FRAG_TOTAL p) (FRAG_ID p) (SIZE p)
    (if (a_TYPE (ADDR p) =? AtypNone)%Z then mkAddress AtypNone [] 0 else ADDR p) (DATA p).

Lemma as_read_bytes p : Packet_WriteTo (as_read p) = Packet_WriteTo p.
Proof.
  assert (Address_WriteTo (ADDR (as_read p)) = Address_WriteTo (ADDR p)) as Ha.
  { unfold Address_WriteTo, as_read. cbn [ADDR]. destruct (Z.eqb_spec (a_TYPE (ADDR p)) AtypNone) as [He|He].
    - rewrite He. reflexivity.
    - by rewrite (proj2 (Z.eqb_neq _ _) He). }
  unfold Packet_WriteTo. by rewrite Ha.
Qed.

Lemma chunks_concat fuel n l : 0 < n → length l ≤ fuel → concat (chunks fuel n l) = l.
Proof.
  intros Hn. revert l. induction fuel as [|fuel IH]; intros [|x l] Hl; try done; [simpl in Hl; lia|]. cbn [chunks concat].
  rewrite IH by (rewrite length_drop; simpl in *; lia). apply take_drop.
Qed.

Lemma chunks_length fuel n l :
  0 < n → length l ≤ fuel → Z.of_nat (length (chunks fuel n l)) = ((Z.of_nat (length l) + Z.of_nat n - 1) / Z.of_nat n)%Z.
Proof.
  intros Hn. revert l. induction fuel as [|fuel IH]; intros [|x l] Hl; try (simpl in Hl; lia).
  - simpl. rewrite Z.div_small by lia. done.
  - simpl. rewrite Z.div_small by lia. done.
  - cbn [chunks]. rewrite length_cons, Nat2Z.inj_succ, IH by (rewrite length_drop; simpl in *; lia). rewrite length_drop.
    destruct (Nat.le_gt_cases (length (x :: l)) n) as [Hle|Hgt].
    + replace (length (x :: l) - n) with 0 by lia. rewrite (Z.div_small (Z.of_nat 0 + _ - 1)) by lia.
      replace (Z.of_nat (length (x :: l)) + Z.of_nat n - 1)%Z with (1 * Z.of_nat n + (Z.of_nat (length (x :: l)) - 1))%Z by lia.
      rewrite Z.div_add_l by lia. rewrite Z.div_small; [lia|]. simpl length in *. lia.
    + replace (Z.of_nat (length (x :: l)) + Z.of_nat n - 1)%Z with (1 * Z.of_nat n + (Z.of_nat (length (x :: l) - n) + Z.of_nat n - 1))%Z by lia.
      rewrite Z.div_add_l by lia. lia.
Qed.

(** With every datagram accepted, the loop sends the fragments in order. *)
Lemma frag_loop_sends {E} fuel full (n : nat) packet off fragID :
  0 < n → length full - off ≤ fuel → (off ≤ length full) →
  frag_loop (λ _, @None E) fuel full (Z.of_nat n) packet (Z.of_nat off) fragID =
    Some (map Packet_WriteTo (frags_from fragID packet (chunks fuel n (drop off full))), None).
Proof.
  intros Hn. revert packet off fragID. induction fuel as [|fuel IH]; intros packet off fragID Hf Ho; cbn [frag_loop].
  - rewrite (proj2 (Z.ltb_ge _ _)) by lia. rewrite drop_ge by lia. done.
  - destruct (Z.ltb_spec (Z.of_nat off) (Z.of_nat (length full))) as [Hlt|Hge].
    + destruct (drop off full) as [|x l] eqn:Hd; [apply (f_equal length) in Hd; rewrite length_drop in Hd; simpl in Hd; lia|].
      set (size := if (Z.of_nat n <? Z.of_nat (length full) - Z.of_nat off)%Z then Z.of_nat n else (Z.of_nat (length full) - Z.of_nat off)%Z).
      assert (size = Z.of_nat (n `min` (length full - off))) as Hs by (unfold size; destruct (Z.ltb_spec (Z.of_nat n) (Z.of_nat (length full) - Z.of_nat off)); lia).
      rewrite Hs. rewrite (proj2 (Z.ltb_ge _ _)) by lia. rewrite <- Nat2Z.inj_add, !Nat2Z.id, IH by lia. cbn [chunks frags_from map].
      assert (length (x :: l) = length full - off) as Hxl by (rewrite <- Hd; apply length_drop).
      assert (take (n `min` (length full - off)) (drop off full) = take n (x :: l)) as ->.
      { rewrite Hd. destruct (Nat.le_gt_cases n (length full - off)); [by rewrite Nat.min_l by lia|]. rewrite Nat.min_r by lia. rewrite !take_ge by lia. done. }
      assert (drop (off + n `min` (length full - off)) full = drop n (x :: l)) as ->; [|done].
      rewrite <- drop_drop, Hd. destruct (Nat.le_gt_cases n (length full - off)); [by rewrite Nat.min_l by lia|].
      rewrite Nat.min_r by lia. rewrite !drop_ge by lia. done.
    + rewrite drop_ge by lia. by destruct fuel.
Qed.

Lemma frags_from_lookup i p cs k f :
  (0 ≤ i)%Z → (i + Z.of_nat (length cs) ≤ 256)%Z → frags_from i p cs !! k = Some f →
  ∃ c, cs !! k = Some c ∧ FRAG_ID f = (i + Z.of_nat k)%Z ∧ DATA f = c ∧ SIZE f = @wrap uint16 (Z.of_nat (length c)) ∧
    pk_head f = pk_head p ∧ ASSOC_ID f = ASSOC_ID p ∧ PKT_ID f = PKT_ID p ∧ FRAG_TOTAL f = FRAG_TOTAL p ∧
    (ADDR f = ADDR p ∨ a_TYPE (ADDR f) = AtypNone) ∧ (k = 0 → ADDR f = ADDR p).
Proof.
  revert i p k. induction cs as [|c cs IH]; intros i p k Hi Hle Hk; [done|]. destruct k as [|k]; simpl in Hk.
  - injection Hk as <-. exists c. split_and!; try done; [simpl; lia|by left].
  - simpl length in Hle. destruct cs as [|c' cs']; [done|]. rewrite (@wrap_id uint8) in Hk by (simpl length in Hle; int_lia).
    destruct (IH (i + 1)%Z (set_addr_type AtypNone p) k) as (c0 & Hc & Hid & Hd & Hsz & Hh & Has & Hpk & Hto & Ha & _); [lia|lia|done|].
    exists c0. split_and!; try done; [lia|]. right. destruct Ha as [->|Ha]; [done|exact Ha].
Qed.

Lemma frags_from_length i p cs : length (frags_from i p cs) = length cs.
Proof. revert i p. induction cs as [|c cs IH]; intros i p; simpl; [done|by rewrite IH]. Qed.

Lemma frags_from_data i p cs : map DATA (frags_from i p cs) = cs.
Proof. revert i p. induction cs as [|c cs IH]; intros i p; simpl; [done|by rewrite IH]. Qed.

(** The fragments of a packet as they are read. *)
Definition fragments (fragSize : nat) (p : Packet) : list Packet :=
  let cs := chunks (length (DATA p)) fragSize (DATA p) in
  map as_read (frags_from 0 (set_total (Z.of_nat (length cs)) p) cs).

(** A packet of one piece with an address, as [WriteTo] makes it. *)
Definition sendable (p : Packet) : Prop :=
  packet_ok p ∧ FRAG_TOTAL p = 1%Z ∧ FRAG_ID p = 0%Z ∧ a_TYPE (ADDR p) ≠ AtypNone.

Section Fragments.
Context (p : Packet) (n : nat) (Hp : sendable p) (Hn : 0 < n) (Hbig : n < length (DATA p))
  (Hcount : (Z.of_nat (length (DATA p)) ≤ 255 * Z.of_nat n)%Z).

#[local] Notation cs := (chunks (length (DATA p)) n (DATA p)).

Lemma cs_count : (2 ≤ Z.of_nat (length cs) ≤ 255)%Z.
Proof.
  rewrite chunks_length by lia. split.
  - apply Z.div_le_lower_bound; lia.
  - apply Z.lt_succ_r. apply Z.div_lt_upper_bound; lia.
Qed.

Lemma fragments_lookup k f :
  fragments n p !! k = Some f →
  ∃ c, cs !! k = Some c ∧ FRAG_ID f = Z.of_nat k ∧ DATA f = c ∧ SIZE f = @wrap uint16 (Z.of_nat (length c)) ∧
    pk_head f = pk_head p ∧ ASSOC_ID f = ASSOC_ID p ∧ PKT_ID f = PKT_ID p ∧ FRAG_TOTAL f = Z.of_nat (length cs) ∧
    (ADDR f = ADDR p ∨ ADDR f = mkAddress AtypNone [] 0) ∧ (k = 0 → ADDR f = ADDR p).
Proof.
  pose proof cs_count as Hc. destruct Hp as (_ & _ & _ & Hta). unfold fragments. rewrite list_lookup_fmap. intros (g & Hg & ->)%fmap_Some.
  pose proof (λ Hle, frags_from_lookup 0 _ _ _ _ (Z.le_refl 0) Hle Hg) as HH.
  destruct HH as (c & Hc' & Hid & Hd & Hsz & Hh & Has & Hpk & Hto & Ha & Ha0); [lia|].
  exists c. unfold as_read. cbn [pk_head ASSOC_ID PKT_ID FRAG_TOTAL FRAG_ID SIZE ADDR DATA]. split_and!; try done.
  - destruct Ha as [->|Ha]; [left|right; by rewrite Ha]. simpl. by rewrite (proj2 (Z.eqb_neq _ _) Hta).
  - intros Hk. rewrite (Ha0 Hk). simpl. by rewrite (proj2 (Z.eqb_neq _ _) Hta).
Qed.

Lemma fragments_length : length (fragments n p) = length cs.
Proof. unfold fragments. by rewrite length_map, frags_from_length. Qed.

Lemma fragments_are : fragments_of (PKT_ID p) (fragments n p).
Proof.
  pose proof cs_count as Hc. unfold fragments_of. rewrite fragments_length. split_and!; [lia|lia|]. intros i f Hf.
  destruct (fragments_lookup i f Hf) as (c & _ & Hid & _ & _ & _ & _ & Hpk & Hto & _). done.
Qed.

Lemma fragments_data : concat (map DATA (fragments n p)) = DATA p.
Proof.
  unfold fragments. rewrite map_map. change (λ x, DATA (as_read x)) with DATA. rewrite frags_from_data. apply chunks_concat; lia.
Qed.

Lemma chunk_length k c : cs !! k = Some c → length c ≤ length (DATA p).
Proof.
  intros Hk. pose proof (chunks_concat (length (DATA p)) n (DATA p) Hn (Nat.le_refl _)) as Hcat.
  assert (length c ≤ length (concat cs)) as Hle; [|by rewrite Hcat in Hle]. clear Hcat. revert Hk. generalize cs. intros l. revert k. induction l as [|x l IH]; intros [|k]; simpl; try done.
  - intros [= ->]. rewrite length_app. lia.
  - intros Hk. rewrite length_app. specialize (IH k Hk). lia.
Qed.

Lemma fragments_ok k f : fragments n p !! k = Some f → packet_ok f.
Proof.
  intros Hf. pose proof cs_count as Hc. pose proof (lookup_lt_Some _ _ _ Hf) as Hlt. rewrite fragments_length in Hlt.
  destruct (fragments_lookup k f Hf) as (c & Hcs & Hid & Hd & Hsz & Hh & Has & Hpk & Hto & Ha & _). pose proof (chunk_length k c Hcs).
  destruct Hp as ((Hh' & Has' & Hpk' & _ & _ & _ & Hlen & Haddr) & _). unfold packet_ok. rewrite Hh, Has, Hpk, Hto, Hid, Hsz, Hd.
  split_and!; try done.
  - unfold byte_ok. change (256 ^ Z.of_nat 1)%Z with 256%Z. lia.
  - unfold byte_ok. change (256 ^ Z.of_nat 1)%Z with 256%Z. lia.
  - apply (@wrap_id uint16). int_lia.
  - lia.
  - destruct Ha as [-> | ->]; [done|constructor].
Qed.

Lemma fragments_whole : whole (fragments n p) = Some p.
Proof.
  pose proof fragments_data as Hd. destruct (fragments n p) as [|f fs] eqn:Hf.
  { pose proof fragments_length as Hl. rewrite Hf in Hl. pose proof cs_count. simpl in Hl. lia. }
  destruct (fragments_lookup 0 f) as (c & _ & _ & _ & _ & Hh & Has & Hpk & _ & _ & Ha); [by rewrite Hf|].
  unfold whole. cbn [head mbind option_bind]. rewrite Hd, Hh, Has, Hpk, Ha by done.
  destruct Hp as ((_ & _ & _ & _ & _ & Hsz & Hlen & _) & Hto & Hid & _). rewrite (@wrap_id uint16) by int_lia.
  destruct p as [h as_ pk to id sz ad da]. simpl in *. by subst.
Qed.

Lemma fragments_sent {E} :
  fragWriteNative (λ _, @None E) p (Z.of_nat n) = Some (map Packet_WriteTo (fragments n p), None).
Proof.
  unfold fragWriteNative. rewrite (proj2 (Z.eqb_neq _ _)) by lia. pose proof cs_count as Hc.
  rewrite Z.quot_div_nonneg by lia. rewrite <- (chunks_length (length (DATA p)) n (DATA p)) by lia. rewrite (@wrap_id uint8) by int_lia.
  change 0%Z with (Z.of_nat 0) at 1. rewrite frag_loop_sends by lia. rewrite drop_0. f_equal. f_equal.
  unfold fragments. rewrite map_map. apply map_ext. intros f. by rewrite as_read_bytes.
Qed.

End Fragments.

(** ** The theorems *)

(** Whatever packets a peer sends, [Feed] does not panic: no fragment is
    stored out of range, and a bag is put together only when all its fragments
    are there. *)
Theorem feed_never_panics (arrivals : list (Z * Packet)) :
  Forall (λ x, from_wire x.2) arrivals → is_Some (feed_all arrivals newDeFragger).
Proof. intros Hw. destruct (feed_all_safe arrivals _ _ dinv_new Hw) as (rs & d & a & -> & _). by eexists. Qed.

Lemma feed_never_panics_witness :
  is_Some (feed_all [(0%Z, NewPacket 1 7 2 5 0 (mkAddress AtypNone [] 0) []); (3%Z, NewPacket 1 7 3 2 0 (mkAddress AtypNone [] 0) [])] newDeFragger).
Proof. apply feed_never_panics. repeat constructor; simpl; lia. Defined.

(** C33: A packet that does not fit a datagram is sent as fragments, each of which
    is read back from its datagram; and a receiver that gets all of them within
    ten seconds, in any order, any of them more than once, among packets of other
    numbers, gets the very packet that was sent with the last missing one, and
    nothing of it before. *)
Theorem fragments_reassemble {E} (p : Packet) (n : nat) :
  sendable p → 0 < n < length (DATA p) → (Z.of_nat (length (DATA p)) ≤ 255 * Z.of_nat n)%Z →
  let fs := fragments n p in
  fragWriteNative (λ _, @None E) p (Z.of_nat n) = Some (map Packet_WriteTo fs, None) ∧
  (∀ f q, f ∈ fs → ReadPacket (Packet_WriteTo f ++ q) = inr (f, q)) ∧
  ∀ t0 T now m arrivals d a,
    (T < t0 + 10)%Z → Forall (arrival_ok (PKT_ID p) fs t0 T) arrivals → (t0 ≤ now ≤ T)%Z →
    m ∈ fs → m ∉ arrivals.*2 → (∀ f, f ∈ fs → f ≠ m → f ∈ arrivals.*2) →
    dinv d a → afind (PKT_ID p) (items a) = None →
    ∃ rs d' d'', feed_all arrivals d = Some (rs, d') ∧ (∀ k x, arrivals !! k = Some x → x.2 ∈ fs → rs !! k = Some None) ∧
      Feed now m d' = Some (Some p, d'').
Proof.
  intros Hp [Hn Hbig] Hcount fs. split_and!.
  - by apply fragments_sent.
  - intros f q [k Hk]%list_elem_of_lookup. apply ReadPacket_codec. by eapply fragments_ok.
  - intros t0 T now m arrivals d a HT Harr Hnow Hm Hmiss Hoth Hd Hno.
    destruct (collect_all (PKT_ID p) fs t0 T now m arrivals d a) as (rs & d' & d'' & Hrun & Hrs & HF & _); try done.
    { by apply fragments_are. }
    exists rs, d', d''. split_and!; [done|done|]. rewrite HF. unfold fs. by rewrite fragments_whole.
Qed.

Definition demo_packet : Packet := NewPacket 9 7 1 0 5 (mkAddress AtypIPv4 [10; 0; 0; 1]%Z 53) [1; 2; 3; 4; 5]%Z.

Definition demo_frag (i : nat) : Packet := default demo_packet (fragments 2 demo_packet !! i).

Lemma demo_sendable : sendable demo_packet.
Proof.
  split; [|done]. unfold packet_ok, port_ok, byte_ok. simpl. split_and!; try lia; [done|]. apply ok_ipv4; [done|]. unfold port_ok. simpl. lia.
Qed.

(** The fragments come backwards, one of them twice, with a packet of another
    number in between. *)
Lemma fragments_reassemble_witness :
  let arrivals := [(100, demo_frag 2); (101, NewPacket 9 8 2 0 0 (mkAddress AtypNone [] 0) []); (102, demo_frag 2); (103, demo_frag 1)]%Z in
  ∃ rs d' d'', feed_all arrivals newDeFragger = Some (rs, d') ∧ Feed 104 (demo_frag 0) d' = Some (Some demo_packet, d'').
Proof.
  intros arrivals. destruct (fragments_reassemble (E := unit) demo_packet 2 demo_sendable) as (_ & _ & Hr); [simpl; lia|simpl; lia|].
  destruct (Hr 100%Z 104%Z 104%Z (demo_frag 0) arrivals newDeFragger (mkA [] [])) as (rs & d' & d'' & Hrun & _ & HF).
  - lia.
  - repeat apply Forall_cons_2; try apply Forall_nil_2; (split; [simpl; lia|split; [split; vm_compute; split; done|]]); first [left; apply (bool_decide_unpack _); vm_compute; exact I|right; left; done].
  - lia.
  - apply (bool_decide_unpack _). vm_compute. exact I.
  - apply (bool_decide_unpack _). vm_compute. exact I.
  - intros f Hin Hne.
    assert (Forall (λ f, f = demo_frag 0 ∨ f ∈ arrivals.*2) (fragments 2 demo_packet)) as Hall.
    { apply (bool_decide_unpack _). vm_compute. exact I. }
    rewrite Forall_forall in Hall. by destruct (Hall f Hin).
  - apply dinv_new.
  - done.
  - exists rs, d', d''. by split.
Defined.

(** [ReadFrom] copies the payload of the fragment that came last instead of the
    one of the whole packet, which [WaitReadFrom] returns. *)
Example ReadFrom_truncates :
  match WaitReadFrom [(0, demo_frag 0); (0, demo_frag 1); (0, demo_frag 2)]%Z newDeFragger with
  | Some (Some r, _) => Some (ReadFrom_data r, WaitReadFrom_data r)
  | _ => None
  end = Some ([5]%Z, [1; 2; 3; 4; 5]%Z).
Proof. vm_compute. reflexivity. Qed.

(** A limit of the connection that is not above the overhead of a packet makes
    the sender panic: by a division by zero, or by a slice of negative length. *)
Example small_limit_panics :
  write_native (λ data, if 30 <? Z.of_nat (length data) then Some 27 else None)%Z Some 1170 (set_total 1 (mkPacket (NewCommandHead PacketType) 9 7 1 0 20 (mkAddress AtypIPv4 [10; 0; 0; 1] 53) (replicate 20 0)))%Z = None ∧
  write_native (λ data, if 30 <? Z.of_nat (length data) then Some 20 else None)%Z Some 1170 (set_total 1 (mkPacket (NewCommandHead PacketType) 9 7 1 0 20 (mkAddress AtypIPv4 [10; 0; 0; 1] 53) (replicate 20 0)))%Z = None.
Proof. split; vm_compute; reflexivity. Qed.

(** The first fragment of the largest size is two bytes longer than the limit
    that [MaxFragSize] is computed from, when the address is an IPv6 one. *)
Example MaxFragSize_too_large :
  (Z.of_nat (length (Packet_WriteTo (NewPacket 0 0 2 0 0 (NewAddressAddrPort (Addr6 1 EmptyString) 53) (replicate (Z.to_nat MaxFragSize) 0)))) = 1200 - 3 + 2)%Z.
Proof. vm_compute. reflexivity. Qed.
