(* ===== verification/TuicServer.v ===== *)
(** * The TUIC server

    [transport/tuic/v5/server.go] with the choice of the version in
    [transport/tuic/server.go]: one connection of a client, as the events that
    the connection brings.  A handler that needs an authenticated client waits
    on a channel that the authentication closes, so the work that waits is part
    of the state ([waiting]) and an event runs one piece of it: every order in
    which goroutines can go on is a sequence of events.  Version 4 is not
    modelled; its messages are dropped, as by a server without tokens.

    [None] is a panic of the process.  The theorems: nothing is handed to the
    proxy for a client before the first attempt to authenticate has succeeded,
    and then under that user's name ([served_only_authenticated]); a client
    that authenticates is served, in whichever order its first messages are
    read ([tuic_client_served]); a client need not authenticate to stop the
    server ([connect_panics]). *)

From Stdlib Require Import ZArith Lia String.
From stdpp Require Import prelude gmap list.
From S2P Require Import Prelude Netip Wire Lru Tuic TuicFrag.

#[local] Set Default Proof Using "Type*".

(** ** Data *)

Inductive UdpRelayMode := QUIC | NATIVE.

Record serverUDPInput := mkInput { writeClosed : bool; defrag : deFragger }.

(** What the handlers of the options are called with: [HandleTcpFn] and
    [HandleUdpFn], with the name of the user. *)
Inductive handled :=
  | HandleTcpFn (addr : list Z) (user : list Z)
  | HandleUdpFn (addr data : list Z) (mode : UdpRelayMode) (user : list Z).

Definition handled_user (h : handled) : list Z :=
  match h with HandleTcpFn _ u => u | HandleUdpFn _ _ _ u => u end.

(** A goroutine: a packet or a stream that waits for the authentication, or a
    packet that has found its input. *)
Inductive job := JPacket (p : Packet) (mode : UdpRelayMode) | JStream (c : Connect) | JInput (input : nat) (p : Packet) (mode : UdpRelayMode).

Record serverHandler := mkServer {
  (** [authOnce], [authCh] and what was stored before the channel was closed:
      [authOk] and [authUUID] *)
  auth : option (bool * list Z);
  inputs : gmap nat serverUDPInput;
  next_input : nat;
  udpInputMap : gmap Z nat;
  waiting : list job;
  log : list handled
}.

Definition NewServerHandler : serverHandler := mkServer None ∅ 0 ∅ [] [].

Section Server.
(** [Users], and the token of a user and password on this connection. *)
Context (Users : gmap (list Z) string) (GenToken : list Z → string → option (list Z)).

(** ** Handlers *)

Definition AuthOk (s : serverHandler) : bool := match auth s with Some (ok, _) => ok | None => false end.

Definition set_auth (ok : bool) (uuid : list Z) (s : serverHandler) : serverHandler :=
  match auth s with
  | Some _ => s
  | None => mkServer (Some (ok, uuid)) (inputs s) (next_input s) (udpInputMap s) (waiting s) (log s)
  end.

Definition set_waiting (l : list job) (s : serverHandler) : serverHandler :=
  mkServer (auth s) (inputs s) (next_input s) (udpInputMap s) l (log s).

Definition set_inputs (m : gmap nat serverUDPInput) (s : serverHandler) : serverHandler :=
  mkServer (auth s) m (next_input s) (udpInputMap s) (waiting s) (log s).

Definition wait (j : job) (s : serverHandler) : serverHandler := set_waiting (waiting s ++ [j]) s.

Definition handle_log (h : handled) (s : serverHandler) : serverHandler :=
  mkServer (auth s) (inputs s) (next_input s) (udpInputMap s) (waiting s) (log s ++ [h]).

Definition no_uuid : list Z := replicate 16 0%Z.

Definition HandleTimeout (s : serverHandler) : serverHandler := set_auth false no_uuid s.

(** A reader's result: an error of the bytes ends the handler. *)
Definition parsed {A} (r : wire_error + A * list Z) (s : serverHandler) (k : A → list Z → option serverHandler) : option serverHandler :=
  match r with
  | inl GoPanic => None
  | inl _ => Some s
  | inr (a, rest) => k a rest
  end.

Definition HandleMessage (message : list Z) (s : serverHandler) : option serverHandler :=
  parsed (ReadCommandHead message) s (λ head reader,
    if (h_TYPE head =? PacketType)%Z then
      parsed (ReadPacketWithHead head reader) s (λ packet _, Some (wait (JPacket packet NATIVE) s))
    else if (h_TYPE head =? HeartbeatType)%Z then
      parsed (ReadHeartbeatWithHead head reader) s (λ _ _, Some s)
    else Some s).

Definition HandleStream (conn : list Z) (s : serverHandler) : option serverHandler :=
  parsed (ReadConnect conn) s (λ connect _, Some (wait (JStream connect) s)).

(** [authOk] and [authUUID] of an attempt; [None] when there is no token. *)
Definition check_token (a : Authenticate) : option (bool * list Z) :=
  match Users !! UUID a with
  | Some password =>
    token ← GenToken (UUID a) password;
    Some (if decide (token = TOKEN a) then (true, UUID a) else (false, no_uuid))
  | None => Some (false, no_uuid)
  end.

Definition dissociate (assocId : Z) (s : serverHandler) : serverHandler :=
  match udpInputMap s !! assocId with
  | Some p =>
    mkServer (auth s) (alter (λ i, mkInput true (defrag i)) p (inputs s)) (next_input s) (delete assocId (udpInputMap s)) (waiting s) (log s)
  | None => s
  end.

Definition HandleUniStream (reader : list Z) (s : serverHandler) : option serverHandler :=
  parsed (ReadCommandHead reader) s (λ head reader,
    if (h_TYPE head =? AuthenticateType)%Z then
      parsed (ReadAuthenticateWithHead head reader) s (λ a _,
        match check_token a with
        | Some (ok, uuid) => Some (set_auth ok uuid s)
        | None => Some s
        end)
    else if (h_TYPE head =? PacketType)%Z then
      parsed (ReadPacketWithHead head reader) s (λ packet _, Some (wait (JPacket packet QUIC) s))
    else if (h_TYPE head =? DissociateType)%Z then
      parsed (ReadDissociateWithHead head reader) s (λ d _, Some (dissociate (di_ASSOC_ID d) s))
    else Some s).

(** [parsePacket] after the channel, up to the input of the association. *)
Definition load_input (p : Packet) (mode : UdpRelayMode) (s : serverHandler) : serverHandler :=
  match udpInputMap s !! ASSOC_ID p with
  | Some i => wait (JInput i p mode) s
  | None =>
    let i := next_input s in
    wait (JInput i p mode)
      (mkServer (auth s) (<[i := mkInput false newDeFragger]> (inputs s)) (S i) (<[ASSOC_ID p := i]> (udpInputMap s)) (waiting s) (log s))
  end.

(** The rest of [parsePacket]. *)
Definition feed_input (now : Z) (i : nat) (p : Packet) (mode : UdpRelayMode) (user : list Z) (s : serverHandler) : option serverHandler :=
  input ← inputs s !! i;
  if writeClosed input then Some s
  else
    match Feed now p (defrag input) with
    | None => None
    | Some (r, d) =>
      let s := set_inputs (<[i := mkInput (writeClosed input) d]> (inputs s)) s in
      match r with
      | None => Some s
      | Some packetPtr => Some (handle_log (HandleUdpFn (SocksAddr (ADDR packetPtr)) (DATA packetPtr) mode user) s)
      end
    end.

(** A goroutine goes on, if the channel is closed. *)
Definition run_job (now : Z) (j : job) (s : serverHandler) : option serverHandler :=
  match auth s with
  | None => Some (wait j s)
  | Some (ok, user) =>
    match j with
    | JPacket p mode => Some (if ok then load_input p mode s else s)
    | JStream c => Some (if ok then handle_log (HandleTcpFn (SocksAddr (co_ADDR c)) user) s else s)
    | JInput i p mode => feed_input now i p mode user s
    end
  end.

(** ** The connection *)

Inductive event :=
  | EMessage (message : list Z)
  | EStream (conn : list Z)
  | EUniStream (reader : list Z)
  | ETimeout
  | ERun (i : nat) (now : Z).

(** The handlers of version 5 see what begins with their version. *)
Definition versioned (bytes : list Z) (s : serverHandler) (k : option serverHandler) : option serverHandler :=
  match bytes with
  | v :: _ => if (v =? VER)%Z then k else Some s
  | [] => Some s
  end.

Definition handle (e : event) (s : serverHandler) : option serverHandler :=
  match e with
  | EMessage m => versioned m s (HandleMessage m s)
  | EStream c => versioned c s (HandleStream c s)
  | EUniStream r => versioned r s (HandleUniStream r s)
  | ETimeout => Some (if AuthOk s then s else HandleTimeout s)
  | ERun i now =>
    match waiting s !! i with
    | Some j => run_job now j (set_waiting (delete i (waiting s)) s)
    | None => Some s
    end
  end.

Fixpoint serve (es : list event) (s : serverHandler) : option serverHandler :=
  match es with [] => Some s | e :: es' => handle e s ≫= serve es' end.

(** ** Who is authenticated *)

(** The outcome of an attempt to authenticate, if the event is one. *)
Definition decides (e : event) : option (bool * list Z) :=
  match e with
  | ETimeout => Some (false, no_uuid)
  | EUniStream ((v :: _) as bytes) =>
    if (v =? VER)%Z then match ReadAuthenticate bytes with inr (a, _) => check_token a | inl _ => None end else None
  | _ => None
  end.

Definition decided (s : serverHandler) (e : event) : option (bool * list Z) :=
  match auth s with Some x => Some x | None => decides e end.

Ltac same_auth := unfold wait, set_waiting; cbn [auth]; match goal with |- context [auth ?s] => destruct (auth s) end.

Lemma set_auth_auth ok u s : auth (set_auth ok u s) = match auth s with Some x => Some x | None => Some (ok, u) end.
Proof. unfold set_auth. by destruct (auth s) eqn:H. Qed.

Lemma expect_other {A} t h (r : reader A) l : (h_TYPE h =? t)%Z = false → expect t h r l = inl BadType.
Proof. intros Ht. unfold expect. by rewrite Ht. Qed.

Lemma uni_auth bytes s s' :
  HandleUniStream bytes s = Some s' →
  auth s' = match auth s with Some x => Some x | None =>
    match ReadAuthenticate bytes with inr (a, _) => check_token a | inl _ => None end end.
Proof.
  unfold HandleUniStream, ReadAuthenticate, bind. destruct (ReadCommandHead bytes) as [e|[head rest]]; cbn [parsed].
  { destruct e; intros [= <-]; by same_auth. }
  destruct (h_TYPE head =? AuthenticateType)%Z eqn:Ha.
  - destruct (ReadAuthenticateWithHead head rest) as [e|[a rest']]; cbn [parsed]; [destruct e; intros [= <-]; by same_auth|].
    destruct (check_token a) as [[ok u]|]; intros [= <-]; [by rewrite set_auth_auth|by same_auth].
  - unfold ReadAuthenticateWithHead. rewrite (expect_other _ _ _ _ Ha). repeat case_match; unfold parsed; repeat case_match; intros; simplify_eq; try done;
      unfold dissociate; by case_match.
Qed.

Lemma parsed_wait {A} (r : wire_error + A * list Z) s s' k :
  parsed r s k = Some s' → s' = s ∨ ∃ a rest, r = inr (a, rest) ∧ k a rest = Some s'.
Proof. unfold parsed. destruct r as [[]|[a rest]]; intros H; simplify_eq; eauto. Qed.

(** What an event may change besides the decision: only the run of a job
    writes to the log. *)
Lemma run_job_frame now j s s' :
  run_job now j s = Some s' →
  auth s' = auth s ∧ ∀ h, h ∈ log s' → h ∈ log s ∨ ∃ ok, auth s = Some (ok, handled_user h) ∧ (ok = true ∨ ∃ i p m, j = JInput i p m).
Proof.
  unfold run_job. destruct (auth s) as [[ok u]|] eqn:Ha; [|intros [= <-]; split; [done|by left]].
  destruct j as [p mode|c|i p mode].
  - intros [= <-]. destruct ok; [|by split; [|left]]. unfold load_input. case_match; simpl; (split; [done|by left]).
  - intros [= <-]. destruct ok; [|by split; [|left]]. split; [done|]. simpl. intros h [Hh|Hh%list_elem_of_singleton]%elem_of_app; [by left|].
    right. subst h. eauto.
  - unfold feed_input. destruct (inputs s !! i) as [input|]; [|done]. cbn [mbind option_bind]. case_match; [intros [= <-]; by split; [|left]|].
    destruct (Feed now p (defrag input)) as [[[r|] d]|]; [| |done]; intros [= <-]; (split; [done|]); simpl; [|by left].
    intros h [Hh|Hh%list_elem_of_singleton]%elem_of_app; [by left|]. right. exists ok. subst h. split; [done|]. right. eauto.
Qed.

(** Only an authenticated connection has packets that found their input. *)
Definition inputs_authenticated (s : serverHandler) : Prop :=
  ∀ i p m, JInput i p m ∈ waiting s → AuthOk s = true.

Lemma handle_auth e s s' : handle e s = Some s' → auth s' = decided s e.
Proof.
  unfold decided. destruct e as [m|c|r| |i now]; cbn [handle decides].
  - unfold versioned. destruct m as [|v m]; [intros [= <-]; by same_auth|]. destruct (v =? VER)%Z; [|intros [= <-]; by same_auth].
    intros [->|(a & rest & _ & Hk)]%parsed_wait; [by same_auth|]. revert Hk.
    repeat case_match; intros Hk; try (apply parsed_wait in Hk as [->|(? & ? & _ & Hk)]); simplify_eq; by same_auth.
  - unfold versioned. destruct c as [|v c]; [intros [= <-]; by same_auth|]. destruct (v =? VER)%Z; [|intros [= <-]; by same_auth].
    intros [->|(a & rest & _ & [= <-])]%parsed_wait; simpl; by same_auth.
  - unfold versioned. destruct r as [|v r]; [intros [= <-]; by same_auth|]. destruct (v =? VER)%Z; [|intros [= <-]; by same_auth].
    apply uni_auth.
  - intros [= <-]. unfold AuthOk, HandleTimeout. rewrite <- (set_auth_auth false no_uuid s). destruct (auth s) as [[[] u]|] eqn:Ha; [|done..].
    unfold set_auth. by rewrite Ha.
  - destruct (waiting s !! i) as [j|] eqn:Hj; [|intros [= <-]; by same_auth]. intros H%run_job_frame. destruct H as [-> _]. simpl. by same_auth.
Qed.

Lemma AuthOk_auth s ok u : auth s = Some (ok, u) → AuthOk s = ok.
Proof. unfold AuthOk. by intros ->. Qed.

Lemma decided_ok s e s' : auth s' = decided s e → AuthOk s = true → AuthOk s' = true.
Proof. unfold AuthOk, decided. by destruct (auth s) as [[[] u]|]; [intros ->| |]. Qed.

(** Every event but the run of a job leaves the log and brings no [JInput]. *)
Lemma quiet e s s' :
  handle e s = Some s' → (∀ i now, e ≠ ERun i now) → log s' = log s ∧ ∀ i p m, JInput i p m ∈ waiting s' → JInput i p m ∈ waiting s.
Proof.
  intros He Hrun. destruct e as [m|c|r| |i now]; cbn [handle] in He; [| | | |by destruct (Hrun i now)].
  1-3: unfold versioned in He; repeat case_match; simplify_eq; try done.
  - apply parsed_wait in He as [->|(a & rest & _ & Hk)]; [done|]. revert Hk.
    repeat case_match; intros Hk; try (apply parsed_wait in Hk as [->|(? & ? & _ & Hk)]); simplify_eq; try done.
    simpl. split; [done|]. intros i p mo. set_solver.
  - apply parsed_wait in He as [->|(a & rest & _ & [= <-])]; [done|]. simpl. split; [done|]. intros i p mo. set_solver.
  - apply parsed_wait in He as [->|(a & rest & _ & Hk)]; [done|]. revert Hk.
    repeat case_match; intros Hk; try (apply parsed_wait in Hk as [->|(? & ? & _ & Hk)]); simplify_eq; try done.
    + revert Hk. case_match; [|by intros [= <-]]. case_match. intros [= <-]. unfold set_auth. by case_match.
    + simpl. split; [done|]. intros i p mo. set_solver.
    + unfold dissociate. by case_match.
  - injection He as <-. case_match; [done|]. unfold HandleTimeout, set_auth. by case_match.
Qed.

Lemma run_job_inputs now j s s' :
  run_job now j s = Some s' → (∀ i p m, j = JInput i p m → AuthOk s = true) → inputs_authenticated s → inputs_authenticated s'.
Proof.
  intros Hr Hj Hs. pose proof (run_job_frame now j s s' Hr) as [Ha _].
  assert (AuthOk s' = AuthOk s) as Hok by (unfold AuthOk; by rewrite Ha). unfold inputs_authenticated. intros i p m Hin. rewrite Hok.
  revert Hr. unfold run_job. destruct (auth s) as [[ok u]|] eqn:Hau.
  - destruct j as [p' mode|c|i' p' mode].
    + intros [= <-]. destruct ok; [|by eapply Hs]. intros. by unfold AuthOk; rewrite Hau.
    + intros [= <-]. destruct ok; by eapply Hs.
    + intros _. by eapply Hj.
  - intros [= <-]. simpl in Hin. apply elem_of_app in Hin as [Hin|Hin%list_elem_of_singleton]; [by eapply Hs|by eapply Hj].
Qed.

Lemma handle_inputs e s s' : handle e s = Some s' → inputs_authenticated s → inputs_authenticated s'.
Proof.
  intros He Hs. assert (auth s' = decided s e) as Ha by (by apply handle_auth). destruct e as [m|c|r| |i now].
  1-4: destruct (quiet _ _ _ He) as [_ Hw]; [done|]; intros i p mo Hin; eapply decided_ok; [done|by eapply Hs, Hw].
  cbn [handle] in He. destruct (waiting s !! i) as [j|] eqn:Hj; [|by simplify_eq].
  apply list_elem_of_lookup_2 in Hj as Hin. eapply run_job_inputs; [exact He| |].
  - intros i' p m ->. by eapply Hs.
  - intros i' p m Hi'. simpl in Hi'. eapply Hs. eapply elem_of_submseteq; [exact Hi'|]. apply sublist_submseteq, sublist_delete.
Qed.

Lemma handle_log_entry e s s' h :
  handle e s = Some s' → inputs_authenticated s → h ∈ log s' → h ∈ log s ∨ auth s = Some (true, handled_user h).
Proof.
  intros He Hs Hh. destruct e as [m|c|r| |i now].
  1-4: destruct (quiet _ _ _ He) as [Hl _]; [done|]; left; congruence.
  cbn [handle] in He. destruct (waiting s !! i) as [j|] eqn:Hj; [|simplify_eq; by left].
  destruct (run_job_frame _ _ _ _ He) as [_ Hl]. destruct (Hl h Hh) as [Hin|(ok & Ha & Hok)]; [by left|]. right. simpl in Ha.
  destruct Hok as [->|(i' & p & m & ->)]; [done|]. apply list_elem_of_lookup_2, Hs in Hj. by rewrite (AuthOk_auth _ _ _ Ha) in Hj; subst.
Qed.

(** The first event that decides. *)
Fixpoint decision (es : list event) : option (bool * list Z) :=
  match es with [] => None | e :: es' => match decides e with Some x => Some x | None => decision es' end end.

Lemma serve_frame es s s' :
  serve es s = Some s' → inputs_authenticated s →
  auth s' = match auth s with Some x => Some x | None => decision es end ∧
  ∀ h, h ∈ log s' → h ∈ log s ∨ auth s' = Some (true, handled_user h).
Proof.
  revert s. induction es as [|e es IH]; intros s; cbn [serve].
  - intros [= <-] _. split; [by destruct (auth s)|by left].
  - intros Hs Hi. apply bind_Some in Hs as (s1 & H1 & Hs). destruct (IH s1 Hs) as [Ha Hl]; [by eapply handle_inputs|].
    pose proof (handle_auth e s s1 H1) as Ha1. unfold decided in Ha1. split.
    + rewrite Ha, Ha1. cbn [decision]. by destruct (auth s), (decides e).
    + intros h Hh. destruct (Hl h Hh) as [Hin|?]; [|by right]. destruct (handle_log_entry e s s1 h H1 Hi Hin) as [?|Hau]; [by left|].
      right. by rewrite Ha, Ha1, Hau.
Qed.

Lemma decision_split es x : decision es = Some x → ∃ pre e post, es = pre ++ e :: post ∧ Forall (λ e, decides e = None) pre ∧ decides e = Some x.
Proof.
  induction es as [|e es IH]; [done|]. cbn [decision]. destruct (decides e) as [y|] eqn:He.
  - intros [= ->]. by exists [], e, es.
  - intros (pre & e' & post & -> & Hp & He')%IH. exists (e :: pre), e', post. split_and!; [done|by constructor|done].
Qed.

(** An event by which [u] shows the token of its password. *)
Definition authenticates (e : event) (u : list Z) : Prop :=
  ∃ bytes rest a password, e = EUniStream bytes ∧ ReadAuthenticate bytes = inr (a, rest) ∧ UUID a = u ∧
    Users !! u = Some password ∧ GenToken u password = Some (TOKEN a).

Lemma decides_authenticates e u : decides e = Some (true, u) → authenticates e u.
Proof.
  destruct e as [m|c|r| |i now]; cbn [decides]; try done. destruct r as [|v r]; [done|]. destruct (v =? VER)%Z; [|done].
  destruct (ReadAuthenticate (v :: r)) as [|[a rest]] eqn:Hr; [done|]. unfold check_token. destruct (Users !! UUID a) as [pw|] eqn:Hu; [|done].
  destruct (GenToken (UUID a) pw) as [token|] eqn:Ht; [|done]. cbn [mbind option_bind]. case_decide as Hd; intros [= <-]. subst token.
  exists (v :: r), rest, a, pw. done.
Qed.

(** A written command begins with the version. *)
Lemma head_first t l : Head_WriteTo (NewCommandHead t) ++ l = VER :: be_bytes 1 t ++ l.
Proof. done. Qed.

Lemma authenticate_step a q s password :
  authenticate_ok a → auth s = None → Users !! UUID a = Some password → GenToken (UUID a) password = Some (TOKEN a) →
  handle (EUniStream (Authenticate_WriteTo a ++ q)) s = Some (set_auth true (UUID a) s).
Proof.
  intros Hok Hs Hu Ht. cbn [handle]. pose proof (ReadAuthenticate_codec a q Hok) as Hr. destruct Hok as (Hh & _ & _).
  unfold ReadAuthenticate, bind in Hr. unfold Authenticate_WriteTo in *. rewrite Hh in *. rewrite <- app_assoc in *.
  rewrite head_first in *. unfold versioned. rewrite Z.eqb_refl. unfold HandleUniStream.
  assert (ReadCommandHead (VER :: be_bytes 1 AuthenticateType ++ (UUID a ++ TOKEN a) ++ q) = inr (NewCommandHead AuthenticateType, (UUID a ++ TOKEN a) ++ q)) as Hhd by done.
  rewrite Hhd in *. cbn [parsed]. change (h_TYPE (NewCommandHead AuthenticateType) =? AuthenticateType)%Z with true.
  cbv iota. rewrite Hr. cbn [parsed]. unfold check_token. rewrite Hu, Ht. cbn [mbind option_bind]. by rewrite decide_True.
Qed.

Lemma stream_step c q s :
  connect_ok c → handle (EStream (Connect_WriteTo c ++ q)) s = Some (wait (JStream c) s).
Proof.
  intros Hok. cbn [handle]. pose proof (ReadConnect_codec c q Hok) as Hr. destruct Hok as (Hh & _).
  unfold HandleStream. rewrite Hr. cbn [parsed]. unfold Connect_WriteTo. rewrite Hh. rewrite <- app_assoc, head_first. unfold versioned. by rewrite Z.eqb_refl.
Qed.

End Server.

(** ** The theorems *)

(** C32: Nothing is handed to the proxy for a client that has not authenticated:
    whatever a connection brings, in whichever order the goroutines go on, each
    stream or packet that is handled belongs to the user whose token was shown
    by the first event that decides the authentication (an earlier wrong token
    or the timeout would have closed the door). *)
Theorem served_only_authenticated (Users : gmap (list Z) string) (GenToken : list Z → string → option (list Z))
    (es : list event) (s : serverHandler) :
  serve Users GenToken es NewServerHandler = Some s →
  ∀ h, h ∈ log s → ∃ pre e post, es = pre ++ e :: post ∧ Forall (λ e, decides Users GenToken e = None) pre ∧
    authenticates Users GenToken e (handled_user h).
Proof.
  intros Hs h Hh. destruct (serve_frame Users GenToken es NewServerHandler s Hs) as [Ha Hl].
  - intros i p m Hin. by apply not_elem_of_nil in Hin.
  - destruct (Hl h Hh) as [Hin|Hau]; [by apply not_elem_of_nil in Hin|]. rewrite Hau in Ha. simpl in Ha. symmetry in Ha.
    destruct (decision_split Users GenToken es _ Ha) as (pre & e & post & -> & Hp & He). exists pre, e, post. split_and!; [done..|].
    by apply decides_authenticates.
Qed.

(** A client is served: one that shows the token of its user and opens a
    stream gets the stream handled for the address it asked for and under its
    name, whether the stream or the token is read first. *)
Theorem tuic_client_served (Users : gmap (list Z) string) (GenToken : list Z → string → option (list Z))
    (a : Authenticate) (c : Connect) (password : string) (q q' : list Z) (now : Z) :
  authenticate_ok a → connect_ok c → Users !! UUID a = Some password → GenToken (UUID a) password = Some (TOKEN a) →
  let token := EUniStream (Authenticate_WriteTo a ++ q) in let stream := EStream (Connect_WriteTo c ++ q') in
  Forall (λ es, log <$> serve Users GenToken es NewServerHandler = Some [HandleTcpFn (SocksAddr (co_ADDR c)) (UUID a)])
    [[token; stream; ERun 0 now]; [stream; token; ERun 0 now]; [stream; ERun 0 now; token; ERun 0 now]].
Proof.
  intros Ha Hc Hu Ht token stream. repeat apply Forall_cons_2; try apply Forall_nil_2; cbn [serve].
  - unfold token. rewrite (authenticate_step Users GenToken a q _ password) by done. cbn [mbind option_bind].
    unfold stream. rewrite stream_step by done. done.
  - unfold stream. rewrite stream_step by done. cbn [mbind option_bind].
    unfold token. rewrite (authenticate_step Users GenToken a q _ password) by done. done.
  - unfold stream. rewrite stream_step by done. cbn [mbind option_bind].
    assert (handle Users GenToken (ERun 0 now) (wait (JStream c) NewServerHandler) = Some (wait (JStream c) NewServerHandler)) as -> by done.
    cbn [mbind option_bind].
    unfold token. rewrite (authenticate_step Users GenToken a q _ password) by done. done.
Qed.

Definition demo_users : gmap (list Z) string := {[ replicate 16 1%Z := "secret"%string ]}.

Definition demo_token (uuid : list Z) (password : string) : option (list Z) := Some (replicate 32 (Z.of_nat (String.length password))).

Definition demo_auth : Authenticate := NewAuthenticate (replicate 16 1%Z) (replicate 32 6%Z).

Definition demo_connect : Connect := NewConnect (mkAddress AtypIPv4 [10; 0; 0; 1]%Z 443).

Lemma demo_connect_ok : connect_ok demo_connect.
Proof. split; [done|]. apply ok_ipv4; [done|]. unfold port_ok. simpl. lia. Qed.

Lemma tuic_client_served_witness :
  log <$> serve demo_users demo_token [EStream (Connect_WriteTo demo_connect ++ []); EUniStream (Authenticate_WriteTo demo_auth ++ []); ERun 0 7] NewServerHandler
  = Some [HandleTcpFn [1; 10; 0; 0; 1; 1; 187]%Z (replicate 16 1%Z)].
Proof.
  pose proof (tuic_client_served demo_users demo_token demo_auth demo_connect "secret" [] [] 7) as H.
  rewrite Forall_forall in H. apply H; [done|apply demo_connect_ok|reflexivity|reflexivity|right; left].
Defined.

Lemma served_only_authenticated_witness :
  ∃ s, serve demo_users demo_token [EUniStream (Authenticate_WriteTo demo_auth); EStream (Connect_WriteTo demo_connect); ERun 0 7] NewServerHandler = Some s ∧
    ∀ h, h ∈ log s → ∃ pre e post, [EUniStream (Authenticate_WriteTo demo_auth); EStream (Connect_WriteTo demo_connect); ERun 0 7] = pre ++ e :: post ∧
      Forall (λ e, decides demo_users demo_token e = None) pre ∧ authenticates demo_users demo_token e (handled_user h).
Proof. eexists. split; [vm_compute; reflexivity|]. apply served_only_authenticated. vm_compute. reflexivity. Defined.

(** A client need not authenticate to stop the server: the address of a stream
    is read before the wait, and the one of [address_panics] does it. *)
Theorem connect_panics (Users : gmap (list Z) string) (GenToken : list Z → string → option (list Z)) (s : serverHandler) (rest : list Z) :
  handle Users GenToken (EStream (VER :: ConnectType :: AtypDomainName :: 255%Z :: rest)) s = None.
Proof.
  cbn [handle]. unfold versioned. rewrite Z.eqb_refl. unfold HandleStream, ReadConnect.
  assert (ReadCommandHead (VER :: ConnectType :: AtypDomainName :: 255%Z :: rest) = inr (NewCommandHead ConnectType, AtypDomainName :: 255%Z :: rest)) as Hh by done.
  unfold bind at 1. rewrite Hh. unfold ReadConnectWithHead, expect. simpl h_TYPE. rewrite Z.eqb_refl.
  unfold bind at 1. by rewrite (address_panics rest).
Qed.
