(* ===== verification/Dialogue.v ===== *)
(** * Two programs at the ends of a connection

    A handshake is a program that reads and writes a stream of bytes.  [proc]
    is such a program as data: what it does next and how it goes on.  Two of
    them talk through a queue in each direction ([config]); [step] lets either
    end take its next action, so its runs are all the interleavings.

    Both ends are deterministic and a read waits for all its bytes, so the
    interleaving does not matter: [settles] says that every run is finite and
    ends in the same configuration, and [settles_run] that one run to an end
    is enough to know it.  The connection may also break at any moment
    ([faulty]); [settles_faulty] says that an end which gives up when it sees an
    error has either given up or found what it would have found. *)

From Stdlib Require Import ZArith Lia.
From stdpp Require Import prelude list relations.
From S2P Require Import Prelude.

(** ** Programs *)

(** [Recv n k] is [io.ReadFull] of [n] bytes, [Peek] the same without taking
    them; [None] is an error.  [Send] is told whether the write succeeded. *)
Inductive proc (R : Type) :=
  | Halt (r : R)
  | Recv (n : nat) (k : option (list Z) → proc R)
  | Peek (n : nat) (k : option (list Z) → proc R)
  | Send (bs : list Z) (k : bool → proc R).

Arguments Halt {R} r.
Arguments Recv {R} n k.
Arguments Peek {R} n k.
Arguments Send {R} bs k.

Fixpoint and_then {A B} (p : proc A) (f : A → proc B) : proc B :=
  match p with
  | Halt r => f r
  | Recv n k => Recv n (λ o, and_then (k o) f)
  | Peek n k => Peek n (λ o, and_then (k o) f)
  | Send bs k => Send bs (λ o, and_then (k o) f)
  end.

Definition halted {R} (p : proc R) : bool := match p with Halt _ => true | _ => false end.

(** The next action, given whether the other end is done and what has arrived:
    the program after it, what is left, and what goes out.  A read waits for its
    bytes unless no more can come. *)
Definition advance {R} (p : proc R) (peer_done : bool) (inq : list Z) : option (proc R * list Z * list Z) :=
  match p with
  | Halt _ => None
  | Recv n k =>
    if (n <=? length inq)%nat then Some (k (Some (take n inq)), drop n inq, [])
    else if peer_done then Some (k None, inq, []) else None
  | Peek n k =>
    if (n <=? length inq)%nat then Some (k (Some (take n inq)), inq, [])
    else if peer_done then Some (k None, inq, []) else None
  | Send bs k => Some (k true, inq, bs)
  end.

(** What a program makes of a whole input, after which the stream is closed: its
    result, what it left of the input, and its output. *)
Fixpoint consume {R} (p : proc R) (inq : list Z) : R * list Z * list Z :=
  match p with
  | Halt r => (r, inq, [])
  | Recv n k => if (n <=? length inq)%nat then consume (k (Some (take n inq))) (drop n inq) else consume (k None) inq
  | Peek n k => if (n <=? length inq)%nat then consume (k (Some (take n inq))) inq else consume (k None) inq
  | Send bs k => let '(r, l, out) := consume (k true) inq in (r, l, bs ++ out)
  end.

(** ** Two ends *)

Record config (A B : Type) := mkConfig { near : proc A; far : proc B; to_far : list Z; to_near : list Z }.

Arguments mkConfig {A B}.
Arguments near {A B}.
Arguments far {A B}.
Arguments to_far {A B}.
Arguments to_near {A B}.

Definition start {A B} (p : proc A) (q : proc B) : config A B := mkConfig p q [] [].

Inductive step {A B} (c : config A B) : config A B → Prop :=
  | step_near p inq out :
      advance (near c) (halted (far c)) (to_near c) = Some (p, inq, out) →
      step c (mkConfig p (far c) (to_far c ++ out) inq)
  | step_far q inq out :
      advance (far c) (halted (near c)) (to_far c) = Some (q, inq, out) →
      step c (mkConfig (near c) q inq (to_near c ++ out)).

(** A failed action: a read that gets an error, a write of which only a
    beginning went out. *)
Inductive fault {R} : proc R → proc R → list Z → Prop :=
  | fault_recv n k : fault (Recv n k) (k None) []
  | fault_peek n k : fault (Peek n k) (k None) []
  | fault_send bs k out : out `prefix_of` bs → fault (Send bs k) (k false) out.

Inductive faulty {A B} (c : config A B) : config A B → Prop :=
  | faulty_step c' : step c c' → faulty c c'
  | faulty_near p out : fault (near c) p out → faulty c (mkConfig p (far c) (to_far c ++ out) (to_near c))
  | faulty_far q out : fault (far c) q out → faulty c (mkConfig (near c) q (to_far c) (to_near c ++ out)).

Definition stuck {A B} (c : config A B) : Prop := ∀ c', ¬ step c c'.

(** Every run from [c] is finite, and the ones that cannot go on end in [f]. *)
Definition settles {A B} (c f : config A B) : Prop :=
  ∃ n, (∀ m c', nsteps step m c c' → m ≤ n) ∧ (∀ c', rtc step c c' → stuck c' → c' = f).

(** A program that halts with a [bad] result as soon as it sees an error. *)
Fixpoint strict {R} (bad : R → Prop) (p : proc R) : Prop :=
  match p with
  | Halt _ => True
  | Recv n k | Peek n k => (∃ r, k None = Halt r ∧ bad r) ∧ ∀ b, strict bad (k (Some b))
  | Send bs k => (∃ r, k false = Halt r ∧ bad r) ∧ strict bad (k true)
  end.

(** ** The order of actions does not matter *)

Section order.
Context {A B : Type}.

Implicit Types c f : config A B.

(** More input does not change an action that did not need the end of it. *)
Lemma advance_more {R} (p p' : proc R) d inq inq' out more :
  advance p false inq = Some (p', inq', out) → advance p d (inq ++ more) = Some (p', inq' ++ more, out).
Proof.
  destruct p as [r|n k|n k|bs k]; simpl; [done| | |by intros [= <- <- <-]].
  all: destruct (Nat.leb_spec n (length inq)); [|done]; intros [= <- <- <-].
  all: rewrite leb_correct by (rewrite length_app; lia); by rewrite take_app_le, ?drop_app_le by done.
Qed.

Lemma advance_live {R} (p : proc R) d inq r : advance p d inq = Some r → halted p = false.
Proof. by destruct p. Qed.

Lemma step_diamond c c1 c2 : step c c1 → step c c2 → c1 = c2 ∨ ∃ c3, step c1 c3 ∧ step c2 c3.
Proof.
  intros H1 H2. destruct H1 as [p inq out Hp|q inq out Hq], H2 as [p' inq' out' Hp'|q' inq' out' Hq'].
  1,4: left; congruence.
  all: right.
  - pose proof (advance_live _ _ _ _ Hp) as Hlp. pose proof (advance_live _ _ _ _ Hq') as Hlq.
    rewrite Hlq in Hp. rewrite Hlp in Hq'.
    exists (mkConfig p q' (inq' ++ out) (inq ++ out')). split.
    + apply (step_far (mkConfig _ _ _ _)). by apply advance_more.
    + apply (step_near (mkConfig _ _ _ _)). by apply advance_more.
  - pose proof (advance_live _ _ _ _ Hq) as Hlq. pose proof (advance_live _ _ _ _ Hp') as Hlp.
    rewrite Hlp in Hq. rewrite Hlq in Hp'.
    exists (mkConfig p' q (inq ++ out') (inq' ++ out)). split.
    + apply (step_near (mkConfig _ _ _ _)). by apply advance_more.
    + apply (step_far (mkConfig _ _ _ _)). by apply advance_more.
Qed.

Lemma nsteps_to_stuck n c c' f : nsteps step (S n) c f → stuck f → step c c' → nsteps step n c' f.
Proof.
  revert c c'. induction n as [|n IH]; intros c c' Hn Hf Hs; inversion Hn as [|? ? c1 ? Hs1 Hn1]; subst.
  - inversion Hn1; subst. destruct (step_diamond _ _ _ Hs1 Hs) as [->|(? & Hx & _)]; [constructor|by destruct (Hf _ Hx)].
  - destruct (step_diamond _ _ _ Hs1 Hs) as [->|(z & Hz1 & Hz2)]; [done|].
    econstructor; [exact Hz2|]. by apply (IH c1).
Qed.

Lemma nsteps_bound n m c c' f : nsteps step n c f → stuck f → nsteps step m c c' → m ≤ n ∧ nsteps step (n - m) c' f.
Proof.
  intros Hn Hf Hm. revert n Hn. induction Hm as [c|m c c1 c' Hs Hm IH]; intros n Hn.
  - rewrite Nat.sub_0_r. split; [lia|done].
  - destruct n as [|n]; [inversion Hn; subst; by destruct (Hf _ Hs)|].
    destruct (IH n (nsteps_to_stuck _ _ _ _ Hn Hf Hs)) as [Hle Hr]. split; [lia|done].
Qed.

Lemma settles_run c f : rtc step c f → stuck f → settles c f.
Proof.
  intros (n & Hn)%rtc_nsteps_1 Hf. exists n. split.
  - intros m c' Hm. by apply (nsteps_bound n m c c' f).
  - intros c' (m & Hm)%rtc_nsteps_1 Hc'. destruct (nsteps_bound n m c c' f Hn Hf Hm) as [_ Hr].
    inversion Hr as [|? ? ? ? Hx]; subst; [done|by destruct (Hc' _ Hx)].
Qed.

(** A run can be continued to the end that was settled. *)
Lemma settles_rtc c f c' : rtc step c f → stuck f → rtc step c c' → rtc step c' f.
Proof.
  intros (n & Hn)%rtc_nsteps_1 Hf (m & Hm)%rtc_nsteps_1.
  destruct (nsteps_bound n m c c' f Hn Hf Hm) as [_ Hr]. by eapply rtc_nsteps_2.
Qed.

Lemma stuck_halted (a : A) (b : B) q1 q2 : stuck (mkConfig (Halt a) (Halt b) q1 q2).
Proof. intros c Hs. by inversion Hs. Qed.

End order.

(** ** What a broken connection can do *)

Definition swap {A B} (c : config A B) : config B A := mkConfig (far c) (near c) (to_near c) (to_far c).

Lemma swap_swap {A B} (c : config A B) : swap (swap c) = c.
Proof. by destruct c. Qed.

Lemma step_swap {A B} (c c' : config A B) : step c c' → step (swap c) (swap c').
Proof. intros Hs. destruct Hs as [p inq out Hp|q inq out Hq]; [by apply (step_far (swap c))|by apply (step_near (swap c))]. Qed.

Lemma rtc_swap {A B} (c c' : config A B) : rtc step c c' → rtc step (swap c) (swap c').
Proof. induction 1; [done|]. eapply rtc_l; [by apply step_swap|done]. Qed.

(** One end of a run with faults beside the same end of a run without: the same
    program, whose peer has the same to read, or one that gave up, whose peer has
    a beginning of it. *)
Definition follows {R} (bad : R → Prop) (p p' : proc R) (sent sent' : list Z) : Prop :=
  (p = p' ∧ sent = sent') ∨ ((∃ r, p = Halt r ∧ bad r) ∧ sent `prefix_of` sent').

Definition shadows {A B} (badA : A → Prop) (badB : B → Prop) (c d : config A B) : Prop :=
  follows badA (near c) (near d) (to_far c) (to_far d) ∧ follows badB (far c) (far d) (to_near c) (to_near d) ∧
  strict badA (near c) ∧ strict badB (far c).

Lemma follows_prefix {R} (bad : R → Prop) p p' s s' : follows bad p p' s s' → s `prefix_of` s'.
Proof. by intros [[_ ->]|[_ ?]]. Qed.

Lemma follows_live {R} (bad : R → Prop) p p' s s' : follows bad p p' s s' → halted p = false → p = p' ∧ s = s'.
Proof. by intros [?|[(r & -> & _) _]]. Qed.

(** The peer takes the same from both queues. *)
Lemma follows_queue {R} (bad : R → Prop) p p' s s' t t' :
  follows bad p p' s s' → (s = s' → t = t') → t `prefix_of` t' → follows bad p p' t t'.
Proof. intros [[? ?]|[? ?]] Heq Hpre; [left; auto|by right]. Qed.

Lemma shadows_swap {A B} (badA : A → Prop) (badB : B → Prop) c d : shadows badA badB c d → shadows badB badA (swap c) (swap d).
Proof. by intros (? & ? & ? & ?). Qed.

Section shadow.
Context {A B : Type} (badA : A → Prop) (badB : B → Prop).

Implicit Types c d : config A B.

Lemma strict_advance {R} (bad : R → Prop) (p : proc R) e inq p' inq' out :
  strict bad p → advance p e inq = Some (p', inq', out) → strict bad p'.
Proof.
  destruct p as [r|n k|n k|bs k]; simpl; [done| | |by intros [_ ?] [= <- _ _]].
  all: intros [(r & Hr & _) Hk]; destruct (n <=? length inq)%nat; [by intros [= <- _ _]|].
  all: destruct e; [|done]; intros [= <- _ _]; by rewrite Hr.
Qed.

(** An action of the run with faults: the other run can take it too, or the end
    gives up at the end of its input. *)
Lemma advance_shadow {R} (bad : R → Prop) (p : proc R) e e' inq inq' p1 q1 out :
  strict bad p → inq `prefix_of` inq' → advance p e inq = Some (p1, q1, out) →
  (∃ q1', advance p e' inq' = Some (p1, q1', out) ∧ q1 `prefix_of` q1' ∧ (inq = inq' → q1 = q1')) ∨
  ((∃ r, p1 = Halt r ∧ bad r) ∧ out = [] ∧ q1 = inq).
Proof.
  intros Hs Hpre. destruct p as [r|n k|n k|bs k]; simpl in Hs |- *; [done| | |intros [= <- <- <-]; left; eauto].
  all: destruct (Nat.leb_spec n (length inq)) as [Hle|Hgt];
    [|destruct e; [|done]; intros [= <- <- <-]; right; split; [by destruct Hs|done]].
  all: intros [= <- <- <-]; left; destruct Hpre as [more ->];
    rewrite leb_correct by (rewrite length_app; lia); rewrite take_app_le, ?drop_app_le by done.
  all: eexists; split; [done|]; split; [by eexists|].
  all: intros Heq; rewrite <- (app_nil_r inq) in Heq at 1; apply app_inv_head in Heq; by rewrite <- Heq, app_nil_r.
Qed.

Lemma shadow_near c d p inq out :
  shadows badA badB c d → advance (near c) (halted (far c)) (to_near c) = Some (p, inq, out) →
  ∃ d', rtc step d d' ∧ shadows badA badB (mkConfig p (far c) (to_far c ++ out) inq) d'.
Proof.
  intros (Hn & Hf & Hsn & Hsf) Hp. pose proof (strict_advance _ _ _ _ _ _ _ Hsn Hp) as Hsp.
  destruct (follows_live _ _ _ _ _ Hn (advance_live _ _ _ _ Hp)) as [Heq Hto].
  destruct (advance_shadow badA (near c) _ (halted (far d)) _ (to_near d) p inq out Hsn (follows_prefix _ _ _ _ _ Hf) Hp)
    as [(q1' & Hd & Hpre & Hsame)|(Hbad & -> & ->)].
  - exists (mkConfig p (far d) (to_far d ++ out) q1'). split.
    + apply rtc_once, step_near. by rewrite <- Heq.
    + repeat split; simpl; [left; by rewrite Hto|by eapply follows_queue|done|done].
  - exists d. split; [done|]. repeat split; simpl; [|done|done|done]. right. split; [done|]. by rewrite app_nil_r, Hto.
Qed.

Lemma shadow_fault c d p out :
  shadows badA badB c d → fault (near c) p out →
  ∃ d', rtc step d d' ∧ shadows badA badB (mkConfig p (far c) (to_far c ++ out) (to_near c)) d'.
Proof.
  intros (Hn & Hf & Hsn & Hsf) Hp.
  assert (halted (near c) = false) as Hl by by destruct Hp.
  destruct (follows_live _ _ _ _ _ Hn Hl) as [Heq Hto].
  remember (near c) as pc eqn:Hnc. destruct Hp as [n k|n k|bs k out Hpre]; simpl in Hsn; destruct Hsn as [(r & Hr & Hbad) Hs]; rewrite Hr.
  1,2: exists d; split; [done|]; repeat split; simpl; [right; split; [by eexists|by rewrite app_nil_r, Hto]|done|done].
  exists (mkConfig (k true) (far d) (to_far d ++ bs) (to_near d)). split.
  - apply rtc_once, step_near. by rewrite <- Heq.
  - repeat split; simpl; [right; split; [by eexists|rewrite Hto; by apply prefix_app]|done|done].
Qed.

End shadow.

Lemma shadow_faulty {A B} (badA : A → Prop) (badB : B → Prop) (c d c' : config A B) :
  shadows badA badB c d → faulty c c' → ∃ d', rtc step d d' ∧ shadows badA badB c' d'.
Proof.
  intros Hs Hf. destruct Hf as [c' [p inq out Hp|q inq out Hq]|p out Hp|q out Hq].
  - by eapply shadow_near.
  - destruct (shadow_near badB badA (swap c) (swap d) q inq out (shadows_swap _ _ _ _ Hs) Hq) as (d' & Hd & Hsh).
    exists (swap d'). split; [rewrite <- (swap_swap d); by apply rtc_swap|]. by apply (shadows_swap badB badA _ _ Hsh).
  - by eapply shadow_fault.
  - destruct (shadow_fault badB badA (swap c) (swap d) q out (shadows_swap _ _ _ _ Hs) Hq) as (d' & Hd & Hsh).
    exists (swap d'). split; [rewrite <- (swap_swap d); by apply rtc_swap|]. by apply (shadows_swap badB badA _ _ Hsh).
Qed.

(** Whatever breaks and when: an end that halted either gave up or has the result
    it has when nothing breaks. *)
Lemma settles_faulty {A B} (badA : A → Prop) (badB : B → Prop) (c f c' : config A B) :
  rtc step c f → stuck f → strict badA (near c) → strict badB (far c) → rtc faulty c c' →
  (∀ r, near c' = Halt r → badA r ∨ near f = Halt r) ∧ (∀ r, far c' = Halt r → badB r ∨ far f = Halt r).
Proof.
  intros Hrun Hf Hsa Hsb Hc'.
  assert (∃ d, rtc step c d ∧ shadows badA badB c' d) as (d & Hd & Hn & Hfar & _).
  { assert (shadows badA badB c c) as Hs by (repeat split; [by left|by left|done|done]).
    cut (∀ c0, shadows badA badB c c0 → ∃ d, rtc step c0 d ∧ shadows badA badB c' d); [intros Hc; by apply Hc|].
    clear -Hc'. induction Hc' as [c|c c1 c' Hstep _ IH]; intros c0 Hs; [by exists c0|].
    destruct (shadow_faulty _ _ _ _ _ Hs Hstep) as (d1 & Hd1 & Hs1). destruct (IH d1 Hs1) as (d & Hd & Hsd).
    exists d. split; [by etrans|done]. }
  pose proof (settles_rtc _ _ _ Hrun Hf Hd) as Hdf.
  assert (∀ {R} (p : proc R) dn inq x, advance p dn inq = Some x → halted p = true → False) as Hhalt.
  { intros R p dn inq x Hx. by rewrite (advance_live _ _ _ _ Hx). }
  assert (∀ d f : config A B, rtc step d f → (halted (near d) = true → near f = near d) ∧ (halted (far d) = true → far f = far d)) as Hkeep.
  { clear -Hhalt. induction 1 as [d|d d1 f Hs _ [IHn IHf]]; [done|].
    destruct Hs as [p inq out Hp|q inq out Hq]; simpl in *; split; intros Hh; auto; by destruct (Hhalt _ _ _ _ _ ltac:(eassumption) Hh). }
  destruct (Hkeep _ _ Hdf) as [Hkn Hkf]. split; intros r Hr.
  - rewrite Hr in Hn. destruct Hn as [[Heq _]|[(r' & [= <-] & ?) _]]; [right|by left]. rewrite Hkn by by rewrite <- Heq. done.
  - rewrite Hr in Hfar. destruct Hfar as [[Heq _]|[(r' & [= <-] & ?) _]]; [right|by left]. rewrite Hkf by by rewrite <- Heq. done.
Qed.

(** ** Building a run *)

(** A step that does not look at whether the other end is done. *)
Inductive eager {A B} (c : config A B) : config A B → Prop :=
  | eager_near p inq out :
      advance (near c) false (to_near c) = Some (p, inq, out) → eager c (mkConfig p (far c) (to_far c ++ out) inq)
  | eager_far q inq out :
      advance (far c) false (to_far c) = Some (q, inq, out) → eager c (mkConfig (near c) q inq (to_near c ++ out)).

Lemma eager_step {A B} (c c' : config A B) : eager c c' → step c c'.
Proof.
  intros [p inq out Hp|q inq out Hq]; [apply step_near|apply step_far]; eapply (advance_more _ _ _ _ _ _ []) in Hp || eapply (advance_more _ _ _ _ _ _ []) in Hq.
  - by rewrite !app_nil_r in Hp.
  - by rewrite !app_nil_r in Hq.
Qed.

Lemma rtc_eager {A B} (c c' : config A B) : rtc eager c c' → rtc step c c'.
Proof. apply rtc_subrel. exact eager_step. Qed.

(** Such a run goes on when an end has more to do after it. *)
Definition wrap_near {A A' B} (f : A → proc A') (c : config A B) : config A' B :=
  mkConfig (and_then (near c) f) (far c) (to_far c) (to_near c).

Definition wrap_far {A B B'} (g : B → proc B') (c : config A B) : config A B' :=
  mkConfig (near c) (and_then (far c) g) (to_far c) (to_near c).

Lemma advance_and_then {R R'} (f : R → proc R') p inq p' inq' out :
  advance p false inq = Some (p', inq', out) → advance (and_then p f) false inq = Some (and_then p' f, inq', out).
Proof. destruct p as [r|n k|n k|bs k]; simpl; [done| | |by intros [= <- <- <-]]; case_match; [by intros [= <- <- <-]|done|by intros [= <- <- <-]|done]. Qed.

Lemma rtc_eager_near {A A' B} (f : A → proc A') (c c' : config A B) : rtc eager c c' → rtc eager (wrap_near f c) (wrap_near f c').
Proof.
  induction 1 as [|c c1 c' Hs _ IH]; [done|]. eapply rtc_l; [|exact IH]. destruct Hs as [p inq out Hp|q inq out Hq].
  - apply (eager_near (wrap_near f c)). by apply advance_and_then.
  - by apply (eager_far (wrap_near f c)).
Qed.

Lemma rtc_eager_far {A B B'} (g : B → proc B') (c c' : config A B) : rtc eager c c' → rtc eager (wrap_far g c) (wrap_far g c').
Proof.
  induction 1 as [|c c1 c' Hs _ IH]; [done|]. eapply rtc_l; [|exact IH]. destruct Hs as [p inq out Hp|q inq out Hq].
  - by apply (eager_near (wrap_far g c)).
  - apply (eager_far (wrap_far g c)). by apply advance_and_then.
Qed.

(** What a program reads before it does anything else. *)
Inductive reads {R} : proc R → list Z → proc R → Prop :=
  | reads_nil p : reads p [] p
  | reads_recv n k a b p : length a = n → reads (k (Some a)) b p → reads (Recv n k) (a ++ b) p.

Lemma reads_app {R} (p p1 p2 : proc R) a b : reads p a p1 → reads p1 b p2 → reads p (a ++ b) p2.
Proof. induction 1 as [|n k a1 b1 p Hn _ IH]; [done|]. intros Hb. rewrite <- app_assoc. constructor; [done|]. by apply IH. Qed.

Lemma reads_and_then {R R'} (f : R → proc R') p a p' : reads p a p' → reads (and_then p f) a (and_then p' f).
Proof. induction 1; [constructor|]. simpl. by constructor. Qed.

Lemma advance_recv {R} n (k : option (list Z) → proc R) a d v :
  length a = n → advance (Recv n k) d (a ++ v) = Some (k (Some a), v, []).
Proof. intros Hn. simpl. rewrite leb_correct by (rewrite length_app; lia). by rewrite take_app_length', drop_app_length'. Qed.

Section rules.
Context {A B : Type}.

Implicit Types (p : proc A) (q : proc B) (f : config A B).

Lemma run_near_send bs k q u v f : rtc eager (mkConfig (k true) q (u ++ bs) v) f → rtc eager (mkConfig (Send bs k) q u v) f.
Proof. intros Hr. eapply rtc_l; [by apply (eager_near (mkConfig _ _ _ _))|done]. Qed.

Lemma run_far_send p bs k u v f : rtc eager (mkConfig p (k true) u (v ++ bs)) f → rtc eager (mkConfig p (Send bs k) u v) f.
Proof. intros Hr. eapply rtc_l; [by apply (eager_far (mkConfig _ _ _ _))|done]. Qed.

Lemma run_near_reads a p p' q u v f :
  reads p a p' → rtc eager (mkConfig p' q u v) f → rtc eager (mkConfig p q u (a ++ v)) f.
Proof.
  intros Hp Hr. induction Hp as [p|n k a b p Hn _ IH]; [done|]. rewrite <- app_assoc.
  eapply rtc_l; [eapply (eager_near (mkConfig _ _ _ _)); by apply advance_recv|]. rewrite app_nil_r. by apply IH.
Qed.

Lemma run_far_reads a p q q' u v f :
  reads q a q' → rtc eager (mkConfig p q' u v) f → rtc eager (mkConfig p q (a ++ u) v) f.
Proof.
  intros Hp Hr. induction Hp as [q|n k a b q Hn _ IH]; [done|]. rewrite <- app_assoc.
  eapply rtc_l; [eapply (eager_far (mkConfig _ _ _ _)); by apply advance_recv|]. rewrite app_nil_r. by apply IH.
Qed.

Lemma run_far_peek n a p k u v f :
  length a = n → rtc eager (mkConfig p (k (Some a)) (a ++ u) v) f → rtc eager (mkConfig p (Peek n k) (a ++ u) v) f.
Proof.
  intros Hn Hr. eapply rtc_l; [|exact Hr].
  assert (advance (Peek n k) false (a ++ u) = Some (k (Some a), a ++ u, [])) as Ha.
  { simpl. rewrite leb_correct by (rewrite length_app; lia). by rewrite take_app_length'. }
  apply (eager_far (mkConfig p (Peek n k) (a ++ u) v)) in Ha. by rewrite app_nil_r in Ha.
Qed.

(** The other end is done and has not sent enough. *)
Lemma run_near_eof n k b u v f :
  length v < n → rtc step (mkConfig (k None) (Halt b) u v) f → rtc step (mkConfig (Recv n k) (Halt b) u v) f.
Proof.
  intros Hn Hr. eapply rtc_l; [eapply (step_near (mkConfig _ _ _ _)); simpl; by rewrite leb_correct_conv by done|]. by rewrite app_nil_r.
Qed.

Lemma run_far_eof n k a u v f :
  length u < n → rtc step (mkConfig (Halt a) (k None) u v) f → rtc step (mkConfig (Halt a) (Recv n k) u v) f.
Proof.
  intros Hn Hr. eapply rtc_l; [eapply (step_far (mkConfig _ _ _ _)); simpl; by rewrite leb_correct_conv by done|]. by rewrite app_nil_r.
Qed.

End rules.

Lemma consume_and_then {A B} (p : proc A) (f : A → proc B) l :
  consume (and_then p f) l =
  (let '(a, l1, out1) := consume p l in let '(b, l2, out2) := consume (f a) l1 in (b, l2, out1 ++ out2)).
Proof.
  revert l. induction p as [r|n k IH|n k IH|bs k IH]; intros l; simpl.
  - by destruct (consume (f r) l) as [[??]?].
  - by destruct (n <=? length l)%nat; rewrite IH.
  - by destruct (n <=? length l)%nat; rewrite IH.
  - rewrite IH. destruct (consume (k true) l) as [[a l1] o1]. destruct (consume (f a) l1) as [[b l2] o2]. by rewrite app_assoc.
Qed.

(** ** What holds of every result *)

(** Every result the program can come to, whatever it reads and whatever fails. *)
Fixpoint ensures {R} (P : R → Prop) (p : proc R) : Prop :=
  match p with
  | Halt r => P r
  | Recv n k | Peek n k => ∀ o, ensures P (k o)
  | Send bs k => ∀ ok, ensures P (k ok)
  end.

Lemma ensures_and_then {A B} (P : B → Prop) (p : proc A) (f : A → proc B) :
  ensures (λ a, ensures P (f a)) p → ensures P (and_then p f).
Proof. induction p as [r|n k IH|n k IH|bs k IH]; simpl; auto. Qed.

Lemma ensures_mono {R} (P Q : R → Prop) (p : proc R) : (∀ r, P r → Q r) → ensures P p → ensures Q p.
Proof. intros HPQ. induction p as [r|n k IH|n k IH|bs k IH]; simpl; auto. Qed.

Lemma ensures_any {R} (P : R → Prop) (p : proc R) : (∀ r, P r) → ensures P p.
Proof. intros HP. induction p as [r|n k IH|n k IH|bs k IH]; simpl; auto. Qed.

Lemma ensures_consume {R} (P : R → Prop) (p : proc R) l : ensures P p → P (consume p l).1.1.
Proof.
  revert l. induction p as [r|n k IH|n k IH|bs k IH]; simpl; intros l Hp; [done|by case_match; apply IH..|].
  specialize (IH true l (Hp true)). by destruct (consume (k true) l) as [[r l'] out].
Qed.

Lemma ensures_advance {R} (P : R → Prop) (p : proc R) d inq p' inq' out :
  ensures P p → advance p d inq = Some (p', inq', out) → ensures P p'.
Proof.
  destruct p as [r|n k|n k|bs k]; simpl; [done| | |by intros Hp [= <- _ _]].
  all: intros Hp; destruct (n <=? length inq)%nat; [by intros [= <- _ _]|]; destruct d; [by intros [= <- _ _]|done].
Qed.

Lemma ensures_fault {R} (P : R → Prop) (p p' : proc R) out : ensures P p → fault p p' out → ensures P p'.
Proof. intros Hp Hf. destruct Hf; apply Hp. Qed.

(** Against any program at the other end, and whatever breaks. *)
Lemma ensures_far {A B} (P : B → Prop) (c c' : config A B) : ensures P (far c) → rtc faulty c c' → ensures P (far c').
Proof.
  intros Hp Hr. induction Hr as [c|c c1 c' Hs _ IH]; [done|]. apply IH. clear IH.
  destruct Hs as [c1 [p inq out Hx|q inq out Hx]|p out Hx|q out Hx]; simpl; [done|by eapply ensures_advance|done|by eapply ensures_fault].
Qed.

Lemma strict_and_then {A B} (badA : A → Prop) (badB : B → Prop) (p : proc A) (f : A → proc B) :
  (∀ a, badA a → ∃ b, f a = Halt b ∧ badB b) → (∀ a, strict badB (f a)) → strict badA p → strict badB (and_then p f).
Proof.
  intros Hbad Hf. induction p as [r|n k IH|n k IH|bs k IH]; simpl; [done| | |].
  all: intros [(r & Hr & Hb) Hk]; rewrite Hr; simpl; destruct (Hbad r Hb) as (b & -> & Hbb); split; [eauto|]; auto.
Qed.
