(* ===== verification/Socks5.v ===== *)
(** * SOCKS5: [transport/socks5/socks5.go] and [component/auth]

    The addresses of the protocol, the two ends of its handshake as programs
    over a connection (Dialogue.v), its packets, and the authenticator the
    server asks.

    The theorems: the handshake's two ends agree in every case and every
    interleaving, and whatever breaks no end succeeds with anything else
    ([handshake_agrees]); a server that has an authenticator lets nobody through
    whom it does not verify ([server_verifies]); the stream readers and the
    slicer of addresses accept the same bytes ([address_readers_agree]); packets
    are decoded to what was encoded ([udp_packet_codec]). *)

From Stdlib Require Import ZArith Lia Ascii String.
From stdpp Require Import prelude strings gmap list relations pretty.
From S2P Require Import Prelude Netip Metadata Wire Dialogue.

(** ** Authentication *)

Record AuthUser := mkAuthUser { au_User : string; au_Pass : string }.

(** The two implementations of the interface; a nil one is [None] of an option. *)
Inductive Authenticator := InMemory (storage : gmap string string) (usernames : list string) | AlwaysValid.

#[global] Instance Authenticator_eq_dec : EqDecision Authenticator.
Proof. solve_decision. Defined.

Definition Verify (au : Authenticator) (user pass : string) : bool :=
  match au with
  | InMemory storage _ => match storage !! user with Some realPass => bool_decide (realPass = pass) | None => false end
  | AlwaysValid => true
  end.

Definition Users (au : Authenticator) : list string := match au with InMemory _ us => us | AlwaysValid => [] end.

Definition NewAuthenticator (users : list AuthUser) : option Authenticator :=
  if bool_decide (users = []) then None
  else
    let '(storage, usernames) :=
      foldl (λ acc u, (<[au_User u := au_Pass u]> acc.1, acc.2 ++ [au_User u])) (∅ : gmap string string, []) users in
    Some (InMemory storage usernames).

(** [parseAuthentication] of config/config.go: lines of the form user:pass, the
    others are left out. *)
Definition parseAuthentication (rawRecords : list string) : list AuthUser :=
  omap (λ line, (λ p, mkAuthUser (of_bytes p.1) (of_bytes p.2)) <$> cut ":"%char (bytes line)) rawRecords.

(** ** Addresses *)

Open Scope Z_scope.

Definition Version : Z := 5.

Definition CmdConnect : Z := 1.

Definition CmdBind : Z := 2.

Definition CmdUDPAssociate : Z := 3.

Definition AtypIPv4 : Z := 1.

Definition AtypDomainName : Z := 3.

Definition AtypIPv6 : Z := 4.

Definition MaxAddrLen : Z := 1 + 1 + 255 + 2.

Definition byte_at (b : list Z) (i : nat) : Z := nth i b 0.

Definition slice (b : list Z) (i j : nat) : list Z := take (j - i) (drop i b).

(** The bytes of a Go string and back. *)
Definition str_bytes (s : string) : list Z := map byte_of (bytes s).

Definition to_string (l : list Z) : string := of_bytes (map char_of l).

(** A [net.Addr]: nil, an address of TCP or UDP, or any other, of which only the
    text is used. *)
Inductive net_addr := NilAddr | IPAddr (ip : list Z) (port : Z) (zone : string) | OtherAddr (s : string).

Definition To4 (ip : list Z) : option (list Z) :=
  if (length ip =? 4)%nat then Some ip
  else if (length ip =? 16)%nat && bool_decide (take 12 ip = replicate 10 0 ++ [255; 255]) then Some (drop 12 ip)
  else None.

(** [net.IP.String] of a slice that has the length of an address or none; [""]
    in place of [<nil>], as the addresses of sockets print. *)
Definition ip_text (ip : list Z) : string :=
  match ip with [] => "" | _ => Addr_String (Unmap (AddrFromSlice ip)) end.

Definition net_addr_String (a : net_addr) : string :=
  match a with
  | NilAddr => ""
  | IPAddr ip port zone =>
    JoinHostPort (if bool_decide (zone = "")%string then ip_text ip else ip_text ip +:+ "%" +:+ zone) (pretty port)
  | OtherAddr s => s
  end.

(** [net.ParseIP] with [To4]: a zone is not allowed, 4-in-6 addresses are IPv4. *)
Definition parse_ip (host : string) : option Addr :=
  a ← Netip.ParseAddr host; if bool_decide (addr_zone a = "")%string then Some (Unmap a) else None.

Definition domain_addr (host : list Z) (port : list Z) : list Z :=
  AtypDomainName :: @wrap uint8 (Z.of_nat (length host)) :: host ++ port.

Definition ParseAddr (s : string) : option (list Z) :=
  '(host, port) ← SplitHostPort s;
  mk ← match parse_ip host with
       | Some a => Some (λ p, (if Is4 a then AtypIPv4 else AtypIPv6) :: AsSlice a ++ p)
       | None => if (255 <? length (str_bytes host))%nat then None else Some (domain_addr (str_bytes host))
       end;
  portnum ← ParseUint port;
  if portnum <? 2 ^ 16 then Some (mk (be_bytes 2 portnum)) else None.

Definition ParseAddrToSocksAddr (addr : net_addr) : option (list Z) :=
  match addr with
  | NilAddr => None
  | OtherAddr s => ParseAddr s
  | IPAddr [] port zone => ParseAddr (net_addr_String addr)
  | IPAddr hostip port _ =>
    Some match To4 hostip with
         | Some ip4 => AtypIPv4 :: ip4 ++ be_bytes 2 (@wrap uint16 port)
         | None => AtypIPv6 :: take 16 (hostip ++ replicate 16 0) ++ be_bytes 2 (@wrap uint16 port)
         end
  end.

Definition AddrFromStdAddrPort (addr : Addr) (port : Z) : list Z :=
  if Is4 addr then AtypIPv4 :: AsSlice addr ++ be_bytes 2 port
  else AtypIPv6 :: take 16 (AsSlice addr ++ replicate 16 0) ++ be_bytes 2 port.

(** [Addr.String], [Addr.UDPAddr]: methods of the whole addresses that
    [SplitAddr], [ReadAddr] and [ParseAddr] make. *)
Definition port_at (a : list Z) (i : nat) : Z := Z.lor (Z.shiftl (byte_at a i) 8) (byte_at a (i + 1)).

Definition SocksAddr_String (a : list Z) : string :=
  let '(host, port) :=
    if byte_at a 0 =? AtypDomainName then
      let hostLen := Z.to_nat (byte_at a 1) in
      (to_string (slice a 2 (2 + hostLen)), pretty (port_at a (2 + hostLen)))
    else if byte_at a 0 =? AtypIPv4 then (ip_text (slice a 1 (1 + 4)), pretty (port_at a (1 + 4)))
    else if byte_at a 0 =? AtypIPv6 then (ip_text (slice a 1 (1 + 16)), pretty (port_at a (1 + 16)))
    else ("", "")%string in
  JoinHostPort host port.

Definition UDPAddr (a : list Z) : net_addr :=
  match a with
  | [] => NilAddr
  | t :: _ =>
    if t =? AtypIPv4 then IPAddr (slice a 1 (1 + 4)) (from_be (slice a (1 + 4) (1 + 4 + 2))) ""
    else if t =? AtypIPv6 then IPAddr (slice a 1 (1 + 16)) (from_be (slice a (1 + 16) (1 + 16 + 2))) ""
    else NilAddr
  end.

(** The address at the beginning of a buffer. *)
Definition SplitAddr (b : list Z) : option (list Z) :=
  match b with
  | [] => None
  | t :: rest =>
    addrLen ← (if t =? AtypDomainName then
                 match rest with [] => None | n :: _ => Some (1 + 1 + n + 2) end
               else if t =? AtypIPv4 then Some (1 + 4 + 2)
               else if t =? AtypIPv6 then Some (1 + 16 + 2)
               else None);
    if Z.of_nat (length b) <? addrLen then None else Some (take (Z.to_nat addrLen) b)
  end.

(** ** Programs with errors *)

(** The errors of both versions of the protocol. *)
Inductive socks_error :=
  | EOF | WriteError
  | ErrAuth | ErrCommandNotSupported | ErrAddressNotSupported | ErrShortBuffer
  | ErrVersion | ErrRejected | ErrNeedAuth
  | ErrShortPacket | ErrReserved | ErrFragment | ErrHeader | ErrAddress
  | ErrTooLong | ErrIPv6NotSupported | ErrRequestRejected | ErrRequestIdentdFailed | ErrRequestIdentdMismatched
  | ErrRequestUnknownCode.

#[global] Instance socks_error_eq_dec : EqDecision socks_error.
Proof. solve_decision. Defined.

Definition io (A : Type) : Type := proc (socks_error + A).

Definition done {A} (a : A) : io A := Halt (inr a).

Definition throw {A} (e : socks_error) : io A := Halt (inl e).

(** [io.ReadFull], and a write, whose errors end the function. *)
Definition recv {A} (n : nat) (k : list Z → io A) : io A :=
  Recv n (λ o, match o with Some b => k b | None => throw EOF end).

Definition send {A} (bs : list Z) (k : io A) : io A := Send bs (λ ok, if ok then k else throw WriteError).

Definition try_then {A B} (p : io A) (f : A → io B) : io B :=
  and_then p (λ r, match r with inl e => throw e | inr a => f a end).

(** ** Reading addresses *)

(** With a buffer of [bufLen] bytes. *)
Definition ReadAddr (bufLen : Z) : io (list Z) :=
  if bufLen <? MaxAddrLen then throw ErrShortBuffer
  else recv 1 (λ t,
    if byte_at t 0 =? AtypDomainName then
      recv 1 (λ n, recv (Z.to_nat (byte_at n 0) + 2) (λ rest, done (t ++ n ++ rest)))
    else if byte_at t 0 =? AtypIPv4 then recv (4 + 2) (λ rest, done (t ++ rest))
    else if byte_at t 0 =? AtypIPv6 then recv (16 + 2) (λ rest, done (t ++ rest))
    else throw ErrAddressNotSupported).

Definition ReadByte : io Z := recv 1 (λ b, done (byte_at b 0)).

Definition ReadAddr0 : io (list Z) :=
  try_then ReadByte (λ aType,
    if aType =? AtypDomainName then
      try_then ReadByte (λ domainLength,
        recv (Z.to_nat domainLength + 2) (λ b, done (aType :: domainLength :: b)))
    else if aType =? AtypIPv4 then recv (4 + 2) (λ b, done (aType :: b))
    else if aType =? AtypIPv6 then recv (16 + 2) (λ b, done (aType :: b))
    else throw ErrAddressNotSupported).

(** ** The handshake *)

Record User := mkUser { Username : string; Password : string }.

(** The reply to a client that is not let in; that it could be written is not
    looked at. *)
Definition reject {A} : io A := Send [1; 1] (λ _, throw ErrAuth).

(** The name and password the client sends; gives the name. *)
Definition check_user (authenticator : Authenticator) : io string :=
  recv 2 (λ header,
    let userLen := byte_at header 1 in
    if userLen <=? 0 then reject
    else recv (Z.to_nat userLen) (λ u,
      let user := to_string u in
      recv 1 (λ header,
        let passLen := byte_at header 0 in
        if passLen <=? 0 then reject
        else recv (Z.to_nat passLen) (λ p,
          let pass := to_string p in
          if Verify authenticator user pass then send [1; 0] (done user) else reject)))).

(** What follows the greeting: the request and the reply to it.  [LocalAddr] is
    the address of the server's end of the connection. *)
Definition serve_request (LocalAddr : net_addr) (user : string) : io (list Z * Z * string) :=
  recv 3 (λ buf,
    let command := byte_at buf 1 in
    try_then (ReadAddr MaxAddrLen) (λ addr,
      if (command =? CmdConnect) || (command =? CmdUDPAssociate) then
        match ParseAddrToSocksAddr LocalAddr with
        | None => throw ErrAddressNotSupported
        | Some localAddr => send ([5; 0; 0] ++ localAddr) (done (addr, command, user))
        end
      else throw ErrCommandNotSupported)).

Definition ServerHandshake (authenticator : option Authenticator) (LocalAddr : net_addr) : io (list Z * Z * string) :=
  recv 2 (λ buf,
    let nmethods := byte_at buf 1 in
    recv (Z.to_nat nmethods) (λ buf,
      let authenticator :=
        if (nmethods =? 1) && (byte_at buf 0 =? 2) && bool_decide (authenticator = None) then Some AlwaysValid
        else authenticator in
      try_then (match authenticator with
                | Some au => send [5; 2] (check_user au)
                | None => send [5; 0] (done ""%string)
                end) (serve_request LocalAddr))).

(** What a client sends for its name and password, whose lengths are kept in a
    byte. *)
Definition authMsg (user : User) : list Z :=
  [1; @wrap uint8 (Z.of_nat (length (str_bytes (Username user))))] ++ str_bytes (Username user) ++
  [@wrap uint8 (Z.of_nat (length (str_bytes (Password user))))] ++ str_bytes (Password user).

Definition request (addr : list Z) (command : Z) : io (list Z) :=
  send ([5; command; 0] ++ addr) (recv 3 (λ _, ReadAddr MaxAddrLen)).

Definition ClientHandshake (addr : list Z) (command : Z) (user : option User) : io (list Z) :=
  send (if user then [5; 1; 2] else [5; 1; 0])
    (recv 2 (λ buf,
      if negb (byte_at buf 0 =? 5) then throw ErrVersion
      else if byte_at buf 1 =? 2 then
        match user with
        | None => throw ErrAuth
        | Some u =>
          send (authMsg u)
            (recv 2 (λ buf, if negb (byte_at buf 1 =? 0) then throw ErrRejected else request addr command))
        end
      else if negb (byte_at buf 1 =? 0) then throw ErrNeedAuth
      else request addr command)).

(** ** Packets *)

Definition DecodeUDPPacket (packet : list Z) : socks_error + (list Z * list Z) :=
  if (length packet <? 5)%nat then inl ErrShortPacket
  else if negb (bool_decide (take 2 packet = [0; 0])) then inl ErrReserved
  else if negb (byte_at packet 2 =? 0) then inl ErrFragment
  else match SplitAddr (drop 3 packet) with
       | None => inl ErrHeader
       | Some addr => inr (addr, drop (3 + length addr) packet)
       end.

Definition EncodeUDPPacket (addr : option (list Z)) (payload : list Z) : socks_error + list Z :=
  match addr with None => inl ErrAddress | Some addr => inr ([0; 0; 0] ++ addr ++ payload) end.

Close Scope Z_scope.

(** ** Addresses, whole *)

(** The addresses of the protocol: their length is what their first bytes say. *)
Inductive whole : list Z → Prop :=
  | whole_v4 b : length b = 6 → whole (AtypIPv4 :: b)
  | whole_v6 b : length b = 18 → whole (AtypIPv6 :: b)
  | whole_domain n b : is_byte n → length b = Z.to_nat n + 2 → whole (AtypDomainName :: n :: b).

Lemma whole_split a rest : whole a → SplitAddr (a ++ rest) = Some a.
Proof.
  assert (∀ (a : list Z) n, Z.of_nat (length a) = n →
    (if (Z.of_nat (length (a ++ rest)) <? n)%Z then None else Some (take (Z.to_nat n) (a ++ rest))) = Some a) as Ha.
  { intros a' n <-. rewrite Nat2Z.id, take_app_length, length_app. destruct (Z.ltb_spec (Z.of_nat (length a' + length rest)) (Z.of_nat (length a'))); [lia|done]. }
  intros [b Hb|b Hb|n b Hn Hb].
  - apply (Ha (AtypIPv4 :: b) (1 + 4 + 2)%Z). cbn [length]. lia.
  - apply (Ha (AtypIPv6 :: b) (1 + 16 + 2)%Z). cbn [length]. lia.
  - apply (Ha (AtypDomainName :: n :: b) (1 + 1 + n + 2)%Z). unfold is_byte in Hn. cbn [length]. lia.
Qed.

Lemma split_whole l a : Forall is_byte l → SplitAddr l = Some a → whole a ∧ ∃ rest, l = a ++ rest.
Proof.
  intros Hl Hs.
  assert (∀ n, (if (Z.of_nat (length l) <? n)%Z then None else Some (take (Z.to_nat n) l)) = Some a →
    a = take (Z.to_nat n) l ∧ (n ≤ Z.of_nat (length l))%Z ∧ ∃ rest, l = a ++ rest) as Ht.
  { intros n. destruct (Z.ltb_spec (Z.of_nat (length l)) n); [done|]. intros [= <-]. split_and!; [done|lia|].
    exists (drop (Z.to_nat n) l). by rewrite take_drop. }
  destruct l as [|t rest]; [done|]. unfold SplitAddr in Hs.
  destruct (Z.eqb_spec t AtypDomainName) as [->|].
  - destruct rest as [|n rest]; [done|]. cbn [mbind option_bind] in Hs. apply Ht in Hs as (-> & Hle & Hr). split; [|done].
    apply Forall_cons in Hl as [_ [Hn _]%Forall_cons]. cbn [length] in Hle.
    replace (Z.to_nat (1 + 1 + n + 2)) with (S (S (Z.to_nat n + 2))) by (unfold is_byte in Hn; lia).
    change (whole (AtypDomainName :: n :: take (Z.to_nat n + 2) rest)).
    apply whole_domain; [done|]. rewrite length_take. unfold is_byte in Hn. lia.
  - destruct (Z.eqb_spec t AtypIPv4) as [->|]; [|destruct (Z.eqb_spec t AtypIPv6) as [->|]; [|done]].
    all: cbn [mbind option_bind] in Hs; apply Ht in Hs as (-> & Hle & Hr); split; [|done]; cbn [length] in Hle.
    + apply whole_v4. change (length (take 6 rest) = 6). rewrite length_take. lia.
    + apply whole_v6. change (length (take 18 rest) = 18). rewrite length_take. lia.
Qed.

Lemma AsSlice_length a : length (AsSlice a) = match a with NoAddr => 0 | Addr4 _ => 4 | Addr6 _ _ => 16 end.
Proof. destruct a; [done|apply be_bytes_length..]. Qed.

Lemma domain_whole host port : length host ≤ 255 → length port = 2 → whole (domain_addr host port).
Proof.
  intros Hh Hp. unfold domain_addr. rewrite (@wrap_id uint8) by int_lia.
  apply whole_domain; [unfold is_byte; lia|]. rewrite length_app, Hp, Nat2Z.id. done.
Qed.

Lemma ip_whole a port : IsValid a = true → length port = 2 → whole ((if Is4 a then AtypIPv4 else AtypIPv6) :: AsSlice a ++ port).
Proof.
  intros Hv Hp. destruct a as [|v|v z]; [done| |]; cbn [Is4]; [apply whole_v4|apply whole_v6]; by rewrite length_app, AsSlice_length, Hp.
Qed.

Lemma ParseAddr_whole s a : ParseAddr s = Some a → whole a.
Proof.
  unfold ParseAddr. destruct (SplitHostPort s) as [[host port]|]; cbn [mbind option_bind]; [|done].
  destruct (parse_ip host) as [ip|] eqn:Hip; cbn [mbind option_bind].
  - destruct (ParseUint port) as [n|]; cbn [mbind option_bind]; [|done]. case_match; [|done]. intros [= <-].
    apply (ip_whole ip (be_bytes 2 n)); [|done].
    unfold parse_ip in Hip. destruct (Netip.ParseAddr host) as [a0|] eqn:Hp; simpl in Hip; [|done].
    case_bool_decide; [|done]. injection Hip as <-. rewrite Unmap_valid. by eapply ParseAddr_valid.
  - destruct (Nat.ltb_spec 255 (length (str_bytes host))); cbn [mbind option_bind]; [done|].
    destruct (ParseUint port) as [n|]; cbn [mbind option_bind]; [|done]. case_match; [|done]. intros [= <-].
    apply domain_whole; [lia|done].
Qed.

Lemma To4_length ip ip4 : To4 ip = Some ip4 → length ip4 = 4.
Proof.
  unfold To4. destruct (Nat.eqb_spec (length ip) 4); [by intros [= <-]|].
  destruct (Nat.eqb_spec (length ip) 16) as [Hl|]; simpl; [|done]. case_bool_decide; [|done].
  intros [= <-]. rewrite length_drop. lia.
Qed.

Lemma padded_length (l : list Z) : length (take 16 (l ++ replicate 16 0%Z)) = 16.
Proof. rewrite length_take, length_app, length_replicate. lia. Qed.

Lemma ParseAddrToSocksAddr_whole addr a : ParseAddrToSocksAddr addr = Some a → whole a.
Proof.
  destruct addr as [|ip port zone|s]; simpl; [done| |apply ParseAddr_whole].
  destruct ip as [|b ip]; [apply ParseAddr_whole|]. intros [= <-].
  destruct (To4 (b :: ip)) as [ip4|] eqn:H4.
  - apply (whole_v4 (ip4 ++ be_bytes 2 _)). by rewrite length_app, (To4_length _ _ H4).
  - apply (whole_v6 (take 16 ((b :: ip) ++ replicate 16 0%Z) ++ be_bytes 2 _)). by rewrite length_app, padded_length.
Qed.

Lemma AddrFromStdAddrPort_whole a port : whole (AddrFromStdAddrPort a port).
Proof.
  unfold AddrFromStdAddrPort. destruct a as [|v|v z]; cbn [Is4]; [apply whole_v6|apply whole_v4|apply whole_v6];
    rewrite length_app, be_bytes_length; [by rewrite padded_length|by rewrite AsSlice_length|by rewrite padded_length].
Qed.

Lemma to_string_str_bytes s : to_string (str_bytes s) = s.
Proof. unfold to_string, str_bytes. by rewrite map_char_of, of_bytes_bytes. Qed.

Lemma str_bytes_length s : length (str_bytes s) = String.length s.
Proof. unfold str_bytes. by rewrite length_map, bytes_length. Qed.

(** ** Reading from a stream *)

Lemma consume_recv {A} n (k : list Z → io A) l :
  consume (recv n k) l = if (n <=? length l)%nat then consume (k (take n l)) (drop n l) else (inl EOF, l, []).
Proof. done. Qed.

Lemma consume_send {A} bs (k : io A) l : consume (send bs k) l = (let '(r, l', out) := consume k l in (r, l', bs ++ out)).
Proof. done. Qed.

Lemma consume_recv_app {A} n (k : list Z → io A) a l : length a = n → consume (recv n k) (a ++ l) = consume (k a) l.
Proof.
  intros Hn. rewrite consume_recv, leb_correct by (rewrite length_app; lia). by rewrite take_app_length', drop_app_length'.
Qed.

Lemma consume_byte {A} (k : list Z → io A) l :
  consume (recv 1 k) l = match l with [] => (inl EOF, [], []) | b :: l' => consume (k [b]) l' end.
Proof. by destruct l. Qed.

Lemma consume_read_byte {A} (f : Z → io A) l :
  consume (try_then ReadByte f) l = match l with [] => (inl EOF, [], []) | b :: l' => consume (f b) l' end.
Proof. by destruct l. Qed.

(** The two readers on the type of address. *)
Lemma consume_ReadAddr_eq t l :
  consume (ReadAddr MaxAddrLen) (t :: l) =
  consume (if (t =? AtypDomainName)%Z then recv 1 (λ n, recv (Z.to_nat (byte_at n 0) + 2) (λ rest, done ([t] ++ n ++ rest)))
           else if (t =? AtypIPv4)%Z then recv (4 + 2) (λ rest, done ([t] ++ rest))
           else if (t =? AtypIPv6)%Z then recv (16 + 2) (λ rest, done ([t] ++ rest))
           else throw ErrAddressNotSupported) l.
Proof. done. Qed.

Lemma ReadAddr0_ReadAddr l : consume ReadAddr0 l = consume (ReadAddr MaxAddrLen) l.
Proof.
  unfold ReadAddr0. rewrite consume_read_byte. destruct l as [|t l]; [done|]. rewrite consume_ReadAddr_eq.
  destruct (t =? AtypDomainName)%Z; [|done]. rewrite consume_read_byte, consume_byte. by destruct l.
Qed.

Lemma consume_ReadAddr a l : whole a → consume (ReadAddr MaxAddrLen) (a ++ l) = (inr a, l, []).
Proof.
  intros [b Hb|b Hb|n b Hn Hb]; cbn [app]; rewrite consume_ReadAddr_eq; simpl Z.eqb; cbv iota.
  - by rewrite consume_recv_app.
  - by rewrite consume_recv_app.
  - rewrite consume_byte. by rewrite consume_recv_app.
Qed.

(** Where there is no whole address the reader fails. *)
Lemma consume_ReadAddr_none l : Forall is_byte l → SplitAddr l = None → ∃ e rest, consume (ReadAddr MaxAddrLen) l = (inl e, rest, []).
Proof.
  assert (∀ {A} n (k : list Z → io A) l, length l < n → ∃ e rest, consume (recv n k) l = (inl e, rest, [])) as Hshort.
  { intros A n k l' Hn. rewrite consume_recv, leb_correct_conv by done. eauto. }
  assert (∀ (l : list Z) n, (if (Z.of_nat (length l) <? n)%Z then None else Some (take (Z.to_nat n) l)) = None → (Z.of_nat (length l) < n)%Z) as Hlen.
  { intros l' n. by destruct (Z.ltb_spec (Z.of_nat (length l')) n). }
  intros Hl Hs. destruct l as [|t l]; [simpl; eauto|]. rewrite consume_ReadAddr_eq. unfold SplitAddr in Hs.
  destruct (t =? AtypDomainName)%Z; [|destruct (t =? AtypIPv4)%Z; [|destruct (t =? AtypIPv6)%Z; [|simpl; eauto]]].
  - rewrite consume_byte. destruct l as [|n l]; [eauto|]. cbn [mbind option_bind] in Hs. apply Hlen in Hs. cbn [length] in Hs.
    apply Forall_cons in Hl as [_ [Hn _]%Forall_cons]. unfold is_byte in Hn. apply Hshort. change (byte_at [n] 0) with n. lia.
  - cbn [mbind option_bind] in Hs. apply Hlen in Hs. cbn [length] in Hs. apply Hshort. lia.
  - cbn [mbind option_bind] in Hs. apply Hlen in Hs. cbn [length] in Hs. apply Hshort. lia.
Qed.

(** ** The handshake *)

(** Reading in the middle of a program. *)
Lemma reads_recv_app {A} n (k : list Z → io A) a b p : length a = n → reads (k a) b p → reads (recv n k) (a ++ b) p.
Proof. intros Hn Hk. by apply (reads_recv n). Qed.

Lemma reads_recv {A} n (k : list Z → io A) a p : length a = n → k a = p → reads (recv n k) a p.
Proof. intros Hn <-. rewrite <- (app_nil_r a) at 1. apply reads_recv_app; [done|constructor]. Qed.

Lemma reads_try {A B} (p : io A) (f : A → io B) a b q : reads p a (done b) → f b = q → reads (try_then p f) a q.
Proof. intros Hp <-. exact (reads_and_then _ _ _ _ Hp). Qed.

Lemma reads_ReadAddr a : whole a → reads (ReadAddr MaxAddrLen) a (done a).
Proof.
  unfold ReadAddr. simpl Z.ltb. intros [b Hb|b Hb|n b Hn Hb].
  - apply (reads_recv_app 1 _ [AtypIPv4] b); [done|]. by apply reads_recv.
  - apply (reads_recv_app 1 _ [AtypIPv6] b); [done|]. by apply reads_recv.
  - apply (reads_recv_app 1 _ [AtypDomainName] (n :: b)); [done|]. apply (reads_recv_app 1 _ [n] b); [done|]. by apply reads_recv.
Qed.

(** A name or password whose length a byte holds. *)
Definition fits (s : string) : Prop := String.length s ≤ 255.

Definition user_fits (u : User) : Prop := fits (Username u) ∧ fits (Password u).

Definition len_byte (s : string) : Z := @wrap uint8 (Z.of_nat (length (str_bytes s))).

Lemma len_byte_fits s : fits s → len_byte s = Z.of_nat (String.length s).
Proof. unfold fits, len_byte. intros Hs. rewrite str_bytes_length. apply (@wrap_id uint8). int_lia. Qed.

(** What the server says to a user. *)
Definition admits (au : Authenticator) (u : User) : bool :=
  negb (bool_decide (Username u = "")) && negb (bool_decide (Password u = "")) && Verify au (Username u) (Password u).

Lemma reads_check_user au u :
  user_fits u → ∃ m rest, authMsg u = m ++ rest ∧
  reads (check_user au) m (if admits au u then send [1; 0]%Z (done (Username u)) else reject) ∧
  (admits au u = true → rest = []).
Proof.
  intros [Hu Hp]. unfold admits, check_user, authMsg. fold (len_byte (Username u)) (len_byte (Password u)).
  assert (∀ s, fits s → (len_byte s <=? 0)%Z = bool_decide (s = ""%string)) as Hempty.
  { intros s Hs. rewrite len_byte_fits by done. by destruct s. }
  assert (∀ s, fits s → length (str_bytes s) = Z.to_nat (len_byte s)) as Hlen.
  { intros s Hs. rewrite len_byte_fits, Nat2Z.id by done. apply str_bytes_length. }
  assert (∀ s, byte_at [len_byte s] 0 = len_byte s ∧ byte_at [1%Z; len_byte s] 1 = len_byte s) as Hbyte by done.
  destruct (bool_decide (Username u = "")) eqn:Heu; cbn [negb andb].
  - exists [1; len_byte (Username u)]%Z. eexists. split; [done|]. split; [|done].
    apply reads_recv; [done|]. cbv zeta. rewrite (proj2 (Hbyte _)), Hempty, Heu by done. done.
  - destruct (bool_decide (Password u = "")) eqn:Hep; cbn [negb andb].
    + exists ([1; len_byte (Username u)]%Z ++ str_bytes (Username u) ++ [len_byte (Password u)]). eexists.
      split; [by rewrite <- !app_assoc|]. split; [|done].
      apply reads_recv_app; [done|]. cbv zeta. rewrite (proj2 (Hbyte _)), Hempty, Heu by done. apply reads_recv_app; [by apply Hlen|].
      apply reads_recv; [done|]. cbv zeta. rewrite (proj1 (Hbyte _)), Hempty, Hep by done. done.
    + eexists. exists []. split; [by rewrite app_nil_r|]. split; [|done].
      apply reads_recv_app; [done|]. cbv zeta. rewrite (proj2 (Hbyte _)), Hempty, Heu by done. apply reads_recv_app; [by apply Hlen|].
      apply reads_recv_app; [done|]. cbv zeta. rewrite (proj1 (Hbyte _)), Hempty, Hep by done.
      apply reads_recv; [by apply Hlen|]. by rewrite !to_string_str_bytes.
Qed.

(** What the two ends of a handshake have at its end.  A client without a user
    is refused where one is needed; one with a user is asked for it even where
    nobody checks it, and refused when the name or the password is empty. *)
Definition granted (bnd : option (list Z)) (addr : list Z) (command : Z) (name : string) :
    (socks_error + list Z) * (socks_error + (list Z * Z * string)) :=
  if (command =? CmdConnect)%Z || (command =? CmdUDPAssociate)%Z then
    match bnd with
    | Some b => (inr b, inr (addr, command, name))
    | None => (inl EOF, inl ErrAddressNotSupported)
    end
  else (inl EOF, inl ErrCommandNotSupported).

Definition handshake_spec (au : option Authenticator) (local : net_addr) (addr : list Z) (command : Z) (user : option User) :
    (socks_error + list Z) * (socks_error + (list Z * Z * string)) :=
  match user with
  | None => if au then (inl ErrAuth, inl EOF) else granted (ParseAddrToSocksAddr local) addr command ""
  | Some u =>
    if admits (default AlwaysValid au) u then granted (ParseAddrToSocksAddr local) addr command (Username u)
    else (inl ErrRejected, inl ErrAuth)
  end.

(** The request when both ends have come to it: either both end well without
    having looked for the end of the stream, or both fail. *)
Lemma request_run addr command local name :
  whole addr →
  let s := granted (ParseAddrToSocksAddr local) addr command name in
  rtc step (mkConfig (request addr command) (serve_request local name) [] []) (mkConfig (Halt s.1) (Halt s.2) [] []) ∧
  (∀ r, s.2 = inr r → rtc eager (mkConfig (request addr command) (serve_request local name) [] []) (mkConfig (Halt s.1) (Halt s.2) [] [])).
Proof.
  intros Ha s.
  set (served := if (command =? CmdConnect)%Z || (command =? CmdUDPAssociate)%Z then
     match ParseAddrToSocksAddr local with
     | None => throw ErrAddressNotSupported
     | Some b => send ([5; 0; 0]%Z ++ b) (done (addr, command, name))
     end
   else throw ErrCommandNotSupported : io (list Z * Z * string)).
  assert (∀ f, rtc eager (mkConfig (recv 3 (λ _, ReadAddr MaxAddrLen)) served [] []) f →
    rtc eager (mkConfig (request addr command) (serve_request local name) [] []) f) as Hsent.
  { intros f Hf. apply run_near_send. cbv iota beta. rewrite app_nil_l, <- (app_nil_r ([5; command; 0]%Z ++ addr)).
    eapply run_far_reads; [|exact Hf]. apply reads_recv_app; [done|]. by apply (reads_try _ _ _ addr); [apply reads_ReadAddr|]. }
  unfold granted in s. unfold served in Hsent. clear served. destruct ((command =? CmdConnect)%Z || (command =? CmdUDPAssociate)%Z).
  2: { split; [|done]. etrans; [apply rtc_eager, Hsent; reflexivity|]. apply run_near_eof; [simpl; lia|done]. }
  destruct (ParseAddrToSocksAddr local) as [b|] eqn:Hb.
  2: { split; [|done]. etrans; [apply rtc_eager, Hsent; reflexivity|]. apply run_near_eof; [simpl; lia|done]. }
  assert (rtc eager (mkConfig (request addr command) (serve_request local name) [] []) (mkConfig (Halt s.1) (Halt s.2) [] [])) as Hr.
  { apply Hsent, run_far_send. cbv iota beta. rewrite app_nil_l, <- (app_nil_r ([5; 0; 0]%Z ++ b)).
    eapply run_near_reads; [|done]. apply reads_recv_app; [done|].
    by apply reads_ReadAddr, (ParseAddrToSocksAddr_whole local). }
  split; [by apply rtc_eager|done].
Qed.

(** The greeting. *)
Lemma reads_greeting au local m :
  reads (ServerHandshake au local) [5; 1; m]%Z
    (try_then (match (if (m =? 2)%Z && bool_decide (au = None) then Some AlwaysValid else au) with
               | Some au => send [5; 2]%Z (check_user au)
               | None => send [5; 0]%Z (done ""%string)
               end) (serve_request local)).
Proof. apply (reads_recv_app 2 _ [5; 1]%Z [m]); [done|]. by apply reads_recv. Qed.

(** One run of the handshake to its end; without looking for the end of the
    stream when it succeeds. *)
Lemma handshake_run au local addr command user :
  whole addr → (∀ u, user = Some u → user_fits u) →
  let s := handshake_spec au local addr command user in
  let c := start (ClientHandshake addr command user) (ServerHandshake au local) in
  (∃ u v, rtc step c (mkConfig (Halt s.1) (Halt s.2) u v)) ∧
  (∀ r, s.2 = inr r → rtc step c (mkConfig (Halt s.1) (Halt s.2) [] []) ∧ rtc eager c (mkConfig (Halt s.1) (Halt s.2) [] [])).
Proof.
  intros Ha Hu s c.
  assert (∀ name f, f = mkConfig (request addr command) (serve_request local name) [] [] → rtc eager c f →
    s = granted (ParseAddrToSocksAddr local) addr command name →
    (∃ u v, rtc step c (mkConfig (Halt s.1) (Halt s.2) u v)) ∧
    (∀ r, s.2 = inr r → rtc step c (mkConfig (Halt s.1) (Halt s.2) [] []) ∧ rtc eager c (mkConfig (Halt s.1) (Halt s.2) [] []))) as Hreq.
  { intros name f -> Hc ->. destruct (request_run addr command local name Ha) as [Hs He]. split.
    - exists [], []. etrans; [by apply rtc_eager|done].
    - intros r Hr. specialize (He r Hr). assert (rtc eager c (mkConfig (Halt (granted (ParseAddrToSocksAddr local) addr command name).1)
        (Halt (granted (ParseAddrToSocksAddr local) addr command name).2) [] [])) as Hg by by etrans.
      split; [by apply rtc_eager|done]. }
  unfold handshake_spec in s. destruct user as [u|].
  - set (a := default AlwaysValid au) in *.
    destruct (reads_check_user a u (Hu u eq_refl)) as (m & rest & Hm & Hc & Hrest).
    assert (∀ f, rtc eager (mkConfig (recv 2 (λ buf, if negb (byte_at buf 1 =? 0)%Z then throw ErrRejected else request addr command))
        (try_then (if admits a u then send [1; 0]%Z (done (Username u)) else reject) (serve_request local)) rest []) f → rtc eager c f) as Hauth.
    { intros f Hf. apply run_near_send. cbv iota beta. rewrite app_nil_l, <- (app_nil_r [5; 1; 2]%Z).
      eapply run_far_reads; [apply reads_greeting|].
      replace (if (2 =? 2)%Z && bool_decide (au = None) then Some AlwaysValid else au) with (Some a)
        by (unfold a; by destruct au; [rewrite bool_decide_false by done|]).
      apply run_far_send. cbn [and_then]. cbv iota beta. rewrite app_nil_l, <- (app_nil_r [5; 2]%Z).
      eapply run_near_reads; [by apply reads_recv|]. apply run_near_send. cbv iota beta. rewrite app_nil_l, Hm.
      eapply run_far_reads; [by apply reads_and_then|exact Hf]. }
    destruct (admits a u) eqn:Had.
    + apply (Hreq (Username u) _ eq_refl); [|by unfold s; rewrite ?Had]. apply Hauth. rewrite Hrest by done.
      apply run_far_send. cbn [and_then]. cbv iota beta. rewrite app_nil_l, <- (app_nil_r [1; 0]%Z).
      eapply run_near_reads; [by apply reads_recv|done].
    + unfold s. rewrite ?Had. split; [|done]. exists rest, []. apply rtc_eager, Hauth. apply run_far_send. cbn [and_then]. cbv iota beta.
      rewrite app_nil_l, <- (app_nil_r [1; 1]%Z). eapply run_near_reads; [by apply reads_recv|done].
  - assert (∀ p f, reads (ServerHandshake au local) [5; 1; 0]%Z p →
      rtc eager (mkConfig (recv 2 (λ buf, if negb (byte_at buf 0 =? 5)%Z then throw ErrVersion
        else if (byte_at buf 1 =? 2)%Z then throw ErrAuth
        else if negb (byte_at buf 1 =? 0)%Z then throw ErrNeedAuth else request addr command)) p [] []) f → rtc eager c f) as Hopen.
    { intros p f Hp Hf. apply run_near_send. cbv iota beta. rewrite app_nil_l, <- (app_nil_r [5; 1; 0]%Z).
      by eapply run_far_reads. }
    pose proof (reads_greeting au local 0%Z) as Hg. simpl in Hg. destruct au as [a|].
    + split; [|done]. exists [], []. etrans; [apply rtc_eager, (Hopen _ _ Hg), run_far_send; cbn [and_then]; cbv iota beta;
        rewrite app_nil_l, <- (app_nil_r [5; 2]%Z); eapply run_near_reads; [by apply reads_recv|reflexivity]|].
      apply (run_far_eof 2); [simpl; lia|done].
    + apply (Hreq ""%string _ eq_refl); [|done]. apply (Hopen _ _ Hg), run_far_send. cbn [and_then]. cbv iota beta.
      rewrite app_nil_l, <- (app_nil_r [5; 0]%Z). eapply run_near_reads; [by apply reads_recv|done].
Qed.

(** Both ends give up at the first error. *)
Definition failed {A} (r : socks_error + A) : Prop := ∃ e, r = inl e.

Lemma strict_recv {A} n (k : list Z → io A) : (∀ b, strict failed (k b)) → strict failed (recv n k).
Proof. intros Hk. split; [|done]. eexists. split; [done|]. by eexists. Qed.

Lemma strict_send {A} bs (k : io A) : strict failed k → strict failed (send bs k).
Proof. intros Hk. split; [|done]. eexists. split; [done|]. by eexists. Qed.

Lemma strict_reject {A} : strict failed (@reject A).
Proof. split; [|done]. eexists. split; [done|]. by eexists. Qed.

Lemma strict_try {A B} (p : io A) (f : A → io B) : strict failed p → (∀ a, strict failed (f a)) → strict failed (try_then p f).
Proof.
  intros Hp Hf. apply (strict_and_then failed); [|by intros [e|a]|done].
  intros ? [e ->]. eexists. split; [done|]. by eexists.
Qed.

(** By the shape of the program. *)
Ltac strict_tac :=
  repeat match goal with
  | |- ∀ _, _ => intros
  | |- strict _ (recv _ _) => apply strict_recv
  | |- strict _ (send _ _) => apply strict_send
  | |- strict _ reject => apply strict_reject
  | |- strict _ (try_then _ _) => apply strict_try
  | |- strict _ (done _) => exact I
  | |- strict _ (throw _) => exact I
  | |- strict _ (if ?b then _ else _) => destruct b
  | |- strict _ (match ?x with _ => _ end) => destruct x
  | |- strict _ _ => progress (cbv zeta; cbv beta)
  end.

Lemma strict_ReadAddr n : strict failed (ReadAddr n).
Proof. unfold ReadAddr. strict_tac. Qed.

Lemma strict_check_user au : strict failed (check_user au).
Proof. unfold check_user. strict_tac. Qed.

Lemma strict_ServerHandshake au local : strict failed (ServerHandshake au local).
Proof.
  unfold ServerHandshake, serve_request.
  strict_tac; [apply strict_check_user|apply strict_ReadAddr].
Qed.

Lemma strict_ClientHandshake addr command user : strict failed (ClientHandshake addr command user).
Proof. unfold ClientHandshake, request. strict_tac; apply strict_ReadAddr. Qed.

(** Only a verified user gets through, with a command the server knows. *)
Lemma server_ensures au local :
  ensures (λ r, ∀ addr command name, r = inr (addr, command, name) →
    (command = CmdConnect ∨ command = CmdUDPAssociate) ∧ (∀ a, au = Some a → ∃ pass, Verify a name pass = true))
    (ServerHandshake au local).
Proof.
  intros [buf|]; [|by intros ???]. intros [buf'|]; [|by intros ???].
  set (au' := if _ : bool then _ else au).
  assert (∀ a, au = Some a → au' = Some a) as Hau.
  { intros a ->. unfold au'. by rewrite (bool_decide_false (Some a = None)), andb_false_r. }
  apply ensures_and_then.
  assert (ensures (λ r, ∀ name, r = inr name → ∀ a, au' = Some a → ∃ pass, Verify a name pass = true)
    (match au' with Some au => send [5; 2]%Z (check_user au) | None => send [5; 0]%Z (done ""%string) end)) as Hc.
  { destruct au' as [a|]; intros [|]; [|by intros ?|by intros ???|by intros ?].
    unfold check_user. intros [h|]; [|by intros ?]. cbv zeta. destruct (_ <=? 0)%Z; [by intros ???|].
    intros [u|]; [|by intros ?]. intros [h'|]; [|by intros ?]. cbv zeta. destruct (_ <=? 0)%Z; [by intros ???|].
    intros [p|]; [|by intros ?]. cbv zeta. destruct (Verify a (to_string u) (to_string p)) eqn:Hv; [|by intros ???].
    intros [|]; [|by intros ?]. intros name [= <-] a' [= <-]. eauto. }
  revert Hc. apply ensures_mono. intros [e|name] Hn; [by intros ???|].
  intros [b|]; [|by intros ???]. cbv zeta. apply ensures_and_then.
  apply ensures_any. intros [e|addr]; [by intros ???|].
  destruct ((byte_at b 1 =? CmdConnect)%Z || (byte_at b 1 =? CmdUDPAssociate)%Z) eqn:Hcmd; [|by intros ???].
  destruct (ParseAddrToSocksAddr local) as [l|]; [|by intros ???]. intros [|]; [|by intros ???].
  intros addr' command name' [= <- <- <-]. split; [|intros a Ha; by eapply Hn, Hau].
  apply orb_true_iff in Hcmd as [Hcmd|Hcmd]; apply Z.eqb_eq in Hcmd; auto.
Qed.

(** From one run of two programs that give up at errors to every run. *)
Lemma agreement {A B} (p : io A) (q : io B) (s : (socks_error + A) * (socks_error + B)) :
  (∃ u v, rtc step (start p q) (mkConfig (Halt s.1) (Halt s.2) u v)) →
  (∀ r, s.2 = inr r → rtc step (start p q) (mkConfig (Halt s.1) (Halt s.2) [] []) ∧ rtc eager (start p q) (mkConfig (Halt s.1) (Halt s.2) [] [])) →
  strict failed p → strict failed q →
  (∃ u v, settles (start p q) (mkConfig (Halt s.1) (Halt s.2) u v) ∧ ((∃ r, s.2 = inr r) → u = [] ∧ v = [])) ∧
  ∀ c', rtc faulty (start p q) c' →
    (∀ a, near c' = Halt (inr a) → s.1 = inr a) ∧ (∀ r, far c' = Halt (inr r) → s.2 = inr r).
Proof.
  destruct s as [s1 s2]. simpl. intros (u & v & Hr) Hok Hp Hq. split.
  - destruct s2 as [e|r].
    + exists u, v. split; [by apply settles_run; [|apply stuck_halted]|]. by intros [? [=]].
    + exists [], []. split; [|done]. destruct (Hok r eq_refl) as [Hr' _]. by apply settles_run; [|apply stuck_halted].
  - intros c' Hc'. destruct (settles_faulty failed failed _ _ c' Hr (stuck_halted _ _ _ _) Hp Hq Hc') as [Hn Hf]. simpl in Hn, Hf.
    split; intros r Hx; [destruct (Hn _ Hx) as [[e [=]]|[= Heq]]|destruct (Hf _ Hx) as [[e [=]]|[= Heq]]]; done.
Qed.

(** ** Theorems *)

(** C15: However the actions of a client and a server interleave, their handshake
    ends, and both have what [handshake_spec] says: the client the address the
    server answers with and the server the client's address, command and name, or
    each its error.  When it succeeds nothing is left in the connection.  And
    whatever breaks at whatever moment, an end that succeeds has that result. *)
Theorem handshake_agrees (au : option Authenticator) (local : net_addr) (addr : list Z) (command : Z) (user : option User) :
  whole addr → (∀ u, user = Some u → user_fits u) →
  let s := handshake_spec au local addr command user in
  let c := start (ClientHandshake addr command user) (ServerHandshake au local) in
  (∃ u v, settles c (mkConfig (Halt s.1) (Halt s.2) u v) ∧ ((∃ r, s.2 = inr r) → u = [] ∧ v = [])) ∧
  ∀ c', rtc faulty c c' →
    (∀ b, near c' = Halt (inr b) → s.1 = inr b) ∧ (∀ r, far c' = Halt (inr r) → s.2 = inr r).
Proof.
  intros Ha Hu s c. destruct (handshake_run au local addr command user Ha Hu) as [Hr Hok].
  by apply agreement; [| |apply strict_ClientHandshake|apply strict_ServerHandshake].
Qed.

Definition alice : User := mkUser "alice" "secret".

Definition example_target : list Z := domain_addr (str_bytes "example.com") (be_bytes 2 443).

Definition example_local : net_addr := IPAddr [127; 0; 0; 1]%Z 7890 "".

Lemma handshake_agrees_witness :
  let c := start (ClientHandshake example_target CmdConnect (Some alice))
             (ServerHandshake (NewAuthenticator [mkAuthUser "alice" "secret"]) example_local) in
  settles c (mkConfig (Halt (inr (AtypIPv4 :: [127; 0; 0; 1] ++ [30; 210])%Z)) (Halt (inr (example_target, CmdConnect, "alice"%string))) [] []).
Proof.
  assert (handshake_spec (NewAuthenticator [mkAuthUser "alice" "secret"]) example_local example_target CmdConnect (Some alice) =
    (inr (AtypIPv4 :: [127; 0; 0; 1] ++ [30; 210])%Z, inr (example_target, CmdConnect, "alice"%string))) as Hs by (vm_compute; reflexivity).
  destruct (handshake_agrees (NewAuthenticator [mkAuthUser "alice" "secret"]) example_local example_target CmdConnect (Some alice))
    as [(u & v & Hset & Huv) _].
  - apply domain_whole; [vm_compute; lia|done].
  - intros ? [= <-]. split; vm_compute; lia.
  - rewrite Hs in Hset, Huv. destruct Huv as [-> ->]; [by eexists|]. exact Hset.
Defined.

(** A server that has an authenticator lets through only a name that it
    verifies with some password, and a server lets through only the two commands
    it serves: against any program at the other end, and whatever breaks. *)
Theorem server_verifies {A} (au : option Authenticator) (local : net_addr) (client : proc A)
    (c' : config A (socks_error + (list Z * Z * string))) (addr : list Z) (command : Z) (name : string) :
  rtc faulty (start client (ServerHandshake au local)) c' → far c' = Halt (inr (addr, command, name)) →
  (command = CmdConnect ∨ command = CmdUDPAssociate) ∧ (∀ a, au = Some a → ∃ pass, Verify a name pass = true).
Proof.
  intros Hr Hf. pose proof (ensures_far _ _ _ (server_ensures au local : ensures _ (far (start client _))) Hr) as He.
  rewrite Hf in He. by apply (He addr command name).
Qed.

Lemma server_verifies_witness : ∃ pass, Verify (InMemory {["alice"%string := "secret"%string]} ["alice"%string]) "alice" pass = true.
Proof.
  set (au := InMemory {["alice"%string := "secret"%string]} ["alice"%string]).
  assert (handshake_spec (Some au) example_local example_target CmdConnect (Some alice) =
    (inr (AtypIPv4 :: [127; 0; 0; 1] ++ [30; 210])%Z, inr (example_target, CmdConnect, "alice"%string))) as Hs by (vm_compute; reflexivity).
  destruct (handshake_run (Some au) example_local example_target CmdConnect (Some alice)) as [_ Hr].
  - apply domain_whole; [vm_compute; lia|done].
  - intros ? [= <-]. split; vm_compute; lia.
  - rewrite Hs in Hr. destruct (Hr _ eq_refl) as [Hrun _].
    destruct (server_verifies (Some au) example_local _ _ example_target CmdConnect "alice"
      (rtc_subrel _ _ _ _ faulty_step Hrun) eq_refl) as [_ Hv].
    by apply Hv.
Defined.

(** The readers of addresses from a stream, with and without a buffer, accept
    what the slicer of packets accepts, take exactly the address and leave the
    rest; where there is no whole address they fail. *)
Theorem address_readers_agree (l : list Z) :
  Forall is_byte l →
  match SplitAddr l with
  | Some a => consume (ReadAddr MaxAddrLen) l = (inr a, drop (length a) l, []) ∧ consume ReadAddr0 l = (inr a, drop (length a) l, [])
  | None => ∃ e rest, consume (ReadAddr MaxAddrLen) l = (inl e, rest, []) ∧ consume ReadAddr0 l = (inl e, rest, [])
  end.
Proof.
  intros Hl. destruct (SplitAddr l) as [a|] eqn:Hs.
  - destruct (split_whole l a Hl Hs) as [Ha (rest & ->)]. by rewrite ReadAddr0_ReadAddr, consume_ReadAddr, drop_app_length.
  - destruct (consume_ReadAddr_none l Hl Hs) as (e & rest & He). exists e, rest. by rewrite ReadAddr0_ReadAddr.
Qed.

Lemma address_readers_agree_witness :
  consume ReadAddr0 [1; 1; 2; 3; 4; 0; 80; 7]%Z = (inr [1; 1; 2; 3; 4; 0; 80]%Z, [7%Z], []).
Proof.
  assert (Forall is_byte [1; 1; 2; 3; 4; 0; 80; 7]%Z) as Hb by (repeat constructor; done).
  pose proof (address_readers_agree [1; 1; 2; 3; 4; 0; 80; 7]%Z Hb) as Hx. exact (proj2 Hx).
Defined.

Lemma decode_encode addr payload : whole addr → DecodeUDPPacket ([0; 0; 0]%Z ++ addr ++ payload) = inr (addr, payload).
Proof.
  intros Ha. unfold DecodeUDPPacket. assert (3 ≤ length addr) as Hlen by (destruct Ha; simpl; lia).
  destruct (Nat.ltb_spec (length ([0; 0; 0]%Z ++ addr ++ payload)) 5) as [Hx|_]; [rewrite !length_app in Hx; simpl in Hx; lia|].
  change (take 2 ([0; 0; 0]%Z ++ addr ++ payload)) with [0; 0]%Z. rewrite bool_decide_true by done.
  change (byte_at ([0; 0; 0]%Z ++ addr ++ payload) 2) with 0%Z. cbn [negb Z.eqb].
  change (drop 3 ([0; 0; 0]%Z ++ addr ++ payload)) with (addr ++ payload). rewrite whole_split by done.
  change (drop (3 + length addr) ([0; 0; 0]%Z ++ addr ++ payload)) with (drop (length addr) (addr ++ payload)).
  by rewrite drop_app_length.
Qed.

(** A packet is decoded to the address and the payload it was made from, and
    what decodes is the packet made from what it decodes to; there is no other
    form of it. *)
Theorem udp_packet_codec (addr payload packet : list Z) :
  (whole addr → EncodeUDPPacket (Some addr) payload = inr packet → DecodeUDPPacket packet = inr (addr, payload)) ∧
  (Forall is_byte packet → DecodeUDPPacket packet = inr (addr, payload) →
    whole addr ∧ EncodeUDPPacket (Some addr) payload = inr packet).
Proof.
  split; [intros Ha [= <-]; by apply decode_encode|].
  - intros Hb. unfold DecodeUDPPacket. destruct (Nat.ltb_spec (length packet) 5); [done|].
    case_bool_decide as Ht; [|done]. destruct (Z.eqb_spec (byte_at packet 2) 0) as [Hf|]; [|done]. cbn [negb].
    destruct (SplitAddr (drop 3 packet)) as [a|] eqn:Hs; [|done]. intros [= -> <-].
    destruct (split_whole _ _ (Forall_drop _ _ _ Hb) Hs) as [Ha (rest & Hr)]. split; [done|]. simpl. f_equal.
    destruct packet as [|x [|y [|z packet]]]; [simpl in *; lia..|]. injection Ht as -> ->. unfold byte_at in Hf. simpl in Hf, Hr |- *.
    rewrite drop_0 in Hr. by rewrite Hf, Hr, drop_app_length.
Qed.

Lemma udp_packet_codec_witness :
  DecodeUDPPacket ([0; 0; 0] ++ example_target ++ [1; 2; 3])%Z = inr (example_target, [1; 2; 3]%Z).
Proof.
  apply (udp_packet_codec example_target [1; 2; 3]%Z ([0; 0; 0] ++ example_target ++ [1; 2; 3])%Z); [|done].
  apply domain_whole; [vm_compute; lia|done].
Defined.

(** The client never looks at the second byte of the reply, the server's verdict:
    a refusal is a success to it. *)
Lemma reply_code_ignored addr command rep bnd :
  whole bnd → ∃ out, consume (ClientHandshake addr command None) ([5; 0] ++ [5; rep; 0] ++ bnd)%Z = (inr bnd, [], out).
Proof.
  intros Hb. pose proof (consume_ReadAddr bnd [] Hb) as Hr. rewrite app_nil_r in Hr.
  eexists. unfold ClientHandshake. rewrite consume_send, (consume_recv_app 2 _ [5; 0]%Z) by done.
  change (byte_at [5; 0]%Z 0) with 5%Z. change (byte_at [5; 0]%Z 1) with 0%Z. cbn [Z.eqb Pos.eqb negb].
  unfold request. rewrite consume_send, (consume_recv_app 3 _ [5; rep; 0]%Z), Hr by done. reflexivity.
Qed.

(** A name or password that a byte cannot count is not sent as such: the client
    of a user with a password of 256 bytes is refused by a server that would
    accept anyone. *)
Lemma long_password_refused :
  let u := mkUser "alice" (of_bytes (replicate 256 "a"%char)) in
  let c := start (ClientHandshake example_target CmdConnect (Some u)) (ServerHandshake (Some AlwaysValid) example_local) in
  (consume (ServerHandshake (Some AlwaysValid) example_local) ([5; 1; 2] ++ authMsg u)%Z).1.1 = inl ErrAuth.
Proof. vm_compute. reflexivity. Qed.

(** The fast path for an address of four bytes is the slow one. *)
Lemma fast_path_v4 v port :
  (0 ≤ v < 2 ^ 32)%Z → (0 ≤ port < 65536)%Z →
  ParseAddrToSocksAddr (IPAddr (be_bytes 4 v) port "") = ParseAddr (net_addr_String (IPAddr (be_bytes 4 v) port "")).
Proof.
  intros Hv Hp.
  assert (net_addr_String (IPAddr (be_bytes 4 v) port "") = JoinHostPort (v4_String v) (pretty port)) as ->.
  { unfold net_addr_String. rewrite bool_decide_true by done. change (ip_text (be_bytes 4 v)) with (Addr_String (Addr4 (from_be (be_bytes 4 v)))).
    by rewrite from_be_id. }
  unfold ParseAddr. rewrite SplitHostPort_join; [|apply v4_no_bracket|apply digits_no_bracket; lia]. cbn [mbind option_bind].
  unfold parse_ip. rewrite ParseAddr_v4_String by done. cbn [mbind option_bind addr_zone]. rewrite bool_decide_true by done.
  cbn [mbind option_bind Unmap Is4]. rewrite ParseUint_pretty by lia. cbn [mbind option_bind].
  rewrite (proj2 (Z.ltb_lt port (2 ^ 16))) by (change (2 ^ 16)%Z with 65536%Z; lia).
  change (ParseAddrToSocksAddr (IPAddr (be_bytes 4 v) port "")) with (Some (AtypIPv4 :: be_bytes 4 v ++ be_bytes 2 (@wrap uint16 port))).
  by rewrite (@wrap_id uint16) by int_lia.
Qed.

(** For one with a zone it is not: its text is taken for the name of a host. *)
Lemma zone_slow_path :
  let a := IPAddr (be_bytes 16 (65152 * 2 ^ 112 + 1))%Z 53 "eth0" in
  ParseAddrToSocksAddr a = Some (AtypIPv6 :: be_bytes 16 (65152 * 2 ^ 112 + 1) ++ [0; 53])%Z ∧
  ParseAddr (net_addr_String a) = Some (domain_addr (str_bytes "fe80::1%eth0") [0; 53]%Z).
Proof. split; vm_compute; reflexivity. Qed.
