(* ===== verification/Socks4.v ===== *)
(** * SOCKS4: [transport/socks4/socks4.go]

    The two ends of the handshake, with the names of SOCKS4A, as programs over a
    connection (Dialogue.v).

    The theorem: the two ends agree in every interleaving, and whatever breaks no
    end succeeds with anything else ([handshake4_agrees]). *)

From Stdlib Require Import ZArith Lia Ascii String.
From stdpp Require Import prelude strings gmap list relations pretty.
From S2P Require Import Prelude Netip Metadata Wire Dialogue Socks5.

Open Scope Z_scope.

Definition Version4 : Z := 4.

Definition RequestGranted : Z := 90.

Definition RequestRejected : Z := 91.

Definition RequestIdentdFailed : Z := 92.

Definition RequestIdentdMismatched : Z := 93.

(** 0.0.0.0/24 *)
Definition subnet : Prefix := mkPrefix (Addr4 0) 24.

(** The addresses 0.0.0.x that announce a name. *)
Definition isReservedIP (ip : Addr) : bool := negb (IsUnspecified ip) && PContains subnet ip.

Definition maxLen : nat := 256%nat.

(** With room for [room] more bytes after those of [buf]. *)
Fixpoint read_until_null (room : nat) (buf : list Z) : io (list Z) :=
  recv 1 (λ data,
    if byte_at data 0 =? 0 then done buf
    else match room with
         | O => throw ErrTooLong
         | S room' => read_until_null room' (buf ++ [byte_at data 0])
         end).

Definition readUntilNull : io (list Z) := read_until_null maxLen [].

Definition ServerHandshake4 (authenticator : option Authenticator) : io (string * Z * string) :=
  recv 8 (λ req,
    if negb (byte_at req 0 =? Version4) then throw ErrVersion
    else
      let command := byte_at req 1 in
      if negb (command =? CmdConnect) then throw ErrCommandNotSupported
      else
        let dstIP := Addr4 (from_be (slice req 4 8)) in
        let dstPort := slice req 2 4 in
        try_then readUntilNull (λ userID,
          let user := to_string userID in
          try_then (if isReservedIP dstIP then readUntilNull else done []) (λ target,
            let host := to_string target in
            let port := pretty (from_be dstPort) in
            let addr := if bool_decide (host = "")%string then JoinHostPort (Addr_String dstIP) port
                        else JoinHostPort host port in
            let granted := match authenticator with None => true | Some au => Verify au user "" end in
            Send ([0; if granted then RequestGranted else RequestIdentdMismatched] ++ dstPort ++ AsSlice dstIP)
              (λ ok, if granted then if ok then done (addr, command, user) else throw WriteError
                     else throw ErrRequestIdentdMismatched)))).

(** What the client makes of the address it is given: the address that goes into
    the request, the host that follows it, and the port. *)
Definition client_target (addr : string) : socks_error + (Addr * string * Z) :=
  match SplitHostPort addr with
  | None => inl ErrAddress
  | Some (host, portStr) =>
    match ParseUint portStr with
    | Some port =>
      if port <? 2 ^ 16 then
        match Netip.ParseAddr host with
        | None => inr (Addr4 1, host, port)
        | Some (Addr6 _ _) => inl ErrIPv6NotSupported
        | Some dstIP => inr (dstIP, host, port)
        end
      else inl ErrAddress
    | None => inl ErrAddress
    end
  end.

Definition request4 (command : Z) (dstIP : Addr) (host : string) (port : Z) (userID : string) : list Z :=
  [Version4; command] ++ be_bytes 2 port ++ AsSlice dstIP ++ str_bytes userID ++ [0] ++
  (if isReservedIP dstIP then str_bytes host ++ [0] else []).

Definition ClientHandshake4 (addr : string) (command : Z) (userID : string) : io unit :=
  match client_target addr with
  | inl e => throw e
  | inr (dstIP, host, port) =>
    send (request4 command dstIP host port userID)
      (recv 8 (λ resp,
        if negb (byte_at resp 0 =? 0) then throw ErrVersion
        else
          let code := byte_at resp 1 in
          if code =? RequestGranted then done ()
          else if code =? RequestRejected then throw ErrRequestRejected
          else if code =? RequestIdentdFailed then throw ErrRequestIdentdFailed
          else if code =? RequestIdentdMismatched then throw ErrRequestIdentdMismatched
          else throw ErrRequestUnknownCode))
  end.

Close Scope Z_scope.

(** ** The handshake *)

(** What the server takes for the address: the name, if there is one, or the
    address; and the port. *)
Definition server_target (dstIP : Addr) (host : string) (port : Z) : string :=
  JoinHostPort (if isReservedIP dstIP && negb (bool_decide (host = "")) then host else Addr_String dstIP) (pretty port).

Definition handshake4_spec (au : option Authenticator) (addr : string) (command : Z) (userID : string) :
    (socks_error + unit) * (socks_error + (string * Z * string)) :=
  match client_target addr with
  | inl e => (inl e, inl EOF)
  | inr (dstIP, host, port) =>
    if negb (command =? CmdConnect)%Z then (inl EOF, inl ErrCommandNotSupported)
    else if match au with None => true | Some a => Verify a userID "" end
    then (inr (), inr (server_target dstIP host port, CmdConnect, userID))
    else (inl ErrRequestIdentdMismatched, inl ErrRequestIdentdMismatched)
  end.

(** A string that the request can carry: without a zero byte and not too long. *)
Definition no_null (s : string) : Prop := Forall (λ b, b ≠ 0%Z) (str_bytes s) ∧ String.length s ≤ maxLen.

Lemma reads_until_null room buf l :
  Forall (λ b, b ≠ 0%Z) l → length l ≤ room → reads (read_until_null room buf) (l ++ [0%Z]) (done (buf ++ l)).
Proof.
  intros Hl. revert room buf. induction Hl as [|b l Hb _ IH]; intros room buf Hr.
  - rewrite app_nil_r. destruct room; by apply (reads_recv 1).
  - destruct room as [|room]; simpl in Hr; [lia|]. apply (reads_recv_app 1 _ [b] (l ++ [0%Z])); [done|].
    change (byte_at [b] 0) with b. rewrite (proj2 (Z.eqb_neq b 0)) by done.
    specialize (IH room (buf ++ [b]) ltac:(lia)). by rewrite <- app_assoc in IH.
Qed.

Lemma reads_readUntilNull s : no_null s → reads readUntilNull (str_bytes s ++ [0%Z]) (done (str_bytes s)).
Proof. intros [Hs Hl]. apply (reads_until_null maxLen []); [done|]. by rewrite str_bytes_length. Qed.

Lemma str_bytes_nil s : to_string [] = s ↔ s = ""%string.
Proof. by split. Qed.

(** The target of the request, from the client's four bytes to the server's. *)
Lemma client_target_v4 addr dstIP host port :
  client_target addr = inr (dstIP, host, port) → (∃ v, dstIP = Addr4 v ∧ (0 ≤ v < 2 ^ 32)%Z) ∧ (0 ≤ port < 65536)%Z.
Proof.
  unfold client_target. destruct (SplitHostPort addr) as [[h p]|]; [|done].
  destruct (ParseUint p) as [n|] eqn:Hn; [|done]. apply ParseUint_range in Hn.
  destruct (Z.ltb_spec n (2 ^ 16)) as [Hlt|]; [|done]. change (2 ^ 16)%Z with 65536%Z in Hlt.
  destruct (Netip.ParseAddr h) as [a|] eqn:Ha; [|intros [= <- <- <-]; split; [by eexists|lia]].
  destruct a as [|v|v z]; [by apply ParseAddr_valid in Ha| |done]. intros [= <- <- <-].
  apply ParseAddr_v4_range in Ha. split; [by eexists|lia].
Qed.

(** What the server answers. *)
Definition answer4 (granted : bool) (dstIP : Addr) (port : Z) : list Z :=
  [0%Z; if granted then RequestGranted else RequestIdentdMismatched] ++ be_bytes 2 port ++ AsSlice dstIP.

Definition verified4 (au : option Authenticator) (userID : string) : bool :=
  match au with None => true | Some a => Verify a userID "" end.

Lemma reads_request4 au v host port userID :
  (0 ≤ v < 2 ^ 32)%Z → (0 ≤ port < 65536)%Z → no_null userID → (isReservedIP (Addr4 v) = true → no_null host) →
  reads (ServerHandshake4 au) (request4 CmdConnect (Addr4 v) host port userID)
    (Send (answer4 (verified4 au userID) (Addr4 v) port)
       (λ ok, if verified4 au userID then if ok then done (server_target (Addr4 v) host port, CmdConnect, userID) else throw WriteError
              else throw ErrRequestIdentdMismatched)).
Proof.
  intros Hv Hp Hu Hh. set (req := [Version4; CmdConnect] ++ be_bytes 2 port ++ AsSlice (Addr4 v)).
  assert (from_be (slice req 4 8) = v ∧ slice req 2 4 = be_bytes 2 port ∧ from_be (be_bytes 2 port) = port) as (Hip & Hps & Hpv).
  { change (slice req 4 8) with (be_bytes 4 v). change (slice req 2 4) with (be_bytes 2 port).
    split_and!; [by apply from_be_id|done|by apply from_be_id]. }
  assert (request4 CmdConnect (Addr4 v) host port userID =
    req ++ (str_bytes userID ++ [0%Z]) ++ (if isReservedIP (Addr4 v) then str_bytes host ++ [0%Z] else [])) as ->.
  { unfold request4, req. by rewrite <- !app_assoc. }
  apply reads_recv_app; [done|]. change (byte_at req 0) with 4%Z. change (byte_at req 1) with 1%Z. simpl negb. cbv iota zeta.
  rewrite Hip, Hps, Hpv.
  eapply reads_app; [apply reads_and_then, (reads_readUntilNull userID Hu)|]. cbn [and_then done]. rewrite to_string_str_bytes.
  unfold server_target. destruct (isReservedIP (Addr4 v)) eqn:Hres; cbn [andb].
  - rewrite <- (app_nil_r (str_bytes host ++ [0%Z])).
    eapply reads_app; [apply reads_and_then, (reads_readUntilNull host (Hh eq_refl))|]. cbn [and_then done].
    rewrite to_string_str_bytes. destruct (bool_decide (host = "")); constructor.
  - constructor.
Qed.

Lemma answer4_read granted v port :
  (0 ≤ v < 2 ^ 32)%Z → length (answer4 granted (Addr4 v) port) = 8 ∧ byte_at (answer4 granted (Addr4 v) port) 0 = 0%Z ∧
  byte_at (answer4 granted (Addr4 v) port) 1 = (if granted then RequestGranted else RequestIdentdMismatched).
Proof. done. Qed.

Lemma handshake4_run au addr command userID :
  no_null userID → (∀ ip host port, client_target addr = inr (ip, host, port) → isReservedIP ip = true → no_null host) →
  let s := handshake4_spec au addr command userID in
  let c := start (ClientHandshake4 addr command userID) (ServerHandshake4 au) in
  (∃ u v, rtc step c (mkConfig (Halt s.1) (Halt s.2) u v)) ∧
  (∀ r, s.2 = inr r → rtc step c (mkConfig (Halt s.1) (Halt s.2) [] []) ∧ rtc eager c (mkConfig (Halt s.1) (Halt s.2) [] [])).
Proof.
  intros Hu Hh s c. unfold handshake4_spec in s. unfold ClientHandshake4 in c.
  destruct (client_target addr) as [e|[[ip host] port]] eqn:Hct.
  { split; [|done]. exists [], []. apply (run_far_eof 8); [simpl; lia|done]. }
  destruct (client_target_v4 _ _ _ _ Hct) as [(v & -> & Hv) Hp].
  destruct (Z.eqb_spec command CmdConnect) as [->|Hc]; cbn [negb] in s.
  - fold (verified4 au userID) in s.
    assert (rtc eager c (mkConfig (Halt s.1) (Halt s.2) [] [])) as Hr.
    { apply run_near_send. cbv iota beta. rewrite app_nil_l, <- (app_nil_r (request4 _ _ _ _ _)).
      eapply run_far_reads; [by apply (reads_request4 au v host port userID); [..|apply (Hh _ _ _ eq_refl)]|].
      apply run_far_send. cbv beta. rewrite app_nil_l, <- (app_nil_r (answer4 _ _ _)).
      destruct (answer4_read (verified4 au userID) v port Hv) as (Hl & H0 & H1).
      eapply run_near_reads; [apply reads_recv; [exact Hl|done]|]. rewrite H0, H1.
      subst s. by destruct (verified4 au userID). }
    split; [exists [], []; by apply rtc_eager|]. intros r _. split; [by apply rtc_eager|done].
  - split; [|done]. exists (drop 8 (request4 command (Addr4 v) host port userID)), [].
    etrans; [apply rtc_eager, run_near_send; cbv iota beta; rewrite app_nil_l|].
    + rewrite <- (take_drop 8 (request4 command (Addr4 v) host port userID)) at 1.
      eapply run_far_reads; [|reflexivity]. apply reads_recv; [done|].
      change (byte_at (take 8 (request4 command (Addr4 v) host port userID)) 0) with 4%Z.
      change (byte_at (take 8 (request4 command (Addr4 v) host port userID)) 1) with command. simpl negb. cbv iota zeta.
      rewrite (proj2 (Z.eqb_neq command CmdConnect)) by done. reflexivity.
    + apply run_near_eof; [simpl; lia|done].
Qed.

(** ** Errors and authentication *)

Lemma strict_read_until_null room buf : strict failed (read_until_null room buf).
Proof. revert buf. induction room as [|room IH]; intros buf; cbn [read_until_null]; strict_tac. apply IH. Qed.

Lemma strict_ServerHandshake4 au : strict failed (ServerHandshake4 au).
Proof.
  unfold ServerHandshake4. strict_tac; try apply strict_read_until_null.
  all: split; [by destruct (match au with None => _ | Some _ => _ end); eexists; (split; [done|]); eexists|].
  all: by destruct (match au with None => _ | Some _ => _ end).
Qed.

Lemma strict_ClientHandshake4 addr command userID : strict failed (ClientHandshake4 addr command userID).
Proof. unfold ClientHandshake4. strict_tac. Qed.

Lemma server4_ensures au :
  ensures (λ r, ∀ addr command name, r = inr (addr, command, name) → ∀ a, au = Some a → Verify a name "" = true) (ServerHandshake4 au).
Proof.
  intros [req|]; [|by intros ???]. destruct (negb _); [by intros ???|]. cbv zeta. destruct (negb _); [by intros ???|].
  apply ensures_and_then, ensures_any. intros [e|user]; [by intros ???|].
  apply ensures_and_then, ensures_any. intros [e|target]; [by intros ???|].
  intros ok. destruct (match au with None => _ | Some _ => _ end) eqn:Hg; [|by intros ???].
  destruct ok; [|by intros ???]. intros addr command name [= _ _ <-] a ->. exact Hg.
Qed.

(** ** Theorem *)

(** However the actions interleave, the handshake ends and both ends have what
    [handshake4_spec] says: the server the name the client sent or the address,
    with its port, and the client's name; whatever breaks, an end that succeeds
    has that result. *)
Theorem handshake4_agrees (au : option Authenticator) (addr : string) (command : Z) (userID : string) :
  no_null userID → (∀ ip host port, client_target addr = inr (ip, host, port) → isReservedIP ip = true → no_null host) →
  let s := handshake4_spec au addr command userID in
  let c := start (ClientHandshake4 addr command userID) (ServerHandshake4 au) in
  (∃ u v, settles c (mkConfig (Halt s.1) (Halt s.2) u v) ∧ ((∃ r, s.2 = inr r) → u = [] ∧ v = [])) ∧
  ∀ c', rtc faulty c c' →
    (∀ b, near c' = Halt (inr b) → s.1 = inr b) ∧ (∀ r, far c' = Halt (inr r) → s.2 = inr r).
Proof.
  intros Hu Hh s c. destruct (handshake4_run au addr command userID Hu Hh) as [Hr Hok].
  by apply agreement; [| |apply strict_ClientHandshake4|apply strict_ServerHandshake4].
Qed.

Lemma handshake4_agrees_witness :
  (handshake4_spec None "example.com:443" CmdConnect "me").2 = inr ("example.com:443"%string, CmdConnect, "me"%string) ∧
  ∃ u v, settles (start (ClientHandshake4 "example.com:443" CmdConnect "me") (ServerHandshake4 None))
    (mkConfig (Halt (inr ())) (Halt (inr ("example.com:443"%string, CmdConnect, "me"%string))) u v).
Proof.
  assert (handshake4_spec None "example.com:443" CmdConnect "me" =
    (inr (), inr ("example.com:443"%string, CmdConnect, "me"%string))) as Hs by (vm_compute; reflexivity).
  split; [by rewrite Hs|].
  destruct (handshake4_agrees None "example.com:443" CmdConnect "me") as [(u & v & Hset & _) _].
  - split; [by repeat constructor|vm_compute; lia].
  - assert (client_target "example.com:443" = inr (Addr4 1, "example.com"%string, 443%Z)) as -> by (vm_compute; reflexivity).
    intros ip host port [= _ <- _] _. split; [by repeat constructor|vm_compute; lia].
  - rewrite Hs in Hset. eauto.
Defined.
