(* ===== verification/Socks.v ===== *)
(** * The SOCKS inbound and outbound

    [listener/socks/tcp.go], [udp.go] and [utils.go] with what they use of
    [adapter/inbound]: a connection or packet becomes the metadata that the
    tunnel gets; and the outbound, [adapter/outbound/socks5.go] and
    [serializesSocksAddr] of util.go.  TLS and REALITY, the sockets and the
    accept loop's goroutines are not modelled; the deadline that
    [clientHandshakeContext] puts on the connection is one of the faults of
    Dialogue.v.

    The theorems: the metadata of a request has the target it names, for domains
    of at most 252 bytes ([parse_target]); the code counts in a byte, so one of
    253 bytes has a wrong port and longer ones panic, with a single packet and
    without a handshake ([udp_domain_panics]).  Only verified users reach the
    tunnel ([tunnelled_verified]).  A connection or packet that this program's
    outbound sends to this program's inbound arrives with the destination it had,
    and answers come from where they came from ([socks_chain], [socks4_chain],
    [socks_udp_chain]). *)

From Stdlib Require Import ZArith Lia Ascii String.
From stdpp Require Import prelude strings gmap list relations pretty.
From S2P Require Import Prelude Netip Metadata Wire Dialogue Socks5 Socks4.

(** ** Metadata of a request *)

Open Scope Z_scope.

(** A slice or an index; [None] is a panic. *)
Definition go_slice (b : list Z) (i j : Z) : option (list Z) :=
  if (i <=? j) && (j <=? Z.of_nat (length b)) then Some (slice b (Z.to_nat i) (Z.to_nat j)) else None.

Definition go_index (b : list Z) (i : Z) : option Z := b !! Z.to_nat i.

Definition port_of (hi lo : Z) : Z := @wrap uint16 (Z.lor (Z.shiftl hi 8) lo).

(** [parseSocksAddr]; [None] is a panic.  An index [2+target[1]] is computed in
    a byte; the zero slice stands for nil. *)
Definition parseSocksAddr (target : list Z) : option Metadata :=
  t ← go_index target 0;
  metadata ←
    (if t =? AtypDomainName then
       n ← go_index target 1;
       host ← go_slice target 2 (@wrap uint8 (2 + n));
       hi ← go_index target (@wrap uint8 (2 + n));
       lo ← go_index target (@wrap uint8 (@wrap uint8 (2 + n) + 1));
       Some (set_DstPort (port_of hi lo) (set_Host (TrimRight_dots (to_string host)) zero_metadata))
     else if t =? AtypIPv4 then
       ip ← go_slice target 1 (1 + 4);
       hi ← go_index target (1 + 4);
       lo ← go_index target (1 + 4 + 1);
       Some (set_DstPort (port_of hi lo) (set_DstIP (AddrFromSlice ip) zero_metadata))
     else if t =? AtypIPv6 then
       ip ← go_slice target 1 (1 + 16);
       hi ← go_index target (1 + 16);
       lo ← go_index target (1 + 16 + 1);
       Some (set_DstPort (port_of hi lo) (set_DstIP (AddrFromSlice ip) zero_metadata))
     else Some zero_metadata);
  Some (set_DstIP (Unmap (DstIP metadata)) metadata).

(** [inbound.Addition]: a function that changes the metadata. *)
Definition Addition : Type := Metadata → Metadata.

Definition ApplyAdditions (metadata : Metadata) (additions : list Addition) : Metadata :=
  foldl (λ m addition, addition m) metadata additions.

Definition set_inbound (net : NetWork) (source : InboundType) (m : Metadata) : Metadata :=
  mkMetadata net source (SrcIP m) (DstIP m) (SrcGeoIP m) (DstGeoIP m) (SrcIPASN m) (DstIPASN m)
    (m_SrcPort m) (m_DstPort m) (m_InIP m) (m_InPort m) (m_InName m) (m_InUser m) (Host m) (m_DNSMode m)
    (m_Uid m) (m_Process m) (m_ProcessPath m) (SpecialProxy m) (SpecialRules m) (RemoteDst m) (m_DSCP m) (SniffHost m).

Definition set_src (ip : Addr) (port : Z) (m : Metadata) : Metadata :=
  mkMetadata (m_NetWork m) (m_Type m) ip (DstIP m) (SrcGeoIP m) (DstGeoIP m) (SrcIPASN m) (DstIPASN m)
    port (m_DstPort m) (m_InIP m) (m_InPort m) (m_InName m) (m_InUser m) (Host m) (m_DNSMode m)
    (m_Uid m) (m_Process m) (m_ProcessPath m) (SpecialProxy m) (SpecialRules m) (RemoteDst m) (m_DSCP m) (SniffHost m).

Definition set_in (ip : Addr) (port : Z) (name user : string) (m : Metadata) : Metadata :=
  mkMetadata (m_NetWork m) (m_Type m) (SrcIP m) (DstIP m) (SrcGeoIP m) (DstGeoIP m) (SrcIPASN m) (DstIPASN m)
    (m_SrcPort m) (m_DstPort m) ip port name user (Host m) (m_DNSMode m)
    (m_Uid m) (m_Process m) (m_ProcessPath m) (SpecialProxy m) (SpecialRules m) (RemoteDst m) (m_DSCP m) (SniffHost m).

Definition set_special (proxy rules : string) (dscp : Z) (m : Metadata) : Metadata :=
  mkMetadata (m_NetWork m) (m_Type m) (SrcIP m) (DstIP m) (SrcGeoIP m) (DstGeoIP m) (SrcIPASN m) (DstIPASN m)
    (m_SrcPort m) (m_DstPort m) (m_InIP m) (m_InPort m) (m_InName m) (m_InUser m) (Host m) (m_DNSMode m)
    (m_Uid m) (m_Process m) (m_ProcessPath m) proxy rules (RemoteDst m) dscp (SniffHost m).

Definition WithZone (a : Addr) (zone : string) : Addr := match a with Addr6 v _ => Addr6 v zone | _ => a end.

(** [Metadata.SetRemoteAddr] for the addresses of sockets and those known by
    their text; [None] is an error. *)
Definition SetRemoteAddr (addr : net_addr) (m : Metadata) : option Metadata :=
  match addr with
  | NilAddr => Some m
  | OtherAddr s => SetRemoteAddress s m
  | IPAddr ip port zone =>
    let addrPort := WithZone (AddrFromSlice ip) zone in
    let p := @wrap uint16 port in
    if negb (p =? 0) && IsValid addrPort then Some (set_DstIP (Unmap addrPort) (set_DstPort p m))
    else SetRemoteAddress (net_addr_String addr) (if p =? 0 then m else set_DstPort p m)
  end.

Definition WithInName (name : string) : Addition := λ m, set_in (m_InIP m) (m_InPort m) name (m_InUser m) m.

Definition WithInUser (user : string) : Addition := λ m, set_in (m_InIP m) (m_InPort m) (m_InName m) user m.

Definition WithSpecialRules (specialRules : string) : Addition := λ m, set_special (SpecialProxy m) specialRules (m_DSCP m) m.

Definition WithSpecialProxy (specialProxy : string) : Addition := λ m, set_special specialProxy (SpecialRules m) (m_DSCP m) m.

Definition WithDSCP (dscp : Z) : Addition := λ m, set_special (SpecialProxy m) (SpecialRules m) dscp m.

(** The error is ignored. *)
Definition WithDstAddr (addr : net_addr) : Addition := λ metadata, default metadata (SetRemoteAddr addr metadata).

Definition WithSrcAddr (addr : net_addr) : Addition := λ metadata,
  match SetRemoteAddr addr zero_metadata with
  | Some m => set_src (DstIP m) (m_DstPort m) metadata
  | None => metadata
  end.

Definition WithInAddr (addr : net_addr) : Addition := λ metadata,
  match SetRemoteAddr addr zero_metadata with
  | Some m => set_in (DstIP m) (m_DstPort m) (m_InName metadata) (m_InUser metadata) metadata
  | None => metadata
  end.

(** The metadata of [NewSocket] and of [NewPacket], whose packet has the
    addresses given; [None] is a panic. *)
Definition NewSocket (target : list Z) (RemoteAddr LocalAddr : net_addr) (source : InboundType) (additions : list Addition) : option Metadata :=
  metadata ← parseSocksAddr target;
  Some (ApplyAdditions (ApplyAdditions (set_inbound TCP source metadata) [WithSrcAddr RemoteAddr; WithInAddr LocalAddr]) additions).

Definition NewPacket (target : list Z) (LocalAddr InAddr : net_addr) (source : InboundType) (additions : list Addition) : option Metadata :=
  metadata ← parseSocksAddr target;
  Some (ApplyAdditions (ApplyAdditions (set_inbound UDP source metadata) [WithSrcAddr LocalAddr; WithInAddr InAddr]) additions).

(** ** Who may connect *)

(** The prefixes that the configuration sets. *)
Record lan := mkLan { skipAuthPrefixes : list Prefix; lanAllowedIPs : list Prefix; lanDisAllowedIPs : list Prefix }.

Definition prefixesContains (prefixes : list Prefix) (addr : Addr) : bool :=
  IsValid addr && existsb (λ prefix, PContains prefix (WithoutZone (Unmap addr))) prefixes.

Definition SkipAuthRemoteAddr (l : lan) (addr : net_addr) : bool :=
  match SetRemoteAddr addr zero_metadata with
  | Some m => prefixesContains (skipAuthPrefixes l) (AddrPort m).1
  | None => false
  end.

(** Whether the address is allowed, in spite of the name. *)
Definition IsRemoteAddrDisAllowed (l : lan) (addr : net_addr) : bool :=
  match SetRemoteAddr addr zero_metadata with
  | Some m =>
    let ipAddr := (AddrPort m).1 in
    IsValid ipAddr && (prefixesContains (lanAllowedIPs l) ipAddr && negb (prefixesContains (lanDisAllowedIPs l) ipAddr))
  | None => false
  end.

(** What the accept loop does with a connection: [None] is closed, else the
    authenticator that its handler is given. *)
Definition accept (l : lan) (default_store : bool) (store : option Authenticator) (RemoteAddr : net_addr) : option (option Authenticator) :=
  if default_store then
    if negb (IsRemoteAddrDisAllowed l RemoteAddr) then None
    else Some (if SkipAuthRemoteAddr l RemoteAddr then None else store)
  else Some store.

(** ** The inbound *)

(** How a connection ends with its handler: closed, read to its end and
    discarded, given to the tunnel, or a panic. *)
Inductive handled := Closed | Discarding | Tunnelled (m : Metadata) | Panicked.

Definition to_tunnel (m : option Metadata) : proc handled := Halt (match m with Some m => Tunnelled m | None => Panicked end).

(** What the handlers do after the handshake. *)
Definition after4 (RemoteAddr LocalAddr : net_addr) (additions : list Addition) (r : socks_error + (string * Z * string)) : proc handled :=
  match r with
  | inl _ => Halt Closed
  | inr (addr, _, user) =>
    to_tunnel (NewSocket (default [] (Socks5.ParseAddr addr)) RemoteAddr LocalAddr SOCKS4 (additions ++ [WithInUser user]))
  end.

Definition after5 (RemoteAddr LocalAddr : net_addr) (additions : list Addition) (r : socks_error + (list Z * Z * string)) : proc handled :=
  match r with
  | inl _ => Halt Closed
  | inr (target, command, user) =>
    if command =? CmdUDPAssociate then Halt Discarding
    else to_tunnel (NewSocket target RemoteAddr LocalAddr SOCKS5 (additions ++ [WithInUser user]))
  end.

Definition HandleSocks4 (authenticator : option Authenticator) (RemoteAddr LocalAddr : net_addr) (additions : list Addition) : proc handled :=
  and_then (ServerHandshake4 authenticator) (after4 RemoteAddr LocalAddr additions).

Definition HandleSocks5 (authenticator : option Authenticator) (RemoteAddr LocalAddr : net_addr) (additions : list Addition) : proc handled :=
  and_then (ServerHandshake authenticator LocalAddr) (after5 RemoteAddr LocalAddr additions).

Definition handleSocks (authenticator : option Authenticator) (RemoteAddr LocalAddr : net_addr) (additions : list Addition) : proc handled :=
  Peek 1 (λ o,
    match o with
    | None => Halt Closed
    | Some head =>
      if byte_at head 0 =? Version4 then HandleSocks4 authenticator RemoteAddr LocalAddr additions
      else if byte_at head 0 =? Version then HandleSocks5 authenticator RemoteAddr LocalAddr additions
      else Halt Closed
    end).

(** What becomes of a packet: its buffer is given back, its payload goes to the
    tunnel with metadata, or a panic. *)
Inductive packet_end := Dropped | Packet (payload : list Z) (m : Metadata) | PacketPanic.

Definition handleSocksUDP (InAddr addr : net_addr) (buf : list Z) (additions : list Addition) : packet_end :=
  match DecodeUDPPacket buf with
  | inl _ => Dropped
  | inr (target, payload) =>
    match NewPacket target addr InAddr SOCKS5 additions with Some m => Packet payload m | None => PacketPanic end
  end.

(** [packet.WriteBack]: what is written to the client. *)
Definition WriteBack (b : list Z) (addr : net_addr) : socks_error + list Z := EncodeUDPPacket (ParseAddrToSocksAddr addr) b.

(** ** The outbound *)

Definition serializesSocksAddr (metadata : Metadata) : list Z :=
  let port := be_bytes 2 (m_DstPort metadata) in
  match AddrType metadata with
  | Metadata.AtypDomainName => domain_addr (str_bytes (Host metadata)) port
  | Metadata.AtypIPv4 => AtypIPv4 :: AsSlice (DstIP metadata) ++ port
  | Metadata.AtypIPv6 => AtypIPv6 :: AsSlice (DstIP metadata) ++ port
  end.

(** The options of the proxy that the handshake uses. *)
Record Socks5Out := mkSocks5 { so_user : string; so_pass : string }.

Definition out_user (ss : Socks5Out) : option User :=
  if bool_decide (so_user ss = "")%string then None else Some (mkUser (so_user ss) (so_pass ss)).

(** [StreamConnContext] without TLS. *)
Definition StreamConn (ss : Socks5Out) (metadata : Metadata) : io unit :=
  try_then (ClientHandshake (serializesSocksAddr metadata) CmdConnect (out_user ss)) (λ _, done ()).

(** [net.IP.IsUnspecified]. *)
Definition ip_unspecified (ip : list Z) : bool := IsUnspecified (Unmap (AddrFromSlice ip)).

(** The UDP part of [ListenPacketContext]: the address to send packets to, that
    of the server, [serverIP], in place of an unspecified one. *)
Definition udp_bind (serverIP : list Z) (bindAddr : list Z) : option net_addr :=
  match UDPAddr bindAddr with
  | IPAddr ip port zone => Some (IPAddr (if ip_unspecified ip then serverIP else ip) port zone)
  | _ => None
  end.

Definition udp_associate (ss : Socks5Out) (serverIP : list Z) : io net_addr :=
  try_then (ClientHandshake (AddrFromStdAddrPort (Addr4 0) 0) CmdUDPAssociate (out_user ss)) (λ bindAddr,
    match udp_bind serverIP bindAddr with Some a => done a | None => throw ErrAddress end).

(** [socksPacketConn.WriteTo]: the packet for the server. *)
Definition WriteTo (b : list Z) (addr : net_addr) : socks_error + list Z := EncodeUDPPacket (ParseAddrToSocksAddr addr) b.

(** [socksPacketConn.ReadFrom]: the datagram is read into the buffer, of which
    all is decoded, and the payload is copied to its beginning.  The result: the
    buffer, the number of bytes and the address. *)
Definition ReadFrom (b datagram : list Z) : socks_error + (list Z * Z * net_addr) :=
  let n := Nat.min (length b) (length datagram) in
  let b := take n datagram ++ drop n b in
  match DecodeUDPPacket b with
  | inl e => inl e
  | inr (addr, payload) =>
    match UDPAddr addr with
    | IPAddr ip port zone =>
      inr (payload ++ drop (length payload) b, Z.of_nat n - Z.of_nat (length addr) - 3, IPAddr ip port zone)
    | _ => inl ErrAddress
    end
  end.

Close Scope Z_scope.

(** ** Addresses as bytes *)

Lemma from_be_cons a l : from_be (a :: l) = (a * 256 ^ Z.of_nat (length l) + from_be l)%Z.
Proof. change (a :: l) with ([a] ++ l). rewrite from_be_app. reflexivity. Qed.

Lemma from_be_inj l l' : Forall is_byte l → Forall is_byte l' → length l = length l' → from_be l = from_be l' → l = l'.
Proof.
  intros Hl. revert l'. induction Hl as [|b l Hb Hl IH]; intros [|b' l']; try done.
  intros [Hb' Hl']%Forall_cons [= Hlen]. rewrite !from_be_cons, Hlen. intros Heq.
  pose proof (from_be_range l Hl) as H1. pose proof (from_be_range l' Hl') as H2. rewrite Hlen in H1.
  assert (b = b') as -> by (unfold is_byte in *; nia). f_equal. apply IH; [done..|lia].
Qed.

(** The four bytes of a 4-in-6 address are those of the address it stands for. *)
Lemma Unmap_To4 ip :
  Forall is_byte ip → length ip = 4 ∨ length ip = 16 →
  Unmap (AddrFromSlice ip) = AddrFromSlice (default ip (To4 ip)) ∧ length (default ip (To4 ip)) = (if To4 ip then 4 else 16).
Proof.
  intros Hb Hl. unfold To4. destruct (Nat.eqb_spec (length ip) 4) as [H4|H4]; [unfold AddrFromSlice; cbn; by rewrite H4|].
  destruct Hl as [?|Hl]; [done|]. rewrite Hl. cbn [Nat.eqb andb].
  pose proof (from_be_app (take 12 ip) (drop 12 ip)) as Hsplit. rewrite take_drop in Hsplit.
  assert (length (drop 12 ip) = 4) as Hd by (rewrite length_drop; lia).
  assert (length (take 12 ip) = 12) as Ht by (rewrite length_take; lia).
  pose proof (from_be_range _ (Forall_drop _ 12 _ Hb)) as Hr. rewrite Hd in Hsplit, Hr.
  change (256 ^ Z.of_nat 4)%Z with (2 ^ 32)%Z in *.
  assert (AddrFromSlice ip = Addr6 (from_be ip) "") as Ha by (unfold AddrFromSlice; by rewrite Hl).
  assert ((from_be ip / 2 ^ 32)%Z = from_be (take 12 ip) ∧ (from_be ip mod 2 ^ 32)%Z = from_be (drop 12 ip)) as [Hdiv Hmod].
  { rewrite Hsplit, Z.add_comm, Z.mul_comm. split.
    - rewrite Z.mul_comm, Z.div_add by done. rewrite Z.div_small; lia.
    - rewrite Z.mul_comm, Z.mod_add by done. apply Z.mod_small. lia. }
  rewrite Ha. cbn [Unmap]. rewrite Hdiv, Hmod. case_bool_decide as Hm; cbn [default].
  - rewrite Hm. change (from_be (replicate 10 0%Z ++ [255; 255]%Z) =? 65535)%Z with true. cbv iota. split; [|done]. unfold AddrFromSlice, id. by rewrite (proj2 (Nat.eqb_eq (length (drop 12 ip)) 4) Hd).
  - destruct (Z.eqb_spec (from_be (take 12 ip)) 65535) as [He|He].
    + exfalso. apply Hm, from_be_inj; [by apply Forall_take|repeat constructor; done|by rewrite Ht|by rewrite He].
    + by rewrite Ha.
Qed.

(** ** The target of a request *)

Lemma port_of_value hi lo : is_byte hi → is_byte lo → port_of hi lo = (hi * 256 + lo)%Z.
Proof.
  intros Hh Hl. unfold port_of. rewrite Z.shiftl_mul_pow2 by lia. change (2 ^ 8)%Z with 256%Z.
  assert (Z.lor (hi * 256) lo = (hi * 256 + lo)%Z) as ->; [|unfold is_byte in *; apply (@wrap_id uint16); int_lia].
  rewrite <- (Z.add_lor_land (hi * 256) lo), (Z.land_comm _ lo).
  assert (Z.land lo (hi * 256) = 0)%Z as ->; [|lia].
  change 256%Z with (2 ^ 8)%Z. rewrite <- Z.shiftl_mul_pow2 by lia. apply Z.bits_inj'. intros i Hi.
  rewrite Z.land_spec, Z.bits_0. destruct (Z.ltb_spec i 8).
  - by rewrite Z.shiftl_spec_low, andb_false_r.
  - rewrite (Z.bits_above_log2 lo); [done|unfold is_byte in Hl; lia|]. unfold is_byte in Hl.
    destruct (Z.eq_dec lo 0%Z) as [->|]; [simpl; lia|]. apply Z.log2_lt_pow2; [lia|].
    assert (2 ^ 8 ≤ 2 ^ i)%Z by (apply Z.pow_le_mono_r; lia). lia.
Qed.

Lemma port_bytes p : (0 ≤ p < 65536)%Z → ∃ lo, be_bytes 2 p = [(p / 256)%Z; lo] ∧ is_byte (p / 256) ∧ is_byte lo ∧ p = (p / 256 * 256 + lo)%Z.
Proof.
  intros Hp. exists (p mod 256)%Z. unfold is_byte. assert (0 ≤ p / 256 < 256)%Z as Hd by (split; [apply Z.div_pos; lia|apply Z.div_lt_upper_bound; lia]).
  split; [|split; [done|split; [apply Z.mod_pos_bound; lia|rewrite (Z.div_mod p 256) at 1 by done; lia]]].
  unfold be_bytes. change (2 ^ (8 * Z.of_nat 1))%Z with 256%Z. change (2 ^ (8 * Z.of_nat 0))%Z with 1%Z.
  by rewrite Z.div_1_r, (Z.mod_small (p / 256)).
Qed.

Lemma set_ip_port x y p m : set_DstIP x (set_DstPort p (set_DstIP y m)) = set_DstPort p (set_DstIP x m).
Proof. done. Qed.

Lemma parse_ip4 ip port :
  (0 ≤ port < 65536)%Z → length ip = 4 →
  parseSocksAddr (AtypIPv4 :: ip ++ be_bytes 2 port) = Some (set_DstPort port (set_DstIP (Addr4 (from_be ip)) zero_metadata)).
Proof.
  intros Hp Hl. destruct (port_bytes port Hp) as (lo & Hb & Hhi & Hlo & Hport). rewrite Hb.
  destruct ip as [|a [|b [|c [|d [|]]]]]; try done. 
  change (Some (set_DstIP (Unmap (AddrFromSlice [a; b; c; d])) (set_DstPort (port_of (port / 256) lo) (set_DstIP (AddrFromSlice [a; b; c; d]) zero_metadata))) =
    Some (set_DstPort port (set_DstIP (Addr4 (from_be [a; b; c; d])) zero_metadata))).
  by rewrite set_ip_port, port_of_value, <- Hport.
Qed.

Lemma parse_ip6 ip port :
  (0 ≤ port < 65536)%Z → length ip = 16 →
  parseSocksAddr (AtypIPv6 :: ip ++ be_bytes 2 port) = Some (set_DstPort port (set_DstIP (Unmap (Addr6 (from_be ip) "")) zero_metadata)).
Proof.
  intros Hp Hl. destruct (port_bytes port Hp) as (lo & Hb & Hhi & Hlo & Hport). rewrite Hb.
  assert (AddrFromSlice ip = Addr6 (from_be ip) "") as <- by (unfold AddrFromSlice; by rewrite Hl).
  do 16 (destruct ip as [|? ip]; [done|]). destruct ip; [|done].
  match goal with |- parseSocksAddr (_ :: ?ip ++ _) = _ =>
    change (Some (set_DstIP (Unmap (AddrFromSlice ip)) (set_DstPort (port_of (port / 256) lo) (set_DstIP (AddrFromSlice ip) zero_metadata))) =
      Some (set_DstPort port (set_DstIP (Unmap (AddrFromSlice ip)) zero_metadata))) end.
  by rewrite set_ip_port, port_of_value, <- Hport.
Qed.

Lemma go_slice_name t n host rest : go_slice (t :: n :: host ++ rest) 2 (2 + Z.of_nat (length host)) = Some host.
Proof.
  unfold go_slice. rewrite (proj2 (Z.leb_le _ _)), (proj2 (Z.leb_le _ _)) by (cbn [length]; rewrite ?length_app; lia).
  cbn [andb]. unfold slice. change (drop (Z.to_nat 2) (t :: n :: host ++ rest)) with (host ++ rest).
  replace (Z.to_nat (2 + Z.of_nat (length host)) - Z.to_nat 2) with (length host) by lia. by rewrite take_app_length.
Qed.

Lemma go_index_name t n host (rest : list Z) k : go_index (t :: n :: host ++ rest) (2 + Z.of_nat (length host) + Z.of_nat k) = rest !! k.
Proof.
  unfold go_index. replace (Z.to_nat (2 + Z.of_nat (length host) + Z.of_nat k)) with (S (S (length host + k))) by lia.
  change (S (S (length host + k))) with (2 + (length host + k)). change ((t :: n :: host ++ rest) !! (2 + (length host + k))) with ((host ++ rest) !! (length host + k)).
  rewrite lookup_app_r by lia. f_equal. lia.
Qed.

(** What [parseSocksAddr] finds in a domain of [n] bytes: the index of the byte
    after the port's first is [2 + n + 1] modulo 256. *)
Lemma parse_domain host hi lo :
  length host ≤ 255 →
  parseSocksAddr (domain_addr host [hi; lo]) =
  match Nat.compare (length host) 253 with
  | Lt => Some (set_DstPort (port_of hi lo) (set_Host (TrimRight_dots (to_string host)) zero_metadata))
  | Eq => Some (set_DstPort (port_of hi AtypDomainName) (set_Host (TrimRight_dots (to_string host)) zero_metadata))
  | Gt => None
  end.
Proof.
  intros Hh. unfold domain_addr. rewrite (@wrap_id uint8) by int_lia.
  pose proof (go_index_name AtypDomainName (Z.of_nat (length host)) host [hi; lo] 0) as H0.
  pose proof (go_index_name AtypDomainName (Z.of_nat (length host)) host [hi; lo] 1) as H1.
  pose proof (go_slice_name AtypDomainName (Z.of_nat (length host)) host [hi; lo]) as Hs.
  rewrite Z.add_0_r in H0. change (Z.of_nat 1) with 1%Z in H1. cbn [lookup list_lookup] in H0, H1.
  set (n := Z.of_nat (length host)) in *. set (target := AtypDomainName :: n :: host ++ [hi; lo]) in *.
  unfold parseSocksAddr. change (go_index target 0) with (Some AtypDomainName).
  cbn [mbind option_bind]. rewrite Z.eqb_refl. change (go_index target 1) with (Some n). cbn [mbind option_bind].
  destruct (Nat.compare_spec (length host) 253) as [He|Hlt|Hgt].
  - rewrite (@wrap_id uint8 (2 + n)%Z) by int_lia. rewrite Hs. cbn [mbind option_bind]. rewrite H0. cbn [mbind option_bind].
    replace (@wrap uint8 (2 + n + 1)) with 0%Z by (replace n with 253%Z by lia; done). done.
  - rewrite (@wrap_id uint8 (2 + n)%Z) by int_lia. rewrite (@wrap_id uint8 (2 + n + 1)%Z) by int_lia.
    rewrite Hs. cbn [mbind option_bind]. rewrite H0. cbn [mbind option_bind]. by rewrite H1.
  - assert (n = 254 ∨ n = 255)%Z as Hn by lia.
    assert (go_slice target 2 (@wrap uint8 (2 + n)) = None) as ->; [|done]. unfold go_slice. by destruct Hn as [-> | ->].
Qed.

(** What the inbound makes of the target of a request.  An address gives
    itself, the 4-in-6 form the IPv4 address, and its port.  A domain gives its
    name without trailing dots and the port as long as it has at most 252 bytes;
    the port of one of 253 bytes is wrong, its low byte always 3, and one of 254
    or 255 bytes, or no target at all, makes the program panic. *)
Theorem parse_target (ip host : list Z) (port : Z) :
  (0 ≤ port < 65536)%Z → Forall is_byte ip →
  (length ip = 4 → parseSocksAddr (AtypIPv4 :: ip ++ be_bytes 2 port) =
     Some (set_DstPort port (set_DstIP (Addr4 (from_be ip)) zero_metadata))) ∧
  (length ip = 16 → parseSocksAddr (AtypIPv6 :: ip ++ be_bytes 2 port) =
     Some (set_DstPort port (set_DstIP (Unmap (Addr6 (from_be ip) "")) zero_metadata))) ∧
  (length host ≤ 252 → parseSocksAddr (domain_addr host (be_bytes 2 port)) =
     Some (set_DstPort port (set_Host (TrimRight_dots (to_string host)) zero_metadata))) ∧
  (length host = 253 → parseSocksAddr (domain_addr host (be_bytes 2 port)) =
     Some (set_DstPort (port / 256 * 256 + 3) (set_Host (TrimRight_dots (to_string host)) zero_metadata))) ∧
  (254 ≤ length host ≤ 255 → parseSocksAddr (domain_addr host (be_bytes 2 port)) = None) ∧
  parseSocksAddr [] = None.
Proof.
  intros Hp Hip. split; [by apply parse_ip4|split; [by apply parse_ip6|]].
  destruct (port_bytes port Hp) as (lo & -> & Hhi & Hlo & Hport). split_and!; [..|done].
  - intros Hl. rewrite parse_domain by lia. destruct (Nat.compare_spec (length host) 253); [lia| |lia]. by rewrite port_of_value, <- Hport.
  - intros Hl. rewrite parse_domain, Hl by lia. change (Nat.compare 253 253) with Eq. cbv iota. by rewrite port_of_value.
  - intros Hl. rewrite parse_domain by lia. destruct (Nat.compare_spec (length host) 253); [lia|lia|done].
Qed.

Lemma parse_target_witness :
  parseSocksAddr (domain_addr (str_bytes "example.com.") (be_bytes 2 443)) =
  Some (set_DstPort 443 (set_Host "example.com" zero_metadata)).
Proof.
  assert (TrimRight_dots (to_string (str_bytes "example.com.")) = "example.com"%string) as Ht by (vm_compute; reflexivity).
  rewrite <- Ht. apply (parse_target [] (str_bytes "example.com.") 443); [done|constructor|vm_compute; lia].
Defined.

(** ** Connections *)

(** What a client that is let in must have. *)
Definition let_in (au : option Authenticator) (user : option User) : Prop :=
  match user with
  | None => au = None
  | Some u => user_fits u ∧ admits (default AlwaysValid au) u = true
  end.

Definition user_name (user : option User) : string := match user with Some u => Username u | None => "" end.

Lemma handshake_let_in au local b addr command user :
  let_in au user → ParseAddrToSocksAddr local = Some b → command = CmdConnect ∨ command = CmdUDPAssociate →
  handshake_spec au local addr command user = (inr b, inr (addr, command, user_name user)).
Proof.
  intros Hlet Hb Hc. unfold handshake_spec, granted. rewrite Hb.
  assert ((command =? CmdConnect)%Z || (command =? CmdUDPAssociate)%Z = true) as -> by by destruct Hc as [-> | ->].
  destruct user as [u|]; simpl in Hlet; [|by rewrite Hlet]. destruct Hlet as [_ ->]. done.
Qed.

(** A connection is told apart by its first byte, which stays to be read. *)
Definition by_version (v : Z) (au : option Authenticator) (remote local : net_addr) (additions : list Addition) : proc handled :=
  if (v =? Version4)%Z then HandleSocks4 au remote local additions
  else if (v =? Version)%Z then HandleSocks5 au remote local additions
  else Halt Closed.

Lemma run_handle {A} (p : proc A) v bs k au remote local additions f :
  p = Send (v :: bs) k →
  rtc step (start p (by_version v au remote local additions)) f → stuck f →
  rtc step (start p (handleSocks au remote local additions)) f.
Proof.
  intros -> Hr Hf. etrans; [apply rtc_eager, run_near_send; rewrite app_nil_l|].
  - apply (run_far_peek 1 [v] _ _ bs); [done|]. reflexivity.
  - apply (settles_rtc _ _ _ Hr Hf). apply rtc_eager, run_near_send. reflexivity.
Qed.

(** The outbound's connection and the inbound's, to the end. *)
Lemma chain_run ss au local b remote additions m metadata :
  let_in au (out_user ss) → ParseAddrToSocksAddr local = Some b → whole (serializesSocksAddr m) →
  NewSocket (serializesSocksAddr m) remote local SOCKS5 (additions ++ [WithInUser (user_name (out_user ss))]) = Some metadata →
  rtc step (start (StreamConn ss m) (handleSocks au remote local additions))
    (mkConfig (Halt (inr ())) (Halt (Tunnelled metadata)) [] []).
Proof.
  intros Hlet Hb Hw Hm.
  assert (∃ bs k, StreamConn ss m = Send (Version :: bs) k) as (bs & k & Hs) by (unfold StreamConn; destruct (out_user ss); eauto).
  eapply run_handle; [exact Hs| |apply stuck_halted].
  destruct (handshake_run au local (serializesSocksAddr m) CmdConnect (out_user ss) Hw) as [_ Hok].
  { intros u Hu. rewrite Hu in Hlet. by destruct Hlet. }
  rewrite (handshake_let_in _ _ b) in Hok by auto. destruct (Hok _ eq_refl) as [_ He]. cbn [fst snd] in He.
  apply rtc_eager.
  apply (rtc_eager_near (λ r, match r with inl e => throw e | inr _ => done () end)),
    (rtc_eager_far (after5 remote local additions)) in He.
  unfold wrap_near, wrap_far in He. cbn [near far to_far to_near and_then after5] in He. rewrite Hm in He. exact He.
Qed.

(** ** The handler gives up at errors *)

Definition closed (r : handled) : Prop := r = Closed.

Lemma strict_handle5 au remote local additions : strict closed (HandleSocks5 au remote local additions).
Proof.
  apply (strict_and_then failed); [| |apply strict_ServerHandshake].
  - intros ? [e ->]. by exists Closed.
  - intros [e|[[target command] user]]; [done|]. unfold after5. by destruct (command =? CmdUDPAssociate)%Z.
Qed.

Lemma strict_handle4 au remote local additions : strict closed (HandleSocks4 au remote local additions).
Proof.
  apply (strict_and_then failed); [| |apply strict_ServerHandshake4].
  - intros ? [e ->]. by exists Closed.
  - by intros [e|[[addr command] user]].
Qed.

Lemma strict_handle au remote local additions : strict closed (handleSocks au remote local additions).
Proof.
  split; [by exists Closed|]. intros head. destruct (byte_at head 0 =? Version4)%Z; [apply strict_handle4|].
  destruct (byte_at head 0 =? Version)%Z; [apply strict_handle5|done].
Qed.

Lemma strict_stream ss m : strict failed (StreamConn ss m).
Proof. apply strict_try; [apply strict_ClientHandshake|done]. Qed.

(** ** Additions *)

(** The destination of a connection. *)
Definition dest (m : Metadata) : string * Addr * Z := (Host m, DstIP m, m_DstPort m).

Definition keeps_dest (f : Addition) : Prop := ∀ m, dest (f m) = dest m.

Lemma WithInName_keeps n : keeps_dest (WithInName n).
Proof. done. Qed.

Lemma WithInUser_keeps u : keeps_dest (WithInUser u).
Proof. done. Qed.

Lemma WithSpecialRules_keeps r : keeps_dest (WithSpecialRules r).
Proof. done. Qed.

Lemma WithSrcAddr_keeps a : keeps_dest (WithSrcAddr a).
Proof. intros m. unfold WithSrcAddr. by destruct (SetRemoteAddr a zero_metadata). Qed.

Lemma WithInAddr_keeps a : keeps_dest (WithInAddr a).
Proof. intros m. unfold WithInAddr. by destruct (SetRemoteAddr a zero_metadata). Qed.

Lemma ApplyAdditions_keeps l m : Forall keeps_dest l → dest (ApplyAdditions m l) = dest m.
Proof.
  intros Hl. revert m. induction Hl as [|f l Hf _ IH]; intros m; [done|]. unfold ApplyAdditions in *. simpl. by rewrite IH, Hf.
Qed.

Lemma NewSocket_dest target remote local source additions user m :
  Forall keeps_dest additions → parseSocksAddr target = Some m →
  ∃ m', NewSocket target remote local source (additions ++ [WithInUser user]) = Some m' ∧ dest m' = dest m ∧ m_InUser m' = user.
Proof.
  intros Ha Hp. unfold NewSocket. rewrite Hp. eexists. split; [done|]. split.
  - rewrite ApplyAdditions_keeps by (apply Forall_app; split; [done|repeat constructor]).
    rewrite ApplyAdditions_keeps by (repeat constructor; [apply WithSrcAddr_keeps|apply WithInAddr_keeps]). by destruct m.
  - unfold ApplyAdditions. by rewrite foldl_app.
Qed.

(** A destination that the protocol can carry: the port of a machine word, an
    address of its width, a name short enough for the other end. *)
Definition dest_fits (m : Metadata) : Prop :=
  (0 ≤ m_DstPort m < 65536)%Z ∧ addr_wf (DstIP m) ∧ String.length (Host m) ≤ 252.

(** What arrives of it: a name without trailing dots, or else the address,
    without zone and in the form the rules expect. *)
Definition received (m : Metadata) : string * Addr * Z :=
  match AddrType m with
  | Metadata.AtypDomainName => (TrimRight_dots (Host m), NoAddr, m_DstPort m)
  | _ => (""%string, Unmap (WithoutZone (DstIP m)), m_DstPort m)
  end.

Lemma serialized m : dest_fits m → whole (serializesSocksAddr m) ∧ ∃ m', parseSocksAddr (serializesSocksAddr m) = Some m' ∧ dest m' = received m.
Proof.
  intros (Hp & Hip & Hh). pose proof (AddrFromSlice_WithoutZone _ Hip) as Hs.
  unfold serializesSocksAddr, received, AddrType.
  destruct (negb (bool_decide (Host m = "")) || negb (IsValid (DstIP m))) eqn:Hd.
  - split; [apply domain_whole; [rewrite str_bytes_length; lia|apply be_bytes_length]|].
    destruct (port_bytes (m_DstPort m) Hp) as (lo & Hb & Hhi & Hlo & Hport). rewrite Hb, parse_domain by (rewrite str_bytes_length; lia).
    rewrite str_bytes_length. destruct (Nat.compare_spec (String.length (Host m)) 253); [lia| |lia].
    eexists. split; [done|]. rewrite port_of_value, <- Hport, to_string_str_bytes by done. done.
  - apply orb_false_iff in Hd as [_ Hv]. apply negb_false_iff in Hv. destruct (DstIP m) as [|v|v z] eqn:Hdst; [done| |]; cbn [Is4].
    + split; [apply whole_v4; by rewrite length_app, AsSlice_length, be_bytes_length|].
      rewrite parse_ip4 by (done || apply AsSlice_length). eexists. split; [done|].
      unfold AddrFromSlice in Hs. rewrite AsSlice_length in Hs. cbn in Hs. injection Hs as Hs. cbn [AsSlice]. unfold dest.
      change (from_be (be_bytes 4 v) = v) in Hs. by rewrite Hs.
    + split; [apply whole_v6; by rewrite length_app, AsSlice_length, be_bytes_length|].
      rewrite parse_ip6 by (done || apply AsSlice_length). eexists. split; [done|].
      unfold AddrFromSlice in Hs. rewrite AsSlice_length in Hs. cbn [Nat.eqb WithoutZone] in Hs. injection Hs as Hs. cbn [AsSlice].
      change (from_be (be_bytes 16 v) = v) in Hs. rewrite Hs. unfold dest. done.
Qed.


Definition example_m : Metadata := set_DstPort 443 (set_Host "example.com" zero_metadata).

Definition example_peer : net_addr := IPAddr [192; 168; 1; 7]%Z 50000 "".


(** *** Version 4 *)

(** The text of the server's target is an address of SOCKS5 again. *)
Lemma server_target_addr v host port :
  (0 ≤ v < 2 ^ 32)%Z → (0 ≤ port < 65536)%Z → isReservedIP (Addr4 v) = false →
  Socks5.ParseAddr (server_target (Addr4 v) host port) = Some (AtypIPv4 :: AsSlice (Addr4 v) ++ be_bytes 2 port).
Proof.
  intros Hv Hp Hres. unfold server_target, Socks5.ParseAddr. rewrite Hres. cbn [andb Addr_String].
  destruct (v4_text v Hv) as [_ (a & b & Hab & Ha & Hb)].
  rewrite SplitHostPort_join; [|apply v4_no_bracket|apply digits_no_bracket; lia]. cbn [mbind option_bind].
  unfold parse_ip. rewrite ParseAddr_v4_String by done. cbn [mbind option_bind addr_zone]. rewrite bool_decide_true by done.
  cbn [mbind option_bind Unmap Is4]. rewrite ParseUint_pretty by lia. cbn [mbind option_bind].
  by rewrite (proj2 (Z.ltb_lt port (2 ^ 16))) by (change (2 ^ 16)%Z with 65536%Z; lia).
Qed.

Lemma server_target_name ip host port :
  isReservedIP ip = true → host ≠ ""%string → Netip.ParseAddr host = None → String.length host ≤ 255 →
  Forall (λ c, ¬ bracket c) (bytes host) → (0 ≤ port < 65536)%Z →
  Socks5.ParseAddr (server_target ip host port) = Some (domain_addr (str_bytes host) (be_bytes 2 port)).
Proof.
  intros Hres Hne Hpa Hl Hbr Hp. unfold server_target, Socks5.ParseAddr. rewrite Hres, bool_decide_false by done. cbn [andb negb].
  rewrite SplitHostPort_join; [|done|apply digits_no_bracket; lia]. cbn [mbind option_bind].
  unfold parse_ip. rewrite Hpa. cbn [mbind option_bind]. rewrite str_bytes_length.
  destruct (Nat.ltb_spec 255 (String.length host)); [lia|]. cbn [mbind option_bind]. rewrite ParseUint_pretty by lia. cbn [mbind option_bind].
  by rewrite (proj2 (Z.ltb_lt port (2 ^ 16))) by (change (2 ^ 16)%Z with 65536%Z; lia).
Qed.

(** A name that the request can carry and the inbound reads back. *)
Definition name_fits (host : string) : Prop :=
  host ≠ ""%string ∧ no_null host ∧ String.length host ≤ 252 ∧ Forall (λ c, ¬ bracket c) (bytes host).

(** A request of version 4 arrives at the tunnel with the IPv4 address it is
    for, or, as 4A, with the name, and with the port and the client's name; every
    interleaving ends so, with nothing left in the connection. *)
Theorem socks4_chain (au : option Authenticator) (remote local : net_addr) (additions : list Addition)
    (addr userID host : string) (ip : Addr) (port : Z) :
  client_target addr = inr (ip, host, port) → no_null userID → verified4 au userID = true → Forall keeps_dest additions →
  isReservedIP ip = false ∨ (Netip.ParseAddr host = None ∧ name_fits host) →
  let c := start (ClientHandshake4 addr CmdConnect userID) (handleSocks au remote local additions) in
  ∃ m', settles c (mkConfig (Halt (inr ())) (Halt (Tunnelled m')) [] []) ∧ m_InUser m' = userID ∧
    dest m' = if isReservedIP ip then (TrimRight_dots host, NoAddr, port) else (""%string, ip, port).
Proof.
  intros Hct Hu Hver Hadd Hcase c. destruct (client_target_v4 _ _ _ _ Hct) as [(v & -> & Hv) Hp].
  assert (∃ a m0, Socks5.ParseAddr (server_target (Addr4 v) host port) = Some a ∧ parseSocksAddr a = Some m0 ∧
    dest m0 = if isReservedIP (Addr4 v) then (TrimRight_dots host, NoAddr, port) else (""%string, Addr4 v, port)) as (a & m0 & Ha & Hm0 & Hd0).
  { destruct (isReservedIP (Addr4 v)) eqn:Hres.
    - destruct Hcase as [?|(Hpa & Hne & _ & Hl & Hbr)]; [done|]. exists (domain_addr (str_bytes host) (be_bytes 2 port)). rewrite server_target_name by (done || lia).
      destruct (port_bytes port Hp) as (lo & Hb & Hhi & Hlo & Hport). rewrite Hb.
      pose proof (parse_domain (str_bytes host) (port / 256)%Z lo) as Hpd. rewrite str_bytes_length in Hpd.
      destruct (Nat.compare_spec (String.length host) 253); [lia| |lia].
      eexists. split; [done|]. split; [apply Hpd; lia|]. by rewrite port_of_value, <- Hport, to_string_str_bytes by done.
    - eexists. rewrite server_target_addr by done. eexists. split; [done|]. split; [by apply parse_ip4|].
      unfold dest. cbn [Host DstIP m_DstPort set_DstPort set_DstIP zero_metadata]. do 3 f_equal. by apply from_be_id. }
  destruct (NewSocket_dest a remote local SOCKS4 additions userID m0 Hadd Hm0) as (m' & Hm' & Hd & Huser).
  exists m'. split; [|split; [done|by rewrite Hd]].
  destruct (handshake4_run au addr CmdConnect userID Hu) as [_ Hok].
  { intros ip' host' port' Hct' Hres. rewrite Hct in Hct'. injection Hct' as <- <- <-.
    destruct Hcase as [?|(_ & _ & Hn & _)]; [congruence|done]. }
  unfold handshake4_spec in Hok. rewrite Hct in Hok. change (negb (CmdConnect =? CmdConnect)%Z) with false in Hok. cbv iota in Hok.
  fold (verified4 au userID) in Hok. rewrite Hver in Hok. destruct (Hok _ eq_refl) as [_ He]. cbn [fst snd] in He.
  assert (∃ bs k, ClientHandshake4 addr CmdConnect userID = Send (Version4 :: bs) k) as (bs & k & Hs) by (unfold ClientHandshake4; rewrite Hct; eauto).
  apply settles_run; [|apply stuck_halted]. unfold c. eapply run_handle; [exact Hs| |apply stuck_halted].
  apply rtc_eager. apply (rtc_eager_far (after4 remote local additions)) in He.
  unfold wrap_far in He. cbn [near far to_far to_near and_then after4] in He. rewrite Ha in He. cbn [default] in He. unfold id in He.
  rewrite Hm' in He. exact He.
Qed.

Lemma socks4_chain_witness :
  ∃ m', settles (start (ClientHandshake4 "example.com:443" CmdConnect "me") (handleSocks None example_peer example_local []))
    (mkConfig (Halt (inr ())) (Halt (Tunnelled m')) [] []) ∧ dest m' = ("example.com"%string, NoAddr, 443%Z).
Proof.
  destruct (socks4_chain None example_peer example_local [] "example.com:443" "me" "example.com" (Addr4 1) 443) as (m' & Hs & _ & Hd).
  - vm_compute. reflexivity.
  - split; [by repeat constructor|vm_compute; lia].
  - done.
  - constructor.
  - right. split; [vm_compute; reflexivity|]. split; [done|]. split; [split; [by repeat constructor|vm_compute; lia]|].
    split; [vm_compute; lia|]. cbn. rewrite !Forall_cons, Forall_nil. split_and!; try exact I; by intros [|].
  - exists m'. split; [exact Hs|]. rewrite Hd. vm_compute. reflexivity.
Defined.

(** ** Authentication *)

Lemma to_tunnel_user target remote local source additions user (P : string → Prop) :
  P user → ensures (λ r, ∀ m, r = Tunnelled m → P (m_InUser m)) (to_tunnel (NewSocket target remote local source (additions ++ [WithInUser user]))).
Proof.
  intros HP. unfold to_tunnel, NewSocket. destruct (parseSocksAddr target) as [m0|]; [|by intros ??].
  cbn [mbind option_bind ensures]. intros m [= <-]. unfold ApplyAdditions at 1. by rewrite foldl_app.
Qed.

Lemma handle_ensures au remote local additions :
  ensures (λ r, ∀ m, r = Tunnelled m → ∀ a, au = Some a → ∃ pass, Verify a (m_InUser m) pass = true) (handleSocks au remote local additions).
Proof.
  intros [head|]; [|by intros ??]. destruct (byte_at head 0 =? Version4)%Z; [|destruct (byte_at head 0 =? Version)%Z; [|by intros ??]].
  - apply ensures_and_then. eapply ensures_mono; [|apply server4_ensures].
    intros [e|[[addr command] user]] Hv; [by intros ??|]. unfold after4. apply (to_tunnel_user _ _ _ _ _ _ (λ u, ∀ a, au = Some a → ∃ pass, Verify a u pass = true)).
    intros a Ha. exists ""%string. by apply (Hv addr command user).
  - apply ensures_and_then. eapply ensures_mono; [|apply server_ensures].
    intros [e|[[addr command] user]] Hv; [by intros ??|]. unfold after5. destruct (command =? CmdUDPAssociate)%Z; [by intros ??|].
    apply (to_tunnel_user _ _ _ _ _ _ (λ u, ∀ a, au = Some a → ∃ pass, Verify a u pass = true)).
    by apply (Hv addr command user).
Qed.



(** ** Packets *)

(** An address of a socket, and the same as the other end sees it. *)
Definition sock_addr (ip : list Z) (port : Z) : Prop :=
  Forall is_byte ip ∧ (length ip = 4 ∨ length ip = 16) ∧ (0 ≤ port < 65536)%Z.

Lemma encoded_addr ip port zone :
  sock_addr ip port → ∃ addr, ParseAddrToSocksAddr (IPAddr ip port zone) = Some addr ∧ whole addr ∧
  (∃ m, parseSocksAddr addr = Some m ∧ dest m = (""%string, Unmap (AddrFromSlice ip), port)) ∧
  ∃ ip', UDPAddr addr = IPAddr ip' port "" ∧ AddrFromSlice ip' = Unmap (AddrFromSlice ip) ∧ sock_addr ip' port.
Proof.
  intros (Hb & Hl & Hp). destruct (Unmap_To4 ip Hb Hl) as [Hu Hlen].
  assert (Forall is_byte (default ip (To4 ip))) as Hb4.
  { unfold To4. destruct (length ip =? 4); [done|]. destruct (_ && _)%bool; [by apply Forall_drop|done]. }
  assert (ip ≠ []) as Hne by (intros ->; by destruct Hl).
  assert (@wrap uint16 port = port) as Hw by (apply (@wrap_id uint16); int_lia).
  assert (from_be (be_bytes 2 port) = port) as Hport by by apply from_be_id.
  assert (∀ t ip' rest, byte_at (t :: ip' ++ rest) 0 = t) as Ht by done.
  assert (∀ n t (ip' : list Z), length ip' = n → slice (t :: ip' ++ be_bytes 2 port) 1 (1 + n) = ip' ∧
    slice (t :: ip' ++ be_bytes 2 port) (1 + n) (1 + n + 2) = be_bytes 2 port) as Hsl.
  { intros n t ip' <-. unfold slice. split.
    - replace (1 + length ip' - 1) with (length ip') by lia. change (drop 1 (t :: ip' ++ be_bytes 2 port)) with (ip' ++ be_bytes 2 port).
      by rewrite take_app_length.
    - replace (1 + length ip' + 2 - (1 + length ip')) with 2 by lia.
      change (drop (1 + length ip') (t :: ip' ++ be_bytes 2 port)) with (drop (length ip') (ip' ++ be_bytes 2 port)).
      by rewrite drop_app_length. }
  destruct (To4 ip) as [ip4|] eqn:H4; cbn [default] in Hu, Hlen; unfold id in Hu, Hlen.
  - exists (AtypIPv4 :: ip4 ++ be_bytes 2 port). split; [|split; [|split]].
    + destruct ip as [|x ip]; [done|]. cbn [ParseAddrToSocksAddr]. by rewrite H4, Hw.
    + apply whole_v4. by rewrite length_app, Hlen.
    + eexists. split; [by apply parse_ip4|]. unfold dest. cbn. rewrite Hu. unfold AddrFromSlice. by rewrite Hlen.
    + exists ip4. split; [|split; [done|by split; [|split; [left|]]]]. destruct (Hsl 4 AtypIPv4 ip4 Hlen) as [H1 H2].
      unfold UDPAddr. change (AtypIPv4 =? AtypIPv4)%Z with true. cbv iota. by rewrite H1, H2, Hport.
  - exists (AtypIPv6 :: ip ++ be_bytes 2 port). split; [|split; [|split]].
    + destruct ip as [|x ip]; [done|]. cbn [ParseAddrToSocksAddr]. rewrite H4, Hw. do 3 f_equal. by rewrite take_app_length'.
    + apply whole_v6. by rewrite length_app, Hlen.
    + eexists. split; [by apply parse_ip6|]. unfold dest. cbn [Host DstIP m_DstPort set_DstPort set_DstIP zero_metadata].
      do 2 f_equal. unfold AddrFromSlice. by rewrite Hlen.
    + exists ip. split; [|split; [done|by split; [|split; [right|]]]]. destruct (Hsl 16 AtypIPv6 ip Hlen) as [H1 H2].
      unfold UDPAddr. change (AtypIPv6 =? AtypIPv4)%Z with false. change (AtypIPv6 =? AtypIPv6)%Z with true. cbv iota. by rewrite H1, H2, Hport.
Qed.

Lemma NewPacket_dest target addr InAddr source additions m :
  Forall keeps_dest additions → parseSocksAddr target = Some m →
  ∃ m', NewPacket target addr InAddr source additions = Some m' ∧ dest m' = dest m.
Proof.
  intros Ha Hp. unfold NewPacket. rewrite Hp. eexists. split; [done|].
  rewrite ApplyAdditions_keeps by done. rewrite ApplyAdditions_keeps by (repeat constructor; [apply WithSrcAddr_keeps|apply WithInAddr_keeps]).
  by destruct m.
Qed.

(** A packet that the outbound sends to an address through an inbound of this
    program arrives at the tunnel with its payload and that address; an answer
    from an address arrives at the outbound's reader, whose buffer has room for
    the packet, with its payload in front of the buffer, its length and that
    address. *)
Theorem socks_udp_chain (ip : list Z) (port : Z) (zone : string) (payload buf : list Z) (InAddr addr : net_addr) (additions : list Addition) :
  sock_addr ip port → Forall keeps_dest additions →
  ∃ packet, WriteTo payload (IPAddr ip port zone) = inr packet ∧ WriteBack payload (IPAddr ip port zone) = inr packet ∧
  (∃ m, handleSocksUDP InAddr addr packet additions = Packet payload m ∧ dest m = (""%string, Unmap (AddrFromSlice ip), port)) ∧
  (length packet ≤ length buf →
   ∃ buf' ip', ReadFrom buf packet = inr (buf', Z.of_nat (length payload), IPAddr ip' port "") ∧
     take (length payload) buf' = payload ∧ length buf' = length buf ∧ AddrFromSlice ip' = Unmap (AddrFromSlice ip)).
Proof.
  intros Hs Hadd. destruct (encoded_addr ip port zone Hs) as (a & Ha & Hw & (m0 & Hm0 & Hd0) & ip' & Hip' & Hsl & _).
  exists ([0; 0; 0]%Z ++ a ++ payload). unfold WriteTo, WriteBack, EncodeUDPPacket. rewrite Ha. split; [done|]. split; [done|].
  assert (∀ rest, DecodeUDPPacket ([0; 0; 0]%Z ++ a ++ rest) = inr (a, rest)) as Hdec by (intros rest; by apply decode_encode).
  split.
  - destruct (NewPacket_dest a addr InAddr SOCKS5 additions m0 Hadd Hm0) as (m & Hm & Hd). exists m.
    unfold handleSocksUDP. rewrite Hdec, Hm. split; [done|]. by rewrite Hd.
  - intros Hlen. unfold ReadFrom. set (packet := [0; 0; 0]%Z ++ a ++ payload) in *.
    rewrite Nat.min_r, firstn_all by done.
    replace (packet ++ drop (length packet) buf) with ([0; 0; 0]%Z ++ a ++ (payload ++ drop (length packet) buf))
      by (unfold packet; by rewrite <- !app_assoc).
    assert (length packet = 3 + length a + length payload) as Hpl by (unfold packet; rewrite !length_app; cbn [length]; lia).
    rewrite Hdec, Hip'. replace (Z.of_nat (length packet) - Z.of_nat (length a) - 3)%Z with (Z.of_nat (length payload)) by lia.
    eexists _, ip'. split; [reflexivity|]. split; [by rewrite <- app_assoc, take_app_length|]. split; [|done].
    rewrite !length_app, !length_drop, !length_app, length_drop. cbn [length]. lia.
Qed.

Lemma socks_udp_chain_witness :
  ∃ m, handleSocksUDP example_local example_peer ([0; 0; 0] ++ [1; 8; 8; 8; 8; 0; 53] ++ [7; 7])%Z [WithInName "DEFAULT-SOCKS"] = Packet [7; 7]%Z m ∧
    dest m = (""%string, Addr4 134744072, 53%Z).
Proof.
  destruct (socks_udp_chain [8; 8; 8; 8]%Z 53 "" [7; 7]%Z (replicate 64 0%Z) example_local example_peer [WithInName "DEFAULT-SOCKS"])
    as (packet & Hw & _ & (m & Hm & Hd) & _).
  - split; [by repeat constructor|]. split; [by left|done].
  - by repeat constructor.
  - change (WriteTo [7; 7]%Z (IPAddr [8; 8; 8; 8]%Z 53 "")) with (inr ([0; 0; 0] ++ [1; 8; 8; 8; 8; 0; 53] ++ [7; 7])%Z : socks_error + list Z) in Hw.
    injection Hw as <-. exists m. split; [exact Hm|exact Hd].
Defined.

(** ** What is wrong *)

(** One packet without any handshake makes the inbound panic. *)
Lemma udp_domain_panics InAddr addr host port payload additions :
  254 ≤ length host ≤ 255 → (0 ≤ port < 65536)%Z →
  handleSocksUDP InAddr addr ([0; 0; 0]%Z ++ domain_addr host (be_bytes 2 port) ++ payload) additions = PacketPanic.
Proof.
  intros Hh Hp. unfold handleSocksUDP. rewrite decode_encode by (apply domain_whole; [lia|apply be_bytes_length]).
  unfold NewPacket. destruct (port_bytes port Hp) as (lo & -> & _). rewrite parse_domain by lia.
  by destruct (Nat.compare_spec (length host) 253); [lia|lia|].
Qed.

(** So does a name of SOCKS4A of 256 bytes, which has no address of SOCKS5. *)
Definition long_request : list Z :=
  [4; 1; 0; 80; 0; 0; 0; 1]%Z ++ [0%Z] ++ replicate (Z.to_nat 256) 97%Z ++ [0%Z].

Lemma socks4_name_panics : (consume (handleSocks None example_peer example_local []) long_request).1.1 = Panicked.
Proof. vm_compute. reflexivity. Qed.

(** A datagram that is cut short is completed with what was in the buffer, and the
    count is negative. *)
Lemma short_datagram_stale :
  ∃ buf', ReadFrom ([0; 0; 0; 1; 9; 9; 9; 9; 0; 53] ++ replicate 10 7)%Z [0; 0; 0]%Z = inr (buf', (-7)%Z, IPAddr [9; 9; 9; 9]%Z 53 "").
Proof. eexists. vm_compute. reflexivity. Qed.

(** The users of a configuration: the last of the lines with a name counts. *)
Lemma authenticator_verify users au name pass :
  NewAuthenticator users = Some au →
  Verify au name pass = true ↔ au_Pass <$> list.last (filter (λ u, au_User u = name) users) = Some pass.
Proof.
  unfold NewAuthenticator. case_bool_decide; [done|].
  assert (∀ l st us, let r := foldl (λ acc u, (<[au_User u := au_Pass u]> acc.1, acc.2 ++ [au_User u])) (st, us) l in
    r.1 !! name = match list.last (filter (λ u, au_User u = name) l) with Some u => Some (au_Pass u) | None => (st : gmap string string) !! name end) as Hf.
  { induction l as [|u l IH]; intros st us; [done|]. cbn zeta in *. cbn [foldl fst snd]. rewrite IH, filter_cons.
    destruct (decide (au_User u = name)) as [Hu|Hu].
    - rewrite last_cons. destruct (list.last (filter _ l)); [done|]. by rewrite Hu, lookup_insert_eq.
    - destruct (list.last (filter _ l)); [done|]. by rewrite lookup_insert_ne. }
  specialize (Hf users ∅ []). cbn zeta in Hf.
  destruct (foldl _ (∅, []) users) as [storage usernames]. intros [= <-]. cbn [fst] in Hf. unfold Verify. rewrite Hf.
  destruct (list.last _) as [u|]; simpl; [|done]. rewrite bool_decide_eq_true. split; congruence.
Qed.
