(* ===== verification/Trojan.v ===== *)
(** * Trojan: [transport/trojan/trojan.go] and [listener/trojan]

    The header with which a connection begins, the packets of UDP in its stream,
    their writer and two readers, and the server's handlers ([HandleConn],
    [handleConn] of server.go, and [HandleSocket] of listener/sing/sing.go).  The
    client only writes, so the server's run is what it makes of the client's bytes
    ([consume] of Dialogue.v).

    SHA-224 is an argument, as are the names with which clients of the library
    sing ask for its own protocols.  TLS, the Shadowsocks layer and the streams of
    smux are not modelled: a connection that asks for smux ends as [TMux], and its
    streams are runs of [handleConn] of their own.

    The theorems: what the outbound writes arrives with its destination, its
    packets with theirs ([trojan_chain]); nothing arrives but from the holder of a
    user's key ([trojan_authenticated]); the reader with a buffer of the caller is
    a queue of packets ([trojan_reader_refines]). *)

From Stdlib Require Import ZArith Lia Ascii String.
From stdpp Require Import prelude strings gmap list relations.
From S2P Require Import Prelude Netip Metadata Wire Dialogue Socks5 Socks.

Open Scope Z_scope.

Definition maxLength : nat := Z.to_nat 8192.

Definition crlf : list Z := [13; 10].

Definition CommandTCP : Z := 1.

Definition CommandUDP : Z := 3.

Definition CommandMux : Z := 127.

Definition KeyLength : nat := 56.

(** The bytes that are written. *)
Definition WriteHeader (hexPassword : list Z) (command : Z) (socks5Addr : list Z) : list Z :=
  hexPassword ++ crlf ++ [command] ++ socks5Addr ++ crlf.

Definition writePacket (socks5Addr payload : list Z) : list Z :=
  socks5Addr ++ be_bytes 2 (@wrap uint16 (Z.of_nat (length payload))) ++ crlf ++ payload.

(** The loop over a long payload, from an offset: the writes. *)
Fixpoint write_loop (fuel : nat) (socks5Addr payload : list Z) (offset : nat) : option (list (list Z)) :=
  match fuel with
  | O => None
  | S fuel' =>
    let total := length payload in
    let cursor := (if (total <? offset + maxLength)%nat then total else offset + maxLength)%nat in
    let w := writePacket socks5Addr (slice payload offset cursor) in
    if (cursor =? total)%nat then Some [w] else ws ← write_loop fuel' socks5Addr payload cursor; Some (w :: ws)
  end.

(** The writes and the count that is returned when they succeed. *)
Definition WritePacket (socks5Addr payload : list Z) : option (list (list Z) * Z) :=
  if (length payload <=? maxLength)%nat then
    let w := writePacket socks5Addr payload in Some ([w], Z.of_nat (length w))
  else ws ← write_loop (length payload) socks5Addr payload 0; Some (ws, Z.of_nat (length payload)).

(** [PacketConn.WriteTo]; an address without a form of SOCKS is written as nothing. *)
Definition trojan_WriteTo (b : list Z) (addr : net_addr) : option (list (list Z) * Z) :=
  WritePacket (default [] (ParseAddrToSocksAddr addr)) b.

(** The fields of a [PacketConn] next to its connection. *)
Record PacketConn := mkPacketConn { remain : nat; pc_rAddr : net_addr }.

Definition NewPacketConn : PacketConn := mkPacketConn 0 NilAddr.

(** With a payload buffer of [len] bytes: the address, the bytes read and how many
    of the packet are left in the connection. *)
Definition ReadPacket (len : nat) : io (net_addr * list Z * nat) :=
  try_then (ReadAddr (Z.of_nat len)) (λ addr,
    match UDPAddr addr with
    | NilAddr => throw ErrAddress
    | uAddr =>
      recv 2 (λ size,
        let total := Z.to_nat (from_be size) in
        if (maxLength <? total)%nat then throw ErrTooLong
        else recv 2 (λ _,
          let length := (if (total <? len)%nat then total else len) in
          recv length (λ b, done (uAddr, b, (total - length)%nat))))
    end).

(** [PacketConn.ReadFrom] with a buffer of [len] bytes; [avail] is the number of
    bytes that a [Read] of the connection finds, at least one. *)
Definition trojan_ReadFrom (len avail : nat) (pc : PacketConn) : io (list Z * net_addr * PacketConn) :=
  if negb (remain pc =? 0)%nat then
    let length := (if (remain pc <? len)%nat then remain pc else len) in
    let n := Nat.min length (Nat.max 1 avail) in
    recv n (λ b,
      let remain' := (remain pc - n)%nat in
      done (b, pc_rAddr pc, mkPacketConn remain' (if (remain' =? 0)%nat then NilAddr else pc_rAddr pc)))
  else
    try_then (ReadPacket len) (λ '(addr, b, rest),
      done (b, addr, if negb (rest =? 0)%nat then mkPacketConn rest addr else pc)).

(** [PacketConn.WaitReadFrom]. *)
Definition WaitReadFrom : io (list Z * net_addr) :=
  try_then ReadAddr0 (λ destination,
    match UDPAddr destination with
    | NilAddr => throw ErrAddress
    | udpAddr =>
      recv (2 + 2) (λ data,
        let length := Z.to_nat (from_be (take 2 data)) in
        if (maxLength <? length)%nat then throw ErrTooLong
        else if (0 <? length)%nat then recv length (λ data, done (data, udpAddr))
        else done ([], udpAddr))
    end).

(** ** The server *)

(** How a connection ends: closed, a panic, given to the tunnel, given to the
    library sing with the additions for what comes of it, or to smux, whose
    streams are handled with the additions; or as packets until it fails or
    ends.  [TFuel] is not an end of the program. *)
Inductive trojan_end :=
  | TClosed
  | TPanicked
  | TSocket (m : Metadata)
  | TSpecial (m : Metadata) (additions : list Addition)
  | TMux (additions : list Addition)
  | TPackets (packets : list (list Z * Metadata))
  | TFuel.

Section server.
Context (sum224 : list Z → list Z) (IsSpecialFqdn : string → bool).

Definition hex_byte (b : Z) : list Z := [byte_of (hex_digit (b / 16)); byte_of (hex_digit (b mod 16))].

Definition Key (password : string) : list Z := concat (map hex_byte (sum224 (str_bytes password))).

Record TrojanUser := mkTrojanUser { tu_Username : string; tu_Password : string }.

(** The part of [New] that makes the map of keys. *)
Definition make_keys (users : list TrojanUser) : gmap (list Z) string :=
  foldl (λ keys user, <[Key (tu_Password user) := tu_Username user]> keys) ∅ users.

(** What the listener keeps, and the ends of a connection. *)
Record TrojanListener := mkTrojanListener { keys : gmap (list Z) string; h_Additions : list Addition }.

Record Ends := mkEnds { RemoteAddr : net_addr; LocalAddr : net_addr }.

(** [ListenerHandler.HandleSocket]. *)
Definition HandleSocket (l : TrojanListener) (c : Ends) (target : list Z) (additions : list Addition) : trojan_end :=
  match NewSocket target (RemoteAddr c) (LocalAddr c) TROJAN (h_Additions l) with
  | None => TPanicked
  | Some metadata =>
    if IsSpecialFqdn (Host metadata) then TSpecial metadata additions
    else TSocket (ApplyAdditions metadata additions)
  end.

(** The loop over the packets of a connection, after those of [acc]. *)
Fixpoint serve_packets (fuel : nat) (c : Ends) (additions : list Addition) (acc : list (list Z * Metadata)) : proc trojan_end :=
  match fuel with
  | O => Halt TFuel
  | S fuel' =>
    and_then WaitReadFrom (λ r,
      match r with
      | inl _ => Halt (TPackets acc)
      | inr (data, addr) =>
        match NewPacket (default [] (ParseAddrToSocksAddr addr)) (RemoteAddr c) (LocalAddr c) TROJAN additions with
        | None => Halt TPanicked
        | Some m => serve_packets fuel' c additions (acc ++ [(data, m)])
        end
      end)
  end.

Definition handleConn (fuel : nat) (l : TrojanListener) (c : Ends) (inMux : bool) (additions : list Addition) : proc trojan_end :=
  and_then
    (try_then ReadByte (λ command,
      if (command =? CommandTCP) || (command =? CommandUDP) || (command =? CommandMux) then
        try_then ReadAddr0 (λ target,
          if inMux then done (command, target) else recv 2 (λ _, done (command, target)))
      else throw ErrCommandNotSupported))
    (λ r,
      match r with
      | inl _ => Halt TClosed
      | inr (command, target) =>
        if command =? CommandTCP then Halt (HandleSocket l c target additions)
        else if command =? CommandUDP then serve_packets fuel c additions []
        else Halt (if inMux then TClosed else TMux additions)
      end).

(** [Listener.HandleConn], without a Shadowsocks layer. *)
Definition HandleConn (fuel : nat) (l : TrojanListener) (c : Ends) (additions : list Addition) : proc trojan_end :=
  and_then (recv KeyLength done) (λ r,
    match r with
    | inl _ => Halt TClosed
    | inr key =>
      match keys l !! key with
      | None => Halt TClosed
      | Some user =>
        and_then (recv 2 done) (λ r,
          match r with
          | inl _ => Halt TClosed
          | inr _ => handleConn fuel l c false (additions ++ [WithInUser user])
          end)
      end
    end).

End server.

(** ** The outbound *)

(** What [streamConnContext] writes for a connection. *)
Definition trojan_header (hexPassword : list Z) (metadata : Metadata) : list Z :=
  WriteHeader hexPassword (if bool_decide (m_NetWork metadata = UDP) then CommandUDP else CommandTCP)
    (serializesSocksAddr metadata).

Close Scope Z_scope.

Lemma maxLength_Z : Z.of_nat maxLength = 8192%Z.
Proof. unfold maxLength. by rewrite Z2Nat.id. Qed.

Lemma maxLength_pos : 0 < maxLength.
Proof. pose proof maxLength_Z. lia. Qed.


#[local] Opaque maxLength.

(** ** Reading what was written *)

Lemma consume_and_then_ok {A B} (p : proc A) (f : A → proc B) l l' r :
  consume p l = (r, l', []) → consume (and_then p f) l = consume (f r) l'.
Proof. intros Hp. rewrite consume_and_then, Hp. by destruct (consume (f r) l') as [[b l2] out]. Qed.

Lemma consume_try_ok {A B} (p : io A) (f : A → io B) l l' a :
  consume p l = (inr a, l', []) → consume (try_then p f) l = consume (f a) l'.
Proof. intros Hp. unfold try_then. by rewrite (consume_and_then_ok _ _ _ _ _ Hp). Qed.

Lemma size_bytes n : n ≤ maxLength → Z.to_nat (from_be (be_bytes 2 (@wrap uint16 (Z.of_nat n)))) = n.
Proof.
  intros Hn. pose proof maxLength_Z as Hm.
  rewrite (@wrap_id uint16) by int_lia. rewrite from_be_id by (change (256 ^ Z.of_nat 2)%Z with 65536%Z; lia). lia.
Qed.

(** An address that the readers of packets accept. *)
Definition udp_addr (a : list Z) (ua : net_addr) : Prop := whole a ∧ UDPAddr a = ua ∧ ua ≠ NilAddr.

Lemma consume_Wait a ua payload l :
  udp_addr a ua → length payload ≤ maxLength → consume WaitReadFrom (writePacket a payload ++ l) = (inr (payload, ua), l, []).
Proof.
  intros (Hw & Hu & Hne) Hl. unfold WaitReadFrom, writePacket. rewrite <- !app_assoc.
  rewrite (consume_try_ok _ _ _ ((be_bytes 2 (@wrap uint16 (Z.of_nat (length payload))) ++ crlf ++ payload) ++ l) a)
    by (rewrite <- !app_assoc, ReadAddr0_ReadAddr; by apply consume_ReadAddr).
  rewrite Hu, <- !app_assoc, (app_assoc (be_bytes 2 _) crlf).
  destruct ua as [|ip port zone|s]; [done| |].
  all: rewrite consume_recv_app by done; rewrite take_app_le by done;
    change (take 2 (be_bytes 2 (@wrap uint16 (Z.of_nat (length payload))))) with (be_bytes 2 (@wrap uint16 (Z.of_nat (length payload))));
    rewrite size_bytes by done; destruct (Nat.ltb_spec maxLength (length payload)); [lia|];
    destruct (Nat.ltb_spec 0 (length payload)) as [Hp|Hp]; [by rewrite consume_recv_app|];
    destruct payload; [done|simpl in Hp; lia].
Qed.

(** ** The chunks of a long payload *)

Lemma write_loop_chunks a payload fuel offset :
  offset < length payload → length payload - offset ≤ fuel →
  ∃ chunks, write_loop fuel a payload offset = Some (map (writePacket a) chunks) ∧ concat chunks = drop offset payload ∧
    Forall (λ d, length d ≤ maxLength) chunks.
Proof.
  pose proof maxLength_pos as Hmax.
  revert offset. induction fuel as [|fuel IH]; intros offset Ho Hf; [lia|]. cbn [write_loop].
  set (cursor := if length payload <? offset + maxLength then length payload else offset + maxLength).
  assert (offset < cursor ≤ length payload ∧ cursor - offset ≤ maxLength) as [Hc Hcm].
  { unfold cursor. destruct (Nat.ltb_spec (length payload) (offset + maxLength)); lia. }
  assert (length (slice payload offset cursor) ≤ maxLength) as Hsl by (unfold slice; rewrite length_take; lia).
  destruct (Nat.eqb_spec cursor (length payload)) as [He|He].
  - exists [slice payload offset cursor]. split; [done|]. split; [|by repeat constructor].
    cbn [concat]. rewrite app_nil_r. unfold slice. apply take_ge. rewrite length_drop. lia.
  - destruct (IH cursor) as (chunks & -> & Hcat & Hall); [lia..|].
    exists (slice payload offset cursor :: chunks). split; [done|]. split; [|by constructor].
    cbn [concat]. rewrite Hcat. unfold slice.
    replace (drop cursor payload) with (drop (cursor - offset) (drop offset payload)) by (rewrite drop_drop; f_equal; lia).
    apply take_drop.
Qed.

Lemma WritePacket_chunks a payload :
  ∃ chunks n, WritePacket a payload = Some (map (writePacket a) chunks, n) ∧ concat chunks = payload ∧
    Forall (λ d, length d ≤ maxLength) chunks ∧ (length payload ≤ maxLength → chunks = [payload]).
Proof.
  unfold WritePacket. destruct (Nat.leb_spec (length payload) maxLength) as [Hl|Hl].
  - exists [payload]. eexists. split; [done|]. cbn [concat]. rewrite app_nil_r. split; [done|]. split; [by repeat constructor|done].
  - destruct (write_loop_chunks a payload (length payload) 0) as (chunks & -> & Hcat & Hall); [lia..|].
    exists chunks. eexists. split; [done|]. split; [done|]. split; [done|]. lia.
Qed.

(** ** The loop of the server *)

(** A packet in the stream with its address, and the metadata it is to have. *)
Record datagram := mkDatagram { d_addr : list Z; d_payload : list Z; d_meta : Metadata }.

Definition enc (d : datagram) : list Z := writePacket (d_addr d) (d_payload d).

Definition served (c : Ends) (additions : list Addition) (d : datagram) : Prop :=
  ∃ ua, udp_addr (d_addr d) ua ∧ length (d_payload d) ≤ maxLength ∧
    NewPacket (default [] (ParseAddrToSocksAddr ua)) (RemoteAddr c) (LocalAddr c) TROJAN additions = Some (d_meta d).

Definition to_packet (d : datagram) : list Z * Metadata := (d_payload d, d_meta d).

Lemma consume_Wait_nil : ∃ e, consume WaitReadFrom [] = (inl e, [], []).
Proof. by eexists. Qed.

Lemma serve_packets_all fuel c additions acc ds :
  Forall (served c additions) ds → length ds < fuel →
  consume (serve_packets fuel c additions acc) (concat (map enc ds)) = (TPackets (acc ++ map to_packet ds), [], []).
Proof.
  intros Hds. revert fuel acc. induction Hds as [|d ds (ua & Hu & Hl & Hm) _ IH]; intros fuel acc Hf.
  - destruct fuel as [|fuel]; [simpl in Hf; lia|]. cbn [serve_packets map concat]. destruct consume_Wait_nil as (e & He).
    rewrite (consume_and_then_ok _ _ _ _ _ He). simpl. by rewrite app_nil_r.
  - destruct fuel as [|fuel]; [simpl in Hf; lia|]. cbn [serve_packets map concat].
    rewrite (consume_and_then_ok _ _ _ _ _ (consume_Wait (d_addr d) ua (d_payload d) _ Hu Hl)), Hm.
    rewrite IH by (simpl in Hf; lia). by rewrite <- app_assoc.
Qed.

Lemma enc_length ds : length ds ≤ length (concat (map enc ds)).
Proof.
  induction ds as [|d ds IH]; [done|]. cbn [map concat]. rewrite length_app. unfold enc at 1, writePacket. rewrite !length_app.
  cbn [length crlf]. lia.
Qed.

(** Reading takes something from the stream, so the fuel of the loop is no more
    than the bytes there are. *)
Lemma consume_rest {R} (p : proc R) l : length (consume p l).1.2 ≤ length l.
Proof.
  revert l. induction p as [r|n k IH|n k IH|bs k IH]; intros l; simpl; [done| | |].
  - case_match; [|apply IH]. etrans; [apply IH|]. rewrite length_drop. lia.
  - case_match; apply IH.
  - specialize (IH true l). by destruct (consume (k true) l) as [[r l'] out].
Qed.

Lemma consume_and_then_inv {A B} (p : proc A) (f : A → proc B) l r l' out :
  consume (and_then p f) l = (r, l', out) → ∃ a l1 o1 o2, consume p l = (a, l1, o1) ∧ consume (f a) l1 = (r, l', o2).
Proof.
  rewrite consume_and_then. destruct (consume p l) as [[a l1] o1]. destruct (consume (f a) l1) as [[b l2] o2] eqn:Hf.
  intros [= <- <- <-]. by eauto 10.
Qed.

Lemma consume_rest_eq {R} (p : proc R) l r l' out : consume p l = (r, l', out) → length l' ≤ length l.
Proof. intros Hc. pose proof (consume_rest p l) as Hr. by rewrite Hc in Hr. Qed.

Lemma consume_Wait_less l r l' out : consume WaitReadFrom l = (inr r, l', out) → length l' < length l.
Proof.
  intros (a1 & l1 & o1 & o2 & H1 & H2)%consume_and_then_inv.
  unfold ReadAddr0 in H1. rewrite consume_read_byte in H1. destruct l as [|b l]; [by injection H1 as <- <- <-|].
  apply consume_rest_eq in H1, H2. simpl. lia.
Qed.

Lemma serve_packets_fuel fuel c additions acc l :
  length l < fuel → (consume (serve_packets fuel c additions acc) l).1.1 ≠ TFuel.
Proof.
  revert acc l. induction fuel as [|fuel IH]; intros acc l Hf; [lia|]. cbn [serve_packets]. rewrite consume_and_then.
  destruct (consume WaitReadFrom l) as [[[e|[data addr]] l1] o1] eqn:Hw; [done|].
  apply consume_Wait_less in Hw. destruct (NewPacket _ _ _ _ _) as [m|]; [|done].
  specialize (IH (acc ++ [(data, m)]) l1 ltac:(lia)). by destruct (consume (serve_packets _ _ _ _) l1) as [[r l2] o2].
Qed.

(** Every packet of the loop has the user that the last addition set. *)
Lemma NewPacket_user target src dst source additions user m :
  NewPacket target src dst source (additions ++ [WithInUser user]) = Some m → m_InUser m = user.
Proof.
  unfold NewPacket. destruct (parseSocksAddr target); [|done]. cbn [mbind option_bind]. intros [= <-].
  unfold ApplyAdditions at 1. by rewrite foldl_app.
Qed.

(** What a user's connection may come to. *)
Definition of_user (user : string) (r : trojan_end) : Prop :=
  match r with
  | TSocket m => m_InUser m = user
  | TPackets ps => Forall (λ p, m_InUser p.2 = user) ps
  | TSpecial _ additions | TMux additions => ∀ m, m_InUser (ApplyAdditions m additions) = user
  | TClosed | TPanicked | TFuel => True
  end.

(** The loop does not end in smux. *)
Lemma serve_packets_ends fuel c additions acc l adds : (consume (serve_packets fuel c additions acc) l).1.1 ≠ TMux adds.
Proof.
  revert acc l. induction fuel as [|fuel IH]; intros acc l; [done|]. cbn [serve_packets]. rewrite consume_and_then.
  destruct (consume WaitReadFrom l) as [[[e|[data addr]] l1] o1]; [done|]. destruct (NewPacket _ _ _ _ _) as [m|]; [|done].
  specialize (IH (acc ++ [(data, m)]) l1). by destruct (consume (serve_packets _ _ _ _) l1) as [[r l2] o2].
Qed.

Lemma serve_packets_user fuel c additions user acc l :
  Forall (λ p, m_InUser p.2 = user) acc → of_user user (consume (serve_packets fuel c (additions ++ [WithInUser user]) acc) l).1.1.
Proof.
  revert acc l. induction fuel as [|fuel IH]; intros acc l Hacc; [done|]. cbn [serve_packets]. rewrite consume_and_then.
  destruct (consume WaitReadFrom l) as [[[e|[data addr]] l1] o1]; [done|].
  destruct (NewPacket _ _ _ _ _) as [m|] eqn:Hm; [|done]. apply NewPacket_user in Hm.
  specialize (IH (acc ++ [(data, m)]) l1 ltac:(apply Forall_app; by repeat constructor)).
  by destruct (consume (serve_packets _ _ _ _) l1) as [[r l2] o2].
Qed.

(** ** A connection of the outbound *)

Section server_theorems.
Context (sum224 : list Z → list Z) (IsSpecialFqdn : string → bool).

Implicit Types (l : TrojanListener) (c : Ends).

Lemma Key_length password : length (sum224 (str_bytes password)) = 28 → length (Key sum224 password) = KeyLength.
Proof.
  unfold Key, KeyLength. generalize (sum224 (str_bytes password)). intros h Hh. change 56 with (2 * 28). rewrite <- Hh.
  clear. induction h as [|b h IH]; [done|]. cbn [map concat length]. rewrite length_app, IH. cbn. lia.
Qed.

Lemma make_keys_lookup users password user :
  NoDup (map (λ u, Key sum224 (tu_Password u)) users) → mkTrojanUser user password ∈ users →
  make_keys sum224 users !! Key sum224 password = Some user.
Proof.
  unfold make_keys. intros Hnd. cut (∀ us (ks : gmap (list Z) string) (k : list Z), k ∉ map (λ u, Key sum224 (tu_Password u)) us →
    foldl (λ keys user, <[Key sum224 (tu_Password user) := tu_Username user]> keys) ks us !! k = ks !! k).
  - intros Hother Hin. apply list_elem_of_split in Hin as (pre & post & ->). rewrite foldl_app. cbn [foldl].
    rewrite Hother; [by rewrite lookup_insert_eq|]. rewrite map_app in Hnd. apply NoDup_app in Hnd as (_ & _ & Hnd).
    by apply NoDup_cons in Hnd as [? _].
  - induction us as [|u us IH]; intros ks k Hk; [done|]. cbn [foldl map] in *. apply not_elem_of_cons in Hk as [Hne Hk].
    rewrite IH by done. by rewrite lookup_insert_ne.
Qed.

Lemma consume_header fuel l c additions key user command a rest :
  length key = KeyLength → keys l !! key = Some user → whole a → command = CommandTCP ∨ command = CommandUDP →
  consume (HandleConn IsSpecialFqdn fuel l c additions) (WriteHeader key command a ++ rest) =
  if (command =? CommandTCP)%Z then (HandleSocket IsSpecialFqdn l c a (additions ++ [WithInUser user]), rest, [])
  else consume (serve_packets fuel c (additions ++ [WithInUser user]) []) rest.
Proof.
  intros Hk Hu Hw Hcmd. unfold HandleConn, WriteHeader. rewrite <- !app_assoc.
  rewrite (consume_and_then_ok _ _ _ (crlf ++ [command] ++ a ++ crlf ++ rest) (inr key)) by (by rewrite consume_recv_app).
  rewrite Hu. rewrite (consume_and_then_ok _ _ _ ([command] ++ a ++ crlf ++ rest) (inr crlf)) by (by rewrite consume_recv_app).
  assert (consume ReadAddr0 (a ++ crlf ++ rest) = (inr a, crlf ++ rest, [])) as Ha
    by (rewrite ReadAddr0_ReadAddr; by apply consume_ReadAddr).
  unfold handleConn. rewrite (consume_and_then_ok _ _ _ rest (inr (command, a))).
  - by destruct Hcmd as [-> | ->].
  - change ([command] ++ a ++ crlf ++ rest) with (command :: a ++ crlf ++ rest). rewrite consume_read_byte.
    replace (_ || _ || _)%bool with true by (by destruct Hcmd as [-> | ->]).
    rewrite (consume_try_ok _ _ _ _ _ Ha). cbn [negb]. by rewrite consume_recv_app.
Qed.

(** What [WriteTo] writes for a payload to an address. *)
Definition sent (s : list Z * (list Z * Z)) : list Z :=
  concat (default ([], 0%Z) (trojan_WriteTo s.1 (IPAddr s.2.1 s.2.2 ""))).1.

(** What the tunnel should have of it. *)
Definition arrives (user : string) (s : list Z * (list Z * Z)) (packets : list (list Z * Metadata)) : Prop :=
  concat (map fst packets) = s.1 ∧ (length s.1 ≤ maxLength → length packets = 1) ∧
  Forall (λ p, length p.1 ≤ maxLength ∧ dest p.2 = (""%string, Unmap (AddrFromSlice s.2.1), s.2.2) ∧ m_InUser p.2 = user) packets.

Lemma send_packets c additions user s :
  sock_addr s.2.1 s.2.2 → Forall keeps_dest additions →
  ∃ ds, sent s = concat (map enc ds) ∧ Forall (served c (additions ++ [WithInUser user])) ds ∧ arrives user s (map to_packet ds).
Proof.
  destruct s as [payload [ip port]]. cbn [fst snd]. intros Hs Hadd.
  destruct (encoded_addr ip port "" Hs) as (a & Ha & Hw & _ & ip' & Hua & Hip' & Hs').
  destruct (encoded_addr ip' port "" Hs') as (a' & Ha' & _ & (m0 & Hm0 & Hd0) & _). rewrite Hip', Unmap_idemp in Hd0.
  assert (Forall keeps_dest (additions ++ [WithInUser user])) as Hadd' by (apply Forall_app; by repeat constructor).
  destruct (NewPacket_dest a' (RemoteAddr c) (LocalAddr c) TROJAN _ m0 Hadd' Hm0) as (m & Hm & Hd).
  pose proof (NewPacket_user _ _ _ _ _ _ _ Hm) as Hu.
  destruct (WritePacket_chunks a payload) as (chunks & n & Hwr & Hcat & Hall & Hone).
  exists (map (λ d, mkDatagram a d m) chunks). unfold sent, trojan_WriteTo. cbn [fst snd]. rewrite Ha. cbn [default]. unfold id.
  rewrite Hwr. cbn [default fst]. rewrite !map_map. split; [done|]. split.
  - apply Forall_map. apply (Forall_impl _ _ _ Hall). intros d Hd'. exists (IPAddr ip' port "").
    split; [by split|]. split; [done|]. cbn [d_meta]. by rewrite Ha'.
  - split; [by rewrite map_map, map_id|]. split; [intros Hl; by rewrite (Hone Hl)|].
    apply Forall_map. apply (Forall_impl _ _ _ Hall). intros d Hd'. split; [done|]. split; [exact (eq_trans Hd Hd0)|done].
Qed.

Lemma sends_packets c additions user sends :
  Forall (λ s, sock_addr s.2.1 s.2.2) sends → Forall keeps_dest additions →
  ∃ ds groups, concat (map sent sends) = concat (map enc ds) ∧ Forall (served c (additions ++ [WithInUser user])) ds ∧
    map to_packet ds = concat groups ∧ Forall2 (arrives user) sends groups.
Proof.
  intros Hs Hadd. induction Hs as [|s sends Hs _ (ds & groups & Hst & Hsv & Hg & Har)]; [by exists [], []|].
  destruct (send_packets c additions user s Hs Hadd) as (ds0 & Hst0 & Hsv0 & Har0).
  exists (ds0 ++ ds), (map to_packet ds0 :: groups). cbn [map concat]. rewrite !map_app, concat_app, Hst, Hst0, Hg.
  split; [done|]. split; [by apply Forall_app|]. split; [done|]. by constructor.
Qed.

Lemma HandleSocket_dest l c target additions user m :
  Forall keeps_dest (h_Additions l) → Forall keeps_dest additions → parseSocksAddr target = Some m → IsSpecialFqdn (dest m).1.1 = false →
  ∃ m', HandleSocket IsSpecialFqdn l c target (additions ++ [WithInUser user]) = TSocket m' ∧ dest m' = dest m ∧ m_InUser m' = user.
Proof.
  intros Hl Ha Hm Hf. unfold HandleSocket, NewSocket. rewrite Hm. cbn [mbind option_bind].
  set (m1 := ApplyAdditions _ (h_Additions l)). assert (dest m1 = dest m) as Hd1.
  { unfold m1. rewrite ApplyAdditions_keeps by done. rewrite ApplyAdditions_keeps by (repeat constructor; [apply WithSrcAddr_keeps|apply WithInAddr_keeps]).
    by destruct m. }
  assert (Host m1 = (dest m).1.1) as -> by (by rewrite <- Hd1). rewrite Hf. eexists. split; [done|]. split.
  - rewrite ApplyAdditions_keeps; [done|]. apply Forall_app. by repeat constructor.
  - unfold ApplyAdditions. by rewrite foldl_app.
Qed.


Lemma make_keys_inv users key user :
  make_keys sum224 users !! key = Some user → ∃ password, mkTrojanUser user password ∈ users ∧ key = Key sum224 password.
Proof.
  unfold make_keys. induction users as [|[name password] users IH] using rev_ind; [done|]. rewrite foldl_app. cbn [foldl tu_Password tu_Username].
  destruct (decide (Key sum224 password = key)) as [<-|Hne].
  - rewrite lookup_insert_eq. intros [= <-]. exists password. split; [|done]. apply elem_of_app. right. by left.
  - rewrite lookup_insert_ne by done. intros (p & Hin & ->)%IH. exists p. split; [|done]. apply elem_of_app. by left.
Qed.

Lemma last_user m additions user : m_InUser (ApplyAdditions m (additions ++ [WithInUser user])) = user.
Proof. unfold ApplyAdditions. by rewrite foldl_app. Qed.

Lemma handleConn_result fuel l c inMux additions user input :
  length input < fuel →
  let r := (consume (handleConn IsSpecialFqdn fuel l c inMux (additions ++ [WithInUser user])) input).1.1 in
  r ≠ TFuel ∧ of_user user r ∧ (∀ adds, r = TMux adds → adds = additions ++ [WithInUser user]).
Proof.
  intros Hf r. subst r. unfold handleConn. rewrite consume_and_then. 
  match goal with |- context [consume ?p input] => pose proof (consume_rest p input) as Hr; destruct (consume p input) as [[a l1] o1] end.
  cbn [fst snd] in Hr. destruct a as [e|[command target]]; [done|].
  destruct (command =? CommandTCP)%Z; [|destruct (command =? CommandUDP)%Z].
  3: { destruct inMux; [done|]. split; [done|]. split; [intros m; apply last_user|by intros adds [= ->]]. }
  - cbn [consume fst snd]. unfold HandleSocket. destruct (NewSocket _ _ _ _ _); [|done].
    destruct (IsSpecialFqdn _); (split; [done|]); (split; [|done]); [intros m'|]; apply last_user.
  - pose proof (serve_packets_fuel fuel c (additions ++ [WithInUser user]) [] l1 ltac:(lia)) as Ht.
    pose proof (serve_packets_user fuel c additions user [] l1) as Hu.
    pose proof (serve_packets_ends fuel c (additions ++ [WithInUser user]) [] l1) as Hs.
    destruct (consume (serve_packets _ _ _ _) l1) as [[r l2] o2]. cbn [fst snd] in *. split; [done|].
    specialize (Hu (Forall_nil_2 _)). split; [done|]. intros adds He. by destruct (Hs adds).
Qed.

(** C18: Nothing reaches the tunnel, sing or smux but from a client that began with
    the key of a user: everything that arrives has the name of that user, the
    connections that sing makes of it and the streams of smux among them, and
    the user is one of the configuration.  The handler ends on every input that
    ends. *)
Theorem trojan_authenticated (users : list TrojanUser) (l : TrojanListener) (c : Ends) (additions : list Addition) (input : list Z) (fuel : nat) :
  keys l = make_keys sum224 users → length input < fuel →
  let r := (consume (HandleConn IsSpecialFqdn fuel l c additions) input).1.1 in
  r ≠ TFuel ∧
  (r = TClosed ∨ ∃ user password, mkTrojanUser user password ∈ users ∧ take KeyLength input = Key sum224 password ∧
     of_user user r ∧
     ∀ adds stream fuel', r = TMux adds → length stream < fuel' →
       let r' := (consume (handleConn IsSpecialFqdn fuel' l c true adds) stream).1.1 in r' ≠ TFuel ∧ of_user user r').
Proof.
  intros Hk Hf r. subst r. unfold HandleConn. rewrite consume_and_then, consume_recv.
  destruct (Nat.leb_spec KeyLength (length input)) as [Hl|Hl]; [|by split; [|left]].
  set (key := take KeyLength input). set (l1 := drop KeyLength input). assert (length l1 < fuel) as Hf1 by (unfold l1; rewrite length_drop; lia).
  cbn [consume Socks5.done]. rewrite Hk. destruct (make_keys sum224 users !! key) as [user|] eqn:Hkey; [|by split; [|left]].
  apply make_keys_inv in Hkey as (password & Hin & Hkey).
  rewrite consume_and_then, consume_recv. destruct (2 <=? length l1); [|by split; [|left]]. cbn [consume Socks5.done].
  pose proof (handleConn_result fuel l c false additions user (drop 2 l1) ltac:(rewrite length_drop; lia)) as (Ht & Hu & Hm).
  destruct (consume (handleConn _ _ _ _ _ _) _) as [[r l'] out]. cbn [fst snd app] in *. split; [done|]. right.
  exists user, password. split; [done|]. split; [done|]. split; [done|].
  intros adds stream fuel' Hr Hs. rewrite (Hm adds Hr).
  destruct (handleConn_result fuel' l c true additions user stream Hs) as (? & ? & _). by split.
Qed.

End server_theorems.

(** ** The reader with a buffer of the caller *)

Lemma app_assoc_split {A} n (x y : list A) : x ++ y = take n x ++ drop n x ++ y.
Proof. by rewrite app_assoc, take_drop. Qed.

Lemma consume_ReadPacket len a ua payload rest :
  259 ≤ len → udp_addr a ua → length payload ≤ maxLength →
  consume (ReadPacket len) (writePacket a payload ++ rest) =
    (inr (ua, take len payload, length payload - Nat.min len (length payload)), drop len payload ++ rest, []).
Proof.
  intros Hlen (Hw & Hu & Hne) Hl. unfold ReadPacket, writePacket. rewrite <- !app_assoc.
  set (size := be_bytes 2 (@wrap uint16 (Z.of_nat (length payload)))).
  rewrite (consume_try_ok _ _ _ (size ++ crlf ++ payload ++ rest) a).
  2: { unfold ReadAddr. destruct (Z.ltb_spec (Z.of_nat len) MaxAddrLen) as [Hx|Hx]; [unfold MaxAddrLen in Hx; lia|]. by apply consume_ReadAddr. }
  assert ((if length payload <? len then length payload else len) = Nat.min len (length payload)) as Hmin
    by (destruct (Nat.ltb_spec (length payload) len); lia).
  rewrite Hu. destruct ua as [|ip port zone|s]; [done| |].
  all: rewrite consume_recv_app by done; unfold size; rewrite size_bytes by done;
    destruct (Nat.ltb_spec maxLength (length payload)); [lia|]; rewrite consume_recv_app by done;
    rewrite Hmin, (app_assoc_split len payload); by rewrite consume_recv_app by apply length_take.
Qed.

(** The results of reads with buffers of given sizes, each with the number of
    bytes that a [Read] finds; [None] is an error. *)
Fixpoint read_all (reads : list (nat * nat)) (pc : PacketConn) (stream : list Z) : list (option (list Z * net_addr)) :=
  match reads with
  | [] => []
  | (len, avail) :: reads =>
    match consume (trojan_ReadFrom len avail pc) stream with
    | (inr (b, addr, pc'), stream', _) => Some (b, addr) :: read_all reads pc' stream'
    | (inl _, stream', _) => None :: read_all reads pc stream'
    end
  end.

(** A queue of packets: a read takes the packet at the head or a part of it that is
    not empty, the rest of it stays at the head. *)
Definition queue : Type := list (net_addr * list Z).

Definition put_back (addr : net_addr) (rest : list Z) (q : queue) : queue :=
  match rest with [] => q | _ => (addr, rest) :: q end.

Inductive takes : queue → list (list Z * net_addr) → queue → Prop :=
  | takes_none q : takes q [] q
  | takes_part addr part rest q outs q' :
      part ≠ [] ∨ rest = [] → takes (put_back addr rest q) outs q' → takes ((addr, part ++ rest) :: q) ((part, addr) :: outs) q'.

Definition queue_size (q : queue) : nat := sum_list_with (λ p, 1 + length p.2) q.

(** The reads that together are a packet. *)
Definition parts_of (p : net_addr * list Z) (parts : list (list Z * net_addr)) : Prop :=
  parts ≠ [] ∧ concat (map fst parts) = p.2 ∧ Forall (λ x, x.2 = p.1) parts.

Lemma takes_size q outs q' : takes q outs q' → length outs + queue_size q' ≤ queue_size q.
Proof.
  induction 1 as [q|addr part rest q outs q' Hne _ IH]; [done|]. cbn [length queue_size sum_list_with fst snd] in *.
  change (sum_list_with _ q) with (queue_size q). rewrite length_app.
  destruct rest as [|b rest]; cbn [put_back] in IH; [lia|]. cbn [queue_size sum_list_with snd] in IH. fold (queue_size q) in IH.
  destruct Hne as [Hne|]; [|done]. destruct part; [done|]. cbn [length] in *. lia.
Qed.

Lemma takes_all q outs : takes q outs [] → ∃ groups, outs = concat groups ∧ Forall2 parts_of q groups.
Proof.
  remember [] as q' eqn:Hq'. induction 1 as [q|addr part rest q outs q' Hne _ IH]; subst; [by exists []|].
  destruct (IH eq_refl) as (groups & -> & Hg). destruct rest as [|b rest]; cbn [put_back] in Hg.
  - exists ([(part, addr)] :: groups). split; [done|]. constructor; [|done]. rewrite app_nil_r. split; [done|]. cbn. rewrite app_nil_r. by repeat constructor.
  - apply Forall2_cons_inv_l in Hg as (g & groups' & (Hne' & Hc & Ha) & Hg & ->).
    exists (((part, addr) :: g) :: groups'). split; [done|]. constructor; [|done]. split; [done|]. cbn in *. rewrite Hc. split; [done|]. by constructor.
Qed.

(** What a connection and its stream hold. *)
Definition good (p : list Z * list Z) : Prop := udp_addr p.1 (UDPAddr p.1) ∧ length p.2 ≤ maxLength.

Definition packet_of (p : list Z * list Z) : net_addr * list Z := (UDPAddr p.1, p.2).

Definition holds (pc : PacketConn) (stream : list Z) (q : queue) : Prop :=
  ∃ tail ps, Forall good ps ∧ remain pc = length tail ∧ stream = tail ++ concat (map (uncurry writePacket) ps) ∧
    q = put_back (pc_rAddr pc) tail (map packet_of ps).

Lemma read_step len avail pc stream addr p q :
  259 ≤ len ∨ 1 ≤ len ∧ remain pc ≠ 0 → holds pc stream ((addr, p) :: q) →
  ∃ part rest pc' stream' out, consume (trojan_ReadFrom len avail pc) stream = (inr (part, addr, pc'), stream', out) ∧
    p = part ++ rest ∧ (part ≠ [] ∨ rest = []) ∧ holds pc' stream' (put_back addr rest q).
Proof.
  intros Hlens (tail & ps & Hps & Hr & -> & Hq). unfold trojan_ReadFrom. destruct tail as [|b tail].
  - cbn [length] in Hr. assert (259 ≤ len) as Hlen by lia. clear Hlens. rewrite Hr. cbn [Nat.eqb negb put_back app] in *. destruct ps as [|[a payload] ps]; [done|].
    cbn [map] in Hq. injection Hq as -> -> ->. apply Forall_cons in Hps as [[Hu Hl] Hps]. cbn [fst snd] in Hu, Hl.
    cbn [map concat uncurry]. rewrite (consume_try_ok _ _ _ _ _ (consume_ReadPacket len a _ payload _ Hlen Hu Hl)). cbn [fst snd].
    exists (take len payload), (drop len payload). cbn [consume Socks5.done]. do 3 eexists. split; [done|].
    split; [by rewrite take_drop|]. pose proof (length_drop payload len) as Hd. split.
    { destruct payload; [right; by rewrite drop_nil|left]. by destruct len; [lia|]. }
    exists (drop len payload), ps. split; [done|]. split; [|split; [done|]].
    + case_match eqn:Hz; cbn [remain].
      * rewrite Hd. lia.
      * apply negb_false_iff, Nat.eqb_eq in Hz. rewrite Hd. lia.
    + destruct (drop len payload) as [|x rest] eqn:Hdr; [done|]. cbn [length] in Hd. cbn [put_back].
      case_match eqn:Hz; [done|]. apply negb_false_iff, Nat.eqb_eq in Hz. lia.
  - cbn [put_back] in Hq. injection Hq as -> -> ->. rewrite Hr. cbn [Nat.eqb length negb].
    set (n := Nat.min _ (Nat.max 1 avail)).
    assert (1 ≤ n ≤ S (length tail)) as Hn by (unfold n; case_match eqn:Hz; [apply Nat.ltb_lt in Hz|apply Nat.ltb_ge in Hz]; lia).
    pose proof (length_drop (b :: tail) n) as Hd. cbn [length] in Hd.
    exists (take n (b :: tail)), (drop n (b :: tail)), (mkPacketConn (S (length tail) - n) (if S (length tail) - n =? 0 then NilAddr else pc_rAddr pc)).
    do 2 eexists. rewrite (app_assoc_split n (b :: tail)). rewrite consume_recv_app by (rewrite length_take; cbn [length]; lia).
    split; [done|]. split; [by rewrite take_drop|]. split; [left; by destruct n; [lia|]|].
    exists (drop n (b :: tail)), ps. split; [done|]. cbn [remain pc_rAddr]. rewrite Hd. split; [done|]. split; [done|].
    destruct (drop n (b :: tail)) as [|x rest] eqn:Hdr; [done|]. cbn [put_back]. cbn [length] in Hd. by rewrite <- Hd.
Qed.

(** A buffer that is too short for an address fails where a packet begins, and
    reads nothing. *)
Lemma read_short len avail pc stream :
  len < 259 → remain pc = 0 → ∃ e, consume (trojan_ReadFrom len avail pc) stream = (inl e, stream, []).
Proof.
  intros Hlen Hr. unfold trojan_ReadFrom, ReadPacket, ReadAddr. rewrite Hr. cbn [Nat.eqb negb].
  destruct (Z.ltb_spec (Z.of_nat len) MaxAddrLen) as [|Hx]; [by eexists|unfold MaxAddrLen in Hx; lia].
Qed.

Lemma read_end len avail pc stream :
  holds pc stream [] → ∃ e, consume (trojan_ReadFrom len avail pc) stream = (inl e, stream, []).
Proof.
  intros (tail & ps & Hps & Hrem & -> & Hq). destruct tail; [|done]. destruct ps; [|done].
  cbn [length] in Hrem. unfold trojan_ReadFrom. rewrite Hrem. cbn [Nat.eqb negb app map concat].
  unfold ReadPacket, ReadAddr. by destruct (Z.ltb_spec (Z.of_nat len) MaxAddrLen); eexists.
Qed.

Lemma read_all_takes reads pc stream q :
  Forall (λ r, 1 ≤ r.1) reads → holds pc stream q →
  let outs := read_all reads pc stream in
  length outs = length reads ∧ (∃ q', takes q (omap id outs) q') ∧
  ∀ i r, reads !! i = Some r → 259 ≤ r.1 → outs !! i = Some None → takes q (omap id (take i outs)) [].
Proof.
  intros Hr. revert pc stream q. induction Hr as [|[len avail] reads Hlen _ IH]; intros pc stream q Hh.
  { split; [done|]. split; [exists q; constructor|done]. }
  cbn [fst] in Hlen. cbn [read_all].
  assert ((∃ e, consume (trojan_ReadFrom len avail pc) stream = (inl e, stream, []) ∧ (len < 259 ∨ q = [])) ∨
    ∃ addr p q0, q = (addr, p) :: q0 ∧ (259 ≤ len ∨ 1 ≤ len ∧ remain pc ≠ 0)) as [(e & -> & Hwhy)|(addr & p & q0 & -> & Hgood)].
  { destruct q as [|[addr p] q0]; [left; destruct (read_end len avail pc stream Hh) as [e He]; eauto|].
    destruct (decide (259 ≤ len)); [right; eauto 8|]. destruct (decide (remain pc = 0)) as [Hz|Hz]; [|right; eauto 8].
    left. destruct (read_short len avail pc stream ltac:(lia) Hz) as [e He]. exists e. split; [done|]. left. lia. }
  - destruct (IH pc stream q Hh) as (Hl & Ht & Hf). cbn zeta in *. split; [cbn [length]; by rewrite Hl|]. split; [exact Ht|].
    intros [|i] r; [|apply Hf]. intros [= <-] Hbig _. destruct Hwhy as [| ->]; [cbn [fst] in Hbig; lia|constructor].
  - destruct (read_step len avail pc stream addr p q0 Hgood Hh) as (part & rest & pc' & stream' & out & -> & -> & Hne & Hh').
    destruct (IH pc' stream' _ Hh') as (Hl & (q' & Ht) & Hf). cbn zeta in *. split; [cbn [length]; by rewrite Hl|].
    split; [exists q'; by constructor|]. intros [|i] r; [done|]. intros Hi Hbig Ho. cbn. constructor; [done|]. by eapply Hf.
Qed.

Lemma sent_packets sends :
  Forall (λ s, sock_addr s.2.1 s.2.2 ∧ length s.1 ≤ maxLength) sends →
  ∃ ps, concat (map sent sends) = concat (map (uncurry writePacket) ps) ∧ Forall good ps ∧
    Forall2 (λ s p, p.2 = s.1 ∧ ∃ ip, p.1 = IPAddr ip s.2.2 "" ∧ AddrFromSlice ip = Unmap (AddrFromSlice s.2.1)) sends (map packet_of ps).
Proof.
  induction 1 as [|[payload [ip port]] sends [Hs Hl] _ (ps & Hst & Hps & Hq)]; [by exists []|]. cbn [fst snd] in Hs, Hl.
  destruct (encoded_addr ip port "" Hs) as (a & Ha & Hw & _ & ip' & Hua & Hip' & _).
  exists ((a, payload) :: ps). cbn [map concat uncurry]. split; [|split].
  - rewrite <- Hst. f_equal. unfold sent, trojan_WriteTo. cbn [fst snd]. rewrite Ha. cbn [default]. unfold id, WritePacket.
    rewrite (proj2 (Nat.leb_le _ _) Hl). cbn [default fst concat]. by rewrite app_nil_r.
  - constructor; [|done]. split; [|done]. cbn [fst]. by rewrite Hua.
  - constructor; [|done]. split; [done|]. exists ip'. done.
Qed.

(** The reads whose buffers take any address. *)
Definition roomy (reads : list (nat * nat)) : nat := length (filter (λ r, 259 ≤ r.1) reads).

Lemma takes_roomy (reads : list (nat * nat)) (outs : list (option (list Z * net_addr))) q q' :
  length outs = length reads → takes q (omap id outs) q' →
  (∀ i r, reads !! i = Some r → 259 ≤ r.1 → outs !! i = Some None → takes q (omap id (take i outs)) []) →
  queue_size q ≤ roomy reads → takes q (omap id outs) [].
Proof.
  revert outs q. induction reads as [|[len avail] reads IH]; intros [|[x|] outs] q Hl Ht Hf Hs; try done.
  - destruct q as [|[addr p] q]; [constructor|]. unfold roomy in Hs. cbn in Hs. lia.
  - cbn in Ht. inversion Ht as [|addr part rest q0 outs0 q1 Hne Ht1]; subst. cbn. constructor; [done|].
    apply (IH outs); [cbn in Hl; lia|done| |].
    + intros i r Hi Hbig Ho. specialize (Hf (S i) r Hi Hbig Ho). cbn in Hf.
      by inversion Hf; simplify_eq.
    + assert (roomy ((len, avail) :: reads) ≤ S (roomy reads)) by (unfold roomy; rewrite filter_cons; case_decide; cbn [length]; lia).
      cbn [queue_size sum_list_with snd] in Hs. fold (queue_size q0) in Hs. rewrite length_app in Hs.
      destruct rest as [|b rest]; cbn [put_back]; [lia|].
      cbn [queue_size sum_list_with snd]. fold (queue_size q0).
      destruct Hne as [Hne|]; [|done]. destruct part; [done|]. cbn [length] in *. lia.
  - cbn in Ht |- *. destruct (decide (259 ≤ len)) as [Hbig|Hsmall].
    + specialize (Hf 0 (len, avail) eq_refl Hbig eq_refl). cbn in Hf. inversion Hf; subst. inversion Ht; subst. constructor.
    + apply (IH outs); [cbn in Hl; lia|done|intros i r Hi; apply (Hf (S i) r Hi)|].
      unfold roomy in *. by rewrite filter_cons_False in Hs.
Qed.



(** ** An example *)

Definition example_sum (l : list Z) : list Z := take 28 (l ++ replicate 28 0%Z).

Definition example_users : list TrojanUser := [mkTrojanUser "alice" "secret"; mkTrojanUser "bob" "password"].

Definition example_listener : TrojanListener := mkTrojanListener (make_keys example_sum example_users) [WithInName "DEFAULT-TROJAN"].

Definition example_ends : Ends := mkEnds example_peer example_local.


Definition example_input : list Z := trojan_header (Key example_sum "secret") example_m ++ [1; 2; 3]%Z.

Lemma trojan_authenticated_witness :
  let r := (consume (HandleConn (λ _, false) 100 example_listener example_ends []) example_input).1.1 in
  r ≠ TFuel ∧ (r = TClosed ∨ ∃ user password, mkTrojanUser user password ∈ example_users ∧
    take KeyLength example_input = Key example_sum password ∧ of_user user r ∧
    ∀ adds stream fuel', r = TMux adds → length stream < fuel' →
      let r' := (consume (handleConn (λ _, false) fuel' example_listener example_ends true adds) stream).1.1 in r' ≠ TFuel ∧ of_user user r').
Proof. apply (trojan_authenticated example_sum (λ _, false) example_users); [reflexivity|vm_compute; lia]. Defined.

(** ** What is wrong *)

(** The count that [WriteTo] returns is that of the packet when the payload is
    short, with its header, and that of the payload when it is long. *)
Lemma write_counts a payload ws n :
  WritePacket a payload = Some (ws, n) →
  n = (if length payload <=? maxLength then Z.of_nat (length a + 4 + length payload) else Z.of_nat (length payload)).
Proof.
  unfold WritePacket. destruct (length payload <=? maxLength).
  - intros [= _ <-]. unfold writePacket. rewrite !length_app, be_bytes_length. cbn [length crlf]. lia.
  - destruct (write_loop _ _ _ _); [|done]. by intros [= _ <-].
Qed.

(** A packet to a name, which the outbound's peers may send, ends the connection. *)
Lemma name_ends_packets host port payload :
  length host ≤ 255 → (consume WaitReadFrom (writePacket (domain_addr host (be_bytes 2 port)) payload)).1.1 = inl ErrAddress.
Proof.
  intros Hh. unfold WaitReadFrom, writePacket.
  rewrite (consume_try_ok _ _ _ (be_bytes 2 (@wrap uint16 (Z.of_nat (length payload))) ++ crlf ++ payload) (domain_addr host (be_bytes 2 port)));
    [done|]. rewrite ReadAddr0_ReadAddr. apply consume_ReadAddr, domain_whole; [lia|apply be_bytes_length].
Qed.
