(* ===== verification/Statistic.v ===== *)
(** * The statistics of connections: [tunnel/statistic]

    The manager's counters and the trackers that count the traffic of connections.
    Every operation is the sequence of its atomic actions ([atom]), and the
    goroutines that run them interleave ([step]).  A tracker is a reference into
    the list of all that were made.  A UUID is an argument of the call that makes
    a tracker; the memory of the process is the argument of [updateMemory].

    The theorem [traffic_conserved]: at rest the manager's totals are the sums of
    what its trackers counted, and what is left of the current second and the
    rates shown so far add up to them. *)

From Stdlib Require Import ZArith Lia String.
From stdpp Require Import prelude strings gmap list relations.
From S2P Require Import Prelude.

Open Scope Z_scope.

Inductive direction := Up | Down.

#[export] Instance direction_eq_dec : EqDecision direction.
Proof. solve_decision. Defined.

(** [UploadTotal] and [DownloadTotal] are [ti_Total]. *)
Record TrackerInfo := mkInfo {
  UUID : string;
  ti_Total : direction → Z;
  ProviderChain : list string;
  ti_Rule : string;
  ti_RulePayload : string;
  pushToManager : bool;
}.

(** [uploadTemp], [uploadBlip] and [uploadTotal] are the values of [Temp], [Blip]
    and [Total] at [Up].  [swapped] is the value that [handle] holds between its
    two calls; [shown] is the history of the rates, which the program does not
    keep. *)
Record Manager := mkManager {
  connections : gmap string nat;
  Temp : direction → Z;
  Blip : direction → Z;
  Total : direction → Z;
  memory : Z;
  swapped : Z;
  shown : direction → list Z;
}.

(** The manager with all trackers that were made. *)
Record world := mkWorld { manager : Manager; trackers : list TrackerInfo }.

Definition upd {A} (d : direction) (f : A → A) (g : direction → A) : direction → A := λ d', if decide (d' = d) then f (g d') else g d'.

Definition set_traffic (temp blip total : direction → Z) (s : Z) (h : direction → list Z) (m : Manager) : Manager :=
  mkManager (connections m) temp blip total (memory m) s h.

Definition set_connections (c : gmap string nat) (m : Manager) : Manager :=
  mkManager c (Temp m) (Blip m) (Total m) (memory m) (swapped m) (shown m).

Definition NewManager : Manager := mkManager ∅ (λ _, 0) (λ _, 0) (λ _, 0) 0 0 (λ _, []).

(** ** Atomic actions *)

Inductive atom :=
  | TempAdd (d : direction) (n : Z)
  | TotalAdd (d : direction) (n : Z)
  | InfoAdd (t : nat) (d : direction) (n : Z)
  | TempSwap (d : direction)
  | BlipStoreSwapped (d : direction)
  | TempStore (d : direction) (v : Z)
  | BlipStore (d : direction) (v : Z)
  | TotalStore (d : direction) (v : Z)
  | ConnStore (t : nat)
  | ConnDelete (t : nat).

Definition add64 (n : Z) (v : Z) : Z := @wrap int64 (v + n).

Definition info_add (d : direction) (n : Z) (i : TrackerInfo) : TrackerInfo :=
  mkInfo (UUID i) (upd d (add64 n) (ti_Total i)) (ProviderChain i) (ti_Rule i) (ti_RulePayload i) (pushToManager i).

Definition exec_manager (a : atom) (m : Manager) : Manager :=
  match a with
  | TempAdd d n => set_traffic (upd d (add64 n) (Temp m)) (Blip m) (Total m) (swapped m) (shown m) m
  | TotalAdd d n => set_traffic (Temp m) (Blip m) (upd d (add64 n) (Total m)) (swapped m) (shown m) m
  | TempSwap d => set_traffic (upd d (λ _, 0) (Temp m)) (Blip m) (Total m) (Temp m d) (shown m) m
  | BlipStoreSwapped d =>
    set_traffic (Temp m) (upd d (λ _, swapped m) (Blip m)) (Total m) 0 (upd d (cons (swapped m)) (shown m)) m
  | TempStore d v => set_traffic (upd d (λ _, v) (Temp m)) (Blip m) (Total m) (swapped m) (shown m) m
  | BlipStore d v => set_traffic (Temp m) (upd d (λ _, v) (Blip m)) (Total m) (swapped m) (shown m) m
  | TotalStore d v => set_traffic (Temp m) (Blip m) (upd d (λ _, v) (Total m)) (swapped m) (shown m) m
  | _ => m
  end.

Definition exec (a : atom) (w : world) : world :=
  match a with
  | InfoAdd t d n => mkWorld (manager w) (alter (info_add d n) t (trackers w))
  | ConnStore t =>
    match trackers w !! t with
    | Some i => mkWorld (set_connections (<[UUID i := t]> (connections (manager w))) (manager w)) (trackers w)
    | None => w
    end
  | ConnDelete t =>
    match trackers w !! t with
    | Some i => mkWorld (set_connections (delete (UUID i) (connections (manager w))) (manager w)) (trackers w)
    | None => w
    end
  | a => mkWorld (exec_manager a (manager w)) (trackers w)
  end.

(** ** Operations *)

Definition PushUploaded (size : Z) : list atom := [TempAdd Up size; TotalAdd Up size].

Definition PushDownloaded (size : Z) : list atom := [TempAdd Down size; TotalAdd Down size].

Definition Push (d : direction) : Z → list atom := match d with Up => PushUploaded | Down => PushDownloaded end.

Definition Join (t : nat) : list atom := [ConnStore t].

Definition Leave (t : nat) : list atom := [ConnDelete t].

Definition ResetStatistic : list atom :=
  [TempStore Up 0; BlipStore Up 0; TotalStore Up 0; TempStore Down 0; BlipStore Down 0; TotalStore Down 0].

(** One turn of the loop of [handle]. *)
Definition tick : list atom := [TempSwap Up; BlipStoreSwapped Up; TempSwap Down; BlipStoreSwapped Down].

(** What a tracker does with the [n] bytes that a read or write reports: [Read],
    [ReadFrom], [WaitReadFrom] and the counter of [UnwrapReader] count [Down], the
    writes [Up]. *)
Definition track (i : TrackerInfo) (t : nat) (d : direction) (n : Z) : list atom :=
  (if pushToManager i then Push d n else []) ++ [InfoAdd t d n].

(** [NewTCPTracker] and [NewUDPTracker] for the tracker [t]. *)
Definition new_info (uuid : string) (chain : list string) (rule : option (string * string)) (uploadTotal downloadTotal : Z) (push : bool) : TrackerInfo :=
  let r := default (""%string, ""%string) rule in
  mkInfo uuid (λ d, match d with Up => uploadTotal | Down => downloadTotal end) chain r.1 r.2 push.

Definition new_tracker (t : nat) (uploadTotal downloadTotal : Z) (push : bool) : list atom :=
  (if push then
     (if 0 <? uploadTotal then PushUploaded uploadTotal else []) ++ (if 0 <? downloadTotal then PushDownloaded downloadTotal else [])
   else []) ++ Join t.

(** ** Goroutines

    A call begins a goroutine's sequence of actions; the loop of [handle] is one of
    its own. *)
Inductive call :=
  | CNew (uuid : string) (chain : list string) (rule : option (string * string)) (uploadTotal downloadTotal : Z) (push : bool)
  | CTrack (t : nat) (d : direction) (n : Z)
  | CClose (t : nat)
  | CReset.

Definition begin (c : call) (w : world) : world * list atom :=
  match c with
  | CNew uuid chain rule up down push =>
    (mkWorld (manager w) (trackers w ++ [new_info uuid chain rule up down push]), new_tracker (length (trackers w)) up down push)
  | CTrack t d n => (w, match trackers w !! t with Some i => track i t d n | None => [] end)
  | CClose t => (w, Leave t)
  | CReset => (w, ResetStatistic)
  end.

Record state := mkState { st_world : world; loop : list atom; threads : list (list atom) }.

Definition initial : state := mkState (mkWorld NewManager []) [] [].

Inductive step (ok : call → Prop) : state → state → Prop :=
  | step_call c w w' p l ts : ok c → begin c w = (w', p) → step ok (mkState w l ts) (mkState w' l (p :: ts))
  | step_tick w ts : step ok (mkState w [] ts) (mkState w tick ts)
  | step_loop w a l ts : step ok (mkState w (a :: l) ts) (mkState (exec a w) l ts)
  | step_thread w l ts1 a p ts2 : step ok (mkState w l (ts1 ++ (a :: p) :: ts2)) (mkState (exec a w) l (ts1 ++ p :: ts2))
  | step_end w l ts1 ts2 : step ok (mkState w l (ts1 ++ [] :: ts2)) (mkState w l (ts1 ++ ts2)).

(** ** What the API shows *)

Definition Now (m : Manager) : Z * Z := (Blip m Up, Blip m Down).

Definition Total_of (m : Manager) : Z * Z := (Total m Up, Total m Down).

Definition Get (m : Manager) (id : string) : option nat := connections m !! id.

Record Snapshot := mkSnapshot { DownloadTotal : Z; UploadTotal : Z; Connections : list TrackerInfo; sn_Memory : Z }.

Definition updateMemory (rss : option Z) (m : Manager) : Manager :=
  match rss with
  | Some r => mkManager (connections m) (Temp m) (Blip m) (Total m) r (swapped m) (shown m)
  | None => m
  end.

(** In some order of the map. *)
Definition take_snapshot (w : world) : Snapshot :=
  mkSnapshot (Total (manager w) Down) (Total (manager w) Up)
    (omap (λ kt, trackers w !! kt.2) (map_to_list (connections (manager w)))) (memory (manager w)).

(** [proxySetProvider.closeAllConnections] for the name of a provider: of the
    manager, closing the connections themselves apart; [order] is the order in
    which the map is visited. *)
Definition closeAllConnections (name : string) (order : list (string * nat)) (w : world) : world :=
  foldl (λ w kt, match trackers w !! kt.2 with
                 | Some i => if bool_decide (name ∈ ProviderChain i) then foldl (flip exec) w (Leave kt.2) else w
                 | None => w
                 end) w order.

(** ** Congruence modulo [2 ^ 64] *)

Definition eq64 (a b : Z) : Prop := ∃ k, a = b + k * 2 ^ 64.

Lemma wrap_eq64 a : eq64 (@wrap int64 a) a.
Proof.
  unfold eq64, wrap, tmin. cbn [it_signed it_width int64]. exists (- ((a - - 2 ^ (64 - 1)) / 2 ^ 64)).
  pose proof (Z.div_mod (a - - 2 ^ (64 - 1)) (2 ^ 64) ltac:(done)). lia.
Qed.

Lemma eq64_in_type a b : @in_type int64 a → eq64 a b → a = @wrap int64 b.
Proof.
  intros Ha (k & ->). destruct (wrap_eq64 b) as (j & Hj). pose proof (@wrap_in_type int64 b) as Hb.
  rewrite Hj in *. clear Hj. unfold in_type, tmin, tmax in *. cbn [it_signed it_width int64] in *. nia.
Qed.

Lemma upd_eq {A} d (f : A → A) g : upd d f g d = f (g d).
Proof. unfold upd. by rewrite decide_True. Qed.

Lemma upd_ne {A} d d' (f : A → A) g : d' ≠ d → upd d f g d' = g d'.
Proof. intros. unfold upd. by rewrite decide_False. Qed.

Lemma eq64_refl a : eq64 a a.
Proof. exists 0. lia. Qed.

Lemma add64_eq64 n v : eq64 (add64 n v) (v + n).
Proof. apply wrap_eq64. Qed.

(** ** The account *)

(** The sum of what some trackers counted in a direction. *)
Definition counted (d : direction) (tis : list TrackerInfo) : Z := foldr (λ i s, ti_Total i d + s) 0 tis.

(** The trackers that push to the manager. *)
Definition pushing (tis : list TrackerInfo) : list TrackerInfo := filter (λ i, pushToManager i = true) tis.

(** What actions that are still to come add to a counter. *)
Definition sum_of (f : atom → Z) (p : list atom) : Z := foldr (λ a s, f a + s) 0 p.

Definition to_total (d : direction) (a : atom) : Z := match a with TotalAdd d' n => if decide (d' = d) then n else 0 | _ => 0 end.

Definition to_temp (d : direction) (a : atom) : Z := match a with TempAdd d' n => if decide (d' = d) then n else 0 | _ => 0 end.

Definition pushes (tis : list TrackerInfo) (t : nat) : bool := match tis !! t with Some i => pushToManager i | None => false end.

Definition to_info (tis : list TrackerInfo) (d : direction) (a : atom) : Z :=
  match a with InfoAdd t d' n => if decide (d' = d) then if pushes tis t then n else 0 else 0 | _ => 0 end.

(** The actions of calls. *)
Definition plain (tis : list TrackerInfo) (a : atom) : Prop :=
  match a with
  | TempAdd _ _ | TotalAdd _ _ | ConnStore _ | ConnDelete _ => True
  | InfoAdd t _ _ => (t < length tis)%nat
  | _ => False
  end.

Lemma sum_of_app f p q : sum_of f (p ++ q) = sum_of f p + sum_of f q.
Proof. induction p as [|a p IH]; simpl; lia. Qed.

Lemma sum_of_concat f ts : sum_of f (concat ts) = foldr (λ p s, sum_of f p + s) 0 ts.
Proof. induction ts as [|p ts IH]; [done|]. cbn [concat foldr]. by rewrite sum_of_app, IH. Qed.

Lemma sum_of_ext f g p : Forall (λ a, f a = g a) p → sum_of f p = sum_of g p.
Proof. induction 1 as [|a p Ha _ IH]; [done|]. unfold sum_of in *. cbn. by rewrite Ha, IH. Qed.

Lemma counted_pushing_cons d i tis :
  counted d (pushing (i :: tis)) = (if pushToManager i then ti_Total i d else 0) + counted d (pushing tis).
Proof.
  unfold pushing. rewrite filter_cons. destruct (pushToManager i) eqn:Hp; [by rewrite decide_True|]. rewrite decide_False by done. lia.
Qed.

Lemma counted_pushing_snoc d i tis :
  counted d (pushing (tis ++ [i])) = counted d (pushing tis) + (if pushToManager i then ti_Total i d else 0).
Proof.
  induction tis as [|j tis IH]; cbn [app]; rewrite counted_pushing_cons; [rewrite Z.add_0_r; cbn; lia|]. rewrite counted_pushing_cons, IH. lia.
Qed.

Lemma counted_alter d d' n t tis :
  eq64 (counted d (pushing (alter (info_add d' n) t tis))) (counted d (pushing tis) + to_info tis d (InfoAdd t d' n)).
Proof.
  revert t. induction tis as [|i tis IH]; intros t; [exists 0; unfold to_info, pushes; rewrite lookup_nil; by destruct t, (decide (d' = d))|].
  destruct t as [|t].
  - change (alter (info_add d' n) 0%nat (i :: tis)) with (info_add d' n i :: tis). rewrite !counted_pushing_cons. cbn [info_add pushToManager ti_Total].
    unfold to_info, pushes. cbn. destruct (pushToManager i); [|exists 0; destruct (decide _); lia].
    destruct (decide (d' = d)) as [->|Hne]; [rewrite upd_eq|rewrite upd_ne by done; exists 0; lia].
    destruct (add64_eq64 n (ti_Total i d)) as (k & ->). exists k. lia.
  - change (alter (info_add d' n) (S t) (i :: tis)) with (i :: alter (info_add d' n) t tis). rewrite !counted_pushing_cons.
    destruct (IH t) as (k & ->). exists k. change (to_info (i :: tis) d (InfoAdd (S t) d' n)) with (to_info tis d (InfoAdd t d' n)). lia.
Qed.

Lemma pushes_alter d n t tis t' : pushes (alter (info_add d n) t tis) t' = pushes tis t'.
Proof.
  unfold pushes. destruct (decide (t = t')) as [->|Hne]; [|by rewrite list_lookup_alter_ne].
  rewrite list_lookup_alter_eq. by destruct (tis !! t').
Qed.

Lemma to_info_alter d' n t tis d a : to_info (alter (info_add d' n) t tis) d a = to_info tis d a.
Proof. destruct a; try done. unfold to_info. by rewrite pushes_alter. Qed.

(** What is due in a direction: counted, or about to be counted. *)
Definition due (d : direction) (tis : list TrackerInfo) (p : list atom) : Z := counted d (pushing tis) + sum_of (to_info tis d) p.

(** The rate that the loop holds and has not stored. *)
Definition held (d : direction) (l : list atom) (m : Manager) : Z :=
  match l with BlipStoreSwapped d' :: _ => if decide (d' = d) then swapped m else 0 | _ => 0 end.

Definition sum_shown (d : direction) (m : Manager) : Z := foldr Z.add 0 (shown m d).

Record accounts (s : state) : Prop := mkAccounts {
  acc_total d : eq64 (Total (manager (st_world s)) d + sum_of (to_total d) (concat (threads s))) (due d (trackers (st_world s)) (concat (threads s)));
  acc_temp d : eq64 (Temp (manager (st_world s)) d + sum_of (to_temp d) (concat (threads s)) + held d (loop s) (manager (st_world s))
      + sum_shown d (manager (st_world s))) (due d (trackers (st_world s)) (concat (threads s)));
  acc_plain : Forall (plain (trackers (st_world s))) (concat (threads s));
  acc_loop : loop s `suffix_of` tick;
  acc_range d : @in_type int64 (Total (manager (st_world s)) d);
}.

(** An action of a call moves what it does from the actions to come to the counters. *)
Lemma exec_plain a w d :
  plain (trackers w) a →
  eq64 (Total (manager (exec a w)) d) (Total (manager w) d + to_total d a) ∧
  eq64 (Temp (manager (exec a w)) d) (Temp (manager w) d + to_temp d a) ∧
  eq64 (counted d (pushing (trackers (exec a w)))) (counted d (pushing (trackers w)) + to_info (trackers w) d a) ∧
  (∀ b, to_info (trackers (exec a w)) d b = to_info (trackers w) d b) ∧
  swapped (manager (exec a w)) = swapped (manager w) ∧ shown (manager (exec a w)) = shown (manager w) ∧
  length (trackers (exec a w)) = length (trackers w) ∧
  (@in_type int64 (Total (manager w) d) → @in_type int64 (Total (manager (exec a w)) d)).
Proof.
  assert (∀ v, eq64 v (v + 0)) as H0 by (intros v; exists 0; lia).
  assert (∀ d' n v, eq64 (upd d' (add64 n) v d) (v d + (if decide (d' = d) then n else 0))) as Hupd.
  { intros d' n v. destruct (decide (d' = d)) as [->|]; [rewrite upd_eq; apply add64_eq64|rewrite upd_ne by done; apply H0]. }
  destruct a as [d' n|d' n|t d' n|d'|d'|d' v|d' v|d' v|t|t]; try done; intros _; unfold exec; cbn [manager trackers exec_manager set_traffic].
  - split_and!; cbn; auto.
  - split_and!; cbn; auto. destruct (decide (d' = d)) as [->|]; [rewrite upd_eq; intros _; apply wrap_in_type|by rewrite upd_ne].
  - split_and!; cbn; auto; [apply counted_alter|intros b; apply to_info_alter|apply length_alter].
  - destruct (trackers w !! t); cbn; split_and!; auto.
  - destruct (trackers w !! t); cbn; split_and!; auto.
Qed.

Ltac count_lia := repeat case_decide; try done; unfold sum_of in *; lia.

(** The actions of the loop that are left are the last of a turn. *)
Ltac loop_cases H := destruct H as ([|? [|? [|? [|? ?]]]] & H); simpl in H; try discriminate_list; simplify_eq H; intros; subst.

(** A call that counts bytes; resetting the statistics is left to a lemma of its own. *)
Definition counts (c : call) : Prop :=
  match c with
  | CNew _ _ _ up down push => push = true → 0 ≤ up ∧ 0 ≤ down
  | CReset => False
  | _ => True
  end.

Lemma plain_mono tis i a : plain tis a → plain (tis ++ [i]) a.
Proof. destruct a; try done. cbn. rewrite length_app. lia. Qed.

Lemma to_info_snoc tis i d a : plain tis a → to_info (tis ++ [i]) d a = to_info tis d a.
Proof. destruct a; try done. cbn. intros. unfold to_info, pushes. by rewrite lookup_app_l. Qed.

Lemma begin_due c w w' p q :
  counts c → begin c w = (w', p) → Forall (plain (trackers w)) q →
  manager w' = manager w ∧ Forall (plain (trackers w')) (p ++ q) ∧
  ∀ d, sum_of (to_total d) p = sum_of (to_temp d) p ∧ due d (trackers w') (p ++ q) = due d (trackers w) q + sum_of (to_total d) p.
Proof.
  intros Hc Hb Hq. destruct c as [uuid chain rule up down push|t dir n|t|]; cbn in Hb; [injection Hb as <- <- | injection Hb as <- <- | injection Hb as <- <- | done]; cbn [manager trackers].
  - split; [done|]. split.
    { apply Forall_app. split; [|by apply (Forall_impl _ _ _ Hq), plain_mono].
      unfold new_tracker. destruct push; [destruct (0 <? up), (0 <? down)|]; by repeat constructor. }
    intros d. assert (sum_of (to_info (trackers w ++ [new_info uuid chain rule up down push]) d) q = sum_of (to_info (trackers w) d) q) as Hext.
    { apply sum_of_ext, (Forall_impl _ _ _ Hq). intros a. apply to_info_snoc. }
    unfold due. rewrite sum_of_app, Hext, counted_pushing_snoc. cbn [new_info pushToManager ti_Total]. unfold new_tracker, PushUploaded, PushDownloaded.
    destruct push; [|destruct d; cbn; count_lia]. destruct (Hc eq_refl) as [Hup Hdown].
    destruct (Z.ltb_spec 0 up), (Z.ltb_spec 0 down), d; cbn; count_lia.
  - destruct (trackers w !! t) as [i|] eqn:Hi; [|split; [done|]; split; [done|]; intros d; by rewrite Z.add_0_r].
    assert (t < length (trackers w))%nat as Ht by (by eapply lookup_lt_Some). unfold track. split; [done|]. split.
    { apply Forall_app. split; [|done]. destruct (pushToManager i), dir; by repeat constructor. }
    intros d. unfold due. rewrite sum_of_app. assert (pushes (trackers w) t = pushToManager i) as Hp by (unfold pushes; by rewrite Hi).
    destruct (pushToManager i) eqn:Hpi, dir, d; cbn; rewrite ?Hp, ?Hpi; count_lia.
  - split; [done|]. split; [by constructor|]. intros d. unfold due. cbn. count_lia.
Qed.

Lemma accounts_call c w w' p l ts :
  counts c → begin c w = (w', p) → accounts (mkState w l ts) → accounts (mkState w' l (p :: ts)).
Proof.
  intros Hc Hb [Ht Hp Hq Hl Hr]. cbn [st_world loop threads] in *.
  destruct (begin_due c w w' p _ Hc Hb Hq) as (Hm & Hq' & Hd). constructor; cbn [st_world loop threads concat]; rewrite ?Hm; try done.
  - intros d. destruct (Hd d) as [_ ->]. rewrite sum_of_app. destruct (Ht d) as (k & Hk). exists k. lia.
  - intros d. destruct (Hd d) as [He ->]. rewrite sum_of_app, <- He. destruct (Hp d) as (k & Hk). exists k. lia.
Qed.

Lemma accounts_thread a w l p q :
  accounts (mkState w l [q ++ a :: p]) → accounts (mkState (exec a w) l [q ++ p]).
Proof.
  intros [Ht Hp Hq Hl Hr]. cbn [st_world loop threads concat] in *. rewrite !app_nil_r in *.
  apply Forall_app in Hq as [Hq [Ha Hp']%Forall_cons].
  assert (∀ f, sum_of f (q ++ a :: p) = sum_of f (q ++ p) + f a) as Hsum by (intros f; rewrite !sum_of_app; cbn; unfold sum_of; lia).
  pose proof (λ d, exec_plain a w d Ha) as He.
  assert (∀ d, eq64 (due d (trackers (exec a w)) (q ++ p)) (due d (trackers w) (q ++ a :: p))) as Hdue.
  { intros d. destruct (He d) as (_ & _ & (k & Hk) & Hext & _). unfold due.
    rewrite Hsum, (sum_of_ext (to_info (trackers (exec a w)) d) (to_info (trackers w) d)) by (apply Forall_true; apply Hext).
    rewrite Hk. exists k. lia. }
  constructor; cbn [st_world loop threads concat]; rewrite ?app_nil_r; try done.
  - intros d. destruct (He d) as ((k1 & Hk1) & _). destruct (Hdue d) as (k2 & Hk2). destruct (Ht d) as (k3 & Hk3). rewrite Hsum in Hk3.
    exists (k1 + k3 - k2). lia.
  - intros d. destruct (He d) as (_ & (k1 & Hk1) & _ & _ & Hsw & Hsh & _). destruct (Hdue d) as (k2 & Hk2). destruct (Hp d) as (k3 & Hk3).
    rewrite Hsum in Hk3. unfold held, sum_shown in *. rewrite Hsw, Hsh. exists (k1 + k3 - k2). lia.
  - assert (length (trackers (exec a w)) = length (trackers w)) as Hlen by (by destruct (He Up) as (_ & _ & _ & _ & _ & _ & ? & _)).
    apply Forall_app. split; [apply (Forall_impl _ _ _ Hq)|apply (Forall_impl _ _ _ Hp')]; intros b; unfold plain; by rewrite Hlen.
  - intros d. destruct (He d) as (_ & _ & _ & _ & _ & _ & _ & Hran). by apply Hran.
Qed.

Lemma accounts_concat w l ts : accounts (mkState w l ts) ↔ accounts (mkState w l [concat ts]).
Proof. split; intros [? ? ? ? ?]; constructor; cbn [st_world loop threads concat] in *; rewrite ?app_nil_r in *; done. Qed.

Lemma accounts_loop w a l ts : accounts (mkState w (a :: l) ts) → accounts (mkState (exec a w) l ts).
Proof.
  intros [Ht Hp Hq Hl Hr]. cbn [st_world loop threads] in *. unfold held, sum_shown, tick in *.
  assert (∀ d, a = TempSwap d → l = BlipStoreSwapped d :: drop 1 l) as Hnext.
  { intros d ->. by loop_cases Hl. }
  assert ((∃ d, a = TempSwap d) ∨ (∃ d, a = BlipStoreSwapped d ∧ held Up l (manager w) = 0 ∧ held Down l (manager w) = 0)) as Hcase.
  { loop_cases Hl; eauto 10. }
  assert (l `suffix_of` tick) as Hl' by (etrans; [|exact Hl]; by exists [a]).
  destruct Hcase as [(d0 & ->)|(d0 & -> & Hh1 & Hh2)].
  - rewrite (Hnext d0 eq_refl). constructor; cbn; try done; [|by rewrite <- (Hnext d0 eq_refl)].
    intros d. specialize (Hp d). cbn in Hp. unfold sum_shown. cbn. destruct (decide (d0 = d)) as [->|Hne].
    + rewrite upd_eq. destruct Hp as (k & Hk). exists k. unfold sum_shown in *. count_lia.
    + rewrite upd_ne by done. destruct Hp as (k & Hk). exists k. unfold sum_shown in *. count_lia.
  - assert (∀ d m, held d l m = 0) as Hh.
    { intros d m. revert Hh1 Hh2. by loop_cases Hl. }
    constructor; cbn; try done.
    intros d. specialize (Hp d). cbn in Hp. rewrite Hh. unfold sum_shown. cbn. destruct (decide (d0 = d)) as [->|Hne].
    + rewrite upd_eq. cbn. destruct Hp as (k & Hk). exists k. unfold sum_shown in *. repeat case_decide; try done. count_lia.
    + rewrite upd_ne by done. destruct Hp as (k & Hk). exists k. unfold sum_shown in *. count_lia.
Qed.

Lemma accounts_step s s' : accounts s → step counts s s' → accounts s'.
Proof.
  intros Ha Hs. destruct Hs as [c w w' p l ts Hc Hb|w ts|w a l ts|w l ts1 a p ts2|w l ts1 ts2].
  - by eapply accounts_call.
  - destruct Ha as [? ? ? ? ?]. constructor; cbn in *; try done. 
  - by apply accounts_loop.
  - apply accounts_concat. apply accounts_concat in Ha. rewrite !concat_app in *. cbn [concat app] in *. by apply accounts_thread.
  - apply accounts_concat. apply accounts_concat in Ha. rewrite !concat_app in *. done.
Qed.

Lemma accounts_initial : accounts initial.
Proof.
  constructor; [intros d; by exists 0|intros d; by exists 0|constructor|by exists tick|].
  intros d. by split.
Qed.

Lemma accounts_reachable s : rtc (step counts) initial s → accounts s.
Proof.
  revert s. apply (rtc_ind_r accounts initial); [apply accounts_initial|]. intros s s' _ Hs Ha. by eapply accounts_step.
Qed.

(** C28: Whatever goroutines count in whatever interleaving, once their actions are
    done the manager's totals are the sums of what its trackers counted, as a
    64-bit integer; and while the loop of [handle] rests, the rates it has shown
    and what is left for its next turn add up to the totals. *)
Theorem traffic_conserved (s : state) (d : direction) :
  rtc (step counts) initial s → concat (threads s) = [] →
  let m := manager (st_world s) in
  Total m d = @wrap int64 (counted d (pushing (trackers (st_world s)))) ∧
  (loop s = [] → Total m d = @wrap int64 (sum_shown d m + Temp m d)).
Proof.
  intros Hs Hrest m. destruct (accounts_reachable s Hs) as [Ht Hp _ _ Hr]. specialize (Ht d). specialize (Hp d).
  rewrite Hrest in *. unfold due in *. cbn [sum_of foldr] in *. fold m in Ht, Hp. split; [apply eq64_in_type; [apply Hr|]|intros Hl; apply eq64_in_type; [apply Hr|]].
  - destruct Ht as (k & Hk). exists k. lia.
  - rewrite Hl in Hp. cbn [held] in Hp. destruct Ht as (k & Hk), Hp as (j & Hj). exists (k - j). lia.
Qed.

Lemma run_thread ok w l p ts : rtc (step ok) (mkState w l (p :: ts)) (mkState (foldl (flip exec) w p) l ([] :: ts)).
Proof. revert w. induction p as [|a p IH]; intros w; [constructor|]. eapply rtc_l; [apply (step_thread ok w l [] a p ts)|apply IH]. Qed.

Lemma run_call (ok : call → Prop) c w l : ok c → rtc (step ok) (mkState w l []) (mkState (foldl (flip exec) (begin c w).1 (begin c w).2) l []).
Proof.
  intros Hc. eapply rtc_l; [apply (step_call ok c w (begin c w).1 (begin c w).2); [done|by destruct (begin c w)]|].
  eapply rtc_r; [apply run_thread|]. apply (step_end ok _ _ [] []).
Qed.

Lemma traffic_conserved_witness :
  let w1 := foldl (flip exec) (begin (CNew "a" ["sub"] None 10 0 true) (mkWorld NewManager [])).1 (begin (CNew "a" ["sub"] None 10 0 true) (mkWorld NewManager [])).2 in
  let w2 := foldl (flip exec) (begin (CTrack 0 Up 5) w1).1 (begin (CTrack 0 Up 5) w1).2 in
  Total (manager w2) Up = 15.
Proof.
  intros w1 w2. destruct (traffic_conserved (mkState w2 [] []) Up) as [-> _]; [|reflexivity|vm_compute; reflexivity].
  etrans; [apply (run_call counts (CNew "a" ["sub"] None 10 0 true))|apply (run_call counts (CTrack 0 Up 5)); exact I].
  intros _. split; [|reflexivity]. discriminate.
Defined.

(** ** The connections *)

(** The map of connections is by UUID. *)
Definition by_uuid (w : world) : Prop := ∀ id t, connections (manager w) !! id = Some t → ∃ i, trackers w !! t = Some i ∧ UUID i = id.

Lemma exec_by_uuid a w : by_uuid w → by_uuid (exec a w).
Proof.
  intros Hw. destruct a as [d n|d n|t d n|d|d|d v|d v|d v|t|t]; unfold exec; try exact Hw.
  - intros id t' Ht. destruct (Hw id t' Ht) as (i & Hi & Hu). cbn [manager trackers].
    destruct (decide (t = t')) as [->|Hne]; [rewrite list_lookup_alter_eq, Hi; by eexists|rewrite list_lookup_alter_ne by done; by exists i].
  - destruct (trackers w !! t) as [i|] eqn:Hi; [|done]. intros id t'. cbn. destruct (decide (UUID i = id)) as [<-|Hne].
    + rewrite lookup_insert_eq. intros [= <-]. by exists i.
    + rewrite lookup_insert_ne by done. apply Hw.
  - destruct (trackers w !! t) as [i|] eqn:Hi; [|done]. intros id t'. cbn. rewrite lookup_delete_Some. intros [_ ?]. by apply Hw.
Qed.

Lemma step_by_uuid ok s s' : step ok s s' → by_uuid (st_world s) → by_uuid (st_world s').
Proof.
  intros Hs Hw. destruct Hs as [c w w' p l ts Hc Hb|w ts|w a l ts|w l ts1 a p ts2|w l ts1 ts2]; cbn [st_world] in *; try done; [|by apply exec_by_uuid..].
  destruct c as [uuid chain rule up down push|t dir n|t|]; cbn in Hb; injection Hb as <- <-; try done.
  intros id t Ht. destruct (Hw id t Ht) as (i & Hi & Hu). exists i. split; [|done]. cbn. by apply lookup_app_l_Some.
Qed.

Lemma reachable_by_uuid ok s : rtc (step ok) initial s → by_uuid (st_world s).
Proof.
  revert s. apply (rtc_ind_r (λ s, by_uuid (st_world s)) initial); [done|]. intros s s' _ Hs Hw. by eapply step_by_uuid.
Qed.

(** That a tracker is of a provider. *)
Definition of_provider (name : string) (tis : list TrackerInfo) (t : nat) : bool :=
  match tis !! t with Some i => bool_decide (name ∈ ProviderChain i) | None => false end.

Lemma close_spec name w kt :
  (∀ i, trackers w !! kt.2 = Some i → UUID i = kt.1) →
  let w' := closeAllConnections name [kt] w in
  trackers w' = trackers w ∧ Total (manager w') = Total (manager w) ∧
  connections (manager w') = (if of_provider name (trackers w) kt.2 then delete kt.1 (connections (manager w)) else connections (manager w)).
Proof.
  intros Hu. unfold of_provider. cbn [closeAllConnections foldl]. destruct (trackers w !! kt.2) as [i|] eqn:Hi; [|done].
  case_bool_decide; [|done]. cbn [Leave foldl flip exec]. rewrite Hi. cbn. by rewrite (Hu i eq_refl).
Qed.

Lemma exists_cons_skip {A} (P : A → Prop) `{∀ x, Decision (P x)} x l :
  ¬ P x → bool_decide (Exists P (x :: l)) = bool_decide (Exists P l).
Proof. intros Hx. apply bool_decide_ext. rewrite Exists_cons. tauto. Qed.

Lemma close_order_spec name order w :
  (∀ kt i, kt ∈ order → trackers w !! kt.2 = Some i → UUID i = kt.1) →
  let w' := closeAllConnections name order w in
  trackers w' = trackers w ∧ Total (manager w') = Total (manager w) ∧
  ∀ id, connections (manager w') !! id =
    if bool_decide (Exists (λ kt, kt.1 = id ∧ of_provider name (trackers w) kt.2 = true) order) then None else connections (manager w) !! id.
Proof.
  revert w. induction order as [|kt order IH]; intros w Hu; [done|].
  destruct (close_spec name w kt) as (Ht & Htot & Hc); [intros i; apply Hu; by left|].
  destruct (IH (closeAllConnections name [kt] w)) as (Ht' & Htot' & Hc'); [intros kt' i Hin; rewrite Ht; apply Hu; by right|].
  rewrite Ht, Htot in *. split; [done|]. split; [done|]. intros id. etrans; [apply Hc'|]. rewrite Hc.
  destruct (of_provider name (trackers w) kt.2) eqn:Ho.
  - destruct (decide (kt.1 = id)) as [<-|Hne].
    + rewrite lookup_delete_eq, (bool_decide_eq_true_2 (Exists _ (kt :: order))) by (left; done). by case_bool_decide.
    + rewrite lookup_delete_ne, exists_cons_skip by (done || by intros [? _]). done.
  - rewrite exists_cons_skip; [done|]. rewrite Ho. by intros [_ ?].
Qed.

(** In every state that calls can lead to, closing the connections of a
    provider, in whatever order the map is visited, leaves exactly the connections
    whose chain of providers is without it, and the totals as they were. *)
Theorem close_all_connections (s : state) (name : string) (order : list (string * nat)) :
  rtc (step (λ _, True)) initial s → order ≡ₚ map_to_list (connections (manager (st_world s))) →
  let w := st_world s in let w' := closeAllConnections name order w in
  connections (manager w') = filter (λ kt, of_provider name (trackers w) kt.2 = false) (connections (manager w)) ∧
  Total (manager w') = Total (manager w) ∧ trackers w' = trackers w.
Proof.
  intros Hs Ho w w'. pose proof (reachable_by_uuid _ s Hs) as Hu. fold w in Ho, Hu.
  assert (∀ kt, kt ∈ order ↔ connections (manager w) !! kt.1 = Some kt.2) as Hin by (intros [k t]; rewrite Ho; apply elem_of_map_to_list).
  destruct (close_order_spec name order w) as (Ht & Htot & Hc).
  { intros kt i Hkt Hi. apply Hin in Hkt as (i' & Hi' & Hu')%Hu. congruence. }
  split; [|done]. apply map_eq. intros id. unfold w'. rewrite Hc, map_lookup_filter.
  destruct (connections (manager w) !! id) as [t|] eqn:Hid; [|by case_bool_decide]. cbn.
  destruct (of_provider name (trackers w) t) eqn:Hp.
  - rewrite bool_decide_eq_true_2; [done|]. apply Exists_exists. exists (id, t). by rewrite Hin.
  - rewrite bool_decide_eq_false_2; [done|]. intros ([id' t'] & Hkt & Heq & Hp')%Exists_exists. apply Hin in Hkt. cbn in *. congruence.
Qed.

Lemma close_all_connections_witness :
  let w := foldl (flip exec) (begin (CNew "a" ["sub"] None 10 0 true) (mkWorld NewManager [])).1 (begin (CNew "a" ["sub"] None 10 0 true) (mkWorld NewManager [])).2 in
  connections (manager (closeAllConnections "sub" [("a"%string, 0%nat)] w)) = ∅.
Proof.
  intros w. destruct (close_all_connections (mkState w [] []) "sub" [("a"%string, 0%nat)]) as [Hc _].
  - apply (run_call (λ _, True) (CNew "a" ["sub"] None 10 0 true)). exact I.
  - vm_compute. reflexivity.
  - etrans; [exact Hc|]. vm_compute. reflexivity.
Defined.

(** Resetting the statistics while nothing else runs sets every counter to zero. *)
Lemma reset_zero w d :
  let m := manager (foldl (flip exec) w ResetStatistic) in Temp m d = 0 ∧ Blip m d = 0 ∧ Total m d = 0.
Proof. by destruct d. Qed.

(** It is not one action: bytes that are pushed meanwhile may be in the total after
    it and in no rate. *)
Lemma reset_splits_push :
  let w := mkWorld NewManager [] in
  let m := manager (foldl (flip exec) w ([TempAdd Up 5] ++ ResetStatistic ++ [TotalAdd Up 5])) in Temp m Up = 0 ∧ Total m Up = 5.
Proof. done. Qed.
