(* ===== verification/Resource.v ===== *)
(** * Fetched resources: [component/resource] and [component/slowdown]

    The [Fetcher] behind the providers of proxies and of rules: what it reads from
    a file, a bundled file or a URL ([Read] of vehicle.go, with its ETags),
    whether that is new ([loadBuf]), and when it asks again ([pullLoop] with the
    back-off of backoff.go).

    The hash, the parser and the answers of the network and the file system are
    arguments.  One vehicle per URL; the cache file is what was last stored under
    the URL, and storing may fail.  A run is a sequence of operations ([op]): an
    update is two of them, because other operations may come between the reading
    and the loading, which alone holds the lock.

    The theorems: what the provider has is the content whose hash the fetcher
    keeps, and that of a server's answer once the answer was loaded
    ([fetcher_current]); an answer that nothing was modified is believed only when
    the provider has what the tag stands for ([not_modified_current]); what was
    downloaded is what the next start reads ([restart_serves_same]); the waits of
    the pull loop stay within the interval ([pull_wait_bounds]). *)

From Stdlib Require Import ZArith Lia String.
From stdpp Require Import prelude strings list relations.
From S2P Require Import Prelude.

Open Scope Z_scope.

(** ** The back-off

    [Factor] is a whole number, as everywhere in the program, and durations are
    below [2 ^ 53], so that the float64 numbers of the code are exact: a product
    with a power of the factor is, until it is above [maxInt64].  [jittered] is
    what the line with the random number makes of [minf] and [durf]. *)
Record Backoff := mkBackoff { attempt : Z; Factor : Z; Jitter : bool; bo_Min : Z; bo_Max : Z }.

(** [float64(math.MaxInt64 - 512)], rounded. *)
Definition maxInt64 : Z := 2 ^ 63 - 1024.

Definition ForAttempt (jittered : Z → Z → Z) (b : Backoff) (attempt : Z) : Z :=
  let min := if bo_Min b <=? 0 then 100 * Millisecond else bo_Min b in
  let max := if bo_Max b <=? 0 then 10 * Second else bo_Max b in
  if max <=? min then max
  else
    let factor := if Factor b <=? 0 then 2 else Factor b in
    let durf := min * factor ^ attempt in
    let durf := if Jitter b then jittered min durf else durf in
    if maxInt64 <? durf then max
    else if durf <? min then min
    else if max <? durf then max
    else durf.

Definition set_attempt (n : Z) (b : Backoff) : Backoff := mkBackoff n (Factor b) (Jitter b) (bo_Min b) (bo_Max b).

Definition Reset (b : Backoff) : Backoff := set_attempt 0 b.

Definition AddAttempt (b : Backoff) : Backoff := set_attempt (@wrap uint64 (attempt b + 1)) b.

Definition Duration (jittered : Z → Z → Z) (b : Backoff) : Z * Backoff :=
  let b' := AddAttempt b in (ForAttempt jittered b (@wrap uint64 (attempt b' - 1)), b').

Definition Copy (b : Backoff) : Backoff := set_attempt 0 b.

(** ** Slowing down after errors

    [Do] before its function is called, and after; a wait that is cancelled ends it
    without the call. *)
Record SlowDown := mkSlowDown { errTimes : Z; sd_backoff : Backoff }.

Definition NewSlowDown : SlowDown := mkSlowDown 0 (mkBackoff 0 2 true (10 * Millisecond) (1 * Second)).

(** How long the call waits; [None] is not at all. *)
Definition Do_wait (jittered : Z → Z → Z) (s : SlowDown) : option Z * SlowDown :=
  if 10 <? errTimes s then
    let (d, b) := Duration jittered (sd_backoff s) in (Some d, mkSlowDown (errTimes s) b)
  else (None, s).

Definition Do_done (failed : bool) (s : SlowDown) : SlowDown :=
  if failed then mkSlowDown (@wrap int64 (errTimes s + 1)) (sd_backoff s) else mkSlowDown 0 (Reset (sd_backoff s)).

(** ** Files and the network *)

Definition HashType : Type := list Z.

Definition zero_hash : HashType := replicate 16 0.

Definition IsValid (h : HashType) : bool := bool_decide (h ≠ zero_hash).

(** A file; one whose content is [None] exists and cannot be opened. *)
Record file := mkFile { f_content : option (list Z); f_modTime : Z }.

(** How a write ends; a failed one leaves any file behind. *)
Inductive write_result := Written | WriteFailed (after : option file).

(** What happens around a load: the time, the write, and whether the times of the
    file can be changed. *)
Record env := mkEnv { now : Z; write : write_result; chtimes : bool }.

(** The answer to a request; a body of [None] breaks off. *)
Inductive response := NoResponse | Response (StatusCode : Z) (body : option (list Z)) (ETag : string) (saved : bool).

Inductive VehicleType := File | HTTP.

#[export] Instance VehicleType_eq_dec : EqDecision VehicleType.
Proof. solve_decision. Defined.

Record EtagWithHash := mkEtag { e_Hash : HashType; e_ETag : string }.

(** How an update ends: with an error, with nothing new, or with new contents. *)
Inductive result (V : Type) := Failed | Same | Loaded (contents : V).

Arguments Failed {V}.
Arguments Same {V}.
Arguments Loaded {V}.

Section fetcher.
Context {V : Type} (MakeHash : list Z → HashType) (parser : list Z → option V).
Context (type : VehicleType) (etag : bool) (sizeLimit : Z) (interval : Z).

(** The fetcher with its file and its entry of the cache; [delivered] is what
    [onUpdate] was called with, the last first, and [inflight] what [Read] gave to
    updates that have not loaded it. *)
Record Fetcher := mkFetcher {
  path : option file;
  cache : EtagWithHash;
  updatedAt : Z;
  hash : HashType;
  backoff : Backoff;
  delivered : list V;
  inflight : list (option (option (list Z) * HashType));
}.

Definition set_loaded (u : Z) (h : HashType) (b : Backoff) (vs : list V) (f : Fetcher) : Fetcher :=
  mkFetcher (path f) (cache f) u h b vs (inflight f).

Definition set_path (p : option file) (f : Fetcher) : Fetcher :=
  mkFetcher p (cache f) (updatedAt f) (hash f) (backoff f) (delivered f) (inflight f).

Definition set_cache (c : EtagWithHash) (f : Fetcher) : Fetcher :=
  mkFetcher (path f) c (updatedAt f) (hash f) (backoff f) (delivered f) (inflight f).

Definition set_backoff (b : Backoff) (f : Fetcher) : Fetcher :=
  mkFetcher (path f) (cache f) (updatedAt f) (hash f) b (delivered f) (inflight f).

Definition set_inflight (l : list (option (option (list Z) * HashType))) (f : Fetcher) : Fetcher :=
  mkFetcher (path f) (cache f) (updatedAt f) (hash f) (backoff f) (delivered f) l.

Definition set_updatedAt (u : Z) (f : Fetcher) : Fetcher := set_loaded u (hash f) (backoff f) (delivered f) f.

Definition NewFetcher (p : option file) (c : EtagWithHash) : Fetcher :=
  let minBackoff := if interval <? 10 * Second then interval else 10 * Second in
  mkFetcher p c 0 zero_hash (mkBackoff 0 2 false minBackoff interval) [] [].

(** The read of either vehicle: an error, or a buffer with its hash. *)
Definition read_file (f : Fetcher) : option (option (list Z) * HashType) :=
  file ← path f; buf ← f_content file; Some (Some buf, MakeHash buf).

(** The tag that goes with the request. *)
Definition if_none_match (f : Fetcher) : option string :=
  if etag && IsValid (hash f) && bool_decide (hash f = e_Hash (cache f)) && negb (bool_decide (e_ETag (cache f) = ""))%string
  then Some (e_ETag (cache f)) else None.

Definition limited (body : list Z) : list Z := if 0 <? sizeLimit then take (Z.to_nat sizeLimit) body else body.

Definition read_http (resp : response) (f : Fetcher) : option (option (list Z) * HashType) * Fetcher :=
  match resp with
  | NoResponse => (None, f)
  | Response status body tag saved =>
    if (status <? 200) || (299 <? status) then
      if bool_decide (is_Some (if_none_match f)) && (status =? 304) then (Some (None, hash f), f) else (None, f)
    else
      match body with
      | None => (None, f)
      | Some b =>
        let buf := limited b in
        (Some (Some buf, MakeHash buf), if etag && saved then set_cache (mkEtag (MakeHash buf) tag) f else f)
      end
  end.

Definition Read (resp : response) (f : Fetcher) : option (option (list Z) * HashType) * Fetcher :=
  match type with File => (read_file f, f) | HTTP => read_http resp f end.

Definition Write (buf : list Z) (e : env) (f : Fetcher) : bool * Fetcher :=
  match write e with
  | Written => (true, set_path (Some (mkFile (Some buf) (now e))) f)
  | WriteFailed after => (false, set_path after f)
  end.

Definition Chtimes (e : env) (f : Fetcher) : Fetcher :=
  if chtimes e then set_path (file ← path f; Some (mkFile (f_content file) (now e))) f else f.

(** [loadBuf]. *)
Definition loadBuf (buf : option (list Z)) (h : HashType) (updateFile : bool) (e : env) (f : Fetcher) : result V * Fetcher :=
  if bool_decide (hash f = h) then
    let f1 := if updateFile then Chtimes e f else f in
    (Same, set_loaded (now e) (hash f1) (Reset (backoff f1)) (delivered f1) f1)
  else
    match buf with
    | None => (Same, f)
    | Some b =>
      match parser b with
      | None => (Failed, set_backoff (AddAttempt (backoff f)) f)
      | Some contents =>
        let f1 := set_backoff (Reset (backoff f)) f in
        let '(ok, f2) := if updateFile then Write b e f1 else (true, f1) in
        if ok then (Loaded contents, set_loaded (now e) h (backoff f2) (contents :: delivered f2) f2)
        else (Failed, f2)
      end
    end.

(** The two halves of [Update], and the whole when nothing comes between. *)
Definition finish_update (r : option (option (list Z) * HashType)) (e : env) (f : Fetcher) : result V * Fetcher :=
  match r with
  | None => (Failed, set_backoff (AddAttempt (backoff f)) f)
  | Some (buf, h) => loadBuf buf h (negb (bool_decide (type = File))) e f
  end.

Definition Update (resp : response) (e : env) (f : Fetcher) : result V * Fetcher :=
  let '(r, f1) := Read resp f in finish_update r e f1.

Definition SideUpdate (buf : list Z) (e : env) (f : Fetcher) : result V * Fetcher := loadBuf (Some buf) (MakeHash buf) true e f.

(** The loop that is started, if one is: the watcher of a file, or the pull loop,
    with whether it begins with an update. *)
Inductive started := Watcher | PullLoop (forceUpdate : bool) | NoLoop.

(** [startPullLoop]; [None] is the error of a watcher. *)
Definition startPullLoop (watch_ok : bool) (forceUpdate : bool) : option started :=
  if bool_decide (type = File) then if watch_ok then Some Watcher else None
  else Some (if 0 <? interval then PullLoop forceUpdate else NoLoop).

(** The end of [Initial]: the loop is started, its error given back. *)
Definition finish_initial (watch_ok forceUpdate : bool) (r : result V) (f : Fetcher) : result V * option started * Fetcher :=
  match startPullLoop watch_ok forceUpdate with None => (Failed, None, f) | Some s => (r, Some s, f) end.

(** [Initial] from the fallback to the remote, from that to the bundled file, and
    the whole.  [bundle] is what was read of the bundled file with its time;
    [since] is when the age of a file is taken. *)
Definition Initial_remote (watch_ok : bool) (resp : response) (e : env) (f : Fetcher) : result V * option started * Fetcher :=
  let '(r, f1) := Update resp e f in finish_initial watch_ok false r f1.

Definition Initial_bundle (bundle : option (list Z * Z)) (watch_ok : bool) (since : Z) (resp : response) (e2 e3 : env) (f : Fetcher) :
    result V * option started * Fetcher :=
  match bundle with
  | Some (buf, modTime) =>
    let '(r, f1) := loadBuf (Some buf) (MakeHash buf) true e2 f in
    let f2 := set_updatedAt modTime f1 in
    match r with
    | Failed => Initial_remote watch_ok resp e3 f2
    | _ => finish_initial watch_ok (interval <? since - modTime) r f2
    end
  | None => Initial_remote watch_ok resp e3 f
  end.

Definition Initial (bundle : option (list Z * Z)) (watch_ok : bool) (since : Z) (resp : response) (e1 e2 e3 : env) (f : Fetcher) :
    result V * option started * Fetcher :=
  match path f with
  | Some file =>
    let buf := f_content file in
    let '(r, f1) := loadBuf buf (MakeHash (default [] buf)) false e1 f in
    let f2 := set_updatedAt (f_modTime file) f1 in
    match r with
    | Failed => Initial_bundle bundle watch_ok since resp e2 e3 f2
    | _ => finish_initial watch_ok (interval <? since - f_modTime file) r f2
    end
  | None => Initial_bundle bundle watch_ok since resp e2 e3 f
  end.

(** ** The pull loop

    The wait before the first update, computed before an update that is forced,
    and the wait before the next one. *)
Definition initialInterval (t : Z) (f : Fetcher) : Z :=
  let i := interval - (t - updatedAt f) in if interval <? i then interval else i.

Definition backoff_wait (jittered : Z → Z → Z) (wait : Z) (f : Fetcher) : Z :=
  let n := attempt (backoff f) in
  if 0 <? n then let duration := ForAttempt jittered (backoff f) n in if duration <? wait then duration else wait else wait.

Definition pull_begin (jittered : Z → Z → Z) (t : Z) (force : option (response * env)) (f : Fetcher) : Z * Fetcher :=
  let first := initialInterval t f in
  let f1 := match force with Some (resp, e) => (Update resp e f).2 | None => f end in
  (backoff_wait jittered first f1, f1).

Definition pull_turn (jittered : Z → Z → Z) (resp : response) (e : env) (f : Fetcher) : Z * Fetcher :=
  let f1 := (Update resp e f).2 in (backoff_wait jittered interval f1, f1).

(** ** Runs

    Besides what the fetcher does, others may change the file. *)
Inductive op :=
  | OInitial (bundle : option (list Z * Z)) (watch_ok : bool) (since : Z) (resp : response) (e1 e2 e3 : env)
  | ORead (resp : response)
  | OLoad (i : nat) (e : env)
  | OSide (buf : list Z) (e : env)
  | OEdit (p : option file).

Definition run_op (o : op) (f : Fetcher) : Fetcher :=
  match o with
  | OInitial bundle watch_ok since resp e1 e2 e3 => (Initial bundle watch_ok since resp e1 e2 e3 f).2
  | ORead resp => let '(r, f1) := Read resp f in set_inflight (r :: inflight f1) f1
  | OLoad i e =>
    match inflight f !! i with
    | Some r => set_inflight (delete i (inflight f)) (finish_update r e f).2
    | None => f
    end
  | OSide buf e => (SideUpdate buf e f).2
  | OEdit p => set_path p f
  end.

Definition run (os : list op) (f : Fetcher) : Fetcher := foldl (flip run_op) f os.

(** The contents that a run meets: those of the first file, of the answers, the
    bundled ones, the ones that others bring, and what is left of a file when
    writing it fails. *)
Definition file_brings (p : option file) : list (list Z) := option_list (p ≫= f_content).

Definition env_brings (e : env) : list (list Z) := match write e with Written => [] | WriteFailed after => file_brings after end.

Definition response_brings (resp : response) : list (list Z) :=
  match resp with Response _ (Some b) _ _ => [limited b] | _ => [] end.

Definition brings (o : op) : list (list Z) :=
  match o with
  | OInitial bundle _ _ resp e1 e2 e3 => option_list (fst <$> bundle) ++ response_brings resp ++ env_brings e1 ++ env_brings e2 ++ env_brings e3
  | ORead resp => response_brings resp
  | OLoad _ e => env_brings e
  | OSide buf e => buf :: env_brings e
  | OEdit p => file_brings p
  end.

Definition contents (p : option file) (os : list op) : list (list Z) := file_brings p ++ concat (map brings os).

(** ** What a load does *)

(** The content that the provider has, which is one of [S], and the hash of it. *)
Definition current (S : list (list Z)) (f : Fetcher) : Prop :=
  (delivered f = [] ∧ hash f = zero_hash) ∨
  ∃ b v vs, b ∈ S ∧ delivered f = v :: vs ∧ parser b = Some v ∧ hash f = MakeHash b.

(** A hash that stands for something else of [S] as well. *)
Definition collides (S : list (list Z)) (b : list Z) : Prop :=
  MakeHash b = zero_hash ∨ ∃ b', b' ∈ S ∧ b' ≠ b ∧ MakeHash b' = MakeHash b.

Lemma current_same S f b : current S f → hash f = MakeHash b → collides S b ∨ ∃ v vs, delivered f = v :: vs ∧ parser b = Some v.
Proof.
  intros [[_ Hz]|(b' & v & vs & Hin & Hd & Hp & Hh)] Hb; [left; left; congruence|].
  destruct (decide (b' = b)) as [->|Hne]; [right; eauto|]. left. right. exists b'. split; [done|]. split; [done|]. congruence.
Qed.

Lemma current_mono S S' f : S ⊆ S' → current S f → current S' f.
Proof. intros HS [?|(b & v & vs & ? & ?)]; [by left|]. right. exists b, v, vs. split; [by apply HS|done]. Qed.

(** The branches of [loadBuf] as far as the content goes. *)
Lemma load_result buf h up e f :
  let '(r, f') := loadBuf buf h up e f in
  cache f' = cache f ∧ inflight f' = inflight f ∧
  match r with
  | Failed => delivered f' = delivered f ∧ hash f' = hash f
  | Same => delivered f' = delivered f ∧ hash f' = hash f ∧ (hash f = h ∨ buf = None)
  | Loaded v => delivered f' = v :: delivered f ∧ hash f' = h ∧ ∃ b, buf = Some b ∧ parser b = Some v
  end.
Proof.
  unfold loadBuf. case_bool_decide as Hh.
  - destruct up; [|cbn; by auto 10]. unfold Chtimes. destruct (chtimes e); cbn; by auto 10.
  - destruct buf as [b|]; [|cbn; by auto 10]. destruct (parser b) as [v|] eqn:Hp; [|done].
    unfold Write. destruct up; [destruct (write e)|]; cbn; eauto 10.
Qed.

Lemma current_loadBuf S buf h up e f :
  (∀ b, buf = Some b → h = MakeHash b ∧ b ∈ S) → current S f → current S (loadBuf buf h up e f).2.
Proof.
  intros Hb Hc. pose proof (load_result buf h up e f) as Hl. destruct (loadBuf _ _ _ _ _) as [r f']. cbn [snd].
  destruct Hl as (_ & _ & Hl). unfold current. destruct r as [| |v].
  - destruct Hl as [-> ->]. exact Hc.
  - destruct Hl as (-> & -> & _). exact Hc.
  - destruct Hl as (-> & -> & b & Hbuf & Hp). right. destruct (Hb b Hbuf). by exists b, v, (delivered f).
Qed.

(** What an update has read: nothing, a content, or that nothing was modified. *)
Definition read_ok (r : option (option (list Z) * HashType)) : Prop := ∀ b h, r = Some (Some b, h) → h = MakeHash b.

Definition read_in (S : list (list Z)) (r : option (option (list Z) * HashType)) : Prop :=
  ∀ b h, r = Some (Some b, h) → h = MakeHash b ∧ b ∈ S.

Lemma current_finish S r e f : read_in S r → current S f → current S (finish_update r e f).2.
Proof.
  intros Hr Hc. destruct r as [[buf h]|]; cbn [finish_update]; [|done]. apply current_loadBuf; [|done]. intros b ->. by apply Hr.
Qed.

Lemma loadBuf_inflight buf h up e f : inflight (loadBuf buf h up e f).2 = inflight f ∧ cache (loadBuf buf h up e f).2 = cache f.
Proof. pose proof (load_result buf h up e f) as Hl. destruct (loadBuf _ _ _ _ _) as [r f']. by destruct Hl as (? & ? & _). Qed.

Lemma finish_inflight r e f : inflight (finish_update r e f).2 = inflight f ∧ cache (finish_update r e f).2 = cache f.
Proof. destruct r as [[buf h]|]; [apply loadBuf_inflight|done]. Qed.

Lemma Read_ok resp f : read_ok (Read resp f).1 ∧ delivered (Read resp f).2 = delivered f ∧ hash (Read resp f).2 = hash f ∧
  inflight (Read resp f).2 = inflight f ∧ path (Read resp f).2 = path f.
Proof.
  unfold Read. destruct type.
  - split; [|done]. intros b h. unfold read_file. cbn. destruct (path f) as [fl|]; [|done]. cbn. destruct (f_content fl); [|done]. cbn. by intros [= <- <-].
  - unfold read_http. destruct resp as [|status body tag saved]; [done|]. destruct (_ || _).
    + by destruct (_ && _).
    + destruct body as [b|]; [|done]. split; [by intros ? ? [= <- <-]|]. by destruct (_ && _).
Qed.

Lemma current_ext S f f' : delivered f' = delivered f → hash f' = hash f → current S f → current S f'.
Proof. unfold current. by intros -> ->. Qed.

Lemma Read_in S resp f : file_brings (path f) ⊆ S → response_brings resp ⊆ S → read_in S (Read resp f).1.
Proof.
  intros Hp Hr b h H. split; [by apply (proj1 (Read_ok resp f))|]. revert H. unfold Read. destruct type.
  - unfold read_file, file_brings in *. destruct (path f) as [fl|]; [|done]. cbn in *. destruct (f_content fl) as [b'|]; [|done].
    intros [= <- <-]. apply Hp. by left.
  - unfold read_http. destruct resp as [|status body tag saved]; [done|]. destruct (_ || _); [by destruct (_ && _)|].
    destruct body as [b'|]; [|done]. intros [= <- <-]. apply Hr. by left.
Qed.

Lemma current_Update S resp e f :
  file_brings (path f) ⊆ S → response_brings resp ⊆ S → current S f → current S (Update resp e f).2.
Proof.
  intros Hp Hb Hc. pose proof (Read_in S resp f Hp Hb) as Hr. unfold Update. destruct (Read_ok resp f) as (_ & Hd & Hh & _).
  destruct (Read resp f) as [r f1]. cbn [fst snd] in *. apply current_finish; [done|]. by apply (current_ext S f).
Qed.

(** The file that a load leaves. *)
Lemma loadBuf_path S buf h up e f :
  (∀ b, buf = Some b → b ∈ S) → env_brings e ⊆ S → file_brings (path f) ⊆ S → file_brings (path (loadBuf buf h up e f).2) ⊆ S.
Proof.
  intros Hb He Hf. unfold loadBuf. case_bool_decide.
  - destruct up; [|exact Hf]. cbn. unfold Chtimes. destruct (chtimes e); [|exact Hf]. cbn. by destruct (path f).
  - destruct buf as [b|]; [|exact Hf]. destruct (parser b); [|exact Hf]. destruct up; [|exact Hf]. unfold Write, env_brings in *.
    destruct (write e) as [|after]; [|exact He]. cbn. intros x ->%list_elem_of_singleton. by apply Hb.
Qed.

(** Something that holds before [Initial] and that its loads keep holds after it. *)
Lemma Initial_bundled (P : Fetcher → Prop) bundle watch_ok since resp e1 e2 e3 f :
  (∀ u f, P f → P (set_updatedAt u f)) →
  (∀ f fl, path f = Some fl → P f → P (loadBuf (f_content fl) (MakeHash (default [] (f_content fl))) false e1 f).2) →
  (∀ b t f, bundle = Some (b, t) → P f → P (loadBuf (Some b) (MakeHash b) true e2 f).2) →
  (∀ f, P f → P (Update resp e3 f).2) →
  P f → P (Initial bundle watch_ok since resp e1 e2 e3 f).2.
Proof.
  intros Hset Hlocal Hside Hup Hf.
  assert (∀ force r g, P g → P (finish_initial watch_ok force r g).2) as Hfin
    by (intros force r g Hg; unfold finish_initial; by destruct (startPullLoop watch_ok force)).
  assert (∀ g, P g → P (Initial_remote watch_ok resp e3 g).2) as Hrem.
  { intros g Hg. specialize (Hup g Hg). unfold Initial_remote. destruct (Update resp e3 g). by apply Hfin. }
  assert (∀ g, P g → P (Initial_bundle bundle watch_ok since resp e2 e3 g).2) as Hbun.
  { intros g Hg. unfold Initial_bundle. destruct bundle as [[buf modTime]|]; [|by apply Hrem]. specialize (Hside buf modTime g eq_refl Hg).
    destruct (loadBuf _ _ _ _ _) as [[| |v] f1]; [apply Hrem|apply Hfin|apply Hfin]; by apply Hset. }
  unfold Initial. destruct (path f) as [fl|] eqn:Hp; [|by apply Hbun]. specialize (Hlocal f fl Hp Hf).
  destruct (loadBuf _ _ _ _ _) as [[| |v] f1]; [apply Hbun|apply Hfin|apply Hfin]; by apply Hset.
Qed.

Lemma Initial_keeps (P : Fetcher → Prop) bundle watch_ok since resp e1 e2 e3 f :
  (∀ u f, P f → P (set_updatedAt u f)) →
  (∀ f fl, path f = Some fl → P f → P (loadBuf (f_content fl) (MakeHash (default [] (f_content fl))) false e1 f).2) →
  (∀ b f, P f → P (loadBuf (Some b) (MakeHash b) true e2 f).2) →
  (∀ f, P f → P (Update resp e3 f).2) →
  P f → P (Initial bundle watch_ok since resp e1 e2 e3 f).2.
Proof. intros ? ? Hb. apply Initial_bundled; [done|done|]. intros b _ g _. apply Hb. Qed.

Definition invariant (S : list (list Z)) (f : Fetcher) : Prop :=
  current S f ∧ Forall (read_in S) (inflight f) ∧ file_brings (path f) ⊆ S.

Lemma invariant_loadBuf S buf h up e f :
  (∀ b, buf = Some b → h = MakeHash b ∧ b ∈ S) → env_brings e ⊆ S → invariant S f → invariant S (loadBuf buf h up e f).2.
Proof.
  intros Hb He (Hc & Hi & Hp). split; [by apply current_loadBuf|]. rewrite (proj1 (loadBuf_inflight buf h up e f)). split; [done|].
  apply loadBuf_path; [|done..]. intros b. by apply Hb.
Qed.

Lemma invariant_finish S r e f : read_in S r → env_brings e ⊆ S → invariant S f → invariant S (finish_update r e f).2.
Proof.
  intros Hr He Hf. destruct r as [[buf h]|]; cbn [finish_update]; [|done]. apply invariant_loadBuf; [|done..]. intros b ->. by apply Hr.
Qed.

Lemma invariant_Read S resp f : response_brings resp ⊆ S → invariant S f → read_in S (Read resp f).1 ∧ invariant S (Read resp f).2.
Proof.
  intros Hb (Hc & Hi & Hp). split; [by apply Read_in|]. destruct (Read_ok resp f) as (_ & Hd & Hh & Hin & Hpa).
  split; [by apply (current_ext S f)|]. by rewrite Hin, Hpa.
Qed.

Lemma invariant_Update S resp e f : response_brings resp ⊆ S → env_brings e ⊆ S → invariant S f → invariant S (Update resp e f).2.
Proof.
  intros Hb He [Hr Hf]%(invariant_Read S resp f Hb). unfold Update. destruct (Read resp f) as [r f1]. by apply invariant_finish.
Qed.

Lemma invariant_step S o f : brings o ⊆ S → invariant S f → invariant S (run_op o f).
Proof.
  destruct o as [bundle watch_ok since resp e1 e2 e3|resp|i e|buf e|p]; cbn [run_op brings]; intros HS Hf.
  - apply Initial_bundled; [by intros ? ? [? ?]| | | |done].
    + intros g fl Hp Hg. apply invariant_loadBuf; [|set_solver|done]. intros b Hb. rewrite Hb. split; [done|].
      apply Hg. rewrite Hp. unfold file_brings. cbn. rewrite Hb. by left.
    + intros b t g Hb. apply invariant_loadBuf; [|set_solver]. intros ? [= <-]. split; [done|]. apply HS. rewrite Hb. by left.
    + intros g. apply invariant_Update; set_solver.
  - apply (invariant_Read S resp f HS) in Hf as [Hr (? & ? & ?)]. destruct (Read resp f) as [r f1]. split; [done|]. split; [by constructor|done].
  - destruct (inflight f !! i) as [r|] eqn:Hr; [|done]. destruct (invariant_finish S r e f) as (? & ? & ?); [|done..|].
    + eapply Forall_lookup_1; [|done]. apply Hf.
    + split; [done|]. split; [by apply Forall_delete, Hf|done].
  - apply invariant_loadBuf; [|set_solver|done]. intros ? [= <-]. split; [done|]. apply HS. by left.
  - destruct Hf as (? & ? & _). by split.
Qed.

Lemma invariant_run S os f : concat (map brings os) ⊆ S → invariant S f → invariant S (run os f).
Proof.
  revert f. induction os as [|o os IH]; intros f HS Hf; [done|]. cbn in HS. apply IH; [set_solver|]. apply invariant_step; [set_solver|done].
Qed.

Lemma invariant_reached os p c : invariant (contents p os) (run os (NewFetcher p c)).
Proof.
  apply invariant_run; [unfold contents; set_solver|]. split; [by left|]. split; [constructor|]. unfold contents. set_solver.
Qed.

(** The content that an update finds. *)
Definition answered (resp : response) (f : Fetcher) : option (list Z) :=
  match type with
  | File => path f ≫= f_content
  | HTTP => match resp with
            | Response status (Some b) _ _ => if (200 <=? status) && (status <=? 299) then Some (limited b) else None
            | _ => None
            end
  end.

Lemma Read_answered resp f b : answered resp f = Some b → (Read resp f).1 = Some (Some b, MakeHash b).
Proof.
  unfold answered, Read. destruct type.
  - cbn. unfold read_file. destruct (path f); [|done]. cbn. by intros ->.
  - destruct resp as [|status [body|] tag saved]; [done| |done]. destruct (_ && _) eqn:Hs; [|done]. intros [= <-].
    apply andb_true_iff in Hs as [H1%Z.leb_le H2%Z.leb_le]. unfold read_http.
    rewrite (proj2 (orb_false_iff _ _)); [done|]. split; [apply Z.ltb_ge|apply Z.ltb_ge]; lia.
Qed.

Lemma Read_inv resp f b h : (Read resp f).1 = Some (Some b, h) → answered resp f = Some b.
Proof.
  unfold answered, Read. destruct type.
  - cbn. unfold read_file. destruct (path f) as [fl|]; [|done]. cbn. destruct (f_content fl); [|done]. cbn. by intros [= <- <-].
  - unfold read_http. destruct resp as [|status body tag saved]; [done|]. destruct (_ || _) eqn:Hs; [by destruct (_ && _)|].
    apply orb_false_iff in Hs as [H1%Z.ltb_ge H2%Z.ltb_ge]. destruct body as [b'|]; [|done]. cbn. intros [= <- <-].
    by rewrite (proj2 (Z.leb_le _ _) H1), (proj2 (Z.leb_le _ _) H2).
Qed.

(** C24: After any sequence of operations, with updates overlapping as they may,
    the provider has nothing yet, or one of the contents met so far, whose hash the
    fetcher keeps.  An update that fails leaves it; one that does not gives it what
    it found at its source, unless another content met before has the same hash or
    the hash is all zeros. *)
Theorem fetcher_current (os : list op) (p : option file) (c : EtagWithHash) (resp : response) (e : env) :
  let f := run os (NewFetcher p c) in
  let '(r, f') := Update resp e f in
  current (contents p os) f ∧ current (contents p os ++ response_brings resp) f' ∧
  match r with
  | Failed => delivered f' = delivered f
  | Same => delivered f' = delivered f ∧ ∀ b, answered resp f = Some b → collides (contents p os) b ∨ ∃ v vs, delivered f = v :: vs ∧ parser b = Some v
  | Loaded v => delivered f' = v :: delivered f ∧ ∃ b, answered resp f = Some b ∧ parser b = Some v
  end.
Proof.
  intros f. destruct (invariant_reached os p c) as (Hc & _ & Hpath). fold f in Hc, Hpath.
  assert (current (contents p os ++ response_brings resp) (Update resp e f).2) as Hc'.
  { apply current_Update; [set_solver..|]. eapply current_mono; [|exact Hc]. set_solver. }
  unfold Update in *. destruct (Read_ok resp f) as (Hro & Hd & Hh & _). pose proof (Read_answered resp f) as Ha. pose proof (Read_inv resp f) as Hinv.
  destruct (Read resp f) as [[[buf h]|] f1]; cbn [fst snd finish_update] in *; [|by split_and!].
  pose proof (load_result buf h (negb (bool_decide (type = File))) e f1) as Hl. destruct (loadBuf _ _ _ _ _) as [r f']. cbn [snd] in Hc'.
  split; [done|]. split; [done|]. destruct Hl as (_ & _ & Hl). rewrite Hd, Hh in Hl. destruct r as [| |v].
  - by destruct Hl.
  - destruct Hl as (? & _ & Hs). split; [done|]. intros b [= -> ->]%Ha. destruct Hs as [Hs|]; [|done]. by apply current_same.
  - destruct Hl as (? & _ & b & -> & Hp). split; [done|]. exists b. split; [by eapply Hinv|done].
Qed.

(** ** Tags

    A server that gives every tag to one content. *)
Section tags.
Context (version : string → list Z).

Definition response_ok (resp : response) : Prop :=
  match resp with Response _ (Some b) tag _ => tag = ""%string ∨ b = version tag | _ => True end.

Definition op_ok (o : op) : Prop :=
  match o with OInitial _ _ _ resp _ _ _ | ORead resp => response_ok resp | _ => True end.

Definition cache_ok (c : EtagWithHash) : Prop := e_ETag c = ""%string ∨ e_Hash c = MakeHash (limited (version (e_ETag c))).

Lemma Read_cache resp f : response_ok resp → cache_ok (cache f) → cache_ok (cache (Read resp f).2).
Proof.
  unfold Read, read_http, response_ok. intros Hr Hc. destruct type; [done|]. destruct resp as [|status [b|] tag saved]; [done| |].
  - destruct (_ || _); [by destruct (_ && _)|]. destruct (etag && saved); [|done]. destruct Hr as [->| ->]; [by left|by right].
  - destruct (_ || _); [by destruct (_ && _)|done].
Qed.

Lemma Update_cache resp e f : response_ok resp → cache_ok (cache f) → cache_ok (cache (Update resp e f).2).
Proof.
  intros Hr Hc. apply (Read_cache resp f Hr) in Hc. unfold Update. destruct (Read resp f) as [r f1].
  by rewrite (proj2 (finish_inflight r e f1)).
Qed.

Lemma run_cache os f : Forall op_ok os → cache_ok (cache f) → cache_ok (cache (run os f)).
Proof.
  intros Hos. revert f. induction Hos as [|o os Ho _ IH]; intros f Hf; [done|]. apply IH. clear IH.
  destruct o as [bundle watch_ok since resp e1 e2 e3|resp|i e|buf e|p]; cbn [flip run_op op_ok] in *.
  - apply (Initial_keeps (λ f, cache_ok (cache f))); [done| | | |done].
    + intros g fl _ Hg. by rewrite (proj2 (loadBuf_inflight _ _ _ _ g)).
    + intros b g Hg. by rewrite (proj2 (loadBuf_inflight _ _ _ _ g)).
    + intros g. by apply Update_cache.
  - apply (Read_cache resp f Ho) in Hf. by destruct (Read resp f) as [r f1].
  - destruct (inflight f !! i) as [r|]; [|done]. change (cache_ok (cache (finish_update r e f).2)). by rewrite (proj2 (finish_inflight r e f)).
  - unfold SideUpdate. by rewrite (proj2 (loadBuf_inflight _ _ _ _ f)).
  - done.
Qed.

(** C25: When the server answers that the content of the tag in the request was not
    modified, the update ends without an error and the provider has that content,
    unless another content met before has the same hash or the hash is all zeros. *)
Theorem not_modified_current (os : list op) (p : option file) (c : EtagWithHash) (tag : string) (body : option (list Z)) (tag' : string) (saved : bool) (e : env) :
  type = HTTP → cache_ok c → Forall op_ok os →
  let f := run os (NewFetcher p c) in
  if_none_match f = Some tag →
  let '(r, f') := Update (Response 304 body tag' saved) e f in
  let b := limited (version tag) in
  r = Same ∧ delivered f' = delivered f ∧ (collides (contents p os) b ∨ ∃ v vs, delivered f' = v :: vs ∧ parser b = Some v).
Proof.
  intros Ht Hc Hos f Hn. destruct (invariant_reached os p c) as [Hcur _]. fold f in Hcur.
  pose proof (run_cache os (NewFetcher p c) Hos Hc) as Hcache. fold f in Hcache.
  unfold Update, Read, read_http. rewrite Ht. cbn [Z.ltb Z.compare]. rewrite Hn, bool_decide_eq_true_2 by eauto. cbn [andb finish_update Z.eqb].
  change (300 <? 200) with false. cbn. unfold loadBuf. rewrite (bool_decide_eq_true_2 (hash f = hash f)) by done.
  unfold if_none_match in Hn. destruct (_ && _) eqn:Hb; [|done]. injection Hn as <-.
  apply andb_true_iff in Hb as [[[_ _]%andb_true_iff Hh%bool_decide_eq_true]%andb_true_iff Hne%negb_true_iff%bool_decide_eq_false].
  assert (collides (contents p os) (limited (version (e_ETag (cache f)))) ∨ ∃ v vs, delivered f = v :: vs ∧ parser (limited (version (e_ETag (cache f)))) = Some v) as Hres.
  { apply current_same; [done|]. destruct Hcache as [?|Hcache]; [done|]. by rewrite Hh. }
  unfold Chtimes. destruct (_ : bool); [destruct (chtimes e)|]; by split_and!.
Qed.

End tags.

(** ** The next start

    What is on the disk when nobody else touches the file and the writes succeed. *)
Definition undisturbed (o : op) : Prop :=
  match o with
  | OInitial _ _ _ _ _ e2 e3 => write e2 = Written ∧ write e3 = Written
  | OLoad _ e | OSide _ e => write e = Written
  | ORead _ => True
  | OEdit _ => False
  end.

Definition on_disk (f : Fetcher) : Prop :=
  (delivered f = [] ∧ hash f = zero_hash) ∨
  ∃ b v vs t, delivered f = v :: vs ∧ parser b = Some v ∧ hash f = MakeHash b ∧ path f = Some (mkFile (Some b) t).

Definition stored (f : Fetcher) : Prop := on_disk f ∧ Forall read_ok (inflight f).

Lemma on_disk_load b h up e f :
  (∀ b', b = Some b' → h = MakeHash b') → (up = true ∧ write e = Written ∨ ∃ t, path f = Some (mkFile b t)) →
  on_disk f → on_disk (loadBuf b h up e f).2.
Proof.
  intros Hb Hup Hd. unfold loadBuf. case_bool_decide as Hh.
  - cbn [snd]. unfold on_disk. destruct up; [|exact Hd]. unfold Chtimes. destruct (chtimes e); [|exact Hd]. cbn.
    destruct Hd as [?|(b' & v & vs & t & ? & ? & ? & Hp)]; [by left|right]. rewrite Hp. cbn. by exists b', v, vs, (now e).
  - destruct b as [b|]; [|exact Hd]. destruct (parser b) as [v|] eqn:Hp; [|exact Hd]. pose proof (Hb b eq_refl) as ->.
    unfold Write. destruct up; [destruct Hup as [[_ ->]|[t Ht]]; [|destruct (write e) as [|after]]|]; cbn.
    + right. by exists b, v, (delivered f), (now e).
    + right. by exists b, v, (delivered f), (now e).
    + destruct Hd as [?|(b' & v' & vs & t' & ? & ? & Hh' & Hp')]; [by left|]. rewrite Ht in Hp'. injection Hp' as <- <-. done.
    + destruct Hup as [[? _]|[t Ht]]; [done|]. right. by exists b, v, (delivered f), t.
Qed.

Lemma stored_load b h up e f :
  (∀ b', b = Some b' → h = MakeHash b') → (up = true ∧ write e = Written ∨ ∃ t, path f = Some (mkFile b t)) →
  stored f → stored (loadBuf b h up e f).2.
Proof. intros Hb Hup [Hd Hi]. split; [by apply on_disk_load|]. by rewrite (proj1 (loadBuf_inflight b h up e f)). Qed.

Lemma on_disk_ext f f' : delivered f' = delivered f → hash f' = hash f → path f' = path f → on_disk f → on_disk f'.
Proof. unfold on_disk. by intros -> -> ->. Qed.

Lemma stored_finish r e f : type = HTTP → read_ok r → write e = Written → stored f → stored (finish_update r e f).2.
Proof.
  intros Ht Hr He Hf. destruct r as [[b h]|]; cbn [finish_update]; [|done]. apply stored_load; [|left|done].
  - intros b' ->. by apply Hr.
  - by rewrite Ht.
Qed.

Lemma stored_Read resp f : stored f → stored (Read resp f).2.
Proof.
  intros [Hd Hi]. destruct (Read_ok resp f) as (_ & H1 & H2 & H3 & H4). split; [by apply (on_disk_ext f)|by rewrite H3].
Qed.

Lemma stored_run os f : type = HTTP → Forall undisturbed os → stored f → stored (run os f).
Proof.
  intros Ht Hos. revert f. induction Hos as [|o os Ho _ IH]; intros f Hf; [done|]. apply IH. clear IH.
  destruct o as [bundle watch_ok since resp e1 e2 e3|resp|i e|buf e|p]; cbn [flip run_op undisturbed] in *.
  - destruct Ho as [He2 He3]. apply Initial_keeps; [by intros ? ? [? ?]| | | |done].
    + intros g [b t] Hp. apply stored_load; [by intros b' ->|right; by exists t].
    + intros b g. apply stored_load; [by intros b' [= <-]|by left].
    + intros g Hg. unfold Update. pose proof (proj1 (Read_ok resp g)) as Hr. apply (stored_Read resp) in Hg.
      destruct (Read resp g) as [r g1]. by apply stored_finish.
  - pose proof (proj1 (Read_ok resp f)) as Hr. apply (stored_Read resp) in Hf. destruct (Read resp f) as [r f1], Hf as [Hd Hi].
    split; [done|]. by constructor.
  - destruct (inflight f !! i) as [r|] eqn:Hr; [|done]. pose proof (Forall_lookup_1 _ _ _ _ (proj2 Hf) Hr) as Hro.
    destruct (stored_finish r e f Ht Hro Ho Hf) as [Hd _]. split; [exact Hd|]. by apply Forall_delete, Hf.
  - apply stored_load; [by intros b' [= <-]|by left|done].
  - done.
Qed.

(** What the provider of a URL has, the next start of the program finds: after
    any operations with which nobody else interferes, a new fetcher's [Initial]
    loads the same content from the file and gives it to the provider, whatever
    the network does then. *)
Theorem restart_serves_same (os : list op) (p : option file) (c c' : EtagWithHash) (v : V) (vs : list V)
    bundle watch_ok since resp e1 e2 e3 :
  type = HTTP → Forall undisturbed os → (∀ b, MakeHash b ≠ zero_hash) →
  let f := run os (NewFetcher p c) in delivered f = v :: vs →
  let '(r, l, f') := Initial bundle watch_ok since resp e1 e2 e3 (NewFetcher (path f) c') in
  r = Loaded v ∧ delivered f' = [v] ∧ path f' = path f.
Proof.
  intros Ht Hos Hz f Hd. destruct (stored_run os (NewFetcher p c) Ht Hos) as [Hdisk _]; [split; [by left|constructor]|]. fold f in Hdisk.
  destruct Hdisk as [[Hn _]|(b & v' & vs' & t & Hd' & Hp & _ & ->)]; [congruence|]. rewrite Hd in Hd'. injection Hd' as <- <-.
  unfold Initial, loadBuf. cbn [path NewFetcher f_content default hash]. rewrite bool_decide_eq_false_2 by (intros Heq; by apply (Hz b)).
  rewrite Hp. cbn. unfold finish_initial, startPullLoop. rewrite Ht. done.
Qed.

(** ** Waiting *)

(** The back-off's duration lies between its bounds, whatever the random
    number; without one it doubles, or is multiplied by the factor, from the lower
    bound on, until it is the upper bound. *)
Theorem backoff_bounds (jittered : Z → Z → Z) (b : Backoff) (n : Z) :
  0 < bo_Min b < bo_Max b → bo_Max b < 2 ^ 53 → 0 < Factor b → 0 ≤ n →
  bo_Min b ≤ ForAttempt jittered b n ≤ bo_Max b ∧
  (Jitter b = false → ForAttempt jittered b n = Z.min (bo_Max b) (bo_Min b * Factor b ^ n)).
Proof.
  intros Hm Hx Hf Hn. unfold ForAttempt. destruct (Z.leb_spec (bo_Min b) 0), (Z.leb_spec (bo_Max b) 0), (Z.leb_spec (Factor b) 0); try lia.
  destruct (Z.leb_spec (bo_Max b) (bo_Min b)); [lia|].
  assert (1 ≤ Factor b ^ n) as Hpow by (apply Z.lt_pred_le, Z.pow_pos_nonneg; lia).
  assert (bo_Min b * 1 ≤ bo_Min b * Factor b ^ n) as Hge by (apply Z.mul_le_mono_nonneg_l; lia).
  unfold maxInt64. change (2 ^ 63 - 1024) with 9223372036854774784. change (2 ^ 53) with 9007199254740992 in Hx.
  split; [|intros ->]; repeat case_match; repeat match goal with H : (_ <? _) = true |- _ => apply Z.ltb_lt in H | H : (_ <? _) = false |- _ => apply Z.ltb_ge in H end; lia.
Qed.

(** The back-off of the fetcher at any time. *)
Definition backoff_ok (b : Backoff) : Prop :=
  0 ≤ attempt b ∧ Factor b = 2 ∧ Jitter b = false ∧ bo_Min b = (if interval <? 10 * Second then interval else 10 * Second) ∧ bo_Max b = interval.

Lemma AddAttempt_ok b : backoff_ok b → backoff_ok (AddAttempt b).
Proof.
  intros (_ & Hb). split; [|exact Hb]. cbn. by apply (@wrap_unsigned uint64).
Qed.

Lemma Reset_ok b : backoff_ok b → backoff_ok (Reset b).
Proof. intros (_ & Hb). by split. Qed.

Lemma loadBuf_backoff buf h up e f : backoff_ok (backoff f) → backoff_ok (backoff (loadBuf buf h up e f).2).
Proof.
  intros Hb. pose proof (Reset_ok _ Hb) as Hr. pose proof (AddAttempt_ok _ Hb) as Ha. unfold loadBuf. case_bool_decide.
  - destruct up; [|done]. unfold Chtimes. by destruct (chtimes e).
  - destruct buf as [b|]; [|done]. destruct (parser b); [|done]. unfold Write. by destruct up; [destruct (write e)|].
Qed.

Lemma finish_backoff r e f : backoff_ok (backoff f) → backoff_ok (backoff (finish_update r e f).2).
Proof. intros Hb. destruct r as [[b h]|]; [by apply loadBuf_backoff|by apply AddAttempt_ok]. Qed.

Lemma Read_backoff resp f : backoff (Read resp f).2 = backoff f.
Proof.
  unfold Read, read_http. destruct type; [done|]. destruct resp as [|status [b|] tag saved]; [done| |]; destruct (_ || _); try done; by destruct (_ && _).
Qed.

Lemma Update_backoff resp e f : backoff_ok (backoff f) → backoff_ok (backoff (Update resp e f).2).
Proof.
  intros Hb. rewrite <- (Read_backoff resp f) in Hb. unfold Update. destruct (Read resp f) as [r f1]. by apply finish_backoff.
Qed.

Lemma run_backoff os f : backoff_ok (backoff f) → backoff_ok (backoff (run os f)).
Proof.
  revert f. induction os as [|o os IH]; intros f Hf; [done|]. apply IH. clear IH. destruct o as [bundle watch_ok since resp e1 e2 e3|resp|i e|buf e|p]; cbn [flip run_op].
  - apply (Initial_keeps (λ f, backoff_ok (backoff f))); [done| | | |done].
    + intros g fl _. apply loadBuf_backoff.
    + intros b g. apply loadBuf_backoff.
    + intros g. apply Update_backoff.
  - rewrite <- (Read_backoff resp f) in Hf. by destruct (Read resp f) as [r f1].
  - destruct (inflight f !! i) as [r|]; [|done]. by apply (finish_backoff r e f).
  - by apply loadBuf_backoff.
  - done.
Qed.

(** Between two updates of the pull loop lies a time that is positive and not
    above the interval: the interval itself when the last update did not fail,
    and after [n] failures in a row ten seconds (or the interval, if that is
    shorter) doubled [n] times, while that is below the interval. *)
Theorem pull_wait_bounds (jittered : Z → Z → Z) (os : list op) (p : option file) (c : EtagWithHash) :
  0 < interval < 2 ^ 53 →
  let f := run os (NewFetcher p c) in let n := attempt (backoff f) in let wait := backoff_wait jittered interval f in
  0 < wait ≤ interval ∧ (n = 0 → wait = interval) ∧
  (0 < n → wait = Z.min interval (Z.min interval (10 * Second) * 2 ^ n)).
Proof.
  intros Hi f n wait. destruct (run_backoff os (NewFetcher p c)) as (Hn & Hf & Hj & Hm & Hx); [by split_and!|]. fold f in Hn, Hf, Hj, Hm, Hx. fold n in Hn.
  unfold wait, backoff_wait. fold n. clear wait. destruct (Z.ltb_spec 0 n) as [Hpos|Hpos]; [|split; [lia|]; split; [done|lia]].
  assert (bo_Min (backoff f) = Z.min interval (10 * Second)) as Hmin by (rewrite Hm; destruct (Z.ltb_spec interval (10 * Second)); lia).
  assert (1 ≤ 2 ^ n) as Hpow by (apply Z.lt_pred_le, Z.pow_pos_nonneg; lia).
  assert (0 < 10 * Second) as Hs by done.
  assert (ForAttempt jittered (backoff f) n = Z.min interval (Z.min interval (10 * Second) * 2 ^ n)) as ->.
  { destruct (Z.lt_trichotomy (bo_Min (backoff f)) (bo_Max (backoff f))) as [Hlt|Hge].
    - destruct (backoff_bounds jittered (backoff f) n) as [_ Hfa]; [lia|lia|lia|lia|]. rewrite Hfa, Hx, Hmin, Hf by done. done.
    - unfold ForAttempt. rewrite Hx in *. rewrite Hmin in *. destruct (Z.leb_spec (Z.min interval (10 * Second)) 0); [lia|]. destruct (Z.leb_spec interval 0); [lia|].
      destruct (Z.leb_spec interval (Z.min interval (10 * Second))); [nia|lia]. }
  generalize dependent (2 ^ n). intros k Hk. generalize dependent (10 * Second). intros s Hms Hs.
  destruct (Z.ltb_spec (Z.min interval (Z.min interval s * k)) interval); split; try nia; split; try lia; intros _; nia.
Qed.

(** The counter of the last theorem is that of the failures: one without an answer
    adds to it, an update that does not fail sets it to zero. *)
Lemma failures_counted e f : type = HTTP → attempt (backoff (Update NoResponse e f).2) = @wrap uint64 (attempt (backoff f) + 1).
Proof. intros Ht. unfold Update, Read. by rewrite Ht. Qed.

Lemma success_resets b h up e f :
  let '(r, f') := loadBuf (Some b) h up e f in r ≠ Failed → attempt (backoff f') = 0.
Proof.
  unfold loadBuf. case_bool_decide; [done|]. destruct (parser b); [|done]. unfold Write. by destruct up; [destruct (write e)|].
Qed.

(** ** What is wrong *)

(** A file that exists and cannot be opened is taken for a start that succeeded with
    nothing: neither the bundled file nor the network is asked. *)
Lemma unreadable_file_is_empty bundle watch_ok since resp e1 e2 e3 t c :
  zero_hash ≠ MakeHash [] → is_Some (startPullLoop watch_ok (interval <? since - t)) →
  let '(r, l, f) := Initial bundle watch_ok since resp e1 e2 e3 (NewFetcher (Some (mkFile None t)) c) in
  r = Same ∧ delivered f = [].
Proof.
  intros Hz [l Hl]. unfold Initial, loadBuf. cbn [path NewFetcher f_content default hash f_modTime]. rewrite bool_decide_eq_false_2 by done.
  cbn. unfold finish_initial. by rewrite Hl.
Qed.

(** After an update that was forced because the file is old the loop does not wait:
    it computed the time before the update.  Whatever the update brought, the
    second one follows at once. *)
Lemma forced_update_twice jittered t resp e f :
  interval < t - updatedAt f → (pull_begin jittered t (Some (resp, e)) f).1 < 0.
Proof.
  intros Ht. unfold pull_begin, initialInterval, backoff_wait. cbn [fst]. destruct (Z.ltb_spec interval (interval - (t - updatedAt f))); repeat case_match; try lia.
  all: repeat match goal with H : (_ <? _) = true |- _ => apply Z.ltb_lt in H end; lia.
Qed.

End fetcher.

(** ** A provider of proxies

    [baseProvider.setProxies], which is the [onUpdate] of its fetcher, as far as
    the list of proxies goes. *)
Section provider.
Context {Proxy : Type}.

Record baseProvider := mkBase { proxies : list Proxy; version : Z }.

Definition setProxies (ps : list Proxy) (bp : baseProvider) : baseProvider := mkBase ps (@wrap uint32 (version bp + 1)).

(** The provider after the calls in [delivered], the last first. *)
Definition provided (bp : baseProvider) (delivered : list (list Proxy)) : baseProvider := foldr setProxies bp delivered.

Lemma provided_last bp v vs : proxies (provided bp (v :: vs)) = v.
Proof. done. Qed.

Lemma provided_version bp vs : @in_type uint32 (version bp) → version (provided bp vs) = @wrap uint32 (version bp + Z.of_nat (length vs)).
Proof.
  intros Hv. induction vs as [|v vs IH]; [cbn; rewrite Z.add_0_r; by rewrite wrap_id|]. cbn [provided foldr setProxies version]. fold (provided bp vs).
  rewrite IH, wrap_add_wrap by done. f_equal. cbn [length]. lia.
Qed.

End provider.

(** ** An example *)

Definition example_hash (b : list Z) : HashType := 1 :: b.

Definition example_parser (b : list Z) : option (list Z) := match b with [] => None | _ => Some b end.

Definition example_env : env := mkEnv 100 Written true.

Definition example_start : list op := [OInitial None true 0 (Response 200 (Some [7]) "t" true) example_env example_env example_env].

Lemma not_modified_current_witness :
  let f := run example_hash example_parser HTTP true 0 (3600 * Second) example_start (NewFetcher (3600 * Second) None (mkEtag zero_hash "")) in
  let '(r, f') := Update example_hash example_parser HTTP true 0 (Response 304 None "" true) example_env f in
  r = Same ∧ delivered f' = delivered f ∧
  (collides example_hash [[7]] [7] ∨ ∃ v vs, delivered f' = v :: vs ∧ example_parser [7] = Some v).
Proof.
  apply (not_modified_current example_hash example_parser HTTP true 0 (3600 * Second) (λ _, [7]) example_start None (mkEtag zero_hash "") "t");
    [reflexivity|left; reflexivity|constructor; [right; reflexivity|constructor]|vm_compute; reflexivity].
Defined.

Lemma restart_serves_same_witness :
  let f := run example_hash example_parser HTTP true 0 (3600 * Second) example_start (NewFetcher (3600 * Second) None (mkEtag zero_hash "")) in
  let '(r, l, f') := Initial example_hash example_parser HTTP true 0 (3600 * Second) None true 200 NoResponse example_env example_env example_env
    (NewFetcher (3600 * Second) (path f) (mkEtag zero_hash "")) in
  r = Loaded [7] ∧ delivered f' = [[7]] ∧ path f' = path f.
Proof.
  apply (restart_serves_same example_hash example_parser HTTP true 0 (3600 * Second) example_start None (mkEtag zero_hash "") (mkEtag zero_hash "") [7] []);
    [reflexivity|constructor; [split; reflexivity|constructor]|intros b; discriminate|vm_compute; reflexivity].
Defined.

Lemma pull_wait_bounds_witness :
  let f := run example_hash example_parser HTTP true 0 (3600 * Second) (example_start ++ [ORead NoResponse; OLoad 0 example_env])
    (NewFetcher (3600 * Second) None (mkEtag zero_hash "")) in
  backoff_wait (λ _ _, 0) (3600 * Second) f = 20 * Second.
Proof.
  intros f. destruct (pull_wait_bounds example_hash example_parser HTTP true 0 (3600 * Second) (λ _ _, 0)
    (example_start ++ [ORead NoResponse; OLoad 0 example_env]) None (mkEtag zero_hash "")) as (_ & _ & Hw); [split; reflexivity|].
  unfold f. rewrite Hw; vm_compute; reflexivity.
Defined.
