(* ===== verification/GroupConfig.v ===== *)
(** * Groups from their options: [adapter/outboundgroup/parser.go] and the health
    checks of providers, [adapter/provider/healthcheck.go]

    [ParseProxyGroup] after the options are decoded: which proxies and providers a
    group refers to, the provider that is made of its proxies, and the health
    checks it registers with the others.  Providers are in a map by name and are
    shared between groups; a group keeps the names of its providers.  A regular
    expression is its text; [match_re] is what the library regexp2 makes of it,
    [None] for a text that does not compile, which is a panic.  The tolerance of a
    URL test, which the group keeps, is left out.

    The theorems: what a health check tests after any registrations
    ([registered_tests]), and what a group that was parsed refers to
    ([parse_group_correct]). *)

From Stdlib Require Import ZArith Lia Ascii String.
From stdpp Require Import prelude strings gmap list.
From S2P Require Import Prelude Ranges.

Open Scope Z_scope.

(** ** Options and errors *)

(** The options that the parser reads, decoded; [strategy] is that of the
    configuration, if it is a string. *)
Record GroupCommonOption := mkOption {
  go_Name : string;
  go_Type : string;
  go_Proxies : list string;
  Use : list string;
  URL : string;
  go_Interval : Z;
  go_TestTimeout : Z;
  go_EmptyFallback : string;
  go_Lazy : bool;
  go_Filter : string;
  go_ExcludeFilter : string;
  go_ExpectedStatus : string;
  IncludeAll : bool;
  IncludeAllProxies : bool;
  IncludeAllProviders : bool;
  go_strategy : option string;
}.

Inductive parse_error :=
  | errFormat
  | errEmptyFallback
  | errMissProxy
  | errStatus
  | errNotFound (name : string)
  | errGroupInUse (name : string)
  | errDuplicateProvider
  | errType
  | errStrategy.

(** A panic is the one of an expression that does not compile. *)
Inductive outcome (A : Type) := Parsed (a : A) | Error (e : parse_error) | Panic.

Arguments Parsed {A}.
Arguments Error {A}.
Arguments Panic {A}.

Definition obind {A B} (m : outcome A) (f : A → outcome B) : outcome B :=
  match m with Parsed a => f a | Error e => Error e | Panic => Panic end.

Local Notation "x <-- m ; k" := (obind m (λ x, k)) (at level 100, m at next level, right associativity).

(** ** Health checks *)

Section groups.
Context {Px : Type} (Name : Px → string) (match_re : string → string → option bool).

Record extraOption := mkExtra { eo_expectedStatus : IntRanges; filters : gset string }.

(** [extra] is never nil. *)
Record HealthCheck := mkHC {
  url : string;
  extra : gmap string extraOption;
  proxies : list Px;
  interval : Z;
  lazy : bool;
  expectedStatus : IntRanges;
  lastTouch : Z;
  timeout : Z;
}.

Definition hc_with (e : gmap string extraOption) (ps : list Px) (i t : Z) (hc : HealthCheck) : HealthCheck :=
  mkHC (url hc) e ps i (lazy hc) (expectedStatus hc) t (timeout hc).

(** A number of the configuration as a duration. *)
Definition times_second (n : Z) : Z := @wrap int64 (@wrap int64 n * Second).

Definition NewHealthCheck (ps : list Px) (url : string) (timeout interval : Z) (lazy : bool) (expected : IntRanges) : HealthCheck :=
  let '(expected, interval) := if bool_decide (url = "")%string then ([], 0) else (expected, interval) in
  let timeout := if timeout =? 0 then 5000 else timeout in
  mkHC url ∅ ps (times_second interval) lazy expected 0 (@wrap int64 (@wrap int64 timeout * Millisecond)).

Definition hc_setProxies (ps : list Px) (hc : HealthCheck) : HealthCheck := hc_with (extra hc) ps (interval hc) (lastTouch hc) hc.

Definition touch (now : Z) (hc : HealthCheck) : HealthCheck := hc_with (extra hc) (proxies hc) (interval hc) now hc.

Definition auto (hc : HealthCheck) : bool := negb (interval hc =? 0).

(** Whether a tick of [process] checks. *)
Definition process_tick (now : Z) (hc : HealthCheck) : bool := negb (lazy hc) || (now - lastTouch hc <? interval hc).

(** The expressions of a filter. *)
Definition filter_parts (filter : string) : list string :=
  let filter := TrimSpace filter in
  if (0 <? String.length filter)%nat then
    List.filter (λ regex, 0 <? String.length regex)%nat (map TrimSpace (Split filter "`"))
  else [].

Definition splitAndAddFiltersToExtra (filter : string) (option : extraOption) : extraOption :=
  mkExtra (eo_expectedStatus option) (filters option ∪ list_to_set (filter_parts filter)).

Definition registerHealthCheckTask (url0 : string) (expected : IntRanges) (filter : string) (interval0 : Z) (hc : HealthCheck) : HealthCheck :=
  let u := TrimSpace url0 in
  if bool_decide (u = "")%string || bool_decide (u = url hc) then hc
  else
    let i := if interval hc =? 0 then times_second interval0 else interval hc in
    match extra hc !! u with
    | Some option =>
      let option' := if bool_decide (u ≠ url hc) && negb (bool_decide (filter = "")%string) then splitAndAddFiltersToExtra filter option else option in
      hc_with (<[u := option']> (extra hc)) (proxies hc) i (lastTouch hc) hc
    | None =>
      hc_with (<[u := splitAndAddFiltersToExtra filter (mkExtra expected ∅)]> (extra hc)) (proxies hc) i (lastTouch hc) hc
    end.

(** A test of a proxy. *)
Record test := mkTest { t_proxy : Px; t_url : string; t_status : IntRanges }.

(** [execute]: the tests that are started; [order] is the order in which the map of
    filters is visited, and [None] the panic of an expression. *)
Fixpoint execute_loop (filterReg : option string) (u : string) (expected : IntRanges) (ps : list Px) : option (list test) :=
  match ps with
  | [] => Some []
  | p :: ps' =>
    ok ← match filterReg with Some r => match_re r (Name p) | None => Some true end;
    ts ← execute_loop filterReg u expected ps';
    Some (if ok : bool then mkTest p u expected :: ts else ts)
  end.

Definition execute (url0 : string) (opt : extraOption) (order : list string) (ps : list Px) : option (list test) :=
  let u := TrimSpace url0 in
  if bool_decide (u = "")%string then Some []
  else
    match order with
    | [] => execute_loop None u (eo_expectedStatus opt) ps
    | _ => execute_loop (Some (Join order "|")) u (eo_expectedStatus opt) ps
    end.

(** [check], when the single flight runs it: [visits] is the order in which the map
    [extra] is visited, each entry with the order of its filters. *)
Fixpoint check_extra (hc : HealthCheck) (visits : list (string * list string)) : option (list test) :=
  match visits with
  | [] => Some []
  | (u, order) :: visits' =>
    opt ← extra hc !! u;
    ts ← execute u opt order (proxies hc);
    ts' ← check_extra hc visits';
    Some (ts ++ ts')
  end.

Definition check (hc : HealthCheck) (visits : list (string * list string)) : option (list test) :=
  match proxies hc with
  | [] => Some []
  | ps =>
    ts ← execute (url hc) (mkExtra (expectedStatus hc) ∅) [] ps;
    ts' ← check_extra hc visits;
    Some (ts ++ ts')
  end.

(** ** The parser of groups *)

(** A provider of the map. *)
Record provider := mkProvider { pd_compatible : bool; pd_hc : HealthCheck }.

(** The kinds of group and what they are made of; the providers by their names. *)
Inductive group_kind := GURLTest | GSelector | GFallback | GLoadBalance (strategy : string).

Record parsed_group := mkParsed {
  pg_kind : group_kind;
  pg_URL : string;
  pg_ExpectedStatus : string;
  pg_fallback : Px;
  pg_providers : list string;
}.

(** [MustCompile] of every expression of a filter. *)
Definition compiles (filter : string) : bool := forallb (λ r, bool_decide (is_Some (match_re r ""))) (Split filter "`").

(** The loops over all proxies and the filters. *)
Definition matching (filter : string) (AllProxies : list string) : list string :=
  concat (map (λ p, concat (map (λ r, if default false (match_re r p) then [p] else []) (Split filter "`"))) AllProxies).

Definition include_all_proxies (o : GroupCommonOption) (AllProxies Use' : list string) (fallback : string) : outcome (list string) :=
  ps <-- (if bool_decide (go_Filter o ≠ "")%string then
            if compiles (go_Filter o) then Parsed (go_Proxies o ++ matching (go_Filter o) AllProxies) else Panic
          else Parsed (go_Proxies o ++ AllProxies));
  Parsed (match ps, Use' with [], [] => [fallback] | _, _ => ps end).

Fixpoint getProxies (mapping : gmap string Px) (names : list string) : outcome (list Px) :=
  match names with
  | [] => Parsed []
  | name :: names' =>
    match mapping !! name with
    | None => Error (errNotFound name)
    | Some p => ps <-- getProxies mapping names'; Parsed (p :: ps)
    end
  end.

Fixpoint getProviders (mapping : gmap string provider) (names : list string) : outcome (list provider) :=
  match names with
  | [] => Parsed []
  | name :: names' =>
    match mapping !! name with
    | None => Error (errNotFound name)
    | Some p =>
      if pd_compatible p then Error (errGroupInUse name)
      else ps <-- getProviders mapping names'; Parsed (p :: ps)
    end
  end.

Definition addTestUrlToProviders (names : list string) (u : string) (expected : IntRanges) (filter : string) (interval0 : Z)
    (mapping : gmap string provider) : gmap string provider :=
  if bool_decide (names = []) || bool_decide (u = "")%string then mapping
  else foldl (λ m name, alter (λ pd, mkProvider (pd_compatible pd) (registerHealthCheckTask u expected filter interval0 (pd_hc pd))) name m) mapping names.

Definition DefaultTestURL : string := "https://www.gstatic.com/generate_204".

(** The URL of the first provider that has one. *)
Definition first_url (PDs : list provider) : string :=
  default DefaultTestURL (head (List.filter (λ u, negb (bool_decide (u = "")%string)) (map (λ pd, url (pd_hc pd)) PDs))).

(** An interval of the options, an [int], as a [uint]. *)
Definition to_uint (n : Z) : Z := @wrap uint64 n.

(** The part that looks at the providers in use: the URL of the group, and the
    map, which an error leaves as it is at that point. *)
Definition use_providers (o : GroupCommonOption) (Use' : list string) (expected : IntRanges) (pm : gmap string provider) :
    outcome string * gmap string provider :=
  match Use' with
  | [] => (Parsed (URL o), pm)
  | _ =>
    match getProviders pm Use' with
    | Error e => (Error e, pm)
    | Panic => (Panic, pm)
    | Parsed PDs =>
      if bool_decide (URL o = "")%string then (Parsed (first_url PDs), pm)
      else (Parsed (URL o), addTestUrlToProviders Use' (URL o) expected (go_Filter o) (to_uint (go_Interval o)) pm)
    end
  end.

(** The part that makes a provider of the proxies. *)
Definition own_provider (o : GroupCommonOption) (ps : list string) (proxyMap : gmap string Px) (expected : IntRanges) (u : string)
    (pm : gmap string provider) : outcome string * gmap string provider :=
  match ps with
  | [] => (Parsed u, pm)
  | _ =>
    match getProxies proxyMap ps with
    | Error e => (Error e, pm)
    | Panic => (Panic, pm)
    | Parsed qs =>
      if bool_decide (is_Some (pm !! go_Name o)) then (Error errDuplicateProvider, pm)
      else
        let u := if bool_decide (u = "")%string then DefaultTestURL else u in
        let i := if bool_decide (go_Type o ≠ "select" ∧ go_Type o ≠ "relay")%string && (go_Interval o =? 0) then 300 else go_Interval o in
        let hc := NewHealthCheck qs u (to_uint (go_TestTimeout o)) (to_uint i) (go_Lazy o) expected in
        (Parsed u, <[go_Name o := mkProvider true hc]> pm)
    end
  end.

(** [NewGroupBase] compiles the filters of the group. *)
Definition new_base (o : GroupCommonOption) (k : group_kind) : outcome group_kind :=
  if (bool_decide (go_ExcludeFilter o = "")%string || compiles (go_ExcludeFilter o)) &&
     (bool_decide (go_Filter o = "")%string || compiles (go_Filter o)) then Parsed k else Panic.

Definition new_group (o : GroupCommonOption) : outcome group_kind :=
  if bool_decide (go_Type o = "url-test")%string then new_base o GURLTest
  else if bool_decide (go_Type o = "select")%string then new_base o GSelector
  else if bool_decide (go_Type o = "fallback")%string then new_base o GFallback
  else if bool_decide (go_Type o = "load-balance")%string then
    let strategy := default "consistent-hashing"%string (go_strategy o) in
    if bool_decide (strategy = "consistent-hashing" ∨ strategy = "round-robin" ∨ strategy = "sticky-sessions")%string
    then new_base o (GLoadBalance strategy) else Error errStrategy
  else Error errType.

(** From the expected status on. *)
Definition finish_parse (o : GroupCommonOption) (proxyMap : gmap string Px) (providersMap : gmap string provider)
    (emptyFallback : Px) (ps Use' : list string) : outcome parsed_group * gmap string provider :=
  match @NewUnsignedRanges uint16 (go_ExpectedStatus o) with
  | None => (Error errStatus, providersMap)
  | Some expected =>
    let status := TrimSpace (go_ExpectedStatus o) in
    let '(r, pm) := use_providers o Use' expected providersMap in
    match r with
    | Error e => (Error e, pm)
    | Panic => (Panic, pm)
    | Parsed u =>
      let '(r, pm) := own_provider o ps proxyMap expected u pm in
      (u <-- r;
       k <-- new_group o;
       Parsed (mkParsed k u (if bool_decide (status = "")%string then "*"%string else status) emptyFallback
                 (match ps with [] => [] | _ => [go_Name o] end ++ Use')), pm)
    end
  end.

(** [ParseProxyGroup], with the map of providers afterwards, also of an error. *)
Definition ParseProxyGroup (o : GroupCommonOption) (proxyMap : gmap string Px) (providersMap : gmap string provider)
    (AllProxies AllProviders : list string) : outcome parsed_group * gmap string provider :=
  if bool_decide (go_Type o = "")%string || bool_decide (go_Name o = "")%string then (Error errFormat, providersMap)
  else
    let fallback := if bool_decide (go_EmptyFallback o = "")%string then "COMPATIBLE"%string else go_EmptyFallback o in
    match proxyMap !! fallback with
    | None => (Error errEmptyFallback, providersMap)
    | Some emptyFallback =>
      let Use' := if IncludeAll o || IncludeAllProviders o then AllProviders else Use o in
      match (if IncludeAll o || IncludeAllProxies o then include_all_proxies o AllProxies Use' fallback else Parsed (go_Proxies o)) with
      | Error e => (Error e, providersMap)
      | Panic => (Panic, providersMap)
      | Parsed ps =>
        match ps, Use' with
        | [], [] => (Error errMissProxy, providersMap)
        | _, _ => finish_parse o proxyMap providersMap emptyFallback ps Use'
        end
      end
    end.

(** ** What is tested *)

Record registration := mkReg { r_url : string; r_status : IntRanges; r_filter : string; r_interval : Z }.

Definition register (hc : HealthCheck) (r : registration) : HealthCheck :=
  registerHealthCheckTask (r_url r) (r_status r) (r_filter r) (r_interval r) hc.

Definition registered (hc : HealthCheck) (rs : list registration) : HealthCheck := foldl register hc rs.

(** The registrations for a URL that is not the provider's own, and the expressions
    of their filters. *)
Definition for_url (u : string) (rs : list registration) : list registration := List.filter (λ r, bool_decide (TrimSpace (r_url r) = u)) rs.

Definition all_filters (rs : list registration) : gset string := list_to_set (concat (map (λ r, filter_parts (r_filter r)) rs)).

Definition expected_extra (hc : HealthCheck) (rs : list registration) (u : string) : option extraOption :=
  if bool_decide (u = "")%string || bool_decide (u = url hc) then None
  else match for_url u rs with [] => None | r :: _ => Some (mkExtra (r_status r) (all_filters (for_url u rs))) end.

Lemma register_keeps r hc : url (register hc r) = url hc ∧ proxies (register hc r) = proxies hc ∧ expectedStatus (register hc r) = expectedStatus hc.
Proof. unfold register, registerHealthCheckTask. destruct (_ || _); [done|]. by destruct (extra hc !! _). Qed.

Lemma registered_keeps rs hc :
  url (registered hc rs) = url hc ∧ proxies (registered hc rs) = proxies hc ∧ expectedStatus (registered hc rs) = expectedStatus hc.
Proof.
  revert hc. induction rs as [|r rs IH]; intros hc; [done|]. cbn [registered foldl]. fold (registered (register hc r) rs).
  destruct (IH (register hc r)) as (-> & -> & ->). apply register_keeps.
Qed.

Lemma filter_parts_empty : filter_parts "" = [].
Proof. done. Qed.

Lemma for_url_snoc u rs r : for_url u (rs ++ [r]) = for_url u rs ++ (if bool_decide (TrimSpace (r_url r) = u) then [r] else []).
Proof. unfold for_url. rewrite List.filter_app. cbn. by destruct (bool_decide _). Qed.

Lemma registered_extra hc rs u : extra hc = ∅ → extra (registered hc rs) !! u = expected_extra hc rs u.
Proof.
  clear match_re Name. intros He. induction rs as [|r rs IH] using rev_ind.
  - cbn. rewrite He, lookup_empty. unfold expected_extra. by destruct (_ || _).
  - unfold registered. rewrite foldl_app. fold (registered hc rs). cbn [foldl].
    destruct (registered_keeps rs hc) as (Hu & _). unfold register, registerHealthCheckTask. rewrite Hu.
    unfold expected_extra in *. rewrite for_url_snoc. set (v := TrimSpace (r_url r)).
    destruct (decide (v = u)) as [Hv|Hv].
    + rewrite (bool_decide_eq_true_2 (v = u)) by done. rewrite Hv. destruct (bool_decide (u = "")%string || bool_decide (u = url hc)) eqn:Hb; [done|].
      rewrite IH. apply orb_false_iff in Hb as [_ Hb%bool_decide_eq_false]. rewrite (bool_decide_eq_true_2 (u ≠ url hc)) by done. cbn [andb].
      destruct (for_url u rs) as [|r0 l]; cbn [app].
      * cbn [extra hc_with]. rewrite lookup_insert_eq. unfold splitAndAddFiltersToExtra, all_filters. cbn. f_equal. f_equal. rewrite app_nil_r. set_solver.
      * cbn [extra hc_with]. rewrite lookup_insert_eq. f_equal.
        assert (all_filters (r0 :: l ++ [r]) = all_filters (r0 :: l) ∪ list_to_set (filter_parts (r_filter r))) as ->.
        { unfold all_filters. change (r0 :: l ++ [r]) with ((r0 :: l) ++ [r]). rewrite map_app, concat_app, list_to_set_app_L. cbn [map concat]. by rewrite app_nil_r. }
        case_bool_decide as Hf; cbn [negb]; [|done]. rewrite Hf, filter_parts_empty. f_equal. set_solver.
    + rewrite (bool_decide_eq_false_2 (v = u)) by done. rewrite app_nil_r, <- IH.
      destruct (bool_decide (v = ""%string) || bool_decide (v = url hc)); [done|]. by destruct (extra (registered hc rs) !! v); cbn [extra hc_with]; rewrite lookup_insert_ne.
Qed.

(** The proxies that a URL is tested with: all, if no expression was registered for
    it; else those that match the expressions put together, in the order of the
    visit, with "|" between them. *)
Definition picked (order : list string) (p : Px) : Prop := order = [] ∨ match_re (Join order "|") (Name p) = Some true.

(** A panic: the expressions put together do not compile. *)
Definition fails (order : list string) (ps : list Px) : Prop := order ≠ [] ∧ ∃ p, p ∈ ps ∧ match_re (Join order "|") (Name p) = None.

(** Where the expressions put together mean any of them, as they do if none has
    options or references of its own, a proxy is picked when one of them matches. *)
Lemma picked_any order p :
  (∀ s, match_re (Join order "|") s = Some (existsb (λ f, default false (match_re f s)) order)) →
  picked order p ↔ order = [] ∨ ∃ f, f ∈ order ∧ match_re f (Name p) = Some true.
Proof.
  intros Halt. unfold picked. rewrite Halt. split; (intros [?|H]; [by left|right]).
  - injection H as H. apply existsb_exists in H as (f & Hf & Hm). exists f. split; [by apply list_elem_of_In|]. by destruct (match_re f (Name p)) as [[]|].
  - destruct H as (f & Hf & Hm). f_equal. apply existsb_exists. exists f. split; [by apply list_elem_of_In|]. by rewrite Hm.
Qed.

Lemma execute_loop_spec reg u expected ps :
  match execute_loop reg u expected ps with
  | Some ts => ∀ t, t ∈ ts ↔ t_proxy t ∈ ps ∧ t_url t = u ∧ t_status t = expected ∧
      match reg with Some r => match_re r (Name (t_proxy t)) = Some true | None => True end
  | None => ∃ r p, reg = Some r ∧ p ∈ ps ∧ match_re r (Name p) = None
  end.
Proof.
  induction ps as [|p ps IH]; [intros t; split; [by intros ?%elem_of_nil|by intros [?%elem_of_nil _]]|]. cbn [execute_loop].
  destruct (match reg with Some r => match_re r (Name p) | None => Some true end) as [ok|] eqn:Hp; cbn [mbind option_bind].
  2: { destruct reg as [r|]; [|done]. exists r, p. split; [done|]. split; [by left|done]. }
  destruct (execute_loop reg u expected ps) as [ts|]; cbn [mbind option_bind].
  2: { destruct IH as (r & q & -> & Hq & Hn). exists r, q. split; [done|]. split; [by right|done]. }
  intros t. transitivity (ok = true ∧ t = mkTest p u expected ∨ t ∈ ts).
  { destruct ok; [rewrite elem_of_cons; naive_solver|naive_solver]. }
  rewrite IH, elem_of_cons. split.
  - intros [[-> ->]|(? & ? & ? & ?)]; [|by split_and!; [right|..]]. split_and!; [by left|done|done|]. cbn. by destruct reg.
  - intros ([Ht|Ht] & Hu & Hs & Hm); [left|by right]. destruct t as [q u' s']. cbn in *. subst.
    destruct reg; [|by simplify_eq]. by rewrite Hm in Hp; simplify_eq.
Qed.

Lemma execute_spec u0 opt order ps :
  match execute u0 opt order ps with
  | Some ts => ∀ t, t ∈ ts ↔ TrimSpace u0 ≠ ""%string ∧ t_url t = TrimSpace u0 ∧ t_status t = eo_expectedStatus opt ∧ t_proxy t ∈ ps ∧
      picked order (t_proxy t)
  | None => fails order ps
  end.
Proof.
  unfold execute. case_bool_decide as Hu; [intros t; split; [by intros ?%elem_of_nil|by intros [? _]]|]. destruct order as [|o1 order].
  - pose proof (execute_loop_spec None (TrimSpace u0) (eo_expectedStatus opt) ps) as Hs. destruct (execute_loop _ _ _ _) as [ts|]; [|by destruct Hs as (? & ? & ? & _)].
    intros t. rewrite Hs. unfold picked. naive_solver.
  - pose proof (execute_loop_spec (Some (Join (o1 :: order) "|")) (TrimSpace u0) (eo_expectedStatus opt) ps) as Hs. destruct (execute_loop _ _ _ _) as [ts|].
    + intros t. rewrite Hs. unfold picked. naive_solver.
    + destruct Hs as (r & p & [= <-] & Hp & Hn). split; [done|eauto].
Qed.

Lemma check_extra_spec hc visits :
  Forall (λ v, is_Some (extra hc !! v.1)) visits →
  match check_extra hc visits with
  | Some ts => ∀ t, t ∈ ts ↔ ∃ u opt order, (u, order) ∈ visits ∧ extra hc !! u = Some opt ∧
      TrimSpace u ≠ ""%string ∧ t_url t = TrimSpace u ∧ t_status t = eo_expectedStatus opt ∧ t_proxy t ∈ proxies hc ∧ picked order (t_proxy t)
  | None => ∃ u order, (u, order) ∈ visits ∧ fails order (proxies hc)
  end.
Proof.
  induction 1 as [|[u order] visits [opt Hu] _ IH]; cbn [check_extra fst] in *.
  { intros t. split; [by intros ?%elem_of_nil|by intros (u & opt & order & ?%elem_of_nil & _)]. }
  rewrite Hu. cbn [mbind option_bind]. pose proof (execute_spec u opt order (proxies hc)) as He. destruct (execute _ _ _ _) as [ts|]; cbn [mbind option_bind].
  2: { exists u, order. split; [by left|done]. }
  destruct (check_extra hc visits) as [ts'|]; cbn [mbind option_bind].
  2: { destruct IH as (u' & order' & Hin & Hf). exists u', order'. split; [by right|done]. }
  intros t. rewrite elem_of_app, He, IH. split.
  - intros [?|(u' & opt' & order' & ? & ?)]; [exists u, opt, order|exists u', opt', order']; split; try done; [by left|by right].
  - intros (u' & opt' & order' & [[= -> ->]|Hu']%elem_of_cons & Hx & ?); [left; congruence|right; by exists u', opt', order'].
Qed.

(** C27: A health check to which groups were registered tests, in whatever order its
    maps are visited, exactly these pairs: every proxy with the provider's own
    URL; and with each registered URL, and the status that its first registration
    expects, the proxies that match all the expressions registered for it put
    together with "|", in the order they are visited, or all proxies if none of
    its registrations has a filter.  It panics only when expressions put
    together do not compile. *)
Theorem registered_tests (ps : list Px) (own : string) (tmo itv : Z) (lz : bool) (status : IntRanges) (rs : list registration)
    (visits : list (string * list string)) :
  let hc := registered (NewHealthCheck ps own tmo itv lz status) rs in
  visits.*1 ≡ₚ (map_to_list (extra hc)).*1 →
  Forall (λ v, ∀ opt, extra hc !! v.1 = Some opt → v.2 ≡ₚ elements (filters opt)) visits →
  match check hc visits with
  | Some ts => ∀ t, t ∈ ts ↔ t_proxy t ∈ ps ∧
      ((TrimSpace own ≠ ""%string ∧ t_url t = TrimSpace own ∧ t_status t = status) ∨
       (∃ r rs' order, for_url (t_url t) rs = r :: rs' ∧ t_url t ≠ ""%string ∧ t_url t ≠ own ∧ t_status t = r_status r ∧
          (t_url t, order) ∈ visits ∧ order ≡ₚ elements (all_filters (r :: rs')) ∧ picked order (t_proxy t)))
  | None => ∃ u order, (u, order) ∈ visits ∧ fails order ps
  end.
Proof.
  intros hc Hv Ho. set (hc0 := NewHealthCheck ps own tmo itv lz status) in *.
  assert (url hc0 = own ∧ proxies hc0 = ps ∧ extra hc0 = ∅ ∧ (own ≠ ""%string → expectedStatus hc0 = status)) as (Hurl0 & Hps0 & Hex0 & Hst0)
    by (unfold hc0, NewHealthCheck; by case_bool_decide).
  destruct (registered_keeps rs hc0) as (Hurl & Hps & Hst). fold hc in Hurl, Hps, Hst. rewrite Hurl0 in Hurl. rewrite Hps0 in Hps.
  assert (∀ u opt, extra hc !! u = Some opt ↔ ∃ r rs', for_url u rs = r :: rs' ∧ u ≠ ""%string ∧ u ≠ own ∧ opt = mkExtra (r_status r) (all_filters (r :: rs'))) as Hopt.
  { intros u opt. unfold hc. rewrite registered_extra by done. unfold expected_extra. rewrite Hurl0. split.
    - destruct (_ || _) eqn:Hb; [done|]. apply orb_false_iff in Hb as [H1%bool_decide_eq_false H2%bool_decide_eq_false].
      destruct (for_url u rs) as [|r rs'] eqn:Hf; [done|]. intros [= <-]. by exists r, rs'.
    - intros (r & rs' & Hf & H1 & H2 & ->). rewrite Hf, !bool_decide_eq_false_2 by done. done. }
  assert (∀ u r rs', for_url u rs = r :: rs' → TrimSpace u = u) as Htrim.
  { intros u r rs' Hf. assert (r ∈ for_url u rs) as Hr by (rewrite Hf; by left).
    apply list_elem_of_In, filter_In in Hr as [_ Hr%bool_decide_eq_true]. by rewrite <- Hr, TrimSpace_idem. }
  assert (∀ u, u ∈ visits.*1 ↔ is_Some (extra hc !! u)) as Hvis.
  { intros u. rewrite Hv, list_elem_of_fmap. split; [intros ([u' opt] & -> & H%elem_of_map_to_list); by eexists|].
    intros [opt H]. exists (u, opt). by rewrite elem_of_map_to_list. }
  unfold check. rewrite Hps. destruct ps as [|p0 ps0]; [intros t; split; [by intros ?%elem_of_nil|by intros [?%elem_of_nil _]]|].
  set (ps := p0 :: ps0) in *.
  pose proof (execute_spec (url hc) (mkExtra (expectedStatus hc) ∅) [] ps) as Hin.
  destruct (execute _ _ _ _) as [ts|]; cbn [mbind option_bind]; [|by destruct Hin].
  assert (Forall (λ v, is_Some (extra hc !! v.1)) visits) as Hall.
  { apply Forall_forall. intros v Hvin. apply Hvis, list_elem_of_fmap. eauto. }
  pose proof (check_extra_spec hc visits Hall) as Hin'. rewrite Hps in Hin'. destruct (check_extra hc visits) as [ts'|]; cbn [mbind option_bind]; [|exact Hin'].
  intros t. rewrite elem_of_app, Hin, Hin', Hurl, Hst. cbn [eo_expectedStatus]. rewrite Forall_forall in Ho. split.
  - intros [(H1 & H2 & H3 & H4 & _)|(u & opt & order & Hvin & Hu & H1 & H2 & H3 & H4 & H5)]; (split; [done|]).
    + left. split_and!; try done. rewrite H3. apply Hst0. by intros ->.
    + right. specialize (Ho _ Hvin opt Hu). apply Hopt in Hu as (r & rs' & Hf & Hu1 & Hu2 & ->). rewrite (Htrim _ _ _ Hf) in H2.
      exists r, rs', order. rewrite H2. by split_and!.
  - intros [Hp [(H1 & H2 & H3)|(r & rs' & order & Hf & Hu1 & Hu2 & H3 & Hvin & Hord & H4)]].
    + left. split_and!; try done; [|by left]. rewrite H3. symmetry. apply Hst0. by intros ->.
    + right. exists (t_url t), (mkExtra (r_status r) (all_filters (r :: rs'))), order.
      split; [done|]. split; [apply Hopt; by exists r, rs'|]. rewrite (Htrim _ _ _ Hf). by split_and!.
Qed.

(** ** What the parser accepts, and what it makes *)

Definition in_use (o : GroupCommonOption) (AllProviders : list string) : list string :=
  if IncludeAll o || IncludeAllProviders o then AllProviders else Use o.

Definition fallback_name (o : GroupCommonOption) : string := if bool_decide (go_EmptyFallback o = "")%string then "COMPATIBLE"%string else go_EmptyFallback o.

(** The proxies that are listed or included; the fallback when the group includes
    all and there is nothing at all. *)
Definition in_proxies (o : GroupCommonOption) (AllProxies AllProviders : list string) : list string :=
  if IncludeAll o || IncludeAllProxies o then
    match go_Proxies o ++ (if bool_decide (go_Filter o ≠ "")%string then matching (go_Filter o) AllProxies else AllProxies), in_use o AllProviders with
    | [], [] => [fallback_name o]
    | ps, _ => ps
    end
  else go_Proxies o.

Definition all_compile (o : GroupCommonOption) : Prop :=
  (go_ExcludeFilter o = ""%string ∨ compiles (go_ExcludeFilter o) = true) ∧ (go_Filter o = ""%string ∨ compiles (go_Filter o) = true).

Definition known_type (o : GroupCommonOption) : Prop :=
  go_Type o ∈ ["url-test"; "select"; "fallback"; "load-balance"]%string ∧
  (go_Type o = "load-balance"%string →
   default "consistent-hashing"%string (go_strategy o) ∈ ["consistent-hashing"; "round-robin"; "sticky-sessions"]%string).

Record valid (o : GroupCommonOption) (proxyMap : gmap string Px) (pm : gmap string provider) (AllProxies AllProviders : list string) : Prop := mkValid {
  v_type : known_type o;
  v_name : go_Name o ≠ ""%string;
  v_fallback : is_Some (proxyMap !! fallback_name o);
  v_some : in_proxies o AllProxies AllProviders ≠ [] ∨ in_use o AllProviders ≠ [];
  v_status : is_Some (@NewUnsignedRanges uint16 (go_ExpectedStatus o));
  v_use n : n ∈ in_use o AllProviders → ∃ pd, pm !! n = Some pd ∧ pd_compatible pd = false;
  v_proxies n : n ∈ in_proxies o AllProxies AllProviders → pm !! go_Name o = None ∧ is_Some (proxyMap !! n);
  v_compile : all_compile o;
}.

(** What an error says. *)
Definition culprit (e : parse_error) (o : GroupCommonOption) (proxyMap : gmap string Px) (pm : gmap string provider) (AllProxies AllProviders : list string) : Prop :=
  match e with
  | errNotFound n => n ∈ in_use o AllProviders ∧ pm !! n = None ∨ n ∈ in_proxies o AllProxies AllProviders ∧ proxyMap !! n = None
  | errGroupInUse n => n ∈ in_use o AllProviders ∧ ∃ pd, pm !! n = Some pd ∧ pd_compatible pd = true
  | errDuplicateProvider => is_Some (pm !! go_Name o)
  | errEmptyFallback => proxyMap !! fallback_name o = None
  | errMissProxy => in_proxies o AllProxies AllProviders = [] ∧ in_use o AllProviders = []
  | errStatus => @NewUnsignedRanges uint16 (go_ExpectedStatus o) = None
  | errFormat => go_Name o = ""%string ∨ go_Type o = ""%string
  | errType | errStrategy => ¬ known_type o
  end.

(** That a provider is checked with a URL. *)
Definition checks_url (u : string) (hc : HealthCheck) : Prop := TrimSpace u = ""%string ∨ TrimSpace u = url hc ∨ is_Some (extra hc !! TrimSpace u).

Record usable (g : parsed_group) (o : GroupCommonOption) (proxyMap : gmap string Px) (pm pm' : gmap string provider) (AllProxies AllProviders : list string) : Prop := mkUsable {
  u_providers : pg_providers g = match in_proxies o AllProxies AllProviders with [] => [] | _ => [go_Name o] end ++ in_use o AllProviders;
  u_url : pg_URL g ≠ ""%string;
  u_own : in_proxies o AllProxies AllProviders ≠ [] → ∃ pd, pm' !! go_Name o = Some pd ∧ pd_compatible pd = true ∧
    Forall2 (λ n p, proxyMap !! n = Some p) (in_proxies o AllProxies AllProviders) (proxies (pd_hc pd)) ∧ url (pd_hc pd) = pg_URL g;
  u_use n : n ∈ in_use o AllProviders → ∃ pd pd', pm !! n = Some pd ∧ pm' !! n = Some pd' ∧ pd_compatible pd' = false ∧
    proxies (pd_hc pd') = proxies (pd_hc pd) ∧ url (pd_hc pd') = url (pd_hc pd) ∧
    (URL o ≠ ""%string → pg_URL g = URL o ∧ checks_url (URL o) (pd_hc pd')) ∧ (URL o = ""%string → pd' = pd);
  u_first : URL o = ""%string → ∃ pds, Forall2 (λ n pd, pm !! n = Some pd) (in_use o AllProviders) pds ∧ pg_URL g = first_url pds;
  u_others n : n ∉ in_use o AllProviders → n ≠ go_Name o → pm' !! n = pm !! n;
}.

Lemma getProxies_spec (m : gmap string Px) names :
  match getProxies m names with
  | Parsed ps => Forall2 (λ n p, m !! n = Some p) names ps
  | Error e => ∃ n, e = errNotFound n ∧ n ∈ names ∧ m !! n = None
  | Panic => False
  end.
Proof.
  induction names as [|n names IH]; [constructor|]. cbn. destruct (m !! n) as [p|] eqn:Hn; [|exists n; split_and!; [done|by left|done]].
  destruct (getProxies m names) as [ps|e|]; cbn; [by constructor| |done]. destruct IH as (n' & -> & ? & ?). exists n'. split_and!; [done|by right|done].
Qed.

Lemma getProviders_spec (m : gmap string provider) names :
  match getProviders m names with
  | Parsed pds => Forall2 (λ n pd, m !! n = Some pd ∧ pd_compatible pd = false) names pds
  | Error e => ∃ n, n ∈ names ∧ (e = errNotFound n ∧ m !! n = None ∨ e = errGroupInUse n ∧ ∃ pd, m !! n = Some pd ∧ pd_compatible pd = true)
  | Panic => False
  end.
Proof.
  induction names as [|n names IH]; [constructor|]. cbn. destruct (m !! n) as [pd|] eqn:Hn; [|exists n; split; [by left|by left]].
  destruct (pd_compatible pd) eqn:Hc; [exists n; split; [by left|right]; by eauto|].
  destruct (getProviders m names) as [ps|e|]; cbn; [by constructor| |done]. destruct IH as (n' & ? & ?). exists n'. split; [by right|done].
Qed.

Lemma register_checks u expected f i hc :
  let hc' := registerHealthCheckTask u expected f i hc in
  url hc' = url hc ∧ proxies hc' = proxies hc ∧ checks_url u hc' ∧ ∀ u', checks_url u' hc → checks_url u' hc'.
Proof.
  unfold registerHealthCheckTask, checks_url. destruct (bool_decide (TrimSpace u = "")%string || bool_decide (TrimSpace u = url hc)) eqn:Hb.
  - apply orb_true_iff in Hb as [H%bool_decide_eq_true|H%bool_decide_eq_true]; split_and!; auto.
  - destruct (extra hc !! TrimSpace u) as [opt|]; (split; [done|]; split; [done|]; split; [right; right; cbn; rewrite lookup_insert_eq; by eexists|]).
    all: intros u' [?|[?|Hu']]; [by left|by right; left|right; right; cbn; destruct (decide (TrimSpace u = TrimSpace u')) as [->|]; [rewrite lookup_insert_eq; by eexists|by rewrite lookup_insert_ne]].
Qed.

(** What registering a URL with some providers leaves of the map. *)
Definition kept (u : string) (pd pd' : provider) : Prop :=
  pd_compatible pd' = pd_compatible pd ∧ proxies (pd_hc pd') = proxies (pd_hc pd) ∧ url (pd_hc pd') = url (pd_hc pd) ∧
  (checks_url u (pd_hc pd) → checks_url u (pd_hc pd')).

(** What an error leaves of the map of providers: the URL may have been registered
    with providers in use, and a group of no known type or strategy may have
    left the provider of its proxies. *)
Definition left_behind (e : parse_error) (o : GroupCommonOption) (pm pm' : gmap string provider) (AllProviders : list string) : Prop :=
  match e with
  | errFormat | errEmptyFallback | errMissProxy | errStatus | errGroupInUse _ => pm' = pm
  | errNotFound _ | errDuplicateProvider | errType | errStrategy =>
    (∀ n pd, pm !! n = Some pd → ∃ pd', pm' !! n = Some pd' ∧ kept (URL o) pd pd') ∧
    (∀ n, n ∉ in_use o AllProviders → pm' !! n = pm !! n ∨ n = go_Name o ∧ pm !! n = None ∧ (e = errType ∨ e = errStrategy))
  end.

Lemma add_loop names u expected f i (m : gmap string provider) n :
  let m' := foldl (λ m name, alter (λ pd, mkProvider (pd_compatible pd) (registerHealthCheckTask u expected f i (pd_hc pd))) name m) m names in
  (n ∉ names → m' !! n = m !! n) ∧
  (∀ pd, m !! n = Some pd → ∃ pd', m' !! n = Some pd' ∧ kept u pd pd' ∧ (n ∈ names → checks_url u (pd_hc pd'))).
Proof.
  revert m. induction names as [|n0 names IH]; intros m; cbn [foldl].
  - split; [done|]. intros pd Hpd. exists pd. split; [done|]. split; [by split_and!|by intros ?%elem_of_nil].
  - destruct (IH (alter (λ pd, mkProvider (pd_compatible pd) (registerHealthCheckTask u expected f i (pd_hc pd))) n0 m)) as [H1 H2]. split.
    + intros [? ?]%not_elem_of_cons. rewrite H1 by done. by rewrite lookup_alter_ne.
    + intros pd Hpd. destruct (decide (n0 = n)) as [->|Hne].
      * specialize (H2 (mkProvider (pd_compatible pd) (registerHealthCheckTask u expected f i (pd_hc pd)))). rewrite lookup_alter_eq, Hpd in H2.
        destruct (H2 eq_refl) as (pd' & Hpd' & (K1 & K2 & K3 & K4) & _). destruct (register_checks u expected f i (pd_hc pd)) as (R1 & R2 & R3 & R4).
        cbn [pd_compatible pd_hc] in *. exists pd'. split; [done|]. split; [|intros _; by apply K4]. split_and!; [done|by rewrite K2|by rewrite K3|intros _; by apply K4].
      * destruct (H2 pd) as (pd' & Hpd' & Hk & Hn); [by rewrite lookup_alter_ne|]. exists pd'. split; [done|]. split; [done|].
        intros [->|?]%elem_of_cons; [done|by apply Hn].
Qed.

Lemma new_group_spec o :
  match new_group o with
  | Parsed _ => known_type o ∧ all_compile o
  | Error e => ¬ known_type o ∧ (e = errType ∨ e = errStrategy)
  | Panic => ¬ all_compile o
  end.
Proof.
  assert (∀ k, match new_base o k with Parsed _ => all_compile o | Error _ => False | Panic => ¬ all_compile o end) as Hbase.
  { intros k. unfold new_base. destruct (_ && _) eqn:Hb.
    - apply andb_true_iff in Hb as [[H1%bool_decide_eq_true|H1]%orb_true_iff [H2%bool_decide_eq_true|H2]%orb_true_iff]; split; auto.
    - intros [H1 H2]. apply andb_false_iff in Hb as [[Ha%bool_decide_eq_false Hb]%orb_false_iff|[Ha%bool_decide_eq_false Hb]%orb_false_iff];
        [destruct H1; congruence|destruct H2; congruence]. }
  unfold new_group.
  pose proof (Hbase GURLTest) as H1. pose proof (Hbase GSelector) as H2. pose proof (Hbase GFallback) as H3.
  assert (∀ t, go_Type o = t → t ∈ ["url-test"; "select"; "fallback"]%string → known_type o) as Hknown.
  { intros t Ht Hin. unfold known_type. split; [set_solver|]. intros Heq. rewrite Heq in Ht. subst t. set_solver. }
  case_bool_decide as Ht; [destruct (new_base o GURLTest); [split; [apply (Hknown _ Ht); set_solver|]|..]; done|].
  case_bool_decide as Ht2; [destruct (new_base o GSelector); [split; [apply (Hknown _ Ht2); set_solver|]|..]; done|].
  case_bool_decide as Ht3; [destruct (new_base o GFallback); [split; [apply (Hknown _ Ht3); set_solver|]|..]; done|].
  clear Hknown H1 H2 H3. rename Ht into Ht1.
  case_bool_decide as Ht; [|split; [|by left]].
  - case_bool_decide as Hs.
    + specialize (Hbase (GLoadBalance (default "consistent-hashing"%string (go_strategy o)))). 
      destruct (new_base o _); [split; [split; [set_solver|intros _; set_solver]|done]|done|done].
    + split; [|by right]. intros [_ Hx]. specialize (Hx Ht). set_solver.
  - intros [Hin _]. set_solver.
Qed.

Lemma first_url_some PDs : first_url PDs ≠ ""%string.
Proof.
  unfold first_url. destruct (List.filter _ _) as [|u l] eqn:Hf; [done|]. cbn. assert (u ∈ u :: l) as Hu by left. rewrite <- Hf in Hu.
  by apply list_elem_of_In, filter_In in Hu as [_ Hu%negb_true_iff%bool_decide_eq_false].
Qed.

Lemma kept_refl u pd : kept u pd pd.
Proof. by split_and!. Qed.

Lemma use_providers_spec o U expected pm :
  match use_providers o U expected pm with
  | (Parsed u, pm1) =>
    (∀ n, n ∈ U → ∃ pd, pm !! n = Some pd ∧ pd_compatible pd = false) ∧ (U ≠ [] → u ≠ ""%string) ∧ (URL o ≠ ""%string → u = URL o) ∧
    (URL o = ""%string → pm1 = pm ∧ (u = ""%string ∧ U = [] ∨ ∃ pds, Forall2 (λ n pd, pm !! n = Some pd) U pds ∧ u = first_url pds)) ∧
    (∀ n, n ∉ U → pm1 !! n = pm !! n) ∧
    (∀ n pd, pm !! n = Some pd → ∃ pd', pm1 !! n = Some pd' ∧ kept (URL o) pd pd' ∧ (n ∈ U → URL o ≠ ""%string → checks_url (URL o) (pd_hc pd')))
  | (Error e, pm1) => pm1 = pm ∧
    ∃ n, n ∈ U ∧ (e = errNotFound n ∧ pm !! n = None ∨ e = errGroupInUse n ∧ ∃ pd, pm !! n = Some pd ∧ pd_compatible pd = true)
  | (Panic, _) => False
  end.
Proof.
  unfold use_providers. destruct U as [|n0 U]; [split_and!; [by intros n ?%elem_of_nil|by intros Hne|done|by intros ->; split; [|left]|done|]|].
  { intros n pd Hpd. exists pd. split; [done|]. split; [apply kept_refl|by intros ?%elem_of_nil]. }
  pose proof (getProviders_spec pm (n0 :: U)) as Hg. destruct (getProviders pm (n0 :: U)) as [PDs|e|]; [|split; [done|exact Hg]|done].
  assert (∀ n, n ∈ n0 :: U → ∃ pd, pm !! n = Some pd ∧ pd_compatible pd = false) as Hin.
  { intros n Hn. apply list_elem_of_lookup in Hn as [i Hi]. destruct (Forall2_lookup_l _ _ _ _ _ Hg Hi) as (pd & _ & ?). eauto. }
  case_bool_decide as Hu; (split; [done|]).
  - split_and!; try done; [intros _; apply first_url_some| |].
    + intros _. split; [done|]. right. exists PDs. split; [|done]. eapply Forall2_impl; [exact Hg|]. by intros n pd [? _].
    + intros n pd Hpd. exists pd. split; [done|]. split; [apply kept_refl|done].
  - unfold addTestUrlToProviders. rewrite (bool_decide_eq_false_2 (n0 :: U = [])), (bool_decide_eq_false_2 (URL o = ""%string)) by done. cbn [orb].
    split_and!; try done.
    + intros n Hn. by apply (add_loop (n0 :: U)).
    + intros n pd Hpd. destruct (add_loop (n0 :: U) (URL o) expected (go_Filter o) (to_uint (go_Interval o)) pm n) as [_ H2].
      destruct (H2 pd Hpd) as (pd' & ? & ? & ?). exists pd'. split_and!; auto.
Qed.

Lemma own_provider_spec o ps proxyMap expected u pm :
  match own_provider o ps proxyMap expected u pm with
  | (Parsed u', pm2) =>
    (ps = [] → u' = u ∧ pm2 = pm) ∧
    (ps ≠ [] → pm !! go_Name o = None ∧ (∀ n, n ∈ ps → is_Some (proxyMap !! n)) ∧ u' ≠ ""%string ∧ (u ≠ ""%string → u' = u) ∧
      (u = ""%string → u' = DefaultTestURL) ∧
      ∃ pd, pm2 = <[go_Name o := pd]> pm ∧ pd_compatible pd = true ∧ Forall2 (λ n p, proxyMap !! n = Some p) ps (proxies (pd_hc pd)) ∧ url (pd_hc pd) = u')
  | (Error e, pm2) => pm2 = pm ∧
    ((∃ n, e = errNotFound n ∧ n ∈ ps ∧ proxyMap !! n = None) ∨ e = errDuplicateProvider ∧ (∃ n, n ∈ ps) ∧ is_Some (pm !! go_Name o))
  | (Panic, _) => False
  end.
Proof.
  unfold own_provider. destruct ps as [|p ps]; [by split|]. pose proof (getProxies_spec proxyMap (p :: ps)) as Hg.
  destruct (getProxies proxyMap (p :: ps)) as [qs|e|]; [|split; [done|by left]|done].
  case_bool_decide as Hd; [split; [done|]; right; split; [done|]; split; [exists p; by left|done]|]. split; [done|]. intros _. apply eq_None_not_Some in Hd.
  split; [done|]. split.
  { intros n Hn. apply list_elem_of_lookup in Hn as [i Hi]. destruct (Forall2_lookup_l _ _ _ _ _ Hg Hi) as (q & _ & Hq). rewrite Hq. by eexists. }
  split; [by case_bool_decide|]. split; [intros Hu; by rewrite bool_decide_eq_false_2|]. split; [intros Hu; by rewrite bool_decide_eq_true_2|].
  eexists. split; [done|]. split; [done|]. unfold NewHealthCheck. cbn [pd_hc].
  set (u' := if bool_decide (u = "")%string then DefaultTestURL else u). assert (u' ≠ ""%string) as Hu' by (unfold u'; by case_bool_decide).
  rewrite (bool_decide_eq_false_2 (u' = ""%string)) by done. cbn. done.
Qed.

Lemma included_spec o AllProxies AllProviders :
  match (if IncludeAll o || IncludeAllProxies o then include_all_proxies o AllProxies (in_use o AllProviders) (fallback_name o) else Parsed (go_Proxies o)) with
  | Parsed ps => ps = in_proxies o AllProxies AllProviders
  | Error _ => False
  | Panic => ¬ all_compile o
  end.
Proof.
  unfold in_proxies, include_all_proxies. destruct (_ || _); [|done]. case_bool_decide as Hf; cbn [obind]; [|by destruct (_ ++ _), (in_use o AllProviders)].
  destruct (compiles (go_Filter o)) eqn:Hc; cbn [obind]; [by destruct (_ ++ _), (in_use o AllProviders)|]. intros [_ [?|?]]; [done|congruence].
Qed.

(** The frame of an error after the providers in use were registered. *)
Lemma left_registered e o (pm pm1 : gmap string provider) AllProviders :
  (∀ n, n ∉ in_use o AllProviders → pm1 !! n = pm !! n) →
  (∀ n pd, pm !! n = Some pd → ∃ pd', pm1 !! n = Some pd' ∧ kept (URL o) pd pd' ∧
    (n ∈ in_use o AllProviders → URL o ≠ ""%string → checks_url (URL o) (pd_hc pd'))) →
  (∃ n, e = errNotFound n) ∨ e = errDuplicateProvider ∨ e = errType ∨ e = errStrategy →
  left_behind e o pm pm1 AllProviders.
Proof.
  intros Ho Hk He.
  assert ((∀ n pd, pm !! n = Some pd → ∃ pd', pm1 !! n = Some pd' ∧ kept (URL o) pd pd') ∧
    ∀ n, n ∉ in_use o AllProviders → pm1 !! n = pm !! n ∨ n = go_Name o ∧ pm !! n = None ∧ (e = errType ∨ e = errStrategy)) as Hf.
  { split; [intros n pd Hpd; destruct (Hk n pd Hpd) as (pd' & ? & ? & _); eauto|]. intros n Hn. left. by apply Ho. }
  by destruct He as [[n ->]|[->|[->| ->]]].
Qed.

Lemma left_same e o (pm : gmap string provider) AllProviders : left_behind e o pm pm AllProviders.
Proof.
  assert (∀ n pd, pm !! n = Some pd → ∃ pd', pm !! n = Some pd' ∧ kept (URL o) pd pd') as Hk.
  { intros n pd Hpd. exists pd. split; [done|apply kept_refl]. }
  destruct e; cbn; try done; (split; [done|]); by left.
Qed.

Lemma left_own e o (pm pm1 : gmap string provider) pd AllProviders :
  left_behind e o pm pm1 AllProviders → pm !! go_Name o = None → e = errType ∨ e = errStrategy →
  left_behind e o pm (<[go_Name o := pd]> pm1) AllProviders.
Proof.
  intros Hl Hn He. assert (∀ n pd', pm !! n = Some pd' → go_Name o ≠ n) as Hne by (intros n pd' Hpd <-; congruence).
  destruct He as [-> | ->]; destruct Hl as [H1 H2]; split.
  1,3: intros n pd' Hpd; rewrite lookup_insert_ne by (by eapply Hne); by apply H1.
  all: intros n Hu; destruct (decide (go_Name o = n)) as [<-|]; [right; auto|rewrite lookup_insert_ne by done; by apply H2].
Qed.

(** The group that comes of the two parts. *)
Lemma finish_usable (o : GroupCommonOption) proxyMap (pm pm1 pm2 : gmap string provider) AllProxies AllProviders (u u' : string) k status fallback :
  let ps := in_proxies o AllProxies AllProviders in
  let U := in_use o AllProviders in
  ps ≠ [] ∨ U ≠ [] →
  (∀ n, n ∈ U → ∃ pd, pm !! n = Some pd ∧ pd_compatible pd = false) → (U ≠ [] → u ≠ ""%string) → (URL o ≠ ""%string → u = URL o) →
  (URL o = ""%string → pm1 = pm ∧ (u = ""%string ∧ U = [] ∨ ∃ pds, Forall2 (λ n pd, pm !! n = Some pd) U pds ∧ u = first_url pds)) →
  (∀ n, n ∉ U → pm1 !! n = pm !! n) →
  (∀ n pd, pm !! n = Some pd → ∃ pd', pm1 !! n = Some pd' ∧ kept (URL o) pd pd' ∧ (n ∈ U → URL o ≠ ""%string → checks_url (URL o) (pd_hc pd'))) →
  (ps = [] → u' = u ∧ pm2 = pm1) →
  (ps ≠ [] → pm1 !! go_Name o = None ∧ (∀ n, n ∈ ps → is_Some (proxyMap !! n)) ∧ u' ≠ ""%string ∧ (u ≠ ""%string → u' = u) ∧
    (u = ""%string → u' = DefaultTestURL) ∧
    ∃ pd, pm2 = <[go_Name o := pd]> pm1 ∧ pd_compatible pd = true ∧ Forall2 (λ n p, proxyMap !! n = Some p) ps (proxies (pd_hc pd)) ∧ url (pd_hc pd) = u') →
  usable (mkParsed k u' status fallback (match ps with [] => [] | _ => [go_Name o] end ++ U)) o proxyMap pm pm2 AllProxies AllProviders.
Proof.
  intros ps U Hsome Huse Hu1 Hu2 Hu0 Hu3 Hu4 Ho1 Ho2.
  assert (u ≠ ""%string → u' = u) as Huu.
  { intros Hu. destruct (decide (ps = [])) as [Hps|Hps]; [by destruct (Ho1 Hps)|]. destruct (Ho2 Hps) as (_ & _ & _ & Hx & _). by apply Hx. }
  assert (∀ n, is_Some (pm1 !! n) → pm2 !! n = pm1 !! n) as Hkeep.
  { intros n [pd Hpd]. destruct (decide (ps = [])) as [Hps|Hps]; [by destruct (Ho1 Hps) as [_ ->]|].
    destruct (Ho2 Hps) as (Hn1 & _ & _ & _ & _ & pd0 & -> & _). rewrite lookup_insert_ne; [done|]. intros <-. congruence. }
  constructor; cbn [pg_providers pg_URL].
  - done.
  - destruct (decide (ps = [])) as [Hps|Hps]; [destruct (Ho1 Hps) as [-> _]; destruct Hsome; [done|by apply Hu1]|by destruct (Ho2 Hps) as (_ & _ & ? & _)].
  - intros Hps. destruct (Ho2 Hps) as (_ & _ & _ & _ & _ & pd & -> & ? & ? & ?). exists pd. by rewrite lookup_insert_eq.
  - intros n Hn. destruct (Huse n Hn) as (pd & Hpd & Hc). destruct (Hu4 n pd Hpd) as (pd' & Hpd' & (K1 & K2 & K3 & K4) & K5).
    exists pd, pd'. split; [done|]. split; [by rewrite Hkeep|]. split; [by rewrite K1|]. split; [done|]. split; [done|]. split.
    + intros Hurl. split; [|by apply K5]. rewrite Huu; [by apply Hu2|]. by rewrite (Hu2 Hurl).
    + intros Hurl. destruct (Hu0 Hurl) as [-> _]. congruence.
  - intros Hurl. destruct (Hu0 Hurl) as [_ [[-> HU]|(pds & Hpds & ->)]].
    + exists []. change (in_use o AllProviders) with U. rewrite HU. split; [constructor|].
      destruct (decide (ps = [])) as [Hps|Hps]; [by destruct Hsome|]. destruct (Ho2 Hps) as (_ & _ & _ & _ & Hd & _). by rewrite Hd.
    + exists pds. split; [done|]. apply Huu, first_url_some.
  - intros n Hn Hne. destruct (decide (ps = [])) as [Hps|Hps]; [destruct (Ho1 Hps) as [_ ->]; by apply Hu3|].
    destruct (Ho2 Hps) as (_ & _ & _ & _ & _ & pd0 & -> & _). rewrite lookup_insert_ne by done. by apply Hu3.
Qed.

Lemma finish_parse_spec o proxyMap pm AllProxies AllProviders fallback :
  go_Name o ≠ ""%string → proxyMap !! fallback_name o = Some fallback →
  in_proxies o AllProxies AllProviders ≠ [] ∨ in_use o AllProviders ≠ [] →
  match finish_parse o proxyMap pm fallback (in_proxies o AllProxies AllProviders) (in_use o AllProviders) with
  | (Parsed g, pm') => valid o proxyMap pm AllProxies AllProviders ∧ usable g o proxyMap pm pm' AllProxies AllProviders
  | (Error e, pm') => ¬ valid o proxyMap pm AllProxies AllProviders ∧ culprit e o proxyMap pm AllProxies AllProviders ∧
      left_behind e o pm pm' AllProviders
  | (Panic, _) => ¬ all_compile o
  end.
Proof.
  intros Hname Hfb Hsome. unfold finish_parse. set (ps := in_proxies o AllProxies AllProviders) in *. set (U := in_use o AllProviders) in *.
  destruct (@NewUnsignedRanges uint16 (go_ExpectedStatus o)) as [expected|] eqn:Hst; [|split; [intros [_ _ _ _ [? ?] _ _ _]; congruence|done]].
  pose proof (use_providers_spec o U expected pm) as Hu. destruct (use_providers o U expected pm) as [[u|e|] pm1]; [| |done].
  2: { destruct Hu as (-> & n & Hn & Hwhy). split; [|split; [|apply left_same]].
       - intros [_ _ _ _ _ Huse _ _]. destruct Hwhy as [[_ ?]|(_ & pd & ? & ?)]; destruct (Huse n Hn) as (pd' & ? & ?); congruence.
       - destruct Hwhy as [[-> ?]|(-> & Hpd)]; cbn; [by left|done]. }
  destruct Hu as (Huse & Hu1 & Hu2 & Hu0 & Hu3 & Hu4).
  assert (pm1 !! go_Name o = None ↔ pm !! go_Name o = None) as Hnone.
  { split; intros Hn.
    - destruct (pm !! go_Name o) as [pd|] eqn:Hpd; [|done]. destruct (Hu4 _ _ Hpd) as (? & ? & _). congruence.
    - rewrite Hu3; [done|]. intros (pd & ? & _)%Huse. congruence. }
  pose proof (own_provider_spec o ps proxyMap expected u pm1) as Ho. destruct (own_provider o ps proxyMap expected u pm1) as [[u'|e|] pm2]; [| |done]; cbn [obind].
  2: { destruct Ho as [-> Hwhy]. split; [|split; [|apply left_registered; try done; destruct Hwhy as [(n & -> & _)|(-> & _)]; eauto]].
       - intros [_ _ _ _ _ _ Hpx _]. destruct Hwhy as [(n & _ & Hn & ?)|(_ & [n Hn] & [pd Hpd])].
         + destruct (Hpx n Hn) as [_ [? ?]]. congruence.
         + destruct (Hpx n Hn) as [Hx%Hnone _]. congruence.
       - destruct Hwhy as [(n & -> & Hn & ?)|(-> & _ & [pd Hpd])]; cbn; [by right|]. apply not_eq_None_Some. rewrite <- Hnone. congruence. }
  destruct Ho as [Ho1 Ho2]. pose proof (new_group_spec o) as Hk. destruct (new_group o) as [k|e|]; [| |done]; cbn [obind].
  2: { destruct Hk as [Hkt He]. split; [by intros [? _ _ _ _ _ _ _]|]. split; [by destruct He as [-> | ->]|].
       assert (left_behind e o pm pm1 AllProviders) as Hl by (apply left_registered; auto).
       destruct (decide (ps = [])) as [Hps|Hps]; [by destruct (Ho1 Hps) as [_ ->]|].
       destruct (Ho2 Hps) as (Hn1 & _ & _ & _ & _ & pd & -> & _). apply left_own; [done|by apply Hnone|done]. }
  destruct Hk as [Hkt Hkc]. split.
  - constructor; try done; try by eexists. intros n Hn. destruct (decide (ps = [])) as [Hps|Hps]; [fold ps in Hn; rewrite Hps in Hn; by apply elem_of_nil in Hn|].
    destruct (Ho2 Hps) as (H1 & H2 & _). split; [by apply Hnone|by apply H2].
  - by eapply finish_usable.
Qed.

(** C26: A configuration of a group is accepted exactly when it is valid: its type
    is known, its name and fallback are there, it has proxies or providers, all of
    them exist, none of its providers is a group, its name is not that of a
    provider, and its filters compile.  The group then has a URL; its first
    provider is made of its proxies, in their order, and is tested with that URL;
    the providers in use keep their proxies and their URL, and check the URL of
    the options when there is one; when there is none they stay as they were and
    the URL of the group is that of the first of them that has one, or the
    default.  An error names what is wrong, and leaves no more in the map of
    providers than registrations, or the provider of a group of no known type or
    strategy; only a filter that does not compile panics. *)
Theorem parse_group_correct (o : GroupCommonOption) (proxyMap : gmap string Px) (pm : gmap string provider) (AllProxies AllProviders : list string) :
  match ParseProxyGroup o proxyMap pm AllProxies AllProviders with
  | (Parsed g, pm') => valid o proxyMap pm AllProxies AllProviders ∧ usable g o proxyMap pm pm' AllProxies AllProviders
  | (Error e, pm') => ¬ valid o proxyMap pm AllProxies AllProviders ∧ culprit e o proxyMap pm AllProxies AllProviders ∧
      left_behind e o pm pm' AllProviders
  | (Panic, _) => ¬ all_compile o
  end.
Proof.
  unfold ParseProxyGroup. destruct (bool_decide (go_Type o = "")%string || bool_decide (go_Name o = "")%string) eqn:Hb.
  { apply orb_true_iff in Hb as [Hb%bool_decide_eq_true|Hb%bool_decide_eq_true]; (split; [|cbn; auto]); intros [[Ht _] Hn _ _ _ _ _ _]; [|done]. rewrite Hb in Ht. set_solver. }
  apply orb_false_iff in Hb as [_ Hname%bool_decide_eq_false]. fold (fallback_name o). fold (in_use o AllProviders).
  destruct (proxyMap !! fallback_name o) as [fallback|] eqn:Hfb; [|split; [|done]; intros [_ _ [? ?] _ _ _ _ _]; congruence].
  pose proof (included_spec o AllProxies AllProviders) as Hps. set (U := in_use o AllProviders) in *.
  destruct (if IncludeAll o || IncludeAllProxies o then _ else _) as [ps|e|]; [subst ps|done|exact Hps].
  pose proof (finish_parse_spec o proxyMap pm AllProxies AllProviders fallback Hname Hfb) as Hrest. fold U in Hrest.
  destruct (in_proxies o AllProxies AllProviders) as [|p ps] eqn:Hps, U as [|n0 U'] eqn:HU; try (apply Hrest; (by left) || (by right)).
  split; [intros [_ _ _ [?|?] _ _ _ _]; unfold U in HU; congruence|done].
Qed.

End groups.

(** ** An example *)

(** Expressions that are alternatives of words. *)
Definition example_re (r s : string) : option bool := Some (existsb (Contains s) (Split r "|")).

Definition example_hc : HealthCheck (Px := string) := NewHealthCheck ["hk-1"; "us-1"]%string "http://own/" 0 300 true [].

Definition example_regs : list registration := [mkReg "http://test/" [] "hk" 60].

Lemma registered_tests_witness :
  ∃ ts, check id example_re (registered example_hc example_regs) [("http://test/", ["hk"])]%string = Some ts ∧
    ∀ t, t ∈ ts → t_url t = "http://test/"%string → t_proxy t = "hk-1"%string.
Proof.
  pose proof (registered_tests id example_re ["hk-1"; "us-1"]%string "http://own/" 0 300 true [] example_regs [("http://test/", ["hk"])]%string
    ltac:(vm_compute; reflexivity)
    ltac:(constructor; [|constructor]; intros opt Hopt; vm_compute in Hopt; injection Hopt as <-; vm_compute; reflexivity)) as Ht.
  unfold example_hc. destruct (check id example_re _ _) as [ts|] eqn:Hc; [|vm_compute in Hc; discriminate].
  exists ts. split; [reflexivity|]. intros t Hin Hu. apply Ht in Hin as [Hp [(_ & Hown & _)|(r & rs' & order & _ & _ & _ & _ & Hv & _ & Hpk)]].
  - rewrite Hown in Hu. vm_compute in Hu. discriminate.
  - apply list_elem_of_singleton in Hv. injection Hv as _ ->. destruct Hpk as [Hn|Hm]; [discriminate|].
    apply elem_of_cons in Hp as [Hp|Hp]; [exact Hp|]. apply list_elem_of_singleton in Hp. rewrite Hp in Hm. vm_compute in Hm. discriminate.
Defined.

(** ** What is wrong *)

(** A group without a filter and one with a filter that use a provider with the same
    URL: the proxies that the filter does not match are not tested for either. *)
Lemma filter_starves_others :
  check id example_re (registered (NewHealthCheck ["hk-1"; "us-1"]%string "" 0 0 true [])
    [mkReg "http://test/" [] "" 60; mkReg "http://test/" [] "hk" 60]) [("http://test/", ["hk"])]%string
  = Some [mkTest "hk-1"%string "http://test/" []].
Proof. vm_compute. reflexivity. Qed.

(** A proxy that several expressions of the filter match is in the group as often. *)
Lemma included_twice : matching example_re "hk`1" ["hk-1"; "us-2"]%string = ["hk-1"; "hk-1"]%string.
Proof. vm_compute. reflexivity. Qed.

(** A negative interval becomes a negative duration, not zero: the health check
    starts, with a ticker that panics. *)
Lemma negative_interval (ps : list string) lz status :
  let hc := NewHealthCheck ps "http://test/" 0 (to_uint (-1)) lz status in auto hc = true ∧ interval hc = (-1 * Second)%Z.
Proof. split; vm_compute; reflexivity. Qed.

(** A group without a URL has that of its first provider, and the others do not
    check it. *)
Definition example_providers : gmap string (provider (Px := string)) :=
  <["a"%string := mkProvider false (NewHealthCheck ["hk-1"%string] "http://a/" 0 300 true [])]>
  (<["b"%string := mkProvider false (NewHealthCheck ["us-1"%string] "http://b/" 0 300 true [])]> ∅).

Definition example_options : GroupCommonOption :=
  mkOption "G" "url-test" [] ["a"; "b"]%string "" 0 0 "" true "" "" "" false false false None.

Lemma url_of_first_provider :
  ∃ g pm', ParseProxyGroup example_re example_options {[ "COMPATIBLE"%string := "compatible"%string ]} example_providers [] [] = (Parsed g, pm') ∧
    pg_URL g = "http://a/"%string ∧ ∃ pd, pm' !! "b"%string = Some pd ∧ ¬ checks_url "http://a/" (pd_hc pd).
Proof.
  eexists _, _. split; [vm_compute; reflexivity|]. split; [reflexivity|]. eexists. split; [vm_compute; reflexivity|].
  intros [H|[H|[x H]]]; vm_compute in H; discriminate.
Qed.
