(* ===== verification/Anytls.v ===== *)
(** * AnyTLS sessions: [transport/anytls]

    Streams over one connection: the frames (session/frame.go), the session of
    either side (session.go, stream.go), the padding that the client mixes into its
    writes (padding/padding.go, util/string_map.go), and the first bytes of a
    connection (client.go, listener/anytls/server.go).

    A stream is a reference into the list of all streams of a session, because
    the map by number forgets a stream whose user still has it.  What is written
    into the pipe of a stream is [st_in]; that its reader takes it is not
    modelled, and neither are deadlines.  The random numbers of the padding and
    MD5 are arguments, as is the number of writes that the connection takes
    before it fails.  Each call is one step: [connLock] and [streamLock] are held
    for the parts of it that matter.

    The theorem [anytls_transparent]: under any padding whose sizes fit a frame, and
    while connection and frames behave, the streams of the server are those the
    client opened, with the bytes that were written to each; it
    follows from an invariant of the client ([client_ok]: what it put out is frames
    that make a server hear what was written) and from what a server makes of
    frames ([server_reads]). *)

From Stdlib Require Import ZArith Lia Ascii String.
From stdpp Require Import prelude strings gmap list pretty.
From S2P Require Import Prelude Netip Wire Dialogue Socks5.

Open Scope Z_scope.

(** ** String maps and padding schemes *)

Abbreviation StringMap := (gmap string string).

Definition newline : ascii := "010"%char.

(** [ToBytes], the map in some order. *)
Definition ToBytes (lines : list (string * string)) : list Z :=
  str_bytes (Join (map (λ kv, (kv.1 +:+ "=" +:+ kv.2)%string) lines) (String newline "")).

Fixpoint cut_at (c : ascii) (l : list ascii) : option (list ascii * list ascii) :=
  match l with
  | [] => None
  | x :: l' => if decide (x = c) then Some ([], l') else '(a, b) ← cut_at c l'; Some (x :: a, b)
  end.

Definition add_line (m : StringMap) (line : string) : StringMap :=
  match cut_at "="%char (bytes line) with Some (k, v) => <[of_bytes k := of_bytes v]> m | None => m end.

Definition StringMapFromBytes (b : list Z) : StringMap := foldl add_line ∅ (Split (to_string b) newline).

Definition CheckMark : Z := -1.

Record PaddingFactory := mkPadding { scheme : StringMap; RawScheme : list Z; Stop : Z; Md5 : string }.

Definition get (m : StringMap) (k : string) : string := default ""%string (m !! k).

Definition NewPaddingFactory (md5 : list Z → string) (rawScheme : list Z) : option PaddingFactory :=
  let m := StringMapFromBytes rawScheme in
  if bool_decide (m = ∅) then None
  else stop ← ParseInt (get m "stop"); Some (mkPadding m rawScheme (@wrap uint32 stop) (md5 rawScheme)).

Definition UpdatePaddingScheme (md5 : list Z → string) (rawScheme : list Z) (to : PaddingFactory) : bool * PaddingFactory :=
  match NewPaddingFactory md5 rawScheme with Some p => (true, p) | None => (false, to) end.

Definition DefaultPaddingScheme : list Z :=
  str_bytes (Join ["stop=8"; "0=30-30"; "1=100-400"; "2=400-500,c,500-1000,c,500-1000,c,500-1000,c,500-1000"; "3=9-9,500-1000"; "4=500-1000";
    "5=500-1000"; "6=500-1000"; "7=500-1000"]%string (String newline "")).

(** One range; [r] is its random number. *)
Definition payload_size (sRange : string) (r : Z) : option Z :=
  match Split sRange "-" with
  | [a; b] =>
    x ← ParseInt a; y ← ParseInt b;
    let _min := Z.min x y in
    let _max := Z.max x y in
    if (_min <=? 0) || (_max <=? 0) then None
    else if _min =? _max then Some _min
    else Some (r `mod` (_max - _min) + _min)
  | _ => if bool_decide (sRange = "c")%string then Some CheckMark else None
  end.

Definition GenerateRecordPayloadSizes (rnd : nat → Z) (p : PaddingFactory) (pkt : Z) : list Z :=
  match scheme p !! pretty pkt with
  | Some s => omap id (imap (λ i sRange, payload_size sRange (rnd i)) (Split s ","))
  | None => []
  end.

(** ** Frames *)

Definition cmdWaste : Z := 0.

Definition cmdSYN : Z := 1.

Definition cmdPSH : Z := 2.

Definition cmdFIN : Z := 3.

Definition cmdSettings : Z := 4.

Definition cmdAlert : Z := 5.

Definition cmdUpdatePaddingScheme : Z := 6.

Definition cmdSYNACK : Z := 7.

Definition cmdHeartRequest : Z := 8.

Definition cmdHeartResponse : Z := 9.

Definition cmdServerSettings : Z := 10.

Definition headerOverHeadSize : Z := 1 + 4 + 2.

Record frame := mkFrame { cmd : Z; sid : Z; data : list Z }.

Definition newFrame (cmd sid : Z) : frame := mkFrame cmd sid [].

(** The bytes of a frame, of data and of control alike. *)
Definition encode_frame (f : frame) : list Z :=
  [cmd f] ++ be_bytes 4 (sid f) ++ be_bytes 2 (@wrap uint16 (Z.of_nat (length (data f)))) ++ data f.

(** A frame of padding with [n] bytes. *)
Definition waste (n : Z) : list Z := [cmdWaste] ++ be_bytes 4 0 ++ be_bytes 2 (@wrap uint16 n) ++ replicate (Z.to_nat n) 0.

(** ** Sessions *)

Inductive die_error := ErrClosed | ErrClosedPipe | RemoteError (msg : list Z).

(** [dieErr], whether the result was reported, and what was written to its pipe. *)
Record Stream := mkStream { id : Z; dieErr : option die_error; reported : bool; st_in : list Z }.

Definition newStream (sid : Z) : Stream := mkStream sid None false [].

(** [sent] is what was written to the connection; [watching] is that [synDone] waits. *)
Record Session := mkSession {
  streams : gmap Z nat;
  all_streams : list Stream;
  streamId : Z;
  died : bool;
  watching : bool;
  padding : PaddingFactory;
  peerVersion : Z;
  isClient : bool;
  sendPadding : bool;
  buffering : bool;
  buffer : list Z;
  pktCounter : Z;
  receivedSettings : bool;
  sent : list Z;
}.

Definition set_streams (m : gmap Z nat) (l : list Stream) (s : Session) : Session :=
  mkSession m l (streamId s) (died s) (watching s) (padding s) (peerVersion s) (isClient s) (sendPadding s) (buffering s) (buffer s) (pktCounter s) (receivedSettings s) (sent s).

Definition set_conn (sp bf : bool) (b : list Z) (pkt : Z) (out : list Z) (s : Session) : Session :=
  mkSession (streams s) (all_streams s) (streamId s) (died s) (watching s) (padding s) (peerVersion s) (isClient s) sp bf b pkt (receivedSettings s) out.

Definition set_status (sid : Z) (d w : bool) (p : PaddingFactory) (v : Z) (r : bool) (s : Session) : Session :=
  mkSession (streams s) (all_streams s) sid d w p v (isClient s) (sendPadding s) (buffering s) (buffer s) (pktCounter s) r (sent s).

Definition set_watching (w : bool) (s : Session) : Session := set_status (streamId s) (died s) w (padding s) (peerVersion s) (receivedSettings s) s.

Definition set_peerVersion (v : Z) (s : Session) : Session := set_status (streamId s) (died s) (watching s) (padding s) v (receivedSettings s) s.

Definition new_session (client : bool) (p : PaddingFactory) : Session :=
  mkSession ∅ [] 0 false false p 0 client client false [] 0 false [].

Definition NewClientSession : PaddingFactory → Session := new_session true.

Definition NewServerSession : PaddingFactory → Session := new_session false.

(** ** Writing

    The loop over the sizes of the packets: the writes, and what is left. *)
Fixpoint pad_loop (pktSizes : list Z) (b : list Z) : list (list Z) * list Z :=
  match pktSizes with
  | [] => ([], b)
  | l :: pktSizes' =>
    let remainPayloadLen := Z.of_nat (length b) in
    if l =? CheckMark then if remainPayloadLen =? 0 then ([], b) else pad_loop pktSizes' b
    else if l <? remainPayloadLen then
      let '(ws, r) := pad_loop pktSizes' (drop (Z.to_nat l) b) in (take (Z.to_nat l) b :: ws, r)
    else if 0 <? remainPayloadLen then
      let paddingLen := l - remainPayloadLen - headerOverHeadSize in
      let '(ws, r) := pad_loop pktSizes' [] in ((b ++ if 0 <? paddingLen then waste paddingLen else []) :: ws, r)
    else let '(ws, r) := pad_loop pktSizes' [] in (waste l :: ws, r)
  end.

(** [writeConn]: the writes to the connection. *)
Definition writeConn (rnd : nat → Z) (b : list Z) (s : Session) : list (list Z) * Session :=
  if buffering s then ([], set_conn (sendPadding s) true (buffer s ++ b) (pktCounter s) (sent s) s)
  else
    let b := buffer s ++ b in
    if sendPadding s then
      let pkt := @wrap uint32 (pktCounter s + 1) in
      if pkt <? Stop (padding s) then
        let '(ws, r) := pad_loop (GenerateRecordPayloadSizes rnd (padding s) pkt) b in
        (ws ++ match r with [] => [] | _ => [r] end, set_conn true false [] pkt (sent s) s)
      else ([b], set_conn false false [] pkt (sent s) s)
    else ([b], set_conn false false [] (pktCounter s) (sent s) s).

(** The connection takes [fail] writes, or all of them, and none once the session is
    closed. *)
Definition conn_write (fail : option nat) (rnd : nat → Z) (b : list Z) (s : Session) : bool * Session :=
  let '(ws, s1) := writeConn rnd b s in
  let n := if died s then 0%nat else match fail with Some k => k | None => length ws end in
  ((length ws <=? n)%nat, set_conn (sendPadding s1) (buffering s1) (buffer s1) (pktCounter s1) (sent s1 ++ concat (take n ws)) s1).

Definition close_stream (e : die_error) (st : Stream) : Stream :=
  match dieErr st with Some _ => st | None => mkStream (id st) (Some e) (reported st) (st_in st) end.

Definition closeLocally (r : nat) (s : Session) : Session := set_streams (streams s) (alter (close_stream ErrClosed) r (all_streams s)) s.

(** [Session.Close]. *)
Definition session_Close (s : Session) : Session :=
  if died s then s
  else
    let s1 := set_status (streamId s) true (watching s) (padding s) (peerVersion s) (receivedSettings s) s in
    set_streams ∅ (all_streams (foldr (λ kv, closeLocally kv.2) s1 (map_to_list (streams s1)))) s1.

Definition writeControlFrame (fail : option nat) (rnd : nat → Z) (f : frame) (s : Session) : bool * Session :=
  let '(ok, s1) := conn_write fail rnd (encode_frame f) s in if ok then (true, s1) else (false, session_Close s1).

Definition writeDataFrame (fail : option nat) (rnd : nat → Z) (sid : Z) (d : list Z) (s : Session) : bool * Session :=
  conn_write fail rnd (encode_frame (mkFrame cmdPSH sid d)) s.

(** [Run] of a client, until its loop; [lines] are its settings. *)
Definition Run (fail : option nat) (rnd : nat → Z) (lines : list (string * string)) (s : Session) : Session :=
  let s1 := set_conn (sendPadding s) true (buffer s) (pktCounter s) (sent s) s in
  (writeControlFrame fail rnd (mkFrame cmdSettings 0 (ToBytes lines)) s1).2.

(** ** Streams *)

Definition OpenStream (fail : option nat) (rnd : nat → Z) (s : Session) : option nat * Session :=
  if died s then (None, s)
  else
    let sid := @wrap uint32 (streamId s + 1) in
    let w := if (2 <=? sid) && (2 <=? peerVersion s) then true else watching s in
    let s1 := set_status sid (died s) w (padding s) (peerVersion s) (receivedSettings s) s in
    let '(ok, s2) := writeControlFrame fail rnd (newFrame cmdSYN sid) s1 in
    if ok then
      let s3 := set_conn (sendPadding s2) false (buffer s2) (pktCounter s2) (sent s2) s2 in
      if died s3 then (None, s3)
      else
        let r := length (all_streams s3) in
        (Some r, set_streams (<[sid := r]> (streams s3)) (all_streams s3 ++ [newStream sid]) s3)
    else (None, s2).

Definition stream_Write (fail : option nat) (rnd : nat → Z) (r : nat) (d : list Z) (s : Session) : bool * Session :=
  match all_streams s !! r with
  | Some st => match dieErr st with Some _ => (false, s) | None => writeDataFrame fail rnd (id st) d s end
  | None => (false, s)
  end.

Definition streamClosed (fail : option nat) (rnd : nat → Z) (sid : Z) (s : Session) : Session :=
  if died s then s
  else
    let s1 := (writeControlFrame fail rnd (newFrame cmdFIN sid) s).2 in
    set_streams (delete sid (streams s1)) (all_streams s1) s1.

Definition closeWithError (fail : option nat) (rnd : nat → Z) (e : die_error) (r : nat) (s : Session) : Session :=
  match all_streams s !! r with
  | Some st =>
    match dieErr st with
    | Some _ => s
    | None => streamClosed fail rnd (id st) (set_streams (streams s) (alter (close_stream e) r (all_streams s)) s)
    end
  | None => s
  end.

Definition stream_Close (fail : option nat) (rnd : nat → Z) : nat → Session → Session := closeWithError fail rnd ErrClosedPipe.

(** [HandshakeSuccess] and [HandshakeFailure] with the text of an error. *)
Definition handshake (fail : option nat) (rnd : nat → Z) (err : option (list Z)) (r : nat) (s : Session) : Session :=
  match all_streams s !! r with
  | Some st =>
    if reported st then s
    else
      let s1 := set_streams (streams s) (alter (λ st, mkStream (id st) (dieErr st) true (st_in st)) r (all_streams s)) s in
      if 2 <=? peerVersion s1 then (writeControlFrame fail rnd (mkFrame cmdSYNACK (id st) (default [] err)) s1).2 else s1
  | None => s
  end.

(** ** Receiving *)

(** The commands whose data is read. *)
Definition reads_data (c : Z) : bool :=
  existsb (Z.eqb c) [cmdPSH; cmdSYNACK; cmdWaste; cmdSettings; cmdAlert; cmdUpdatePaddingScheme; cmdServerSettings].

Definition read_frame : io frame :=
  recv (Z.to_nat headerOverHeadSize) (λ hdr,
    let c := byte_at hdr 0 in
    let sid := from_be (take 4 (drop 1 hdr)) in
    let n := from_be (take 2 (drop 5 hdr)) in
    if reads_data c && (0 <? n) then recv (Z.to_nat n) (λ b, done (mkFrame c sid b)) else done (mkFrame c sid [])).

(** Data for a stream whose pipe is closed is dropped. *)
Definition push (d : list Z) (st : Stream) : Stream :=
  match dieErr st with Some _ => st | None => mkStream (id st) None (reported st) (st_in st ++ d) end.

(** What [recvLoop] does with a frame, and whether it goes on.  On a client a stream
    that the server opens is closed by a goroutine, which is a call of its own. *)
Definition handle_frame (md5 : list Z → string) (fail : option nat) (rnd : nat → Z) (f : frame) (s : Session) : bool * Session :=
  let c := cmd f in
  if c =? cmdPSH then
    match streams s !! sid f with Some r => (true, set_streams (streams s) (alter (push (data f)) r (all_streams s)) s) | None => (true, s) end
  else if c =? cmdSYN then
    if negb (isClient s) && negb (receivedSettings s) then
      (false, (writeControlFrame fail rnd (mkFrame cmdAlert 0 (str_bytes "client did not send its settings")) s).2)
    else
      match streams s !! sid f with
      | Some _ => (true, s)
      | None => (true, set_streams (<[sid f := length (all_streams s)]> (streams s)) (all_streams s ++ [newStream (sid f)]) s)
      end
  else if c =? cmdSYNACK then
    let s1 := set_watching false s in
    match data f, streams s1 !! sid f with
    | _ :: _, Some r => (true, closeWithError fail rnd (RemoteError (data f)) r s1)
    | _, _ => (true, s1)
    end
  else if c =? cmdFIN then
    let s1 := set_streams (delete (sid f) (streams s)) (all_streams s) s in
    match streams s !! sid f with Some r => (true, closeLocally r s1) | None => (true, s1) end
  else if c =? cmdWaste then (true, s)
  else if c =? cmdSettings then
    match data f with
    | [] => (true, s)
    | _ =>
      if isClient s then (true, s)
      else
        let s1 := set_status (streamId s) (died s) (watching s) (padding s) (peerVersion s) true s in
        let m := StringMapFromBytes (data f) in
        let '(ok, s2) :=
          if bool_decide (get m "padding-md5" = Md5 (padding s1)) then (true, s1)
          else writeControlFrame fail rnd (mkFrame cmdUpdatePaddingScheme 0 (RawScheme (padding s1))) s1 in
        if ok then
          match ParseInt (get m "v") with
          | Some v =>
            if 2 <=? v then writeControlFrame fail rnd (mkFrame cmdServerSettings 0 (ToBytes [("v", "2")]%string)) (set_peerVersion (@wrap uint8 v) s2)
            else (true, s2)
          | None => (true, s2)
          end
        else (false, s2)
    end
  else if c =? cmdAlert then match data f with [] => (true, s) | _ => (false, s) end
  else if c =? cmdUpdatePaddingScheme then
    match data f with
    | [] => (true, s)
    | _ =>
      if isClient s then
        (true, set_status (streamId s) (died s) (watching s) (UpdatePaddingScheme md5 (data f) (padding s)).2 (peerVersion s) (receivedSettings s) s)
      else (true, s)
    end
  else if c =? cmdHeartRequest then writeControlFrame fail rnd (newFrame cmdHeartResponse (sid f)) s
  else if c =? cmdServerSettings then
    match data f with
    | [] => (true, s)
    | _ =>
      if isClient s then
        match ParseInt (get (StringMapFromBytes (data f)) "v") with Some v => (true, set_peerVersion (@wrap uint8 v) s) | None => (true, s) end
      else (true, s)
    end
  else (true, s).

(** [recvLoop] while nothing else calls the session, with the random numbers of
    each turn. *)
Fixpoint recvLoop (md5 : list Z → string) (rnds : nat → nat → Z) (fuel : nat) (s : Session) : proc Session :=
  match fuel with
  | O => Halt s
  | S fuel' =>
    if died s then Halt s
    else
      and_then read_frame (λ r,
        match r with
        | inl _ => Halt (session_Close s)
        | inr f =>
          let '(go, s1) := handle_frame md5 None (rnds fuel') f s in
          if go : bool then recvLoop md5 rnds fuel' s1 else Halt (session_Close s1)
        end)
  end.

(** ** Ends of a session

    What the user of a client does, and the frames that come from the server; a call
    has random numbers of its own. *)

Inductive event := EOpen | EWrite (r : nat) (d : list Z) | EClose (r : nat) | EFrame (f : frame).

Definition client_step (md5 : list Z → string) (rnd : nat → Z) (e : event) (s : Session) : Session :=
  match e with
  | EOpen => (OpenStream None rnd s).2
  | EWrite r d => (stream_Write None rnd r d s).2
  | EClose r => stream_Close None rnd r s
  | EFrame f => let '(go, s1) := handle_frame md5 None rnd f s in if go : bool then s1 else session_Close s1
  end.

Fixpoint client_run (md5 : list Z → string) (rnds : nat → nat → Z) (es : list event) (s : Session) : Session :=
  match es with [] => s | e :: es' => client_run md5 rnds es' (client_step md5 (rnds (length es')) e s) end.

(** *** The specification

    The streams in the order they were opened: what was written to each, and whether
    it is open, closed here, or closed by the server. *)
Inductive fate := Open | Closed | Gone.

Record astream := mkA { written : list Z; fate_of : fate }.

Definition end_with (x : fate) (a : astream) : astream :=
  match fate_of a with Open => mkA (written a) x | _ => a end.

Definition append (d : list Z) (a : astream) : astream :=
  match fate_of a with Open => mkA (written a ++ d) Open | _ => a end.

(** The place of the stream of a number. *)
Definition place (sid : Z) (l : list astream) : option nat :=
  if (1 <=? sid) && (sid <=? Z.of_nat (length l)) then Some (Z.to_nat (sid - 1)) else None.

Definition alter_at (g : astream → astream) (o : option nat) (l : list astream) : list astream :=
  match o with Some r => alter g r l | None => l end.

Definition spec_step (e : event) (l : list astream) : list astream :=
  match e with
  | EOpen => l ++ [mkA [] Open]
  | EWrite r d => alter (append d) r l
  | EClose r => alter (end_with Closed) r l
  | EFrame f =>
    if cmd f =? cmdSYNACK then match data f with [] => l | _ => alter_at (end_with Closed) (place (sid f) l) l end
    else if cmd f =? cmdFIN then alter_at (end_with Gone) (place (sid f) l) l
    else l
  end.

Definition spec_run (es : list event) : list astream := foldl (λ l e, spec_step e l) [] es.

(** The stream that the server has for it. *)
Definition server_stream (i : nat) (a : astream) : Stream :=
  mkStream (Z.of_nat i + 1) (match fate_of a with Closed => Some ErrClosed | _ => None end) false (written a).

(** *** Conditions *)

Definition size_fits (sRange : string) : bool :=
  match Split sRange "-" with
  | [a; b] => match ParseInt a, ParseInt b with Some x, Some y => Z.max x y <=? 65535 | _, _ => true end
  | _ => true
  end.

(** A padding whose sizes have room in the header of a frame. *)
Definition scheme_fits (m : StringMap) : Prop := map_Forall (λ _ s, Forall (λ r, size_fits r = true) (Split s ",")) m.

Global Instance scheme_fits_dec m : Decision (scheme_fits m).
Proof. unfold scheme_fits. apply _. Defined.

Definition short (d : list Z) : Prop := Z.of_nat (length d) ≤ 65535.

(** A frame as a server sends it: no new stream, no alert, and a padding that fits. *)
Definition event_ok (e : event) : Prop :=
  match e with
  | EWrite _ d => short d
  | EFrame f => cmd f ∉ [cmdSYN; cmdAlert] ∧ 0 ≤ sid f < 2 ^ 32 ∧ (cmd f = cmdUpdatePaddingScheme → scheme_fits (StringMapFromBytes (data f)))
  | _ => True
  end.

Definition is_open (e : event) : bool := match e with EOpen => true | _ => false end.

Definition opens (es : list event) : nat := length (filter is_open es).

(** ** Frames on the wire *)

(** A frame that is read as it was written. *)
Definition frame_ok (f : frame) : Prop := 0 ≤ sid f < 2 ^ 32 ∧ short (data f) ∧ (reads_data (cmd f) = false → data f = []).

Lemma header_length c n m : length ([c] ++ be_bytes 4 n ++ be_bytes 2 m) = Z.to_nat headerOverHeadSize.
Proof. by rewrite !length_app, !be_bytes_length. Qed.

Lemma read_frame_encode f : frame_ok f → reads read_frame (encode_frame f) (done f).
Proof.
  intros (Hs & Hd & Hn). destruct f as [c n d]; simpl in *. unfold short in Hd.
  unfold encode_frame; simpl cmd; simpl sid; simpl data.
  rewrite (@wrap_id uint16) by int_lia. set (m := Z.of_nat (length d)) in *.
  rewrite (app_assoc (be_bytes 4 n)), (app_assoc [c]).
  apply reads_recv_app; [apply header_length|].
  change (byte_at ([c] ++ be_bytes 4 n ++ be_bytes 2 m) 0) with c.
  change (take 4 (drop 1 ([c] ++ be_bytes 4 n ++ be_bytes 2 m))) with (be_bytes 4 n).
  change (take 2 (drop 5 ([c] ++ be_bytes 4 n ++ be_bytes 2 m))) with (be_bytes 2 m).
  rewrite !from_be_id by (change (256 ^ Z.of_nat 4) with (2 ^ 32); change (256 ^ Z.of_nat 2) with 65536; lia).
  cbv zeta. destruct (reads_data c) eqn:Ec; cbn [andb].
  - destruct (Z.ltb_spec 0 m).
    + rewrite <- (app_nil_r d) at 1. apply reads_recv_app; [lia|]. constructor.
    + assert (d = []) as -> by (apply nil_length_inv; lia). constructor.
  - rewrite Hn by done. constructor.
Qed.

(** ** Padding only adds frames that nobody reads *)

Definition waste_frame (n : Z) : frame := mkFrame cmdWaste 0 (replicate (Z.to_nat n) 0).

Definition is_waste (f : frame) : Prop := ∃ n, 0 ≤ n ≤ 65535 ∧ f = waste_frame n.

Definition encode_all (F : list frame) : list Z := concat (map encode_frame F).

Lemma encode_all_app F G : encode_all (F ++ G) = encode_all F ++ encode_all G.
Proof. unfold encode_all. by rewrite map_app, concat_app. Qed.

Lemma waste_encode n : 0 ≤ n → waste n = encode_frame (waste_frame n).
Proof. intros Hn. unfold waste, encode_frame. simpl. by rewrite length_replicate, Z2Nat.id. Qed.

Definition size_ok (l : Z) : Prop := l = CheckMark ∨ 0 < l ≤ 65535.

Lemma payload_size_ok s r l : size_fits s = true → payload_size s r = Some l → size_ok l.
Proof.
  unfold size_fits, payload_size, size_ok. intros Hf H.
  assert ((if bool_decide (s = "c"%string) then Some CheckMark else None) = Some l → l = CheckMark ∨ 0 < l ≤ 65535) as Hc
    by (case_bool_decide; [intros [= <-]; by left|done]).
  destruct (Split s "-") as [|a [|b [|? ?]]]; try by apply Hc.
  destruct (ParseInt a) as [x|]; [|done]. destruct (ParseInt b) as [y|]; [|done]. simpl in H. right.
  apply Z.leb_le in Hf. destruct (Z.leb_spec (Z.min x y) 0); [done|]. destruct (Z.leb_spec (Z.max x y) 0); [done|]. simpl in H.
  destruct (Z.eqb_spec (Z.min x y) (Z.max x y)) as [He|He]; injection H as <-; [lia|].
  pose proof (Z.mod_pos_bound r (Z.max x y - Z.min x y)). lia.
Qed.

Lemma sizes_ok rnd p pkt : scheme_fits (scheme p) → Forall size_ok (GenerateRecordPayloadSizes rnd p pkt).
Proof.
  intros Hf. unfold GenerateRecordPayloadSizes. destruct (scheme p !! pretty pkt) as [s|] eqn:Es; [|done].
  apply Hf in Es. rewrite Forall_forall. intros l Hl. apply list_elem_of_omap in Hl as (o & Ho & Hol). simpl in Hol. subst o.
  apply list_elem_of_lookup in Ho as (i & Hi). rewrite list_lookup_imap in Hi.
  destruct (Split s "," !! i) as [x|] eqn:Ex; [|done]. injection Hi as Hi.
  eapply payload_size_ok; [|exact Hi]. by apply (Forall_lookup_1 _ _ _ _ Es Ex).
Qed.

Lemma pad_loop_waste sizes b : Forall size_ok sizes →
  ∃ F, Forall is_waste F ∧ (concat (pad_loop sizes b).1 ++ (pad_loop sizes b).2 = b ++ encode_all F).
Proof.
  intros Hs. revert b. induction Hs as [|l sizes Hl Hs IH]; intros b; simpl; [exists []; by rewrite app_nil_r|].
  destruct (Z.eqb_spec l CheckMark) as [->|Hne].
  { destruct (Z.of_nat (length b) =? 0); [exists []; by rewrite app_nil_r|apply IH]. }
  destruct Hl as [->|Hl]; [done|].
  destruct (Z.ltb_spec l (Z.of_nat (length b))).
  { destruct (IH (drop (Z.to_nat l) b)) as (F & HF & He). exists F. split; [done|].
    destruct (pad_loop sizes _) as [ws r]; simpl in *. by rewrite <- app_assoc, He, app_assoc, take_drop. }
  destruct (IH []) as (F & HF & He). destruct (pad_loop sizes []) as [ws r]; cbn [fst snd] in *.
  destruct (Z.ltb_spec 0 (Z.of_nat (length b))).
  - destruct (Z.ltb_spec 0 (l - Z.of_nat (length b) - headerOverHeadSize)) as [Hp|Hp].
    + exists (waste_frame (l - Z.of_nat (length b) - headerOverHeadSize) :: F). split; [constructor; [|done]; eexists; split; [|done]; unfold headerOverHeadSize in *; lia|].
      cbn [fst snd concat]. unfold encode_all; cbn [map concat]. by rewrite <- !app_assoc, He, waste_encode by lia.
    + exists F. split; [done|]. cbn [fst snd concat]. by rewrite app_nil_r, <- app_assoc, He.
  - assert (b = []) as -> by (apply nil_length_inv; lia).
    exists (waste_frame l :: F). split; [constructor; [|done]; eexists; split; [|done]; lia|].
    cbn [fst snd concat]. by rewrite <- !app_assoc, He, waste_encode by lia.
Qed.

(** ** What a write adds to the output *)

(** The output of a session so far. *)
Definition output (s : Session) : list Z := sent s ++ buffer s.

(** [s1] is [s] after the frames [F] were written. *)
Definition wrote (F : list frame) (s s1 : Session) : Prop :=
  (∃ sp b pkt o, s1 = set_conn sp (buffering s) b pkt o s) ∧ output s1 = output s ++ encode_all F ∧ (buffering s = false → buffer s1 = []).

Lemma conn_write_wrote rnd f s : died s = false → scheme_fits (scheme (padding s)) →
  ∃ F s1, conn_write None rnd (encode_frame f) s = (true, s1) ∧ Forall is_waste F ∧ wrote (f :: F) s s1.
Proof.
  intros Hd Hf. unfold conn_write. rewrite Hd.
  assert (∃ F ws sp b pkt, writeConn rnd (encode_frame f) s = (ws, set_conn sp (buffering s) b pkt (sent s) s) ∧ Forall is_waste F ∧
    concat ws ++ b = buffer s ++ encode_frame f ++ encode_all F ∧ (buffering s = false → b = [])) as (F & ws & sp & b & pkt & -> & HF & He & Hb).
  { unfold writeConn. destruct (buffering s) eqn:Eb.
    { exists [], [], (sendPadding s), (buffer s ++ encode_frame f), (pktCounter s). rewrite app_nil_r. by split_and!. }
    destruct (sendPadding s).
    2: { exists [], [buffer s ++ encode_frame f], false, [], (pktCounter s). simpl. rewrite !app_nil_r. by split_and!. }
    destruct (_ <? _).
    2: { exists [], [buffer s ++ encode_frame f], false, [], (@wrap uint32 (pktCounter s + 1)). simpl. rewrite !app_nil_r. by split_and!. }
    destruct (pad_loop_waste _ (buffer s ++ encode_frame f) (sizes_ok rnd (padding s) (@wrap uint32 (pktCounter s + 1)) Hf)) as (F & HF & He).
    destruct (pad_loop _ _) as [ws r]; cbn [fst snd] in He.
    exists F, (ws ++ match r with [] => [] | _ => [r] end), true, [], (@wrap uint32 (pktCounter s + 1)). split_and!; [done|done| |done].
    rewrite app_nil_r, (app_assoc (buffer s)), <- He, concat_app. f_equal. destruct r; [done|]. simpl. by rewrite app_nil_r. }
  exists F. eexists. rewrite firstn_all, Nat.leb_refl. split_and!; [done|done|]. split_and!; [by repeat eexists| |done].
  unfold output, encode_all; simpl. by rewrite <- app_assoc, He, <- !app_assoc.
Qed.

Lemma writeControlFrame_wrote rnd f s : died s = false → scheme_fits (scheme (padding s)) →
  ∃ F s1, writeControlFrame None rnd f s = (true, s1) ∧ Forall is_waste F ∧ wrote (f :: F) s s1.
Proof. intros Hd Hf. unfold writeControlFrame. destruct (conn_write_wrote rnd f s Hd Hf) as (F & s1 & -> & H). by exists F, s1. Qed.

(** ** What the server makes of the frames

    A stream as the server knows it: its bytes, and whether it is closed. *)
Abbreviation heard := (list Z * bool)%type.

Definition heard_stream (i : nat) (a : heard) : Stream :=
  mkStream (Z.of_nat i + 1) (if a.2 then Some ErrClosed else None) false a.1.

Definition hear (d : list Z) (a : heard) : heard := if a.2 then a else (a.1 ++ d, false).

Definition hear_end (a : heard) : heard := (a.1, true).

(** The frames that a client sends. *)
Definition abs_frame (f : frame) (v : list heard) : option (list heard) :=
  let r := Z.to_nat (sid f - 1) in
  if cmd f =? cmdSYN then if sid f =? Z.of_nat (length v) + 1 then Some (v ++ [([], false)]) else None
  else if cmd f =? cmdPSH then if 1 <=? sid f then Some (alter (hear (data f)) r v) else None
  else if cmd f =? cmdFIN then if 1 <=? sid f then Some (alter hear_end r v) else None
  else if (cmd f =? cmdWaste) || (cmd f =? cmdHeartResponse) then Some v
  else None.

Fixpoint abs_frames (F : list frame) (v : list heard) : option (list heard) :=
  match F with [] => Some v | f :: F' => v' ← abs_frame f v; abs_frames F' v' end.

Lemma abs_frames_app F G v : abs_frames (F ++ G) v = v' ← abs_frames F v; abs_frames G v'.
Proof. revert v. induction F as [|f F IH]; intros v; [done|]. simpl. destruct (abs_frame f v); [apply IH|done]. Qed.

Record server_ok (v : list heard) (s : Session) : Prop := {
  so_died : died s = false;
  so_server : isClient s = false;
  so_settings : receivedSettings s = true;
  so_version : peerVersion s = 2;
  so_all : all_streams s = imap heard_stream v;
  so_map : ∀ n r, streams s !! n = Some r ↔ n = Z.of_nat r + 1 ∧ ∃ b, v !! r = Some (b, false) }.

Lemma imap_alter {A B} (f : nat → A → B) (g : A → A) (h : B → B) r l :
  (∀ a, l !! r = Some a → f r (g a) = h (f r a)) → imap f (alter g r l) = alter h r (imap f l).
Proof.
  intros Hg. apply list_eq. intros i. rewrite list_lookup_imap. destruct (decide (i = r)) as [->|Hne].
  - rewrite !list_lookup_alter_eq, list_lookup_imap. destruct (l !! r) as [a|]; [|done]. simpl. by rewrite Hg.
  - by rewrite !list_lookup_alter_ne, list_lookup_imap by done.
Qed.

Lemma server_none v s n r : server_ok v s → n = Z.of_nat r + 1 → streams s !! n = None → v !! r = None ∨ ∃ b, v !! r = Some (b, true).
Proof.
  intros Hs -> Hn. destruct (v !! r) as [[b []]|] eqn:Ev; [right; by exists b| |by left].
  assert (streams s !! (Z.of_nat r + 1) = Some r) by (apply Hs; eauto). congruence.
Qed.

Lemma alter_none {A} (g : A → A) r (l : list A) : (∀ a, l !! r = Some a → g a = a) → alter g r l = l.
Proof.
  intros Hg. apply list_eq. intros i. destruct (decide (i = r)) as [->|]; [|by rewrite list_lookup_alter_ne].
  rewrite list_lookup_alter_eq. destruct (l !! r) as [a|] eqn:E; [|done]. simpl. by rewrite Hg.
Qed.

Section server_frames.
Context (md5 : list Z → string) (rnd : nat → Z).

(** A stream is opened. *)
Lemma server_syn v s d : server_ok v s →
  ∃ s1, handle_frame md5 None rnd (mkFrame cmdSYN (Z.of_nat (length v) + 1) d) s = (true, s1) ∧ server_ok (v ++ [([], false)]) s1.
Proof.
  intros Hs. unfold handle_frame; cbn [cmd sid]. change (cmdSYN =? cmdPSH) with false. change (cmdSYN =? cmdSYN) with true. cbv iota.
  rewrite (so_settings _ _ Hs), andb_false_r.
  destruct (streams s !! _) as [r|] eqn:Er; [apply Hs in Er as (? & b & Hb); apply lookup_lt_Some in Hb; lia|].
  eexists; split; [done|]. destruct Hs as [Hd Hi Hr Hp Ha Hm]. split; simpl; try done.
  - rewrite imap_app, Ha. unfold heard_stream at 3; simpl. by rewrite Nat.add_0_r.
  - intros k r. rewrite Ha, length_imap, lookup_insert. case_decide as Hk.
    + split; [intros [= <-]; split; [lia|]; exists []; by rewrite list_lookup_middle|].
      intros (-> & _). f_equal. lia.
    + rewrite Hm. split; intros (-> & b & Hb); (split; [done|]); exists b; [by apply lookup_app_l_Some|].
      rewrite lookup_app_l in Hb; [done|]. apply lookup_lt_Some in Hb. rewrite length_app in Hb. simpl in Hb. lia.
Qed.

(** Data for a stream, or for none. *)
Lemma server_psh v s r d : server_ok v s →
  ∃ s1, handle_frame md5 None rnd (mkFrame cmdPSH (Z.of_nat r + 1) d) s = (true, s1) ∧ server_ok (alter (hear d) r v) s1.
Proof.
  intros Hs. unfold handle_frame; cbn [cmd sid data]. change (cmdPSH =? cmdPSH) with true. cbv iota.
  destruct (streams s !! _) as [r'|] eqn:Er; (eexists; split; [done|]).
  - apply Hs in Er as (Hr' & b & Hb). assert (r' = r) as -> by lia. destruct Hs as [Hd Hi Hr Hp Ha Hm]. split; simpl; try done.
    + rewrite Ha. symmetry. apply imap_alter. intros [? []]; rewrite Hb; [done|]. by intros [= <-].
    + intros k q. rewrite Hm. destruct (decide (q = r)) as [->|Hq]; [|by rewrite list_lookup_alter_ne].
      rewrite list_lookup_alter_eq, Hb. simpl. naive_solver.
  - rewrite alter_none; [done|]. intros a Ha.
    destruct (server_none _ _ _ r Hs eq_refl Er) as [Hv|[b Hv]]; rewrite Hv in Ha; [done|]. by injection Ha as <-.
Qed.

(** A stream is closed. *)
Lemma server_fin v s r d : server_ok v s →
  ∃ s1, handle_frame md5 None rnd (mkFrame cmdFIN (Z.of_nat r + 1) d) s = (true, s1) ∧ server_ok (alter hear_end r v) s1.
Proof.
  intros Hs. unfold handle_frame; cbn [cmd sid data]. change (cmdFIN =? cmdPSH) with false. change (cmdFIN =? cmdSYN) with false.
  change (cmdFIN =? cmdSYNACK) with false. change (cmdFIN =? cmdFIN) with true. cbv iota.
  destruct (streams s !! _) as [r'|] eqn:Er; (eexists; split; [done|]).
  - apply Hs in Er as (Hr' & b & Hb). assert (r' = r) as -> by lia. destruct Hs as [Hd Hi Hr Hp Ha Hm]. split; simpl; try done.
    + rewrite Ha. symmetry. apply imap_alter. intros [? []]; rewrite Hb; [done|]. by intros [= <-].
    + intros k q. rewrite lookup_delete. case_decide as Hk.
      * split; [done|]. intros (-> & b' & Hb'). assert (q = r) as -> by lia. by rewrite list_lookup_alter_eq, Hb in Hb'.
      * rewrite Hm. destruct (decide (q = r)) as [->|Hq]; [|by rewrite list_lookup_alter_ne]. split; intros (? & _); lia.
  - rewrite alter_none.
    2: { intros a Ha. destruct (server_none _ _ _ r Hs eq_refl Er) as [Hv|[b Hv]]; rewrite Hv in Ha; [done|]. by injection Ha as <-. }
    destruct Hs as [Hd Hi Hr Hp Ha Hm]. split; simpl; try done. intros k q. rewrite delete_id by done. apply Hm.
Qed.

Lemma server_frame f v v' s : server_ok v s → abs_frame f v = Some v' →
  ∃ s1, handle_frame md5 None rnd f s = (true, s1) ∧ server_ok v' s1.
Proof.
  intros Hs. destruct f as [c n d]. unfold abs_frame; cbn [cmd sid data].
  destruct (Z.eqb_spec c cmdSYN) as [->|H1].
  { destruct (Z.eqb_spec n (Z.of_nat (length v) + 1)) as [->|]; [|done]. intros [= <-]. by apply server_syn. }
  assert (∀ w, (if (c =? cmdWaste) || (c =? cmdHeartResponse) then Some v else None) = Some w →
    ∃ s1, handle_frame md5 None rnd (mkFrame c n d) s = (true, s1) ∧ server_ok w s1) as Hidle.
  { intros w. destruct (Z.eqb_spec c cmdWaste) as [->|]; [intros [= <-]; by eexists|].
    destruct (Z.eqb_spec c cmdHeartResponse) as [->|]; [intros [= <-]; by eexists|done]. }
  destruct (Z.leb_spec 1 n).
  - assert (∃ r, n = Z.of_nat r + 1) as [r ->] by (exists (Z.to_nat (n - 1)); lia).
    replace (Z.to_nat (Z.of_nat r + 1 - 1)) with r by lia.
    destruct (Z.eqb_spec c cmdPSH) as [->|H2]; [intros [= <-]; by apply server_psh|].
    destruct (Z.eqb_spec c cmdFIN) as [->|H3]; [intros [= <-]; by apply server_fin|]. apply Hidle.
  - destruct (c =? cmdPSH); [done|]. destruct (c =? cmdFIN); [done|]. apply Hidle.
Qed.

End server_frames.

Lemma server_reads md5 rnds F v v' s fuel :
  server_ok v s → Forall frame_ok F → abs_frames F v = Some v' → (length F ≤ fuel)%nat →
  ∃ s1, reads (recvLoop md5 rnds fuel s) (encode_all F) (recvLoop md5 rnds (fuel - length F) s1) ∧ server_ok v' s1.
Proof.
  intros Hs HF. revert v s fuel Hs. induction HF as [|f F Hf HF IH]; intros v s fuel Hs Ha Hl; simpl in *.
  { injection Ha as <-. exists s. rewrite Nat.sub_0_r. split; [constructor|done]. }
  destruct (abs_frame f v) as [v1|] eqn:Ef; [|done]. destruct fuel as [|fuel]; [lia|].
  destruct (server_frame md5 (rnds fuel) f v v1 s Hs Ef) as (s1 & Hh & Hs1).
  destruct (IH v1 s1 fuel Hs1 Ha ltac:(lia)) as (s2 & Hr & Hs2). exists s2. split; [|done].
  cbn [recvLoop length Nat.sub]. rewrite (so_died _ _ Hs). eapply reads_app; [apply reads_and_then; by apply read_frame_encode|]. simpl. by rewrite Hh.
Qed.

(** ** The settings *)

(** What a client tells the server, in the order its map gives. *)
Definition settings (version md5 : string) : list (string * string) :=
  [("v", "2"); ("client", "mihomo/" +:+ version); ("padding-md5", md5)]%string.

Definition line_ok (kv : string * string) : Prop := "="%char ∉ bytes kv.1 ∧ newline ∉ bytes kv.1 ∧ newline ∉ bytes kv.2.

Lemma cut_line_app c a b : c ∉ a → cut_at c (a ++ c :: b) = Some (a, b).
Proof.
  induction a as [|x a IH]; intros Hc; simpl; [by rewrite decide_True|].
  rewrite decide_False by (intros ->; apply Hc; left). rewrite IH by (intros ?; apply Hc; by right). done.
Qed.

Lemma add_line_ok m kv : line_ok kv → add_line m (kv.1 +:+ "=" +:+ kv.2) = <[kv.1 := kv.2]> m.
Proof. intros (Hk & _). unfold add_line. rewrite !bytes_app.
  change (bytes "=" ++ bytes kv.2) with ("="%char :: bytes kv.2). rewrite (cut_line_app _ _ _ Hk). by rewrite !of_bytes_bytes. Qed.

Lemma StringMap_roundtrip lines : lines ≠ [] → Forall line_ok lines → NoDup lines.*1 →
  StringMapFromBytes (ToBytes lines) = list_to_map lines.
Proof.
  intros Hne Hl Hn. unfold StringMapFromBytes, ToBytes. rewrite to_string_str_bytes, Split_Join.
  - clear Hne. cut (∀ m : StringMap, foldl add_line m (map (λ kv, (kv.1 +:+ "=" +:+ kv.2)%string) lines) = list_to_map lines ∪ m).
    { intros ->. by rewrite (right_id_L ∅ (∪)). }
    induction Hl as [|kv lines Hkv Hl IH]; intros m; simpl; [by rewrite (left_id_L ∅ (∪))|].
    rewrite fmap_cons, NoDup_cons in Hn. destruct Hn as [Hn1 Hn].
    rewrite add_line_ok, IH by done. rewrite <- insert_union_r by (by apply not_elem_of_list_to_map_1). by rewrite <- insert_union_l.
  - by destruct lines.
  - apply Forall_map. eapply Forall_impl; [exact Hl|]. intros kv (_ & Hk & Hv). simpl. rewrite !bytes_app.
    intros [Hi|[Hi|Hi]%elem_of_app]%elem_of_app; [done| |done]. by apply list_elem_of_singleton in Hi.
Qed.

Lemma settings_ok version md5 lines :
  newline ∉ bytes version → newline ∉ bytes md5 → lines ≡ₚ settings version md5 →
  StringMapFromBytes (ToBytes lines) !! "v"%string = Some "2"%string.
Proof.
  intros Hv Hm Hp. assert (NoDup lines.*1) as Hn by (rewrite Hp; simpl; by apply (bool_decide_unpack (NoDup ["v"; "client"; "padding-md5"]%string))).
  rewrite StringMap_roundtrip; [|intros ->; by apply Permutation_nil_l in Hp| |done].
  - apply elem_of_list_to_map_1; [done|]. rewrite Hp. left.
  - rewrite Hp. assert (∀ (c : ascii) (l : list ascii), bool_decide (c ∈ l) = false → c ∉ l) as Hd by (intros c l H Hi; by rewrite bool_decide_true in H).
    unfold settings. rewrite !Forall_cons. unfold line_ok. split_and!; try (by apply Hd); try done.
    cbn [snd]. rewrite bytes_app. intros [Hi|Hi]%elem_of_app; [|done]. revert Hi. by apply Hd.
Qed.

(** The server's own writes do not fail. *)
Lemma server_write rnd f s : died s = false → sendPadding s = false → buffering s = false →
  ∃ b o, writeControlFrame None rnd f s = (true, set_conn false false b (pktCounter s) o s).
Proof.
  intros Hd Hp Hb. unfold writeControlFrame, conn_write, writeConn. rewrite Hd, Hp, Hb. simpl. by eexists _, _.
Qed.

Lemma server_settings md5 rnd q d v : d ≠ [] → StringMapFromBytes d !! "v"%string = Some v →
  ParseInt v = Some 2 →
  ∃ s, handle_frame md5 None rnd (mkFrame cmdSettings 0 d) (NewServerSession q) = (true, s) ∧ server_ok [] s.
Proof.
  intros Hd Hv Hp. unfold handle_frame; cbn [cmd data isClient NewServerSession new_session].
  change (cmdSettings =? cmdPSH) with false. change (cmdSettings =? cmdSYN) with false. change (cmdSettings =? cmdSYNACK) with false.
  change (cmdSettings =? cmdFIN) with false. change (cmdSettings =? cmdWaste) with false. change (cmdSettings =? cmdSettings) with true. cbv iota.
  destruct d as [|x d]; [done|]. cbv zeta. assert (get (StringMapFromBytes (x :: d)) "v" = v) as -> by (unfold get; by rewrite Hv). rewrite Hp.
  match goal with |- context [bool_decide ?P] => destruct (bool_decide P) end.
  - change (2 <=? 2) with true. cbv iota.
    match goal with |- context [writeControlFrame None rnd ?g ?s0] => destruct (server_write rnd g s0) as (b & o & ->); [done..|] end.
    eexists. split; [done|]. split; try done. intros n r. simpl. split; [done|]. intros (_ & b' & Hb). by rewrite lookup_nil in Hb.
  - match goal with |- context [writeControlFrame None rnd ?g ?s0] => destruct (server_write rnd g s0) as (b & o & ->); [done..|] end.
    change (2 <=? 2) with true. cbv iota.
    match goal with |- context [writeControlFrame None rnd ?g ?s0] => destruct (server_write rnd g s0) as (b1 & o1 & ->); [done..|] end.
    eexists. split; [done|]. split; try done. intros n r. simpl. split; [done|]. intros (_ & b' & Hb). by rewrite lookup_nil in Hb.
Qed.

(** ** What the client has said *)

Definition view (a : astream) : heard := (written a, match fate_of a with Closed => true | _ => false end).

(** The output of [s] is the settings and frames that make the server hear [v]. *)
Definition says (set : frame) (v : list heard) (s : Session) : Prop :=
  ∃ F, output s = encode_all (set :: F) ∧ Forall frame_ok F ∧ abs_frames F [] = Some v.

Lemma wastes_heard F v : Forall is_waste F → Forall frame_ok F ∧ abs_frames F v = Some v.
Proof.
  induction 1 as [|f F (n & Hn & ->) HF (IH1 & IH2)]; [done|]. split; [|simpl; exact IH2]. constructor; [|done].
  refine (conj _ (conj _ _)); [simpl; lia|unfold short, waste_frame; cbn [data]; rewrite length_replicate; lia|done].
Qed.

Lemma says_wrote set v v' f F s s1 :
  says set v s → Forall is_waste F → wrote (f :: F) s s1 → frame_ok f → abs_frame f v = Some v' → says set v' s1.
Proof.
  intros (G & Ho & HG & Ha) HF (_ & Hw & _) Hf Hv. destruct (wastes_heard F v' HF) as [HF1 HF2].
  exists (G ++ f :: F). split_and!.
  - rewrite Hw, Ho, <- encode_all_app. done.
  - apply Forall_app. split; [done|]. by constructor.
  - rewrite abs_frames_app, Ha. simpl. by rewrite Hv.
Qed.

Definition client_stream (r : nat) (st : Stream) (a : astream) : Prop :=
  id st = Z.of_nat r + 1 ∧ (dieErr st = None ↔ fate_of a = Open).

Record client_ok (set : frame) (l : list astream) (s : Session) : Prop := {
  co_died : died s = false;
  co_client : isClient s = true;
  co_fits : scheme_fits (scheme (padding s));
  co_id : streamId s = Z.of_nat (length l);
  co_flow : l ≠ [] → buffering s = false;
  co_says : says set (map view l) s;
  co_all : ∀ r, option_Forall2 (client_stream r) (all_streams s !! r) (l !! r);
  co_map : ∀ n r, streams s !! n = Some r ↔ n = Z.of_nat r + 1 ∧ ∃ b, l !! r = Some (mkA b Open) }.

Lemma option_Forall2_length {A B} (R : nat → A → B → Prop) l k :
  (∀ r, option_Forall2 (R r) (l !! r) (k !! r)) → length l = length k.
Proof.
  intros H. apply Nat.le_antisymm; apply lookup_ge_None.
  - specialize (H (length k)). rewrite (lookup_ge_None_2 k) in H by done. by destruct (l !! _); [inversion H|].
  - specialize (H (length l)). rewrite (lookup_ge_None_2 l) in H by done. by destruct (k !! _); [inversion H|].
Qed.

Lemma client_length set l s : client_ok set l s → length (all_streams s) = length l.
Proof. intros Hs. eapply option_Forall2_length, (co_all _ _ _ Hs). Qed.

(** A control frame that leaves the streams alone. *)
Lemma client_says rnd set l v f s : client_ok set l s → frame_ok f → abs_frame f (map view l) = Some v →
  ∃ s1 sp b pkt o, writeControlFrame None rnd f s = (true, s1) ∧ conn_write None rnd (encode_frame f) s = (true, s1) ∧
    s1 = set_conn sp (buffering s) b pkt o s ∧ says set v s1 ∧ (buffering s = false → buffer s1 = []).
Proof.
  intros Hs Hf Hv. destruct (conn_write_wrote rnd f s (co_died _ _ _ Hs) (co_fits _ _ _ Hs)) as (F & s1 & Hc & HF & Hw).
  pose proof (says_wrote _ _ _ _ _ _ _ (co_says _ _ _ Hs) HF Hw Hf Hv) as Hsay. destruct Hw as ((sp & b & pkt & o & Hs1) & _ & Hb).
  exists s1, sp, b, pkt, o. split_and!; try done. unfold writeControlFrame. by rewrite Hc.
Qed.

(** The other parts of the state do not matter. *)
Lemma client_conn set l s sp b pkt o :
  client_ok set l s → says set (map view l) (set_conn sp (buffering s) b pkt o s) → client_ok set l (set_conn sp (buffering s) b pkt o s).
Proof. intros [] Hsay. by split. Qed.

Lemma view_alter (g : astream → astream) (h : heard → heard) r l :
  (∀ a, l !! r = Some a → view (g a) = h (view a)) → map view (alter g r l) = alter h r (map view l).
Proof.
  intros Hg. apply list_eq. intros i. rewrite list_lookup_fmap. destruct (decide (i = r)) as [->|Hne].
  - rewrite !list_lookup_alter_eq, list_lookup_fmap. destruct (l !! r) as [a|]; [|done]. simpl. by rewrite Hg.
  - by rewrite !list_lookup_alter_ne, list_lookup_fmap by done.
Qed.

(** Streams that end at a place: the stream has an error, and the map forgets it. *)
Lemma client_alter set l l' s s1 r x e :
  client_ok set l s → l' = alter (end_with x) r l → x ≠ Open → (∃ b, l !! r = Some (mkA b Open)) →
  died s1 = false → isClient s1 = true → padding s1 = padding s → streamId s1 = streamId s → buffering s1 = buffering s →
  all_streams s1 = alter (close_stream e) r (all_streams s) → streams s1 = delete (Z.of_nat r + 1) (streams s) →
  says set (map view l') s1 → client_ok set l' s1.
Proof.
  intros Hs -> Hx (b & Hb) Hd Hc Hp Hi Hbf Ha Hm Hsay. split; try done.
  - rewrite Hp. apply Hs.
  - rewrite Hi, length_alter. apply Hs.
  - intros Hne. rewrite Hbf. apply (co_flow _ _ _ Hs). intros ->. done.
  - intros q. pose proof (co_all _ _ _ Hs q) as Hq. rewrite Ha. destruct (decide (q = r)) as [->|Hne].
    + rewrite !list_lookup_alter_eq. rewrite Hb in *. inversion Hq as [st a (Hid & Hdie) Hst|]; subst. simpl. constructor.
      unfold close_stream, end_with, client_stream in *. simpl in *. destruct (dieErr st); [exfalso; naive_solver|]. simpl. split; [done|]. split; [done|]. done.
    + by rewrite !list_lookup_alter_ne by done.
  - intros n q. rewrite Hm, lookup_delete. case_decide as Hn.
    + split; [done|]. intros (-> & b' & Hb'). assert (q = r) as -> by lia. rewrite list_lookup_alter_eq, Hb in Hb'. injection Hb' as _ Hb'. by destruct x.
    + rewrite (co_map _ _ _ Hs). destruct (decide (q = r)) as [->|Hne]; [split; intros (? & _); lia|]. by rewrite list_lookup_alter_ne.
Qed.

(** ** The client's operations *)

Lemma syn_ok l : Z.of_nat (length l) + 1 < 2 ^ 32 →
  frame_ok (newFrame cmdSYN (Z.of_nat (length l) + 1)) ∧
  abs_frame (newFrame cmdSYN (Z.of_nat (length l) + 1)) (map view l) = Some (map view (l ++ [mkA [] Open])).
Proof.
  intros Hl. split; [split_and!; simpl; [lia|lia|unfold short; simpl; lia|done]|].
  unfold abs_frame. simpl. rewrite length_map, Z.eqb_refl. by rewrite map_app.
Qed.

Lemma client_open rnd set l s : client_ok set l s → Z.of_nat (length l) + 1 < 2 ^ 32 →
  client_ok set (l ++ [mkA [] Open]) (OpenStream None rnd s).2.
Proof.
  intros Hs Hl. unfold OpenStream. rewrite (co_died _ _ _ Hs), (co_id _ _ _ Hs), (@wrap_id uint32) by int_lia. cbv zeta.
  match goal with |- context [set_status ?a ?b ?c ?d ?e ?f s] => set (s0 := set_status a b c d e f s) end.
  destruct (syn_ok l Hl) as [Hf Hv].
  destruct (conn_write_wrote rnd (newFrame cmdSYN (Z.of_nat (length l) + 1)) s0 eq_refl (co_fits _ _ _ Hs)) as (F & s1 & Hc & HF & Hw).
  assert (says set (map view (l ++ [mkA [] Open])) s1) as Hsay by (by eapply (says_wrote _ _ _ _ _ s0); [apply (co_says _ _ _ Hs)|..]).
  unfold writeControlFrame. rewrite Hc. destruct Hw as ((sp & b & pkt & o & ->) & _). simpl.
  pose proof (client_length _ _ _ Hs) as Hlen. split; simpl; try done; try apply Hs.
  - rewrite length_app. simpl. lia.
  - intros r. destruct (decide (r < length l)%nat) as [Hr|Hr].
    + rewrite !lookup_app_l by (by rewrite ?Hlen). apply Hs.
    + rewrite !lookup_app_r by (rewrite ?Hlen; lia). rewrite Hlen. destruct (r - length l)%nat as [|k] eqn:Ek; [|constructor].
      simpl. constructor. split; simpl; [lia|done].
  - intros n r. rewrite Hlen, lookup_insert. case_decide as Hn.
    + split; [intros [= <-]; split; [lia|]; exists []; by rewrite list_lookup_middle|]. intros (-> & _). f_equal. lia.
    + rewrite (co_map _ _ _ Hs). split; intros (-> & c & Hb); (split; [done|]); exists c; [by apply lookup_app_l_Some|].
      rewrite lookup_app_l in Hb; [done|]. apply lookup_lt_Some in Hb. rewrite length_app in Hb. simpl in Hb. lia.
Qed.

Lemma lookup_open set l s r st : client_ok set l s → all_streams s !! r = Some st → dieErr st = None →
  id st = Z.of_nat r + 1 ∧ ∃ b, l !! r = Some (mkA b Open).
Proof.
  intros Hs Hr Hd. pose proof (co_all _ _ _ Hs r) as H. rewrite Hr in H. inversion H as [? a (Hid & Hdie) Ha|]; subst.
  split; [done|]. destruct a as [b x]. apply Hdie in Hd. simpl in Hd. subst x. by exists b.
Qed.

Lemma lookup_not_open set l s r : client_ok set l s → (∀ st, all_streams s !! r = Some st → dieErr st ≠ None) →
  ∀ a, l !! r = Some a → fate_of a ≠ Open.
Proof.
  intros Hs Hn a Ha Ho. pose proof (co_all _ _ _ Hs r) as H. rewrite Ha in H. inversion H as [st ? (_ & Hdie) Hst|]; subst.
  symmetry in Hst. by eapply Hn; [|apply Hdie].
Qed.

Lemma alter_not_open g r (l : list astream) : (∀ a, l !! r = Some a → fate_of a ≠ Open) → (∀ a, fate_of a ≠ Open → g a = a) → alter g r l = l.
Proof. intros Hl Hg. apply alter_none. intros a Ha. by apply Hg, Hl. Qed.

Lemma append_not_open d a : fate_of a ≠ Open → append d a = a.
Proof. unfold append. by destruct (fate_of a). Qed.

Lemma end_not_open x a : fate_of a ≠ Open → end_with x a = a.
Proof. unfold end_with. by destruct (fate_of a). Qed.

Lemma psh_ok l r d b : Z.of_nat (length l) < 2 ^ 32 → short d → l !! r = Some (mkA b Open) →
  frame_ok (mkFrame cmdPSH (Z.of_nat r + 1) d) ∧
  abs_frame (mkFrame cmdPSH (Z.of_nat r + 1) d) (map view l) = Some (map view (alter (append d) r l)).
Proof.
  intros Hl Hd Hb. pose proof (lookup_lt_Some _ _ _ Hb). split; [split_and!; simpl; [lia|lia|done|done]|].
  unfold abs_frame; simpl. destruct (Z.leb_spec 1 (Z.of_nat r + 1)); [|lia]. replace (Z.to_nat (Z.of_nat r + 1 - 1)) with r by lia.
  f_equal. symmetry. apply view_alter. intros a Ha. rewrite Hb in Ha. by injection Ha as <-.
Qed.

Lemma fin_ok l r b : Z.of_nat (length l) < 2 ^ 32 → l !! r = Some (mkA b Open) →
  frame_ok (newFrame cmdFIN (Z.of_nat r + 1)) ∧
  abs_frame (newFrame cmdFIN (Z.of_nat r + 1)) (map view l) = Some (map view (alter (end_with Closed) r l)).
Proof.
  intros Hl Hb. pose proof (lookup_lt_Some _ _ _ Hb). split; [split_and!; simpl; [lia|lia|unfold short; simpl; lia|done]|].
  unfold abs_frame; simpl. destruct (Z.leb_spec 1 (Z.of_nat r + 1)); [|lia]. replace (Z.to_nat (Z.of_nat r + 1 - 1)) with r by lia.
  f_equal. symmetry. apply view_alter. intros a Ha. rewrite Hb in Ha. by injection Ha as <-.
Qed.

Lemma client_write rnd set l s r d : client_ok set l s → Z.of_nat (length l) < 2 ^ 32 → short d →
  client_ok set (alter (append d) r l) (stream_Write None rnd r d s).2 ∧
  ((∃ b, l !! r = Some (mkA b Open)) → buffer (stream_Write None rnd r d s).2 = []).
Proof.
  intros Hs Hl Hd. unfold stream_Write.
  assert ((∀ st, all_streams s !! r = Some st → dieErr st ≠ None) → client_ok set (alter (append d) r l) s ∧ ((∃ b, l !! r = Some (mkA b Open)) → buffer s = [])) as Hno.
  { intros Hn. pose proof (lookup_not_open _ _ _ _ Hs Hn) as Ha. rewrite (alter_not_open _ _ _ Ha (append_not_open d)).
    split; [done|]. intros (b & Hb). by apply Ha in Hb. }
  destruct (all_streams s !! r) as [st|] eqn:Er; [|by apply Hno]. destruct (dieErr st) eqn:Edie.
  { apply Hno. intros st' [= <-]. by rewrite Edie. }
  clear Hno. destruct (lookup_open _ _ _ _ _ Hs Er Edie) as (Hid & b & Hb). unfold writeDataFrame. rewrite Hid.
  destruct (psh_ok l r d b Hl Hd Hb) as [Hf Hv].
  destruct (client_says rnd set l _ _ s Hs Hf Hv) as (s1 & sp & bf & pkt & o & _ & -> & -> & Hsay & Hbf). cbn [snd].
  split; [|intros _; apply Hbf, (co_flow _ _ _ Hs); by intros ->]. split; simpl; try done; try apply Hs.
  - rewrite length_alter. apply Hs.
  - intros Hne. apply (co_flow _ _ _ Hs). by intros ->.
  - intros q. pose proof (co_all _ _ _ Hs q) as Hq. destruct (decide (q = r)) as [->|Hne]; [|by rewrite list_lookup_alter_ne].
    rewrite list_lookup_alter_eq, Hb in *. simpl. inversion Hq as [? ? (? & ?)|]; subst. constructor. by split.
  - intros n q. rewrite (co_map _ _ _ Hs). destruct (decide (q = r)) as [->|Hne]; [|by rewrite list_lookup_alter_ne].
    rewrite list_lookup_alter_eq, Hb. simpl. unfold append; simpl. naive_solver.
Qed.

Lemma client_close rnd set l s e r : client_ok set l s → Z.of_nat (length l) < 2 ^ 32 →
  client_ok set (alter (end_with Closed) r l) (closeWithError None rnd e r s).
Proof.
  intros Hs Hl. unfold closeWithError.
  assert ((∀ st, all_streams s !! r = Some st → dieErr st ≠ None) → client_ok set (alter (end_with Closed) r l) s) as Hno.
  { intros Hn. pose proof (lookup_not_open _ _ _ _ Hs Hn) as Ha. by rewrite (alter_not_open _ _ _ Ha (end_not_open Closed)). }
  destruct (all_streams s !! r) as [st|] eqn:Er; [|by apply Hno]. destruct (dieErr st) eqn:Edie.
  { apply Hno. intros st' [= <-]. by rewrite Edie. }
  clear Hno. destruct (lookup_open _ _ _ _ _ Hs Er Edie) as (Hid & b & Hb). unfold streamClosed. simpl died. rewrite (co_died _ _ _ Hs), Hid.
  destruct (conn_write_wrote rnd (newFrame cmdFIN (Z.of_nat r + 1)) (set_streams (streams s) (alter (close_stream e) r (all_streams s)) s) (co_died _ _ _ Hs) (co_fits _ _ _ Hs))
    as (F & s1 & Hc & HF & Hw).
  destruct (fin_ok l r b Hl Hb) as [Hf Hv].
  assert (says set (map view (alter (end_with Closed) r l)) s1) as Hsay
    by (by eapply (says_wrote _ _ _ _ _ (set_streams (streams s) (alter (close_stream e) r (all_streams s)) s)); [apply (co_says _ _ _ Hs)|..]).
  unfold writeControlFrame. rewrite Hc. destruct Hw as ((sp & bf & pkt & o & ->) & _).
  eapply (client_alter set l _ s _ r Closed e); try done; [by exists b|..]; simpl; apply Hs.
Qed.

(** ** Frames from the server *)

Lemma client_place set l s n r : client_ok set l s → streams s !! n = Some r → place n l = Some r ∧ ∃ b, l !! r = Some (mkA b Open).
Proof.
  intros Hs (-> & b & Hb)%(co_map _ _ _ Hs). split; [|by exists b]. apply lookup_lt_Some in Hb. unfold place.
  destruct (Z.leb_spec 1 (Z.of_nat r + 1)), (Z.leb_spec (Z.of_nat r + 1) (Z.of_nat (length l))); simpl; try lia. f_equal. lia.
Qed.

Lemma client_no_place set l s n x : client_ok set l s → streams s !! n = None → alter_at (end_with x) (place n l) l = l.
Proof.
  intros Hs Hn. unfold place. destruct (Z.leb_spec 1 n); [|done]. destruct (_ <=? _); [|done]. simpl.
  apply alter_not_open; [|apply end_not_open]. intros [b y] Ha Ho. simpl in Ho. subst y.
  assert (streams s !! n = Some (Z.to_nat (n - 1))); [|congruence]. apply (co_map _ _ _ Hs). split; [lia|by exists b].
Qed.

Lemma client_status set l s w p v :
  client_ok set l s → scheme_fits (scheme p) → client_ok set l (set_status (streamId s) (died s) w p v (receivedSettings s) s).
Proof. intros [] Hp. by split. Qed.

Lemma client_push set l s d r :
  client_ok set l s → client_ok set l (set_streams (streams s) (alter (push d) r (all_streams s)) s).
Proof.
  intros []. split; try done. intros q. simpl. destruct (decide (q = r)) as [->|Hne]; [|by rewrite list_lookup_alter_ne].
  rewrite list_lookup_alter_eq. destruct (co_all0 r) as [st a (Hi & Hd)|]; simpl; constructor. unfold push.
  destruct (dieErr st) eqn:E; (split; [done|]); [by rewrite E|]. by rewrite <- Hd.
Qed.

(** The server closes a stream. *)
Lemma client_gone set l s n : client_ok set l s →
  let s1 := set_streams (delete n (streams s)) (all_streams s) s in
  client_ok set (alter_at (end_with Gone) (place n l) l) match streams s !! n with Some r => closeLocally r s1 | None => s1 end.
Proof.
  intros Hs s1. destruct (streams s !! n) as [r|] eqn:Er.
  - destruct (client_place _ _ _ _ _ Hs Er) as (-> & b & Hb). pose proof Er as (-> & _)%(co_map _ _ _ Hs).
    eapply (client_alter set l _ s _ r Gone ErrClosed); try done; [by exists b|apply Hs|apply Hs|].
    simpl. rewrite (view_alter _ (λ a, a)), list_alter_id by (by try (intros [? []] _)). apply (co_says _ _ _ Hs).
  - rewrite (client_no_place _ _ _ _ _ Hs Er). destruct Hs. split; try done. simpl. by rewrite delete_id.
Qed.

Lemma client_synack rnd set l s n msg : client_ok set l s → Z.of_nat (length l) < 2 ^ 32 →
  client_ok set (alter_at (end_with Closed) (place n l) l)
    match streams s !! n with Some r => closeWithError None rnd (RemoteError msg) r s | None => s end.
Proof.
  intros Hs Hl. destruct (streams s !! n) as [r|] eqn:Er.
  - destruct (client_place _ _ _ _ _ Hs Er) as (-> & b & Hb). by apply client_close.
  - by rewrite (client_no_place _ _ _ _ _ Hs Er).
Qed.

Lemma client_beat rnd set l s n : client_ok set l s → 0 ≤ n < 2 ^ 32 →
  ∃ s1, writeControlFrame None rnd (newFrame cmdHeartResponse n) s = (true, s1) ∧ client_ok set l s1.
Proof.
  intros Hs Hn. destruct (client_says rnd set l (map view l) (newFrame cmdHeartResponse n) s Hs) as (s1 & sp & b & pkt & o & -> & _ & -> & Hsay & _);
    [split_and!; simpl; [lia|lia|unfold short; simpl; lia|done]|done|]. eexists. split; [done|]. by apply client_conn.
Qed.

Lemma client_padding md5 set l s d : client_ok set l s → scheme_fits (StringMapFromBytes d) →
  client_ok set l (set_status (streamId s) (died s) (watching s) (UpdatePaddingScheme md5 d (padding s)).2 (peerVersion s) (receivedSettings s) s).
Proof.
  intros Hs Hd. apply client_status; [done|]. unfold UpdatePaddingScheme, NewPaddingFactory. case_bool_decide; [apply Hs|].
  destruct (ParseInt _); [done|apply Hs].
Qed.

Lemma client_frame md5 rnd set l s f : client_ok set l s → Z.of_nat (length l) < 2 ^ 32 → event_ok (EFrame f) →
  ∃ s1, handle_frame md5 None rnd f s = (true, s1) ∧ client_ok set (spec_step (EFrame f) l) s1.
Proof.
  intros Hs Hl (Hc & Hn & Hp). destruct f as [c n d]. simpl in Hc, Hn, Hp. unfold handle_frame, spec_step; cbn [cmd sid data].
  rewrite (co_client _ _ _ Hs).
  destruct (Z.eqb_spec c cmdPSH) as [->|H1]; [cbn [Z.eqb]; destruct (streams s !! n); eexists; (split; [done|]); [by apply client_push|done]|].
  destruct (Z.eqb_spec c cmdSYN) as [->|H2]; [exfalso; apply Hc; left|].
  destruct (Z.eqb_spec c cmdSYNACK) as [->|H3].
  { assert (client_ok set l (set_watching false s)) as Hw by (apply client_status; [done|apply Hs]).
    destruct d as [|x d]; [by eexists|]. pose proof (client_synack rnd set l _ n (x :: d) Hw Hl) as Hk. simpl streams in *.
    destruct (streams s !! n); by eexists. }
  destruct (Z.eqb_spec c cmdFIN) as [->|H4].
  { pose proof (client_gone set l s n Hs) as Hk. destruct (streams s !! n); by eexists. }
  destruct (Z.eqb_spec c cmdWaste) as [->|H5]; [by eexists|].
  destruct (Z.eqb_spec c cmdSettings) as [->|H6]; [destruct d; by eexists|].
  destruct (Z.eqb_spec c cmdAlert) as [->|H7]; [exfalso; apply Hc; right; left|].
  destruct (Z.eqb_spec c cmdUpdatePaddingScheme) as [->|H8].
  { destruct d; [by eexists|]. eexists. split; [done|]. apply client_padding; auto. }
  destruct (Z.eqb_spec c cmdHeartRequest) as [->|H9]; [by apply client_beat|].
  destruct (Z.eqb_spec c cmdServerSettings) as [->|H10]; [|by eexists].
  destruct d; [by eexists|]. destruct (ParseInt _); eexists; (split; [done|]); [|done]. apply client_status; [done|apply Hs].
Qed.

(** ** A run *)

Lemma client_step_ok md5 rnd set l s e : client_ok set l s → event_ok e →
  Z.of_nat (length l) + (if is_open e then 1 else 0) < 2 ^ 32 → client_ok set (spec_step e l) (client_step md5 rnd e s).
Proof.
  intros Hs He Hl. destruct e as [|r d|r|f]; cbn [is_open] in Hl.
  - by apply client_open.
  - apply client_write; [done|lia|done].
  - apply client_close; [done|lia].
  - destruct (client_frame md5 rnd set l s f Hs ltac:(lia) He) as (s1 & Hh & Hs1). cbn [client_step]. by rewrite Hh.
Qed.

Lemma spec_step_length e l : length (spec_step e l) = (length l + if is_open e then 1 else 0)%nat.
Proof.
  destruct e as [|r d|r|f]; simpl; [by rewrite length_app|by rewrite length_alter, Nat.add_0_r..|]. rewrite Nat.add_0_r.
  assert (∀ g o, length (alter_at g o l) = length l) as Ha by (intros g []; [apply length_alter|done]).
  destruct (_ =? _); [by destruct (data f)|]. by destruct (_ =? _).
Qed.

Lemma opens_cons e es : opens (e :: es) = ((if is_open e then 1 else 0) + opens es)%nat.
Proof. by destruct e. Qed.

Lemma client_run_ok md5 rnds set es l s : client_ok set l s → Forall event_ok es →
  Z.of_nat (length l + opens es) < 2 ^ 32 → client_ok set (foldl (λ l e, spec_step e l) l es) (client_run md5 rnds es s).
Proof.
  intros Hs He. revert l s Hs. induction He as [|e es He _ IH]; intros l s Hs Hl; [done|]. rewrite opens_cons in Hl. simpl.
  apply IH; [apply client_step_ok; [done|done|]|rewrite spec_step_length; lia]. destruct (is_open e); lia.
Qed.

Lemma encode_all_length F : (length F ≤ length (encode_all F))%nat.
Proof. induction F as [|f F IH]; [done|]. unfold encode_all in *. simpl. rewrite length_app. lia. Qed.

Lemma settings_short set lines : set = mkFrame cmdSettings 0 (ToBytes lines) → short (ToBytes lines) → frame_ok set.
Proof. intros -> Hl. split_and!; simpl; [lia|lia|done|done]. Qed.

(** A client that has put its settings in its buffer. *)
Lemma client_start rnd p lines : scheme_fits (scheme p) →
  client_ok (mkFrame cmdSettings 0 (ToBytes lines)) [] (Run None rnd lines (NewClientSession p)).
Proof.
  intros Hp. unfold Run, writeControlFrame, conn_write, writeConn. simpl. split; simpl; try done.
  - exists []. split_and!; [|done|done]. unfold output, encode_all. simpl. by rewrite app_nil_r.
  - intros r. rewrite !lookup_nil. constructor.
  - intros n r. split; [done|]. intros (_ & b & Hb). by rewrite lookup_nil in Hb.
Qed.

(** The server reads settings and frames. *)
Lemma server_hears md5 rnds fuel q set v s version md lines :
  newline ∉ bytes version → newline ∉ bytes md → lines ≡ₚ settings version md → short (ToBytes lines) →
  set = mkFrame cmdSettings 0 (ToBytes lines) → says set v s → (length (output s) < fuel)%nat →
  ∃ left s1, reads (recvLoop md5 rnds fuel (NewServerSession q)) (output s) (recvLoop md5 rnds left s1) ∧ server_ok v s1.
Proof.
  intros Hv Hm Hl Hsh Hset (F & Ho & HF & Ha) Hfu. pose proof (settings_ok _ _ _ Hv Hm Hl) as H2.
  rewrite Ho in *. assert (S (length F) ≤ length (encode_all (set :: F)))%nat as Hle by apply (encode_all_length (set :: F)). destruct fuel as [|fuel]; [lia|].
  destruct (server_settings md5 (rnds fuel) q (ToBytes lines) "2") as (s0 & Hh & Hs0); [by intros He; rewrite He in H2|done|done|].
  destruct (server_reads md5 rnds F [] v s0 fuel Hs0 HF Ha ltac:(lia)) as (s1 & Hr & Hs1).
  exists (fuel - length F)%nat, s1. split; [|done]. change (encode_all (set :: F)) with (encode_frame set ++ encode_all F).
  cbn [recvLoop]. change (died (NewServerSession q)) with false. cbv iota.
  eapply reads_app; [apply reads_and_then, read_frame_encode; by eapply settings_short|]. subst set. simpl and_then. by rewrite Hh.
Qed.

Lemma heard_server l : imap heard_stream (map view l) = imap server_stream l.
Proof.
  apply list_eq. intros i. rewrite !list_lookup_imap, list_lookup_fmap. destruct (l !! i) as [[b []]|]; done.
Qed.

Lemma client_run_app md5 rnds es e s :
  client_run md5 rnds (es ++ [e]) s = client_step md5 (rnds 0%nat) e (client_run md5 (λ i, rnds (S i)) es s).
Proof. revert s. induction es as [|e' es IH]; intros s; [done|]. simpl. by rewrite IH, length_app, Nat.add_1_r. Qed.

Lemma spec_run_length es l : length (foldl (λ l e, spec_step e l) l es) = (length l + opens es)%nat.
Proof.
  revert l. induction es as [|e es IH]; intros l; simpl; [unfold opens; simpl; lia|]. rewrite IH, opens_cons, spec_step_length. lia.
Qed.

(** C20: Under every padding scheme whose sizes fit 16 bits, and however the users of
    the client open, write to (at most 65535 bytes at a time) and close fewer than
    2^32 streams while frames come in, other than SYN and Alert and with no padding
    scheme of larger sizes, as long as the writes of the connection do not fail: what
    the client has put out is read by the server, turn by turn, as the settings of
    version 2 and then the streams that were opened, in their order and under their
    numbers, each with the bytes written to it, and closed when it was closed here.
    After a write to an open stream nothing is held back in the buffer. *)
Theorem anytls_transparent md5 rnd0 rnds server_rnds fuel version p q lines es :
  newline ∉ bytes version → newline ∉ bytes (Md5 p) → lines ≡ₚ settings version (Md5 p) → short (ToBytes lines) →
  scheme_fits (scheme p) → Forall event_ok es → Z.of_nat (opens es) < 2 ^ 32 →
  let c := client_run md5 rnds es (Run None rnd0 lines (NewClientSession p)) in
  (length (sent c ++ buffer c) < fuel)%nat →
  died c = false ∧
  (∃ left s, reads (recvLoop md5 server_rnds fuel (NewServerSession q)) (sent c ++ buffer c) (recvLoop md5 server_rnds left s) ∧
    died s = false ∧ peerVersion s = 2 ∧ all_streams s = imap server_stream (spec_run es) ∧
    ∀ n r, streams s !! n = Some r ↔ n = Z.of_nat r + 1 ∧ ∃ a, spec_run es !! r = Some a ∧ fate_of a ≠ Closed) ∧
  (∀ es' r d, es = es' ++ [EWrite r d] → (∃ b, spec_run es' !! r = Some (mkA b Open)) → buffer c = []).
Proof.
  intros Hv Hm Hl Hsh Hp He Ho c Hfu. pose proof (client_start rnd0 p lines Hp) as Hs.
  assert (client_ok (mkFrame cmdSettings 0 (ToBytes lines)) (spec_run es) c) as Hc by (apply client_run_ok; [done..|simpl; lia]).
  split_and!; [apply Hc| |].
  - destruct (server_hears md5 server_rnds fuel q _ _ c _ _ lines Hv Hm Hl Hsh eq_refl (co_says _ _ _ Hc) Hfu) as (left & s & Hr & Hd).
    exists left, s. destruct Hd as [Hd _ _ Hpv Ha Hmap]. split_and!; [done..|by rewrite Ha, heard_server|].
    intros n r. rewrite Hmap, list_lookup_fmap. split; intros (-> & b & Hb); (split; [done|]).
    + destruct (spec_run es !! r) as [[b' []]|]; simplify_eq/=; by eexists.
    + destruct Hb as [-> Hb]. exists (written b). simpl. unfold view. by destruct (fate_of b).
  - intros es' r d -> Hr. apply Forall_app in He as (He' & He2). inversion_clear He2 as [|? ? Hd _].
    assert (opens (es' ++ [EWrite r d]) = opens es') as Hoe by (unfold opens; by rewrite filter_app, app_nil_r).
    unfold c. rewrite client_run_app. cbn [client_step]. rewrite Hoe in Ho.
    eapply client_write; [apply (client_run_ok md5 (λ i, rnds (S i)) _ es' [] _ Hs He'); simpl; lia| |done|done].
    rewrite spec_run_length. simpl. lia.
Qed.

(** A write of more than 65535 bytes: [writeDataFrame] keeps the low bits of its
    length, and what is beyond them is read as frames. *)
Lemma long_write_unframed n d : Z.of_nat (length d) `mod` 65536 = 0 →
  encode_frame (mkFrame cmdPSH n d) = encode_frame (mkFrame cmdPSH n []) ++ d.
Proof.
  intros Hd. unfold encode_frame. simpl cmd. simpl sid. simpl data. assert (@wrap uint16 (Z.of_nat (length d)) = 0) as ->
    by (unfold wrap, tmin; simpl; by rewrite Z.sub_0_r, Z.add_0_r).
  by rewrite <- !app_assoc.
Qed.

(** ** The start of a connection: [client.go], [listener/anytls/server.go]

    What the client sends before its session, [hash] being the SHA-256 of its
    password. *)
Definition client_head (hash : list Z) (rnd : nat → Z) (p : PaddingFactory) : list Z :=
  let paddingLen := match GenerateRecordPayloadSizes rnd p 0 with l :: _ => l | [] => 0 end in
  hash ++ be_bytes 2 (@wrap uint16 paddingLen) ++ if 0 <? paddingLen then replicate (Z.to_nat paddingLen) 0 else [].

(** [HandleConn] until the session: the user, and what is left of [b], which is what
    its one read gave. *)
Definition HandleConn (userMap : gmap (list Z) string) (b : list Z) : option (string * list Z) :=
  if (length b <? 32)%nat then None
  else
    user ← userMap !! take 32 b;
    let b1 := drop 32 b in
    if (length b1 <? 2)%nat then None
    else
      let paddingLen := Z.to_nat (from_be (take 2 b1)) in
      let b2 := drop 2 b1 in
      if (length b2 <? paddingLen)%nat then None else Some (user, drop paddingLen b2).

(** The users of the configuration. *)
Definition userMap_of (sha256 : string → list Z) (users : list (string * string)) : gmap (list Z) string :=
  foldl (λ m up, <[sha256 up.2 := up.1]> m) ∅ users.

Lemma head_accepted hash rnd p m rest : length hash = 32%nat → scheme_fits (scheme p) → CheckMark ∉ GenerateRecordPayloadSizes rnd p 0 →
  HandleConn m (client_head hash rnd p ++ rest) = (λ user, (user, rest)) <$> m !! hash.
Proof.
  intros Hh Hf Hc. pose proof (sizes_ok rnd p 0 Hf) as Hs. unfold client_head.
  set (n := match GenerateRecordPayloadSizes rnd p 0 with l :: _ => l | [] => 0 end).
  assert (0 ≤ n ≤ 65535) as Hn.
  { unfold n. destruct (GenerateRecordPayloadSizes rnd p 0) as [|l ls]; [lia|]. inversion_clear Hs as [|? ? [->|Hl] _]; [|lia].
    exfalso. apply Hc. left. }
  clearbody n. rewrite (@wrap_id uint16) by int_lia.
  assert ((if 0 <? n then replicate (Z.to_nat n) 0 else []) = replicate (Z.to_nat n) 0) as ->
    by (destruct (Z.ltb_spec 0 n); [done|by replace n with 0 by lia]).
  unfold HandleConn. rewrite <- !app_assoc, take_app_length', drop_app_length' by done.
  destruct (Nat.ltb_spec (length (hash ++ be_bytes 2 n ++ replicate (Z.to_nat n) 0 ++ rest)) 32) as [Hl|_]; [rewrite length_app in Hl; lia|].
  destruct (m !! hash) as [user|]; [|done]. cbn [mbind option_bind option_fmap option_map fmap].
  destruct (Nat.ltb_spec (length (be_bytes 2 n ++ replicate (Z.to_nat n) 0 ++ rest)) 2) as [Hl|_]; [rewrite length_app, be_bytes_length in Hl; lia|].
  rewrite take_app_length', drop_app_length' by (by rewrite be_bytes_length). rewrite from_be_id by (change (256 ^ Z.of_nat 2) with 65536; lia).
  destruct (Nat.ltb_spec (length (replicate (Z.to_nat n) 0 ++ rest)) (Z.to_nat n)) as [Hl|_]; [rewrite length_app, length_replicate in Hl; lia|].
  by rewrite drop_app_length' by (by rewrite length_replicate).
Qed.

(** Nothing is accepted but under the key of a user. *)
Lemma head_authenticated m b user rest : HandleConn m b = Some (user, rest) → m !! take 32 b = Some user.
Proof.
  unfold HandleConn. destruct (_ <? 32)%nat; [done|]. destruct (m !! take 32 b) as [u|]; [|done]. simpl.
  destruct (_ <? 2)%nat; [done|]. destruct (_ <? _)%nat; [done|]. by intros [= <- _].
Qed.

Lemma HandleConn_length m b user rest : HandleConn m b = Some (user, rest) →
  (length b = 34 + Z.to_nat (from_be (take 2 (drop 32 b))) + length rest)%nat.
Proof.
  unfold HandleConn. destruct (Nat.ltb_spec (length b) 32) as [|H1]; [done|]. destruct (m !! take 32 b); [|done]. cbn [mbind option_bind].
  destruct (Nat.ltb_spec (length (drop 32 b)) 2) as [|H2]; [done|]. 
  destruct (Nat.ltb_spec (length (drop 2 (drop 32 b))) (Z.to_nat (from_be (take 2 (drop 32 b))))) as [|H3]; [done|].
  intros [= _ <-]. rewrite !length_drop in *. lia.
Qed.

(** The listener reads once: a head of which the first read gives only a part
    is refused, under any key. *)
Lemma head_in_parts_refused hash rnd p m k : length hash = 32%nat → scheme_fits (scheme p) → CheckMark ∉ GenerateRecordPayloadSizes rnd p 0 →
  (k < length (client_head hash rnd p))%nat → HandleConn m (take k (client_head hash rnd p)) = None.
Proof.
  intros Hh Hf Hc Hk. destruct (HandleConn m (take k (client_head hash rnd p))) as [[user rest]|] eqn:E; [|done]. exfalso.
  pose proof (head_accepted hash rnd p (<[hash := user]> m) [] Hh Hf Hc) as Ha. rewrite app_nil_r, lookup_insert_eq in Ha.
  apply HandleConn_length in Ha, E. set (h := client_head hash rnd p) in *. simpl in Ha. rewrite length_take, Nat.min_l in E by lia.
  rewrite skipn_firstn_comm, take_take, Nat.min_l in E by lia. lia.
Qed.

(** ** An example

    Two streams under the default padding: the server closes the second, the client
    the first. *)
Definition example_md5 (_ : list Z) : string := "0f".

Definition example_padding : PaddingFactory :=
  default (mkPadding ∅ [] 0 "") (NewPaddingFactory example_md5 DefaultPaddingScheme).

Definition example_events : list event :=
  [EOpen; EWrite 0 (str_bytes "hello"); EOpen; EFrame (mkFrame cmdServerSettings 0 (str_bytes "v=2")); EFrame (newFrame cmdSYNACK 1);
   EWrite 1 (str_bytes "GET"); EFrame (newFrame cmdFIN 2); EWrite 0 (str_bytes " world"); EWrite 1 (str_bytes "lost"); EClose 0].

Definition example_lines : list (string * string) := settings "v1.19" "0f".

Lemma default_fits : scheme_fits (scheme example_padding).
Proof. apply (bool_decide_unpack (scheme_fits (scheme example_padding))). vm_compute. exact I. Qed.

Lemma example_key : Md5 example_padding = "0f"%string.
Proof. vm_compute. reflexivity. Qed.

Lemma example_ok : Forall event_ok example_events.
Proof.
  assert (∀ c n d, bool_decide (c ∉ [cmdSYN; cmdAlert; cmdUpdatePaddingScheme]) = true → 0 ≤ n < 2 ^ 32 → event_ok (EFrame (mkFrame c n d))) as Hf.
  { intros c n d Hc%bool_decide_eq_true_1 Hn. simpl. split_and!; [set_solver|lia|lia|]. intros ->. exfalso. apply Hc. do 2 right. left. }
  repeat (constructor; [first [exact I|apply Hf; [reflexivity|simpl; lia]|unfold event_ok, short; simpl; lia]|]). constructor.
Qed.

Lemma anytls_transparent_witness :
  let rnds (_ _ : nat) := 0 in let c := client_run example_md5 rnds example_events (Run None (λ _, 0) example_lines (NewClientSession example_padding)) in
  ∃ left s, reads (recvLoop example_md5 rnds (S (length (sent c ++ buffer c))) (NewServerSession example_padding)) (sent c ++ buffer c)
      (recvLoop example_md5 rnds left s) ∧
    all_streams s = [mkStream 1 (Some ErrClosed) false (str_bytes "hello world"); mkStream 2 None false (str_bytes "GET")].
Proof.
  intros rnds c.
  destruct (anytls_transparent example_md5 (λ _, 0) rnds rnds (S (length (sent c ++ buffer c))) "v1.19" example_padding example_padding example_lines example_events)
    as (_ & (left & s & Hr & _ & _ & Ha & _) & _).
  - by apply (bool_decide_unpack (newline ∉ bytes "v1.19")).
  - rewrite example_key. by apply (bool_decide_unpack (newline ∉ bytes "0f")).
  - by rewrite example_key.
  - unfold short. vm_compute. discriminate.
  - apply default_fits.
  - apply example_ok.
  - vm_compute. reflexivity.
  - apply Nat.lt_succ_diag_r.
  - exists left, s. split; [exact Hr|]. rewrite Ha. reflexivity.
Defined.
