(* ===== verification/Skiplist.v ===== *)
(** * Skip lists: [transport/anytls/skiplist]

    The ordered map in which an AnyTLS client keeps its idle sessions, as the
    code has it: nodes with arrays of pointers, here addresses in a heap, and a head
    with a pointer for every level.  A search walks each level from the top as far
    as the keys are smaller and goes down.  The keys are those of the one use,
    unsigned integers; the functions for other orders ([NewSkipListFunc]) have no
    user.  The random number of an insertion is an argument.

    An operation is [None] where the code would panic, by an index or a nil pointer,
    and where the fuel of a walk, the number of nodes and one more, does not do:
    [skiplist_refines_map] says that neither happens and that the list is the
    sorted list of what was inserted and not removed. *)

From Stdlib Require Import ZArith Lia.
From stdpp Require Import prelude gmap list sorting.
From S2P Require Import Prelude.

Section skiplist.
Context {V : Type}.

Record skipListNode := mkNode { key : Z; value : V; next : list (option nat) }.

(** [head] is [sl.head.next]; [heap] has the nodes. *)
Record SkipList := mkList { level : nat; len : nat; head : list (option nat); heap : gmap nat skipListNode }.

Definition skipListMaxLevel : nat := 40.

(** A node, or the head. *)
Abbreviation place := (option nat).

Definition nexts (s : SkipList) (p : place) : option (list (option nat)) :=
  match p with None => Some (head s) | Some a => next <$> heap s !! a end.

(** [p.next[i]], and its assignment. *)
Definition next_at (s : SkipList) (p : place) (i : nat) : option (option nat) := nexts s p ≫= λ l, l !! i.

Definition set_next (p : place) (i : nat) (q : option nat) (s : SkipList) : option SkipList :=
  l ← nexts s p;
  if (i <? length l)%nat then
    Some match p with
    | None => mkList (level s) (len s) (<[i := q]> l) (heap s)
    | Some a => mkList (level s) (len s) (head s) (alter (λ n, mkNode (key n) (value n) (<[i := q]> l)) a (heap s))
    end
  else None.

Definition NewSkipList : SkipList := mkList 1 0 (replicate skipListMaxLevel None) ∅.

Definition IsEmpty (s : SkipList) : bool := Nat.eqb (len s) 0.

Definition Clear (s : SkipList) : SkipList := mkList 1 0 (replicate (length (head s)) None) ∅.

(** ** Searching

    One level, for [doFindNode] and [findInsertPoint]: the node of the key, or the last
    place before it. *)
Fixpoint walk (fuel : nat) (s : SkipList) (i : nat) (k : Z) (prev : place) : option (nat + place) :=
  match fuel with
  | O => None
  | S fuel' =>
    cur ← next_at s prev i;
    match cur with
    | None => Some (inr prev)
    | Some c =>
      n ← heap s !! c;
      if (key n =? k)%Z then Some (inl c) else if (k <? key n)%Z then Some (inr prev) else walk fuel' s i k (Some c)
    end
  end.

(** One level, for [findPrevNodes]. *)
Fixpoint walk_prev (fuel : nat) (s : SkipList) (i : nat) (k : Z) (prev : place) : option place :=
  match fuel with
  | O => None
  | S fuel' =>
    cur ← next_at s prev i;
    match cur with
    | None => Some prev
    | Some c => n ← heap s !! c; if (k <=? key n)%Z then Some prev else walk_prev fuel' s i k (Some c)
    end
  end.

(** The levels below [i]. *)
Fixpoint search (s : SkipList) (k : Z) (i : nat) (prev : place) : option (nat + place) :=
  match i with
  | O => Some (inr prev)
  | S i' =>
    r ← walk (S (len s)) s i' k prev;
    match r with inl c => Some (inl c) | inr p => search s k i' p end
  end.

Definition doFindNode (k : Z) (eq : bool) (s : SkipList) : option (option nat) :=
  r ← search s k (level s) None;
  match r with
  | inl c => Some (Some c)
  | inr p => if eq then Some None else next_at s p 0
  end.

Definition findNode (k : Z) (s : SkipList) : option (option nat) := doFindNode k true s.

Definition lowerBound (k : Z) (s : SkipList) : option (option nat) := doFindNode k false s.

Definition upperBound (k : Z) (s : SkipList) : option (option nat) :=
  node ← lowerBound k s;
  match node with
  | None => Some None
  | Some c => n ← heap s !! c; if (key n =? k)%Z then next_at s (Some c) 0 else Some (Some c)
  end.

(** The node, or the places before it of all levels below [i]. *)
Fixpoint insert_point (s : SkipList) (k : Z) (i : nat) (prev : place) : option (nat + list place) :=
  match i with
  | O => Some (inr [])
  | S i' =>
    r ← walk (S (len s)) s i' k prev;
    match r with
    | inl c => Some (inl c)
    | inr p => q ← insert_point s k i' p; Some match q with inl c => inl c | inr ps => inr (ps ++ [p]) end
    end
  end.

Definition findInsertPoint (k : Z) (s : SkipList) : option (nat + list place) := insert_point s k (level s) None.

Fixpoint prev_nodes (s : SkipList) (k : Z) (i : nat) (prev : place) : option (list place) :=
  match i with
  | O => Some []
  | S i' => p ← walk_prev (S (len s)) s i' k prev; ps ← prev_nodes s k i' p; Some (ps ++ [p])
  end.

Definition findPrevNodes (k : Z) (s : SkipList) : option (list place) := prev_nodes s k (level s) None.

Definition findRemovePoint (k : Z) (s : SkipList) : option (option (nat * list place)) :=
  prevs ← findPrevNodes k s;
  p0 ← prevs !! 0%nat;
  node ← next_at s p0 0;
  match node with
  | None => Some None
  | Some c => n ← heap s !! c; Some (if (key n =? k)%Z then Some (c, prevs) else None)
  end.

(** [Find]: the value. *)
Definition Find (k : Z) (s : SkipList) : option (option V) :=
  r ← findNode k s; match r with None => Some None | Some c => n ← heap s !! c; Some (Some (value n)) end.

Definition Has (k : Z) (s : SkipList) : option bool := r ← findNode k s; Some (bool_decide (is_Some r)).

(** ** Changing *)

(** [bits.Len64]. *)
Definition Len64 (z : Z) : nat := if (z <=? 0)%Z then 0 else Z.to_nat (Z.log2 z + 1).

Fixpoint limit_level (l len : nat) : nat :=
  match l with
  | O => O
  | S l' => if (3 <? l)%nat && (Z.of_nat len <? Z.shiftl 1 (Z.of_nat l - 3))%Z then limit_level l' len else l
  end.

(** [r] is what the generator gives. *)
Definition randomLevel (r : Z) (s : SkipList) : nat :=
  let total := (Z.shiftl 1 (Z.of_nat skipListMaxLevel) - 1)%Z in
  limit_level (skipListMaxLevel - Len64 (r `mod` total) + 1) (len s).

Definition newSkipListNode (l : nat) (k : Z) (v : V) : option skipListNode :=
  if (1 <=? l)%nat && (l <=? 40)%nat then Some (mkNode k v (replicate l None)) else None.

(** The new node [a] between [prevs[i]] and what follows, for the levels [i] on. *)
Fixpoint link_levels (a : nat) (prevs : list place) (i : nat) (s : SkipList) : option SkipList :=
  match prevs with
  | [] => Some s
  | p :: prevs' =>
    q ← next_at s p i; s1 ← set_next (Some a) i q s; s2 ← set_next p i (Some a) s1;
    link_levels a prevs' (S i) s2
  end.

(** [n] levels of the head from [i] on. *)
Fixpoint raise_head (a : nat) (n i : nat) (s : SkipList) : option SkipList :=
  match n with O => Some s | S n' => s1 ← set_next None i (Some a) s; raise_head a n' (S i) s1 end.

Definition Insert (r : Z) (k : Z) (v : V) (s : SkipList) : option SkipList :=
  q ← findInsertPoint k s;
  match q with
  | inl c => Some (mkList (level s) (len s) (head s) (alter (λ n, mkNode (key n) v (next n)) c (heap s)))
  | inr prevs =>
    let l := randomLevel r s in
    n ← newSkipListNode l k v;
    let a := fresh (dom (heap s)) in
    let minLevel := if (level s <? l)%nat then level s else l in
    s1 ← link_levels a (take minLevel prevs) 0 (mkList (level s) (len s) (head s) (<[a := n]> (heap s)));
    s2 ← if (level s <? l)%nat then raise_head a (l - level s) (level s) s1 else Some s1;
    Some (mkList (if (level s <? l)%nat then l else level s) (S (len s2)) (head s2) (heap s2))
  end.

(** [prevs[i].next[i] = v] for the pointers [vs] of the removed node. *)
Fixpoint unlink_levels (vs : list (option nat)) (prevs : list place) (i : nat) (s : SkipList) : option SkipList :=
  match vs with
  | [] => Some s
  | v :: vs' => p ← prevs !! i; s1 ← set_next p i v s; unlink_levels vs' prevs (S i) s1
  end.

Fixpoint lower_level (l : nat) (hd : list (option nat)) : option nat :=
  match l with
  | O => Some O
  | S l' => if (1 <? l)%nat then q ← hd !! l'; match q with None => lower_level l' hd | Some _ => Some l end else Some l
  end.

(** The removed node is garbage. *)
Definition Remove (k : Z) (s : SkipList) : option (bool * SkipList) :=
  r ← findRemovePoint k s;
  match r with
  | None => Some (false, s)
  | Some (c, prevs) =>
    n ← heap s !! c;
    s1 ← unlink_levels (next n) prevs 0 s;
    l ← lower_level (level s1) (head s1);
    Some (true, mkList l (pred (len s1)) (head s1) (delete c (heap s1)))
  end.

(** ** Iteration: [ForEach], and the iterators, which are nodes *)

Fixpoint collect (fuel : nat) (s : SkipList) (e : option nat) : option (list (Z * V)) :=
  match e with
  | None => Some []
  | Some c =>
    match fuel with
    | O => None
    | S fuel' => n ← heap s !! c; e' ← next_at s (Some c) 0; l ← collect fuel' s e'; Some ((key n, value n) :: l)
    end
  end.

Definition ForEach (s : SkipList) : option (list (Z * V)) := e ← next_at s None 0; collect (len s) s e.

Definition Iterate (s : SkipList) : option (option nat) := next_at s None 0.

Definition MoveToNext (c : nat) (s : SkipList) : option (option nat) := next_at s (Some c) 0.

(** ** The specification: a list with increasing keys *)

Fixpoint put (k : Z) (v : V) (l : list (Z * V)) : list (Z * V) :=
  match l with
  | [] => [(k, v)]
  | kv :: l' => if (k <? kv.1)%Z then (k, v) :: l else if (k =? kv.1)%Z then (k, v) :: l' else kv :: put k v l'
  end.

Definition del (k : Z) (l : list (Z * V)) : list (Z * V) := filter (λ kv, kv.1 ≠ k) l.

Fixpoint at_key (k : Z) (l : list (Z * V)) : option V :=
  match l with [] => None | kv :: l' => if (kv.1 =? k)%Z then Some kv.2 else at_key k l' end.

(** ** What a state represents

    The nodes in their order: address, key, value, number of pointers, and the levels in
    which they are reached.  All levels of a node, but while it is put in or taken out. *)
Record item := mkItem { ad : nat; i_key : Z; i_val : V; height : nat; seen : nat → bool }.

(** The first node that is reached in level [i], and the last place. *)
Fixpoint first (i : nat) (l : list item) : option nat :=
  match l with [] => None | x :: l' => if seen x i then Some (ad x) else first i l' end.

Fixpoint lastp (i : nat) (l : list item) : place :=
  match l with
  | [] => None
  | x :: l' => match lastp i l' with Some a => Some a | None => if seen x i then Some (ad x) else None end
  end.

Definition node_ok (s : SkipList) (x : item) : Prop :=
  (∀ i, seen x i = true → i < height x) ∧
  ∃ n, heap s !! ad x = Some n ∧ key n = i_key x ∧ value n = i_val x ∧ length (next n) = height x.

Fixpoint linked (s : SkipList) (l : list item) : Prop :=
  match l with
  | [] => True
  | x :: l' => node_ok s x ∧ (∀ i, seen x i = true → next_at s (Some (ad x)) i = Some (first i l')) ∧ linked s l'
  end.

Definition headed (s : SkipList) (l : list item) : Prop :=
  length (head s) = skipListMaxLevel ∧ ∀ i, i < skipListMaxLevel → next_at s None i = Some (first i l).

(** The nodes of the heap, all reachable: the pointers are right. *)
Record shape (l : list item) (s : SkipList) : Prop := {
  sh_head : headed s l;
  sh_linked : linked s l;
  sh_nodup : NoDup (map ad l);
  sh_heap : ∀ a, is_Some (heap s !! a) ↔ a ∈ map ad l }.

(** A state between operations. *)
Definition full (x : item) : Prop := ∀ i, seen x i = (i <? height x).

Record rep (l : list item) (s : SkipList) : Prop := {
  rp_shape : shape l s;
  rp_full : Forall full l;
  rp_high : Forall (λ x, 1 ≤ height x ≤ level s) l;
  rp_sorted : StronglySorted Z.lt (map i_key l);
  rp_level : 1 ≤ level s ≤ skipListMaxLevel;
  rp_len : len s = length l }.

(** ** Pointers *)

Lemma first_app i l k : first i (l ++ k) = match first i l with Some a => Some a | None => first i k end.
Proof. induction l as [|x l IH]; simpl; [done|]. by destruct (seen x i). Qed.

Lemma lastp_app i l k : lastp i (l ++ k) = match lastp i k with Some a => Some a | None => lastp i l end.
Proof. induction l as [|x l IH]; simpl; [by destruct (lastp i k)|]. rewrite IH. by destruct (lastp i k). Qed.

Lemma first_lastp i l : first i l = None ↔ lastp i l = None.
Proof. induction l as [|x l IH]; simpl; [done|]. destruct (seen x i); [by destruct (lastp i l)|]. rewrite IH. by destruct (lastp i l). Qed.

Lemma lastp_in i l a : lastp i l = Some a → a ∈ map ad l.
Proof.
  induction l as [|x l IH]; simpl; [done|]. destruct (lastp i l) as [b|].
  - intros [= <-]. right. by apply IH.
  - destruct (seen x i); [|done]. intros [= <-]. left.
Qed.

(** The last node of a level: those after it are not reached in it. *)
Lemma lastp_split i l a : lastp i l = Some a → ∃ l1 x l2, l = l1 ++ x :: l2 ∧ ad x = a ∧ seen x i = true ∧ first i l2 = None.
Proof.
  induction l as [|x l IH]; simpl; [done|]. destruct (lastp i l) as [b|] eqn:E.
  - intros [= ->]. destruct IH as (l1 & y & l2 & -> & ?); [done|]. exists (x :: l1), y, l2. done.
  - destruct (seen x i) eqn:Ex; [|done]. intros [= <-]. exists [], x, l. rewrite first_lastp. done.
Qed.

Lemma linked_app s l k : linked s (l ++ k) → linked s k.
Proof. induction l as [|x l IH]; simpl; [done|]. naive_solver. Qed.

Lemma linked_node s l x k : linked s (l ++ x :: k) → node_ok s x ∧ ∀ i, seen x i = true → next_at s (Some (ad x)) i = Some (first i k).
Proof. intros H%linked_app. simpl in H. naive_solver. Qed.

(** What follows the last place before [k]. *)
Lemma next_lastp l k s i : shape (l ++ k) s → i < skipListMaxLevel → next_at s (lastp i l) i = Some (first i k).
Proof.
  intros [Hh Hl _ _] Hi. destruct (lastp i l) as [a|] eqn:E.
  - destruct (lastp_split _ _ _ E) as (l1 & x & l2 & -> & <- & Hx & Hf). rewrite <- app_assoc in Hl. simpl in Hl.
    apply linked_node in Hl as [_ Hn]. by rewrite Hn, first_app, Hf.
  - destruct Hh as [_ Hh]. rewrite Hh, first_app by done. apply first_lastp in E. by rewrite E.
Qed.

Lemma nexts_length s p i q : next_at s p i = Some q → ∃ l, nexts s p = Some l ∧ i < length l.
Proof. unfold next_at. destruct (nexts s p) as [l|]; [|done]. simpl. intros H%lookup_lt_Some. by exists l. Qed.

(** An assignment changes one pointer. *)
Record assigned (p : place) (i : nat) (q : option nat) (s s1 : SkipList) : Prop := {
  as_next : ∀ p' j, next_at s1 p' j = if decide (p' = p ∧ j = i) then Some q else next_at s p' j;
  as_node : ∀ x, node_ok s x → node_ok s1 x;
  as_dom : ∀ a, is_Some (heap s1 !! a) ↔ is_Some (heap s !! a);
  as_head : length (head s1) = length (head s);
  as_rest : level s1 = level s ∧ len s1 = len s }.

Lemma set_next_assigned p i q s l : nexts s p = Some l → i < length l → ∃ s1, set_next p i q s = Some s1 ∧ assigned p i q s s1.
Proof.
  intros Hl Hi. unfold set_next. rewrite Hl. simpl. rewrite (proj2 (Nat.ltb_lt _ _) Hi). eexists. split; [done|].
  destruct p as [a|]; simpl in *.
  - destruct (heap s !! a) as [n|] eqn:En; [|done]. injection Hl as Hl. split; cbn [head heap level len]; try done.
    + intros p' j. unfold next_at, nexts; cbn [head heap]. destruct p' as [b|]; [|by rewrite decide_False by naive_solver].
      destruct (decide (b = a)) as [->|Hne]; [rewrite lookup_alter_eq, En|rewrite lookup_alter_ne, decide_False by naive_solver; done].
      cbn [fmap option_fmap option_map next mbind option_bind].
      destruct (decide (j = i)) as [->|Hj]; [by rewrite decide_True, list_lookup_insert_eq by done|].
      rewrite decide_False by naive_solver. by rewrite list_lookup_insert_ne, Hl by done.
    + intros x (Hs & m & Hm & Hk & Hv & Hlen). split; [done|]. cbn [heap]. destruct (decide (ad x = a)) as [He|Hne].
      * rewrite He in *. exists (mkNode (key m) (value m) (<[i := q]> l)). rewrite lookup_alter_eq, Hm. simpl. rewrite length_insert. rewrite En in Hm. injection Hm as <-. by subst l.
      * exists m. by rewrite lookup_alter_ne.
    + intros b. destruct (decide (a = b)) as [->|Hne]; [rewrite lookup_alter_eq; by rewrite fmap_is_Some|by rewrite lookup_alter_ne].
  - injection Hl as <-. split; cbn [head heap level len]; try done.
    + intros p' j. unfold next_at, nexts; cbn [head heap]. destruct p' as [b|]; [by rewrite decide_False by naive_solver|].
      cbn [mbind option_bind].
      destruct (decide (j = i)) as [->|Hj]; [by rewrite decide_True, list_lookup_insert_eq by done|].
      rewrite decide_False by naive_solver. by rewrite list_lookup_insert_ne by done.
    + by rewrite length_insert.
Qed.

(** ** Putting a node into a level and taking it out *)

Lemma ad_inj l x y : NoDup (map ad l) → x ∈ l → y ∈ l → ad x = ad y → x = y.
Proof.
  induction l as [|z l IH]; simpl; [intros _ Hx; by apply not_elem_of_nil in Hx|].
  intros [Hz Hn]%NoDup_cons [->|Hx]%elem_of_cons [->|Hy]%elem_of_cons He; [done| | |by apply IH].
  - exfalso. apply Hz. rewrite He. by apply list_elem_of_fmap_2.
  - exfalso. apply Hz. rewrite <- He. by apply list_elem_of_fmap_2.
Qed.

Lemma linked_frame s s1 l : linked s l → (∀ x, node_ok s x → node_ok s1 x) →
  (∀ x j, x ∈ l → seen x j = true → next_at s1 (Some (ad x)) j = next_at s (Some (ad x)) j) → linked s1 l.
Proof.
  induction l as [|x l IH]; simpl; [done|]. intros (Hx & Hn & Hl) Hok Hf. split_and!; [by apply Hok| |].
  - intros i Hi. rewrite Hf by (done || left). by apply Hn.
  - apply IH; [done|done|]. intros y j Hy. apply Hf. by right.
Qed.

Lemma shape_mid_fresh l x k s : shape (l ++ x :: k) s → ad x ∉ map ad l ∧ ad x ∉ map ad k.
Proof.
  intros [_ _ Hn _]. rewrite map_app, NoDup_app in Hn. simpl in Hn. rewrite NoDup_cons in Hn. destruct Hn as (_ & Hd & Hk & _).
  split; [|done]. intros Hx. eapply Hd; [done|]. left.
Qed.

(** The pointer of level [i] to what is from [m1] on, set to what is from [m2] on. *)
Lemma repoint l m1 m2 i s s1 :
  linked s (l ++ m1) → headed s (l ++ m1) → NoDup (map ad l) → assigned (lastp i l) i (first i m2) s s1 →
  (∀ j, j ≠ i → first j m1 = first j m2) → linked s1 m2 → linked s1 (l ++ m2) ∧ headed s1 (l ++ m2).
Proof.
  intros Hl Hh Hn [Hnx Hok _ Hlen _] Hj Hm. split.
  - cut (∀ c b, l = b ++ c → linked s (c ++ m1) → linked s1 (c ++ m2)); [intros H; by apply (H l [])|].
    induction c as [|y c IH]; intros b Hb Hc; [done|]. simpl in *. destruct Hc as (Hy & Hp & Hc).
    split_and!; [by apply Hok| |apply (IH (b ++ [y])); [by rewrite <- app_assoc|done]].
    intros j Hs. rewrite Hnx. destruct (decide (j = i)) as [->|Hne].
    + rewrite first_app. assert (lastp i l = match lastp i c with Some a => Some a | None => Some (ad y) end) as Hla
        by (rewrite Hb, lastp_app; simpl; rewrite Hs; by destruct (lastp i c)).
      rewrite Hla. destruct (lastp i c) as [a|] eqn:Ec.
      * rewrite decide_False; [rewrite Hp by done; rewrite first_app; by destruct (first i c) eqn:Ef; [|apply first_lastp in Ef; congruence]|].
        intros ([= <-] & _). apply lastp_in in Ec. rewrite Hb, map_app, NoDup_app in Hn. simpl in Hn. rewrite NoDup_cons in Hn. naive_solver.
      * rewrite decide_True by done. apply first_lastp in Ec. by rewrite Ec.
    + rewrite decide_False by naive_solver. rewrite Hp by done. rewrite !first_app. by rewrite (Hj j).
  - destruct Hh as [Hh1 Hh2]. split; [by rewrite Hlen|]. intros j Hjm. rewrite Hnx. rewrite first_app.
    destruct (decide (j = i)) as [->|Hne].
    + destruct (lastp i l) as [a|] eqn:El.
      * rewrite decide_False by naive_solver. rewrite Hh2, first_app by done. destruct (first i l) eqn:Ef; [done|]. apply first_lastp in Ef. congruence.
      * rewrite decide_True by done. apply first_lastp in El. by rewrite El.
    + rewrite decide_False by naive_solver. rewrite Hh2, first_app by done. by rewrite (Hj j).
Qed.

Definition see (b : bool) (i : nat) (x : item) : item :=
  mkItem (ad x) (i_key x) (i_val x) (height x) (λ j, if (j =? i) then b else seen x j).

Lemma see_ok b i x s : i < height x → node_ok s x → node_ok s (see b i x).
Proof. intros Hi (Hs & H). split; [|done]. simpl. intros j. destruct (Nat.eqb_spec j i) as [->|]; [done|apply Hs]. Qed.

Lemma first_see b i j x l : j ≠ i → first j (x :: l) = first j (see b i x :: l).
Proof. intros Hj. simpl. by rewrite (proj2 (Nat.eqb_neq j i) Hj). Qed.

Lemma map_ad_see b i l x k : map ad (l ++ see b i x :: k) = map ad (l ++ x :: k).
Proof. by rewrite !map_app. Qed.

(** An assignment to a pointer that is not used. *)
Lemma shape_unseen l x k i q s s1 : shape (l ++ x :: k) s → seen x i = false → assigned (Some (ad x)) i q s s1 → shape (l ++ x :: k) s1.
Proof.
  intros Hs Hx [Hnx Hok Hd Hlen _]. pose proof Hs as [[Hh1 Hh2] Hl Hn Hp]. split; [|..|done|].
  - split; [by rewrite Hlen|]. intros j Hj. rewrite Hnx, decide_False by naive_solver. by apply Hh2.
  - eapply linked_frame; [done|done|]. intros y j Hy Hsy. rewrite Hnx, decide_False; [done|]. intros ([= He] & ->).
    assert (y = x) as -> by (eapply ad_inj; [done..| |done]; apply elem_of_app; right; left). congruence.
  - intros a. by rewrite Hd.
Qed.

Lemma shape_connect l x k i s :
  shape (l ++ x :: k) s → i < height x → i < skipListMaxLevel → seen x i = false → next_at s (Some (ad x)) i = Some (first i k) →
  ∃ s1, set_next (lastp i l) i (Some (ad x)) s = Some s1 ∧ shape (l ++ see true i x :: k) s1 ∧ level s1 = level s ∧ len s1 = len s ∧
    ∀ j, next_at s1 (Some (ad x)) j = next_at s (Some (ad x)) j.
Proof.
  intros Hs Hi Hm Hx Hown. destruct (nexts_length _ _ _ _ (next_lastp _ _ _ _ Hs Hm)) as (ns & Hns & Hli).
  destruct (set_next_assigned (lastp i l) i (Some (ad x)) s ns Hns Hli) as (s1 & Hs1 & Ha). exists s1. split; [done|].
  destruct (shape_mid_fresh _ _ _ _ Hs) as [Hxl Hxk]. pose proof Hs as [Hh Hl Hnd Hp].
  assert (lastp i l ≠ Some (ad x)) as Hne by (intros E; by apply Hxl, (lastp_in i)).
  assert (∀ j, next_at s1 (Some (ad x)) j = next_at s (Some (ad x)) j) as Hsame by (intros j; by rewrite (as_next _ _ _ _ _ Ha), decide_False by naive_solver).
  split_and!; [|by destruct (as_rest _ _ _ _ _ Ha)..|done].
  assert (linked s1 (see true i x :: k)) as Hlk.
  { destruct (linked_node _ _ _ _ Hl) as [Hok Hnx]. pose proof (linked_app _ _ _ Hl) as (_ & _ & Hlk). split_and!.
    - apply see_ok; [done|]. by apply (as_node _ _ _ _ _ Ha).
    - intros j Hj. cbn [see ad seen] in *. rewrite Hsame. destruct (decide (j = i)) as [E|Hji]; [by rewrite E|].
      rewrite (proj2 (Nat.eqb_neq j i) Hji) in Hj. by apply Hnx.
    - eapply linked_frame; [done|apply Ha|]. intros y j Hy _. rewrite (as_next _ _ _ _ _ Ha), decide_False; [done|].
      intros (E & _). symmetry in E. apply lastp_in in E. rewrite map_app, NoDup_app in Hnd. simpl in Hnd. destruct Hnd as (_ & Hnd & _).
      eapply Hnd; [done|]. right. by apply list_elem_of_fmap_2. }
  destruct (repoint l (x :: k) (see true i x :: k) i s s1) as [Hl2 Hh2]; try done.
  - rewrite map_app, NoDup_app in Hnd. by destruct Hnd.
  - simpl. by rewrite Nat.eqb_refl.
  - intros j Hj. by apply first_see.
  - split; [done|done|by rewrite map_ad_see|]. intros a. by rewrite (as_dom _ _ _ _ _ Ha), map_ad_see.
Qed.

Lemma shape_link l x k i s :
  shape (l ++ x :: k) s → i < height x → i < skipListMaxLevel → seen x i = false →
  ∃ q s1 s2, next_at s (lastp i l) i = Some q ∧ set_next (Some (ad x)) i q s = Some s1 ∧ set_next (lastp i l) i (Some (ad x)) s1 = Some s2 ∧
    shape (l ++ see true i x :: k) s2 ∧ level s2 = level s ∧ len s2 = len s ∧
    ∀ j, j ≠ i → next_at s2 (Some (ad x)) j = next_at s (Some (ad x)) j.
Proof.
  intros Hs Hi Hm Hx. pose proof (next_lastp _ _ _ _ Hs Hm) as Hq. simpl in Hq. rewrite Hx in Hq.
  pose proof (linked_node _ _ _ _ (sh_linked _ _ Hs)) as [(_ & n & Hn & _ & _ & Hlen) _].
  destruct (set_next_assigned (Some (ad x)) i (first i k) s (next n)) as (s1 & Hs1 & Ha1); [simpl; by rewrite Hn|lia|].
  destruct (shape_connect l x k i s1) as (s2 & Hs2 & Hsh & Hlv & Hln & Hnx); try done.
  - by eapply shape_unseen.
  - by rewrite (as_next _ _ _ _ _ Ha1), decide_True.
  - destruct (as_rest _ _ _ _ _ Ha1) as [Hl1 Hl2]. exists (first i k), s1, s2. split_and!; try done; [congruence|congruence|].
    intros j Hj. by rewrite Hnx, (as_next _ _ _ _ _ Ha1), decide_False by naive_solver.
Qed.

Lemma shape_unlink l x k i s :
  shape (l ++ x :: k) s → i < skipListMaxLevel → seen x i = true →
  ∃ s1, set_next (lastp i l) i (first i k) s = Some s1 ∧ shape (l ++ see false i x :: k) s1 ∧ level s1 = level s ∧ len s1 = len s.
Proof.
  intros Hs Hm Hx. destruct (nexts_length _ _ _ _ (next_lastp _ _ _ _ Hs Hm)) as (ns & Hns & Hli).
  destruct (set_next_assigned (lastp i l) i (first i k) s ns Hns Hli) as (s1 & Hs1 & Ha). exists s1. split; [done|].
  destruct (shape_mid_fresh _ _ _ _ Hs) as [Hxl Hxk]. pose proof Hs as [Hh Hl Hnd Hp].
  split_and!; [|by destruct (as_rest _ _ _ _ _ Ha)..]. destruct (linked_node _ _ _ _ Hl) as [Hok Hnx].
  assert (linked s1 (see false i x :: k)) as Hlk.
  { pose proof (linked_app _ _ _ Hl) as (_ & _ & Hlk). split_and!.
    - apply see_ok; [by apply Hok|]. by apply (as_node _ _ _ _ _ Ha).
    - intros j Hj. cbn [see ad seen] in *. rewrite (as_next _ _ _ _ _ Ha), decide_False by (intros (E & _); by apply Hxl, (lastp_in i)).
      destruct (decide (j = i)) as [E|Hji]; [by rewrite E, Nat.eqb_refl in Hj|]. rewrite (proj2 (Nat.eqb_neq j i) Hji) in Hj. by apply Hnx.
    - eapply linked_frame; [done|apply Ha|]. intros y j Hy _. rewrite (as_next _ _ _ _ _ Ha), decide_False; [done|].
      intros (E & _). symmetry in E. apply lastp_in in E. rewrite map_app, NoDup_app in Hnd. simpl in Hnd. destruct Hnd as (_ & Hnd & _).
      eapply Hnd; [done|]. right. by apply list_elem_of_fmap_2. }
  destruct (repoint l (x :: k) (see false i x :: k) i s s1) as [Hl2 Hh2]; try done.
  - rewrite map_app, NoDup_app in Hnd. by destruct Hnd.
  - simpl. by rewrite Nat.eqb_refl.
  - intros j Hj. by apply first_see.
  - split; [done|done|by rewrite map_ad_see|]. intros a. by rewrite (as_dom _ _ _ _ _ Ha), map_ad_see.
Qed.

(** ** A node that no level reaches *)

Definition new_item (a : nat) (k : Z) (v : V) (h : nat) : item := mkItem a k v h (λ _, false).

Lemma first_unseen i l x k : seen x i = false → first i (l ++ x :: k) = first i (l ++ k).
Proof. intros Hx. rewrite !first_app. simpl. by rewrite Hx. Qed.

Lemma linked_unseen s l x k : (∀ i, seen x i = false) → linked s (l ++ x :: k) ↔ linked s (l ++ k) ∧ node_ok s x.
Proof.
  intros Hx. induction l as [|y l IH]; simpl.
  - split; [naive_solver|]. intros (Hk & Ho). split_and!; [done| |done]. intros i. by rewrite Hx.
  - rewrite IH. assert ((∀ i, seen y i = true → next_at s (Some (ad y)) i = Some (first i (l ++ x :: k))) ↔
      (∀ i, seen y i = true → next_at s (Some (ad y)) i = Some (first i (l ++ k)))) as -> by (split; intros H i Hi; rewrite (H i Hi); by rewrite first_unseen).
    naive_solver.
Qed.

Lemma headed_unseen s l x k : (∀ i, seen x i = false) → headed s (l ++ x :: k) ↔ headed s (l ++ k).
Proof. intros Hx. unfold headed. split; intros [H1 H2]; (split; [done|]); intros i Hi; rewrite H2 by done; by rewrite first_unseen. Qed.

Lemma shape_same_heap s s1 l : shape l s → head s1 = head s → heap s1 = heap s → shape l s1.
Proof.
  intros [[H1 H2] Hl Hn Hp] Eh Ep. split; [|..|done|by rewrite Ep].
  - split; [by rewrite Eh|]. intros i Hi. rewrite <- H2 by done. unfold next_at, nexts. by rewrite Eh.
  - eapply linked_frame; [done| |].
    + intros x (Hs & n & Hx). split; [done|]. exists n. by rewrite Ep.
    + intros x j _ _. unfold next_at, nexts. by rewrite Ep.
Qed.

Lemma shape_add l k s a key0 v n :
  shape (l ++ k) s → heap s !! a = None → key n = key0 → value n = v →
  shape (l ++ new_item a key0 v (length (next n)) :: k) (mkList (level s) (len s) (head s) (<[a := n]> (heap s))).
Proof.
  intros [[H1 H2] Hl Hn Hp] Ha <- <-. assert (a ∉ map ad (l ++ k)) as Hna by (intros Hin%Hp; rewrite Ha in Hin; by destruct Hin).
  split.
  - apply headed_unseen; [done|]. split; done.
  - apply linked_unseen; [done|]. split.
    + eapply linked_frame; [done| |].
      * intros x (Hs & m & Hm & Hx). split; [done|]. exists m. simpl. rewrite lookup_insert_ne; [done|]. intros E. by rewrite <- E, Ha in Hm.
      * intros x j Hx _. unfold next_at, nexts; simpl. rewrite lookup_insert_ne; [done|]. intros E. apply Hna. rewrite E. by apply list_elem_of_fmap_2.
    + split; [done|]. exists n. simpl. by rewrite lookup_insert_eq.
  - rewrite map_app in *. simpl. apply NoDup_app in Hn as (Hn1 & Hd & Hn2). rewrite NoDup_app, NoDup_cons.
    rewrite elem_of_app in Hna. split_and!; [done| |naive_solver|done]. intros b Hb [->|Hk]%elem_of_cons; [naive_solver|by eapply Hd].
  - intros b. simpl. rewrite map_app in *. simpl. rewrite lookup_insert. case_decide as E.
    + subst. split; [|done]. intros _. apply elem_of_app. right. left.
    + rewrite Hp, !elem_of_app, elem_of_cons. naive_solver.
Qed.

Lemma shape_drop l x k s : shape (l ++ x :: k) s → (∀ i, seen x i = false) →
  shape (l ++ k) (mkList (level s) (len s) (head s) (delete (ad x) (heap s))).
Proof.
  intros Hs Hx. destruct (shape_mid_fresh _ _ _ _ Hs) as [Hxl Hxk]. destruct Hs as [Hh Hl Hn Hp].
  apply headed_unseen in Hh; [|done]. apply linked_unseen in Hl as [Hl _]; [|done].
  assert (∀ y, y ∈ l ++ k → ad y ≠ ad x) as Hne.
  { intros y Hy He. apply (list_elem_of_fmap_2 ad) in Hy. rewrite He in Hy. change (ad x ∈ map ad (l ++ k)) in Hy.
    rewrite map_app in Hy. apply elem_of_app in Hy. naive_solver. }
  split; [done| | |].
  - clear Hn Hp Hh. induction (l ++ k) as [|y m IH]; [done|]. destruct Hl as (Hy & Hnx & Hl). split_and!.
    + destruct Hy as (Hsy & n & Hn & Hr). split; [done|]. exists n. simpl. rewrite lookup_delete_ne; [done|]. intros E. apply (Hne y); [left|done].
    + intros i Hi. rewrite <- (Hnx i Hi). unfold next_at, nexts; simpl. rewrite lookup_delete_ne; [done|]. intros E. apply (Hne y); [left|done].
    + apply IH; [done|]. intros z Hz. apply Hne. by right.
  - rewrite map_app in *. simpl in Hn. apply NoDup_app in Hn as (Hn1 & Hd & Hn2). apply NoDup_cons in Hn2 as [_ Hn2].
    apply NoDup_app. split_and!; [done| |done]. intros b Hb Hk. eapply Hd; [done|]. by right.
  - intros b. simpl. rewrite lookup_delete. case_decide as E.
    + subst. split; [by intros []|]. rewrite map_app. intros [?|?]%elem_of_app; done.
    + rewrite Hp, !map_app, !elem_of_app. simpl. rewrite elem_of_cons. naive_solver.
Qed.

(** ** The loops over levels *)

Definition same (x y : item) : Prop := ad x = ad y ∧ i_key x = i_key y ∧ i_val x = i_val y ∧ height x = height y.

Lemma same_refl x : same x x.
Proof. done. Qed.

Lemma same_see b i x y : same (see b i x) y → same x y.
Proof. done. Qed.

Lemma link_levels_shape l k n i x s :
  shape (l ++ x :: k) s → (∀ j, i ≤ j → seen x j = false) → i + n ≤ height x → height x ≤ skipListMaxLevel →
  ∃ s1 x1, link_levels (ad x) (map (λ j, lastp j l) (seq i n)) i s = Some s1 ∧ same x x1 ∧
    (∀ j, seen x1 j = if decide (i ≤ j < i + n) then true else seen x j) ∧ shape (l ++ x1 :: k) s1 ∧ level s1 = level s ∧ len s1 = len s ∧
    ∀ j, i + n ≤ j → next_at s1 (Some (ad x)) j = next_at s (Some (ad x)) j.
Proof.
  revert i x s. induction n as [|n IH]; intros i x s Hs Hx Hn Hm; simpl.
  { exists s, x. split_and!; try done. intros j. by rewrite decide_False by lia. }
  destruct (shape_link l x k i s Hs) as (q & s1 & s2 & -> & Hs1 & Hs2 & Hsh & Hlv & Hln & Hnx); [lia|lia|by apply Hx|].
  simpl. rewrite Hs1. simpl. rewrite Hs2. simpl.
  destruct (IH (S i) (see true i x) s2 Hsh) as (s3 & x3 & Hr & Hsm & Hse & Hsh3 & Hlv3 & Hln3 & Hnx3); [|simpl; lia|done|].
  - intros j Hj. simpl. rewrite (proj2 (Nat.eqb_neq j i)) by lia. apply Hx. lia.
  - exists s3, x3. split_and!; [done|by eapply same_see| |done|congruence|congruence|].
    + intros j. rewrite Hse. simpl. destruct (Nat.eqb_spec j i); repeat case_decide; (done || lia).
    + intros j Hj. simpl in Hnx3. by rewrite Hnx3, Hnx by lia.
Qed.

Lemma raise_head_shape l k n i x s :
  shape (l ++ x :: k) s → (∀ j, i ≤ j → seen x j = false) → i + n ≤ height x → height x ≤ skipListMaxLevel →
  (∀ j, i ≤ j → lastp j l = None ∧ first j k = None) → (∀ j, i ≤ j < i + n → next_at s (Some (ad x)) j = Some None) →
  ∃ s1 x1, raise_head (ad x) n i s = Some s1 ∧ same x x1 ∧
    (∀ j, seen x1 j = if decide (i ≤ j < i + n) then true else seen x j) ∧ shape (l ++ x1 :: k) s1 ∧ len s1 = len s.
Proof.
  revert i x s. induction n as [|n IH]; intros i x s Hs Hx Hn Hm Hno Hown; simpl.
  { exists s, x. split_and!; try done. intros j. by rewrite decide_False by lia. }
  destruct (Hno i) as [Hl Hk]; [done|].
  destruct (shape_connect l x k i s Hs) as (s1 & Hs1 & Hsh & Hlv & Hln & Hnx); [lia|lia|by apply Hx|rewrite Hk; apply Hown; lia|].
  rewrite Hl in Hs1. rewrite Hs1. simpl.
  destruct (IH (S i) (see true i x) s1 Hsh) as (s3 & x3 & Hr & Hsm & Hse & Hsh3 & Hln3).
  - intros j Hj. simpl. rewrite (proj2 (Nat.eqb_neq j i)) by lia. apply Hx. lia.
  - simpl. lia.
  - done.
  - intros j Hj. apply Hno. lia.
  - intros j Hj. simpl. rewrite Hnx. apply Hown. lia.
  - exists s3, x3. split_and!; [done|by eapply same_see| |done|congruence].
    intros j. rewrite Hse. simpl. destruct (Nat.eqb_spec j i); repeat case_decide; (done || lia).
Qed.

Lemma unlink_levels_shape l k ps n i x s :
  shape (l ++ x :: k) s → (∀ j, seen x j = bool_decide (i ≤ j < i + n)) → i + n ≤ skipListMaxLevel →
  (∀ j, j < i + n → ps !! j = Some (lastp j l)) →
  ∃ s1 x1, unlink_levels (map (λ j, first j k) (seq i n)) ps i s = Some s1 ∧ same x x1 ∧ (∀ j, seen x1 j = false) ∧
    shape (l ++ x1 :: k) s1 ∧ level s1 = level s ∧ len s1 = len s.
Proof.
  revert i x s. induction n as [|n IH]; intros i x s Hs Hx Hn Hps; simpl.
  { exists s, x. split_and!; try done. intros j. rewrite Hx. by apply bool_decide_eq_false_2; lia. }
  rewrite Hps by lia. simpl.
  destruct (shape_unlink l x k i s Hs) as (s1 & -> & Hsh & Hlv & Hln); [lia|rewrite Hx; apply bool_decide_eq_true_2; lia|].
  simpl. destruct (IH (S i) (see false i x) s1 Hsh) as (s3 & x3 & Hr & Hsm & Hse & Hsh3 & Hlv3 & Hln3).
  - intros j. simpl. destruct (Nat.eqb_spec j i) as [->|Hj]; [symmetry; apply bool_decide_eq_false_2; lia|].
    rewrite Hx. apply bool_decide_ext. lia.
  - lia.
  - intros j Hj. apply Hps. lia.
  - exists s3, x3. split_and!; [done|by eapply same_see|done|done|congruence|congruence].
Qed.

(** ** Searching *)

(** From a place in a level the next is in [b], or the first from [c] on. *)
Lemma walk_next a b c s i : shape (a ++ b ++ c) s → i < skipListMaxLevel →
  (∃ b1 z b2 n, b = b1 ++ z :: b2 ∧ next_at s (lastp i a) i = Some (Some (ad z)) ∧ lastp i (a ++ b1 ++ [z]) = Some (ad z) ∧
    heap s !! ad z = Some n ∧ key n = i_key z) ∨
  (lastp i (a ++ b) = lastp i a ∧ next_at s (lastp i a) i = Some (first i c)).
Proof.
  intros Hs Hi. pose proof (next_lastp _ _ _ _ Hs Hi) as Hn. rewrite first_app in Hn. destruct (first i b) as [d|] eqn:Eb.
  - left. assert (∃ b1 z b2, b = b1 ++ z :: b2 ∧ ad z = d ∧ seen z i = true) as (b1 & z & b2 & -> & <- & Hz).
    { clear -Eb. induction b as [|y b IH]; [done|]. simpl in Eb. destruct (seen y i) eqn:Ey.
      - injection Eb as <-. by exists [], y, b.
      - destruct IH as (b1 & z & b2 & -> & ?); [done|]. by exists (y :: b1), z, b2. }
    exists b1, z, b2. pose proof (sh_linked _ _ Hs) as Hl'. apply linked_app in Hl'. rewrite <- app_assoc in Hl'. simpl in Hl'.
    apply linked_node in Hl' as [(_ & n & Hm & Hk & _) _]. exists n. split_and!; try done. rewrite !lastp_app. simpl. by rewrite Hz.
  - right. split; [|done]. rewrite lastp_app. apply first_lastp in Eb. by rewrite Eb.
Qed.

(** The node of the key, if the first from [k] on has it. *)
Definition present (k : Z) (c : list item) : option item :=
  match c with y :: _ => if (i_key y =? k)%Z then Some y else None | [] => None end.

Definition found (k : Z) (i : nat) (c : list item) : option nat :=
  match present k c with Some y => if seen y i then Some (ad y) else None | None => None end.

Definition below (k : Z) (l : list item) : Prop := Forall (λ x, (i_key x < k)%Z) l.

Definition above (k : Z) (l : list item) : Prop := Forall (λ x, (k ≤ i_key x)%Z) l ∧ StronglySorted Z.lt (map i_key l).

Lemma first_node s i c l d : linked s (l ++ c) → first i c = Some d →
  ∃ y n, y ∈ c ∧ ad y = d ∧ seen y i = true ∧ heap s !! d = Some n ∧ key n = i_key y.
Proof.
  intros Hl Hf. assert (∃ c1 y c2, c = c1 ++ y :: c2 ∧ ad y = d ∧ seen y i = true) as (c1 & y & c2 & -> & <- & Hy).
  { clear Hl. induction c as [|y c IH]; [done|]. simpl in Hf. destruct (seen y i) eqn:Ey.
    - injection Hf as <-. by exists [], y, c.
    - destruct IH as (c1 & z & c2 & -> & ?); [done|]. by exists (y :: c1), z, c2. }
  rewrite app_assoc in Hl. apply linked_node in Hl as [(_ & n & Hn & Hk & _) _]. exists y, n. split_and!; try done.
  apply elem_of_app. right. left.
Qed.

Lemma above_head k y c : above k (y :: c) → Forall (λ x, (i_key y < i_key x)%Z) c.
Proof. intros [_ Hs]. simpl in Hs. apply StronglySorted_inv in Hs as [_ Hs]. revert Hs. clear. induction c as [|x c IH]; simpl; [done|]. rewrite !Forall_cons. naive_solver. Qed.

Lemma walk_ok a b c s i k fuel : shape (a ++ b ++ c) s → i < skipListMaxLevel → below k b → above k c → length b < fuel →
  walk fuel s i k (lastp i a) = Some (match found k i c with Some d => inl d | None => inr (lastp i (a ++ b)) end).
Proof.
  revert a b. induction fuel as [|fuel IH]; intros a b Hs Hi Hb Hc Hf; [lia|]. simpl.
  destruct (walk_next a b c s i Hs Hi) as [(b1 & z & b2 & n & -> & -> & Hla & Hn & Hk)|(Hla & ->)]; simpl.
  - rewrite Hn. simpl. apply Forall_app in Hb as [Hb1 Hb2]. inversion_clear Hb2 as [|? ? Hz Hb2']. rewrite Hk.
    destruct (Z.eqb_spec (i_key z) k); [lia|]. destruct (Z.ltb_spec k (i_key z)); [lia|].
    rewrite <- Hla, (IH (a ++ b1 ++ [z]) b2); [by rewrite <- !app_assoc|rewrite <- !app_assoc; rewrite <- !app_assoc in Hs; exact Hs|done|done|done|].
    rewrite length_app in Hf. simpl in Hf. lia.
  - rewrite Hla. unfold found, present. destruct (first i c) as [d|] eqn:Ef.
    + rewrite app_assoc in Hs. destruct (first_node s i c (a ++ b) d (sh_linked _ _ Hs) Ef) as (y & n & Hy & <- & Hsy & -> & Hk). simpl. rewrite Hk.
      destruct c as [|x c]; [done|]. pose proof (above_head _ _ _ Hc) as Hgt. simpl in Ef.
      apply elem_of_cons in Hy as [->|Hy].
      * destruct (Z.eqb_spec (i_key x) k); [by rewrite Hsy|]. destruct Hc as [Hc _]. inversion_clear Hc. destruct (Z.ltb_spec k (i_key x)); [done|lia].
      * rewrite Forall_forall in Hgt. specialize (Hgt y Hy). destruct Hc as [Hc _]. inversion_clear Hc.
        destruct (Z.eqb_spec (i_key y) k); [lia|]. destruct (Z.ltb_spec k (i_key y)); [|lia].
        destruct (Z.eqb_spec (i_key x) k); [|done]. destruct (seen x i) eqn:Ex; [|done]. injection Ef as Ef. exfalso.
        assert (x = y) as ->; [|lia]. eapply ad_inj; [apply Hs|..|done]; apply elem_of_app; right; [left|by right].
    + destruct c as [|x c]; [done|]. simpl in Ef. destruct (seen x i) eqn:Ex; [done|]. destruct (i_key x =? k)%Z; [by rewrite Ex|done].
Qed.

Lemma walk_prev_ok a b c s i k fuel : shape (a ++ b ++ c) s → i < skipListMaxLevel → below k b → above k c → length b < fuel →
  walk_prev fuel s i k (lastp i a) = Some (lastp i (a ++ b)).
Proof.
  revert a b. induction fuel as [|fuel IH]; intros a b Hs Hi Hb Hc Hf; [lia|]. simpl.
  destruct (walk_next a b c s i Hs Hi) as [(b1 & z & b2 & n & -> & -> & Hla & Hn & Hk)|(Hla & ->)]; simpl.
  - rewrite Hn. simpl. apply Forall_app in Hb as [Hb1 Hb2]. inversion_clear Hb2 as [|? ? Hz Hb2']. rewrite Hk.
    destruct (Z.leb_spec k (i_key z)); [lia|].
    rewrite <- Hla, (IH (a ++ b1 ++ [z]) b2); [by rewrite <- !app_assoc|rewrite <- !app_assoc; rewrite <- !app_assoc in Hs; exact Hs|done|done|done|].
    rewrite length_app in Hf. simpl in Hf. lia.
  - rewrite Hla. destruct (first i c) as [d|] eqn:Ef; [|done]. rewrite app_assoc in Hs.
    destruct (first_node s i c (a ++ b) d (sh_linked _ _ Hs) Ef) as (y & n & Hy & <- & _ & -> & Hk). simpl. rewrite Hk.
    destruct Hc as [Hc _]. rewrite Forall_forall in Hc. specialize (Hc y Hy). destruct (Z.leb_spec k (i_key y)); [done|lia].
Qed.

Lemma split_at k l : StronglySorted Z.lt (map i_key l) → ∃ a c, l = a ++ c ∧ below k a ∧ above k c.
Proof.
  induction l as [|x l IH]; intros Hs; [exists [], []; split_and!; [done|constructor|by split]|].
  pose proof Hs as Hs'. simpl in Hs'. apply StronglySorted_inv in Hs' as [Hl Hx].
  destruct (Z.ltb_spec (i_key x) k).
  - destruct (IH Hl) as (a & c & -> & Ha & Hc). exists (x :: a), c. split_and!; [done|by constructor|done].
  - exists [], (x :: l). split_and!; [done|constructor|]. split; [|done]. constructor; [done|]. clear -Hx H.
    induction l as [|y l IH]; [done|]. simpl in Hx. apply Forall_cons in Hx as [Hy Hx]. constructor; [lia|by apply IH].
Qed.

(** A place in level [i] at or before the last of the smaller keys. *)
Definition start (i : nat) (p : place) (l : list item) : Prop := ∃ a b, l = a ++ b ∧ p = lastp i a.

Lemma start_top i l : start i None l.
Proof. by exists [], l. Qed.

Lemma start_down i l : Forall full l → start i (lastp (S i) l) l.
Proof.
  intros Hf. destruct (lastp (S i) l) as [d|] eqn:E; [|apply start_top].
  destruct (lastp_split _ _ _ E) as (l1 & x & l2 & -> & <- & Hx & _). exists (l1 ++ [x]), l2. rewrite <- app_assoc. split; [done|].
  rewrite lastp_app. simpl. apply Forall_app in Hf as [_ Hf]. apply Forall_cons in Hf as [Hf _]. rewrite Hf in Hx. apply Nat.ltb_lt in Hx.
  rewrite Hf, (proj2 (Nat.ltb_lt _ _)); [done|lia].
Qed.

Lemma search_S s k i p : search s k (S i) p = r ← walk (S (len s)) s i k p; match r with inl c => Some (inl c) | inr p => search s k i p end.
Proof. done. Qed.

Lemma insert_point_S s k i p : insert_point s k (S i) p =
  r ← walk (S (len s)) s i k p;
  match r with inl c => Some (inl c) | inr p => q ← insert_point s k i p; Some match q with inl c => inl c | inr ps => inr (ps ++ [p]) end end.
Proof. done. Qed.

Lemma prev_nodes_S s k i p : prev_nodes s k (S i) p = p ← walk_prev (S (len s)) s i k p; ps ← prev_nodes s k i p; Some (ps ++ [p]).
Proof. done. Qed.

Section searching.
Context (l c : list item) (s : SkipList) (k : Z).
Context (Hs : rep (l ++ c) s) (Hl : below k l) (Hc : above k c).

Lemma walk_level i p : i < skipListMaxLevel → start i p l →
  walk (S (len s)) s i k p = Some (match found k i c with Some d => inl d | None => inr (lastp i l) end).
Proof using Hs Hl Hc.
  intros Hi (a & b & He & ->). rewrite He. apply walk_ok; [rewrite app_assoc, <- He; apply Hs|done| |done|].
  - unfold below in *. rewrite He in Hl. by apply Forall_app in Hl as [_ ?].
  - rewrite (rp_len _ _ Hs), He, !length_app. lia.
Qed.

Lemma walk_prev_level i p : i < skipListMaxLevel → start i p l → walk_prev (S (len s)) s i k p = Some (lastp i l).
Proof using Hs Hl Hc.
  intros Hi (a & b & He & ->). rewrite He. apply walk_prev_ok with (c := c); [rewrite app_assoc, <- He; apply Hs|done| |done|].
  - unfold below in *. rewrite He in Hl. by apply Forall_app in Hl as [_ ?].
  - rewrite (rp_len _ _ Hs), He, !length_app. lia.
Qed.

Lemma present_in y : present k c = Some y → y ∈ c ∧ i_key y = k.
Proof.
  clear. unfold present. destruct c as [|x c']; [done|]. destruct (Z.eqb_spec (i_key x) k); [|done]. intros [= <-]. split; [left|done].
Qed.

Lemma found_present i d : found k i c = Some d → ∃ y, present k c = Some y ∧ ad y = d.
Proof.
  clear. unfold found. destruct (present k c) as [y|]; [|done]. destruct (seen y i); [|done]. intros [= <-]. by exists y.
Qed.

Lemma found_bottom : found k 0 c = ad <$> present k c.
Proof using Hs.
  unfold found. destruct (present k c) as [y|] eqn:E; [|done]. apply present_in in E as [Hy _]. assert (y ∈ l ++ c) as Hin by (apply elem_of_app; by right).
  pose proof (rp_full _ _ Hs) as Hf. rewrite Forall_forall in Hf. pose proof (rp_high _ _ Hs) as Hh. rewrite Forall_forall in Hh.
  rewrite (Hf y Hin), (proj2 (Nat.ltb_lt _ _)); [done|]. specialize (Hh y Hin). lia.
Qed.

Lemma full_l : Forall full l.
Proof using Hs. pose proof (rp_full _ _ Hs) as Hf. by apply Forall_app in Hf as [? _]. Qed.

Lemma search_ok i p : i < skipListMaxLevel → start i p l →
  search s k (S i) p = Some (match present k c with Some y => inl (ad y) | None => inr (lastp 0 l) end).
Proof using Hs Hl Hc.
  revert p. induction i as [|i IH]; intros p Hi Hp; rewrite search_S, walk_level by done; cbn [mbind option_bind].
  - rewrite found_bottom. by destruct (present k c).
  - destruct (found k (S i) c) as [d|] eqn:E; [destruct (found_present _ _ E) as (y & -> & <-); done|].
    apply IH; [lia|]. apply start_down, full_l.
Qed.

Lemma insert_point_ok i p : i < skipListMaxLevel → start i p l →
  insert_point s k (S i) p = Some (match present k c with Some y => inl (ad y) | None => inr (map (λ j, lastp j l) (seq 0 (S i))) end).
Proof using Hs Hl Hc.
  revert p. induction i as [|i IH]; intros p Hi Hp; rewrite insert_point_S, walk_level by done; cbn [mbind option_bind].
  - rewrite found_bottom. by destruct (present k c).
  - destruct (found k (S i) c) as [d|] eqn:E; [destruct (found_present _ _ E) as (y & -> & <-); done|].
    rewrite (IH (lastp (S i) l)); [|lia|apply start_down, full_l]. destruct (present k c); [done|]. cbn [mbind option_bind].
    rewrite (seq_S (S i)), map_app. done.
Qed.

Lemma prev_nodes_ok i p : i < skipListMaxLevel → start i p l →
  prev_nodes s k (S i) p = Some (map (λ j, lastp j l) (seq 0 (S i))).
Proof using Hs Hl Hc.
  revert p. induction i as [|i IH]; intros p Hi Hp; rewrite prev_nodes_S, walk_prev_level by done; cbn [mbind option_bind]; [done|].
  rewrite (IH (lastp (S i) l)); [|lia|apply start_down, full_l]. cbn [mbind option_bind]. by rewrite (seq_S (S i)), map_app.
Qed.

(** The searches as a whole. *)
Lemma level_S : ∃ i, level s = S i ∧ i < skipListMaxLevel.
Proof using Hs. pose proof (rp_level _ _ Hs). exists (pred (level s)). lia. Qed.

Lemma findNode_ok : findNode k s = Some (ad <$> present k c).
Proof using Hs Hl Hc.
  destruct level_S as (i & Hi & Hm). unfold findNode, doFindNode. rewrite Hi, search_ok by (done || apply start_top).
  simpl. by destruct (present k c).
Qed.

Lemma first_bottom b : Forall full b → Forall (λ x, 1 ≤ height x) b → first 0 b = ad <$> hd_error b.
Proof.
  clear. intros Hf Hh. destruct b as [|x b]; [done|]. simpl. inversion_clear Hf as [|? ? Hx _]. inversion_clear Hh as [|? ? Hx1 _].
  by rewrite Hx, (proj2 (Nat.ltb_lt _ _)).
Qed.

Lemma c_ok : Forall full c ∧ Forall (λ x, 1 ≤ height x) c.
Proof using Hs.
  pose proof (rp_full _ _ Hs) as Hf. pose proof (rp_high _ _ Hs) as Hh. apply Forall_app in Hf as [_ Hf]. apply Forall_app in Hh as [_ Hh].
  split; [done|]. eapply Forall_impl; [exact Hh|]. simpl. lia.
Qed.

Lemma lowerBound_ok : lowerBound k s = Some (ad <$> hd_error c).
Proof using Hs Hl Hc.
  destruct level_S as (i & Hi & Hm). unfold lowerBound, doFindNode. rewrite Hi, search_ok by (done || apply start_top).
  cbn [mbind option_bind]. destruct (present k c) as [y|] eqn:E.
  - unfold present in E. destruct c as [|x c']; [done|]. destruct (_ =? _)%Z; [|done]. by injection E as ->.
  - rewrite (next_lastp l c) by (apply Hs || (unfold skipListMaxLevel; lia)). destruct c_ok. by rewrite first_bottom.
Qed.

Lemma node_at x b1 b2 : c = b1 ++ x :: b2 → ∃ n, heap s !! ad x = Some n ∧ key n = i_key x ∧ value n = i_val x ∧ length (next n) = height x ∧
  ∀ i, i < height x → next_at s (Some (ad x)) i = Some (first i b2).
Proof using Hs.
  intros He. pose proof (sh_linked _ _ (rp_shape _ _ Hs)) as Hlk. rewrite He, app_assoc in Hlk.
  apply linked_node in Hlk as [(_ & n & Hn & Hk & Hv & Hlen) Hnx]. exists n. split_and!; try done. intros i Hi. apply Hnx.
  destruct c_ok as [Hf _]. rewrite He in Hf. apply Forall_app in Hf as [_ Hf]. apply Forall_cons in Hf as [Hf _]. rewrite Hf. by apply Nat.ltb_lt.
Qed.

End searching.

Lemma upperBound_ok l c s k : rep (l ++ c) s → below k l → above k c →
  upperBound k s = Some (ad <$> hd_error (match present k c with Some _ => tail c | None => c end)).
Proof.
  intros Hs Hl Hc. unfold upperBound. rewrite (lowerBound_ok l c) by done. cbn [mbind option_bind]. unfold present. destruct c as [|x c]; [done|]. simpl.
  destruct (node_at l (x :: c) s Hs x [] c eq_refl) as (n & -> & Hk & _ & _ & Hnx). simpl. rewrite Hk. destruct (c_ok _ _ _ Hs) as [Hf Hh].
  inversion_clear Hf. inversion_clear Hh. destruct (_ =? _)%Z; [|done]. rewrite Hnx by done. f_equal. by apply first_bottom.
Qed.

(** ** Inserting *)

Definition contents (l : list item) : list (Z * V) := map (λ x, (i_key x, i_val x)) l.

Lemma contents_keys l : map fst (contents l) = map i_key l.
Proof. unfold contents. by rewrite map_map. Qed.

Lemma contents_length l : length (contents l) = length l.
Proof. apply length_map. Qed.

Lemma put_below k v l c : below k l → put k v (contents (l ++ c)) = contents l ++ put k v (contents c).
Proof.
  induction 1 as [|x l Hx Hl IH]; simpl; [done|]. destruct (Z.ltb_spec k (i_key x)); [lia|]. destruct (Z.eqb_spec k (i_key x)); [lia|]. by f_equal.
Qed.

Lemma limit_level_ok l n : 1 ≤ l → 1 ≤ limit_level l n ≤ l ∧ (3 < limit_level l n → (2 ^ (Z.of_nat (limit_level l n) - 3) ≤ Z.of_nat n)%Z).
Proof.
  induction l as [|l IH]; [lia|]. intros _. cbn [limit_level].
  destruct (Nat.ltb_spec 3 (S l)); cbn [andb]; [|lia].
  rewrite Z.shiftl_1_l. destruct (Z.ltb_spec (Z.of_nat n) (2 ^ (Z.of_nat (S l) - 3))); [|lia].
  destruct (IH ltac:(lia)) as [H1 H2]. split; [lia|done].
Qed.

Lemma randomLevel_ok r s : (Z.of_nat (len s) < 2 ^ 38)%Z → 1 ≤ randomLevel r s ≤ skipListMaxLevel.
Proof.
  intros Hl. unfold randomLevel. change (Z.shiftl 1 (Z.of_nat skipListMaxLevel) - 1)%Z with (2 ^ 40 - 1)%Z. unfold skipListMaxLevel.
  set (m := (r `mod` (2 ^ 40 - 1))%Z). assert (0 ≤ m < 2 ^ 40 - 1)%Z as Hm by (apply Z.mod_pos_bound; lia).
  assert (Len64 m ≤ 40) as H40.
  { unfold Len64. destruct (Z.leb_spec m 0); [lia|]. assert (Z.log2 m < 40)%Z by (apply Z.log2_lt_pow2; lia). lia. }
  destruct (limit_level_ok (40 - Len64 m + 1) (len s)) as [H1 H2]; [lia|]. split; [lia|].
  destruct (decide (limit_level (40 - Len64 m + 1) (len s) ≤ 40)); [done|].
  specialize (H2 ltac:(lia)). assert (2 ^ 38 ≤ 2 ^ (Z.of_nat (limit_level (40 - Len64 m + 1) (len s)) - 3))%Z by (apply Z.pow_le_mono_r; lia). lia.
Qed.

Lemma high_first n l i : Forall (λ x, 1 ≤ height x ≤ n) l → Forall full l → n ≤ i → first i l = None.
Proof.
  intros Hh Hf Hi. induction l as [|x l IH]; [done|]. inversion_clear Hh. inversion_clear Hf as [|? ? Hx ?]. simpl.
  rewrite Hx. destruct (Nat.ltb_spec i (height x)); [lia|]. by apply IH.
Qed.

(** The same node with another value. *)
Lemma shape_value l x c s v :
  shape (l ++ x :: c) s →
  shape (l ++ mkItem (ad x) (i_key x) v (height x) (seen x) :: c)
    (mkList (level s) (len s) (head s) (alter (λ n, mkNode (key n) v (next n)) (ad x) (heap s))).
Proof.
  intros Hs. destruct (shape_mid_fresh _ _ _ _ Hs) as [Hxl Hxc]. destruct Hs as [[H1 H2] Hl Hn Hp].
  set (s1 := mkList _ _ _ _). assert (∀ p i, next_at s1 p i = next_at s p i) as Hnx.
  { intros [a|] i; unfold next_at, nexts, s1; simpl; [|done]. destruct (decide (a = ad x)) as [->|Hne].
    - rewrite lookup_alter_eq. by destruct (heap s !! ad x).
    - by rewrite lookup_alter_ne. }
  assert (∀ y, ad y ≠ ad x → node_ok s y → node_ok s1 y) as Hok.
  { intros y Hne (Hsy & n & Hy). split; [done|]. exists n. unfold s1; simpl. by rewrite lookup_alter_ne. }
  assert (∀ i, first i (l ++ x :: c) = first i (l ++ mkItem (ad x) (i_key x) v (height x) (seen x) :: c)) as Hfi
    by (intros i; by rewrite !first_app).
  split; [| |rewrite map_app; rewrite map_app in Hn; exact Hn|].
  - split; [done|]. intros i Hi. by rewrite Hnx, H2, Hfi.
  - clear H1 H2 Hn Hp. induction l as [|y l IH]; simpl in *.
    + destruct Hl as ((Hsx & n & Hx & Hk & Hv & Hlen) & Hp & Hl). split_and!.
      * split; [done|]. exists (mkNode (key n) v (next n)). unfold s1; simpl. by rewrite lookup_alter_eq, Hx.
      * intros i Hi. rewrite Hnx. by apply Hp.
      * clear Hp Hfi Hxl. induction c as [|z c IH]; [done|]. destruct Hl as (Hz & Hp & Hl). simpl in Hxc. apply not_elem_of_cons in Hxc as [Hzx Hxc].
        split_and!; [by apply Hok|intros i Hi; rewrite Hnx; by apply Hp|by apply IH].
    + destruct Hl as (Hy & Hp & Hl). apply not_elem_of_cons in Hxl as [Hyx Hxl]. split_and!; [by apply Hok| |].
      * intros i Hi. rewrite Hnx, Hp, !first_app by done. done.
      * apply IH; [done|done|]. intros i. by rewrite !first_app.
  - intros a. pose proof (Hp a) as Hpa. rewrite map_app in Hpa |- *. simpl in *. rewrite <- Hpa.
    destruct (decide (a = ad x)) as [->|Hne]; [rewrite lookup_alter_eq; by rewrite fmap_is_Some|by rewrite lookup_alter_ne].
Qed.

Lemma sorted_app l c : StronglySorted Z.lt (map i_key (l ++ c)) ↔
  StronglySorted Z.lt (map i_key l) ∧ StronglySorted Z.lt (map i_key c) ∧ (∀ x y, x ∈ l → y ∈ c → (i_key x < i_key y)%Z).
Proof.
  induction l as [|x l IH]; simpl.
  - split; [intros H; split_and!; [constructor|done|]; intros x y Hx; by apply not_elem_of_nil in Hx|naive_solver].
  - split.
    + intros [Hs Hx]%StronglySorted_inv. apply IH in Hs as (H1 & H2 & H3). rewrite map_app, Forall_app in Hx. destruct Hx as [Hx1 Hx2].
      split_and!; [by constructor|done|]. intros a b [->|Ha]%elem_of_cons Hb; [|by apply H3].
      rewrite Forall_forall in Hx2. apply Hx2. by apply list_elem_of_fmap_2.
    + intros (Hs & Hc & H3). apply StronglySorted_inv in Hs as [H1 H2]. constructor.
      * apply IH. split_and!; [done|done|]. intros a b Ha. apply H3. by right.
      * rewrite map_app, Forall_app. split; [done|]. rewrite Forall_forall. intros b (y & -> & Hy)%list_elem_of_fmap. apply H3; [left|done].
Qed.

Lemma not_present k c : above k c → present k c = None → Forall (λ x, (k < i_key x)%Z) c.
Proof.
  intros Hc Hp. destruct c as [|x c]; [constructor|]. simpl in Hp. destruct (Z.eqb_spec (i_key x) k); [done|].
  pose proof (above_head _ _ _ Hc) as Hgt. destruct Hc as [Hc _]. inversion_clear Hc. constructor; [lia|].
  eapply Forall_impl; [exact Hgt|]. simpl. lia.
Qed.

(** All levels of a new node are linked. *)
Lemma place_levels l c s a k v h :
  rep (l ++ c) s → heap s !! a = None → 1 ≤ h ≤ skipListMaxLevel →
  let s0 := mkList (level s) (len s) (head s) (<[a := mkNode k v (replicate h None)]> (heap s)) in
  ∃ s1 s2 x, link_levels a (map (λ j, lastp j l) (seq 0 (level s `min` h))) 0 s0 = Some s1 ∧
    (if level s <? h then raise_head a (h - level s) (level s) s1 else Some s1) = Some s2 ∧
    same (new_item a k v h) x ∧ full x ∧ shape (l ++ x :: c) s2 ∧ len s2 = len s.
Proof.
  intros Hs Ha Hh s0. pose proof (rp_level _ _ Hs) as Hlev. assert (shape (l ++ new_item a k v h :: c) s0) as Hs0.
  { pose proof (shape_add l c s a k v (mkNode k v (replicate h None)) (rp_shape _ _ Hs) Ha eq_refl eq_refl) as H. simpl in H. by rewrite length_replicate in H. }
  destruct (link_levels_shape l c (level s `min` h) 0 (new_item a k v h) s0 Hs0) as (s1 & x1 & Hr & Hsm & Hse & Hsh & Hlv & Hln & Hnx);
    [done|simpl; lia|simpl; lia|].
  simpl in Hr, Hse, Hnx, Hln. destruct Hsm as (Had & Hk & Hv & Hht). simpl in Had, Hk, Hv, Hht. destruct (Nat.ltb_spec (level s) h).
  - destruct (raise_head_shape l c (h - level s) (level s) x1 s1 Hsh) as (s2 & x2 & Hr2 & (? & ? & ? & Hht2) & Hse2 & Hsh2 & Hln2).
    + intros j Hj. by rewrite Hse, decide_False by lia.
    + lia.
    + lia.
    + pose proof (rp_high _ _ Hs) as Hhi. apply Forall_app in Hhi as [Hhl Hhc]. pose proof (rp_full _ _ Hs) as Hfu. apply Forall_app in Hfu as [Hfl Hfc].
      intros j Hj. split; [apply first_lastp|]; by eapply high_first.
    + intros j Hj. rewrite <- Had, Hnx by lia. unfold next_at, nexts, s0; simpl. rewrite lookup_insert_eq. simpl. apply lookup_replicate_2. lia.
    + exists s1, s2, x2. rewrite <- Had in Hr2. split_and!; try done; [unfold same; simpl; split_and!; congruence| |congruence].
      intros j. rewrite Hse2, Hse, <- Hht2, <- Hht. repeat case_decide; destruct (Nat.ltb_spec j h); (done || lia).
  - exists s1, s1, x1. split_and!; try done. intros j. rewrite Hse, <- Hht. case_decide; destruct (Nat.ltb_spec j h); (done || lia).
Qed.

Lemma rep_insert l x c s s2 h : rep (l ++ c) s → shape (l ++ x :: c) s2 → full x → height x = h → 1 ≤ h ≤ skipListMaxLevel →
  below (i_key x) l → Forall (λ y, (i_key x < i_key y)%Z) c →
  rep (l ++ x :: c) (mkList (if level s <? h then h else level s) (S (len s)) (head s2) (heap s2)).
Proof.
  intros [_ Hfu Hhi Hso Hlev Hl0] Hsh Hf Hh Hm Hb Hc. rewrite !Forall_app in *. destruct Hfu as [Hf1 Hf2], Hhi as [Hh1 Hh2].
  assert (level s ≤ (if level s <? h then h else level s) ≤ skipListMaxLevel ∧ h ≤ if level s <? h then h else level s) as Hle
    by (destruct (Nat.ltb_spec (level s) h); lia).
  split; cbn [level len].
  - by eapply shape_same_heap.
  - rewrite Forall_app, Forall_cons. done.
  - rewrite Forall_app, Forall_cons. split_and!; [eapply Forall_impl; [exact Hh1|]; simpl; lia|lia|lia|eapply Forall_impl; [exact Hh2|]; simpl; lia].
  - apply sorted_app in Hso as (Hs1 & Hs2 & H3). unfold below in Hb. rewrite !Forall_forall in *. apply sorted_app. split_and!; [done| |].
    + simpl. constructor; [done|]. rewrite Forall_forall. intros q (y & -> & Hy)%list_elem_of_fmap. by apply Hc.
    + intros y z Hy [->|Hz]%elem_of_cons; [by apply Hb|by apply H3].
  - lia.
  - rewrite Hl0, !length_app. simpl. lia.
Qed.

Lemma insert_new r l c s k v : rep (l ++ c) s → below k l → above k c → present k c = None → (Z.of_nat (len s) < 2 ^ 38)%Z →
  ∃ s1 x, Insert r k v s = Some s1 ∧ rep (l ++ x :: c) s1 ∧ i_key x = k ∧ i_val x = v.
Proof.
  intros Hs Hl Hc Hp Hlen. unfold Insert, findInsertPoint. destruct (level_S _ _ _ Hs) as (i & Hi & Hm).
  rewrite Hi, (insert_point_ok l c s k) by (done || apply start_top). rewrite Hp, <- Hi. cbn [mbind option_bind].
  pose proof (randomLevel_ok r s Hlen) as Hh. set (h := randomLevel r s) in *. clearbody h. unfold newSkipListNode.
  rewrite (proj2 (Nat.leb_le 1 h)), (proj2 (Nat.leb_le h 40)) by (unfold skipListMaxLevel in Hh; lia). cbn [andb mbind option_bind].
  set (a := fresh (dom (heap s))). assert (heap s !! a = None) as Ha by (apply not_elem_of_dom, is_fresh). clearbody a.
  rewrite firstn_map. replace (if level s <? h then level s else h) with (level s `min` h) by (destruct (Nat.ltb_spec (level s) h); lia).
  rewrite take_seq, Nat.min_l by lia.
  destruct (place_levels l c s a k v h Hs Ha Hh) as (s1 & s2 & x & -> & Hr & (_ & Hk & Hv & Hht) & Hf & Hsh & Hln).
  cbn [mbind option_bind]. rewrite Hr. cbn [mbind option_bind]. rewrite Hln. simpl in Hk, Hv, Hht.
  eexists _, x. split_and!; [done| |done|done]. apply rep_insert; [done..|by rewrite <- Hk|]. rewrite <- Hk. by apply not_present.
Qed.

Lemma insert_old r l x c s v : rep (l ++ x :: c) s → below (i_key x) l → above (i_key x) (x :: c) →
  ∃ s1 y, Insert r (i_key x) v s = Some s1 ∧ rep (l ++ y :: c) s1 ∧ i_key y = i_key x ∧ i_val y = v.
Proof.
  intros Hs Hl Hc. unfold Insert, findInsertPoint. destruct (level_S _ _ _ Hs) as (i & Hi & Hm).
  rewrite Hi, (insert_point_ok l (x :: c) s (i_key x)) by (done || apply start_top). simpl present. rewrite Z.eqb_refl, <- Hi. cbn [mbind option_bind].
  eexists _, (mkItem (ad x) (i_key x) v (height x) (seen x)). split_and!; [done| |done|done].
  pose proof Hs as [Hsh Hfu Hhi Hso Hlev Hl0]. split; cbn [level len]; [by apply shape_value|..|done|].
  - rewrite Forall_app, Forall_cons in *. done.
  - rewrite Forall_app, Forall_cons in *. done.
  - rewrite map_app in *. done.
  - rewrite Hl0, !length_app. done.
Qed.

Lemma Insert_ok r k v l s : rep l s → (Z.of_nat (len s) < 2 ^ 38)%Z →
  ∃ s1 l1, Insert r k v s = Some s1 ∧ rep l1 s1 ∧ contents l1 = put k v (contents l).
Proof.
  intros Hs Hlen. destruct (split_at k l (rp_sorted _ _ Hs)) as (a & c & -> & Ha & Hc). rewrite put_below by done.
  destruct (present k c) as [x|] eqn:Ep.
  - unfold present in Ep. destruct c as [|y c]; [done|]. destruct (Z.eqb_spec (i_key y) k) as [<-|]; [|done]. injection Ep as ->.
    destruct (insert_old r a x c s v Hs Ha Hc) as (s1 & y & Hi & Hr & Hk & Hv). exists s1, (a ++ y :: c). split_and!; [done|done|].
    unfold contents. rewrite map_app. simpl. by rewrite Z.ltb_irrefl, Z.eqb_refl, Hk, Hv.
  - destruct (insert_new r a c s k v Hs Ha Hc Ep Hlen) as (s1 & y & Hi & Hr & Hk & Hv). exists s1, (a ++ y :: c). split_and!; [done|done|].
    unfold contents. rewrite map_app. simpl. rewrite Hk, Hv. f_equal. pose proof (not_present k c Hc Ep) as Hn. destruct c as [|z c]; [done|].
    inversion_clear Hn. simpl. destruct (Z.ltb_spec k (i_key z)); [done|lia].
Qed.

(** ** Removing *)

Lemma lower_level_ok l hd : l ≤ length hd →
  ∃ l', lower_level l hd = Some l' ∧ l' ≤ l ∧ (1 ≤ l → 1 ≤ l') ∧ (l' < l → hd !! l' = Some None).
Proof.
  induction l as [|l IH]; intros Hl; [exists 0; simpl; split_and!; (done || lia)|]. cbn [lower_level]. destruct (Nat.ltb_spec 1 (S l)); [|exists (S l); by split_and!; try lia].
  destruct (lookup_lt_is_Some_2 hd l ltac:(lia)) as [q Hq]. rewrite Hq. cbn [mbind option_bind].
  destruct q as [d|]; [exists (S l); by split_and!; try lia|]. destruct (IH ltac:(lia)) as (l' & -> & Hle & H1 & Hn). exists l'. split_and!; [done|lia|intros; apply H1; lia|].
  intros _. destruct (decide (l' = l)) as [->|]; [done|]. apply Hn. lia.
Qed.

Lemma first_none_high i l : Forall full l → first i l = None → Forall (λ x, height x ≤ i) l.
Proof.
  induction 1 as [|x l Hx Hl IH]; simpl; [done|]. rewrite Hx. destruct (Nat.ltb_spec i (height x)); [done|]. intros Hf. constructor; [done|]. by apply IH.
Qed.

Lemma del_absent k l : k ∉ map fst l → del k l = l.
Proof.
  unfold del. induction l as [|kv l IH]; [done|]. simpl. intros [Hk Hl]%not_elem_of_cons. rewrite filter_cons_True by (intros E; by apply Hk). by rewrite IH.
Qed.

Lemma del_mid k v l c : k ∉ map fst l → k ∉ map fst c → del k (l ++ (k, v) :: c) = l ++ c.
Proof.
  intros Hl Hc. unfold del. rewrite filter_app, filter_cons_False by (by intros H). fold (del k l) (del k c). by rewrite !del_absent.
Qed.

Lemma below_keys k l : below k l → k ∉ map fst (contents l).
Proof.
  intros Hl Hk. rewrite contents_keys in Hk. apply list_elem_of_fmap in Hk as (x & -> & Hx). unfold below in Hl. rewrite Forall_forall in Hl. specialize (Hl x Hx). lia.
Qed.

Lemma beyond_keys k l : Forall (λ x, (k < i_key x)%Z) l → k ∉ map fst (contents l).
Proof.
  intros Hl Hk. rewrite contents_keys in Hk. apply list_elem_of_fmap in Hk as (x & -> & Hx). rewrite Forall_forall in Hl. specialize (Hl x Hx). lia.
Qed.

Lemma findRemovePoint_ok l c s k : rep (l ++ c) s → below k l → above k c →
  findRemovePoint k s = Some ((λ x, (ad x, map (λ j, lastp j l) (seq 0 (level s)))) <$> present k c).
Proof.
  intros Hs Hl Hc. unfold findRemovePoint, findPrevNodes. destruct (level_S _ _ _ Hs) as (i & Hi & Hm).
  rewrite Hi, (prev_nodes_ok l c s k) by (done || apply start_top). cbn [mbind option_bind]. simpl lookup. cbn [mbind option_bind].
  rewrite (next_lastp l c) by (apply Hs || (unfold skipListMaxLevel; lia)). destruct (c_ok _ _ _ Hs) as [Hf Hh]. rewrite first_bottom by done.
  cbn [mbind option_bind]. destruct c as [|x c]; [done|]. simpl. destruct (node_at l (x :: c) s Hs x [] c eq_refl) as (n & -> & Hk & _).
  simpl. rewrite Hk. by destruct (_ =? _)%Z.
Qed.

(** The pointers of a node between operations. *)
Lemma node_next l x c s n : rep (l ++ x :: c) s → heap s !! ad x = Some n → next n = map (λ j, first j c) (seq 0 (height x)).
Proof.
  intros Hs Hn. destruct (node_at l (x :: c) s Hs x [] c eq_refl) as (n' & Hn' & _ & _ & Hlen & Hnx). rewrite Hn in Hn'. injection Hn' as <-.
  apply list_eq. intros i. destruct (decide (i < height x)) as [Hi|Hi].
  - specialize (Hnx i Hi). unfold next_at, nexts in Hnx. rewrite Hn in Hnx. simpl in Hnx. rewrite Hnx. rewrite list_lookup_fmap, lookup_seq_lt by done. done.
  - rewrite !lookup_ge_None_2; [done|rewrite length_map, length_seq; lia|lia].
Qed.

Lemma rep_remove l x y c s s1 lv : rep (l ++ x :: c) s → shape (l ++ y :: c) s1 → ad y = ad x → (∀ j, seen y j = false) →
  lv ≤ level s → 1 ≤ lv → (lv < level s → head s1 !! lv = Some None) →
  rep (l ++ c) (mkList lv (pred (len s)) (head s1) (delete (ad x) (heap s1))).
Proof.
  intros [_ Hfu Hhi Hso Hlev Hl0] Hsh Had Hy Hle H1 Hlow. pose proof (shape_drop _ _ _ _ Hsh Hy) as Hd. rewrite Had in Hd.
  assert (Forall full (l ++ c)) as Hf by (rewrite Forall_app, Forall_cons in Hfu; rewrite Forall_app; naive_solver).
  split; cbn [level len]; [|done|..].
  - by eapply shape_same_heap.
  - assert (Forall (λ z, 1 ≤ height z ≤ level s) (l ++ c)) as Hh by (rewrite Forall_app, Forall_cons in Hhi; rewrite Forall_app; naive_solver).
    destruct (decide (lv = level s)) as [->|Hne]; [done|]. specialize (Hlow ltac:(lia)).
    destruct Hd as [[_ Hhd] _ _ _]. specialize (Hhd lv ltac:(lia)). unfold next_at, nexts in Hhd. simpl in Hhd.
    rewrite Hlow in Hhd. injection Hhd as Hhd. symmetry in Hhd.
    pose proof (first_none_high _ _ Hf Hhd) as Hn. rewrite Forall_forall in *. intros z Hz. specialize (Hh z Hz). specialize (Hn z Hz). simpl in *. lia.
  - apply sorted_app in Hso as (H2 & H3 & H4). simpl in H3. apply StronglySorted_inv in H3 as [H3 _]. apply sorted_app. split_and!; [done|done|].
    intros a b Ha Hb. apply H4; [done|by right].
  - lia.
  - rewrite Hl0, !length_app. simpl. lia.
Qed.

Lemma remove_item a x c s : rep (a ++ x :: c) s → ∃ s1, Remove (i_key x) s = Some (true, s1) ∧ rep (a ++ c) s1.
Proof.
  intros Hs. assert (below (i_key x) a ∧ above (i_key x) (x :: c)) as [Ha Hc].
  { pose proof (rp_sorted _ _ Hs) as Hso. apply sorted_app in Hso as (_ & H2 & H3). split.
    - unfold below. rewrite Forall_forall. intros y Hy. apply H3; [done|left].
    - split; [|done]. simpl in H2. apply StronglySorted_inv in H2 as [_ H2]. constructor; [lia|].
      rewrite Forall_forall in H2. rewrite Forall_forall. intros y Hy. apply Z.lt_le_incl, H2. by apply list_elem_of_fmap_2. }
  unfold Remove. rewrite (findRemovePoint_ok a (x :: c)) by done. simpl present. rewrite Z.eqb_refl.
  cbn [mbind option_bind fmap option_fmap option_map]. destruct (node_at a (x :: c) s Hs x [] c eq_refl) as (n & Hn & _).
  rewrite Hn. cbn [mbind option_bind]. rewrite (node_next _ _ _ _ _ Hs Hn).
  pose proof (rp_high _ _ Hs) as Hhi. rewrite Forall_app, Forall_cons in Hhi. destruct Hhi as (_ & Hx & _). pose proof (rp_level _ _ Hs) as Hlev.
  destruct (unlink_levels_shape a c (map (λ j, lastp j a) (seq 0 (level s))) (height x) 0 x s (rp_shape _ _ Hs)) as (s1 & y & -> & (Hay & _) & Hy & Hsh & Hlv & Hln).
  - pose proof (rp_full _ _ Hs) as Hfu. rewrite Forall_app, Forall_cons in Hfu. destruct Hfu as (_ & Hf & _). intros j. rewrite Hf.
    destruct (Nat.ltb_spec j (height x)); [symmetry; apply bool_decide_eq_true_2; lia|symmetry; apply bool_decide_eq_false_2; lia].
  - lia.
  - intros j Hj. rewrite list_lookup_fmap, lookup_seq_lt by lia. done.
  - cbn [mbind option_bind]. destruct (sh_head _ _ Hsh) as [Hhl _].
    destruct (lower_level_ok (level s1) (head s1)) as (lv & -> & Hle & H1 & Hlow); [lia|]. cbn [mbind option_bind].
    eexists. split; [done|]. rewrite Hln. eapply rep_remove; [done|done|done|done|lia|lia|]. rewrite <- Hlv. done.
Qed.

Lemma Remove_ok k l s : rep l s →
  ∃ s1 l1, Remove k s = Some (bool_decide (k ∈ map fst (contents l)), s1) ∧ rep l1 s1 ∧ contents l1 = del k (contents l).
Proof.
  intros Hs. destruct (split_at k l (rp_sorted _ _ Hs)) as (a & c & -> & Ha & Hc).
  destruct (present k c) as [x|] eqn:Ep.
  - unfold present in Ep. destruct c as [|y c]; [done|]. destruct (Z.eqb_spec (i_key y) k) as [<-|]; [|done]. injection Ep as ->.
    destruct (remove_item _ _ _ _ Hs) as (s1 & -> & Hr). exists s1, (a ++ c). split_and!; [|done|].
    + rewrite bool_decide_eq_true_2; [done|]. rewrite contents_keys, map_app. apply elem_of_app. right. left.
    + unfold contents. rewrite !map_app. simpl. rewrite del_mid; [done|by apply below_keys|].
      apply beyond_keys. exact (above_head _ _ _ Hc).
  - unfold Remove. rewrite (findRemovePoint_ok a c), Ep by done. cbn [mbind option_bind fmap option_fmap option_map].
    pose proof (not_present k c Hc Ep) as Hn. assert (k ∉ map fst (contents (a ++ c))) as Hk.
    { unfold contents. rewrite !map_app. intros [H|H]%elem_of_app; [by apply (below_keys k a)|by apply (beyond_keys k c)]. }
    exists s, (a ++ c). rewrite bool_decide_eq_false_2 by done. by rewrite del_absent.
Qed.

(** ** Reading *)

Lemma rep_empty : rep [] (mkList 1 0 (replicate skipListMaxLevel None) ∅).
Proof.
  split; cbn [level len length map]; [|constructor|constructor|constructor|unfold skipListMaxLevel; lia|done].
  split; [|done|constructor|].
  - split; [apply length_replicate|]. intros i Hi. apply lookup_replicate_2. done.
  - intros a. simpl. rewrite lookup_empty. split; [by intros []|intros Ha; by apply not_elem_of_nil in Ha].
Qed.

Lemma Clear_ok l s : rep l s → rep [] (Clear s).
Proof. intros Hs. destruct (sh_head _ _ (rp_shape _ _ Hs)) as [Hl _]. unfold Clear. rewrite Hl. apply rep_empty. Qed.

Lemma collect_ok l c s : rep (l ++ c) s → collect (length c) s (ad <$> hd_error c) = Some (contents c).
Proof.
  revert l. induction c as [|x c IH]; intros l Hs; [done|]. simpl.
  destruct (node_at l (x :: c) s Hs x [] c eq_refl) as (n & -> & Hk & Hv & _ & Hnx). destruct (c_ok _ _ _ Hs) as [Hf Hh].
  inversion_clear Hf. inversion_clear Hh. simpl. rewrite Hnx by done. simpl. rewrite first_bottom by done.
  specialize (IH (l ++ [x])). rewrite <- app_assoc in IH. rewrite IH by done. simpl. by rewrite Hk, Hv.
Qed.

Lemma Iterate_ok l s : rep l s → Iterate s = Some (ad <$> hd_error l).
Proof.
  intros Hs. unfold Iterate. destruct (c_ok [] l s Hs) as [Hf Hh].
  change None with (lastp 0 []) at 1. rewrite (next_lastp [] l) by (apply Hs || (unfold skipListMaxLevel; lia)). by rewrite first_bottom.
Qed.

Lemma MoveToNext_ok l x c s : rep (l ++ x :: c) s → MoveToNext (ad x) s = Some (ad <$> hd_error c).
Proof.
  intros Hs. unfold MoveToNext. destruct (node_at l (x :: c) s Hs x [] c eq_refl) as (n & _ & _ & _ & _ & Hnx).
  destruct (c_ok _ _ _ Hs) as [Hf Hh]. inversion_clear Hf. inversion_clear Hh. rewrite Hnx by done. by rewrite first_bottom.
Qed.

Lemma ForEach_ok l s : rep l s → ForEach s = Some (contents l).
Proof.
  intros Hs. unfold ForEach. change (next_at s None 0) with (Iterate s). rewrite (Iterate_ok l) by done. cbn [mbind option_bind].
  rewrite (rp_len _ _ Hs). by apply (collect_ok []).
Qed.

Lemma at_key_none k l : k ∉ map fst l → at_key k l = None.
Proof.
  induction l as [|kv l IH]; [done|]. simpl. intros [Hk Hl]%not_elem_of_cons. destruct (Z.eqb_spec kv.1 k); [by subst|]. by apply IH.
Qed.

Lemma at_key_app k l c : k ∉ map fst l → at_key k (l ++ c) = at_key k c.
Proof.
  induction l as [|kv l IH]; [done|]. simpl. intros [Hk Hl]%not_elem_of_cons. destruct (Z.eqb_spec kv.1 k); [by subst|]. by apply IH.
Qed.

Lemma at_present k l c : below k l → above k c → at_key k (contents (l ++ c)) = i_val <$> present k c.
Proof.
  intros Hl Hc. unfold contents at 1. rewrite map_app. fold (contents l) (contents c). rewrite at_key_app by (by apply below_keys).
  destruct (present k c) as [x|] eqn:Ep; [|by apply at_key_none, beyond_keys, not_present].
  unfold present in Ep. destruct c as [|y c]; [done|]. simpl. destruct (i_key y =? k)%Z; [|done]. by injection Ep as ->.
Qed.

Lemma at_key_in k l : bool_decide (is_Some (at_key k l)) = bool_decide (k ∈ map fst l).
Proof.
  apply bool_decide_ext. induction l as [|kv l IH]; simpl; [split; [by intros []|intros H; by apply not_elem_of_nil in H]|].
  rewrite elem_of_cons. destruct (Z.eqb_spec kv.1 k) as [<-|Hne]; [split; [by left|by eexists]|]. rewrite IH. naive_solver.
Qed.

Lemma Find_ok k l s : rep l s → Find k s = Some (at_key k (contents l)) ∧ Has k s = Some (bool_decide (k ∈ map fst (contents l))).
Proof.
  intros Hs. destruct (split_at k l (rp_sorted _ _ Hs)) as (a & c & -> & Ha & Hc). rewrite <- at_key_in, at_present by done.
  unfold Find, Has. rewrite (findNode_ok a c) by done. cbn [mbind option_bind].
  destruct (present k c) as [x|] eqn:Ep; [|done]. destruct (present_in _ _ _ Ep) as [Hx _]. apply list_elem_of_split in Hx as (b1 & b2 & ->).
  simpl. destruct (node_at a (b1 ++ x :: b2) s Hs x b1 b2 eq_refl) as (n & -> & _ & Hv & _). simpl. rewrite Hv. done.
Qed.

(** A node as an entry. *)
Definition entry (s : SkipList) (a : nat) : option (Z * V) := (λ n, (key n, value n)) <$> heap s !! a.

Lemma entry_head a c s : rep (a ++ c) s → (ad <$> hd_error c) ≫= entry s = hd_error (contents c).
Proof.
  intros Hs. destruct c as [|x c]; [done|]. simpl. unfold entry.
  destruct (node_at a (x :: c) s Hs x [] c eq_refl) as (n & -> & Hk & Hv & _). simpl. by rewrite Hk, Hv.
Qed.

Lemma filter_split (P : Z → Prop) `{∀ z, Decision (P z)} l c :
  Forall (λ x, ¬ P (i_key x)) l → Forall (λ x, P (i_key x)) c → filter (λ kv, P kv.1) (contents (l ++ c)) = contents c.
Proof.
  intros Hl Hc. unfold contents. rewrite map_app, filter_app. rewrite (filter_all _ (map _ c)).
  - induction Hl as [|x l Hx Hl IH]; [done|]. simpl. rewrite filter_cons_False by done. done.
  - by apply Forall_map.
Qed.

Lemma bounds_ok k l s : rep l s →
  (r ← lowerBound k s; Some (r ≫= entry s)) = Some (hd_error (filter (λ kv, (k ≤ kv.1)%Z) (contents l))) ∧
  (r ← upperBound k s; Some (r ≫= entry s)) = Some (hd_error (filter (λ kv, (k < kv.1)%Z) (contents l))).
Proof.
  intros Hs. destruct (split_at k l (rp_sorted _ _ Hs)) as (a & c & -> & Ha & Hc). split.
  - rewrite (lowerBound_ok a c) by done. cbn [mbind option_bind]. rewrite (entry_head a c) by done. do 2 f_equal. symmetry.
    apply (filter_split (λ z, k ≤ z)%Z); [|by destruct Hc]. eapply Forall_impl; [exact Ha|]. simpl. lia.
  - rewrite (upperBound_ok a c) by done. cbn [mbind option_bind]. destruct (present k c) as [x|] eqn:Ep.
    + unfold present in Ep. destruct c as [|y c]; [done|]. destruct (Z.eqb_spec (i_key y) k) as [<-|]; [|done]. injection Ep as ->. simpl tail.
      pose proof (above_head _ _ _ Hc) as Hgt. rewrite (cons_middle x a c), app_assoc in Hs |- *. rewrite (entry_head (a ++ [x]) c) by done.
      do 2 f_equal. symmetry. apply (filter_split (λ z, i_key x < z)%Z); [|done]. apply Forall_app. split; [eapply Forall_impl; [exact Ha|]; simpl; lia|].
      constructor; [lia|constructor].
    + rewrite (entry_head a c) by done. do 2 f_equal. symmetry. apply (filter_split (λ z, k < z)%Z); [|by apply not_present].
      eapply Forall_impl; [exact Ha|]. simpl. lia.
Qed.

(** ** The list as a whole *)

Inductive op := OpInsert (r k : Z) (v : V) | OpRemove (k : Z) | OpClear.

Definition exec (o : op) (s : SkipList) : option SkipList :=
  match o with
  | OpInsert r k v => Insert r k v s
  | OpRemove k => r ← Remove k s; Some r.2
  | OpClear => Some (Clear s)
  end.

Fixpoint run (ops : list op) (s : SkipList) : option SkipList :=
  match ops with [] => Some s | o :: ops' => s1 ← exec o s; run ops' s1 end.

Definition spec_exec (l : list (Z * V)) (o : op) : list (Z * V) :=
  match o with OpInsert _ k v => put k v l | OpRemove k => del k l | OpClear => [] end.

Lemma put_length k v l : length (put k v l) ≤ S (length l).
Proof. induction l as [|kv l IH]; simpl; [lia|]. repeat case_match; simpl; lia. Qed.

Lemma exec_ok o l s : rep l s → (Z.of_nat (len s) < 2 ^ 38)%Z →
  ∃ s1 l1, exec o s = Some s1 ∧ rep l1 s1 ∧ contents l1 = spec_exec (contents l) o ∧ len s1 ≤ S (len s).
Proof.
  intros Hs Hl. assert (∃ s1 l1, exec o s = Some s1 ∧ rep l1 s1 ∧ contents l1 = spec_exec (contents l) o) as (s1 & l1 & He & Hr & Hc).
  { destruct o as [r k v|k|]; simpl.
    - by apply Insert_ok.
    - destruct (Remove_ok k l s Hs) as (s1 & l1 & -> & Hr & Hc). by exists s1, l1.
    - exists (Clear s), []. split_and!; [done|by eapply Clear_ok|done]. }
  exists s1, l1. split_and!; try done. rewrite (rp_len _ _ Hr), (rp_len _ _ Hs).
  rewrite <- (contents_length l1), <- (contents_length l), Hc.
  destruct o as [r k v|k|]; simpl; [apply put_length| |lia]. unfold del. pose proof (length_filter (λ kv : Z * V, kv.1 ≠ k) (contents l)). lia.
Qed.

Lemma run_ok ops l s : rep l s → (Z.of_nat (len s + length ops) < 2 ^ 38)%Z →
  ∃ s1 l1, run ops s = Some s1 ∧ rep l1 s1 ∧ contents l1 = foldl spec_exec (contents l) ops.
Proof.
  revert l s. induction ops as [|o ops IH]; intros l s Hs Hl; simpl; [by exists s, l|]. simpl in Hl.
  destruct (exec_ok o l s Hs ltac:(lia)) as (s1 & l1 & -> & Hr & <- & Hle). simpl. apply IH; [done|lia].
Qed.

End skiplist.

(** C21: Any sequence of insertions, removals and clearings, of fewer than [2 ^ 38], goes
    through without a panic, whatever levels the random numbers give, and leaves the
    list that inserting into a sorted list and deleting from it leave: [ForEach] and [Len]
    give it, and [Find], [Has], [Remove], [LowerBound] and [UpperBound] give of every key
    what a search through it gives. *)
Theorem skiplist_refines_map {V} (ops : list (@op V)) : (Z.of_nat (length ops) < 2 ^ 38)%Z →
  let l := foldl spec_exec [] ops in
  StronglySorted Z.lt (map fst l) ∧
  ∃ s, run ops NewSkipList = Some s ∧ ForEach s = Some l ∧ len s = length l ∧ IsEmpty s = bool_decide (l = []) ∧
    ∀ k, Find k s = Some (at_key k l) ∧ Has k s = Some (bool_decide (k ∈ map fst l)) ∧
      fst <$> Remove k s = Some (bool_decide (k ∈ map fst l)) ∧
      (r ← lowerBound k s; Some (r ≫= entry s)) = Some (hd_error (filter (λ kv, (k ≤ kv.1)%Z) l)) ∧
      (r ← upperBound k s; Some (r ≫= entry s)) = Some (hd_error (filter (λ kv, (k < kv.1)%Z) l)).
Proof.
  intros Hl. destruct (run_ok ops [] NewSkipList rep_empty Hl) as (s & m & Hr & Hs & Hc). change (contents []) with (@nil (Z * V)) in Hc.
  rewrite <- Hc. split; [rewrite contents_keys; apply Hs|]. exists s. split_and!; [done|by apply ForEach_ok|..].
  - rewrite (rp_len _ _ Hs). symmetry. apply contents_length.
  - unfold IsEmpty. rewrite (rp_len _ _ Hs). by destruct m.
  - intros k. destruct (Find_ok k m s Hs) as [Hf Hh]. destruct (bounds_ok k m s Hs) as [Hlo Hup]. split_and!; try done.
    destruct (Remove_ok k m s Hs) as (s1 & m1 & -> & _). done.
Qed.

(** What the list of the specification says of a key. *)
Lemma at_key_put {V} k k' (v : V) l : StronglySorted Z.lt (map fst l) → at_key k' (put k v l) = if (k' =? k)%Z then Some v else at_key k' l.
Proof.
  induction l as [|kv l IH]; simpl; [by rewrite Z.eqb_sym|]. intros [Hs Hk]%StronglySorted_inv.
  destruct (Z.ltb_spec k kv.1); simpl; [by rewrite (Z.eqb_sym k k')|].
  destruct (Z.eqb_spec k kv.1) as [->|Hne]; simpl; [rewrite (Z.eqb_sym k' kv.1); by destruct (kv.1 =? k')%Z|].
  rewrite IH by done. destruct (Z.eqb_spec kv.1 k') as [<-|]; [|done]. by rewrite (proj2 (Z.eqb_neq kv.1 k)) by done.
Qed.

Lemma at_key_del {V} k k' (l : list (Z * V)) : at_key k' (del k l) = if (k' =? k)%Z then None else at_key k' l.
Proof.
  unfold del. induction l as [|kv l IH]; simpl; [by destruct (_ =? _)%Z|]. destruct (decide (kv.1 = k)) as [E|E].
  - rewrite filter_cons_False by (by intros H). rewrite IH. destruct (Z.eqb_spec k' k); [done|]. destruct (Z.eqb_spec kv.1 k'); [lia|done].
  - rewrite filter_cons_True by done. simpl. rewrite IH. destruct (Z.eqb_spec kv.1 k'); [|done]. destruct (Z.eqb_spec k' k); [lia|done].
Qed.

Definition example_ops : list (@op Z) :=
  [OpInsert 3 10 11; OpInsert 500000000000 4 12; OpInsert 1 7 13; OpInsert 9 10 14; OpRemove 4; OpInsert 20 2 15; OpRemove 5]%Z.

Lemma skiplist_refines_map_witness :
  ∃ s, run example_ops NewSkipList = Some s ∧ ForEach s = Some [(2, 15); (7, 13); (10, 14)]%Z ∧ Find 7 s = Some (Some 13%Z).
Proof.
  destruct (skiplist_refines_map example_ops ltac:(vm_compute; reflexivity)) as (_ & s & Hr & Hf & _ & _ & Hk). exists s. split_and!; [exact Hr|exact Hf|exact (proj1 (Hk 7%Z))].
Defined.
