(* ===== verification/AnytlsPool.v ===== *)
(** * The sessions of an AnyTLS client: [transport/anytls/session/client.go]

    A client keeps the sessions that are open, and in a skip list the idle ones, the
    newest first.  [CreateStream] takes an idle session or makes one; when its stream
    ends a hook puts the session back; from time to time idle sessions are closed.
    A session is its number here: of its own code (Anytls.v) it only matters whether it
    is closed, whether it can open a stream, and when its stream ends.

    The runs of the theorem [pool_exclusive] take each of these as one step:
    [CreateStream] up to the hook, the setting of the hook, the end of a stream with its
    hook, the death of a session, a cleanup, [Close].  The code is finer: it holds
    its locks only inside [getIdleSession], [createSession], the locked part of the
    hook ([hook_insert]) and the like, so that other goroutines may come in between.
    What that costs is shown on these parts: a stream that ends before its hook is
    there loses its session ([hook_too_late]), a [Close] during a dial leaves the new
    session open ([close_during_dial]), and a session that dies between the hook's
    test and its insertion stays idle and fails the next stream
    ([dies_before_insert]).  Every operation of the skip list may fail in the model as in
    the code (Skiplist.v), so the theorem also says that no operation panics. *)

From Stdlib Require Import ZArith Lia.
From stdpp Require Import prelude gmap list sorting.
From S2P Require Import Prelude Skiplist.

Open Scope Z_scope.

Definition MaxUint64 : Z := 2 ^ 64 - 1.

(** [idleSince] of the sessions, counted from the zero time, which a session has that was
    never idle; [dead] are those that were closed.  [streams] has the open streams by their
    session, and whether the hook is set. *)
Record Client := mkClient {
  sessionCounter : Z;
  idleSession : SkipList (V := Z);
  sessions : gset Z;
  idleSince : gmap Z Z;
  dead : gset Z;
  streams : gmap Z bool;
  cancelled : bool;
}.

Definition NewClient : Client := mkClient 0 NewSkipList ∅ ∅ ∅ ∅ false.

Definition idle_key (seq : Z) : Z := MaxUint64 - seq.

Definition set_idle (l : SkipList) (since : gmap Z Z) (c : Client) : Client :=
  mkClient (sessionCounter c) l (sessions c) since (dead c) (streams c) (cancelled c).

Definition set_streams (m : gmap Z bool) (c : Client) : Client :=
  mkClient (sessionCounter c) (idleSession c) (sessions c) (idleSince c) (dead c) m (cancelled c).

(** [Session.Close] of the session [seq], with the hook that [createSession] sets; its
    streams end, and find it closed. *)
Definition close_session (seq : Z) (c : Client) : option Client :=
  if bool_decide (seq ∈ dead c) then Some c
  else
    r ← Remove (idle_key seq) (idleSession c);
    Some (mkClient (sessionCounter c) r.2 (sessions c ∖ {[seq]}) (idleSince c) ({[seq]} ∪ dead c) (delete seq (streams c)) (cancelled c)).

Fixpoint close_all (l : list Z) (c : Client) : option Client :=
  match l with [] => Some c | seq :: l' => c1 ← close_session seq c; close_all l' c1 end.

(** The session that was idle for the shortest, taken out. *)
Definition getIdleSession (c : Client) : option (option Z * Client) :=
  if IsEmpty (idleSession c) then Some (None, c)
  else
    it ← Iterate (idleSession c);
    a ← it;
    n ← heap (idleSession c) !! a;
    r ← Remove (key n) (idleSession c);
    Some (Some (value n), set_idle r.2 (idleSince c) c).

(** [dial] is that the connection can be made. *)
Definition createSession (dial : bool) (c : Client) : option Z * Client :=
  if dial then
    let seq := @wrap uint64 (sessionCounter c + 1) in
    (Some seq, mkClient seq (idleSession c) ({[seq]} ∪ sessions c) (idleSince c) (dead c) (streams c) (cancelled c))
  else (None, c).

(** The part of [CreateStream] that opens the stream.  [opens] is that the session, when it
    is not closed, can write the opening of a stream. *)
Definition open_stream (opens : bool) (seq : Z) (c : Client) : option (option Z * Client) :=
  if opens && bool_decide (seq ∉ dead c) then Some (Some seq, set_streams (<[seq := false]> (streams c)) c)
  else c1 ← close_session seq c; Some (None, c1).

(** [CreateStream] up to the hook: the session of the stream, [None] for an error. *)
Definition CreateStream (dial opens : bool) (c : Client) : option (option Z * Client) :=
  if cancelled c then Some (None, c)
  else
    r ← getIdleSession c;
    let '(session, c2) := match r with (Some seq, c1) => (Some seq, c1) | (None, c1) => createSession dial c1 end in
    match session with
    | None => Some (None, c2)
    | Some seq => open_stream opens seq c2
    end.

(** The hook of the stream of [seq]. *)
Definition set_hook (seq : Z) (c : Client) : Client := set_streams (alter (λ _, true) seq (streams c)) c.

(** The locked part of that hook. *)
Definition hook_insert (r now seq : Z) (c : Client) : option Client :=
  l ← Insert r (idle_key seq) seq (idleSession c); Some (set_idle l (<[seq := now]> (idleSince c)) c).

(** The stream of [seq] ends, at the time [now]; [r] is the random number of the list. *)
Definition stream_ends (r now seq : Z) (c : Client) : option Client :=
  match streams c !! seq with
  | Some hook =>
    let c1 := set_streams (delete seq (streams c)) c in
    if hook && bool_decide (seq ∉ dead c) then
      if cancelled c then close_session seq c1
      else hook_insert r now seq c1
    else Some c1
  | None => Some c
  end.

(** The loop of [idleCleanupExpTime] from the node [it] on: the sessions to close. *)
Fixpoint cleanup_loop (fuel : nat) (minIdleSession : nat) (expTime now : Z) (it : option nat) (activeCount : nat) (c : Client) : option (list Z * Client) :=
  match it with
  | None => Some ([], c)
  | Some a =>
    match fuel with
    | O => None
    | S fuel' =>
      n ← heap (idleSession c) !! a;
      let session := value n in
      it' ← MoveToNext a (idleSession c);
      if negb (default 0 (idleSince c !! session) <? expTime) then cleanup_loop fuel' minIdleSession expTime now it' (S activeCount) c
      else if (activeCount <? minIdleSession)%nat then
        cleanup_loop fuel' minIdleSession expTime now it' (S activeCount) (set_idle (idleSession c) (<[session := now]> (idleSince c)) c)
      else
        r ← Remove (key n) (idleSession c);
        q ← cleanup_loop fuel' minIdleSession expTime now it' activeCount (set_idle r.2 (idleSince c) c);
        Some (session :: q.1, q.2)
    end
  end.

Definition idleCleanupExpTime (minIdleSession : nat) (expTime now : Z) (c : Client) : option Client :=
  it ← Iterate (idleSession c);
  q ← cleanup_loop (len (idleSession c)) minIdleSession expTime now it 0 c;
  close_all q.1 q.2.

Definition Close (c : Client) : option Client :=
  let c1 := mkClient (sessionCounter c) (idleSession c) ∅ (idleSince c) (dead c) (streams c) true in
  close_all (elements (sessions c)) c1.

(** ** Steps *)

Inductive step := SCreate (dial opens : bool) | SHook (seq : Z) | SEnd (r now seq : Z) | SDie (seq : Z) | SCleanup (minIdle : nat) (expTime now : Z) | SClose.

Definition exec_step (st : step) (c : Client) : option Client :=
  match st with
  | SCreate dial opens => r ← CreateStream dial opens c; Some r.2
  | SHook seq => Some (set_hook seq c)
  | SEnd r now seq => stream_ends r now seq c
  | SDie seq => if bool_decide (seq ∈ sessions c) then close_session seq c else Some c
  | SCleanup m e n => idleCleanupExpTime m e n c
  | SClose => Close c
  end.

Fixpoint run_steps (l : list step) (c : Client) : option Client :=
  match l with [] => Some c | st :: l' => c1 ← exec_step st c; run_steps l' c1 end.

(** ** What holds between steps

    [L] are the sessions that are not closed. *)
Record ok (L : gset Z) (c : Client) (l : list item) : Prop := {
  ok_rep : rep l (idleSession c);
  ok_idle : Forall (λ kv, kv.1 = idle_key kv.2 ∧ kv.2 ∈ L ∧ streams c !! kv.2 = None) (contents l);
  ok_streams : ∀ seq, is_Some (streams c !! seq) → seq ∈ L;
  ok_live : ∀ seq, seq ∈ L → seq ∉ dead c ∧ 1 ≤ seq ≤ sessionCounter c;
  ok_sessions : sessions c ⊆ L;
  ok_dead : ∀ seq, seq ∈ dead c → seq ≤ sessionCounter c;
  ok_counter : 0 ≤ sessionCounter c }.

(** The idle sessions in their order. *)
Definition idle (l : list item) : list Z := map i_val l.

Lemma idle_contents l : idle l = map snd (contents l).
Proof. unfold idle, contents. by rewrite map_map. Qed.

Lemma len_idle l c : rep l (idleSession c) → len (idleSession c) = length (idle l).
Proof. intros Hs. rewrite (rp_len _ _ Hs). symmetry. apply length_map. Qed.

Lemma close_session_ok seq L c l : ok L c l → seq ≤ sessionCounter c →
  ∃ c1 l1, close_session seq c = Some c1 ∧ ok (L ∖ {[seq]}) c1 l1 ∧ dead c1 = {[seq]} ∪ dead c ∧ sessions c1 = sessions c ∖ {[seq]} ∧
    sessionCounter c1 = sessionCounter c ∧ cancelled c1 = cancelled c ∧ idle l1 = filter (λ x, x ≠ seq) (idle l).
Proof.
  intros [Hr Hi Hs Hl Hss Hde Hc] Hseq. unfold close_session. destruct (decide (seq ∈ dead c)) as [Hd|Hd].
  - rewrite bool_decide_eq_true_2 by done. assert (seq ∉ L) as Hn by (intros H; by apply Hl in H as [? _]).
    exists c, l. split_and!; try done; [|set_solver|set_solver|].
    + replace (L ∖ {[seq]}) with L by set_solver. by split.
    + symmetry. apply filter_all. rewrite idle_contents. apply Forall_map. eapply Forall_impl; [exact Hi|]. simpl. intros kv (_ & Hk & _) E. by rewrite E in Hk.
  - rewrite bool_decide_eq_false_2 by done. destruct (Remove_ok (idle_key seq) l (idleSession c) Hr) as (s1 & l1 & -> & Hr1 & Hc1). cbn [mbind option_bind].
    eexists _, l1. split_and!; try done.
    + split; simpl; try done.
      * rewrite Hc1. unfold del. rewrite Forall_forall in *. intros kv [Hk Hin]%list_elem_of_filter. destruct (Hi kv Hin) as (H1 & H2 & H3).
        assert (kv.2 ≠ seq) by (intros E; apply Hk; by rewrite H1, E). split_and!; [done|set_solver|by rewrite lookup_delete_ne].
      * intros q [x Hq]. apply lookup_delete_Some in Hq as [Hne Hq]. apply elem_of_difference. split; [apply Hs; by eexists|set_solver].
      * intros q [Hq Hne]%elem_of_difference. destruct (Hl q Hq). split; [set_solver|done].
      * set_solver.
      * intros q [->%elem_of_singleton|Hq]%elem_of_union; [done|by apply Hde].
    + rewrite !idle_contents, Hc1. unfold del. clear Hc1. induction Hi as [|kv m (Hk & _) Hi IH]; [done|]. simpl.
      destruct (decide (kv.2 = seq)) as [E|E].
      * rewrite filter_cons_False by (rewrite Hk, E; by intros []). rewrite filter_cons_False by (by intros []). done.
      * rewrite filter_cons_True by (rewrite Hk; unfold idle_key; lia). rewrite filter_cons_True by done. simpl. by rewrite IH.
Qed.

Lemma close_all_ok qs L c l : ok L c l → Forall (λ q, q ≤ sessionCounter c) qs →
  ∃ c1 l1, close_all qs c = Some c1 ∧ ok (L ∖ list_to_set qs) c1 l1 ∧ dead c1 = list_to_set qs ∪ dead c ∧ sessions c1 = sessions c ∖ list_to_set qs ∧
    sessionCounter c1 = sessionCounter c ∧ cancelled c1 = cancelled c ∧ idle l1 = filter (λ x, x ∉ qs) (idle l).
Proof.
  revert L c l. induction qs as [|q qs IH]; intros L c l Hok Hqs; simpl.
  - exists c, l. split_and!; try done; [|set_solver|set_solver|].
    + replace (L ∖ ∅) with L by set_solver. done.
    + symmetry. apply filter_all. apply Forall_forall. intros x _. apply not_elem_of_nil.
  - inversion_clear Hqs as [|? ? Hq Hqs']. destruct (close_session_ok q L c l Hok Hq) as (c1 & l1 & -> & Hok1 & Hd1 & Hs1 & Hn1 & Hca1 & Hi1). simpl.
    rewrite <- Hn1 in Hqs'. destruct (IH _ _ _ Hok1 Hqs') as (c2 & l2 & -> & Hok2 & Hd2 & Hs2 & Hn2 & Hca2 & Hi2). exists c2, l2. split_and!; try done; try congruence.
    + by replace (L ∖ ({[q]} ∪ list_to_set qs)) with ((L ∖ {[q]}) ∖ list_to_set qs) by set_solver.
    + rewrite Hd2, Hd1. set_solver.
    + rewrite Hs2, Hs1. set_solver.
    + rewrite Hi2, Hi1, list_filter_filter. apply list_filter_iff. intros x. rewrite not_elem_of_cons. naive_solver.
Qed.

(** An idle session, the newest, is taken out. *)
Lemma getIdleSession_ok L c l : ok L c l →
  match l with
  | [] => getIdleSession c = Some (None, c)
  | x :: l' => ∃ c1, getIdleSession c = Some (Some (i_val x), c1) ∧ ok L c1 l' ∧ i_val x ∈ L ∧ streams c1 !! i_val x = None ∧
      dead c1 = dead c ∧ sessions c1 = sessions c ∧ sessionCounter c1 = sessionCounter c ∧ cancelled c1 = cancelled c ∧ streams c1 = streams c
  end.
Proof.
  intros Hok. pose proof Hok as [Hr Hi Hs Hl Hss Hde Hc]. unfold getIdleSession, IsEmpty. rewrite (rp_len _ _ Hr). destruct l as [|x l]; [done|]. simpl.
  rewrite (Iterate_ok (x :: l)) by done. simpl.
  destruct (node_at [] (x :: l) _ Hr x [] l eq_refl) as (n & -> & Hk & Hv & _). simpl. rewrite Hk, Hv.
  destruct (remove_item [] x l _ Hr) as (s1 & -> & Hr1). simpl. simpl in Hi. inversion_clear Hi as [|? ? (Hi1 & Hi2 & Hi3) Hi'].
  eexists. by split_and!.
Qed.

Lemma idle_distinct x l c L a : ok L c (a ++ x :: l) → i_val x ∉ idle l.
Proof.
  intros [Hr Hi _ _ _ _ _] Hx. pose proof (rp_sorted _ _ Hr) as Hso. apply sorted_app in Hso as (_ & Hso & _). simpl in Hso.
  apply StronglySorted_inv in Hso as [_ Hlt]. unfold contents in Hi. rewrite map_app, Forall_app in Hi. simpl in Hi. rewrite Forall_cons in Hi.
  destruct Hi as (_ & (Hk & _) & Hi). apply list_elem_of_fmap in Hx as (y & Hv & Hy).
  rewrite Forall_forall in Hlt. rewrite Forall_forall in Hi. specialize (Hlt (i_key y)). specialize (Hi (i_key y, i_val y)).
  destruct Hi as (Hky & _); [by apply (list_elem_of_fmap_2 (λ x, (i_key x, i_val x)))|]. simpl in *.
  assert (i_key x < i_key y) by (apply Hlt; by apply list_elem_of_fmap_2). rewrite Hk, Hky, Hv in H. lia.
Qed.

Lemma set_since_ok L c l m : ok L c l → ok L (set_idle (idleSession c) m c) l.
Proof. intros []. by split. Qed.

Lemma drop_idle_ok L c a x l s : ok L c (a ++ x :: l) → rep (a ++ l) s → ok L (set_idle s (idleSince c) c) (a ++ l).
Proof.
  intros [Hr Hi Hs Hl Hss Hde Hc] Hr1. split; try done. unfold contents in *. rewrite map_app, Forall_app in *. simpl in Hi. rewrite Forall_cons in Hi. naive_solver.
Qed.

(** ** Every step *)

(** The state between steps, after at most [n] of them. *)
Definition good (n : Z) (c : Client) (l : list item) : Prop := ok (sessions c) c l ∧ sessionCounter c ≤ n ∧ Z.of_nat (length l) ≤ n.

Lemma length_idle l : length (idle l) = length l.
Proof. apply length_map. Qed.

Lemma idle_live L c l : ok L c l → ∀ seq, seq ∈ idle l → seq ∈ L ∧ streams c !! seq = None.
Proof.
  intros Hok seq Hq. rewrite idle_contents in Hq. apply list_elem_of_fmap in Hq as (kv & -> & Hkv).
  pose proof (ok_idle _ _ _ Hok) as Hi. rewrite Forall_forall in Hi. by destruct (Hi kv Hkv) as (_ & ? & ?).
Qed.

Lemma createSession_ok c l : ok (sessions c) c l → sessionCounter c < 2 ^ 38 →
  ∃ c1, createSession true c = (Some (sessionCounter c + 1), c1) ∧ ok (sessions c1) c1 l ∧ sessionCounter c1 = sessionCounter c + 1 ∧
    sessions c1 = {[sessionCounter c + 1]} ∪ sessions c ∧ streams c1 = streams c ∧ dead c1 = dead c ∧ sessionCounter c + 1 ∉ dead c ∧
    sessionCounter c + 1 ∉ sessions c.
Proof.
  intros Hok Hn. pose proof (ok_counter _ _ _ Hok). unfold createSession. rewrite (@wrap_id uint64) by int_lia. destruct Hok as [Hr Hi Hs Hl Hss Hde Hc].
  assert (sessionCounter c + 1 ∉ dead c) as Hnd by (intros H1; apply Hde in H1; lia).
  assert (sessionCounter c + 1 ∉ sessions c) as Hnl by (intros H1; apply Hl in H1; lia).
  eexists. split_and!; try done. split; simpl; try done; try lia.
  - eapply Forall_impl; [exact Hi|]. simpl. intros kv (H1 & H2 & H3). split_and!; [done|set_solver|done].
  - intros seq Hq. apply elem_of_union. right. by apply Hs.
  - intros seq [->%elem_of_singleton|Hq]%elem_of_union; [split; [done|lia]|]. destruct (Hl seq Hq). split; [done|lia].
  - intros seq Hq. apply Hde in Hq. lia.
Qed.

(** The opening of a stream on the live session [seq], which is not idle. *)
Lemma open_ok (opens : bool) seq c l : ok (sessions c) c l → seq ∈ sessions c → seq ∉ idle l →
  ∃ r c1 l1, open_stream opens seq c = Some (r, c1) ∧ ok (sessions c1) c1 l1 ∧ sessionCounter c1 = sessionCounter c ∧
    (length l1 ≤ length l)%nat ∧ (∀ q, r = Some q → q = seq ∧ streams c1 !! q = Some false ∧ q ∈ sessions c1).
Proof.
  unfold open_stream.
  intros Hok Hq Hni. pose proof Hok as [Hr Hi Hs Hl Hss Hde Hc]. destruct (Hl seq Hq) as [Hnd Hle]. rewrite (bool_decide_eq_true_2 _ Hnd). destruct opens; simpl.
  - eexists _, _, l. split_and!; [done| |done|done|].
    + split; try done; simpl.
      * rewrite Forall_forall in *. intros kv Hkv. destruct (Hi kv Hkv) as (H1 & H2 & H3). split_and!; [done|done|].
        rewrite lookup_insert_ne; [done|]. intros E. apply Hni. rewrite idle_contents, E. by apply list_elem_of_fmap_2.
      * intros q Hx. destruct (decide (q = seq)) as [->|Hne]; [done|]. rewrite lookup_insert_ne in Hx by done. by apply Hs.
    + intros q [= <-]. simpl. split_and!; [done|by rewrite lookup_insert_eq|done].
  - destruct (close_session_ok seq _ c l Hok ltac:(lia)) as (c1 & l1 & -> & Hok1 & _ & Hs1 & Hn1 & _ & Hi1). simpl.
    exists None, c1, l1. split_and!; try done; [by rewrite Hs1|]. rewrite <- !length_idle, Hi1. apply length_filter.
Qed.

Lemma CreateStream_ok n dial opens c l : good n c l → n < 2 ^ 38 →
  ∃ r c1 l1, CreateStream dial opens c = Some (r, c1) ∧ good (n + 1) c1 l1 ∧
    (∀ seq, r = Some seq → streams c !! seq = None ∧ seq ∉ dead c ∧ streams c1 !! seq = Some false ∧ seq ∈ sessions c1).
Proof.
  intros (Hok & Hn & Hlen) Hb. unfold CreateStream. destruct (cancelled c).
  { exists None, c, l. split_and!; [done| |done]. split_and!; [done|lia|lia]. }
  pose proof (getIdleSession_ok _ _ _ Hok) as Hg. destruct l as [|x l].
  - rewrite Hg. cbn [mbind option_bind]. destruct dial; [|exists None, c, []; split_and!; [done| |done]; split_and!; [done|lia|simpl; lia]].
    destruct (createSession_ok c [] Hok ltac:(lia)) as (c1 & -> & Hok1 & Hn1 & Hs1 & Hst1 & Hd1 & Hnd & Hns).
    destruct (open_ok opens (sessionCounter c + 1) c1 [] Hok1) as (r & c2 & l2 & -> & Hok2 & Hn2 & Hle & Hr2); [set_solver|apply not_elem_of_nil|].
    exists r, c2, l2. split_and!; [done|split_and!; [done|lia|simpl in Hle; lia]|]. intros seq E. destruct (Hr2 seq E) as (-> & H1 & H2). split_and!; try done.
    apply eq_None_not_Some. intros Hx. by apply (ok_streams _ _ _ Hok) in Hx.
  - destruct Hg as (c1 & -> & Hok1 & Hx & Hst & Hd1 & Hs1 & Hn1 & Hca & Hst1). cbn [mbind option_bind]. rewrite <- Hs1 in Hok1, Hx.
    destruct (open_ok opens (i_val x) c1 l Hok1 Hx) as (r & c2 & l2 & -> & Hok2 & Hn2 & Hle & Hr2); [by apply (idle_distinct x l c (sessions c) [])|].
    exists r, c2, l2. split_and!; [done|split_and!; [done|lia|simpl in Hlen; lia]|]. assert (i_val x ∉ dead c) as Hnd by (rewrite <- Hd1; by apply (ok_live _ _ _ Hok1)).
    rewrite Hst1 in Hst. intros seq E. by destruct (Hr2 seq E) as (-> & H1 & H2).
Qed.

Lemma set_hook_ok n seq c l : good n c l → good n (set_hook seq c) l.
Proof.
  intros ([Hr Hi Hs Hl Hss Hde Hc] & Hn & Hlen). split_and!; try done. split; try done; simpl.
  - eapply Forall_impl; [exact Hi|]. simpl. intros kv (H1 & H2 & H3). split_and!; [done|done|]. destruct (decide (kv.2 = seq)) as [<-|Hne];
      [by rewrite lookup_alter_eq, H3|by rewrite lookup_alter_ne].
  - intros q Hx. apply Hs. destruct (decide (q = seq)) as [->|Hne]; [rewrite lookup_alter_eq in Hx; by rewrite fmap_is_Some in Hx|by rewrite lookup_alter_ne in Hx].
Qed.

Lemma stream_ends_ok n r now seq c l : good n c l → n < 2 ^ 38 →
  ∃ c1 l1, stream_ends r now seq c = Some c1 ∧ good (n + 1) c1 l1.
Proof.
  intros (Hok & Hn & Hlen) Hb. unfold stream_ends, hook_insert. destruct (streams c !! seq) as [hook|] eqn:Eq; [|exists c, l; split; [done|]; split_and!; [exact Hok|lia|lia]].
  pose proof Hok as [Hr Hi Hs Hl Hss Hde Hc]. assert (seq ∈ sessions c) as Hq by (apply Hs; by eexists). destruct (Hl seq Hq) as [Hnd Hle].
  set (c1 := set_streams (delete seq (streams c)) c). assert (ok (sessions c) c1 l) as Hok1.
  { split; try done; simpl.
    - eapply Forall_impl; [exact Hi|]. simpl. intros kv (H1 & H2 & H3). split_and!; [done|done|]. apply lookup_delete_None. by right.
    - intros q [y Hx]. apply lookup_delete_Some in Hx as [_ Hx]. apply Hs. by eexists. }
  destruct (hook && bool_decide (seq ∉ dead c)); [|exists c1, l; split; [done|]; split_and!; [exact Hok1|simpl; lia|lia]]. destruct (cancelled c).
  - destruct (close_session_ok seq _ c1 l Hok1 ltac:(simpl; lia)) as (c2 & l2 & -> & Hok2 & _ & Hs2 & Hn2 & _ & Hi2). exists c2, l2.
    split; [done|]. split_and!; [rewrite Hs2; exact Hok2|rewrite Hn2; simpl; lia|]. rewrite <- length_idle, Hi2. pose proof (length_filter (λ x, x ≠ seq) (idle l)) as Hf.
    rewrite length_idle in Hf. lia.
  - destruct (Insert_ok r (idle_key seq) seq l (idleSession c) Hr) as (s1 & l1 & Hins & Hr1 & Hc1); [rewrite (rp_len _ _ Hr); lia|].
    simpl idleSession. rewrite Hins. simpl. eexists _, l1. split; [done|]. split_and!; simpl; [|lia|].
    + split; try done; [|apply Hok1]. simpl. rewrite Hc1. clear -Hok1 Hq. pose proof (ok_idle _ _ _ Hok1) as Hi. simpl in Hi.
      induction Hi as [|kv m Hkv Hi IH]; simpl; [constructor; [|constructor]; simpl; split_and!; [done|done|by rewrite lookup_delete_eq]|].
      repeat case_match; constructor; simpl; try (split_and!; [done|done|by rewrite lookup_delete_eq]); try done. by constructor.
    + rewrite <- (contents_length l1), Hc1. pose proof (put_length (idle_key seq) seq (contents l)) as Hp. rewrite contents_length in Hp. lia.
Qed.

(** The loop from the entries [l] on, those before, [a], being kept. *)
Lemma cleanup_loop_ok m expTime now L a l act c : ok L c (a ++ l) →
  ∃ qs l1 c1, cleanup_loop (length l) m expTime now (ad <$> hd_error l) act c = Some (qs, c1) ∧ ok L c1 (a ++ l1) ∧
    (∀ x, x ∈ idle l ↔ x ∈ qs ∨ x ∈ idle l1) ∧ Forall (λ x, default 0 (idleSince c !! x) < expTime ∧ x ∉ idle l1) qs ∧
    (length l1 ≤ length l)%nat ∧ (m `min` (act + length l) ≤ act + length l1)%nat ∧
    dead c1 = dead c ∧ sessions c1 = sessions c ∧ streams c1 = streams c ∧ sessionCounter c1 = sessionCounter c ∧ cancelled c1 = cancelled c.
Proof.
  revert a act c. induction l as [|x l IH]; intros a act c Hok; simpl.
  { exists [], [], c. split_and!; try done; [|lia]. intros y. split; [by right|]. by intros [H|H]; [apply not_elem_of_nil in H|]. }
  pose proof (ok_rep _ _ _ Hok) as Hr. destruct (node_at a (x :: l) _ Hr x [] l eq_refl) as (n & -> & Hk & Hv & _). cbn [mbind option_bind].
  rewrite (MoveToNext_ok a x l _ Hr). cbn [mbind option_bind]. rewrite Hv, Hk. pose proof (idle_distinct x l c L a Hok) as Hx.
  destruct (Z.ltb_spec (default 0 (idleSince c !! i_val x)) expTime) as [Hs|Hs]; cbn [negb].
  2: { destruct (IH (a ++ [x]) (S act) c) as (qs & l1 & c1 & -> & Hok1 & Hin & Hq & Hle & Hm & Hrest); [by rewrite <- app_assoc|].
    exists qs, (x :: l1), c1. rewrite <- app_assoc in Hok1. split_and!; try done; try (simpl; lia); try apply Hrest.
    - intros y. simpl. rewrite !elem_of_cons, Hin. naive_solver.
    - rewrite Forall_forall in *. intros y Hy. destruct (Hq y Hy) as [H1 H2]. split; [done|]. simpl. rewrite elem_of_cons. intros [->|?]; [|done]. apply Hx, Hin. by left. }
  destruct (Nat.ltb_spec act m) as [Ha|Ha].
  - destruct (IH (a ++ [x]) (S act) (set_idle (idleSession c) (<[i_val x := now]> (idleSince c)) c)) as (qs & l1 & c1 & -> & Hok1 & Hin & Hq & Hle & Hm & Hrest).
    { rewrite <- app_assoc. by apply set_since_ok. }
    exists qs, (x :: l1), c1. rewrite <- app_assoc in Hok1. split_and!; try done; try (simpl; lia); try apply Hrest.
    + intros y. simpl. rewrite !elem_of_cons, Hin. naive_solver.
    + rewrite Forall_forall in *. intros y Hy. destruct (Hq y Hy) as [H1 H2]. assert (i_val x ≠ y) as Hne by (intros <-; apply Hx, Hin; by left).
      simpl in H1. rewrite lookup_insert_ne in H1 by done. split; [done|]. simpl. rewrite elem_of_cons. intros [->|?]; done.
  - destruct (remove_item a x l _ Hr) as (s1 & -> & Hr1). cbn [mbind option_bind snd].
    destruct (IH a act (set_idle s1 (idleSince c) c)) as (qs & l1 & c1 & -> & Hok1 & Hin & Hq & Hle & Hm & Hrest); [by eapply drop_idle_ok|].
    cbn [mbind option_bind fst snd]. exists (i_val x :: qs), l1, c1. split_and!; try done; try (simpl; lia); try apply Hrest.
    + intros y. simpl. rewrite !elem_of_cons, Hin. naive_solver.
    + constructor; [|done]. split; [done|]. intros Hi. apply Hx, Hin. by right.
Qed.

Lemma cleanup_ok n m expTime now c l : good n c l →
  ∃ c1 l1, idleCleanupExpTime m expTime now c = Some c1 ∧ good n c1 l1 ∧ (m `min` length l ≤ length l1)%nat ∧
    ∀ seq, seq ∈ dead c1 → seq ∉ dead c → seq ∈ idle l ∧ default 0 (idleSince c !! seq) < expTime.
Proof.
  intros (Hok & Hn & Hlen). unfold idleCleanupExpTime. pose proof (ok_rep _ _ _ Hok) as Hr. rewrite (Iterate_ok l _ Hr). cbn [mbind option_bind].
  rewrite (rp_len _ _ Hr). destruct (cleanup_loop_ok m expTime now (sessions c) [] l 0 c Hok) as (qs & l1 & c1 & -> & Hok1 & Hin & Hq & Hle & Hm & Hd & Hs & _ & Hcn & _).
  cbn [mbind option_bind fst snd].
  assert (∀ q, q ∈ qs → q ∈ idle l) as Hqi by (intros q Hq1; apply Hin; by left).
  destruct (close_all_ok qs _ c1 l1 Hok1) as (c2 & l2 & Hc2 & Hok2 & Hd2 & Hs2 & Hcn2 & _ & Hi2).
  { rewrite Forall_forall. intros q Hq1. rewrite Hcn. destruct (idle_live _ _ _ Hok q (Hqi q Hq1)) as [HL _]. by apply (ok_live _ _ _ Hok). }
  exists c2, l2. split; [done|]. assert (idle l2 = idle l1) as Hi.
  { rewrite Hi2. apply filter_all. rewrite Forall_forall in *. intros q Hq1 Hq2. by destruct (Hq q Hq2). }
  assert (length l2 = length l1) as Hl by (by rewrite <- (length_idle l2), Hi, length_idle). split_and!.
  - split_and!; [rewrite Hs2, Hs; exact Hok2|by rewrite Hcn2, Hcn|lia].
  - rewrite Hl. exact Hm.
  - intros seq Hs1 Hs0. rewrite Hd2, Hd in Hs1. apply elem_of_union in Hs1 as [Hs1%elem_of_list_to_set|]; [|done]. rewrite Forall_forall in Hq.
    split; [by apply Hqi|]. by destruct (Hq seq Hs1).
Qed.

Lemma Close_ok n c l : good n c l →
  ∃ c1 l1, Close c = Some c1 ∧ good n c1 l1 ∧ sessions c1 = ∅ ∧ streams c1 = ∅ ∧ l1 = [] ∧ cancelled c1 = true ∧ (∀ seq, seq ∈ sessions c → seq ∈ dead c1).
Proof.
  intros (Hok & Hn & Hlen). unfold Close. set (c0 := mkClient _ _ _ _ _ _ _).
  assert (ok (sessions c) c0 l) as Hok0 by (destruct Hok; split; try done; simpl; set_solver).
  destruct (close_all_ok (elements (sessions c)) _ c0 l Hok0) as (c1 & l1 & -> & Hok1 & Hd & Hs & Hcn & Hca & Hi).
  { rewrite Forall_forall. intros q Hq%elem_of_elements. by apply (ok_live _ _ _ Hok). }
  rewrite list_to_set_elements_L, difference_diag_L in Hok1. exists c1, l1. split; [done|].
  assert (sessions c1 = ∅) as Hse by (rewrite Hs; simpl; set_solver).
  assert (idle l1 = []) as Hil.
  { destruct (idle l1) as [|q qs] eqn:E; [done|]. destruct (idle_live _ _ _ Hok1 q) as [Hq _]; [rewrite E; left|]. set_solver. }
  assert (l1 = []) as -> by (by destruct l1).
  split; [split_and!; [by rewrite Hse|by rewrite Hcn|simpl; lia]|]. split_and!; [done| |done|done|].
  - apply map_empty. intros q. apply eq_None_not_Some. intros Hq. apply (ok_streams _ _ _ Hok1) in Hq. set_solver.
  - intros seq Hq. rewrite Hd. apply elem_of_union. left. by rewrite list_to_set_elements_L.
Qed.

Lemma exec_step_ok n st c l : good n c l → n < 2 ^ 38 → ∃ c1 l1, exec_step st c = Some c1 ∧ good (n + 1) c1 l1.
Proof.
  intros Hg Hn. assert (∀ c l, good n c l → good (n + 1) c l) as Hup by (intros c' l' (H1 & H2 & H3); split_and!; [done|lia|lia]).
  destruct st as [dial opens|seq|r now seq|seq|m e now|]; simpl.
  - destruct (CreateStream_ok n dial opens c l Hg Hn) as (r & c1 & l1 & -> & Hg1 & _). by exists c1, l1.
  - eexists _, l. split; [done|]. by apply Hup, set_hook_ok.
  - by apply stream_ends_ok with (n := n) (l := l).
  - destruct Hg as (Hok & Hc & Hl). case_bool_decide as Hs; [|exists c, l; split; [done|]; by apply Hup].
    destruct (close_session_ok seq _ c l Hok) as (c1 & l1 & -> & Hok1 & _ & Hs1 & Hn1 & _ & Hi1); [by apply (ok_live _ _ _ Hok)|].
    exists c1, l1. split; [done|]. split_and!; [by rewrite Hs1|lia|]. rewrite <- length_idle, Hi1. pose proof (length_filter (λ x, x ≠ seq) (idle l)) as Hf.
    rewrite length_idle in Hf. lia.
  - destruct (cleanup_ok n m e now c l Hg) as (c1 & l1 & -> & Hg1 & _). exists c1, l1. split; [done|]. by apply Hup.
  - destruct (Close_ok n c l Hg) as (c1 & l1 & -> & Hg1 & _). exists c1, l1. split; [done|]. by apply Hup.
Qed.

Lemma run_steps_ok n steps c l : good n c l → n + Z.of_nat (length steps) < 2 ^ 38 →
  ∃ c1 l1, run_steps steps c = Some c1 ∧ good (n + Z.of_nat (length steps)) c1 l1.
Proof.
  revert n c l. induction steps as [|st steps IH]; intros n c l Hg Hn; cbn [run_steps length]; [exists c, l; split; [done|]; by rewrite Z.add_0_r|].
  cbn [length] in Hn. destruct (exec_step_ok n st c l Hg ltac:(lia)) as (c1 & l1 & -> & Hg1). cbn [mbind option_bind].
  destruct (IH (n + 1) c1 l1 Hg1 ltac:(lia)) as (c2 & l2 & -> & Hg2). exists c2, l2. split; [done|].
  replace (n + Z.of_nat (S (length steps))) with (n + 1 + Z.of_nat (length steps)) by lia. done.
Qed.

Lemma NewClient_good : good 0 NewClient [].
Proof.
  split_and!; try done. split; simpl; try done; try set_solver.
  - apply rep_empty.
  - intros seq [x Hx]. by rewrite lookup_empty in Hx.
Qed.

(** C22: However streams are opened, end, with their hook or before it is there, sessions die
    and idle ones are cleaned up, in fewer than [2 ^ 38] steps: no operation panics.
    A stream is opened on a session that is alive and has no other stream; a cleanup
    closes only idle sessions, which carry no stream, whose time is up, and leaves
    [minIdle] of them idle if there are as many; closing the client closes every session. *)
Theorem pool_exclusive steps : Z.of_nat (length steps) < 2 ^ 38 →
  ∃ c idles, run_steps steps NewClient = Some c ∧ ForEach (idleSession c) = Some (map (λ seq, (idle_key seq, seq)) idles) ∧
    (∀ seq, seq ∈ idles → seq ∈ sessions c ∧ seq ∉ dead c ∧ streams c !! seq = None) ∧
    (∀ dial opens, ∃ r c1, CreateStream dial opens c = Some (r, c1) ∧
      ∀ seq, r = Some seq → streams c !! seq = None ∧ seq ∉ dead c ∧ streams c1 !! seq = Some false ∧ seq ∈ sessions c1) ∧
    (∀ minIdle expTime now, ∃ c1, idleCleanupExpTime minIdle expTime now c = Some c1 ∧
      (minIdle `min` length idles ≤ len (idleSession c1))%nat ∧
      ∀ seq, seq ∈ dead c1 → seq ∉ dead c → seq ∈ idles ∧ default 0 (idleSince c !! seq) < expTime) ∧
    ∃ c1, Close c = Some c1 ∧ cancelled c1 = true ∧ sessions c1 = ∅ ∧ streams c1 = ∅ ∧ ∀ seq, seq ∈ sessions c → seq ∈ dead c1.
Proof.
  intros Hl. destruct (run_steps_ok 0 steps NewClient [] NewClient_good Hl) as (c & l & Hr & Hg). rewrite Z.add_0_l in Hg. exists c, (idle l).
  pose proof Hg as (Hok & Hn & Hlen). split_and!; [done| | | | |].
  - rewrite (ForEach_ok l) by apply Hok. f_equal. rewrite idle_contents, map_map. rewrite <- (map_id (contents l)) at 1.
    apply map_ext_in. intros kv Hkv. pose proof (ok_idle _ _ _ Hok) as Hi. rewrite Forall_forall in Hi. apply list_elem_of_In in Hkv.
    destruct (Hi kv Hkv) as (Hk & _). destruct kv as [k v]; simpl in *. by rewrite Hk.
  - intros seq Hq. destruct (idle_live _ _ _ Hok seq Hq). split_and!; [done|by apply (ok_live _ _ _ Hok)|done].
  - intros dial opens. destruct (CreateStream_ok _ dial opens c l Hg Hl) as (r & c1 & _ & Hc & _ & Hr1). by exists r, c1.
  - intros m e now. destruct (cleanup_ok _ m e now c l Hg) as (c1 & l1 & Hc & (Hok1 & _) & Hm & Hd). exists c1. split; [done|].
    rewrite length_idle, (rp_len _ _ (ok_rep _ _ _ Hok1)). done.
  - destruct (Close_ok _ c l Hg) as (c1 & l1 & Hc & _ & Hs & Hst & _ & Hca & Hd). by exists c1.
Qed.

Definition example_steps : list step :=
  [SCreate true true; SHook 1; SCreate true true; SHook 2; SEnd 5 100 1; SEnd 7 200 2; SCreate true true; SHook 2; SCleanup 0 150 300].

Lemma pool_exclusive_witness :
  ∃ c, run_steps example_steps NewClient = Some c ∧ dead c = {[1]} ∧ streams c = {[2 := true]} ∧ ForEach (idleSession c) = Some [].
Proof.
  destruct (pool_exclusive example_steps ltac:(vm_compute; reflexivity)) as (c & idles & Hr & _).
  exists c. split; [exact Hr|]. vm_compute in Hr. injection Hr as <-. vm_compute. split_and!; reflexivity.
Defined.

(** A stream that ends before its hook is set takes its session out of the pool: it is open
    and not idle, no stream uses it, and no cleanup closes it. *)
Lemma hook_too_late m e now :
  ∃ c, run_steps [SCreate true true; SEnd 0 1 1; SHook 1; SCleanup m e now] NewClient = Some c ∧
    sessions c = {[1]} ∧ dead c = ∅ ∧ streams c = ∅ ∧ ForEach (idleSession c) = Some [].
Proof. eexists. split; [reflexivity|]. split_and!; reflexivity. Qed.

(** [CreateStream] has found no idle session; the client is closed while it dials; then the
    session is made, and nothing closes it. *)
Lemma close_during_dial :
  getIdleSession NewClient = Some (None, NewClient) ∧
  ∃ c1 c2 c3, Close NewClient = Some c1 ∧ createSession true c1 = (Some 1, c2) ∧ open_stream true 1 c2 = Some (Some 1, c3) ∧
    cancelled c3 = true ∧ sessions c3 = {[1]} ∧ dead c3 = ∅.
Proof. split; [reflexivity|]. eexists _, _, _. split_and!; reflexivity. Qed.

(** The hook has found the session alive; the session dies; the hook puts it among the idle
    ones, and the next stream is refused although the server could be dialled. *)
Lemma dies_before_insert :
  ∃ c c1 c2 c3, run_steps [SCreate true true; SHook 1] NewClient = Some c ∧ dead c = ∅ ∧ cancelled c = false ∧
    exec_step (SDie 1) c = Some c1 ∧ hook_insert 0 100 1 c1 = Some c2 ∧
    ForEach (idleSession c2) = Some [(idle_key 1, 1)] ∧ dead c2 = {[1]} ∧ CreateStream true true c2 = Some (None, c3).
Proof.
  eexists _, _, _, _. split; [vm_compute; reflexivity|]. split; [vm_compute; reflexivity|]. split; [vm_compute; reflexivity|].
  split; [vm_compute; reflexivity|]. split; [vm_compute; reflexivity|]. split; [vm_compute; reflexivity|].
  split; vm_compute; reflexivity.
Qed.
